(* ===== verification/_CoqProject ===== *)
-Q . S2P
Prelude.v
Order.v
Hashing.v
Store.v
SmtPath.v
SmtSpec.v
SmtTree.v
SmtParallel.v
SmtOps.v
SmtCorrect.v
SmtBatch.v
SmtProof.v
SmtTheorems.v
Merkle.v
MerkleTheorems.v
Text.v
Address.v
GasCoin.v
Transaction.v
TypesTheorems.v
Blockchain.v
BlockchainTheorems.v
Scheduler.v
Mempool.v
MempoolTheorems.v
Proposer.v
ProposerTheorems.v
NativeMath.v
NativeMathTheorems.v
GasMeter.v
ChangeSet.v
ChangeSetTheorems.v
ApplyBatch.v
StateManager.v
StateSupply.v
StateApply.v
StateRoot.v
StateRootTheorems.v
StateFrame.v
StateTheorems.v
StateRecords.v
StateLedger.v
StateSmt.v
StateSmtTheorems.v
StateStartup.v
StateStartupTheorems.v
Committee.v
DagBlock.v
DagStore.v
DagStoreTheorems.v
Protocol.v
Committer.v
CommitSupport.v
CommitRules.v
CommitAgreement.v
Linearizer.v
TotalOrder.v
BlockManager.v
DagCore.v
DagCoreTheorems.v
DagRecovery.v
DagSystem.v
DagLimits.v
History.v
ChainReplay.v
HistoryStore.v
HistoryRecovery.v
HistoryTheorems.v
TypeArgs.v
Execution.v
ExecutionTheorems.v
ExecutionRuns.v
Executor.v
ExecutorTheorems.v
CheckpointEngine.v
CheckpointTheorems.v
CheckpointDurable.v
CheckpointRuns.v
DagEngine.v
DagEngineTheorems.v
