(* ===== verification/Prelude.v ===== *)
(** * Kanari: a verification library for the Kanari node

    The program (jamesatomc/kanari-sdk) is a Move-based blockchain node in Rust.
    Users sign transactions; a node verifies and admits them to a mempool,
    proposes conflict-free sets of them to the consensus layer, executes the
    committed ones in waves with the Move VM, merges their change sets, stores
    the resulting state in a key-value database under a sparse Merkle tree, and
    appends a checkpoint that carries the state root to a chain.

    ** Parts, files and source

    Shared:
    - [Prelude]: bytes, the [anyhow] result, [let?], machine-integer helpers,
      the state monad [st] of methods on a mutable receiver, tactics, generic
      lemmas.  [Order]: byte-string order, stable sorts, [BTreeMap] iteration.
      [Text]: the string operations of the standard library on UTF-8 bytes.

    State tree ([crates/smt]):
    - [Hashing] (hash.rs, kanari-crypto blake3.rs): leaf and node hashes over the
      class [Blake3].  [Store]: the key-value database as a class with laws.
    - [SmtPath], [SmtSpec]: bit paths, and the reference root of a finite map
      of entries, the specification the tree refines.
    - [SmtTree], [SmtParallel], [SmtOps] (sparse_merkle.rs): node cache, staged
      overlays, the bucketed routines, every operation of [SparseMerkleTree].
    - [SmtCorrect], [SmtBatch], [SmtProof], [SmtTheorems]: the
      invariant, refinement of the reference root, equivalence of the bucketed
      routines, proofs of membership, and three defects.
    - [Merkle], [MerkleTheorems] (merkle.rs): transaction Merkle trees.

    Types ([crates/kanari-types]):
    - [Address] (address.rs and the Move account address), [GasCoin]
      (gas_coin.rs), [Transaction] (transaction.rs), [TypesTheorems].

    Node core ([crates/kanari-core]):
    - [Blockchain], [BlockchainTheorems] (blockchain.rs, consensus.rs): the
      checkpoint chain, replay index and retention.
    - [Scheduler] (kanari-move-runtime-v1 scheduler.rs, engine.rs): waves and
      conflict-free selection.
    - [Mempool], [MempoolTheorems] (engine/mempool.rs, engine.rs,
      engine/apply_checkpoint.rs): admission, removal, drain.
    - [Proposer], [ProposerTheorems] (engine.rs): filling a DAG vertex or an
      owned-object checkpoint, the nonce watermark, the suggested nonce.
    - [ApplyBatch] (engine.rs): cutting the change sets of a checkpoint into
      conflict-free batches and applying them merged.

    Execution ([move-execution/v1/kanari-move-runtime-v1], natives):
    - [ChangeSet], [ChangeSetTheorems] (changeset.rs): effects of an execution,
      merging, the access manifest, the reported effects.
    - [GasMeter] (kanari_gas_meter.rs): every charge callback of the VM.
    - [NativeMath], [NativeMathTheorems] (kanari-system-natives
      math_calculate): the 33 arithmetic natives and their gas schedule.
    - [StateManager] (state.rs, common/): the overlay above the store, owner
      records, index lists, coin bytes, objects, access versions.
    - [StateSupply] (state/supply.rs): resolved balances, the visible-supply
      cache, locked-coin records, repairs and supply invariants.
    - [StateApply] (state/apply.rs): applying a change set phase by phase, with
      and without validation, and the batched burns.
    - [StateRoot], [StateSmt] (state.rs, persistent_store.rs): the canonical
      entries, the changes of the tree an overlay stands for, root and commit
      without and with the incremental tree, and its repair.
    - [StateStartup] (state.rs): [try_new], with genesis as an argument.
    - [StateFrame], [StateTheorems], [StateRecords], [StateLedger],
      [StateRootTheorems], [StateSmtTheorems], [StateStartupTheorems]:
      their theorems.

    Execution and checkpoints ([crates/kanari-core]):
    - [TypeArgs] (engine.rs, move-core-types): type arguments of calls, parsed
      and printed.
    - [Execution], [ExecutionTheorems], [ExecutionRuns] (engine.rs, kanari-types
      gas_v1.rs and coin.rs): one transaction: gas, the check of declared objects,
      native transfers and burns, calls of the Move runtime (the record
      [MoveRuntime]), settlement and charged failures.
    - [Executor], [ExecutorTheorems] (engine.rs): a batch, serially, in
      speculative waves, or on the conflict-free fast path.
    - [History], [ChainReplay], [HistoryStore], [HistoryRecovery],
      [HistoryTheorems] (engine.rs, engine/bootstrap.rs): the records of
      checkpoints and transactions, snapshots, retention, recovery and start.
    - [CheckpointEngine] (engine/apply_checkpoint.rs, engine/produce_dag_vertex.rs,
      engine.rs): preparing the state of a checkpoint, committing it with its
      marker, checkpoints of committed batches and of the fast path.
      [CheckpointTheorems], [CheckpointDurable], [CheckpointRuns]: its theorems.

    Consensus ([crates/mysticeti], dag and consensus):
    - [Committee], [DagBlock] (committee.rs, block.rs, crypto.rs,
      threshold_clock.rs): stakes and quorums, blocks and their verification.
    - [DagStore], [DagStoreTheorems] (storage/): the log, the index of blocks and
      their recovery.  [BlockManager]: blocks that wait for their parents.
    - [Protocol], [Committer], [CommitSupport], [CommitRules], [CommitAgreement]
      (consensus crate): the protocols and their thresholds, the direct and
      indirect commit rules, and their agreement.
    - [Linearizer], [TotalOrder] (dag consensus.rs): from leaders to sub-DAGs.
    - [DagCore], [DagCoreTheorems], [DagRecovery] (core.rs, core/): the core of a
      validator, proposing, committing, restarting.
    - [DagSystem]: all validators with faulty ones as a step relation, its
      invariant and promises.  [DagLimits]: where the code does less.
    - [DagEngine], [DagEngineTheorems] (kanari-core engine/produce_dag_vertex.rs):
      the node on top of it: vertices, proposals, batches, finalization, sync.

    ** How state and effects are modelled

    A [u8] is a [Z] below 256, wider integers are [Z] with saturation, checks or
    panics written out.  [Result] is [result]; a method on [&mut self] is a
    function to the new receiver and a result, so a failed call shows what it
    left behind.  Hash maps and sets are [gmap]/[gset]; where iteration order is
    observable ([BTreeMap]) it is [btree_iter].  Locks are sequential: an
    operation runs on one state, which is what holding the write lock gives.

    Third-party code is a parameter: BLAKE3 ([Blake3], 32-byte output), the
    database ([Store]), hex ([Hex], with a verified instance [RealHex]), BCS
    ([Bcs]), SHA3-256, Unicode case mapping, the signature schemes, Move
    identifiers and type tags, environment variables.  Soundness theorems about
    hashes name the inputs that are hashed and conclude "or two of these collide"
    instead of assuming that there are no collisions.

    ** What the theorems show

    - the tree: insert, delete and batched commits refine the map of entries;
      the bucketed routines equal the plain ones; proofs are complete and sound;
    - the chain: linkage, bounded retention, replay rejection, lookup, and what
      exactly it remembers of all checkpoints added;
    - transactions: verification covers the exact payload, amounts and addresses
      round-trip, native transfers name a mutable input;
    - scheduling: waves and selections touch no object twice, nothing is lost;
    - the mempool: all-or-nothing admission, exact counters, limits on every
      reachable state, no readmission of a committed nonce; proposals are within
      the vertex limits and never empty without cause;
    - change sets: building accounts for every credit and debit, merging is a
      monoid, effects classify each change once; batches of the apply scheduler
      are conflict-free, in order and lose no write;
    - execution: the gas meter bounds every run by its limit; each native
      computes the exact mathematical result or the documented abort;
    - state: a change set is applied atomically, every debit is covered, the
      total supply moves by exactly the owner deltas, and a change set built from
      transfers, mints and burns leaves every owner the balance it started from
      plus its credits less its debits; optimistic validation is exact; the root announced for a pending
      overlay is the root of the canonical entries, and the commit leaves store
      and tree on them; start-up rebuilds the indexes the records call for and
      runs genesis once;
    - a transaction: gas is settled exactly, native transfers conserve coins,
      access is granted exactly to declared and unchanged objects, failures are
      charged within the balance; a batch in waves refines a sequence of atomic
      steps in its order;
    - checkpoints: a committed batch makes one valid checkpoint of what was not
      committed before; replicas accept it and then have the same ledger; the
      commit is atomic: after a crash a start finds the chain and the state before
      it or those after it; over a life of commits no committed checkpoint is lost,
      however often starts crash;
    - consensus: two honest validators never disagree on what they deliver, never
      equivocate, panic only on a proposal over the size limit of the log, deliver
      with each decided leader its whole past, each block once and in causal order,
      and recover from their log, for every supported protocol within its fault
      bound;
    - the node: in every reachable state of the validators the chains of two
      honest nodes extend one another, and are equal with the states after equally
      many sub-DAGs; no committed sub-DAG is lost; vertices carry exactly the
      verified blocks; requests for the ancestry of a checkpoint are answered.

    ** Conditions to know

    Validators restart only after a first proposal and crash as processes: the log
    survives whole, synced or not ([DagSystem.node_restart];
    [DagLimits.restart_before_proposal] shows the excluded case); entries fit into
    a map of the log ([DagStore.wal_write]); no two blocks have one reference
    ([DagLimits.block_malleable]).  The history theorems are for nodes without
    history retention and without a JSON snapshot left from another configuration
    ([HistoryTheorems.pruned_history_lost],
    [CheckpointRuns.Commit.stale_snapshot_rewinds]).  Roots are canonical when every
    object is in its indexes ([StateRecords.sharing_splits_roots]).  The supply
    checks of the node bound its cached counter, not the sum of the wallets
    ([ExecutorTheorems.Runs.whole_coin_transfer_duplicates]).

    ** Fuel and bounds

    Loops that are not structural run on fuel that is shown to suffice: Merkle
    levels ([halving]), trimming and parsing loops (the length of the input),
    the tree recursion (256 levels, structural), the binary
    search of the 256-bit square root (258 iterations) and its power loop (33 steps,
    one per bit of a 32-bit exponent),
    the parser of type tags (the length of the text), the block manager (two per
    block received and one per pending one), the walks of the committer and the linearizer
    (the rounds below the start, and one step per entry of the log), and the search
    for the ancestry of a checkpoint (the roots and all parents in the store).

    ** Not modelled

    The Move VM and its verifier (third_party/move), the network, simulator,
    orchestrator and command line of the consensus crates and the bytes of their
    log, RocksDB, networking and RPC (crates/kanari-node and the kanari-rpc
    crates), the wallet, faucet and authentication services, the indexer, the
    framework build scripts and the Move packages: input/output, generated or
    foreign code.  Of the engine the read-only queries, the audit log and the
    metrics, and of the runtime the VM driver, the object cache and the input
    validation are not modelled; the driver is the record [MoveRuntime] of the
    operations the engine calls.  Concurrency inside one operation (worker threads
    on snapshots) is modelled by its sequential result.  BCS and the parser of
    Move type names are the classes [StateCodecs], [HistoryCodecs] and [TypeTags],
    whose laws say that the values of the Rust types survive
    encoding; [ToyCodecs] shows that they can hold. *)

From stdpp Require Import base gmap list strings fin_maps sorting.
From Stdlib Require Import ZArith Lia.

Declare Scope kanari_scope.
Delimit Scope kanari_scope with kanari.
Open Scope kanari_scope.

(** ** Bytes, vectors of bytes and the [anyhow] error channel *)

(** A [u8] is a [Z] in [0, 256); a [Vec<u8>], a [&[u8]] and a [[u8; 32]] are
    lists of them. *)
Abbreviation bytes := (list Z).

Definition byte_ok (b : Z) : Prop := (0 ≤ b < 256)%Z.
Definition bytes_ok (l : bytes) : Prop := Forall byte_ok l.

(** [anyhow::Result<A>]: the message identifies the failing branch. *)
Inductive result (A : Type) : Type :=
| Ok (a : A)
| Err (msg : string).
Arguments Ok {A} a.
Arguments Err {A} msg.

Definition result_bind {A B} (r : result A) (k : A → result B) : result B :=
  match r with Ok a => k a | Err e => Err e end.

Definition is_ok {A} (r : result A) : bool :=
  match r with Ok _ => true | Err _ => false end.

(** Rust's [?]: [let? x := e in k] returns early with the error of [e]. *)
Notation "'let?' x ':=' e 'in' k" := (result_bind e (fun x => k))
  (at level 10, x name, e at level 200, k at level 200) : kanari_scope.
Notation "'let?' ' p ':=' e 'in' k" := (result_bind e (fun p => k))
  (at level 10, p strict pattern, e at level 200, k at level 200) : kanari_scope.

(** [anyhow::ensure!] *)
Definition ensure (b : bool) (msg : string) : result unit :=
  if b then Ok tt else Err msg.

(** [slice::starts_with], [str::starts_with] *)
Definition starts_with (prefix key : bytes) : bool :=
  bool_decide (take (length prefix) key = prefix).

(** ** Machine integers *)

Definition u64_max : Z := 2 ^ 64 - 1.

Definition saturating_add (a b : Z) : Z := Z.min (a + b) u64_max.
Definition saturating_sub (a b : Z) : Z := Z.max (a - b) 0.
Definition checked_add (a b : Z) : option Z :=
  if (a + b <=? u64_max)%Z then Some (a + b)%Z else None.

(** ** Tactics *)

Create HintDb kanari discriminated.

(** Case analysis on the scrutinee of the first [match] in the goal. *)
Ltac case_goal :=
  match goal with
  | |- context [match ?x with _ => _ end] => destruct x eqn:?
  end.

(** Case analysis on the scrutinee of the first [match] in a hypothesis. *)
Ltac case_hyp H :=
  match type of H with
  | context [match ?x with _ => _ end] => destruct x eqn:?
  end.

(** Peel the successful [?]s off a hypothesis [e = Ok _]. *)
Ltac inv_ok H :=
  repeat match type of H with
  | result_bind ?e _ = Ok _ =>
      let E := fresh "E" in
      destruct e eqn:E; simpl in H; [|discriminate H]
  | ensure ?b _ = Ok _ => unfold ensure in H
  | (if ?b then _ else Err _) = Ok _ =>
      let E := fresh "E" in destruct b eqn:E; [|discriminate H]
  | Ok _ = Ok _ => injection H; clear H; intros; subst
  end.

(** ** Generic lemmas *)

Lemma result_bind_ok {A B} (r : result A) (k : A → result B) b :
  result_bind r k = Ok b ↔ ∃ a, r = Ok a ∧ k a = Ok b.
Proof. destruct r; simpl; split; [eauto|by intros (? & [= ->] & ?)|done|by intros (? & ? & ?)]. Qed.

Lemma ensure_ok b msg u : ensure b msg = Ok u ↔ b = true.
Proof. destruct b, u; simpl; naive_solver. Qed.

(** [HashMap]/[RocksDB] semantics of a sequence of optional writes. *)
Definition put_or_remove {V} (k : bytes) (v : option V) (m : gmap bytes V) : gmap bytes V :=
  match v with Some x => <[k := x]> m | None => delete k m end.

Lemma lookup_put_or_remove {V} (k j : bytes) (v : option V) (m : gmap bytes V) :
  put_or_remove k v m !! j = if decide (k = j) then v else m !! j.
Proof.
  destruct v; simpl.
  - apply lookup_insert.
  - rewrite lookup_delete. case_decide; done.
Qed.

Lemma list_eq_nth {A} (d : A) (l k : list A) :
  length l = length k →
  (∀ i, i < length l → nth i l d = nth i k d) → l = k.
Proof. intros Hl Hn. by eapply nth_ext. Qed.

Lemma bytes_ok_nth l i : bytes_ok l → byte_ok (nth i l 0%Z).
Proof.
  intros H. destruct (decide (i < length l)) as [Hi|Hi].
  - apply (proj1 (Forall_forall _ _) H), list_elem_of_In, nth_In; lia.
  - rewrite nth_overflow by lia. unfold byte_ok; lia.
Qed.
#[export] Hint Resolve bytes_ok_nth : kanari.

Lemma nth_insert {A} (dflt : A) (l : list A) i j b :
  nth j (<[i:=b]> l) dflt = if decide (i = j ∧ i < length l) then b else nth j l dflt.
Proof.
  rewrite !nth_lookup. case_decide as H.
  - destruct H as [-> H]. by rewrite list_lookup_insert_eq.
  - destruct (decide (i = j)) as [->|Hne].
    + by rewrite list_insert_ge by lia.
    + by rewrite list_lookup_insert_ne.
Qed.

Lemma nth_take {A} (dflt : A) n i (l : list A) :
  i < n → nth i (take n l) dflt = nth i l dflt.
Proof.
  intros Hi. rewrite !nth_lookup, lookup_take_lt by done. done.
Qed.

(** Stated for an abstract step so that no concrete one is ever unfolded. *)
Lemma land_pow2_zero x n :
  (0 ≤ n)%Z → (Z.land x (Z.shiftl 1 n) =? 0)%Z = negb (Z.testbit x n).
Proof.
  intros Hn. rewrite Z.shiftl_1_l. destruct (Z.testbit x n) eqn:E; simpl.
  - apply Z.eqb_neq. intros H0. apply (f_equal (λ z, Z.testbit z n)) in H0.
    rewrite Z.land_spec, Z.pow2_bits_true, E, Z.bits_0 in H0 by done. done.
  - apply Z.eqb_eq, Z.bits_inj'. intros m Hm.
    rewrite Z.land_spec, Z.bits_0, Z.pow2_bits_eqb by done.
    destruct (n =? m)%Z eqn:Enm; [|by rewrite andb_false_r].
    apply Z.eqb_eq in Enm as <-. by rewrite E.
Qed.

Lemma filter_all {A} (P : A → Prop) `{!∀ x, Decision (P x)} (l : list A) :
  Forall P l → filter P l = l.
Proof. induction 1 as [|x l Hx _ IH]; [done|]. by rewrite filter_cons_True, IH. Qed.

Lemma filter_nothing {A} (P : A → Prop) `{!∀ x, Decision (P x)} (l : list A) :
  Forall (λ x, ¬ P x) l → filter P l = [].
Proof. induction 1 as [|x l Hx _ IH]; [done|]. by rewrite filter_cons_False. Qed.

Lemma filter_nil_complement {A} (P : A → Prop) `{!∀ x, Decision (P x)} (l : list A) :
  filter P l = [] → filter (λ x, ¬ P x) l = l.
Proof.
  intros E. apply filter_all, Forall_forall. intros x Hx HP. by apply (filter_nil_not_elem_of P l x).
Qed.

Lemma Forall_sublist {A} (P : A → Prop) (l k : list A) : sublist l k → Forall P k → Forall P l.
Proof.
  induction 1; [done|intros [? ?]%Forall_cons; by constructor; auto|intros [_ ?]%Forall_cons; auto].
Qed.

Lemma StronglySorted_sublist {A} (P : A → A → Prop) (l k : list A) :
  l `sublist_of` k → StronglySorted P k → StronglySorted P l.
Proof.
  induction 1 as [|x l k Hlk IH|x l k Hlk IH]; [done| |]; intros [Hs HF]%StronglySorted_inv; [|auto].
  constructor; [auto|]. rewrite Forall_forall in HF |- *. intros y Hy. apply HF. by eapply elem_of_sublist.
Qed.

Lemma fold_left_cons {A B} (f : A → B → A) x l a :
  fold_left f (x :: l) a = fold_left f l (f a x).
Proof. reflexivity. Qed.

(** ** Methods on a mutable receiver

    A [&self]/[&mut self] method returning [Result<A>] is a function from the
    receiver to its new state and a result; the state survives an early [?]
    return, as it does in Rust. *)
Definition st (S A : Type) : Type := S → S * result A.

#[export] Instance st_ret {S} : MRet (st S) := λ A a s, (s, Ok a).
#[export] Instance st_bind {S} : MBind (st S) := λ A B k m s,
  match m s with
  | (s', Ok a) => k a s'
  | (s', Err e) => (s', Err e)
  end.

Definition st_lift {S A} (r : result A) : st S A := λ s, (s, r).
Definition st_gets {S A} (f : S → A) : st S A := λ s, (s, Ok (f s)).
Definition st_modify {S} (f : S → S) : st S unit := λ s, (f s, Ok tt).

(** [anyhow::Context::context]: the outer message replaces the inner one. *)
Definition st_context {S A} (m : st S A) (msg : string) : st S A := λ s,
  match m s with
  | (s', Ok a) => (s', Ok a)
  | (s', Err _) => (s', Err msg)
  end.

Lemma st_bind_ok {S A B} (m : st S A) (k : A → st S B) s s' a :
  m s = (s', Ok a) → (m ≫= k) s = k a s'.
Proof. unfold mbind, st_bind. by intros ->. Qed.

Lemma st_bind_inv {S A B} (m : st S A) (k : A → st S B) s s2 b :
  (m ≫= k) s = (s2, Ok b) → ∃ s1 a, m s = (s1, Ok a) ∧ k a s1 = (s2, Ok b).
Proof.
  unfold mbind, st_bind. destruct (m s) as [s1 [a|e]]; [eauto|done].
Qed.
