(* ===== verification/Order.v ===== *)
(** * Ordering of byte strings, stable sorting and [BTreeMap] iteration

    The parts of Rust's standard library the tree relies on: the
    lexicographic [Ord] of byte arrays, [slice::sort_by_key] (a stable sort;
    its result is unique, so insertion sort models it), [Vec::dedup_by] and
    the ordered iteration of a [BTreeMap] keyed by byte strings. *)

From S2P Require Import Prelude.
From stdpp Require Import base list gmap sorting.
From Stdlib Require Import ZArith Lia.

Fixpoint bytes_leb (a b : bytes) : bool :=
  match a, b with
  | [], _ => true
  | _ :: _, [] => false
  | x :: a, y :: b => (x <? y)%Z || ((x =? y)%Z && bytes_leb a b)
  end.

Definition bytes_le (a b : bytes) : Prop := bytes_leb a b = true.

#[export] Instance bytes_le_dec : RelDecision bytes_le :=
  λ a b, decide (bytes_leb a b = true).

#[export] Instance bytes_le_total : Total bytes_le.
Proof.
  unfold bytes_le. intros a. induction a as [|x a IH]; intros [|y b]; simpl; auto.
  destruct (Z.ltb_spec x y); [by left|]. destruct (Z.ltb_spec y x); [by right|].
  rewrite !(proj2 (Z.eqb_eq _ _)) by lia. simpl. apply IH.
Qed.

#[export] Instance bytes_le_trans : Transitive bytes_le.
Proof.
  unfold bytes_le. intros a. induction a as [|x a IH]; intros [|y b] [|z c]; simpl; try done.
  rewrite !orb_true_iff, !andb_true_iff, !Z.ltb_lt, !Z.eqb_eq.
  intros [H1|[H1 H1']] [H2|[H2 H2']]; [left; lia..|].
  right. split; [lia|]. eauto.
Qed.

#[export] Instance bytes_le_anti : AntiSymm (=) bytes_le.
Proof.
  unfold bytes_le. intros a. induction a as [|x a IH]; intros [|y b]; simpl; try done.
  rewrite !orb_true_iff, !andb_true_iff, !Z.ltb_lt, !Z.eqb_eq.
  intros [H1|[H1 H1']] [H2|[H2 H2']]; [lia..|]. f_equal; auto.
Qed.

#[export] Instance bytes_le_refl : Reflexive bytes_le.
Proof.
  unfold bytes_le. intros a. induction a as [|x a IH]; simpl; [done|].
  by rewrite Z.eqb_refl, IH, orb_true_r.
Qed.

Section Sort.
Context {V : Type}.
Local Abbreviation entry := (bytes * V)%type.

Fixpoint insert_sorted (x : entry) (l : list entry) : list entry :=
  match l with
  | [] => [x]
  | y :: l' => if bytes_leb x.1 y.1 then x :: l else y :: insert_sorted x l'
  end.

(** [entries.sort_by_key(|entry| entry.0)] *)
Definition sort_by_key (l : list entry) : list entry := foldr insert_sorted [] l.

(** [entries.windows(2).all(|pair| pair[0].0 <= pair[1].0)] *)
Fixpoint is_sorted (l : list entry) : bool :=
  match l with
  | x :: ((y :: _) as l') => bytes_leb x.1 y.1 && is_sorted l'
  | _ => true
  end.

(** [entries.dedup_by(|left, right| left.0 == right.0)]: of consecutive
    entries with one key the first stays. *)
Fixpoint dedup_from (prev : bytes) (l : list entry) : list entry :=
  match l with
  | [] => []
  | x :: l => if decide (x.1 = prev) then dedup_from prev l else x :: dedup_from x.1 l
  end.
Definition dedup_by_key (l : list entry) : list entry :=
  match l with [] => [] | x :: l => x :: dedup_from x.1 l end.

(** Iteration over a [BTreeMap]. *)
Definition btree_iter (m : gmap bytes V) : list entry := sort_by_key (map_to_list m).

(** ** Facts *)

Definition key_le (x y : entry) : Prop := bytes_le x.1 y.1.

Lemma insert_sorted_perm x l : insert_sorted x l ≡ₚ x :: l.
Proof.
  induction l as [|y l IH]; simpl; [done|]. destruct (bytes_leb _ _); [done|].
  rewrite IH. apply Permutation_swap.
Qed.

Lemma sort_by_key_perm l : sort_by_key l ≡ₚ l.
Proof.
  induction l as [|x l IH]; simpl; [done|]. by rewrite insert_sorted_perm, IH.
Qed.

Lemma insert_sorted_sorted x l :
  StronglySorted key_le l → StronglySorted key_le (insert_sorted x l).
Proof.
  induction l as [|y l IH]; intros Hs; simpl; [by repeat constructor|].
  apply StronglySorted_inv in Hs as [Hs Hy]. destruct (bytes_leb x.1 y.1) eqn:E.
  - constructor; [by constructor|]. constructor; [done|].
    eapply Forall_impl; [exact Hy|]. intros z Hz. by apply (bytes_le_trans _ y.1).
  - constructor; [by apply IH|]. rewrite insert_sorted_perm. constructor; [|done].
    destruct (total bytes_le x.1 y.1) as [Hle|Hle]; [|done].
    unfold bytes_le in Hle. congruence.
Qed.

Lemma sort_by_key_sorted l : StronglySorted key_le (sort_by_key l).
Proof.
  induction l as [|x l IH]; simpl; [constructor|]. by apply insert_sorted_sorted.
Qed.

Lemma is_sorted_sound l : is_sorted l = true → StronglySorted key_le l.
Proof.
  intros H. apply Sorted_StronglySorted.
  { intros x y z. apply bytes_le_trans. }
  induction l as [|x [|y l] IH]; [by constructor..|].
  cbn [is_sorted] in H. apply andb_true_iff in H as [H1 H2].
  constructor; [by apply IH|]. by constructor.
Qed.

(** Stability: among equal keys the first entry keeps precedence. *)
Lemma insert_sorted_map x l :
  (list_to_map (insert_sorted x l) : gmap bytes V) = list_to_map (x :: l).
Proof.
  induction l as [|y l IH]; [done|]. cbn [insert_sorted].
  destruct (bytes_leb x.1 y.1) eqn:E; [done|].
  destruct x as [kx vx], y as [ky vy]. simpl in *. rewrite IH.
  apply insert_insert_ne. intros ->. pose proof (bytes_le_refl kx) as Hr.
  unfold bytes_le in Hr. congruence.
Qed.

Lemma sort_by_key_map l :
  (list_to_map (sort_by_key l) : gmap bytes V) = list_to_map l.
Proof.
  induction l as [|[k v] l IH]; [done|]. simpl. rewrite insert_sorted_map. simpl.
  by rewrite IH.
Qed.

Lemma dedup_from_map (k : bytes) (v : V) l :
  <[k := v]> (list_to_map (dedup_from k l) : gmap bytes V) = <[k := v]> (list_to_map l).
Proof.
  revert k v. induction l as [|[k' v'] l IH]; intros k v; [done|]. cbn [dedup_from].
  case_decide as E; simpl in *.
  - subst. rewrite IH. by rewrite insert_insert_eq.
  - f_equal. apply IH.
Qed.

Lemma dedup_by_key_map l :
  (list_to_map (dedup_by_key l) : gmap bytes V) = list_to_map l.
Proof. destruct l as [|[k v] l]; [done|]. apply dedup_from_map. Qed.

Lemma dedup_from_spec k l :
  StronglySorted key_le l → Forall (λ y, bytes_le k y.1) l →
  NoDup (map fst (dedup_from k l)) ∧ k ∉ map fst (dedup_from k l)
  ∧ Forall (λ y, bytes_le k y.1) (dedup_from k l).
Proof.
  revert k. induction l as [|x l IH]; intros k Hs Hk; simpl.
  { repeat split; [constructor|by intros ?%elem_of_nil|constructor]. }
  apply StronglySorted_inv in Hs as [Hs Hx]. apply Forall_cons in Hk as [Hkx Hk].
  case_decide as E; [by apply IH|].
  destruct (IH x.1 Hs) as (H1 & H2 & H3); [exact Hx|]. simpl. repeat split.
  - by constructor.
  - intros [->|Hin]%elem_of_cons; [done|]. apply E.
    apply list_elem_of_fmap in Hin as (y & -> & Hy).
    rewrite Forall_forall in H3. by apply (anti_symm bytes_le), Hkx; apply H3.
  - constructor; [done|]. eapply Forall_impl; [exact H3|]. intros y Hy.
    by apply (bytes_le_trans _ x.1).
Qed.

Lemma dedup_by_key_NoDup l :
  StronglySorted key_le l → NoDup (map fst (dedup_by_key l)).
Proof.
  destruct l as [|x l]; intros Hs; simpl; [constructor|].
  apply StronglySorted_inv in Hs as [Hs Hx].
  destruct (dedup_from_spec x.1 l Hs Hx) as (H1 & H2 & _). by constructor.
Qed.

Lemma dedup_by_key_incl l y : y ∈ dedup_by_key l → y ∈ l.
Proof.
  assert (H : ∀ k l, y ∈ dedup_from k l → y ∈ l).
  { clear. intros k l. revert k. induction l as [|x l IH]; intros k; simpl; [done|].
    case_decide; rewrite ?elem_of_cons; naive_solver. }
  destruct l as [|x l]; [done|]. simpl. rewrite !elem_of_cons. naive_solver.
Qed.

Lemma list_to_map_keys (l : list (bytes * V)) k :
  k ∈ map fst l ↔ is_Some ((list_to_map l : gmap bytes V) !! k).
Proof.
  split.
  - intros Hk. apply not_eq_None_Some. intros E. by apply not_elem_of_list_to_map_2 in E.
  - intros [v Hv]. apply elem_of_list_to_map_2 in Hv. apply list_elem_of_fmap.
    by exists (k, v).
Qed.

Lemma dedup_sort_keys (l : list (bytes * V)) k :
  k ∈ map fst (dedup_by_key (sort_by_key l)) ↔ k ∈ map fst l.
Proof. by rewrite !list_to_map_keys, dedup_by_key_map, sort_by_key_map. Qed.

Lemma btree_iter_perm (m : gmap bytes V) : btree_iter m ≡ₚ map_to_list m.
Proof. apply sort_by_key_perm. Qed.

Lemma btree_iter_NoDup (m : gmap bytes V) : NoDup (map fst (btree_iter m)).
Proof. rewrite btree_iter_perm. apply NoDup_fst_map_to_list. Qed.

Lemma btree_iter_map (m : gmap bytes V) : (list_to_map (btree_iter m) : gmap bytes V) = m.
Proof. unfold btree_iter. by rewrite sort_by_key_map, list_to_map_to_list. Qed.
End Sort.

(** ** Sorted key lists *)

Lemma sorted_keys {V} (l : list (bytes * V)) :
  StronglySorted key_le l → StronglySorted bytes_le (map fst l).
Proof.
  induction 1 as [|x l Hs IH Hx]; [constructor|]. constructor; [done|].
  apply Forall_fmap. exact Hx.
Qed.

Lemma dedup_by_key_sorted {V} (l : list (bytes * V)) :
  StronglySorted key_le l → StronglySorted key_le (dedup_by_key l).
Proof.
  assert (H : ∀ k (l : list (bytes * V)), StronglySorted key_le l →
    StronglySorted key_le (dedup_from k l)
    ∧ ∀ P : bytes * V → Prop, Forall P l → Forall P (dedup_from k l)).
  { clear. intros k l Hs. revert k. induction Hs as [|x l Hs IH Hx]; intros k; cbn [dedup_from].
    { split; [constructor|done]. }
    case_decide.
    - destruct (IH k) as [H1 H2]. split; [done|]. intros P [_ HP]%Forall_cons. by apply H2.
    - destruct (IH x.1) as [H1 H2]. split; [by constructor; [|apply H2]|].
      intros P [Hp HP]%Forall_cons. constructor; [done|by apply H2]. }
  destruct l as [|x l]; intros Hs; cbn [dedup_by_key]; [constructor|].
  apply StronglySorted_inv in Hs as [Hs Hx]. destruct (H x.1 l Hs) as [H1 H2].
  constructor; [done|by apply H2].
Qed.

(** [keys.sort(); keys.dedup();] *)
Definition sort_dedup (keys : list bytes) : list bytes :=
  map fst (dedup_by_key (sort_by_key (map (λ k, (k, tt)) keys))).

Lemma elem_of_sort_dedup keys k : k ∈ sort_dedup keys ↔ k ∈ keys.
Proof. unfold sort_dedup. rewrite dedup_sort_keys, map_map. by rewrite map_id. Qed.

Lemma sort_dedup_NoDup keys : NoDup (sort_dedup keys).
Proof. apply dedup_by_key_NoDup, sort_by_key_sorted. Qed.

Lemma sort_dedup_sorted keys : StronglySorted bytes_le (sort_dedup keys).
Proof. apply sorted_keys, dedup_by_key_sorted, sort_by_key_sorted. Qed.

Lemma sort_dedup_nil keys : sort_dedup keys = [] ↔ keys = [].
Proof.
  split; [|by intros ->]. intros E. destruct keys as [|k keys]; [done|].
  assert (Hk : k ∈ sort_dedup (k :: keys)) by (apply elem_of_sort_dedup; by left).
  rewrite E in Hk. by apply not_elem_of_nil in Hk.
Qed.

(** ** Stable sorting by a comparison *)

(** [slice::sort_by]: a stable sort, so its result is unique and insertion sort
    models it. *)
Fixpoint insert_by {A} (leb : A → A → bool) (x : A) (l : list A) : list A :=
  match l with
  | [] => [x]
  | y :: l' => if leb x y then x :: l else y :: insert_by leb x l'
  end.
Definition sort_by {A} (leb : A → A → bool) (l : list A) : list A := foldr (insert_by leb) [] l.

Lemma insert_by_perm {A} (leb : A → A → bool) x l : insert_by leb x l ≡ₚ x :: l.
Proof.
  induction l as [|y l IH]; cbn [insert_by]; [done|]. destruct (leb x y); [done|].
  rewrite IH. apply Permutation_swap.
Qed.

Lemma sort_by_perm {A} (leb : A → A → bool) l : sort_by leb l ≡ₚ l.
Proof.
  induction l as [|x l IH]; [done|]. unfold sort_by in *. cbn [foldr]. by rewrite insert_by_perm, IH.
Qed.

Lemma insert_by_sorted {A} (leb : A → A → bool) x l :
  (∀ a b, leb a b = false → leb b a = true) →
  Sorted (λ a b, leb a b = true) l → Sorted (λ a b, leb a b = true) (insert_by leb x l).
Proof.
  intros Ht. induction l as [|y l IH]; intros Hs; cbn [insert_by]; [by repeat constructor|].
  destruct (leb x y) eqn:E; [by constructor; [|constructor]|].
  apply Sorted_inv in Hs as [Hs Hy]. constructor; [by apply IH|].
  destruct l as [|z l]; cbn [insert_by]; [constructor; auto|].
  apply HdRel_inv in Hy. destruct (leb x z); constructor; auto.
Qed.

Lemma sort_by_sorted {A} (leb : A → A → bool) l :
  (∀ a b, leb a b = false → leb b a = true) → Sorted (λ a b, leb a b = true) (sort_by leb l).
Proof. intros Ht. induction l; [constructor|]. by apply insert_by_sorted. Qed.
