(* ===== verification/Hashing.v ===== *)
(** * Hashing: [crates/kanari-crypto/src/hashs/blake3.rs] and [crates/smt/src/hash.rs]

    BLAKE3 itself is a third-party crate: it is the class parameter [Blake3],
    of which only the documented output shape (32 bytes) is assumed.  Collision
    resistance is never assumed.  A theorem that needs it names the finitely
    many inputs the code hashes and ends in "or two of these collide"
    ([collides]): a collision somewhere exists for any 32-byte hash, one among
    the inputs at hand is what a forger has to find. *)

From S2P Require Import Prelude.
From stdpp Require Import base list gmap.
From Stdlib Require Import ZArith Lia.

(** A [[u8; 32]]. *)
Definition hash_ok (h : bytes) : Prop := length h = 32 ∧ bytes_ok h.

(** The incremental hasher of the [blake3] crate: [finalize] after a sequence
    of [update]s is the hash of the concatenated input. *)
Class Blake3 := {
  blake3 : bytes → bytes;
  blake3_ok : ∀ data, hash_ok (blake3 data)
}.

Section Hash.
Context {B3 : Blake3}.

Definition hash_data_blake3_chunks_array (chunks : list bytes) : bytes :=
  blake3 (concat chunks).

Definition hash_data_blake3_array (data : bytes) : bytes :=
  hash_data_blake3_chunks_array [data].

Definition digest (data : bytes) : bytes := hash_data_blake3_array data.

Definition hash_leaf (key_hash value : bytes) : bytes :=
  hash_data_blake3_chunks_array [[0%Z]; key_hash; value].

Definition hash_node (left right : bytes) : bytes :=
  hash_data_blake3_chunks_array [[1%Z]; left; right].

(** ** Facts *)

(** What a leaf and an inner node feed to the hash function. *)
Definition leaf_image (key_hash value : bytes) : bytes := concat [[0%Z]; key_hash; value].

Definition node_image (left right : bytes) : bytes := concat [[1%Z]; left; right].

(** The two lists of hashed inputs differ at a position where their hashes
    agree.  Decidable on given lists, and false of equal ones. *)
Definition collides (xs ys : list bytes) : Prop :=
  ∃ i x y, xs !! i = Some x ∧ ys !! i = Some y ∧ x ≠ y ∧ blake3 x = blake3 y.

Lemma collides_here x y xs ys : x ≠ y → blake3 x = blake3 y → collides (x :: xs) (y :: ys).
Proof. by exists 0, x, y. Qed.

Lemma collides_cons x y xs ys : collides xs ys → collides (x :: xs) (y :: ys).
Proof. intros (i & a & b & ?). by exists (S i), a, b. Qed.

Lemma collides_app_l xs ys zs ws : collides xs ys → collides (xs ++ zs) (ys ++ ws).
Proof.
  intros (i & a & b & Ha & Hb & ?). exists i, a, b.
  by rewrite (lookup_app_l_Some _ _ _ _ Ha), (lookup_app_l_Some _ _ _ _ Hb).
Qed.

Lemma collides_app_r xs ys zs ws :
  length xs = length ys → collides zs ws → collides (xs ++ zs) (ys ++ ws).
Proof.
  intros Hl (i & a & b & Ha & Hb & ?). exists (length xs + i), a, b.
  rewrite !lookup_app_r by lia. replace (length xs + i - length xs) with i by lia.
  by replace (length xs + i - length ys) with i by lia.
Qed.

Lemma collides_irrefl xs : ¬ collides xs xs.
Proof. intros (i & x & y & Hx & Hy & Hn & _). congruence. Qed.

Lemma digest_ok data : hash_ok (digest data).
Proof. apply blake3_ok. Qed.

Lemma hash_leaf_ok kh v : hash_ok (hash_leaf kh v).
Proof. apply blake3_ok. Qed.

Lemma hash_node_ok l r : hash_ok (hash_node l r).
Proof. apply blake3_ok. Qed.

(** Node hashing is injective on 32-byte children, unless the two images
    collide. *)
Lemma hash_node_inj l r l' r' :
  length l = length l' → hash_node l r = hash_node l' r' →
  (l = l' ∧ r = r') ∨ node_image l r ≠ node_image l' r'
    ∧ blake3 (node_image l r) = blake3 (node_image l' r').
Proof.
  intros Hl Heq. destruct (decide (node_image l r = node_image l' r')) as [E|E].
  - left. unfold node_image in E. simpl in E. rewrite !app_nil_r in E. injection E as E.
    by apply app_inj_1.
  - right. by split.
Qed.

(** The images of leaves and of nodes are domain separated. *)
Lemma leaf_node_separated kh v l r : leaf_image kh v ≠ node_image l r.
Proof. done. Qed.

Lemma leaf_image_inj kh kh' v v' :
  length kh = length kh' → leaf_image kh v = leaf_image kh' v' → kh = kh' ∧ v = v'.
Proof.
  unfold leaf_image. simpl. rewrite !app_nil_r. intros Hl E. injection E as E.
  by apply app_inj_1.
Qed.
End Hash.

#[export] Hint Resolve digest_ok hash_leaf_ok hash_node_ok : kanari.

(** ** A concrete instance, used by the witnesses

    Not BLAKE3: a small polynomial fold that makes the definitions run. *)
Module ToyHash.
Definition mix (acc b : Z) : Z := Z.land (acc * 257 + b + 1) (2 ^ 29 - 1).

(** Spread a 29-bit accumulator over 32 bytes. *)
Fixpoint spread (n : nat) (acc : Z) : bytes :=
  match n with
  | O => []
  | S n => (Z.land (Z.shiftr acc 17) 255) :: spread n (mix acc 7)
  end.

Definition hash (data : bytes) : bytes := spread 32 (fold_left mix data 11%Z).

Lemma spread_ok n acc : length (spread n acc) = n ∧ bytes_ok (spread n acc).
Proof.
  revert acc. induction n as [|n IH]; intros acc; simpl.
  - split; [done|constructor].
  - destruct (IH (mix acc 7)) as [Hl Hb]. split; [by rewrite Hl|].
    constructor; [|done]. unfold byte_ok.
    rewrite (Z.land_ones _ 8) by lia. apply Z.mod_pos_bound. lia.
Qed.

#[export] Instance toy_blake3 : Blake3 := {|
  blake3 := hash;
  blake3_ok data := spread_ok 32 _
|}.
End ToyHash.
