(* ===== verification/Store.v ===== *)
(** * The key-value store behind the tree: the [rocksdb] crate

    RocksDB is third-party code: [KVStore] is the interface the sources use
    ([DB::get], [DB::iterator(IteratorMode::Start)], [DB::write] of a
    [WriteBatch]) and [KVStoreLaws] its documented behaviour.  Every call may
    fail with an I/O error; the laws speak about the calls that succeed. *)

From S2P Require Import Prelude.
From stdpp Require Import base list gmap fin_maps.

(** One entry of a [rocksdb::WriteBatch]. *)
Inductive batch_op : Type :=
| BPut (key value : bytes)
| BDelete (key : bytes).

Abbreviation batch := (list batch_op).

Definition apply_op (m : gmap bytes bytes) (op : batch_op) : gmap bytes bytes :=
  match op with
  | BPut k v => <[k := v]> m
  | BDelete k => delete k m
  end.

(** A batch is applied atomically, its entries in order. *)
Definition apply_batch (ops : batch) (m : gmap bytes bytes) : gmap bytes bytes :=
  fold_left apply_op ops m.

Class KVStore (DB : Type) := {
  db_view : DB → gmap bytes bytes;              (* logical contents *)
  db_get : DB → bytes → result (option bytes);
  db_iter : DB → result (list (bytes * bytes));
  db_write : DB → batch → result DB
}.

Class KVStoreLaws (DB : Type) `{!KVStore DB} : Prop := {
  db_get_ok : ∀ db k r, db_get db k = Ok r → r = db_view db !! k;
  db_iter_ok : ∀ db l, db_iter db = Ok l → l ≡ₚ map_to_list (db_view db);
  db_write_ok : ∀ db ops db',
    db_write db ops = Ok db' → db_view db' = apply_batch ops (db_view db)
}.

(** A store on which no call fails, now and after any sequence of writes. *)
Definition healthy_step `{!KVStore DB} (P : DB → Prop) : Prop :=
  ∀ db, P db →
    (∀ k, is_ok (db_get db k) = true) ∧ is_ok (db_iter db) = true ∧
    (∀ ops, ∃ db', db_write db ops = Ok db' ∧ P db').

Definition healthy `{!KVStore DB} (db : DB) : Prop :=
  ∃ P, healthy_step P ∧ P db.

Section Facts.
Context `{!KVStore DB, !KVStoreLaws DB}.

Lemma healthy_get db k : healthy db → db_get db k = Ok (db_view db !! k).
Proof.
  intros (P & Hs & HP). destruct (Hs _ HP) as (Hg & _ & _).
  specialize (Hg k). destruct (db_get db k) eqn:E; [|done].
  by rewrite (db_get_ok _ _ _ E).
Qed.

Lemma healthy_iter db :
  healthy db → ∃ l, db_iter db = Ok l ∧ l ≡ₚ map_to_list (db_view db).
Proof.
  intros (P & Hs & HP). destruct (Hs _ HP) as (_ & Hi & _).
  destruct (db_iter db) eqn:E; [|done]. eauto using db_iter_ok.
Qed.

Lemma healthy_write db ops :
  healthy db →
  ∃ db', db_write db ops = Ok db' ∧ healthy db'
         ∧ db_view db' = apply_batch ops (db_view db).
Proof.
  intros (P & Hs & HP). destruct (Hs _ HP) as (_ & _ & Hw).
  destruct (Hw ops) as (db' & E & HP').
  exists db'. split; [done|]. split; [by exists P|by apply db_write_ok].
Qed.

Lemma apply_batch_app ops1 ops2 m :
  apply_batch (ops1 ++ ops2) m = apply_batch ops2 (apply_batch ops1 m).
Proof. apply fold_left_app. Qed.
End Facts.

(** ** The in-memory instance, used by the witnesses *)
Module MemStore.
Definition t : Type := gmap bytes bytes.

#[export] Instance mem_store : KVStore t := {|
  db_view m := m;
  db_get m k := Ok (m !! k);
  db_iter m := Ok (map_to_list m);
  db_write m ops := Ok (apply_batch ops m)
|}.

#[export] Instance mem_store_laws : KVStoreLaws t.
Proof. split; simpl; intros; simplify_eq; done. Qed.

Lemma mem_healthy (m : t) : healthy m.
Proof.
  exists (λ _, True). split; [|done]. intros db _. simpl. naive_solver.
Qed.
End MemStore.
