(* ===== verification/SmtPath.v ===== *)
(** * Keys and bit paths of the sparse Merkle tree

    The bit arithmetic of [crates/smt/src/sparse_merkle.rs]: which bit of a
    32-byte key hash selects a child at each depth, the RocksDB/cache key of a
    node, and the 12-bit bucket index of the parallel routines.  The facts
    relate all of them to one notion, the [path] of a key hash: its first [d]
    bits, most significant first. *)

From S2P Require Import Prelude Hashing.
From stdpp Require Import base list gmap.
From Stdlib Require Import ZArith Lia.

(** ** Definitions from the source *)

Definition ROOT_NODE_KEY : bytes := [110; 58; 0; 0]%Z.          (* "n:\0\0" *)

(** [b"meta:node_index_version"] *)
Definition NODE_INDEX_VERSION_KEY : bytes :=
  [109; 101; 116; 97; 58; 110; 111; 100; 101; 95; 105; 110; 100; 101; 120;
   95; 118; 101; 114; 115; 105; 111; 110]%Z.

(** Callers pass [1 <= depth <= 256]; at [depth = 0] the Rust subtraction
    overflows (see [verify_proof]). *)
Definition key_bit_position (depth : nat) : nat * nat :=
  let bit_index := depth - 1 in
  (bit_index / 8, 7 - bit_index mod 8).

Definition top_bits (key_hash : bytes) (depth : nat) : nat :=
  let value := nth 0 key_hash 0%Z in
  let value :=
    if 8 <? depth then Z.lor (Z.shiftl value 8) (nth 1 key_hash 0%Z) else value in
  Z.to_nat (Z.shiftr value (Z.of_nat (16 - depth))).

Definition prefix_from_top_bits (bucket_index depth : nat) : bytes :=
  let value := Z.shiftl (Z.of_nat bucket_index) (Z.of_nat (16 - depth)) in
  let prefix := replicate 32 0%Z in
  let prefix := <[0 := (Z.shiftr value 8 mod 256)%Z]> prefix in
  if 8 <? depth then <[1 := (value mod 256)%Z]> prefix else prefix.

Definition data_key (key_hash : bytes) : bytes := [100; 58]%Z ++ key_hash.

Definition node_prefix_len (depth : nat) : nat := (depth + 7) / 8.

(** [(depth as u16).to_be_bytes()] *)
Definition u16_be (n : nat) : bytes :=
  let z := (Z.of_nat n mod 65536)%Z in [(z / 256)%Z; (z mod 256)%Z].

Definition node_key (prefix_hash : bytes) (depth : nat) : bytes :=
  if depth =? 0 then ROOT_NODE_KEY else
  let prefix_len := node_prefix_len depth in
  let out := [110; 58]%Z ++ u16_be depth ++ take prefix_len prefix_hash in
  let remaining_bits := depth mod 8 in
  if remaining_bits =? 0 then out else
  let mask := (Z.shiftl 255 (Z.of_nat (8 - remaining_bits)) mod 256)%Z in
  let last := length out - 1 in
  <[last := Z.land (nth last out 0%Z) mask]> out.

(** The two lines [sibling_prefix[byte_idx] ^= 1u8 << bit_in_byte]. *)
Definition sibling_prefix (key_hash : bytes) (depth : nat) : bytes :=
  let '(byte_idx, bit_in_byte) := key_bit_position depth in
  let bit_mask := Z.shiftl 1 (Z.of_nat bit_in_byte) in
  <[byte_idx := Z.lxor (nth byte_idx key_hash 0%Z) bit_mask]> key_hash.

(** [(key_hash[byte_idx] & bit_mask) == 0] *)
Definition current_is_left (key_hash : bytes) (depth : nat) : bool :=
  let '(byte_idx, bit_in_byte) := key_bit_position depth in
  let bit_mask := Z.shiftl 1 (Z.of_nat bit_in_byte) in
  (Z.land (nth byte_idx key_hash 0) bit_mask =? 0)%Z.

(** [((key_hash[byte_idx] >> bit_in_byte) & 1u8) == 0] *)
Definition bit_is_left (key_hash : bytes) (depth : nat) : bool :=
  let '(byte_idx, bit_in_byte) := key_bit_position depth in
  (Z.land (Z.shiftr (nth byte_idx key_hash 0) (Z.of_nat bit_in_byte)) 1 =? 0)%Z.

(** ** Paths *)

Definition key_bit (kh : bytes) (i : nat) : bool :=
  Z.testbit (nth (i / 8) kh 0%Z) (Z.of_nat (7 - i mod 8)).

(** The first [d] bits of a key hash: the route from the root to a node. *)
Definition path (kh : bytes) (d : nat) : list bool := map (key_bit kh) (seq 0 d).

(** The [d]-bit big-endian expansion of a bucket index. *)
Definition nat_path (d n : nat) : list bool :=
  map (λ i, Z.testbit (Z.of_nat n) (Z.of_nat (d - 1 - i))) (seq 0 d).

(** ** Facts *)

Lemma length_path kh d : length (path kh d) = d.
Proof. unfold path. by rewrite length_map, length_seq. Qed.

Lemma path_S kh d : path kh (S d) = path kh d ++ [key_bit kh d].
Proof. unfold path. by rewrite seq_S, map_app. Qed.

Lemma nth_path kh d i : i < d → nth i (path kh d) false = key_bit kh i.
Proof.
  intros Hi. unfold path.
  rewrite (nth_indep _ _ (key_bit kh 0)) by (by rewrite length_map, length_seq).
  by rewrite map_nth, seq_nth.
Qed.

Lemma path_eq kh kh' d :
  path kh d = path kh' d ↔ ∀ i, i < d → key_bit kh i = key_bit kh' i.
Proof.
  split.
  - intros E i Hi. by rewrite <- (nth_path kh d), <- (nth_path kh' d), E.
  - intros H. apply map_ext_in. intros i Hi. apply in_seq in Hi. apply H. lia.
Qed.

Lemma take_path kh d n : d ≤ n → take d (path kh n) = path kh d.
Proof.
  intros Hd. unfold path. rewrite <- fmap_take. f_equal.
  rewrite take_seq. f_equal. lia.
Qed.

Lemma key_bit_overflow kh i : 8 * length kh ≤ i → key_bit kh i = false.
Proof.
  intros Hi. unfold key_bit. rewrite nth_overflow; [apply Z.bits_0|].
  apply Nat.div_le_lower_bound; lia.
Qed.

(** Byte strings of equal length are equal when their bits are. *)
Lemma bytes_eq_bits a b :
  bytes_ok a → bytes_ok b → length a = length b →
  (∀ i, i < 8 * length a → key_bit a i = key_bit b i) → a = b.
Proof.
  intros Ha Hb Hl H. apply (list_eq_nth 0%Z); [done|].
  intros j Hj. pose proof (bytes_ok_nth _ j Ha) as Hja.
  pose proof (bytes_ok_nth _ j Hb) as Hjb. unfold byte_ok in *.
  apply Z.bits_inj'. intros n Hn.
  destruct (decide (n < 8)%Z) as [Hn8|Hn8].
  - specialize (H (8 * j + (7 - Z.to_nat n))). unfold key_bit in H.
    replace ((8 * j + (7 - Z.to_nat n)) / 8) with j in H
      by (symmetry; rewrite (Nat.mul_comm 8 j), Nat.div_add_l by lia;
          rewrite (Nat.div_small (7 - Z.to_nat n)) by lia; lia).
    replace ((8 * j + (7 - Z.to_nat n)) mod 8) with (7 - Z.to_nat n) in H
      by (symmetry; rewrite Nat.add_comm, (Nat.mul_comm 8 j), Nat.Div0.mod_add;
          apply Nat.mod_small; lia).
    replace (Z.of_nat (7 - (7 - Z.to_nat n))) with n in H by lia.
    apply H. lia.
  - assert (Hsmall : ∀ x, (0 ≤ x < 256)%Z → Z.testbit x n = false).
    { intros x Hx. destruct (decide (x = 0)%Z) as [->|]; [apply Z.bits_0|].
      apply Z.bits_above_log2; [lia|].
      apply Z.log2_lt_pow2; [lia|].
      apply Z.lt_le_trans with (2 ^ 8)%Z; [lia|]. apply Z.pow_le_mono_r; lia. }
    by rewrite !Hsmall.
Qed.

Lemma path_inj kh kh' : hash_ok kh → hash_ok kh' → path kh 256 = path kh' 256 → kh = kh'.
Proof.
  intros [Hl Hb] [Hl' Hb'] E. apply bytes_eq_bits; [done..|by rewrite Hl'|].
  rewrite Hl. intros i Hi. by apply (proj1 (path_eq _ _ _) E).
Qed.

(** *** Child selection *)

Lemma key_bit_position_S i : key_bit_position (S i) = (i / 8, 7 - i mod 8).
Proof. unfold key_bit_position. by replace (S i - 1) with i by lia. Qed.

Lemma current_is_left_bit kh i : current_is_left kh (S i) = negb (key_bit kh i).
Proof.
  unfold current_is_left. rewrite key_bit_position_S.
  by rewrite land_pow2_zero by lia.
Qed.

Lemma bit_is_left_bit kh i : bit_is_left kh (S i) = negb (key_bit kh i).
Proof.
  unfold bit_is_left, key_bit. rewrite key_bit_position_S.
  change 1%Z with (Z.shiftl 1 0) at 1. rewrite land_pow2_zero by lia.
  by rewrite Z.shiftr_spec by lia.
Qed.

Lemma lxor_byte a b : byte_ok a → byte_ok b → byte_ok (Z.lxor a b).
Proof.
  unfold byte_ok. intros Ha Hb. split; [by apply Z.lxor_nonneg; lia|].
  destruct (decide (Z.lxor a b = 0)%Z) as [->|]; [lia|].
  apply (Z.log2_lt_pow2 _ 8); [pose proof (Z.lxor_nonneg a b); lia|].
  pose proof (Z.log2_lxor a b ltac:(lia) ltac:(lia)) as Hlog.
  assert (∀ x, (0 ≤ x < 256)%Z → (Z.log2 x < 8)%Z) as Hs.
  { intros x Hx. destruct (decide (x = 0)%Z) as [->|]; [done|].
    apply Z.log2_lt_pow2; lia. }
  pose proof (Hs a Ha). pose proof (Hs b Hb). lia.
Qed.

Lemma bytes_ok_insert l i b : bytes_ok l → byte_ok b → bytes_ok (<[i:=b]> l).
Proof. intros. by apply Forall_insert. Qed.

Lemma hash_ok_sibling kh d : hash_ok kh → 0 < d ≤ 256 → hash_ok (sibling_prefix kh d).
Proof.
  intros [Hl Hb] Hd. destruct d as [|i]; [lia|].
  unfold sibling_prefix. rewrite key_bit_position_S. split.
  - by rewrite length_insert.
  - apply bytes_ok_insert; [done|]. apply lxor_byte; [by apply bytes_ok_nth|].
    unfold byte_ok. rewrite Z.shiftl_1_l. split; [apply Z.pow_nonneg; lia|].
    apply Z.lt_le_trans with (2 ^ 8)%Z; [|lia].
    apply Z.pow_lt_mono_r; lia.
Qed.

Lemma key_bit_sibling kh i j :
  hash_ok kh → i < 256 →
  key_bit (sibling_prefix kh (S i)) j
  = if decide (i = j) then negb (key_bit kh j) else key_bit kh j.
Proof.
  intros [Hl _] Hi. unfold sibling_prefix. rewrite key_bit_position_S.
  unfold key_bit. rewrite nth_insert.
  destruct (decide (i / 8 = j / 8 ∧ i / 8 < length kh)) as [[Hij _]|Hn].
  - rewrite Hij, Z.lxor_spec, Z.shiftl_1_l, Z.pow2_bits_eqb by lia.
    case_decide as Hd.
    + subst. by rewrite Z.eqb_refl, xorb_true_r.
    + rewrite (proj2 (Z.eqb_neq _ _)); [by rewrite xorb_false_r|].
      intros E. apply Hd.
      rewrite (Nat.div_mod_eq i 8), (Nat.div_mod_eq j 8), Hij.
      pose proof (Nat.mod_upper_bound i 8). pose proof (Nat.mod_upper_bound j 8). lia.
  - case_decide as Hd; [|done]. subst. exfalso. apply Hn. split; [done|].
    rewrite Hl. apply Nat.Div0.div_lt_upper_bound. lia.
Qed.

Lemma path_sibling kh i :
  hash_ok kh → i < 256 →
  path (sibling_prefix kh (S i)) (S i) = path kh i ++ [negb (key_bit kh i)].
Proof.
  intros Hk Hi. rewrite path_S, key_bit_sibling by done. rewrite decide_True by done.
  f_equal. apply path_eq. intros j Hj. rewrite key_bit_sibling by done.
  rewrite decide_False by lia. done.
Qed.

(** *** Node keys identify paths *)

(** The bytes of [node_key] after its four-byte header. *)
Definition masked_prefix (p : bytes) (d : nat) : bytes :=
  let n := node_prefix_len d in
  if d mod 8 =? 0 then take n p else
  <[n - 1 := Z.land (nth (n - 1) p 0%Z) (Z.shiftl 255 (Z.of_nat (8 - d mod 8)) mod 256)%Z]>
    (take n p).

Lemma node_prefix_len_bounds d :
  0 < d ≤ 256 →
  1 ≤ node_prefix_len d ≤ 32 ∧ d ≤ 8 * node_prefix_len d
  ∧ (d mod 8 = 0 → 8 * node_prefix_len d = d)
  ∧ (d mod 8 ≠ 0 → node_prefix_len d = S (d / 8)).
Proof.
  intros Hd. unfold node_prefix_len.
  pose proof (Nat.div_mod_eq d 8). pose proof (Nat.mod_upper_bound d 8).
  pose proof (Nat.div_mod_eq (d + 7) 8). pose proof (Nat.mod_upper_bound (d + 7) 8).
  lia.
Qed.

Lemma node_key_shape p d :
  hash_ok p → 0 < d ≤ 256 →
  node_key p d = [110; 58]%Z ++ u16_be d ++ masked_prefix p d.
Proof.
  intros [Hl _] Hd. destruct (node_prefix_len_bounds d Hd) as (Hn & _).
  unfold node_key, masked_prefix. rewrite (proj2 (Nat.eqb_neq d 0)) by lia.
  cbv zeta. destruct (d mod 8 =? 0); [done|].
  set (t := take (node_prefix_len d) p).
  assert (Ht : length t = node_prefix_len d) by (unfold t; rewrite length_take; lia).
  rewrite !app_assoc. set (hd := [110; 58]%Z ++ u16_be d).
  assert (Hhd : length hd = 4) by reflexivity.
  rewrite length_app, Hhd, Ht.
  replace (4 + node_prefix_len d - 1) with (length hd + (node_prefix_len d - 1)) by lia.
  rewrite insert_app_r. f_equal. f_equal. f_equal.
  rewrite app_nth2_plus. unfold t. apply nth_take. lia.
Qed.

Lemma testbit_high_mask k b :
  (0 ≤ k)%Z → (0 ≤ b < 8)%Z →
  Z.testbit (Z.shiftl 255 k mod 256) b = (k <=? b)%Z.
Proof.
  intros Hk Hb. change 256%Z with (2 ^ 8)%Z. rewrite Z.mod_pow2_bits_low by lia.
  rewrite Z.shiftl_spec by lia. change 255%Z with (Z.ones 8).
  destruct (k <=? b)%Z eqn:E.
  - apply Z.leb_le in E. apply Z.ones_spec_low. lia.
  - apply Z.leb_gt in E. apply Z.testbit_neg_r. lia.
Qed.

Lemma length_masked_prefix p d :
  hash_ok p → 0 < d ≤ 256 → length (masked_prefix p d) = node_prefix_len d.
Proof.
  intros [Hl _] Hd. destruct (node_prefix_len_bounds d Hd) as (Hn & _).
  unfold masked_prefix. destruct (d mod 8 =? 0);
    rewrite ?length_insert, length_take; lia.
Qed.

Lemma land_byte a b : byte_ok a → (0 ≤ b)%Z → byte_ok (Z.land a b).
Proof.
  unfold byte_ok. intros Ha Hb. split; [apply Z.land_nonneg; lia|].
  destruct (decide (Z.land a b = 0)%Z) as [->|]; [lia|].
  apply (Z.log2_lt_pow2 _ 8); [pose proof (Z.land_nonneg a b); lia|].
  pose proof (Z.log2_land a b ltac:(lia) ltac:(lia)) as Hlog.
  destruct (decide (a = 0)%Z) as [->|]; [rewrite Z.land_0_l; done|].
  assert (Z.log2 a < 8)%Z by (apply Z.log2_lt_pow2; lia). lia.
Qed.

Lemma bytes_ok_masked_prefix p d : hash_ok p → bytes_ok (masked_prefix p d).
Proof.
  intros [_ Hb]. unfold masked_prefix.
  destruct (d mod 8 =? 0); [by apply Forall_take|].
  apply bytes_ok_insert; [by apply Forall_take|].
  apply land_byte; [by apply bytes_ok_nth|].
  apply Z.mod_pos_bound. lia.
Qed.

Lemma key_bit_masked_prefix p d i :
  hash_ok p → 0 < d ≤ 256 → i < 8 * node_prefix_len d →
  key_bit (masked_prefix p d) i = (i <? d) && key_bit p i.
Proof.
  intros [Hl _] Hd Hi.
  destruct (node_prefix_len_bounds d Hd) as (Hn & Hdn & H0 & Hnz).
  assert (Hi8 : i / 8 < node_prefix_len d) by (apply Nat.Div0.div_lt_upper_bound; lia).
  pose proof (Nat.div_mod_eq i 8) as Ei. pose proof (Nat.mod_upper_bound i 8) as Bi.
  pose proof (Nat.div_mod_eq d 8) as Ed. pose proof (Nat.mod_upper_bound d 8) as Bd.
  unfold masked_prefix, key_bit. destruct (d mod 8 =? 0) eqn:Er.
  - apply Nat.eqb_eq in Er. rewrite nth_take by done.
    rewrite (proj2 (Nat.ltb_lt _ _)) by lia. done.
  - apply Nat.eqb_neq in Er. specialize (Hnz Er). rewrite nth_insert.
    case_decide as Hc.
    + destruct Hc as [Hc _]. rewrite Hc, Z.land_spec, testbit_high_mask by lia.
      rewrite andb_comm. f_equal. apply eq_bool_prop_intro.
      rewrite !Is_true_true, Z.leb_le, Nat.ltb_lt. lia.
    + rewrite nth_take by done. rewrite (proj2 (Nat.ltb_lt i d)); [done|].
      assert (i / 8 ≠ d / 8); [|lia].
      intros E. apply Hc. rewrite length_take. lia.
Qed.

Lemma u16_be_inj m n : m ≤ 256 → n ≤ 256 → u16_be m = u16_be n → m = n.
Proof.
  unfold u16_be. intros Hm Hn E.
  rewrite (Z.mod_small (Z.of_nat m)), (Z.mod_small (Z.of_nat n)) in E by lia.
  assert (E1 : (Z.of_nat m / 256 = Z.of_nat n / 256)%Z) 
    by exact (f_equal (λ l, nth 0 l 0%Z) E).
  assert (E2 : (Z.of_nat m mod 256 = Z.of_nat n mod 256)%Z)
    by exact (f_equal (λ l, nth 1 l 0%Z) E).
  pose proof (Z.div_mod (Z.of_nat m) 256). pose proof (Z.div_mod (Z.of_nat n) 256). lia.
Qed.

(** A node key names exactly one node: its depth and the first [depth] bits. *)
Lemma node_key_eq p q d d' :
  hash_ok p → hash_ok q → d ≤ 256 → d' ≤ 256 →
  node_key p d = node_key q d' ↔ d = d' ∧ path p d = path q d.
Proof.
  intros Hp Hq Hd Hd'.
  destruct (decide (d = 0)) as [->|Hd0]; destruct (decide (d' = 0)) as [->|Hd0'].
  - by unfold path.
  - rewrite (node_key_shape q d') by (done || lia). split; [|lia].
    intros E. apply (f_equal length) in E.
    rewrite !length_app, length_masked_prefix in E by (done || lia).
    pose proof (node_prefix_len_bounds d'). simpl in E. lia.
  - rewrite (node_key_shape p d) by (done || lia). split; [|lia].
    intros E. apply (f_equal length) in E.
    rewrite !length_app, length_masked_prefix in E by (done || lia).
    pose proof (node_prefix_len_bounds d). simpl in E. lia.
  - rewrite (node_key_shape p d), (node_key_shape q d') by (done || lia).
    pose proof (node_prefix_len_bounds d ltac:(lia)) as (Hn & Hdn & _).
    split.
    + intros E. apply app_inj_1 in E as [_ E]; [|done].
      apply app_inj_1 in E as [E1 E2]; [|done].
      apply u16_be_inj in E1; [|lia..]. split; [done|]. subst d'.
      apply path_eq. intros i Hi.
      assert (Hb : key_bit (masked_prefix p d) i = key_bit (masked_prefix q d) i)
        by by rewrite E2.
      rewrite !key_bit_masked_prefix in Hb by (done || lia).
      by rewrite (proj2 (Nat.ltb_lt i d)) in Hb by done.
    + intros [<- E]. f_equal. f_equal. apply bytes_eq_bits.
      * by apply bytes_ok_masked_prefix.
      * by apply bytes_ok_masked_prefix.
      * by rewrite !length_masked_prefix by (done || lia).
      * rewrite length_masked_prefix by (done || lia). intros i Hi.
        rewrite !key_bit_masked_prefix by (done || lia).
        destruct (i <? d) eqn:Ei; [|done]. apply Nat.ltb_lt in Ei. simpl.
        by apply (proj1 (path_eq _ _ _) E).
Qed.

(** *** Bucket indices are 12-bit paths *)

Lemma testbit_byte_high b n : byte_ok b → (8 ≤ n)%Z → Z.testbit b n = false.
Proof.
  unfold byte_ok. intros Hb Hn. destruct (decide (b = 0)%Z) as [->|]; [apply Z.bits_0|].
  apply Z.bits_above_log2; [lia|]. assert (Z.log2 b < 8)%Z by (apply Z.log2_lt_pow2; lia). lia.
Qed.

Lemma nat_path_eq d m n :
  nat_path d m = nat_path d n ↔
  ∀ i, i < d → Z.testbit (Z.of_nat m) (Z.of_nat i) = Z.testbit (Z.of_nat n) (Z.of_nat i).
Proof.
  unfold nat_path. split.
  - intros E i Hi. assert (Hin : d - 1 - i ∈ seq 0 d) by (apply elem_of_seq; lia).
    pose proof (ext_in_map E (d - 1 - i) (proj1 (list_elem_of_In _ _) Hin)) as Hb.
    simpl in Hb. by replace (d - 1 - (d - 1 - i)) with i in Hb by lia.
  - intros H. apply map_ext_in. intros i Hi. apply in_seq in Hi. apply H. lia.
Qed.

Lemma top_bits_nonneg kh :
  hash_ok kh → (0 ≤ Z.lor (Z.shiftl (nth 0 kh 0) 8) (nth 1 kh 0) < 2 ^ 16)%Z.
Proof.
  intros [_ Hb]. pose proof (bytes_ok_nth _ 0 Hb) as H0.
  pose proof (bytes_ok_nth _ 1 Hb) as H1. unfold byte_ok in *.
  assert (Hn : (0 ≤ Z.lor (Z.shiftl (nth 0 kh 0) 8) (nth 1 kh 0))%Z).
  { apply Z.lor_nonneg. split; [apply Z.shiftl_nonneg|]; lia. }
  split; [done|]. apply Z.log2_lt_cancel. rewrite Z.log2_pow2 by lia.
  rewrite Z.log2_lor by (apply Z.shiftl_nonneg || idtac; lia).
  apply Z.max_lub_lt.
  - destruct (decide (nth 0 kh 0 = 0)%Z) as [->|]; [done|].
    rewrite Z.log2_shiftl by lia.
    assert (Z.log2 (nth 0 kh 0) < 8)%Z by (apply Z.log2_lt_pow2; lia). lia.
  - destruct (decide (nth 1 kh 0 = 0)%Z) as [->|]; [done|].
    assert (Z.log2 (nth 1 kh 0) < 8)%Z by (apply Z.log2_lt_pow2; lia). lia.
Qed.

Lemma top_bits_path kh d :
  hash_ok kh → 8 < d ≤ 16 → nat_path d (top_bits kh d) = path kh d.
Proof.
  intros Hk Hd. pose proof (top_bits_nonneg kh Hk) as Hv. destruct Hk as [_ Hb].
  unfold nat_path, path. apply map_ext_in. intros i Hi. apply in_seq in Hi.
  unfold top_bits. rewrite (proj2 (Nat.ltb_lt 8 d)) by lia. cbv zeta.
  rewrite Z2Nat.id by (apply Z.shiftr_nonneg; lia).
  rewrite Z.shiftr_spec, Z.lor_spec, Z.shiftl_spec by lia. unfold key_bit.
  destruct (decide (i < 8)) as [H8|H8].
  - rewrite (Nat.div_small i), (Nat.mod_small i) by lia.
    rewrite (testbit_byte_high (nth 1 kh 0%Z)) by (try apply bytes_ok_nth; done || lia).
    rewrite orb_false_r. f_equal. lia.
  - rewrite (Z.testbit_neg_r (nth 0 kh 0%Z)) by lia. rewrite orb_false_l.
    replace (i / 8) with 1 by (apply (Nat.div_unique i 8 1 (i - 8)); lia).
    replace (i mod 8) with (i - 8) by (apply (Nat.mod_unique i 8 1 (i - 8)); lia).
    f_equal. lia.
Qed.

Lemma top_bits_bound kh d : hash_ok kh → 8 < d ≤ 16 → top_bits kh d < 2 ^ d.
Proof.
  intros Hk Hd. pose proof (top_bits_nonneg kh Hk) as Hv.
  unfold top_bits. rewrite (proj2 (Nat.ltb_lt 8 d)) by lia. cbv zeta.
  rewrite Z.shiftr_div_pow2 by lia. apply Nat2Z.inj_lt.
  rewrite Z2Nat.id by (apply Z.div_pos; lia). rewrite Nat2Z.inj_pow.
  apply Z.div_lt_upper_bound; [lia|]. rewrite <- Z.pow_add_r by lia.
  replace (Z.of_nat (16 - d) + Z.of_nat d)%Z with 16%Z by lia. lia.
Qed.

(** At depth 8 or less [top_bits] ignores the key: the shift by [16 - depth]
    drops the only byte it read. *)
Lemma top_bits_low kh d : hash_ok kh → d ≤ 8 → top_bits kh d = 0.
Proof.
  intros [_ Hb] Hd. pose proof (bytes_ok_nth _ 0 Hb) as H0. unfold byte_ok in H0.
  unfold top_bits. rewrite (proj2 (Nat.ltb_ge 8 d)) by lia. cbv zeta.
  rewrite Z.shiftr_div_pow2 by lia. rewrite Z.div_small; [done|].
  split; [lia|]. apply Z.lt_le_trans with (2 ^ 8)%Z; [lia|]. apply Z.pow_le_mono_r; lia.
Qed.

Lemma prefix_from_top_bits_ok b d : hash_ok (prefix_from_top_bits b d).
Proof.
  unfold prefix_from_top_bits. split.
  - destruct (8 <? d); by rewrite !length_insert, length_replicate.
  - assert (H0 : bytes_ok (replicate 32 0%Z)).
    { apply Forall_replicate. unfold byte_ok. lia. }
    destruct (8 <? d); repeat apply bytes_ok_insert; try done;
      apply Z.mod_pos_bound; lia.
Qed.

Lemma prefix_from_top_bits_path b d :
  8 < d ≤ 16 → path (prefix_from_top_bits b d) d = nat_path d b.
Proof.
  intros Hd. unfold nat_path, path. apply map_ext_in. intros i Hi. apply in_seq in Hi.
  unfold prefix_from_top_bits. rewrite (proj2 (Nat.ltb_lt 8 d)) by lia. cbv zeta.
  unfold key_bit. rewrite !nth_insert, length_insert, length_replicate.
  change 256%Z with (2 ^ 8)%Z.
  destruct (decide (i < 8)) as [H8|H8].
  - rewrite (Nat.div_small i), (Nat.mod_small i) by lia.
    rewrite decide_False by lia. rewrite decide_True by lia.
    rewrite Z.mod_pow2_bits_low, Z.shiftr_spec, Z.shiftl_spec by lia.
    f_equal. lia.
  - replace (i / 8) with 1 by (apply (Nat.div_unique i 8 1 (i - 8)); lia).
    replace (i mod 8) with (i - 8) by (apply (Nat.mod_unique i 8 1 (i - 8)); lia).
    rewrite decide_True by lia.
    rewrite Z.mod_pow2_bits_low, Z.shiftl_spec by lia.
    f_equal. lia.
Qed.

Lemma nat_path_double d n : nat_path (S d) (2 * n) = nat_path d n ++ [false].
Proof.
  unfold nat_path. rewrite seq_S, map_app.
  replace (Z.of_nat (2 * n)) with (2 * Z.of_nat n)%Z by lia. f_equal.
  - apply map_ext_in. intros i Hi. apply in_seq in Hi.
    replace (Z.of_nat (S d - 1 - i)) with (Z.succ (Z.of_nat (d - 1 - i))) by lia.
    apply Z.testbit_even_succ. lia.
  - cbn [map]. f_equal. replace (Z.of_nat (S d - 1 - (0 + d))) with 0%Z by lia.
    apply Z.testbit_even_0.
Qed.

Lemma nat_path_double_1 d n : nat_path (S d) (2 * n + 1) = nat_path d n ++ [true].
Proof.
  unfold nat_path. rewrite seq_S, map_app.
  replace (Z.of_nat (2 * n + 1)) with (2 * Z.of_nat n + 1)%Z by lia. f_equal.
  - apply map_ext_in. intros i Hi. apply in_seq in Hi.
    replace (Z.of_nat (S d - 1 - i)) with (Z.succ (Z.of_nat (d - 1 - i))) by lia.
    apply Z.testbit_odd_succ. lia.
  - cbn [map]. f_equal. replace (Z.of_nat (S d - 1 - (0 + d))) with 0%Z by lia.
    apply Z.testbit_odd_0.
Qed.

Lemma nat_path_inj d m n : m < 2 ^ d → n < 2 ^ d → nat_path d m = nat_path d n → m = n.
Proof.
  intros Hm Hn E. apply Nat2Z.inj, Z.bits_inj'. intros i Hi0.
  destruct (decide (i < Z.of_nat d)%Z) as [Hi|Hi].
  { pose proof (proj1 (nat_path_eq d m n) E (Z.to_nat i) ltac:(lia)) as Hb.
    by rewrite Z2Nat.id in Hb by done. }
  assert (Hhi : ∀ x, x < 2 ^ d → Z.testbit (Z.of_nat x) i = false).
  { intros x Hx. destruct (decide (x = 0)) as [->|]; [apply Z.bits_0|].
    apply Z.bits_above_log2; [lia|]. apply Nat2Z.inj_lt in Hx. rewrite Nat2Z.inj_pow in Hx.
    apply Z.log2_lt_pow2 in Hx; lia. }
  by rewrite !Hhi.
Qed.

(** Keys and paths are compared through the lemmas above, never by unfolding. *)
#[global] Opaque node_key sibling_prefix path data_key.
