(* ===== verification/SmtSpec.v ===== *)
(** * Specification of the sparse Merkle tree

    The reference object: the complete binary hash tree with [2^256] leaves,
    in which key hash [kh] owns the leaf at [path kh 256]; a leaf holds
    [hash_leaf kh value] when [kh] is bound and the default leaf otherwise.
    [smt_root D] is the hash of its root for a binding [D] of key hashes to
    values.  The recursion is over all [2^256] leaves, so it is a
    specification only; everything in the other files runs. *)

From S2P Require Import Prelude Hashing SmtPath.
From stdpp Require Import base list gmap.
From Stdlib Require Import ZArith Lia.

Section Spec.
Context {B3 : Blake3}.

(** ** Default hashes (the [DEFAULT_HASHES] static) *)

Definition DEFAULT_HASHES : list bytes :=
  let default_hashes := replicate 257 (replicate 32 0%Z) in
  let default_hashes :=
    <[256 := hash_leaf (replicate 32 0%Z) (replicate 32 0%Z)]> default_hashes in
  fold_left
    (λ dh d, <[d := hash_node (nth (d + 1) dh []) (nth (d + 1) dh [])]> dh)
    (rev (seq 0 256)) default_hashes.

(** The hash of an empty subtree of height [n]. *)
Fixpoint default_up (n : nat) : bytes :=
  match n with
  | O => hash_leaf (replicate 32 0%Z) (replicate 32 0%Z)
  | S n => hash_node (default_up n) (default_up n)
  end.

(** ** The tree *)

Definition leaf_at (D : gmap bytes bytes) (kh : bytes) : bytes :=
  match D !! kh with
  | Some value => hash_leaf kh value
  | None => default_up 0
  end.

(** The key hash with a given 256-bit path. *)
Definition bits_to_Z (l : list bool) : Z :=
  fold_left (λ acc b, (2 * acc + Z.b2z b)%Z) l 0%Z.
Definition bytes_of_path (p : list bool) : bytes :=
  map (λ j, bits_to_Z (take 8 (drop (8 * j) p))) (seq 0 32).

(** The subtree of height [n] below path [p] for a leaf assignment [L]. *)
Fixpoint subtree (L : list bool → bytes) (n : nat) (p : list bool) : bytes :=
  match n with
  | O => L p
  | S n => hash_node (subtree L n (p ++ [false])) (subtree L n (p ++ [true]))
  end.

Definition leaf_of (D : gmap bytes bytes) (p : list bool) : bytes :=
  leaf_at D (bytes_of_path p).

Definition smt_root (D : gmap bytes bytes) : bytes := subtree (leaf_of D) 256 [].

(** ** Facts *)

Lemma default_hashes_loop k dh :
  length dh = 257 → k ≤ 256 →
  (∀ d, k ≤ d ≤ 256 → nth d dh [] = default_up (256 - d)) →
  let dh' := fold_left
    (λ dh d, <[d := hash_node (nth (d + 1) dh []) (nth (d + 1) dh [])]> dh)
    (rev (seq 0 k)) dh in
  length dh' = 257 ∧ ∀ d, d ≤ 256 → nth d dh' [] = default_up (256 - d).
Proof.
  revert dh. induction k as [|k IH]; intros dh Hl Hk Hd; cbv zeta.
  - split; [done|]. intros d ?. apply Hd. lia.
  - rewrite seq_S, rev_app_distr. cbn [rev app fold_left].
    rewrite Nat.add_0_l. apply IH; [by rewrite length_insert|lia|].
    intros d Hd'. rewrite nth_insert. case_decide as Hc.
    + destruct Hc as [-> _]. rewrite (Hd (d + 1)) by lia.
      by replace (256 - d) with (S (256 - (d + 1))) by lia.
    + apply Hd. lia.
Qed.

Lemma nth_default_hashes d : d ≤ 256 → nth d DEFAULT_HASHES [] = default_up (256 - d).
Proof.
  intros Hd. unfold DEFAULT_HASHES. cbv zeta.
  destruct (default_hashes_loop 256 (<[256 := default_up 0]>
    (replicate 257 (replicate 32 0%Z)))) as [_ Hloop].
  - by rewrite length_insert, length_replicate.
  - lia.
  - intros d' Hd'. replace d' with 256 by lia.
    rewrite nth_insert, length_replicate. by rewrite decide_True by lia.
  - by apply Hloop.
Qed.

Lemma default_leaf : nth 256 DEFAULT_HASHES [] = default_up 0.
Proof. rewrite nth_default_hashes by lia. by rewrite Nat.sub_diag. Qed.

Lemma default_up_ok n : hash_ok (default_up n).
Proof. destruct n; apply blake3_ok. Qed.

Lemma bits_to_Z_app l acc n :
  (0 ≤ n)%Z →
  Z.testbit (fold_left (λ acc b, (2 * acc + Z.b2z b)%Z) l acc) n
  = if (n <? Z.of_nat (length l))%Z then nth (length l - 1 - Z.to_nat n) l false
    else Z.testbit acc (n - Z.of_nat (length l)).
Proof.
  revert acc n. induction l as [|b l IH]; intros acc n Hn; simpl.
  - rewrite (proj2 (Z.ltb_ge _ _)) by lia. f_equal. lia.
  - rewrite IH by done. destruct (n <? Z.of_nat (length l))%Z eqn:E1.
    + apply Z.ltb_lt in E1. rewrite (proj2 (Z.ltb_lt _ _)) by lia.
      replace (length l - 0 - Z.to_nat n) with (S (length l - 1 - Z.to_nat n)) by lia. done.
    + apply Z.ltb_ge in E1. destruct (n <? Z.of_nat (S (length l)))%Z eqn:E2.
      * apply Z.ltb_lt in E2. replace (n - Z.of_nat (length l))%Z with 0%Z by lia.
        rewrite Z.testbit_0_r. by replace (length l - 0 - Z.to_nat n) with 0 by lia.
      * apply Z.ltb_ge in E2.
        replace (n - Z.of_nat (length l))%Z
          with (Z.succ (n - Z.of_nat (S (length l)))) by lia.
        rewrite Z.testbit_succ_r by lia. done.
Qed.

Lemma bits_to_Z_byte l : length l ≤ 8 → byte_ok (bits_to_Z l).
Proof.
  intros Hl. unfold byte_ok, bits_to_Z.
  assert (Hb : ∀ l acc, (0 ≤ acc)%Z →
    (0 ≤ fold_left (λ acc b, 2 * acc + Z.b2z b) l acc
       < (acc + 1) * 2 ^ Z.of_nat (length l))%Z).
  { clear. induction l as [|b l IH]; intros acc Ha; cbn [fold_left length]; [simpl; lia|].
    destruct (IH (2 * acc + Z.b2z b)%Z) as [H1 H2]; [destruct b; simpl; lia|].
    split; [done|]. eapply Z.lt_le_trans; [exact H2|].
    rewrite Nat2Z.inj_succ, Z.pow_succ_r by lia.
    assert (0 < 2 ^ Z.of_nat (length l))%Z by (apply Z.pow_pos_nonneg; lia).
    destruct b; simpl; nia. }
  destruct (Hb l 0%Z ltac:(lia)) as [H1 H2]. split; [done|].
  eapply Z.lt_le_trans; [exact H2|].
  rewrite Z.mul_1_l. change 256%Z with (2 ^ 8)%Z. apply Z.pow_le_mono_r; lia.
Qed.

Lemma bytes_of_path_ok p : hash_ok (bytes_of_path p).
Proof.
  unfold bytes_of_path. split; [by rewrite length_map, length_seq|].
  apply Forall_fmap, Forall_true. intros j. apply bits_to_Z_byte.
  rewrite length_take. lia.
Qed.

Lemma key_bit_bytes_of_path p i :
  length p = 256 → i < 256 → key_bit (bytes_of_path p) i = nth i p false.
Proof.
  intros Hp Hi. unfold key_bit, bytes_of_path.
  assert (Hi8 : i / 8 < 32) by (apply Nat.Div0.div_lt_upper_bound; lia).
  pose proof (Nat.div_mod_eq i 8). pose proof (Nat.mod_upper_bound i 8).
  rewrite (nth_indep _ _ (bits_to_Z (take 8 (drop (8 * 0) p))))
    by (by rewrite length_map, length_seq).
  rewrite (map_nth (λ j, bits_to_Z (take 8 (drop (8 * j) p))) (seq 0 32)).
  rewrite seq_nth, Nat.add_0_l by done.
  set (c := take 8 _).
  assert (Hc : length c = 8) by (unfold c; rewrite length_take, length_drop; lia).
  unfold bits_to_Z. rewrite bits_to_Z_app by lia. rewrite Hc.
  rewrite (proj2 (Z.ltb_lt _ _)) by lia.
  replace (8 - 1 - Z.to_nat (Z.of_nat (7 - i mod 8))) with (i mod 8) by lia.
  unfold c. rewrite nth_take by lia. rewrite !nth_lookup, lookup_drop.
  by replace (8 * (i / 8) + i mod 8) with i by lia.
Qed.

Lemma path_bytes_of_path p : length p = 256 → path (bytes_of_path p) 256 = p.
Proof.
  intros Hp. apply (list_eq_nth false); [by rewrite length_path|].
  rewrite length_path. intros i Hi. rewrite nth_path by done.
  by apply key_bit_bytes_of_path.
Qed.

Lemma bytes_of_path_path kh : hash_ok kh → bytes_of_path (path kh 256) = kh.
Proof.
  intros Hk. apply path_inj; [apply bytes_of_path_ok|done|].
  by rewrite path_bytes_of_path by apply length_path.
Qed.

Lemma leaf_of_path D kh : hash_ok kh → leaf_of D (path kh 256) = leaf_at D kh.
Proof. intros Hk. unfold leaf_of. by rewrite bytes_of_path_path. Qed.

(** *** Locality of the tree hash *)

Lemma subtree_0 L p : subtree L 0 p = L p.
Proof. done. Qed.

Lemma subtree_S L n p :
  subtree L (S n) p = hash_node (subtree L n (p ++ [false])) (subtree L n (p ++ [true])).
Proof. done. Qed.

Lemma subtree_ext L L' n p :
  (∀ q, length q = n → L (p ++ q) = L' (p ++ q)) → subtree L n p = subtree L' n p.
Proof.
  revert p. induction n as [|n IH]; intros p Hq; simpl.
  - specialize (Hq [] eq_refl). by rewrite app_nil_r in Hq.
  - f_equal; apply IH; intros q Hl; rewrite <- app_assoc; apply Hq; simpl; lia.
Qed.

Lemma subtree_default L n p :
  (∀ q, length q = n → L (p ++ q) = default_up 0) → subtree L n p = default_up n.
Proof.
  revert p. induction n as [|n IH]; intros p Hq; simpl.
  - specialize (Hq [] eq_refl). by rewrite app_nil_r in Hq.
  - rewrite !IH; [done| |]; intros q Hl; rewrite <- app_assoc; apply Hq; simpl; lia.
Qed.

Lemma subtree_empty n p : subtree (leaf_of ∅) n p = default_up n.
Proof. apply subtree_default. intros q _. unfold leaf_of, leaf_at. by rewrite lookup_empty. Qed.

Lemma subtree_ok L n p : (∀ q, hash_ok (L q)) → hash_ok (subtree L n p).
Proof. intros HL. destruct n; simpl; [apply HL|apply hash_node_ok]. Qed.

Lemma leaf_of_ok D p : hash_ok (leaf_of D p).
Proof. unfold leaf_of, leaf_at. destruct (D !! _); [apply hash_leaf_ok|apply default_up_ok]. Qed.

(** [L'] differs from [L] only at leaves below the first [d] bits of [kh]. *)
Definition differs_under (kh : bytes) (d : nat) (L L' : list bool → bytes) : Prop :=
  ∀ p, length p = 256 → take d p ≠ path kh d → L p = L' p.

Lemma subtree_off_path kh d L L' q d' :
  differs_under kh d L L' → d' ≤ d → d ≤ 256 → path q d' ≠ path kh d' →
  subtree L (256 - d') (path q d') = subtree L' (256 - d') (path q d').
Proof.
  intros Hdiff Hd Hd256 Hne. apply subtree_ext. intros r Hr. apply Hdiff.
  - rewrite length_app, length_path. lia.
  - intros E. apply Hne. apply (f_equal (take d')) in E.
    rewrite take_take, (take_path kh), Nat.min_l in E by lia.
    by rewrite take_app_length' in E by (by rewrite length_path).
Qed.

(** The children of the node at depth [i] on the path of [kh]. *)
Lemma subtree_step kh i L :
  i < 256 →
  subtree L (256 - i) (path kh i)
  = let own := subtree L (256 - S i) (path kh (S i)) in
    let other := subtree L (256 - S i) (path kh i ++ [negb (key_bit kh i)]) in
    if key_bit kh i then hash_node other own else hash_node own other.
Proof.
  intros Hi. replace (256 - i) with (S (256 - S i)) by lia. cbv zeta.
  rewrite path_S. by destruct (key_bit kh i).
Qed.

(** *** Binding one key *)

Definition leaf_value (kh : bytes) (v : option bytes) : bytes :=
  match v with Some value => hash_leaf kh value | None => default_up 0 end.

Lemma leaf_at_put D kh v kh' :
  leaf_at (put_or_remove kh v D) kh'
  = if decide (kh = kh') then leaf_value kh' v else leaf_at D kh'.
Proof.
  unfold leaf_at. rewrite lookup_put_or_remove. case_decide; subst; [by destruct v|done].
Qed.

Lemma leaf_of_put_differs D kh v :
  hash_ok kh → differs_under kh 256 (leaf_of D) (leaf_of (put_or_remove kh v D)).
Proof.
  intros Hk p Hp Hne. unfold leaf_of. rewrite leaf_at_put.
  rewrite decide_False; [done|]. intros ->. apply Hne.
  rewrite path_bytes_of_path by done. by rewrite take_ge by lia.
Qed.

(** *** No two bound key hashes are brothers at the leaf level *)

Definition no_siblings (K : gset bytes) : Prop :=
  ∀ k1 k2, k1 ∈ K → k2 ∈ K → path k1 255 = path k2 255 → k1 = k2.

Lemma no_siblings_mono (K K' : gset bytes) : K' ⊆ K → no_siblings K → no_siblings K'.
Proof. intros Hs Hns k1 k2 H1 H2. apply Hns; by apply Hs. Qed.

Lemma path_sibling_prefix kh i d :
  hash_ok kh → d ≤ i < 256 → path (sibling_prefix kh (S i)) d = path kh d.
Proof.
  intros Hk Hi. apply path_eq. intros j Hj. rewrite key_bit_sibling by (done || lia).
  by rewrite decide_False by lia.
Qed.

Lemma sibling_neq kh i : hash_ok kh → i < 256 → sibling_prefix kh (S i) ≠ kh.
Proof.
  intros Hk Hi E. apply (f_equal (λ k, key_bit k i)) in E.
  rewrite key_bit_sibling, decide_True in E by done. by destruct (key_bit kh i).
Qed.

Lemma sibling_leaf_default D kh :
  hash_ok kh → no_siblings ({[kh]} ∪ dom D) →
  leaf_at D (sibling_prefix kh 256) = default_up 0.
Proof.
  intros Hk Hns. unfold leaf_at. destruct (D !! _) eqn:E; [|done].
  exfalso. apply (sibling_neq kh 255 Hk); [lia|].
  apply Hns; [apply elem_of_union_r, elem_of_dom; by eexists|
    by apply elem_of_union_l, elem_of_singleton|].
  apply path_sibling_prefix; [done|lia].
Qed.
End Spec.

#[export] Hint Resolve default_up_ok bytes_of_path_ok leaf_of_ok : kanari.

(** The tree is never unfolded by reduction: it has [2^256] leaves. *)
#[global] Opaque subtree DEFAULT_HASHES default_up.
