(* ===== verification/SmtTree.v ===== *)
(** * Node staging of the sparse Merkle tree ([crates/smt/src/sparse_merkle.rs])

    The node cache maps node keys to the hashes of non-default nodes; an
    overlay stages pending node writes ([None] = back to the default).  The
    routines of this file walk from a changed leaf towards the root, hashing
    with the sibling found in overlay-then-cache at each level. *)

From S2P Require Import Prelude Order Hashing SmtPath SmtSpec.
From stdpp Require Import base list gmap.
From Stdlib Require Import ZArith Lia.

Abbreviation cache_t := (gmap bytes bytes).
Abbreviation overlay_t := (gmap bytes (option bytes)).

Section Staging.
Context {B3 : Blake3}.

(** [self.default_hashes] of every method below. *)
Variable default_hashes : list bytes.

Definition node_hash_from_cache (cache : cache_t) (prefix_hash : bytes) (depth : nat) : bytes :=
  default (nth depth default_hashes []) (cache !! node_key prefix_hash depth).

Definition node_hash_from_overlay (cache : cache_t) (overlay : overlay_t)
    (prefix_hash : bytes) (depth : nat) : bytes :=
  let key := node_key prefix_hash depth in
  match overlay !! key with
  | Some value => default (nth depth default_hashes []) value
  | None => node_hash_from_cache cache prefix_hash depth
  end.

Definition stage_node (overlay : overlay_t) (prefix_hash : bytes) (depth : nat)
    (hash : bytes) : overlay_t :=
  let key := node_key prefix_hash depth in
  if decide (hash = nth depth default_hashes []) then <[key := None]> overlay
  else <[key := Some hash]> overlay.

(** One iteration of the loops of [stage_node_update_from_depth] and
    [stage_leaf_node_update_to_depth]. *)
Definition stage_step (cache : cache_t) (key_hash : bytes) (depth : nat)
    (overlay : overlay_t) (current : bytes) : overlay_t * bytes :=
  let sibling :=
    node_hash_from_overlay cache overlay (sibling_prefix key_hash depth) depth in
  let parent :=
    if current_is_left key_hash depth then hash_node current sibling
    else hash_node sibling current in
  (stage_node overlay key_hash (depth - 1) parent, parent).

(** [for depth in (top - iters + 1 ..= top).rev()] *)
Fixpoint stage_loop (cache : cache_t) (key_hash : bytes) (iters top : nat)
    (overlay : overlay_t) (current : bytes) : overlay_t * bytes :=
  match iters with
  | O => (overlay, current)
  | S iters =>
      let '(overlay, current) := stage_step cache key_hash top overlay current in
      stage_loop cache key_hash iters (top - 1) overlay current
  end.

Definition stage_node_update_from_depth (cache : cache_t) (overlay : overlay_t)
    (key_hash : bytes) (node_depth : nat) (node_hash : bytes) : overlay_t :=
  if node_depth =? 0 then stage_node overlay key_hash 0 node_hash
  else (stage_loop cache key_hash node_depth node_depth overlay node_hash).1.

Definition stage_leaf_node_update (cache : cache_t) (overlay : overlay_t)
    (key_hash leaf_hash : bytes) : overlay_t :=
  stage_node_update_from_depth cache overlay key_hash 256 leaf_hash.

Definition stage_leaf_node_update_to_depth (cache : cache_t) (overlay : overlay_t)
    (key_hash leaf_hash : bytes) (stop_depth : nat) : overlay_t * bytes :=
  if stop_depth =? 256 then (stage_node overlay key_hash 256 leaf_hash, leaf_hash)
  else stage_loop cache key_hash (256 - stop_depth) 256 overlay leaf_hash.

(** [for (key, value) in overlay { ... }] *)
Definition apply_node_overlay_entries_to_cache (cache : cache_t)
    (entries : list (bytes * option bytes)) : cache_t :=
  fold_left (λ cache e, put_or_remove e.1 e.2 cache) entries cache.

(** The entries of a [HashMap] come in an unspecified order. *)
Definition apply_node_overlay_to_cache (cache : cache_t) (overlay : overlay_t) : cache_t :=
  apply_node_overlay_entries_to_cache cache (map_to_list overlay).
End Staging.

(** ** Facts *)

Section Facts.
Context {B3 : Blake3}.
Local Abbreviation dh := DEFAULT_HASHES.
Local Abbreviation view := (node_hash_from_overlay DEFAULT_HASHES).

Lemma view_stage_node cache ov p d h q d' :
  hash_ok p → hash_ok q → d ≤ 256 → d' ≤ 256 →
  view cache (stage_node dh ov p d h) q d'
  = if decide (d' = d ∧ path q d = path p d) then h else view cache ov q d'.
Proof.
  intros Hp Hq Hd Hd'. pose proof (node_key_eq p q d d' Hp Hq Hd Hd') as Hkey.
  unfold stage_node, node_hash_from_overlay.
  destruct (decide (d' = d ∧ path q d = path p d)) as [[-> E]|Hc].
  - rewrite <- (proj2 Hkey) by (split; congruence).
    case_decide as Hh; rewrite lookup_insert_eq; by subst.
  - assert (node_key p d ≠ node_key q d').
    { intros E. apply Hkey in E as [-> E]. apply Hc. by split. }
    case_decide; by rewrite lookup_insert_ne.
Qed.

(** The view agrees with leaf assignment [L'] from depth [d] downwards, and
    with [F d'] at each depth [d'] above; leaf nodes are never staged. *)
Definition split_consistent (V : bytes → nat → bytes) (F : nat → list bool → bytes)
    (L' : list bool → bytes) (d : nat) : Prop :=
  (∀ q d', hash_ok q → d' ≤ 255 →
     V q d' = subtree (if decide (d ≤ d') then L' else F d') (256 - d') (path q d'))
  ∧ (∀ q, hash_ok q → V q 256 = default_up 0).

Definition consistent (V : bytes → nat → bytes) (L : list bool → bytes) : Prop :=
  split_consistent V (λ _, L) L 0.

(** [L'] has the same subtrees as [L] at depth [d] off the path of [kh]. *)
Definition same_off_path (kh : bytes) (d : nat) (L L' : list bool → bytes) : Prop :=
  ∀ q, path q d ≠ path kh d →
    subtree L (256 - d) (path q d) = subtree L' (256 - d) (path q d).

Lemma stage_step_spec cache ov kh F L' top current :
  hash_ok kh → top < 256 →
  current = subtree L' (256 - S top) (path kh (S top)) →
  same_off_path kh top (F top) L' →
  (top = 255 → L' (path (sibling_prefix kh 256) 256) = default_up 0) →
  split_consistent (view cache ov) F L' (S top) →
  let '(ov', current') := stage_step dh cache kh (S top) ov current in
  current' = subtree L' (256 - top) (path kh top)
  ∧ split_consistent (view cache ov') F L' top.
Proof.
  intros Hk Htop -> Hoff Hsib [HV HVleaf]. unfold stage_step.
  replace (S top - 1) with top by lia.
  assert (Hs : view cache ov (sibling_prefix kh (S top)) (S top)
    = subtree L' (256 - S top) (path kh top ++ [negb (key_bit kh top)])).
  { rewrite <- path_sibling by (done || lia).
    destruct (decide (top = 255)) as [->|Hne].
    - rewrite HVleaf by (apply hash_ok_sibling; [done|lia]).
      rewrite <- Hsib by done. by rewrite Nat.sub_diag, subtree_0.
    - rewrite HV by (try apply hash_ok_sibling; done || lia).
      by rewrite decide_True by lia. }
  rewrite Hs, current_is_left_bit.
  assert (Hp : (if negb (key_bit kh top)
     then hash_node (subtree L' (256 - S top) (path kh (S top)))
            (subtree L' (256 - S top) (path kh top ++ [negb (key_bit kh top)]))
     else hash_node (subtree L' (256 - S top) (path kh top ++ [negb (key_bit kh top)]))
            (subtree L' (256 - S top) (path kh (S top))))
    = subtree L' (256 - top) (path kh top)).
  { rewrite (subtree_step kh top) by lia. by destruct (key_bit kh top). }
  rewrite Hp. split; [done|]. split.
  - intros q d' Hq Hd'. rewrite view_stage_node by (done || lia).
    case_decide as Hc.
    + destruct Hc as [-> ->]. by rewrite decide_True by lia.
    + rewrite HV by done. destruct (decide (top ≤ d')) as [H1|H1].
      * destruct (decide (S top ≤ d')) as [|H2]; [done|].
        assert (d' = top) as -> by lia. apply Hoff. intros E. by apply Hc.
      * by rewrite decide_False by lia.
  - intros q Hq. rewrite view_stage_node by (done || lia).
    rewrite decide_False by lia. by apply HVleaf.
Qed.

Lemma stage_loop_spec cache kh F L' iters top ov current :
  hash_ok kh → iters ≤ top ≤ 256 →
  current = subtree L' (256 - top) (path kh top) →
  (∀ d, top - iters ≤ d < top → same_off_path kh d (F d) L') →
  (top = 256 → L' (path (sibling_prefix kh 256) 256) = default_up 0) →
  split_consistent (view cache ov) F L' top →
  let '(ov', current') := stage_loop dh cache kh iters top ov current in
  current' = subtree L' (256 - (top - iters)) (path kh (top - iters))
  ∧ split_consistent (view cache ov') F L' (top - iters).
Proof.
  intros Hk. revert top ov current. induction iters as [|iters IH];
    intros top ov current Hi Hc Hoff Hsib HV; cbn [stage_loop].
  - by rewrite Nat.sub_0_r.
  - destruct top as [|top]; [lia|].
    pose proof (stage_step_spec cache ov kh F L' top current Hk ltac:(lia) Hc
      ltac:(apply Hoff; lia) ltac:(intros ->; by apply Hsib) HV) as Hstep.
    destruct (stage_step dh cache kh (S top) ov current) as [ov1 cur1].
    destruct Hstep as [Hc1 HV1]. replace (S top - 1) with top by lia.
    replace (S top - S iters) with (top - iters) by lia.
    apply IH; [lia|done|intros d ?; apply Hoff; lia|lia|done].
Qed.

Lemma differs_off kh d L L' d' :
  differs_under kh d L L' → d ≤ 256 → d' ≤ d → same_off_path kh d' L L'.
Proof. intros Hdiff Hd Hd' q Hne. by apply (subtree_off_path kh d). Qed.

Lemma consistent_split V L L' : consistent V L → split_consistent V (λ _, L) L' 256.
Proof.
  intros [H1 H2]. split; [|done]. intros q d' Hq Hd'.
  rewrite H1 by done. rewrite decide_True by lia. by rewrite decide_False by lia.
Qed.

Lemma split_consistent_0 V F L' : split_consistent V F L' 0 → consistent V L'.
Proof.
  intros [H1 H2]. split; [|done]. intros q d' Hq Hd'.
  rewrite H1 by done. by rewrite !decide_True by lia.
Qed.

(** *** Binding or unbinding one key *)

(** [value.map(|v| hash_leaf(&key_hash, v)).unwrap_or(default_hashes[256])] *)
Definition change_leaf (default_hashes : list bytes) (key_hash : bytes)
    (value : option bytes) : bytes :=
  match value with
  | Some value => hash_leaf key_hash value
  | None => nth 256 default_hashes []
  end.

Lemma change_leaf_value kh v : change_leaf dh kh v = leaf_value kh v.
Proof. destruct v; [done|]. apply default_leaf. Qed.

Lemma leaf_of_put_own D kh v :
  hash_ok kh → leaf_of (put_or_remove kh v D) (path kh 256) = leaf_value kh v.
Proof. intros Hk. rewrite leaf_of_path, leaf_at_put by done. by rewrite decide_True. Qed.

Lemma leaf_of_put_sibling D kh v :
  hash_ok kh → no_siblings ({[kh]} ∪ dom D) →
  leaf_of (put_or_remove kh v D) (path (sibling_prefix kh 256) 256) = default_up 0.
Proof.
  intros Hk Hns. rewrite leaf_of_path by (apply hash_ok_sibling; [done|lia]).
  rewrite leaf_at_put, decide_False; [by apply sibling_leaf_default|].
  apply not_eq_sym, sibling_neq; [done|lia].
Qed.

(** Walking from a changed leaf to depth [stop] makes exactly the nodes at
    depth [stop] and below consistent with the new binding. *)
Lemma stage_loop_put cache ov D F kh v stop :
  hash_ok kh → stop ≤ 256 → no_siblings ({[kh]} ∪ dom D) →
  (∀ d, stop ≤ d → F d = leaf_of D) →
  split_consistent (view cache ov) F (leaf_of (put_or_remove kh v D)) 256 →
  let '(ov', current') :=
    stage_loop dh cache kh (256 - stop) 256 ov (change_leaf dh kh v) in
  current' = subtree (leaf_of (put_or_remove kh v D)) (256 - stop) (path kh stop)
  ∧ split_consistent (view cache ov') F (leaf_of (put_or_remove kh v D)) stop.
Proof.
  intros Hk Hstop Hns HF HV.
  pose proof (stage_loop_spec cache kh F (leaf_of (put_or_remove kh v D))
    (256 - stop) 256 ov (change_leaf dh kh v) Hk ltac:(lia)) as Hloop.
  replace (256 - (256 - stop)) with stop in Hloop by lia. apply Hloop; clear Hloop.
  - rewrite Nat.sub_diag, subtree_0, change_leaf_value. symmetry. by apply leaf_of_put_own.
  - intros d Hd. rewrite HF by lia.
    apply (differs_off kh 256); [by apply leaf_of_put_differs|lia..].
  - intros _. by apply leaf_of_put_sibling.
  - done.
Qed.

Lemma stage_leaf_node_update_consistent cache ov D kh v :
  hash_ok kh → no_siblings ({[kh]} ∪ dom D) →
  consistent (view cache ov) (leaf_of D) →
  consistent (view cache (stage_leaf_node_update dh cache ov kh (change_leaf dh kh v)))
    (leaf_of (put_or_remove kh v D)).
Proof.
  intros Hk Hns HV. unfold stage_leaf_node_update, stage_node_update_from_depth.
  change (256 =? 0) with false. cbv iota.
  pose proof (stage_loop_put cache ov D (λ _, leaf_of D) kh v 0 Hk ltac:(lia) Hns
    ltac:(done)) as Hloop.
  change (256 - 0) with 256 in Hloop.
  specialize (Hloop (consistent_split _ _ _ HV)).
  destruct (stage_loop _ _ _ _ _ _ _) as [ov' cur']. destruct Hloop as [_ Hloop].
  by apply split_consistent_0 in Hloop.
Qed.

(** The 256-level walk is used through its lemma from here on. *)
#[local] Opaque stage_leaf_node_update.

(** *** A sequence of changes *)

Definition apply_change (D : gmap bytes bytes) (c : bytes * option bytes) : gmap bytes bytes :=
  put_or_remove c.1 c.2 D.
Definition apply_changes (cs : list (bytes * option bytes)) (D : gmap bytes bytes) :
    gmap bytes bytes := fold_left apply_change cs D.

Definition stage_changes (default_hashes : list bytes) (cache : cache_t)
    (cs : list (bytes * option bytes)) (ov : overlay_t) : overlay_t :=
  fold_left (λ ov c, stage_leaf_node_update default_hashes cache ov c.1
                       (change_leaf default_hashes c.1 c.2)) cs ov.

Definition change_keys (cs : list (bytes * option bytes)) : gset bytes :=
  list_to_set (map fst cs).

Lemma dom_put_or_remove (kh : bytes) (v : option bytes) (D : gmap bytes bytes) :
  dom (put_or_remove kh v D) ⊆ {[kh]} ∪ dom D.
Proof.
  destruct v; simpl; [by rewrite dom_insert|]. rewrite dom_delete. set_solver.
Qed.

Lemma stage_changes_cons cache c cs ov :
  stage_changes dh cache (c :: cs) ov
  = stage_changes dh cache cs
      (stage_leaf_node_update dh cache ov c.1 (change_leaf dh c.1 c.2)).
Proof.
  exact (fold_left_cons (λ ov c, stage_leaf_node_update dh cache ov c.1
                           (change_leaf dh c.1 c.2)) c cs ov).
Qed.

Lemma apply_changes_cons c cs D :
  apply_changes (c :: cs) D = apply_changes cs (put_or_remove c.1 c.2 D).
Proof. exact (fold_left_cons apply_change c cs D). Qed.

Lemma change_keys_cons (c : bytes * option bytes) (cs : list (bytes * option bytes)) : change_keys (c :: cs) = {[c.1]} ∪ change_keys cs.
Proof. reflexivity. Qed.

Lemma change_keys_step (c : bytes * option bytes) (cs : list (bytes * option bytes)) (D : gmap bytes bytes) :
  change_keys cs ∪ dom (put_or_remove c.1 c.2 D) ⊆ change_keys (c :: cs) ∪ dom D.
Proof.
  rewrite change_keys_cons. pose proof (dom_put_or_remove c.1 c.2 D). set_solver.
Qed.

Lemma dom_apply_changes cs D : dom (apply_changes cs D) ⊆ change_keys cs ∪ dom D.
Proof.
  revert D. induction cs as [|c cs IH]; intros D; [simpl; set_solver|].
  rewrite apply_changes_cons. etrans; [apply IH|apply change_keys_step].
Qed.

Lemma stage_changes_consistent cache cs ov D :
  Forall (λ c, hash_ok c.1) cs → no_siblings (change_keys cs ∪ dom D) →
  consistent (view cache ov) (leaf_of D) →
  consistent (view cache (stage_changes dh cache cs ov)) (leaf_of (apply_changes cs D)).
Proof.
  revert ov D. induction cs as [|c cs IH]; intros ov D Hok Hns HV; [exact HV|].
  apply Forall_cons in Hok as [Hk Hok].
  rewrite stage_changes_cons, apply_changes_cons. apply IH; [exact Hok| |].
  - eapply no_siblings_mono; [apply change_keys_step|exact Hns].
  - apply stage_leaf_node_update_consistent; [exact Hk| |exact HV].
    eapply no_siblings_mono; [|exact Hns]. rewrite change_keys_cons.
    apply union_mono_r, union_subseteq_l.
Qed.

(** *** Committing an overlay to the cache *)

Lemma lookup_apply_changes cs D k :
  NoDup (map fst cs) →
  apply_changes cs D !! k
  = match (list_to_map cs : overlay_t) !! k with Some v => v | None => D !! k end.
Proof.
  revert D. induction cs as [|[k' v'] cs IH]; intros D Hnd.
  - simpl. by rewrite lookup_empty.
  - apply NoDup_cons in Hnd as [Hni Hnd]. rewrite apply_changes_cons. simpl.
    rewrite IH by done. rewrite lookup_insert. case_decide as E.
    + subst k'. rewrite not_elem_of_list_to_map_1 by done.
      by rewrite lookup_put_or_remove, decide_True.
    + destruct (_ !! k); [done|]. by rewrite lookup_put_or_remove, decide_False.
Qed.

Lemma apply_changes_perm cs cs' D :
  NoDup (map fst cs) → cs ≡ₚ cs' → apply_changes cs D = apply_changes cs' D.
Proof.
  intros Hnd HP. assert (Hnd' : NoDup (map fst cs')) by by rewrite <- HP.
  apply map_eq. intros k. rewrite !lookup_apply_changes by done.
  by rewrite (list_to_map_proper cs cs').
Qed.

(** The result at one key depends on the start only at that key. *)
Lemma apply_changes_local cs D D' k :
  D !! k = D' !! k → apply_changes cs D !! k = apply_changes cs D' !! k.
Proof.
  revert D D'. induction cs as [|c cs IH]; intros D D' E; [done|].
  rewrite !apply_changes_cons. apply IH. by rewrite !lookup_put_or_remove, E.
Qed.

Lemma apply_changes_other cs D k :
  k ∉ map fst cs → apply_changes cs D !! k = D !! k.
Proof.
  revert D. induction cs as [|c cs IH]; intros D Hk; [done|].
  apply not_elem_of_cons in Hk as [Hne Hk]. rewrite apply_changes_cons, IH by done.
  by rewrite lookup_put_or_remove, decide_False by congruence.
Qed.

Lemma apply_changes_app cs cs' D :
  apply_changes (cs ++ cs') D = apply_changes cs' (apply_changes cs D).
Proof. apply fold_left_app. Qed.

(** The [BTreeMap] of pending changes: for each key the last change wins. *)
Definition changes_map (cs : list (bytes * option bytes)) : overlay_t :=
  fold_left (λ m c, <[c.1 := c.2]> m) cs ∅.

Lemma changes_map_gen cs m D k :
  match fold_left (λ m c, <[c.1 := c.2]> m) cs m !! k with
  | Some v => v | None => D !! k end
  = apply_changes cs (apply_changes (btree_iter m) D) !! k.
Proof.
  revert m D. induction cs as [|c cs IH]; intros m D.
  - simpl. rewrite lookup_apply_changes by apply btree_iter_NoDup.
    by rewrite btree_iter_map.
  - rewrite fold_left_cons, IH, apply_changes_cons. apply apply_changes_local.
    rewrite lookup_apply_changes by apply btree_iter_NoDup.
    rewrite btree_iter_map, lookup_insert, lookup_put_or_remove. case_decide; [done|].
    rewrite lookup_apply_changes by apply btree_iter_NoDup. by rewrite btree_iter_map.
Qed.

Lemma apply_changes_btree cs D :
  apply_changes (btree_iter (changes_map cs)) D = apply_changes cs D.
Proof.
  apply map_eq. intros k. rewrite lookup_apply_changes by apply btree_iter_NoDup.
  rewrite btree_iter_map. unfold changes_map. by rewrite changes_map_gen.
Qed.

Lemma changes_map_keys cs k : is_Some (changes_map cs !! k) → k ∈ map fst cs.
Proof.
  unfold changes_map.
  assert (H : ∀ m, is_Some (fold_left (λ m c, <[c.1 := c.2]> m) cs m !! k) →
    k ∈ map fst cs ∨ is_Some ((m : overlay_t) !! k)).
  { induction cs as [|c cs IH]; intros m Hk; [by right|].
    rewrite fold_left_cons in Hk. apply IH in Hk as [Hk|Hk].
    - left. by apply elem_of_cons; right.
    - rewrite lookup_insert in Hk. case_decide; [|by right].
      left. apply elem_of_cons. by left. }
  intros Hk. apply H in Hk as [Hk|Hk]; [done|]. rewrite lookup_empty in Hk. by destruct Hk.
Qed.

(** Any enumeration of the overlay's entries gives the same cache view. *)
Lemma apply_overlay_view cache ov entries q d :
  entries ≡ₚ map_to_list ov →
  node_hash_from_cache dh (apply_node_overlay_entries_to_cache cache entries) q d
  = view cache ov q d.
Proof.
  intros HP. assert (Hnd : NoDup (map fst entries)).
  { rewrite HP. apply NoDup_fst_map_to_list. }
  unfold node_hash_from_cache at 1, node_hash_from_overlay.
  change (apply_node_overlay_entries_to_cache cache entries)
    with (apply_changes entries cache).
  rewrite lookup_apply_changes by done.
  rewrite (list_to_map_proper entries (map_to_list ov)) by done.
  rewrite list_to_map_to_list. by destruct (ov !! _).
Qed.

Lemma view_empty_overlay cache q d : view cache ∅ q d = node_hash_from_cache dh cache q d.
Proof. unfold node_hash_from_overlay. by rewrite lookup_empty. Qed.

Lemma consistent_ext V V' L :
  (∀ q d, V q d = V' q d) → consistent V L → consistent V' L.
Proof. intros E [H1 H2]. split; intros; rewrite <- E; auto. Qed.

Lemma consistent_empty_cache : consistent (node_hash_from_cache dh ∅) (leaf_of ∅).
Proof.
  assert (Hv : ∀ q d, d ≤ 256 → node_hash_from_cache dh ∅ q d = default_up (256 - d)).
  { intros q d Hd. unfold node_hash_from_cache. rewrite lookup_empty.
    by apply nth_default_hashes. }
  split.
  - intros q d Hq Hd. rewrite Hv, decide_True, subtree_empty by lia. done.
  - intros q Hq. by rewrite Hv by lia.
Qed.

Lemma consistent_root V D : consistent V (leaf_of D) → V (replicate 32 0%Z) 0 = smt_root D.
Proof.
  intros [HV _]. rewrite HV; [by rewrite decide_True by lia| |lia].
  split; [by rewrite length_replicate|]. apply Forall_replicate. unfold byte_ok. lia.
Qed.
End Facts.
