(* ===== verification/SmtParallel.v ===== *)
(** * Bucketed root computation over pending changes

    [SparseMerkleTree::root_hash_with_sorted_changes_parallel]: the changes are
    split by the top 12 bits of their key hash, every bucket is staged on its
    own overlay (on rayon workers; the buckets share no state, so the parallel
    map is a map), and the bucket roots are merged bucket by bucket. *)

From S2P Require Import Prelude Order Hashing SmtPath SmtSpec SmtTree.
From stdpp Require Import base list gmap.
From Stdlib Require Import ZArith Lia.

Abbreviation change := (bytes * option bytes)%type.

Definition PARALLEL_BUCKET_DEPTH : nat := 12.

Section Parallel.
Context {B3 : Blake3}.
Variable default_hashes : list bytes.

(** [buckets[top_bits(&key_hash, DEPTH)].push((key_hash, value))] for all entries. *)
Definition fill_buckets {V} (entries : list (bytes * V)) : list (list (bytes * V)) :=
  fold_left
    (λ buckets e, alter (λ b, b ++ [e]) (top_bits e.1 PARALLEL_BUCKET_DEPTH) buckets)
    entries (replicate (2 ^ PARALLEL_BUCKET_DEPTH) []).

(** The closure mapped over the non-empty buckets. *)
Definition stage_bucket (cache : cache_t) (bucket_index : nat) (bucket : list change) :
    bytes * bytes * overlay_t :=
  let bucket_prefix := prefix_from_top_bits bucket_index PARALLEL_BUCKET_DEPTH in
  let '(overlay, bucket_root) :=
    fold_left
      (λ '(overlay, _) c,
         stage_leaf_node_update_to_depth default_hashes cache overlay c.1
           (change_leaf default_hashes c.1 c.2) PARALLEL_BUCKET_DEPTH)
      bucket (∅, nth PARALLEL_BUCKET_DEPTH default_hashes []) in
  (bucket_prefix, bucket_root,
   stage_node default_hashes overlay bucket_prefix PARALLEL_BUCKET_DEPTH bucket_root).

Definition bucket_results (cache : cache_t) (buckets : list (list change)) :
    list (bytes * bytes * overlay_t) :=
  map (λ '(i, b), stage_bucket cache i b)
    (filter (λ '(_, b), b ≠ []) (imap (λ i b, (i, b)) buckets)).

(** [overlay.extend(bucket_overlay); self.stage_node_update_from_depth(..)] *)
Definition merge_bucket (cache : cache_t) (overlay : overlay_t)
    (r : bytes * bytes * overlay_t) : overlay_t :=
  let '(bucket_prefix, bucket_root, bucket_overlay) := r in
  stage_node_update_from_depth default_hashes cache (bucket_overlay ∪ overlay)
    bucket_prefix PARALLEL_BUCKET_DEPTH bucket_root.

Definition root_hash_with_sorted_changes_parallel (cache : cache_t)
    (changes : list change) : bytes * overlay_t :=
  let buckets := fill_buckets changes in
  let overlay := fold_left (merge_bucket cache) (bucket_results cache buckets) ∅ in
  (node_hash_from_overlay default_hashes cache overlay (replicate 32 0%Z) 0, overlay).
End Parallel.

(** ** Buckets *)

Section Buckets.
Context {V : Type}.

Definition in_bucket (i : nat) (e : bytes * V) : Prop :=
  top_bits e.1 PARALLEL_BUCKET_DEPTH = i.

#[export] Instance in_bucket_dec i e : Decision (in_bucket i e).
Proof. unfold in_bucket. apply _. Defined.

Lemma fill_buckets_gen (entries : list (bytes * V)) (buckets : list (list (bytes * V))) i b :
  buckets !! i = Some b →
  fold_left (λ buckets e, alter (λ b, b ++ [e]) (top_bits e.1 PARALLEL_BUCKET_DEPTH) buckets)
    entries buckets !! i = Some (b ++ filter (in_bucket i) entries).
Proof.
  revert buckets b. induction entries as [|e entries IH]; intros buckets b Hb.
  - by rewrite app_nil_r.
  - rewrite fold_left_cons, filter_cons. unfold in_bucket at 1.
    destruct (decide (top_bits e.1 PARALLEL_BUCKET_DEPTH = i)) as [E|E].
    + rewrite (IH _ (b ++ [e])); [by rewrite <- app_assoc|].
      rewrite E, list_lookup_alter_eq, Hb. done.
    + apply IH. by rewrite list_lookup_alter_ne.
Qed.

Lemma fill_buckets_length (entries : list (bytes * V)) :
  length (fill_buckets entries) = 2 ^ PARALLEL_BUCKET_DEPTH.
Proof.
  unfold fill_buckets.
  rewrite <- (length_replicate (2 ^ PARALLEL_BUCKET_DEPTH) (@nil (bytes * V))) at 2.
  generalize (replicate (2 ^ PARALLEL_BUCKET_DEPTH) (@nil (bytes * V))).
  induction entries as [|e entries IH]; intros bs; [done|].
  rewrite fold_left_cons, IH. by rewrite length_alter.
Qed.

(** Bucket [i] holds the entries with index [i], in their order. *)
Lemma fill_buckets_lookup (entries : list (bytes * V)) i :
  i < 2 ^ PARALLEL_BUCKET_DEPTH →
  fill_buckets entries !! i = Some (filter (in_bucket i) entries).
Proof.
  intros Hi. unfold fill_buckets. rewrite (fill_buckets_gen _ _ i []); [done|].
  by apply lookup_replicate_2.
Qed.

Lemma fill_buckets_eq (entries : list (bytes * V)) :
  fill_buckets entries
  = map (λ i, filter (in_bucket i) entries) (seq 0 (2 ^ PARALLEL_BUCKET_DEPTH)).
Proof.
  apply list_eq. intros i.
  destruct (decide (i < 2 ^ PARALLEL_BUCKET_DEPTH)) as [Hi|Hi].
  - rewrite fill_buckets_lookup by done. symmetry.
    apply list_lookup_fmap_Some. exists i. split; [done|].
    by apply lookup_seq.
  - rewrite !(proj2 (lookup_ge_None _ _)); [done| |].
    + rewrite length_fmap, length_seq. lia.
    + rewrite fill_buckets_length. lia.
Qed.
End Buckets.

(** Only these bounds of the bucket depth matter from here on. *)
Lemma bucket_depth_bounds : 8 < PARALLEL_BUCKET_DEPTH ≤ 16.
Proof. unfold PARALLEL_BUCKET_DEPTH. lia. Qed.

#[global] Opaque PARALLEL_BUCKET_DEPTH.

(** ** Staging one bucket *)

Section Staging.
Context {B3 : Blake3}.
Local Abbreviation dh := DEFAULT_HASHES.
Local Abbreviation view := (node_hash_from_overlay DEFAULT_HASHES).

Lemma stage_node_other ov p d h q d' :
  hash_ok p → hash_ok q → d ≤ 256 → d' ≤ 256 → ¬ (d' = d ∧ path q d = path p d) →
  stage_node dh ov p d h !! node_key q d' = ov !! node_key q d'.
Proof.
  intros Hp Hq Hd Hd' Hne. assert (node_key p d ≠ node_key q d').
  { intros E. apply node_key_eq in E as [-> E]; [|done..]. by apply Hne. }
  unfold stage_node. case_decide; by rewrite lookup_insert_ne.
Qed.

Lemma stage_loop_other cache kh iters top ov current q d' :
  hash_ok kh → hash_ok q → iters ≤ top ≤ 256 → d' ≤ 256 →
  (∀ d, top - iters ≤ d < top → ¬ (d' = d ∧ path q d = path kh d)) →
  (stage_loop dh cache kh iters top ov current).1 !! node_key q d' = ov !! node_key q d'.
Proof.
  intros Hk Hq. revert top ov current.
  induction iters as [|iters IH]; intros top ov current Ht Hd' Hne; [done|].
  cbn [stage_loop]. unfold stage_step.
  rewrite IH; [|lia|done|intros d ?; apply Hne; lia].
  apply stage_node_other; [done|done|lia|done|apply Hne; lia].
Qed.

(** Nothing is staged above the bucket depth or outside the bucket. *)
Definition bucket_local (i : nat) (ov : overlay_t) : Prop :=
  ∀ q d, hash_ok q → d ≤ 256 →
    d < PARALLEL_BUCKET_DEPTH
    ∨ path q PARALLEL_BUCKET_DEPTH ≠ nat_path PARALLEL_BUCKET_DEPTH i →
    ov !! node_key q d = None.

Definition bucket_state (cache : cache_t) (D D' : gmap bytes bytes) (i : nat)
    (ov : overlay_t) : Prop :=
  bucket_local i ov
  ∧ split_consistent (view cache ov) (λ _, leaf_of D) (leaf_of D') PARALLEL_BUCKET_DEPTH.

Lemma bucket_path kh v i :
  hash_ok kh → in_bucket i (kh, v : option bytes) →
  path kh PARALLEL_BUCKET_DEPTH = nat_path PARALLEL_BUCKET_DEPTH i.
Proof.
  unfold in_bucket. simpl. intros Hk <-. symmetry.
  apply top_bits_path; [done|apply bucket_depth_bounds].
Qed.

Lemma path_prefix_eq q kh d e : d ≤ e → path q e = path kh e → path q d = path kh d.
Proof. intros Hd E. by rewrite <- !(take_path _ d e), E by done. Qed.

Lemma stage_to_depth_state cache D D1 i ov kh v :
  hash_ok kh → in_bucket i (kh, v) → no_siblings ({[kh]} ∪ dom D1) →
  bucket_state cache D D1 i ov →
  let '(ov', root) := stage_leaf_node_update_to_depth dh cache ov kh
    (change_leaf dh kh v) PARALLEL_BUCKET_DEPTH in
  bucket_state cache D (put_or_remove kh v D1) i ov'
  ∧ root = subtree (leaf_of (put_or_remove kh v D1)) (256 - PARALLEL_BUCKET_DEPTH)
             (nat_path PARALLEL_BUCKET_DEPTH i).
Proof.
  intros Hk Hi Hns [Hloc HV]. pose proof (bucket_path _ _ _ Hk Hi) as Hp.
  pose proof bucket_depth_bounds as HB. unfold stage_leaf_node_update_to_depth.
  rewrite (proj2 (Nat.eqb_neq PARALLEL_BUCKET_DEPTH 256)) by lia.
  set (F := λ d, leaf_of (if decide (PARALLEL_BUCKET_DEPTH ≤ d) then D1 else D)).
  pose proof (stage_loop_put cache ov D1 F kh v PARALLEL_BUCKET_DEPTH Hk ltac:(lia) Hns)
    as Hput.
  pose proof (λ q d', stage_loop_other cache kh (256 - PARALLEL_BUCKET_DEPTH) 256 ov
    (change_leaf dh kh v) q d' Hk) as Hother.
  destruct (stage_loop _ _ _ _ _ _ _) as [ov' root].
  destruct Hput as [Hroot [HV1 HV2]].
  { intros d Hd. unfold F. by rewrite decide_True. }
  { destruct HV as [HVa HVb]. split; [|exact HVb]. intros q d' Hq Hd'.
    rewrite HVa by done. rewrite (decide_False (P := 256 ≤ d')) by lia.
    unfold F. by case_decide. }
  split; [split|].
  - intros q d Hq Hd Hout. rewrite <- (Hloc q d Hq Hd Hout).
    apply Hother; [done|lia|done|]. intros d1 Hd1 [-> E].
    destruct Hout as [Hout|Hout]; [lia|]. apply Hout. rewrite <- Hp.
    apply (path_prefix_eq _ _ _ d1); [lia|done].
  - split; [|exact HV2]. intros q d' Hq Hd'. rewrite HV1 by done.
    case_decide; [done|]. unfold F. by rewrite decide_False.
  - rewrite Hroot, Hp. reflexivity.
Qed.

(** The fold over a bucket: [pre] is what has been staged already. *)
Lemma stage_bucket_fold cache D i (bucket : list change) : ∀ pre ov root,
  Forall (λ c, hash_ok c.1 ∧ in_bucket i c) bucket →
  no_siblings (change_keys (pre ++ bucket) ∪ dom D) →
  bucket_state cache D (apply_changes pre D) i ov →
  (bucket = [] → root = subtree (leaf_of (apply_changes pre D))
      (256 - PARALLEL_BUCKET_DEPTH) (nat_path PARALLEL_BUCKET_DEPTH i)) →
  let '(ov', root') := fold_left
    (λ '(overlay, _) c, stage_leaf_node_update_to_depth dh cache overlay c.1
        (change_leaf dh c.1 c.2) PARALLEL_BUCKET_DEPTH) bucket (ov, root) in
  bucket_state cache D (apply_changes (pre ++ bucket) D) i ov'
  ∧ root' = subtree (leaf_of (apply_changes (pre ++ bucket) D))
              (256 - PARALLEL_BUCKET_DEPTH) (nat_path PARALLEL_BUCKET_DEPTH i).
Proof.
  induction bucket as [|[kh v] bucket IH]; intros pre ov root Hok Hns HS Hroot.
  - rewrite app_nil_r. split; [done|by apply Hroot].
  - apply Forall_cons in Hok as [[Hk Hi] Hok]. rewrite fold_left_cons. cbn [fst snd].
    pose proof (stage_to_depth_state cache D (apply_changes pre D) i ov kh v Hk Hi) as Hst.
    destruct (stage_leaf_node_update_to_depth _ _ _ _ _ _) as [ov1 root1].
    destruct Hst as [HS1 Hr1]; [|done|].
    { eapply no_siblings_mono; [|exact Hns]. apply union_least.
      - apply singleton_subseteq_l, elem_of_union_l, elem_of_list_to_set, list_elem_of_fmap.
        exists (kh, v). split; [done|]. apply elem_of_app. right. by left.
      - etrans; [apply dom_apply_changes|]. apply union_mono_r.
        unfold change_keys. rewrite map_app, list_to_set_app. apply union_subseteq_l. }
    assert (E : put_or_remove kh v (apply_changes pre D) = apply_changes (pre ++ [(kh, v)]) D)
      by by rewrite apply_changes_app.
    rewrite E in HS1, Hr1. rewrite (cons_middle (kh, v)), app_assoc.
    rewrite (cons_middle (kh, v)), app_assoc in Hns. by apply IH.
Qed.

Lemma stage_bucket_spec cache D i (bucket : list change) :
  Forall (λ c, hash_ok c.1 ∧ in_bucket i c) bucket →
  no_siblings (change_keys bucket ∪ dom D) → bucket ≠ [] →
  consistent (node_hash_from_cache dh cache) (leaf_of D) →
  let '(prefix, root, ov) := stage_bucket dh cache i bucket in
  hash_ok prefix
  ∧ path prefix PARALLEL_BUCKET_DEPTH = nat_path PARALLEL_BUCKET_DEPTH i
  ∧ bucket_state cache D (apply_changes bucket D) i ov
  ∧ root = subtree (leaf_of (apply_changes bucket D))
             (256 - PARALLEL_BUCKET_DEPTH) (nat_path PARALLEL_BUCKET_DEPTH i).
Proof.
  intros Hok Hns Hne Hc. pose proof bucket_depth_bounds as HB. unfold stage_bucket.
  pose proof (stage_bucket_fold cache D i bucket [] ∅
    (nth PARALLEL_BUCKET_DEPTH dh []) Hok Hns) as Hf.
  destruct (fold_left _ _ _) as [ov root].
  destruct Hf as [[Hloc HV] Hr]; [|intros ?; contradiction|].
  { split; [intros q d _ _ _; apply lookup_empty|]. destruct Hc as [H1 H2].
    split; intros; rewrite view_empty_overlay; [|by apply H2].
    rewrite H1 by done. rewrite decide_True by lia. by case_decide. }
  cbn [app] in *. set (prefix := prefix_from_top_bits i PARALLEL_BUCKET_DEPTH).
  assert (Hpok : hash_ok prefix) by apply prefix_from_top_bits_ok.
  assert (Hpp : path prefix PARALLEL_BUCKET_DEPTH = nat_path PARALLEL_BUCKET_DEPTH i)
    by by apply prefix_from_top_bits_path.
  split; [done|]. split; [done|]. split; [|done]. split.
  - intros q d Hq Hd Hout. rewrite stage_node_other; [by apply Hloc|done|done|lia|done|].
    intros [-> E]. destruct Hout as [Hout|Hout]; [lia|]. apply Hout. by rewrite E.
  - destruct HV as [H1 H2]. split; intros q *.
    + intros Hq Hd. rewrite view_stage_node by (done || lia). case_decide as Hd1.
      * destruct Hd1 as [-> E]. rewrite decide_True by lia. by rewrite E, Hpp.
      * by apply H1.
    + intros Hq. rewrite view_stage_node by (done || lia). rewrite decide_False by lia.
      by apply H2.
Qed.

(** *** Merging the buckets *)

(** The overlay after the buckets [bs] have been merged. *)
Definition merged_state (cache : cache_t) (D : gmap bytes bytes) (cs : list change)
    (bs : list nat) (ov : overlay_t) : Prop :=
  consistent (view cache ov)
    (leaf_of (apply_changes (flat_map (λ i, filter (in_bucket i) cs) bs) D))
  ∧ ∀ q d i, hash_ok q → PARALLEL_BUCKET_DEPTH ≤ d ≤ 256 → i ∉ bs →
      i < 2 ^ PARALLEL_BUCKET_DEPTH → bs ⊆ seq 0 (2 ^ PARALLEL_BUCKET_DEPTH) →
      path q PARALLEL_BUCKET_DEPTH = nat_path PARALLEL_BUCKET_DEPTH i →
      ov !! node_key q d = None.

Lemma view_union cache ov1 ov2 q d :
  view cache (ov1 ∪ ov2) q d
  = if decide (is_Some (ov1 !! node_key q d)) then view cache ov1 q d
    else view cache ov2 q d.
Proof.
  unfold node_hash_from_overlay. rewrite lookup_union.
  destruct (ov1 !! node_key q d) as [x|] eqn:E.
  - rewrite decide_True by eauto. by destruct (ov2 !! _).
  - rewrite decide_False by (by intros []). by destruct (ov2 !! _).
Qed.

(** Below its bucket prefix the tree only depends on the changes of the bucket. *)
Lemma subtree_in_bucket D (cs : list change) bs i p :
  Forall (λ c, hash_ok c.1) cs → i ∉ bs → PARALLEL_BUCKET_DEPTH ≤ length p ≤ 256 →
  bs ⊆ seq 0 (2 ^ PARALLEL_BUCKET_DEPTH) → i < 2 ^ PARALLEL_BUCKET_DEPTH →
  take PARALLEL_BUCKET_DEPTH p = nat_path PARALLEL_BUCKET_DEPTH i →
  let bucket j := filter (in_bucket j) cs in
  subtree (leaf_of (apply_changes (bucket i) D)) (256 - length p) p
  = subtree (leaf_of (apply_changes (flat_map bucket bs ++ bucket i) D)) (256 - length p) p.
Proof.
  intros Hok Hi Hp His Hib Htake bucket. apply subtree_ext. intros r Hr.
  unfold leaf_of, leaf_at. rewrite apply_changes_app.
  set (kh := bytes_of_path (p ++ r)).
  assert (Hkp : path kh PARALLEL_BUCKET_DEPTH = nat_path PARALLEL_BUCKET_DEPTH i).
  { rewrite <- (take_path kh _ 256) by (pose proof bucket_depth_bounds; lia).
    unfold kh. rewrite path_bytes_of_path by (rewrite length_app; lia).
    rewrite take_app_le by lia. done. }
  rewrite (apply_changes_local (bucket i) D (apply_changes (flat_map bucket bs) D) kh);
    [done|].
  symmetry. apply apply_changes_other. intros Hin.
  apply list_elem_of_fmap in Hin as ([k v] & -> & Hin). simpl in *.
  apply list_elem_of_In, in_flat_map in Hin as (j & Hj & Hin).
  apply list_elem_of_In in Hj. apply list_elem_of_In, list_elem_of_filter in Hin as [Hin Hc].
  rewrite Forall_forall in Hok. pose proof (bucket_path _ _ _ (Hok _ Hc) Hin) as Hjp.
  apply Hi. replace i with j; [done|].
  apply (nat_path_inj PARALLEL_BUCKET_DEPTH); [|done|].
  - apply His, elem_of_seq in Hj. lia.
  - rewrite <- Hjp. by rewrite <- Hkp.
Qed.

Lemma differs_under_bucket D (cs : list change) prefix i :
  Forall (λ c, hash_ok c.1) cs →
  path prefix PARALLEL_BUCKET_DEPTH = nat_path PARALLEL_BUCKET_DEPTH i →
  differs_under prefix PARALLEL_BUCKET_DEPTH
    (leaf_of D) (leaf_of (apply_changes (filter (in_bucket i) cs) D)).
Proof.
  intros Hok Hpre p Hp Hne. unfold leaf_of, leaf_at. rewrite apply_changes_other; [done|].
  intros Hin. apply list_elem_of_fmap in Hin as ([k v] & E & Hin).
  apply list_elem_of_filter in Hin as [Hin Hc]. rewrite Forall_forall in Hok.
  pose proof (bucket_path _ _ _ (Hok _ Hc) Hin) as Hkp. simpl in E. apply Hne.
  rewrite Hpre, <- Hkp, <- E. pose proof bucket_depth_bounds.
  rewrite <- (take_path (bytes_of_path p) _ 256) by lia.
  by rewrite path_bytes_of_path.
Qed.

Lemma differs_subtree prefix d L L' q d' :
  differs_under prefix d L L' → d ≤ d' ≤ 256 → path q d ≠ path prefix d →
  subtree L (256 - d') (path q d') = subtree L' (256 - d') (path q d').
Proof.
  intros Hdiff Hd Hne. apply subtree_ext. intros r Hr. apply Hdiff.
  - rewrite length_app, length_path. lia.
  - rewrite take_app_le by (rewrite length_path; lia). by rewrite take_path by lia.
Qed.

(** The view after [overlay.extend(bucket_overlay)]. *)
Lemma extend_split cache D (cs : list change) bs i ov prefix ovi :
  Forall (λ c, hash_ok c.1) cs → i ∉ bs → i < 2 ^ PARALLEL_BUCKET_DEPTH →
  bs ⊆ seq 0 (2 ^ PARALLEL_BUCKET_DEPTH) →
  path prefix PARALLEL_BUCKET_DEPTH = nat_path PARALLEL_BUCKET_DEPTH i →
  let bucket j := filter (in_bucket j) cs in
  bucket_state cache D (apply_changes (bucket i) D) i ovi →
  merged_state cache D cs bs ov →
  split_consistent (view cache (ovi ∪ ov))
    (λ _, leaf_of (apply_changes (flat_map bucket bs) D))
    (leaf_of (apply_changes (flat_map bucket bs ++ bucket i) D)) PARALLEL_BUCKET_DEPTH.
Proof.
  intros Hok Hi Hib Hbs Hpre bucket [Hloc [HVi HVil]] [[HV HVl] Hdom]. split.
  - intros q d Hq Hd. rewrite view_union.
    destruct (decide (d < PARALLEL_BUCKET_DEPTH)) as [Hlt|Hge].
    { rewrite decide_False by (rewrite Hloc by (done || lia || auto); by intros []).
      rewrite HV by done. rewrite decide_True by lia. by rewrite decide_False by lia. }
    rewrite (decide_True (P := PARALLEL_BUCKET_DEPTH ≤ d)) by lia.
    destruct (decide (path q PARALLEL_BUCKET_DEPTH = nat_path PARALLEL_BUCKET_DEPTH i))
      as [Hin|Hout].
    + pose proof (subtree_in_bucket D cs bs i (path q d) Hok Hi) as Hsub.
      rewrite length_path, take_path in Hsub by lia.
      trans (subtree (leaf_of (apply_changes (bucket i) D)) (256 - d) (path q d));
        [|apply Hsub; [lia|exact Hbs|exact Hib|exact Hin]]. clear Hsub.
      pose proof (HVi q d Hq Hd) as Hvi. rewrite decide_True in Hvi by lia.
      case_decide as Hs; [exact Hvi|].
      rewrite <- Hvi. unfold node_hash_from_overlay.
      rewrite (Hdom q d i) by (done || lia). by rewrite (proj2 (eq_None_not_Some _) Hs).
    + rewrite decide_False by (rewrite Hloc by (done || lia || auto); by intros []).
      rewrite HV by done. rewrite decide_True by lia. rewrite apply_changes_app.
      apply (differs_subtree prefix PARALLEL_BUCKET_DEPTH); [|lia|by rewrite Hpre].
      by apply differs_under_bucket.
  - intros q Hq. rewrite view_union. case_decide; [by apply HVil|by apply HVl].
Qed.

Lemma merge_bucket_state cache D (cs : list change) bs i ov :
  Forall (λ c, hash_ok c.1) cs → no_siblings (change_keys cs ∪ dom D) →
  consistent (node_hash_from_cache dh cache) (leaf_of D) →
  i ∉ bs → i < 2 ^ PARALLEL_BUCKET_DEPTH → bs ⊆ seq 0 (2 ^ PARALLEL_BUCKET_DEPTH) →
  let bucket j := filter (in_bucket j) cs in
  bucket i ≠ [] →
  merged_state cache D cs bs ov →
  merged_state cache D cs (bs ++ [i])
    (merge_bucket dh cache ov (stage_bucket dh cache i (bucket i))).
Proof.
  intros Hok Hns Hc Hi Hib Hbs bucket Hne HM. pose proof bucket_depth_bounds as HB.
  assert (Hokb : Forall (λ c, hash_ok c.1 ∧ in_bucket i c) (bucket i)).
  { apply Forall_forall. intros c Hcb. apply list_elem_of_filter in Hcb as [H1 H2].
    split; [|done]. by apply (proj1 (Forall_forall _ _) Hok). }
  assert (Hnsb : no_siblings (change_keys (bucket i) ∪ dom D)).
  { eapply no_siblings_mono; [|exact Hns]. apply union_mono_r. intros k Hk.
    apply elem_of_list_to_set in Hk. apply elem_of_list_to_set.
    apply list_elem_of_fmap in Hk as (c & -> & Hk).
    apply list_elem_of_filter in Hk as [_ Hk]. apply list_elem_of_fmap. eauto. }
  pose proof (stage_bucket_spec cache D i (bucket i) Hokb Hnsb Hne Hc) as Hb.
  unfold merge_bucket. destruct (stage_bucket _ _ _ _) as [[prefix root] ovi].
  destruct Hb as (Hpok & Hpp & HS & Hroot).
  pose proof (extend_split cache D cs bs i ov prefix ovi Hok Hi Hib Hbs Hpp HS HM) as Hext.
  unfold stage_node_update_from_depth.
  rewrite (proj2 (Nat.eqb_neq PARALLEL_BUCKET_DEPTH 0)) by lia.
  assert (Hflat : flat_map bucket (bs ++ [i]) = flat_map bucket bs ++ bucket i).
  { rewrite flat_map_app. cbn [flat_map]. by rewrite app_nil_r. }
  pose proof (stage_loop_spec cache prefix
    (λ _, leaf_of (apply_changes (flat_map bucket bs) D))
    (leaf_of (apply_changes (flat_map bucket bs ++ bucket i) D))
    PARALLEL_BUCKET_DEPTH PARALLEL_BUCKET_DEPTH (ovi ∪ ov) root Hpok ltac:(lia)) as Hloop.
  pose proof (λ q d, stage_loop_other cache prefix PARALLEL_BUCKET_DEPTH
    PARALLEL_BUCKET_DEPTH (ovi ∪ ov) root q d Hpok) as Hother.
  destruct (stage_loop _ _ _ _ _ _ _) as [ov' cur]. split.
  - fold bucket. rewrite Hflat. destruct Hloop as [_ Hloop].
    + rewrite Hroot. pose proof (subtree_in_bucket D cs bs i
        (path prefix PARALLEL_BUCKET_DEPTH) Hok Hi) as Hsub.
      rewrite length_path, take_path, Hpp in Hsub by lia. rewrite Hpp.
      apply Hsub; [lia|exact Hbs|exact Hib|reflexivity].
    + intros d Hd. apply (differs_off prefix PARALLEL_BUCKET_DEPTH); [|lia..].
      rewrite apply_changes_app. by apply differs_under_bucket.
    + lia.
    + exact Hext.
    + rewrite Nat.sub_diag in Hloop. by apply split_consistent_0 in Hloop.
  - intros q d j Hq Hd Hj Hjb Hbs' Hqj. apply not_elem_of_app in Hj as [Hj1 Hj2].
    cbn [fst]. rewrite Hother; [|exact Hq|lia|lia|intros; lia].
    apply lookup_union_None. split.
    + apply (proj1 HS); [exact Hq|lia|]. right. rewrite Hqj. intros E.
      apply nat_path_inj in E; [|exact Hjb|exact Hib]. apply Hj2. rewrite E. by left.
    + by apply (proj2 HM q d j).
Qed.

Lemma imap_map_seq {A B} (g : nat → A) (h : nat → A → B) k n :
  imap (λ i b, h (k + i) b) (map g (seq k n)) = map (λ i, h i (g i)) (seq k n).
Proof.
  revert k. induction n as [|n IH]; intros k; [done|]. simpl. rewrite Nat.add_0_r.
  f_equal. rewrite <- IH. apply imap_ext. intros i x Hx. simpl. f_equal. lia.
Qed.

Lemma bucket_results_eq cache (cs : list change) :
  bucket_results dh cache (fill_buckets cs)
  = map (λ i, stage_bucket dh cache i (filter (in_bucket i) cs))
      (filter (λ i, filter (in_bucket i) cs ≠ []) (seq 0 (2 ^ PARALLEL_BUCKET_DEPTH))).
Proof.
  unfold bucket_results. rewrite fill_buckets_eq.
  rewrite (imap_map_seq (λ i, filter (in_bucket i) cs) pair 0).
  generalize (seq 0 (2 ^ PARALLEL_BUCKET_DEPTH)) as l.
  induction l as [|i l IH]; [done|]. cbn [map]. rewrite !filter_cons.
  do 2 case_decide; try contradiction; [|exact IH]. cbn [map]. f_equal. exact IH.
Qed.

Lemma filter_bucket_lt_perm (cs : list change) n :
  flat_map (λ i, filter (in_bucket i) cs) (seq 0 n)
  ≡ₚ filter (λ c, top_bits c.1 PARALLEL_BUCKET_DEPTH < n) cs.
Proof.
  induction n as [|n IH].
  - simpl. induction cs as [|c cs IH]; [done|]. rewrite filter_cons, decide_False by lia. exact IH.
  - rewrite seq_S, flat_map_app, IH. cbn [flat_map]. rewrite app_nil_r. clear IH.
    induction cs as [|c cs IH]; [done|]. rewrite !filter_cons. unfold in_bucket in *.
    destruct (decide (top_bits c.1 PARALLEL_BUCKET_DEPTH < n)) as [H1|H1].
    + rewrite decide_False by (simpl; lia). rewrite decide_True by lia. simpl. by rewrite IH.
    + destruct (decide (top_bits c.1 PARALLEL_BUCKET_DEPTH = 0 + n)) as [H2|H2].
      * rewrite decide_True by lia. rewrite <- Permutation_middle. by rewrite IH.
      * rewrite decide_False by lia. exact IH.
Qed.

Lemma flat_map_nonempty {A B} (f : A → list B) (l : list A) `{!∀ x, Decision (f x ≠ [])} :
  flat_map f (filter (λ x, f x ≠ []) l) = flat_map f l.
Proof.
  induction l as [|x l IH]; [done|].
  destruct (decide (f x ≠ [])) as [Hx|Hx].
  - rewrite filter_cons_True by done. simpl. by rewrite IH.
  - rewrite filter_cons_False by done. cbn [flat_map]. rewrite IH. destruct (f x) eqn:E; [done|]. exfalso. by apply Hx.
Qed.

Lemma buckets_cover D (cs : list change) :
  Forall (λ c, hash_ok c.1) cs → NoDup (map fst cs) →
  apply_changes (flat_map (λ i, filter (in_bucket i) cs)
    (filter (λ i, filter (in_bucket i) cs ≠ []) (seq 0 (2 ^ PARALLEL_BUCKET_DEPTH)))) D
  = apply_changes cs D.
Proof.
  intros Hok Hnd. rewrite (flat_map_nonempty (λ i, filter (in_bucket i) cs)).
  symmetry. apply apply_changes_perm; [done|]. rewrite filter_bucket_lt_perm.
  clear Hnd. induction cs as [|c cs IH]; [done|]. apply Forall_cons in Hok as [Hc Hok].
  rewrite filter_cons, decide_True; [by rewrite <- IH|].
  apply top_bits_bound; [done|apply bucket_depth_bounds].
Qed.

Lemma merge_buckets_state cache D (cs : list change) todo : ∀ bs ov,
  Forall (λ c, hash_ok c.1) cs → no_siblings (change_keys cs ∪ dom D) →
  consistent (node_hash_from_cache dh cache) (leaf_of D) →
  NoDup (bs ++ todo) → bs ++ todo ⊆ seq 0 (2 ^ PARALLEL_BUCKET_DEPTH) →
  Forall (λ i, filter (in_bucket i) cs ≠ []) todo →
  merged_state cache D cs bs ov →
  merged_state cache D cs (bs ++ todo)
    (fold_left (merge_bucket dh cache)
       (map (λ i, stage_bucket dh cache i (filter (in_bucket i) cs)) todo) ov).
Proof.
  induction todo as [|i todo IH]; intros bs ov Hok Hns Hc Hnd Hsub Hne HM.
  - by rewrite app_nil_r.
  - apply Forall_cons in Hne as [Hi Hne]. cbn [map]. rewrite fold_left_cons.
    rewrite cons_middle, app_assoc in Hnd, Hsub |- *. apply IH; try done.
    apply NoDup_app in Hnd as (Hnd & _ & _). apply NoDup_app in Hnd as (_ & Hni & _).
    assert (Hseq : i < 2 ^ PARALLEL_BUCKET_DEPTH).
    { assert (Hin : i ∈ (bs ++ [i]) ++ todo).
      { apply elem_of_app. left. apply elem_of_app. right. by left. }
      apply Hsub, elem_of_seq in Hin. lia. }
    apply merge_bucket_state; try done.
    + intros Hin. apply (Hni i Hin). by left.
    + intros j Hj. apply Hsub. apply elem_of_app. left. apply elem_of_app. by left.
Qed.

(** The bucketed routine computes the root of the changed tree, and its
    overlay describes every node of that tree. *)
Lemma parallel_changes_consistent cache D (cs : list change) :
  Forall (λ c, hash_ok c.1) cs → NoDup (map fst cs) →
  no_siblings (change_keys cs ∪ dom D) →
  consistent (node_hash_from_cache dh cache) (leaf_of D) →
  let '(root, ov) := root_hash_with_sorted_changes_parallel dh cache cs in
  root = smt_root (apply_changes cs D)
  ∧ consistent (view cache ov) (leaf_of (apply_changes cs D)).
Proof.
  intros Hok Hnd Hns Hc. unfold root_hash_with_sorted_changes_parallel.
  rewrite bucket_results_eq. set (todo := filter _ (seq _ _)).
  assert (Hstart : merged_state cache D cs [] ∅).
  { split; [|intros; apply lookup_empty].
    eapply consistent_ext; [|exact Hc]. intros q d. by rewrite view_empty_overlay. }
  assert (HM : merged_state cache D cs ([] ++ todo) (fold_left (merge_bucket dh cache)
    (map (λ i, stage_bucket dh cache i (filter (in_bucket i) cs)) todo) ∅)).
  { apply merge_buckets_state; [exact Hok|exact Hns|exact Hc| | | |exact Hstart].
    - apply NoDup_filter, NoDup_seq.
    - intros i Hi. by apply list_elem_of_filter in Hi as [_ Hi].
    - apply Forall_forall. intros i Hi. by apply list_elem_of_filter in Hi as [Hi _]. }
  destruct HM as [HM _]. cbn [app] in HM. unfold todo in HM at 2.
  rewrite buckets_cover in HM by done.
  split; [by apply consistent_root|exact HM].
Qed.
End Staging.
