(* ===== verification/SmtOps.v ===== *)
(** * Operations of [SparseMerkleTree] ([crates/smt/src/sparse_merkle.rs])

    The receiver is the record [SparseMerkleTree]: the database handle, the
    default hashes, the in-memory node cache and its ready flag.  The mutex and
    the atomic flag are sequential here: every method runs to completion on
    one receiver. *)

From S2P Require Import Prelude Order Hashing Store SmtPath SmtSpec SmtTree SmtParallel.
From stdpp Require Import base list gmap strings.
From Stdlib Require Import ZArith Lia.

Definition node_prefix : bytes := [110; 58]%Z.   (* "n:" *)
Definition data_prefix : bytes := [100; 58]%Z.   (* "d:" *)

Definition zero_hash : bytes := replicate 32 0%Z.

Section Ops.
Context {B3 : Blake3} {DB : Type} `{!KVStore DB}.

Record SparseMerkleTree : Type := mkSmt {
  db : DB;
  default_hashes : list bytes;
  node_cache : cache_t;
  node_cache_ready : bool
}.

Definition set_db (d : DB) (t : SparseMerkleTree) : SparseMerkleTree :=
  mkSmt d (default_hashes t) (node_cache t) (node_cache_ready t).
Definition set_node_cache (c : cache_t) (t : SparseMerkleTree) : SparseMerkleTree :=
  mkSmt (db t) (default_hashes t) c (node_cache_ready t).
Definition set_node_cache_ready (b : bool) (t : SparseMerkleTree) : SparseMerkleTree :=
  mkSmt (db t) (default_hashes t) (node_cache t) b.

Local Abbreviation method A := (st SparseMerkleTree A).

(** [self.db.get(k)?], [self.db.iterator(..)], [self.db.write(batch)?] *)
Definition m_get (k : bytes) : method (option bytes) := λ t, (t, db_get (db t) k).
Definition m_iter : method (list (bytes * bytes)) := λ t, (t, db_iter (db t)).
Definition m_write (ops : batch) : method unit := λ t,
  match db_write (db t) ops with
  | Ok d => (set_db d t, Ok tt)
  | Err e => (t, Err e)
  end.

(** [SparseMerkleTree::new] *)
Definition new (d : DB) : SparseMerkleTree := mkSmt d DEFAULT_HASHES ∅ false.

Definition export_snapshot : method (list (bytes * bytes)) :=
  entries ← m_iter;
  mret (filter (λ e, starts_with node_prefix e.1 || starts_with data_prefix e.1 = true)
          entries).

Definition persisted_leaf_count : method nat :=
  entries ← m_iter;
  mret (length (filter (λ e, starts_with data_prefix e.1 = true) entries)).

(** [key.strip_prefix(b"d:")] followed by the length check. *)
Definition strip_data (e : bytes * bytes) : option (bytes * bytes) :=
  let '(key, value) := e in
  if starts_with data_prefix key then
    let hash_bytes := drop (length data_prefix) key in
    if length hash_bytes =? 32 then Some (hash_bytes, value) else None
  else None.

Definition data_entries (l : list (bytes * bytes)) : gmap bytes bytes :=
  fold_left (λ m e, match strip_data e with
                    | Some (kh, v) => <[kh := v]> m
                    | None => m end) l ∅.

Definition persisted_data_entries : method (gmap bytes bytes) :=
  l ← m_iter; mret (data_entries l).

Definition purge_legacy_persisted_node_index : method unit :=
  version ← m_get NODE_INDEX_VERSION_KEY;
  match version with
  | None => mret tt
  | Some _ =>
      entries ← m_iter;
      let deletes := map (λ e, BDelete e.1)
        (filter (λ e, starts_with node_prefix e.1
                      && negb (bool_decide (e.1 = ROOT_NODE_KEY)) = true) entries) in
      m_write (deletes ++ [BDelete NODE_INDEX_VERSION_KEY])
  end.

Definition rebuild_node_cache_from_persisted_data : method unit :=
  entries ← persisted_data_entries;
  dh ← st_gets default_hashes;
  let overlay := stage_changes dh ∅
    (map (λ e, (e.1, Some e.2)) (btree_iter entries)) ∅ in
  let cache := apply_node_overlay_to_cache ∅ overlay in
  st_modify (set_node_cache cache);;
  st_modify (set_node_cache_ready true);;
  purge_legacy_persisted_node_index.

Definition ensure_node_index : method unit := λ t,
  if node_cache_ready t then (t, Ok tt)
  else st_context rebuild_node_cache_from_persisted_data
         "Failed to rebuild SMT node cache" t.

Definition hash_from_slice (b : bytes) : result bytes :=
  if length b =? 32 then Ok b else Err "invalid SMT node hash length".

Definition root_hash : method bytes := λ t,
  if node_cache_ready t then
    (t, Ok (node_hash_from_cache (default_hashes t) (node_cache t) zero_hash 0))
  else
    match db_get (db t) ROOT_NODE_KEY with
    | Ok (Some v) => (t, hash_from_slice v)
    | _ => (t, Ok (nth 0 (default_hashes t) []))
    end.

Definition get (key : bytes) : method (option bytes) := m_get (data_key (digest key)).

(** The two entries every commit appends to its batch. *)
Definition root_ops (root : bytes) : batch :=
  [BPut ROOT_NODE_KEY root; BDelete NODE_INDEX_VERSION_KEY].

Definition data_op (c : change) : batch_op :=
  match c.2 with
  | Some value => BPut (data_key c.1) value
  | None => BDelete (data_key c.1)
  end.

(** The common tail of [insert], [delete] and [apply_changes_with_root]:
    write the batch, then move the overlay into the cache. *)
Definition commit (ops : batch) (overlay : overlay_t) : method unit :=
  m_write ops;;
  st_modify (λ t, set_node_cache (apply_node_overlay_to_cache (node_cache t) overlay) t).

Definition overlay_root (t : SparseMerkleTree) (overlay : overlay_t) : bytes :=
  node_hash_from_overlay (default_hashes t) (node_cache t) overlay zero_hash 0.

Definition insert (kvs : list (bytes * bytes)) : method unit :=
  if decide (kvs = []) then mret tt else
  ensure_node_index;;
  t ← st_gets (λ t, t);
  let keyed := dedup_by_key (sort_by_key (map (λ kv, (digest kv.1, kv.2)) kvs)) in
  let changes := map (λ e, (e.1, Some e.2)) keyed in
  let overlay := stage_changes (default_hashes t) (node_cache t) changes ∅ in
  let root := overlay_root t overlay in
  commit (map data_op changes ++ root_ops root) overlay.

Definition delete (keys : list bytes) : method unit :=
  if decide (keys = []) then mret tt else
  ensure_node_index;;
  t ← st_gets (λ t, t);
  let keyed := dedup_by_key (sort_by_key (map (λ k, (digest k, tt)) keys)) in
  let changes := map (λ e, (e.1, None)) keyed in
  let overlay := stage_changes (default_hashes t) (node_cache t) changes ∅ in
  let root := overlay_root t overlay in
  commit (map data_op changes ++ root_ops root) overlay.

(** [deletes] first, then [updates]: the order of every change list below. *)
Definition change_list (updates : list (bytes * bytes)) (deletes : list bytes) : list change :=
  map (λ k, (digest k, None)) deletes ++ map (λ kv, (digest kv.1, Some kv.2)) updates.

Definition rebuild (entries : list (bytes * bytes)) : method unit :=
  existing ← m_iter;
  let deletes := map (λ e, BDelete e.1)
    (filter (λ e, starts_with node_prefix e.1 || starts_with data_prefix e.1 = true)
       existing) in
  m_write (deletes ++ [BDelete NODE_INDEX_VERSION_KEY]);;
  st_modify (set_node_cache ∅);;
  st_modify (set_node_cache_ready false);;
  if decide (entries = []) then
    t ← st_gets (λ t, t);
    m_write [BPut ROOT_NODE_KEY (nth 0 (default_hashes t) [])];;
    st_modify (set_node_cache_ready true)
  else insert entries.

Definition root_hash_with_changes_and_overlay (updates : list (bytes * bytes))
    (deletes : list bytes) : method (bytes * list (bytes * option bytes)) :=
  if decide (updates = [] ∧ deletes = []) then
    root ← root_hash; mret (root, [])
  else
  ensure_node_index;;
  t ← st_gets (λ t, t);
  let changes := changes_map (change_list updates deletes) in
  if 1024 <=? size changes then
    let '(root, overlay) := root_hash_with_sorted_changes_parallel
      (default_hashes t) (node_cache t) (btree_iter changes) in
    mret (root, map_to_list overlay)
  else
    let overlay := stage_changes (default_hashes t) (node_cache t) (btree_iter changes) ∅ in
    mret (overlay_root t overlay, map_to_list overlay).

Definition root_hash_with_changes (updates : list (bytes * bytes))
    (deletes : list bytes) : method bytes :=
  r ← root_hash_with_changes_and_overlay updates deletes; mret r.1.

Definition apply_changes_with_root (updates : list (bytes * bytes))
    (deletes : list bytes) (root : bytes) : method unit :=
  ensure_node_index;;
  t ← st_gets (λ t, t);
  let cs := change_list updates deletes in
  let overlay :=
    stage_changes (default_hashes t) (node_cache t) (btree_iter (changes_map cs)) ∅ in
  let computed_root := overlay_root t overlay in
  st_lift (ensure (bool_decide (computed_root = root))
    "verified SMT root mismatch while applying incremental node changes");;
  commit (map data_op cs ++ root_ops root) overlay.

(** Stages into the caller's batch. *)
Definition stage_changes_with_precomputed_overlay (ops : batch)
    (updates : list (bytes * bytes)) (deletes : list bytes) (root : bytes)
    (node_overlay : list (bytes * option bytes)) : method batch :=
  t ← st_gets (λ t, t);
  let overlay_root :=
    match find (λ e, bool_decide (e.1 = ROOT_NODE_KEY)) node_overlay with
    | Some (_, value) => default (nth 0 (default_hashes t) []) value
    | None => match (root_hash t).2 with
              | Ok r => r
              | Err _ => nth 0 (default_hashes t) []
              end
    end in
  st_lift (ensure (bool_decide (overlay_root = root))
    "precomputed SMT overlay root does not match verified root");;
  ensure_node_index;;
  mret (ops ++ map data_op (change_list updates deletes) ++ root_ops root).

Definition apply_precomputed_node_overlay (node_overlay : list (bytes * option bytes)) :
    method unit :=
  st_modify (λ t, set_node_cache
    (apply_node_overlay_entries_to_cache (node_cache t) node_overlay) t).

Definition apply_changes_with_precomputed_overlay (updates : list (bytes * bytes))
    (deletes : list bytes) (root : bytes) (node_overlay : list (bytes * option bytes)) :
    method unit :=
  ops ← stage_changes_with_precomputed_overlay [] updates deletes root node_overlay;
  m_write ops;;
  apply_precomputed_node_overlay node_overlay.

(** [for depth in (1..=256).rev()]: siblings from the leaf upwards. *)
Definition proof_siblings (dh : list bytes) (cache : cache_t) (kh : bytes) : list bytes :=
  map (λ depth, node_hash_from_cache dh cache (sibling_prefix kh depth) depth)
    (rev (seq 1 256)).

Definition proof (key : bytes) : method (bool * bytes * list bytes) :=
  let kh := digest key in
  value ← m_get (data_key kh);
  dh ← st_gets default_hashes;
  let is_member := match value with Some _ => true | None => false end in
  let leaf_hash := change_leaf dh kh value in
  ensure_node_index;;
  cache ← st_gets node_cache;
  mret (is_member, leaf_hash, proof_siblings dh cache kh).
End Ops.

Arguments SparseMerkleTree DB : clear implicits.
