(* ===== verification/SmtCorrect.v ===== *)
(** * Correctness of the sparse Merkle tree operations

    The abstract state of a tree is the finite map [smt_bindings t] from key
    hashes to values.  [smt_inv] ties the concrete receiver to it; every
    operation of [SmtOps] is shown to preserve the invariant, to have the
    expected effect on the bindings and to expose the root [smt_root] of the
    specification.  The refinement holds as long as no two key hashes in play
    differ in their last bit only ([no_siblings]); [SmtTheorems] shows what
    happens otherwise. *)

From stdpp Require Import base list gmap strings.
From Stdlib Require Import ZArith Lia.
From S2P Require Import Prelude Order Hashing Store SmtPath SmtSpec SmtTree SmtParallel SmtOps.

(** ** Data entries of the database *)

Section Data.

Definition smt_data (m : gmap bytes bytes) : gmap bytes bytes :=
  data_entries (map_to_list m).

Lemma strip_data_key kh v : length kh = 32 → strip_data (data_key kh, v) = Some (kh, v).
Proof.
  intros Hl. unfold strip_data, starts_with. change (data_key kh) with (data_prefix ++ kh).
  rewrite take_app_length, bool_decide_true by done.
  rewrite drop_app_length. by rewrite (proj2 (Nat.eqb_eq _ _)).
Qed.

Lemma strip_data_inv k v kh v' :
  strip_data (k, v) = Some (kh, v') → k = data_key kh ∧ v' = v ∧ length kh = 32.
Proof.
  unfold strip_data, starts_with. case_bool_decide as Hp; [|done].
  destruct (_ =? 32) eqn:El; [|done]. intros E.
  assert (E1 : kh = drop (length data_prefix) k) by congruence.
  assert (E2 : v' = v) by congruence. apply Nat.eqb_eq in El. subst.
  split; [|done]. change (data_key ?x) with (data_prefix ++ x).
  rewrite <- (take_drop (length data_prefix) k) at 1. by rewrite Hp.
Qed.

Lemma data_key_inj kh kh' : data_key kh = data_key kh' → kh = kh'.
Proof. change (data_key ?x) with (data_prefix ++ x). apply app_inv_head. Qed.

Lemma data_entries_gen (l : list (bytes * bytes)) (acc : gmap bytes bytes) (kh : bytes) :
  NoDup (map fst l) → length kh = 32 →
  fold_left (λ m e, match strip_data e with
                    | Some (kh, v) => <[kh := v]> m | None => m end) l acc !! kh
  = match (list_to_map l : gmap bytes bytes) !! data_key kh with
    | Some v => Some v | None => acc !! kh end.
Proof.
  intros Hnd Hl. revert acc. induction l as [|[k v] l IH]; intros acc.
  - simpl. by rewrite lookup_empty.
  - apply NoDup_cons in Hnd as [Hni Hnd]. rewrite fold_left_cons, IH by done. simpl map.
    cbn [list_to_map foldr fst snd]. rewrite lookup_insert.
    destruct (decide (k = data_key kh)) as [->|Hne].
    + rewrite not_elem_of_list_to_map_1 by done. rewrite strip_data_key by done.
      by rewrite lookup_insert_eq.
    + destruct (strip_data (k, v)) as [[kh' v']|] eqn:Es; [|done].
      apply strip_data_inv in Es as (-> & _ & _).
      destruct (_ !! data_key kh); [done|]. apply lookup_insert_ne. congruence.
Qed.

Lemma data_entries_dom l kh : is_Some (data_entries l !! kh) → length kh = 32.
Proof.
  unfold data_entries.
  assert (H : ∀ acc : gmap bytes bytes, (is_Some (acc !! kh) → length kh = 32) →
    is_Some (fold_left (λ m e, match strip_data e with
                    | Some (kh, v) => <[kh := v]> m | None => m end) l acc !! kh) →
    length kh = 32).
  { induction l as [|[k v] l IH]; intros acc Ha; [done|]. rewrite fold_left_cons.
    apply IH. destruct (strip_data (k, v)) as [[kh' v']|] eqn:Es; [|done].
    apply strip_data_inv in Es as (_ & _ & El). rewrite lookup_insert.
    case_decide; [by subst|done]. }
  apply H. rewrite lookup_empty. by intros [].
Qed.

(** Any enumeration of the database yields the same bindings. *)
Lemma lookup_data_entries (m : gmap bytes bytes) (l : list (bytes * bytes)) kh :
  l ≡ₚ map_to_list m →
  data_entries l !! kh = if decide (length kh = 32) then m !! data_key kh else None.
Proof.
  intros HP. case_decide as Hl.
  - unfold data_entries. rewrite data_entries_gen; [|rewrite HP; apply NoDup_fst_map_to_list|done].
    rewrite (list_to_map_proper l (map_to_list m)); [|rewrite HP; apply NoDup_fst_map_to_list|done].
    rewrite list_to_map_to_list, lookup_empty. by destruct (m !! _).
  - destruct (data_entries l !! kh) eqn:E; [|done]. exfalso. apply Hl.
    apply (data_entries_dom l). by rewrite E.
Qed.

Lemma data_entries_perm (m : gmap bytes bytes) (l : list (bytes * bytes)) : l ≡ₚ map_to_list m → data_entries l = smt_data m.
Proof.
  intros HP. apply map_eq. intros kh. unfold smt_data.
  by rewrite (lookup_data_entries m l), (lookup_data_entries m (map_to_list m)).
Qed.

Lemma lookup_smt_data (m : gmap bytes bytes) kh :
  smt_data m !! kh = if decide (length kh = 32) then m !! data_key kh else None.
Proof. by apply lookup_data_entries. Qed.

Lemma smt_data_ext (m m' : gmap bytes bytes) :
  (∀ kh, length kh = 32 → m !! data_key kh = m' !! data_key kh) → smt_data m = smt_data m'.
Proof.
  intros H. apply map_eq. intros kh. rewrite !lookup_smt_data.
  case_decide; [by apply H|done].
Qed.

(** *** Batches *)

Lemma data_key_not_root kh : data_key kh ≠ ROOT_NODE_KEY.
Proof. change (data_key kh) with (data_prefix ++ kh). done. Qed.

Lemma data_key_not_version kh : data_key kh ≠ NODE_INDEX_VERSION_KEY.
Proof. change (data_key kh) with (data_prefix ++ kh). done. Qed.

Lemma apply_data_ops (cs : list change) (m : gmap bytes bytes) :
  Forall (λ c, length c.1 = 32) cs →
  smt_data (apply_batch (map data_op cs) m) = apply_changes cs (smt_data m).
Proof.
  revert m. induction cs as [|[kh v] cs IH]; intros m Hok; [done|].
  apply Forall_cons in Hok as [Hk Hok]. cbn [map]. unfold apply_batch in *.
  rewrite fold_left_cons, IH, apply_changes_cons by done. f_equal.
  apply map_eq. intros kh'. rewrite lookup_put_or_remove, !lookup_smt_data. simpl in *.
  assert (E : apply_op m (data_op (kh, v)) !! data_key kh'
    = if decide (kh = kh') then v else m !! data_key kh').
  { destruct v; simpl; rewrite ?lookup_insert, ?lookup_delete;
      case_decide as E1; case_decide as E2; try done;
      [apply data_key_inj in E1|subst|apply data_key_inj in E1|subst]; done. }
  rewrite E. repeat case_decide; subst; done.
Qed.

Lemma smt_data_root_ops r m : smt_data (apply_batch (root_ops r) m) = smt_data m.
Proof.
  apply smt_data_ext. intros kh _. simpl.
  rewrite lookup_delete_ne by (apply not_eq_sym, data_key_not_version).
  rewrite lookup_insert_ne by (apply not_eq_sym, data_key_not_root). done.
Qed.

Lemma root_after_root_ops r m : apply_batch (root_ops r) m !! ROOT_NODE_KEY = Some r.
Proof. simpl. rewrite lookup_delete_ne by done. apply lookup_insert_eq. Qed.

(** A batch that deletes keys without the data prefix keeps the bindings. *)
Lemma apply_deletes (ks : list bytes) (m : gmap bytes bytes) k :
  apply_batch (map BDelete ks) m !! k = if decide (k ∈ ks) then None else m !! k.
Proof.
  revert m. induction ks as [|k' ks IH]; intros m; [done|]. cbn [map]. unfold apply_batch in *.
  rewrite fold_left_cons, IH. simpl. rewrite lookup_delete.
  destruct (decide (k ∈ ks)) as [Hin|Hni].
  - rewrite decide_True; [done|]. by right.
  - destruct (decide (k' = k)) as [->|Hne].
    + rewrite decide_True; [done|]. by left.
    + rewrite decide_False; [done|]. intros [->|?]%elem_of_cons; done.
Qed.
End Data.

(** ** The invariant *)

Section Correct.
Context {B3 : Blake3} {DB : Type} `{!KVStore DB, !KVStoreLaws DB}.
Local Abbreviation tree := (SparseMerkleTree DB).
Local Abbreviation dh := DEFAULT_HASHES.
Local Abbreviation view := (node_hash_from_overlay DEFAULT_HASHES).

(** What the tree stores. *)
Definition smt_bindings (t : tree) : gmap bytes bytes := smt_data (db_view (db t)).

Record smt_inv (t : tree) : Prop := {
  inv_default : default_hashes t = DEFAULT_HASHES;
  inv_bytes : ∀ k, is_Some (db_view (db t) !! k) → bytes_ok k;
  inv_root : match db_view (db t) !! ROOT_NODE_KEY with
             | Some r => r = smt_root (smt_bindings t)
             | None => smt_bindings t = ∅
             end;
  inv_cache : node_cache_ready t = true →
    consistent (node_hash_from_cache DEFAULT_HASHES (node_cache t))
      (leaf_of (smt_bindings t))
}.

(** A tree in its invariant on a database whose calls succeed. *)
Definition good (t : tree) : Prop := smt_inv t ∧ healthy (db t).

Lemma smt_root_ok D : hash_ok (smt_root D).
Proof. apply subtree_ok. intros q. apply leaf_of_ok. Qed.

Lemma smt_root_empty : smt_root ∅ = default_up 256.
Proof. apply subtree_empty. Qed.

Lemma bindings_key_ok t kh : smt_inv t → kh ∈ dom (smt_bindings t) → hash_ok kh.
Proof.
  intros Ht Hk. apply elem_of_dom in Hk. unfold smt_bindings in Hk.
  rewrite lookup_smt_data in Hk. case_decide as Hl; [|by destruct Hk].
  split; [done|]. apply (inv_bytes t Ht) in Hk.
  change (data_key kh) with (data_prefix ++ kh) in Hk. by apply Forall_app in Hk as [_ Hk].
Qed.

(** *** The node cache is a function of the bindings *)

Lemma m_write_ok (t : tree) ops :
  healthy (db t) →
  ∃ d, m_write ops t = (set_db d t, Ok tt) ∧ healthy d
       ∧ db_view d = apply_batch ops (db_view (db t)).
Proof.
  intros Hh. destruct (healthy_write (db t) ops Hh) as (d & E & Hd & Hv).
  exists d. unfold m_write. by rewrite E.
Qed.

Lemma apply_batch_keys (ops : batch) (m : gmap bytes bytes) (k : bytes) :
  is_Some (apply_batch ops m !! k) →
  is_Some (m !! k) ∨ ∃ v, BPut k v ∈ ops.
Proof.
  revert m. induction ops as [|op ops IH]; intros m Hk; [by left|].
  unfold apply_batch in *. rewrite fold_left_cons in Hk.
  destruct (IH _ Hk) as [H|[v H]]; [|right; exists v; by right].
  destruct op as [k' v'|k']; simpl in H.
  - rewrite lookup_insert in H. case_decide; [|by left].
    subst. right. exists v'. by left.
  - rewrite lookup_delete in H. case_decide; [by destruct H|by left].
Qed.

Lemma apply_some_changes (D : gmap bytes bytes) :
  apply_changes (map (λ e, (e.1, Some e.2)) (btree_iter D)) ∅ = D.
Proof.
  apply map_eq. intros k. rewrite lookup_apply_changes.
  - change (map (λ e, (e.1, Some e.2)) (btree_iter D))
      with (prod_map id Some <$> btree_iter D).
    rewrite list_to_map_fmap, lookup_fmap, btree_iter_map, lookup_empty.
    by destruct (D !! k).
  - rewrite map_map. simpl. apply btree_iter_NoDup.
Qed.

Lemma change_keys_some (l : list (bytes * bytes)) :
  change_keys (map (λ e, (e.1, Some e.2)) l) = list_to_set (map fst l).
Proof. unfold change_keys. rewrite map_map. done. Qed.

Lemma btree_keys (D : gmap bytes bytes) :
  (list_to_set (map fst (btree_iter D)) : gset bytes) = dom D.
Proof.
  apply set_eq. intros k. rewrite elem_of_list_to_set, list_elem_of_fmap, elem_of_dom.
  split.
  - intros ([k' v] & -> & H). rewrite btree_iter_perm, elem_of_map_to_list in H. eauto.
  - intros [v Hv]. exists (k, v). split; [done|].
    by rewrite btree_iter_perm, elem_of_map_to_list.
Qed.

(** The cache built from scratch describes the bindings. *)
Lemma rebuilt_cache_consistent (D : gmap bytes bytes) :
  (∀ kh, kh ∈ dom D → hash_ok kh) → no_siblings (dom D) →
  consistent (node_hash_from_cache dh (apply_node_overlay_to_cache ∅
    (stage_changes dh ∅ (map (λ e, (e.1, Some e.2)) (btree_iter D)) ∅))) (leaf_of D).
Proof.
  intros Hok Hns.
  pose proof (stage_changes_consistent ∅ (map (λ e, (e.1, Some e.2)) (btree_iter D)) ∅ ∅)
    as Hst.
  rewrite apply_some_changes in Hst.
  eapply consistent_ext; [|apply Hst].
  - intros q d. symmetry. by apply apply_overlay_view.
  - apply Forall_fmap, Forall_forall. intros [k v] Hk. simpl. apply Hok.
    rewrite <- btree_keys. apply elem_of_list_to_set, list_elem_of_fmap. by exists (k, v).
  - rewrite change_keys_some, btree_keys, dom_empty_L, union_empty_r_L. done.
  - eapply consistent_ext; [|apply consistent_empty_cache].
    intros q d. by rewrite view_empty_overlay.
Qed.

(** Dropping node records other than the root changes nothing observable. *)
Lemma purge_spec (t : tree) :
  good t →
  ∃ t', purge_legacy_persisted_node_index t = (t', Ok tt) ∧ healthy (db t')
    ∧ (∃ d, t' = set_db d t)
    ∧ (∀ k, is_Some (db_view (db t') !! k) → is_Some (db_view (db t) !! k))
    ∧ db_view (db t') !! ROOT_NODE_KEY = db_view (db t) !! ROOT_NODE_KEY
    ∧ smt_bindings t' = smt_bindings t.
Proof.
  intros [Ht Hh]. unfold purge_legacy_persisted_node_index.
  erewrite st_bind_ok; [|unfold m_get; by rewrite healthy_get].
  destruct (db_view (db t) !! NODE_INDEX_VERSION_KEY) as [ver|] eqn:Ev.
  2: { exists t. split; [done|]. split; [done|]. split; [by exists (db t); destruct t|done]. }
  destruct (healthy_iter (db t) Hh) as (l & El & HP).
  erewrite st_bind_ok; [|unfold m_iter; by rewrite El].
  set (sel := filter _ l).
  assert (Hops : map (λ e : bytes * bytes, BDelete e.1) sel ++ [BDelete NODE_INDEX_VERSION_KEY]
    = map BDelete (map fst sel ++ [NODE_INDEX_VERSION_KEY])).
  { by rewrite map_app, map_map. }
  rewrite Hops. set (ks := map fst sel ++ [NODE_INDEX_VERSION_KEY]).
  destruct (m_write_ok t (map BDelete ks) Hh) as (d & E & Hd & Hv).
  assert (Hks : ∀ k, k ∈ ks → starts_with node_prefix k = true ∧ k ≠ ROOT_NODE_KEY
                       ∨ k = NODE_INDEX_VERSION_KEY).
  { intros k [Hk|Hk]%elem_of_app.
    - apply list_elem_of_fmap in Hk as (e & -> & He).
      apply list_elem_of_filter in He as [He _]. left.
      apply andb_true_iff in He as [H1 H2]. split; [done|].
      intros E'. by rewrite E', bool_decide_true in H2.
    - right. by apply list_elem_of_singleton in Hk. }
  exists (set_db d t). split; [done|]. split; [done|]. split; [by exists d|].
  simpl. rewrite Hv. split; [|split].
  - intros k. rewrite apply_deletes. case_decide; [by intros []|done].
  - rewrite apply_deletes, decide_False; [done|]. intros Hk.
    apply Hks in Hk as [[_ Hk]|Hk]; done.
  - unfold smt_bindings. simpl. rewrite Hv. apply smt_data_ext. intros kh _.
    rewrite apply_deletes, decide_False; [done|]. intros Hk.
    apply Hks in Hk as [[Hk _]|Hk]; [|by apply data_key_not_version in Hk].
    unfold starts_with in Hk. apply bool_decide_eq_true in Hk.
    change (data_key kh) with (data_prefix ++ kh) in Hk. done.
Qed.

Lemma ensure_node_index_spec (t : tree) :
  good t → no_siblings (dom (smt_bindings t)) →
  ∃ t', ensure_node_index t = (t', Ok tt) ∧ good t' ∧ node_cache_ready t' = true
        ∧ smt_bindings t' = smt_bindings t.
Proof.
  intros [Ht Hh] Hns. unfold ensure_node_index.
  destruct (node_cache_ready t) eqn:Er; [by exists t|].
  unfold st_context, rebuild_node_cache_from_persisted_data.
  destruct (healthy_iter (db t) Hh) as (l & El & HP).
  assert (Hpd : persisted_data_entries t = (t, Ok (smt_bindings t))).
  { unfold persisted_data_entries. erewrite st_bind_ok; [|unfold m_iter; by rewrite El].
    by rewrite (data_entries_perm _ _ HP). }
  rewrite (st_bind_ok _ _ _ _ _ Hpd).
  erewrite st_bind_ok; [|by unfold st_gets].
  erewrite st_bind_ok; [|by unfold st_modify].
  erewrite st_bind_ok; [|by unfold st_modify].
  rewrite (inv_default t Ht). set (cache := apply_node_overlay_to_cache _ _).
  set (t1 := set_node_cache_ready true (set_node_cache cache t)).
  assert (Hcache : consistent (node_hash_from_cache dh cache) (leaf_of (smt_bindings t))).
  { apply rebuilt_cache_consistent; [|done]. intros kh. by apply bindings_key_ok. }
  assert (Hg1 : good t1).
  { split; [|done]. split; [apply Ht|apply Ht|apply (inv_root t Ht)|by intros _]. }
  destruct (purge_spec t1 Hg1) as (t' & E & Hh' & (d & ->) & Hk & Hr & Hb).
  rewrite E. exists (set_db d t1). split; [done|].
  split; [|by split]. split; [|done]. split.
  - apply Ht.
  - intros k Hkk. apply (inv_bytes t Ht), Hk, Hkk.
  - rewrite Hr, Hb. apply (inv_root t1 (proj1 Hg1)).
  - intros _. rewrite Hb. exact Hcache.
Qed.

Lemma commit_spec (t : tree) (cs : list change) (ov : overlay_t) :
  good t → node_cache_ready t = true → Forall (λ c, hash_ok c.1) cs →
  let D' := apply_changes cs (smt_bindings t) in
  consistent (view (node_cache t) ov) (leaf_of D') →
  ∃ t', commit (map data_op cs ++ root_ops (smt_root D')) ov t = (t', Ok tt)
        ∧ good t' ∧ node_cache_ready t' = true ∧ smt_bindings t' = D'.
Proof.
  intros [Ht Hh] Hr Hok D' Hc. unfold commit.
  destruct (m_write_ok t (map data_op cs ++ root_ops (smt_root D')) Hh)
    as (d & E & Hd & Hv).
  rewrite (st_bind_ok _ _ _ _ _ E). eexists. split; [by unfold st_modify|].
  set (t' := set_node_cache _ _).
  assert (Hlen : Forall (λ c : change, length c.1 = 32) cs).
  { eapply Forall_impl; [exact Hok|]. by intros c [??]. }
  assert (Hb : smt_bindings t' = D').
  { unfold smt_bindings. simpl. rewrite Hv, apply_batch_app, smt_data_root_ops.
    by apply apply_data_ops. }
  split; [|by split]. split; [|done]. split.
  - apply Ht.
  - intros k Hk. simpl in Hk. rewrite Hv in Hk.
    apply apply_batch_keys in Hk as [Hk|[v Hk]]; [by apply (inv_bytes t Ht)|].
    apply elem_of_app in Hk as [Hk|Hk].
    + apply list_elem_of_fmap in Hk as ([kh [v'|]] & Ek & Hin); [|done].
      injection Ek as -> ->. change (data_key kh) with (data_prefix ++ kh).
      apply Forall_app. split; [by repeat constructor; unfold byte_ok; lia|].
      rewrite Forall_forall in Hok. by apply (Hok _ Hin).
    + apply elem_of_cons in Hk as [Ek|Hk]; [|by apply list_elem_of_singleton in Hk].
      injection Ek as -> _. by repeat constructor; unfold byte_ok; lia.
  - simpl. rewrite Hv, apply_batch_app, root_after_root_ops. by rewrite Hb.
  - intros _. rewrite Hb. eapply consistent_ext; [|exact Hc].
    intros q p. simpl. symmetry. by apply apply_overlay_view.
Qed.

(** The staged root is the root of the changed tree. *)
Lemma overlay_root_spec (t : tree) ov D :
  smt_inv t → consistent (view (node_cache t) ov) (leaf_of D) →
  overlay_root t ov = smt_root D.
Proof.
  intros Ht Hc. unfold overlay_root. rewrite (inv_default t Ht).
  by apply consistent_root in Hc.
Qed.

(** Staging a change list on a ready tree. *)
Lemma stage_on_tree (t : tree) (cs : list change) :
  good t → node_cache_ready t = true → Forall (λ c, hash_ok c.1) cs →
  no_siblings (change_keys cs ∪ dom (smt_bindings t)) →
  consistent (view (node_cache t) (stage_changes (default_hashes t) (node_cache t) cs ∅))
    (leaf_of (apply_changes cs (smt_bindings t))).
Proof.
  intros [Ht _] Hr Hok Hns. rewrite (inv_default t Ht).
  apply stage_changes_consistent; [done|done|].
  eapply consistent_ext; [|by apply (inv_cache t Ht)].
  intros q d. by rewrite view_empty_overlay.
Qed.

(** Every commit: make the index ready, stage the changes, write them. *)
Lemma stage_and_commit (t : tree) (cs : list change) :
  good t → Forall (λ c, hash_ok c.1) cs →
  no_siblings (change_keys cs ∪ dom (smt_bindings t)) →
  ∃ t1 t', ensure_node_index t = (t1, Ok tt) ∧ good t1 ∧ node_cache_ready t1 = true
    ∧ smt_bindings t1 = smt_bindings t
    ∧ let ov := stage_changes (default_hashes t1) (node_cache t1) cs ∅ in
      overlay_root t1 ov = smt_root (apply_changes cs (smt_bindings t))
      ∧ commit (map data_op cs ++ root_ops (overlay_root t1 ov)) ov t1 = (t', Ok tt)
      ∧ good t' ∧ smt_bindings t' = apply_changes cs (smt_bindings t).
Proof.
  intros Hg Hok Hns.
  destruct (ensure_node_index_spec t Hg) as (t1 & E & Hg1 & Hr1 & Hb1).
  { eapply no_siblings_mono; [|exact Hns]. apply union_subseteq_r. }
  pose proof (stage_on_tree t1 cs Hg1 Hr1 Hok) as Hst. rewrite Hb1 in Hst.
  specialize (Hst Hns).
  pose proof (overlay_root_spec t1 _ _ (proj1 Hg1) Hst) as Hroot.
  pose proof (commit_spec t1 cs (stage_changes (default_hashes t1) (node_cache t1) cs ∅)
    Hg1 Hr1 Hok) as Hc. cbv zeta in Hc. rewrite Hb1 in Hc.
  destruct (Hc Hst) as (t' & Ec & Hg' & _ & Hb').
  exists t1, t'. cbv zeta. rewrite Hroot. eauto 10.
Qed.

(** ** The operations *)

Definition digest_entries (kvs : list (bytes * bytes)) : list (bytes * bytes) :=
  map (λ kv, (digest kv.1, kv.2)) kvs.

Definition digest_set (keys : list bytes) : gset bytes := list_to_set (map digest keys).

(** The change list of [insert]: sorted, one entry per key, the first wins. *)
Lemma keyed_changes (kvs : list (bytes * bytes)) D :
  let cs := map (λ e, (e.1, Some e.2)) (dedup_by_key (sort_by_key (digest_entries kvs))) in
  apply_changes cs D = list_to_map (digest_entries kvs) ∪ D
  ∧ Forall (λ c, hash_ok c.1) cs ∧ change_keys cs ⊆ digest_set (map fst kvs).
Proof.
  intros cs. split; [|split].
  - apply map_eq. intros k. rewrite lookup_apply_changes.
    + change cs with (prod_map id Some <$> dedup_by_key (sort_by_key (digest_entries kvs))).
      rewrite list_to_map_fmap, lookup_fmap, dedup_by_key_map, sort_by_key_map, lookup_union.
      destruct (list_to_map (digest_entries kvs) !! k), (D !! k); done.
    + unfold cs. rewrite map_map. simpl. apply dedup_by_key_NoDup, sort_by_key_sorted.
  - apply Forall_fmap, Forall_forall. intros e He. apply dedup_by_key_incl in He.
    rewrite sort_by_key_perm in He. apply list_elem_of_fmap in He as (kv & -> & _).
    apply digest_ok.
  - unfold cs. rewrite change_keys_some. intros k Hk.
    apply elem_of_list_to_set, list_elem_of_fmap in Hk as (e & -> & He).
    apply dedup_by_key_incl in He. rewrite sort_by_key_perm in He.
    apply list_elem_of_fmap in He as (kv & -> & Hkv). apply elem_of_list_to_set.
    rewrite map_map. apply list_elem_of_fmap. by exists kv.
Qed.

Lemma insert_correct (t : tree) kvs :
  good t → no_siblings (digest_set (map fst kvs) ∪ dom (smt_bindings t)) →
  ∃ t', insert kvs t = (t', Ok tt) ∧ good t'
        ∧ smt_bindings t' = list_to_map (digest_entries kvs) ∪ smt_bindings t.
Proof.
  intros Hg Hns. unfold insert. destruct (decide (kvs = [])) as [->|Hne].
  { exists t. split; [done|]. split; [done|]. symmetry. apply (left_id_L ∅ (∪)). }
  destruct (keyed_changes kvs (smt_bindings t)) as (Happ & Hok & Hkeys).
  destruct (stage_and_commit t _ Hg Hok) as (t1 & t' & E & _ & _ & _ & _ & Ec & Hg' & Hb').
  { eapply no_siblings_mono; [|exact Hns]. by apply union_mono_r. }
  rewrite (st_bind_ok _ _ _ _ _ E). erewrite st_bind_ok by by unfold st_gets.
  exists t'. split; [exact Ec|]. split; [done|]. by rewrite Hb', Happ.
Qed.

Lemma keyed_deletes (keys : list bytes) (D : gmap bytes bytes) :
  let cs : list change :=
    map (λ e, (e.1, None)) (dedup_by_key (sort_by_key (map (λ k, (digest k, tt)) keys))) in
  apply_changes cs D = filter (λ e, e.1 ∉ digest_set keys) D
  ∧ Forall (λ c, hash_ok c.1) cs ∧ change_keys cs ⊆ digest_set keys.
Proof.
  intros cs.
  assert (Hmem : ∀ k, k ∈ map fst cs ↔ k ∈ digest_set keys).
  { intros k. unfold cs, digest_set. rewrite map_map, elem_of_list_to_set. simpl.
    change (map (λ x : bytes * (), x.1)) with (map (@fst bytes unit)).
    by rewrite dedup_sort_keys, map_map. }
  assert (Hall : Forall (λ c : change, c.2 = None) cs).
  { apply Forall_fmap, Forall_true. done. }
  split; [|split].
  - apply map_eq. intros k. destruct (decide (k ∈ digest_set keys)) as [Hin|Hni].
    + rewrite (proj2 (map_lookup_filter_None _ _ _)) by (right; intros ? _ H; by apply H).
      rewrite lookup_apply_changes.
      * apply Hmem, list_elem_of_fmap in Hin as ([k' v] & -> & Hin).
        destruct (list_to_map cs !! (k', v).1) as [o|] eqn:Eo.
        { apply elem_of_list_to_map_2 in Eo. rewrite Forall_forall in Hall. by apply Hall in Eo. }
        apply not_elem_of_list_to_map_2 in Eo. exfalso. apply Eo, list_elem_of_fmap.
        by exists (k', v).
      * unfold cs. rewrite map_map. simpl. apply dedup_by_key_NoDup, sort_by_key_sorted.
    + rewrite apply_changes_other by (by rewrite Hmem).
      rewrite map_lookup_filter. destruct (D !! k) eqn:Ek; simpl; [|done].
      by rewrite option_guard_True.
  - apply Forall_forall. intros c Hc.
    assert (Hk : c.1 ∈ digest_set keys) by (apply Hmem, list_elem_of_fmap; by exists c).
    apply elem_of_list_to_set, list_elem_of_fmap in Hk as (k & -> & _). apply digest_ok.
  - intros k Hk. by apply elem_of_list_to_set, Hmem in Hk.
Qed.

Lemma delete_correct (t : tree) keys :
  good t → no_siblings (digest_set keys ∪ dom (smt_bindings t)) →
  ∃ t', delete keys t = (t', Ok tt) ∧ good t'
        ∧ smt_bindings t' = filter (λ e, e.1 ∉ digest_set keys) (smt_bindings t).
Proof.
  intros Hg Hns. unfold delete. destruct (decide (keys = [])) as [->|Hne].
  { exists t. split; [done|]. split; [done|]. symmetry. apply map_filter_id.
    intros k v _. apply not_elem_of_empty. }
  destruct (keyed_deletes keys (smt_bindings t)) as (Happ & Hok & Hkeys).
  destruct (stage_and_commit t _ Hg Hok) as (t1 & t' & E & _ & _ & _ & _ & Ec & Hg' & Hb').
  { eapply no_siblings_mono; [|exact Hns]. by apply union_mono_r. }
  rewrite (st_bind_ok _ _ _ _ _ E). erewrite st_bind_ok by by unfold st_gets.
  exists t'. split; [exact Ec|]. split; [done|]. by rewrite Hb', Happ.
Qed.

Lemma root_hash_correct (t : tree) :
  good t → root_hash t = (t, Ok (smt_root (smt_bindings t))).
Proof.
  intros [Ht Hh]. unfold root_hash. destruct (node_cache_ready t) eqn:Er.
  - rewrite (inv_default t Ht). do 2 f_equal.
    by apply (consistent_root (node_hash_from_cache dh (node_cache t))), (inv_cache t Ht).
  - rewrite healthy_get by done. pose proof (inv_root t Ht) as Hr.
    destruct (db_view (db t) !! ROOT_NODE_KEY) as [r|].
    + subst r. unfold hash_from_slice. by rewrite (proj1 (smt_root_ok _)).
    + rewrite Hr, smt_root_empty, (inv_default t Ht).
      rewrite nth_default_hashes, Nat.sub_0_r by lia. reflexivity.
Qed.

Lemma get_correct (t : tree) key :
  good t → get key t = (t, Ok (smt_bindings t !! digest key)).
Proof.
  intros [_ Hh]. unfold get, m_get. rewrite healthy_get by done.
  unfold smt_bindings. rewrite lookup_smt_data, decide_True; [done|apply digest_ok].
Qed.

(** *** Change lists *)

Lemma change_list_ok updates deletes :
  Forall (λ c, hash_ok c.1) (change_list updates deletes).
Proof.
  unfold change_list. apply Forall_app. split; apply Forall_fmap, Forall_true;
    intros ?; apply digest_ok.
Qed.

Definition touched (updates : list (bytes * bytes)) (deletes : list bytes) : gset bytes :=
  digest_set (deletes ++ map fst updates).

Lemma change_list_keys updates deletes :
  change_keys (change_list updates deletes) = touched updates deletes.
Proof.
  unfold change_keys, change_list, touched, digest_set.
  by rewrite !map_app, !map_map.
Qed.

Lemma btree_changes_ok cs :
  Forall (λ c, hash_ok c.1) cs → Forall (λ c, hash_ok c.1) (btree_iter (changes_map cs)).
Proof.
  intros Hok. apply Forall_forall. intros [k v] Hk.
  rewrite btree_iter_perm, elem_of_map_to_list in Hk.
  assert (Hin : k ∈ map fst cs). { apply changes_map_keys. exists v. exact Hk. }
  apply list_elem_of_fmap in Hin as (c & -> & Hc).
  rewrite Forall_forall in Hok. exact (Hok c Hc).
Qed.

Lemma btree_changes_keys cs : change_keys (btree_iter (changes_map cs)) ⊆ change_keys cs.
Proof.
  intros k Hk. apply elem_of_list_to_set, list_elem_of_fmap in Hk as ([k' v] & -> & Hk).
  rewrite btree_iter_perm, elem_of_map_to_list in Hk.
  apply elem_of_list_to_set, changes_map_keys. exists v. exact Hk.
Qed.

(** The effect of a checkpoint's changes on the bindings: deletes, then updates. *)
Definition changed (updates : list (bytes * bytes)) (deletes : list bytes)
    (D : gmap bytes bytes) : gmap bytes bytes :=
  apply_changes (change_list updates deletes) D.

(** [entries] describes every node of the tree for [D] on top of the cache. *)
Definition describes (t : tree) (entries : list (bytes * option bytes))
    (D : gmap bytes bytes) : Prop :=
  NoDup (map fst entries)
  ∧ (node_cache_ready t = true →
     consistent (view (node_cache t) (list_to_map entries)) (leaf_of D)).

Lemma describes_map_to_list (t : tree) ov D :
  consistent (view (node_cache t) ov) (leaf_of D) → describes t (map_to_list ov) D.
Proof.
  intros Hc. split; [apply NoDup_fst_map_to_list|]. by rewrite list_to_map_to_list.
Qed.

Lemma root_hash_with_changes_and_overlay_correct (t : tree) updates deletes :
  good t → no_siblings (touched updates deletes ∪ dom (smt_bindings t)) →
  ∃ t' entries,
    root_hash_with_changes_and_overlay updates deletes t
    = (t', Ok (smt_root (changed updates deletes (smt_bindings t)), entries))
    ∧ good t' ∧ smt_bindings t' = smt_bindings t
    ∧ describes t' entries (changed updates deletes (smt_bindings t))
    ∧ (node_cache_ready t' = true ∨ entries = [] ∧ updates = [] ∧ deletes = []).
Proof.
  intros Hg Hns. unfold root_hash_with_changes_and_overlay.
  destruct (decide (updates = [] ∧ deletes = [])) as [[-> ->]|Hne].
  { rewrite (st_bind_ok _ _ _ _ _ (root_hash_correct t Hg)).
    exists t, []. split; [done|]. split; [done|]. split; [done|]. split; [|by auto].
    split; [constructor|]. intros Hr.
    eapply consistent_ext; [|by apply (inv_cache t (proj1 Hg))].
    intros q d. by rewrite view_empty_overlay. }
  destruct (ensure_node_index_spec t Hg) as (t1 & E & Hg1 & Hr1 & Hb1).
  { eapply no_siblings_mono; [|exact Hns]. apply union_subseteq_r. }
  rewrite (st_bind_ok _ _ _ _ _ E). erewrite st_bind_ok by by unfold st_gets.
  set (cs := change_list updates deletes).
  pose proof (change_list_ok updates deletes) as Hok.
  assert (Hok' : Forall (λ c, hash_ok c.1) (btree_iter (changes_map cs)))
    by by apply btree_changes_ok.
  assert (Hns' : no_siblings (change_keys (btree_iter (changes_map cs))
                              ∪ dom (smt_bindings t1))).
  { rewrite Hb1. eapply no_siblings_mono; [|exact Hns]. rewrite <- change_list_keys.
    apply union_mono_r, btree_changes_keys. }
  unfold changed. fold cs.
  destruct (1024 <=? size (changes_map cs)).
  - pose proof (parallel_changes_consistent (node_cache t1) (smt_bindings t1)
      (btree_iter (changes_map cs)) Hok' (btree_iter_NoDup _) Hns'
      (inv_cache t1 (proj1 Hg1) Hr1)) as Hpar.
    rewrite (inv_default t1 (proj1 Hg1)).
    destruct (root_hash_with_sorted_changes_parallel _ _ _) as [root ov].
    destruct Hpar as [-> Hc]. rewrite apply_changes_btree, Hb1 in *.
    exists t1, (map_to_list ov). split; [done|]. split; [done|]. split; [done|].
    split; [by apply describes_map_to_list|by left].
  - pose proof (stage_on_tree t1 _ Hg1 Hr1 Hok' Hns') as Hc.
    rewrite (overlay_root_spec t1 _ _ (proj1 Hg1) Hc).
    rewrite apply_changes_btree, Hb1 in *.
    eexists t1, _. split; [done|]. split; [done|]. split; [done|].
    split; [by apply describes_map_to_list|by left].
Qed.

Lemma apply_changes_with_root_correct (t : tree) updates deletes root :
  good t → no_siblings (touched updates deletes ∪ dom (smt_bindings t)) →
  let D' := changed updates deletes (smt_bindings t) in
  ∃ t', good t' ∧
    if decide (root = smt_root D')
    then apply_changes_with_root updates deletes root t = (t', Ok tt)
         ∧ smt_bindings t' = D'
    else apply_changes_with_root updates deletes root t
         = (t', Err "verified SMT root mismatch while applying incremental node changes")
         ∧ smt_bindings t' = smt_bindings t.
Proof.
  intros Hg Hns D'. unfold apply_changes_with_root.
  set (cs := change_list updates deletes).
  assert (Hok : Forall (λ c, hash_ok c.1) cs) by apply change_list_ok.
  assert (ED : D' = apply_changes cs (smt_bindings t)) by reflexivity. clearbody D'.
  destruct (ensure_node_index_spec t Hg) as (t1 & E & Hg1 & Hr1 & Hb1).
  { eapply no_siblings_mono; [|exact Hns]. apply union_subseteq_r. }
  rewrite (st_bind_ok _ _ _ _ _ E). erewrite st_bind_ok by by unfold st_gets.
  assert (Hns' : no_siblings (change_keys (btree_iter (changes_map cs))
                              ∪ dom (smt_bindings t))).
  { eapply no_siblings_mono; [|exact Hns]. rewrite <- change_list_keys.
    apply union_mono_r, btree_changes_keys. }
  pose proof (stage_on_tree t1 _ Hg1 Hr1 (btree_changes_ok _ Hok)) as Hc.
  rewrite Hb1 in Hc. specialize (Hc Hns').
  rewrite (overlay_root_spec t1 _ _ (proj1 Hg1) Hc).
  rewrite apply_changes_btree, <- ED in Hc |- *. unfold ensure.
  destruct (decide (root = smt_root D')) as [->|Hne].
  - rewrite bool_decide_true by done. erewrite st_bind_ok by by unfold st_lift.
    pose proof (commit_spec t1 cs (stage_changes (default_hashes t1) (node_cache t1)
      (btree_iter (changes_map cs)) ∅) Hg1 Hr1 Hok) as Hcommit. cbv zeta in Hcommit.
    rewrite Hb1, <- ED in Hcommit. destruct (Hcommit Hc) as (t' & Ec & Hg' & _ & Hb'). exists t'. by split.
  - rewrite bool_decide_false by congruence. exists t1. split; [done|]. by split.
Qed.

(** *** Two-phase commit: prepare the overlay, install it later *)

Lemma find_root_entry (entries : list (bytes * option bytes)) :
  NoDup (map fst entries) →
  match find (λ e, bool_decide (e.1 = ROOT_NODE_KEY)) entries with
  | Some (_, value) => (list_to_map entries : overlay_t) !! ROOT_NODE_KEY = Some value
  | None => (list_to_map entries : overlay_t) !! ROOT_NODE_KEY = None
  end.
Proof.
  induction entries as [|[k v] entries IH]; intros Hnd; simpl; [apply lookup_empty|].
  apply NoDup_cons in Hnd as [_ Hnd]. case_bool_decide as E; simpl in E.
  - subst. apply lookup_insert_eq.
  - specialize (IH Hnd). destruct (find _ entries) as [[k' v']|];
      by rewrite lookup_insert_ne.
Qed.

(** The root claimed by an overlay that describes [D]. *)
Lemma overlay_root_claim (t : tree) entries D :
  good t → describes t entries D →
  node_cache_ready t = true ∨ entries = [] ∧ D = smt_bindings t →
  match find (λ e, bool_decide (e.1 = ROOT_NODE_KEY)) entries with
  | Some (_, value) => default (nth 0 (default_hashes t) []) value
  | None => match (root_hash t).2 with
            | Ok r => r | Err _ => nth 0 (default_hashes t) [] end
  end = smt_root D.
Proof.
  intros Hg [Hnd Hc] Hr. pose proof (find_root_entry entries Hnd) as Hf.
  rewrite (root_hash_correct t Hg), (inv_default t (proj1 Hg)).
  destruct Hr as [Hr|[-> ->]]; [|done].
  specialize (Hc Hr). apply consistent_root in Hc. rewrite <- Hc.
  unfold node_hash_from_overlay. change (node_key zero_hash 0) with ROOT_NODE_KEY.
  destruct (find _ entries) as [[k v]|].
  - change (node_key (replicate 32 0%Z) 0) with ROOT_NODE_KEY. by rewrite Hf.
  - change (node_key (replicate 32 0%Z) 0) with ROOT_NODE_KEY. rewrite Hf. cbn [snd].
    symmetry. by apply (consistent_root (node_hash_from_cache dh (node_cache t))),
      (inv_cache t (proj1 Hg)).
Qed.

Lemma apply_precomputed_correct (t : tree) updates deletes entries :
  good t → no_siblings (dom (smt_bindings t)) →
  let D' := changed updates deletes (smt_bindings t) in
  describes t entries D' →
  node_cache_ready t = true ∨ entries = [] ∧ updates = [] ∧ deletes = [] →
  ∃ t', apply_changes_with_precomputed_overlay updates deletes (smt_root D') entries t
        = (t', Ok tt) ∧ good t' ∧ smt_bindings t' = D'.
Proof.
  intros Hg Hns D' Hdesc Hr. unfold apply_changes_with_precomputed_overlay,
    stage_changes_with_precomputed_overlay.
  assert (Hclaim := overlay_root_claim t entries D' Hg Hdesc).
  assert (ED : D' = changed updates deletes (smt_bindings t)) by reflexivity. clearbody D'.
  destruct (ensure_node_index_spec t Hg Hns) as (t1 & E & Hg1 & Hr1 & Hb1).
  assert (Hc1 : consistent (view (node_cache t1) (list_to_map entries)) (leaf_of D')).
  { destruct Hr as [Hr|(-> & -> & ->)].
    - unfold ensure_node_index in E. rewrite Hr in E. injection E as <-.
      by apply (proj2 Hdesc).
    - rewrite ED. change (changed [] [] (smt_bindings t)) with (smt_bindings t).
      rewrite <- Hb1. eapply consistent_ext; [|by apply (inv_cache t1 (proj1 Hg1))].
      intros q d. by rewrite view_empty_overlay. }
  set (cs := change_list updates deletes) in *.
  assert (Hstage : (t ← st_gets (λ t : tree, t);
    st_lift (ensure (bool_decide (match find (λ e, bool_decide (e.1 = ROOT_NODE_KEY)) entries with
      | Some (_, value) => default (nth 0 (default_hashes t) []) value
      | None => match (root_hash t).2 with
                | Ok r => r | Err _ => nth 0 (default_hashes t) [] end
      end = smt_root D')) "precomputed SMT overlay root does not match verified root");;
    ensure_node_index;; mret ([] ++ map data_op cs ++ root_ops (smt_root D'))) t
    = (t1, Ok (map data_op cs ++ root_ops (smt_root D')))).
  { erewrite st_bind_ok by by unfold st_gets. rewrite Hclaim.
    - rewrite bool_decide_true by done. erewrite st_bind_ok by by unfold st_lift.
      by rewrite (st_bind_ok _ _ _ _ _ E).
    - destruct Hr as [Hr|(-> & -> & ->)]; [by left|right; by rewrite ED]. }
  rewrite (st_bind_ok _ _ _ _ _ Hstage).
  destruct (commit_spec t1 cs (list_to_map entries) Hg1 Hr1) as (t' & Ec & Hg' & _ & Hb').
  { apply change_list_ok. }
  { rewrite Hb1. change (apply_changes cs (smt_bindings t))
      with (changed updates deletes (smt_bindings t)). by rewrite <- ED. }
  rewrite Hb1 in Ec, Hb'.
  change (apply_changes cs (smt_bindings t))
    with (changed updates deletes (smt_bindings t)) in Ec, Hb'. rewrite <- ED in Ec, Hb'.
  unfold commit in Ec. apply st_bind_inv in Ec as (t2 & [] & Ew & Em).
  rewrite (st_bind_ok _ _ _ _ _ Ew). eexists. split; [by unfold apply_precomputed_node_overlay, st_modify|].
  injection Em as <-. destruct Hg' as [Hi' Hh']. unfold smt_bindings in Hb' |- *. simpl in *.
  split; [|exact Hb']. split; [|exact Hh'].
  split; [apply Hi'|apply Hi'|apply (inv_root _ Hi')|].
  intros Hready. eapply consistent_ext; [|exact (inv_cache _ Hi' Hready)].
  intros q d. simpl. unfold apply_node_overlay_to_cache.
  rewrite !(apply_overlay_view _ (list_to_map entries)); [done| |done].
  rewrite map_to_list_to_map by apply Hdesc. done.
Qed.

(** *** Reopening and repair *)

(** A process restart: a new handle on the same database. *)
Lemma new_good (t : tree) : good t → good (new (db t)) ∧ smt_bindings (new (db t)) = smt_bindings t.
Proof.
  intros [Ht Hh]. split; [|done]. split; [|done].
  split; [done|apply Ht|apply (inv_root t Ht)|done].
Qed.

(** What [rebuild] needs: it repairs any cache, root record and node record. *)
Definition repairable (t : tree) : Prop :=
  default_hashes t = DEFAULT_HASHES ∧ healthy (db t)
  ∧ ∀ k, is_Some (db_view (db t) !! k) → bytes_ok k.

Lemma wipe_view (m : gmap bytes bytes) l :
  l ≡ₚ map_to_list m →
  let m' := apply_batch (map (λ e : bytes * bytes, BDelete e.1)
    (filter (λ e, starts_with node_prefix e.1 || starts_with data_prefix e.1 = true) l)
    ++ [BDelete NODE_INDEX_VERSION_KEY]) m in
  m' !! ROOT_NODE_KEY = None ∧ smt_data m' = ∅ ∧ ∀ k, is_Some (m' !! k) → is_Some (m !! k).
Proof.
  intros HP m'. set (sel := filter (λ e : bytes * bytes,
    starts_with node_prefix e.1 || starts_with data_prefix e.1 = true) l).
  assert (Hm' : m' = apply_batch (map BDelete (map fst sel ++ [NODE_INDEX_VERSION_KEY])) m).
  { unfold m'. by rewrite map_app, map_map. }
  assert (Hsel : ∀ k, is_Some (m !! k) →
    starts_with node_prefix k || starts_with data_prefix k = true → m' !! k = None).
  { intros k [v Hv] Hk. rewrite Hm', apply_deletes, decide_True; [done|].
    apply elem_of_app. left. apply list_elem_of_fmap. exists (k, v). split; [done|].
    apply list_elem_of_filter. split; [done|]. by rewrite HP, elem_of_map_to_list. }
  assert (Hsub : ∀ k, is_Some (m' !! k) → is_Some (m !! k)).
  { intros k. rewrite Hm', apply_deletes. case_decide; [by intros []|done]. }
  clearbody m'.
  assert (Hnone : ∀ k, starts_with node_prefix k || starts_with data_prefix k = true →
    m' !! k = None).
  { intros k Hk. destruct (m' !! k) eqn:E; [|done].
    rewrite Hsel in E; [done|apply Hsub; by eexists|done]. }
  split; [by apply Hnone|]. split; [|done].
  apply map_eq. intros kh. rewrite lookup_smt_data, lookup_empty. case_decide; [|done].
  apply Hnone. change (data_key kh) with (data_prefix ++ kh).
  unfold starts_with at 2. by rewrite take_app_length, bool_decide_true, orb_true_r.
Qed.

Lemma rebuild_correct (t : tree) entries :
  repairable t → no_siblings (digest_set (map fst entries)) →
  ∃ t', rebuild entries t = (t', Ok tt) ∧ good t'
        ∧ smt_bindings t' = list_to_map (digest_entries entries).
Proof.
  intros (Hd & Hh & Hbytes) Hns. unfold rebuild.
  destruct (healthy_iter (db t) Hh) as (l & El & HP).
  erewrite st_bind_ok; [|unfold m_iter; by rewrite El].
  set (ops := _ ++ [BDelete NODE_INDEX_VERSION_KEY]).
  destruct (m_write_ok t ops Hh) as (d & E & Hhd & Hv).
  destruct (wipe_view (db_view (db t)) l HP) as (Hr & Hdata & Hsub).
  fold ops in Hr, Hdata, Hsub. rewrite <- Hv in Hr, Hdata, Hsub. clearbody ops.
  rewrite (st_bind_ok _ _ _ _ _ E).
  erewrite st_bind_ok by by unfold st_modify. erewrite st_bind_ok by by unfold st_modify.
  set (t1 := set_node_cache_ready false _).
  assert (Hg1 : good t1).
  { split; [|exact Hhd]. split; [exact Hd| | |done].
    - intros k Hk. by apply Hbytes, Hsub.
    - simpl. rewrite Hr. exact Hdata. }
  assert (Hb1 : smt_bindings t1 = ∅) by exact Hdata.
  destruct (decide (entries = [])) as [->|Hne].
  - erewrite st_bind_ok by by unfold st_gets.
    destruct (m_write_ok t1 [BPut ROOT_NODE_KEY (nth 0 (default_hashes t1) [])] Hhd)
      as (d2 & E2 & Hh2 & Hv2).
    rewrite (st_bind_ok _ _ _ _ _ E2). eexists. split; [by unfold st_modify|].
    assert (Hb2 : smt_data (db_view d2) = ∅).
    { rewrite <- Hb1, Hv2. apply smt_data_ext. intros kh _. simpl.
      apply lookup_insert_ne, not_eq_sym, data_key_not_root. }
    split; [|exact Hb2]. split; [|exact Hh2]. split.
    + exact Hd.
    + intros k Hk. simpl in Hk. rewrite Hv2 in Hk. simpl in Hk.
      rewrite lookup_insert in Hk. case_decide; [subst|by apply Hbytes, Hsub].
      by repeat constructor; unfold byte_ok; lia.
    + simpl. rewrite Hv2. simpl. rewrite lookup_insert_eq. unfold smt_bindings. simpl.
      rewrite Hb2, smt_root_empty, Hd, nth_default_hashes, Nat.sub_0_r by lia. reflexivity.
    + intros _. unfold smt_bindings. simpl. rewrite Hb2. apply consistent_empty_cache.
  - destruct (insert_correct t1 entries Hg1) as (t' & Ei & Hg' & Hb').
    { rewrite Hb1, dom_empty_L, union_empty_r_L. done. }
    exists t'. split; [done|]. split; [done|].
    rewrite Hb', Hb1. apply (right_id_L ∅ (∪)).
Qed.
End Correct.
