(* ===== verification/SmtBatch.v ===== *)
(** * Root of an explicit entry list: [compute_sparse_root]

    [crates/smt/src/sparse_merkle.rs], the free functions: sequential below
    2048 entries, bucketed by the top 12 bits above.  Both are shown to compute
    [smt_root] of the entries (of equal keys the first entry counts). *)

From stdpp Require Import base list gmap sorting.
From Stdlib Require Import ZArith Lia.
From S2P Require Import Prelude Order Hashing SmtPath SmtSpec SmtTree SmtParallel.

(** [slice::partition_point]: the end of the leading run satisfying [pred],
    which on a partitioned slice is the partition point. *)
Fixpoint partition_point {A} (pred : A → bool) (l : list A) : nat :=
  match l with
  | x :: l => if pred x then S (partition_point pred l) else 0
  | [] => 0
  end.

Section Batch.
Context {B3 : Blake3}.
Local Abbreviation entry := (bytes * bytes)%type.

(** The upward loop for a subtree with a single entry:
    [for depth in ((subtree_depth + 1)..=256).rev()].  [dh] is the static
    [DEFAULT_HASHES], initialised once. *)
Definition single_entry_root (dh : list bytes) (subtree_depth : nat) (e : entry) : bytes :=
  let '(key_hash, value) := e in
  fold_left
    (λ current depth,
       if bit_is_left key_hash depth then hash_node current (nth depth dh [])
       else hash_node (nth depth dh []) current)
    (rev (seq (subtree_depth + 1) (256 - subtree_depth)))
    (hash_leaf key_hash value).

(** The recursion, by the number [n = 256 - subtree_depth] of levels below
    the subtree's root.  Callers never pass an empty slice
    ([debug_assert!(!entries.is_empty())]). *)
Fixpoint sorted_root (dh : list bytes) (n : nat) (entries : list entry) : bytes :=
  match entries with
  | [e] => single_entry_root dh (256 - n) e
  | _ =>
      match n with
      | O => match entries with e :: _ => hash_leaf e.1 e.2 | [] => [] end
      | S n =>
          let next_depth := 256 - n in
          let split := partition_point (λ e, bit_is_left e.1 next_depth) entries in
          let left :=
            if split =? 0 then nth next_depth dh []
            else sorted_root dh n (take split entries) in
          let right :=
            if split =? length entries then nth next_depth dh []
            else sorted_root dh n (drop split entries) in
          hash_node left right
      end
  end.

Definition compute_sparse_subtree_root_sorted (entries : list entry)
    (subtree_depth : nat) : bytes :=
  sorted_root DEFAULT_HASHES (256 - subtree_depth) entries.

Definition compute_sparse_subtree_root (entries : list entry) (subtree_depth : nat) : bytes :=
  match entries with
  | [] => nth subtree_depth DEFAULT_HASHES []
  | _ =>
      if is_sorted entries then compute_sparse_subtree_root_sorted entries subtree_depth
      else compute_sparse_subtree_root_sorted (sort_by_key entries) subtree_depth
  end.

(** [roots.as_chunks::<2>().0.iter().map(|pair| hash_node(..))] *)
Fixpoint hash_pairs (roots : list bytes) : list bytes :=
  match roots with
  | l :: r :: rest => hash_node l r :: hash_pairs rest
  | _ => []
  end.

Definition compute_sparse_root_parallel_byte (entries : list entry) : bytes :=
  let buckets := fill_buckets (map (λ kv, (digest kv.1, kv.2)) entries) in
  let roots := map (λ b, compute_sparse_subtree_root b PARALLEL_BUCKET_DEPTH) buckets in
  nth 0 (Nat.iter PARALLEL_BUCKET_DEPTH hash_pairs roots) [].

Definition compute_sparse_root (entries : list entry) : bytes :=
  match entries with
  | [] => nth 0 DEFAULT_HASHES []
  | _ =>
      if 2048 <=? length entries then compute_sparse_root_parallel_byte entries
      else compute_sparse_subtree_root (map (λ kv, (digest kv.1, kv.2)) entries) 0
  end.
End Batch.

(** ** Order and bits *)

Section Bits.
Lemma div_testbit x k : (0 ≤ k)%Z → (x / 2 ^ k = 2 * (x / 2 ^ (k + 1)) + Z.b2z (Z.testbit x k))%Z.
Proof.
  intros Hk. rewrite Z.pow_add_r, <- Z.div_div, Z.pow_1_r by lia.
  rewrite (Z.div_mod (x / 2 ^ k) 2) at 1 by lia. f_equal.
  rewrite <- Z.bit0_mod. f_equal. rewrite <- Z.shiftr_div_pow2 by lia.
  rewrite Z.shiftr_spec by lia. by rewrite Z.add_0_l.
Qed.

Lemma testbit_lt x y k :
  (0 ≤ k)%Z → Z.testbit x k = true → Z.testbit y k = false →
  (∀ m, (k < m)%Z → Z.testbit x m = Z.testbit y m) → (y < x)%Z.
Proof.
  intros Hk Hx Hy Hm.
  assert (Hhi : (x / 2 ^ (k + 1) = y / 2 ^ (k + 1))%Z).
  { rewrite <- !Z.shiftr_div_pow2 by lia. apply Z.bits_inj'. intros i Hi.
    rewrite !Z.shiftr_spec by lia. apply Hm. lia. }
  pose proof (div_testbit x k Hk) as Ex. pose proof (div_testbit y k Hk) as Ey.
  rewrite Hx in Ex. rewrite Hy in Ey. simpl in Ex, Ey.
  destruct (Z.lt_ge_cases y x) as [|Hle]; [done|]. exfalso.
  assert (x / 2 ^ k ≤ y / 2 ^ k)%Z by (apply Z.div_le_mono; lia). lia.
Qed.

Lemma bytes_leb_at (a b : bytes) j :
  take j a = take j b → j < length a → j < length b → (nth j b 0 < nth j a 0)%Z →
  bytes_leb a b = false.
Proof.
  revert a b. induction j as [|j IH]; intros [|x a] [|y b] Ht Ha Hb Hlt; simpl in *; try lia.
  injection Ht as -> Ht. rewrite Z.ltb_irrefl, Z.eqb_refl. simpl.
  apply IH; [done|lia..].
Qed.

(** On byte strings in order that agree on [d] bits, bit [d] is monotone. *)
Lemma bytes_le_bit a b d :
  hash_ok a → hash_ok b → d < 256 → bytes_le a b → path a d = path b d →
  key_bit a d = true → key_bit b d = true.
Proof.
  intros [Hla Hba] [Hlb Hbb] Hd Hle Hp Ha. destruct (key_bit b d) eqn:Hb; [done|].
  exfalso. pose proof (proj1 (path_eq _ _ _) Hp) as Hbits.
  pose proof (Nat.div_mod_eq d 8) as Ed. pose proof (Nat.mod_upper_bound d 8) as Hm.
  assert (Hj : d / 8 < 32) by (apply Nat.Div0.div_lt_upper_bound; lia).
  assert (bytes_leb a b = false); [|unfold bytes_le in Hle; congruence].
  apply (bytes_leb_at a b (d / 8)); [|lia..|].
  - apply bytes_eq_bits.
    + by apply Forall_take.
    + by apply Forall_take.
    + rewrite !length_take. lia.
    + rewrite length_take. intros i Hi.
      assert (i / 8 < d / 8) by (apply Nat.Div0.div_lt_upper_bound; lia).
      unfold key_bit. rewrite !nth_take by done. apply (Hbits i). lia.
  - apply (testbit_lt _ _ (Z.of_nat (7 - d mod 8))); [lia|done|done|].
    intros m Hm'. destruct (decide (m < 8)%Z) as [H8|H8].
    + pose proof (Nat.div_mod_eq (8 * (d / 8) + (7 - Z.to_nat m)) 8) as Ei.
      specialize (Hbits (8 * (d / 8) + (7 - Z.to_nat m)) ltac:(lia)).
      unfold key_bit in Hbits.
      rewrite (Nat.mul_comm 8 (d / 8)), Nat.div_add_l, (Nat.div_small (7 - Z.to_nat m)),
        Nat.add_0_r in Hbits by lia.
      rewrite Nat.add_comm, Nat.Div0.mod_add, Nat.mod_small in Hbits by lia.
      replace (Z.of_nat (7 - (7 - Z.to_nat m))) with m in Hbits by lia. exact Hbits.
    + rewrite !testbit_byte_high; [done|by apply bytes_ok_nth|lia|by apply bytes_ok_nth|lia].
Qed.
End Bits.

(** ** The sequential routine *)

Section Sequential.
Context {B3 : Blake3}.
Local Abbreviation entry := (bytes * bytes)%type.
Local Abbreviation binding es := (list_to_map es : gmap bytes bytes).

Lemma rev_seq_S k n : rev (seq k (S n)) = (k + n) :: rev (seq k n).
Proof. rewrite seq_S, rev_app_distr. done. Qed.

(** One entry: the sibling at every level is an empty subtree. *)
Lemma single_loop kh v n d :
  hash_ok kh → d + n ≤ 256 →
  let D : gmap bytes bytes := {[kh := v]} in
  fold_left
    (λ current depth,
       if bit_is_left kh depth then hash_node current (nth depth DEFAULT_HASHES [])
       else hash_node (nth depth DEFAULT_HASHES []) current)
    (rev (seq (d + 1) n)) (subtree (leaf_of D) (256 - (d + n)) (path kh (d + n)))
  = subtree (leaf_of D) (256 - d) (path kh d).
Proof.
  intros Hk Hdn D. induction n as [|n IH].
  - by rewrite Nat.add_0_r.
  - rewrite rev_seq_S, fold_left_cons. rewrite <- IH by lia. f_equal.
    replace (d + 1 + n) with (S (d + n)) by lia. replace (d + S n) with (S (d + n)) by lia.
    rewrite bit_is_left_bit, (subtree_step kh (d + n)) by lia. cbv zeta.
    rewrite nth_default_hashes by lia.
    assert (E : subtree (leaf_of D) (256 - S (d + n))
                  (path kh (d + n) ++ [negb (key_bit kh (d + n))])
                = default_up (256 - S (d + n))).
    { apply subtree_default. intros q Hq. unfold leaf_of, leaf_at.
      destruct (D !! _) eqn:Ek; [|done]. exfalso.
      apply lookup_singleton_Some in Ek as [Ek _].
      assert (Hb : key_bit kh (d + n) = negb (key_bit kh (d + n))).
      { rewrite Ek at 1. rewrite key_bit_bytes_of_path; [|rewrite !length_app, length_path; simpl; lia|lia].
        rewrite <- app_assoc, app_nth2; rewrite length_path; [|lia].
        by rewrite Nat.sub_diag. }
      by destruct (key_bit kh (d + n)). }
    rewrite E. by destruct (key_bit kh (d + n)).
Qed.

Lemma single_entry_root_spec kh v d :
  hash_ok kh → d ≤ 256 →
  single_entry_root DEFAULT_HASHES d (kh, v) = subtree (leaf_of (binding [(kh, v)])) (256 - d) (path kh d).
Proof.
  intros Hk Hd. unfold single_entry_root.
  assert (E : binding [(kh, v)] = {[kh := v]}) by apply insert_empty.
  rewrite E, <- (single_loop kh v (256 - d) d) by (exact Hk || lia). clear E.
  replace (d + (256 - d)) with 256 by lia. apply f_equal.
  rewrite Nat.sub_diag, subtree_0, leaf_of_path by exact Hk. unfold leaf_at.
  by rewrite lookup_singleton_eq.
Qed.

(** *** Splitting at a bit *)

Lemma partition_point_spec {A} (pred : A → bool) (R : relation A) l :
  StronglySorted R l → (∀ x y, x ∈ l → y ∈ l → R x y → pred x = false → pred y = false) →
  let s := partition_point pred l in
  s ≤ length l ∧ Forall (λ x, pred x = true) (take s l)
  ∧ Forall (λ x, pred x = false) (drop s l).
Proof.
  induction l as [|x l IH]; intros Hs Hmono; simpl; [by repeat constructor|].
  apply StronglySorted_inv in Hs as [Hs Hx]. destruct (pred x) eqn:Ex; simpl.
  - destruct (IH Hs) as (H1 & H2 & H3).
    { intros y z Hy Hz. apply Hmono; by right. }
    split; [lia|]. split; [by constructor|done].
  - split; [lia|]. split; [constructor|]. constructor; [done|].
    apply Forall_forall. intros y Hy. rewrite Forall_forall in Hx.
    apply (Hmono x y); [by left|by right|by apply Hx|done].
Qed.

Lemma sorted_split n (l : list entry) :
  StronglySorted key_le l →
  StronglySorted key_le (take n l) ∧ StronglySorted key_le (drop n l).
Proof.
  intros Hs. rewrite <- (take_drop n l) in Hs. split.
  - by apply StronglySorted_app_1_l in Hs.
  - by apply StronglySorted_app_1_r in Hs.
Qed.

(** The part of a list that matters for the subtree below [p]. *)
Lemma binding_off_path (es : list entry) n p p' q :
  n ≤ 256 → Forall (λ e, path e.1 (256 - n) = p') es → p ≠ p' →
  length p = 256 - n → length q = n → binding es !! bytes_of_path (p ++ q) = None.
Proof.
  intros Hn Hes Hne Hp Hq. apply not_elem_of_list_to_map_1. intros Hin.
  apply list_elem_of_fmap in Hin as (e & Ee & He). rewrite Forall_forall in Hes.
  specialize (Hes e He). apply Hne. rewrite <- Hes, <- Ee.
  rewrite <- (take_path _ (256 - n) 256) by lia.
  rewrite path_bytes_of_path by (rewrite length_app; lia).
  by rewrite take_app_length' by done.
Qed.

(** The two halves of a sorted run, below the two children of [p]. *)
Lemma subtree_halves (l r : list entry) n p :
  S n ≤ 256 → length p = 256 - S n →
  Forall (λ e, path e.1 (256 - n) = p ++ [false]) l →
  Forall (λ e, path e.1 (256 - n) = p ++ [true]) r →
  subtree (leaf_of (binding (l ++ r))) (S n) p
  = hash_node (subtree (leaf_of (binding l)) n (p ++ [false]))
              (subtree (leaf_of (binding r)) n (p ++ [true])).
Proof.
  intros Hn Hp Hl Hr. rewrite subtree_S.
  assert (Hlen : ∀ b, length (p ++ [b]) = 256 - n) by (intros; rewrite length_app; simpl; lia).
  rewrite list_to_map_app. f_equal; apply subtree_ext; intros q Hq;
    unfold leaf_of, leaf_at; rewrite lookup_union.
  - rewrite (binding_off_path r n _ (p ++ [true])); [|lia|done| |done|done].
    + by rewrite (right_id_L None _).
    + intros E. apply app_inj_tail in E as [_ E]. discriminate E.
  - rewrite (binding_off_path l n _ (p ++ [false])); [|lia|done| |done|done].
    + by rewrite (left_id_L None _).
    + intros E. apply app_inj_tail in E as [_ E]. discriminate E.
Qed.

Lemma sorted_root_unfold n (es : list entry) :
  2 ≤ length es →
  sorted_root DEFAULT_HASHES (S n) es
  = let next_depth := 256 - n in
    let split := partition_point (λ e, bit_is_left e.1 next_depth) es in
    hash_node
      (if split =? 0 then nth next_depth DEFAULT_HASHES [] else sorted_root DEFAULT_HASHES n (take split es))
      (if split =? length es then nth next_depth DEFAULT_HASHES []
       else sorted_root DEFAULT_HASHES n (drop split es)).
Proof. destruct es as [|e [|e' es]]; simpl; lia || done. Qed.

Lemma key_bit_path_S kh n p b :
  S n ≤ 256 → path kh (256 - S n) = p → key_bit kh (255 - n) = b →
  path kh (256 - n) = p ++ [b].
Proof.
  intros Hn <- <-. replace (256 - n) with (S (255 - n)) by lia.
  rewrite path_S. by replace (256 - S n) with (255 - n) by lia.
Qed.

(** Where a sorted run below [p] splits at the next bit. *)
Lemma split_spec n p (es : list entry) :
  S n ≤ 256 → StronglySorted key_le es → Forall (λ e, hash_ok e.1) es →
  Forall (λ e, path e.1 (256 - S n) = p) es →
  let s := partition_point (λ e, bit_is_left e.1 (256 - n)) es in
  s ≤ length es ∧
  Forall (λ e, path e.1 (256 - n) = p ++ [false]) (take s es) ∧
  Forall (λ e, path e.1 (256 - n) = p ++ [true]) (drop s es).
Proof.
  intros Hn Hs Hok Hp s. rewrite Forall_forall in Hok, Hp.
  assert (Hbit : ∀ e : entry, bit_is_left e.1 (256 - n) = negb (key_bit e.1 (255 - n))).
  { intros e. replace (256 - n) with (S (255 - n)) by lia. apply bit_is_left_bit. }
  destruct (partition_point_spec (λ e, bit_is_left e.1 (256 - n)) key_le es Hs)
    as (H1 & H2 & H3).
  { intros x y Hx Hy Hxy. rewrite !Hbit, !negb_false_iff. intros Hbx.
    apply (bytes_le_bit x.1 y.1); [by apply Hok|by apply Hok|lia|exact Hxy| |done].
    pose proof (Hp x Hx) as Ex. pose proof (Hp y Hy) as Ey.
    replace (256 - S n) with (255 - n) in Ex, Ey by lia. by rewrite Ex, Ey. }
  split; [done|]. split; rewrite Forall_forall in *; intros e He.
  - apply key_bit_path_S; [done|apply Hp; rewrite <- (take_drop s es); by apply elem_of_app; left|].
    specialize (H2 e He). simpl in H2. rewrite Hbit in H2. by apply negb_true_iff.
  - apply key_bit_path_S; [done|apply Hp; rewrite <- (take_drop s es); by apply elem_of_app; right|].
    specialize (H3 e He). simpl in H3. rewrite Hbit in H3. by apply negb_false_iff.
Qed.

Lemma sorted_root_spec n p (es : list entry) :
  n ≤ 256 → es ≠ [] → StronglySorted key_le es → Forall (λ e, hash_ok e.1) es →
  Forall (λ e, path e.1 (256 - n) = p) es →
  sorted_root DEFAULT_HASHES n es = subtree (leaf_of (binding es)) n p.
Proof.
  revert p es. induction n as [|n IH]; intros p es Hn Hne Hs Hok Hp.
  - destruct es as [|[kh v] es]; [done|].
    apply Forall_cons in Hok as [Hk _], Hp as [Hp _]. simpl in Hk, Hp. subst p.
    rewrite subtree_0, leaf_of_path by exact Hk. unfold leaf_at.
    replace (binding ((kh, v) :: es) !! kh) with (Some v)
      by (symmetry; apply lookup_insert_eq).
    destruct es; [|done]. unfold sorted_root, single_entry_root. done.
  - destruct (decide (2 ≤ length es)) as [H2|H1].
    + assert (Hlp : length p = 256 - S n).
      { destruct es; [done|]. apply Forall_cons in Hp as [<- _]. by rewrite length_path. }
      destruct (split_spec n p es Hn Hs Hok Hp) as (Hle & Hl & Hr).
      rewrite sorted_root_unfold by done. cbv zeta.
      set (s := partition_point _ es) in *.
      destruct (sorted_split s es Hs) as [Hsl Hsr].
      rewrite <- (take_drop s es) in Hok. apply Forall_app in Hok as [Hokl Hokr].
      rewrite <- (take_drop s es) at 4.
      rewrite subtree_halves by (done || lia). f_equal.
      * destruct (Nat.eqb_spec s 0) as [E|E].
        { rewrite E. rewrite nth_default_hashes by lia. rewrite take_0, subtree_empty.
          f_equal. lia. }
        apply IH; [lia| |done..]. intros En. apply (f_equal length) in En.
        rewrite length_take in En. simpl in En. lia.
      * destruct (Nat.eqb_spec s (length es)) as [E|E].
        { rewrite nth_default_hashes by lia. rewrite drop_ge, subtree_empty by lia.
          f_equal. lia. }
        apply IH; [lia| |done..]. intros En. apply (f_equal length) in En.
        rewrite length_drop in En. simpl in En. lia.
    + destruct es as [|[kh v] [|? ?]]; [done| |simpl in H1; lia].
      apply Forall_cons in Hok as [Hk _], Hp as [<- _]. cbn [sorted_root].
      rewrite single_entry_root_spec by (exact Hk || lia). cbn [fst].
      by replace (256 - (256 - S n)) with (S n) by lia.
Qed.

Lemma compute_sparse_subtree_root_spec d p (es : list entry) :
  d ≤ 256 → Forall (λ e, hash_ok e.1) es → Forall (λ e, path e.1 d = p) es →
  compute_sparse_subtree_root es d = subtree (leaf_of (binding es)) (256 - d) p.
Proof.
  intros Hd Hok Hp. destruct es as [|e es'] eqn:Ees.
  - cbn [compute_sparse_subtree_root]. rewrite subtree_empty. by apply nth_default_hashes.
  - rewrite <- Ees in *. assert (Hne : es ≠ []) by by rewrite Ees.
    replace (compute_sparse_subtree_root es d) with
      (sorted_root DEFAULT_HASHES (256 - d) (if is_sorted es then es else sort_by_key es))
      by (rewrite Ees; unfold compute_sparse_subtree_root; by destruct (is_sorted _)).
    clear e es' Ees.
    destruct (is_sorted es) eqn:Eso.
    + apply sorted_root_spec; [lia|done|by apply is_sorted_sound|done|].
      by replace (256 - (256 - d)) with d by lia.
    + rewrite <- sort_by_key_map. apply sorted_root_spec.
      * lia.
      * intros E. apply Hne. apply Permutation_nil. rewrite <- E. apply sort_by_key_perm.
      * apply sort_by_key_sorted.
      * by rewrite sort_by_key_perm.
      * replace (256 - (256 - d)) with d by lia. by rewrite sort_by_key_perm.
Qed.
End Sequential.

(** ** The bucketed routine *)

Section Bucketed.
Context {B3 : Blake3}.
Local Abbreviation entry := (bytes * bytes)%type.
Local Abbreviation binding es := (list_to_map es : gmap bytes bytes).
Local Abbreviation depth := PARALLEL_BUCKET_DEPTH.

Lemma binding_bucket i (es : list entry) kh :
  top_bits kh depth = i → binding (filter (in_bucket i) es) !! kh = binding es !! kh.
Proof.
  intros Hi. induction es as [|[k v] es IH]; [done|].
  rewrite filter_cons. unfold in_bucket at 1. cbn [fst].
  destruct (decide (k = kh)) as [->|Hne].
  - rewrite decide_True by done. cbn [list_to_map foldr uncurry].
    by rewrite !lookup_insert_eq.
  - transitivity (binding es !! kh); [|symmetry; by apply lookup_insert_ne].
    case_decide; [|done]. etransitivity; [by apply lookup_insert_ne|done].
Qed.

Lemma bucket_root i (es : list entry) :
  i < 2 ^ depth → Forall (λ e, hash_ok e.1) es →
  compute_sparse_subtree_root (filter (in_bucket i) es) depth
  = subtree (leaf_of (binding es)) (256 - depth) (nat_path depth i).
Proof.
  intros Hi Hok. pose proof bucket_depth_bounds as Hd. rewrite Forall_forall in Hok.
  rewrite (compute_sparse_subtree_root_spec _ (nat_path depth i)).
  - apply subtree_ext. intros q Hq. unfold leaf_of, leaf_at.
    rewrite binding_bucket; [done|]. set (k := bytes_of_path _).
    assert (Hk : hash_ok k) by apply bytes_of_path_ok.
    assert (Hl : length (nat_path depth i) = depth)
      by (unfold nat_path; by rewrite length_map, length_seq).
    apply (nat_path_inj depth); [by apply top_bits_bound|done|].
    rewrite top_bits_path by done. rewrite <- (take_path _ depth 256) by lia.
    unfold k. rewrite path_bytes_of_path by (rewrite length_app; lia).
    by rewrite take_app_length'.
  - lia.
  - apply Forall_forall. intros e He. apply Hok. by apply list_elem_of_filter in He as [_ ?].
  - apply Forall_forall. intros e He. apply list_elem_of_filter in He as [Hb He].
    rewrite <- Hb. symmetry. apply top_bits_path; [by apply Hok|done].
Qed.

(** One reduction round merges the roots of one depth into those above. *)
Lemma hash_pairs_seq (f g : nat → bytes) n s :
  (∀ i, g i = hash_node (f (2 * i)) (f (2 * i + 1))) →
  hash_pairs (map f (seq (2 * s) (2 * n))) = map g (seq s n).
Proof.
  intros Hg. revert s. induction n as [|n IH]; intros s; [done|].
  replace (2 * S n) with (S (S (2 * n))) by lia. cbn [seq map hash_pairs]. f_equal.
  - rewrite Hg. by rewrite Nat.add_1_r.
  - replace (S (S (2 * s))) with (2 * S s) by lia. apply IH.
Qed.

Lemma hash_pairs_round L d :
  d < 256 →
  hash_pairs (map (λ i, subtree L (256 - S d) (nat_path (S d) i)) (seq 0 (2 ^ S d)))
  = map (λ i, subtree L (256 - d) (nat_path d i)) (seq 0 (2 ^ d)).
Proof.
  intros Hd. rewrite Nat.pow_succ_r'. apply (hash_pairs_seq _ _ (2 ^ d) 0). intros i.
  rewrite nat_path_double, nat_path_double_1.
  replace (256 - d) with (S (256 - S d)) by lia. apply subtree_S.
Qed.

Lemma hash_pairs_iter L d :
  d ≤ 256 →
  Nat.iter d hash_pairs (map (λ i, subtree L (256 - d) (nat_path d i)) (seq 0 (2 ^ d)))
  = [subtree L 256 []].
Proof.
  induction d as [|d IH]; intros Hd.
  - by rewrite Nat.sub_0_r.
  - rewrite Nat.iter_succ_r, hash_pairs_round by lia. apply IH. lia.
Qed.

Lemma parallel_byte_spec (es : list entry) :
  compute_sparse_root_parallel_byte es
  = smt_root (binding (map (λ kv, (digest kv.1, kv.2)) es)).
Proof.
  unfold compute_sparse_root_parallel_byte. cbv zeta.
  rewrite fill_buckets_eq, map_map. pose proof bucket_depth_bounds.
  rewrite (map_ext_in _ (λ i, subtree (leaf_of (binding (map (λ kv, (digest kv.1, kv.2)) es)))
                                (256 - depth) (nat_path depth i))).
  - rewrite hash_pairs_iter by lia. exact eq_refl.
  - intros i Hi. apply in_seq in Hi. apply bucket_root; [lia|].
    apply Forall_fmap, Forall_true. intros kv. apply blake3_ok.
Qed.

Lemma compute_sparse_root_spec (es : list entry) :
  compute_sparse_root es = smt_root (binding (map (λ kv, (digest kv.1, kv.2)) es)).
Proof.
  destruct es as [|e es'] eqn:Ees.
  - cbn [compute_sparse_root map]. unfold smt_root. rewrite subtree_empty.
    rewrite nth_default_hashes by lia. by rewrite Nat.sub_0_r.
  - rewrite <- Ees.
    replace (compute_sparse_root es) with
      (if 2048 <=? length es then compute_sparse_root_parallel_byte es
       else compute_sparse_subtree_root (map (λ kv, (digest kv.1, kv.2)) es) 0)
      by by rewrite Ees.
    destruct (2048 <=? length es); [apply parallel_byte_spec|].
    rewrite (compute_sparse_subtree_root_spec 0 []).
    + rewrite Nat.sub_0_r. exact eq_refl.
    + lia.
    + apply Forall_fmap, Forall_true. intros kv. apply blake3_ok.
    + by apply Forall_true.
Qed.
End Bucketed.
