(* ===== verification/SmtProof.v ===== *)
(** * Proof verification: [verify_proof] of [crates/smt/src/sparse_merkle.rs]

    The verifier walks the siblings bottom-up.  It reads neither the
    membership flag nor the number of siblings, so soundness is stated for the
    256-sibling proofs that [proof] produces; [SmtTheorems] has the others. *)

From stdpp Require Import base list gmap strings.
From Stdlib Require Import ZArith Lia.
From S2P Require Import Prelude Order Hashing Store SmtPath SmtSpec SmtTree SmtParallel SmtOps SmtCorrect SmtBatch.

Section Verify.
Context {B3 : Blake3}.

(** The loop from sibling [i] on.  [None]: for [i = 256] the depth is 0, and
    [key_bit_position] underflows (or, unchecked, indexes out of bounds). *)
Fixpoint verify_loop (kh cur : bytes) (i : nat) (siblings : list bytes) : option bytes :=
  match siblings with
  | [] => Some cur
  | sibling :: siblings =>
      if 256 <=? i then None else
      let depth := 256 - i in
      let '(l, r) :=
        if bit_is_left kh depth then (cur, sibling) else (sibling, cur) in
      verify_loop kh (hash_node l r) (S i) siblings
  end.

Definition verify_proof (root key : bytes) (proof : bool * bytes * list bytes) : option bool :=
  let '(_, leaf, siblings) := proof in
  cur ← verify_loop (digest key) leaf 0 siblings; Some (bool_decide (cur = root)).

(** The sibling subtrees on the path of [kh], from depth [n] up to depth 1. *)
Definition path_siblings (L : list bool → bytes) (kh : bytes) (n : nat) : list bytes :=
  map (λ d, subtree L (256 - d) (path kh (d - 1) ++ [negb (key_bit kh (d - 1))]))
    (rev (seq 1 n)).

Lemma path_siblings_S L kh n :
  path_siblings L kh (S n)
  = subtree L (256 - S n) (path kh n ++ [negb (key_bit kh n)]) :: path_siblings L kh n.
Proof.
  unfold path_siblings. rewrite rev_seq_S. change (1 + n) with (S n). cbn [map].
  by replace (S n - 1) with n by lia.
Qed.

Lemma length_path_siblings L kh n : length (path_siblings L kh n) = n.
Proof. unfold path_siblings. by rewrite length_map, length_rev, length_seq. Qed.

(** One iteration of the verifier on the node at depth [S n]. *)
Lemma verify_loop_S kh cur n sibling siblings :
  n < 256 →
  verify_loop kh cur (256 - S n) (sibling :: siblings)
  = verify_loop kh (if key_bit kh n then hash_node sibling cur else hash_node cur sibling)
      (256 - n) siblings.
Proof.
  intros Hn. cbn [verify_loop]. rewrite (proj2 (Nat.leb_gt _ _)) by lia. cbv zeta.
  replace (256 - (256 - S n)) with (S n) by lia. rewrite bit_is_left_bit.
  replace (S (256 - S n)) with (256 - n) by lia. by destruct (key_bit kh n).
Qed.

Lemma verify_loop_complete L kh n :
  n ≤ 256 →
  verify_loop kh (subtree L (256 - n) (path kh n)) (256 - n) (path_siblings L kh n)
  = Some (subtree L 256 []).
Proof.
  induction n as [|n IH]; intros Hn.
  - rewrite Nat.sub_0_r. exact eq_refl.
  - rewrite path_siblings_S, verify_loop_S, <- IH by lia. f_equal.
    symmetry. by apply subtree_step.
Qed.

(** ** What the verifier hashes *)

(** The inputs of [hash_node] in [verify_loop], bottom-up. *)
Fixpoint loop_images (kh cur : bytes) (i : nat) (siblings : list bytes) : list bytes :=
  match siblings with
  | [] => []
  | sibling :: siblings =>
      let '(l, r) := if bit_is_left kh (256 - i) then (cur, sibling) else (sibling, cur) in
      node_image l r :: loop_images kh (hash_node l r) (S i) siblings
  end.

Lemma loop_images_S kh cur n sibling siblings :
  n < 256 →
  loop_images kh cur (256 - S n) (sibling :: siblings)
  = (if key_bit kh n then node_image sibling cur else node_image cur sibling)
    :: loop_images kh (if key_bit kh n then hash_node sibling cur else hash_node cur sibling)
         (256 - n) siblings.
Proof.
  intros Hn. cbn [loop_images]. replace (256 - (256 - S n)) with (S n) by lia.
  rewrite bit_is_left_bit. replace (S (256 - S n)) with (256 - n) by lia. by destruct (key_bit kh n).
Qed.

Lemma verify_loop_sound L kh n cur siblings :
  (∀ q, hash_ok (L q)) → n ≤ 256 → length cur = 32 → length siblings = n →
  Forall (λ s, length s = 32) siblings →
  verify_loop kh cur (256 - n) siblings = Some (subtree L 256 []) →
  let honest := subtree L (256 - n) (path kh n) in
  cur = honest ∨ collides (loop_images kh cur (256 - n) siblings)
                          (loop_images kh honest (256 - n) (path_siblings L kh n)).
Proof.
  intros HL. revert cur siblings. induction n as [|n IH]; intros cur sibs Hn Hc Hs Hok Hv honest.
  - destruct sibs; [|done]. left. unfold honest. rewrite Nat.sub_0_r. injection Hv as Hv. exact Hv.
  - destruct sibs as [|sib sibs]; [done|]. apply Forall_cons in Hok as [Hsib Hok].
    rewrite verify_loop_S in Hv by lia. injection Hs as Hs.
    apply IH in Hv; [|lia|destruct (key_bit kh n); apply hash_node_ok|done|done].
    rewrite path_siblings_S, !loop_images_S by lia. rewrite (subtree_step kh n) in Hv by lia.
    cbv zeta in Hv. fold honest in Hv |- *.
    assert (Hl : ∀ m p, length (subtree L m p) = 32) by (intros; by apply subtree_ok).
    destruct Hv as [Hv|Hv]; [|right; apply collides_cons; by destruct (key_bit kh n)].
    destruct (key_bit kh n); apply hash_node_inj in Hv as [[E1 E2]|[Hn1 He]];
      rewrite ?Hl; auto using collides_here; unfold honest; by rewrite Hl.
Qed.

(** ** Reading a leaf *)

(** The input whose hash is the leaf of a key bound to a value, or unbound. *)
Definition leaf_input (kh : bytes) (binding : option bytes) : bytes :=
  match binding with
  | Some value => leaf_image kh value
  | None => leaf_image (replicate 32 0%Z) (replicate 32 0%Z)
  end.

Lemma leaf_at_input D kh : leaf_at D kh = blake3 (leaf_input kh (D !! kh)).
Proof. unfold leaf_at. by destruct (D !! kh). Qed.

(** All inputs hashed to check a claim about a key: its leaf and the nodes
    from there to the root. *)
Definition claim_images (kh : bytes) (claim : option bytes) (siblings : list bytes) : list bytes :=
  leaf_input kh claim :: loop_images kh (blake3 (leaf_input kh claim)) 0 siblings.

(** The all-zero key hash bound to 32 zero bytes has the leaf of an unbound key. *)
Definition zero_leaf (kh : bytes) (a b : option bytes) : Prop :=
  let zeros := replicate 32 0%Z in
  kh = zeros ∧ (a = None ∧ b = Some zeros ∨ a = Some zeros ∧ b = None).

Lemma leaf_input_inj kh a b :
  length kh = 32 → leaf_input kh a = leaf_input kh b → a = b ∨ zero_leaf kh a b.
Proof.
  intros Hl E. destruct a as [v|], b as [w|]; [|..|by left];
    apply leaf_image_inj in E as [E1 E2]; unfold zero_leaf; subst; auto.
Qed.
End Verify.

Section Proofs.
Context {B3 : Blake3} `{Laws : KVStoreLaws DB}.
Local Abbreviation tree := (SparseMerkleTree DB).

Lemma proof_siblings_spec (D : gmap bytes bytes) cache kh :
  hash_ok kh → no_siblings ({[kh]} ∪ dom D) →
  consistent (node_hash_from_cache DEFAULT_HASHES cache) (leaf_of D) →
  proof_siblings DEFAULT_HASHES cache kh = path_siblings (leaf_of D) kh 256.
Proof.
  intros Hk Hns [Hc Hl]. apply map_ext_in. intros d Hd.
  apply in_rev, in_seq in Hd. assert (exists i, d = S i) as [i ->] by (exists (d - 1); lia).
  replace (S i - 1) with i by lia. rewrite <- path_sibling by (done || lia).
  destruct (decide (S i ≤ 255)) as [Hi|Hi].
  - rewrite Hc, decide_True; [done|lia|apply hash_ok_sibling; [done|lia]|lia].
  - replace i with 255 by lia. rewrite Hl by (apply hash_ok_sibling; [done|lia]).
    rewrite Nat.sub_diag, subtree_0, leaf_of_path by (apply hash_ok_sibling; [done|lia]).
    symmetry. by apply sibling_leaf_default.
Qed.

Lemma proof_correct (t : tree) key :
  good t → no_siblings ({[digest key]} ∪ dom (smt_bindings t)) →
  let D := smt_bindings t in
  ∃ t', proof key t = (t', Ok (bool_decide (is_Some (D !! digest key)),
                               leaf_at D (digest key), path_siblings (leaf_of D) (digest key) 256))
        ∧ good t' ∧ smt_bindings t' = D.
Proof.
  intros Hg Hns D. pose proof (get_correct t key Hg) as Hget.
  destruct (ensure_node_index_spec t Hg) as (t1 & E & Hg1 & Hr1 & Hb1).
  { eapply no_siblings_mono; [|exact Hns]. apply union_subseteq_r. }
  exists t1. split; [|done]. unfold proof. rewrite (st_bind_ok _ _ _ _ _ Hget).
  erewrite st_bind_ok; [|by unfold st_gets]. rewrite (st_bind_ok _ _ _ _ _ E).
  erewrite st_bind_ok; [|by unfold st_gets]. unfold mret, st_ret.
  destruct Hg1 as [Hi1 _]. rewrite (inv_default t (proj1 Hg)).
  rewrite (proof_siblings_spec D); [|apply digest_ok|exact Hns|].
  2: { unfold D. rewrite <- Hb1. by apply (inv_cache t1 Hi1). }
  unfold change_leaf. rewrite default_leaf. unfold leaf_at, D. generalize (path_siblings (leaf_of (smt_bindings t)) (digest key) 256).
  intros sibs. by destruct (smt_bindings t !! digest key).
Qed.

Lemma verify_proof_complete (D : gmap bytes bytes) key b :
  verify_proof (smt_root D) key
    (b, leaf_at D (digest key), path_siblings (leaf_of D) (digest key) 256) = Some true.
Proof.
  unfold verify_proof.
  pose proof (verify_loop_complete (leaf_of D) (digest key) 256 ltac:(lia)) as Hv.
  rewrite Nat.sub_diag, subtree_0, leaf_of_path in Hv by apply digest_ok.
  rewrite Hv. cbn [mbind option_bind]. by rewrite bool_decide_true.
Qed.

Lemma verify_proof_sound (D : gmap bytes bytes) key b leaf siblings :
  length leaf = 32 → length siblings = 256 → Forall (λ s, length s = 32) siblings →
  verify_proof (smt_root D) key (b, leaf, siblings) = Some true →
  leaf = leaf_at D (digest key)
  ∨ collides (loop_images (digest key) leaf 0 siblings)
      (loop_images (digest key) (leaf_at D (digest key)) 0
         (path_siblings (leaf_of D) (digest key) 256)).
Proof.
  intros Hleaf Hlen Hok. unfold verify_proof.
  destruct (verify_loop _ _ _ _) as [cur|] eqn:Ev; [|done]. cbn [mbind option_bind].
  intros [= Hc]. apply bool_decide_eq_true in Hc. subst cur.
  change 0 with (256 - 256) in Ev.
  apply verify_loop_sound in Ev; [|apply leaf_of_ok|lia|done|done|done].
  rewrite Nat.sub_diag, subtree_0, leaf_of_path in Ev by apply digest_ok. exact Ev.
Qed.

Lemma claim_sound (D : gmap bytes bytes) key b claim siblings :
  length siblings = 256 → Forall (λ s, length s = 32) siblings →
  verify_proof (smt_root D) key (b, blake3 (leaf_input (digest key) claim), siblings) = Some true →
  D !! digest key = claim
  ∨ collides (claim_images (digest key) claim siblings)
      (claim_images (digest key) (D !! digest key) (path_siblings (leaf_of D) (digest key) 256))
  ∨ zero_leaf (digest key) (D !! digest key) claim.
Proof.
  intros Hlen Hok Hv. set (kh := digest key) in *. unfold claim_images.
  apply verify_proof_sound in Hv; [|apply blake3_ok|done..]. fold kh in Hv.
  rewrite leaf_at_input in Hv. destruct Hv as [Hv|Hv]; [|by right; left; apply collides_cons].
  destruct (decide (leaf_input kh claim = leaf_input kh (D !! kh))) as [E|E].
  - symmetry in E. apply leaf_input_inj in E as [E|E]; [by left|by right; right|apply digest_ok].
  - right. left. by apply collides_here.
Qed.
End Proofs.
