(* ===== verification/SmtTheorems.v ===== *)
(** * Theorems about the sparse Merkle tree

    The promises of [SparseMerkleTree] (crates/smt) to its client, the state
    manager, stated over the operations of [SmtOps] and the abstract bindings
    [smt_bindings].  Each has a run on a concrete tree (an in-memory store and
    the toy hash) that shows its hypotheses hold somewhere. *)

From stdpp Require Import base list gmap strings.
From Stdlib Require Import ZArith Lia.
From S2P Require Import Prelude Order Hashing Store SmtPath SmtSpec SmtTree SmtParallel SmtOps SmtCorrect SmtBatch SmtProof.

(** ** Deciding [no_siblings] on an explicit list *)

Definition no_siblings_list (l : list bytes) : bool :=
  forallb (λ k1, forallb (λ k2, bool_decide (k1 = k2) || negb (bool_decide (path k1 255 = path k2 255))) l) l.

Lemma no_siblings_list_sound (l : list bytes) (K : gset bytes) :
  no_siblings_list l = true → K ⊆ list_to_set l → no_siblings K.
Proof.
  unfold no_siblings_list. rewrite forallb_forall. intros Hl HK k1 k2 H1 H2 E.
  apply HK, elem_of_list_to_set, list_elem_of_In in H1, H2.
  specialize (Hl k1 H1). rewrite forallb_forall in Hl. specialize (Hl k2 H2).
  apply orb_true_iff in Hl as [Hl|Hl]; [by apply bool_decide_eq_true in Hl|].
  by rewrite bool_decide_true in Hl by exact E.
Qed.

Section Theorems.
Context {B3 : Blake3} `{Laws : KVStoreLaws DB}.
Local Abbreviation tree := (SparseMerkleTree DB).

(** C6: [insert] binds every given key to its value (of equal keys the first
    pair counts), leaves the other bindings alone, keeps the tree's invariant,
    and afterwards [root_hash] is the root of the reference tree. *)
Theorem insert_refines (t : tree) (kvs : list (bytes * bytes)) :
  good t → no_siblings (digest_set (map fst kvs) ∪ dom (smt_bindings t)) →
  ∃ t', insert kvs t = (t', Ok tt) ∧ good t'
    ∧ smt_bindings t' = list_to_map (digest_entries kvs) ∪ smt_bindings t
    ∧ root_hash t' = (t', Ok (smt_root (smt_bindings t'))).
Proof.
  intros Hg Hns. destruct (insert_correct t kvs Hg Hns) as (t' & E & Hg' & Hb).
  exists t'. by rewrite root_hash_correct.
Qed.

(** C7: [delete] unbinds exactly the given keys, keeps the invariant, and
    afterwards [root_hash] is the root of the reference tree. *)
Theorem delete_refines (t : tree) (keys : list bytes) :
  good t → no_siblings (digest_set keys ∪ dom (smt_bindings t)) →
  ∃ t', delete keys t = (t', Ok tt) ∧ good t'
    ∧ smt_bindings t' = filter (λ e, e.1 ∉ digest_set keys) (smt_bindings t)
    ∧ root_hash t' = (t', Ok (smt_root (smt_bindings t'))).
Proof.
  intros Hg Hns. destruct (delete_correct t keys Hg Hns) as (t' & E & Hg' & Hb).
  exists t'. by rewrite root_hash_correct.
Qed.

(** deleting freshly inserted keys restores the root: [insert] of keys
    that were unbound followed by [delete] of the same keys gives back the
    bindings and the root hash the tree had before. *)
Theorem insert_delete_roundtrip (t : tree) (kvs : list (bytes * bytes)) :
  good t → no_siblings (digest_set (map fst kvs) ∪ dom (smt_bindings t)) →
  Forall (λ kv, smt_bindings t !! digest kv.1 = None) kvs →
  ∃ t1 t2, insert kvs t = (t1, Ok tt) ∧ delete (map fst kvs) t1 = (t2, Ok tt)
    ∧ smt_bindings t2 = smt_bindings t ∧ (root_hash t2).2 = (root_hash t).2.
Proof.
  intros Hg Hns Hnew. destruct (insert_correct t kvs Hg Hns) as (t1 & E1 & Hg1 & Hb1).
  assert (Hkey : ∀ k, k ∈ digest_set (map fst kvs) ↔ k ∈ map fst (digest_entries kvs)).
  { intros k. unfold digest_set, digest_entries. by rewrite elem_of_list_to_set, !map_map. }
  destruct (delete_correct t1 (map fst kvs) Hg1) as (t2 & E2 & Hg2 & Hb2).
  { eapply no_siblings_mono; [|exact Hns]. rewrite Hb1, dom_union_L, dom_list_to_map_L.
    change (digest_entries kvs).*1 with (map fst (digest_entries kvs)).
    apply union_least; [apply union_subseteq_l|]. apply union_mono_r.
    intros k Hk. apply elem_of_list_to_set in Hk. by apply Hkey. }
  assert (Hb : smt_bindings t2 = smt_bindings t).
  { rewrite Hb2, Hb1. apply map_eq. intros k. apply option_eq. intros v.
    rewrite map_lookup_filter_Some, Hkey. simpl.
    rewrite lookup_union_Some_raw. split.
    - intros [[Hl|[_ Hl]] Hni]; [|done].
      apply elem_of_list_to_map_2 in Hl. exfalso. apply Hni.
      apply list_elem_of_fmap. by exists (k, v).
    - intros Hl. assert (Hni : k ∉ map fst (digest_entries kvs)).
      { intros Hk. unfold digest_entries in Hk. rewrite map_map in Hk.
        apply list_elem_of_fmap in Hk as (kv & -> & Hin). rewrite Forall_forall in Hnew.
        specialize (Hnew kv Hin). simpl in Hl. congruence. }
      split; [|done]. right. split; [by apply not_elem_of_list_to_map_1|done]. }
  exists t1, t2. by rewrite !root_hash_correct, Hb.
Qed.

(** a root computed ahead of a commit is the root of the commit.
    [root_hash_with_changes_and_overlay] leaves the bindings alone, and
    [apply_changes_with_precomputed_overlay] with the root and the overlay it
    returned commits the deletes and updates, after which [root_hash] is the
    announced root. *)
Theorem precomputed_commit (t : tree) (updates : list (bytes * bytes)) (deletes : list bytes) :
  good t → no_siblings (touched updates deletes ∪ dom (smt_bindings t)) →
  ∃ t1 t2 root overlay,
    root_hash_with_changes_and_overlay updates deletes t = (t1, Ok (root, overlay))
    ∧ smt_bindings t1 = smt_bindings t
    ∧ apply_changes_with_precomputed_overlay updates deletes root overlay t1 = (t2, Ok tt)
    ∧ good t2 ∧ smt_bindings t2 = changed updates deletes (smt_bindings t)
    ∧ root_hash t2 = (t2, Ok root).
Proof.
  intros Hg Hns.
  destruct (root_hash_with_changes_and_overlay_correct t updates deletes Hg Hns)
    as (t1 & entries & E1 & Hg1 & Hb1 & Hdesc & Hr).
  destruct (apply_precomputed_correct t1 updates deletes entries Hg1) as (t2 & E2 & Hg2 & Hb2).
  { rewrite Hb1. eapply no_siblings_mono; [|exact Hns]. apply union_subseteq_r. }
  { by rewrite Hb1. }
  { done. }
  rewrite Hb1 in E2, Hb2. eexists t1, t2, _, entries. split; [exact E1|].
  rewrite (root_hash_correct t2 Hg2), Hb2. done.
Qed.

(** [apply_changes_with_root] commits the changes exactly when the
    announced root is the root of the changed bindings; with any other root
    it returns the mismatch error and no binding changes. *)
Theorem apply_changes_with_root_checked (t : tree) (updates : list (bytes * bytes))
    (deletes : list bytes) (root : bytes) :
  good t → no_siblings (touched updates deletes ∪ dom (smt_bindings t)) →
  let D' := changed updates deletes (smt_bindings t) in
  ∃ t' r, apply_changes_with_root updates deletes root t = (t', r) ∧ good t'
    ∧ (r = Ok tt ∧ root = smt_root D' ∧ smt_bindings t' = D'
       ∨ r = Err "verified SMT root mismatch while applying incremental node changes"
         ∧ root ≠ smt_root D' ∧ smt_bindings t' = smt_bindings t).
Proof.
  intros Hg Hns D'. destruct (apply_changes_with_root_correct t updates deletes root Hg Hns)
    as (t' & Hg' & Hcase). fold D' in Hcase.
  case_decide; destruct Hcase as [E Hb]; eexists t', _; rewrite E; eauto 10.
Qed.

(** the bucketed staging of a large change set computes the same root,
    and an overlay with the same view of every node, as staging the changes
    one by one. *)
Theorem parallel_staging_equivalent (cache : cache_t) (D : gmap bytes bytes)
    (cs : list change) :
  Forall (λ c, hash_ok c.1) cs → NoDup (map fst cs) →
  no_siblings (change_keys cs ∪ dom D) →
  consistent (node_hash_from_cache DEFAULT_HASHES cache) (leaf_of D) →
  let '(root, overlay) := root_hash_with_sorted_changes_parallel DEFAULT_HASHES cache cs in
  let overlay' := stage_changes DEFAULT_HASHES cache cs ∅ in
  root = node_hash_from_overlay DEFAULT_HASHES cache overlay' (replicate 32 0%Z) 0
  ∧ ∀ prefix depth, hash_ok prefix → depth ≤ 256 →
      node_hash_from_overlay DEFAULT_HASHES cache overlay prefix depth
      = node_hash_from_overlay DEFAULT_HASHES cache overlay' prefix depth.
Proof.
  intros Hok Hnd Hns Hc. pose proof (parallel_changes_consistent cache D cs Hok Hnd Hns Hc) as Hp.
  destruct (root_hash_with_sorted_changes_parallel _ _ _) as [root ov].
  destruct Hp as [-> Hp]. cbv zeta.
  assert (Hs : consistent (node_hash_from_overlay DEFAULT_HASHES cache
      (stage_changes DEFAULT_HASHES cache cs ∅)) (leaf_of (apply_changes cs D))).
  { apply stage_changes_consistent; [done|done|].
    eapply consistent_ext; [|exact Hc]. intros q d. by rewrite view_empty_overlay. }
  split; [by rewrite (consistent_root _ _ Hs)|]. intros p d Hpre Hd.
  destruct Hs as [Hs1 Hs2], Hp as [Hp1 Hp2]. destruct (decide (d ≤ 255)).
  - rewrite Hs1 by done. by rewrite <- Hp1.
  - replace d with 256 by lia. rewrite Hs2 by done. by apply Hp2.
Qed.

(** [rebuild] of an entry list on any database, whatever its node records
    and cache say, gives the root that the stateless [compute_sparse_root]
    computes from the same list, sequentially or bucketed. *)
Theorem rebuild_root (t : tree) (entries : list (bytes * bytes)) :
  repairable t → no_siblings (digest_set (map fst entries)) →
  ∃ t', rebuild entries t = (t', Ok tt) ∧ good t'
    ∧ root_hash t' = (t', Ok (compute_sparse_root entries)).
Proof.
  intros Hr Hns. destruct (rebuild_correct t entries Hr Hns) as (t' & E & Hg & Hb).
  exists t'. rewrite (root_hash_correct t' Hg), Hb, compute_sparse_root_spec. done.
Qed.

(** what [proof] returns for a key, bound or not, is accepted by
    [verify_proof] against the current root, and its flag says whether the
    key is bound. *)
Theorem proof_complete (t : tree) (key : bytes) :
  good t → no_siblings ({[digest key]} ∪ dom (smt_bindings t)) →
  ∃ t' root p, root_hash t = (t, Ok root) ∧ proof key t = (t', Ok p) ∧ good t'
    ∧ smt_bindings t' = smt_bindings t
    ∧ p.1.1 = bool_decide (is_Some (smt_bindings t !! digest key))
    ∧ length p.2 = 256 ∧ verify_proof root key p = Some true.
Proof.
  intros Hg Hns. destruct (proof_correct t key Hg Hns) as (t' & E & Hg' & Hb).
  eexists t', _, _. split; [by apply root_hash_correct|]. split; [exact E|].
  split; [done|]. split; [done|]. split; [done|].
  split; [apply length_path_siblings|]. apply verify_proof_complete.
Qed.

(** C8: a 256-sibling proof that [verify_proof] accepts against the root of
    bindings [D] tells the truth about the key.  Read as a claim (its leaf is
    the hash of a value, or the default leaf of an unbound key), either [D]
    says the same, or one of the at most 257 inputs that checking the claim
    hashes ([claim_images]: the claimed leaf and the nodes up to the root) has
    the hash of a different input: the one at the same height on the key's path
    in the tree of [D].  The one leaf with both readings is the all-zero key
    hash bound to 32 zero bytes ([zero_leaf]). *)
Theorem proof_sound (D : gmap bytes bytes) (key : bytes) (flag : bool) (leaf : bytes)
    (siblings : list bytes) :
  length siblings = 256 → Forall (λ s, length s = 32) siblings →
  verify_proof (smt_root D) key (flag, leaf, siblings) = Some true →
  let kh := digest key in
  let honest := claim_images kh (D !! kh) (path_siblings (leaf_of D) kh 256) in
  (∀ value, leaf = hash_leaf kh value →
     D !! kh = Some value ∨ collides (claim_images kh (Some value) siblings) honest
     ∨ zero_leaf kh (D !! kh) (Some value))
  ∧ (leaf = nth 256 DEFAULT_HASHES [] →
     D !! kh = None ∨ collides (claim_images kh None siblings) honest
     ∨ zero_leaf kh (D !! kh) None).
Proof.
  intros Hs Hok Hv kh honest. rewrite default_leaf.
  split; [intros value ->|intros ->]; by eapply claim_sound.
Qed.

(** a tree reopened on its database ([new], cold cache) has the same
    bindings, the same root, and answers [get] as before. *)
Theorem reopen (t : tree) (key : bytes) :
  good t →
  let t' := new (db t) in
  good t' ∧ smt_bindings t' = smt_bindings t
  ∧ (root_hash t').2 = (root_hash t).2 ∧ (get key t').2 = (get key t).2
  ∧ (get key t).2 = Ok (smt_bindings t !! digest key).
Proof.
  intros Hg t'. destruct (new_good t Hg) as [Hg' Hb]. fold t' in Hg', Hb.
  by rewrite !root_hash_correct, !get_correct, Hb.
Qed.
End Theorems.

(** ** Runs *)

Module Runs.
Import ToyHash MemStore.

Definition kvs : list (bytes * bytes) := [([1], [10; 11]); ([2; 3], [20]); ([4], [])]%Z.
Definition keys : list bytes := map digest [[1]; [2; 3]; [4]; [9]]%Z.
Definition empty_tree : SparseMerkleTree MemStore.t := new ∅.

Lemma empty_good : good empty_tree ∧ smt_bindings empty_tree = ∅.
Proof.
  split; [|by vm_compute]. split; [|apply mem_healthy].
  split; [done| |by vm_compute|done].
  intros k [v H]. change ((∅ : gmap bytes bytes) !! k = Some v) in H.
  by rewrite lookup_empty in H.
Qed.

Lemma keys_apart (K : gset bytes) : bool_decide (K ⊆ list_to_set keys) = true → no_siblings K.
Proof.
  intros H%bool_decide_eq_true. revert H. apply no_siblings_list_sound. by vm_compute.
Qed.

(** A tree with the bindings of [kvs]. *)
Definition full_tree : SparseMerkleTree MemStore.t := (insert kvs empty_tree).1.

Lemma full_good : good full_tree ∧ smt_bindings full_tree = list_to_map (digest_entries kvs).
Proof.
  destruct empty_good as [Hg Hb].
  destruct (insert_correct empty_tree kvs Hg) as (t' & E & Hg' & Hb').
  { rewrite Hb. apply keys_apart. by vm_compute. }
  unfold full_tree. rewrite E. cbn [fst]. split; [exact Hg'|]. rewrite Hb', Hb.
  apply (right_id_L ∅ (∪)).
Qed.
End Runs.

Import Runs.
Import ToyHash MemStore.

Lemma insert_refines_witness :
  ∃ t', insert kvs empty_tree = (t', Ok tt) ∧ good t'
    ∧ smt_bindings t' = list_to_map (digest_entries kvs) ∪ smt_bindings empty_tree
    ∧ root_hash t' = (t', Ok (smt_root (smt_bindings t'))).
Proof.
  apply insert_refines; [apply empty_good|]. rewrite (proj2 empty_good).
  apply keys_apart. by vm_compute.
Defined.

Lemma delete_refines_witness :
  ∃ t', delete [[1]; [9]]%Z full_tree = (t', Ok tt) ∧ good t'
    ∧ smt_bindings t' = filter (λ e, e.1 ∉ digest_set [[1]; [9]]%Z) (smt_bindings full_tree)
    ∧ root_hash t' = (t', Ok (smt_root (smt_bindings t'))).
Proof.
  apply delete_refines; [apply full_good|]. rewrite (proj2 full_good).
  apply keys_apart. by vm_compute.
Defined.

Lemma insert_delete_roundtrip_witness :
  ∃ t1 t2, insert [([9], [90])]%Z full_tree = (t1, Ok tt) ∧ delete [[9]]%Z t1 = (t2, Ok tt)
    ∧ smt_bindings t2 = smt_bindings full_tree ∧ (root_hash t2).2 = (root_hash full_tree).2.
Proof.
  apply (insert_delete_roundtrip full_tree [([9], [90])]%Z); [apply full_good| |];
    rewrite (proj2 full_good).
  - apply keys_apart. by vm_compute.
  - repeat constructor.
Defined.

Lemma precomputed_commit_witness :
  ∃ t1 t2 root overlay,
    root_hash_with_changes_and_overlay [([1], [77])]%Z [[4]]%Z full_tree
    = (t1, Ok (root, overlay))
    ∧ smt_bindings t1 = smt_bindings full_tree
    ∧ apply_changes_with_precomputed_overlay [([1], [77])]%Z [[4]]%Z root overlay t1 = (t2, Ok tt)
    ∧ good t2 ∧ smt_bindings t2 = changed [([1], [77])]%Z [[4]]%Z (smt_bindings full_tree)
    ∧ root_hash t2 = (t2, Ok root).
Proof.
  apply precomputed_commit; [apply full_good|]. rewrite (proj2 full_good).
  apply keys_apart. by vm_compute.
Defined.

Lemma apply_changes_with_root_checked_witness :
  ∃ t' r, apply_changes_with_root [([1], [77])]%Z [] (replicate 32 5%Z) full_tree = (t', r)
    ∧ good t'
    ∧ (r = Ok tt ∧ replicate 32 5%Z = smt_root (changed [([1], [77])]%Z [] (smt_bindings full_tree))
       ∧ smt_bindings t' = changed [([1], [77])]%Z [] (smt_bindings full_tree)
       ∨ r = Err "verified SMT root mismatch while applying incremental node changes"
         ∧ replicate 32 5%Z ≠ smt_root (changed [([1], [77])]%Z [] (smt_bindings full_tree))
         ∧ smt_bindings t' = smt_bindings full_tree).
Proof.
  apply apply_changes_with_root_checked; [apply full_good|]. rewrite (proj2 full_good).
  apply keys_apart. by vm_compute.
Defined.

Definition run_changes : list change :=
  map (λ kv, (digest kv.1, Some kv.2)) kvs ++ [(digest [9]%Z, None)].

Lemma parallel_staging_equivalent_witness :
  let '(root, overlay) := root_hash_with_sorted_changes_parallel DEFAULT_HASHES ∅ run_changes in
  let overlay' := stage_changes DEFAULT_HASHES ∅ run_changes ∅ in
  root = node_hash_from_overlay DEFAULT_HASHES ∅ overlay' (replicate 32 0%Z) 0
  ∧ ∀ prefix depth, hash_ok prefix → depth ≤ 256 →
      node_hash_from_overlay DEFAULT_HASHES ∅ overlay prefix depth
      = node_hash_from_overlay DEFAULT_HASHES ∅ overlay' prefix depth.
Proof.
  apply (parallel_staging_equivalent ∅ ∅ run_changes).
  - apply Forall_app. split; [apply Forall_fmap, Forall_true|apply Forall_singleton];
      intros; apply digest_ok.
  - apply (bool_decide_unpack (NoDup (map fst run_changes))). by vm_compute.
  - apply keys_apart. by vm_compute.
  - apply consistent_empty_cache.
Defined.

Lemma rebuild_root_witness :
  ∃ t', rebuild kvs full_tree = (t', Ok tt) ∧ good t'
    ∧ root_hash t' = (t', Ok (compute_sparse_root kvs)).
Proof.
  apply rebuild_root.
  - destruct full_good as [[Hi Hh] _]. split; [apply Hi|]. split; [done|apply Hi].
  - apply keys_apart. by vm_compute.
Defined.

Lemma proof_complete_witness :
  ∃ t' root p, root_hash full_tree = (full_tree, Ok root) ∧ proof [9]%Z full_tree = (t', Ok p)
    ∧ good t' ∧ smt_bindings t' = smt_bindings full_tree
    ∧ p.1.1 = bool_decide (is_Some (smt_bindings full_tree !! digest [9]%Z))
    ∧ length p.2 = 256 ∧ verify_proof root [9]%Z p = Some true.
Proof.
  apply proof_complete; [apply full_good|]. rewrite (proj2 full_good).
  apply keys_apart. by vm_compute.
Defined.

(** The tree's own proof for the key [2; 3]: here the collision is refuted,
    so that the key's value follows. *)
Lemma proof_sound_witness :
  let D : gmap bytes bytes := list_to_map (digest_entries kvs) in
  D !! digest [2; 3]%Z = Some [20]%Z.
Proof.
  intros D. assert (HD : D !! digest [2; 3]%Z = Some [20]%Z) by by vm_compute.
  destruct (proof_sound D [2; 3]%Z true (leaf_at D (digest [2; 3]%Z))
           (path_siblings (leaf_of D) (digest [2; 3]%Z) 256)) as [Hval _].
  - apply length_path_siblings.
  - apply Forall_fmap, Forall_true. intros d. apply subtree_ok. intros q. apply leaf_of_ok.
  - apply verify_proof_complete.
  - destruct (Hval [20]%Z) as [E|[E|[E _]]].
    + unfold leaf_at. by rewrite HD.
    + exact E.
    + rewrite HD in E. by apply collides_irrefl in E.
    + exfalso. revert E. by vm_compute.
Defined.

Lemma reopen_witness :
  let t' := new (db full_tree) in
  good t' ∧ smt_bindings t' = smt_bindings full_tree
  ∧ (root_hash t').2 = (root_hash full_tree).2 ∧ (get [4]%Z t').2 = (get [4]%Z full_tree).2
  ∧ (get [4]%Z full_tree).2 = Ok (smt_bindings full_tree !! digest [4]%Z).
Proof. apply (reopen full_tree [4]%Z). apply full_good. Defined.

(** ** Where the sparse Merkle tree departs from its contract

    Corner cases of [crates/smt/src/sparse_merkle.rs], each proved on the same
    definitions as the correctness theorems: keys whose hashes are brothers at
    the leaf level, duplicate keys in one batch, and proofs whose sibling list
    does not have 256 entries. *)

(** ** Brother leaves *)

(** A hash that sends [[0]] and [[1]] to brother key hashes. *)
Module BrotherHash.
Definition hash (data : bytes) : bytes :=
  match data with
  | [b] => if (b =? 0)%Z then replicate 32 0%Z
           else if (b =? 1)%Z then replicate 31 0%Z ++ [1%Z]
           else ToyHash.hash data
  | _ => ToyHash.hash data
  end.

Lemma zeros_ok n : bytes_ok (replicate n 0%Z).
Proof. apply Forall_replicate. unfold byte_ok. lia. Qed.

Lemma hash_is_ok data : hash_ok (hash data).
Proof.
  assert (H0 : hash_ok (replicate 32 0%Z)) by (split; [done|apply zeros_ok]).
  assert (H1 : hash_ok (replicate 31 0%Z ++ [1%Z])).
  { split; [done|]. apply Forall_app. split; [apply zeros_ok|].
    apply Forall_singleton. unfold byte_ok. lia. }
  assert (Ht : ∀ d, hash_ok (ToyHash.hash d)) by (intros; apply ToyHash.spread_ok).
  unfold hash. destruct data as [|b [|? ?]]; [done| |done].
  destruct (b =? 0)%Z; [done|]. by destruct (b =? 1)%Z.
Qed.

Definition instance : Blake3 := {| blake3 := hash; blake3_ok := hash_is_ok |}.
End BrotherHash.

Section Brothers.
Import MemStore.
Local Existing Instance BrotherHash.instance.

Definition brothers : list (bytes * bytes) := [([0], [7]); ([1], [8])]%Z.

(** leaf nodes are never staged, so the sibling of a leaf is always
    taken to be empty: with two keys whose hashes differ in the last bit only,
    the root after [insert] is not the root of the same entries computed by
    [compute_sparse_root]. *)
Theorem brother_leaves_lose_a_key :
  let t := (insert brothers (new (∅ : MemStore.t))).1 in
  (root_hash t).2 ≠ Ok (compute_sparse_root brothers)
  ∧ (get [0]%Z t).2 = Ok (Some [7]%Z) ∧ (get [1]%Z t).2 = Ok (Some [8]%Z).
Proof.
  cbv zeta. split; [|by vm_compute].
  intros E. apply (f_equal (λ r, match r with Ok h => nth 0 h 0%Z | Err _ => 0%Z end)) in E.
  vm_compute in E. discriminate E.
Qed.
End Brothers.

(** ** Duplicate keys *)

Section Duplicates.
Context {B3 : Blake3} `{Laws : KVStoreLaws DB}.

(** in one batch with a key twice, [insert] keeps the first value and
    the change-list operations keep the last. *)
Theorem duplicate_keys_diverge (t : SparseMerkleTree DB) (k v1 v2 : bytes) :
  good t → no_siblings ({[digest k]} ∪ dom (smt_bindings t)) →
  let kvs := [(k, v1); (k, v2)] in
  ∃ t1 t2 t3 root,
    insert kvs t = (t1, Ok tt) ∧ (get k t1).2 = Ok (Some v1)
    ∧ root_hash_with_changes kvs [] t = (t2, Ok root)
    ∧ apply_changes_with_root kvs [] root t2 = (t3, Ok tt) ∧ (get k t3).2 = Ok (Some v2).
Proof.
  intros Hg Hns kvs.
  assert (Hd : digest_set (map fst kvs) = {[digest k]}).
  { unfold digest_set. simpl. set_solver. }
  assert (Ht : touched kvs [] = {[digest k]}) by exact Hd.
  destruct (insert_correct t kvs Hg) as (t1 & E1 & Hg1 & Hb1); [by rewrite Hd|].
  destruct (root_hash_with_changes_and_overlay_correct t kvs [] Hg)
    as (t2 & entries & E2 & Hg2 & Hb2 & _); [by rewrite Ht|].
  destruct (apply_changes_with_root_correct t2 kvs []
    (smt_root (changed kvs [] (smt_bindings t))) Hg2) as (t3 & Hg3 & Hc).
  { by rewrite Ht, Hb2. }
  rewrite Hb2, decide_True in Hc by exact eq_refl. destruct Hc as [E3 Hb3].
  eexists t1, t2, t3, _. split; [exact E1|]. rewrite !get_correct by done.
  split; [|split; [|split]].
  - rewrite Hb1. simpl. apply f_equal. apply lookup_union_Some_l, lookup_insert_eq.
  - unfold root_hash_with_changes. rewrite (st_bind_ok _ _ _ _ _ E2). done.
  - exact E3.
  - rewrite Hb3. cbn [snd]. apply f_equal. unfold changed, change_list, apply_changes.
    simpl. apply lookup_insert_eq.
Qed.
End Duplicates.

(** ** Proofs of the wrong length *)

Section Lengths.
Context {B3 : Blake3}.

Lemma verify_loop_long kh cur i siblings :
  i ≤ 256 → 256 < i + length siblings → verify_loop kh cur i siblings = None.
Proof.
  revert cur i. induction siblings as [|s siblings IH]; intros cur i Hi Hl; simpl in Hl; [lia|].
  cbn [verify_loop]. destruct (256 <=? i) eqn:E; [done|]. apply Nat.leb_gt in E. cbv zeta.
  destruct (bit_is_left kh (256 - i)); apply IH; lia.
Qed.

(** [verify_proof] does not check the number of siblings: with none, any
    root is a proof about any key; with more than 256 it panics. *)
Theorem verify_proof_lengths (root key : bytes) (flag : bool) :
  verify_proof root key (flag, root, []) = Some true
  ∧ ∀ leaf siblings, 256 < length siblings →
      verify_proof root key (flag, leaf, siblings) = None.
Proof.
  split.
  - unfold verify_proof. cbn [verify_loop mbind option_bind]. by rewrite bool_decide_true.
  - intros leaf siblings Hl. unfold verify_proof. by rewrite verify_loop_long by lia.
Qed.
End Lengths.

Import SmtTheorems.Runs ToyHash MemStore.

Lemma duplicate_keys_diverge_witness :
  ∃ t1 t2 t3 root,
    insert [([9], [1]); ([9], [2])]%Z full_tree = (t1, Ok tt) ∧ (get [9]%Z t1).2 = Ok (Some [1]%Z)
    ∧ root_hash_with_changes [([9], [1]); ([9], [2])]%Z [] full_tree = (t2, Ok root)
    ∧ apply_changes_with_root [([9], [1]); ([9], [2])]%Z [] root t2 = (t3, Ok tt)
    ∧ (get [9]%Z t3).2 = Ok (Some [2]%Z).
Proof.
  apply (duplicate_keys_diverge full_tree [9]%Z [1]%Z [2]%Z); [apply full_good|].
  rewrite (proj2 full_good). apply keys_apart. by vm_compute.
Defined.
