(* ===== verification/Merkle.v ===== *)
(** * Transaction Merkle trees: [crates/smt/src/merkle.rs]

    Roots, single proofs, multiproofs and the compressed proof format.  An odd
    node at the end of a level is passed through unhashed; a proof marks such a
    level with an empty sibling.  The [while current_level.len() > 1] loops run
    on fuel, the length of the first level: [halving] shows each round shortens
    the level, so the fuel always suffices ([merkle_loop_done]). *)

From stdpp Require Import base list gmap.
From Stdlib Require Import ZArith Lia.
From S2P Require Import Prelude Order Hashing.

(** ** Definitions from the source *)

Definition bytes_to_hash (b : bytes) : bytes :=
  if length b =? 32 then b else replicate 32 0%Z.

Definition tx_hashes_to_arrays (tx_hashes : list bytes) : list bytes :=
  map bytes_to_hash tx_hashes.

Section Roots.
Context {B3 : Blake3}.

(** The loop over [current_level.chunks(2)]. *)
Fixpoint next_level (level : list bytes) : list bytes :=
  match level with
  | a :: b :: rest => hash_node a b :: next_level rest
  | [a] => [a]
  | [] => []
  end.

Fixpoint merkle_loop (fuel : nat) (current_level : list bytes) : list bytes :=
  match fuel with
  | O => current_level
  | S fuel =>
      if 1 <? length current_level then merkle_loop fuel (next_level current_level)
      else current_level
  end.

Definition compute_merkle_root_arrays (current_level : list bytes) : bytes :=
  match current_level with
  | [] => replicate 32 0%Z
  | _ => nth 0 (merkle_loop (length current_level) current_level) []
  end.

Definition compute_merkle_root_optimized (hashes : list bytes) : bytes :=
  compute_merkle_root_arrays hashes.

Definition compute_merkle_root (tx_hashes : list bytes) : bytes :=
  match tx_hashes with
  | [h] => h
  | _ => compute_merkle_root_arrays (tx_hashes_to_arrays tx_hashes)
  end.

(** ** Single proofs *)

Definition sibling_index (i : nat) : nat := if Nat.even i then i + 1 else i - 1.

Fixpoint proof_loop (fuel : nat) (current_level : list bytes) (current_index : nat) :
    list bytes :=
  match fuel with
  | O => []
  | S fuel =>
      if 1 <? length current_level then
        default [] (current_level !! sibling_index current_index)
        :: proof_loop fuel (next_level current_level) (current_index / 2)
      else []
  end.

Definition generate_merkle_proof (tx_hashes : list bytes) (index : nat) : list bytes :=
  if length tx_hashes <=? index then []
  else proof_loop (length tx_hashes) (tx_hashes_to_arrays tx_hashes) index.

(** One level of verification: an empty sibling is a pass-through. *)
Definition verify_step (current_is_left : bool) (current_hash sibling_vec : bytes) : bytes :=
  match sibling_vec with
  | [] => current_hash
  | _ =>
      let sibling := bytes_to_hash sibling_vec in
      if current_is_left then hash_node current_hash sibling
      else hash_node sibling current_hash
  end.

Fixpoint climb (current_hash : bytes) (current_index : nat) (proof : list bytes) : bytes :=
  match proof with
  | [] => current_hash
  | sibling :: proof =>
      climb (verify_step (Nat.even current_index) current_hash sibling) (current_index / 2) proof
  end.

Definition verify_merkle_proof (tx_hash : bytes) (index : nat) (proof : list bytes)
    (merkle_root : bytes) : bool :=
  if bool_decide (proof = []) && bool_decide (tx_hash = merkle_root) then true
  else bool_decide (climb (bytes_to_hash tx_hash) index proof = merkle_root).

Fixpoint batch_verify_merkle_proofs (proofs : list (bytes * nat * list bytes))
    (merkle_root : bytes) : bool :=
  match proofs with
  | [] => true
  | (tx_hash, index, proof) :: proofs =>
      if negb (verify_merkle_proof tx_hash index proof merkle_root) then false
      else batch_verify_merkle_proofs proofs merkle_root
  end.

(** ** Multiproofs *)

(** One iteration over [chunk_idx]: the nodes inserted into the proof, the
    parent hash, and whether the parent is tracked. *)
Definition multi_chunk (level : list bytes) (indices : gset nat) (chunk_idx : nat) :
    list bytes * bytes * bool :=
  let left_idx := chunk_idx * 2 in
  let right_idx := left_idx + 1 in
  let need_left := bool_decide (left_idx ∈ indices) in
  let need_right := (right_idx <? length level) && bool_decide (right_idx ∈ indices) in
  let nodes :=
    if need_left && negb need_right then
      if right_idx <? length level then [nth right_idx level []] else [[]]
    else if need_right && negb need_left then [nth left_idx level []]
    else [] in
  let parent :=
    if right_idx <? length level then hash_node (nth left_idx level []) (nth right_idx level [])
    else nth left_idx level [] in
  (nodes, parent, need_left || need_right).

Fixpoint multi_loop (fuel : nat) (level : list bytes) (indices : gset nat) : list bytes :=
  match fuel with
  | O => []
  | S fuel =>
      if 1 <? length level then
        let chunk_ids := seq 0 ((length level + 1) / 2) in
        let chunks := map (multi_chunk level indices) chunk_ids in
        concat (map (λ c, c.1.1) chunks)
        ++ multi_loop fuel (map (λ c, c.1.2) chunks)
             (list_to_set (filter (λ j, (multi_chunk level indices j).2 = true) chunk_ids))
      else []
  end.

(** The nodes come out of a [BTreeSet]: sorted, without duplicates. *)
Definition generate_merkle_multiproof (tx_hashes : list bytes) (indices : list nat) :
    list bytes :=
  if bool_decide (indices = []) || bool_decide (tx_hashes = []) then []
  else
    let nodes := multi_loop (length tx_hashes) (tx_hashes_to_arrays tx_hashes)
                   (list_to_set indices) in
    map fst (btree_iter (gset_to_gmap tt (list_to_set nodes))).
End Roots.

(** ** Compressed proofs *)

Record CompressedMerkleProof := {
  siblings : list bytes;
  flags : list bool
}.

(** The loop of [from_proof] over the levels. *)
Fixpoint index_flags (levels current_index : nat) : list bool :=
  match levels with
  | O => []
  | S levels => Nat.even current_index :: index_flags levels (current_index / 2)
  end.

Definition from_proof (tx_hash : bytes) (index : nat) (proof : list bytes) :
    CompressedMerkleProof :=
  {| siblings := proof; flags := index_flags (length proof) index |}.

Section Compressed.
Context {B3 : Blake3}.

Fixpoint climb_flags (current_hash : bytes) (steps : list (bytes * bool)) : bytes :=
  match steps with
  | [] => current_hash
  | (sibling, is_right) :: steps => climb_flags (verify_step is_right current_hash sibling) steps
  end.

Definition verify (self : CompressedMerkleProof) (tx_hash : bytes) (index : nat)
    (merkle_root : bytes) : bool :=
  if bool_decide (siblings self = []) && bool_decide (tx_hash = merkle_root) then true
  else if negb (length (siblings self) =? length (flags self)) then false
  else bool_decide
         (climb_flags (bytes_to_hash tx_hash) (combine (siblings self) (flags self)) = merkle_root).
End Compressed.

(** [(n as u32).to_le_bytes()] *)
Definition u32_le (n : nat) : bytes :=
  let z := (Z.of_nat n mod 2 ^ 32)%Z in
  [z mod 256; (z / 2 ^ 8) mod 256; (z / 2 ^ 16) mod 256; (z / 2 ^ 24) mod 256]%Z.

Definition u32_from_le (b : bytes) : nat :=
  Z.to_nat (nth 0 b 0%Z + nth 1 b 0%Z * 2 ^ 8 + nth 2 b 0%Z * 2 ^ 16 + nth 3 b 0%Z * 2 ^ 24)%Z.

(** The state of the packing loop: bytes pushed, [flag_byte], [bit_pos]. *)
Definition pack_step (st : bytes * Z * nat) (flag : bool) : bytes * Z * nat :=
  let '(out, flag_byte, bit_pos) := st in
  let flag_byte := if flag then Z.lor flag_byte (Z.shiftl 1 (Z.of_nat bit_pos)) else flag_byte in
  let bit_pos := S bit_pos in
  if bit_pos =? 8 then (out ++ [flag_byte], 0%Z, 0) else (out, flag_byte, bit_pos).

Definition pack_flags (fs : list bool) : bytes :=
  let '(out, flag_byte, bit_pos) := fold_left pack_step fs ([], 0%Z, 0) in
  if 0 <? bit_pos then out ++ [flag_byte] else out.

Definition to_bytes (self : CompressedMerkleProof) : bytes :=
  u32_le (length (siblings self)) ++ pack_flags (flags self) ++ concat (siblings self).

Definition from_bytes (b : bytes) : option CompressedMerkleProof :=
  if length b <? 4 then None else
  let count := u32_from_le b in
  let flag_bytes_needed := (count + 7) / 8 in
  if length b <? 4 + flag_bytes_needed + count * 32 then None else
  let flags := map (λ i, negb (Z.land (nth (4 + i / 8) b 0%Z)
                                  (Z.shiftl 1 (Z.of_nat (i mod 8))) =? 0)%Z) (seq 0 count) in
  let sibling_start := 4 + flag_bytes_needed in
  let siblings := map (λ i, take 32 (drop (sibling_start + i * 32) b)) (seq 0 count) in
  Some {| siblings := siblings; flags := flags |}.

(** ** Facts: levels *)

Section Levels.
Context {B3 : Blake3}.

Lemma pair_ind {A} (P : list A → Prop) :
  P [] → (∀ a, P [a]) → (∀ a b l, P l → P (a :: b :: l)) → ∀ l, P l.
Proof.
  intros H0 H1 H2 l. enough (P l ∧ ∀ a, P (a :: l)) by tauto.
  induction l as [|b l [IH IH']]; [by auto|]. split; [apply IH'|]. auto.
Qed.

Lemma length_next_level l : length (next_level l) = (length l + 1) / 2.
Proof.
  induction l as [|a|a b l IH] using pair_ind; [done..|].
  cbn [next_level length]. rewrite IH.
  replace (S (S (length l)) + 1) with (length l + 1 + 1 * 2) by lia.
  rewrite Nat.div_add by lia. lia.
Qed.

Lemma halving l : 1 < length l → length (next_level l) < length l.
Proof.
  intros Hl. rewrite length_next_level. apply Nat.Div0.div_lt_upper_bound. lia.
Qed.

Lemma next_level_nonempty l : l ≠ [] → next_level l ≠ [].
Proof. by destruct l as [|a [|b l]]. Qed.

(** A parent in terms of its children. *)
Lemma lookup_next_level l j :
  next_level l !! j
  = match l !! (2 * j), l !! (2 * j + 1) with
    | Some a, Some b => Some (hash_node a b)
    | Some a, None => Some a
    | None, _ => None
    end.
Proof.
  revert j. induction l as [|a|a b l IH] using pair_ind; intros j; [done| |].
  - destruct j as [|j]; [done|]. cbn [next_level].
    by replace (2 * S j) with (S (S (2 * j))) by lia.
  - destruct j as [|j]; [done|]. cbn [next_level].
    replace (2 * S j + 1) with (S (S (2 * j + 1))) by lia.
    replace (2 * S j) with (S (S (2 * j))) by lia. apply IH.
Qed.

Definition level32 (l : list bytes) : Prop := Forall (λ h, length h = 32) l.

Lemma next_level_32 l : level32 l → level32 (next_level l).
Proof.
  unfold level32. induction l as [|a|a b l IH] using pair_ind; intros Hl; [done..|].
  apply Forall_cons in Hl as [Ha Hl]. apply Forall_cons in Hl as [Hb Hl].
  constructor; [apply hash_node_ok|by apply IH].
Qed.

Lemma bytes_to_hash_32 b : length (bytes_to_hash b) = 32.
Proof. unfold bytes_to_hash. destruct (Nat.eqb_spec (length b) 32); [done|]. apply length_replicate. Qed.

Lemma bytes_to_hash_id b : length b = 32 → bytes_to_hash b = b.
Proof. intros Hl. unfold bytes_to_hash. by rewrite (proj2 (Nat.eqb_eq _ _) Hl). Qed.

Lemma arrays_32 txs : level32 (tx_hashes_to_arrays txs).
Proof. apply Forall_fmap, Forall_true. intros b. apply bytes_to_hash_32. Qed.

(** The loop ends with one node; extra fuel changes nothing. *)
Lemma merkle_loop_done fuel l :
  l ≠ [] → length l ≤ fuel → ∃ root, merkle_loop fuel l = [root].
Proof.
  revert l. induction fuel as [|fuel IH]; intros l Hne Hf.
  - destruct l; [done|simpl in Hf; lia].
  - cbn [merkle_loop]. destruct (1 <? length l) eqn:E.
    + apply Nat.ltb_lt in E. apply IH; [by apply next_level_nonempty|].
      pose proof (halving l E). lia.
    + apply Nat.ltb_ge in E. destruct l as [|a [|b l]]; [done|by exists a|simpl in E; lia].
Qed.

Lemma merkle_loop_fuel fuel l :
  length l ≤ fuel → merkle_loop fuel l = merkle_loop (length l) l.
Proof.
  revert l. induction fuel as [fuel IH] using lt_wf_ind; intros l Hf.
  destruct fuel as [|fuel]; [by replace (length l) with 0 by lia|].
  destruct l as [|a l]; [done|]. cbn [merkle_loop].
  change (length (a :: l)) with (S (length l)) at 2. cbn [merkle_loop].
  destruct (1 <? length (a :: l)) eqn:E; [|done]. apply Nat.ltb_lt in E.
  pose proof (halving _ E). simpl in *.
  rewrite IH by lia. symmetry. apply IH; lia.
Qed.

Lemma root_single a : compute_merkle_root_arrays [a] = a.
Proof. done. Qed.

Lemma root_next l :
  1 < length l → compute_merkle_root_arrays l = compute_merkle_root_arrays (next_level l).
Proof.
  intros Hl. unfold compute_merkle_root_arrays.
  assert (Hne : l ≠ []) by (by intros ->; simpl in Hl; lia).
  pose proof (next_level_nonempty l Hne) as Hn.
  destruct l as [|a l]; [done|]. destruct (next_level (a :: l)) as [|b n] eqn:En; [done|].
  f_equal. pose proof (halving _ Hl) as Hh. rewrite En in Hh.
  change (length (a :: l)) with (S (length l)) at 1. cbn [merkle_loop].
  rewrite (proj2 (Nat.ltb_lt _ _) Hl), En. apply merkle_loop_fuel. simpl in *. lia.
Qed.

Lemma root_of_txs txs :
  length txs ≠ 1 → compute_merkle_root txs = compute_merkle_root_arrays (tx_hashes_to_arrays txs).
Proof. destruct txs as [|a [|b l]]; done. Qed.
End Levels.

(** ** Facts: proofs *)

Section Proofs.
Context {B3 : Blake3}.

(** The children around position [i]: the node's own hash and its sibling give
    the parent at [i / 2]. *)
Lemma parent_of l i cur :
  l !! i = Some cur →
  next_level l !! (i / 2)
  = Some (match l !! sibling_index i with
          | Some sib => if Nat.even i then hash_node cur sib else hash_node sib cur
          | None => cur
          end).
Proof.
  intros Hi. rewrite lookup_next_level. unfold sibling_index.
  destruct (Nat.even i) eqn:E.
  - apply Nat.even_spec in E as [k ->]. rewrite (Nat.mul_comm 2 k), Nat.div_mul by lia.
    rewrite (Nat.mul_comm k 2), Hi. by destruct (l !! (2 * k + 1)).
  - assert (Ho : Nat.odd i = true) by by rewrite <- Nat.negb_even, E.
    apply Nat.odd_spec in Ho as [k ->].
    replace ((2 * k + 1) / 2) with k by (apply (Nat.div_unique _ 2 k 1); lia).
    rewrite Hi. replace (2 * k + 1 - 1) with (2 * k) by lia.
    destruct (l !! (2 * k)) eqn:Ek; [done|]. apply lookup_ge_None in Ek.
    apply lookup_lt_Some in Hi. lia.
Qed.

Lemma verify_step_lookup l i cur b :
  level32 l →
  verify_step b cur (default [] (l !! sibling_index i))
  = match l !! sibling_index i with
    | Some sib => if b then hash_node cur sib else hash_node sib cur
    | None => cur
    end.
Proof.
  intros Hl. destruct (l !! sibling_index i) as [sib|] eqn:E; [|done].
  assert (Hs : length sib = 32) by (eapply Forall_lookup_1 in Hl; [exact Hl|exact E]).
  cbn [default]. unfold verify_step. rewrite bytes_to_hash_id by exact Hs.
  by destruct sib.
Qed.

Lemma proof_loop_S fuel l i :
  1 < length l →
  proof_loop (S fuel) l i
  = default [] (l !! sibling_index i) :: proof_loop fuel (next_level l) (i / 2).
Proof. intros Hl. cbn [proof_loop]. by rewrite (proj2 (Nat.ltb_lt _ _) Hl). Qed.

Lemma proof_loop_single fuel l i : length l ≤ 1 → proof_loop fuel l i = [].
Proof. intros Hl. destruct fuel; [done|]. cbn [proof_loop]. by rewrite (proj2 (Nat.ltb_ge _ _) Hl). Qed.

(** Climbing along the generated proof reaches the root. *)
Lemma climb_complete fuel l i cur :
  level32 l → length l ≤ fuel → l !! i = Some cur →
  climb cur i (proof_loop fuel l i) = compute_merkle_root_arrays l.
Proof.
  revert l i cur. induction fuel as [|fuel IH]; intros l i cur Hl Hf Hi;
    pose proof (lookup_lt_Some _ _ _ Hi) as Hlt; [lia|].
  destruct (decide (1 < length l)) as [H1|H1].
  - rewrite proof_loop_S by done. cbn [climb]. rewrite verify_step_lookup, root_next by done.
    apply IH; [by apply next_level_32|pose proof (halving l H1); lia|].
    by apply parent_of.
  - rewrite proof_loop_single by lia. destruct l as [|a [|b l]]; simpl in *; try lia.
    destruct i; [|lia]. by injection Hi as ->.
Qed.

Lemma generated_nonempty txs i :
  1 < length txs → i < length txs → generate_merkle_proof txs i ≠ [].
Proof.
  intros H1 Hi. unfold generate_merkle_proof. rewrite (proj2 (Nat.leb_gt _ _)) by done.
  destruct (length txs) as [|n] eqn:E; [lia|].
  rewrite proof_loop_S by (unfold tx_hashes_to_arrays; rewrite length_map; lia). done.
Qed.

(** A proof has the shape of another: pass-throughs at the same levels. *)
Definition same_shape (p p' : list bytes) : Prop :=
  Forall2 (λ s s', (s = [] ↔ s' = []) ∧ (s = [] ∨ length s = 32)) p p'.

(** The inputs of [hash_node] in [climb]; a pass-through hashes nothing, and
    stands in the list as the empty input, the same for any hash it passes. *)
Definition step_image (b : bool) (cur s : bytes) : bytes :=
  match s with
  | [] => []
  | _ => if b then node_image cur (bytes_to_hash s) else node_image (bytes_to_hash s) cur
  end.

Fixpoint climb_images (cur : bytes) (i : nat) (proof : list bytes) : list bytes :=
  match proof with
  | [] => []
  | s :: proof =>
      step_image (Nat.even i) cur s
      :: climb_images (verify_step (Nat.even i) cur s) (i / 2) proof
  end.

(** Of the two ways to complete a parent hash only one avoids a collision. *)
Lemma verify_step_inj b cur cur' s s' :
  length cur = 32 → length cur' = 32 → (s = [] ↔ s' = []) →
  (s = [] ∨ length s = 32) → (s' = [] ∨ length s' = 32) →
  verify_step b cur s = verify_step b cur' s' →
  cur = cur' ∨ step_image b cur s ≠ step_image b cur' s'
    ∧ blake3 (step_image b cur s) = blake3 (step_image b cur' s').
Proof.
  intros Hc Hc' Hiff Hs Hs' E. unfold verify_step, step_image in *.
  destruct (decide (s = [])) as [->|Hn].
  { rewrite (proj1 Hiff eq_refl) in E. by left. }
  assert (Hn' : s' ≠ []) by tauto. destruct Hs as [|Hs]; [done|]. destruct Hs' as [|Hs']; [done|].
  rewrite (bytes_to_hash_id s), (bytes_to_hash_id s') in * by done.
  destruct s as [|x s], s' as [|x' s']; [done..|].
  destruct b; apply hash_node_inj in E as [[E1 E2]|]; auto; congruence.
Qed.

Lemma climb_sound fuel l i cur target proof :
  level32 l → length l ≤ fuel → l !! i = Some target → length cur = 32 →
  same_shape proof (proof_loop fuel l i) →
  climb cur i proof = compute_merkle_root_arrays l →
  cur = target
  ∨ collides (climb_images cur i proof) (climb_images target i (proof_loop fuel l i)).
Proof.
  revert l i cur target proof.
  induction fuel as [|fuel IH]; intros l i cur target proof Hl Hf Hi Hc Hsh Hr;
    pose proof (lookup_lt_Some _ _ _ Hi) as Hlt; [lia|].
  assert (Ht : length target = 32) by (eapply Forall_lookup_1 in Hl; [exact Hl|exact Hi]).
  destruct (decide (1 < length l)) as [H1|H1].
  - rewrite proof_loop_S in Hsh |- * by done.
    apply Forall2_cons_inv_r in Hsh as (s & p & [Hiff Hs] & Hsh & ->).
    cbn [climb climb_images] in Hr |- *. rewrite root_next in Hr by done.
    assert (Hpar : next_level l !! (i / 2)
      = Some (verify_step (Nat.even i) target (default [] (l !! sibling_index i)))).
    { rewrite verify_step_lookup by done. by apply parent_of. }
    assert (Hlen : ∀ c s, length c = 32 → length (verify_step (Nat.even i) c s) = 32).
    { intros c [|? ?] ?; [done|]. unfold verify_step. destruct (Nat.even i); apply hash_node_ok. }
    eapply IH in Hr; [|by apply next_level_32|pose proof (halving l H1); lia|exact Hpar|by apply Hlen|done].
    destruct Hr as [Hr|]; [|by right; apply collides_cons].
    apply verify_step_inj in Hr as [|[? ?]]; [by left|by right; apply collides_here|done..|].
    destruct (l !! sibling_index i) eqn:E; [|by left]. right.
    eapply Forall_lookup_1 in Hl; [exact Hl|exact E].
  - rewrite proof_loop_single in Hsh by lia. apply Forall2_nil_inv_r in Hsh as ->.
    destruct l as [|a [|b l]]; simpl in *; try lia. destruct i; [|lia].
    injection Hi as ->. by left.
Qed.

(** *** The root binds the leaves *)

(** The inputs hashed from one level to the next, and over all levels. *)
Fixpoint level_images (level : list bytes) : list bytes :=
  match level with
  | a :: b :: rest => node_image a b :: level_images rest
  | _ => []
  end.

Fixpoint tree_images (fuel : nat) (level : list bytes) : list bytes :=
  match fuel with
  | O => []
  | S fuel => level_images level ++ tree_images fuel (next_level level)
  end.

Lemma length_level_images l l' :
  length l = length l' → length (level_images l) = length (level_images l').
Proof.
  revert l'. induction l as [|a|a b l IH] using pair_ind; intros [|a' [|b' l']] E; try done.
  cbn [level_images length]. f_equal. apply IH. by injection E.
Qed.

Lemma next_level_inj l l' :
  level32 l → level32 l' → length l = length l' → next_level l = next_level l' →
  l = l' ∨ collides (level_images l) (level_images l').
Proof.
  unfold level32. revert l'. induction l as [|a|a b l IH] using pair_ind; intros l' Hl Hl' Hlen E.
  - destruct l'; [by left|done].
  - destruct l' as [|a' [|b' l']]; [done| |done]. left. exact E.
  - destruct l' as [|a' [|b' l']]; [done..|]. injection E as E1 E2.
    apply Forall_cons in Hl as [Ha Hl]. apply Forall_cons in Hl as [_ Hl].
    apply Forall_cons in Hl' as [Ha' Hl']. apply Forall_cons in Hl' as [_ Hl'].
    apply hash_node_inj in E1 as [[-> ->]|[? ?]]; [|by right; apply collides_here|congruence].
    injection Hlen as Hlen.
    destruct (IH l' Hl Hl' Hlen E2) as [->|]; [by left|by right; apply collides_cons].
Qed.

Lemma root_inj fuel l l' :
  length l ≤ fuel → level32 l → level32 l' → length l = length l' →
  compute_merkle_root_arrays l = compute_merkle_root_arrays l' →
  l = l' ∨ collides (tree_images fuel l) (tree_images fuel l').
Proof.
  revert l l'. induction fuel as [|fuel IH]; intros l l' Hf Hl Hl' Hlen Hr.
  { destruct l, l'; simpl in *; try lia. by left. }
  destruct (decide (1 < length l)) as [H1|H1].
  - cbn [tree_images]. rewrite (root_next l), (root_next l') in Hr by lia.
    assert (Hnl : length (next_level l) = length (next_level l'))
      by by rewrite !length_next_level, <- Hlen.
    apply IH in Hr as [E|E]; [| |pose proof (halving l H1); lia|by apply next_level_32..|done].
    + apply next_level_inj in E as [E|E]; [by left| |done..].
      right. by apply collides_app_l.
    + right. apply collides_app_r; [by apply length_level_images|done].
  - destruct l as [|a [|b l]], l' as [|a' [|b' l']]; simpl in *; try lia; [by left|].
    left. f_equal. exact Hr.
Qed.
End Proofs.

(** ** Facts: the compressed format *)

Section Packing.

(** The [i]-th flag in packed bytes. *)
Definition flag_at (out : bytes) (i : nat) : bool :=
  Z.testbit (nth (i / 8) out 0%Z) (Z.of_nat (i mod 8)).

(** The loop invariant after the flags [fs]. *)
Definition packed (fs : list bool) (st : bytes * Z * nat) : Prop :=
  let '(out, flag_byte, bit_pos) := st in
  length fs = 8 * length out + bit_pos ∧ bit_pos < 8
  ∧ (∀ i, i < length fs → flag_at (out ++ [flag_byte]) i = nth i fs false)
  ∧ (∀ b, (Z.of_nat bit_pos ≤ b)%Z → Z.testbit flag_byte b = false).

Lemma testbit_set_flag fb bp flag b :
  (0 ≤ b)%Z →
  Z.testbit (if flag : bool then Z.lor fb (Z.shiftl 1 (Z.of_nat bp)) else fb) b
  = Z.testbit fb b || (flag && (Z.of_nat bp =? b)%Z).
Proof.
  intros Hb. destruct flag; [|by rewrite andb_false_l, orb_false_r].
  rewrite Z.lor_spec, Z.shiftl_1_l, Z.pow2_bits_eqb by lia. done.
Qed.

Lemma div_mod_8 q r : r < 8 → (8 * q + r) / 8 = q ∧ (8 * q + r) mod 8 = r.
Proof.
  intros Hr. split.
  - symmetry. apply (Nat.div_unique _ 8 q r); lia.
  - symmetry. apply (Nat.mod_unique _ 8 q r); lia.
Qed.

Lemma flag_at_step fs out fb bp flag i :
  packed fs (out, fb, bp) → i < S (length fs) →
  let fb' := if flag : bool then Z.lor fb (Z.shiftl 1 (Z.of_nat bp)) else fb in
  flag_at (out ++ [fb']) i = nth i (fs ++ [flag]) false.
Proof.
  intros (Hlen & Hbp & Hf & Hhi) Hi fb'. unfold flag_at in *.
  destruct (decide (i = length fs)) as [->|Hne].
  - rewrite Hlen at 1 2. destruct (div_mod_8 (length out) bp Hbp) as [-> ->].
    rewrite nth_middle, nth_middle. unfold fb'.
    rewrite testbit_set_flag, Hhi, Z.eqb_refl by lia. by rewrite orb_false_l, andb_true_r.
  - rewrite (app_nth1 fs) by lia. rewrite <- Hf by lia.
    pose proof (Nat.div_mod_eq i 8). pose proof (Nat.mod_upper_bound i 8).
    destruct (decide (i / 8 = length out)) as [E|E].
    + rewrite E, !nth_middle. unfold fb'. rewrite testbit_set_flag by lia.
      rewrite (proj2 (Z.eqb_neq _ _)) by lia. by rewrite andb_false_r, orb_false_r.
    + rewrite !app_nth1 by lia. done.
Qed.

Lemma pack_step_packed fs st flag : packed fs st → packed (fs ++ [flag]) (pack_step st flag).
Proof.
  destruct st as [[out fb] bp]. intros Hp. pose proof Hp as (Hlen & Hbp & _ & Hhi).
  unfold pack_step. pose proof (λ i, flag_at_step fs out fb bp flag i Hp) as Hstep. cbv zeta in Hstep.
  set (fb' := if flag then _ else fb) in *.
  destruct (Nat.eqb_spec (S bp) 8) as [E|E]; unfold packed; rewrite length_app; cbn [length].
  - rewrite length_app. cbn [length]. split; [lia|]. split; [lia|]. split.
    + intros i Hi. rewrite <- Hstep by lia. unfold flag_at. rewrite app_nth1; [done|].
      rewrite length_app. cbn [length].
      apply Nat.Div0.div_lt_upper_bound. lia.
    + intros b _. apply Z.bits_0.
  - split; [lia|]. split; [lia|]. split.
    + intros i Hi. apply Hstep. lia.
    + intros b Hb. unfold fb'. rewrite testbit_set_flag, Hhi by lia.
      rewrite (proj2 (Z.eqb_neq _ _)) by lia. by rewrite andb_false_r.
Qed.

Lemma pack_loop_packed fs : packed fs (fold_left pack_step fs ([], 0%Z, 0)).
Proof.
  induction fs as [|flag fs IH] using rev_ind.
  - cbn [fold_left packed length]. split; [lia|]. split; [lia|].
    split; [intros i Hi; lia|]. intros b _. apply Z.bits_0.
  - rewrite fold_left_app. by apply pack_step_packed.
Qed.

Lemma pack_flags_spec fs :
  length (pack_flags fs) = (length fs + 7) / 8
  ∧ ∀ i, i < length fs → flag_at (pack_flags fs) i = nth i fs false.
Proof.
  pose proof (pack_loop_packed fs) as Hp. unfold pack_flags.
  destruct (fold_left _ _ _) as [[out fb] bp]. destruct Hp as (Hlen & Hbp & Hf & Hhi).
  destruct (Nat.ltb_spec 0 bp) as [E|E].
  - split; [|done]. rewrite length_app. cbn [length]. apply (Nat.div_unique _ 8 _ (bp - 1)); lia.
  - split; [apply (Nat.div_unique _ 8 _ 7); lia|]. intros i Hi. rewrite <- Hf by done.
    unfold flag_at. rewrite app_nth1; [done|]. apply Nat.Div0.div_lt_upper_bound. lia.
Qed.

Lemma u32_roundtrip n rest : (Z.of_nat n < 2 ^ 32)%Z → u32_from_le (u32_le n ++ rest) = n.
Proof.
  intros Hn. unfold u32_from_le, u32_le. rewrite (Z.mod_small (Z.of_nat n)) by lia.
  cbn [app nth]. set (z := Z.of_nat n) in *.
  assert (E : (z mod 256 + (z / 2 ^ 8) mod 256 * 2 ^ 8 + (z / 2 ^ 16) mod 256 * 2 ^ 16
    + (z / 2 ^ 24) mod 256 * 2 ^ 24 = z)%Z).
  { pose proof (Z.div_mod z 256). pose proof (Z.div_mod (z / 2 ^ 8) 256).
    pose proof (Z.div_mod (z / 2 ^ 16) 256). 
    assert ((z / 2 ^ 8) / 256 = z / 2 ^ 16)%Z by by rewrite Z.div_div.
    assert ((z / 2 ^ 16) / 256 = z / 2 ^ 24)%Z by by rewrite Z.div_div.
    assert ((z / 2 ^ 24) mod 256 = z / 2 ^ 24)%Z.
    { apply Z.mod_small. split; [apply Z.div_pos; lia|]. apply Z.div_lt_upper_bound; lia. }
    change (2 ^ 8)%Z with 256%Z in *. lia. }
  rewrite E. apply Nat2Z.id.
Qed.

Lemma length_concat_32 (l : list bytes) :
  Forall (λ s, length s = 32) l → length (concat l) = length l * 32.
Proof. induction 1 as [|s l Hs _ IH]; [done|]. cbn [concat length]. rewrite length_app. lia. Qed.

Lemma slice_concat_32 (l : list bytes) i :
  Forall (λ s, length s = 32) l → i < length l →
  take 32 (drop (i * 32) (concat l)) = nth i l [].
Proof.
  intros Hl. revert i. induction Hl as [|s l Hs Hl IH]; intros i Hi; simpl in Hi; [lia|].
  cbn [concat]. destruct i as [|i].
  - change (0 * 32) with 0. rewrite drop_0. by rewrite take_app_length'.
  - cbn [nth]. rewrite <- IH by lia. replace (S i * 32) with (length s + i * 32) by lia.
    by rewrite <- drop_drop, drop_app_length.
Qed.

Lemma map_nth_seq {A} (l : list A) d : map (λ i, nth i l d) (seq 0 (length l)) = l.
Proof.
  apply (list_eq_nth d); [by rewrite length_map, length_seq|].
  rewrite length_map, length_seq. intros i Hi.
  rewrite (nth_indep _ _ (nth 0 l d)) by (by rewrite length_map, length_seq).
  rewrite (map_nth (λ i, nth i l d)), seq_nth by done. done.
Qed.

Lemma from_bytes_to_bytes c :
  (Z.of_nat (length (siblings c)) < 2 ^ 32)%Z → length (flags c) = length (siblings c) →
  Forall (λ s, length s = 32) (siblings c) → from_bytes (to_bytes c) = Some c.
Proof.
  intros Hn Hfl Hs. destruct c as [sibs fs]. simpl in *.
  destruct (pack_flags_spec fs) as [HF Hf]. set (F := pack_flags fs) in *.
  unfold from_bytes, to_bytes. cbn [siblings flags]. fold F.
  set (hd := u32_le (length sibs)). assert (Hhd : length hd = 4) by done.
  assert (Hlen : length (hd ++ F ++ concat sibs) = 4 + (length sibs + 7) / 8 + length sibs * 32).
  { rewrite !length_app, Hhd, HF, Hfl, length_concat_32 by done. lia. }
  rewrite (proj2 (Nat.ltb_ge _ 4)) by (rewrite Hlen; lia).
  assert (Hcount : u32_from_le (hd ++ F ++ concat sibs) = length sibs) by by apply u32_roundtrip.
  rewrite Hcount. cbv zeta.
  rewrite (proj2 (Nat.ltb_ge _ _)) by (rewrite Hlen; lia).
  f_equal. f_equal.
  - etransitivity; [|apply (map_nth_seq sibs [])]. apply map_ext_in. intros i Hi. apply in_seq in Hi.
    rewrite <- slice_concat_32 by (done || lia). f_equal.
    rewrite app_assoc, <- drop_drop. f_equal.
    replace (4 + (length sibs + 7) / 8) with (length (hd ++ F))
      by (rewrite length_app, Hhd, HF, Hfl; done). apply drop_app_length.
  - etransitivity; [|apply (map_nth_seq fs false)]. rewrite Hfl. apply map_ext_in. intros i Hi. apply in_seq in Hi.
    rewrite <- Hf by lia. unfold flag_at.
    assert (i / 8 < length F).
    { rewrite HF. apply Nat.Div0.div_lt_upper_bound.
      pose proof (Nat.div_mod_eq (length fs + 7) 8). pose proof (Nat.mod_upper_bound (length fs + 7) 8). lia. }
    rewrite (app_nth2 hd) by lia. rewrite Hhd, (app_nth1 F) by lia.
    replace (4 + i / 8 - 4) with (i / 8) by lia.
    rewrite land_pow2_zero, negb_involutive by lia. done.
Qed.
End Packing.

(** ** Facts: multiproofs *)

Section Multi.
Context {B3 : Blake3}.

Lemma sibling_index_even k : sibling_index (k * 2) = k * 2 + 1.
Proof. unfold sibling_index. by rewrite Nat.mul_comm, Nat.even_even. Qed.

Lemma sibling_index_odd k : sibling_index (k * 2 + 1) = k * 2.
Proof. unfold sibling_index. rewrite Nat.mul_comm, Nat.even_odd. lia. Qed.

Lemma half_odd k : (k * 2 + 1) / 2 = k.
Proof. symmetry. apply (Nat.div_unique _ 2 k 1); lia. Qed.

Lemma pair_position i j : i / 2 = j ↔ i = j * 2 ∨ i = j * 2 + 1.
Proof.
  pose proof (Nat.div_mod_eq i 2). pose proof (Nat.mod_upper_bound i 2).
  split; [lia|]. intros [->| ->]; [by apply Nat.div_mul|apply half_odd].
Qed.

Lemma chunk_in_range (l : list bytes) j : j < (length l + 1) / 2 ↔ j * 2 < length l.
Proof.
  pose proof (Nat.div_mod_eq (length l + 1) 2). pose proof (Nat.mod_upper_bound (length l + 1) 2).
  lia.
Qed.

Lemma nth_default_lookup (l : list bytes) i : nth i l [] = default [] (l !! i).
Proof. by rewrite nth_lookup. Qed.

(** The parent of a chunk is the node of the next level. *)
Lemma multi_level l indices :
  map (λ c, c.1.2) (map (multi_chunk l indices) (seq 0 ((length l + 1) / 2))) = next_level l.
Proof.
  rewrite map_map. rewrite <- (map_nth_seq (next_level l) []), length_next_level.
  apply map_ext_in. intros j Hj. apply in_seq in Hj as [_ Hj]. simpl in Hj.
  apply chunk_in_range in Hj. unfold multi_chunk. cbn [fst snd].
  rewrite !nth_default_lookup, lookup_next_level, (Nat.mul_comm 2 j).
  apply lookup_lt_is_Some in Hj as [a Ha]. rewrite Ha.
  destruct (Nat.ltb_spec (j * 2 + 1) (length l)) as [Hr|Hr].
  - apply lookup_lt_is_Some in Hr as [b Hb]. by rewrite Hb.
  - apply lookup_ge_None in Hr. by rewrite Hr.
Qed.

(** A chunk contributes siblings of tracked positions, and marks its parent
    exactly when one of its two positions is tracked. *)
Lemma multi_chunk_nodes l indices j x :
  j * 2 < length l → x ∈ (multi_chunk l indices j).1.1 →
  ∃ i, i ∈ indices ∧ i < length l ∧ i / 2 = j ∧ x = default [] (l !! sibling_index i).
Proof.
  intros Hj. unfold multi_chunk. cbn [fst].
  destruct (Nat.ltb_spec (j * 2 + 1) (length l)) as [Hr|Hr]; cbn [andb].
  all: case_bool_decide as Hleft; try case_bool_decide as Hright; cbn [andb negb];
    intros Hx; try apply list_elem_of_singleton in Hx as ->; try (by apply not_elem_of_nil in Hx).
  - exists (j * 2). rewrite sibling_index_even, nth_default_lookup.
    by rewrite Nat.div_mul by lia.
  - exists (j * 2 + 1). by rewrite sibling_index_odd, nth_default_lookup, half_odd.
  - exists (j * 2). rewrite sibling_index_even, Nat.div_mul by lia.
    apply lookup_ge_None in Hr. by rewrite Hr.
Qed.

Lemma multi_chunk_marked l indices j :
  j * 2 < length l →
  (multi_chunk l indices j).2 = true ↔ ∃ i, i ∈ indices ∧ i < length l ∧ i / 2 = j.
Proof.
  intros Hj. unfold multi_chunk. cbn [snd].
  rewrite orb_true_iff, andb_true_iff, !bool_decide_eq_true, Nat.ltb_lt. split.
  - intros [Hi|[Hr Hi]]; eexists; (split; [exact Hi|]); (split; [done|]).
    + by apply Nat.div_mul.
    + apply half_odd.
  - intros (i & Hi & Hlt & Hp). apply pair_position in Hp as [->| ->]; auto.
Qed.

Definition marked (l : list bytes) (indices : gset nat) : gset nat :=
  list_to_set (filter (λ j, (multi_chunk l indices j).2 = true) (seq 0 ((length l + 1) / 2))).

Lemma elem_of_marked l indices j :
  j ∈ marked l indices ↔ ∃ i, i ∈ indices ∧ i < length l ∧ i / 2 = j.
Proof.
  unfold marked. rewrite elem_of_list_to_set, list_elem_of_filter, elem_of_seq.
  split.
  - intros [Hm Hj]. apply multi_chunk_marked in Hm; [done|]. apply chunk_in_range. lia.
  - intros (i & Hi & Hlt & Hp). assert (Hj : j * 2 < length l).
    { apply pair_position in Hp as [->| ->]; lia. }
    split; [apply multi_chunk_marked; eauto|]. apply chunk_in_range in Hj. lia.
Qed.

Lemma multi_loop_S fuel l indices :
  1 < length l →
  multi_loop (S fuel) l indices
  = concat (map (λ j, (multi_chunk l indices j).1.1) (seq 0 ((length l + 1) / 2)))
    ++ multi_loop fuel (next_level l) (marked l indices).
Proof.
  intros Hl. cbn [multi_loop]. rewrite (proj2 (Nat.ltb_lt _ _) Hl). cbv zeta.
  by rewrite multi_level, map_map.
Qed.

Lemma multi_loop_single fuel l indices : length l ≤ 1 → multi_loop fuel l indices = [].
Proof.
  intros Hl. destruct fuel; [done|]. cbn [multi_loop]. by rewrite (proj2 (Nat.ltb_ge _ _) Hl).
Qed.

(** Every node of a multiproof is in the proof of one of the indices. *)
Lemma multi_loop_sub fuel l indices x :
  x ∈ multi_loop fuel l indices →
  ∃ i, i ∈ indices ∧ i < length l ∧ x ∈ proof_loop fuel l i.
Proof.
  revert l indices. induction fuel as [|fuel IH]; intros l indices Hx;
    [by apply not_elem_of_nil in Hx|].
  destruct (decide (1 < length l)) as [H1|H1];
    [|rewrite multi_loop_single in Hx by lia; by apply not_elem_of_nil in Hx].
  rewrite multi_loop_S in Hx by done. apply elem_of_app in Hx as [Hx|Hx].
  - apply list_elem_of_In, in_concat in Hx as (nodes & Hn & Hx).
    apply in_map_iff in Hn as (j & <- & Hj). apply in_seq in Hj.
    apply list_elem_of_In, multi_chunk_nodes in Hx; [|apply chunk_in_range; lia].
    destruct Hx as (i & Hi & Hlt & _ & ->). exists i. rewrite proof_loop_S by done.
    split; [done|]. split; [done|]. by left.
  - apply IH in Hx as (j & Hj & _ & Hx). apply elem_of_marked in Hj as (i & Hi & Hlt & <-).
    exists i. rewrite proof_loop_S by done. split; [done|]. split; [done|]. by right.
Qed.

(** The multiproof of one index has all of its siblings. *)
Lemma multi_chunk_singleton l i :
  i < length l → default [] (l !! sibling_index i) ∈ (multi_chunk l {[i]} (i / 2)).1.1.
Proof.
  intros Hi. unfold multi_chunk. cbn [fst].
  pose proof (proj1 (pair_position i (i / 2)) eq_refl) as [E|E]; set (j := i / 2) in *;
    clearbody j; subst i.
  - rewrite (bool_decide_true (j * 2 ∈ {[j * 2]})) by set_solver.
    rewrite (bool_decide_false (j * 2 + 1 ∈ {[j * 2]})) by (rewrite elem_of_singleton; lia).
    rewrite andb_false_r, sibling_index_even. cbn [andb negb].
    destruct (Nat.ltb_spec (j * 2 + 1) (length l)) as [Hr|Hr]; apply list_elem_of_singleton.
    + by rewrite nth_default_lookup.
    + apply lookup_ge_None in Hr. by rewrite Hr.
  - rewrite (bool_decide_false (j * 2 ∈ {[j * 2 + 1]})) by (rewrite elem_of_singleton; lia).
    rewrite (bool_decide_true (j * 2 + 1 ∈ {[j * 2 + 1]})) by set_solver.
    rewrite (proj2 (Nat.ltb_lt _ _)) by done. cbn [andb negb].
    by rewrite sibling_index_odd, nth_default_lookup, list_elem_of_singleton.
Qed.

Lemma marked_singleton l i : i < length l → marked l {[i]} = {[i / 2]}.
Proof.
  intros Hi. apply set_eq. intros j. rewrite elem_of_marked, elem_of_singleton. split.
  - by intros (i' & ->%elem_of_singleton & _ & ->).
  - intros ->. exists i. by rewrite elem_of_singleton.
Qed.

Lemma multi_loop_singleton fuel l i x :
  i < length l → x ∈ proof_loop fuel l i → x ∈ multi_loop fuel l {[i]}.
Proof.
  revert l i. induction fuel as [|fuel IH]; intros l i Hi Hx; [done|].
  destruct (decide (1 < length l)) as [H1|H1];
    [|rewrite proof_loop_single in Hx by lia; by apply not_elem_of_nil in Hx].
  rewrite proof_loop_S in Hx by done. rewrite multi_loop_S, marked_singleton by done.
  assert (Hr : i / 2 < (length l + 1) / 2).
  { apply chunk_in_range. pose proof (Nat.div_mod_eq i 2). lia. }
  apply elem_of_app. apply elem_of_cons in Hx as [->|Hx].
  - left. apply list_elem_of_In, in_concat. eexists. split.
    + apply in_map, in_seq. split; [apply Nat.le_0_l|]. simpl. exact Hr.
    + by apply list_elem_of_In, multi_chunk_singleton.
  - right. apply IH; [by rewrite length_next_level|done].
Qed.

Lemma elem_of_multiproof txs indices x :
  indices ≠ [] → txs ≠ [] →
  x ∈ generate_merkle_multiproof txs indices
  ↔ x ∈ multi_loop (length txs) (tx_hashes_to_arrays txs) (list_to_set indices).
Proof.
  intros Hi Ht. unfold generate_merkle_multiproof.
  rewrite !bool_decide_false by done. cbn [orb]. cbv zeta.
  set (nodes := multi_loop _ _ _).
  rewrite btree_iter_perm, <- (elem_of_list_to_set (C := gset bytes) x nodes).
  rewrite list_elem_of_fmap. split.
  - intros ([y []] & -> & Hy). apply elem_of_map_to_list, lookup_gset_to_gmap_Some in Hy. by destruct Hy.
  - intros Hx. exists (x, tt). split; [done|].
    by apply elem_of_map_to_list, lookup_gset_to_gmap_Some.
Qed.
End Multi.
