(* ===== verification/MerkleTheorems.v ===== *)
(** * Theorems about transaction Merkle trees

    What a light client gets from [crates/smt/src/merkle.rs]: proofs verify,
    proofs of the right shape cannot lie unless two of the inputs hashed on the
    way collide, the root binds the transaction list of a given length, the compressed format verifies
    the same proofs and survives serialization when no level is passed through.
    The last two theorems are the limits of these promises. *)

From stdpp Require Import base list gmap sorting.
From Stdlib Require Import ZArith Lia.
From S2P Require Import Prelude Order Hashing Merkle.

Section Theorems.
Context {B3 : Blake3}.

Lemma lookup_arrays txs i tx :
  txs !! i = Some tx → tx_hashes_to_arrays txs !! i = Some (bytes_to_hash tx).
Proof. intros H. unfold tx_hashes_to_arrays. apply list_lookup_fmap_Some. eauto. Qed.

Lemma length_arrays txs : length (tx_hashes_to_arrays txs) = length txs.
Proof. apply length_map. Qed.

(** the proof generated for any transaction of any list verifies against
    the list's root, also when a level has an odd last node and when a hash is
    not 32 bytes long. *)
Theorem merkle_proof_complete (txs : list bytes) (i : nat) (tx : bytes) :
  txs !! i = Some tx →
  verify_merkle_proof tx i (generate_merkle_proof txs i) (compute_merkle_root txs) = true.
Proof.
  intros Hi. pose proof (lookup_lt_Some _ _ _ Hi) as Hlt. unfold verify_merkle_proof.
  destruct (decide (length txs = 1)) as [H1|H1].
  - destruct txs as [|a [|b txs]]; simpl in *; try lia. destruct i; [|lia].
    injection Hi as ->.
    by rewrite (bool_decide_true (_ = [])), (bool_decide_true (tx = _)).
  - rewrite (bool_decide_false (generate_merkle_proof txs i = []))
      by (apply generated_nonempty; lia). cbn [andb].
    apply bool_decide_eq_true. rewrite root_of_txs by done.
    unfold generate_merkle_proof. rewrite (proj2 (Nat.leb_gt _ _)) by done.
    apply climb_complete; [apply arrays_32|by rewrite length_arrays|by apply lookup_arrays].
Qed.

(** a proof with pass-throughs at the same levels as the honest one (and
    32-byte siblings elsewhere) verifies only for the transaction at that index,
    unless an input hashed on the way up collides with the one at the same
    level of the honest proof. *)
Theorem merkle_proof_sound (txs : list bytes) (i : nat) (tx claimed : bytes) (proof : list bytes) :
  Forall (λ h, length h = 32) txs → txs !! i = Some tx → length claimed = 32 →
  same_shape proof (generate_merkle_proof txs i) →
  verify_merkle_proof claimed i proof (compute_merkle_root txs) = true →
  claimed = tx
  ∨ collides (climb_images claimed i proof) (climb_images tx i (generate_merkle_proof txs i)).
Proof.
  intros H32 Hi Hc Hsh Hv. pose proof (lookup_lt_Some _ _ _ Hi) as Hlt.
  assert (Htx : length tx = 32) by (eapply Forall_lookup_1 in H32; [exact H32|exact Hi]).
  unfold verify_merkle_proof in Hv. rewrite (bytes_to_hash_id claimed Hc) in Hv.
  assert (Hr : climb claimed i proof = compute_merkle_root_arrays (tx_hashes_to_arrays txs)).
  { assert (Hroot : compute_merkle_root txs = compute_merkle_root_arrays (tx_hashes_to_arrays txs)).
    { destruct txs as [|a [|b l]]; [done| |done]. apply Forall_cons in H32 as [Ha _].
      unfold tx_hashes_to_arrays. cbn [map]. by rewrite root_single, bytes_to_hash_id. }
    rewrite <- Hroot. destruct (bool_decide (proof = []) && _) eqn:E.
    - apply andb_true_iff in E as [E1 E2]. apply bool_decide_eq_true in E1, E2. by subst proof.
    - by apply bool_decide_eq_true in Hv. }
  unfold generate_merkle_proof in Hsh |- *. rewrite (proj2 (Nat.leb_gt _ _)) in Hsh |- * by done.
  apply (climb_sound (length txs) _ i claimed (bytes_to_hash tx)) in Hr;
    [by rewrite bytes_to_hash_id in Hr|apply arrays_32|by rewrite length_arrays
    |by apply lookup_arrays|done|done].
Qed.

(** the root binds the transactions: two lists of 32-byte hashes of one
    length with one root are equal, or two of the inputs hashed for the roots
    collide. *)
Theorem merkle_root_binding (txs txs' : list bytes) :
  Forall (λ h, length h = 32) txs → Forall (λ h, length h = 32) txs' →
  length txs = length txs' → compute_merkle_root txs = compute_merkle_root txs' →
  txs = txs' ∨ collides (tree_images (length txs) txs) (tree_images (length txs) txs').
Proof.
  intros H H' Hlen Hr. destruct (decide (length txs = 1)) as [H1|H1].
  - destruct txs as [|a [|b l]], txs' as [|a' [|b' l']]; simpl in *; try lia. left. congruence.
  - rewrite !root_of_txs in Hr by lia.
    assert (Hid : ∀ l, Forall (λ h, length h = 32) l → tx_hashes_to_arrays l = l).
    { intros l Hl. induction Hl as [|h l Hh _ IH]; [done|]. unfold tx_hashes_to_arrays in *.
      cbn [map]. by rewrite bytes_to_hash_id, IH. }
    rewrite !Hid in Hr by done. by apply root_inj.
Qed.

Lemma climb_flags_climb cur i proof :
  climb_flags cur (combine proof (index_flags (length proof) i)) = climb cur i proof.
Proof.
  revert cur i. induction proof as [|s proof IH]; intros cur i; [done|].
  cbn [length index_flags combine climb_flags climb]. apply IH.
Qed.

Lemma length_index_flags n i : length (index_flags n i) = n.
Proof. revert i. induction n as [|n IH]; intros i; simpl; [done|]. by rewrite IH. Qed.

(** compressing a proof changes no verdict: the compressed proof verifies
    exactly when the plain one does at the index it was built for, whatever
    index the verifier passes. *)
Theorem compressed_verify_equivalent (tx : bytes) (i i' : nat) (proof : list bytes) (root : bytes) :
  verify (from_proof tx i proof) tx i' root = verify_merkle_proof tx i proof root.
Proof.
  unfold verify, verify_merkle_proof, from_proof. cbn [siblings flags].
  rewrite length_index_flags, Nat.eqb_refl, climb_flags_climb. done.
Qed.

(** a batch verifies exactly when each of its proofs does. *)
Theorem batch_verify_all (proofs : list (bytes * nat * list bytes)) (root : bytes) :
  batch_verify_merkle_proofs proofs root = true
  ↔ Forall (λ p, verify_merkle_proof p.1.1 p.1.2 p.2 root = true) proofs.
Proof.
  induction proofs as [|[[tx i] p] proofs IH]; [done|]. cbn [batch_verify_merkle_proofs].
  rewrite Forall_cons, <- IH. cbn [fst snd].
  destruct (verify_merkle_proof tx i p root); cbn [negb]; naive_solver.
Qed.

(** a multiproof is sorted and free of duplicates, every node in it is in
    the single proof of one of its indices, and the multiproof of one index has
    exactly the nodes of its single proof. *)
Theorem multiproof_nodes (txs : list bytes) (indices : list nat) :
  let mp := generate_merkle_multiproof txs indices in
  StronglySorted bytes_le mp ∧ NoDup mp
  ∧ (∀ x, x ∈ mp → ∃ i, i ∈ indices ∧ i < length txs ∧ x ∈ generate_merkle_proof txs i)
  ∧ (∀ i x, i < length txs →
       x ∈ generate_merkle_multiproof txs [i] ↔ x ∈ generate_merkle_proof txs i).
Proof.
  intros mp.
  assert (Hsub : ∀ idx x, x ∈ generate_merkle_multiproof txs idx →
    ∃ i, i ∈ idx ∧ i < length txs ∧ x ∈ generate_merkle_proof txs i).
  { intros idx x Hx. destruct (decide (idx = [] ∨ txs = [])) as [Hd|Hd].
    - unfold generate_merkle_multiproof in Hx. exfalso.
      destruct Hd as [->| ->]; rewrite ?orb_true_r in Hx; by apply not_elem_of_nil in Hx.
    - apply elem_of_multiproof in Hx; [|tauto..]. apply multi_loop_sub in Hx as (i & Hi & Hlt & Hx).
      apply elem_of_list_to_set in Hi. rewrite length_arrays in Hlt. exists i.
      split; [done|]. split; [done|]. unfold generate_merkle_proof.
      by rewrite (proj2 (Nat.leb_gt _ _)). }
  split; [|split; [|split]].
  - unfold mp, generate_merkle_multiproof. destruct (_ || _); [constructor|].
    apply sorted_keys, sort_by_key_sorted.
  - unfold mp, generate_merkle_multiproof. destruct (_ || _); [constructor|].
    apply btree_iter_NoDup.
  - apply Hsub.
  - intros i x Hi. split.
    + intros Hx. apply Hsub in Hx as (i' & ->%list_elem_of_singleton & _ & Hx). exact Hx.
    + intros Hx. apply elem_of_multiproof; [done|by intros ->; simpl in Hi; lia|].
      unfold generate_merkle_proof in Hx. rewrite (proj2 (Nat.leb_gt _ _)) in Hx by done.
      rewrite list_to_set_singleton_L. apply multi_loop_singleton; [by rewrite length_arrays|done].
Qed.

(** [from_bytes] inverts [to_bytes] on a compressed proof whose siblings
    all are 32 bytes long. *)
Theorem compressed_roundtrip (tx : bytes) (i : nat) (proof : list bytes) :
  (Z.of_nat (length proof) < 2 ^ 32)%Z → Forall (λ s, length s = 32) proof →
  from_bytes (to_bytes (from_proof tx i proof)) = Some (from_proof tx i proof).
Proof. intros Hn Hs. apply from_bytes_to_bytes; [done|apply length_index_flags|done]. Qed.

Lemma length_concat_short (l : list bytes) :
  Forall (λ s, s = [] ∨ length s = 32) l → [] ∈ l → length (concat l) < length l * 32.
Proof.
  intros Hl Hin. induction Hl as [|s l Hs Hl IH]; [by apply not_elem_of_nil in Hin|].
  cbn [concat length]. rewrite length_app.
  assert (Hle : length (concat l) ≤ length l * 32).
  { clear -Hl. induction Hl as [|s l Hs _ IH]; [done|]. cbn [concat length].
    rewrite length_app. destruct Hs as [->|Hs]; simpl; lia. }
  apply elem_of_cons in Hin as [<-|Hin]; [simpl; lia|]. specialize (IH Hin).
  destruct Hs as [->|Hs]; simpl; lia.
Qed.

(** a compressed proof with a pass-through level, as every last
    transaction of an odd level has, does not survive serialization:
    [from_bytes] rejects what [to_bytes] wrote. *)
Theorem compressed_passthrough_lost (tx : bytes) (i : nat) (proof : list bytes) :
  (Z.of_nat (length proof) < 2 ^ 32)%Z → Forall (λ s, s = [] ∨ length s = 32) proof →
  [] ∈ proof → from_bytes (to_bytes (from_proof tx i proof)) = None.
Proof.
  intros Hn Hs Hin. unfold from_bytes, to_bytes, from_proof. cbn [siblings flags].
  destruct (pack_flags_spec (index_flags (length proof) i)) as [HF _].
  rewrite length_index_flags in HF. set (F := pack_flags _) in *.
  rewrite u32_roundtrip by done. cbv zeta. rewrite !length_app, HF.
  change (length (u32_le (length proof))) with 4.
  pose proof (length_concat_short proof Hs Hin).
  destruct (_ <? 4); [done|]. by rewrite (proj2 (Nat.ltb_lt _ _)) by lia.
Qed.

(** leaves and inner nodes are not told apart: the list whose first two
    hashes are replaced by their parent has the same root, so the root does not
    determine the number of transactions. *)
Theorem merkle_root_second_preimage (a b c : bytes) :
  length a = 32 → length b = 32 → length c = 32 →
  compute_merkle_root [a; b; c] = compute_merkle_root [hash_node a b; c].
Proof.
  intros Ha Hb Hc. rewrite !root_of_txs by done. unfold tx_hashes_to_arrays. cbn [map].
  rewrite !bytes_to_hash_id by (done || apply hash_node_ok).
  by rewrite root_next by (simpl; lia).
Qed.
End Theorems.

(** ** Runs *)

Module Runs.
Import ToyHash.

Definition txs : list bytes := map digest [[1]; [2]; [3]; [4]; [5]]%Z.

Lemma digests_32 (l : list bytes) : Forall (λ h, length h = 32) (map digest l).
Proof. apply Forall_fmap, Forall_true. intros b. apply digest_ok. Qed.

(** The transaction at an odd tail: its proof passes through two levels. *)
Lemma merkle_proof_complete_witness :
  verify_merkle_proof (digest [5]%Z) 4 (generate_merkle_proof txs 4) (compute_merkle_root txs) = true.
Proof. apply (merkle_proof_complete txs 4). reflexivity. Defined.

Lemma merkle_proof_sound_witness :
  digest [3]%Z = digest [3]%Z
  ∨ collides (climb_images (digest [3]%Z) 2 (generate_merkle_proof txs 2))
      (climb_images (digest [3]%Z) 2 (generate_merkle_proof txs 2)).
Proof.
  apply (merkle_proof_sound txs 2 (digest [3]%Z) (digest [3]%Z) (generate_merkle_proof txs 2)).
  - apply digests_32.
  - reflexivity.
  - apply digest_ok.
  - assert (E : Forall (λ s, length s = 32) (generate_merkle_proof txs 2))
      by (vm_compute; by repeat constructor).
    unfold same_shape. induction E; constructor; auto.
  - by vm_compute.
Defined.

Lemma merkle_root_binding_witness :
  txs = txs ∨ collides (tree_images (length txs) txs) (tree_images (length txs) txs).
Proof. apply (merkle_root_binding txs txs); [apply digests_32..|reflexivity|reflexivity]. Defined.

Lemma compressed_roundtrip_witness :
  from_bytes (to_bytes (from_proof (digest [2]%Z) 1 (generate_merkle_proof txs 1)))
  = Some (from_proof (digest [2]%Z) 1 (generate_merkle_proof txs 1)).
Proof. apply compressed_roundtrip; vm_compute; [done|by repeat constructor]. Defined.

Lemma compressed_passthrough_lost_witness :
  from_bytes (to_bytes (from_proof (digest [5]%Z) 4 (generate_merkle_proof txs 4))) = None.
Proof.
  apply compressed_passthrough_lost.
  - by vm_compute.
  - apply (bool_decide_unpack _). by vm_compute.
  - apply (bool_decide_unpack _). by vm_compute.
Defined.

Lemma merkle_root_second_preimage_witness :
  compute_merkle_root (map digest [[1]; [2]; [3]]%Z)
  = compute_merkle_root [hash_node (digest [1]%Z) (digest [2]%Z); digest [3]%Z].
Proof. apply merkle_root_second_preimage; apply digest_ok. Defined.
End Runs.
