(* ===== verification/Text.v ===== *)
(** * Text: what the sources use of [str], [char] and the [hex] crate

    A Rust [String] is its UTF-8 byte sequence, so [str::len], slicing and the
    derived order are those of [bytes].  The [hex] crate is third party: the
    class [Hex] states what is relied on. *)

From stdpp Require Import base list gmap strings.
From Stdlib Require Import ZArith Lia Ascii.
From Stdlib Require String.
From S2P Require Import Prelude.

(** A string literal. *)
Definition str (s : string) : bytes :=
  map (λ a, Z.of_N (N_of_ascii a)) (String.list_ascii_of_string s).

(** ** Characters *)

Definition is_ascii_digit (b : Z) : bool := (48 <=? b)%Z && (b <=? 57)%Z.
Definition is_ascii_hexdigit (b : Z) : bool :=
  is_ascii_digit b || ((65 <=? b)%Z && (b <=? 70)%Z) || ((97 <=? b)%Z && (b <=? 102)%Z).

(** The number of bytes of the UTF-8 sequence with a given first byte. *)
Definition utf8_width (b : Z) : nat :=
  if (b <? 128)%Z then 1 else if (b <? 224)%Z then 2 else if (b <? 240)%Z then 3 else 4.

Definition continuation (b : Z) : bool := (128 <=? b)%Z && (b <? 192)%Z.

(** [std::str::from_utf8] succeeds: no overlong form, no surrogate, at most
    U+10FFFF. *)
Fixpoint utf8_valid_fuel (fuel : nat) (l : bytes) : bool :=
  match fuel with
  | O => bool_decide (l = [])
  | S fuel =>
      match l with
      | [] => true
      | b0 :: r =>
          if (b0 <? 128)%Z then utf8_valid_fuel fuel r else
          match r with
          | b1 :: r1 =>
              if (194 <=? b0)%Z && (b0 <? 224)%Z then
                continuation b1 && utf8_valid_fuel fuel r1
              else match r1 with
              | b2 :: r2 =>
                  if (224 <=? b0)%Z && (b0 <? 240)%Z then
                    continuation b1 && continuation b2
                    && negb ((b0 =? 224)%Z && (b1 <? 160)%Z)
                    && negb ((b0 =? 237)%Z && (160 <=? b1)%Z)
                    && utf8_valid_fuel fuel r2
                  else match r2 with
                  | b3 :: r3 =>
                      (240 <=? b0)%Z && (b0 <? 245)%Z
                      && continuation b1 && continuation b2 && continuation b3
                      && negb ((b0 =? 240)%Z && (b1 <? 144)%Z)
                      && negb ((b0 =? 244)%Z && (144 <=? b1)%Z)
                      && utf8_valid_fuel fuel r3
                  | [] => false
                  end
              | [] => false
              end
          | [] => false
          end
      end
  end.
Definition utf8_valid (l : bytes) : bool := utf8_valid_fuel (length l) l.

(** ** Trimming *)

(** The code points with the Unicode property [White_Space], in UTF-8. *)
Definition whitespace : list bytes :=
  [[9]; [10]; [11]; [12]; [13]; [32]; [194; 133]; [194; 160]; [225; 154; 128];
   [226; 128; 128]; [226; 128; 129]; [226; 128; 130]; [226; 128; 131]; [226; 128; 132];
   [226; 128; 133]; [226; 128; 134]; [226; 128; 135]; [226; 128; 136]; [226; 128; 137];
   [226; 128; 138]; [226; 128; 168]; [226; 128; 169]; [226; 128; 175]; [226; 129; 159];
   [227; 128; 128]]%Z.

Definition ends_with (suffix l : bytes) : bool := starts_with (rev suffix) (rev l).

Fixpoint trim_start_fuel (fuel : nat) (l : bytes) : bytes :=
  match fuel with
  | O => l
  | S fuel =>
      match find (λ w, starts_with w l) whitespace with
      | Some w => trim_start_fuel fuel (drop (length w) l)
      | None => l
      end
  end.
Fixpoint trim_end_fuel (fuel : nat) (l : bytes) : bytes :=
  match fuel with
  | O => l
  | S fuel =>
      match find (λ w, ends_with w l) whitespace with
      | Some w => trim_end_fuel fuel (take (length l - length w) l)
      | None => l
      end
  end.
Definition trim (l : bytes) : bytes :=
  trim_end_fuel (length l) (trim_start_fuel (length l) l).

(** [trim_start_matches(c)], [trim_end_matches(c)] for an ASCII [c]. *)
Fixpoint trim_start_matches (c : Z) (l : bytes) : bytes :=
  match l with
  | b :: r => if (b =? c)%Z then trim_start_matches c r else l
  | [] => []
  end.
Definition trim_end_matches (c : Z) (l : bytes) : bytes := rev (trim_start_matches c (rev l)).

(** ** Searching *)

(** [split_once(c)] for an ASCII [c]. *)
Fixpoint split_once (c : Z) (l : bytes) : option (bytes * bytes) :=
  match l with
  | [] => None
  | b :: r =>
      if (b =? c)%Z then Some ([], r)
      else '(x, y) ← split_once c r; Some (b :: x, y)
  end.

(** [split(c)] *)
Fixpoint split (c : Z) (l : bytes) : list bytes :=
  match l with
  | [] => [[]]
  | b :: r =>
      if (b =? c)%Z then [] :: split c r
      else match split c r with
           | x :: xs => (b :: x) :: xs
           | [] => [[b]]
           end
  end.

Fixpoint contains (pat l : bytes) : bool :=
  starts_with pat l || match l with [] => false | _ :: r => contains pat r end.

(** ** The [hex] crate *)

Class Hex := {
  hex_encode : bytes → bytes;
  hex_decode : bytes → option bytes;
  hex_decode_encode : ∀ b, bytes_ok b → hex_decode (hex_encode b) = Some b;
  hex_encode_length : ∀ b, length (hex_encode b) = 2 * length b;
  hex_encode_digits : ∀ b, bytes_ok b → Forall (λ c, is_ascii_hexdigit c = true) (hex_encode b)
}.

(** ** Facts *)

Lemma starts_with_app p l : starts_with p (p ++ l) = true.
Proof. unfold starts_with. by rewrite take_app_length, bool_decide_true. Qed.

Lemma starts_with_inv p l : starts_with p l = true → l = p ++ drop (length p) l.
Proof.
  unfold starts_with. intros H%bool_decide_eq_true. rewrite <- (take_drop (length p) l) at 1. by rewrite H.
Qed.

Lemma trim_start_matches_app c l : ∃ n, l = replicate n c ++ trim_start_matches c l.
Proof.
  induction l as [|b l [n IH]]; [by exists 0|]. cbn [trim_start_matches].
  destruct (Z.eqb_spec b c) as [->|]; [|by exists 0].
  exists (S n). cbn [replicate app]. by rewrite <- IH.
Qed.

Lemma split_once_none c l : c ∉ l → split_once c l = None.
Proof.
  induction l as [|b l IH]; intros Hc; [done|]. apply not_elem_of_cons in Hc as [Hb Hc].
  cbn [split_once]. rewrite (proj2 (Z.eqb_neq b c)), IH by congruence. done.
Qed.

(** ** The usual hexadecimal encoding *)

Module RealHex.
Definition digit (n : Z) : Z := if (n <? 10)%Z then n + 48 else n + 87.
Definition undigit (c : Z) : option Z :=
  if is_ascii_digit c then Some (c - 48)%Z
  else if (97 <=? c)%Z && (c <=? 102)%Z then Some (c - 87)%Z
  else if (65 <=? c)%Z && (c <=? 70)%Z then Some (c - 55)%Z
  else None.

Definition encode (b : bytes) : bytes := flat_map (λ x, [digit (x / 16); digit (x mod 16)]) b.
Fixpoint decode (l : bytes) : option bytes :=
  match l with
  | [] => Some []
  | h :: l :: r =>
      x ← undigit h; y ← undigit l; rest ← decode r; Some ((16 * x + y)%Z :: rest)
  | [_] => None
  end.

Lemma undigit_digit n : (0 ≤ n < 16)%Z → undigit (digit n) = Some n.
Proof.
  intros Hn. unfold digit, undigit, is_ascii_digit. destruct (Z.ltb_spec n 10).
  - rewrite (proj2 (Z.leb_le 48 _)), (proj2 (Z.leb_le _ 57)) by lia. simpl. f_equal. lia.
  - rewrite (proj2 (Z.leb_gt _ 57)), andb_false_r by lia.
    rewrite (proj2 (Z.leb_le 97 _)), (proj2 (Z.leb_le _ 102)) by lia. simpl. f_equal. lia.
Qed.

Lemma digit_hexdigit n : (0 ≤ n < 16)%Z → is_ascii_hexdigit (digit n) = true.
Proof.
  intros Hn. unfold digit, is_ascii_hexdigit, is_ascii_digit. destruct (Z.ltb_spec n 10).
  - rewrite (proj2 (Z.leb_le 48 _)), (proj2 (Z.leb_le _ 57)) by lia. done.
  - rewrite (proj2 (Z.leb_le 97 _)), (proj2 (Z.leb_le _ 102)) by lia. by rewrite orb_true_r.
Qed.

Lemma nibbles x : byte_ok x → (0 ≤ x / 16 < 16)%Z ∧ (0 ≤ x mod 16 < 16)%Z.
Proof.
  unfold byte_ok. intros Hx. split; [|by apply Z.mod_pos_bound].
  split; [apply Z.div_pos; lia|apply Z.div_lt_upper_bound; lia].
Qed.

#[export] Program Instance real_hex : Hex := {| hex_encode := encode; hex_decode := decode |}.
Next Obligation.
  intros b Hb. induction Hb as [|x b Hx _ IH]; [done|]. cbn [encode flat_map app decode].
  destruct (nibbles x Hx). rewrite !undigit_digit by done. simpl. fold (encode b).
  rewrite IH. simpl. do 2 f_equal. symmetry. apply Z.div_mod. lia.
Qed.
Next Obligation.
  intros b. induction b as [|x b IH]; [done|]. cbn [encode flat_map app length].
  fold (encode b). lia.
Qed.
Next Obligation.
  intros b Hb. induction Hb as [|x b Hx _ IH]; [constructor|]. cbn [encode flat_map app].
  destruct (nibbles x Hx). repeat constructor; [by apply digit_hexdigit..|exact IH].
Qed.
End RealHex.
