(* ===== verification/Address.v ===== *)
(** * Addresses: [crates/kanari-types/src/address.rs] and the Move
    [AccountAddress]

    Both are 32 bytes.  [MoveAddress] has the literals of the Move address
    (leading zeros stripped when printed, padded when parsed), [KanariAddress]
    the stricter ones of Kanari, which also accept a curve tag and hash a tagged
    public key.  SHA3-256 and Unicode upper-casing are parameters. *)

From stdpp Require Import base list gmap strings.
From Stdlib Require Import ZArith Lia.
From S2P Require Import Prelude Hashing Text.

(** ** [AccountAddress] *)

Module MoveAddress.
Section Defs.
Context {HX : Hex}.

Definition short_str_lossless (a : bytes) : bytes :=
  let hex_str := trim_start_matches 48 (hex_encode a) in
  match hex_str with [] => str "0" | _ => hex_str end.

Definition to_hex_literal (a : bytes) : bytes := str "0x" ++ short_str_lossless a.

(** [to_hex]: [format!("{:x}", self)], all 64 digits. *)
Definition to_hex (a : bytes) : bytes := hex_encode a.

(** [<[u8; 32]>::from_hex]: decoding to exactly 32 bytes. *)
Definition from_hex (hex : bytes) : option bytes :=
  b ← hex_decode hex; if length b =? 32 then Some b else None.

Definition from_hex_literal (literal : bytes) : option bytes :=
  if negb (starts_with (str "0x") literal) then None else
  let hex_len := length literal - 2 in
  if hex_len <? 64 then from_hex (replicate (64 - hex_len) 48%Z ++ drop 2 literal)
  else from_hex (drop 2 literal).

Definition from_bytes (b : bytes) : option bytes := if length b =? 32 then Some b else None.
End Defs.

Section Facts.
Context {HX : Hex}.

Lemma account_from_hex_encode a : hash_ok a → from_hex (hex_encode a) = Some a.
Proof.
  intros [Hl Hb]. unfold from_hex. rewrite hex_decode_encode by done. simpl. by rewrite Hl.
Qed.

(** Stripped zeros are padded back. *)
Lemma from_to_hex_literal a : hash_ok a → from_hex_literal (to_hex_literal a) = Some a.
Proof.
  intros Ha. unfold from_hex_literal, to_hex_literal. rewrite starts_with_app. cbn [negb].
  rewrite length_app, drop_app_length' by done. change (length (str "0x")) with 2.
  replace (2 + _ - 2) with (length (short_str_lossless a)) by lia.
  etransitivity; [|apply (account_from_hex_encode a Ha)].
  destruct (trim_start_matches_app 48 (hex_encode a)) as [n En].
  pose proof (hex_encode_length a) as Hlen. rewrite (proj1 Ha) in Hlen.
  assert (E : hex_encode a = replicate (64 - length (short_str_lossless a)) 48%Z
                             ++ short_str_lossless a).
  { unfold short_str_lossless. destruct (trim_start_matches 48 (hex_encode a)) as [|c r] eqn:Et.
    - rewrite app_nil_r in En. rewrite En in Hlen. rewrite length_replicate in Hlen. subst n.
      rewrite En. done.
    - rewrite En in Hlen. rewrite length_app, length_replicate in Hlen. rewrite En at 1.
      f_equal. f_equal. lia. }
  destruct (Nat.ltb_spec (length (short_str_lossless a)) 64) as [H64|H64].
  - by rewrite <- E.
  - replace (64 - length (short_str_lossless a)) with 0 in E by lia.
    cbn [replicate app] in E. by rewrite <- E.
Qed.
End Facts.
End MoveAddress.

(** ** [Address] *)

Module KanariAddress.

Inductive AddressParseError :=
| EmptyString
| Overflow
| InvalidCharacter (c : bytes)
| InvalidUtf8
| InvalidHexString
| InvalidHexPrefix
| InvalidLength (n : nat)
| InvalidPadding
| ZeroAddress.

Inductive parse (A : Type) :=
| Parsed (a : A)
| Failed (e : AddressParseError).
Arguments Parsed {A} a.
Arguments Failed {A} e.

Definition parse_bind {A B} (p : parse A) (k : A → parse B) : parse B :=
  match p with Parsed a => k a | Failed e => Failed e end.

Definition LENGTH : nat := 32.

Definition validate_non_zero (a : bytes) : parse unit :=
  if forallb (λ b, b =? 0)%Z a then Failed ZeroAddress else Parsed tt.

(** [position(|&b| b != 0)] *)
Fixpoint first_non_zero (l : bytes) : option nat :=
  match l with
  | [] => None
  | b :: l => if (b =? 0)%Z then S <$> first_non_zero l else Some 0
  end.

Definition validate_padding (b : bytes) : parse unit :=
  match first_non_zero b with
  | Some idx => if idx <? length b - LENGTH then Failed InvalidPadding else Parsed tt
  | None => Parsed tt
  end.

(** The first character that is no hexadecimal digit; in a valid string it
    starts at the first such byte. *)
Fixpoint find_invalid (l : bytes) : option bytes :=
  match l with
  | [] => None
  | b :: r => if is_ascii_hexdigit b then find_invalid r else Some (take (utf8_width b) l)
  end.

Definition validate_hex (hex : bytes) : parse unit :=
  match hex with
  | [] => Failed EmptyString
  | _ =>
      if LENGTH * 2 <? length hex then Failed Overflow
      else match find_invalid hex with
           | Some c => Failed (InvalidCharacter c)
           | None => Parsed tt
           end
  end.

Section Defs.
Context {HX : Hex} (sha3_256 : bytes → bytes) (to_uppercase : bytes → bytes).

Definition from_hex (hex : bytes) : parse bytes :=
  if negb (utf8_valid hex) then Failed InvalidUtf8 else
  parse_bind (validate_hex hex) (λ _,
  match MoveAddress.from_hex hex with
  | None => Failed InvalidHexString
  | Some b => parse_bind (validate_non_zero b) (λ _, Parsed b)
  end).

Definition to_hex (a : bytes) : bytes := hex_encode a.
Definition to_hex_literal (a : bytes) : bytes := str "0x" ++ to_hex a.

(** [format!("{:0>width$}", s, width = w)] *)
Definition pad_zeros (w : nat) (s : bytes) : bytes := replicate (w - length s) 48%Z ++ s.

(** The address of a tagged public key. *)
Definition hash_tagged_key (tag pub : bytes) : parse bytes :=
  let tag_upper := to_uppercase tag in
  let is_hybrid := contains (str "HYBRID") tag_upper || contains (str "ED25519") tag_upper
                   || contains (str "K256") tag_upper in
  let hash_hex_string := is_hybrid || contains (str "SPHINCS") tag_upper in
  if hash_hex_string then Parsed (sha3_256 pub)
  else match hex_decode pub with
       | Some pubkey_bytes => Parsed (sha3_256 pubkey_bytes)
       | None => Failed InvalidHexString
       end.

(** A literal without a tag. *)
Definition from_plain_literal (literal : bytes) : parse bytes :=
  if negb (starts_with (str "0x") literal) then Failed InvalidHexPrefix else
  let hex_str := drop 2 literal in
  if LENGTH * 2 <? length hex_str then Failed Overflow else
  parse_bind (validate_hex hex_str) (λ _,
  from_hex (if length hex_str <? LENGTH * 2 then pad_zeros (LENGTH * 2) hex_str else hex_str)).

(** The recursion strips one tag per call: the part after a colon is shorter,
    so the length of the literal is enough fuel. *)
Fixpoint from_hex_literal_fuel (fuel : nat) (literal : bytes) : parse bytes :=
  match literal with
  | [] => Failed EmptyString
  | _ =>
      match split_once 58 literal with
      | Some (tag, addr_or_pub) =>
          if starts_with (str "0x") addr_or_pub then
            match fuel with
            | O => Failed EmptyString
            | S fuel => from_hex_literal_fuel fuel addr_or_pub
            end
          else hash_tagged_key tag addr_or_pub
      | None => from_plain_literal literal
      end
  end.
Definition from_hex_literal (literal : bytes) : parse bytes :=
  from_hex_literal_fuel (length literal) literal.

Definition parse_to_account_address (s : bytes) : parse bytes :=
  if starts_with (str "0x") s || contains (str ":") s then from_hex_literal s
  else
    let hex_str := trim s in
    if length hex_str =? LENGTH * 2 then from_hex hex_str
    else from_hex_literal (str "0x" ++ hex_str).

(** [impl TryFrom<&[u8]>] *)
Definition try_from (b : bytes) : parse bytes :=
  match b with
  | [] => Failed EmptyString
  | _ =>
      if LENGTH <? length b then Failed Overflow
      else if length b <? LENGTH then Failed (InvalidLength (length b))
      else parse_bind (validate_padding b) (λ _, Parsed b)
  end.

(** [impl FromStr] *)
Definition from_str (s : bytes) : parse bytes :=
  match from_hex_literal s with
  | Parsed a => Parsed a
  | Failed _ => from_hex s
  end.

(** [BlockchainEngine::normalize_addr] ([engine/mempool.rs]); [to_lowercase] is
    a parameter, [trim_start_matches("0x")] strips every leading ["0x"]. *)
Fixpoint strip_0x (fuel : nat) (s : bytes) : bytes :=
  match fuel with
  | O => s
  | S fuel => if starts_with (str "0x") s then strip_0x fuel (drop 2 s) else s
  end.
Definition normalize_addr (to_lowercase : bytes → bytes) (addr : bytes) : bytes :=
  match from_str addr with
  | Parsed a => to_hex a
  | Failed _ => to_lowercase (strip_0x (length addr) addr)
  end.
End Defs.

Section Facts.
Context {HX : Hex} (sha3_256 : bytes → bytes) (to_uppercase : bytes → bytes).
Local Abbreviation from_hex_literal := (from_hex_literal sha3_256 to_uppercase).

Definition hex_digits (l : bytes) : Prop := Forall (λ c, is_ascii_hexdigit c = true) l.

Lemma hexdigit_range c : is_ascii_hexdigit c = true → (48 ≤ c < 58 ∨ 65 ≤ c < 128)%Z.
Proof.
  unfold is_ascii_hexdigit, is_ascii_digit. rewrite !orb_true_iff, !andb_true_iff, !Z.leb_le. lia.
Qed.

Lemma hex_digits_utf8 l : hex_digits l → utf8_valid l = true.
Proof.
  intros Hl. unfold utf8_valid. induction Hl as [|c l Hc _ IH]; [done|].
  cbn [length utf8_valid_fuel]. apply hexdigit_range in Hc.
  by rewrite (proj2 (Z.ltb_lt c 128)) by lia.
Qed.

Lemma hex_digits_valid l : hex_digits l → l ≠ [] → length l ≤ 64 → validate_hex l = Parsed tt.
Proof.
  intros Hl Hne Hlen. unfold validate_hex, LENGTH.
  assert (Hf : find_invalid l = None).
  { clear Hne Hlen. induction Hl as [|x r Hx _ IH]; [done|]. cbn [find_invalid]. by rewrite Hx. }
  rewrite (proj2 (Nat.ltb_ge _ _)), Hf by lia. by destruct l.
Qed.

Lemma hex_digits_no_colon l : hex_digits l → 58%Z ∉ l.
Proof.
  intros Hl Hin. unfold hex_digits in Hl. rewrite Forall_forall in Hl.
  specialize (Hl _ Hin). done.
Qed.

Lemma from_hex_encode a :
  hash_ok a →
  from_hex (hex_encode a) = parse_bind (validate_non_zero a) (λ _, Parsed a).
Proof.
  intros [Hl Hb]. pose proof (hex_encode_digits a Hb) as Hd.
  pose proof (hex_encode_length a) as Hlen. unfold from_hex.
  rewrite hex_digits_utf8 by done. cbn [negb].
  rewrite hex_digits_valid; [|done|by intros E; rewrite E in Hlen; simpl in Hlen; lia|lia].
  cbn [parse_bind]. by rewrite MoveAddress.account_from_hex_encode.
Qed.

(** Printing and parsing: every address but zero comes back; the zero address
    is refused. *)
Lemma literal_roundtrip a :
  hash_ok a →
  from_hex_literal (to_hex_literal a) = parse_bind (validate_non_zero a) (λ _, Parsed a).
Proof.
  intros Ha. pose proof (hex_encode_digits a (proj2 Ha)) as Hd.
  pose proof (hex_encode_length a) as Hlen. rewrite (proj1 Ha) in Hlen.
  unfold KanariAddress.from_hex_literal, to_hex_literal, to_hex. set (h := hex_encode a) in *.
  assert (Hsplit : split_once 58 (str "0x" ++ h) = None).
  { apply split_once_none. intros Hin. apply elem_of_app in Hin as [Hin|Hin].
    - assert (Hf : Forall (λ c, c ≠ 58%Z) (str "0x")) by (vm_compute; by repeat constructor).
      rewrite Forall_forall in Hf. by apply (Hf 58%Z).
    - by apply (hex_digits_no_colon h). }
  assert (Hplain : from_plain_literal (str "0x" ++ h)
                   = parse_bind (validate_non_zero a) (λ _, Parsed a)).
  { unfold from_plain_literal. rewrite starts_with_app. cbn [negb].
    rewrite drop_app_length' by done. unfold LENGTH.
    rewrite (proj2 (Nat.ltb_ge _ (length h))) by lia.
    rewrite hex_digits_valid; [|done|by intros E; rewrite E in Hlen|lia]. cbn [parse_bind].
    rewrite (proj2 (Nat.ltb_ge (length h) _)) by lia. by apply from_hex_encode. }
  change (str "0x" ++ h) with (48%Z :: 120%Z :: h) in *.
  cbn [length from_hex_literal_fuel]. by rewrite Hsplit.
Qed.

(** A curve tag in front of a literal is only a hint. *)
Lemma tagged_literal tag a :
  58%Z ∉ tag → hash_ok a →
  from_hex_literal (tag ++ str ":" ++ to_hex_literal a) = from_hex_literal (to_hex_literal a).
Proof.
  intros Htag Ha. set (lit := to_hex_literal a).
  assert (Hs : split_once 58 (tag ++ str ":" ++ lit) = Some (tag, lit)).
  { clearbody lit. induction tag as [|c tag IH]; [done|]. apply not_elem_of_cons in Htag as [Hc Ht].
    cbn [app split_once]. rewrite (proj2 (Z.eqb_neq c 58)) by congruence. by rewrite IH. }
  assert (Hx : starts_with (str "0x") lit = true) by apply starts_with_app.
  assert (Hfuel : ∀ f, from_hex_literal_fuel sha3_256 to_uppercase f lit
    = from_plain_literal lit).
  { intros f. assert (Hn : split_once 58 lit = None).
    { apply split_once_none. unfold lit, to_hex_literal. intros Hin.
      apply elem_of_app in Hin as [Hin|Hin].
      - vm_compute in Hin. by repeat (apply elem_of_cons in Hin as [Hin|Hin]; [done|]);
          apply not_elem_of_nil in Hin.
      - by apply (hex_digits_no_colon (to_hex a)); [apply hex_encode_digits, Ha|]. }
    destruct lit as [|c r] eqn:El; [done|]. destruct f; cbn [from_hex_literal_fuel]; by rewrite Hn. }
  unfold KanariAddress.from_hex_literal. rewrite Hfuel.
  destruct (tag ++ str ":" ++ lit) as [|c r] eqn:El; [by destruct tag|].
  cbn [length from_hex_literal_fuel]. rewrite Hs, Hx. by rewrite Hfuel.
Qed.
End Facts.
End KanariAddress.
