(* ===== verification/GasCoin.v ===== *)
(** * KANARI amounts: [crates/kanari-types/src/gas_coin.rs]

    Conversion between Mist and KANARI and the decimal notation of amounts.
    [parse_kanari_to_mist] is shown exact on every decimal with at most nine
    fraction digits, and inverse to [format_mist_to_kanari]. *)

From stdpp Require Import base list gmap strings.
From Stdlib Require Import ZArith Lia.
From S2P Require Import Prelude Text.

(** ** Decimal numerals of [u64] *)

(** [u64::to_string]; twenty digits are enough for any [u64]. *)
Fixpoint dec_digits (fuel : nat) (n : Z) : bytes :=
  match fuel with
  | O => []
  | S fuel => if (n <? 10)%Z then [(n + 48)%Z] else dec_digits fuel (n / 10) ++ [(n mod 10 + 48)%Z]
  end.
Definition u64_to_string (n : Z) : bytes := dec_digits 20 n.

Definition dec_value (l : bytes) : Z := fold_left (λ acc c, (10 * acc + (c - 48))%Z) l 0%Z.

(** [str::parse::<u64>]: an optional plus sign, then one or more digits. *)
Definition parse_u64 (s : bytes) : option Z :=
  let digits := match s with 43%Z :: (_ :: _) as r => r | _ => s end in
  match digits with
  | [] => None
  | _ =>
      if forallb is_ascii_digit digits then
        if (dec_value digits <=? u64_max)%Z then Some (dec_value digits) else None
      else None
  end.

(** ** [GasModule] *)

Definition MIST_PER_GAS : Z := 1000000000.
Definition KANARI_DECIMALS : nat := 9.
Definition TOTAL_SUPPLY_GAS : Z := 11000000.
Definition TOTAL_SUPPLY_MIST : Z := 11000000000000000.

Definition GAS_MODULE : bytes := str "kanari".
Definition KANARI_SYSTEM_ADDRESS : bytes := str "0x2".
Definition module_path : bytes := KANARI_SYSTEM_ADDRESS ++ str "::" ++ GAS_MODULE.
(** [function_names().transfer], [function_names().burn] *)
Definition fn_transfer : bytes := str "transfer".
Definition fn_burn : bytes := str "burn".

Definition gas_to_mist (gas : Z) : Z := Z.min (gas * MIST_PER_GAS) u64_max.
Definition mist_to_gas (mist : Z) : Z := (mist / MIST_PER_GAS)%Z.

Definition parse_kanari_to_mist (s : bytes) : result Z :=
  let trimmed := trim s in
  if bool_decide (trimmed = []) || starts_with (str "-") trimmed then
    Err "invalid KANARI amount" else
  let parts := split 46 trimmed in
  let int_part := nth 0 parts (str "0") in
  let frac_part := nth 1 parts [] in
  if 2 <? length parts then Err "invalid KANARI amount" else
  let int_digits := match int_part with [] => str "0" | _ => int_part end in
  if negb (forallb is_ascii_digit int_digits) || negb (forallb is_ascii_digit frac_part) then
    Err "invalid KANARI amount" else
  if KANARI_DECIMALS <? length frac_part then Err "too many fraction digits" else
  let frac_padded := frac_part ++ replicate (KANARI_DECIMALS - length frac_part) 48%Z in
  let combined := int_digits ++ frac_padded in
  let normalized := trim_start_matches 48 combined in
  let normalized := match normalized with [] => str "0" | _ => normalized end in
  match parse_u64 normalized with
  | Some n => Ok n
  | None => Err "KANARI amount overflows u64"
  end.

Definition format_mist_to_kanari (mist : Z) : bytes :=
  let digits := u64_to_string mist in
  let scale := KANARI_DECIMALS in
  if length digits <=? scale then
    let frac := replicate (scale - length digits) 48%Z ++ digits in
    match trim_end_matches 48 frac with
    | [] => str "0"
    | trimmed => str "0." ++ trimmed
    end
  else
    let split := length digits - scale in
    let int_part := take split digits in
    let frac_part := drop split digits in
    match trim_end_matches 48 frac_part with
    | [] => int_part
    | trimmed => int_part ++ str "." ++ trimmed
    end.

(** ** Facts: numerals *)

Definition digits_ok (l : bytes) : Prop := Forall (λ c, is_ascii_digit c = true) l.

Lemma digit_range c : is_ascii_digit c = true ↔ (48 ≤ c ≤ 57)%Z.
Proof. unfold is_ascii_digit. rewrite andb_true_iff, !Z.leb_le. lia. Qed.

Lemma digits_ok_forallb l : digits_ok l ↔ forallb is_ascii_digit l = true.
Proof.
  unfold digits_ok. rewrite forallb_forall, Forall_forall.
  split; intros H x Hx; apply H; by apply list_elem_of_In.
Qed.

Lemma dec_value_app l k : dec_value (l ++ k) = (dec_value l * 10 ^ Z.of_nat (length k) + dec_value k)%Z.
Proof.
  induction k as [|c k IH] using rev_ind.
  - rewrite app_nil_r. change (dec_value []) with 0%Z. simpl. lia.
  - rewrite app_assoc. unfold dec_value in *. rewrite !(fold_left_app _ _ [c]). cbn [fold_left].
    rewrite IH, length_app. cbn [length].
    replace (Z.of_nat (length k + 1)) with (Z.succ (Z.of_nat (length k))) by lia.
    rewrite Z.pow_succ_r by lia. lia.
Qed.

Lemma dec_value_zeros n : dec_value (replicate n 48%Z) = 0%Z.
Proof.
  induction n as [|n IH]; [done|]. change (replicate (S n) 48%Z) with ([48%Z] ++ replicate n 48%Z).
  rewrite dec_value_app, IH. change (dec_value [48%Z]) with 0%Z. lia.
Qed.

Lemma dec_value_nonneg l : digits_ok l → (0 ≤ dec_value l)%Z.
Proof.
  induction l as [|c l IH] using rev_ind; intros Hl; [done|].
  apply Forall_app in Hl as [Hl Hc]. apply Forall_singleton, digit_range in Hc.
  rewrite dec_value_app. specialize (IH Hl). change (dec_value [c]) with (10 * 0 + (c - 48))%Z.
  simpl. lia.
Qed.

(** Stripping leading zeros keeps the value and the digits. *)
Lemma dec_value_trim l : dec_value (trim_start_matches 48 l) = dec_value l.
Proof.
  destruct (trim_start_matches_app 48 l) as [n En]. rewrite En at 2.
  rewrite dec_value_app, dec_value_zeros. lia.
Qed.

Lemma digits_ok_trim l : digits_ok l → digits_ok (trim_start_matches 48 l).
Proof.
  intros Hl. destruct (trim_start_matches_app 48 l) as [n En]. rewrite En in Hl.
  by apply Forall_app in Hl as [_ Hl].
Qed.

Lemma dec_digits_spec fuel n :
  (0 ≤ n < 10 ^ Z.of_nat fuel)%Z → fuel ≠ 0 →
  digits_ok (dec_digits fuel n) ∧ dec_value (dec_digits fuel n) = n ∧ dec_digits fuel n ≠ [].
Proof.
  revert n. induction fuel as [|fuel IH]; intros n Hn Hf; [done|]. cbn [dec_digits].
  destruct (Z.ltb_spec n 10) as [H10|H10].
  - split; [apply Forall_singleton, digit_range; lia|]. split; [|done].
    change (dec_value [(n + 48)%Z]) with (10 * 0 + (n + 48 - 48))%Z. lia.
  - rewrite Nat2Z.inj_succ, Z.pow_succ_r in Hn by lia.
    assert (Hd : (0 ≤ n / 10 < 10 ^ Z.of_nat fuel)%Z).
    { split; [apply Z.div_pos; lia|apply Z.div_lt_upper_bound; lia]. }
    destruct fuel as [|fuel]; [simpl in Hn; lia|].
    destruct (IH (n / 10)%Z Hd) as (H1 & H2 & _); [done|].
    pose proof (Z.mod_pos_bound n 10). pose proof (Z.div_mod n 10).
    split; [apply Forall_app; split; [done|apply Forall_singleton, digit_range; lia]|].
    split; [|by destruct (dec_digits (S fuel) (n / 10))].
    rewrite dec_value_app, H2.
    change (dec_value [(n mod 10 + 48)%Z]) with (10 * 0 + (n mod 10 + 48 - 48))%Z.
    change (length [(n mod 10 + 48)%Z]) with 1. lia.
Qed.

Lemma u64_to_string_spec n :
  (0 ≤ n ≤ u64_max)%Z →
  digits_ok (u64_to_string n) ∧ dec_value (u64_to_string n) = n ∧ u64_to_string n ≠ [].
Proof. intros Hn. apply dec_digits_spec; [unfold u64_max in Hn; lia|done]. Qed.

Lemma parse_u64_digits l :
  digits_ok l → l ≠ [] →
  parse_u64 l = if (dec_value l <=? u64_max)%Z then Some (dec_value l) else None.
Proof.
  intros Hl Hne. unfold parse_u64. destruct l as [|c l]; [done|].
  assert (Hc : c ≠ 43%Z).
  { intros ->. apply Forall_cons in Hl as [Hc _]. done. }
  replace (match c :: l with 43%Z :: (_ :: _) as r => r | _ => c :: l end) with (c :: l).
  - by rewrite (proj1 (digits_ok_forallb (c :: l)) Hl).
  - destruct c as [|p|p]; try done. repeat (destruct p as [p|p|]; try done).
Qed.

(** ** Facts: parsing *)

Definition numeral_char (c : Z) : Prop := is_ascii_digit c = true ∨ c = 46%Z.

Lemma numeral_not_space c w : numeral_char c → w ∈ whitespace → w !! 0 ≠ Some c ∧ last w ≠ Some c.
Proof.
  intros Hc Hw.
  assert (Hf : forallb (λ w, match w !! 0%nat, last w with
    | Some a, Some b => ((a <? 46) || (57 <? a)) && ((b <? 46) || (57 <? b))
    | _, _ => false end)%Z whitespace = true) by reflexivity.
  rewrite forallb_forall in Hf. apply list_elem_of_In, Hf in Hw.
  assert (46 ≤ c ≤ 57)%Z by (destruct Hc as [Hc%digit_range| ->]; lia).
  destruct (w !! 0), (last w); try done.
  rewrite andb_true_iff, !orb_true_iff, !Z.ltb_lt in Hw. split; intros [= ->]; lia.
Qed.

Lemma find_none {A} (f : A → bool) l : (∀ x, x ∈ l → f x = false) → find f l = None.
Proof.
  induction l as [|x l IH]; intros H; [done|]. cbn [find]. rewrite H by by left.
  apply IH. intros y Hy. apply H. by right.
Qed.

Lemma starts_with_head w c r :
  w ≠ [] → starts_with w (c :: r) = true → w !! 0 = Some c.
Proof. intros Hw H%starts_with_inv. destruct w as [|a w]; [done|]. by injection H as <- _. Qed.

Lemma trim_numeral l : Forall numeral_char l → trim l = l.
Proof.
  intros Hl. unfold trim.
  assert (Hne : ∀ w, w ∈ whitespace → w ≠ []) by (intros w Hw ->; vm_compute in Hw;
    repeat (apply elem_of_cons in Hw as [Hw|Hw]; [done|]); by apply not_elem_of_nil in Hw).
  assert (Hs : trim_start_fuel (length l) l = l).
  { destruct l as [|c r]; [done|]. cbn [length trim_start_fuel].
    apply Forall_cons in Hl as [Hc _]. rewrite find_none; [done|]. intros w Hw.
    destruct (starts_with w (c :: r)) eqn:E; [|done].
    apply starts_with_head in E; [|by apply Hne]. by destruct (numeral_not_space c w Hc Hw). }
  rewrite Hs. destruct (length l) eqn:El; [by destruct l|]. cbn [trim_end_fuel].
  rewrite find_none; [done|]. intros w Hw. destruct (ends_with w l) eqn:E; [|done].
  unfold ends_with in E. destruct (rev l) as [|c r] eqn:Er.
  { apply (f_equal length) in Er. rewrite length_rev in Er. simpl in Er. lia. }
  apply starts_with_head in E.
  - assert (Hc : numeral_char c).
    { rewrite Forall_forall in Hl. apply Hl, list_elem_of_In, in_rev. rewrite Er. by left. }
    destruct (numeral_not_space c w Hc Hw) as [_ Hlast]. destruct Hlast.
    rewrite <- head_reverse. unfold reverse. rewrite <- rev_alt. by destruct (rev w).
  - intros E'. apply (Hne w Hw). apply (f_equal (@rev Z)) in E'. by rewrite rev_involutive in E'.
Qed.

Lemma split_no_dot l : digits_ok l → split 46 l = [l].
Proof.
  induction 1 as [|c l Hc _ IH]; [done|]. apply digit_range in Hc. cbn [split].
  rewrite (proj2 (Z.eqb_neq c 46)) by lia. by rewrite IH.
Qed.

Lemma split_dot i f : digits_ok i → digits_ok f → split 46 (i ++ str "." ++ f) = [i; f].
Proof.
  intros Hi Hf. induction Hi as [|c i Hc _ IH].
  - cbn [app]. change (str "." ++ f) with (46%Z :: f). cbn [split]. rewrite Z.eqb_refl.
    by rewrite split_no_dot.
  - apply digit_range in Hc. cbn [app split]. rewrite (proj2 (Z.eqb_neq c 46)) by lia.
    by rewrite IH.
Qed.

(** The value of an integer and a fraction part. *)
Definition amount (i f : bytes) : Z :=
  (dec_value i * MIST_PER_GAS + dec_value f * 10 ^ Z.of_nat (9 - length f))%Z.

Definition amount_result (v : Z) : result Z :=
  if (v <=? u64_max)%Z then Ok v else Err "KANARI amount overflows u64".

Lemma parse_combined i f :
  digits_ok i → digits_ok f → length f ≤ 9 → i ≠ [] →
  let n := trim_start_matches 48 (i ++ f ++ replicate (9 - length f) 48%Z) in
  match parse_u64 (match n with [] => str "0" | _ => n end) with
  | Some n => Ok n | None => Err "KANARI amount overflows u64" end = amount_result (amount i f).
Proof.
  intros Hi Hf Hlen Hne. set (c := i ++ f ++ _). cbv zeta.
  assert (Hc : digits_ok c).
  { apply Forall_app; split; [done|]. apply Forall_app; split; [done|]. by apply Forall_replicate. }
  assert (Hv : dec_value c = amount i f).
  { unfold c, amount. rewrite !dec_value_app, dec_value_zeros, length_app, !length_replicate.
    replace (length f + (9 - length f)) with 9 by lia. unfold MIST_PER_GAS. lia. }
  pose proof (dec_value_trim c) as Ht. pose proof (digits_ok_trim c Hc) as Hd.
  unfold amount_result. destruct (trim_start_matches 48 c) as [|x r].
  - rewrite <- Hv, <- Ht. done.
  - rewrite parse_u64_digits by done. rewrite Ht, Hv. by destruct (_ <=? _)%Z.
Qed.

Lemma parse_parts s i f :
  trim s = s → split 46 s = [i; f] ∨ (split 46 s = [i] ∧ f = []) →
  digits_ok i → digits_ok f → length f ≤ 9 → i ≠ [] → starts_with (str "-") s = false → s ≠ [] →
  parse_kanari_to_mist s = amount_result (amount i f).
Proof.
  intros Ht Hsp Hi Hf Hlen Hne Hm Hs. unfold parse_kanari_to_mist. rewrite Ht, Hm.
  rewrite bool_decide_false by done. cbn [orb].
  assert (Hparts : nth 0 (split 46 s) (str "0") = i ∧ nth 1 (split 46 s) [] = f
    ∧ (2 <? length (split 46 s)) = false).
  { destruct Hsp as [-> | [-> ->]]; done. }
  destruct Hparts as (-> & -> & ->).
  replace (match i with [] => str "0" | _ => i end) with i by by destruct i.
  rewrite (proj1 (digits_ok_forallb i)), (proj1 (digits_ok_forallb f)) by done. cbn [negb orb].
  unfold KANARI_DECIMALS. rewrite (proj2 (Nat.ltb_ge _ _)) by done.
  by apply parse_combined.
Qed.

Lemma digit_not_minus c r : numeral_char c → starts_with (str "-") (c :: r) = false.
Proof.
  intros Hc. destruct (starts_with _ _) eqn:E; [|done].
  apply starts_with_head in E; [|done]. injection E as <-. destruct Hc; done.
Qed.

Lemma digits_numeral l : digits_ok l → Forall numeral_char l.
Proof. intros H. eapply Forall_impl; [exact H|]. intros c Hc. by left. Qed.

Lemma parse_decimal i f :
  digits_ok i → digits_ok f → length f ≤ 9 → i ≠ [] →
  parse_kanari_to_mist (i ++ str "." ++ f) = amount_result (amount i f).
Proof.
  intros Hi Hf Hlen Hne.
  assert (Hn : Forall numeral_char (i ++ str "." ++ f)).
  { apply Forall_app; split; [by apply digits_numeral|].
    apply Forall_cons. split; [by right|by apply digits_numeral]. }
  apply parse_parts; try done.
  - by apply trim_numeral.
  - left. by apply split_dot.
  - destruct i as [|c i]; [done|]. apply digit_not_minus. by apply Forall_cons in Hn as [? _].
  - by destruct i.
Qed.

Lemma parse_integer i :
  digits_ok i → i ≠ [] → parse_kanari_to_mist i = amount_result (amount i []).
Proof.
  intros Hi Hne. pose proof (digits_numeral i Hi) as Hn.
  apply parse_parts; try done.
  - by apply trim_numeral.
  - right. by rewrite split_no_dot.
  - by constructor.
  - simpl. lia.
  - destruct i as [|c i]; [done|]. apply digit_not_minus. by apply Forall_cons in Hn as [? _].
Qed.

(** ** Facts: formatting *)

Lemma trim_end_pad l :
  l = trim_end_matches 48 l ++ replicate (length l - length (trim_end_matches 48 l)) 48%Z.
Proof.
  unfold trim_end_matches. destruct (trim_start_matches_app 48 (rev l)) as [n En].
  set (t := trim_start_matches 48 (rev l)) in *. rewrite length_rev.
  assert (Hl : l = rev t ++ replicate n 48%Z).
  { rewrite <- (rev_involutive l), En, rev_app_distr. f_equal.
    clear. induction n as [|n IH]; [done|]. cbn [replicate rev].
    rewrite IH. clear. induction n as [|n IH]; [done|]. cbn [replicate app]. by rewrite IH. }
  rewrite Hl at 1. f_equal. f_equal. rewrite Hl, length_app, length_rev, length_replicate. lia.
Qed.

Lemma digits_ok_trim_end l : digits_ok l → digits_ok (trim_end_matches 48 l).
Proof.
  intros Hl. rewrite (trim_end_pad l) in Hl. by apply Forall_app in Hl as [Hl _].
Qed.

(** Trimming a nine-digit fraction does not change the amount. *)
Lemma amount_trim i f :
  length f = 9 → amount i (trim_end_matches 48 f) = dec_value (i ++ f).
Proof.
  intros Hf. unfold amount. rewrite dec_value_app. rewrite (trim_end_pad f) at 3 4.
  set (t := trim_end_matches 48 f). rewrite dec_value_app, dec_value_zeros.
  rewrite length_app, !length_replicate, Hf.
  assert (Ht : length t ≤ 9).
  { pose proof (f_equal length (trim_end_pad f)) as E. rewrite length_app, length_replicate in E. fold t in E. lia. }
  replace (length t + (9 - length t)) with 9 by lia. unfold MIST_PER_GAS. lia.
Qed.

Lemma length_trim_end l : length (trim_end_matches 48 l) ≤ length l.
Proof. pose proof (f_equal length (trim_end_pad l)) as E. rewrite length_app in E. lia. Qed.

(** A number printed as integer part and nine fraction digits parses back. *)
Lemma parse_printed i f m :
  digits_ok i → i ≠ [] → digits_ok f → length f = 9 → dec_value (i ++ f) = m →
  (0 ≤ m ≤ u64_max)%Z →
  parse_kanari_to_mist (match trim_end_matches 48 f with
    | [] => i | t => i ++ str "." ++ t end) = Ok m.
Proof.
  intros Hi Hne Hf Hl Hv Hm. pose proof (amount_trim i f Hl) as Ha.
  pose proof (digits_ok_trim_end f Hf) as Hd. pose proof (length_trim_end f).
  assert (Hok : amount_result m = Ok m).
  { unfold amount_result. by rewrite (proj2 (Z.leb_le _ _)) by lia. }
  destruct (trim_end_matches 48 f) as [|c t].
  - rewrite parse_integer by done. by rewrite Ha, Hv.
  - rewrite parse_decimal by (done || lia). by rewrite Ha, Hv.
Qed.

Lemma format_parse m :
  (0 ≤ m ≤ u64_max)%Z → parse_kanari_to_mist (format_mist_to_kanari m) = Ok m.
Proof.
  intros Hm. destruct (u64_to_string_spec m Hm) as (Hd & Hv & Hne).
  unfold format_mist_to_kanari, KANARI_DECIMALS. set (d := u64_to_string m) in *.
  destruct (Nat.leb_spec (length d) 9) as [H9|H9].
  - apply (parse_printed (str "0") (replicate (9 - length d) 48%Z ++ d)); [|done| | | |done].
    + by repeat constructor.
    + apply Forall_app; split; [by apply Forall_replicate|done].
    + rewrite length_app, length_replicate. lia.
    + rewrite !dec_value_app, dec_value_zeros, Hv. change (dec_value (str "0")) with 0%Z. lia.
  - rewrite <- (take_drop (length d - 9) d) in Hd. apply Forall_app in Hd as [Hd1 Hd2].
    apply (parse_printed (take (length d - 9) d) (drop (length d - 9) d)); try done.
    + intros E. apply (f_equal length) in E. rewrite length_take in E. simpl in E. lia.
    + rewrite length_drop. lia.
    + by rewrite take_drop.
Qed.
