(* ===== verification/Transaction.v ===== *)
(** * Transactions: [crates/kanari-types/src/transaction.rs]

    Data types, the accessors, the conflict and access keys on which scheduling
    and admission rest, the native-call fast path, the builders, and the
    signature caches of [SignedTransaction].  BCS and the signature schemes are
    third party: class [Bcs] and the section variables of [Signing]. *)

From stdpp Require Import base list gmap strings sorting.
From Stdlib Require Import ZArith Lia.
From S2P Require Import Prelude Order Hashing Text Address GasCoin.

(** ** Data *)

Inductive NativeCall :=
| NativeTransfer (coin_object_id recipient : bytes) (amount : Z)
| NativeBurn (amount : Z).

Inductive ObjectOwnerKind :=
| AddressOwner (owner : bytes)
| Shared
| Immutable.

Record ObjectRef := {
  object_id : bytes;
  version : option Z;
  ref_digest : option bytes
}.

Definition has_full_metadata (r : ObjectRef) : bool :=
  match version r, ref_digest r with Some _, Some _ => true | _, _ => false end.

Record ObjectInput := {
  object_ref : ObjectRef;
  input_owner : option ObjectOwnerKind;
  mutable : bool
}.

Record GasPayment := {
  payment_objects : list ObjectRef;
  payment_owner : bytes;
  budget : Z;
  price : Z
}.

Record PublishedModule := {
  published_name : bytes;
  published_bytes : bytes
}.

Inductive ObjectChangeKind := Created | Mutated | Deleted | Transferred.

Inductive ObjectGraphEdgeKind :=
| InputCreate | InputMutate | InputDelete | InputTransfer
| SharedInputCreate | SharedInputMutate | SharedInputDelete | SharedInputTransfer
| ImmutableInputCreate | ImmutableInputMutate | ImmutableInputDelete | ImmutableInputTransfer
| GasCreate | GasMutate | GasDelete | GasTransfer
| CallContextCreate | VersionSuccessor | EdgeDelete | OwnershipTransfer.

Record ObjectGraphEdge := {
  source_object_ref : ObjectRef;
  target_object_ref : ObjectRef;
  relation_kind : ObjectGraphEdgeKind
}.

Record ObjectChange := {
  change_type : ObjectChangeKind;
  changed_ref : ObjectRef;
  previous_object_ref : option ObjectRef;
  object_type : option bytes;
  new_owner : option ObjectOwnerKind;
  previous_owner : option ObjectOwnerKind;
  previous_version : option Z
}.

Record TransactionEffects := {
  status : bytes;
  gas_used : Z;
  effects_gas_payment : option GasPayment;
  input_objects : list ObjectRef;
  shared_inputs : list ObjectRef;
  immutable_inputs : list ObjectRef;
  gas_object_refs : list ObjectRef;
  object_changes : list ObjectChange;
  created : list ObjectChange;
  mutated : list ObjectChange;
  deleted : list ObjectChange;
  transferred : list ObjectChange;
  causal_edges : list ObjectGraphEdge;
  error_message : option bytes
}.

(** The fields every variant has. *)
Record TxCommon := {
  tx_sender : bytes;
  tx_gas_payment : option GasPayment;
  tx_gas_limit : Z;
  tx_gas_price : Z;
  tx_nonce : Z
}.

Inductive Transaction :=
| PublishModule (c : TxCommon) (module_bytes module_name : bytes)
| PublishPackage (c : TxCommon) (modules : list PublishedModule)
| UpgradeModule (c : TxCommon) (module_bytes module_name : bytes)
| UpgradePackage (c : TxCommon) (modules : list PublishedModule)
| ExecuteFunction (c : TxCommon) (module function : bytes) (type_args : list bytes)
    (args : list bytes) (object_inputs : list ObjectInput).

Definition common (tx : Transaction) : TxCommon :=
  match tx with
  | PublishModule c _ _ | PublishPackage c _ | UpgradeModule c _ _ | UpgradePackage c _ => c
  | ExecuteFunction c _ _ _ _ _ => c
  end.

(** ** BCS *)

Class Bcs := {
  (** [bcs::to_bytes] of a transaction; [None] is [Err]. *)
  bcs_transaction : Transaction → option bytes;
  bcs_u64 : Z → bytes;
  bcs_u64_from : bytes → option Z;
  (** [bcs::from_bytes::<String>] *)
  bcs_string_from : bytes → option bytes;
  bcs_u64_roundtrip : ∀ n, (0 ≤ n ≤ u64_max)%Z → bcs_u64_from (bcs_u64 n) = Some n
}.

(** ** [impl Transaction] *)

Definition sender (tx : Transaction) : bytes := tx_sender (common tx).
Definition sender_address (tx : Transaction) : bytes := sender tx.
Definition nonce (tx : Transaction) : Z := tx_nonce (common tx).
Definition gas_limit (tx : Transaction) : Z := tx_gas_limit (common tx).
Definition gas_price (tx : Transaction) : Z := tx_gas_price (common tx).
Definition gas_payment (tx : Transaction) : option GasPayment := tx_gas_payment (common tx).

Definition object_inputs (tx : Transaction) : list ObjectInput :=
  match tx with
  | ExecuteFunction _ _ _ _ _ inputs => inputs
  | _ => []
  end.

Definition requires_strict_object_metadata (tx : Transaction) : bool :=
  match tx with
  | ExecuteFunction _ _ _ _ _ _ | PublishModule _ _ _ | PublishPackage _ _
  | UpgradeModule _ _ _ | UpgradePackage _ _ => true
  end.

Definition object_key (id : bytes) : bytes := str "object:" ++ id.

(** The ids of all input and gas objects, in the order the keys are pushed. *)
Definition accessed_ids (tx : Transaction) : list bytes :=
  map (λ i, object_id (object_ref i)) (object_inputs tx)
  ++ match gas_payment tx with
     | Some g => map object_id (payment_objects g)
     | None => []
     end.

Definition object_access_keys (tx : Transaction) : list bytes :=
  sort_dedup (map object_key (accessed_ids tx)).

Definition primary_access_key (tx : Transaction) : bytes :=
  match find mutable (object_inputs tx) with
  | Some input => str "mut:object:" ++ object_id (object_ref input)
  | None =>
      match object_inputs tx with
      | input :: _ =>
          (if mutable input then str "mut" else str "ro")
          ++ str ":object:" ++ object_id (object_ref input)
      | [] =>
          match gas_payment tx with
          | Some {| payment_objects := payment :: _ |} =>
              str "mut:gas:" ++ object_id payment
          | _ => str "owner:" ++ sender tx
          end
      end
  end.

Section Calls.
Context {B3 : Blake3} {HX : Hex} {BC : Bcs}.

Definition tx_hash (tx : Transaction) : bytes :=
  hash_data_blake3_array (default [] (bcs_transaction tx)).

Definition native_call (tx : Transaction) : option NativeCall :=
  match tx with
  | ExecuteFunction _ module function _ args inputs =>
      if negb (bool_decide (module = module_path)) then None
      else if bool_decide (function = fn_transfer) && (3 <=? length args) then
        arg0 ← args !! 0;
        coin ← MoveAddress.from_bytes arg0;
        let coin_object_id := MoveAddress.to_hex_literal coin in
        if negb (existsb (λ input, mutable input &&
             match MoveAddress.from_hex_literal (object_id (object_ref input)) with
             | Some address => bool_decide (MoveAddress.to_hex_literal address = coin_object_id)
             | None => false
             end) inputs) then None
        else
        arg1 ← args !! 1;
        amount ← bcs_u64_from arg1;
        arg2 ← args !! 2;
        recipient ← MoveAddress.from_bytes arg2;
        Some (NativeTransfer coin_object_id (MoveAddress.to_hex_literal recipient) amount)
      else if bool_decide (function = fn_burn) && negb (bool_decide (args = [])) then
        arg ← last args;
        amount ← bcs_u64_from arg;
        Some (NativeBurn amount)
      else None
  | _ => None
  end.

Definition is_native_balance_call (tx : Transaction) : bool :=
  match native_call tx with Some _ => true | None => false end.

Definition required_native_amount (c : NativeCall) : Z :=
  match c with NativeTransfer _ _ amount | NativeBurn amount => amount end.

Definition native_type_label (c : NativeCall) : bytes :=
  match c with NativeTransfer _ _ _ => str "transfer" | NativeBurn _ => str "burn" end.

Definition tx_type_label (tx : Transaction) : bytes :=
  match native_call tx with
  | Some c => native_type_label c
  | None =>
      match tx with
      | PublishModule _ _ _ => str "publish_module"
      | PublishPackage _ _ => str "publish_package"
      | UpgradeModule _ _ _ => str "upgrade_module"
      | UpgradePackage _ _ => str "upgrade_package"
      | ExecuteFunction _ module function _ _ _ =>
          if bool_decide (module = module_path) && bool_decide (function = fn_transfer)
          then str "transfer"
          else if bool_decide (module = module_path) && bool_decide (function = fn_burn)
          then str "burn"
          else str "call"
      end
  end.

(** *** Conflict keys *)

Definition with_0x (s : bytes) : bytes := if starts_with (str "0x") s then s else str "0x" ++ s.

Definition sender_norm (tx : Transaction) : bytes :=
  match MoveAddress.from_hex_literal (sender tx) with
  | Some addr => MoveAddress.to_hex_literal addr
  | None => with_0x (sender tx)
  end.

(** The key one argument of a native call contributes. *)
Definition arg_key (arg : bytes) : list bytes :=
  match (if length arg =? 32 then MoveAddress.from_bytes arg else None) with
  | Some addr => [object_key (MoveAddress.to_hex_literal addr)]
  | None =>
      let parsed_string :=
        match bcs_string_from arg with
        | Some s => Some s
        | None => if utf8_valid arg then Some arg else None
        end in
      match parsed_string with
      | Some s =>
          match MoveAddress.from_hex_literal (with_0x (trim s)) with
          | Some addr => [object_key (MoveAddress.to_hex_literal addr)]
          | None => []
          end
      | None => []
      end
  end.

Definition module_key (name : bytes) : bytes := str "module:" ++ name.

(** The keys before the final match: objects, or else the owner. *)
Definition base_keys (tx : Transaction) : list bytes :=
  match object_access_keys tx with
  | [] => [str "owner:" ++ sender_norm tx]
  | keys => keys
  end.

Definition extra_keys (tx : Transaction) : list bytes :=
  match tx with
  | ExecuteFunction _ _ _ _ args _ =>
      if (length (base_keys tx) =? 1) && is_native_balance_call tx
      then flat_map arg_key args else []
  | PublishModule _ _ name | UpgradeModule _ _ name => [module_key name]
  | PublishPackage _ modules | UpgradePackage _ modules =>
      map (λ m, module_key (published_name m)) modules
  end.

Definition get_conflict_keys (tx : Transaction) : list bytes :=
  sort_dedup (base_keys tx ++ extra_keys tx).

(** *** Builders *)

Definition address_or_zero (s : bytes) : bytes :=
  default (replicate 32 0%Z) (MoveAddress.from_hex_literal s).

Definition new_transfer_with_object_ref_and_gas (from : bytes) (coin_object_ref : ObjectRef)
    (to : bytes) (amount nonce gas_limit gas_price : Z) : Transaction :=
  let coin_object_addr := address_or_zero (object_id coin_object_ref) in
  let recipient_addr := address_or_zero to in
  ExecuteFunction
    {| tx_sender := from;
       tx_gas_payment := Some {| payment_objects := [coin_object_ref]; payment_owner := from;
                                 budget := gas_limit; price := gas_price |};
       tx_gas_limit := gas_limit; tx_gas_price := gas_price; tx_nonce := nonce |}
    module_path fn_transfer [] [coin_object_addr; bcs_u64 amount; recipient_addr]
    [{| object_ref := coin_object_ref; input_owner := Some (AddressOwner from);
        mutable := true |}].

Definition new_transfer_with_gas (from coin_object_id to : bytes)
    (amount nonce gas_limit gas_price : Z) : Transaction :=
  new_transfer_with_object_ref_and_gas from
    {| object_id := coin_object_id; version := None; ref_digest := None |}
    to amount nonce gas_limit gas_price.

Definition new_transfer (from coin_object_id to : bytes) (amount nonce : Z) : Transaction :=
  new_transfer_with_gas from coin_object_id to amount nonce 100000 1000.

Definition new_transfer_with_object_ref (from : bytes) (coin_object_ref : ObjectRef)
    (to : bytes) (amount nonce : Z) : Transaction :=
  new_transfer_with_object_ref_and_gas from coin_object_ref to amount nonce 100000 1000.

Definition new_burn_with_gas (from : bytes) (amount nonce gas_limit gas_price : Z) : Transaction :=
  ExecuteFunction
    {| tx_sender := from;
       tx_gas_payment := Some {| payment_objects := []; payment_owner := from;
                                 budget := gas_limit; price := gas_price |};
       tx_gas_limit := gas_limit; tx_gas_price := gas_price; tx_nonce := nonce |}
    module_path fn_burn [] [bcs_u64 amount] [].

Definition new_burn (from : bytes) (amount nonce : Z) : Transaction :=
  new_burn_with_gas from amount nonce 100000 1000.
End Calls.

(** ** [SignedTransaction] *)

(** The two [OnceLock] caches are fields written at most once; methods on
    [&self] that fill them return the updated receiver. *)
Record SignedTransaction := {
  transaction : Transaction;
  signature : bytes;
  cached_transaction_hash : option bytes;
  cached_verified_signature : option (bytes * bytes)
}.

Record VerifiedSignedTransaction := {
  signed : SignedTransaction;
  verified_hash : bytes
}.

(** [OnceLock::set], its error ignored. *)
Definition set_once {A} (cell : option A) (a : A) : option A :=
  match cell with Some _ => cell | None => Some a end.

Section Signing.
Context {B3 : Blake3} {BC : Bcs} {curve : Type}
  (sign_message : bytes → bytes → curve → result bytes)
  (verify_signature_raw : bytes → bytes → bytes → result bool).

Definition signed_new (tx : Transaction) : SignedTransaction :=
  {| transaction := tx; signature := []; cached_transaction_hash := None;
     cached_verified_signature := None |}.

Definition transaction_hash (s : SignedTransaction) : SignedTransaction * bytes :=
  match cached_transaction_hash s with
  | Some h => (s, h)
  | None =>
      let h := tx_hash (transaction s) in
      ({| transaction := transaction s; signature := signature s;
          cached_transaction_hash := Some h;
          cached_verified_signature := cached_verified_signature s |}, h)
  end.

Definition remember_signature (h : bytes) (s : SignedTransaction) : SignedTransaction :=
  {| transaction := transaction s; signature := signature s;
     cached_transaction_hash := cached_transaction_hash s;
     cached_verified_signature := set_once (cached_verified_signature s) (h, signature s) |}.

Definition sign (private_key : bytes) (curve_type : curve) : st SignedTransaction unit := λ s,
  let '(s, h) := transaction_hash s in
  match sign_message private_key h curve_type with
  | Err _ => (s, Err "Failed to sign transaction")
  | Ok sig =>
      (remember_signature h {| transaction := transaction s; signature := sig;
         cached_transaction_hash := cached_transaction_hash s;
         cached_verified_signature := cached_verified_signature s |}, Ok tt)
  end.

(** The cache hit test. *)
Definition signature_cached (s : SignedTransaction) (current_hash : bytes) : bool :=
  match cached_verified_signature s with
  | Some (h, sig) => bool_decide (h = current_hash) && bool_decide (sig = signature s)
  | None => false
  end.

Definition verify_signature_for_hash (h : bytes) : st SignedTransaction bool := λ s,
  if bool_decide (signature s = []) then (s, Err "Transaction not signed") else
  let current_hash := tx_hash (transaction s) in
  if negb (bool_decide (h = current_hash)) then (s, Ok false)
  else if signature_cached s current_hash then (s, Ok true)
  else match verify_signature_raw (sender (transaction s)) h (signature s) with
       | Err _ => (s, Err "Signature verification failed")
       | Ok false => (s, Ok false)
       | Ok true => (remember_signature current_hash s, Ok true)
       end.

Definition verify_signature : st SignedTransaction bool := λ s,
  let '(s, h) := transaction_hash s in verify_signature_for_hash h s.

Definition verified_transaction_hash : st SignedTransaction bytes := λ s,
  if bool_decide (signature s = []) then (s, Err "Transaction not signed") else
  let current_hash := tx_hash (transaction s) in
  if signature_cached s current_hash then (s, Ok current_hash)
  else match verify_signature_raw (sender (transaction s)) current_hash (signature s) with
       | Err _ => (s, Err "Signature verification failed")
       | Ok false => (s, Err "Invalid transaction signature")
       | Ok true => (remember_signature current_hash s, Ok current_hash)
       end.

Definition into_verified (s : SignedTransaction) : result VerifiedSignedTransaction :=
  match verified_transaction_hash s with
  | (s, Ok h) => Ok {| signed := s; verified_hash := h |}
  | (_, Err e) => Err e
  end.

Definition into_signed_transaction (v : VerifiedSignedTransaction) : SignedTransaction := signed v.
End Signing.
