(* ===== verification/TypesTheorems.v ===== *)
(** * Theorems about amounts, addresses and transactions

    Round trips of the textual forms, the guarantee the conflict keys give the
    scheduler, the native-call fast path, and what a verified signature means
    when the caches of [SignedTransaction] are involved. *)

From stdpp Require Import base list gmap strings sorting.
From Stdlib Require Import ZArith Lia.
From S2P Require Import Prelude Order Hashing Text Address GasCoin Transaction.

(** ** Amounts *)

(** every amount of Mist that fits a [u64] is parsed back exactly from its
    decimal KANARI notation. *)
Theorem kanari_amount_roundtrip (mist : Z) :
  (0 ≤ mist ≤ u64_max)%Z → parse_kanari_to_mist (format_mist_to_kanari mist) = Ok mist.
Proof. apply format_parse. Qed.

(** parsing a decimal with integer digits [i] and at most nine fraction
    digits [f] is exact: it gives [i * 10^9 + f * 10^(9 - length f)] Mist, or the
    overflow error when that is no [u64]. *)
Theorem kanari_amount_exact (i f : bytes) :
  digits_ok i → i ≠ [] → digits_ok f → length f ≤ 9 →
  let v := (dec_value i * 10 ^ 9 + dec_value f * 10 ^ Z.of_nat (9 - length f))%Z in
  parse_kanari_to_mist (i ++ str "." ++ f)
  = if (v <=? u64_max)%Z then Ok v else Err "KANARI amount overflows u64".
Proof. intros Hi Hne Hf Hl v. by rewrite parse_decimal. Qed.

(** ** Addresses *)

(** both textual forms are inverted by their parsers: the Move literal,
    printed without leading zeros, for every address; the Kanari literal for
    every address but zero, which the parser refuses; a curve tag in front of a
    Kanari literal does not change the address. *)
Theorem address_roundtrip {HX : Hex} (sha3_256 to_uppercase : bytes → bytes) (a tag : bytes) :
  hash_ok a → 58%Z ∉ tag →
  MoveAddress.from_hex_literal (MoveAddress.to_hex_literal a) = Some a
  ∧ KanariAddress.from_hex_literal sha3_256 to_uppercase (KanariAddress.to_hex_literal a)
    = (if forallb (λ b, b =? 0)%Z a then KanariAddress.Failed KanariAddress.ZeroAddress
       else KanariAddress.Parsed a)
  ∧ KanariAddress.from_hex_literal sha3_256 to_uppercase
      (tag ++ str ":" ++ KanariAddress.to_hex_literal a)
    = KanariAddress.from_hex_literal sha3_256 to_uppercase (KanariAddress.to_hex_literal a).
Proof.
  intros Ha Ht. split; [by apply MoveAddress.from_to_hex_literal|].
  split; [|by apply KanariAddress.tagged_literal].
  rewrite KanariAddress.literal_roundtrip by done. unfold KanariAddress.validate_non_zero.
  by destruct (forallb _ a).
Qed.

(** ** Conflict keys *)

Section Conflicts.
Context {B3 : Blake3} {HX : Hex} {BC : Bcs}.

Lemma accessed_in_conflict_keys tx id :
  id ∈ accessed_ids tx → object_key id ∈ get_conflict_keys tx.
Proof.
  intros Hid. unfold get_conflict_keys. apply elem_of_sort_dedup, elem_of_app. left.
  assert (Hk : object_key id ∈ object_access_keys tx).
  { apply elem_of_sort_dedup, list_elem_of_fmap. eauto. }
  unfold base_keys. destruct (object_access_keys tx); [by apply not_elem_of_nil in Hk|done].
Qed.

(** the conflict keys of a transaction are sorted, without duplicates and
    never empty, and two transactions that touch one object, as an input of any
    mutability or as gas payment, have a conflict key in common. *)
Theorem shared_object_conflicts (tx1 tx2 : Transaction) :
  StronglySorted bytes_le (get_conflict_keys tx1) ∧ NoDup (get_conflict_keys tx1)
  ∧ get_conflict_keys tx1 ≠ []
  ∧ ∀ id, id ∈ accessed_ids tx1 → id ∈ accessed_ids tx2 →
      ∃ k, k ∈ get_conflict_keys tx1 ∧ k ∈ get_conflict_keys tx2.
Proof.
  split; [apply sort_dedup_sorted|]. split; [apply sort_dedup_NoDup|]. split.
  - unfold get_conflict_keys. rewrite sort_dedup_nil. unfold base_keys.
    by destruct (object_access_keys tx1).
  - intros id H1 H2. exists (object_key id). split; by apply accessed_in_conflict_keys.
Qed.

(** transactions without object inputs and gas objects are serialised by
    their sender, whatever spelling of the address they use: two literals of one
    Move address give a common conflict key. *)
Theorem same_sender_conflicts (tx1 tx2 : Transaction) (a : bytes) :
  accessed_ids tx1 = [] → accessed_ids tx2 = [] →
  MoveAddress.from_hex_literal (sender tx1) = Some a →
  MoveAddress.from_hex_literal (sender tx2) = Some a →
  ∃ k, k ∈ get_conflict_keys tx1 ∧ k ∈ get_conflict_keys tx2.
Proof.
  intros E1 E2 H1 H2. exists (str "owner:" ++ MoveAddress.to_hex_literal a).
  assert (Hk : ∀ tx, accessed_ids tx = [] → MoveAddress.from_hex_literal (sender tx) = Some a →
    str "owner:" ++ MoveAddress.to_hex_literal a ∈ get_conflict_keys tx); [|by auto].
  intros tx Ea Hs. apply elem_of_sort_dedup, elem_of_app. left.
  unfold base_keys, object_access_keys. rewrite Ea. cbn [map].
  apply list_elem_of_singleton. unfold sender_norm. by rewrite Hs.
Qed.

(** ** The native fast path *)

Lemma from_hex_literal_32 s a : MoveAddress.from_hex_literal s = Some a → length a = 32.
Proof.
  assert (Hh : ∀ h, MoveAddress.from_hex h = Some a → length a = 32).
  { intros h. unfold MoveAddress.from_hex. destruct (hex_decode h) as [b|]; [|done].
    cbn [mbind option_bind]. destruct (Nat.eqb_spec (length b) 32); [|done]. by intros [= <-]. }
  unfold MoveAddress.from_hex_literal. destruct (negb _); [done|].
  destruct (_ <? 64); apply Hh.
Qed.

Lemma from_bytes_32 a : length a = 32 → MoveAddress.from_bytes a = Some a.
Proof. intros Ha. unfold MoveAddress.from_bytes. by rewrite Ha. Qed.

(** a transfer built by [new_transfer_with_object_ref_and_gas] on a coin id
    that parses is recognised as a native transfer of that coin and amount; its
    recipient is the parsed address, or the zero address when the recipient
    string does not parse. *)
Theorem built_transfer_is_native (from to : bytes) (coin : ObjectRef) (c : bytes)
    (amount nonce gas_limit gas_price : Z) :
  MoveAddress.from_hex_literal (object_id coin) = Some c → (0 ≤ amount ≤ u64_max)%Z →
  native_call (new_transfer_with_object_ref_and_gas from coin to amount nonce gas_limit gas_price)
  = Some (NativeTransfer (MoveAddress.to_hex_literal c)
            (MoveAddress.to_hex_literal (default (replicate 32 0%Z) (MoveAddress.from_hex_literal to)))
            amount).
Proof.
  intros Hc Ha. pose proof (from_hex_literal_32 _ _ Hc) as Hlc.
  set (r := default (replicate 32 0%Z) (MoveAddress.from_hex_literal to)).
  assert (Hr : length r = 32).
  { unfold r. destruct (MoveAddress.from_hex_literal to) eqn:Er; [|done].
    by apply from_hex_literal_32 in Er. }
  unfold new_transfer_with_object_ref_and_gas, address_or_zero. rewrite Hc. fold r.
  cbn [default from_option id native_call]. rewrite !bool_decide_true by done.
  cbn [negb length Nat.leb andb]. change ([c; bcs_u64 amount; r] !! 0) with (Some c).
  change ([c; bcs_u64 amount; r] !! 1) with (Some (bcs_u64 amount)).
  change ([c; bcs_u64 amount; r] !! 2) with (Some r).
  cbn [mbind option_bind]. rewrite (from_bytes_32 c Hlc), (from_bytes_32 r Hr).
  cbn [mbind option_bind existsb mutable object_ref]. rewrite Hc, bool_decide_true by done.
  cbn [andb orb negb]. by rewrite bcs_u64_roundtrip.
Qed.

(** the fast path is fail-closed: whatever [native_call] accepts as a
    transfer names a coin that is a mutable object input of the transaction. *)
Theorem native_transfer_coin_is_mutable_input (tx : Transaction) (coin recipient : bytes)
    (amount : Z) :
  native_call tx = Some (NativeTransfer coin recipient amount) →
  ∃ input a, input ∈ object_inputs tx ∧ mutable input = true
    ∧ MoveAddress.from_hex_literal (object_id (object_ref input)) = Some a
    ∧ MoveAddress.to_hex_literal a = coin.
Proof.
  destruct tx as [| | | |c module function targs args inputs]; try done. cbn [object_inputs].
  unfold native_call. destruct (negb _); [done|]. destruct (_ && (3 <=? _)).
  2: { destruct (_ && _); [|done]. destruct (last args) as [x|]; [|done].
       cbn [mbind option_bind]. by destruct (bcs_u64_from x). }
  destruct (args !! 0) as [a0|]; [|done]. cbn [mbind option_bind].
  destruct (MoveAddress.from_bytes a0) as [coin'|]; [|done]. cbn [mbind option_bind].
  destruct (existsb _ inputs) eqn:Ex; [|done]. cbn [negb].
  destruct (args !! 1) as [a1|]; [|done]. cbn [mbind option_bind].
  destruct (bcs_u64_from a1); [|done]. cbn [mbind option_bind].
  destruct (args !! 2) as [a2|]; [|done]. cbn [mbind option_bind].
  destruct (MoveAddress.from_bytes a2); [|done]. cbn [mbind option_bind]. intros [= <- _ _].
  apply existsb_exists in Ex as (input & Hin & Hi). apply andb_true_iff in Hi as [Hm Hi].
  destruct (MoveAddress.from_hex_literal _) as [a|] eqn:Ea; [|done].
  apply bool_decide_eq_true in Hi. exists input, a.
  split; [by apply list_elem_of_In|]. done.
Qed.
End Conflicts.

(** ** Signatures *)

Section Signatures.
Context {B3 : Blake3} {BC : Bcs} {curve : Type}
  (sign_message : bytes → bytes → curve → result bytes)
  (verify_signature_raw : bytes → bytes → bytes → result bool).
Local Abbreviation into_verified := (into_verified verify_signature_raw).
Local Abbreviation verify_signature := (verify_signature verify_signature_raw).

(** The receiver with another transaction in the public field. *)
Definition tampered (s : SignedTransaction) (tx : Transaction) : SignedTransaction :=
  {| transaction := tx; signature := signature s;
     cached_transaction_hash := cached_transaction_hash s;
     cached_verified_signature := cached_verified_signature s |}.

(** a transaction received over the wire (empty caches) is accepted by
    [into_verified] exactly when it is signed and the scheme verifies the
    signature of its sender over the hash of the exact transaction; the verified
    wrapper carries that hash and that transaction. *)
Theorem wire_transaction_verified (s : SignedTransaction) (v : VerifiedSignedTransaction) :
  cached_verified_signature s = None →
  into_verified s = Ok v ↔
  signature s ≠ []
  ∧ verify_signature_raw (sender (transaction s)) (tx_hash (transaction s)) (signature s) = Ok true
  ∧ v = {| signed := remember_signature (tx_hash (transaction s)) s;
           verified_hash := tx_hash (transaction s) |}.
Proof.
  intros Hc. unfold Transaction.into_verified, verified_transaction_hash, signature_cached.
  rewrite Hc. case_bool_decide as Hs; [naive_solver|].
  destruct (verify_signature_raw _ _ _) as [[]|]; naive_solver.
Qed.

(** tampering is caught: when the transaction of a signed value is replaced
    by one with another hash, the caches are of no help: [verify_signature]
    answers [false] from the stale hash, and [into_verified] succeeds only if the
    scheme verifies the old signature over the new hash. *)
Theorem tampering_detected (s : SignedTransaction) (tx : Transaction) (h sig : bytes) :
  cached_transaction_hash s = Some h → cached_verified_signature s = Some (h, sig) →
  signature s ≠ [] → tx_hash tx ≠ h →
  (verify_signature (tampered s tx)).2 = Ok false
  ∧ (is_ok (into_verified (tampered s tx)) = true →
     verify_signature_raw (sender tx) (tx_hash tx) (signature s) = Ok true).
Proof.
  intros Hh Hv Hs Hne. split.
  - unfold Transaction.verify_signature, transaction_hash. cbn [cached_transaction_hash tampered].
    rewrite Hh. unfold verify_signature_for_hash. cbn [signature transaction tampered].
    rewrite bool_decide_false by done. by rewrite (bool_decide_false (h = _)) by congruence.
  - unfold Transaction.into_verified, verified_transaction_hash, signature_cached.
    cbn [signature transaction cached_verified_signature tampered]. rewrite Hv.
    rewrite bool_decide_false by done. rewrite (bool_decide_false (h = _)) by congruence.
    cbn [andb]. by destruct (verify_signature_raw _ _ _) as [[]|].
Qed.

(** [sign] records its own signature as verified without checking the key
    against the sender: right after signing, [verify_signature] and
    [into_verified] succeed in this process with whatever key was used and
    whatever the scheme says. *)
Theorem sign_marks_verified (s s' : SignedTransaction) (key sig : bytes) (c : curve) :
  cached_transaction_hash s = None → cached_verified_signature s = None →
  sign_message key (tx_hash (transaction s)) c = Ok sig → sig ≠ [] →
  sign sign_message key c s = (s', Ok tt) →
  (verify_signature s').2 = Ok true ∧ is_ok (into_verified s') = true
  ∧ transaction s' = transaction s ∧ signature s' = sig.
Proof.
  intros Hh Hv Hsig Hne. unfold sign, transaction_hash. rewrite Hh. cbn [transaction]. rewrite Hsig.
  intros [= <-]. unfold Transaction.verify_signature, transaction_hash, verify_signature_for_hash,
    Transaction.into_verified, verified_transaction_hash, signature_cached, remember_signature.
  cbn [transaction signature cached_transaction_hash cached_verified_signature].
  rewrite Hv. cbn [set_once]. rewrite !(bool_decide_false (sig = [])) by done.
  rewrite !bool_decide_true by done. done.
Qed.
End Signatures.

(** ** Runs *)

(** Little-endian [u64]s as in BCS; the transaction image is a stand-in with the
    sender, the nonce and the accessed ids. *)
Module RunBcs.
Fixpoint le_bytes (k : nat) (n : Z) : bytes :=
  match k with O => [] | S k => (n mod 256)%Z :: le_bytes k (n / 256) end.
Fixpoint le_value (l : bytes) : Z :=
  match l with [] => 0%Z | b :: l => (b + 256 * le_value l)%Z end.

Lemma le_roundtrip k n : (0 ≤ n < 256 ^ Z.of_nat k)%Z → le_value (le_bytes k n) = n.
Proof.
  revert n. induction k as [|k IH]; intros n Hn; [simpl in *; lia|].
  rewrite Nat2Z.inj_succ, Z.pow_succ_r in Hn by lia. cbn [le_bytes le_value].
  rewrite IH; [pose proof (Z.div_mod n 256); lia|].
  split; [apply Z.div_pos; lia|apply Z.div_lt_upper_bound; lia].
Qed.

#[export] Program Instance run_bcs : Bcs := {|
  bcs_transaction tx := Some (sender tx ++ [nonce tx] ++ concat (accessed_ids tx));
  bcs_u64 n := le_bytes 8 n;
  bcs_u64_from l := if length l =? 8 then Some (le_value l) else None;
  bcs_string_from l := None
|}.
Next Obligation.
  intros n Hn. cbn [le_bytes length Nat.eqb]. f_equal. apply (le_roundtrip 8).
  unfold u64_max in Hn. lia.
Qed.
End RunBcs.

Module Runs.
Import ToyHash RealHex RunBcs.

Lemma kanari_amount_roundtrip_witness :
  parse_kanari_to_mist (format_mist_to_kanari 12500000000) = Ok 12500000000%Z.
Proof. apply kanari_amount_roundtrip. unfold u64_max. lia. Defined.

Lemma kanari_amount_exact_witness :
  parse_kanari_to_mist (str "12.5") = Ok 12500000000%Z.
Proof.
  apply (kanari_amount_exact (str "12") (str "5"));
    [by repeat constructor|done|by repeat constructor|simpl; lia].
Defined.

Definition two : bytes := replicate 31 0%Z ++ [2%Z].

Lemma two_ok : hash_ok two.
Proof. split; [done|]. repeat constructor; lia. Qed.

Lemma address_roundtrip_witness :
  MoveAddress.from_hex_literal (str "0x2") = Some two.
Proof.
  refine (proj1 (address_roundtrip (λ b, b) (λ b, b) two (str "Dilithium3") two_ok _)).
  apply (bool_decide_unpack _). by vm_compute.
Defined.

Definition coin : ObjectRef := {| object_id := str "0xc0"; version := None; ref_digest := None |}.
Definition transfer : Transaction :=
  new_transfer_with_object_ref_and_gas (str "0xa1") coin (str "0xb2") 7 1 100000 1000.

Lemma same_sender_conflicts_witness :
  ∃ k, k ∈ get_conflict_keys (new_burn (str "0x2") 5 0)
       ∧ k ∈ get_conflict_keys (new_burn (str "0x02") 6 1).
Proof. apply (same_sender_conflicts _ _ two); by vm_compute. Defined.

Lemma built_transfer_is_native_witness :
  native_call transfer = Some (NativeTransfer (str "0xc0") (str "0xb2") 7).
Proof.
  assert (Ha : (0 ≤ 7 ≤ u64_max)%Z) by (unfold u64_max; lia).
  assert (Hc : MoveAddress.from_hex_literal (object_id coin) = Some (replicate 31 0%Z ++ [192%Z]))
    by by vm_compute.
  etransitivity; [exact (built_transfer_is_native (str "0xa1") (str "0xb2") coin _ 7 1 100000 1000 Hc Ha)|].
  by vm_compute.
Defined.

Lemma native_transfer_coin_is_mutable_input_witness :
  ∃ input a, input ∈ object_inputs transfer ∧ mutable input = true
    ∧ MoveAddress.from_hex_literal (object_id (object_ref input)) = Some a
    ∧ MoveAddress.to_hex_literal a = str "0xc0".
Proof.
  apply (native_transfer_coin_is_mutable_input transfer (str "0xc0") (str "0xb2") 7).
  by vm_compute.
Defined.

(** A scheme for the runs: the signature is the key, and verifies for the sender
    with that name. *)
Definition run_sign (key h : bytes) (c : unit) : result bytes := Ok key.
Definition run_verify (who h sig : bytes) : result bool := Ok (bool_decide (who = sig)).

Definition wire : SignedTransaction :=
  {| transaction := transfer; signature := str "0xa1"; cached_transaction_hash := None;
     cached_verified_signature := None |}.

Lemma wire_transaction_verified_witness :
  into_verified run_verify wire
  = Ok {| signed := remember_signature (tx_hash transfer) wire; verified_hash := tx_hash transfer |}.
Proof.
  apply (wire_transaction_verified run_verify wire); [done|]. split; [done|]. split; [|done].
  by vm_compute.
Defined.

Definition signed_run : SignedTransaction := (sign run_sign (str "0xa1") tt (signed_new transfer)).1.
Definition other : Transaction :=
  new_transfer_with_object_ref_and_gas (str "0xee") coin (str "0xb2") 7 1 100000 1000.

Lemma tampering_detected_witness :
  (verify_signature run_verify (tampered signed_run other)).2 = Ok false
  ∧ (is_ok (into_verified run_verify (tampered signed_run other)) = true →
     run_verify (str "0xee") (tx_hash other) (str "0xa1") = Ok true).
Proof.
  apply (tampering_detected run_verify signed_run other (tx_hash transfer) (str "0xa1"));
    [done..|]. intros E. apply (f_equal (λ h, nth 0 h 0%Z)) in E. vm_compute in E. discriminate E.
Defined.

Lemma sign_marks_verified_witness :
  let s' := (sign run_sign (str "0xee") tt (signed_new transfer)).1 in
  (verify_signature run_verify s').2 = Ok true ∧ is_ok (into_verified run_verify s') = true
  ∧ transaction s' = transfer ∧ signature s' = str "0xee".
Proof.
  apply (sign_marks_verified run_sign run_verify (signed_new transfer) _ (str "0xee") (str "0xee") tt);
    done.
Defined.
End Runs.
