(* ===== verification/Blockchain.v ===== *)
(** * The checkpoint chain: [crates/kanari-core/src/blockchain.rs] and
    [crates/kanari-core/src/consensus.rs]

    Checkpoints and their versioned hash, and the in-memory chain with its
    bounded window of checkpoints and of executed transaction hashes.  A panic
    ([KanariUnwrapExt::invariant] on an empty chain) is an [Err] here. *)

From stdpp Require Import base list gmap strings sorting.
From Stdlib Require Import ZArith Lia.
From S2P Require Import Prelude Hashing SmtSpec Transaction.

(** ** [Checkpoint] *)

Record Checkpoint := {
  sequence : Z;
  vertices : list bytes;
  transactions : list SignedTransaction;
  transaction_effects : list TransactionEffects;
  checkpoint_changes : list ObjectChange;
  object_graph_edges : list ObjectGraphEdge;
  state_root : bytes;
  timestamp : Z;
  prev_checkpoint_hash : bytes;
  hash_version : Z
}.

(** The three tuples serialised by [Checkpoint::hash]. *)
Inductive checkpoint_image :=
| ImageV0 (sequence : Z) (tx_hashes : list bytes) (state_root prev : bytes)
| ImageV1 (hash_version sequence : Z) (vertices tx_hashes : list bytes)
    (effects : list TransactionEffects) (changes : list ObjectChange)
    (edges : list ObjectGraphEdge) (state_root : bytes) (timestamp : Z) (prev : bytes)
| ImageV2 (hash_version sequence : Z) (vertices tx_hashes : list bytes)
    (effects : list TransactionEffects) (state_root : bytes) (timestamp : Z) (prev : bytes).

Class BcsCheckpoint := bcs_checkpoint : checkpoint_image → result bytes.

Section Checkpoints.
Context {B3 : Blake3} {BC : Bcs} {BK : BcsCheckpoint}.

(** [tx.transaction_hash().to_vec()]; filling the cache is not observable here. *)
Definition hash_of (tx : SignedTransaction) : bytes := (transaction_hash tx).2.

Definition tx_hashes (c : Checkpoint) : list bytes := map hash_of (transactions c).

Definition checkpoint_new (sequence : Z) (vertices : list bytes)
    (transactions : list SignedTransaction) (state_root : bytes) (timestamp : Z)
    (prev_checkpoint_hash : bytes) : Checkpoint :=
  {| sequence := sequence; vertices := vertices; transactions := transactions;
     transaction_effects := []; checkpoint_changes := []; object_graph_edges := [];
     state_root := state_root; timestamp := timestamp;
     prev_checkpoint_hash := prev_checkpoint_hash; hash_version := 2 |}.

Definition with_transaction_effects (effects : list TransactionEffects) (c : Checkpoint) :
    Checkpoint :=
  {| sequence := sequence c; vertices := vertices c; transactions := transactions c;
     transaction_effects := effects; checkpoint_changes := checkpoint_changes c;
     object_graph_edges := object_graph_edges c; state_root := state_root c;
     timestamp := timestamp c; prev_checkpoint_hash := prev_checkpoint_hash c;
     hash_version := hash_version c |}.

Definition with_object_changes (changes : list ObjectChange) (c : Checkpoint) : Checkpoint :=
  {| sequence := sequence c; vertices := vertices c; transactions := transactions c;
     transaction_effects := transaction_effects c; checkpoint_changes := changes;
     object_graph_edges := object_graph_edges c; state_root := state_root c;
     timestamp := timestamp c; prev_checkpoint_hash := prev_checkpoint_hash c;
     hash_version := hash_version c |}.

Definition with_object_graph_edges (edges : list ObjectGraphEdge) (c : Checkpoint) : Checkpoint :=
  {| sequence := sequence c; vertices := vertices c; transactions := transactions c;
     transaction_effects := transaction_effects c; checkpoint_changes := checkpoint_changes c;
     object_graph_edges := edges; state_root := state_root c;
     timestamp := timestamp c; prev_checkpoint_hash := prev_checkpoint_hash c;
     hash_version := hash_version c |}.

Definition checkpoint_image_of (c : Checkpoint) : checkpoint_image :=
  if (hash_version c =? 0)%Z then
    ImageV0 (sequence c) (tx_hashes c) (state_root c) (prev_checkpoint_hash c)
  else if (hash_version c =? 1)%Z then
    ImageV1 (hash_version c) (sequence c) (vertices c) (tx_hashes c) (transaction_effects c)
      (checkpoint_changes c) (object_graph_edges c) (state_root c) (timestamp c)
      (prev_checkpoint_hash c)
  else
    ImageV2 (hash_version c) (sequence c) (vertices c) (tx_hashes c) (transaction_effects c)
      (state_root c) (timestamp c) (prev_checkpoint_hash c).

Definition checkpoint_hash (c : Checkpoint) : result bytes :=
  let? serialized := bcs_checkpoint (checkpoint_image_of c) in
  Ok (hash_data_blake3_array serialized).

Definition genesis : Checkpoint :=
  {| sequence := 0; vertices := []; transactions := []; transaction_effects := [];
     checkpoint_changes := []; object_graph_edges := []; state_root := nth 0 DEFAULT_HASHES [];
     timestamp := 0; prev_checkpoint_hash := replicate 32 0%Z; hash_version := 0 |}.
End Checkpoints.

(** ** [Blockchain] *)

Definition MAX_RETAINED_BLOCKS : nat := 1000.
Definition MAX_RETAINED_TX_HASHES : Z := 2000000.

Record Blockchain := {
  dag_checkpoints : list Checkpoint;
  executed_tx_hashes : gset bytes;
  tx_hash_queue : list bytes;
  tx_location_index : gmap bytes (Z * nat);
  total_transaction_count : Z
}.

Definition set_dag (d : list Checkpoint) (bc : Blockchain) : Blockchain :=
  {| dag_checkpoints := d; executed_tx_hashes := executed_tx_hashes bc;
     tx_hash_queue := tx_hash_queue bc; tx_location_index := tx_location_index bc;
     total_transaction_count := total_transaction_count bc |}.
Definition set_locations (l : gmap bytes (Z * nat)) (bc : Blockchain) : Blockchain :=
  {| dag_checkpoints := dag_checkpoints bc; executed_tx_hashes := executed_tx_hashes bc;
     tx_hash_queue := tx_hash_queue bc; tx_location_index := l;
     total_transaction_count := total_transaction_count bc |}.

Section Chain.
Context {B3 : Blake3} {BC : Bcs} {BK : BcsCheckpoint}.

Definition blockchain_new : Blockchain :=
  {| dag_checkpoints := [genesis]; executed_tx_hashes := ∅; tx_hash_queue := [];
     tx_location_index := ∅; total_transaction_count := 0 |}.

(** [None] is the panic of [invariant]. *)
Definition latest_checkpoint (bc : Blockchain) : option Checkpoint := last (dag_checkpoints bc).
Definition height (bc : Blockchain) : option Z := sequence <$> latest_checkpoint bc.

Definition is_transaction_hash_executed (bc : Blockchain) (h : bytes) : bool :=
  bool_decide (h ∈ executed_tx_hashes bc).

(** [self.dag_checkpoints.remove(1)] *)
Definition remove_second (l : list Checkpoint) : option Checkpoint * list Checkpoint :=
  match l with
  | a :: b :: r => (Some b, a :: r)
  | _ => (None, l)
  end.

(** [while len > MAX_RETAINED_BLOCKS { remove(1) }]; each round drops one. *)
Fixpoint trim_blocks (fuel : nat) (l : list Checkpoint) : list Checkpoint :=
  match fuel with
  | O => l
  | S fuel =>
      if MAX_RETAINED_BLOCKS <? length l then trim_blocks fuel (remove_second l).2 else l
  end.

Definition ensure_genesis_retained (bc : Blockchain) : Blockchain * bool :=
  match dag_checkpoints bc with
  | c :: _ =>
      if (sequence c =? 0)%Z then (bc, false)
      else let d := genesis :: dag_checkpoints bc in
           (set_dag (trim_blocks (length d) d) bc, true)
  | [] => (set_dag [genesis] bc, true)
  end.

Definition retained_transaction_count (bc : Blockchain) : Z :=
  Z.of_nat (list_sum (map (λ c, length (transactions c)) (dag_checkpoints bc))).

(** The body of the loops over [transactions.iter().enumerate()]. *)
Definition track_tx (seq : Z) (bc : Blockchain) (e : nat * bytes) : Blockchain :=
  let '(index, hash) := e in
  let fresh := negb (is_transaction_hash_executed bc hash) in
  {| dag_checkpoints := dag_checkpoints bc;
     executed_tx_hashes := {[hash]} ∪ executed_tx_hashes bc;
     tx_hash_queue := if fresh then tx_hash_queue bc ++ [hash] else tx_hash_queue bc;
     tx_location_index := <[hash := (seq, index)]> (tx_location_index bc);
     total_transaction_count :=
       if fresh then saturating_add (total_transaction_count bc) 1
       else total_transaction_count bc |}.

(** [while self.tx_hash_queue.len() > MAX_RETAINED_TX_HASHES { pop_front .. }] *)
Fixpoint evict_hashes (queue : list bytes) (executed : gset bytes)
    (locations : gmap bytes (Z * nat)) : list bytes * gset bytes * gmap bytes (Z * nat) :=
  match queue with
  | old_hash :: rest =>
      if (MAX_RETAINED_TX_HASHES <? Z.of_nat (length queue))%Z
      then evict_hashes rest (executed ∖ {[old_hash]}) (delete old_hash locations)
      else (queue, executed, locations)
  | [] => (queue, executed, locations)
  end.

Definition evict (bc : Blockchain) : Blockchain :=
  let '(queue, executed, locations) :=
    evict_hashes (tx_hash_queue bc) (executed_tx_hashes bc) (tx_location_index bc) in
  {| dag_checkpoints := dag_checkpoints bc; executed_tx_hashes := executed;
     tx_hash_queue := queue; tx_location_index := locations;
     total_transaction_count := total_transaction_count bc |}.

Definition enumerate_hashes (c : Checkpoint) : list (nat * bytes) :=
  imap (λ i h, (i, h)) (tx_hashes c).

Definition track_checkpoint_transactions (bc : Blockchain) (c : Checkpoint) : Blockchain :=
  evict (fold_left (track_tx (sequence c)) (enumerate_hashes c) bc).

Definition rebuild_tx_hash_index (bc : Blockchain) : Blockchain :=
  let persisted_total := total_transaction_count bc in
  let start := {| dag_checkpoints := dag_checkpoints bc; executed_tx_hashes := ∅;
                  tx_hash_queue := []; tx_location_index := ∅; total_transaction_count := 0 |} in
  let bc := fold_left
    (λ bc c, fold_left (λ bc e, evict (track_tx (sequence c) bc e)) (enumerate_hashes c) bc)
    (dag_checkpoints bc) start in
  {| dag_checkpoints := dag_checkpoints bc; executed_tx_hashes := executed_tx_hashes bc;
     tx_hash_queue := tx_hash_queue bc; tx_location_index := tx_location_index bc;
     total_transaction_count := Z.max (total_transaction_count bc) persisted_total |}.

(** The loop over the checkpoint's transactions with [seen_txs]. *)
Fixpoint check_replays (executed seen : gset bytes) (hashes : list bytes) : result unit :=
  match hashes with
  | [] => Ok tt
  | h :: hashes =>
      if bool_decide (h ∈ seen) then Err "Duplicate transaction found within checkpoint"
      else if bool_decide (h ∈ executed) then
        Err "Replay attack detected: Transaction already executed"
      else check_replays executed ({[h]} ∪ seen) hashes
  end.

(** The block under [if validate].  [sequence + 1] overflows only after
    [2^64] checkpoints. *)
Definition validate_checkpoint (bc : Blockchain) (c : Checkpoint) : result unit :=
  match latest_checkpoint bc with
  | None => Err "blockchain must contain at least the genesis checkpoint"
  | Some latest =>
      if negb (sequence c =? sequence latest + 1)%Z then Err "Invalid checkpoint sequence" else
      let? latest_hash := checkpoint_hash latest in
      if negb (bool_decide (prev_checkpoint_hash c = latest_hash)) then
        Err "Invalid previous checkpoint hash"
      else check_replays (executed_tx_hashes bc) ∅ (tx_hashes c)
  end.

Definition drop_locations (hashes : list bytes) (l : gmap bytes (Z * nat)) : gmap bytes (Z * nat) :=
  fold_left (λ l h, delete h l) hashes l.

(** The part after validation. *)
Definition append_checkpoint (bc : Blockchain) (c : Checkpoint) : Blockchain :=
  let bc := track_checkpoint_transactions bc c in
  let dag := dag_checkpoints bc ++ [c] in
  if MAX_RETAINED_BLOCKS <? length dag then
    match remove_second dag with
    | (Some evicted, dag) =>
        set_dag dag (set_locations (drop_locations (tx_hashes evicted) (tx_location_index bc)) bc)
    | (None, dag) => set_dag dag bc
    end
  else set_dag dag bc.

Definition add_checkpoint_with_validation (c : Checkpoint) (validate : bool) :
    st Blockchain unit := λ bc,
  match (if validate then validate_checkpoint bc c else Ok tt) with
  | Err e => (bc, Err e)
  | Ok _ => (append_checkpoint bc c, Ok tt)
  end.

Definition get_checkpoint (bc : Blockchain) (seq : Z) : option Checkpoint :=
  find (λ c, sequence c =? seq)%Z (dag_checkpoints bc).

Definition get_transaction_count (bc : Blockchain) : Z :=
  Z.max (Z.max (total_transaction_count bc) (Z.of_nat (size (tx_location_index bc))))
    (retained_transaction_count bc).

Definition location : Type := SignedTransaction * Z * bytes * option TransactionEffects.

Definition location_in (c : Checkpoint) (index : nat) : option location :=
  tx ← transactions c !! index;
  Some (tx, sequence c, state_root c, transaction_effects c !! index).

(** [transactions.iter().enumerate().find(|(_, tx)| tx.transaction_hash() == h)] *)
Fixpoint find_index (h : bytes) (hashes : list bytes) : option nat :=
  match hashes with
  | [] => None
  | h' :: hashes => if decide (h' = h) then Some 0 else S <$> find_index h hashes
  end.

Fixpoint find_in_dag (h : bytes) (cs : list Checkpoint) : option location :=
  match cs with
  | [] => None
  | c :: cs =>
      match find_index h (tx_hashes c) with
      | Some index => location_in c index
      | None => find_in_dag h cs
      end
  end.

Definition get_transaction_location_with_effect (bc : Blockchain) (h : bytes) :
    option location :=
  let indexed :=
    '(seq, index) ← tx_location_index bc !! h;
    c ← get_checkpoint bc seq;
    location_in c index in
  match indexed with
  | Some loc => Some loc
  | None => find_in_dag h (rev (dag_checkpoints bc))
  end.
End Chain.
