(* ===== verification/BlockchainTheorems.v ===== *)
(** * Theorems about the checkpoint chain

    The invariant of [Blockchain] along every sequence of validated additions,
    replay protection and its window, transaction lookup, the lifetime
    transaction count, and what a restart ([rebuild_tx_hash_index]) keeps. *)

From stdpp Require Import base list gmap strings sorting.
From Stdlib Require Import ZArith Lia.
From S2P Require Import Prelude Hashing Text Transaction TypesTheorems Blockchain.

(** ** The window of executed hashes *)

Definition overflow (queue : list bytes) : nat :=
  Z.to_nat (Z.of_nat (length queue) - MAX_RETAINED_TX_HASHES).

Lemma overflow_cons_small h q :
  (Z.of_nat (length (h :: q)) ≤ MAX_RETAINED_TX_HASHES)%Z → overflow (h :: q) = 0.
Proof. unfold overflow. lia. Qed.

Lemma overflow_cons_big h q :
  (MAX_RETAINED_TX_HASHES < Z.of_nat (length (h :: q)))%Z → overflow (h :: q) = S (overflow q).
Proof. unfold overflow. cbn [length]. unfold MAX_RETAINED_TX_HASHES. lia. Qed.

Lemma evict_hashes_spec queue executed locations :
  NoDup queue → executed = list_to_set queue →
  let '(queue', executed', locations') := evict_hashes queue executed locations in
  queue' = drop (overflow queue) queue ∧ executed' = list_to_set queue'
  ∧ (∀ h v, locations' !! h = Some v → locations !! h = Some v)
  ∧ ((Z.of_nat (length queue) ≤ MAX_RETAINED_TX_HASHES)%Z → locations' = locations).
Proof.
  revert executed locations. induction queue as [|h q IH]; intros executed locations Hnd Hex.
  { cbn [evict_hashes]. subst. done. }
  cbn [evict_hashes]. apply NoDup_cons in Hnd as [Hni Hnd].
  destruct (Z.ltb_spec MAX_RETAINED_TX_HASHES (Z.of_nat (length (h :: q)))) as [Hb|Hs].
  - specialize (IH (executed ∖ {[h]}) (delete h locations) Hnd).
    destruct (evict_hashes q _ _) as [[queue' executed'] locations'].
    destruct IH as (-> & -> & Hl & _).
    { subst executed. apply set_eq. intros x. rewrite list_to_set_cons, elem_of_difference,
        elem_of_union, elem_of_singleton, elem_of_list_to_set. naive_solver. }
    rewrite overflow_cons_big by done. cbn [drop]. split; [done|]. split; [done|].
    split; [|lia]. intros h' v Hv. apply Hl in Hv. by apply lookup_delete_Some in Hv as [_ Hv].
  - rewrite overflow_cons_small by done. done.
Qed.

(** The index fields agree: the set is the queue's, which has no duplicates. *)
Definition index_ok (bc : Blockchain) : Prop :=
  NoDup (tx_hash_queue bc) ∧ executed_tx_hashes bc = list_to_set (tx_hash_queue bc).

Lemma track_tx_index seq bc e : index_ok bc → index_ok (track_tx seq bc e).
Proof.
  destruct e as [i h]. intros [Hnd Hex]. unfold track_tx, is_transaction_hash_executed, index_ok.
  case_bool_decide as Hh; cbn [negb tx_hash_queue executed_tx_hashes]; rewrite Hex in *.
  - split; [done|]. apply subseteq_union_1_L. intros x ->%elem_of_singleton. done.
  - rewrite elem_of_list_to_set in Hh. split.
    + apply NoDup_app. split; [done|]. split; [|apply NoDup_singleton].
      intros x Hx ->%list_elem_of_singleton. done.
    + rewrite list_to_set_app_L, list_to_set_singleton_L. apply (comm_L (∪)).
Qed.

Lemma track_fold_index seq es bc : index_ok bc → index_ok (fold_left (track_tx seq) es bc).
Proof.
  revert bc. induction es as [|e es IH]; intros bc Hbc; [done|]. cbn [fold_left].
  by apply IH, track_tx_index.
Qed.

Lemma evict_index bc :
  index_ok bc →
  index_ok (evict bc) ∧ tx_hash_queue (evict bc) = drop (overflow (tx_hash_queue bc)) (tx_hash_queue bc).
Proof.
  intros [Hnd Hex]. unfold evict, index_ok.
  pose proof (evict_hashes_spec (tx_hash_queue bc) _ (tx_location_index bc) Hnd Hex) as Hs.
  destruct (evict_hashes _ _ _) as [[q ex] l]. destruct Hs as (-> & -> & _).
  cbn [tx_hash_queue executed_tx_hashes]. split; [|done]. split; [|done].
  rewrite <- (take_drop (overflow (tx_hash_queue bc)) (tx_hash_queue bc)) in Hnd.
  by apply NoDup_app in Hnd as (_ & _ & ?).
Qed.

Lemma overflow_bound q : (Z.of_nat (length (drop (overflow q) q)) ≤ MAX_RETAINED_TX_HASHES)%Z.
Proof. rewrite length_drop. unfold overflow, MAX_RETAINED_TX_HASHES. lia. Qed.

(** *** Tracking fresh hashes *)

Section Track.
Context {B3 : Blake3} {BC : Bcs} {BK : BcsCheckpoint}.

Lemma track_fold_fields seq es bc :
  dag_checkpoints (fold_left (track_tx seq) es bc) = dag_checkpoints bc
  ∧ executed_tx_hashes (fold_left (track_tx seq) es bc)
    = list_to_set (map snd es) ∪ executed_tx_hashes bc.
Proof.
  revert bc. induction es as [|[i h] es IH]; intros bc.
  - split; [done|]. symmetry. apply (left_id_L ∅ (∪)).
  - cbn [fold_left]. destruct (IH (track_tx seq bc (i, h))) as [-> ->]. split; [done|].
    cbn [track_tx executed_tx_hashes map snd]. rewrite list_to_set_cons. set_solver.
Qed.

(** On distinct hashes not executed before, the queue grows by all of them. *)
Lemma track_fold_fresh seq es bc :
  NoDup (map snd es) → (∀ h, h ∈ map snd es → h ∉ executed_tx_hashes bc) →
  tx_hash_queue (fold_left (track_tx seq) es bc) = tx_hash_queue bc ++ map snd es
  ∧ (0 ≤ total_transaction_count bc ≤ u64_max →
     total_transaction_count (fold_left (track_tx seq) es bc)
     = Z.min (total_transaction_count bc + Z.of_nat (length es)) u64_max)%Z.
Proof.
  revert bc. induction es as [|[i h] es IH]; intros bc Hnd Hf.
  - cbn [fold_left map]. rewrite app_nil_r. split; [done|]. simpl. lia.
  - cbn [map snd] in *. apply NoDup_cons in Hnd as [Hni Hnd]. cbn [fold_left].
    assert (Hh : is_transaction_hash_executed bc h = false).
    { apply bool_decide_false. apply Hf. by left. }
    destruct (IH (track_tx seq bc (i, h)) Hnd) as [IHq IHt].
    { intros h' Hin. cbn [track_tx executed_tx_hashes]. rewrite not_elem_of_union, not_elem_of_singleton.
      split; [by intros ->|]. apply Hf. by right. }
    cbn [track_tx tx_hash_queue total_transaction_count] in *. rewrite Hh in *. cbn [negb] in *.
    split; [by rewrite IHq, <- app_assoc|]. intros Hb. unfold saturating_add in *.
    cbn [length]. rewrite IHt by lia. lia.
Qed.

Lemma enumerate_snd c : map snd (enumerate_hashes c) = tx_hashes c.
Proof.
  unfold enumerate_hashes. generalize (tx_hashes c). intros l.
  change (map snd (imap (λ i h, (i, h)) l)) with (snd <$> imap (λ i h, (i, h)) l).
  rewrite fmap_imap. unfold compose. cbn [snd]. clear.
  induction l as [|h l IH]; [done|]. rewrite imap_cons. f_equal. exact IH.
Qed.

Lemma length_enumerate c : length (enumerate_hashes c) = length (transactions c).
Proof. unfold enumerate_hashes, tx_hashes. by rewrite length_imap, length_map. Qed.

(** *** Locations *)

Lemma track_fold_locations seq es bc h v :
  tx_location_index (fold_left (track_tx seq) es bc) !! h = Some v →
  tx_location_index bc !! h = Some v ∨ ∃ i, (i, h) ∈ es ∧ v = (seq, i).
Proof.
  revert bc. induction es as [|[i h'] es IH]; intros bc Hv; [by left|].
  cbn [fold_left] in Hv. apply IH in Hv as [Hv|(i' & Hi & ->)].
  - cbn [track_tx tx_location_index] in Hv. rewrite lookup_insert in Hv. case_decide as E.
    + subst. injection Hv as <-. right. exists i. split; [by left|done].
    + by left.
  - right. exists i'. split; [by right|done].
Qed.

Lemma elem_of_enumerate i h c : (i, h) ∈ enumerate_hashes c → tx_hashes c !! i = Some h.
Proof.
  unfold enumerate_hashes. intros Hin. apply elem_of_lookup_imap in Hin as (i' & h' & E & Hl).
  by injection E as -> ->.
Qed.

Lemma evict_locations bc h v :
  index_ok bc → tx_location_index (evict bc) !! h = Some v → tx_location_index bc !! h = Some v.
Proof.
  intros [Hnd Hex]. unfold evict.
  pose proof (evict_hashes_spec (tx_hash_queue bc) _ (tx_location_index bc) Hnd Hex) as Hs.
  destruct (evict_hashes _ _ _) as [[q ex] l]. destruct Hs as (_ & _ & Hl & _). apply Hl.
Qed.

Lemma evict_fields bc :
  dag_checkpoints (evict bc) = dag_checkpoints bc
  ∧ total_transaction_count (evict bc) = total_transaction_count bc.
Proof. unfold evict. by destruct (evict_hashes _ _ _) as [[q ex] l]. Qed.

Lemma drop_locations_lookup hs l h v :
  drop_locations hs l !! h = Some v → l !! h = Some v.
Proof.
  unfold drop_locations. revert l. induction hs as [|h' hs IH]; intros l Hv; [done|].
  cbn [fold_left] in Hv. apply IH, lookup_delete_Some in Hv as [_ Hv]. done.
Qed.

(** What eviction and dropping leave of the locations. *)
Lemma evict_hashes_keeps queue executed locations h :
  h ∉ take (overflow queue) queue → (evict_hashes queue executed locations).2 !! h = locations !! h.
Proof.
  revert executed locations. induction queue as [|h' q IH]; intros executed locations Hh; [done|].
  cbn [evict_hashes]. destruct (Z.ltb_spec MAX_RETAINED_TX_HASHES (Z.of_nat (length (h' :: q)))) as [Hb|Hs]; [|done].
  rewrite overflow_cons_big in Hh by done. cbn [take] in Hh. apply not_elem_of_cons in Hh as [Hne Hh].
  rewrite IH by done. by rewrite lookup_delete_ne.
Qed.

Lemma drop_locations_keeps hs l h : h ∉ hs → drop_locations hs l !! h = l !! h.
Proof.
  unfold drop_locations. revert l. induction hs as [|h' hs IH]; intros l Hh; [done|].
  apply not_elem_of_cons in Hh as [Hne Hh]. cbn [fold_left]. rewrite IH by done.
  by rewrite lookup_delete_ne.
Qed.

Lemma track_fold_other seq es bc h :
  h ∉ map snd es → tx_location_index (fold_left (track_tx seq) es bc) !! h = tx_location_index bc !! h.
Proof.
  revert bc. induction es as [|[i h'] es IH]; intros bc Hh; [done|]. cbn [map snd] in Hh.
  apply not_elem_of_cons in Hh as [Hne Hh]. cbn [fold_left]. rewrite IH by done.
  cbn [track_tx tx_location_index]. by rewrite lookup_insert_ne.
Qed.

Lemma track_fold_located seq es bc i h :
  NoDup (map snd es) → (i, h) ∈ es →
  tx_location_index (fold_left (track_tx seq) es bc) !! h = Some (seq, i).
Proof.
  revert bc. induction es as [|[i' h'] es IH]; intros bc Hnd Hin; [by apply elem_of_nil in Hin|].
  cbn [map snd] in Hnd. apply NoDup_cons in Hnd as [Hni Hnd]. cbn [fold_left].
  apply elem_of_cons in Hin as [[= <- <-]|Hin]; [|by apply IH].
  rewrite track_fold_other by done. cbn [track_tx tx_location_index]. apply lookup_insert_eq.
Qed.

Lemma enumerate_elem i h c : tx_hashes c !! i = Some h → (i, h) ∈ enumerate_hashes c.
Proof. unfold enumerate_hashes. intros Hl. apply elem_of_lookup_imap. by exists i, h. Qed.

(** The location of a hash that stays in the queue, and whose checkpoint stays
    in the window, is the one tracking has recorded. *)
Lemma append_located bc c h :
  index_ok bc → h ∈ tx_hash_queue (track_checkpoint_transactions bc c) →
  (∀ e, (remove_second (dag_checkpoints bc ++ [c])).1 = Some e →
     MAX_RETAINED_BLOCKS < length (dag_checkpoints bc ++ [c]) → h ∉ tx_hashes e) →
  tx_location_index (append_checkpoint bc c) !! h
  = tx_location_index (fold_left (track_tx (sequence c)) (enumerate_hashes c) bc) !! h.
Proof.
  intros Hi Hq He. set (bc1 := fold_left _ _ bc) in *.
  assert (Hi1 : index_ok bc1) by (by apply track_fold_index).
  assert (Ht : tx_location_index (track_checkpoint_transactions bc c) !! h = tx_location_index bc1 !! h).
  { unfold track_checkpoint_transactions in Hq |- *. fold bc1 in Hq |- *.
    rewrite (proj2 (evict_index bc1 Hi1)) in Hq. unfold evict.
    pose proof (evict_hashes_keeps (tx_hash_queue bc1) (executed_tx_hashes bc1) (tx_location_index bc1) h) as Hk.
    destruct (evict_hashes _ _ _) as [[q ex] l]. apply Hk. intros Ht. destruct Hi1 as [Hnd _].
    rewrite <- (take_drop (overflow (tx_hash_queue bc1)) (tx_hash_queue bc1)) in Hnd.
    apply NoDup_app in Hnd as (_ & Hnd & _). by apply (Hnd h). }
  assert (Ed : dag_checkpoints (track_checkpoint_transactions bc c) = dag_checkpoints bc).
  { unfold track_checkpoint_transactions. rewrite (proj1 (evict_fields _)). apply track_fold_fields. }
  unfold append_checkpoint. cbv zeta. rewrite Ed.
  destruct (Nat.ltb_spec MAX_RETAINED_BLOCKS (length (dag_checkpoints bc ++ [c]))) as [Hb|Hb]; [|done].
  destruct (remove_second _) as [[e|] d]; [|done]. cbn [set_dag set_locations tx_location_index].
  rewrite drop_locations_keeps by (by apply He). done.
Qed.

(** Validation passes exactly on the next, linked, replay-free checkpoint. *)
Lemma check_replays_ok executed seen hs :
  check_replays executed seen hs = Ok tt ↔
  NoDup hs ∧ ∀ h, h ∈ hs → h ∉ seen ∧ h ∉ executed.
Proof.
  revert seen. induction hs as [|h hs IH]; intros seen; cbn [check_replays].
  { split; [|done]. intros _. split; [constructor|]. by intros h ?%not_elem_of_nil. }
  rewrite NoDup_cons. case_bool_decide as Hs.
  { split; [done|]. intros [_ H]. destruct (H h); [by left|done]. }
  case_bool_decide as He.
  { split; [done|]. intros [_ H]. destruct (H h); [by left|done]. }
  rewrite IH. split.
  - intros [Hnd H]. split; [split; [|done]|].
    + intros Hin. destruct (H h Hin) as [Hns _]. apply Hns.
      by apply elem_of_union_l, elem_of_singleton.
    + intros h' Hin'. apply elem_of_cons in Hin' as [->|Hin]; [done|]. destruct (H h' Hin) as [Hns Hne].
      split; [|done]. intros Hs'. apply Hns. by apply elem_of_union_r.
  - intros [[Hni Hnd] H]. split; [done|]. intros h' Hin.
    assert (Hin' : h' ∈ h :: hs) by by right. destruct (H h' Hin') as [Hns Hne].
    split; [|done]. rewrite not_elem_of_union, not_elem_of_singleton. split; [congruence|done].
Qed.

Lemma validate_checkpoint_ok bc c :
  validate_checkpoint bc c = Ok tt ↔
  ∃ latest, latest_checkpoint bc = Some latest ∧ sequence c = (sequence latest + 1)%Z
    ∧ checkpoint_hash latest = Ok (prev_checkpoint_hash c)
    ∧ NoDup (tx_hashes c) ∧ ∀ h, h ∈ tx_hashes c → h ∉ executed_tx_hashes bc.
Proof.
  unfold validate_checkpoint. destruct (latest_checkpoint bc) as [latest|];
    [|split; [done|by intros (? & ? & _)]].
  destruct (Z.eqb_spec (sequence c) (sequence latest + 1)) as [Hs|Hs]; cbn [negb];
    [|split; [done|by intros (? & [= <-] & ? & _)]].
  destruct (checkpoint_hash latest) as [lh|] eqn:Eh; cbn [result_bind];
    [|split; [done|intros (? & [= <-] & _ & ? & _); congruence]].
  case_bool_decide as Hp; cbn [negb];
    [|split; [done|intros (? & [= <-] & _ & E & _); congruence]].
  rewrite check_replays_ok. split.
  - intros [Hnd Hh]. exists latest. subst. split; [done|]. split; [done|]. split; [done|].
    split; [done|]. intros h Hin. by apply Hh.
  - intros (l & [= <-] & _ & _ & Hnd & Hh). split; [done|]. intros h Hin. split; [|by apply Hh].
    apply not_elem_of_empty.
Qed.
End Track.

(** ** The chain invariant *)

Section Invariant.
Context {B3 : Blake3} {BC : Bcs} {BK : BcsCheckpoint}.

(** [b] follows [a] in the chain. *)
Definition chain_next (a b : Checkpoint) : Prop :=
  sequence b = (sequence a + 1)%Z ∧ checkpoint_hash a = Ok (prev_checkpoint_hash b).

Definition seq_lt (a b : Checkpoint) : Prop := (sequence a < sequence b)%Z.

Record chain_inv (bc : Blockchain) : Prop := {
  (* sequence zero is retained at the front, *)
  inv_front : ∃ g rest, dag_checkpoints bc = g :: rest ∧ sequence g = 0%Z;
  (* sequence numbers increase, *)
  inv_increasing : StronglySorted seq_lt (dag_checkpoints bc);
  (* behind it the window has no gap and is linked by hashes, *)
  inv_linked : Sorted chain_next (tail (dag_checkpoints bc));
  (* the window is bounded, *)
  inv_bounded : length (dag_checkpoints bc) ≤ MAX_RETAINED_BLOCKS;
  (* the executed set is the bounded queue's, *)
  inv_index : index_ok bc ∧ (Z.of_nat (length (tx_hash_queue bc)) ≤ MAX_RETAINED_TX_HASHES)%Z;
  (* and a location of a retained checkpoint is right. *)
  inv_location : ∀ h seq i, tx_location_index bc !! h = Some (seq, i) →
    (∀ c, c ∈ dag_checkpoints bc → sequence c = seq → tx_hashes c !! i = Some h)
    ∧ ∃ c, last (dag_checkpoints bc) = Some c ∧ (seq ≤ sequence c)%Z
}.

Lemma Sorted_snoc {A} (R : relation A) l c :
  Sorted R l → (∀ x, last l = Some x → R x c) → Sorted R (l ++ [c]).
Proof.
  induction 1 as [|x l Hs IH Hh]; intros Hc; cbn [app]; [by repeat constructor|].
  constructor.
  - apply IH. intros y Hy. apply Hc. destruct l; [done|]. exact Hy.
  - destruct l as [|y l]; [constructor; by apply Hc|]. inversion Hh. by constructor.
Qed.

Lemma seq_lt_last l c x :
  StronglySorted seq_lt l → last l = Some c → x ∈ l → (sequence x ≤ sequence c)%Z.
Proof.
  intros Hs. revert x. induction Hs as [|y l Hs IH Hy]; intros x Hl Hx; [done|].
  destruct l as [|z l].
  - injection Hl as ->. apply elem_of_cons in Hx as [->|Hx]; [lia|by apply not_elem_of_nil in Hx].
  - assert (Hl' : last (z :: l) = Some c) by exact Hl.
    apply elem_of_cons in Hx as [->|Hx]; [|by apply IH].
    rewrite Forall_forall in Hy. assert (Hc : c ∈ z :: l) by by apply last_Some_elem_of.
    specialize (Hy c Hc). unfold seq_lt in Hy. lia.
Qed.

Lemma append_dag bc c :
  dag_checkpoints (append_checkpoint bc c)
  = let dag := dag_checkpoints bc ++ [c] in
    if MAX_RETAINED_BLOCKS <? length dag then (remove_second dag).2 else dag.
Proof.
  unfold append_checkpoint. cbv zeta.
  assert (E : dag_checkpoints (track_checkpoint_transactions bc c) = dag_checkpoints bc).
  { unfold track_checkpoint_transactions. rewrite (proj1 (evict_fields _)).
    apply track_fold_fields. }
  rewrite E. destruct (_ <? _); [|done]. by destruct (remove_second _) as [[]].
Qed.

Lemma append_index bc c :
  tx_hash_queue (append_checkpoint bc c) = tx_hash_queue (track_checkpoint_transactions bc c)
  ∧ executed_tx_hashes (append_checkpoint bc c)
    = executed_tx_hashes (track_checkpoint_transactions bc c)
  ∧ total_transaction_count (append_checkpoint bc c)
    = total_transaction_count (track_checkpoint_transactions bc c).
Proof.
  unfold append_checkpoint. destruct (_ <? _); [|done]. by destruct (remove_second _) as [[]].
Qed.

Lemma append_locations bc c h v :
  index_ok bc → tx_location_index (append_checkpoint bc c) !! h = Some v →
  tx_location_index bc !! h = Some v ∨ ∃ i, tx_hashes c !! i = Some h ∧ v = (sequence c, i).
Proof.
  intros Hi Hv.
  assert (Ht : tx_location_index (track_checkpoint_transactions bc c) !! h = Some v).
  { unfold append_checkpoint in Hv. destruct (_ <? _); [|done].
    destruct (remove_second _) as [[ev|] d]; [|done]. eapply drop_locations_lookup. exact Hv. }
  apply evict_locations, track_fold_locations in Ht; [|by apply track_fold_index].
  destruct Ht as [Ht|(i & Hin & ->)]; [by left|]. right. exists i.
  split; [by apply elem_of_enumerate|done].
Qed.

(** The window after an append keeps the front and loses at most the second. *)
Lemma append_window g rest c :
  let dag := (g :: rest) ++ [c] in
  let dag' := if MAX_RETAINED_BLOCKS <? length dag then (remove_second dag).2 else dag in
  ∃ rest', dag' = g :: rest' ∧ last dag' = Some c
    ∧ (rest' = rest ++ [c] ∨ rest' = tail (rest ++ [c]) ∧ rest ≠ [])
    ∧ (length (g :: rest) ≤ MAX_RETAINED_BLOCKS → length dag' ≤ MAX_RETAINED_BLOCKS).
Proof.
  intros dag dag'. unfold dag', dag. destruct (Nat.ltb_spec MAX_RETAINED_BLOCKS
    (length ((g :: rest) ++ [c]))) as [Hb|Hb].
  - rewrite length_app in Hb. destruct rest as [|b rest].
    { unfold MAX_RETAINED_BLOCKS in Hb. simpl in Hb. lia. }
    cbn [app remove_second snd]. exists (rest ++ [c]). split; [done|].
    split; [exact (last_snoc c (g :: rest))|]. split; [right; done|].
    cbn [length]. rewrite length_app. cbn [length] in *. lia.
  - exists (rest ++ [c]). split; [done|]. split; [apply last_snoc|]. split; [by left|]. done.
Qed.

Lemma Sorted_tail {A} (R : relation A) l : Sorted R l → Sorted R (tail l).
Proof. destruct 1; [constructor|done]. Qed.

Lemma sorted_snoc_lt l c :
  StronglySorted seq_lt l → Forall (λ x, seq_lt x c) l → StronglySorted seq_lt (l ++ [c]).
Proof.
  induction 1 as [|x l Hs IH Hx]; intros Hc; cbn [app]; [by repeat constructor|].
  apply Forall_cons in Hc as [Hxc Hc]. constructor; [by apply IH|].
  apply Forall_app. split; [done|by apply Forall_singleton].
Qed.

(** Dropping the second element of a sorted window. *)
Lemma window_sorted g rest rest' c :
  StronglySorted seq_lt ((g :: rest) ++ [c]) →
  (rest' = rest ++ [c] ∨ rest' = tail (rest ++ [c]) ∧ rest ≠ []) →
  StronglySorted seq_lt (g :: rest').
Proof.
  intros Hs [->|[-> _]]; [done|]. cbn [app] in Hs. apply StronglySorted_inv in Hs as [Hs Hg].
  destruct (rest ++ [c]) as [|x l]; [by constructor|]. cbn [tail].
  apply StronglySorted_inv in Hs as [Hs _]. apply Forall_cons in Hg as [_ Hg]. by constructor.
Qed.

Lemma window_sub (g : Checkpoint) (rest rest' : list Checkpoint) c x :
  (rest' = rest ++ [c] ∨ rest' = tail (rest ++ [c]) ∧ rest ≠ []) →
  x ∈ g :: rest' → x ∈ g :: rest ∨ x = c.
Proof.
  intros Hrest Hx. apply elem_of_cons in Hx as [->|Hx]; [left; by left|].
  assert (Hx' : x ∈ rest ++ [c]).
  { destruct Hrest as [->|[-> _]]; [done|]. destruct (rest ++ [c]); [done|by right]. }
  apply elem_of_app in Hx' as [Hx'|Hx']; [left; by right|].
  right. by apply list_elem_of_singleton in Hx'.
Qed.

Lemma window_linked g rest rest' latest c :
  Sorted chain_next rest → last (g :: rest) = Some latest → chain_next latest c →
  (rest' = rest ++ [c] ∨ rest' = tail (rest ++ [c]) ∧ rest ≠ []) → Sorted chain_next rest'.
Proof.
  intros Hlk Hl Hn Hrest.
  assert (Hs : Sorted chain_next (rest ++ [c])).
  { apply Sorted_snoc; [done|]. intros x Hx. destruct rest as [|b rest]; [done|].
    assert (Hx' : last (g :: b :: rest) = Some x) by exact Hx. rewrite Hx' in Hl.
    injection Hl as ->. done. }
  destruct Hrest as [->|[-> _]]; [done|by apply Sorted_tail].
Qed.

Lemma append_index_inv bc c :
  index_ok bc →
  index_ok (append_checkpoint bc c)
  ∧ (Z.of_nat (length (tx_hash_queue (append_checkpoint bc c))) ≤ MAX_RETAINED_TX_HASHES)%Z.
Proof.
  intros Hidx. destruct (append_index bc c) as (Eq & Ee & _). unfold index_ok. rewrite Eq, Ee.
  destruct (evict_index (fold_left (track_tx (sequence c)) (enumerate_hashes c) bc)) as [Hi Hq];
    [by apply track_fold_index|]. split; [exact Hi|].
  unfold track_checkpoint_transactions. rewrite Hq. apply overflow_bound.
Qed.

Lemma append_location_inv bc c latest h seq i :
  chain_inv bc → last (dag_checkpoints bc) = Some latest → sequence c = (sequence latest + 1)%Z →
  tx_location_index (append_checkpoint bc c) !! h = Some (seq, i) →
  (∀ x, x ∈ dag_checkpoints bc ∨ x = c → sequence x = seq → tx_hashes x !! i = Some h)
  ∧ (seq ≤ sequence c)%Z.
Proof.
  intros Hbc Hl Hseq Hloc. destruct (inv_index bc Hbc) as [Hidx _].
  apply append_locations in Hloc; [|done]. destruct Hloc as [Hloc|(j & Hj & [= -> ->])].
  - apply (inv_location bc Hbc) in Hloc as [Hloc (c' & Hc' & Hle)]. rewrite Hl in Hc'.
    injection Hc' as <-. split; [|lia]. intros x [Hx| ->] Hs; [by apply Hloc|lia].
  - split; [|lia]. intros x [Hx| ->] Hs; [|done]. exfalso.
    pose proof (seq_lt_last _ _ x (inv_increasing bc Hbc) Hl Hx). lia.
Qed.

Lemma append_inv bc c :
  chain_inv bc → validate_checkpoint bc c = Ok tt → chain_inv (append_checkpoint bc c).
Proof.
  intros Hbc Hv. apply validate_checkpoint_ok in Hv as (latest & Hl & Hseq & Hhash & _).
  unfold latest_checkpoint in Hl. destruct (inv_front bc Hbc) as (g & rest & Edag & Hg0).
  pose proof (append_dag bc c) as Ed. cbv zeta in Ed. rewrite Edag in Ed.
  destruct (append_window g rest c) as (rest' & E' & Elast & Hrest & Hlen).
  cbv zeta in E', Elast, Hlen. rewrite E' in Ed, Elast, Hlen.
  pose proof (inv_increasing bc Hbc) as Hinc.
  split; rewrite ?Ed.
  - eauto.
  - eapply window_sorted; [|exact Hrest]. rewrite <- Edag. apply sorted_snoc_lt; [done|].
    apply Forall_forall. intros x Hx. pose proof (seq_lt_last _ _ x Hinc Hl Hx).
    unfold seq_lt. lia.
  - pose proof (inv_linked bc Hbc) as Hlk. rewrite Edag in Hlk, Hl.
    eapply window_linked; [exact Hlk|exact Hl|by split|exact Hrest].
  - apply Hlen. rewrite <- Edag. apply (inv_bounded bc Hbc).
  - apply append_index_inv, (inv_index bc Hbc).
  - intros h seq i Hloc. destruct (append_location_inv bc c latest h seq i Hbc Hl Hseq Hloc)
      as [Hc Hle]. split; [|by exists c].
    intros x Hx. apply Hc. rewrite Edag. by eapply window_sub.
Qed.
End Invariant.

(** ** The theorems *)

Section Theorems.
Context {B3 : Blake3} {BC : Bcs} {BK : BcsCheckpoint}.

Lemma new_inv : chain_inv blockchain_new.
Proof.
  split; cbn [blockchain_new dag_checkpoints tail tx_hash_queue tx_location_index].
  - exists genesis, []. done.
  - by repeat constructor.
  - constructor.
  - unfold MAX_RETAINED_BLOCKS. simpl. lia.
  - split; [by split; [constructor|]|]. unfold MAX_RETAINED_TX_HASHES. simpl. lia.
  - intros h seq i Hl. by rewrite lookup_empty in Hl.
Qed.

Lemma add_inv bc bc' c :
  chain_inv bc → add_checkpoint_with_validation c true bc = (bc', Ok tt) → chain_inv bc'.
Proof.
  unfold add_checkpoint_with_validation. intros Hbc Hadd.
  destruct (validate_checkpoint bc c) as [[]|] eqn:Ev; [|done]. injection Hadd as <-.
  by apply append_inv.
Qed.

(** a validated addition succeeds exactly on a checkpoint with the next
    sequence number, the hash of the latest checkpoint as parent, and pairwise
    different transactions none of which is in the executed set.  It fails
    without any change.  On success the checkpoint is the latest, and the
    executed hashes are the last 2,000,000 of the old queue followed by the new
    hashes. *)
Theorem validated_addition (bc bc' : Blockchain) (c : Checkpoint) (r : result unit) :
  chain_inv bc → add_checkpoint_with_validation c true bc = (bc', r) →
  (r = Ok tt ↔ ∃ latest, latest_checkpoint bc = Some latest ∧ chain_next latest c
     ∧ NoDup (tx_hashes c)
     ∧ ∀ h, h ∈ tx_hashes c → is_transaction_hash_executed bc h = false)
  ∧ (r ≠ Ok tt → bc' = bc)
  ∧ (r = Ok tt →
     latest_checkpoint bc' = Some c ∧ height bc' = Some (sequence c)
     ∧ let queue := tx_hash_queue bc ++ tx_hashes c in
       ∀ h, is_transaction_hash_executed bc' h = true ↔ h ∈ drop (overflow queue) queue).
Proof.
  intros Hbc. unfold add_checkpoint_with_validation.
  destruct (validate_checkpoint bc c) as [[]|e] eqn:Ev; intros [= <- <-].
  - pose proof Ev as Hv.
    apply validate_checkpoint_ok in Hv as (latest & Hl & Hseq & Hhash & Hnd & Hfresh).
    split; [|split; [done|]].
    { split; [|done]. intros _. exists latest. split; [done|]. split; [done|].
      split; [done|]. intros h Hh. apply bool_decide_eq_false. by apply Hfresh. }
    intros _.
    assert (Hlast : latest_checkpoint (append_checkpoint bc c) = Some c).
    { destruct (inv_front bc Hbc) as (g & rest & Edag & _). unfold latest_checkpoint.
      rewrite append_dag, Edag. destruct (append_window g rest c) as (rest' & E' & Elast & _).
      exact Elast. }
    split; [exact Hlast|]. split; [unfold height; by rewrite Hlast|]. cbv zeta. intros h.
    destruct (inv_index bc Hbc) as [Hidx _].
    unfold is_transaction_hash_executed. rewrite bool_decide_eq_true.
    destruct (append_index_inv bc c Hidx) as [[_ ->] _]. rewrite elem_of_list_to_set.
    destruct (append_index bc c) as (-> & _). unfold track_checkpoint_transactions.
    rewrite (proj2 (evict_index _ (track_fold_index _ _ _ Hidx))).
    destruct (track_fold_fresh (sequence c) (enumerate_hashes c) bc) as [-> _];
      rewrite ?enumerate_snd; done.
  - split; [|split; [done|by intros ?]]. split; [done|].
    intros (latest & Hl & [Hseq Hhash] & Hnd & Hfresh).
    enough (validate_checkpoint bc c = Ok tt) by congruence.
    apply validate_checkpoint_ok. exists latest. split; [done|]. split; [done|].
    split; [done|]. split; [done|]. intros h Hh. specialize (Hfresh h Hh).
    by apply bool_decide_eq_false in Hfresh.
Qed.

(** *** Lookup *)

Lemma find_index_spec h hs :
  match find_index h hs with
  | Some i => hs !! i = Some h
  | None => h ∉ hs
  end.
Proof.
  induction hs as [|h' hs IH]; cbn [find_index]; [apply not_elem_of_nil|].
  case_decide as E; [by subst|]. destruct (find_index h hs) as [i|]; cbn [fmap option_fmap option_map].
  - exact IH.
  - rewrite not_elem_of_cons. done.
Qed.

Lemma tx_hashes_lookup c i h :
  tx_hashes c !! i = Some h → ∃ tx, transactions c !! i = Some tx ∧ hash_of tx = h.
Proof.
  unfold tx_hashes. intros Hl. apply list_lookup_fmap_Some in Hl as (tx & -> & Htx). eauto.
Qed.

(** What a location answers. *)
Definition located (bc : Blockchain) (h : bytes) (loc : location) : Prop :=
  ∃ c i, c ∈ dag_checkpoints bc ∧ location_in c i = Some loc
         ∧ hash_of loc.1.1.1 = h ∧ loc.1.1.2 = sequence c ∧ loc.1.2 = state_root c.

Lemma location_in_located bc c i h :
  c ∈ dag_checkpoints bc → tx_hashes c !! i = Some h →
  ∃ loc, location_in c i = Some loc ∧ located bc h loc.
Proof.
  intros Hc Hh. apply tx_hashes_lookup in Hh as (tx & Htx & <-).
  assert (Hloc : location_in c i = Some (tx, sequence c, state_root c, transaction_effects c !! i)).
  { unfold location_in. by rewrite Htx. }
  eexists. split; [exact Hloc|]. exists c, i. by rewrite Hloc.
Qed.

Lemma find_in_dag_spec bc h cs :
  (∀ c, c ∈ cs → c ∈ dag_checkpoints bc) →
  match find_in_dag h cs with
  | Some loc => located bc h loc
  | None => ∀ c, c ∈ cs → h ∉ tx_hashes c
  end.
Proof.
  induction cs as [|c cs IH]; intros Hsub; cbn [find_in_dag]; [by intros c ?%not_elem_of_nil|].
  pose proof (find_index_spec h (tx_hashes c)) as Hf. destruct (find_index h (tx_hashes c)) as [i|].
  - destruct (location_in_located bc c i h) as (loc & -> & Hloc); [apply Hsub; by left|done..].
  - specialize (IH ltac:(intros x Hx; apply Hsub; by right)).
    destruct (find_in_dag h cs); [done|].
    intros x [->|Hx]%elem_of_cons; [done|by apply IH].
Qed.

(** transaction lookup is sound and complete for the retained window: it
    answers a transaction with the wanted hash, of a retained checkpoint whose
    sequence number and state root it reports, exactly when some retained
    checkpoint has such a transaction. *)
Theorem transaction_lookup (bc : Blockchain) (h : bytes) :
  chain_inv bc →
  match get_transaction_location_with_effect bc h with
  | Some loc => located bc h loc
  | None => ∀ c, c ∈ dag_checkpoints bc → h ∉ tx_hashes c
  end.
Proof.
  intros Hbc. unfold get_transaction_location_with_effect.
  assert (Hscan : match find_in_dag h (rev (dag_checkpoints bc)) with
    | Some loc => located bc h loc | None => ∀ c, c ∈ dag_checkpoints bc → h ∉ tx_hashes c end).
  { pose proof (find_in_dag_spec bc h (rev (dag_checkpoints bc))) as Hd.
    destruct (find_in_dag _ _); [apply Hd|intros c Hc; apply Hd];
      try (intros x Hx; by apply list_elem_of_In, in_rev, list_elem_of_In).
    by apply list_elem_of_In, in_rev; rewrite rev_involutive; apply list_elem_of_In. }
  destruct (tx_location_index bc !! h) as [[seq i]|] eqn:El; cbn [mbind option_bind]; [|done].
  destruct (get_checkpoint bc seq) as [c|] eqn:Ec; cbn [mbind option_bind]; [|done].
  apply find_some in Ec as [Hc Hs]. apply list_elem_of_In in Hc. apply Z.eqb_eq in Hs.
  apply (inv_location bc Hbc) in El as [El _]. specialize (El c Hc Hs).
  destruct (location_in_located bc c i h Hc El) as (loc & -> & Hloc). done.
Qed.
End Theorems.

(** ** Restart and counting *)

Section Restart.
Context {B3 : Blake3} {BC : Bcs} {BK : BcsCheckpoint}.

Lemma evict_small bc :
  index_ok bc → (Z.of_nat (length (tx_hash_queue bc)) ≤ MAX_RETAINED_TX_HASHES)%Z →
  executed_tx_hashes (evict bc) = executed_tx_hashes bc.
Proof.
  intros Hi Hs. destruct (evict_index bc Hi) as [[_ ->] ->]. unfold overflow.
  replace (Z.to_nat _) with 0 by lia. rewrite drop_0. symmetry. apply Hi.
Qed.

(** What the loop of [rebuild_tx_hash_index] maintains over [n] transactions with
    hashes in [hs]. *)
Definition rebuilt (bc bc' : Blockchain) (hs : list bytes) : Prop :=
  index_ok bc' ∧ dag_checkpoints bc' = dag_checkpoints bc
  ∧ executed_tx_hashes bc' ⊆ list_to_set hs ∪ executed_tx_hashes bc
  ∧ length (tx_hash_queue bc') ≤ length (tx_hash_queue bc) + length hs
  ∧ ((Z.of_nat (length (tx_hash_queue bc) + length hs) ≤ MAX_RETAINED_TX_HASHES)%Z →
     executed_tx_hashes bc' = list_to_set hs ∪ executed_tx_hashes bc).

Lemma rebuilt_refl bc : index_ok bc → rebuilt bc bc [].
Proof.
  intros Hi. split; [done|]. split; [done|]. rewrite list_to_set_nil, union_empty_l_L.
  split; [done|]. split; [lia|done].
Qed.

Lemma rebuilt_trans bc bc1 bc2 hs1 hs2 :
  rebuilt bc bc1 hs1 → rebuilt bc1 bc2 hs2 → rebuilt bc bc2 (hs1 ++ hs2).
Proof.
  intros (Hi1 & Hd1 & Hs1 & Hl1 & He1) (Hi2 & Hd2 & Hs2 & Hl2 & He2).
  split; [done|]. split; [congruence|]. rewrite list_to_set_app_L, length_app. split; [|split; [lia|]].
  - intros h Hh. apply Hs2, elem_of_union in Hh as [Hh|Hh]; [set_solver|].
    apply Hs1 in Hh. set_solver.
  - intros Hm. rewrite He2, He1 by lia. set_solver.
Qed.

Lemma rebuilt_tx seq bc i h : index_ok bc → rebuilt bc (evict (track_tx seq bc (i, h))) [h].
Proof.
  intros Hi. pose proof (track_tx_index seq bc (i, h) Hi) as Ht.
  destruct (evict_index _ Ht) as [He Hq]. destruct (evict_fields (track_tx seq bc (i, h))) as [Hd _].
  assert (Hlen : length (tx_hash_queue (track_tx seq bc (i, h))) ≤ length (tx_hash_queue bc) + 1).
  { cbn [track_tx tx_hash_queue]. destruct (negb _); [|lia]. by rewrite length_app. }
  split; [done|]. split; [exact Hd|]. rewrite list_to_set_singleton_L. split; [|split].
  - destruct He as [_ ->]. rewrite Hq. intros x Hx. apply elem_of_list_to_set in Hx.
    assert (Hx' : x ∈ executed_tx_hashes (track_tx seq bc (i, h))).
    { destruct Ht as [_ ->]. apply elem_of_list_to_set.
      rewrite <- (take_drop (overflow (tx_hash_queue (track_tx seq bc (i, h))))
                  (tx_hash_queue (track_tx seq bc (i, h)))). apply elem_of_app. by right. }
    exact Hx'.
  - rewrite Hq, length_drop. cbn [length]. lia.
  - intros Hm. cbn [length] in Hm. rewrite evict_small by (done || lia). done.
Qed.

Lemma rebuilt_txs seq es bc :
  index_ok bc →
  rebuilt bc (fold_left (λ bc e, evict (track_tx seq bc e)) es bc) (map snd es).
Proof.
  revert bc. induction es as [|[i h] es IH]; intros bc Hi; [by apply rebuilt_refl|].
  cbn [fold_left map snd]. pose proof (rebuilt_tx seq bc i h Hi) as H1.
  apply (rebuilt_trans bc _ _ [h] (map snd es) H1). apply IH, H1.
Qed.

Lemma rebuilt_checkpoints cs bc :
  index_ok bc →
  rebuilt bc (fold_left
    (λ bc c, fold_left (λ bc e, evict (track_tx (sequence c) bc e)) (enumerate_hashes c) bc) cs bc)
    (concat (map tx_hashes cs)).
Proof.
  revert bc. induction cs as [|c cs IH]; intros bc Hi; [by apply rebuilt_refl|].
  cbn [fold_left map concat].
  pose proof (rebuilt_txs (sequence c) (enumerate_hashes c) bc Hi) as H1.
  rewrite enumerate_snd in H1. eapply rebuilt_trans; [exact H1|]. apply IH, H1.
Qed.

Lemma retained_count bc :
  retained_transaction_count bc = Z.of_nat (length (concat (map tx_hashes (dag_checkpoints bc)))).
Proof.
  unfold retained_transaction_count. f_equal. induction (dag_checkpoints bc) as [|c cs IH]; [done|].
  cbn [map concat]. rewrite length_app, <- IH. unfold tx_hashes. by rewrite length_map.
Qed.

(** after a restart the executed set holds only hashes of retained
    checkpoints (those of evicted checkpoints are forgotten), all of them when
    there are at most 2,000,000; the checkpoints stay, and the lifetime
    transaction count does not fall. *)
Theorem rebuilt_index (bc : Blockchain) :
  let bc' := rebuild_tx_hash_index bc in
  dag_checkpoints bc' = dag_checkpoints bc
  ∧ (total_transaction_count bc ≤ total_transaction_count bc')%Z
  ∧ (∀ h, is_transaction_hash_executed bc' h = true →
       ∃ c, c ∈ dag_checkpoints bc ∧ h ∈ tx_hashes c)
  ∧ ((retained_transaction_count bc ≤ MAX_RETAINED_TX_HASHES)%Z →
     ∀ c h, c ∈ dag_checkpoints bc → h ∈ tx_hashes c → is_transaction_hash_executed bc' h = true).
Proof.
  intros bc'. unfold bc', rebuild_tx_hash_index, is_transaction_hash_executed.
  set (start := {| dag_checkpoints := dag_checkpoints bc; executed_tx_hashes := ∅;
    tx_hash_queue := []; tx_location_index := ∅; total_transaction_count := 0 |}).
  assert (Hi : index_ok start) by (split; [constructor|done]).
  destruct (rebuilt_checkpoints (dag_checkpoints bc) start Hi) as (_ & Hd & Hs & _ & He).
  set (bc1 := fold_left _ (dag_checkpoints bc) start) in *.
  cbn [dag_checkpoints total_transaction_count executed_tx_hashes] in *.
  change (executed_tx_hashes start) with (∅ : gset bytes) in Hs, He.
  rewrite union_empty_r_L in Hs, He.
  assert (Hmem : ∀ h, h ∈ concat (map tx_hashes (dag_checkpoints bc)) ↔
    ∃ c, c ∈ dag_checkpoints bc ∧ h ∈ tx_hashes c).
  { intros h. rewrite list_elem_of_In, in_concat. setoid_rewrite in_map_iff.
    setoid_rewrite list_elem_of_In. naive_solver. }
  split; [exact Hd|]. split; [lia|]. setoid_rewrite bool_decide_eq_true. split.
  - intros h Hh. apply Hmem. apply Hs in Hh. by apply elem_of_list_to_set in Hh.
  - intros Hm c h Hc Hh. rewrite He by (cbn [start tx_hash_queue length]; rewrite retained_count in Hm; lia).
    apply elem_of_list_to_set, Hmem. eauto.
Qed.

(** the lifetime count grows by the number of transactions with every
    validated addition, saturating at the largest [usize], and is what
    [get_transaction_count] reports at least. *)
Theorem transaction_count_grows (bc bc' : Blockchain) (c : Checkpoint) :
  (0 ≤ total_transaction_count bc ≤ u64_max)%Z →
  add_checkpoint_with_validation c true bc = (bc', Ok tt) →
  total_transaction_count bc'
  = Z.min (total_transaction_count bc + Z.of_nat (length (transactions c))) u64_max
  ∧ (total_transaction_count bc' ≤ get_transaction_count bc')%Z.
Proof.
  intros Hb. unfold add_checkpoint_with_validation.
  destruct (validate_checkpoint bc c) as [[]|e] eqn:Ev; [|done]. intros [= <-].
  apply validate_checkpoint_ok in Ev as (latest & _ & _ & _ & Hnd & Hfresh).
  destruct (append_index bc c) as (_ & _ & ->). split; [|unfold get_transaction_count].
  - unfold track_checkpoint_transactions. rewrite (proj2 (evict_fields _)).
    destruct (track_fold_fresh (sequence c) (enumerate_hashes c) bc) as [_ Ht];
      rewrite ?enumerate_snd; [done..|]. rewrite Ht by done. by rewrite length_enumerate.
  - destruct (append_index bc c) as (_ & _ & ->). lia.
Qed.
End Restart.

(** ** Runs *)

Module Runs.
Import ToyHash RunBcs.

(** A stand-in image: the sequence number, the transaction hashes and the roots. *)
#[export] Instance run_bcs_checkpoint : BcsCheckpoint := λ img, Ok (
  match img with
  | ImageV0 n hs root prev => n :: concat hs ++ root ++ prev
  | ImageV1 v n vs hs _ _ _ root t prev => v :: n :: concat vs ++ concat hs ++ root ++ t :: prev
  | ImageV2 v n vs hs _ root t prev => v :: n :: concat vs ++ concat hs ++ root ++ t :: prev
  end).

Definition tx (n : Z) : SignedTransaction := signed_new
  (UpgradeModule {| tx_sender := str "0xa"; tx_gas_payment := None; tx_gas_limit := 1;
                    tx_gas_price := 1; tx_nonce := n |} [] (str "m")).

Definition ok_or_nil (r : result bytes) : bytes := match r with Ok h => h | Err _ => [] end.
Definition first : Checkpoint :=
  checkpoint_new 1 [] [tx 1; tx 2] (replicate 32 7%Z) 5 (ok_or_nil (checkpoint_hash genesis)).
Definition chain1 : Blockchain := append_checkpoint blockchain_new first.

Lemma chain1_eq :
  add_checkpoint_with_validation first true blockchain_new = (chain1, Ok tt).
Proof.
  unfold add_checkpoint_with_validation.
  assert (E : validate_checkpoint blockchain_new first = Ok tt) by by vm_compute.
  rewrite E. exact eq_refl.
Qed.

Lemma chain1_inv : chain_inv chain1.
Proof. exact (add_inv _ _ _ new_inv chain1_eq). Qed.

Lemma chain1_dag : dag_checkpoints chain1 = [genesis; first].
Proof.
  unfold chain1. rewrite append_dag. reflexivity.
Qed.

Lemma validated_addition_witness :
  ∃ r, r ≠ Ok tt ∧ add_checkpoint_with_validation first true chain1 = (chain1, r).
Proof.
  destruct (add_checkpoint_with_validation first true chain1) as [bc' r] eqn:E.
  destruct (validated_addition chain1 bc' first r chain1_inv E) as (_ & Hfail & _).
  assert (Hr : r ≠ Ok tt).
  { replace r with (add_checkpoint_with_validation first true chain1).2 by by rewrite E.
    by vm_compute. }
  exists r. split; [done|]. by rewrite (Hfail Hr).
Defined.

Lemma transaction_lookup_witness :
  ∃ loc, located chain1 (hash_of (tx 2)) loc.
Proof.
  pose proof (transaction_lookup chain1 (hash_of (tx 2)) chain1_inv) as H.
  destruct (get_transaction_location_with_effect chain1 (hash_of (tx 2))) as [loc|] eqn:E.
  - by exists loc.
  - exfalso. apply (H first); [rewrite chain1_dag; apply list_elem_of_further, list_elem_of_here|].
    apply (list_elem_of_fmap_2 hash_of [tx 1; tx 2] (tx 2)). apply list_elem_of_further, list_elem_of_here.
Defined.

Lemma transaction_count_grows_witness :
  total_transaction_count chain1 = 2%Z
  ∧ (total_transaction_count chain1 ≤ get_transaction_count chain1)%Z.
Proof.
  apply (transaction_count_grows blockchain_new chain1 first); [|exact chain1_eq].
  unfold u64_max. simpl. lia.
Defined.
End Runs.
