(* ===== verification/Scheduler.v ===== *)
(** * Scheduling: [kanari-move-runtime-v1/src/scheduler.rs] and the selection of
    conflict-free transactions in [kanari-core/src/engine.rs]

    [schedule] cuts the transaction sequence into waves that may run
    speculatively in parallel; [select_conflict_free_transactions] picks a
    subset with disjoint conflict keys. *)

From stdpp Require Import base list gmap strings.
From Stdlib Require Import ZArith Lia.
From S2P Require Import Prelude Order Hashing Text Address GasCoin Transaction TypesTheorems.

Definition MAX_SPECULATIVE_WAVE_SIZE : nat := 64.

Section Schedule.
Context {HX : Hex} {BC : Bcs}.

Definition conflict_keys (tx : SignedTransaction) : list bytes :=
  get_conflict_keys (transaction tx).

Definition key_set (tx : SignedTransaction) : gset bytes := list_to_set (conflict_keys tx).

(** [keys.iter().any(|k| reserved.contains(k))] *)
Definition conflicts_with (reserved : gset bytes) (tx : SignedTransaction) : bool :=
  existsb (λ k, bool_decide (k ∈ reserved)) (conflict_keys tx).

(** The loop: waves closed so far, the current wave and its reserved keys. *)
Definition schedule_step
    (st : list (list SignedTransaction) * list SignedTransaction * gset bytes)
    (tx : SignedTransaction) :
    list (list SignedTransaction) * list SignedTransaction * gset bytes :=
  let '(scheduled, wave, reserved) := st in
  let wave_full := MAX_SPECULATIVE_WAVE_SIZE <=? length wave in
  let '(scheduled, wave, reserved) :=
    if negb (bool_decide (wave = [])) && (wave_full || conflicts_with reserved tx)
    then (scheduled ++ [wave], [], ∅) else (scheduled, wave, reserved) in
  (scheduled, wave ++ [tx], reserved ∪ key_set tx).

Definition schedule (transactions : list SignedTransaction) : list (list SignedTransaction) :=
  let '(scheduled, wave, _) := fold_left schedule_step transactions ([], [], ∅) in
  match wave with [] => scheduled | _ => scheduled ++ [wave] end.

(** [select_conflict_free_transactions] *)
Definition select_step (st : list SignedTransaction * gset bytes) (tx : SignedTransaction) :
    list SignedTransaction * gset bytes :=
  let '(selected, reserved) := st in
  if conflicts_with reserved tx then (selected, reserved)
  else (selected ++ [tx], reserved ∪ key_set tx).

Definition select_conflict_free_transactions (transactions : list SignedTransaction) :
    list SignedTransaction := (fold_left select_step transactions ([], ∅)).1.

(** ** Facts *)

Definition disjoint_keys (a b : SignedTransaction) : Prop := key_set a ## key_set b.

#[export] Instance disjoint_keys_dec a b : Decision (disjoint_keys a b).
Proof. unfold disjoint_keys. apply _. Defined.

Definition reserved_of (wave : list SignedTransaction) : gset bytes := ⋃ (map key_set wave).

Lemma conflicts_with_spec reserved tx :
  conflicts_with reserved tx = false ↔ key_set tx ## reserved.
Proof.
  unfold conflicts_with. rewrite <- not_true_iff_false, existsb_exists. split.
  - intros H k Hk Hr. apply H. exists k. apply elem_of_list_to_set, list_elem_of_In in Hk.
    split; [done|]. by apply bool_decide_eq_true.
  - intros Hd (k & Hk & Hr). apply bool_decide_eq_true in Hr. apply (Hd k); [|done].
    apply elem_of_list_to_set. by apply list_elem_of_In.
Qed.

Lemma reserved_snoc wave tx : reserved_of (wave ++ [tx]) = reserved_of wave ∪ key_set tx.
Proof.
  unfold reserved_of. rewrite map_app, union_list_app_L. cbn [map]. by rewrite union_list_singleton_L.
Qed.

Lemma disjoint_reserved wave tx :
  key_set tx ## reserved_of wave ↔ Forall (disjoint_keys tx) wave.
Proof.
  unfold reserved_of. induction wave as [|a wave IH]; cbn [map union_list foldr].
  - split; [constructor|]. intros _. apply disjoint_empty_r.
  - rewrite disjoint_union_r, IH. by rewrite Forall_cons.
Qed.

(** Pairwise disjoint conflict keys. *)
Fixpoint independent (wave : list SignedTransaction) : Prop :=
  match wave with
  | [] => True
  | tx :: wave => Forall (disjoint_keys tx) wave ∧ independent wave
  end.

Lemma independent_snoc wave tx :
  independent (wave ++ [tx]) ↔ independent wave ∧ Forall (disjoint_keys tx) wave.
Proof.
  induction wave as [|a wave IH]; cbn [app independent].
  - split; [by intros _|by intros _].
  - rewrite IH, Forall_app, Forall_singleton, Forall_cons. unfold disjoint_keys.
    assert (key_set a ## key_set tx ↔ key_set tx ## key_set a) by (split; intros; by symmetry).
    tauto.
Qed.

Lemma independent_lookup wave i j a b :
  independent wave → i ≠ j → wave !! i = Some a → wave !! j = Some b → disjoint_keys a b.
Proof.
  assert (Hlt : ∀ wave i j a b, independent wave → i < j → wave !! i = Some a →
    wave !! j = Some b → disjoint_keys a b).
  { clear. induction wave as [|t wave IH]; intros i j a b Hw Hij Ha Hb; [done|].
    destruct Hw as [Ht Hw]. destruct i as [|i], j as [|j]; try lia.
    - injection Ha as <-. eapply Forall_lookup_1 in Ht; [exact Ht|exact Hb].
    - eapply IH; [exact Hw| |exact Ha|exact Hb]. lia. }
  intros Hw Hne Ha Hb. destruct (decide (i < j)); [by eapply Hlt|].
  unfold disjoint_keys. symmetry. eapply (Hlt wave j i); [done|lia|done|done].
Qed.

(** No two of the transactions touch one object, as input or as gas payment. *)
Definition object_disjoint (txs : list SignedTransaction) : Prop :=
  ∀ i j a b id, i ≠ j → txs !! i = Some a → txs !! j = Some b →
    id ∈ accessed_ids (transaction a) → id ∉ accessed_ids (transaction b).

Lemma independent_objects wave : independent wave → object_disjoint wave.
Proof.
  intros Hi i j a b id Hij Ha Hb Hida Hidb.
  apply (independent_lookup wave i j a b Hi Hij Ha Hb (object_key id));
    by apply elem_of_list_to_set, accessed_in_conflict_keys.
Qed.

Lemma independent_sublist l k : sublist l k → independent k → independent l.
Proof.
  induction 1 as [|tx l k Hs IH|tx l k Hs IH]; cbn [independent]; [done| |by intros [_ ?]; auto].
  intros [Ht Hk]. split; [|by apply IH]. by eapply Forall_sublist.
Qed.

(** A wave as [schedule] may emit it. *)
Definition wave_ok (wave : list SignedTransaction) : Prop :=
  wave ≠ [] ∧ length wave ≤ MAX_SPECULATIVE_WAVE_SIZE ∧ independent wave.

Definition schedule_inv (seen : list SignedTransaction)
    (st : list (list SignedTransaction) * list SignedTransaction * gset bytes) : Prop :=
  let '(scheduled, wave, reserved) := st in
  concat scheduled ++ wave = seen ∧ Forall wave_ok scheduled
  ∧ (wave = [] ∨ wave_ok wave) ∧ reserved = reserved_of wave.

Lemma schedule_step_inv seen st tx :
  schedule_inv seen st → schedule_inv (seen ++ [tx]) (schedule_step st tx).
Proof.
  destruct st as [[scheduled wave] reserved]. intros (Hc & Hs & Hw & ->). unfold schedule_step.
  destruct (negb _ && _) eqn:E.
  - apply andb_true_iff in E as [Hne _]. apply negb_true_iff, bool_decide_eq_false in Hne.
    destruct Hw as [|Hw]; [done|]. cbn [app]. split; [|split; [|split]].
    + rewrite concat_app. cbn [concat]. by rewrite app_nil_r, Hc.
    + apply Forall_app. split; [done|by apply Forall_singleton].
    + right. split; [done|]. split; [unfold MAX_SPECULATIVE_WAVE_SIZE; simpl; lia|].
      split; [constructor|done].
    + unfold reserved_of. cbn [map]. rewrite union_list_singleton_L. apply union_empty_l_L.
  - split; [by rewrite app_assoc, Hc|]. split; [done|]. split; [|by rewrite reserved_snoc].
    right. split; [by destruct wave|].
    destruct Hw as [->|(Hne & Hlen & Hi)].
    { split; [unfold MAX_SPECULATIVE_WAVE_SIZE; simpl; lia|]. split; [constructor|done]. }
    rewrite bool_decide_false in E by done. cbn [negb andb] in E.
    apply orb_false_iff in E as [Hf Hcf]. apply Nat.leb_gt in Hf.
    rewrite length_app. cbn [length]. split; [lia|].
    apply independent_snoc. split; [done|]. by apply disjoint_reserved, conflicts_with_spec.
Qed.

Lemma schedule_spec transactions :
  concat (schedule transactions) = transactions ∧ Forall wave_ok (schedule transactions).
Proof.
  assert (H : ∀ txs, schedule_inv txs (fold_left schedule_step txs ([], [], ∅))).
  { intros txs. induction txs as [|tx txs IH] using rev_ind.
    - split; [done|]. split; [constructor|]. split; [by left|done].
    - rewrite fold_left_app. by apply schedule_step_inv. }
  specialize (H transactions). unfold schedule.
  destruct (fold_left _ _ _) as [[scheduled wave] reserved]. destruct H as (Hc & Hs & Hw & _).
  destruct wave as [|t wave].
  - rewrite app_nil_r in Hc. done.
  - destruct Hw as [|Hw]; [done|]. split.
    + rewrite concat_app. cbn [concat]. by rewrite app_nil_r.
    + apply Forall_app. split; [done|by apply Forall_singleton].
Qed.

Definition select_inv (seen : list SignedTransaction) (st : list SignedTransaction * gset bytes) :
    Prop :=
  let '(selected, reserved) := st in
  sublist selected seen ∧ independent selected ∧ reserved = reserved_of selected
  ∧ ∀ tx, tx ∈ seen → tx ∈ selected ∨ ∃ tx', tx' ∈ selected ∧ ¬ disjoint_keys tx tx'.

Lemma not_disjoint_reserved wave tx :
  ¬ key_set tx ## reserved_of wave → ∃ tx', tx' ∈ wave ∧ ¬ disjoint_keys tx tx'.
Proof.
  intros Hn. apply Exists_exists. destruct (decide (Forall (disjoint_keys tx) wave)) as [Hf|Hf].
  - destruct Hn. by apply disjoint_reserved.
  - by apply not_Forall_Exists; [apply _|].
Qed.

Lemma select_step_inv seen st tx :
  select_inv seen st → select_inv (seen ++ [tx]) (select_step st tx).
Proof.
  destruct st as [selected reserved]. intros (Hsub & Hi & -> & Hmax). unfold select_step.
  destruct (conflicts_with (reserved_of selected) tx) eqn:E.
  - split; [by apply sublist_inserts_r|]. split; [done|]. split; [done|].
    intros t [Ht| ->%list_elem_of_singleton]%elem_of_app; [by apply Hmax|]. right.
    apply not_disjoint_reserved. rewrite <- conflicts_with_spec. by rewrite E.
  - apply conflicts_with_spec, disjoint_reserved in E.
    split; [by apply sublist_app|]. split; [by apply independent_snoc|].
    split; [by rewrite reserved_snoc|]. intros t [Ht| ->%list_elem_of_singleton]%elem_of_app.
    + destruct (Hmax t Ht) as [Hin|(t' & Hin & Hc)].
      * left. apply elem_of_app. by left.
      * right. exists t'. split; [apply elem_of_app; by left|done].
    + left. apply elem_of_app. right. by left.
Qed.

Lemma select_spec transactions :
  select_inv transactions (fold_left select_step transactions ([], ∅)).
Proof.
  induction transactions as [|tx txs IH] using rev_ind.
  - split; [done|]. split; [done|]. split; [done|]. by intros t ?%not_elem_of_nil.
  - rewrite fold_left_app. by apply select_step_inv.
Qed.
Lemma select_sublist transactions :
  sublist (select_conflict_free_transactions transactions) transactions.
Proof.
  pose proof (select_spec transactions) as Hs. unfold select_conflict_free_transactions.
  destruct (fold_left _ _ _) as [selected reserved]. by destruct Hs.
Qed.

Lemma select_independent transactions :
  independent (select_conflict_free_transactions transactions).
Proof.
  pose proof (select_spec transactions) as Hs. unfold select_conflict_free_transactions.
  destruct (fold_left _ _ _) as [selected reserved]. by destruct Hs as (_ & ? & _).
Qed.

(** The first transaction is always selected, and stays first. *)
Lemma select_first tx transactions :
  ∃ rest, select_conflict_free_transactions (tx :: transactions) = tx :: rest.
Proof.
  unfold select_conflict_free_transactions. cbn [fold_left select_step].
  assert (Hc : conflicts_with ∅ tx = false).
  { apply conflicts_with_spec, disjoint_empty_r. }
  rewrite Hc. cbn [app]. generalize (∅ ∪ key_set tx).
  assert (Hg : ∀ l selected r rest, selected = tx :: rest →
    ∃ rest', (fold_left select_step l (selected, r)).1 = tx :: rest').
  { induction l as [|t l IH]; intros selected r rest ->; [by exists rest|]. cbn [fold_left select_step].
    destruct (conflicts_with r t); [by eapply IH|]. by eapply IH. }
  intros r. by eapply Hg.
Qed.
End Schedule.

Section Theorems.
Context {HX : Hex} {BC : Bcs}.

(** [schedule] keeps every transaction, in order; each wave has between one
    and 64 transactions; and no two transactions of a wave touch one object, be
    it as an input or as gas payment. *)
Theorem schedule_waves (transactions : list SignedTransaction) :
  concat (schedule transactions) = transactions
  ∧ ∀ wave, wave ∈ schedule transactions →
      1 ≤ length wave ≤ MAX_SPECULATIVE_WAVE_SIZE ∧ object_disjoint wave.
Proof.
  destruct (schedule_spec transactions) as [Hc Hw]. split; [done|]. intros wave Hin.
  rewrite Forall_forall in Hw. destruct (Hw wave Hin) as (Hne & Hlen & Hi).
  split; [destruct wave; [done|simpl in *; lia]|by apply independent_objects].
Qed.

(** [select_conflict_free_transactions] selects a subsequence whose
    transactions touch no object twice, and it is maximal: every transaction left
    out shares a conflict key with a selected one. *)
Theorem selection_maximal (transactions : list SignedTransaction) :
  let selected := select_conflict_free_transactions transactions in
  sublist selected transactions ∧ object_disjoint selected
  ∧ (∀ tx, tx ∈ transactions → tx ∈ selected ∨
       ∃ tx' k, tx' ∈ selected ∧ k ∈ get_conflict_keys (transaction tx)
                ∧ k ∈ get_conflict_keys (transaction tx')).
Proof.
  cbn zeta. split; [apply select_sublist|]. split; [apply independent_objects, select_independent|].
  pose proof (select_spec transactions) as Hs. unfold select_conflict_free_transactions.
  destruct (fold_left _ _ _) as [selected reserved]. destruct Hs as (_ & _ & _ & Hmax). cbn [fst].
  intros tx Htx. destruct (Hmax tx Htx) as [|(tx' & Hin & Hc)]; [by left|]. right.
  exists tx'. destruct (set_choose_or_empty (key_set tx ∩ key_set tx')) as [(k & Hk)|Hn].
  - exists k. apply elem_of_intersection in Hk as [H1 H2].
    apply elem_of_list_to_set in H1, H2. done.
  - destruct Hc. intros k H1 H2. apply (not_elem_of_empty (C := gset bytes) k), Hn.
    by apply elem_of_intersection.
Qed.
End Theorems.
