(* ===== verification/Mempool.v ===== *)
(** * The mempool: [crates/kanari-core/src/engine/mempool.rs] and the parts of
    [engine.rs] and [engine/apply_checkpoint.rs] it shares state with

    Admission of a batch (signature and shape checks, replay checks, size,
    sender and lane limits), removal by hash, and the drain after a checkpoint
    commit, over one record of pending transactions and derived counters.  The
    locks are sequential here: each operation runs on one [MempoolState]. *)

From stdpp Require Import base list gmap strings.
From Stdlib Require Import ZArith Lia.
From S2P Require Import Prelude Order Hashing Text Address GasCoin Transaction Blockchain.

(** ** Constants and data ([engine.rs]) *)

Definition MAX_TRANSACTION_BYTES : Z := 256 * 1024.
Definition MAX_TRANSACTION_GAS_LIMIT : Z := 10000000.
Definition MAX_MEMPOOL_SIZE : Z := 100000.
Definition MAX_MEMPOOL_BYTES : Z := 256 * 1024 * 1024.
Definition MAX_PENDING_PER_PRIMARY_ACCESS_LANE : Z := 64.
Definition MAX_PENDING_PER_SENDER : Z := 256.
Definition MAX_NONCE : Z := 2 ^ 53 - 1.
Definition MAX_WATERMARK : Z := 2 ^ 53.

Record PendingTransactionMetadata := {
  previewed : bool;
  preview_gas_used : option Z;
  preview_effects : option TransactionEffects
}.

Record PendingTransactionRecord := {
  rec_signed : SignedTransaction;
  rec_metadata : PendingTransactionMetadata;
  rec_hash : bytes;
  rec_sender : bytes;
  rec_primary : bytes;
  rec_congestion : bytes;
  rec_access : list bytes;
  rec_size : nat
}.

Abbreviation counts := (gmap bytes Z).

Record MempoolState := {
  pending_txs : list PendingTransactionRecord;
  pending_bytes : Z;
  pending_tx_hashes : gset bytes;
  pending_sender_counts : counts;
  pending_access_counts : counts;
  pending_primary_access_counts : counts;
  pending_congestion_access_counts : counts
}.

Definition empty_mempool : MempoolState :=
  {| pending_txs := []; pending_bytes := 0; pending_tx_hashes := ∅;
     pending_sender_counts := ∅; pending_access_counts := ∅;
     pending_primary_access_counts := ∅; pending_congestion_access_counts := ∅ |}.

(** ** Counters *)

Definition decrement_pending_count (c : counts) (key : bytes) : counts :=
  match c !! key with
  | Some count =>
      let count := saturating_sub count 1 in
      if (count =? 0)%Z then delete key c else <[key := count]> c
  | None => c
  end.

(** [*counts.entry(key).or_insert(0) += 1] *)
Definition bump (c : counts) (key : bytes) : counts := <[key := (default 0 (c !! key) + 1)%Z]> c.

(** [for (key, count) in batch { *counts.entry(key).or_insert(0) += *count }] *)
Definition add_counts (c batch : counts) : counts := union_with (λ a b, Some (a + b)%Z) c batch.

Definition count_of (c : counts) (key : bytes) : Z := default 0%Z (c !! key).

(** ** Keys and admission shape ([engine.rs]) *)

Definition congestion_access_key (tx : Transaction) : bytes :=
  match find mutable (object_inputs tx) with
  | Some input => object_key (object_id (object_ref input))
  | None =>
      match object_inputs tx with
      | input :: _ => object_key (object_id (object_ref input))
      | [] =>
          match gas_payment tx with
          | Some {| payment_objects := payment :: _ |} => object_key (object_id payment)
          | _ => str "owner:" ++ sender tx
          end
      end
  end.

(** [gas_price_is_valid] and [effective_gas_price] of the active model, v3.1. *)
Definition V3_1_PRICE_DISCOUNT : Z := 5.
Definition gas_price_is_valid (requested : Z) : bool := (0 <? requested)%Z.
Definition effective_gas_price (requested : Z) : Z :=
  if (requested =? 0)%Z then 0 else Z.max (requested / V3_1_PRICE_DISCOUNT) 1.

(** [split] with the pattern of two colons *)
Fixpoint split_colons (l : bytes) : list bytes :=
  match l with
  | [] => [[]]
  | 58%Z :: ((58%Z :: r) as r') => [] :: split_colons r
  | b :: r =>
      match split_colons r with
      | x :: xs => (b :: x) :: xs
      | [] => [[b]]
      end
  end.

Definition parsed {A} (p : KanariAddress.parse A) : bool :=
  match p with KanariAddress.Parsed _ => true | KanariAddress.Failed _ => false end.

(** What the surrounding node answers: the chain, and the persistent store when
    there is one (its committed-transaction index and its nonce watermarks). *)
Record Store := {
  store_committed : bytes → result bool;
  store_watermark : result (gmap bytes Z)
}.
Record Engine := {
  eng_blockchain : Blockchain;
  eng_store : option Store
}.

Definition try_is_transaction_committed (eng : Engine) (h : bytes) : result bool :=
  if is_transaction_hash_executed (eng_blockchain eng) h then Ok true
  else match eng_store eng with
       | None => Ok false
       | Some store => store_committed store h
       end.

(** Huge legacy nonces count as zero. *)
Definition cap_watermark (m : gmap bytes Z) : gmap bytes Z :=
  (λ v, if (MAX_WATERMARK <=? v)%Z then 0%Z else v) <$> m.

(** The watermarks used by admission. *)
Definition sender_watermark (eng : Engine) : result (gmap bytes Z) :=
  match eng_store eng with
  | None => Ok ∅
  | Some store =>
      let? m := store_watermark store in
      Ok (cap_watermark m)
  end.

(** ** Batch order *)

(** [a.4.cmp(&b.4).then_with(..)]: primary key, sender, nonce, hash. *)
Definition record_leb (a b : PendingTransactionRecord * Z) : bool :=
  if negb (bool_decide (rec_primary a.1 = rec_primary b.1)) then
    bytes_leb (rec_primary a.1) (rec_primary b.1)
  else if negb (bool_decide (rec_sender a.1 = rec_sender b.1)) then
    bytes_leb (rec_sender a.1) (rec_sender b.1)
  else if negb (a.2 =? b.2)%Z then (a.2 <=? b.2)%Z
  else bytes_leb (rec_hash a.1) (rec_hash b.1).

(** ** The admission loop *)

Record Accepted := {
  batch_hashes : gset bytes;
  accepted_hashes : list bytes;
  accepted_counts_by_sender : counts;
  accepted_counts_by_access : counts;
  accepted_counts_by_primary_access : counts;
  accepted_counts_by_congestion_access : counts
}.

Definition accepted_none : Accepted :=
  {| batch_hashes := ∅; accepted_hashes := []; accepted_counts_by_sender := ∅;
     accepted_counts_by_access := ∅; accepted_counts_by_primary_access := ∅;
     accepted_counts_by_congestion_access := ∅ |}.

(** The keys a record adds to the access counts: its primary key, then the rest. *)
Definition all_access (r : PendingTransactionRecord) : list bytes := rec_primary r :: rec_access r.

Definition accept (acc : Accepted) (r : PendingTransactionRecord) : Accepted :=
  {| batch_hashes := {[rec_hash r]} ∪ batch_hashes acc;
     accepted_hashes := accepted_hashes acc ++ [rec_hash r];
     accepted_counts_by_sender := bump (accepted_counts_by_sender acc) (rec_sender r);
     accepted_counts_by_access := fold_left bump (all_access r) (accepted_counts_by_access acc);
     accepted_counts_by_primary_access := bump (accepted_counts_by_primary_access acc) (rec_primary r);
     accepted_counts_by_congestion_access :=
       bump (accepted_counts_by_congestion_access acc) (rec_congestion r) |}.

Definition depth (pending batch : counts) (key : bytes) : Z :=
  saturating_add (count_of pending key) (count_of batch key).

Definition check_record (mp : MempoolState) (executed : gset bytes) (watermark : gmap bytes Z)
    (acc : Accepted) (e : PendingTransactionRecord * Z) : result unit :=
  let '(r, nonce) := e in
  if bool_decide (rec_hash r ∈ pending_tx_hashes mp) || bool_decide (rec_hash r ∈ batch_hashes acc)
  then Err "Transaction already in pending pool" else
  if bool_decide (rec_hash r ∈ executed) then Err "Transaction already executed" else
  if match watermark !! rec_sender r with Some max_committed => (nonce <=? max_committed)%Z
     | None => false end then Err "Transaction nonce is stale" else
  if (MAX_PENDING_PER_SENDER <=?
      depth (pending_sender_counts mp) (accepted_counts_by_sender acc) (rec_sender r))%Z
  then Err "Sender has too many pending transactions" else
  if (MAX_PENDING_PER_PRIMARY_ACCESS_LANE <=?
      depth (pending_primary_access_counts mp) (accepted_counts_by_primary_access acc)
        (rec_primary r))%Z
  then Err "Transaction lane is saturated" else
  if (MAX_PENDING_PER_PRIMARY_ACCESS_LANE <=?
      depth (pending_congestion_access_counts mp) (accepted_counts_by_congestion_access acc)
        (rec_congestion r))%Z
  then Err "Transaction congestion lane is saturated" else Ok tt.

Fixpoint admit_loop (mp : MempoolState) (executed : gset bytes) (watermark : gmap bytes Z)
    (acc : Accepted) (batch : list (PendingTransactionRecord * Z)) : result Accepted :=
  match batch with
  | [] => Ok acc
  | e :: batch =>
      let? _ := check_record mp executed watermark acc e in
      admit_loop mp executed watermark (accept acc e.1) batch
  end.

(** The commit of a batch under the write lock. *)
Definition commit_batch (mp : MempoolState) (records : list PendingTransactionRecord)
    (batch_bytes : Z) (acc : Accepted) : MempoolState :=
  {| pending_txs := pending_txs mp ++ records;
     pending_bytes := saturating_add (pending_bytes mp) batch_bytes;
     pending_tx_hashes := pending_tx_hashes mp ∪ list_to_set (accepted_hashes acc);
     pending_sender_counts := add_counts (pending_sender_counts mp) (accepted_counts_by_sender acc);
     pending_access_counts := add_counts (pending_access_counts mp) (accepted_counts_by_access acc);
     pending_primary_access_counts :=
       add_counts (pending_primary_access_counts mp) (accepted_counts_by_primary_access acc);
     pending_congestion_access_counts :=
       add_counts (pending_congestion_access_counts mp) (accepted_counts_by_congestion_access acc) |}.

Fixpoint map_result {A B} (f : A → result B) (l : list A) : result (list B) :=
  match l with
  | [] => Ok []
  | x :: l => let? y := f x in let? ys := map_result f l in Ok (y :: ys)
  end.

(** [try_fold(0usize, checked_add)] *)
Fixpoint sum_sizes (total : Z) (sizes : list nat) : result Z :=
  match sizes with
  | [] => Ok total
  | s :: sizes =>
      match checked_add total (Z.of_nat s) with
      | Some total => sum_sizes total sizes
      | None => Err "Mempool batch byte size overflow"
      end
  end.

Section Submit.
Context {B3 : Blake3} {HX : Hex} {BC : Bcs}.
(** Third-party and platform functions: signature schemes, SHA3-256, Unicode case
    mapping, serialized sizes, Move identifiers and type tags. *)
Context (verify_signature_raw : bytes → bytes → bytes → result bool)
  (sha3_256 to_uppercase to_lowercase : bytes → bytes)
  (transaction_size : Transaction → result nat) (signed_size : SignedTransaction → result nat)
  (effects_size : TransactionEffects → result nat)
  (identifier_ok type_tag_ok : bytes → bool).

Local Abbreviation parse_address := (KanariAddress.parse_to_account_address sha3_256 to_uppercase).

Definition check_module_path (module : bytes) : result unit :=
  match split_colons module with
  | [address; module_name] =>
      if bool_decide (address = []) || bool_decide (module_name = []) then
        Err "Invalid module format. Expected: address::module" else
      if negb (parsed (parse_address address)) then Err "Invalid entry-function module address" else
      ensure (identifier_ok module_name) "Invalid entry-function module name"
  | _ => Err "Invalid module format. Expected: address::module"
  end.

Definition validate_transaction_admission_shape (tx : Transaction) : result unit :=
  let? size := transaction_size tx in
  let? _ := ensure (Z.of_nat size <=? MAX_TRANSACTION_BYTES)%Z
              "Transaction exceeds byte admission limit" in
  let? _ := ensure (gas_limit tx <=? MAX_TRANSACTION_GAS_LIMIT)%Z
              "Transaction gas limit exceeds protocol maximum" in
  let? _ := ensure (nonce tx <=? MAX_NONCE)%Z "Transaction nonce exceeds maximum" in
  let? _ := match native_call tx with
            | Some c => ensure (0 <? required_native_amount c)%Z
                          "Native transfer/burn amount must be non-zero"
            | None => Ok tt
            end in
  let? _ := ensure (parsed (parse_address (sender_address tx)))
              "Invalid transaction sender address" in
  let? _ := match tx with
            | ExecuteFunction _ module _ type_args _ _ =>
                let? _ := check_module_path module in
                ensure (forallb type_tag_ok type_args) "Invalid type argument"
            | _ => Ok tt
            end in
  let? _ := ensure (0 <? gas_limit tx)%Z "Transaction gas limit must be non-zero" in
  ensure (gas_price_is_valid (gas_price tx))
    "Transaction gas price is not valid for the active gas model".

Definition pending_record_size (s : SignedTransaction) (metadata : PendingTransactionMetadata) :
    result nat :=
  let? transaction_bytes := signed_size s in
  let? effects_bytes := match preview_effects metadata with
                        | Some e => effects_size e | None => Ok 0 end in
  let total := transaction_bytes + effects_bytes + 128 in
  if (Z.of_nat total <=? u64_max)%Z then Ok total
  else Err "Pending transaction memory accounting overflow".

(** One element of the parallel verification pass. *)
Definition verify_record (metadata : PendingTransactionMetadata) (s : SignedTransaction) :
    result (PendingTransactionRecord * Z) :=
  let? verified := into_verified verify_signature_raw s in
  let tx := transaction (signed verified) in
  let? _ := validate_transaction_admission_shape tx in
  let? size := pending_record_size (signed verified) metadata in
  Ok ({| rec_signed := signed verified; rec_metadata := metadata;
         rec_hash := verified_hash verified;
         rec_sender := KanariAddress.normalize_addr sha3_256 to_uppercase to_lowercase
                         (sender_address tx);
         rec_primary := primary_access_key tx; rec_congestion := congestion_access_key tx;
         rec_access := object_access_keys tx; rec_size := size |}, nonce tx).

Definition submit_transactions_batch_internal (eng : Engine)
    (signed_txs : list SignedTransaction) (metadata : PendingTransactionMetadata) :
    st MempoolState (list bytes) := λ mp,
  match signed_txs with
  | [] => (mp, Ok [])
  | _ =>
      let outcome :=
        let batch_size := Z.of_nat (length signed_txs) in
        let? _ := ensure (saturating_add (Z.of_nat (length (pending_txs mp))) batch_size
                          <=? MAX_MEMPOOL_SIZE)%Z "Mempool is currently full." in
        let? verified_txs := map_result (verify_record metadata) signed_txs in
        let? batch_bytes := sum_sizes 0 (map (λ e, rec_size e.1) verified_txs) in
        let verified_txs := sort_by record_leb verified_txs in
        let? committed := map_result (λ e, try_is_transaction_committed eng (rec_hash e.1))
                            verified_txs in
        let executed_hashes : gset bytes :=
          list_to_set (map fst (filter (λ p, p.2 = true)
            (combine (map (λ e, rec_hash e.1) verified_txs) committed))) in
        let? _ := ensure (saturating_add (Z.of_nat (length (pending_txs mp))) batch_size
                          <=? MAX_MEMPOOL_SIZE)%Z "Mempool is currently full." in
        let? _ := ensure (saturating_add (pending_bytes mp) batch_bytes <=? MAX_MEMPOOL_BYTES)%Z
                    "Mempool byte budget is exhausted." in
        let? watermark := sender_watermark eng in
        let? acc := admit_loop mp executed_hashes watermark accepted_none verified_txs in
        Ok (commit_batch mp (map fst verified_txs) batch_bytes acc, accepted_hashes acc) in
      match outcome with
      | Ok (mp, hashes) => (mp, Ok hashes)
      | Err e => (mp, Err e)
      end
  end.
End Submit.

(** ** Removal *)

Definition remove_pending_sender_counts (c : counts) (txs : list PendingTransactionRecord) : counts :=
  fold_left (λ c r, decrement_pending_count c (rec_sender r)) txs c.
Definition remove_pending_access_counts (c : counts) (txs : list PendingTransactionRecord) : counts :=
  fold_left (λ c r, fold_left decrement_pending_count (all_access r) c) txs c.
Definition remove_pending_primary_access_counts (c : counts) (txs : list PendingTransactionRecord) :
    counts := fold_left (λ c r, decrement_pending_count c (rec_primary r)) txs c.
Definition remove_pending_congestion_access_counts (c : counts)
    (txs : list PendingTransactionRecord) : counts :=
  fold_left (λ c r, decrement_pending_count c (rec_congestion r)) txs c.

Definition size_sum (txs : list PendingTransactionRecord) : Z :=
  fold_left (λ total r, saturating_add total (Z.of_nat (rec_size r))) txs 0%Z.

(** The state after removing the records with a hash in [target]. *)
Definition drop_records (target : gset bytes) (mp : MempoolState) : MempoolState :=
  let removed := filter (λ r, rec_hash r ∈ target) (pending_txs mp) in
  {| pending_txs := filter (λ r, rec_hash r ∉ target) (pending_txs mp);
     pending_bytes := saturating_sub (pending_bytes mp) (size_sum removed);
     pending_tx_hashes := pending_tx_hashes mp ∖ target;
     pending_sender_counts := remove_pending_sender_counts (pending_sender_counts mp) removed;
     pending_access_counts := remove_pending_access_counts (pending_access_counts mp) removed;
     pending_primary_access_counts :=
       remove_pending_primary_access_counts (pending_primary_access_counts mp) removed;
     pending_congestion_access_counts :=
       remove_pending_congestion_access_counts (pending_congestion_access_counts mp) removed |}.

Definition remove_pending_transactions_by_hashes (hashes : list bytes) (mp : MempoolState) :
    MempoolState * list PendingTransactionRecord :=
  if bool_decide (hashes = []) then (mp, []) else
  let target : gset bytes := list_to_set hashes in
  let removed := filter (λ r, rec_hash r ∈ target) (pending_txs mp) in
  if bool_decide (removed = []) then (mp, []) else (drop_records target mp, removed).

(** The mempool section of [finalize_checkpoint_metadata]: all pending
    transactions are cleared when they are exactly the committed ones in order,
    otherwise the committed ones are removed one by one. *)
Definition drain_committed (committed : list bytes) (mp : MempoolState) : MempoolState :=
  if bool_decide (map rec_hash (pending_txs mp) = committed) then empty_mempool
  else drop_records (list_to_set committed) mp.

(** ** Queries *)

Definition pending_tx_count_for_sender {HX : Hex} (sha3_256 to_uppercase to_lowercase : bytes → bytes)
    (mp : MempoolState) (sender : bytes) : Z :=
  count_of (pending_sender_counts mp)
    (KanariAddress.normalize_addr sha3_256 to_uppercase to_lowercase sender).
Definition pending_tx_count_for_primary_access (mp : MempoolState) (key : bytes) : Z :=
  count_of (pending_primary_access_counts mp) key.
Definition pending_tx_count_for_congestion_access (mp : MempoolState) (key : bytes) : Z :=
  count_of (pending_congestion_access_counts mp) key.
Definition pending_access_keys_snapshot (mp : MempoolState) : gset bytes :=
  dom (pending_access_counts mp).
