(* ===== verification/MempoolTheorems.v ===== *)
(** * Theorems about the mempool

    The derived fields of [MempoolState] are functions of its pending list; every
    operation keeps them so and keeps the admission limits.  Admission is all or
    nothing, and what it admits was verified, is new and is within the limits. *)

From stdpp Require Import base list gmap strings sorting.
From Stdlib Require Import ZArith Lia Sorted.
From S2P Require Import Prelude Order Hashing Text Address GasCoin Transaction TypesTheorems Blockchain BlockchainTheorems Mempool.

(** ** Counters *)

Definition count_key (k : bytes) (keys : list bytes) : nat := length (filter (λ x, x = k) keys).

(** [c] counts the occurrences in [keys], without zero entries. *)
Definition counter_ok (c : counts) (keys : list bytes) : Prop :=
  ∀ k, c !! k = if count_key k keys =? 0 then None else Some (Z.of_nat (count_key k keys)).

Lemma count_key_cons k x keys :
  count_key k (x :: keys) = (if decide (x = k) then 1 else 0) + count_key k keys.
Proof. unfold count_key. rewrite filter_cons. by destruct (decide (x = k)). Qed.

Lemma count_key_app k keys keys' : count_key k (keys ++ keys') = count_key k keys + count_key k keys'.
Proof. unfold count_key. by rewrite filter_app, length_app. Qed.

Lemma count_key_perm k keys keys' : keys ≡ₚ keys' → count_key k keys = count_key k keys'.
Proof. intros HP. unfold count_key. by rewrite HP. Qed.

#[export] Instance counter_ok_proper c : Proper ((≡ₚ) ==> iff) (counter_ok c).
Proof.
  intros keys keys' HP. unfold counter_ok. split; intros H k; specialize (H k);
    by rewrite (count_key_perm k _ _ HP) in *.
Qed.

Lemma counter_ok_nil : counter_ok ∅ [].
Proof. intros k. apply lookup_empty. Qed.

Lemma counter_count c keys k : counter_ok c keys → count_of c k = Z.of_nat (count_key k keys).
Proof. intros H. unfold count_of. rewrite H. by destruct (count_key k keys). Qed.

Lemma counter_bump c keys k : counter_ok c keys → counter_ok (bump c k) (keys ++ [k]).
Proof.
  intros H k'. unfold bump. rewrite lookup_insert, count_key_app, count_key_cons.
  change (default 0 (c !! k))%Z with (count_of c k). rewrite (counter_count c keys k H).
  case_decide as E.
  - subst k'. replace (count_key k keys + (1 + count_key k [])) with (S (count_key k keys)).
    + cbn [Nat.eqb]. f_equal. lia.
    + change (count_key k []) with 0. lia.
  - rewrite H. change (count_key k' []) with 0. by rewrite !Nat.add_0_r.
Qed.

Lemma counter_bumps c keys ks : counter_ok c keys → counter_ok (fold_left bump ks c) (keys ++ ks).
Proof.
  revert c keys. induction ks as [|k ks IH]; intros c keys H; cbn [fold_left].
  - by rewrite app_nil_r.
  - replace (keys ++ k :: ks) with ((keys ++ [k]) ++ ks) by by rewrite <- app_assoc.
    by apply IH, counter_bump.
Qed.

Lemma counter_add c c' keys keys' :
  counter_ok c keys → counter_ok c' keys' → counter_ok (add_counts c c') (keys ++ keys').
Proof.
  intros H H' k. unfold add_counts. rewrite lookup_union_with, H, H', count_key_app.
  destruct (count_key k keys) as [|n], (count_key k keys') as [|n']; cbn [Nat.eqb Nat.add]; try done.
  - by rewrite Nat.add_0_r.
  - unfold union_with, option_union_with. cbn. f_equal. lia.
Qed.

Lemma counter_decrement c keys k :
  counter_ok c (k :: keys) → counter_ok (decrement_pending_count c k) keys.
Proof.
  intros H k'. pose proof (H k) as Hk. unfold decrement_pending_count.
  rewrite count_key_cons, decide_True in Hk by done. cbn [Nat.add Nat.eqb] in Hk. rewrite Hk.
  unfold saturating_sub.
  replace (Z.max (Z.of_nat (S (count_key k keys)) - 1) 0) with (Z.of_nat (count_key k keys)) by lia.
  specialize (H k'). rewrite count_key_cons in H.
  destruct (Z.eqb_spec (Z.of_nat (count_key k keys)) 0) as [E|E].
  - rewrite lookup_delete. case_decide as Ek.
    + subst k'. by replace (count_key k keys) with 0 by lia.
    + by rewrite H.
  - rewrite lookup_insert. case_decide as Ek; [|by rewrite H].
    subst k'. destruct (count_key k keys); [done|]. done.
Qed.

Lemma counter_decrements c keys ks :
  counter_ok c (ks ++ keys) → counter_ok (fold_left decrement_pending_count ks c) keys.
Proof.
  revert c. induction ks as [|k ks IH]; intros c H; [done|]. cbn [fold_left].
  by apply IH, counter_decrement.
Qed.

(** Decrementing the keys of a list of records, several per record. *)
Lemma counter_remove {A} (f : A → list bytes) (removed : list A) (keys : list bytes) c :
  counter_ok c (concat (map f removed) ++ keys) →
  counter_ok (fold_left (λ c r, fold_left decrement_pending_count (f r) c) removed c) keys.
Proof.
  revert c. induction removed as [|r removed IH]; intros c H; [done|]. cbn [fold_left].
  apply IH, counter_decrements. cbn [map concat] in H. by rewrite app_assoc.
Qed.

Lemma count_key_elem k keys : k ∈ keys ↔ count_key k keys ≠ 0.
Proof.
  induction keys as [|x keys IH]; [by rewrite elem_of_nil|].
  rewrite elem_of_cons, count_key_cons, IH. case_decide; naive_solver lia.
Qed.

Lemma counter_dom c keys k : counter_ok c keys → k ∈ dom c ↔ k ∈ keys.
Proof.
  intros H. rewrite elem_of_dom, H, count_key_elem.
  destruct (count_key k keys); cbn; split; try done; by intros [].
Qed.

(** ** The invariant *)

Definition keys_by (f : PendingTransactionRecord → list bytes)
    (txs : list PendingTransactionRecord) : list bytes := concat (map f txs).

Definition by_sender (r : PendingTransactionRecord) : list bytes := [rec_sender r].
Definition by_primary (r : PendingTransactionRecord) : list bytes := [rec_primary r].
Definition by_congestion (r : PendingTransactionRecord) : list bytes := [rec_congestion r].

Definition total_size (txs : list PendingTransactionRecord) : Z :=
  Z.of_nat (list_sum (map rec_size txs)).

(** No key of [f] occurs more than [cap] times. *)
Definition capped (f : PendingTransactionRecord → list bytes) (cap : Z)
    (txs : list PendingTransactionRecord) : Prop :=
  ∀ k, (Z.of_nat (count_key k (keys_by f txs)) ≤ cap)%Z.

Record mempool_inv (mp : MempoolState) : Prop := {
  inv_hashes : NoDup (map rec_hash (pending_txs mp))
    ∧ pending_tx_hashes mp = list_to_set (map rec_hash (pending_txs mp));
  inv_bytes : pending_bytes mp = total_size (pending_txs mp);
  inv_senders : counter_ok (pending_sender_counts mp) (keys_by by_sender (pending_txs mp));
  inv_access : counter_ok (pending_access_counts mp) (keys_by all_access (pending_txs mp));
  inv_primary : counter_ok (pending_primary_access_counts mp) (keys_by by_primary (pending_txs mp));
  inv_congestion :
    counter_ok (pending_congestion_access_counts mp) (keys_by by_congestion (pending_txs mp));
  inv_size : (Z.of_nat (length (pending_txs mp)) ≤ MAX_MEMPOOL_SIZE)%Z;
  inv_budget : (pending_bytes mp ≤ MAX_MEMPOOL_BYTES)%Z;
  inv_sender_cap : capped by_sender MAX_PENDING_PER_SENDER (pending_txs mp);
  inv_primary_cap : capped by_primary MAX_PENDING_PER_PRIMARY_ACCESS_LANE (pending_txs mp);
  inv_congestion_cap : capped by_congestion MAX_PENDING_PER_PRIMARY_ACCESS_LANE (pending_txs mp)
}.

Lemma keys_by_app f l k : keys_by f (l ++ k) = keys_by f l ++ keys_by f k.
Proof. unfold keys_by. by rewrite map_app, concat_app. Qed.

Lemma keys_by_sender l : keys_by by_sender l = map rec_sender l.
Proof. unfold keys_by. induction l as [|r l IH]; [done|]. cbn [map concat]. by rewrite IH. Qed.

Lemma elem_of_keys_by f l k : k ∈ keys_by f l ↔ ∃ r, r ∈ l ∧ k ∈ f r.
Proof.
  unfold keys_by. rewrite list_elem_of_In, in_concat. setoid_rewrite in_map_iff.
  setoid_rewrite <- list_elem_of_In. naive_solver.
Qed.

Lemma keys_by_perm f l k : l ≡ₚ k → keys_by f l ≡ₚ keys_by f k.
Proof.
  induction 1 as [|x l k _ IH|x y l|l1 l2 l3 _ IH1 _ IH2]; unfold keys_by in *; cbn [map concat].
  - done.
  - by rewrite IH.
  - rewrite !app_assoc. apply Permutation_app_tail, Permutation_app_comm.
  - by rewrite IH1.
Qed.

Lemma total_size_app l k : total_size (l ++ k) = (total_size l + total_size k)%Z.
Proof. unfold total_size. rewrite map_app, list_sum_app. lia. Qed.

Lemma total_size_perm l k : l ≡ₚ k → total_size l = total_size k.
Proof.
  intros HP. unfold total_size. f_equal.
  induction HP as [|x l k _ IH|x y l|l1 l2 l3 _ IH1 _ IH2]; cbn [map list_sum fold_right] in *; unfold list_sum in *; cbn [fold_right] in *; lia.
Qed.

Lemma capped_sub f cap l k :
  capped f cap (l ++ k) → capped f cap l ∧ capped f cap k.
Proof.
  intros H. split; intros key; specialize (H key); rewrite keys_by_app, count_key_app in H; lia.
Qed.

Lemma capped_perm f cap l k : l ≡ₚ k → capped f cap l → capped f cap k.
Proof. intros HP H key. by rewrite <- (count_key_perm key _ _ (keys_by_perm f _ _ HP)). Qed.

Lemma filter_split (target : gset bytes) (txs : list PendingTransactionRecord) :
  filter (λ r, rec_hash r ∈ target) txs ++ filter (λ r, rec_hash r ∉ target) txs ≡ₚ txs.
Proof. apply filter_app_complement. Qed.

Lemma size_sum_exact txs :
  (total_size txs ≤ u64_max)%Z → size_sum txs = total_size txs.
Proof.
  assert (H : ∀ txs acc, (0 ≤ acc)%Z → (acc + total_size txs ≤ u64_max)%Z →
    fold_left (λ total r, saturating_add total (Z.of_nat (rec_size r))) txs acc
    = (acc + total_size txs)%Z).
  { clear. induction txs as [|r txs IH]; intros acc Ha Hb; unfold total_size in *;
      cbn [fold_left map list_sum] in *; [unfold list_sum; simpl; lia|].
    unfold list_sum in *. cbn [fold_right] in *. unfold saturating_add at 2.
    rewrite Z.min_l by lia. rewrite IH; lia. }
  intros Hb. unfold size_sum. rewrite H; lia.
Qed.

Lemma NoDup_split (target : gset bytes) (txs : list PendingTransactionRecord) :
  NoDup (map rec_hash txs) → NoDup (map rec_hash (filter (λ r, rec_hash r ∉ target) txs)).
Proof.
  intros Hnd. rewrite <- (filter_split target txs), map_app in Hnd.
  by destruct (proj1 (NoDup_app _ _) Hnd) as (_ & _ & ?).
Qed.

(** ** Removal keeps the invariant *)

Lemma drop_records_inv target mp : mempool_inv mp → mempool_inv (drop_records target mp).
Proof.
  intros H. set (removed := filter (λ r, rec_hash r ∈ target) (pending_txs mp)).
  set (kept := filter (λ r, rec_hash r ∉ target) (pending_txs mp)).
  assert (HP : removed ++ kept ≡ₚ pending_txs mp) by apply filter_split.
  assert (Hc : ∀ f c, counter_ok c (keys_by f (pending_txs mp)) →
    counter_ok (fold_left (λ c r, fold_left decrement_pending_count (f r) c) removed c) (keys_by f kept)).
  { intros f c Hf. apply counter_remove. change (concat (map f removed)) with (keys_by f removed).
    rewrite <- keys_by_app. by rewrite (keys_by_perm f _ _ HP). }
  assert (Hcap : ∀ f cap, capped f cap (pending_txs mp) → capped f cap kept).
  { intros f cap Hf. apply (capped_perm f cap _ _ (symmetry HP)), capped_sub in Hf. by destruct Hf. }
  pose proof (total_size_perm _ _ HP) as Hs. rewrite total_size_app in Hs.
  pose proof (inv_bytes mp H) as Hb. pose proof (inv_budget mp H) as Hbud.
  assert (Hrem : size_sum removed = total_size removed).
  { apply size_sum_exact. unfold u64_max, MAX_MEMPOOL_BYTES in *. unfold total_size in *. lia. }
  assert (Hkept : saturating_sub (pending_bytes mp) (size_sum removed) = total_size kept).
  { rewrite Hrem, Hb, <- Hs. unfold saturating_sub, total_size. lia. }
  split; cbn [drop_records pending_txs pending_bytes pending_tx_hashes pending_sender_counts
    pending_access_counts pending_primary_access_counts pending_congestion_access_counts];
    fold removed kept.
  - destruct (inv_hashes mp H) as [Hnd Hh]. split; [by apply NoDup_split|]. rewrite Hh.
    apply set_eq. intros h. rewrite elem_of_difference, !elem_of_list_to_set, !list_elem_of_fmap.
    unfold kept. split.
    + intros [(r & -> & Hr) Hn]. exists r. split; [done|]. by apply list_elem_of_filter.
    + intros (r & -> & Hr). apply list_elem_of_filter in Hr as [Hn Hr]. split; [eauto|done].
  - exact Hkept.
  - apply (Hc by_sender), (inv_senders mp H).
  - apply (Hc all_access), (inv_access mp H).
  - apply (Hc by_primary), (inv_primary mp H).
  - apply (Hc by_congestion), (inv_congestion mp H).
  - pose proof (inv_size mp H) as Hsz. apply Permutation_length in HP. rewrite length_app in HP. lia.
  - rewrite Hkept. unfold total_size in *. lia.
  - apply Hcap, (inv_sender_cap mp H).
  - apply Hcap, (inv_primary_cap mp H).
  - apply Hcap, (inv_congestion_cap mp H).
Qed.

Lemma empty_mempool_inv : mempool_inv empty_mempool.
Proof. split; cbn; try done. split; [constructor|done]. Qed.

(** ** Admission *)

Lemma sum_sizes_exact total sizes n :
  sum_sizes total sizes = Ok n → n = (total + Z.of_nat (list_sum sizes))%Z.
Proof.
  revert total. induction sizes as [|s sizes IH]; intros total; cbn [sum_sizes].
  - intros [= ->]. simpl. lia.
  - unfold checked_add. destruct (_ <=? _)%Z; [|done]. intros H. rewrite (IH _ H).
    unfold list_sum. cbn [fold_right]. lia.
Qed.

Lemma map_result_forall2 {A B} (f : A → result B) l ys :
  map_result f l = Ok ys → Forall2 (λ x y, f x = Ok y) l ys.
Proof.
  revert ys. induction l as [|x l IH]; intros ys; cbn [map_result].
  - intros [= <-]. constructor.
  - destruct (f x) as [y|] eqn:E; [|done]. cbn [result_bind].
    destruct (map_result f l) as [ys'|] eqn:E'; [|done]. cbn [result_bind]. intros [= <-].
    constructor; [done|by apply IH].
Qed.

(** The counters of the accepted part of a batch count its records. *)
Record accepted_ok (acc : Accepted) (rs : list PendingTransactionRecord) : Prop := {
  acc_hashes : accepted_hashes acc = map rec_hash rs;
  acc_seen : batch_hashes acc = list_to_set (map rec_hash rs);
  acc_senders : counter_ok (accepted_counts_by_sender acc) (keys_by by_sender rs);
  acc_access : counter_ok (accepted_counts_by_access acc) (keys_by all_access rs);
  acc_primary : counter_ok (accepted_counts_by_primary_access acc) (keys_by by_primary rs);
  acc_congestion : counter_ok (accepted_counts_by_congestion_access acc) (keys_by by_congestion rs)
}.

Lemma accepted_none_ok : accepted_ok accepted_none [].
Proof. split; done. Qed.

Lemma accept_ok acc rs r : accepted_ok acc rs → accepted_ok (accept acc r) (rs ++ [r]).
Proof.
  intros H. split; cbn [accept accepted_hashes batch_hashes accepted_counts_by_sender
    accepted_counts_by_access accepted_counts_by_primary_access accepted_counts_by_congestion_access];
    rewrite ?keys_by_app, ?map_app.
  - by rewrite (acc_hashes _ _ H).
  - rewrite (acc_seen _ _ H), list_to_set_app_L. cbn. by rewrite (right_id_L ∅ (∪)), (comm_L (∪)).
  - apply counter_bump, (acc_senders _ _ H).
  - unfold keys_by at 2. cbn [map concat]. rewrite app_nil_r. apply counter_bumps, (acc_access _ _ H).
  - apply counter_bump, (acc_primary _ _ H).
  - apply counter_bump, (acc_congestion _ _ H).
Qed.

(** What the loop establishes of one record, relative to those before it. *)
Definition admissible (executed : gset bytes) (watermark : gmap bytes Z)
    (e : PendingTransactionRecord * Z) : Prop :=
  rec_hash e.1 ∉ executed
  ∧ ∀ w, watermark !! rec_sender e.1 = Some w → (w < e.2)%Z.

Lemma depth_below c c' keys keys' cap k :
  counter_ok c keys → counter_ok c' keys' → (cap ≤ u64_max)%Z →
  (cap <=? depth c c' k)%Z = false →
  (Z.of_nat (count_key k (keys ++ keys')) < cap)%Z.
Proof.
  intros H H' Hcap. unfold depth, saturating_add.
  rewrite (counter_count _ _ k H), (counter_count _ _ k H'), count_key_app.
  intros E. apply Z.leb_gt in E. lia.
Qed.

Lemma capped_snoc f cap rs r k :
  f r = [k] → capped f cap rs → (Z.of_nat (count_key k (keys_by f rs)) < cap)%Z →
  capped f cap (rs ++ [r]).
Proof.
  intros Ef Hc Hk k'. rewrite keys_by_app, count_key_app. unfold keys_by at 2.
  cbn [map concat]. rewrite Ef, app_nil_r, count_key_cons. change (count_key k' []) with 0.
  case_decide as E; [subst; lia|]. specialize (Hc k'). lia.
Qed.

(** The part of the invariant that depends on the pending list alone. *)
Definition within_limits (txs : list PendingTransactionRecord) : Prop :=
  NoDup (map rec_hash txs) ∧ capped by_sender MAX_PENDING_PER_SENDER txs
  ∧ capped by_primary MAX_PENDING_PER_PRIMARY_ACCESS_LANE txs
  ∧ capped by_congestion MAX_PENDING_PER_PRIMARY_ACCESS_LANE txs.

Lemma inv_within_limits mp : mempool_inv mp → within_limits (pending_txs mp).
Proof.
  intros H. destruct (inv_hashes mp H) as [Hnd _].
  split; [done|]. split; [apply H|]. split; apply H.
Qed.

Lemma check_record_ok mp executed watermark acc rs e u :
  mempool_inv mp → accepted_ok acc rs → within_limits (pending_txs mp ++ rs) →
  check_record mp executed watermark acc e = Ok u →
  admissible executed watermark e ∧ within_limits (pending_txs mp ++ rs ++ [e.1]).
Proof.
  intros Hmp Hacc (Hnd & H1 & H2 & H3) Hc. destruct e as [r n]. cbn [check_record fst] in *.
  destruct (bool_decide (rec_hash r ∈ pending_tx_hashes mp) || _) eqn:Edup; [done|].
  destruct (bool_decide (rec_hash r ∈ executed)) eqn:Eex; [done|].
  destruct (match watermark !! rec_sender r with Some _ => _ | None => _ end) eqn:Ew; [done|].
  destruct (MAX_PENDING_PER_SENDER <=? _)%Z eqn:Es; [done|].
  destruct (MAX_PENDING_PER_PRIMARY_ACCESS_LANE <=? depth (pending_primary_access_counts mp) _ _)%Z
    eqn:Ep; [done|].
  destruct (MAX_PENDING_PER_PRIMARY_ACCESS_LANE <=? depth (pending_congestion_access_counts mp) _ _)%Z
    eqn:Ec; [done|]. clear Hc.
  apply orb_false_elim in Edup as [Ed1 Ed2]. apply bool_decide_eq_false in Ed1, Ed2, Eex.
  destruct (inv_hashes mp Hmp) as [_ Hh]. rewrite Hh, elem_of_list_to_set in Ed1.
  rewrite (acc_seen _ _ Hacc), elem_of_list_to_set in Ed2.
  apply (depth_below _ _ _ _ _ _ (inv_senders mp Hmp) (acc_senders _ _ Hacc)) in Es; [|done].
  apply (depth_below _ _ _ _ _ _ (inv_primary mp Hmp) (acc_primary _ _ Hacc)) in Ep; [|done].
  apply (depth_below _ _ _ _ _ _ (inv_congestion mp Hmp) (acc_congestion _ _ Hacc)) in Ec; [|done].
  rewrite <- keys_by_app in Es, Ep, Ec. rewrite app_assoc. split; [split|].
  - exact Eex.
  - intros w Hw. cbn in Hw. rewrite Hw in Ew. apply Z.leb_gt in Ew. exact Ew.
  - split; [|split; [|split]]; [|by eapply capped_snoc..].
    rewrite map_app. apply NoDup_app. split; [done|]. split; [|repeat constructor; by intros ?%elem_of_nil].
    intros h Hin Hh'. cbn in Hh'. apply list_elem_of_singleton in Hh' as ->.
    rewrite map_app, elem_of_app in Hin. by destruct Hin.
Qed.

Lemma admit_loop_ok mp executed watermark batch acc rs acc' :
  mempool_inv mp → accepted_ok acc rs → within_limits (pending_txs mp ++ rs) →
  admit_loop mp executed watermark acc batch = Ok acc' →
  accepted_ok acc' (rs ++ map fst batch) ∧ within_limits (pending_txs mp ++ rs ++ map fst batch)
  ∧ Forall (admissible executed watermark) batch.
Proof.
  intros Hmp. revert acc rs. induction batch as [|e batch IH]; intros acc rs Hacc Hl; cbn [admit_loop].
  - intros [= <-]. cbn [map]. by rewrite app_nil_r.
  - destruct (check_record mp executed watermark acc e) as [u|] eqn:E; [|done]. cbn [result_bind].
    intros Hrun. destruct (check_record_ok _ _ _ _ _ _ _ Hmp Hacc Hl E) as [Ha Hl'].
    destruct (IH _ _ (accept_ok _ _ e.1 Hacc) Hl' Hrun) as (H1 & H2 & H3).
    rewrite <- app_assoc in H1, H2. cbn [map app] in *.
    split; [done|]. split; [done|]. by constructor.
Qed.

(** Committing what the loop accepted keeps the invariant. *)
Lemma commit_batch_inv mp rs n acc :
  mempool_inv mp → accepted_ok acc rs → within_limits (pending_txs mp ++ rs) → n = total_size rs →
  (saturating_add (Z.of_nat (length (pending_txs mp))) (Z.of_nat (length rs)) <=? MAX_MEMPOOL_SIZE)%Z
  = true →
  (saturating_add (pending_bytes mp) n <=? MAX_MEMPOOL_BYTES)%Z = true →
  mempool_inv (commit_batch mp rs n acc).
Proof.
  intros Hmp Hacc (Hnd & H1 & H2 & H3) -> Hlen Hbud. apply Z.leb_le in Hlen, Hbud.
  assert (Hs : saturating_add (pending_bytes mp) (total_size rs)
               = total_size (pending_txs mp ++ rs)).
  { rewrite (inv_bytes mp Hmp), total_size_app in *. unfold saturating_add in *.
    assert (MAX_MEMPOOL_BYTES < u64_max)%Z by done. lia. }
  split; cbn [commit_batch pending_txs pending_bytes pending_tx_hashes pending_sender_counts
    pending_access_counts pending_primary_access_counts pending_congestion_access_counts];
    rewrite ?keys_by_app; try done.
  - destruct (inv_hashes mp Hmp) as [_ Hh]. split; [done|].
    by rewrite Hh, (acc_hashes _ _ Hacc), map_app, list_to_set_app_L.
  - by apply counter_add; [apply Hmp|apply Hacc].
  - by apply counter_add; [apply Hmp|apply Hacc].
  - by apply counter_add; [apply Hmp|apply Hacc].
  - by apply counter_add; [apply Hmp|apply Hacc].
  - rewrite length_app. unfold saturating_add in Hlen.
    assert (MAX_MEMPOOL_SIZE < u64_max)%Z by done. lia.
Qed.

(** ** Batch order *)

Lemma record_leb_total a b : record_leb a b = false → record_leb b a = true.
Proof.
  assert (Hb : ∀ x y : bytes, bytes_leb x y = false → bytes_leb y x = true).
  { intros x y E. destruct (bytes_le_total x y) as [H|H]; unfold bytes_le in H; congruence. }
  unfold record_leb. rewrite (bool_decide_ext (rec_primary b.1 = rec_primary a.1)
    (rec_primary a.1 = rec_primary b.1)), (bool_decide_ext (rec_sender b.1 = rec_sender a.1)
    (rec_sender a.1 = rec_sender b.1)), (Z.eqb_sym b.2 a.2) by (split; congruence).
  repeat (destruct (negb _); [auto|]).
  - intros E%Z.leb_gt. apply Z.leb_le. lia.
  - auto.
Qed.

(** ** The whole operation *)

Section Submit.
Context {B3 : Blake3} {HX : Hex} {BC : Bcs}
  (verify_signature_raw : bytes → bytes → bytes → result bool)
  (sha3_256 to_uppercase to_lowercase : bytes → bytes)
  (transaction_size : Transaction → result nat) (signed_size : SignedTransaction → result nat)
  (effects_size : TransactionEffects → result nat)
  (identifier_ok type_tag_ok : bytes → bool).
Local Abbreviation submit := (submit_transactions_batch_internal verify_signature_raw sha3_256
  to_uppercase to_lowercase transaction_size signed_size effects_size identifier_ok type_tag_ok).
Local Abbreviation verify_record := (verify_record verify_signature_raw sha3_256
  to_uppercase to_lowercase transaction_size signed_size effects_size identifier_ok type_tag_ok).

(** The pending record [e.1] and its nonce come from the submitted [s], whose
    signature was checked over the exact hash and whose fields are in range. *)
Definition vetted (s : SignedTransaction) (e : PendingTransactionRecord * Z) : Prop :=
  let tx := transaction s in
  transaction (rec_signed e.1) = tx ∧ rec_hash e.1 = tx_hash tx ∧ e.2 = nonce tx
  ∧ rec_sender e.1 = KanariAddress.normalize_addr sha3_256 to_uppercase to_lowercase (sender_address tx)
  ∧ signature s ≠ []
  ∧ (signature_cached s (tx_hash tx) = true
     ∨ verify_signature_raw (sender tx) (tx_hash tx) (signature s) = Ok true)
  ∧ (0 < gas_limit tx ≤ MAX_TRANSACTION_GAS_LIMIT)%Z ∧ (0 < gas_price tx)%Z
  ∧ (nonce tx ≤ MAX_NONCE)%Z
  ∧ ∀ c, native_call tx = Some c → (0 < required_native_amount c)%Z.

Lemma into_verified_inv s v :
  into_verified verify_signature_raw s = Ok v →
  signature s ≠ [] ∧ transaction (signed v) = transaction s
  ∧ verified_hash v = tx_hash (transaction s)
  ∧ (signature_cached s (tx_hash (transaction s)) = true
     ∨ verify_signature_raw (sender (transaction s)) (tx_hash (transaction s)) (signature s) = Ok true).
Proof.
  unfold into_verified, verified_transaction_hash. case_bool_decide; [done|].
  destruct (signature_cached s _) eqn:Ec.
  - intros [= <-]. eauto.
  - destruct (verify_signature_raw _ _ _) as [[]|] eqn:E; [|done..]. intros [= <-]. cbn. eauto.
Qed.

Lemma admission_shape_ok tx u :
  validate_transaction_admission_shape sha3_256 to_uppercase transaction_size identifier_ok
    type_tag_ok tx = Ok u →
  (0 < gas_limit tx ≤ MAX_TRANSACTION_GAS_LIMIT)%Z ∧ (0 < gas_price tx)%Z
  ∧ (nonce tx ≤ MAX_NONCE)%Z
  ∧ ∀ c, native_call tx = Some c → (0 < required_native_amount c)%Z.
Proof.
  unfold validate_transaction_admission_shape.
  intros (? & _ & (? & _ & (? & Hg%ensure_ok & (? & Hn%ensure_ok & (? & Hc & (? & _ & (? & _ &
    (? & Hg0%ensure_ok & Hp%ensure_ok)%result_bind_ok)%result_bind_ok)%result_bind_ok
    )%result_bind_ok)%result_bind_ok)%result_bind_ok)%result_bind_ok)%result_bind_ok.
  unfold gas_price_is_valid in Hp. apply Z.leb_le in Hg, Hn. apply Z.ltb_lt in Hg0, Hp.
  split; [done|]. split; [done|]. split; [done|].
  intros c E. rewrite E in Hc. by apply ensure_ok, Z.ltb_lt in Hc.
Qed.

Lemma verify_record_vetted metadata s e : verify_record metadata s = Ok e → vetted s e.
Proof.
  unfold Mempool.verify_record. intros H. inv_ok H.
  apply into_verified_inv in E as (Hs & Ht & Hh & Hsig). rewrite Ht in *.
  apply admission_shape_ok in E0. unfold vetted. cbn [fst snd rec_signed rec_hash rec_sender].
  by repeat split; try apply E0.
Qed.

(** A hash that is not among the executed ones was looked up and not found. *)
Lemma not_executed (eng : Engine) (es : list (PendingTransactionRecord * Z)) committed e :
  map_result (λ e, try_is_transaction_committed eng (rec_hash e.1)) es = Ok committed →
  e ∈ es →
  rec_hash e.1 ∉ (list_to_set (map fst (filter (λ p, p.2 = true)
    (combine (map (λ e, rec_hash e.1) es) committed))) : gset bytes) →
  try_is_transaction_committed eng (rec_hash e.1) = Ok false.
Proof.
  intros H%map_result_forall2 Hin Hn. rewrite elem_of_list_to_set in Hn.
  induction H as [|e' b es committed He' _ IH]; [by apply elem_of_nil in Hin|].
  cbn [map combine] in Hn. rewrite filter_cons in Hn. apply elem_of_cons in Hin as [->|Hin].
  - destruct b; [|done]. exfalso. apply Hn. rewrite decide_True by done. by left.
  - apply IH; [done|]. intros Hn'. apply Hn. case_decide; [by right|done].
Qed.

(** A run of [submit] either fails and changes nothing, or went through every
    stage. *)
Inductive submit_run (eng : Engine) (txs : list SignedTransaction)
    (metadata : PendingTransactionMetadata) (mp : MempoolState) : MempoolState → list bytes → Prop :=
| submit_stages ys n acc :
    let es := sort_by record_leb ys in
    Forall2 (λ s y, verify_record metadata s = Ok y) txs ys →
    n = total_size (map fst es) →
    accepted_ok acc (map fst es) →
    within_limits (pending_txs mp ++ map fst es) →
    (∀ e, e ∈ es → try_is_transaction_committed eng (rec_hash e.1) = Ok false
       ∧ ∀ wm w, sender_watermark eng = Ok wm → wm !! rec_sender e.1 = Some w → (w < e.2)%Z) →
    (saturating_add (Z.of_nat (length (pending_txs mp))) (Z.of_nat (length (map fst es)))
       <=? MAX_MEMPOOL_SIZE)%Z = true →
    (saturating_add (pending_bytes mp) n <=? MAX_MEMPOOL_BYTES)%Z = true →
    submit_run eng txs metadata mp (commit_batch mp (map fst es) n acc) (accepted_hashes acc).

Lemma submit_inversion eng txs metadata mp mp' r :
  mempool_inv mp → submit eng txs metadata mp = (mp', r) →
  match r with
  | Err _ => mp' = mp
  | Ok hashes => txs = [] ∧ mp' = mp ∧ hashes = [] ∨ submit_run eng txs metadata mp mp' hashes
  end.
Proof.
  intros Hinv. unfold submit_transactions_batch_internal.
  destruct txs as [|s0 txs0] eqn:Etxs; [intros [= <- <-]; by left|].
  rewrite <- Etxs. clear s0 txs0 Etxs.
  match goal with |- (match ?o with _ => _ end = _) → _ => destruct o as [[mp1 hs]|e] eqn:Eo end;
    intros [= <- <-]; [right|done].
  apply result_bind_ok in Eo as (? & Hsz0%ensure_ok & Eo).
  apply result_bind_ok in Eo as (ys & Hys & Eo). apply result_bind_ok in Eo as (n & Hn & Eo).
  apply result_bind_ok in Eo as (committed & Hcom & Eo).
  apply result_bind_ok in Eo as (? & Hsz%ensure_ok & Eo).
  apply result_bind_ok in Eo as (? & Hbud%ensure_ok & Eo).
  apply result_bind_ok in Eo as (wm & Hwm & Eo). apply result_bind_ok in Eo as (acc & Hloop & Eo).
  injection Eo as <- <-. pose proof (sort_by_perm record_leb ys) as HP.
  assert (Hlim : within_limits (pending_txs mp ++ [])) by (rewrite app_nil_r; by apply inv_within_limits).
  destruct (admit_loop_ok _ _ _ _ _ [] _ Hinv accepted_none_ok Hlim Hloop) as (Hacc & Hlim' & Hadm).
  cbn [app] in Hacc, Hlim'. apply map_result_forall2 in Hys.
  apply (submit_stages _ _ _ _ ys n acc); try done.
  - apply sum_sizes_exact in Hn. rewrite Hn, <- (map_map fst rec_size ys), Z.add_0_l.
    change (total_size (map fst ys) = total_size (map fst (sort_by record_leb ys))).
    apply total_size_perm. by rewrite HP.
  - intros e He. rewrite Forall_forall in Hadm. destruct (Hadm e He) as [Hex Hw].
    split; [by eapply not_executed|].
    intros wm' w Hwm'. rewrite Hwm in Hwm'. injection Hwm' as <-. apply Hw.
  - rewrite length_map, (Permutation_length HP), <- (Forall2_length _ _ _ Hys). exact Hsz.
Qed.

Lemma submit_inv eng txs metadata mp mp' r :
  mempool_inv mp → submit eng txs metadata mp = (mp', r) → mempool_inv mp'.
Proof.
  intros Hinv E. apply submit_inversion in E; [|done].
  destruct r as [hs|e]; [|by subst]. destruct E as [(_ & -> & _)|R]; [done|].
  destruct R. by apply commit_batch_inv.
Qed.

(** C30: admission of a batch is all or nothing and keeps the mempool invariant
    (counters, hash set and byte total describe the pending list; size, byte,
    sender and lane limits hold; no hash is pending twice).  On an error the
    mempool is unchanged.  On success the pending list grows by one vetted record
    per submitted transaction, in the deterministic batch order; each was neither
    pending nor executed, and its nonce is above the sender's watermark. *)
Theorem batch_admission (eng : Engine) (txs : list SignedTransaction)
    (metadata : PendingTransactionMetadata) (mp mp' : MempoolState) (r : result (list bytes)) :
  mempool_inv mp → submit eng txs metadata mp = (mp', r) →
  mempool_inv mp'
  ∧ match r with
    | Err _ => mp' = mp
    | Ok hashes => ∃ es ys,
        pending_txs mp' = pending_txs mp ++ map fst es ∧ hashes = map rec_hash (map fst es)
        ∧ es ≡ₚ ys ∧ Forall2 vetted txs ys ∧ Sorted (λ a b, record_leb a b = true) es
        ∧ ∀ e, e ∈ es →
            rec_hash e.1 ∉ map rec_hash (pending_txs mp)
            ∧ try_is_transaction_committed eng (rec_hash e.1) = Ok false
            ∧ ∀ wm w, sender_watermark eng = Ok wm → wm !! rec_sender e.1 = Some w → (w < e.2)%Z
    end.
Proof.
  intros Hinv E. split; [by eapply submit_inv|]. apply submit_inversion in E; [|done].
  destruct r as [hs|e]; [|done]. destruct E as [(-> & -> & ->)|R].
  { exists [], []. cbn. rewrite app_nil_r.
    split_and!; try done; intros e He; by apply elem_of_nil in He. }
  destruct R as [ys n acc es Hys _ Hacc Hlim Hfresh _ _].
  exists es, ys. split_and!; try done.
  - by rewrite (acc_hashes _ _ Hacc).
  - apply sort_by_perm.
  - eapply Forall2_impl; [exact Hys|]. intros s e. apply verify_record_vetted.
  - apply sort_by_sorted, record_leb_total.
  - intros e He. split; [|by apply Hfresh]. destruct Hlim as (Hnd & _).
    rewrite map_app in Hnd. apply NoDup_app in Hnd as (_ & Hd & _).
    intros Hin. apply (Hd _ Hin). by apply list_elem_of_fmap_2, list_elem_of_fmap_2.
Qed.

(** The mempool of a running node: admissions, removals by hash and the drain of
    committed transactions, in any order, against any chain and store. *)
Inductive mempool_reachable : MempoolState → Prop :=
| mempool_start : mempool_reachable empty_mempool
| mempool_submit mp eng txs metadata mp' r :
    mempool_reachable mp → submit eng txs metadata mp = (mp', r) → mempool_reachable mp'
| mempool_remove mp hashes :
    mempool_reachable mp → mempool_reachable (remove_pending_transactions_by_hashes hashes mp).1
| mempool_drain mp committed :
    mempool_reachable mp → mempool_reachable (drain_committed committed mp).
End Submit.

(** ** Removal *)

Lemma remove_state hashes mp :
  (remove_pending_transactions_by_hashes hashes mp).1 = mp
  ∨ (remove_pending_transactions_by_hashes hashes mp).1 = drop_records (list_to_set hashes) mp.
Proof.
  unfold remove_pending_transactions_by_hashes. do 2 (case_bool_decide; [by left|]). by right.
Qed.

Lemma remove_inv hashes mp :
  mempool_inv mp → mempool_inv (remove_pending_transactions_by_hashes hashes mp).1.
Proof. intros H. destruct (remove_state hashes mp) as [->| ->]; [done|]. by apply drop_records_inv. Qed.

Lemma drain_inv committed mp : mempool_inv mp → mempool_inv (drain_committed committed mp).
Proof.
  intros H. unfold drain_committed. case_bool_decide; [apply empty_mempool_inv|by apply drop_records_inv].
Qed.

(** removal by hash takes out exactly the pending transactions whose hash is
    named, returns them in queue order, keeps the others in order, and keeps the
    invariant. *)
Theorem removal_exact (hashes : list bytes) (mp mp' : MempoolState)
    (removed : list PendingTransactionRecord) :
  mempool_inv mp → remove_pending_transactions_by_hashes hashes mp = (mp', removed) →
  mempool_inv mp'
  ∧ removed = filter (λ r, rec_hash r ∈ hashes) (pending_txs mp)
  ∧ pending_txs mp' = filter (λ r, rec_hash r ∉ hashes) (pending_txs mp)
  ∧ ∀ h, h ∈ pending_tx_hashes mp' ↔ h ∈ pending_tx_hashes mp ∧ h ∉ hashes.
Proof.
  intros H E. pose proof (remove_inv hashes mp H) as Hinv. rewrite E in Hinv. cbn [fst] in Hinv.
  assert (Hcore : removed = filter (λ r, rec_hash r ∈ hashes) (pending_txs mp)
    ∧ pending_txs mp' = filter (λ r, rec_hash r ∉ hashes) (pending_txs mp)).
  { unfold remove_pending_transactions_by_hashes in E.
    rewrite (list_filter_iff (λ r, rec_hash r ∈ (list_to_set hashes : gset bytes))
      (λ r, rec_hash r ∈ hashes)) in E by (intros; apply elem_of_list_to_set).
    case_bool_decide as Eh.
    { injection E as <- <-. subst hashes. split.
      - symmetry. apply filter_nothing, Forall_forall. intros r _. apply not_elem_of_nil.
      - symmetry. apply filter_all, Forall_forall. intros r _. apply not_elem_of_nil. }
    case_bool_decide as Er; injection E as <- <-.
    { split; [done|]. symmetry. by apply filter_nil_complement. }
    split; [done|]. cbn [drop_records pending_txs]. apply list_filter_iff. intros r.
    by rewrite elem_of_list_to_set. }
  destruct Hcore as [Hr Ht]. split_and!; try done. intros h.
  destruct (inv_hashes _ Hinv) as [_ ->]. destruct (inv_hashes _ H) as [_ ->].
  rewrite !elem_of_list_to_set, Ht, !list_elem_of_fmap. split.
  - intros (r & -> & [Hn Hin]%list_elem_of_filter). eauto.
  - intros [(r & -> & Hin) Hn]. exists r. split; [done|]. by apply list_elem_of_filter.
Qed.

(** after a checkpoint commits, the drain leaves exactly the pending
    transactions that were not committed, in order, whether it takes the bulk
    path or removes them one by one; the sender count and the access-key snapshot
    then describe what is left. *)
Theorem drain_exact {HX : Hex} (sha3_256 to_uppercase to_lowercase : bytes → bytes) (committed : list bytes) (mp : MempoolState) :
  mempool_inv mp →
  let mp' := drain_committed committed mp in
  mempool_inv mp'
  ∧ pending_txs mp' = filter (λ r, rec_hash r ∉ committed) (pending_txs mp)
  ∧ (∀ a, pending_tx_count_for_sender sha3_256 to_uppercase to_lowercase mp' a
          = Z.of_nat (length (filter
              (λ x, x = KanariAddress.normalize_addr sha3_256 to_uppercase to_lowercase a)
              (map rec_sender (pending_txs mp')))))
  ∧ (∀ k, k ∈ pending_access_keys_snapshot mp' ↔ ∃ r, r ∈ pending_txs mp' ∧ k ∈ all_access r).
Proof.
  intros H. cbn zeta. pose proof (drain_inv committed mp H) as Hinv. split; [done|]. split_and!.
  - unfold drain_committed. case_bool_decide as E.
    + cbn [empty_mempool pending_txs]. symmetry. apply filter_nothing, Forall_forall.
      intros r Hr Hn. apply Hn. rewrite <- E. by apply list_elem_of_fmap_2.
    + cbn [drop_records pending_txs]. apply list_filter_iff. intros r. by rewrite elem_of_list_to_set.
  - intros a. unfold pending_tx_count_for_sender. rewrite (counter_count _ _ _ (inv_senders _ Hinv)).
    by rewrite keys_by_sender.
  - intros k. unfold pending_access_keys_snapshot.
    by rewrite (counter_dom _ _ k (inv_access _ Hinv)), elem_of_keys_by.
Qed.

Section Reachable.
Context {B3 : Blake3} {HX : Hex} {BC : Bcs}
  (verify_signature_raw : bytes → bytes → bytes → result bool)
  (sha3_256 to_uppercase to_lowercase : bytes → bytes)
  (transaction_size : Transaction → result nat) (signed_size : SignedTransaction → result nat)
  (effects_size : TransactionEffects → result nat)
  (identifier_ok type_tag_ok : bytes → bool).
Local Abbreviation reachable := (mempool_reachable verify_signature_raw sha3_256
  to_uppercase to_lowercase transaction_size signed_size effects_size identifier_ok type_tag_ok).

(** C35: every mempool a node can reach satisfies the invariant: at most
    100,000 transactions and 256 MiB, at most 256 per sender and 64 per lane, no
    hash twice, and counters that agree with the queue. *)
Theorem mempool_reachable_inv (mp : MempoolState) : reachable mp → mempool_inv mp.
Proof.
  induction 1 as [|mp eng txs metadata mp' r _ IH E|mp hashes _ IH|mp committed _ IH].
  - apply empty_mempool_inv.
  - by eapply submit_inv.
  - by apply remove_inv.
  - by apply drain_inv.
Qed.
End Reachable.

(** ** Concrete runs *)

Module Runs.
Import ToyHash RealHex RunBcs TypesTheorems.Runs.

Definition size : nat := 100.
Definition engine : Engine := {| eng_blockchain := blockchain_new; eng_store := None |}.
Definition no_preview : PendingTransactionMetadata :=
  {| previewed := false; preview_gas_used := None; preview_effects := None |}.
Definition run_submit := submit_transactions_batch_internal run_verify (λ b, b) (λ b, b) (λ b, b)
  (λ _, Ok size) (λ _, Ok size) (λ _, Ok size) (λ _, true) (λ _, true).

Definition second : SignedTransaction :=
  {| transaction := other; signature := str "0xee"; cached_transaction_hash := None;
     cached_verified_signature := None |}.
Definition run1 : MempoolState * result (list bytes) :=
  run_submit engine [wire; second] no_preview empty_mempool.
Definition pool1 : MempoolState := run1.1.

Lemma run1_ok : run1 = (pool1, Ok (map rec_hash (pending_txs pool1))).
Proof. rewrite (surjective_pairing run1). unfold pool1. apply (f_equal (pair _)). by vm_compute. Qed.

Lemma pool1_two : length (pending_txs pool1) = 2.
Proof. by vm_compute. Qed.

Lemma pool1_inv : mempool_inv pool1.
Proof. exact (submit_inv _ _ _ _ _ _ _ _ _ _ _ _ _ _ _ empty_mempool_inv run1_ok). Qed.

(** Two transactions are admitted together. *)
Lemma batch_admission_witness :
  mempool_inv pool1 ∧ length (pending_txs pool1) = 2.
Proof.
  split; [|exact pool1_two].
  exact (proj1 (batch_admission run_verify _ _ _ _ _ _ _ _ engine [wire; second] no_preview
    empty_mempool pool1 _ empty_mempool_inv run1_ok)).
Defined.

Lemma removal_exact_witness :
  ∃ mp' removed, remove_pending_transactions_by_hashes [tx_hash transfer] pool1 = (mp', removed)
    ∧ mempool_inv mp' ∧ length removed = 1 ∧ length (pending_txs mp') = 1.
Proof.
  destruct (remove_pending_transactions_by_hashes [tx_hash transfer] pool1) as [mp' removed] eqn:E.
  exists mp', removed. destruct (removal_exact _ _ _ _ pool1_inv E) as (H & Hr & Ht & _).
  split; [done|]. split; [exact H|]. rewrite Hr, Ht. split; by vm_compute.
Defined.

Lemma drain_exact_witness :
  mempool_inv (drain_committed [tx_hash transfer] pool1)
  ∧ length (pending_txs (drain_committed [tx_hash transfer] pool1)) = 1.
Proof.
  destruct (drain_exact (λ b, b) (λ b, b) (λ b, b) [tx_hash transfer] pool1 pool1_inv) as (H & Ht & _).
  split; [exact H|]. rewrite Ht. by vm_compute.
Defined.

Lemma mempool_reachable_inv_witness : mempool_inv (drain_committed [tx_hash transfer] pool1).
Proof.
  refine (mempool_reachable_inv run_verify (λ b, b) (λ b, b) (λ b, b) (λ _, Ok size) (λ _, Ok size)
    (λ _, Ok size) (λ _, true) (λ _, true) _ _).
  apply mempool_drain. exact (mempool_submit _ _ _ _ _ _ _ _ _ _ _ _ _ _ _ (mempool_start _ _ _ _ _ _ _ _ _) run1_ok).
Defined.
End Runs.
