(* ===== verification/Proposer.v ===== *)
(** * Proposing transactions and nonces: the parts of
    [crates/kanari-core/src/engine.rs] that read the mempool to fill a DAG
    vertex or an owned-object checkpoint, and the per-sender nonce watermark

    The environment variables the node reads are a function [env] from names to
    values; [bcs::serialized_size] is a parameter. *)

From stdpp Require Import base list gmap strings sorting.
From Stdlib Require Import ZArith Lia.
From S2P Require Import Prelude Order Hashing Text Address GasCoin Transaction TypesTheorems Blockchain Scheduler Mempool MempoolTheorems.

Definition MAX_DAG_VERTEX_TRANSACTIONS : Z := 512.
Definition MAX_DAG_VERTEX_TRANSACTION_BYTES : Z := 350 * 1024.
Definition DEFAULT_MAX_DAG_VERTEX_TXS_PER_HOT_OBJECT : Z := 64.
Definition DEFAULT_MAX_OWNED_FAST_CHECKPOINT_TRANSACTIONS : Z := 65536.

Definition is_shared (owner : option ObjectOwnerKind) : bool :=
  match owner with Some Shared => true | _ => false end.

Definition transaction_lane_rank (tx : SignedTransaction) : Z :=
  let inputs := object_inputs (transaction tx) in
  if existsb (λ input, is_shared (input_owner input)) inputs then 2
  else match inputs with [] => 0 | _ => 1 end.

Definition is_owned_fast_path_eligible (tx : SignedTransaction) : bool :=
  forallb (λ input, negb (is_shared (input_owner input))) (object_inputs (transaction tx)).

Definition pending_signed_transactions (mp : MempoolState) : list SignedTransaction :=
  map rec_signed (pending_txs mp).

Definition pending_transaction_len (mp : MempoolState) : nat := length (pending_txs mp).

Section Environment.
Context (env : bytes → option bytes).

(** [.and_then(parse).filter(|v| *v > 0).unwrap_or(default)] *)
Definition positive_or (name : bytes) (dflt : Z) : Z :=
  match env name ≫= parse_u64 with
  | Some v => if (0 <? v)%Z then v else dflt
  | None => dflt
  end.

Definition dag_hot_object_tx_cap : Z :=
  positive_or (str "KANARI_DAG_HOT_OBJECT_TX_CAP") DEFAULT_MAX_DAG_VERTEX_TXS_PER_HOT_OBJECT.
Definition owned_fast_checkpoint_tx_cap : Z :=
  positive_or (str "KANARI_OWNED_FAST_CHECKPOINT_MAX_TXS")
    DEFAULT_MAX_OWNED_FAST_CHECKPOINT_TRANSACTIONS.
Definition dag_lane_aware_selection_enabled : bool :=
  match env (str "KANARI_DAG_LANE_AWARE") with
  | Some v => negb (existsb (λ w, bool_decide (v = w))
                [str "0"; str "false"; str "FALSE"; str "no"; str "NO"])
  | None => true
  end.
End Environment.

Section Snapshots.
Context {B3 : Blake3} {HX : Hex} {BC : Bcs}
  (env : bytes → option bytes) (signed_size : SignedTransaction → result nat).

(** Primary key, then sender, then nonce, then hash. *)
Definition pending_leb (a b : SignedTransaction) : bool :=
  let p x := primary_access_key (transaction x) in
  let s x := sender_address (transaction x) in
  let n x := nonce (transaction x) in
  let h x := (transaction_hash x).2 in
  if negb (bool_decide (p a = p b)) then bytes_leb (p a) (p b)
  else if negb (bool_decide (s a = s b)) then bytes_leb (s a) (s b)
  else if negb (n a =? n b)%Z then (n a <=? n b)%Z
  else bytes_leb (h a) (h b).

(** The order of [pending_sort_key]: the lane rank comes first. *)
Definition pending_sort_key_leb (a b : SignedTransaction) : bool :=
  if negb (transaction_lane_rank a =? transaction_lane_rank b)%Z
  then (transaction_lane_rank a <=? transaction_lane_rank b)%Z
  else pending_leb a b.

Definition pending_owned_fast_path_transactions_snapshot (mp : MempoolState) :
    list SignedTransaction :=
  let transactions :=
    filter (λ tx, is_owned_fast_path_eligible tx = true) (pending_signed_transactions mp) in
  match transactions with
  | [] => []
  | _ => take (Z.to_nat (owned_fast_checkpoint_tx_cap env))
           (select_conflict_free_transactions (sort_by pending_leb transactions))
  end.

(** The loop of [pending_conflict_free_transactions_snapshot]: [continue] skips a
    transaction of a hot object, [break] stops at a limit. *)
Fixpoint fill_vertex (ready : list SignedTransaction) (hot : counts) (total_bytes : Z)
    (selected : list SignedTransaction) : list SignedTransaction :=
  match selected with
  | [] => ready
  | signed_tx :: selected =>
      if (MAX_DAG_VERTEX_TRANSACTIONS <=? Z.of_nat (length ready))%Z then ready else
      let key := primary_access_key (transaction signed_tx) in
      if (dag_hot_object_tx_cap env <=? count_of hot key)%Z
      then fill_vertex ready hot total_bytes selected else
      match signed_size signed_tx with
      | Err _ => ready
      | Ok size =>
          match checked_add total_bytes (Z.of_nat size) with
          | None => ready
          | Some next_total =>
              if (MAX_DAG_VERTEX_TRANSACTION_BYTES <? next_total)%Z then ready else
              fill_vertex (ready ++ [signed_tx]) (bump hot key) next_total selected
          end
      end
  end.

Definition pending_conflict_free_transactions_snapshot (mp : MempoolState) :
    list SignedTransaction :=
  match pending_signed_transactions mp with
  | [] => []
  | transactions =>
      let leb := if dag_lane_aware_selection_enabled env then pending_sort_key_leb
                 else pending_leb in
      fill_vertex [] ∅ 0 (select_conflict_free_transactions (sort_by leb transactions))
  end.
End Snapshots.

(** ** Nonces *)

Section Nonces.
Context {HX : Hex} (sha3_256 to_uppercase to_lowercase : bytes → bytes).
Local Abbreviation normalize_addr := (KanariAddress.normalize_addr sha3_256 to_uppercase to_lowercase).

Definition raise_watermark (m : gmap bytes Z) (tx : SignedTransaction) : gmap bytes Z :=
  let sender := normalize_addr (sender_address (transaction tx)) in
  let nonce := nonce (transaction tx) in
  if (count_of m sender <? nonce)%Z then <[sender := nonce]> m else m.

(** The watermark persisted with a checkpoint. *)
Definition sender_watermark_update (m : gmap bytes Z) (transactions : list SignedTransaction) :
    gmap bytes Z := fold_left raise_watermark transactions (cap_watermark m).

Definition get_expected_nonce (eng : Engine) (mp : MempoolState) (address_hex : bytes) : Z :=
  let committed :=
    match eng_store eng with
    | None => 0%Z
    | Some store =>
        match store_watermark store with
        | Err _ => 0%Z
        | Ok m => let v := count_of m (normalize_addr address_hex) in
                  if (v <? MAX_WATERMARK)%Z then v else 0%Z
        end
    end in
  saturating_add
    (saturating_add (pending_tx_count_for_sender sha3_256 to_uppercase to_lowercase mp address_hex) committed) 1.
End Nonces.
