(* ===== verification/ProposerTheorems.v ===== *)
(** * Theorems about proposals and nonces

    What a node proposes from its mempool is conflict-free, within the vertex
    limits and never empty without cause; a committed nonce is not admitted
    again. *)

From stdpp Require Import base list gmap strings sorting.
From Stdlib Require Import ZArith Lia.
From S2P Require Import Prelude Order Hashing Text Address GasCoin Transaction TypesTheorems Blockchain BlockchainTheorems Scheduler Mempool MempoolTheorems Proposer.

Lemma positive_or_pos env name dflt : (0 < dflt)%Z → (0 < positive_or env name dflt)%Z.
Proof.
  intros H. unfold positive_or. destruct (env name ≫= parse_u64) as [v|]; [|done].
  destruct (Z.ltb_spec 0 v); lia.
Qed.

Section Vertex.
Context {B3 : Blake3} {HX : Hex} {BC : Bcs}
  (env : bytes → option bytes) (signed_size : SignedTransaction → result nat).
Local Abbreviation cap := (dag_hot_object_tx_cap env).
Local Abbreviation fill := (fill_vertex env signed_size).

Definition tx_bytes (tx : SignedTransaction) : nat :=
  match signed_size tx with Ok n => n | Err _ => 0 end.
Definition vertex_bytes (txs : list SignedTransaction) : Z := Z.of_nat (list_sum (map tx_bytes txs)).
Definition primary_keys (txs : list SignedTransaction) : list bytes :=
  map (λ tx, primary_access_key (transaction tx)) txs.

Record vertex_ok (txs : list SignedTransaction) : Prop := {
  vertex_len : (Z.of_nat (length txs) ≤ MAX_DAG_VERTEX_TRANSACTIONS)%Z;
  vertex_sized : Forall (λ tx, is_ok (signed_size tx) = true) txs;
  vertex_budget : (vertex_bytes txs ≤ MAX_DAG_VERTEX_TRANSACTION_BYTES)%Z;
  vertex_hot : ∀ k, (Z.of_nat (count_key k (primary_keys txs)) ≤ cap)%Z
}.

Lemma vertex_bytes_snoc txs tx : vertex_bytes (txs ++ [tx]) = (vertex_bytes txs + Z.of_nat (tx_bytes tx))%Z.
Proof. unfold vertex_bytes. rewrite map_app, list_sum_app. simpl. lia. Qed.

Lemma fill_vertex_spec ready hot selected :
  vertex_ok ready → counter_ok hot (primary_keys ready) →
  ∃ picked, fill ready hot (vertex_bytes ready) selected = ready ++ picked
    ∧ sublist picked selected ∧ vertex_ok (ready ++ picked).
Proof.
  revert ready hot. induction selected as [|tx selected IH]; intros ready hot Hok Hhot; cbn [fill_vertex].
  { exists []. by rewrite app_nil_r. }
  assert (Hstop : ∃ picked, ready = ready ++ picked ∧ sublist picked (tx :: selected)
    ∧ vertex_ok (ready ++ picked)).
  { exists []. rewrite app_nil_r. split; [done|]. split; [apply sublist_nil_l|done]. }
  destruct (Z.leb_spec MAX_DAG_VERTEX_TRANSACTIONS (Z.of_nat (length ready))) as [|Hlen]; [done|].
  rewrite (counter_count _ _ _ Hhot). destruct (Z.leb_spec cap (Z.of_nat (count_key
    (primary_access_key (transaction tx)) (primary_keys ready)))) as [|Hcap].
  { destruct (IH ready hot Hok Hhot) as (picked & -> & Hs & Hp). exists picked.
    split; [done|]. split; [by constructor|done]. }
  destruct (signed_size tx) as [size|e] eqn:Esz; [|done]. unfold checked_add.
  assert (Eb : tx_bytes tx = size) by (unfold tx_bytes; by rewrite Esz).
  destruct (_ <=? u64_max)%Z; [|done].
  destruct (Z.ltb_spec MAX_DAG_VERTEX_TRANSACTION_BYTES (vertex_bytes ready + Z.of_nat size))
    as [|Hbud]; [done|].
  rewrite <- Eb, <- vertex_bytes_snoc in *.
  destruct (IH (ready ++ [tx]) (bump hot (primary_access_key (transaction tx)))) as (picked & E & Hs & Hp).
  - split; [rewrite length_app; simpl; lia| |done|].
    + apply Forall_app. split; [apply Hok|]. constructor; [by rewrite Esz|constructor].
    + intros k. unfold primary_keys. rewrite map_app, count_key_app. cbn [map].
      rewrite count_key_cons. change (count_key k []) with 0.
      pose proof (vertex_hot _ Hok k). unfold primary_keys in *. case_decide; [subst|]; lia.
  - unfold primary_keys. rewrite map_app. by apply counter_bump.
  - exists (tx :: picked). rewrite E, <- app_assoc. cbn [app].
    split; [done|]. split; [by constructor|]. by rewrite <- app_assoc in Hp.
Qed.

Lemma vertex_ok_nil : vertex_ok [].
Proof.
  split; [done|constructor|done|]. intros k. change (Z.of_nat (count_key k (primary_keys []))) with 0%Z.
  pose proof (positive_or_pos env (str "KANARI_DAG_HOT_OBJECT_TX_CAP")
    DEFAULT_MAX_DAG_VERTEX_TXS_PER_HOT_OBJECT ltac:(done)). unfold dag_hot_object_tx_cap. lia.
Qed.

(** Which order the proposal is taken in does not matter for what follows. *)
Lemma snapshot_unfold mp :
  ∃ sorted, sorted ≡ₚ pending_signed_transactions mp
    ∧ pending_conflict_free_transactions_snapshot env signed_size mp
      = fill [] ∅ 0 (select_conflict_free_transactions sorted).
Proof.
  unfold pending_conflict_free_transactions_snapshot.
  destruct (pending_signed_transactions mp) as [|tx txs] eqn:E; [by exists []|].
  rewrite <- E. eexists. split; [|reflexivity]. apply sort_by_perm.
Qed.

(** what [pending_conflict_free_transactions_snapshot] proposes for a DAG
    vertex is part of the pending queue; no two of its transactions touch one
    object; it has at most 512 transactions, serializes within 350 KiB, and
    respects the cap per hot object. *)
Theorem vertex_proposal (mp : MempoolState) :
  let ready := pending_conflict_free_transactions_snapshot env signed_size mp in
  ready ⊆+ pending_signed_transactions mp ∧ object_disjoint ready ∧ vertex_ok ready.
Proof.
  destruct (snapshot_unfold mp) as (sorted & HP & E). cbn zeta. rewrite E.
  destruct (fill_vertex_spec [] ∅ (select_conflict_free_transactions sorted) vertex_ok_nil
    counter_ok_nil) as (picked & Ef & Hs & Hok).
  change (vertex_bytes []) with 0%Z in Ef. rewrite Ef. cbn [app] in *.
  split; [|split; [|done]].
  - rewrite <- HP. apply sublist_submseteq. etransitivity; [exact Hs|]. apply select_sublist.
  - apply independent_objects. by eapply independent_sublist, select_independent.
Qed.

Lemma fill_vertex_keeps tx ready hot total selected :
  fill (tx :: ready) hot total selected ≠ [].
Proof.
  revert ready hot total. induction selected as [|tx' selected IH]; intros ready hot total;
    cbn [fill_vertex]; [done|].
  destruct (_ <=? _)%Z; [done|]. destruct (_ <=? _)%Z; [apply IH|].
  destruct (signed_size tx'); [|done]. destruct (checked_add _ _); [|done].
  destruct (_ <? _)%Z; [done|]. apply (IH (ready ++ [tx'])).
Qed.

(** C37: a proposal never starves: when every pending transaction serializes
    within the vertex budget, a non-empty queue gives a non-empty vertex. *)
Theorem vertex_progress (mp : MempoolState) :
  pending_txs mp ≠ [] →
  (∀ tx, tx ∈ pending_signed_transactions mp →
     ∃ n, signed_size tx = Ok n ∧ (Z.of_nat n ≤ MAX_DAG_VERTEX_TRANSACTION_BYTES)%Z) →
  pending_conflict_free_transactions_snapshot env signed_size mp ≠ [].
Proof.
  intros Hne Hsz. destruct (snapshot_unfold mp) as (sorted & HP & ->).
  destruct sorted as [|tx sorted].
  { apply Permutation_nil_l in HP. symmetry in HP. by apply map_eq_nil in HP. }
  destruct (select_first tx sorted) as (rest & ->).
  destruct (Hsz tx) as (n & En & Hn); [rewrite <- HP; by left|].
  assert (Hcap : (cap <=? count_of ∅ (primary_access_key (transaction tx)))%Z = false).
  { apply Z.leb_gt. apply (positive_or_pos env _ _). done. }
  assert (Hb : (MAX_DAG_VERTEX_TRANSACTION_BYTES <? 0 + Z.of_nat n)%Z = false) by (apply Z.ltb_ge; lia).
  assert (Hadd : checked_add 0 (Z.of_nat n) = Some (0 + Z.of_nat n)%Z).
  { unfold checked_add. rewrite (proj2 (Z.leb_le _ _)); [done|].
    unfold MAX_DAG_VERTEX_TRANSACTION_BYTES, u64_max in *. lia. }
  cbn [fill_vertex length Z.of_nat]. rewrite Hcap, En, Hadd, Hb. cbn [app].
  apply fill_vertex_keeps.
Qed.

(** an owned-object checkpoint is proposed from pending transactions without
    shared inputs, no two of which touch one object, and within its cap. *)
Theorem owned_fast_path_proposal (mp : MempoolState) :
  let ready := pending_owned_fast_path_transactions_snapshot env mp in
  ready ⊆+ pending_signed_transactions mp ∧ object_disjoint ready
  ∧ (Z.of_nat (length ready) ≤ owned_fast_checkpoint_tx_cap env)%Z
  ∧ ∀ tx input, tx ∈ ready → input ∈ object_inputs (transaction tx) → input_owner input ≠ Some Shared.
Proof.
  pose proof (positive_or_pos env (str "KANARI_OWNED_FAST_CHECKPOINT_MAX_TXS")
    DEFAULT_MAX_OWNED_FAST_CHECKPOINT_TRANSACTIONS ltac:(done)) as Hpos.
  change (0 < owned_fast_checkpoint_tx_cap env)%Z in Hpos.
  cbn zeta. unfold pending_owned_fast_path_transactions_snapshot.
  destruct (filter _ (pending_signed_transactions mp)) as [|t ts] eqn:E.
  { split; [apply submseteq_nil_l|]. split; [by intros i j a b id _ Ha|].
    split; [simpl; lia|]. by intros tx input ?%elem_of_nil. }
  rewrite <- E. clear t ts E.
  set (ts := filter _ _). set (sorted := sort_by pending_leb ts).
  set (n := Z.to_nat _).
  assert (Hs : sublist (take n (select_conflict_free_transactions sorted)) sorted).
  { etransitivity; [apply sublist_take|apply select_sublist]. }
  assert (Hp : take n (select_conflict_free_transactions sorted) ⊆+ ts).
  { rewrite (sublist_submseteq _ _ Hs). unfold sorted. by rewrite sort_by_perm. }
  split_and!.
  - etransitivity; [exact Hp|]. apply sublist_submseteq, sublist_filter.
  - apply independent_objects. eapply independent_sublist; [apply sublist_take|apply select_independent].
  - rewrite length_take. unfold n. lia.
  - intros tx input Htx Hin Ho. apply (elem_of_submseteq _ _ _ Htx) in Hp.
    apply list_elem_of_filter in Hp as [Hel _]. unfold is_owned_fast_path_eligible in Hel.
    rewrite forallb_forall in Hel. specialize (Hel input (proj1 (list_elem_of_In _ _) Hin)).
    by rewrite Ho in Hel.
Qed.
End Vertex.

(** ** Nonces *)

Section Watermark.
Context {B3 : Blake3} {HX : Hex} {BC : Bcs}
  (verify_signature_raw : bytes → bytes → bytes → result bool)
  (sha3_256 to_uppercase to_lowercase : bytes → bytes)
  (transaction_size : Transaction → result nat) (signed_size : SignedTransaction → result nat)
  (effects_size : TransactionEffects → result nat)
  (identifier_ok type_tag_ok : bytes → bool).
Local Abbreviation submit := (submit_transactions_batch_internal verify_signature_raw sha3_256
  to_uppercase to_lowercase transaction_size signed_size effects_size identifier_ok type_tag_ok).
Local Abbreviation normalize_addr := (KanariAddress.normalize_addr sha3_256 to_uppercase to_lowercase).
Local Abbreviation update := (sender_watermark_update sha3_256 to_uppercase to_lowercase).
Local Abbreviation raise := (raise_watermark sha3_256 to_uppercase to_lowercase).

Definition tx_sender_norm (tx : SignedTransaction) : bytes :=
  normalize_addr (sender_address (transaction tx)).

Lemma raise_count m tx k :
  count_of (raise m tx) k
  = if decide (tx_sender_norm tx = k) then Z.max (count_of m k) (nonce (transaction tx)) else count_of m k.
Proof.
  unfold raise_watermark. fold (tx_sender_norm tx).
  destruct (Z.ltb_spec (count_of m (tx_sender_norm tx)) (nonce (transaction tx))) as [H|H];
    case_decide as E; subst; [|by unfold count_of; rewrite lookup_insert, decide_False|lia|done].
  unfold count_of at 1. rewrite lookup_insert, decide_True by done. cbn. unfold id. lia.
Qed.

Lemma raises_mono txs m k : (count_of m k ≤ count_of (fold_left raise txs m) k)%Z.
Proof.
  revert m. induction txs as [|tx txs IH]; intros m; cbn [fold_left]; [lia|].
  specialize (IH (raise m tx)). rewrite raise_count in IH. case_decide; lia.
Qed.

Lemma raises_reach txs m tx :
  tx ∈ txs → (nonce (transaction tx) ≤ count_of (fold_left raise txs m) (tx_sender_norm tx))%Z.
Proof.
  revert m. induction txs as [|t txs IH]; intros m Hin; [by apply elem_of_nil in Hin|].
  cbn [fold_left]. apply elem_of_cons in Hin as [->|Hin]; [|by apply IH].
  pose proof (raises_mono txs (raise m t) (tx_sender_norm t)) as Hm.
  rewrite raise_count, decide_True in Hm by done. lia.
Qed.

Lemma raises_below txs m k :
  Forall (λ tx, nonce (transaction tx) < MAX_WATERMARK)%Z txs → (count_of m k < MAX_WATERMARK)%Z →
  (count_of (fold_left raise txs m) k < MAX_WATERMARK)%Z.
Proof.
  intros H. revert m. induction H as [|tx txs Ht _ IH]; intros m Hm; cbn [fold_left]; [done|].
  apply IH. rewrite raise_count. case_decide; lia.
Qed.

Lemma cap_count m k :
  count_of (cap_watermark m) k = if (MAX_WATERMARK <=? count_of m k)%Z then 0%Z else count_of m k.
Proof. unfold count_of, cap_watermark. rewrite lookup_fmap. by destruct (m !! k). Qed.

Lemma count_of_pos m k n : count_of m k = n → (0 < n)%Z → m !! k = Some n.
Proof. unfold count_of. destruct (m !! k); cbn; unfold id; [by intros ->|intros <-; lia]. Qed.

(** The persisted watermark reads back as at least every committed nonce. *)
Lemma update_covers m txs tx :
  Forall (λ tx, nonce (transaction tx) < MAX_WATERMARK)%Z txs → tx ∈ txs →
  (0 < nonce (transaction tx))%Z →
  ∃ w, cap_watermark (update m txs) !! tx_sender_norm tx = Some w ∧ (nonce (transaction tx) ≤ w)%Z.
Proof.
  intros Hall Hin Hpos. pose proof (raises_reach txs (cap_watermark m) tx Hin) as Hr.
  assert (Hb : (count_of (update m txs) (tx_sender_norm tx) < MAX_WATERMARK)%Z).
  { apply raises_below; [done|]. rewrite cap_count. destruct (Z.leb_spec MAX_WATERMARK
      (count_of m (tx_sender_norm tx))); [done|lia]. }
  exists (count_of (update m txs) (tx_sender_norm tx)). split; [|exact Hr].
  apply count_of_pos; [|unfold sender_watermark_update in *; lia].
  rewrite cap_count. destruct (Z.leb_spec MAX_WATERMARK (count_of (update m txs) (tx_sender_norm tx))); lia.
Qed.

(** C36: once a checkpoint commits a transaction with a positive nonce and its
    watermark is persisted, no batch holding a transaction of that sender with
    the same or a lower nonce is admitted, whatever its payload: the call fails
    and the mempool is unchanged. *)
Theorem committed_nonce_not_readmitted (eng : Engine) (store : Store) (m : gmap bytes Z)
    (committed batch : list SignedTransaction) (old new : SignedTransaction)
    (metadata : PendingTransactionMetadata) (mp : MempoolState) :
  mempool_inv mp → eng_store eng = Some store → store_watermark store = Ok (update m committed) →
  Forall (λ tx, nonce (transaction tx) ≤ MAX_NONCE)%Z committed →
  old ∈ committed → new ∈ batch → (0 < nonce (transaction old))%Z →
  (nonce (transaction new) ≤ nonce (transaction old))%Z → tx_sender_norm new = tx_sender_norm old →
  ∃ e, submit eng batch metadata mp = (mp, Err e).
Proof.
  intros Hmp Hst Hwm Hall Hold Hnew Hpos Hle Hs.
  destruct (submit eng batch metadata mp) as [mp' r] eqn:E. apply submit_inversion in E; [|done].
  destruct r as [hs|e]; [exfalso|exists e; by rewrite E].
  destruct E as [(-> & _)|R]; [by apply elem_of_nil in Hnew|].
  destruct R as [ys n acc es Hys _ _ _ Hfresh _ _].
  apply list_elem_of_lookup in Hnew as [i Hi].
  destruct (Forall2_lookup_l _ _ _ _ _ Hys Hi) as (e & He & Hv).
  apply verify_record_vetted in Hv as (_ & _ & Hn & Hsend & _).
  assert (Hin : e ∈ es) by (unfold es; rewrite sort_by_perm; by eapply list_elem_of_lookup_2).
  destruct (Hfresh e Hin) as [_ Hw].
  destruct (update_covers m committed old) as (w & Hlook & Hge); [|done..|].
  { eapply Forall_impl; [exact Hall|]. intros tx. unfold MAX_NONCE, MAX_WATERMARK. cbn beta. lia. }
  specialize (Hw (cap_watermark (update m committed)) w). rewrite Hsend in Hw.
  unfold sender_watermark in Hw. rewrite Hst, Hwm in Hw. cbn [result_bind] in Hw.
  fold (tx_sender_norm new) in Hw. rewrite Hs in Hw. specialize (Hw eq_refl Hlook).
  rewrite Hn in Hw. lia.
Qed.

(** the nonce the node suggests to a sender is the persisted watermark plus
    the number of its pending transactions plus one, hence never stale for the
    admission check; it does not look at the nonces that are pending. *)
Theorem expected_nonce_fresh (eng : Engine) (mp : MempoolState) (wm : gmap bytes Z) (a : bytes) :
  mempool_inv mp → sender_watermark eng = Ok wm →
  get_expected_nonce sha3_256 to_uppercase to_lowercase eng mp a
  = (count_of wm (normalize_addr a)
     + Z.of_nat (count_key (normalize_addr a) (map rec_sender (pending_txs mp))) + 1)%Z
  ∧ ∀ w, wm !! normalize_addr a = Some w →
      (w < get_expected_nonce sha3_256 to_uppercase to_lowercase eng mp a)%Z.
Proof.
  intros Hmp Hwm. set (k := normalize_addr a).
  assert (Hp : pending_tx_count_for_sender sha3_256 to_uppercase to_lowercase mp a
               = Z.of_nat (count_key k (map rec_sender (pending_txs mp)))).
  { unfold pending_tx_count_for_sender.
    by rewrite (counter_count _ _ _ (inv_senders _ Hmp)), keys_by_sender. }
  assert (Hcap : (Z.of_nat (count_key k (map rec_sender (pending_txs mp))) ≤ 256)%Z).
  { rewrite <- keys_by_sender. apply (inv_sender_cap _ Hmp). }
  assert (Hc : ∀ m, count_of (cap_watermark m) k
    = (if count_of m k <? MAX_WATERMARK then count_of m k else 0)%Z).
  { intros m. rewrite cap_count. destruct (Z.leb_spec MAX_WATERMARK (count_of m k)),
      (Z.ltb_spec (count_of m k) MAX_WATERMARK); lia. }
  assert (He : get_expected_nonce sha3_256 to_uppercase to_lowercase eng mp a
    = saturating_add (saturating_add (Z.of_nat (count_key k (map rec_sender (pending_txs mp))))
        (count_of wm k)) 1 ∧ (count_of wm k < MAX_WATERMARK)%Z).
  { unfold get_expected_nonce, sender_watermark in *. rewrite Hp. fold k.
    destruct (eng_store eng) as [store|]; [|injection Hwm as <-; by split].
    destruct (store_watermark store) as [m|]; [|done]. injection Hwm as <-. rewrite Hc.
    split; [done|]. destruct (Z.ltb_spec (count_of m k) MAX_WATERMARK); [done|].
    unfold MAX_WATERMARK. lia. }
  destruct He as [He Hlt]. assert (Hsat : get_expected_nonce sha3_256 to_uppercase to_lowercase eng mp a
    = (count_of wm k + Z.of_nat (count_key k (map rec_sender (pending_txs mp))) + 1)%Z).
  { rewrite He. unfold saturating_add, u64_max, MAX_WATERMARK in *. lia. }
  rewrite Hsat. split; [done|]. intros w Hw. unfold count_of. rewrite Hw. cbn. unfold id. lia.
Qed.
End Watermark.

(** ** Concrete runs *)

Module Runs.
Import ToyHash RealHex RunBcs TypesTheorems.Runs MempoolTheorems.Runs.

Definition no_env (name : bytes) : option bytes := None.
Definition run_size (tx : SignedTransaction) : result nat := Ok 100.
Definition transfer_n (amount n : Z) : SignedTransaction :=
  {| transaction := new_transfer_with_object_ref_and_gas (str "0xa1") coin (str "0xb2") amount n
                      100000 1000;
     signature := str "0xa1"; cached_transaction_hash := None; cached_verified_signature := None |}.

(** Both pending transactions spend one coin: the vertex takes the first. *)
Lemma vertex_progress_witness :
  pending_conflict_free_transactions_snapshot no_env run_size pool1 ≠ [].
Proof.
  apply (vertex_progress no_env run_size pool1).
  - intros E. pose proof pool1_two as H. rewrite E in H. discriminate H.
  - intros tx _. exists 100. split; [done|]. by vm_compute.
Defined.

Definition store_after (m : gmap bytes Z) : Engine :=
  {| eng_blockchain := blockchain_new;
     eng_store := Some {| store_committed := λ _, Ok false; store_watermark := Ok m |} |}.
Definition run_update := sender_watermark_update (λ b, b) (λ b, b) (λ b, b).

(** After nonce 3 is committed, nonce 2 is refused. *)
Lemma committed_nonce_not_readmitted_witness :
  ∃ e, run_submit (store_after (run_update ∅ [transfer_n 7 3])) [transfer_n 9 2] no_preview empty_mempool
       = (empty_mempool, Err e).
Proof.
  apply (committed_nonce_not_readmitted run_verify (λ b, b) (λ b, b) (λ b, b) (λ _, Ok size)
    (λ _, Ok size) (λ _, Ok size) (λ _, true) (λ _, true)
    (store_after (run_update ∅ [transfer_n 7 3]))
    {| store_committed := λ _, Ok false; store_watermark := Ok (run_update ∅ [transfer_n 7 3]) |}
    ∅ [transfer_n 7 3] [transfer_n 9 2] (transfer_n 7 3) (transfer_n 9 2) no_preview empty_mempool
    empty_mempool_inv eq_refl eq_refl).
  - by constructor; [|constructor].
  - by left.
  - by left.
  - by vm_compute.
  - by vm_compute.
  - done.
Defined.

(** With one pending transaction of nonce 7 the suggested nonce is 2. *)
Definition pool7 : MempoolState := (run_submit engine [transfer_n 5 7] no_preview empty_mempool).1.

Lemma pool7_ok : run_submit engine [transfer_n 5 7] no_preview empty_mempool
  = (pool7, Ok (map rec_hash (pending_txs pool7))).
Proof.
  rewrite (surjective_pairing (run_submit _ _ _ _)). unfold pool7. apply (f_equal (pair _)). by vm_compute.
Qed.

Lemma expected_nonce_fresh_witness :
  get_expected_nonce (λ b, b) (λ b, b) (λ b, b) engine pool7 (str "0xa1") = 2%Z
  ∧ map (λ r, nonce (transaction (rec_signed r))) (pending_txs pool7) = [7%Z].
Proof.
  assert (Hinv : mempool_inv pool7)
    by exact (submit_inv _ _ _ _ _ _ _ _ _ _ _ _ _ _ _ empty_mempool_inv pool7_ok).
  split; [|by vm_compute].
  rewrite (proj1 (expected_nonce_fresh (λ b, b) (λ b, b) (λ b, b) engine pool7 ∅ (str "0xa1") Hinv eq_refl)).
  by vm_compute.
Defined.

(** a first transaction with nonce zero leaves no watermark, so a second one
    with nonce zero and another payload is admitted after the first committed. *)
Theorem nonce_zero_readmitted :
  run_update ∅ [transfer_n 7 0] = ∅
  ∧ is_ok (run_submit (store_after (run_update ∅ [transfer_n 7 0])) [transfer_n 9 0] no_preview
             empty_mempool).2 = true.
Proof. split; by vm_compute. Qed.
End Runs.
