(* ===== verification/NativeMath.v ===== *)
(** * Arithmetic natives: [crates/kanari-system-natives/src/math_calculate]

    The helpers of [math.rs] on machine-width integers, with a panic as an
    outcome of its own, and the native functions built from them: argument
    check, gas charge, popping of typed arguments, result or abort.  The square
    roots of [num_integer] are a parameter with their documented law; the wide
    integers of [ethnum] and [primitive_types] are integers of 256 and 512 bits
    whose operators panic on overflow. *)

From stdpp Require Import base list gmap strings.
From Stdlib Require Import ZArith Lia.
From S2P Require Import Prelude.

Local Open Scope Z_scope.

Definition E_OVERFLOW : Z := 1.
Definition E_DIVIDE_BY_ZERO : Z := 2.
Definition E_INVALID_ARG : Z := 3.
Definition NFE_OUT_OF_GAS : Z := 1.

(** ** Outcomes of a helper *)

(** [Result<A, u64>], or a panic. *)
Inductive outcome (A : Type) : Type :=
| Done (a : A)
| Fails (code : Z)
| Panics.
Arguments Done {A} a.
Arguments Fails {A} code.
Arguments Panics {A}.

#[export] Instance outcome_ret : MRet outcome := λ A a, Done a.
#[export] Instance outcome_bind : MBind outcome := λ A B k m,
  match m with Done a => k a | Fails c => Fails c | Panics => Panics end.
#[export] Instance outcome_map : FMap outcome := λ A B f m,
  match m with Done a => Done (f a) | Fails c => Fails c | Panics => Panics end.

(** ** Unsigned integers of [w] bits *)

Definition umax (w : Z) : Z := 2 ^ w - 1.
Definition fits (w n : Z) : bool := (0 <=? n) && (n <=? umax w).

Definition or_panic (w n : Z) : outcome Z := if fits w n then Done n else Panics.
Definition uadd (w a b : Z) : outcome Z := or_panic w (a + b).
Definition usub (w a b : Z) : outcome Z := or_panic w (a - b).
Definition umul (w a b : Z) : outcome Z := or_panic w (a * b).
Definition udiv (a b : Z) : outcome Z := if b =? 0 then Panics else Done (a / b).
Definition urem (a b : Z) : outcome Z := if b =? 0 then Panics else Done (a mod b).
Definition checked_mul (w a b : Z) : option Z := if fits w (a * b) then Some (a * b) else None.
Definition checked_pow (w b e : Z) : option Z := if fits w (b ^ e) then Some (b ^ e) else None.
(** [Ord::clamp] panics unless [lo <= hi]. *)
Definition uclamp (x lo hi : Z) : outcome Z :=
  if hi <? lo then Panics else Done (if x <? lo then lo else if hi <? x then hi else x).
Definition leading_zeros (w x : Z) : Z := if x =? 0 then w else w - 1 - Z.log2 x.
(** [U256::bits] *)
Definition bits (x : Z) : Z := if x =? 0 then 0 else Z.log2 x + 1.

(** Little-endian byte arrays of fixed length. *)
Fixpoint to_le_bytes (k : nat) (n : Z) : bytes :=
  match k with O => [] | S k => n mod 256 :: to_le_bytes k (n / 256) end.
Fixpoint from_le_bytes (l : bytes) : Z :=
  match l with [] => 0 | b :: l => b + 256 * from_le_bytes l end.

(** ** Helpers of [math.rs] *)

Definition mul_div_u128_checked (x y z : Z) : outcome Z :=
  if z =? 0 then Fails E_DIVIDE_BY_ZERO else
  p ← umul 256 x y;
  result_256 ← udiv p z;
  if umax 128 <? result_256 then Fails E_OVERFLOW else Done (result_256 mod 2 ^ 128).

Definition mul_div_u128_round_checked (x y z : Z) (round_up : bool) : outcome Z :=
  if z =? 0 then Fails E_DIVIDE_BY_ZERO else
  prod_256 ← umul 256 x y;
  q ← udiv prod_256 z;
  r ← urem prod_256 z;
  result_256 ← (if round_up && negb (r =? 0) then uadd 256 q 1 else Done q);
  if umax 128 <? result_256 then Fails E_OVERFLOW else Done (result_256 mod 2 ^ 128).

Definition mul_add_u128_checked (x y z : Z) : outcome Z :=
  p ← umul 256 x y;
  result_256 ← uadd 256 p z;
  if umax 128 <? result_256 then Fails E_OVERFLOW else Done (result_256 mod 2 ^ 128).

Definition average_u64 (a b : Z) : outcome Z :=
  uadd 64 (Z.land a b) (Z.shiftr (Z.lxor a b) 1).
Definition average_u128 (a b : Z) : outcome Z :=
  uadd 128 (Z.land a b) (Z.shiftr (Z.lxor a b) 1).

Definition clamp_u64 (x lo hi : Z) : outcome Z :=
  if hi <? lo then Fails E_INVALID_ARG else uclamp x lo hi.
Definition clamp_u128 (x lo hi : Z) : outcome Z :=
  if hi <? lo then Fails E_INVALID_ARG else uclamp x lo hi.

Definition log2_u64_checked (x : Z) : outcome Z :=
  if x =? 0 then Fails E_INVALID_ARG else usub 64 63 (leading_zeros 64 x).
Definition log2_u128_checked (x : Z) : outcome Z :=
  if x =? 0 then Fails E_INVALID_ARG else usub 128 127 (leading_zeros 128 x).

Definition saturating_mul (a b : Z) : Z := Z.min (a * b) u64_max.
Definition pow_gas_cost (base per_exponent exponent : Z) : Z :=
  saturating_add base (saturating_mul per_exponent exponent).
Definition sqrt_u256_gas_cost (base per_bit bits : Z) : Z :=
  saturating_add base (saturating_mul per_bit bits).

Definition m2p (x : Z) : Z := from_le_bytes (to_le_bytes 32 x).
Definition p2m (v : Z) : Z := from_le_bytes (to_le_bytes 32 v).
Definition fit_u256 (v : Z) : outcome Z :=
  if umax 256 <? v then Fails E_OVERFLOW
  else Done (from_le_bytes (take 32 (to_le_bytes 64 v))).

Definition mul_div_u256_checked (x y z : Z) : outcome Z :=
  if z =? 0 then Fails E_DIVIDE_BY_ZERO else
  p ← umul 512 (m2p x) (m2p y);
  result ← udiv p (m2p z);
  fit_u256 result.

Definition mul_div_u256_round_checked (x y z : Z) (round_up : bool) : outcome Z :=
  if z =? 0 then Fails E_DIVIDE_BY_ZERO else
  prod ← umul 512 (m2p x) (m2p y);
  q ← udiv prod (m2p z);
  r ← urem prod (m2p z);
  result ← (if round_up && negb (r =? 0)
            then if fits 512 (q + 1) then Done (q + 1) else Fails E_OVERFLOW
            else Done q);
  fit_u256 result.

Definition mul_add_u256_checked (x y z : Z) : outcome Z :=
  p ← umul 512 (m2p x) (m2p y);
  result ← uadd 512 p (m2p z);
  fit_u256 result.

(** The squaring loop; the exponent is a [u32], so 32 rounds are enough. *)
Fixpoint pow_loop (fuel : nat) (result b e : Z) : option Z :=
  match fuel with
  | O => None
  | S fuel =>
      if e =? 0 then Some result else
      result ← (if Z.land e 1 =? 1 then checked_mul 256 result b else Some result);
      let e := Z.shiftr e 1 in
      b ← (if 0 <? e then checked_mul 256 b b else Some b);
      pow_loop fuel result b e
  end.
Definition pow_u256_checked (base exponent : Z) : option Z := pow_loop 33 1 base exponent.

(** The binary search; the interval halves, so 256 rounds are enough. *)
Fixpoint isqrt_loop (fuel : nat) (n lo hi : Z) : outcome Z :=
  match fuel with
  | O => Panics
  | S fuel =>
      if negb (lo <? hi) then Done lo else
      gap ← usub 256 hi lo;
      gap ← uadd 256 gap 1;
      mid ← uadd 256 lo (gap / 2);
      q ← udiv n mid;
      if mid <=? q then isqrt_loop fuel n mid hi
      else hi ← usub 256 mid 1; isqrt_loop fuel n lo hi
  end.
Definition isqrt_u256 (n : Z) : outcome Z :=
  if n <=? 1 then Done n else
  hi ← uadd 256 (n / 2) 1;
  isqrt_loop 258 n 1 hi.

Definition average_u256 (a b : Z) : outcome Z := uadd 256 (Z.land a b) (Z.lxor a b / 2).
Definition clamp_u256 (x lo hi : Z) : outcome Z :=
  if hi <? lo then Fails E_INVALID_ARG else uclamp x lo hi.
Definition log2_u256_checked (x : Z) : outcome Z :=
  if x =? 0 then Fails E_INVALID_ARG else usub 64 (bits (m2p x)) 1.

Definition ceil_div_u64 (a b : Z) : outcome Z :=
  if b =? 0 then Fails E_DIVIDE_BY_ZERO else
  q ← udiv a b; r ← urem a b;
  if r =? 0 then Done q else uadd 64 q 1.
Definition ceil_div_u128 (a b : Z) : outcome Z :=
  if b =? 0 then Fails E_DIVIDE_BY_ZERO else
  q ← udiv a b; r ← urem a b;
  if r =? 0 then Done q else uadd 128 q 1.
Definition ceil_div_u256 (a b : Z) : outcome Z :=
  if b =? 0 then Fails E_DIVIDE_BY_ZERO else
  q ← udiv a b; r ← urem a b;
  if r =? 0 then Done q else uadd 256 q 1.

(** ** Native functions *)

Inductive Value :=
| VBool (b : bool) | VU8 (n : Z) | VU32 (n : Z) | VU64 (n : Z) | VU128 (n : Z) | VU256 (n : Z).

Inductive StatusCode :=
| NUMBER_OF_ARGUMENTS_MISMATCH | NUMBER_OF_TYPE_ARGUMENTS_MISMATCH
| UNKNOWN_INVARIANT_VIOLATION_ERROR | INTERNAL_TYPE_ERROR.

Inductive NativeResult :=
| NativeOk (cost : Z) (ret_vals : list Value)
| NativeErr (cost : Z) (abort_code : Z).

(** How a native ends: with a result, a VM error, or a crash of the node. *)
Inductive exit :=
| Returned (r : NativeResult) | VmError (s : StatusCode) | Crashed.

Record NativeContext := { gas_budget : Z; gas_left : Z }.

Definition gas_used (context : NativeContext) : Z :=
  saturating_sub (gas_budget context) (gas_left context).

(** A native threads its context and its remaining arguments, and may return
    early. *)
Definition native (A : Type) : Type :=
  NativeContext → list Value → exit + NativeContext * list Value * A.

#[export] Instance native_ret : MRet native := λ A a context args, inr (context, args, a).
#[export] Instance native_bind : MBind native := λ A B k m context args,
  match m context args with
  | inl e => inl e
  | inr (context, args, a) => k a context args
  end.

Definition stop {A} (e : exit) : native A := λ context args, inl e.

Definition expect_native_signature (expected_args ty_args expected_type_args : nat) : native unit :=
  λ context args,
  if negb (length args =? expected_args)%nat then inl (VmError NUMBER_OF_ARGUMENTS_MISMATCH)
  else if negb (ty_args =? expected_type_args)%nat
  then inl (VmError NUMBER_OF_TYPE_ARGUMENTS_MISMATCH)
  else inr (context, args, tt).

(** [native_charge_gas_early_exit!] over [NativeContext::charge_gas] *)
Definition charge_gas (amount : Z) : native unit := λ context args,
  if amount <=? gas_left context
  then inr ({| gas_budget := gas_budget context; gas_left := gas_left context - amount |}, args, tt)
  else inl (Returned (NativeErr (gas_budget context) NFE_OUT_OF_GAS)).

(** [pop_arg!]: the last argument, cast to the type. *)
Definition pop_arg {A} (cast : Value → option A) : native A := λ context args,
  match reverse args with
  | [] => inl (VmError UNKNOWN_INVARIANT_VIOLATION_ERROR)
  | v :: rest =>
      match cast v with
      | Some a => inr (context, reverse rest, a)
      | None => inl (VmError INTERNAL_TYPE_ERROR)
      end
  end.

Definition as_bool (v : Value) : option bool := match v with VBool b => Some b | _ => None end.
Definition as_u8 (v : Value) : option Z := match v with VU8 n => Some n | _ => None end.
Definition as_u32 (v : Value) : option Z := match v with VU32 n => Some n | _ => None end.
Definition as_u64 (v : Value) : option Z := match v with VU64 n => Some n | _ => None end.
Definition as_u128 (v : Value) : option Z := match v with VU128 n => Some n | _ => None end.
Definition as_u256 (v : Value) : option Z := match v with VU256 n => Some n | _ => None end.

Definition finish (o : outcome (list Value)) : native NativeResult := λ context args,
  match o with
  | Done ret => inr (context, args, NativeOk (gas_used context) ret)
  | Fails code => inr (context, args, NativeErr (gas_used context) code)
  | Panics => inl Crashed
  end.

Definition run_native (n : native NativeResult) (context : NativeContext) (args : list Value) : exit :=
  match n context args with inl e => e | inr (_, _, r) => Returned r end.

(** [Some(v) => ok(v), None => err(E_OVERFLOW)] *)
Definition or_overflow {A} (o : option A) : outcome A :=
  match o with Some a => Done a | None => Fails E_OVERFLOW end.
(** [(true, v)] or [(false, 0)] *)
Definition try_pair (mk : Z → Value) (o : option Z) : outcome (list Value) :=
  Done match o with Some v => [VBool true; mk v] | None => [VBool false; mk 0] end.
(** [Ok(v) => Some(v), Err(_) => None], a panic stays one. *)
Definition try_pair_outcome (mk : Z → Value) (o : outcome Z) : outcome (list Value) :=
  match o with
  | Done v => Done [VBool true; mk v]
  | Fails _ => Done [VBool false; mk 0]
  | Panics => Panics
  end.
Definition one (mk : Z → Value) (o : outcome Z) : outcome (list Value) := (λ v, [mk v]) <$> o.

(** The documented contract of [num_integer::Roots::sqrt]. *)
Class Roots := {
  sqrt : Z → Z;
  sqrt_floor n : 0 ≤ n → 0 ≤ sqrt n ∧ sqrt n * sqrt n ≤ n < (sqrt n + 1) * (sqrt n + 1)
}.

(** Gas parameters: a flat cost, or one that grows with the input. *)
Record FlatGas := { base_gas : N }.
Record ScaledGas := { scaled_base_gas : N; per_unit_gas : N }.
Definition base (g : FlatGas) : Z := Z.of_N (base_gas g).
Definition scaled_base (g : ScaledGas) : Z := Z.of_N (scaled_base_gas g).
Definition per_unit (g : ScaledGas) : Z := Z.of_N (per_unit_gas g).

Section Natives.
Context {RT : Roots}.

Definition native_sqrt_u128 (gas_params : FlatGas) (ty_args : nat) : native NativeResult :=
  expect_native_signature 1 ty_args 0;;
  charge_gas (base gas_params);;
  x ← pop_arg as_u128;
  finish (Done [VU128 (sqrt x)]).

Definition native_sqrt_u64 (gas_params : FlatGas) (ty_args : nat) : native NativeResult :=
  expect_native_signature 1 ty_args 0;;
  charge_gas (base gas_params);;
  x ← pop_arg as_u64;
  finish (Done [VU64 (sqrt x)]).

Definition native_pow_u64 (gas_params : ScaledGas) (ty_args : nat) : native NativeResult :=
  expect_native_signature 2 ty_args 0;;
  exponent ← pop_arg as_u8;
  b ← pop_arg as_u64;
  charge_gas (pow_gas_cost (scaled_base gas_params) (per_unit gas_params) exponent);;
  finish (one VU64 (or_overflow (checked_pow 64 b exponent))).

Definition native_pow_u128 (gas_params : ScaledGas) (ty_args : nat) : native NativeResult :=
  expect_native_signature 2 ty_args 0;;
  exponent ← pop_arg as_u32;
  b ← pop_arg as_u128;
  charge_gas (pow_gas_cost (scaled_base gas_params) (per_unit gas_params) exponent);;
  finish (one VU128 (or_overflow (checked_pow 128 b exponent))).

Definition native_try_pow_u64 (gas_params : ScaledGas) (ty_args : nat) : native NativeResult :=
  expect_native_signature 2 ty_args 0;;
  exponent ← pop_arg as_u8;
  b ← pop_arg as_u64;
  charge_gas (pow_gas_cost (scaled_base gas_params) (per_unit gas_params) exponent);;
  finish (try_pair VU64 (checked_pow 64 b exponent)).

Definition native_try_pow_u128 (gas_params : ScaledGas) (ty_args : nat) : native NativeResult :=
  expect_native_signature 2 ty_args 0;;
  exponent ← pop_arg as_u32;
  b ← pop_arg as_u128;
  charge_gas (pow_gas_cost (scaled_base gas_params) (per_unit gas_params) exponent);;
  finish (try_pair VU128 (checked_pow 128 b exponent)).

Definition native_mul_div_u128 (gas_params : FlatGas) (ty_args : nat) : native NativeResult :=
  expect_native_signature 3 ty_args 0;;
  charge_gas (base gas_params);;
  z ← pop_arg as_u128;
  y ← pop_arg as_u128;
  x ← pop_arg as_u128;
  finish (one VU128 (mul_div_u128_checked x y z)).

Definition native_mul_div_round_u128 (gas_params : FlatGas) (ty_args : nat) : native NativeResult :=
  expect_native_signature 4 ty_args 0;;
  charge_gas (base gas_params);;
  round_up ← pop_arg as_bool;
  z ← pop_arg as_u128;
  y ← pop_arg as_u128;
  x ← pop_arg as_u128;
  finish (one VU128 (mul_div_u128_round_checked x y z round_up)).

Definition native_try_mul_div_u128 (gas_params : FlatGas) (ty_args : nat) : native NativeResult :=
  expect_native_signature 3 ty_args 0;;
  charge_gas (base gas_params);;
  z ← pop_arg as_u128;
  y ← pop_arg as_u128;
  x ← pop_arg as_u128;
  finish (try_pair_outcome VU128 (mul_div_u128_checked x y z)).

Definition native_mul_add_u128 (gas_params : FlatGas) (ty_args : nat) : native NativeResult :=
  expect_native_signature 3 ty_args 0;;
  charge_gas (base gas_params);;
  z ← pop_arg as_u128;
  y ← pop_arg as_u128;
  x ← pop_arg as_u128;
  finish (one VU128 (mul_add_u128_checked x y z)).

Definition native_min_u128 (gas_params : FlatGas) (ty_args : nat) : native NativeResult :=
  expect_native_signature 2 ty_args 0;;
  charge_gas (base gas_params);;
  b ← pop_arg as_u128;
  a ← pop_arg as_u128;
  finish (Done [VU128 (Z.min a b)]).

Definition native_max_u128 (gas_params : FlatGas) (ty_args : nat) : native NativeResult :=
  expect_native_signature 2 ty_args 0;;
  charge_gas (base gas_params);;
  b ← pop_arg as_u128;
  a ← pop_arg as_u128;
  finish (Done [VU128 (Z.max a b)]).

Definition native_average_u64 (gas_params : FlatGas) (ty_args : nat) : native NativeResult :=
  expect_native_signature 2 ty_args 0;;
  charge_gas (base gas_params);;
  b ← pop_arg as_u64;
  a ← pop_arg as_u64;
  finish (one VU64 (average_u64 a b)).

Definition native_average_u128 (gas_params : FlatGas) (ty_args : nat) : native NativeResult :=
  expect_native_signature 2 ty_args 0;;
  charge_gas (base gas_params);;
  b ← pop_arg as_u128;
  a ← pop_arg as_u128;
  finish (one VU128 (average_u128 a b)).

Definition native_clamp_u64 (gas_params : FlatGas) (ty_args : nat) : native NativeResult :=
  expect_native_signature 3 ty_args 0;;
  charge_gas (base gas_params);;
  hi ← pop_arg as_u64;
  lo ← pop_arg as_u64;
  x ← pop_arg as_u64;
  finish (one VU64 (clamp_u64 x lo hi)).

Definition native_clamp_u128 (gas_params : FlatGas) (ty_args : nat) : native NativeResult :=
  expect_native_signature 3 ty_args 0;;
  charge_gas (base gas_params);;
  hi ← pop_arg as_u128;
  lo ← pop_arg as_u128;
  x ← pop_arg as_u128;
  finish (one VU128 (clamp_u128 x lo hi)).

Definition native_log2_u64 (gas_params : FlatGas) (ty_args : nat) : native NativeResult :=
  expect_native_signature 1 ty_args 0;;
  charge_gas (base gas_params);;
  x ← pop_arg as_u64;
  finish (one VU64 (log2_u64_checked x)).

Definition native_log2_u128 (gas_params : FlatGas) (ty_args : nat) : native NativeResult :=
  expect_native_signature 1 ty_args 0;;
  charge_gas (base gas_params);;
  x ← pop_arg as_u128;
  finish (one VU128 (log2_u128_checked x)).

Definition native_sqrt_u256 (gas_params : ScaledGas) (ty_args : nat) : native NativeResult :=
  expect_native_signature 1 ty_args 0;;
  x ← pop_arg as_u256;
  charge_gas (sqrt_u256_gas_cost (scaled_base gas_params) (per_unit gas_params) (bits (m2p x)));;
  finish (one VU256 (p2m <$> isqrt_u256 (m2p x))).

Definition native_pow_u256 (gas_params : ScaledGas) (ty_args : nat) : native NativeResult :=
  expect_native_signature 2 ty_args 0;;
  exponent ← pop_arg as_u32;
  b ← pop_arg as_u256;
  charge_gas (pow_gas_cost (scaled_base gas_params) (per_unit gas_params) exponent);;
  finish (one VU256 (p2m <$> or_overflow (pow_u256_checked (m2p b) exponent))).

Definition native_try_pow_u256 (gas_params : ScaledGas) (ty_args : nat) : native NativeResult :=
  expect_native_signature 2 ty_args 0;;
  exponent ← pop_arg as_u32;
  b ← pop_arg as_u256;
  charge_gas (pow_gas_cost (scaled_base gas_params) (per_unit gas_params) exponent);;
  finish (try_pair VU256 (p2m <$> pow_u256_checked (m2p b) exponent)).

Definition native_mul_div_u256 (gas_params : FlatGas) (ty_args : nat) : native NativeResult :=
  expect_native_signature 3 ty_args 0;;
  charge_gas (base gas_params);;
  z ← pop_arg as_u256;
  y ← pop_arg as_u256;
  x ← pop_arg as_u256;
  finish (one VU256 (mul_div_u256_checked x y z)).

Definition native_mul_div_round_u256 (gas_params : FlatGas) (ty_args : nat) : native NativeResult :=
  expect_native_signature 4 ty_args 0;;
  charge_gas (base gas_params);;
  round_up ← pop_arg as_bool;
  z ← pop_arg as_u256;
  y ← pop_arg as_u256;
  x ← pop_arg as_u256;
  finish (one VU256 (mul_div_u256_round_checked x y z round_up)).

Definition native_try_mul_div_u256 (gas_params : FlatGas) (ty_args : nat) : native NativeResult :=
  expect_native_signature 3 ty_args 0;;
  charge_gas (base gas_params);;
  z ← pop_arg as_u256;
  y ← pop_arg as_u256;
  x ← pop_arg as_u256;
  finish (try_pair_outcome VU256 (mul_div_u256_checked x y z)).

Definition native_mul_add_u256 (gas_params : FlatGas) (ty_args : nat) : native NativeResult :=
  expect_native_signature 3 ty_args 0;;
  charge_gas (base gas_params);;
  z ← pop_arg as_u256;
  y ← pop_arg as_u256;
  x ← pop_arg as_u256;
  finish (one VU256 (mul_add_u256_checked x y z)).

Definition native_min_u256 (gas_params : FlatGas) (ty_args : nat) : native NativeResult :=
  expect_native_signature 2 ty_args 0;;
  charge_gas (base gas_params);;
  b ← pop_arg as_u256;
  a ← pop_arg as_u256;
  finish (Done [VU256 (p2m (Z.min (m2p a) (m2p b)))]).

Definition native_max_u256 (gas_params : FlatGas) (ty_args : nat) : native NativeResult :=
  expect_native_signature 2 ty_args 0;;
  charge_gas (base gas_params);;
  b ← pop_arg as_u256;
  a ← pop_arg as_u256;
  finish (Done [VU256 (p2m (Z.max (m2p a) (m2p b)))]).

Definition native_average_u256 (gas_params : FlatGas) (ty_args : nat) : native NativeResult :=
  expect_native_signature 2 ty_args 0;;
  charge_gas (base gas_params);;
  b ← pop_arg as_u256;
  a ← pop_arg as_u256;
  finish (one VU256 (p2m <$> average_u256 (m2p a) (m2p b))).

Definition native_clamp_u256 (gas_params : FlatGas) (ty_args : nat) : native NativeResult :=
  expect_native_signature 3 ty_args 0;;
  charge_gas (base gas_params);;
  hi ← pop_arg as_u256;
  lo ← pop_arg as_u256;
  x ← pop_arg as_u256;
  finish (one VU256 (p2m <$> clamp_u256 (m2p x) (m2p lo) (m2p hi))).

Definition native_log2_u256 (gas_params : FlatGas) (ty_args : nat) : native NativeResult :=
  expect_native_signature 1 ty_args 0;;
  charge_gas (base gas_params);;
  x ← pop_arg as_u256;
  finish (one VU256 (p2m <$> log2_u256_checked x)).

Definition native_ceil_div_u64 (gas_params : FlatGas) (ty_args : nat) : native NativeResult :=
  expect_native_signature 2 ty_args 0;;
  charge_gas (base gas_params);;
  b ← pop_arg as_u64;
  a ← pop_arg as_u64;
  finish (one VU64 (ceil_div_u64 a b)).

Definition native_ceil_div_u128 (gas_params : FlatGas) (ty_args : nat) : native NativeResult :=
  expect_native_signature 2 ty_args 0;;
  charge_gas (base gas_params);;
  b ← pop_arg as_u128;
  a ← pop_arg as_u128;
  finish (one VU128 (ceil_div_u128 a b)).

Definition native_ceil_div_u256 (gas_params : FlatGas) (ty_args : nat) : native NativeResult :=
  expect_native_signature 2 ty_args 0;;
  charge_gas (base gas_params);;
  b ← pop_arg as_u256;
  a ← pop_arg as_u256;
  finish (one VU256 (p2m <$> ceil_div_u256 (m2p a) (m2p b))).

End Natives.

(** ** The registry ([mod.rs]) *)

Record GasParameters := {
  gas_sqrt_u128 : FlatGas;
  gas_sqrt_u64 : FlatGas;
  gas_sqrt_u256 : ScaledGas;
  gas_pow_u64 : ScaledGas;
  gas_pow_u128 : ScaledGas;
  gas_pow_u256 : ScaledGas;
  gas_try_pow_u64 : ScaledGas;
  gas_try_pow_u128 : ScaledGas;
  gas_try_pow_u256 : ScaledGas;
  gas_mul_div_u128 : FlatGas;
  gas_mul_div_round_u128 : FlatGas;
  gas_try_mul_div_u128 : FlatGas;
  gas_mul_add_u128 : FlatGas;
  gas_mul_div_u256 : FlatGas;
  gas_mul_div_round_u256 : FlatGas;
  gas_try_mul_div_u256 : FlatGas;
  gas_mul_add_u256 : FlatGas;
  gas_min_u128 : FlatGas;
  gas_max_u128 : FlatGas;
  gas_min_u256 : FlatGas;
  gas_max_u256 : FlatGas;
  gas_average_u64 : FlatGas;
  gas_average_u128 : FlatGas;
  gas_average_u256 : FlatGas;
  gas_clamp_u64 : FlatGas;
  gas_clamp_u128 : FlatGas;
  gas_clamp_u256 : FlatGas;
  gas_log2_u64 : FlatGas;
  gas_log2_u128 : FlatGas;
  gas_log2_u256 : FlatGas;
  gas_ceil_div_u64 : FlatGas;
  gas_ceil_div_u128 : FlatGas;
  gas_ceil_div_u256 : FlatGas
}.

Definition zeros : GasParameters := {|
  gas_sqrt_u128 := {| base_gas := 0 |};
  gas_sqrt_u64 := {| base_gas := 0 |};
  gas_sqrt_u256 := {| scaled_base_gas := 0; per_unit_gas := 0 |};
  gas_pow_u64 := {| scaled_base_gas := 0; per_unit_gas := 0 |};
  gas_pow_u128 := {| scaled_base_gas := 0; per_unit_gas := 0 |};
  gas_pow_u256 := {| scaled_base_gas := 0; per_unit_gas := 0 |};
  gas_try_pow_u64 := {| scaled_base_gas := 0; per_unit_gas := 0 |};
  gas_try_pow_u128 := {| scaled_base_gas := 0; per_unit_gas := 0 |};
  gas_try_pow_u256 := {| scaled_base_gas := 0; per_unit_gas := 0 |};
  gas_mul_div_u128 := {| base_gas := 0 |};
  gas_mul_div_round_u128 := {| base_gas := 0 |};
  gas_try_mul_div_u128 := {| base_gas := 0 |};
  gas_mul_add_u128 := {| base_gas := 0 |};
  gas_mul_div_u256 := {| base_gas := 0 |};
  gas_mul_div_round_u256 := {| base_gas := 0 |};
  gas_try_mul_div_u256 := {| base_gas := 0 |};
  gas_mul_add_u256 := {| base_gas := 0 |};
  gas_min_u128 := {| base_gas := 0 |};
  gas_max_u128 := {| base_gas := 0 |};
  gas_min_u256 := {| base_gas := 0 |};
  gas_max_u256 := {| base_gas := 0 |};
  gas_average_u64 := {| base_gas := 0 |};
  gas_average_u128 := {| base_gas := 0 |};
  gas_average_u256 := {| base_gas := 0 |};
  gas_clamp_u64 := {| base_gas := 0 |};
  gas_clamp_u128 := {| base_gas := 0 |};
  gas_clamp_u256 := {| base_gas := 0 |};
  gas_log2_u64 := {| base_gas := 0 |};
  gas_log2_u128 := {| base_gas := 0 |};
  gas_log2_u256 := {| base_gas := 0 |};
  gas_ceil_div_u64 := {| base_gas := 0 |};
  gas_ceil_div_u128 := {| base_gas := 0 |};
  gas_ceil_div_u256 := {| base_gas := 0 |}
|}.

Definition production : GasParameters := {|
  gas_sqrt_u128 := {| base_gas := 2000 |};
  gas_sqrt_u64 := {| base_gas := 250 |};
  gas_sqrt_u256 := {| scaled_base_gas := 3000; per_unit_gas := 5000 |};
  gas_pow_u64 := {| scaled_base_gas := 150; per_unit_gas := 10 |};
  gas_pow_u128 := {| scaled_base_gas := 900; per_unit_gas := 10 |};
  gas_pow_u256 := {| scaled_base_gas := 2000; per_unit_gas := 50 |};
  gas_try_pow_u64 := {| scaled_base_gas := 150; per_unit_gas := 10 |};
  gas_try_pow_u128 := {| scaled_base_gas := 900; per_unit_gas := 10 |};
  gas_try_pow_u256 := {| scaled_base_gas := 2000; per_unit_gas := 50 |};
  gas_mul_div_u128 := {| base_gas := 4000 |};
  gas_mul_div_round_u128 := {| base_gas := 4000 |};
  gas_try_mul_div_u128 := {| base_gas := 4000 |};
  gas_mul_add_u128 := {| base_gas := 200 |};
  gas_mul_div_u256 := {| base_gas := 10000 |};
  gas_mul_div_round_u256 := {| base_gas := 10000 |};
  gas_try_mul_div_u256 := {| base_gas := 10000 |};
  gas_mul_add_u256 := {| base_gas := 4500 |};
  gas_min_u128 := {| base_gas := 100 |};
  gas_max_u128 := {| base_gas := 100 |};
  gas_min_u256 := {| base_gas := 700 |};
  gas_max_u256 := {| base_gas := 700 |};
  gas_average_u64 := {| base_gas := 100 |};
  gas_average_u128 := {| base_gas := 100 |};
  gas_average_u256 := {| base_gas := 2500 |};
  gas_clamp_u64 := {| base_gas := 100 |};
  gas_clamp_u128 := {| base_gas := 100 |};
  gas_clamp_u256 := {| base_gas := 1000 |};
  gas_log2_u64 := {| base_gas := 100 |};
  gas_log2_u128 := {| base_gas := 100 |};
  gas_log2_u256 := {| base_gas := 500 |};
  gas_ceil_div_u64 := {| base_gas := 120 |};
  gas_ceil_div_u128 := {| base_gas := 180 |};
  gas_ceil_div_u256 := {| base_gas := 700 |}
|}.

Definition make_all {RT : Roots} (gas_params : GasParameters) :
    list (string * (nat → native NativeResult)) := [
  ("sqrt_u128"%string, native_sqrt_u128 (gas_sqrt_u128 gas_params));
  ("sqrt_u64"%string, native_sqrt_u64 (gas_sqrt_u64 gas_params));
  ("sqrt_u256"%string, native_sqrt_u256 (gas_sqrt_u256 gas_params));
  ("pow_u64"%string, native_pow_u64 (gas_pow_u64 gas_params));
  ("pow_u128"%string, native_pow_u128 (gas_pow_u128 gas_params));
  ("pow_u256"%string, native_pow_u256 (gas_pow_u256 gas_params));
  ("try_pow_u64"%string, native_try_pow_u64 (gas_try_pow_u64 gas_params));
  ("try_pow_u128"%string, native_try_pow_u128 (gas_try_pow_u128 gas_params));
  ("try_pow_u256"%string, native_try_pow_u256 (gas_try_pow_u256 gas_params));
  ("mul_div_u128"%string, native_mul_div_u128 (gas_mul_div_u128 gas_params));
  ("mul_div_round_u128"%string, native_mul_div_round_u128 (gas_mul_div_round_u128 gas_params));
  ("try_mul_div_u128"%string, native_try_mul_div_u128 (gas_try_mul_div_u128 gas_params));
  ("mul_add_u128"%string, native_mul_add_u128 (gas_mul_add_u128 gas_params));
  ("mul_div_u256"%string, native_mul_div_u256 (gas_mul_div_u256 gas_params));
  ("mul_div_round_u256"%string, native_mul_div_round_u256 (gas_mul_div_round_u256 gas_params));
  ("try_mul_div_u256"%string, native_try_mul_div_u256 (gas_try_mul_div_u256 gas_params));
  ("mul_add_u256"%string, native_mul_add_u256 (gas_mul_add_u256 gas_params));
  ("min_u128"%string, native_min_u128 (gas_min_u128 gas_params));
  ("max_u128"%string, native_max_u128 (gas_max_u128 gas_params));
  ("min_u256"%string, native_min_u256 (gas_min_u256 gas_params));
  ("max_u256"%string, native_max_u256 (gas_max_u256 gas_params));
  ("average_u64"%string, native_average_u64 (gas_average_u64 gas_params));
  ("average_u128"%string, native_average_u128 (gas_average_u128 gas_params));
  ("average_u256"%string, native_average_u256 (gas_average_u256 gas_params));
  ("clamp_u64"%string, native_clamp_u64 (gas_clamp_u64 gas_params));
  ("clamp_u128"%string, native_clamp_u128 (gas_clamp_u128 gas_params));
  ("clamp_u256"%string, native_clamp_u256 (gas_clamp_u256 gas_params));
  ("log2_u64"%string, native_log2_u64 (gas_log2_u64 gas_params));
  ("log2_u128"%string, native_log2_u128 (gas_log2_u128 gas_params));
  ("log2_u256"%string, native_log2_u256 (gas_log2_u256 gas_params));
  ("ceil_div_u64"%string, native_ceil_div_u64 (gas_ceil_div_u64 gas_params));
  ("ceil_div_u128"%string, native_ceil_div_u128 (gas_ceil_div_u128 gas_params));
  ("ceil_div_u256"%string, native_ceil_div_u256 (gas_ceil_div_u256 gas_params))
].
