(* ===== verification/NativeMathTheorems.v ===== *)
(** * The arithmetic natives are exact

    Each helper of [NativeMath] computes the exact mathematical value, or fails
    with the documented code, and never panics on values of its width; the
    registered natives refine a table of such specifications. *)

From stdpp Require Import base list gmap strings.
From Stdlib Require Import ZArith Lia.
From S2P Require Import Prelude NativeMath.

Local Open Scope Z_scope.

Definition urange (w n : Z) : Prop := 0 ≤ n ≤ umax w.

(** ** Ranges *)

Lemma fits_true w n : urange w n → fits w n = true.
Proof. intros [H1 H2]. unfold fits. by rewrite (proj2 (Z.leb_le _ _) H1), (proj2 (Z.leb_le _ _) H2). Qed.

Lemma fits_iff w n : fits w n = true ↔ urange w n.
Proof. unfold fits, urange. rewrite andb_true_iff, !Z.leb_le. done. Qed.

Lemma or_panic_done w n : urange w n → or_panic w n = Done n.
Proof. intros H. unfold or_panic. by rewrite fits_true. Qed.

Lemma umax_pos w : 0 ≤ w → 0 ≤ umax w.
Proof. intros H. unfold umax. pose proof (Z.pow_pos_nonneg 2 w). lia. Qed.

Lemma umax_mono w w' : 0 ≤ w ≤ w' → umax w ≤ umax w'.
Proof. intros H. unfold umax. pose proof (Z.pow_le_mono_r 2 w w'). lia. Qed.

Lemma urange_mono w w' n : 0 ≤ w ≤ w' → urange w n → urange w' n.
Proof. intros H [H1 H2]. pose proof (umax_mono w w' H). unfold urange. lia. Qed.

(** A product of two [w]-bit values plus a third fits in [2 * w] bits. *)
Lemma mul_add_range w x y z :
  0 ≤ w → urange w x → urange w y → urange w z → urange (2 * w) (x * y + z).
Proof.
  unfold urange, umax. intros Hw Hx Hy Hz.
  replace (2 * w) with (w + w) by lia. rewrite Z.pow_add_r by done.
  set (m := 2 ^ w) in *. assert (0 < m) by (subst m; by apply Z.pow_pos_nonneg).
  split; [nia|]. assert (x * y ≤ (m - 1) * (m - 1)) by nia. nia.
Qed.

Lemma mul_range w x y : 0 ≤ w → urange w x → urange w y → urange (2 * w) (x * y).
Proof.
  intros Hw Hx Hy. replace (x * y) with (x * y + 0) by lia. apply mul_add_range; [done..|].
  split; [lia|by apply umax_pos].
Qed.

Lemma div_range w a b : urange w a → 0 < b → urange w (a / b).
Proof.
  intros [H1 H2] Hb. split; [apply Z.div_pos; lia|].
  pose proof (Z.div_le_upper_bound a b a Hb). nia.
Qed.

Lemma udiv_done a b : b ≠ 0 → udiv a b = Done (a / b).
Proof. intros H. unfold udiv. by rewrite (proj2 (Z.eqb_neq _ _) H). Qed.
Lemma urem_done a b : b ≠ 0 → urem a b = Done (a mod b).
Proof. intros H. unfold urem. by rewrite (proj2 (Z.eqb_neq _ _) H). Qed.

Lemma narrow_range w n : 0 ≤ w → urange w n → n mod 2 ^ w = n.
Proof. unfold urange, umax. intros Hw H. apply Z.mod_small. lia. Qed.

(** [if result > u128::MAX { Err } else { Ok(result.as_u128()) }] *)
Lemma narrow_exact w v :
  0 ≤ w → 0 ≤ v → (if umax w <? v then Fails E_OVERFLOW else Done (v mod 2 ^ w))
  = if umax w <? v then Fails E_OVERFLOW else Done v.
Proof.
  intros Hw Hv. destruct (Z.ltb_spec (umax w) v); [done|]. by rewrite narrow_range.
Qed.

(** ** Little-endian conversions *)

Lemma le_value_roundtrip k n : 0 ≤ n < 256 ^ Z.of_nat k → from_le_bytes (to_le_bytes k n) = n.
Proof.
  revert n. induction k as [|k IH]; intros n Hn; [simpl in *; lia|].
  rewrite Nat2Z.inj_succ, Z.pow_succ_r in Hn by lia. cbn [to_le_bytes from_le_bytes].
  rewrite IH; [pose proof (Z.div_mod n 256); lia|].
  split; [apply Z.div_pos; lia|apply Z.div_lt_upper_bound; lia].
Qed.

Lemma take_le_bytes k j n : take k (to_le_bytes (k + j) n) = to_le_bytes k n.
Proof. revert n. induction k as [|k IH]; intros n; [done|]. cbn. by rewrite IH. Qed.

Lemma urange_256 n : urange 256 n → 0 ≤ n < 256 ^ Z.of_nat 32.
Proof.
  unfold urange, umax. change (256 ^ Z.of_nat 32) with ((2 ^ 8) ^ 32).
  rewrite <- Z.pow_mul_r by lia. change (8 * 32) with 256. lia.
Qed.

Lemma m2p_id x : urange 256 x → m2p x = x.
Proof. intros H. by apply le_value_roundtrip, urange_256. Qed.
Lemma p2m_id x : urange 256 x → p2m x = x.
Proof. exact (m2p_id x). Qed.

Lemma fit_u256_exact v :
  0 ≤ v → fit_u256 v = if umax 256 <? v then Fails E_OVERFLOW else Done v.
Proof.
  intros Hv. unfold fit_u256. destruct (Z.ltb_spec (umax 256) v) as [|H]; [done|].
  rewrite (take_le_bytes 32 32). f_equal. by apply le_value_roundtrip, urange_256.
Qed.

(** ** Products and quotients *)

(** What a multiply-divide means: [x * y / z], rounded as asked, or why not. *)
Definition mul_div_spec (w : Z) (round_up : bool) (x y z : Z) : outcome Z :=
  if z =? 0 then Fails E_DIVIDE_BY_ZERO else
  let v := if round_up && negb (x * y mod z =? 0) then x * y / z + 1 else x * y / z in
  if umax w <? v then Fails E_OVERFLOW else Done v.
Definition mul_add_spec (w x y z : Z) : outcome Z :=
  if umax w <? x * y + z then Fails E_OVERFLOW else Done (x * y + z).

Lemma mul_div_u128_exact x y z :
  urange 128 x → urange 128 y → urange 128 z →
  mul_div_u128_checked x y z = mul_div_spec 128 false x y z.
Proof.
  intros Hx Hy Hz. unfold mul_div_u128_checked, mul_div_spec.
  destruct (Z.eqb_spec z 0) as [|Hz0]; [done|]. cbn [andb].
  assert (Hp : urange 256 (x * y)) by (apply (mul_range 128); done).
  unfold umul. rewrite or_panic_done by done. cbn [mbind outcome_bind].
  rewrite udiv_done by done. cbn [mbind outcome_bind].
  assert (Hq : urange 256 (x * y / z)) by (apply div_range; [done|unfold urange in Hz; lia]).
  apply narrow_exact; [done|apply Hq].
Qed.

Lemma quotient_up_range w x y z :
  1 ≤ w → urange w x → urange w y → 0 < z → urange (2 * w) (x * y / z + 1).
Proof.
  intros Hw Hx Hy Hz. pose proof (mul_range w x y ltac:(lia) Hx Hy) as [Hp0 _].
  assert (H1 : urange w 1).
  { split; [lia|]. unfold umax. pose proof (Z.pow_le_mono_r 2 1 w). lia. }
  destruct (mul_add_range w x y 1 ltac:(lia) Hx Hy H1) as [_ Hm].
  assert (x * y / z ≤ x * y) by (apply Z.div_le_upper_bound; nia).
  split; [pose proof (Z.div_pos (x * y) z); lia|lia].
Qed.

Lemma mul_div_u128_round_exact x y z up :
  urange 128 x → urange 128 y → urange 128 z →
  mul_div_u128_round_checked x y z up = mul_div_spec 128 up x y z.
Proof.
  intros Hx Hy Hz. unfold mul_div_u128_round_checked, mul_div_spec.
  destruct (Z.eqb_spec z 0) as [|Hz0]; [done|]. assert (0 < z) by (unfold urange in Hz; lia).
  assert (Hp : urange 256 (x * y)) by (apply (mul_range 128); done).
  unfold umul. rewrite or_panic_done by done. cbn [mbind outcome_bind].
  rewrite udiv_done, urem_done by done. cbn [mbind outcome_bind].
  assert (Hq : 0 ≤ x * y / z) by (apply Z.div_pos; unfold urange in Hp; lia).
  assert (Hq1 : urange 256 (x * y / z + 1)) by (apply (quotient_up_range 128); [lia|done..]).
  destruct (up && _); [unfold uadd; rewrite or_panic_done by done|]; cbn [mbind outcome_bind];
    apply narrow_exact; lia.
Qed.

Lemma mul_add_u128_exact x y z :
  urange 128 x → urange 128 y → urange 128 z →
  mul_add_u128_checked x y z = mul_add_spec 128 x y z.
Proof.
  intros Hx Hy Hz. unfold mul_add_u128_checked, mul_add_spec.
  assert (Hp : urange 256 (x * y)) by (apply (mul_range 128); done).
  assert (Hs : urange 256 (x * y + z)) by (apply (mul_add_range 128); done).
  unfold umul, uadd. rewrite or_panic_done by done. cbn [mbind outcome_bind].
  rewrite or_panic_done by done. cbn [mbind outcome_bind].
  apply narrow_exact; [done|apply Hs].
Qed.

Lemma mul_div_u256_exact x y z :
  urange 256 x → urange 256 y → urange 256 z →
  mul_div_u256_checked x y z = mul_div_spec 256 false x y z.
Proof.
  intros Hx Hy Hz. unfold mul_div_u256_checked, mul_div_spec. rewrite !m2p_id by done.
  destruct (Z.eqb_spec z 0) as [|Hz0]; [done|]. cbn [andb].
  assert (Hp : urange 512 (x * y)) by (apply (mul_range 256); done).
  unfold umul. rewrite or_panic_done by done. cbn [mbind outcome_bind].
  rewrite udiv_done by done. cbn [mbind outcome_bind].
  apply fit_u256_exact, Z.div_pos; [apply Hp|unfold urange in Hz; lia].
Qed.

Lemma mul_div_u256_round_exact x y z up :
  urange 256 x → urange 256 y → urange 256 z →
  mul_div_u256_round_checked x y z up = mul_div_spec 256 up x y z.
Proof.
  intros Hx Hy Hz. unfold mul_div_u256_round_checked, mul_div_spec. rewrite !m2p_id by done.
  destruct (Z.eqb_spec z 0) as [|Hz0]; [done|]. assert (0 < z) by (unfold urange in Hz; lia).
  assert (Hp : urange 512 (x * y)) by (apply (mul_range 256); done).
  unfold umul. rewrite or_panic_done by done. cbn [mbind outcome_bind].
  rewrite udiv_done, urem_done by done. cbn [mbind outcome_bind].
  assert (Hq : 0 ≤ x * y / z) by (apply Z.div_pos; unfold urange in Hp; lia).
  assert (Hq1 : urange 512 (x * y / z + 1)) by (apply (quotient_up_range 256); [lia|done..]).
  rewrite (fits_true 512) by done.
  destruct (up && _); cbn [mbind outcome_bind]; apply fit_u256_exact; lia.
Qed.

Lemma mul_add_u256_exact x y z :
  urange 256 x → urange 256 y → urange 256 z →
  mul_add_u256_checked x y z = mul_add_spec 256 x y z.
Proof.
  intros Hx Hy Hz. unfold mul_add_u256_checked, mul_add_spec. rewrite !m2p_id by done.
  assert (Hp : urange 512 (x * y)) by (apply (mul_range 256); done).
  assert (Hs : urange 512 (x * y + z)) by (apply (mul_add_range 256); done).
  unfold umul, uadd. rewrite or_panic_done by done. cbn [mbind outcome_bind].
  rewrite or_panic_done by done. cbn [mbind outcome_bind]. apply fit_u256_exact, Hs.
Qed.

(** ** Averages, clamps, logarithms, rounded division *)

Lemma land_half_lxor a b : Z.land a b + Z.lxor a b / 2 = (a + b) / 2.
Proof.
  rewrite <- (Z.add_lxor_2land a b), (Z.mul_comm 2), Z.div_add by lia. lia.
Qed.

Lemma average_range w a b : urange w a → urange w b → urange w ((a + b) / 2).
Proof. intros [] []. split; [apply Z.div_pos; lia|]. apply Z.div_le_upper_bound; lia. Qed.

Lemma average_exact w a b :
  urange w a → urange w b → uadd w (Z.land a b) (Z.lxor a b / 2) = Done ((a + b) / 2).
Proof. intros Ha Hb. unfold uadd. rewrite land_half_lxor. by apply or_panic_done, average_range. Qed.

Lemma average_shift_exact w a b :
  urange w a → urange w b → uadd w (Z.land a b) (Z.shiftr (Z.lxor a b) 1) = Done ((a + b) / 2).
Proof. rewrite Z.shiftr_div_pow2 by done. apply average_exact. Qed.

Definition clamp_spec (x lo hi : Z) : outcome Z :=
  if hi <? lo then Fails E_INVALID_ARG else Done (Z.max lo (Z.min x hi)).

Lemma clamp_exact x lo hi :
  (if hi <? lo then Fails E_INVALID_ARG else uclamp x lo hi) = clamp_spec x lo hi.
Proof.
  unfold clamp_spec, uclamp. destruct (Z.ltb_spec hi lo); [done|]. f_equal.
  destruct (Z.ltb_spec x lo), (Z.ltb_spec hi x); lia.
Qed.

Definition log2_spec (x : Z) : outcome Z :=
  if x =? 0 then Fails E_INVALID_ARG else Done (Z.log2 x).

Lemma log2_range w x : 0 < w → urange w x → 0 ≤ Z.log2 x < w.
Proof.
  intros Hw [H1 H2]. split; [apply Z.log2_nonneg|]. destruct (decide (x = 0)) as [->|]; [simpl; lia|].
  apply Z.log2_lt_pow2; [lia|]. unfold umax in H2. lia.
Qed.

Lemma small_range w n : 8 ≤ w → 0 ≤ n < 256 → urange w n.
Proof.
  intros Hw Hn. apply (urange_mono 8); [lia|]. unfold urange, umax. change (2 ^ 8) with 256. lia.
Qed.

Lemma log2_word_exact w x :
  8 ≤ w ≤ 256 → urange w x →
  (if x =? 0 then Fails E_INVALID_ARG else usub w (w - 1) (leading_zeros w x)) = log2_spec x.
Proof.
  intros Hw Hx. unfold log2_spec, leading_zeros. destruct (Z.eqb_spec x 0); [done|].
  unfold usub. replace (w - 1 - (w - 1 - Z.log2 x)) with (Z.log2 x) by lia.
  pose proof (log2_range w x ltac:(lia) Hx). apply or_panic_done, small_range; lia.
Qed.

Lemma log2_u256_exact x : urange 256 x → log2_u256_checked x = log2_spec x.
Proof.
  intros Hx. unfold log2_u256_checked, log2_spec, bits. rewrite m2p_id by done.
  destruct (Z.eqb_spec x 0); [done|]. unfold usub.
  replace (Z.log2 x + 1 - 1) with (Z.log2 x) by lia.
  pose proof (log2_range 256 x ltac:(lia) Hx). apply or_panic_done, small_range; lia.
Qed.

(** The least [q] with [a <= q * b]. *)
Definition ceil_div_spec (a b : Z) : outcome Z :=
  if b =? 0 then Fails E_DIVIDE_BY_ZERO else Done (- (- a / b)).

Lemma ceil_div_exact w a b :
  1 ≤ w → urange w a → urange w b →
  (if b =? 0 then Fails E_DIVIDE_BY_ZERO else
   q ← udiv a b; r ← urem a b; if r =? 0 then Done q else uadd w q 1) = ceil_div_spec a b.
Proof.
  intros Hw Ha Hb. unfold ceil_div_spec. destruct (Z.eqb_spec b 0) as [|Hb0]; [done|].
  assert (0 < b) by (unfold urange in Hb; lia).
  rewrite udiv_done, urem_done by done. cbn [mbind outcome_bind].
  destruct (Z.eqb_spec (a mod b) 0) as [E|E].
  - f_equal. rewrite Z.div_opp_l_z by lia. lia.
  - rewrite Z.div_opp_l_nz by lia. replace (- (- (a / b) - 1)) with (a / b + 1) by lia.
    apply or_panic_done. pose proof (div_range w a b Ha ltac:(lia)) as [Hq _].
    split; [lia|]. destruct Ha as [Ha0 Ha1].
    destruct (decide (b = 1)) as [->|]; [by rewrite Z.mod_1_r in E|].
    pose proof (Z.div_mod a b ltac:(lia)). pose proof (Z.mod_pos_bound a b ltac:(lia)). nia.
Qed.

(** ** Square root *)

Definition sqrt_inv (n lo hi : Z) : Prop :=
  1 ≤ lo ≤ hi ∧ urange 256 hi ∧ lo * lo ≤ n < (hi + 1) * (hi + 1).

(** The square root lies between the bounds of the search. *)
Lemma sqrt_inv_done n lo : sqrt_inv n lo lo → lo = Z.sqrt n.
Proof. intros (H1 & _ & H2). symmetry. apply Z.sqrt_unique. lia. Qed.

(** One round of the search, on the mathematical values. *)
Lemma isqrt_round n lo hi mid :
  sqrt_inv n lo hi → lo < hi → mid = lo + (hi - lo + 1) / 2 →
  lo < mid ≤ hi
  ∧ (mid ≤ n / mid → sqrt_inv n mid hi ∧ 2 * (hi - mid) ≤ hi - lo)
  ∧ (n / mid < mid → sqrt_inv n lo (mid - 1) ∧ 2 * (mid - 1 - lo) ≤ hi - lo).
Proof.
  intros (Hlo & Hhi & Hn) Hlt ->.
  assert (Hm : 2 * ((hi - lo + 1) / 2) ≤ hi - lo + 1 < 2 * ((hi - lo + 1) / 2) + 2).
  { pose proof (Z.div_mod (hi - lo + 1) 2 ltac:(lia)).
    pose proof (Z.mod_pos_bound (hi - lo + 1) 2 ltac:(lia)). lia. }
  set (mid := lo + (hi - lo + 1) / 2) in *. split; [lia|]. split; intros Hd.
  - split; [|lia]. split; [lia|]. split; [done|]. split; [|lia].
    pose proof (Z.mul_div_le n mid ltac:(lia)). nia.
  - split; [|lia]. split; [lia|]. split; [unfold urange in *; lia|]. split; [lia|].
    replace (mid - 1 + 1) with mid by lia. pose proof (Z.mul_succ_div_gt n mid ltac:(lia)). nia.
Qed.

Lemma isqrt_loop_exact fuel n lo hi :
  sqrt_inv n lo hi → hi - lo < 2 ^ Z.of_nat fuel → isqrt_loop (S fuel) n lo hi = Done (Z.sqrt n).
Proof.
  revert lo hi. induction fuel as [|fuel IH]; intros lo hi Hinv Hf.
  { change (2 ^ Z.of_nat 0) with 1 in Hf. assert (hi = lo) as -> by (unfold sqrt_inv in Hinv; lia).
    cbn [isqrt_loop]. rewrite Z.ltb_irrefl. cbn [negb]. by rewrite <- (sqrt_inv_done n lo). }
  rewrite Nat2Z.inj_succ, Z.pow_succ_r in Hf by lia.
  remember (S fuel) as fuel' eqn:Ef. cbn [isqrt_loop].
  destruct (Z.ltb_spec lo hi) as [Hlt|Hge]; cbn [negb].
  2: { assert (hi = lo) as -> by (unfold sqrt_inv in Hinv; lia). by rewrite <- (sqrt_inv_done n lo). }
  destruct (isqrt_round n lo hi _ Hinv Hlt eq_refl) as (Hmid & Hup & Hdown).
  pose proof Hinv as (Hlo & [_ Hhi] & _).
  unfold usub, uadd. rewrite or_panic_done by (unfold urange; lia). cbn [mbind outcome_bind].
  rewrite or_panic_done by (unfold urange; lia). cbn [mbind outcome_bind].
  rewrite or_panic_done by (unfold urange; lia). cbn [mbind outcome_bind].
  rewrite udiv_done by lia. cbn [mbind outcome_bind].
  destruct (Z.leb_spec (lo + (hi - lo + 1) / 2) (n / (lo + (hi - lo + 1) / 2))) as [Hc|Hc].
  - destruct (Hup Hc) as [Hi Hg]. apply IH; [done|lia].
  - destruct (Hdown Hc) as [Hi Hg]. rewrite or_panic_done by (unfold urange; lia).
    cbn [mbind outcome_bind]. apply IH; [done|lia].
Qed.

Lemma isqrt_u256_exact n : urange 256 n → isqrt_u256 n = Done (Z.sqrt n).
Proof.
  intros Hn. unfold isqrt_u256. destruct (Z.leb_spec n 1) as [H|H].
  { assert (n = 0 ∨ n = 1) as [-> | ->] by (unfold urange in Hn; lia); done. }
  pose proof (Z.div_mod n 2 ltac:(lia)). pose proof (Z.mod_pos_bound n 2 ltac:(lia)).
  assert (Hr : urange 256 (n / 2 + 1)).
  { destruct Hn as [_ Hn]. split; [lia|]. lia. }
  unfold uadd. rewrite or_panic_done by done. cbn [mbind outcome_bind]. apply isqrt_loop_exact.
  - split; [lia|]. split; [done|]. nia.
  - destruct Hn as [_ Hn]. unfold umax in Hn. change (Z.of_nat 257) with (256 + 1).
    rewrite Z.pow_add_r by lia. assert (0 < 2 ^ 256) by done. lia.
Qed.

(** ** Powers *)

Definition pow_spec (w b e : Z) : option Z := if fits w (b ^ e) then Some (b ^ e) else None.

Lemma pow_split b e : 0 ≤ e → b ^ e = b ^ (e mod 2) * (b * b) ^ (e / 2).
Proof.
  intros He. replace (b * b) with (b ^ 2) by lia. pose proof (Z.div_mod e 2 ltac:(lia)).
  pose proof (Z.mod_pos_bound e 2 ltac:(lia)). pose proof (Z.div_pos e 2).
  rewrite <- Z.pow_mul_r, <- Z.pow_add_r by lia. f_equal. lia.
Qed.

Lemma fits_false_above w n : umax w < n → fits w n = false.
Proof. intros H. apply not_true_iff_false. intros [_ Hn]%fits_iff. lia. Qed.

(** Overflow of a partial product is overflow of the power. *)
Lemma partial_overflow r b e :
  0 ≤ b → 0 ≤ e → urange 256 r → umax 256 < r * b ^ (e mod 2) →
  umax 256 < r * b ^ (e mod 2) * (b * b) ^ (e / 2).
Proof.
  intros Hb He Hr Hbig. pose proof (umax_pos 256 ltac:(done)).
  assert (Hd : 0 ≤ e / 2) by (apply Z.div_pos; lia). pose proof (Z.mod_pos_bound e 2 ltac:(lia)).
  assert (b ≠ 0).
  { intros ->. assert (e mod 2 = 0 ∨ e mod 2 = 1) as [E|E] by lia; rewrite E in Hbig.
    - rewrite Z.pow_0_r, Z.mul_1_r in Hbig. unfold urange in Hr. lia.
    - rewrite Z.pow_1_r, Z.mul_0_r in Hbig. lia. }
  pose proof (Z.pow_pos_nonneg (b * b) (e / 2) ltac:(nia) Hd). nia.
Qed.

Lemma square_overflow r b e :
  0 ≤ b → 0 < e → 1 ≤ r ∨ b = 0 → umax 256 < b * b → umax 256 < r * (b * b) ^ e.
Proof.
  intros Hb He Hr Hbig. pose proof (umax_pos 256 ltac:(done)).
  assert (b * b ≤ (b * b) ^ e).
  { rewrite <- (Z.pow_1_r (b * b)) at 1. apply Z.pow_le_mono_r; lia. }
  destruct Hr as [Hr| ->]; [nia|lia].
Qed.

Lemma not_fits w n : 0 ≤ n → fits w n = false → umax w < n.
Proof. intros Hn E. apply not_true_iff_false in E. rewrite fits_iff in E. unfold urange in E. lia. Qed.

(** One round of the loop on an unfinished exponent. *)
Lemma pow_round fuel r b e :
  e ≠ 0 → pow_loop (S fuel) r b e
  = (r ← (if e mod 2 =? 1 then checked_mul 256 r b else Some r);
     b ← (if 0 <? e / 2 then checked_mul 256 b b else Some b);
     pow_loop fuel r b (e / 2)).
Proof.
  intros He. cbn [pow_loop]. rewrite (proj2 (Z.eqb_neq _ _) He).
  assert (Z.land e 1 = e mod 2) as -> by exact (Z.land_ones e 1 ltac:(lia)).
  by rewrite Z.shiftr_div_pow2 by lia.
Qed.

Lemma pow_loop_exact fuel r b e :
  urange 256 r → urange 256 b → 1 ≤ r ∨ b = 0 → 0 ≤ e < 2 ^ Z.of_nat fuel →
  pow_loop (S fuel) r b e = if fits 256 (r * b ^ e) then Some (r * b ^ e) else None.
Proof.
  revert r b e. induction fuel as [|fuel IH]; intros r b e Hr Hb Hrb He;
    (destruct (decide (e = 0)) as [->|He0];
     [cbn [pow_loop Z.eqb]; by rewrite Z.pow_0_r, Z.mul_1_r, fits_true|]).
  { change (2 ^ Z.of_nat 0) with 1 in He. lia. }
  rewrite Nat2Z.inj_succ, Z.pow_succ_r in He by lia. rewrite pow_round, (pow_split b e) by lia.
  assert (Hb0 : 0 ≤ b) by apply Hb. assert (Hr0 : 0 ≤ r) by apply Hr.
  assert (Hd : 0 ≤ e / 2) by (apply Z.div_pos; lia).
  assert (Hdlt : e / 2 < 2 ^ Z.of_nat fuel) by (apply Z.div_lt_upper_bound; lia).
  pose proof (Z.mod_pos_bound e 2 ltac:(lia)) as Hm. rewrite Z.mul_assoc.
  assert (Hstep : (if e mod 2 =? 1 then checked_mul 256 r b else Some r)
    = if fits 256 (r * b ^ (e mod 2)) then Some (r * b ^ (e mod 2)) else None).
  { assert (e mod 2 = 0 ∨ e mod 2 = 1) as [-> | ->] by lia; cbn [Z.eqb Pos.eqb].
    - by rewrite Z.pow_0_r, Z.mul_1_r, fits_true.
    - by rewrite Z.pow_1_r. }
  rewrite Hstep. destruct (fits 256 (r * b ^ (e mod 2))) eqn:Ef; cbn [mbind option_bind].
  2: { rewrite fits_false_above; [done|]. apply partial_overflow; try done; [lia|].
       apply not_fits; [|done]. apply Z.mul_nonneg_nonneg; [done|by apply Z.pow_nonneg]. }
  apply fits_iff in Ef. destruct (Z.ltb_spec 0 (e / 2)) as [Hpos|Hz]; cbn [mbind option_bind].
  2: { assert (e / 2 = 0) as -> by lia. cbn [pow_loop Z.eqb]. by rewrite Z.pow_0_r, Z.mul_1_r, fits_true. }
  assert (Hr1 : 1 ≤ r * b ^ (e mod 2) ∨ b = 0).
  { destruct (decide (b = 0)); [by right|left].
    pose proof (Z.pow_pos_nonneg b (e mod 2) ltac:(lia) ltac:(lia)). destruct Hrb; [nia|done]. }
  unfold checked_mul. destruct (fits 256 (b * b)) eqn:Eb; cbn [mbind option_bind].
  - apply IH; [done|by apply fits_iff|destruct Hr1; [by left|right; nia]|lia].
  - rewrite fits_false_above; [done|]. apply square_overflow; [done..|].
    apply not_fits; [nia|done].
Qed.

Lemma pow_u256_exact b e :
  urange 256 b → urange 32 e → pow_u256_checked b e = checked_pow 256 b e.
Proof.
  intros Hb [He0 He]. unfold pow_u256_checked.
  rewrite pow_loop_exact; [|by apply small_range|done|by left|].
  - by rewrite Z.mul_1_l.
  - change (Z.of_nat 32) with 32. unfold umax in He. lia.
Qed.

(** ** Results stay in range *)

(** A value in range, or a failure; never a panic. *)
Definition outcome_ok (w : Z) (o : outcome Z) : Prop :=
  match o with Done v => urange w v | Fails _ => True | Panics => False end.

Lemma mul_div_spec_ok w up x y z :
  urange w x → urange w y → urange w z → outcome_ok w (mul_div_spec w up x y z).
Proof.
  intros Hx Hy Hz. unfold mul_div_spec. destruct (Z.eqb_spec z 0); [done|].
  assert (Hq : 0 ≤ x * y / z) by (unfold urange in *; apply Z.div_pos; nia).
  destruct (Z.ltb_spec (umax w) (if up && negb (x * y mod z =? 0) then x * y / z + 1 else x * y / z))
    as [|Hle]; [done|].
  cbn. destruct (up && _); split; lia.
Qed.

Lemma mul_add_spec_ok w x y z :
  urange w x → urange w y → urange w z → outcome_ok w (mul_add_spec w x y z).
Proof.
  intros Hx Hy Hz. unfold mul_add_spec. destruct (Z.ltb_spec (umax w) (x * y + z)); [done|].
  unfold urange in *. cbn. split; nia.
Qed.

Lemma clamp_spec_ok w x lo hi :
  urange w x → urange w lo → urange w hi → outcome_ok w (clamp_spec x lo hi).
Proof. intros [] [] []. unfold clamp_spec. destruct (_ <? _); [done|]. cbn. split; lia. Qed.

Lemma log2_spec_ok w x : 8 ≤ w ≤ 256 → urange w x → outcome_ok w (log2_spec x).
Proof.
  intros Hw Hx. unfold log2_spec. destruct (_ =? _); [done|].
  pose proof (log2_range w x ltac:(lia) Hx). apply small_range; lia.
Qed.

Lemma ceil_div_spec_ok w a b : urange w a → urange w b → outcome_ok w (ceil_div_spec a b).
Proof.
  intros [Ha Ha'] [Hb _]. unfold ceil_div_spec. destruct (Z.eqb_spec b 0); [done|]. cbn.
  pose proof (Z.div_mod (- a) b ltac:(lia)). pose proof (Z.mod_pos_bound (- a) b ltac:(lia)).
  split; nia.
Qed.

Lemma sqrt_range w n : urange w n → urange w (Z.sqrt n).
Proof.
  intros [H1 H2]. split; [apply Z.sqrt_nonneg|].
  pose proof (Z.sqrt_le_lin n H1). lia.
Qed.

Lemma minimum_range w a b : urange w a → urange w b → urange w (Z.min a b).
Proof. intros [] []. split; lia. Qed.
Lemma maximum_range w a b : urange w a → urange w b → urange w (Z.max a b).
Proof. intros [] []. split; lia. Qed.

Lemma sqrt_exact {RT : Roots} n : 0 ≤ n → sqrt n = Z.sqrt n.
Proof. intros H. symmetry. apply Z.sqrt_unique. pose proof (sqrt_floor n H). lia. Qed.

Lemma checked_pow_ok w b e v : checked_pow w b e = Some v → urange w v.
Proof. unfold checked_pow. destruct (fits w (b ^ e)) eqn:E; [|done]. intros [= <-]. by apply fits_iff. Qed.

(** ** Refinement of a specification table *)

Definition value_ok (v : Value) : Prop :=
  match v with
  | VBool _ => True
  | VU8 n => urange 8 n | VU32 n => urange 32 n | VU64 n => urange 64 n
  | VU128 n => urange 128 n | VU256 n => urange 256 n
  end.

(** A specification: on well-typed arguments, the cost and the result. *)
Definition spec : Type := list Value → option (Z * outcome (list Value)).

Definition charged (context : NativeContext) (cost : Z) (o : outcome (list Value)) : exit :=
  if cost <=? gas_left context then
    match o with
    | Done ret => Returned (NativeOk (gas_used context + cost) ret)
    | Fails code => Returned (NativeErr (gas_used context + cost) code)
    | Panics => Crashed
    end
  else Returned (NativeErr (gas_budget context) NFE_OUT_OF_GAS).

Definition returns_values_ok (o : outcome (list Value)) : Prop :=
  match o with Done ret => Forall value_ok ret | Fails _ => True | Panics => False end.

Definition rejected (e : exit) : Prop :=
  match e with VmError _ => True | Returned (NativeErr _ _) => True | _ => False end.

(** The native charges the cost of the specification before it answers, answers
    what it says, and rejects ill-typed arguments; its results are in range. *)
Definition refines (n : nat → native NativeResult) (s : spec) : Prop :=
  ∀ context args,
    0 ≤ gas_left context ≤ gas_budget context → Forall value_ok args →
    match s args with
    | Some (cost, o) => run_native (n 0%nat) context args = charged context cost o ∧ returns_values_ok o
    | None => rejected (run_native (n 0%nat) context args)
    end.

Definition spec1 {A} (ca : Value → option A) (cost : A → Z) (f : A → outcome (list Value)) : spec :=
  λ args, match args with
          | [a] => x ← ca a; Some (cost x, f x)
          | _ => None
          end.
Definition spec2 {A B} (ca : Value → option A) (cb : Value → option B) (cost : A → B → Z)
    (f : A → B → outcome (list Value)) : spec :=
  λ args, match args with
          | [a; b] => x ← ca a; y ← cb b; Some (cost x y, f x y)
          | _ => None
          end.
Definition spec3 {A B C} (ca : Value → option A) (cb : Value → option B) (cc : Value → option C)
    (cost : Z) (f : A → B → C → outcome (list Value)) : spec :=
  λ args, match args with
          | [a; b; c] => x ← ca a; y ← cb b; z ← cc c; Some (cost, f x y z)
          | _ => None
          end.
Definition spec4 {A B C D} (ca : Value → option A) (cb : Value → option B) (cc : Value → option C)
    (cd : Value → option D) (cost : Z) (f : A → B → C → D → outcome (list Value)) : spec :=
  λ args, match args with
          | [a; b; c; d] => x ← ca a; y ← cb b; z ← cc c; u ← cd d; Some (cost, f x y z u)
          | _ => None
          end.

Lemma gas_used_charged context cost :
  0 ≤ gas_left context ≤ gas_budget context → 0 ≤ cost →
  gas_used {| gas_budget := gas_budget context; gas_left := gas_left context - cost |}
  = gas_used context + cost.
Proof. intros Hg Hc. unfold gas_used, saturating_sub. simpl. lia. Qed.

(** The end of every native: the charge has been made and the arguments popped. *)
Lemma finish_charged context args cost o :
  0 ≤ gas_left context ≤ gas_budget context → 0 ≤ cost ≤ gas_left context →
  match finish o {| gas_budget := gas_budget context; gas_left := gas_left context - cost |} args with
  | inl e => e
  | inr (_, _, r) => Returned r
  end = charged context cost o.
Proof.
  intros Hg Hc. unfold charged. rewrite (proj2 (Z.leb_le _ _)) by lia.
  destruct o; cbn [finish]; by rewrite ?gas_used_charged by lia.
Qed.

Lemma no_gas context cost o :
  gas_left context < cost →
  Returned (NativeErr (gas_budget context) NFE_OUT_OF_GAS) = charged context cost o.
Proof. intros H. unfold charged. by rewrite (proj2 (Z.leb_gt _ _) H). Qed.

(** Run a native on a list of known length up to its charge. *)
Ltac run_pops :=
  unfold run_native, mbind, native_bind, expect_native_signature, charge_gas, pop_arg, mbind, option_bind;
  cbn [length Nat.eqb negb].
Ltac split_charge :=
  match goal with
  | |- context [?c <=? gas_left ?x] => destruct (Z.leb_spec c (gas_left x))
  end; [|first [exact I|by apply no_gas]].
Ltac casts :=
  repeat (cbn [reverse rev_append];
          match goal with E : ?c ?v = _ |- context [?c ?v] => rewrite E end);
  cbn [reverse rev_append].
Ltac args_ok :=
  repeat match goal with
    | H : Forall value_ok (_ :: _) |- _ => apply Forall_cons in H as [? H]
    end.
Ltac answer Hf :=
  casts; rewrite ?Hf; apply finish_charged; [done|split; [|done]].

Section Arguments.
Context {A B C D : Type} (ca : Value → option A) (cb : Value → option B) (cc : Value → option C)
  (cd : Value → option D) (PA : A → Prop) (PB : B → Prop) (PC : C → Prop) (PD : D → Prop).
Context (HA : ∀ v a, value_ok v → ca v = Some a → PA a) (HB : ∀ v b, value_ok v → cb v = Some b → PB b)
  (HC : ∀ v c, value_ok v → cc v = Some c → PC c) (HD : ∀ v d, value_ok v → cd v = Some d → PD d).

Lemma flat1_refines (g : FlatGas) f f' :
  (∀ a, PA a → f a = f' a ∧ returns_values_ok (f' a)) →
  refines (λ ty, expect_native_signature 1 ty 0;; charge_gas (base g);; x ← pop_arg ca; finish (f x))
    (spec1 ca (λ _, base g) f').
Proof.
  intros Hf context args Hg Hargs. destruct args as [|v [|v2 args]]; try exact I. args_ok.
  cbn [spec1]. unfold mbind, option_bind. destruct (ca v) as [a|] eqn:Ea; run_pops.
  - destruct (Hf a) as [Hfa Hok]; [by eapply HA, Ea|]. split; [|done]. split_charge.
    answer Hfa. apply N2Z.is_nonneg.
  - split_charge. by casts.
Qed.

Lemma flat2_refines (g : FlatGas) f f' :
  (∀ a b, PA a → PB b → f a b = f' a b ∧ returns_values_ok (f' a b)) →
  refines (λ ty, expect_native_signature 2 ty 0;; charge_gas (base g);;
                 y ← pop_arg cb; x ← pop_arg ca; finish (f x y))
    (spec2 ca cb (λ _ _, base g) f').
Proof.
  intros Hf context args Hg Hargs. destruct args as [|v [|v2 [|v3 args]]]; try exact I. args_ok.
  cbn [spec2]. unfold mbind, option_bind.
  destruct (ca v) as [a|] eqn:Ea, (cb v2) as [b|] eqn:Eb; run_pops;
    [|split_charge; by casts..].
  destruct (Hf a b) as [Hfa Hok]; [by eapply HA, Ea|by eapply HB, Eb|]. split; [|done]. split_charge.
  answer Hfa. apply N2Z.is_nonneg.
Qed.

Lemma flat3_refines (g : FlatGas) f f' :
  (∀ a b c, PA a → PB b → PC c → f a b c = f' a b c ∧ returns_values_ok (f' a b c)) →
  refines (λ ty, expect_native_signature 3 ty 0;; charge_gas (base g);;
                 z ← pop_arg cc; y ← pop_arg cb; x ← pop_arg ca; finish (f x y z))
    (spec3 ca cb cc (base g) f').
Proof.
  intros Hf context args Hg Hargs. destruct args as [|v [|v2 [|v3 [|v4 args]]]]; try exact I. args_ok.
  cbn [spec3]. unfold mbind, option_bind.
  destruct (ca v) as [a|] eqn:Ea, (cb v2) as [b|] eqn:Eb, (cc v3) as [c|] eqn:Ec; run_pops;
    [|split_charge; by casts..].
  destruct (Hf a b c) as [Hfa Hok]; [by eapply HA, Ea|by eapply HB, Eb|by eapply HC, Ec|]. split; [|done].
  split_charge. answer Hfa. apply N2Z.is_nonneg.
Qed.

Lemma flat4_refines (g : FlatGas) f f' :
  (∀ a b c d, PA a → PB b → PC c → PD d → f a b c d = f' a b c d ∧ returns_values_ok (f' a b c d)) →
  refines (λ ty, expect_native_signature 4 ty 0;; charge_gas (base g);;
                 u ← pop_arg cd; z ← pop_arg cc; y ← pop_arg cb; x ← pop_arg ca; finish (f x y z u))
    (spec4 ca cb cc cd (base g) f').
Proof.
  intros Hf context args Hg Hargs. destruct args as [|v [|v2 [|v3 [|v4 [|v5 args]]]]]; try exact I.
  args_ok. cbn [spec4]. unfold mbind, option_bind.
  destruct (ca v) as [a|] eqn:Ea, (cb v2) as [b|] eqn:Eb, (cc v3) as [c|] eqn:Ec,
    (cd v4) as [d|] eqn:Ed; run_pops; [|split_charge; by casts..].
  destruct (Hf a b c d) as [Hfa Hok]; [by eapply HA, Ea|by eapply HB, Eb|by eapply HC, Ec|by eapply HD, Ed|].
  split; [|done]. split_charge. answer Hfa. apply N2Z.is_nonneg.
Qed.

(** Natives with a cost that depends on an argument pop first. *)
Lemma scaled1_refines (cost cost' : A → Z) f f' :
  (∀ a, PA a → cost a = cost' a ∧ 0 ≤ cost' a ∧ f a = f' a ∧ returns_values_ok (f' a)) →
  refines (λ ty, expect_native_signature 1 ty 0;; x ← pop_arg ca; charge_gas (cost x);; finish (f x))
    (spec1 ca cost' f').
Proof.
  intros Hf context args Hg Hargs. destruct args as [|v [|v2 args]]; try exact I. args_ok.
  cbn [spec1]. unfold mbind, option_bind. destruct (ca v) as [a|] eqn:Ea; run_pops; casts; [|exact I].
  destruct (Hf a) as (Hcost & Hc & Hfa & Hok); [by eapply HA, Ea|]. split; [|done]. rewrite Hcost.
  split_charge. by answer Hfa.
Qed.

Lemma scaled2_refines (cost : B → Z) f f' :
  (∀ a b, PA a → PB b → 0 ≤ cost b ∧ f a b = f' a b ∧ returns_values_ok (f' a b)) →
  refines (λ ty, expect_native_signature 2 ty 0;; y ← pop_arg cb; x ← pop_arg ca;
                 charge_gas (cost y);; finish (f x y))
    (spec2 ca cb (λ _ y, cost y) f').
Proof.
  intros Hf context args Hg Hargs. destruct args as [|v [|v2 [|v3 args]]]; try exact I. args_ok.
  cbn [spec2]. unfold mbind, option_bind.
  destruct (ca v) as [a|] eqn:Ea, (cb v2) as [b|] eqn:Eb; run_pops; casts; try exact I.
  destruct (Hf a b) as (Hc & Hfa & Hok); [by eapply HA, Ea|by eapply HB, Eb|]. split; [|done].
  split_charge. by answer Hfa.
Qed.
End Arguments.

(** What each registered native computes and costs. *)
Definition math_specs (gas_params : GasParameters) : list (string * spec) := [
  ("sqrt_u128"%string, spec1 as_u128 (λ _, base (gas_sqrt_u128 gas_params)) (λ x, Done [VU128 (Z.sqrt x)]));
  ("sqrt_u64"%string, spec1 as_u64 (λ _, base (gas_sqrt_u64 gas_params)) (λ x, Done [VU64 (Z.sqrt x)]));
  ("sqrt_u256"%string, spec1 as_u256 (λ x, sqrt_u256_gas_cost (scaled_base (gas_sqrt_u256 gas_params)) (per_unit (gas_sqrt_u256 gas_params)) (bits x))
    (λ x, Done [VU256 (Z.sqrt x)]));
  ("pow_u64"%string, spec2 as_u64 as_u8 (λ _ e, pow_gas_cost (scaled_base (gas_pow_u64 gas_params)) (per_unit (gas_pow_u64 gas_params)) e)
    (λ b e, one VU64 (or_overflow (checked_pow 64 b e))));
  ("pow_u128"%string, spec2 as_u128 as_u32 (λ _ e, pow_gas_cost (scaled_base (gas_pow_u128 gas_params)) (per_unit (gas_pow_u128 gas_params)) e)
    (λ b e, one VU128 (or_overflow (checked_pow 128 b e))));
  ("pow_u256"%string, spec2 as_u256 as_u32 (λ _ e, pow_gas_cost (scaled_base (gas_pow_u256 gas_params)) (per_unit (gas_pow_u256 gas_params)) e)
    (λ b e, one VU256 (or_overflow (checked_pow 256 b e))));
  ("try_pow_u64"%string, spec2 as_u64 as_u8 (λ _ e, pow_gas_cost (scaled_base (gas_try_pow_u64 gas_params)) (per_unit (gas_try_pow_u64 gas_params)) e)
    (λ b e, try_pair VU64 (checked_pow 64 b e)));
  ("try_pow_u128"%string, spec2 as_u128 as_u32 (λ _ e, pow_gas_cost (scaled_base (gas_try_pow_u128 gas_params)) (per_unit (gas_try_pow_u128 gas_params)) e)
    (λ b e, try_pair VU128 (checked_pow 128 b e)));
  ("try_pow_u256"%string, spec2 as_u256 as_u32 (λ _ e, pow_gas_cost (scaled_base (gas_try_pow_u256 gas_params)) (per_unit (gas_try_pow_u256 gas_params)) e)
    (λ b e, try_pair VU256 (checked_pow 256 b e)));
  ("mul_div_u128"%string, spec3 as_u128 as_u128 as_u128 (base (gas_mul_div_u128 gas_params))
    (λ x y z, one VU128 (mul_div_spec 128 false x y z)));
  ("mul_div_round_u128"%string, spec4 as_u128 as_u128 as_u128 as_bool (base (gas_mul_div_round_u128 gas_params))
    (λ x y z up, one VU128 (mul_div_spec 128 up x y z)));
  ("try_mul_div_u128"%string, spec3 as_u128 as_u128 as_u128 (base (gas_try_mul_div_u128 gas_params))
    (λ x y z, try_pair_outcome VU128 (mul_div_spec 128 false x y z)));
  ("mul_add_u128"%string, spec3 as_u128 as_u128 as_u128 (base (gas_mul_add_u128 gas_params))
    (λ x y z, one VU128 (mul_add_spec 128 x y z)));
  ("mul_div_u256"%string, spec3 as_u256 as_u256 as_u256 (base (gas_mul_div_u256 gas_params))
    (λ x y z, one VU256 (mul_div_spec 256 false x y z)));
  ("mul_div_round_u256"%string, spec4 as_u256 as_u256 as_u256 as_bool (base (gas_mul_div_round_u256 gas_params))
    (λ x y z up, one VU256 (mul_div_spec 256 up x y z)));
  ("try_mul_div_u256"%string, spec3 as_u256 as_u256 as_u256 (base (gas_try_mul_div_u256 gas_params))
    (λ x y z, try_pair_outcome VU256 (mul_div_spec 256 false x y z)));
  ("mul_add_u256"%string, spec3 as_u256 as_u256 as_u256 (base (gas_mul_add_u256 gas_params))
    (λ x y z, one VU256 (mul_add_spec 256 x y z)));
  ("min_u128"%string, spec2 as_u128 as_u128 (λ _ _, base (gas_min_u128 gas_params)) (λ a b, Done [VU128 (Z.min a b)]));
  ("max_u128"%string, spec2 as_u128 as_u128 (λ _ _, base (gas_max_u128 gas_params)) (λ a b, Done [VU128 (Z.max a b)]));
  ("min_u256"%string, spec2 as_u256 as_u256 (λ _ _, base (gas_min_u256 gas_params)) (λ a b, Done [VU256 (Z.min a b)]));
  ("max_u256"%string, spec2 as_u256 as_u256 (λ _ _, base (gas_max_u256 gas_params)) (λ a b, Done [VU256 (Z.max a b)]));
  ("average_u64"%string, spec2 as_u64 as_u64 (λ _ _, base (gas_average_u64 gas_params)) (λ a b, Done [VU64 ((a + b) / 2)]));
  ("average_u128"%string, spec2 as_u128 as_u128 (λ _ _, base (gas_average_u128 gas_params)) (λ a b, Done [VU128 ((a + b) / 2)]));
  ("average_u256"%string, spec2 as_u256 as_u256 (λ _ _, base (gas_average_u256 gas_params)) (λ a b, Done [VU256 ((a + b) / 2)]));
  ("clamp_u64"%string, spec3 as_u64 as_u64 as_u64 (base (gas_clamp_u64 gas_params)) (λ x lo hi, one VU64 (clamp_spec x lo hi)));
  ("clamp_u128"%string, spec3 as_u128 as_u128 as_u128 (base (gas_clamp_u128 gas_params)) (λ x lo hi, one VU128 (clamp_spec x lo hi)));
  ("clamp_u256"%string, spec3 as_u256 as_u256 as_u256 (base (gas_clamp_u256 gas_params)) (λ x lo hi, one VU256 (clamp_spec x lo hi)));
  ("log2_u64"%string, spec1 as_u64 (λ _, base (gas_log2_u64 gas_params)) (λ x, one VU64 (log2_spec x)));
  ("log2_u128"%string, spec1 as_u128 (λ _, base (gas_log2_u128 gas_params)) (λ x, one VU128 (log2_spec x)));
  ("log2_u256"%string, spec1 as_u256 (λ _, base (gas_log2_u256 gas_params)) (λ x, one VU256 (log2_spec x)));
  ("ceil_div_u64"%string, spec2 as_u64 as_u64 (λ _ _, base (gas_ceil_div_u64 gas_params)) (λ a b, one VU64 (ceil_div_spec a b)));
  ("ceil_div_u128"%string, spec2 as_u128 as_u128 (λ _ _, base (gas_ceil_div_u128 gas_params)) (λ a b, one VU128 (ceil_div_spec a b)));
  ("ceil_div_u256"%string, spec2 as_u256 as_u256 (λ _ _, base (gas_ceil_div_u256 gas_params)) (λ a b, one VU256 (ceil_div_spec a b)))
].

Lemma as_u8_ok v n : value_ok v → as_u8 v = Some n → urange 8 n.
Proof. destruct v; try done. by intros H [= <-]. Qed.
Lemma as_u32_ok v n : value_ok v → as_u32 v = Some n → urange 32 n.
Proof. destruct v; try done. by intros H [= <-]. Qed.
Lemma as_u64_ok v n : value_ok v → as_u64 v = Some n → urange 64 n.
Proof. destruct v; try done. by intros H [= <-]. Qed.
Lemma as_u128_ok v n : value_ok v → as_u128 v = Some n → urange 128 n.
Proof. destruct v; try done. by intros H [= <-]. Qed.
Lemma as_u256_ok v n : value_ok v → as_u256 v = Some n → urange 256 n.
Proof. destruct v; try done. by intros H [= <-]. Qed.
Lemma as_bool_ok v b : value_ok v → as_bool v = Some b → True.
Proof. done. Qed.

Lemma one_ok mk w o :
  (∀ n, urange w n → value_ok (mk n)) → outcome_ok w o → returns_values_ok (one mk o).
Proof. intros Hmk. destruct o; cbn; [|done..]. intros H. by constructor; [apply Hmk|constructor]. Qed.

Lemma or_overflow_ok w b e : outcome_ok w (or_overflow (checked_pow w b e)).
Proof. destruct (checked_pow w b e) eqn:E; [|done]. by eapply checked_pow_ok. Qed.

Lemma try_pair_ok mk w b e :
  0 ≤ w → (∀ n, urange w n → value_ok (mk n)) → returns_values_ok (try_pair mk (checked_pow w b e)).
Proof.
  intros Hw Hmk. unfold try_pair. cbn. pose proof (umax_pos w Hw).
  destruct (checked_pow w b e) eqn:E; constructor; try done; constructor; try done; apply Hmk.
  - by eapply checked_pow_ok.
  - split; [lia|done].
Qed.

Lemma try_pair_outcome_ok mk w o :
  0 ≤ w → (∀ n, urange w n → value_ok (mk n)) → outcome_ok w o →
  returns_values_ok (try_pair_outcome mk o).
Proof.
  intros Hw Hmk. pose proof (umax_pos w Hw). unfold try_pair_outcome.
  destruct o; cbn; intros Ho; [| |done]; constructor; try done; constructor; try done; apply Hmk;
    [done|split; [lia|done]].
Qed.

Lemma p2m_outcome o : outcome_ok 256 o → p2m <$> o = o.
Proof. destruct o as [v| |]; try done. intros H. by apply (f_equal Done), p2m_id. Qed.

Lemma p2m_option b e : p2m <$> checked_pow 256 b e = checked_pow 256 b e.
Proof.
  destruct (checked_pow 256 b e) as [v|] eqn:E; [|done].
  apply (f_equal Some), p2m_id. by eapply checked_pow_ok.
Qed.

Lemma pow_cost_nonneg g e : 0 ≤ e → 0 ≤ pow_gas_cost (scaled_base g) (per_unit g) e.
Proof.
  intros He. unfold pow_gas_cost, saturating_add, saturating_mul, scaled_base, per_unit, u64_max.
  pose proof (N2Z.is_nonneg (scaled_base_gas g)). pose proof (N2Z.is_nonneg (per_unit_gas g)). nia.
Qed.

Lemma bits_nonneg x : 0 ≤ bits x.
Proof. unfold bits. destruct (x =? 0); [done|]. pose proof (Z.log2_nonneg x). lia. Qed.

Lemma single_ok mk w n : (∀ n, urange w n → value_ok (mk n)) → urange w n → returns_values_ok (Done [mk n]).
Proof. intros Hmk H. by constructor; [apply Hmk|constructor]. Qed.

(** ** Every registered native refines its specification *)

Create HintDb natives.
#[export] Hint Resolve or_overflow_ok mul_div_spec_ok mul_add_spec_ok clamp_spec_ok ceil_div_spec_ok : natives.
#[export] Hint Resolve sqrt_range average_range minimum_range maximum_range : natives.
#[export] Hint Extern 1 (outcome_ok _ (log2_spec _)) => (apply log2_spec_ok; [lia|assumption]) : natives.

(** The results: one value, a pair, or a failure. *)
Ltac result_ok :=
  first [ eapply single_ok; [by intros|]; eauto with natives
        | eapply one_ok; [by intros|]; eauto with natives
        | eapply try_pair_ok; [done|by intros]
        | eapply try_pair_outcome_ok; cycle 1; [by intros|eauto with natives|done] ].
Ltac cast_ok :=
  first [exact as_u8_ok|exact as_u32_ok|exact as_u64_ok|exact as_u128_ok|exact as_u256_ok|exact as_bool_ok].
(** A flat native: [rw] turns its helper into the specification. *)
Ltac flat lem rw :=
  eapply lem; try cast_ok; cbn beta; intros; rw; split; [reflexivity|result_ok].
Ltac scaled lem rw :=
  eapply lem; try cast_ok; cbn beta; intros; rw;
  split; [apply pow_cost_nonneg; unfold urange in *; lia|split; [reflexivity|result_ok]].

Ltac unm2p :=
  repeat match goal with H : urange 256 ?x |- context [m2p ?x] => rewrite (m2p_id x) by exact H end.

Section Table.
Context {RT : Roots}.

(** C39: every arithmetic native the node registers computes the exact value of
    its specification, with the documented abort codes for overflow, division by
    zero and bad arguments, after charging the declared gas; it rejects ill-typed
    arguments, returns only values of the declared width, and never crashes. *)
Theorem natives_exact (gas_params : GasParameters) :
  Forall2 (λ n s, n.1 = s.1 ∧ refines n.2 s.2) (make_all gas_params) (math_specs gas_params).
Proof.
  repeat (apply Forall2_cons; split; [split; [reflexivity|cbn [snd]]|]); [..|constructor].
  - flat @flat1_refines ltac:(rewrite sqrt_exact by (unfold urange in *; lia)).
  - flat @flat1_refines ltac:(rewrite sqrt_exact by (unfold urange in *; lia)).
  - eapply @scaled1_refines; try cast_ok; cbn beta. intros a Ha. unm2p. rewrite isqrt_u256_exact by done.
    split; [reflexivity|]. split; [apply pow_cost_nonneg, bits_nonneg|].
    rewrite p2m_outcome by (cbn; eauto with natives). split; [reflexivity|result_ok].
  - scaled @scaled2_refines idtac.
  - scaled @scaled2_refines idtac.
  - scaled @scaled2_refines ltac:(unm2p; rewrite pow_u256_exact, p2m_outcome by eauto with natives).
  - scaled @scaled2_refines idtac.
  - scaled @scaled2_refines idtac.
  - scaled @scaled2_refines ltac:(unm2p; rewrite pow_u256_exact, p2m_option by done).
  - flat @flat3_refines ltac:(rewrite mul_div_u128_exact by done).
  - flat @flat4_refines ltac:(rewrite mul_div_u128_round_exact by done).
  - flat @flat3_refines ltac:(rewrite mul_div_u128_exact by done).
  - flat @flat3_refines ltac:(rewrite mul_add_u128_exact by done).
  - flat @flat3_refines ltac:(rewrite mul_div_u256_exact by done).
  - flat @flat4_refines ltac:(rewrite mul_div_u256_round_exact by done).
  - flat @flat3_refines ltac:(rewrite mul_div_u256_exact by done).
  - flat @flat3_refines ltac:(rewrite mul_add_u256_exact by done).
  - flat @flat2_refines idtac.
  - flat @flat2_refines idtac.
  - flat @flat2_refines ltac:(unm2p; rewrite p2m_id by eauto with natives).
  - flat @flat2_refines ltac:(unm2p; rewrite p2m_id by eauto with natives).
  - flat @flat2_refines ltac:(unfold average_u64; rewrite average_shift_exact by done).
  - flat @flat2_refines ltac:(unfold average_u128; rewrite average_shift_exact by done).
  - flat @flat2_refines ltac:(unfold average_u256; unm2p; rewrite average_exact, p2m_outcome by (cbn; eauto with natives)).
  - flat @flat3_refines ltac:(unfold clamp_u64; rewrite clamp_exact).
  - flat @flat3_refines ltac:(unfold clamp_u128; rewrite clamp_exact).
  - flat @flat3_refines ltac:(unfold clamp_u256; unm2p; rewrite clamp_exact, p2m_outcome by eauto with natives).
  - flat @flat1_refines ltac:(unfold log2_u64_checked; rewrite (log2_word_exact 64) by done).
  - flat @flat1_refines ltac:(unfold log2_u128_checked; rewrite (log2_word_exact 128) by done).
  - flat @flat1_refines ltac:(rewrite log2_u256_exact, p2m_outcome by eauto with natives).
  - flat @flat2_refines ltac:(unfold ceil_div_u64; rewrite ceil_div_exact by done).
  - flat @flat2_refines ltac:(unfold ceil_div_u128; rewrite ceil_div_exact by done).
  - flat @flat2_refines ltac:(unfold ceil_div_u256; unm2p; rewrite (ceil_div_exact 256) by done; rewrite p2m_outcome by eauto with natives).
Qed.
End Table.

(** the binary search of [isqrt_u256] ends within its 258 rounds on every
    256-bit value, without panicking, and yields the floor of the square root. *)
Theorem isqrt_u256_terminates (n : Z) :
  urange 256 n → ∃ s, isqrt_u256 n = Done s ∧ 0 ≤ s ∧ s * s ≤ n < (s + 1) * (s + 1).
Proof.
  intros Hn. exists (Z.sqrt n). split; [by apply isqrt_u256_exact|].
  pose proof (Z.sqrt_spec n (proj1 Hn)). pose proof (Z.sqrt_nonneg n). unfold Z.succ in *. lia.
Qed.

(** ** Concrete runs *)

Module Runs.
#[export] Program Instance z_roots : Roots := {| sqrt := Z.sqrt |}.
Next Obligation. intros n Hn. pose proof (Z.sqrt_spec n Hn). pose proof (Z.sqrt_nonneg n). unfold Z.succ in *. lia. Qed.

(** [(2^127 * 2) / 3] through the registered native, at production prices. *)
Lemma natives_exact_witness :
  run_native (native_mul_div_u128 (gas_mul_div_u128 production) 0)
    {| gas_budget := 5000; gas_left := 5000 |} [VU128 (2 ^ 127); VU128 2; VU128 3]
  = Returned (NativeOk 4000 [VU128 (2 ^ 128 / 3)]).
Proof.
  pose proof (natives_exact production) as H. do 9 apply Forall2_cons in H as [_ H].
  apply Forall2_cons in H as [[_ Hr] _].
  destruct (Hr {| gas_budget := 5000; gas_left := 5000 |} [VU128 (2 ^ 127); VU128 2; VU128 3]) as [E _].
  - simpl. lia.
  - repeat constructor; unfold umax; lia.
  - cbn [snd] in E. rewrite E. by vm_compute.
Defined.

Lemma isqrt_u256_terminates_witness :
  ∃ s, isqrt_u256 (2 ^ 200 + 7) = Done s ∧ 0 ≤ s ∧ s * s ≤ 2 ^ 200 + 7 < (s + 1) * (s + 1).
Proof. apply isqrt_u256_terminates. unfold urange, umax. lia. Defined.
End Runs.
