(* ===== verification/GasMeter.v ===== *)
(** * The execution gas meter: [kanari-move-runtime-v1/src/kanari_gas_meter.rs]

    The counter and one operation per callback of the VM's [GasMeter] trait.  A
    failed charge keeps the counter as far as the code updated it: an overflow
    leaves it, an exceeded limit does not.  Sizes and counts that the VM
    reports are arguments. *)

From stdpp Require Import base list gmap strings.
From Stdlib Require Import ZArith Lia.
From S2P Require Import Prelude.

Local Open Scope Z_scope.

Record KanariGasMeter := { gas_used : Z; gas_limit : Z }.

Definition new (gas_limit : Z) : KanariGasMeter := {| gas_used := 0; gas_limit := gas_limit |}.

Definition charge (amount : Z) : st KanariGasMeter unit := λ self,
  match checked_add (gas_used self) amount with
  | None => (self, Err "Kanari execution gas counter overflowed")
  | Some used =>
      let self := {| gas_used := used; gas_limit := gas_limit self |} in
      if gas_limit self <? gas_used self then (self, Err "Kanari execution limit exceeded")
      else (self, Ok tt)
  end.

Definition charge_internal_gas (amount : Z) : st KanariGasMeter unit := charge amount.
Definition charge_with_len (base len : Z) : st KanariGasMeter unit := charge (saturating_add base len).
Definition generic_extra (is_generic : bool) (extra : Z) : Z := if is_generic then extra else 0.

Definition SIMPLE_INSTR_COST : Z := 1.
Definition CONST_LOAD_COST : Z := 2.
Definition COPY_LOC_COST : Z := 2.
Definition MOVE_LOC_COST : Z := 2.
Definition STORE_LOC_COST : Z := 3.
Definition CALL_COST : Z := 8.
Definition CALL_GENERIC_COST : Z := 10.
Definition PACK_COST : Z := 5.
Definition PACK_GENERIC_EXTRA_COST : Z := 2.
Definition UNPACK_COST : Z := 5.
Definition UNPACK_GENERIC_EXTRA_COST : Z := 2.
Definition READ_REF_COST : Z := 3.
Definition WRITE_REF_COST : Z := 6.
Definition EQ_COST : Z := 2.
Definition NEQ_COST : Z := 2.
Definition VEC_PACK_COST : Z := 4.
Definition VEC_LEN_COST : Z := 2.
Definition VEC_BORROW_COST : Z := 3.
Definition VEC_PUSH_BACK_COST : Z := 4.
Definition VEC_POP_BACK_COST : Z := 4.
Definition VEC_UNPACK_COST : Z := 6.
Definition VEC_SWAP_COST : Z := 4.
Definition NATIVE_FUNCTION_PRE_EXEC_COST : Z := 8.
Definition DROP_FRAME_COST : Z := 3.

Definition remaining_gas (self : KanariGasMeter) : Z := saturating_sub (gas_limit self) (gas_used self).

Definition charge_simple_instr : st KanariGasMeter unit := charge SIMPLE_INSTR_COST.
Definition charge_pop (value_size : Z) := charge (saturating_add SIMPLE_INSTR_COST value_size).
Definition charge_call (args num_locals : Z) :=
  charge (saturating_add (saturating_add CALL_COST args) num_locals).
Definition charge_call_generic (ty_args args num_locals : Z) :=
  charge (saturating_add (saturating_add (saturating_add CALL_GENERIC_COST ty_args) args) num_locals).
Definition charge_ld_const (size : Z) := charge (saturating_add CONST_LOAD_COST size).
Definition charge_ld_const_after_deserialization (value_size : Z) :=
  charge (saturating_add CONST_LOAD_COST value_size).
Definition charge_copy_loc (value_size : Z) := charge (saturating_add COPY_LOC_COST value_size).
Definition charge_move_loc := charge MOVE_LOC_COST.
Definition charge_store_loc (value_size : Z) := charge (saturating_add STORE_LOC_COST value_size).
Definition charge_pack (is_generic : bool) (args : Z) :=
  charge_with_len (saturating_add PACK_COST (generic_extra is_generic PACK_GENERIC_EXTRA_COST)) args.
Definition charge_unpack (is_generic : bool) (args : Z) :=
  charge_with_len (saturating_add UNPACK_COST (generic_extra is_generic UNPACK_GENERIC_EXTRA_COST)) args.
Definition charge_read_ref (value_size : Z) := charge (saturating_add READ_REF_COST value_size).
Definition charge_write_ref (new_size old_size : Z) :=
  charge (saturating_add (saturating_add WRITE_REF_COST new_size) old_size).
Definition charge_eq (lhs rhs : Z) := charge (saturating_add (saturating_add EQ_COST lhs) rhs).
Definition charge_neq (lhs rhs : Z) := charge (saturating_add (saturating_add NEQ_COST lhs) rhs).
Definition charge_vec_pack (args : Z) := charge_with_len VEC_PACK_COST args.
Definition charge_vec_len := charge VEC_LEN_COST.
Definition charge_vec_borrow := charge VEC_BORROW_COST.
Definition charge_vec_push_back := charge VEC_PUSH_BACK_COST.
Definition charge_vec_pop_back := charge VEC_POP_BACK_COST.
Definition charge_vec_unpack (expect_num_elements : Z) :=
  charge (saturating_add VEC_UNPACK_COST expect_num_elements).
Definition charge_vec_swap := charge VEC_SWAP_COST.
Definition charge_native_function (amount : Z) := charge_internal_gas amount.
Definition charge_native_function_before_execution (ty_args args : Z) :=
  charge (saturating_add (saturating_add NATIVE_FUNCTION_PRE_EXEC_COST ty_args) args).
Definition charge_drop_frame := charge DROP_FRAME_COST.

(** ** A run of the VM as the meter sees it *)

(** The callbacks the VM makes, with what it reports. *)
Inductive callback :=
| SimpleInstr | Pop (value_size : Z) | Call (args num_locals : Z)
| CallGeneric (ty_args args num_locals : Z) | LdConst (size : Z) | LdConstValue (value_size : Z)
| CopyLoc (value_size : Z) | MoveLoc | StoreLoc (value_size : Z)
| Pack (is_generic : bool) (args : Z) | Unpack (is_generic : bool) (args : Z)
| ReadRef (value_size : Z) | WriteRef (new_size old_size : Z) | Eq (lhs rhs : Z) | Neq (lhs rhs : Z)
| VecPack (args : Z) | VecLen | VecBorrow | VecPushBack | VecPopBack | VecUnpack (n : Z) | VecSwap
| NativeBefore (ty_args args : Z) | Native (amount : Z) | DropFrame.

Definition perform (c : callback) : st KanariGasMeter unit :=
  match c with
  | SimpleInstr => charge_simple_instr
  | Pop n => charge_pop n
  | Call a l => charge_call a l
  | CallGeneric t a l => charge_call_generic t a l
  | LdConst n => charge_ld_const n
  | LdConstValue n => charge_ld_const_after_deserialization n
  | CopyLoc n => charge_copy_loc n
  | MoveLoc => charge_move_loc
  | StoreLoc n => charge_store_loc n
  | Pack g n => charge_pack g n
  | Unpack g n => charge_unpack g n
  | ReadRef n => charge_read_ref n
  | WriteRef n o => charge_write_ref n o
  | Eq l r => charge_eq l r
  | Neq l r => charge_neq l r
  | VecPack n => charge_vec_pack n
  | VecLen => charge_vec_len
  | VecBorrow => charge_vec_borrow
  | VecPushBack => charge_vec_push_back
  | VecPopBack => charge_vec_pop_back
  | VecUnpack n => charge_vec_unpack n
  | VecSwap => charge_vec_swap
  | NativeBefore t a => charge_native_function_before_execution t a
  | Native n => charge_native_function n
  | DropFrame => charge_drop_frame
  end.

(** The VM stops at the first failed charge. *)
Fixpoint perform_all (cs : list callback) : st KanariGasMeter unit :=
  match cs with
  | [] => mret tt
  | c :: cs => perform c ;; perform_all cs
  end.

(** ** Theorems *)

(** What the VM reports is a [u64]. *)
Definition sizes (c : callback) : list Z :=
  match c with
  | Pop n | LdConst n | LdConstValue n | CopyLoc n | StoreLoc n | ReadRef n | VecPack n
  | VecUnpack n | Native n | Pack _ n | Unpack _ n => [n]
  | Call a b | WriteRef a b | Eq a b | Neq a b | NativeBefore a b => [a; b]
  | CallGeneric a b c => [a; b; c]
  | _ => []
  end.
Definition reported (c : callback) : Prop := Forall (λ n, 0 ≤ n ≤ u64_max) (sizes c).

(** A native function may report a zero cost of its own; every other callback
    costs at least one unit. *)
Definition is_native_cost (c : callback) : bool := match c with Native _ => true | _ => false end.

Definition meter_ok (m : KanariGasMeter) : Prop := 0 ≤ gas_used m ∧ 0 ≤ gas_limit m ≤ u64_max.

Lemma charge_within amount m :
  meter_ok m → gas_used m + amount ≤ gas_limit m →
  charge amount m = ({| gas_used := gas_used m + amount; gas_limit := gas_limit m |}, Ok tt).
Proof.
  intros Hm H. unfold charge, checked_add.
  rewrite (proj2 (Z.leb_le _ _)) by (unfold meter_ok in Hm; lia). cbn.
  by rewrite (proj2 (Z.ltb_ge _ _)) by lia.
Qed.

Lemma charge_beyond amount m :
  gas_limit m < gas_used m + amount → ∃ m' e, charge amount m = (m', Err e).
Proof.
  intros H. unfold charge. destruct (checked_add _ _) as [used|] eqn:E; [|eauto].
  unfold checked_add in E. case_match; [|done]. injection E as <-. cbn.
  rewrite (proj2 (Z.ltb_lt _ _)) by lia. eauto.
Qed.

(** Every callback is one charge. *)
Definition cost (c : callback) : Z :=
  match c with
  | SimpleInstr => 1
  | Pop n => Z.min (1 + n) u64_max
  | Call a l => Z.min (Z.min (8 + a) u64_max + l) u64_max
  | CallGeneric t a l => Z.min (Z.min (Z.min (10 + t) u64_max + a) u64_max + l) u64_max
  | LdConst n | LdConstValue n | CopyLoc n => Z.min (2 + n) u64_max
  | MoveLoc | VecLen => 2
  | StoreLoc n | ReadRef n => Z.min (3 + n) u64_max
  | Pack g n | Unpack g n => Z.min ((if g then 7 else 5) + n) u64_max
  | WriteRef n o => Z.min (Z.min (6 + n) u64_max + o) u64_max
  | Eq l r | Neq l r => Z.min (Z.min (2 + l) u64_max + r) u64_max
  | VecPack n => Z.min (4 + n) u64_max
  | VecBorrow | DropFrame => 3
  | VecPushBack | VecPopBack | VecSwap => 4
  | VecUnpack n => Z.min (6 + n) u64_max
  | NativeBefore t a => Z.min (Z.min (8 + t) u64_max + a) u64_max
  | Native n => n
  end.

Lemma perform_charges c : perform c = charge (cost c).
Proof.
  destruct c as [| | | | | | | | | [] | [] | | | | | | | | | | | | | |]; reflexivity.
Qed.

Lemma cost_nonneg c : reported c → 0 ≤ cost c.
Proof.
  intros H. assert (0 < u64_max) by done.
  destruct c as [| | | | | | | | | [] | [] | | | | | | | | | | | | | |]; cbn in *;
    repeat (apply Forall_cons in H as [? H]); lia.
Qed.

Lemma cost_positive c : reported c → is_native_cost c = false → 1 ≤ cost c.
Proof.
  intros H Hn. assert (0 < u64_max) by done.
  destruct c as [| | | | | | | | | [] | [] | | | | | | | | | | | | | |]; cbn in *; try done;
    repeat (apply Forall_cons in H as [? H]); lia.
Qed.

Definition total_cost (cs : list callback) : Z := foldr (λ c n, cost c + n) 0 cs.

Lemma total_cost_nonneg cs : Forall reported cs → 0 ≤ total_cost cs.
Proof.
  induction 1 as [|c cs Hc _ IH]; [done|]. pose proof (cost_nonneg c Hc).
  change (total_cost (c :: cs)) with (cost c + total_cost cs). lia.
Qed.

Lemma perform_all_spec cs m :
  meter_ok m → Forall reported cs →
  (gas_used m + total_cost cs ≤ gas_limit m →
     perform_all cs m = ({| gas_used := gas_used m + total_cost cs; gas_limit := gas_limit m |}, Ok tt))
  ∧ (gas_limit m < gas_used m + total_cost cs → gas_used m ≤ gas_limit m →
     ∃ m' e, perform_all cs m = (m', Err e)).
Proof.
  revert m. induction cs as [|c cs IH]; intros m Hm Hr.
  { cbn. split; [|lia]. intros _. rewrite Z.add_0_r. by destruct m. }
  apply Forall_cons in Hr as [Hc Hr]. pose proof (cost_nonneg c Hc).
  pose proof (total_cost_nonneg cs Hr). cbn [perform_all total_cost foldr]. fold (total_cost cs).
  unfold mbind, st_bind. rewrite perform_charges.
  set (m1 := {| gas_used := gas_used m + cost c; gas_limit := gas_limit m |}).
  assert (Hm1 : meter_ok m1) by (unfold meter_ok, m1 in *; simpl; lia).
  destruct (decide (gas_used m + cost c ≤ gas_limit m)) as [Hle|Hgt].
  - rewrite charge_within by done. fold m1. destruct (IH m1 Hm1 Hr) as [IH1 IH2]. cbn [gas_used gas_limit] in *.
    split; intros Hlim; [rewrite IH1 by (simpl; lia); simpl; by rewrite Z.add_assoc|].
    intros _. apply IH2; simpl; lia.
  - split; [lia|]. intros _ _. destruct (charge_beyond (cost c) m) as (m' & e & ->); [lia|]. eauto.
Qed.

(** C40: the meter is exact and bounds execution.  A run of the VM fits the
    limit exactly when its total cost does; then the counter is that total and the
    rest remains.  Every callback but a native's own cost is at least one unit, so
    a successful run makes at most [gas_limit] of them. *)
Theorem execution_is_bounded (limit : Z) (cs : list callback) :
  0 ≤ limit ≤ u64_max → Forall reported cs →
  (is_ok (perform_all cs (new limit)).2 = true ↔ total_cost cs ≤ limit)
  ∧ ∀ m, perform_all cs (new limit) = (m, Ok tt) →
      gas_used m = total_cost cs ∧ remaining_gas m = limit - total_cost cs
      ∧ Z.of_nat (length (filter (λ c, is_native_cost c = false) cs)) ≤ limit.
Proof.
  intros Hl Hr. assert (Hm : meter_ok (new limit)) by (split; simpl; [done|lia]).
  destruct (perform_all_spec cs (new limit) Hm Hr) as [Hfit Hover]. cbn [new gas_used gas_limit] in *.
  pose proof (total_cost_nonneg cs Hr) as H0. rewrite Z.add_0_l in *.
  assert (Hn : Z.of_nat (length (filter (λ c, is_native_cost c = false) cs)) ≤ total_cost cs).
  { clear -Hr. induction Hr as [|c cs Hc Hr IH]; [done|]. rewrite filter_cons.
    change (total_cost (c :: cs)) with (cost c + total_cost cs). pose proof (cost_nonneg c Hc).
    case_decide as E; cbn [length]; [pose proof (cost_positive c Hc E); lia|lia]. }
  destruct (decide (total_cost cs ≤ limit)) as [Hle|Hgt].
  - rewrite Hfit by done. split; [done|]. intros m [= <-]. unfold remaining_gas, saturating_sub.
    cbn [gas_used gas_limit]. lia.
  - destruct Hover as (m' & e & ->); [lia|lia|]. cbn. split; [split; [done|lia]|done].
Qed.

Module Runs.
Lemma execution_is_bounded_witness :
  is_ok (perform_all [Call 2 3; LdConst 32; CopyLoc 8; DropFrame] (new 100)).2 = true.
Proof.
  apply (execution_is_bounded 100 [Call 2 3; LdConst 32; CopyLoc 8; DropFrame]);
    [unfold u64_max; lia| |by vm_compute].
  by repeat constructor.
Defined.
End Runs.
