(* ===== verification/ChangeSet.v ===== *)
(** * Change sets: [kanari-move-runtime-v1/src/changeset.rs]

    The effects of one execution, the operations that build and merge them, the
    access manifest from which conflicts are decided, and the transaction effects
    reported to clients.  Balance deltas are [i128]; the record setters below
    stand for field assignments. *)

From stdpp Require Import base list gmap strings sorting.
From Stdlib Require Import ZArith Lia.
From S2P Require Import Prelude Order Hashing Text Address GasCoin Transaction Mempool.

(** ** Data *)

Record UIDRecord := { uid_addr : bytes }.
Record IDRecord := { id_bytes : bytes }.
Record BalanceRecord := { balance_value : Z }.
Record TreasuryCap := { total_supply : Z }.
Record NftCapRecord := { nft_id : UIDRecord; remaining : Z; issued_counter : Z; collection_id : bytes }.
Record Event := { event_key : bytes; sequence_number : Z; type_tag : bytes; event_data : bytes }.

Record CreatedObject := {
  created_owner : bytes;
  owner_kind : ObjectOwnerKind;
  uid : option UIDRecord;
  created_id : option IDRecord;
  type_ : bytes;
  data : bytes;
  created_version : Z
}.

Record OwnerDelta := {
  delta_address : bytes;
  balance_delta : Z;
  modules_added : gset bytes
}.

Record StateAccessSet := { reads : gset bytes; writes : gset bytes }.

Record ChangeSet := {
  owner_deltas : gmap bytes OwnerDelta;
  native_gas_credits : gmap bytes Z;
  events : list Event;
  treasuries : list (bytes * bytes * TreasuryCap);
  nft_caps : list (bytes * bytes * NftCapRecord);
  token_balance_sets : list (bytes * bytes * BalanceRecord);
  cs_input_objects : list ObjectInput;
  cs_shared_inputs : list ObjectRef;
  cs_immutable_inputs : list ObjectRef;
  cs_gas_payment : option GasPayment;
  cs_gas_object_refs : list ObjectRef;
  created_objects : list (bytes * CreatedObject);
  deleted_objects : list bytes;
  explicit_object_changes : list ObjectChange;
  added_dynamic_fields : list (bytes * bytes * bytes);
  removed_dynamic_fields : list (bytes * bytes);
  move_writes : gmap bytes (option bytes);
  resolver_reads : gset bytes;
  cs_gas_used : Z;
  success : bool;
  cs_error_message : option bytes
}.

(** Field assignment. *)

Definition set_owner_deltas (v : gmap bytes OwnerDelta) (self : ChangeSet) : ChangeSet :=
  {| owner_deltas := v; native_gas_credits := native_gas_credits self; events := events self;
     treasuries := treasuries self; nft_caps := nft_caps self;
     token_balance_sets := token_balance_sets self; cs_input_objects := cs_input_objects self;
     cs_shared_inputs := cs_shared_inputs self; cs_immutable_inputs := cs_immutable_inputs self;
     cs_gas_payment := cs_gas_payment self; cs_gas_object_refs := cs_gas_object_refs self;
     created_objects := created_objects self; deleted_objects := deleted_objects self;
     explicit_object_changes := explicit_object_changes self;
     added_dynamic_fields := added_dynamic_fields self;
     removed_dynamic_fields := removed_dynamic_fields self; move_writes := move_writes self;
     resolver_reads := resolver_reads self; cs_gas_used := cs_gas_used self;
     success := success self; cs_error_message := cs_error_message self |}.

Definition set_native_gas_credits (v : gmap bytes Z) (self : ChangeSet) : ChangeSet :=
  {| owner_deltas := owner_deltas self; native_gas_credits := v; events := events self;
     treasuries := treasuries self; nft_caps := nft_caps self;
     token_balance_sets := token_balance_sets self; cs_input_objects := cs_input_objects self;
     cs_shared_inputs := cs_shared_inputs self; cs_immutable_inputs := cs_immutable_inputs self;
     cs_gas_payment := cs_gas_payment self; cs_gas_object_refs := cs_gas_object_refs self;
     created_objects := created_objects self; deleted_objects := deleted_objects self;
     explicit_object_changes := explicit_object_changes self;
     added_dynamic_fields := added_dynamic_fields self;
     removed_dynamic_fields := removed_dynamic_fields self; move_writes := move_writes self;
     resolver_reads := resolver_reads self; cs_gas_used := cs_gas_used self;
     success := success self; cs_error_message := cs_error_message self |}.

Definition set_events (v : list Event) (self : ChangeSet) : ChangeSet :=
  {| owner_deltas := owner_deltas self; native_gas_credits := native_gas_credits self; events := v;
     treasuries := treasuries self; nft_caps := nft_caps self;
     token_balance_sets := token_balance_sets self; cs_input_objects := cs_input_objects self;
     cs_shared_inputs := cs_shared_inputs self; cs_immutable_inputs := cs_immutable_inputs self;
     cs_gas_payment := cs_gas_payment self; cs_gas_object_refs := cs_gas_object_refs self;
     created_objects := created_objects self; deleted_objects := deleted_objects self;
     explicit_object_changes := explicit_object_changes self;
     added_dynamic_fields := added_dynamic_fields self;
     removed_dynamic_fields := removed_dynamic_fields self; move_writes := move_writes self;
     resolver_reads := resolver_reads self; cs_gas_used := cs_gas_used self;
     success := success self; cs_error_message := cs_error_message self |}.

Definition set_treasuries (v : list (bytes * bytes * TreasuryCap)) (self : ChangeSet) : ChangeSet :=
  {| owner_deltas := owner_deltas self; native_gas_credits := native_gas_credits self;
     events := events self; treasuries := v; nft_caps := nft_caps self;
     token_balance_sets := token_balance_sets self; cs_input_objects := cs_input_objects self;
     cs_shared_inputs := cs_shared_inputs self; cs_immutable_inputs := cs_immutable_inputs self;
     cs_gas_payment := cs_gas_payment self; cs_gas_object_refs := cs_gas_object_refs self;
     created_objects := created_objects self; deleted_objects := deleted_objects self;
     explicit_object_changes := explicit_object_changes self;
     added_dynamic_fields := added_dynamic_fields self;
     removed_dynamic_fields := removed_dynamic_fields self; move_writes := move_writes self;
     resolver_reads := resolver_reads self; cs_gas_used := cs_gas_used self;
     success := success self; cs_error_message := cs_error_message self |}.

Definition set_token_balance_sets (v : list (bytes * bytes * BalanceRecord)) (self : ChangeSet) : ChangeSet :=
  {| owner_deltas := owner_deltas self; native_gas_credits := native_gas_credits self;
     events := events self; treasuries := treasuries self; nft_caps := nft_caps self;
     token_balance_sets := v; cs_input_objects := cs_input_objects self;
     cs_shared_inputs := cs_shared_inputs self; cs_immutable_inputs := cs_immutable_inputs self;
     cs_gas_payment := cs_gas_payment self; cs_gas_object_refs := cs_gas_object_refs self;
     created_objects := created_objects self; deleted_objects := deleted_objects self;
     explicit_object_changes := explicit_object_changes self;
     added_dynamic_fields := added_dynamic_fields self;
     removed_dynamic_fields := removed_dynamic_fields self; move_writes := move_writes self;
     resolver_reads := resolver_reads self; cs_gas_used := cs_gas_used self;
     success := success self; cs_error_message := cs_error_message self |}.

Definition set_cs_input_objects (v : list ObjectInput) (self : ChangeSet) : ChangeSet :=
  {| owner_deltas := owner_deltas self; native_gas_credits := native_gas_credits self;
     events := events self; treasuries := treasuries self; nft_caps := nft_caps self;
     token_balance_sets := token_balance_sets self; cs_input_objects := v;
     cs_shared_inputs := cs_shared_inputs self; cs_immutable_inputs := cs_immutable_inputs self;
     cs_gas_payment := cs_gas_payment self; cs_gas_object_refs := cs_gas_object_refs self;
     created_objects := created_objects self; deleted_objects := deleted_objects self;
     explicit_object_changes := explicit_object_changes self;
     added_dynamic_fields := added_dynamic_fields self;
     removed_dynamic_fields := removed_dynamic_fields self; move_writes := move_writes self;
     resolver_reads := resolver_reads self; cs_gas_used := cs_gas_used self;
     success := success self; cs_error_message := cs_error_message self |}.

Definition set_cs_shared_inputs (v : list ObjectRef) (self : ChangeSet) : ChangeSet :=
  {| owner_deltas := owner_deltas self; native_gas_credits := native_gas_credits self;
     events := events self; treasuries := treasuries self; nft_caps := nft_caps self;
     token_balance_sets := token_balance_sets self; cs_input_objects := cs_input_objects self;
     cs_shared_inputs := v; cs_immutable_inputs := cs_immutable_inputs self;
     cs_gas_payment := cs_gas_payment self; cs_gas_object_refs := cs_gas_object_refs self;
     created_objects := created_objects self; deleted_objects := deleted_objects self;
     explicit_object_changes := explicit_object_changes self;
     added_dynamic_fields := added_dynamic_fields self;
     removed_dynamic_fields := removed_dynamic_fields self; move_writes := move_writes self;
     resolver_reads := resolver_reads self; cs_gas_used := cs_gas_used self;
     success := success self; cs_error_message := cs_error_message self |}.

Definition set_cs_immutable_inputs (v : list ObjectRef) (self : ChangeSet) : ChangeSet :=
  {| owner_deltas := owner_deltas self; native_gas_credits := native_gas_credits self;
     events := events self; treasuries := treasuries self; nft_caps := nft_caps self;
     token_balance_sets := token_balance_sets self; cs_input_objects := cs_input_objects self;
     cs_shared_inputs := cs_shared_inputs self; cs_immutable_inputs := v;
     cs_gas_payment := cs_gas_payment self; cs_gas_object_refs := cs_gas_object_refs self;
     created_objects := created_objects self; deleted_objects := deleted_objects self;
     explicit_object_changes := explicit_object_changes self;
     added_dynamic_fields := added_dynamic_fields self;
     removed_dynamic_fields := removed_dynamic_fields self; move_writes := move_writes self;
     resolver_reads := resolver_reads self; cs_gas_used := cs_gas_used self;
     success := success self; cs_error_message := cs_error_message self |}.

Definition set_cs_gas_payment (v : option GasPayment) (self : ChangeSet) : ChangeSet :=
  {| owner_deltas := owner_deltas self; native_gas_credits := native_gas_credits self;
     events := events self; treasuries := treasuries self; nft_caps := nft_caps self;
     token_balance_sets := token_balance_sets self; cs_input_objects := cs_input_objects self;
     cs_shared_inputs := cs_shared_inputs self; cs_immutable_inputs := cs_immutable_inputs self;
     cs_gas_payment := v; cs_gas_object_refs := cs_gas_object_refs self;
     created_objects := created_objects self; deleted_objects := deleted_objects self;
     explicit_object_changes := explicit_object_changes self;
     added_dynamic_fields := added_dynamic_fields self;
     removed_dynamic_fields := removed_dynamic_fields self; move_writes := move_writes self;
     resolver_reads := resolver_reads self; cs_gas_used := cs_gas_used self;
     success := success self; cs_error_message := cs_error_message self |}.

Definition set_cs_gas_object_refs (v : list ObjectRef) (self : ChangeSet) : ChangeSet :=
  {| owner_deltas := owner_deltas self; native_gas_credits := native_gas_credits self;
     events := events self; treasuries := treasuries self; nft_caps := nft_caps self;
     token_balance_sets := token_balance_sets self; cs_input_objects := cs_input_objects self;
     cs_shared_inputs := cs_shared_inputs self; cs_immutable_inputs := cs_immutable_inputs self;
     cs_gas_payment := cs_gas_payment self; cs_gas_object_refs := v;
     created_objects := created_objects self; deleted_objects := deleted_objects self;
     explicit_object_changes := explicit_object_changes self;
     added_dynamic_fields := added_dynamic_fields self;
     removed_dynamic_fields := removed_dynamic_fields self; move_writes := move_writes self;
     resolver_reads := resolver_reads self; cs_gas_used := cs_gas_used self;
     success := success self; cs_error_message := cs_error_message self |}.

Definition set_created_objects (v : list (bytes * CreatedObject)) (self : ChangeSet) : ChangeSet :=
  {| owner_deltas := owner_deltas self; native_gas_credits := native_gas_credits self;
     events := events self; treasuries := treasuries self; nft_caps := nft_caps self;
     token_balance_sets := token_balance_sets self; cs_input_objects := cs_input_objects self;
     cs_shared_inputs := cs_shared_inputs self; cs_immutable_inputs := cs_immutable_inputs self;
     cs_gas_payment := cs_gas_payment self; cs_gas_object_refs := cs_gas_object_refs self;
     created_objects := v; deleted_objects := deleted_objects self;
     explicit_object_changes := explicit_object_changes self;
     added_dynamic_fields := added_dynamic_fields self;
     removed_dynamic_fields := removed_dynamic_fields self; move_writes := move_writes self;
     resolver_reads := resolver_reads self; cs_gas_used := cs_gas_used self;
     success := success self; cs_error_message := cs_error_message self |}.

Definition set_deleted_objects (v : list bytes) (self : ChangeSet) : ChangeSet :=
  {| owner_deltas := owner_deltas self; native_gas_credits := native_gas_credits self;
     events := events self; treasuries := treasuries self; nft_caps := nft_caps self;
     token_balance_sets := token_balance_sets self; cs_input_objects := cs_input_objects self;
     cs_shared_inputs := cs_shared_inputs self; cs_immutable_inputs := cs_immutable_inputs self;
     cs_gas_payment := cs_gas_payment self; cs_gas_object_refs := cs_gas_object_refs self;
     created_objects := created_objects self; deleted_objects := v;
     explicit_object_changes := explicit_object_changes self;
     added_dynamic_fields := added_dynamic_fields self;
     removed_dynamic_fields := removed_dynamic_fields self; move_writes := move_writes self;
     resolver_reads := resolver_reads self; cs_gas_used := cs_gas_used self;
     success := success self; cs_error_message := cs_error_message self |}.

Definition set_explicit_object_changes (v : list ObjectChange) (self : ChangeSet) : ChangeSet :=
  {| owner_deltas := owner_deltas self; native_gas_credits := native_gas_credits self;
     events := events self; treasuries := treasuries self; nft_caps := nft_caps self;
     token_balance_sets := token_balance_sets self; cs_input_objects := cs_input_objects self;
     cs_shared_inputs := cs_shared_inputs self; cs_immutable_inputs := cs_immutable_inputs self;
     cs_gas_payment := cs_gas_payment self; cs_gas_object_refs := cs_gas_object_refs self;
     created_objects := created_objects self; deleted_objects := deleted_objects self;
     explicit_object_changes := v; added_dynamic_fields := added_dynamic_fields self;
     removed_dynamic_fields := removed_dynamic_fields self; move_writes := move_writes self;
     resolver_reads := resolver_reads self; cs_gas_used := cs_gas_used self;
     success := success self; cs_error_message := cs_error_message self |}.

Definition set_move_writes (v : gmap bytes (option bytes)) (self : ChangeSet) : ChangeSet :=
  {| owner_deltas := owner_deltas self; native_gas_credits := native_gas_credits self;
     events := events self; treasuries := treasuries self; nft_caps := nft_caps self;
     token_balance_sets := token_balance_sets self; cs_input_objects := cs_input_objects self;
     cs_shared_inputs := cs_shared_inputs self; cs_immutable_inputs := cs_immutable_inputs self;
     cs_gas_payment := cs_gas_payment self; cs_gas_object_refs := cs_gas_object_refs self;
     created_objects := created_objects self; deleted_objects := deleted_objects self;
     explicit_object_changes := explicit_object_changes self;
     added_dynamic_fields := added_dynamic_fields self;
     removed_dynamic_fields := removed_dynamic_fields self; move_writes := v;
     resolver_reads := resolver_reads self; cs_gas_used := cs_gas_used self;
     success := success self; cs_error_message := cs_error_message self |}.

Definition set_resolver_reads (v : gset bytes) (self : ChangeSet) : ChangeSet :=
  {| owner_deltas := owner_deltas self; native_gas_credits := native_gas_credits self;
     events := events self; treasuries := treasuries self; nft_caps := nft_caps self;
     token_balance_sets := token_balance_sets self; cs_input_objects := cs_input_objects self;
     cs_shared_inputs := cs_shared_inputs self; cs_immutable_inputs := cs_immutable_inputs self;
     cs_gas_payment := cs_gas_payment self; cs_gas_object_refs := cs_gas_object_refs self;
     created_objects := created_objects self; deleted_objects := deleted_objects self;
     explicit_object_changes := explicit_object_changes self;
     added_dynamic_fields := added_dynamic_fields self;
     removed_dynamic_fields := removed_dynamic_fields self; move_writes := move_writes self;
     resolver_reads := v; cs_gas_used := cs_gas_used self; success := success self;
     cs_error_message := cs_error_message self |}.

Definition set_cs_gas_used (v : Z) (self : ChangeSet) : ChangeSet :=
  {| owner_deltas := owner_deltas self; native_gas_credits := native_gas_credits self;
     events := events self; treasuries := treasuries self; nft_caps := nft_caps self;
     token_balance_sets := token_balance_sets self; cs_input_objects := cs_input_objects self;
     cs_shared_inputs := cs_shared_inputs self; cs_immutable_inputs := cs_immutable_inputs self;
     cs_gas_payment := cs_gas_payment self; cs_gas_object_refs := cs_gas_object_refs self;
     created_objects := created_objects self; deleted_objects := deleted_objects self;
     explicit_object_changes := explicit_object_changes self;
     added_dynamic_fields := added_dynamic_fields self;
     removed_dynamic_fields := removed_dynamic_fields self; move_writes := move_writes self;
     resolver_reads := resolver_reads self; cs_gas_used := v; success := success self;
     cs_error_message := cs_error_message self |}.

Definition set_success (v : bool) (self : ChangeSet) : ChangeSet :=
  {| owner_deltas := owner_deltas self; native_gas_credits := native_gas_credits self;
     events := events self; treasuries := treasuries self; nft_caps := nft_caps self;
     token_balance_sets := token_balance_sets self; cs_input_objects := cs_input_objects self;
     cs_shared_inputs := cs_shared_inputs self; cs_immutable_inputs := cs_immutable_inputs self;
     cs_gas_payment := cs_gas_payment self; cs_gas_object_refs := cs_gas_object_refs self;
     created_objects := created_objects self; deleted_objects := deleted_objects self;
     explicit_object_changes := explicit_object_changes self;
     added_dynamic_fields := added_dynamic_fields self;
     removed_dynamic_fields := removed_dynamic_fields self; move_writes := move_writes self;
     resolver_reads := resolver_reads self; cs_gas_used := cs_gas_used self; success := v;
     cs_error_message := cs_error_message self |}.

Definition set_cs_error_message (v : option bytes) (self : ChangeSet) : ChangeSet :=
  {| owner_deltas := owner_deltas self; native_gas_credits := native_gas_credits self;
     events := events self; treasuries := treasuries self; nft_caps := nft_caps self;
     token_balance_sets := token_balance_sets self; cs_input_objects := cs_input_objects self;
     cs_shared_inputs := cs_shared_inputs self; cs_immutable_inputs := cs_immutable_inputs self;
     cs_gas_payment := cs_gas_payment self; cs_gas_object_refs := cs_gas_object_refs self;
     created_objects := created_objects self; deleted_objects := deleted_objects self;
     explicit_object_changes := explicit_object_changes self;
     added_dynamic_fields := added_dynamic_fields self;
     removed_dynamic_fields := removed_dynamic_fields self; move_writes := move_writes self;
     resolver_reads := resolver_reads self; cs_gas_used := cs_gas_used self;
     success := success self; cs_error_message := v |}.

(** ** [i128] *)

Definition i128_min : Z := - 2 ^ 127.
Definition i128_max : Z := 2 ^ 127 - 1.
Definition i128_saturating_add (a b : Z) : Z := Z.max i128_min (Z.min (a + b) i128_max).
(** [+=] and [-=] wrap around in a release build. *)
Definition i128_wrap (z : Z) : Z := ((z + 2 ^ 127) mod 2 ^ 128 - 2 ^ 127)%Z.

(** ** [CreatedObject], [StateAccessSet], [OwnerDelta] *)

Section Objects.
Context {B3 : Blake3} {HX : Hex}.

Definition object_digest (o : CreatedObject) : bytes :=
  str "0x" ++ hex_encode (hash_data_blake3_array (data o)).
Definition object_ref_of (o : CreatedObject) (id : bytes) : ObjectRef :=
  {| object_id := id; version := Some (created_version o); ref_digest := Some (object_digest o) |}.
End Objects.

Definition conflicts_with (self other : StateAccessSet) : bool :=
  existsb (λ key, bool_decide (key ∈ reads other) || bool_decide (key ∈ writes other))
    (elements (writes self))
  || existsb (λ key, bool_decide (key ∈ reads self)) (elements (writes other)).

Definition delta_new (address : bytes) : OwnerDelta :=
  {| delta_address := address; balance_delta := 0; modules_added := ∅ |}.
Definition debit (amount : Z) (d : OwnerDelta) : OwnerDelta :=
  {| delta_address := delta_address d; balance_delta := i128_wrap (balance_delta d - amount);
     modules_added := modules_added d |}.
Definition credit (amount : Z) (d : OwnerDelta) : OwnerDelta :=
  {| delta_address := delta_address d; balance_delta := i128_wrap (balance_delta d + amount);
     modules_added := modules_added d |}.
Definition add_module (name : bytes) (d : OwnerDelta) : OwnerDelta :=
  {| delta_address := delta_address d; balance_delta := balance_delta d;
     modules_added := modules_added d ∪ {[name]} |}.

(** ** Building a change set *)

Definition with_status (gas_used : Z) (ok : bool) (error : option bytes) : ChangeSet :=
  {| owner_deltas := ∅; native_gas_credits := ∅; events := []; treasuries := []; nft_caps := [];
     token_balance_sets := []; cs_input_objects := []; cs_shared_inputs := [];
     cs_immutable_inputs := []; cs_gas_payment := None; cs_gas_object_refs := [];
     created_objects := []; deleted_objects := []; explicit_object_changes := [];
     added_dynamic_fields := []; removed_dynamic_fields := []; move_writes := ∅;
     resolver_reads := ∅; cs_gas_used := gas_used; success := ok; cs_error_message := error |}.
Definition changeset_new : ChangeSet := with_status 0 true None.

(** [get_or_create_owner_delta], then an update of the reference. *)
Definition update_owner_delta (address : bytes) (f : OwnerDelta → OwnerDelta) (self : ChangeSet) :
    ChangeSet :=
  set_owner_deltas (<[address := f (default (delta_new address) (owner_deltas self !! address))]>
    (owner_deltas self)) self.

Definition transfer (from to : bytes) (amount : Z) (self : ChangeSet) : ChangeSet :=
  update_owner_delta to (credit amount) (update_owner_delta from (debit amount) self).
Definition mint (to : bytes) (amount : Z) : ChangeSet → ChangeSet :=
  update_owner_delta to (credit amount).
Definition burn (from : bytes) (amount : Z) : ChangeSet → ChangeSet :=
  update_owner_delta from (debit amount).
Definition publish_module (publisher name : bytes) : ChangeSet → ChangeSet :=
  update_owner_delta publisher (add_module name).

(** [let c = credits.entry(k).or_insert(0); *c = c.saturating_add(amount)] *)
Definition add_credit (credits : gmap bytes Z) (collector : bytes) (amount : Z) : gmap bytes Z :=
  <[collector := saturating_add (default 0%Z (credits !! collector)) amount]> credits.

Definition collect_gas (dao_address : bytes) (gas_amount : Z) (self : ChangeSet) : ChangeSet :=
  let self := update_owner_delta dao_address (credit gas_amount) self in
  set_native_gas_credits (add_credit (native_gas_credits self) dao_address gas_amount) self.

Definition mark_failed (error : bytes) (self : ChangeSet) : ChangeSet :=
  set_cs_error_message (Some error) (set_success false self).

Definition list_empty {A} (l : list A) : bool := match l with [] => true | _ => false end.
Definition is_none {A} (o : option A) : bool := match o with None => true | _ => false end.

Definition is_empty (self : ChangeSet) : bool :=
  bool_decide (owner_deltas self = ∅) && bool_decide (native_gas_credits self = ∅)
  && list_empty (events self) && list_empty (treasuries self) && list_empty (token_balance_sets self)
  && list_empty (cs_input_objects self) && list_empty (cs_shared_inputs self)
  && list_empty (cs_immutable_inputs self) && is_none (cs_gas_payment self)
  && list_empty (cs_gas_object_refs self) && list_empty (created_objects self)
  && list_empty (deleted_objects self) && list_empty (explicit_object_changes self)
  && list_empty (added_dynamic_fields self) && list_empty (removed_dynamic_fields self)
  && bool_decide (move_writes self = ∅) && (cs_gas_used self =? 0)%Z && success self
  && is_none (cs_error_message self).

Definition set_gas_used (gas : Z) : ChangeSet → ChangeSet := set_cs_gas_used gas.
Definition add_event (e : Event) (self : ChangeSet) : ChangeSet :=
  set_events (events self ++ [e]) self.
Definition record_move_write (key : bytes) (value : option bytes) (self : ChangeSet) : ChangeSet :=
  set_move_writes (<[key := value]> (move_writes self)) self.
Definition record_resolver_reads (keys : list bytes) (self : ChangeSet) : ChangeSet :=
  set_resolver_reads (resolver_reads self ∪ list_to_set keys) self.
Definition add_treasury (owner token_type : bytes) (supply : Z) (self : ChangeSet) : ChangeSet :=
  set_treasuries (treasuries self ++ [(owner, token_type, {| total_supply := supply |})]) self.

Local Abbreviation balance_entry := (bytes * bytes * BalanceRecord)%type.

(** The entry of the pair grows, or a new one is pushed. *)
Fixpoint add_balance (owner token_type : bytes) (amount : Z) (l : list balance_entry) :
    list balance_entry :=
  match l with
  | [] => [(owner, token_type, {| balance_value := amount |})]
  | (o, t, b) :: l =>
      if bool_decide (o = owner) && bool_decide (t = token_type)
      then (o, t, {| balance_value := saturating_add (balance_value b) amount |}) :: l
      else (o, t, b) :: add_balance owner token_type amount l
  end.
Definition add_token_balance_set (owner token_type : bytes) (amount : Z) (self : ChangeSet) :
    ChangeSet :=
  set_token_balance_sets (add_balance owner token_type amount (token_balance_sets self)) self.

Definition is_shared (i : ObjectInput) : bool :=
  match input_owner i with Some Shared => true | _ => false end.
Definition is_immutable (i : ObjectInput) : bool :=
  match input_owner i with Some Immutable => true | _ => false end.

Definition set_transaction_context (inputs : list ObjectInput) (payment : option GasPayment)
    (self : ChangeSet) : ChangeSet :=
  let self := set_cs_input_objects inputs self in
  let self := set_cs_shared_inputs (map object_ref (List.filter is_shared inputs)) self in
  let self := set_cs_immutable_inputs (map object_ref (List.filter is_immutable inputs)) self in
  let self := set_cs_gas_object_refs (default [] (payment_objects <$> payment)) self in
  set_cs_gas_payment payment self.

(** ** Merging *)

Section Upsert.
Context {V W : Type} (f : bytes → option V → W → V).

(** [for (k, w) in other { let slot = entry(k)...; }] *)
Definition upsert_all (m : gmap bytes V) (l : list (bytes * W)) : gmap bytes V :=
  foldl (λ (m : gmap bytes V) '(k, w), <[k := f k (m !! k) w]> m) m l.
End Upsert.

Definition merge_delta (addr : bytes) (existing : option OwnerDelta) (other : OwnerDelta) : OwnerDelta :=
  let d := default (delta_new addr) existing in
  {| delta_address := delta_address d;
     balance_delta := i128_saturating_add (balance_delta d) (balance_delta other);
     modules_added := modules_added d ∪ modules_added other |}.
Definition merge_credit (_ : bytes) (existing : option Z) (amount : Z) : Z :=
  saturating_add (default 0%Z existing) amount.
Definition merge_write (_ : bytes) (_ : option (option bytes)) (value : option bytes) : option bytes :=
  value.
Definition merge_balance (l : list balance_entry) (e : balance_entry) : list balance_entry :=
  add_balance e.1.1 e.1.2 (balance_value e.2) l.

Definition merge (self other : ChangeSet) : ChangeSet :=
  {| owner_deltas := upsert_all merge_delta (owner_deltas self) (btree_iter (owner_deltas other));
     native_gas_credits :=
       upsert_all merge_credit (native_gas_credits self) (btree_iter (native_gas_credits other));
     events := events self ++ events other;
     treasuries := treasuries self ++ treasuries other;
     nft_caps := nft_caps self ++ nft_caps other;
     cs_input_objects := cs_input_objects self ++ cs_input_objects other;
     cs_shared_inputs := cs_shared_inputs self ++ cs_shared_inputs other;
     cs_immutable_inputs := cs_immutable_inputs self ++ cs_immutable_inputs other;
     cs_gas_payment :=
       match cs_gas_payment self with None => cs_gas_payment other | Some p => Some p end;
     cs_gas_object_refs := cs_gas_object_refs self ++ cs_gas_object_refs other;
     token_balance_sets := foldl merge_balance (token_balance_sets self) (token_balance_sets other);
     created_objects := created_objects self ++ created_objects other;
     deleted_objects := deleted_objects self ++ deleted_objects other;
     explicit_object_changes := explicit_object_changes self ++ explicit_object_changes other;
     added_dynamic_fields := added_dynamic_fields self ++ added_dynamic_fields other;
     removed_dynamic_fields := removed_dynamic_fields self ++ removed_dynamic_fields other;
     move_writes := upsert_all merge_write (move_writes self) (btree_iter (move_writes other));
     resolver_reads := resolver_reads self ∪ resolver_reads other;
     cs_gas_used := saturating_add (cs_gas_used self) (cs_gas_used other);
     success := if success other then success self else false;
     cs_error_message := if success other then cs_error_message self else cs_error_message other |}.

(** [merge_from] clones what [merge] moves. *)
Definition merge_from (self other : ChangeSet) : ChangeSet := merge self other.

(** ** Object identifiers, created objects and the access manifest *)

Section Access.
Context {B3 : Blake3} {HX : Hex}.

Definition canonicalize_object_id (id : bytes) : bytes :=
  match MoveAddress.from_hex_literal id with
  | Some addr => MoveAddress.to_hex_literal addr
  | None => id
  end.

Definition add_deleted_object (id : bytes) (self : ChangeSet) : ChangeSet :=
  set_deleted_objects (deleted_objects self ++ [canonicalize_object_id id]) self.

Definition created_canonical_id (owner type : bytes) (uid : option UIDRecord) (id : option IDRecord)
    (object_id : option bytes) : bytes :=
  match object_id, uid, id with
  | Some i, _, _ => canonicalize_object_id i
  | None, Some u, _ => MoveAddress.to_hex_literal (uid_addr u)
  | None, None, Some i => MoveAddress.to_hex_literal (id_bytes i)
  | None, None, None => str "0x" ++ hex_encode (hash_data_blake3_array (owner ++ type))
  end.

Fixpoint put_created (canonical owner type payload : bytes) (ver : Z)
    (u : option UIDRecord) (i : option IDRecord) (l : list (bytes * CreatedObject)) :
    list (bytes * CreatedObject) :=
  match l with
  | [] =>
      [(canonical,
        {| created_owner := owner; uid := u; created_id := i;
           owner_kind := AddressOwner (MoveAddress.to_hex_literal owner);
           type_ := type; data := payload; created_version := ver |})]
  | (k, o) :: l =>
      if bool_decide (k = canonical) then
        (k, {| created_owner := if bool_decide (MoveAddress.to_hex_literal owner = canonical)
                                then created_owner o else owner;
               owner_kind := owner_kind o;
               uid := match u with Some _ => u | None => uid o end;
               created_id := match i with Some _ => i | None => created_id o end;
               type_ := type; data := payload; created_version := ver |}) :: l
      else (k, o) :: put_created canonical owner type payload ver u i l
  end.
Definition add_created_object (owner type payload : bytes) (ver : Z) (u : option UIDRecord)
    (i : option IDRecord) (id : option bytes) (self : ChangeSet) : ChangeSet :=
  set_created_objects
    (put_created (created_canonical_id owner type u i id) owner type payload ver u i
       (created_objects self)) self.

Definition is_parallel_safe_native_owner_delta (self : ChangeSet) (owner : bytes) (delta : OwnerDelta) :
    bool :=
  if negb (bool_decide (modules_added delta = ∅)) then false
  else if (0 <=? balance_delta delta)%Z then false
  else match cs_gas_payment self with
       | None => false
       | Some payment =>
           if list_empty (payment_objects payment) then false
           else match MoveAddress.from_hex_literal (payment_owner payment) with
                | None => false
                | Some o => bool_decide (o = owner)
                end
       end.

(** The storage keys of the manifest. *)
Definition object_access (id : bytes) : bytes := str "object:" ++ canonicalize_object_id id.
Definition dynamic_access (id name : bytes) : bytes :=
  str "dynamic:" ++ canonicalize_object_id id ++ str ":" ++ hex_encode name.
Definition token_balance_access (owner token_type : bytes) : bytes :=
  str "token_balance:" ++ MoveAddress.to_hex_literal owner ++ str ":" ++ token_type.
Definition member_access (e : Event) : list bytes :=
  if contains (str "::nft::MintLog") (type_tag e) && (96 <=? length (event_data e))
  then [str "collection_members:0x" ++ hex_encode (take 32 (drop 64 (event_data e)))] else [].

Definition access_reads (self : ChangeSet) : list bytes :=
  elements (resolver_reads self) ++ [str "df:*"]
  ++ map (λ i, object_access (object_id (object_ref i))) (cs_input_objects self)
  ++ map (λ r, object_access (object_id r)) (cs_shared_inputs self)
  ++ map (λ r, object_access (object_id r)) (cs_immutable_inputs self).

Definition access_writes (self : ChangeSet) : list bytes :=
  map (λ r, object_access (object_id r)) (cs_gas_object_refs self)
  ++ match cs_gas_payment self with
     | Some p => map (λ r, object_access (object_id r)) (payment_objects p)
     | None => []
     end
  ++ flat_map (λ '(owner, delta),
       if is_parallel_safe_native_owner_delta self owner delta then []
       else [str "owner:" ++ MoveAddress.to_hex_literal owner]) (btree_iter (owner_deltas self))
  ++ flat_map (λ '(_, t, _), [str "supply:" ++ t; str "treasury:" ++ t; str "global_token_supplies"])
       (treasuries self)
  ++ map (λ '(_, t, _), str "nft:" ++ t) (nft_caps self)
  ++ map (λ '(owner, t, _), token_balance_access owner t) (token_balance_sets self)
  ++ map (λ '(id, _), object_access id) (created_objects self)
  ++ map object_access (deleted_objects self)
  ++ map (λ c, object_access (object_id (changed_ref c))) (explicit_object_changes self)
  ++ flat_map (λ '(id, name, _), [str "df:*"; dynamic_access id name]) (added_dynamic_fields self)
  ++ flat_map (λ '(id, name), [str "df:*"; dynamic_access id name]) (removed_dynamic_fields self)
  ++ map fst (btree_iter (move_writes self))
  ++ flat_map member_access (events self).

Definition deterministic_access_set (self : ChangeSet) : StateAccessSet :=
  {| reads := list_to_set (access_reads self); writes := list_to_set (access_writes self) |}.
End Access.

(** ** Effects *)

#[export] Instance ObjectOwnerKind_eq_dec : EqDecision ObjectOwnerKind.
Proof. solve_decision. Defined.
#[export] Instance ObjectRef_eq_dec : EqDecision ObjectRef.
Proof. solve_decision. Defined.
#[export] Instance ObjectChangeKind_eq_dec : EqDecision ObjectChangeKind.
Proof. solve_decision. Defined.
#[export] Instance ObjectGraphEdgeKind_eq_dec : EqDecision ObjectGraphEdgeKind.
Proof. solve_decision. Defined.
#[export] Instance ObjectGraphEdge_eq_dec : EqDecision ObjectGraphEdge.
Proof. solve_decision. Defined.

Definition input_edge_relation (k : ObjectChangeKind) : ObjectGraphEdgeKind :=
  match k with
  | Created => InputCreate | Mutated => InputMutate
  | Deleted => InputDelete | Transferred => InputTransfer
  end.
Definition shared_input_edge_relation (k : ObjectChangeKind) : ObjectGraphEdgeKind :=
  match k with
  | Created => SharedInputCreate | Mutated => SharedInputMutate
  | Deleted => SharedInputDelete | Transferred => SharedInputTransfer
  end.
Definition immutable_input_edge_relation (k : ObjectChangeKind) : ObjectGraphEdgeKind :=
  match k with
  | Created => ImmutableInputCreate | Mutated => ImmutableInputMutate
  | Deleted => ImmutableInputDelete | Transferred => ImmutableInputTransfer
  end.
Definition gas_edge_relation (k : ObjectChangeKind) : ObjectGraphEdgeKind :=
  match k with
  | Created => GasCreate | Mutated => GasMutate
  | Deleted => GasDelete | Transferred => GasTransfer
  end.

(** [format!("{:?}", relation)] *)
Definition relation_debug (r : ObjectGraphEdgeKind) : bytes :=
  str match r with
  | InputCreate => "InputCreate" | InputMutate => "InputMutate"
  | InputDelete => "InputDelete" | InputTransfer => "InputTransfer"
  | SharedInputCreate => "SharedInputCreate" | SharedInputMutate => "SharedInputMutate"
  | SharedInputDelete => "SharedInputDelete" | SharedInputTransfer => "SharedInputTransfer"
  | ImmutableInputCreate => "ImmutableInputCreate" | ImmutableInputMutate => "ImmutableInputMutate"
  | ImmutableInputDelete => "ImmutableInputDelete"
  | ImmutableInputTransfer => "ImmutableInputTransfer"
  | GasCreate => "GasCreate" | GasMutate => "GasMutate"
  | GasDelete => "GasDelete" | GasTransfer => "GasTransfer"
  | CallContextCreate => "CallContextCreate" | VersionSuccessor => "VersionSuccessor"
  | EdgeDelete => "Delete" | OwnershipTransfer => "OwnershipTransfer"
  end.

Definition edge (s t : ObjectRef) (k : ObjectGraphEdgeKind) : ObjectGraphEdge :=
  {| source_object_ref := s; target_object_ref := t; relation_kind := k |}.

(** The comparison of [sort_by]: source id, target id, name of the relation. *)
Definition edge_leb (a b : ObjectGraphEdge) : bool :=
  let sa := object_id (source_object_ref a) in
  let sb := object_id (source_object_ref b) in
  let ta := object_id (target_object_ref a) in
  let tb := object_id (target_object_ref b) in
  if decide (sa = sb) then
    if decide (ta = tb) then bytes_leb (relation_debug (relation_kind a)) (relation_debug (relation_kind b))
    else bytes_leb ta tb
  else bytes_leb sa sb.

Fixpoint insert_edge (x : ObjectGraphEdge) (l : list ObjectGraphEdge) : list ObjectGraphEdge :=
  match l with
  | [] => [x]
  | y :: l' => if edge_leb x y then x :: l else y :: insert_edge x l'
  end.
Definition sort_edges (l : list ObjectGraphEdge) : list ObjectGraphEdge := foldr insert_edge [] l.

(** [Vec::dedup]: consecutive equal elements. *)
Fixpoint dedup_edges (l : list ObjectGraphEdge) : list ObjectGraphEdge :=
  match l with
  | x :: ((y :: _) as l') => if decide (x = y) then dedup_edges l' else x :: dedup_edges l'
  | _ => l
  end.

Section Effects.
Context {B3 : Blake3} {HX : Hex}.

Definition checked_pred (v : Z) : option Z := if (v <? 1)%Z then None else Some (v - 1)%Z.

Definition created_change (e : bytes * CreatedObject) : ObjectChange :=
  let '(id, o) := e in
  let kind := if (created_version o <=? 1)%Z then Created else Mutated in
  {| change_type := kind;
     changed_ref := object_ref_of o id;
     previous_object_ref :=
       match kind with
       | Created => None
       | _ => Some {| object_id := id; version := checked_pred (created_version o); ref_digest := None |}
       end;
     object_type := Some (type_ o);
     new_owner := Some (owner_kind o);
     previous_owner := None;
     previous_version :=
       match kind with Created => None | _ => checked_pred (created_version o) end |}.

Definition deleted_change (id : bytes) : ObjectChange :=
  {| change_type := Deleted;
     changed_ref := {| object_id := id; version := None; ref_digest := None |};
     previous_object_ref := None; object_type := None; new_owner := None;
     previous_owner := None; previous_version := None |}.

Definition object_changes_of (self : ChangeSet) : list ObjectChange :=
  if negb (list_empty (explicit_object_changes self)) then explicit_object_changes self
  else map created_change (created_objects self) ++ map deleted_change (deleted_objects self).

(** The edges pushed for one change. *)
Definition previous_edges (c : ObjectChange) : list ObjectGraphEdge :=
  match previous_object_ref c with
  | None => []
  | Some p =>
      edge p (changed_ref c)
        (if decide (change_type c = Deleted) then EdgeDelete else VersionSuccessor)
      :: (if bool_decide (change_type c = Transferred)
             && negb (bool_decide (previous_owner c = new_owner c))
          then [edge p (changed_ref c) OwnershipTransfer] else [])
  end.
Definition change_edges (self : ChangeSet) (c : ObjectChange) : list ObjectGraphEdge :=
  previous_edges c
  ++ map (λ i, edge (object_ref i) (changed_ref c) (input_edge_relation (change_type c)))
       (cs_input_objects self)
  ++ map (λ r, edge r (changed_ref c) (shared_input_edge_relation (change_type c)))
       (cs_shared_inputs self)
  ++ map (λ r, edge r (changed_ref c) (immutable_input_edge_relation (change_type c)))
       (cs_immutable_inputs self)
  ++ flat_map (λ r,
       edge r (changed_ref c) (gas_edge_relation (change_type c))
       :: (if decide (change_type c = Created) then [edge r (changed_ref c) CallContextCreate] else []))
       (cs_gas_object_refs self).
Definition gas_edges (self : ChangeSet) : list ObjectGraphEdge :=
  flat_map (λ g,
    map (λ r, edge g r GasMutate) (map object_ref (cs_input_objects self))
    ++ map (λ r, edge g r GasMutate) (cs_shared_inputs self)
    ++ map (λ r, edge g r GasMutate) (cs_immutable_inputs self)) (cs_gas_object_refs self).
Definition pushed_edges (self : ChangeSet) : list ObjectGraphEdge :=
  flat_map (change_edges self) (object_changes_of self) ++ gas_edges self.

Definition of_kind (k : ObjectChangeKind) (l : list ObjectChange) : list ObjectChange :=
  filter (λ c, change_type c = k) l.

Definition effects (payment : option GasPayment) (self : ChangeSet) : TransactionEffects :=
  let changes := object_changes_of self in
  {| status := if success self then str "success" else str "failed";
     gas_used := cs_gas_used self;
     effects_gas_payment := match payment with Some p => Some p | None => cs_gas_payment self end;
     input_objects := map object_ref (cs_input_objects self);
     shared_inputs := cs_shared_inputs self;
     immutable_inputs := cs_immutable_inputs self;
     gas_object_refs := cs_gas_object_refs self;
     object_changes := changes;
     created := of_kind Created changes;
     mutated := of_kind Mutated changes;
     deleted := of_kind Deleted changes;
     transferred := of_kind Transferred changes;
     causal_edges := dedup_edges (sort_edges (pushed_edges self));
     error_message := cs_error_message self |}.
End Effects.
