(* ===== verification/ChangeSetTheorems.v ===== *)
(** * Change sets: theorems

    Building preserves the supply accounting, merging is a monoid, and the
    reported effects are a partition of the object changes with ordered causal
    edges. *)

From stdpp Require Import base list gmap strings sorting.
From Stdlib Require Import ZArith Lia.
From S2P Require Import Prelude Order Hashing Text Address GasCoin Transaction ChangeSet.

(** ** Maps updated key by key *)

Section Upsert.
Context {V W : Type} (f : bytes → option V → W → V).

Lemma upsert_all_absent (l : list (bytes * W)) (m : gmap bytes V) (k : bytes) :
  k ∉ l.*1 → upsert_all f m l !! k = m !! k.
Proof.
  revert m. induction l as [|[j w] l IH]; intros m Hk; [done|].
  rewrite fmap_cons, not_elem_of_cons in Hk. destruct Hk as [Hj Hk].
  unfold upsert_all in *. cbn [foldl]. rewrite IH by done. by rewrite lookup_insert_ne.
Qed.

Lemma upsert_all_lookup (l : list (bytes * W)) (m : gmap bytes V) (k : bytes) :
  NoDup l.*1 →
  upsert_all f m l !! k =
    match (list_to_map l : gmap bytes W) !! k with Some w => Some (f k (m !! k) w) | None => m !! k end.
Proof.
  revert m. induction l as [|[j w] l IH]; intros m Hl; [done|].
  rewrite fmap_cons in Hl. apply NoDup_cons in Hl as [Hj Hl].
  change (upsert_all f m ((j, w) :: l)) with (upsert_all f (<[j := f j (m !! j) w]> m) l).
  cbn [list_to_map foldr]. destruct (decide (j = k)) as [->|Hne].
  - rewrite upsert_all_absent by done. cbn. by rewrite !lookup_insert_eq.
  - rewrite IH by done. cbn. rewrite !lookup_insert_ne by done. done.
Qed.

Lemma upsert_btree (m : gmap bytes V) (o : gmap bytes W) (k : bytes) :
  upsert_all f m (btree_iter o) !! k =
    match o !! k with Some w => Some (f k (m !! k) w) | None => m !! k end.
Proof.
  rewrite upsert_all_lookup by apply btree_iter_NoDup. by rewrite btree_iter_map.
Qed.
End Upsert.

(** ** Supply accounting *)

Local Open Scope Z_scope.

Inductive builder_op :=
| OpTransfer (from to : bytes) (amount : Z)
| OpMint (to : bytes) (amount : Z)
| OpBurn (from : bytes) (amount : Z)
| OpPublish (publisher name : bytes)
| OpCollectGas (dao : bytes) (amount : Z).

Definition run_op (o : builder_op) : ChangeSet → ChangeSet :=
  match o with
  | OpTransfer f t n => transfer f t n
  | OpMint t n => mint t n
  | OpBurn f n => burn f n
  | OpPublish p m => publish_module p m
  | OpCollectGas d n => collect_gas d n
  end.
Definition build (ops : list builder_op) : ChangeSet := fold_left (λ cs o, run_op o cs) ops changeset_new.

Definition op_amount (o : builder_op) : Z :=
  match o with
  | OpTransfer _ _ n | OpMint _ n | OpBurn _ n | OpCollectGas _ n => n
  | OpPublish _ _ => 0
  end.
(** What an operation does to the balance of [a], and to the supply. *)
Definition at_ (a b : bytes) (n : Z) : Z := if decide (a = b) then n else 0.
Definition net (a : bytes) (o : builder_op) : Z :=
  match o with
  | OpTransfer f t n => at_ a t n - at_ a f n
  | OpMint t n => at_ a t n
  | OpBurn f n => - at_ a f n
  | OpPublish _ _ => 0
  | OpCollectGas d n => at_ a d n
  end.
Definition issued (o : builder_op) : Z :=
  match o with
  | OpMint _ n | OpCollectGas _ n => n
  | OpBurn _ n => - n
  | OpTransfer _ _ _ | OpPublish _ _ => 0
  end.
Definition zsum (l : list Z) : Z := foldr Z.add 0 l.

Definition delta_of (cs : ChangeSet) (a : bytes) : Z :=
  match owner_deltas cs !! a with Some d => balance_delta d | None => 0 end.
Definition supply_delta (cs : ChangeSet) : Z :=
  zsum (map (λ e, balance_delta e.2) (map_to_list (owner_deltas cs))).

Lemma zsum_cons x l : zsum (x :: l) = x + zsum l.
Proof. done. Qed.
Lemma zsum_perm l k : l ≡ₚ k → zsum l = zsum k.
Proof. induction 1; rewrite ?zsum_cons; lia. Qed.
Lemma zsum_app l k : zsum (l ++ k) = zsum l + zsum k.
Proof. induction l as [|x l IH]; [done|]. cbn [app]. rewrite !zsum_cons. lia. Qed.

Lemma supply_delta_insert cs a d :
  supply_delta (set_owner_deltas (<[a := d]> (owner_deltas cs)) cs)
  = supply_delta cs + balance_delta d - delta_of cs a.
Proof.
  unfold supply_delta, delta_of. cbn [owner_deltas set_owner_deltas].
  destruct (owner_deltas cs !! a) as [d0|] eqn:E.
  - rewrite <- (insert_delete_id (owner_deltas cs) a d0 E) at 2.
    rewrite <- insert_delete_eq.
    rewrite (zsum_perm _ _ (Permutation_map _ (map_to_list_insert _ a d (lookup_delete_eq _ _)))).
    rewrite (zsum_perm (map _ (map_to_list (<[a:=d0]> _))) _
      (Permutation_map _ (map_to_list_insert _ a d0 (lookup_delete_eq _ _)))).
    cbn [map snd]. rewrite ?zsum_cons. cbn [snd]. lia.
  - rewrite (zsum_perm _ _ (Permutation_map _ (map_to_list_insert _ a d E))).
    cbn [map snd]. rewrite ?zsum_cons. cbn [snd]. lia.
Qed.

Lemma delta_of_update cs a f b :
  delta_of (update_owner_delta a f cs) b =
    if decide (b = a) then balance_delta (f (default (delta_new a) (owner_deltas cs !! a)))
    else delta_of cs b.
Proof.
  unfold delta_of, update_owner_delta. cbn [owner_deltas set_owner_deltas].
  case_decide as Hb; [subst b; by rewrite lookup_insert_eq|].
  by rewrite lookup_insert_ne by congruence.
Qed.

Lemma delta_default cs a : balance_delta (default (delta_new a) (owner_deltas cs !! a)) = delta_of cs a.
Proof. unfold delta_of. by destruct (owner_deltas cs !! a). Qed.

Lemma i128_wrap_id z : i128_min ≤ z ≤ i128_max → i128_wrap z = z.
Proof. unfold i128_wrap, i128_min, i128_max. intros H. rewrite Z.mod_small; lia. Qed.

(** A credit or a debit of [n] at [a]. *)
Lemma update_moves cs a f n :
  (∀ d, balance_delta (f d) = i128_wrap (balance_delta d + n)) →
  i128_min ≤ delta_of cs a + n ≤ i128_max →
  (∀ b, delta_of (update_owner_delta a f cs) b = delta_of cs b + at_ b a n)
  ∧ supply_delta (update_owner_delta a f cs) = supply_delta cs + n.
Proof.
  intros Hf Hr. split.
  - intros b. rewrite delta_of_update. unfold at_. case_decide as Hb; [subst b|lia].
    by rewrite Hf, delta_default, i128_wrap_id.
  - unfold update_owner_delta. rewrite supply_delta_insert, Hf, delta_default, i128_wrap_id by done. lia.
Qed.

Lemma credit_moves n d : balance_delta (credit n d) = i128_wrap (balance_delta d + n).
Proof. done. Qed.
Lemma debit_moves n d : balance_delta (debit n d) = i128_wrap (balance_delta d + - n).
Proof. done. Qed.

(** The credits of the gas collectors do not touch the deltas. *)
Lemma credits_delta v cs a : delta_of (set_native_gas_credits v cs) a = delta_of cs a.
Proof. done. Qed.
Lemma credits_supply v cs : supply_delta (set_native_gas_credits v cs) = supply_delta cs.
Proof. done. Qed.

Lemma run_op_moves o cs B :
  0 ≤ op_amount o ≤ u64_max → 0 ≤ B → B + 2 ^ 64 ≤ i128_max →
  (∀ a, Z.abs (delta_of cs a) ≤ B) →
  (∀ a, delta_of (run_op o cs) a = delta_of cs a + net a o)
  ∧ supply_delta (run_op o cs) = supply_delta cs + issued o.
Proof.
  unfold u64_max, i128_max. intros Hn HB Hmax Hb.
  assert (Hr : ∀ a n, Z.abs n ≤ 2 ^ 64 - 1 → i128_min ≤ delta_of cs a + n ≤ i128_max).
  { intros a n Hz. specialize (Hb a). unfold i128_min, i128_max. lia. }
  destruct o as [f t n|t n|f n|p m|d n]; cbn [run_op net issued op_amount] in *.
  - destruct (update_moves cs f (debit n) (- n) (debit_moves n)) as [H1 H2]; [apply Hr; lia|].
    destruct (update_moves (update_owner_delta f (debit n) cs) t (credit n) n (credit_moves n))
      as [H3 H4].
    { rewrite H1. unfold at_. specialize (Hb t). unfold i128_min, i128_max. case_decide; lia. }
    unfold transfer. split; [intros a; rewrite H3, H1; unfold at_; repeat case_decide; lia|].
    rewrite H4, H2. lia.
  - apply (update_moves cs t (credit n) n (credit_moves n)), Hr. lia.
  - destruct (update_moves cs f (debit n) (- n) (debit_moves n)) as [H1 H2]; [apply Hr; lia|].
    unfold burn. split; [intros a; rewrite H1; unfold at_; case_decide; lia|exact H2].
  - unfold publish_module. split.
    + intros a. rewrite delta_of_update. case_decide as Ha; [subst a|lia].
      cbn [balance_delta add_module]. rewrite delta_default. lia.
    + unfold update_owner_delta. rewrite supply_delta_insert. cbn [balance_delta add_module].
      rewrite delta_default. lia.
  - unfold collect_gas. setoid_rewrite credits_delta. rewrite credits_supply.
    apply (update_moves cs d (credit n) n (credit_moves n)), Hr. lia.
Qed.

Lemma build_snoc ops o : build (ops ++ [o]) = run_op o (build ops).
Proof. unfold build. by rewrite fold_left_app. Qed.

Lemma net_bound a o : 0 ≤ op_amount o ≤ u64_max → Z.abs (net a o) ≤ 2 ^ 64.
Proof. unfold u64_max. destruct o; cbn [net op_amount]; unfold at_; repeat case_decide; lia. Qed.

(** The balance delta a change set records for an address is exactly the
    credits minus the debits of the operations that built it, and the deltas
    add up to what was minted and collected less what was burned; transfers and
    publications leave the sum alone.  The [i128] accumulators cannot wrap
    before 2^62 operations. *)
Theorem building_is_accounted ops :
  Forall (λ o, 0 ≤ op_amount o ≤ u64_max) ops → Z.of_nat (length ops) ≤ 2 ^ 62 →
  (∀ a, delta_of (build ops) a = zsum (map (net a) ops))
  ∧ supply_delta (build ops) = zsum (map issued ops).
Proof.
  intros Hops Hlen.
  cut ((∀ a, delta_of (build ops) a = zsum (map (net a) ops)
             ∧ Z.abs (delta_of (build ops) a) ≤ 2 ^ 64 * Z.of_nat (length ops))
       ∧ supply_delta (build ops) = zsum (map issued ops)).
  { intros [H1 H2]. split; [intros a; apply H1|exact H2]. }
  induction ops as [|o ops IH] using rev_ind; [done|].
  rewrite length_app in Hlen |- *. cbn [length] in *.
  apply Forall_app in Hops as [Hops [Ho _]%Forall_cons].
  destruct IH as [IH1 IH2]; [done|lia|].
  destruct (run_op_moves o (build ops) (2 ^ 64 * Z.of_nat (length ops))) as [H1 H2];
    [done|lia|unfold i128_max; lia|intros a; apply IH1|].
  rewrite build_snoc, !map_app, H2, IH2, zsum_app. cbn [map]. rewrite !zsum_cons. change (zsum []) with 0. split; [|lia].
  intros a. destruct (IH1 a) as [E1 E2]. rewrite H1, map_app, zsum_app. cbn [map]. rewrite !zsum_cons. change (zsum []) with 0.
  split; [rewrite E1; lia|]. pose proof (net_bound a o Ho). lia.
Qed.

(** ** Merging is a monoid *)

Section UpsertMonoid.
Context {V : Type} (f : bytes → option V → V → V) (ok : bytes → V → Prop).
Hypothesis f_assoc : ∀ k (x : option V) y z,
  (∀ v, x = Some v → ok k v) → ok k y → ok k z → f k (Some (f k x y)) z = f k x (f k (Some y) z).
Hypothesis f_unit : ∀ k y, ok k y → f k None y = y.

Lemma upsert_assoc (a b c : gmap bytes V) :
  map_Forall ok a → map_Forall ok b → map_Forall ok c →
  upsert_all f (upsert_all f a (btree_iter b)) (btree_iter c)
  = upsert_all f a (btree_iter (upsert_all f b (btree_iter c))).
Proof.
  intros Ha Hb Hc. apply map_eq. intros k. rewrite !upsert_btree.
  destruct (c !! k) as [z|] eqn:Ez; destruct (b !! k) as [y|] eqn:Ey; [|..|done|done].
  - f_equal. apply f_assoc; [intros v E; by eapply Ha|by eapply Hb|by eapply Hc].
  - by rewrite f_unit by (by eapply Hc).
Qed.

Lemma upsert_left_id (b : gmap bytes V) : map_Forall ok b → upsert_all f ∅ (btree_iter b) = b.
Proof.
  intros Hb. apply map_eq. intros k. rewrite upsert_btree, lookup_empty.
  destruct (b !! k) as [y|] eqn:Ey; [|done]. by rewrite f_unit by (by eapply Hb).
Qed.
End UpsertMonoid.

Lemma upsert_right_id {V W} (f : bytes → option V → W → V) (a : gmap bytes V) :
  upsert_all f a (btree_iter ∅) = a.
Proof. apply map_eq. intros k. by rewrite upsert_btree, lookup_empty. Qed.

(** Balances: an association list with one entry per pair. *)
Local Abbreviation balances := (list (bytes * bytes * BalanceRecord)).
Definition balance_range (e : bytes * bytes * BalanceRecord) : Prop :=
  0 ≤ balance_value e.2 ≤ u64_max.
#[export] Instance balance_range_dec e : Decision (balance_range e).
Proof. unfold balance_range. apply _. Defined.
Definition balances_ok (l : balances) : Prop := NoDup (map fst l) ∧ Forall balance_range l.

Lemma saturating_assoc a b c : 0 ≤ a → 0 ≤ b → 0 ≤ c →
  saturating_add (saturating_add a b) c = saturating_add a (saturating_add b c).
Proof. unfold saturating_add, u64_max. lia. Qed.

Lemma pair_eqb_spec (o t o' t' : bytes) :
  bool_decide (o' = o) && bool_decide (t' = t) = bool_decide ((o', t') = (o, t)).
Proof. apply eq_bool_prop_intro. rewrite andb_True, !bool_decide_spec. naive_solver. Qed.

Lemma add_balance_keys o t n (l : balances) k :
  k ∈ map fst (add_balance o t n l) ↔ k = (o, t) ∨ k ∈ map fst l.
Proof.
  induction l as [|[[o' t'] b] l IH]; cbn [add_balance map fst].
  - rewrite list_elem_of_singleton, elem_of_nil. naive_solver.
  - case_bool_decide as H1; cbn [andb]; [case_bool_decide as H2|]; cbn [map fst];
      rewrite ?elem_of_cons, ?IH; subst; naive_solver.
Qed.

Lemma add_balance_range o t n (l : balances) :
  0 ≤ n ≤ u64_max → Forall balance_range l → Forall balance_range (add_balance o t n l).
Proof.
  intros Hn. induction l as [|[[o' t'] b] l IH]; intros Hr; cbn [add_balance].
  - apply Forall_singleton, Hn.
  - apply Forall_cons in Hr as [Hb Hr]. case_match; constructor; auto.
    unfold balance_range, saturating_add in *. cbn [snd balance_value] in *. lia.
Qed.

Lemma add_balance_NoDup o t n (l : balances) : NoDup (map fst l) → NoDup (map fst (add_balance o t n l)).
Proof.
  induction l as [|[[o' t'] b] l IH]; intros Hd; cbn [add_balance]; [apply NoDup_singleton|].
  cbn [map fst] in Hd. apply NoDup_cons in Hd as [Hk Hd]. rewrite pair_eqb_spec.
  case_bool_decide as E; cbn [map fst]; constructor; auto.
  rewrite add_balance_keys. naive_solver.
Qed.

Lemma merge_balance_ok e (l : balances) : balance_range e → balances_ok l → balances_ok (merge_balance l e).
Proof. intros He [Hd Hr]. split; [by apply add_balance_NoDup|by apply add_balance_range]. Qed.

(** Two additions to one pair are one; additions to different pairs commute
    when the pair that moves back is there already. *)
Lemma add_balance_twice o t n m (l : balances) :
  0 ≤ n → 0 ≤ m → Forall balance_range l →
  add_balance o t m (add_balance o t n l) = add_balance o t (saturating_add n m) l.
Proof.
  intros Hn Hm. induction l as [|[[o' t'] b] l IH]; intros Hr.
  - cbn [add_balance]. by rewrite !bool_decide_true.
  - apply Forall_cons in Hr as [Hb Hr]. cbn [add_balance].
    destruct (bool_decide (o' = o) && bool_decide (t' = t)) eqn:E; cbn [add_balance]; rewrite E.
    + unfold balance_range in Hb. cbn [snd balance_value] in *. by rewrite saturating_assoc by lia.
    + by rewrite IH.
Qed.

Lemma add_balance_comm o t n o' t' m (l : balances) :
  (o, t) ≠ (o', t') → (o, t) ∈ map fst l →
  add_balance o t n (add_balance o' t' m l) = add_balance o' t' m (add_balance o t n l).
Proof.
  intros Hne. induction l as [|[[p q] b] l IH]; [by intros ?%elem_of_nil|].
  cbn [map fst]. rewrite elem_of_cons. intros Hin. cbn [add_balance]. rewrite !pair_eqb_spec.
  repeat case_bool_decide; cbn [add_balance]; rewrite ?pair_eqb_spec;
    repeat case_bool_decide; try congruence.
  by rewrite IH by naive_solver.
Qed.

Lemma merge_balance_swap (b x : balances) e :
  e.1 ∈ map fst x → e.1 ∉ map fst b →
  merge_balance (foldl merge_balance x b) e = foldl merge_balance (merge_balance x e) b.
Proof.
  destruct e as [[o t] v]. cbn [fst]. revert x. induction b as [|[[o' t'] w] b IH]; intros x Hx Hb; [done|].
  cbn [map fst] in Hb. rewrite not_elem_of_cons in Hb. destruct Hb as [Hne Hb]. cbn [foldl].
  rewrite IH; [|unfold merge_balance; cbn [fst]; apply add_balance_keys; by right|done].
  f_equal. unfold merge_balance. cbn [fst snd]. by apply add_balance_comm.
Qed.

Lemma merge_balance_push (b a : balances) e :
  balances_ok b → balance_range e → Forall balance_range a →
  merge_balance (foldl merge_balance a b) e = foldl merge_balance a (merge_balance b e).
Proof.
  destruct e as [[o t] [v]]. intros Hb He. revert a. induction b as [|[[o' t'] [w]] b IH]; intros a Ha; [done|].
  destruct Hb as [Hd Hr]. cbn [map fst] in Hd. apply NoDup_cons in Hd as [Hk Hd].
  apply Forall_cons in Hr as [Hw Hr]. unfold balance_range in He, Hw. cbn [snd balance_value] in He, Hw.
  unfold merge_balance at 4. cbn [fst snd balance_value add_balance]. rewrite pair_eqb_spec.
  case_bool_decide as E.
  - injection E as -> ->. cbn [foldl]. rewrite merge_balance_swap; [|apply add_balance_keys; by left|done].
    f_equal. unfold merge_balance. cbn [fst snd balance_value]. by apply add_balance_twice; [lia|lia|].
  - cbn [foldl]. rewrite IH; [done|done|]. by apply add_balance_range.
Qed.

Lemma merge_balance_assoc (c b a : balances) :
  balances_ok b → Forall balance_range c → Forall balance_range a →
  foldl merge_balance (foldl merge_balance a b) c = foldl merge_balance a (foldl merge_balance b c).
Proof.
  revert b. induction c as [|e c IH]; intros b Hb Hc Ha; [done|]. apply Forall_cons in Hc as [He Hc].
  cbn [foldl]. rewrite merge_balance_push by done. apply IH; [by apply merge_balance_ok|done|done].
Qed.

Lemma add_balance_fresh o t n (l : balances) :
  (o, t) ∉ map fst l → add_balance o t n l = l ++ [(o, t, {| balance_value := n |})].
Proof.
  induction l as [|[[o' t'] b] l IH]; [done|]. cbn [map fst add_balance].
  rewrite not_elem_of_cons. intros [Hne Hl]. rewrite pair_eqb_spec.
  rewrite bool_decide_false by congruence. by rewrite IH.
Qed.

Lemma merge_balance_left_id (b : balances) :
  NoDup (map fst b) → foldl merge_balance [] b = b.
Proof.
  induction b as [|[[o t] [n]] b IH] using rev_ind; [done|]. intros Hd.
  rewrite map_app, NoDup_app in Hd. destruct Hd as (Hd & Hx & _).
  rewrite foldl_app, IH by done. cbn [foldl]. unfold merge_balance. cbn [fst snd balance_value].
  apply add_balance_fresh. intros Hin. apply (Hx _ Hin). by left.
Qed.

(** ** The monoid *)

Record mergeable (c : ChangeSet) : Prop := {
  deltas_ok : map_Forall (λ a d, delta_address d = a ∧ Z.abs (balance_delta d) ≤ 2 ^ 125) (owner_deltas c);
  credits_ok : map_Forall (λ _ n, 0 ≤ n ≤ u64_max) (native_gas_credits c);
  token_balances_ok : balances_ok (token_balance_sets c);
  gas_ok : 0 ≤ cs_gas_used c ≤ u64_max;
  error_ok : success c = true → cs_error_message c = None
}.

Lemma i128_saturating_id a b :
  Z.abs a + Z.abs b < 2 ^ 127 → i128_saturating_add a b = a + b.
Proof. unfold i128_saturating_add, i128_min, i128_max. lia. Qed.

Lemma merge_delta_assoc k (x : option OwnerDelta) y z :
  (∀ v, x = Some v → delta_address v = k ∧ Z.abs (balance_delta v) ≤ 2 ^ 125) →
  delta_address y = k ∧ Z.abs (balance_delta y) ≤ 2 ^ 125 →
  delta_address z = k ∧ Z.abs (balance_delta z) ≤ 2 ^ 125 →
  merge_delta k (Some (merge_delta k x y)) z = merge_delta k x (merge_delta k (Some y) z).
Proof.
  intros Hx [_ Hy] [_ Hz].
  assert (Hd : Z.abs (balance_delta (default (delta_new k) x)) ≤ 2 ^ 125).
  { destruct x as [v|]; [by apply (Hx v)|cbn; lia]. }
  unfold merge_delta. cbn [default from_option id delta_address balance_delta modules_added].
  rewrite (i128_saturating_id _ (balance_delta y)), (i128_saturating_id (balance_delta y)) by lia.
  rewrite !i128_saturating_id by lia. f_equal; [lia|set_solver].
Qed.

Lemma merge_delta_unit k y :
  delta_address y = k ∧ Z.abs (balance_delta y) ≤ 2 ^ 125 → merge_delta k None y = y.
Proof.
  destruct y as [a d m]. intros [Ha Hd]. cbn [delta_address balance_delta] in *. subst a.
  unfold merge_delta. cbn [default from_option id delta_new delta_address balance_delta modules_added].
  rewrite i128_saturating_id by lia. f_equal. set_solver.
Qed.

Lemma merge_credit_assoc (k : bytes) (x : option Z) y z :
  (∀ v, x = Some v → 0 ≤ v ≤ u64_max) → 0 ≤ y ≤ u64_max → 0 ≤ z ≤ u64_max →
  merge_credit k (Some (merge_credit k x y)) z = merge_credit k x (merge_credit k (Some y) z).
Proof.
  intros Hx Hy Hz. unfold merge_credit. cbn [default from_option id]. apply saturating_assoc; [|lia|lia].
  destruct x as [v|]; [by apply (Hx v)|done].
Qed.
Lemma merge_credit_unit (k : bytes) y : 0 ≤ y ≤ u64_max → merge_credit k None y = y.
Proof. unfold merge_credit, saturating_add. cbn. lia. Qed.
Lemma merge_write_assoc k (x : option (option bytes)) y z :
  (∀ v, x = Some v → True) → True → True →
  merge_write k (Some (merge_write k x y)) z = merge_write k x (merge_write k (Some y) z).
Proof. done. Qed.
Lemma merge_write_unit k y : True → merge_write k None y = y.
Proof. done. Qed.

(** merging change sets is associative, and the empty change set is its
    identity on both sides: a batch may be merged in any grouping.  Balances of
    up to 2^125 and [u64] credits stay clear of the saturating additions. *)
Theorem merge_monoid a b c :
  mergeable a → mergeable b → mergeable c →
  merge_from (merge a b) c = merge a (merge_from b c)
  ∧ merge changeset_new a = a ∧ merge a changeset_new = a.
Proof.
  intros Ha Hb Hc. unfold merge_from. split_and!.
  - pose proof (upsert_assoc merge_delta _ merge_delta_assoc merge_delta_unit _ _ _
      (deltas_ok a Ha) (deltas_ok b Hb) (deltas_ok c Hc)) as H1.
    pose proof (upsert_assoc merge_credit _ merge_credit_assoc merge_credit_unit _ _ _
      (credits_ok a Ha) (credits_ok b Hb) (credits_ok c Hc)) as H2.
    pose proof (upsert_assoc merge_write (λ _ _, True) merge_write_assoc merge_write_unit
      (move_writes a) (move_writes b) (move_writes c)
      (λ _ _ _, I) (λ _ _ _, I) (λ _ _ _, I)) as H3.
    pose proof (merge_balance_assoc (token_balance_sets c) _ _ (token_balances_ok b Hb)
      (proj2 (token_balances_ok c Hc)) (proj2 (token_balances_ok a Ha))) as H4.
    pose proof (saturating_assoc (cs_gas_used a) (cs_gas_used b) (cs_gas_used c)) as H5.
    destruct (gas_ok a Ha), (gas_ok b Hb), (gas_ok c Hc).
    unfold merge. cbn. rewrite H1, H2, H3, H4, H5, !app_assoc, (assoc_L (∪)) by done.
    by destruct (cs_gas_payment a), (success b), (success c).
  - unfold merge. cbn. rewrite (upsert_left_id _ _ merge_delta_unit _ (deltas_ok a Ha)).
    rewrite (upsert_left_id _ _ merge_credit_unit _ (credits_ok a Ha)).
    rewrite (upsert_left_id _ (λ _ _, True) merge_write_unit _ (λ _ _ _, I)).
    rewrite (merge_balance_left_id _ (proj1 (token_balances_ok a Ha))), (left_id_L ∅ (∪)).
    pose proof (gas_ok a Ha) as Hg. pose proof (error_ok a Ha) as He.
    unfold saturating_add. rewrite Z.min_l, Z.add_0_l by lia.
    assert (E1 : (if success a then true else false) = success a) by (by destruct (success a)).
    assert (E2 : (if success a then None else cs_error_message a) = cs_error_message a).
    { destruct (success a); [by rewrite He|done]. }
    rewrite E1, E2. by destruct a.
  - unfold merge. cbn. rewrite !upsert_right_id, !app_nil_r, (right_id_L ∅ (∪)).
    pose proof (gas_ok a Ha) as Hg. unfold saturating_add. rewrite Z.min_l, Z.add_0_r by lia.
    assert (E : match cs_gas_payment a with Some p => Some p | None => None end = cs_gas_payment a)
      by (by destruct (cs_gas_payment a)).
    rewrite E. by destruct a.
Qed.

(** ** Effects *)

Lemma of_kind_partition (l : list ObjectChange) :
  l ≡ₚ of_kind Created l ++ of_kind Mutated l ++ of_kind Deleted l ++ of_kind Transferred l.
Proof.
  induction l as [|c l IH]; [done|]. unfold of_kind in *.
  destruct (change_type c) eqn:E;
    repeat first [rewrite filter_cons_True by done | rewrite filter_cons_False by congruence];
    rewrite IH at 1; solve_Permutation.
Qed.

Definition edge_le (a b : ObjectGraphEdge) : Prop := edge_leb a b = true.

Lemma edge_le_total a b : edge_leb a b = false → edge_le b a.
Proof.
  assert (H : ∀ x y, bytes_leb x y = false → bytes_leb y x = true).
  { intros x y E. destruct (bytes_le_total x y) as [H|H]; [unfold bytes_le in H; congruence|exact H]. }
  unfold edge_le, edge_leb. intros E. repeat case_decide; try congruence; by apply H.
Qed.

Lemma lex_step (s1 s2 s3 : bytes) (b12 b23 b13 : bool) :
  (b12 = true → b23 = true → b13 = true) →
  (if decide (s1 = s2) then b12 else bytes_leb s1 s2) = true →
  (if decide (s2 = s3) then b23 else bytes_leb s2 s3) = true →
  (if decide (s1 = s3) then b13 else bytes_leb s1 s3) = true.
Proof.
  intros Hb. destruct (decide (s1 = s2)) as [->|H12]; [destruct (decide (s2 = s3)); auto|].
  destruct (decide (s2 = s3)) as [->|H23]; [by rewrite decide_False|]. intros H1 H2.
  destruct (decide (s1 = s3)) as [->|H13]; [|by apply (bytes_le_trans s1 s2 s3)].
  destruct H12. by apply (anti_symm bytes_le).
Qed.

Lemma edge_le_trans : Transitive edge_le.
Proof.
  intros a b c. unfold edge_le, edge_leb. cbn zeta. apply lex_step, lex_step, bytes_le_trans.
Qed.

Lemma insert_edge_perm x l : insert_edge x l ≡ₚ x :: l.
Proof.
  induction l as [|y l IH]; [done|]. cbn [insert_edge]. case_match; [done|].
  rewrite IH. apply Permutation_swap.
Qed.
Lemma sort_edges_perm l : sort_edges l ≡ₚ l.
Proof. induction l as [|x l IH]; [done|]. cbn [sort_edges foldr]. by rewrite insert_edge_perm, IH. Qed.

Lemma insert_edge_sorted x l : StronglySorted edge_le l → StronglySorted edge_le (insert_edge x l).
Proof.
  induction 1 as [|y l Hl IH Hy]; cbn [insert_edge]; [by repeat constructor|].
  destruct (edge_leb x y) eqn:E; constructor; [by constructor|..|done|].
  - constructor; [done|]. eapply Forall_impl; [exact Hy|]. intros z Hz. by eapply edge_le_trans.
  - rewrite insert_edge_perm. constructor; [by apply edge_le_total|done].
Qed.
Lemma sort_edges_sorted l : StronglySorted edge_le (sort_edges l).
Proof. induction l as [|x l IH]; [constructor|]. by apply insert_edge_sorted. Qed.

Lemma dedup_edges_elem l x : x ∈ dedup_edges l ↔ x ∈ l.
Proof.
  induction l as [|y [|z l] IH]; [done|done|].
  change (dedup_edges (y :: z :: l))
    with (if decide (y = z) then dedup_edges (z :: l) else y :: dedup_edges (z :: l)).
  case_decide as E; [subst z; rewrite IH, !elem_of_cons; naive_solver|].
  by rewrite !elem_of_cons, IH, elem_of_cons.
Qed.
Lemma dedup_edges_sorted l : StronglySorted edge_le l → StronglySorted edge_le (dedup_edges l).
Proof.
  induction l as [|y [|z l] IH]; [done|done|]. intros [Hs Hy]%StronglySorted_inv.
  change (dedup_edges (y :: z :: l))
    with (if decide (y = z) then dedup_edges (z :: l) else y :: dedup_edges (z :: l)).
  case_decide; [by apply IH|]. constructor; [by apply IH|].
  apply Forall_forall. intros x Hx.
  exact (proj1 (Forall_forall _ _) Hy x (proj1 (dedup_edges_elem _ _) Hx)).
Qed.

(** the effects reported for a change set classify every object change
    exactly once, and the causal edges are the edges of the changes and of the
    gas objects, in ascending order of source, target and relation. *)
Theorem effects_report {B3 : Blake3} {HX : Hex} payment cs :
  let e := effects payment cs in
  object_changes e ≡ₚ created e ++ mutated e ++ deleted e ++ transferred e
  ∧ (∀ k, Forall (λ c, change_type c = k) (of_kind k (object_changes e)))
  ∧ (∀ x, x ∈ causal_edges e ↔
        (∃ c, c ∈ object_changes_of cs ∧ x ∈ change_edges cs c) ∨ x ∈ gas_edges cs)
  ∧ StronglySorted edge_le (causal_edges e).
Proof.
  intros e. split_and!.
  - apply of_kind_partition.
  - intros k. apply Forall_forall. intros c Hc. by apply list_elem_of_filter in Hc as [? _].
  - intros x. cbn. rewrite dedup_edges_elem, sort_edges_perm. unfold pushed_edges.
    rewrite elem_of_app, list_elem_of_In, in_flat_map. setoid_rewrite <- list_elem_of_In. done.
  - apply dedup_edges_sorted, sort_edges_sorted.
Qed.

(** ** Concrete runs *)

Module Runs.
Import ToyHash RealHex.

Definition alice : bytes := replicate 32 10.
Definition bob : bytes := replicate 32 11.
Definition dao : bytes := replicate 32 12.
Definition ops : list builder_op :=
  [OpTransfer alice bob 70; OpBurn alice 5; OpCollectGas dao 3; OpPublish bob (str "m"); OpMint bob 9].

Lemma building_is_accounted_witness :
  (∀ a, delta_of (build ops) a = zsum (map (net a) ops))
  ∧ supply_delta (build ops) = zsum (map issued ops).
Proof.
  apply building_is_accounted; [|by vm_compute].
  repeat (constructor; [by split; vm_compute|]). constructor.
Defined.

Example accounted_values :
  map (delta_of (build ops)) [alice; bob; dao] = [-75; 79; 3] ∧ supply_delta (build ops) = 7.
Proof. by vm_compute. Qed.

Definition left_set : ChangeSet := add_token_balance_set alice (str "T") 4 (build ops).
Definition right_set : ChangeSet :=
  mark_failed (str "abort") (add_token_balance_set alice (str "T") 6 (build [OpMint alice 100])).

Lemma mergeable_new : mergeable changeset_new.
Proof.
  split; [done|done|split; [apply NoDup_nil_2|constructor]|by split; vm_compute|done].
Qed.

Lemma mergeable_sets : mergeable left_set ∧ mergeable right_set.
Proof.
  split; split; try (apply (bool_decide_eq_true_1 _); vm_compute; reflexivity);
    split; apply (bool_decide_eq_true_1 _); vm_compute; reflexivity.
Qed.

Lemma merge_monoid_witness :
  merge_from (merge left_set right_set) changeset_new = merge left_set (merge_from right_set changeset_new)
  ∧ merge changeset_new left_set = left_set ∧ merge left_set changeset_new = left_set.
Proof.
  exact (merge_monoid left_set right_set changeset_new (proj1 mergeable_sets) (proj2 mergeable_sets)
           mergeable_new).
Defined.

Definition object_set : ChangeSet :=
  add_deleted_object (str "0x0b")
    (add_created_object alice (str "T") [1; 2] 2 None None (Some (str "0x0a"))
      (add_created_object alice (str "C") [3] 0 None None (Some (str "0x0c"))
         (set_transaction_context
            [{| object_ref := {| object_id := str "0x0a"; version := Some 1; ref_digest := None |};
                input_owner := Some Shared; mutable := true |}] None changeset_new))).

Lemma effects_report_witness :
  object_changes (effects None object_set)
  ≡ₚ created (effects None object_set) ++ mutated (effects None object_set)
     ++ deleted (effects None object_set) ++ transferred (effects None object_set).
Proof. apply (effects_report None object_set). Defined.

Example effects_values :
  let e := effects None object_set in
  map (λ c, object_id (changed_ref c)) (created e) = [str "0xc"]
  ∧ map (λ c, object_id (changed_ref c)) (mutated e) = [str "0xa"]
  ∧ map (λ c, object_id (changed_ref c)) (deleted e) = [str "0xb"]
  ∧ length (causal_edges e) = 7%nat.
Proof. by vm_compute. Qed.
End Runs.
