(* ===== verification/ApplyBatch.v ===== *)
(** * Dependency-aware application: [kanari-core/src/engine.rs]

    The change sets of a checkpoint are cut into batches in which no two access
    sets conflict; a batch is merged and applied at once.  The state manager's
    [apply_changeset_without_supply_validation] is the section variable [apply].
    The environment variables that tune the scheduler are arguments. *)

From stdpp Require Import base list gmap strings.
From Stdlib Require Import ZArith Lia.
From S2P Require Import Prelude Order Hashing Text Address Transaction ChangeSet ChangeSetTheorems.

(** ** Definitions *)

(** [KANARI_DEPENDENCY_APPLY_BATCH_CAP], parsed *)
Definition dependency_apply_batch_cap (var : option nat) : nat :=
  match var with
  | Some v => if (0 <? v)%nat then v else N.to_nat 65536
  | None => N.to_nat 65536
  end.

(** [KANARI_DEPENDENCY_APPLY_SCHEDULER] *)
Definition dependency_apply_scheduler_enabled (var : option bytes) : bool :=
  match var with
  | Some v => negb (bool_decide (v ∈ [str "0"; str "false"; str "FALSE"; str "no"; str "NO"]))
  | None => true
  end.

Definition no_access : StateAccessSet := {| reads := ∅; writes := ∅ |}.
Definition extend_access_set (target source : StateAccessSet) : StateAccessSet :=
  {| reads := reads target ∪ reads source; writes := writes target ∪ writes source |}.

Record batching := {
  batches : list (list nat);
  current : list nat;
  current_access : StateAccessSet
}.

Section Engine.
Context {B3 : Blake3} {HX : Hex}.

(** The body of the loop over [changesets.iter().enumerate()]. *)
Definition batch_step (cap : nat) (s : batching) (entry : nat * ChangeSet) : batching :=
  let '(index, changeset) := entry in
  let access := deterministic_access_set changeset in
  let batch_full := cap <=? length (current s) in
  let has_dependency := negb (list_empty (current s)) && conflicts_with access (current_access s) in
  let s :=
    if negb (list_empty (current s)) && (batch_full || has_dependency)
    then {| batches := batches s ++ [current s]; current := []; current_access := no_access |}
    else s in
  {| batches := batches s; current := current s ++ [index];
     current_access := extend_access_set (current_access s) access |}.

Definition enumerate {A} (l : list A) : list (nat * A) := zip (seq 0 (length l)) l.

Definition batch_loop (cap : nat) (changesets : list ChangeSet) : batching :=
  foldl (batch_step cap) {| batches := []; current := []; current_access := no_access |}
    (enumerate changesets).

Definition schedule_dependency_aware_apply_batches (enabled : bool) (cap : nat)
    (changesets : list ChangeSet) : list (list nat) :=
  match changesets with
  | [] => []
  | _ =>
      if negb enabled then [seq 0 (length changesets)] else
      let s := batch_loop cap changesets in
      if negb (list_empty (current s)) then batches s ++ [current s] else batches s
  end.

(** *** Application *)

Section Apply.
Context {State : Type} (apply : ChangeSet → st State unit).

(** [for index in indices { merged.merge_from(&changesets[*index]) }]; an
    index out of range panics, [None]. *)
Fixpoint merge_indices (changesets : list ChangeSet) (indices : list nat) (merged : ChangeSet) :
    option ChangeSet :=
  match indices with
  | [] => Some merged
  | i :: indices =>
      match changesets !! i with
      | Some c => merge_indices changesets indices (merge_from merged c)
      | None => None
      end
  end.

Definition index_panic : string := "index out of bounds".

Definition apply_changeset_batch_without_supply_validation (changesets : list ChangeSet)
    (indices : list nat) : st State unit :=
  match indices with
  | [] => mret tt
  | [index] =>
      match changesets !! index with Some c => apply c | None => st_lift (Err index_panic) end
  | _ =>
      match merge_indices changesets indices changeset_new with
      | Some merged => apply merged
      | None => st_lift (Err index_panic)
      end
  end.

Fixpoint apply_batches (changesets : list ChangeSet) (bs : list (list nat)) : st State unit :=
  match bs with
  | [] => mret tt
  | b :: bs =>
      apply_changeset_batch_without_supply_validation changesets b ≫= λ _, apply_batches changesets bs
  end.

Definition apply_dependency_aware_changesets_without_supply_validation (enabled : bool) (cap : nat)
    (changesets : list ChangeSet) : st State (nat * nat) :=
  let bs := schedule_dependency_aware_apply_batches enabled cap changesets in
  apply_batches changesets bs ≫= λ _, mret (length bs, length changesets).

Definition apply_single_changeset_batch_without_supply_validation (changesets : list ChangeSet) :
    st State (nat * nat) :=
  apply_changeset_batch_without_supply_validation changesets (seq 0 (length changesets)) ≫= λ _,
  mret (if list_empty changesets then 0 else 1, length changesets).
End Apply.
End Engine.

(** ** Batches are conflict-free *)

Lemma existsb_false_iff {A} (f : A → bool) l : existsb f l = false ↔ ∀ x, In x l → f x = false.
Proof.
  rewrite <- not_true_iff_false, existsb_exists. split; [|naive_solver congruence].
  intros H x Hx. destruct (f x) eqn:E; [|done]. destruct H. eauto.
Qed.

Lemma access_conflict_spec a b :
  conflicts_with a b = false ↔ writes a ## reads b ∧ writes a ## writes b ∧ writes b ## reads a.
Proof.
  unfold conflicts_with. rewrite orb_false_iff, !existsb_false_iff.
  setoid_rewrite <- list_elem_of_In. setoid_rewrite elem_of_elements.
  setoid_rewrite orb_false_iff. setoid_rewrite bool_decide_eq_false.
  rewrite !elem_of_disjoint. split.
  - intros [H1 H2]. split_and!; intros k Hk; [apply H1, Hk|apply H1, Hk|apply H2, Hk].
  - intros (H1 & H2 & H3). split; [intros k Hk; split|intros k Hk]; eauto.
Qed.

Lemma access_conflict_sym a b : conflicts_with a b = false → conflicts_with b a = false.
Proof. rewrite !access_conflict_spec. set_solver. Qed.

Section Batches.
Context {B3 : Blake3} {HX : Hex} (cap : nat) (changesets : list ChangeSet).
Hypothesis cap_pos : 0 < cap.
Local Abbreviation acc := deterministic_access_set.

(** No two members of a batch conflict. *)
Definition conflict_free (b : list nat) : Prop :=
  ∀ i j a c, i ∈ b → j ∈ b → i ≠ j → changesets !! i = Some a → changesets !! j = Some c →
  conflicts_with (acc a) (acc c) = false.

Record batch_ok (b : list nat) : Prop := {
  batch_nonempty : b ≠ [];
  batch_capped : length b ≤ cap;
  batch_clean : conflict_free b
}.

(** The accumulated access set covers exactly the members of the open batch. *)
Definition covers (s : batching) : Prop :=
  ∀ k, (k ∈ reads (current_access s) ↔
          ∃ i a, i ∈ current s ∧ changesets !! i = Some a ∧ k ∈ reads (acc a))
       ∧ (k ∈ writes (current_access s) ↔
          ∃ i a, i ∈ current s ∧ changesets !! i = Some a ∧ k ∈ writes (acc a)).

Record batching_inv (n : nat) (s : batching) : Prop := {
  inv_order : concat (batches s) ++ current s = seq 0 n;
  inv_closed : Forall batch_ok (batches s);
  inv_capped : length (current s) ≤ cap;
  inv_clean : conflict_free (current s);
  inv_covers : covers s
}.

Lemma covers_conflict s i a c :
  covers s → i ∈ current s → changesets !! i = Some a →
  conflicts_with (acc c) (current_access s) = false → conflicts_with (acc a) (acc c) = false.
Proof.
  intros Hs Hi Ha. rewrite !access_conflict_spec. intros (H1 & H2 & H3).
  assert (Hr : reads (acc a) ⊆ reads (current_access s)) by (intros k Hk; apply Hs; eauto).
  assert (Hw : writes (acc a) ⊆ writes (current_access s)) by (intros k Hk; apply Hs; eauto).
  rewrite elem_of_disjoint in H1, H2, H3. rewrite !elem_of_disjoint. split_and!; intros k Hk Hk'; eauto.
Qed.

Lemma covers_extend s n c bs :
  covers s → changesets !! n = Some c →
  covers {| batches := bs; current := current s ++ [n];
            current_access := extend_access_set (current_access s) (acc c) |}.
Proof.
  intros Hs Hc k. destruct (Hs k) as [H1 H2]. cbn [current current_access extend_access_set reads writes].
  setoid_rewrite elem_of_app. setoid_rewrite list_elem_of_singleton. rewrite !elem_of_union, H1, H2.
  split; split; try (intros [(i & a & ? & ? & ?)|?]; eauto 10);
    intros (i & a & [?| ->] & ? & ?); [eauto 10|right; congruence|eauto 10|right; congruence].
Qed.

Lemma clean_extend s n c :
  covers s → conflict_free (current s) → changesets !! n = Some c →
  conflicts_with (acc c) (current_access s) = false → conflict_free (current s ++ [n]).
Proof.
  intros Hs Hf Hc Hno i j a b. rewrite !elem_of_app, !list_elem_of_singleton.
  intros [Hi| ->] [Hj| ->] Hne Ha Hb; [exact (Hf i j a b Hi Hj Hne Ha Hb)|..|done].
  - replace b with c by congruence. exact (covers_conflict s i a c Hs Hi Ha Hno).
  - replace a with c by congruence. exact (access_conflict_sym _ _ (covers_conflict s j b c Hs Hj Hb Hno)).
Qed.

Definition closed_batch (s : batching) : batching :=
  {| batches := batches s ++ [current s]; current := []; current_access := no_access |}.

Lemma closed_inv n s : batching_inv n s → current s ≠ [] → batching_inv n (closed_batch s).
Proof.
  intros [Ho Hc Hcap Hf Hs] Hne. split; cbn [closed_batch batches current current_access].
  - by rewrite concat_app, app_nil_r, concat_cons, concat_nil, app_nil_r.
  - apply Forall_app. split; [done|]. by apply Forall_singleton.
  - cbn. lia.
  - intros i j a c Hi. by apply elem_of_nil in Hi.
  - intros k. cbn. split; (split; [by intros ?%elem_of_empty|]); intros (i & a & Hi & _);
      by apply elem_of_nil in Hi.
Qed.

Lemma batch_step_inv n s c :
  batching_inv n s → changesets !! n = Some c → batching_inv (S n) (batch_step cap s (n, c)).
Proof.
  intros Hinv Hc. unfold batch_step.
  set (s' := if _ && _ then _ else s).
  assert (H : batching_inv n s' ∧ length (current s') < cap
              ∧ (current s' = [] ∨ conflicts_with (acc c) (current_access s') = false)).
  { subst s'. destruct (current s) as [|i b] eqn:Eb.
    - cbn [list_empty negb andb]. rewrite Eb. cbn [length]. auto with lia.
    - cbn [list_empty negb andb]. destruct (Nat.leb_spec cap (length (i :: b))) as [Hl|Hl]; cbn [orb].
      + rewrite <- Eb. split_and!; [apply closed_inv; [done|by rewrite Eb]|done|by left].
      + destruct (conflicts_with (acc c) (current_access s)) eqn:E.
        * rewrite <- Eb. split_and!; [apply closed_inv; [done|by rewrite Eb]|done|by left].
        * rewrite Eb. auto. }
  destruct H as ([Ho Hcl Hcap Hf Hs] & Hlen & Hno). clearbody s'. split; cbn [batches current].
  - by rewrite app_assoc, Ho, seq_S.
  - done.
  - rewrite length_app. cbn. lia.
  - destruct Hno as [E|Hno]; [|by eapply clean_extend].
    rewrite E. intros i j a b Hi%list_elem_of_singleton Hj%list_elem_of_singleton. congruence.
  - by apply covers_extend.
Qed.

Lemma batch_fold_inv pre l s :
  changesets = pre ++ l → batching_inv (length pre) s →
  batching_inv (length changesets) (foldl (batch_step cap) s (zip (seq (length pre) (length l)) l)).
Proof.
  revert pre s. induction l as [|c l IH]; intros pre s E Hs.
  - rewrite E, app_nil_r. done.
  - cbn [length seq zip zip_with foldl].
    assert (Hc : changesets !! length pre = Some c) by (rewrite E; by apply list_lookup_middle).
    replace (S (length pre)) with (length (pre ++ [c])) by (rewrite length_app; cbn; lia).
    apply IH; [by rewrite <- app_assoc|].
    rewrite length_app, Nat.add_1_r. by apply batch_step_inv.
Qed.

Lemma batch_loop_inv : batching_inv (length changesets) (batch_loop cap changesets).
Proof.
  apply (batch_fold_inv []); [done|]. split; [done|constructor|cbn; lia| |].
  - intros i j a c Hi. by apply elem_of_nil in Hi.
  - intros k. cbn. split; (split; [by intros ?%elem_of_empty|]); intros (i & a & Hi & _);
      by apply elem_of_nil in Hi.
Qed.

Lemma schedule_ok :
  let bs := schedule_dependency_aware_apply_batches true cap changesets in
  concat bs = seq 0 (length changesets) ∧ Forall batch_ok bs.
Proof.
  cbn zeta. unfold schedule_dependency_aware_apply_batches. cbn [negb].
  destruct changesets as [|c l] eqn:E; [by split; [|constructor]|]. rewrite <- E.
  destruct batch_loop_inv as [Ho Hc Hcap Hf Hs].
  destruct (current (batch_loop cap changesets)) as [|i b] eqn:Eb; cbn [list_empty negb].
  - by rewrite app_nil_r in Ho.
  - rewrite concat_app, concat_cons, concat_nil, app_nil_r. split; [exact Ho|].
    apply Forall_app. split; [done|]. by apply Forall_singleton.
Qed.
End Batches.

(** ** Merging a batch loses no write *)

Lemma merge_indices_app {B3 : Blake3} css b1 b2 m :
  merge_indices css (b1 ++ b2) m = merge_indices css b1 m ≫= merge_indices css b2.
Proof.
  revert m. induction b1 as [|i b1 IH]; intros m; [done|]. cbn [app merge_indices].
  destruct (css !! i); [apply IH|done].
Qed.

Lemma move_write_access {B3 : Blake3} {HX : Hex} c k v :
  move_writes c !! k = Some v → k ∈ writes (deterministic_access_set c).
Proof.
  intros Hk. cbn [deterministic_access_set writes]. apply elem_of_list_to_set. unfold access_writes.
  do 11 (apply elem_of_app; right). apply elem_of_app. left.
  apply list_elem_of_fmap. exists (k, v). split; [done|].
  rewrite btree_iter_perm. by apply elem_of_map_to_list.
Qed.

Lemma merge_writes m c k :
  move_writes (merge_from m c) !! k = match move_writes c !! k with Some v => Some v | None => move_writes m !! k end.
Proof. unfold merge_from, merge. cbn [move_writes]. by rewrite upsert_btree. Qed.

Section Merged.
Context {B3 : Blake3} {HX : Hex} (css : list ChangeSet).

(** What [m] has merged from the members of [b]. *)
Definition keeps_writes (b : list nat) (m : ChangeSet) : Prop :=
  ∀ i c k v, i ∈ b → css !! i = Some c → move_writes c !! k = Some v → move_writes m !! k = Some v.

Lemma merge_indices_keeps b :
  Forall (λ i, i < length css) b → conflict_free css b →
  ∃ m, merge_indices css b changeset_new = Some m ∧ keeps_writes b m.
Proof.
  induction b as [|j b IH] using rev_ind; intros Hb Hf.
  - exists changeset_new. split; [done|]. intros i c k v Hi. by apply elem_of_nil in Hi.
  - apply Forall_app in Hb as [Hb [Hj _]%Forall_cons].
    destruct IH as (m & Em & Hm); [done| |].
    { intros i1 i2 a c H1 H2. apply Hf; apply elem_of_app; by left. }
    destruct (lookup_lt_is_Some_2 css j Hj) as [d Ed].
    exists (merge_from m d). rewrite merge_indices_app, Em. cbn [mbind option_bind merge_indices].
    rewrite Ed. split; [done|]. intros i c k v [Hi|Hi%list_elem_of_singleton]%elem_of_app Hc Hk;
      rewrite merge_writes.
    + destruct (decide (i = j)) as [->|Hne]; [simplify_eq; by rewrite Hk|].
      destruct (move_writes d !! k) as [w|] eqn:Ew; [|by eapply Hm].
      assert (Hno : conflicts_with (deterministic_access_set c) (deterministic_access_set d) = false).
      { eapply Hf; [apply elem_of_app; by left|apply elem_of_app; right; by left|done|done|done]. }
      apply access_conflict_spec in Hno as (_ & Hno & _).
      destruct (Hno k); eauto using move_write_access.
    + subst j. simplify_eq. by rewrite Hk.
Qed.
End Merged.

(** the dependency-aware scheduler keeps the order of the change sets,
    cuts them into batches of at most the cap, puts no two change sets whose
    access sets conflict into one batch, and every batch can be merged without
    losing a Move write of any of its members. *)
Theorem conflict_free_batches {B3 : Blake3} {HX : Hex} cap css :
  0 < cap →
  let bs := schedule_dependency_aware_apply_batches true cap css in
  concat bs = seq 0 (length css)
  ∧ Forall (batch_ok cap css) bs
  ∧ Forall (λ b, ∃ m, merge_indices css b changeset_new = Some m ∧ keeps_writes css b m) bs.
Proof.
  intros Hcap bs. destruct (schedule_ok cap css Hcap) as [Ho Hb]. fold bs in Ho, Hb.
  split_and!; [exact Ho|exact Hb|].
  apply Forall_forall. intros b Hin. apply merge_indices_keeps.
  - apply Forall_forall. intros i Hi.
    assert (Hs : i ∈ concat bs) by (apply list_elem_of_In, in_concat; exists b; by rewrite <- !list_elem_of_In).
    rewrite Ho in Hs. apply elem_of_seq in Hs. lia.
  - exact (batch_clean _ _ _ (proj1 (Forall_forall _ _) Hb b Hin)).
Qed.

Module Runs.
Import ToyHash RealHex.

Definition write (k v : string) : ChangeSet := record_move_write (str k) (Some (str v)) changeset_new.
Definition css : list ChangeSet := [write "a" "1"; write "b" "2"; write "a" "3"; write "c" "4"].

Lemma conflict_free_batches_witness :
  concat (schedule_dependency_aware_apply_batches true 10 css) = seq 0 4.
Proof. apply (conflict_free_batches 10 css). lia. Defined.

Example batches_value : schedule_dependency_aware_apply_batches true 10 css = [[0; 1]; [2; 3]].
Proof. by vm_compute. Qed.
Example capped_value : schedule_dependency_aware_apply_batches true 1 css = [[0]; [1]; [2]; [3]].
Proof. by vm_compute. Qed.
End Runs.
