(* ===== verification/StateManager.v ===== *)
(** * The state manager: [kanari-move-runtime-v1/src/state.rs], [common/], and the
    in-memory backend of [storage/persistent_store.rs]

    An overlay of pending writes above a persistent store, typed records in BCS,
    sorted index lists, owner records, objects, and the versions on which
    optimistic execution is validated.  BCS and the parser of Move type names
    are third-party code: the classes [StateCodecs] and [TypeTags]. *)

From stdpp Require Import base list gmap strings sorting.
From Stdlib Require Import ZArith Lia.
From S2P Require Import Prelude Order Hashing Text Address GasCoin Transaction ChangeSet.

(** ** Third-party interfaces *)

(** [bcs::to_bytes] and [bcs::from_bytes] at one type. *)
Record Codec (T : Type) := {
  enc : T → bytes;
  dec : bytes → option T;
  storable : T → Prop;       (* the values of the Rust type *)
  dec_enc : ∀ v, storable v → dec (enc v) = Some v
}.
Arguments enc {T} c v.
Arguments dec {T} c b.
Arguments storable {T} c v.
Arguments dec_enc {T} c v.

Record OwnerState := {
  address : bytes;
  owner_nonce : Z;
  modules : gset bytes;
  token_balances : gmap bytes BalanceRecord
}.

Record StoredObject := {
  stored_id : bytes;
  stored_owner : bytes;
  stored_owner_kind : ObjectOwnerKind;
  type_name : bytes;
  stored_data : bytes;
  stored_version : Z
}.

Record ObjectLockedCoinRecord := {
  holder_object_id : bytes;
  holder_type : bytes;
  holder_owner : bytes;
  locked_token_type : bytes;
  amount : Z
}.

(** The BCS layout of Move's [CoinMetadata]. *)
Record ParsedCoinMetadata := {
  decimals : Z;
  meta_symbol : bytes;
  meta_name : bytes;
  meta_description : bytes;
  icon_url : option bytes      (* the first element of the Move option *)
}.

(** The values of the Rust types: strings are UTF-8, integers have 64 bits. *)
Definition is_str (b : bytes) : Prop := utf8_valid b = true.
Definition is_u64 (n : Z) : Prop := (0 ≤ n ≤ u64_max)%Z.
Record owner_ok (o : OwnerState) : Prop := {
  owner_ok_address : hash_ok (address o);
  owner_ok_nonce : is_u64 (owner_nonce o);
  owner_ok_modules : ∀ m, m ∈ modules o → is_str m;
  owner_ok_balances : map_Forall (λ t b, is_str t ∧ is_u64 (balance_value b)) (token_balances o)
}.
Record locked_ok (r : ObjectLockedCoinRecord) : Prop := {
  locked_ok_holder : is_str (holder_object_id r);
  locked_ok_type : is_str (holder_type r);
  locked_ok_owner : hash_ok (holder_owner r);
  locked_ok_token : is_str (locked_token_type r);
  locked_ok_amount : is_u64 (amount r)
}.

Class StateCodecs := {
  u64_codec : Codec Z;
  u32_codec : Codec Z;
  ids_codec : Codec (list bytes);            (* Vec<String> *)
  blob_codec : Codec bytes;                  (* Vec<u8> *)
  address_codec : Codec bytes;               (* AccountAddress *)
  supplies_codec : Codec (gmap bytes Z);     (* BTreeMap<String, u64> *)
  owner_codec : Codec OwnerState;
  object_codec : Codec StoredObject;
  cap_codec : Codec TreasuryCap;
  nft_codec : Codec NftCapRecord;
  locked_codec : Codec (list ObjectLockedCoinRecord);
  u8_codec : Codec Z;
  string_codec : Codec bytes;
  bool_codec : Codec bool;
  versions_codec : Codec (gmap bytes Z);     (* BTreeMap<Vec<u8>, u64> *)
  metadata_dec : bytes → option ParsedCoinMetadata;
  u64_storable : ∀ v, is_u64 v → storable u64_codec v;
  ids_storable : ∀ ids, Forall is_str ids → storable ids_codec ids;
  owner_storable : ∀ o, owner_ok o → storable owner_codec o;
  locked_storable : ∀ records, Forall locked_ok records → storable locked_codec records;
  bool_storable : ∀ b, storable bool_codec b
}.

(** Move type names as far as the sources look into them: a struct type has a
    module, a name and parameters; a parameter is shown with [format!("{}")]. *)
Inductive TypeTag := TStruct (shown : bytes) | TOther (shown : bytes).
Record StructTag := { tag_module : bytes; tag_name : bytes; type_params : list TypeTag }.
Class TypeTags := {
  struct_from_str : bytes → option StructTag;
  type_from_str : bytes → option TypeTag
}.

(** ** Constants and keys *)

Definition GAS_COIN : bytes := str "0x2::kanari::KANARI".
Definition COIN_MODULE : bytes := str "coin".
Definition COIN_STRUCT : bytes := str "Coin".
Definition TREASURY_CAP_STRUCT : bytes := str "TreasuryCap".
Definition BALANCE_MODULE : bytes := str "balance".
Definition BALANCE_STRUCT : bytes := str "Balance".
Definition CLOCK_MODULE : bytes := str "clock".
Definition CLOCK_STRUCT : bytes := str "Clock".
Definition DAO_ADDRESS : bytes :=
  str "0x7e669cf309e9761beb2083d12564895ccea1389f2851a479edcc0d1ad19e4350".

Definition SYSTEM_CLOCK_OBJECT_ID_KEY : bytes := str "system:clock_object_id".
Definition GENESIS_INITIALIZED_KEY : bytes := str "system:genesis_initialized".
Definition OWNER_INDEX_KEY : bytes := str "owner_index".
Definition LEGACY_ACCOUNT_INDEX_KEY : bytes := str "account_index".
Definition OBJECT_LOCKED_COIN_RECORDS_KEY : bytes := str "object_locked_coin_records".
Definition RUNTIME_STATE_SCHEMA_KEY : bytes := str "runtime:state_schema_version".
Definition RUNTIME_STATE_SCHEMA_VERSION : Z := 1.
Definition WALLET_SUPPLY_INDEX_VERSION_KEY : bytes := str "runtime:wallet_supply_index_version".
Definition WALLET_SUPPLY_INDEX_VERSION : Z := 1.
Definition ACCESS_VERSIONS_KEY : bytes := str "runtime:state_access_versions".
Definition ACCESS_VERSION_PREFIX : bytes := str "runtime:state_access_version:".
Definition UID_SIZE : nat := 32.
Definition U64_SIZE : nat := 8.

Definition metadata_key (prefix suffix : bytes) : bytes := prefix ++ suffix.
Definition object_key (id : bytes) : bytes := str "object:" ++ id.
Definition owned_objects_key (owner : bytes) : bytes := str "owned_objects:" ++ owner.
Definition owner_state_key (a : bytes) : bytes := str "account:" ++ a.
Definition supply_key (token_type : bytes) : bytes := str "supply:" ++ token_type.
Definition treasury_key (token_type : bytes) : bytes := str "treasury:" ++ token_type.

(** ** Owner records *)

Definition owner_new (a : bytes) : OwnerState :=
  {| address := a; owner_nonce := 0; modules := ∅; token_balances := ∅ |}.
Definition set_balances (b : gmap bytes BalanceRecord) (o : OwnerState) : OwnerState :=
  {| address := address o; owner_nonce := owner_nonce o; modules := modules o; token_balances := b |}.
Definition set_token_balance (token_type : bytes) (b : BalanceRecord) (o : OwnerState) : OwnerState :=
  set_balances (<[token_type := b]> (token_balances o)) o.
Definition set_token_balance_value (token_type : bytes) (n : Z) (o : OwnerState) : OwnerState :=
  if (n =? 0)%Z then set_balances (delete token_type (token_balances o)) o
  else set_token_balance token_type {| balance_value := n |} o.
Definition with_native_balance (a : bytes) (n : Z) : OwnerState :=
  if (0 <? n)%Z then set_token_balance GAS_COIN {| balance_value := n |} (owner_new a) else owner_new a.
Definition owner_add_module (name : bytes) (o : OwnerState) : OwnerState :=
  {| address := address o; owner_nonce := owner_nonce o; modules := modules o ∪ {[name]};
     token_balances := token_balances o |}.
Definition balance_in (b : gmap bytes BalanceRecord) (token_type : bytes) : Z :=
  match b !! token_type with Some r => balance_value r | None => 0 end.
Definition get_token_balance (o : OwnerState) (token_type : bytes) : Z :=
  balance_in (token_balances o) token_type.
Definition native_balance (o : OwnerState) : Z := get_token_balance o GAS_COIN.
Definition owner_is_empty (o : OwnerState) : bool :=
  bool_decide (modules o = ∅) && bool_decide (token_balances o = ∅).

(** ** The manager *)

Record StateManager := {
  store : gmap bytes bytes;               (* [PersistentStore], in memory *)
  overlay : gmap bytes (option bytes);
  total_supply : Z;
  global_token_supplies : gmap bytes Z;
  access_versions : gmap bytes Z;
  access_epoch : Z
}.
Abbreviation sm := (st StateManager).

Definition set_overlay (v : gmap bytes (option bytes)) (s : StateManager) : StateManager :=
  {| store := store s; overlay := v; total_supply := total_supply s;
     global_token_supplies := global_token_supplies s; access_versions := access_versions s;
     access_epoch := access_epoch s |}.
Definition set_total_supply (v : Z) (s : StateManager) : StateManager :=
  {| store := store s; overlay := overlay s; total_supply := v;
     global_token_supplies := global_token_supplies s; access_versions := access_versions s;
     access_epoch := access_epoch s |}.
Definition set_supplies (v : gmap bytes Z) (s : StateManager) : StateManager :=
  {| store := store s; overlay := overlay s; total_supply := total_supply s;
     global_token_supplies := v; access_versions := access_versions s; access_epoch := access_epoch s |}.
Definition set_versions (v : gmap bytes Z) (e : Z) (s : StateManager) : StateManager :=
  {| store := store s; overlay := overlay s; total_supply := total_supply s;
     global_token_supplies := global_token_supplies s; access_versions := v; access_epoch := e |}.

(** [overlay.insert(key, value)] *)
Definition put_overlay (key : bytes) (value : option bytes) (s : StateManager) : StateManager :=
  set_overlay (<[key := value]> (overlay s)) s.
Definition native_cached (s : StateManager) : Z := default 0%Z (global_token_supplies s !! GAS_COIN).

(** What a read of the key sees: the overlay, then the store. *)
Definition view (s : StateManager) (key : bytes) : option bytes :=
  match overlay s !! key with Some v => v | None => store s !! key end.

Definition decode {T} (c : Codec T) (b : bytes) : result T :=
  match dec c b with Some v => Ok v | None => Err "bcs" end.

Definition load_internal {T} (c : Codec T) (key : bytes) (s : StateManager) : result (option T) :=
  match view s key with
  | Some b => let? v := decode c b in Ok (Some v)
  | None => Ok None
  end.

(** [PersistentStore::load] *)
Definition store_load {T} (c : Codec T) (key : bytes) (m : gmap bytes bytes) : result (option T) :=
  match m !! key with
  | Some b => let? v := decode c b in Ok (Some v)
  | None => Ok None
  end.

Definition save_internal {T} (c : Codec T) (key : bytes) (v : T) : sm unit :=
  st_modify (put_overlay key (Some (enc c v))).

(** A [&self] method inside a [&mut self] one. *)
Definition ask {A} (f : StateManager → result A) : sm A := λ s, (s, f s).

Definition require {A} (o : option A) (msg : string) : result A :=
  match o with Some a => Ok a | None => Err msg end.
Definition checked_sub (a b : Z) : option Z := if (b <=? a)%Z then Some (a - b)%Z else None.
(** [u64::try_from] of an [i128] or [u128] *)
Definition to_u64 (v : Z) : option Z := if ((0 <=? v) && (v <=? u64_max))%Z then Some v else None.

(** [for x in l { body(x)?; }] *)
Fixpoint for_each {S A} (l : list A) (body : A → st S unit) : st S unit :=
  match l with
  | [] => mret tt
  | x :: l => body x ≫= λ _, for_each l body
  end.

(** [try_fold] *)
Fixpoint try_fold {A B} (f : B → A → result B) (l : list A) (acc : B) : result B :=
  match l with
  | [] => Ok acc
  | x :: l => let? acc := f acc x in try_fold f l acc
  end.

Section Manager.
Context {B3 : Blake3} {HX : Hex} {SC : StateCodecs} {TT : TypeTags}.

(** *** Index lists *)

Definition load_index_list (key : bytes) (s : StateManager) : result (list bytes) :=
  let? ids := load_internal ids_codec key s in Ok (default [] ids).
Definition save_index_list (key : bytes) (ids : list bytes) : sm unit := save_internal ids_codec key ids.

(** [binary_search] on a sorted list: the first position whose element is not
    below the value, and whether the value is there. *)
Fixpoint binary_search (value : bytes) (l : list bytes) : bool * nat :=
  match l with
  | [] => (false, 0)
  | x :: l =>
      if decide (x = value) then (true, 0)
      else if bytes_leb value x then (false, 0)
      else let '(found, pos) := binary_search value l in (found, S pos)
  end.

Definition add_to_index_list (key value : bytes) : sm unit :=
  index ← ask (load_index_list key);
  match binary_search value index with
  | (true, _) => mret tt
  | (false, pos) => save_index_list key (take pos index ++ value :: drop pos index)
  end.

Definition remove_from_index_list (key value : bytes) : sm unit :=
  index ← ask (load_index_list key);
  match binary_search value index with
  | (false, _) => mret tt
  | (true, pos) => save_index_list key (take pos index ++ drop (S pos) index)
  end.

(** [collect::<BTreeSet<String>>()], then in order *)
Definition add_many_to_index_list (key : bytes) (values : list bytes) : sm unit :=
  match values with
  | [] => mret tt
  | _ =>
      existing ← ask (load_index_list key);
      if forallb (λ v, bool_decide (v ∈ existing)) values then mret tt
      else save_index_list key (sort_dedup (existing ++ values))
  end.

Definition try_get_all_collection_ids : StateManager → result (list bytes) :=
  load_index_list (str "nft_collection_index").
Definition try_get_collection_nft_ids (collection_id : bytes) : StateManager → result (list bytes) :=
  load_index_list (metadata_key (str "collection_members:") collection_id).

(** *** Coin objects *)

Definition is_coin (t : StructTag) : bool :=
  bool_decide (tag_module t = COIN_MODULE) && bool_decide (tag_name t = COIN_STRUCT).
Definition is_balance (t : StructTag) : bool :=
  bool_decide (tag_module t = BALANCE_MODULE) && bool_decide (tag_name t = BALANCE_STRUCT).
Definition is_balance_struct (t : StructTag) : bool := is_coin t || is_balance t.

Definition u64_from_le (b : bytes) : Z := foldr (λ x acc, x + 256 * acc)%Z 0%Z b.
Fixpoint u64_to_le (k : nat) (n : Z) : bytes :=
  match k with O => [] | S k => (n mod 256)%Z :: u64_to_le k (n / 256)%Z end.

Definition extract_balance_from_object_bytes (data : bytes) (t : StructTag) : option Z :=
  if is_coin t then
    if length data <? UID_SIZE + U64_SIZE then None
    else Some (u64_from_le (take U64_SIZE (drop UID_SIZE data)))
  else if is_balance t then
    if length data <? U64_SIZE then None
    else Some (u64_from_le (drop (length data - U64_SIZE) data))
  else None.

(** [None]: the function returned [false]. *)
Definition write_balance_to_object_bytes (data : bytes) (t : StructTag) (n : Z) : option bytes :=
  let b := u64_to_le U64_SIZE n in
  if is_coin t then
    if length data <? UID_SIZE + U64_SIZE then None
    else Some (take UID_SIZE data ++ b ++ drop (UID_SIZE + U64_SIZE) data)
  else if is_balance t then
    if length data <? U64_SIZE then None
    else Some (take (length data - U64_SIZE) data ++ b)
  else None.

Definition token_type_from_balance_struct (t : StructTag) : option bytes :=
  match type_params t with TStruct shown :: _ => Some shown | _ => None end.

Definition normalize_token_type (token_type : bytes) : bytes :=
  match type_from_str token_type with Some (TStruct shown) => shown | _ => token_type end.

Definition treasury_cap_token_supply (type_name data : bytes) : option (bytes * Z) :=
  t ← struct_from_str type_name;
  if negb (bool_decide (tag_module t = COIN_MODULE) && bool_decide (tag_name t = TREASURY_CAP_STRUCT))
  then None
  else
    token_type ← token_type_from_balance_struct t;
    if length data <? UID_SIZE + U64_SIZE then None
    else Some (normalize_token_type token_type, u64_from_le (take U64_SIZE (drop UID_SIZE data))).

Definition balance_token_amount (type_name data : bytes) : option (bytes * Z) :=
  t ← struct_from_str type_name;
  if negb (is_balance_struct t) then None
  else
    token_type ← token_type_from_balance_struct t;
    n ← extract_balance_from_object_bytes data t;
    Some (normalize_token_type token_type, n).

(** *** Access versions *)

Definition version_of (m : gmap bytes Z) (key : bytes) : Z := default 0%Z (m !! key).

Definition capture_access_versions (access : StateAccessSet) (s : StateManager) : gmap bytes Z :=
  set_to_map (λ key, (key, version_of (access_versions s) key)) (reads access ∪ writes access).
Definition access_version_snapshot (s : StateManager) : gmap bytes Z := access_versions s.

Definition validate_access_snapshot (snapshot : gmap bytes Z) (access : StateAccessSet)
    (s : StateManager) : bool :=
  forallb (λ key, (version_of snapshot key =? version_of (access_versions s) key)%Z)
    (elements (reads access) ++ elements (writes access)).

(** [persist]: [KANARI_PERSIST_ACCESS_VERSIONS] is not switched off. *)
Definition bump_version (persist : bool) (key : bytes) : sm unit := λ s,
  match checked_add (version_of (access_versions s) key) 1 with
  | None => (s, Err "State access version overflow")
  | Some next =>
      let s := set_versions (<[key := next]> (access_versions s)) (access_epoch s) s in
      if persist then save_internal u64_codec (ACCESS_VERSION_PREFIX ++ key) next s else (s, Ok tt)
  end.
Definition bump_epoch (access : StateAccessSet) : sm unit := λ s,
  if bool_decide (writes access = ∅) then (s, Ok tt) else
  match checked_add (access_epoch s) 1 with
  | None => (s, Err "State access epoch overflow")
  | Some e => (set_versions (access_versions s) e s, Ok tt)
  end.
Definition advance_access_versions (persist : bool) (access : StateAccessSet) : sm unit :=
  bump_epoch access ≫= λ _, for_each (sort_dedup (elements (writes access))) (bump_version persist).

(** *** Identifiers and objects *)

(** [common/ids.rs]; [trim] strips Unicode white space. *)
Definition canonical_object_id (id : bytes) : option bytes :=
  let trimmed := trim id in
  let accepted :=
    if starts_with (str "0x") trimmed || starts_with (str "0X") trimmed then
      let hex_part := drop 2 trimmed in
      negb (list_empty hex_part) && forallb is_ascii_hexdigit hex_part
    else forallb is_ascii_hexdigit trimmed in
  if accepted then MoveAddress.to_hex_literal <$> MoveAddress.from_hex_literal trimmed else None.

Definition object_id_from_bytes (b : bytes) : option bytes :=
  if length b <? 32 then None
  else let arr := take 32 b in
       if forallb (λ x, x =? 0)%Z arr then None else Some (MoveAddress.to_hex_literal arr).

Definition canonical_owned_object_id (id : bytes) : bytes := default id (canonical_object_id id).

Definition object_lookup_ids (id : bytes) : list bytes :=
  match canonical_object_id id with
  | Some c => if decide (c = id) then [id] else [id; c]
  | None => [id]
  end.

Fixpoint load_first_object (ids : list bytes) (s : StateManager) : result (option (bytes * StoredObject)) :=
  match ids with
  | [] => Ok None
  | id :: ids =>
      let? o := load_internal object_codec (object_key id) s in
      match o with Some stored => Ok (Some (id, stored)) | None => load_first_object ids s end
  end.
Definition load_stored_object_by_any_id (id : bytes) (s : StateManager) :
    result (option (bytes * StoredObject)) :=
  load_first_object (object_lookup_ids id) s.

Definition dynamic_field_key (id name : bytes) : bytes :=
  str "df:" ++ id ++ str ":" ++ hex_encode (take 16 (hash_data_blake3_array name)).

Definition get_owned_objects (owner : bytes) (s : StateManager) : result (list bytes) :=
  let? ids := load_internal ids_codec (owned_objects_key owner) s in
  Ok (sort_dedup (default [] ids)).

Definition get_object (id : bytes) (s : StateManager) : result (option CreatedObject) :=
  let? o := load_stored_object_by_any_id id s in
  match o with
  | None => Ok None
  | Some (sid, stored) =>
      let normalized := default sid (canonical_object_id sid) in
      let a := MoveAddress.from_hex_literal normalized in
      Ok (Some {| created_owner := stored_owner stored; owner_kind := stored_owner_kind stored;
                  uid := Build_UIDRecord <$> a; created_id := Build_IDRecord <$> a;
                  type_ := type_name stored; data := stored_data stored;
                  created_version := stored_version stored |})
  end.

Definition same_kind (a b : ObjectOwnerKind) : bool :=
  match a, b with
  | AddressOwner _, AddressOwner _ | Shared, Shared | Immutable, Immutable => true
  | _, _ => false
  end.
(** [if let Some(x) = filter && test { continue; }] *)
Definition passes {A} (filter : option A) (test : A → bool) : bool :=
  match filter with Some x => test x | None => true end.

Fixpoint query_loop (matches : CreatedObject → bool) (ids : list bytes) (s : StateManager) :
    result (list (bytes * CreatedObject)) :=
  match ids with
  | [] => Ok []
  | id :: ids =>
      let? found := get_object id s in
      let? object := require found "Object index references missing object" in
      let? rest := query_loop matches ids s in
      Ok (if matches object then (id, object) :: rest else rest)
  end.

Definition query_objects (owner : option bytes) (kind : option ObjectOwnerKind)
    (object_type : option bytes) (min_version max_version : option Z) (s : StateManager) :
    result (list (bytes * CreatedObject)) :=
  let? ids := load_index_list (str "object_index") s in
  query_loop (λ o,
    passes owner (λ w, bool_decide (created_owner o = w))
    && passes kind (λ k, same_kind k (owner_kind o))
    && passes object_type (λ t, bool_decide (type_ o = t))
    && passes min_version (λ v, v <=? created_version o)%Z
    && passes max_version (λ v, created_version o <=? v)%Z) ids s.

Definition get_objects_by_type (object_type : bytes) : StateManager → result (list (bytes * CreatedObject)) :=
  query_objects None None (Some object_type) None None.

Definition default_owner_kind_for_type (type_name owner : bytes) : ObjectOwnerKind :=
  if contains (str "::clock::Clock") type_name then Shared
  else if contains (str "::coin::CoinMetadata<") type_name then Immutable
  else AddressOwner (MoveAddress.to_hex_literal owner).

(** *** Owners *)

Definition load_owner_state (owner : bytes) (s : StateManager) : result (option OwnerState) :=
  load_internal owner_codec (owner_state_key owner) s.
Definition load_owner_state_or_default (owner : bytes) (s : StateManager) : result OwnerState :=
  let? o := load_owner_state owner s in Ok (default (owner_new owner) o).
Definition save_owner_record (o : OwnerState) : sm unit :=
  save_internal owner_codec (owner_state_key (address o)) o.

Definition load_owner_index_ids (s : StateManager) : result (list bytes) :=
  let? ids := load_index_list OWNER_INDEX_KEY s in
  match ids with [] => load_index_list LEGACY_ACCOUNT_INDEX_KEY s | _ => Ok ids end.

Fixpoint parse_addresses (ids : list bytes) : result (list bytes) :=
  match ids with
  | [] => Ok []
  | id :: ids =>
      let? a := require (MoveAddress.from_hex_literal id) "Owner index contains invalid address" in
      let? rest := parse_addresses ids in
      Ok (a :: rest)
  end.
Definition owner_addresses (s : StateManager) : result (list bytes) :=
  let? ids := load_owner_index_ids s in parse_addresses ids.
Definition try_owner_count (s : StateManager) : result nat :=
  let? ids := load_owner_index_ids s in Ok (length ids).

Definition save_owner_state_without_supply_index (o : OwnerState) : sm unit :=
  if owner_is_empty o then
    st_modify (put_overlay (owner_state_key (address o)) None) ≫= λ _,
    remove_from_index_list OWNER_INDEX_KEY (MoveAddress.to_hex_literal (address o))
  else
    save_owner_record o ≫= λ _,
    add_to_index_list OWNER_INDEX_KEY (MoveAddress.to_hex_literal (address o)).

Definition get_system_clock_object_id (s : StateManager) : result (option bytes) :=
  let? b := load_internal blob_codec SYSTEM_CLOCK_OBJECT_ID_KEY s in
  match b with
  | None => Ok None
  | Some b => let? a := require (MoveAddress.from_bytes b) "invalid address" in Ok (Some a)
  end.
Definition set_system_clock_object_id (id : bytes) : sm unit :=
  save_internal blob_codec SYSTEM_CLOCK_OBJECT_ID_KEY id.
End Manager.

(** ** A concrete codec

    Any injective encoding satisfies the laws: the code of a countable type. *)

Module ToyCodecs.
Definition unpack {T} `{Countable T} (b : bytes) : option T :=
  match b with [Zpos p] => countable.decode p | _ => None end.
Program Definition codec (T : Type) `{Countable T} : Codec T :=
  {| enc v := [Zpos (encode v)]; dec := unpack; storable _ := True |}.
Next Obligation. intros T ? ? v _. cbn. apply decode_encode. Qed.

#[export] Instance BalanceRecord_eq_dec : EqDecision BalanceRecord.
Proof. solve_decision. Defined.
#[export] Instance BalanceRecord_countable : Countable BalanceRecord :=
  inj_countable' balance_value Build_BalanceRecord (λ '(Build_BalanceRecord _), eq_refl).
#[export] Instance TreasuryCap_eq_dec : EqDecision TreasuryCap.
Proof. solve_decision. Defined.
#[export] Instance TreasuryCap_countable : Countable TreasuryCap :=
  inj_countable' ChangeSet.total_supply Build_TreasuryCap (λ '(Build_TreasuryCap _), eq_refl).
#[export] Instance UIDRecord_eq_dec : EqDecision UIDRecord.
Proof. solve_decision. Defined.
#[export] Instance UIDRecord_countable : Countable UIDRecord :=
  inj_countable' uid_addr Build_UIDRecord (λ '(Build_UIDRecord _), eq_refl).
#[export] Instance NftCapRecord_eq_dec : EqDecision NftCapRecord.
Proof. solve_decision. Defined.
#[export] Instance NftCapRecord_countable : Countable NftCapRecord :=
  inj_countable' (λ r, (nft_id r, remaining r, issued_counter r, collection_id r))
    (λ '(a, b, c, d), Build_NftCapRecord a b c d) (λ '(Build_NftCapRecord _ _ _ _), eq_refl).
#[export] Instance OwnerState_eq_dec : EqDecision OwnerState.
Proof. solve_decision. Defined.
#[export] Instance OwnerState_countable : Countable OwnerState :=
  inj_countable' (λ o, (address o, owner_nonce o, modules o, token_balances o))
    (λ '(a, b, c, d), Build_OwnerState a b c d) (λ '(Build_OwnerState _ _ _ _), eq_refl).
Definition kind_code (k : ObjectOwnerKind) : bytes + bool :=
  match k with AddressOwner a => inl a | Shared => inr true | Immutable => inr false end.
Definition code_kind (c : bytes + bool) : ObjectOwnerKind :=
  match c with inl a => AddressOwner a | inr true => Shared | inr false => Immutable end.
#[export] Instance ObjectOwnerKind_countable : Countable ObjectOwnerKind :=
  inj_countable' kind_code code_kind
    (λ k, match k with AddressOwner _ | Shared | Immutable => eq_refl end).
#[export] Instance StoredObject_eq_dec : EqDecision StoredObject.
Proof. solve_decision. Defined.
#[export] Instance StoredObject_countable : Countable StoredObject :=
  inj_countable' (λ o, (stored_id o, stored_owner o, stored_owner_kind o, type_name o, stored_data o, stored_version o))
    (λ '(a, b, c, d, e, f), Build_StoredObject a b c d e f) (λ '(Build_StoredObject _ _ _ _ _ _), eq_refl).
#[export] Instance Locked_eq_dec : EqDecision ObjectLockedCoinRecord.
Proof. solve_decision. Defined.
#[export] Instance Locked_countable : Countable ObjectLockedCoinRecord :=
  inj_countable' (λ r, (holder_object_id r, holder_type r, holder_owner r, locked_token_type r, amount r))
    (λ '(a, b, c, d, e), Build_ObjectLockedCoinRecord a b c d e)
    (λ '(Build_ObjectLockedCoinRecord _ _ _ _ _), eq_refl).

#[export] Instance toy_codecs : StateCodecs := {|
  u64_codec := codec Z; u32_codec := codec Z; ids_codec := codec (list bytes); blob_codec := codec bytes;
  address_codec := codec bytes; supplies_codec := codec (gmap bytes Z); owner_codec := codec OwnerState;
  object_codec := codec StoredObject; cap_codec := codec TreasuryCap; nft_codec := codec NftCapRecord;
  locked_codec := codec (list ObjectLockedCoinRecord); u8_codec := codec Z; string_codec := codec bytes; bool_codec := codec bool;
  versions_codec := codec (gmap bytes Z);
  metadata_dec _ := None;
  u64_storable _ _ := I; ids_storable _ _ := I; owner_storable _ _ := I; locked_storable _ _ := I;
  bool_storable _ := I
|}.

(** Coins of the native token under the name "coin" and an object "vault" that
    may hold coins; no other type parses. *)
#[export] Instance toy_types : TypeTags := {|
  struct_from_str n :=
    if decide (n = str "coin") then
      Some {| tag_module := COIN_MODULE; tag_name := COIN_STRUCT; type_params := [TStruct GAS_COIN] |}
    else if decide (n = str "vault") then
      Some {| tag_module := str "vault"; tag_name := str "Vault"; type_params := [] |}
    else None;
  type_from_str n := if decide (n = GAS_COIN) then Some (TStruct GAS_COIN) else None
|}.
End ToyCodecs.
