(* ===== verification/StateSupply.v ===== *)
(** * Token supplies: [kanari-move-runtime-v1/src/state/supply.rs]

    The wallet-visible supply cache, its recomputation from owner records and
    coin objects, the object-locked records, and the invariants that are checked
    after a change set and at start-up. *)

From stdpp Require Import base list gmap strings sorting.
From Stdlib Require Import ZArith Lia.
From S2P Require Import Prelude Order Hashing Text Address GasCoin Transaction ChangeSet StateManager.

Section Supply.
Context {B3 : Blake3} {HX : Hex} {SC : StateCodecs} {TT : TypeTags}.

(** [let e = map.entry(k).or_insert(0); *e = e.checked_add(n).require(msg)?] *)
Definition add_entry {K} `{Countable K} (m : gmap K Z) (k : K) (n : Z) (msg : string) : result (gmap K Z) :=
  let? v := require (checked_add (default 0%Z (m !! k)) n) msg in Ok (<[k := v]> m).

Definition dao_account_address : result bytes :=
  require (MoveAddress.from_hex_literal DAO_ADDRESS)
    "DAO_ADDRESS constant is not a valid Move account address".

(** *** Balances of an owner *)

Fixpoint owned_balances_loop (ids : list bytes) (seen : gset bytes) (aggregated : gmap bytes Z)
    (s : StateManager) : result (gmap bytes Z) :=
  match ids with
  | [] => Ok aggregated
  | id :: ids =>
      let canonical := default id (canonical_object_id id) in
      if bool_decide (canonical ∈ seen) then owned_balances_loop ids seen aggregated s else
      let seen := seen ∪ {[canonical]} in
      let? o := get_object id s in
      match o with
      | None => owned_balances_loop ids seen aggregated s
      | Some obj =>
          match balance_token_amount (type_ obj) (data obj) with
          | None => owned_balances_loop ids seen aggregated s
          | Some (token_type, n) =>
              let? aggregated := add_entry aggregated token_type n "Owned token balance overflow" in
              owned_balances_loop ids seen aggregated s
          end
      end
  end.
Definition compute_owned_token_balances (owner : bytes) (native_ledger_balance : option Z)
    (s : StateManager) : result (gmap bytes Z) :=
  let? ids := get_owned_objects owner s in
  let? aggregated := owned_balances_loop ids ∅ ∅ s in
  Ok (match native_ledger_balance with Some n => <[GAS_COIN := n]> aggregated | None => aggregated end).

Definition resolve_owner_token_balances (owner : bytes) (s : StateManager) : result (gmap bytes Z) :=
  let? o := load_owner_state owner s in
  let ledger :=
    match o with
    | Some o => if (0 <? native_balance o)%Z then Some (native_balance o) else None
    | None => None
    end in
  let? balances := compute_owned_token_balances owner ledger s in
  Ok (match o with
      | Some o =>
          if (0 <? native_balance o)%Z then
            match balances !! GAS_COIN with
            | Some _ => balances
            | None => <[GAS_COIN := native_balance o]> balances
            end
          else balances
      | None => balances
      end).
Definition resolve_owner_token_balance (owner token_type : bytes) (s : StateManager) : result Z :=
  let? balances := resolve_owner_token_balances owner s in
  Ok (default 0%Z (balances !! normalize_token_type token_type)).
Definition resolve_owner_native_balance (owner : bytes) : StateManager → result Z :=
  resolve_owner_token_balance owner GAS_COIN.

(** *** Issued and visible supply *)

Definition load_persisted_supply_from_store (token_type : bytes) (m : gmap bytes bytes) :
    result (option Z) :=
  let? cap := store_load cap_codec (supply_key token_type) m in
  match cap with
  | Some cap => Ok (Some (ChangeSet.total_supply cap))
  | None => store_load u64_codec (supply_key token_type) m
  end.

(** [load_internal(key).ok().flatten().is_some()] *)
Definition has_record {T} (c : Codec T) (key : bytes) (s : StateManager) : bool :=
  match load_internal c key s with Ok (Some _) => true | _ => false end.

Definition save_native_total_supply (n : Z) : sm unit :=
  st_modify (set_total_supply n) ≫= λ _,
  save_internal u64_codec (str "total_supply") n ≫= λ _,
  cap ← st_gets (has_record cap_codec (supply_key GAS_COIN));
  if (cap : bool) then save_internal cap_codec (supply_key GAS_COIN) {| ChangeSet.total_supply := n |}
  else
    plain ← st_gets (has_record u64_codec (supply_key GAS_COIN));
    if (plain : bool) then save_internal u64_codec (supply_key GAS_COIN) n else mret tt.

(** The treasury record of a token, in either of its two formats. *)
Definition persisted_supply (token_type : bytes) (s : StateManager) : result (option Z) :=
  let? cap := load_internal cap_codec (supply_key token_type) s in
  match cap with
  | Some cap => Ok (Some (ChangeSet.total_supply cap))
  | None => load_internal u64_codec (supply_key token_type) s
  end.

Definition issued_supply_for_token (token_type : bytes) (s : StateManager) : result Z :=
  if decide (token_type = GAS_COIN) then Ok (total_supply s) else
  let? p := persisted_supply token_type s in
  Ok (match p with Some n => n | None => default 0%Z (global_token_supplies s !! token_type) end).

(** The object balances of every token, per owner, over all indexed objects. *)
Fixpoint object_balances_loop (objects : list (bytes * CreatedObject))
    (acc : gset bytes * gmap (bytes * bytes) Z) : result (gset bytes * gmap (bytes * bytes) Z) :=
  match objects with
  | [] => Ok acc
  | (_, o) :: objects =>
      match balance_token_amount (type_ o) (data o) with
      | None => object_balances_loop objects acc
      | Some (token_type, n) =>
          let? balances := add_entry acc.2 (created_owner o, token_type) n
            "Wallet supply index owner balance overflow" in
          object_balances_loop objects (acc.1 ∪ {[created_owner o]}, balances)
      end
  end.

Definition native_ledger (owner : bytes) (s : StateManager) : result Z :=
  let? o := load_owner_state owner s in
  Ok (match o with Some o => native_balance o | None => 0%Z end).

(** [btree] order is immaterial: additions that overflow overflow in any order. *)
Definition token_totals (balances : gmap (bytes * bytes) Z) : result (gmap bytes Z) :=
  try_fold (λ totals '((_, t), n),
    if decide (t = GAS_COIN) then Ok totals
    else add_entry totals t n "Wallet supply index token total overflow")
    (map_to_list balances) ∅.
Definition native_totals (balances : gmap (bytes * bytes) Z) (owners : list bytes)
    (totals : gmap bytes Z) (s : StateManager) : result (gmap bytes Z) :=
  try_fold (λ totals owner,
    let? ledger := native_ledger owner s in
    let object := default 0%Z (balances !! (owner, GAS_COIN)) in
    let n := if (0 <? ledger)%Z then ledger else object in
    if (0 <? n)%Z then add_entry totals GAS_COIN n "Native wallet supply index overflow"
    else Ok totals) owners totals.

Definition compute_wallet_supply_index (s : StateManager) : result (gmap bytes Z) :=
  let? owners := owner_addresses s in
  let? dao := dao_account_address in
  let? objects := query_objects None None None None None s in
  let? '(owners, balances) := object_balances_loop objects (list_to_set owners ∪ {[dao]}, ∅) in
  let? totals := token_totals balances in
  native_totals balances (sort_dedup (elements owners)) totals s.

Fixpoint matching_objects_loop (token_type : bytes) (objects : list (bytes * CreatedObject))
    (acc : gset bytes * gmap bytes Z) : result (gset bytes * gmap bytes Z) :=
  match objects with
  | [] => Ok acc
  | (_, o) :: objects =>
      match balance_token_amount (type_ o) (data o) with
      | Some (t, n) =>
          if decide (t = token_type) then
            let? balances := add_entry acc.2 (created_owner o) n "Indexed owner token balance overflow" in
            matching_objects_loop token_type objects (acc.1 ∪ {[created_owner o]}, balances)
          else matching_objects_loop token_type objects acc
      | None => matching_objects_loop token_type objects acc
      end
  end.

Definition indexed_wallet_supply (token : bytes) (s : StateManager) : result Z :=
  let token_type := normalize_token_type token in
  let? owners := owner_addresses s in
  let? dao := if decide (token_type = GAS_COIN) then let? d := dao_account_address in Ok ({[d]} : gset bytes)
              else Ok ∅ in
  let? objects := query_objects None None None None None s in
  let? '(owners, balances) := matching_objects_loop token_type objects (list_to_set owners ∪ dao, ∅) in
  try_fold (λ total owner,
    let object := default 0%Z (balances !! owner) in
    let? balance :=
      if decide (token_type = GAS_COIN) then
        let? ledger := native_ledger owner s in Ok (if (0 <? ledger)%Z then ledger else object)
      else Ok object in
    require (checked_add total balance) "Indexed wallet supply overflow")
    (sort_dedup (elements owners)) 0%Z.

(** *** Repair *)

Definition store_native_cache (n : Z) : sm unit :=
  st_modify (λ s, set_supplies
    (if (n =? 0)%Z then delete GAS_COIN (global_token_supplies s)
     else <[GAS_COIN := n]> (global_token_supplies s)) s).
Definition save_supplies : sm unit :=
  supplies ← st_gets global_token_supplies;
  save_internal supplies_codec (str "global_token_supplies") supplies.

Definition sync_native_visible_supply_cache : sm bool :=
  indexed ← ask (indexed_wallet_supply GAS_COIN);
  total ← st_gets total_supply;
  current ← st_gets native_cached;
  let indexed_visible := Z.min indexed total in
  if (current =? indexed_visible)%Z then mret false
  else store_native_cache indexed_visible ≫= λ _, mret true.

Definition load_object_locked_coin_records (s : StateManager) : result (list ObjectLockedCoinRecord) :=
  let? r := load_internal locked_codec OBJECT_LOCKED_COIN_RECORDS_KEY s in Ok (default [] r).
Definition save_object_locked_coin_records (records : list ObjectLockedCoinRecord) : sm unit :=
  save_internal locked_codec OBJECT_LOCKED_COIN_RECORDS_KEY records.

Definition object_locked_supply_for_token (token : bytes) (s : StateManager) : result Z :=
  let token_type := normalize_token_type token in
  let? records := load_object_locked_coin_records s in
  try_fold (λ acc n, require (checked_add acc n) "Object-locked token supply overflow")
    (map amount (List.filter (λ r, bool_decide (locked_token_type r = token_type)) records)) 0%Z.

Fixpoint load_owners (addresses : list bytes) (s : StateManager) : result (list OwnerState) :=
  match addresses with
  | [] => Ok []
  | a :: addresses =>
      let? o := load_owner_state a s in
      let? rest := load_owners addresses s in
      Ok (match o with Some o => o :: rest | None => rest end)
  end.

(** [sort_by_key(|a| a.address.to_hex_literal()); reverse()] *)
Definition descending (l : list OwnerState) : list OwnerState :=
  rev (map snd (sort_by_key (map (λ o, (MoveAddress.to_hex_literal (address o), o)) l))).

Fixpoint take_excess (accounts : list OwnerState) (excess : Z) : sm Z :=
  match accounts with
  | [] => mret excess
  | a :: accounts =>
      if (excess =? 0)%Z then mret excess else
      let debit := Z.min (native_balance a) excess in
      save_owner_record (set_token_balance_value GAS_COIN (native_balance a - debit) a) ≫= λ _,
      take_excess accounts (excess - debit)
  end.

Definition repair_legacy_native_wallet_overcount : sm bool :=
  indexed_visible ← ask (indexed_wallet_supply GAS_COIN);
  locked ← ask (object_locked_supply_for_token GAS_COIN);
  total ← st_gets total_supply;
  let max_wallet_visible := saturating_sub total locked in
  if (indexed_visible <=? max_wallet_visible)%Z then
    current ← st_gets native_cached;
    if (current =? indexed_visible)%Z then mret false
    else store_native_cache indexed_visible ≫= λ _, save_supplies ≫= λ _, mret true
  else
    addresses ← ask owner_addresses;
    accounts ← ask (load_owners addresses);
    excess ← take_excess (descending (List.filter (λ a, 0 <? native_balance a)%Z accounts))
               (indexed_visible - max_wallet_visible);
    st_lift (ensure (excess =? 0)%Z "Unable to repair legacy native supply overcount") ≫= λ _,
    sync_native_visible_supply_cache ≫= λ _,
    save_supplies ≫= λ _,
    mret true.

Definition repair_cached_native_wallet_overcount : sm bool :=
  cached_visible ← st_gets native_cached;
  locked ← ask (object_locked_supply_for_token GAS_COIN);
  total ← st_gets total_supply;
  if (cached_visible <=? saturating_sub total locked)%Z then mret false
  else repair_legacy_native_wallet_overcount.

(** *** Summary and invariants *)

Record TokenSupplySummary := {
  summary_token_type : bytes;
  summary_total_supply : Z;
  wallet_visible_supply : Z;
  object_locked_supply : Z;
  accounted_supply : Z;
  untracked_supply : Z
}.

Definition token_supply_summary (token : bytes) (s : StateManager) : result TokenSupplySummary :=
  let token_type := normalize_token_type token in
  let? total := issued_supply_for_token token_type s in
  let cached_visible := default 0%Z (global_token_supplies s !! token_type) in
  let? version := load_internal u32_codec WALLET_SUPPLY_INDEX_VERSION_KEY s in
  let? visible :=
    if negb (bool_decide (token_type = GAS_COIN))
       && (default 0%Z version =? WALLET_SUPPLY_INDEX_VERSION)%Z
    then Ok cached_visible
    else let? indexed := indexed_wallet_supply token_type s in Ok (Z.max cached_visible indexed) in
  let? locked := object_locked_supply_for_token token_type s in
  let? accounted := require (checked_add visible locked) "Accounted token supply overflow" in
  Ok {| summary_token_type := token_type; summary_total_supply := total;
        wallet_visible_supply := visible; object_locked_supply := locked;
        accounted_supply := accounted; untracked_supply := saturating_sub total accounted |}.

Definition check_persisted_native (s : StateManager) : result unit :=
  let? p := persisted_supply GAS_COIN s in
  match p with
  | Some persisted => ensure (persisted =? total_supply s)%Z "native total supply mismatch"
  | None => Ok tt
  end.

Definition validate_supply_invariants (s : StateManager) : result unit :=
  let? _ := check_persisted_native s in
  let? native := token_supply_summary GAS_COIN s in
  let? _ := ensure (wallet_visible_supply native <=? summary_total_supply native)%Z
              "native supply overcount" in
  let? _ := ensure (accounted_supply native <=? summary_total_supply native)%Z
              "native supply overcount" in
  let? canonical_index := compute_wallet_supply_index s in
  let? _ := ensure (default 0 (canonical_index !! GAS_COIN) =? wallet_visible_supply native)%Z
              "native wallet supply index mismatch" in
  ensure (bool_decide (canonical_index = global_token_supplies s))
    "wallet supply index mismatch for one or more token types".

Definition validate_cached_supply_invariants (s : StateManager) : result unit :=
  let? _ := check_persisted_native s in
  let visible := native_cached s in
  let? locked := object_locked_supply_for_token GAS_COIN s in
  let? accounted := require (checked_add visible locked) "Accounted native supply overflow" in
  ensure ((visible <=? total_supply s) && (accounted <=? total_supply s))%Z "native supply overcount".

(** [fail_fast]: [supply_invariant_fail_fast_enabled()] *)
Definition report_supply_invariant_violation (fail_fast : bool) : result unit :=
  if fail_fast then Err "Supply invariant check failed" else Ok tt.

(** [KANARI_FAIL_FAST_ON_SUPPLY_MISMATCH] and [KANARI_NETWORK], trimmed and in
    lower case. *)
Definition supply_invariant_fail_fast_enabled (flag network : option bytes) : bool :=
  match flag with
  | Some v => bool_decide (v ∈ [str "1"; str "true"; str "yes"; str "on"])
  | None => bool_decide (default (str "testnet") network = str "mainnet")
  end.

Definition ensure_wallet_supply_index : sm bool :=
  version ← ask (load_internal u32_codec WALLET_SUPPLY_INDEX_VERSION_KEY);
  let version := default 0%Z version in
  st_lift (ensure (version <=? WALLET_SUPPLY_INDEX_VERSION)%Z
    "Wallet supply index version is newer than runtime version") ≫= λ _,
  if (version =? WALLET_SUPPLY_INDEX_VERSION)%Z then mret false
  else
    supplies ← ask compute_wallet_supply_index;
    st_modify (set_supplies supplies) ≫= λ _,
    save_supplies ≫= λ _,
    save_internal u32_codec WALLET_SUPPLY_INDEX_VERSION_KEY WALLET_SUPPLY_INDEX_VERSION ≫= λ _,
    mret true.

(** *** Coin metadata *)

Definition save_utf8_field (prefix token_type value : bytes) : sm unit :=
  if utf8_valid value then save_internal string_codec (metadata_key prefix token_type) value
  else mret tt.

Definition persist_coin_metadata (token_type payload : bytes) : sm unit :=
  match metadata_dec payload with
  | Some meta =>
      save_internal u8_codec (metadata_key (str "metadata_decimals:") token_type) (decimals meta) ≫= λ _,
      save_utf8_field (str "metadata_name:") token_type (meta_name meta) ≫= λ _,
      save_utf8_field (str "metadata_symbol:") token_type (meta_symbol meta) ≫= λ _,
      save_utf8_field (str "metadata_description:") token_type (meta_description meta) ≫= λ _,
      match icon_url meta with
      | Some url => save_utf8_field (str "metadata_icon_url:") token_type url
      | None => mret tt
      end
  | None =>
      match payload !! 32 with
      | Some d => save_internal u8_codec (metadata_key (str "metadata_decimals:") token_type) d
      | None => mret tt
      end
  end.

Definition get_token_decimals (token_type : bytes) : StateManager → result (option Z) :=
  load_internal u8_codec (metadata_key (str "metadata_decimals:") token_type).
Definition get_token_name (token_type : bytes) : StateManager → result (option bytes) :=
  load_internal string_codec (metadata_key (str "metadata_name:") token_type).
Definition get_token_symbol (token_type : bytes) : StateManager → result (option bytes) :=
  load_internal string_codec (metadata_key (str "metadata_symbol:") token_type).
Definition get_token_description (token_type : bytes) : StateManager → result (option bytes) :=
  load_internal string_codec (metadata_key (str "metadata_description:") token_type).
Definition get_token_icon_url (token_type : bytes) : StateManager → result (option bytes) :=
  load_internal string_codec (metadata_key (str "metadata_icon_url:") token_type).

(** *** The visible-supply cache *)

Definition adjust_token (old_balances new_balances : gmap bytes BalanceRecord)
    (supplies : gmap bytes Z) (token_type : bytes) : result (gmap bytes Z) :=
  let old_amount := balance_in old_balances token_type in
  let new_amount := balance_in new_balances token_type in
  if (old_amount =? new_amount)%Z then Ok supplies else
  let current := default 0%Z (supplies !! token_type) in
  let? updated :=
    if (old_amount <=? new_amount)%Z
    then require (checked_add current (new_amount - old_amount)) "Wallet-visible token supply overflow"
    else require (checked_sub current (old_amount - new_amount)) "Wallet-visible token supply underflow" in
  Ok (if (updated =? 0)%Z then delete token_type supplies else <[token_type := updated]> supplies).

Definition adjust_global_supplies_for_account_delta (old_balances new_balances : gmap bytes BalanceRecord) :
    sm bool :=
  let tokens := sort_dedup (elements (dom old_balances ∪ dom new_balances)) in
  for_each tokens (λ token_type s,
    match adjust_token old_balances new_balances (global_token_supplies s) token_type with
    | Ok supplies => (set_supplies supplies s, Ok tt)
    | Err e => (s, Err e)
    end) ≫= λ _,
  mret (existsb (λ t, negb (balance_in old_balances t =? balance_in new_balances t)%Z) tokens).

Definition capture_supply_changed (account : OwnerState) (old_balances : gmap bytes BalanceRecord) : sm bool :=
  adjust_global_supplies_for_account_delta old_balances (token_balances account).

Definition save_owner_state (o : OwnerState) : sm unit :=
  old ← ask (load_owner_state (address o));
  let old_balances := match old with Some o => token_balances o | None => ∅ end in
  save_owner_state_without_supply_index o ≫= λ _,
  cached ← st_gets native_cached;
  total ← st_gets total_supply;
  let old_native := balance_in old_balances GAS_COIN in
  let new_native := native_balance o in
  let projected := (saturating_sub cached old_native + new_native)%Z in
  if ((old_native =? new_native) || (projected <=? total))%Z then
    changed ← capture_supply_changed o old_balances;
    if (changed : bool) then save_supplies else mret tt
  else mret tt.

(** The native balance an owner is left with once its coin objects are known. *)
Definition reconciled_native (native_delta : Z) (native_object_changed : bool)
    (native_gas_credit ledger_before object_before after_deltas : Z) (object_balance : option Z) : result Z :=
  match object_balance with
  | Some object_balance =>
      let? with_ledger :=
        require (a ← checked_add object_balance (saturating_sub ledger_before object_before);
                 checked_add a native_gas_credit)
          "Native owner balance overflow during object reconciliation" in
      Ok (if (0 <? native_delta)%Z then Z.max with_ledger after_deltas
          else if (native_delta <? 0)%Z then Z.min with_ledger after_deltas
          else with_ledger)
  | None => Ok (if native_object_changed then 0%Z else after_deltas)
  end.

Definition recompute_token_balances_for_owner (owner : bytes) (native_delta : Z)
    (native_object_changed : bool) (native_gas_credit ledger_before object_before : Z) : sm bool :=
  o ← ask (load_owner_state_or_default owner);
  aggregated ← ask (compute_owned_token_balances owner None);
  native ← st_lift (reconciled_native native_delta native_object_changed native_gas_credit
             ledger_before object_before (native_balance o) (aggregated !! GAS_COIN));
  let o' := set_token_balance_value GAS_COIN native
              (set_balances (Build_BalanceRecord <$> delete GAS_COIN aggregated) o) in
  save_owner_state_without_supply_index o' ≫= λ _,
  capture_supply_changed o' (token_balances o).
End Supply.
