(* ===== verification/StateApply.v ===== *)
(** * Applying change sets: [kanari-move-runtime-v1/src/state/apply.rs]

    [apply_changeset_with_options] in the order of the source, phase by phase;
    its local variables are the record [Work].  Every phase runs on the manager
    and the work together, so that a failing phase shows what it has written. *)

From stdpp Require Import base list gmap strings sorting.
From Stdlib Require Import ZArith Lia.
From S2P Require Import Prelude Order Hashing Text Address GasCoin Transaction ChangeSet StateManager StateSupply.

(** ** Object-locked coins *)

Definition set_amount (n : Z) (r : ObjectLockedCoinRecord) : ObjectLockedCoinRecord :=
  {| holder_object_id := holder_object_id r; holder_type := holder_type r;
     holder_owner := holder_owner r; locked_token_type := locked_token_type r; amount := n |}.

(** The record of the holder and token grows, or a new one is pushed. *)
Fixpoint put_locked (holder : bytes * CreatedObject) (token_type : bytes) (n : Z)
    (records : list ObjectLockedCoinRecord) : result (list ObjectLockedCoinRecord) :=
  match records with
  | [] =>
      Ok [{| holder_object_id := holder.1; holder_type := type_ holder.2;
             holder_owner := created_owner holder.2; locked_token_type := token_type; amount := n |}]
  | r :: records =>
      if bool_decide (holder_object_id r = holder.1) && bool_decide (locked_token_type r = token_type)
      then
        let? total := require (checked_add (amount r) n) "Object-locked coin record overflow" in
        Ok ({| holder_object_id := holder_object_id r; holder_type := type_ holder.2;
               holder_owner := created_owner holder.2; locked_token_type := locked_token_type r;
               amount := total |} :: records)
      else let? rest := put_locked holder token_type n records in Ok (r :: rest)
  end.
Definition add_locked_coin_record (records : list ObjectLockedCoinRecord)
    (holder : bytes * CreatedObject) (token_type : bytes) (n : Z) : result (list ObjectLockedCoinRecord) :=
  if (n =? 0)%Z then Ok records else put_locked holder token_type n records.

(** One pass of the inner loop: the records and what remains to be released. *)
Fixpoint release_pass (eligible : ObjectLockedCoinRecord → bool) (remaining : Z)
    (records : list ObjectLockedCoinRecord) : list ObjectLockedCoinRecord * Z :=
  match records with
  | [] => ([], remaining)
  | r :: records =>
      if (remaining =? 0)%Z then (r :: records, remaining)
      else if negb (eligible r) then
        let '(rest, remaining) := release_pass eligible remaining records in (r :: rest, remaining)
      else
        let release := Z.min (amount r) remaining in
        let '(rest, remaining) := release_pass eligible (remaining - release) records in
        (set_amount (amount r - release) r :: rest, remaining)
  end.
Definition release_locked_coin_records (records : list ObjectLockedCoinRecord) (holder_ids : gset bytes)
    (token_type : bytes) (n : Z) : list ObjectLockedCoinRecord :=
  let of_token r := bool_decide (locked_token_type r = token_type) in
  let '(records, remaining) :=
    release_pass (λ r, of_token r && bool_decide (holder_object_id r ∈ holder_ids)) n records in
  let '(records, remaining) :=
    if (remaining =? 0)%Z then (records, remaining) else release_pass of_token remaining records in
  List.filter (λ r, 0 <? amount r)%Z records.

(** ** Working state *)

Record Work := {
  supplies_dirty : bool;
  owner_index_additions : list bytes;
  owners_to_recompute : gset bytes;
  native_object_changed_owners : gset bytes;
  non_native_object_changed_owners : gset bytes;
  native_object_owner_changed_owners : gset bytes;
  native_object_created_owners : gset bytes;
  native_object_gas_adjusted : gmap bytes Z;
  native_object_before_from_changes : gmap bytes Z;
  native_object_after_from_changes : gmap bytes Z;
  native_balance_after_owner_deltas : gmap bytes Z;
  object_owner_index_additions : list bytes;
  object_index_additions : list bytes;
  owned_object_index_additions : gmap bytes (list bytes)
}.
Definition no_work : Work :=
  {| supplies_dirty := false; owner_index_additions := []; owners_to_recompute := ∅;
     native_object_changed_owners := ∅; non_native_object_changed_owners := ∅;
     native_object_owner_changed_owners := ∅; native_object_created_owners := ∅;
     native_object_gas_adjusted := ∅; native_object_before_from_changes := ∅;
     native_object_after_from_changes := ∅; native_balance_after_owner_deltas := ∅;
     object_owner_index_additions := []; object_index_additions := [];
     owned_object_index_additions := ∅ |}.

Record Applying := { manager : StateManager; work : Work }.
Abbreviation ap := (st Applying).

Definition on_manager {A} (m : sm A) : ap A := λ a,
  let '(s, r) := m (manager a) in ({| manager := s; work := work a |}, r).
Definition read_manager {A} (f : StateManager → result A) : ap A := λ a, (a, f (manager a)).
Definition on_work (f : Work → Work) : ap unit := λ a,
  ({| manager := manager a; work := f (work a) |}, Ok tt).
Definition read_work {A} (f : Work → A) : ap A := λ a, (a, Ok (f (work a))).

(** Updates of one local variable. *)

Definition upd_supplies_dirty (f : bool → bool) (w : Work) : Work :=
  {| supplies_dirty := f (supplies_dirty w); owner_index_additions := owner_index_additions w;
     owners_to_recompute := owners_to_recompute w; native_object_changed_owners :=
     native_object_changed_owners w; non_native_object_changed_owners :=
     non_native_object_changed_owners w; native_object_owner_changed_owners :=
     native_object_owner_changed_owners w; native_object_created_owners :=
     native_object_created_owners w; native_object_gas_adjusted := native_object_gas_adjusted w;
     native_object_before_from_changes := native_object_before_from_changes w;
     native_object_after_from_changes := native_object_after_from_changes w;
     native_balance_after_owner_deltas := native_balance_after_owner_deltas w;
     object_owner_index_additions := object_owner_index_additions w; object_index_additions :=
     object_index_additions w; owned_object_index_additions := owned_object_index_additions w |}.
Definition upd_owner_index_additions (f : list bytes → list bytes) (w : Work) : Work :=
  {| supplies_dirty := supplies_dirty w; owner_index_additions := f (owner_index_additions w);
     owners_to_recompute := owners_to_recompute w; native_object_changed_owners :=
     native_object_changed_owners w; non_native_object_changed_owners :=
     non_native_object_changed_owners w; native_object_owner_changed_owners :=
     native_object_owner_changed_owners w; native_object_created_owners :=
     native_object_created_owners w; native_object_gas_adjusted := native_object_gas_adjusted w;
     native_object_before_from_changes := native_object_before_from_changes w;
     native_object_after_from_changes := native_object_after_from_changes w;
     native_balance_after_owner_deltas := native_balance_after_owner_deltas w;
     object_owner_index_additions := object_owner_index_additions w; object_index_additions :=
     object_index_additions w; owned_object_index_additions := owned_object_index_additions w |}.
Definition upd_owners_to_recompute (f : gset bytes → gset bytes) (w : Work) : Work :=
  {| supplies_dirty := supplies_dirty w; owner_index_additions := owner_index_additions w;
     owners_to_recompute := f (owners_to_recompute w); native_object_changed_owners :=
     native_object_changed_owners w; non_native_object_changed_owners :=
     non_native_object_changed_owners w; native_object_owner_changed_owners :=
     native_object_owner_changed_owners w; native_object_created_owners :=
     native_object_created_owners w; native_object_gas_adjusted := native_object_gas_adjusted w;
     native_object_before_from_changes := native_object_before_from_changes w;
     native_object_after_from_changes := native_object_after_from_changes w;
     native_balance_after_owner_deltas := native_balance_after_owner_deltas w;
     object_owner_index_additions := object_owner_index_additions w; object_index_additions :=
     object_index_additions w; owned_object_index_additions := owned_object_index_additions w |}.
Definition upd_native_object_changed_owners (f : gset bytes → gset bytes) (w : Work) : Work :=
  {| supplies_dirty := supplies_dirty w; owner_index_additions := owner_index_additions w;
     owners_to_recompute := owners_to_recompute w; native_object_changed_owners := f
     (native_object_changed_owners w); non_native_object_changed_owners :=
     non_native_object_changed_owners w; native_object_owner_changed_owners :=
     native_object_owner_changed_owners w; native_object_created_owners :=
     native_object_created_owners w; native_object_gas_adjusted := native_object_gas_adjusted w;
     native_object_before_from_changes := native_object_before_from_changes w;
     native_object_after_from_changes := native_object_after_from_changes w;
     native_balance_after_owner_deltas := native_balance_after_owner_deltas w;
     object_owner_index_additions := object_owner_index_additions w; object_index_additions :=
     object_index_additions w; owned_object_index_additions := owned_object_index_additions w |}.
Definition upd_non_native_object_changed_owners (f : gset bytes → gset bytes) (w : Work) : Work :=
  {| supplies_dirty := supplies_dirty w; owner_index_additions := owner_index_additions w;
     owners_to_recompute := owners_to_recompute w; native_object_changed_owners :=
     native_object_changed_owners w; non_native_object_changed_owners := f
     (non_native_object_changed_owners w); native_object_owner_changed_owners :=
     native_object_owner_changed_owners w; native_object_created_owners :=
     native_object_created_owners w; native_object_gas_adjusted := native_object_gas_adjusted w;
     native_object_before_from_changes := native_object_before_from_changes w;
     native_object_after_from_changes := native_object_after_from_changes w;
     native_balance_after_owner_deltas := native_balance_after_owner_deltas w;
     object_owner_index_additions := object_owner_index_additions w; object_index_additions :=
     object_index_additions w; owned_object_index_additions := owned_object_index_additions w |}.
Definition upd_native_object_owner_changed_owners (f : gset bytes → gset bytes) (w : Work) : Work :=
  {| supplies_dirty := supplies_dirty w; owner_index_additions := owner_index_additions w;
     owners_to_recompute := owners_to_recompute w; native_object_changed_owners :=
     native_object_changed_owners w; non_native_object_changed_owners :=
     non_native_object_changed_owners w; native_object_owner_changed_owners := f
     (native_object_owner_changed_owners w); native_object_created_owners :=
     native_object_created_owners w; native_object_gas_adjusted := native_object_gas_adjusted w;
     native_object_before_from_changes := native_object_before_from_changes w;
     native_object_after_from_changes := native_object_after_from_changes w;
     native_balance_after_owner_deltas := native_balance_after_owner_deltas w;
     object_owner_index_additions := object_owner_index_additions w; object_index_additions :=
     object_index_additions w; owned_object_index_additions := owned_object_index_additions w |}.
Definition upd_native_object_created_owners (f : gset bytes → gset bytes) (w : Work) : Work :=
  {| supplies_dirty := supplies_dirty w; owner_index_additions := owner_index_additions w;
     owners_to_recompute := owners_to_recompute w; native_object_changed_owners :=
     native_object_changed_owners w; non_native_object_changed_owners :=
     non_native_object_changed_owners w; native_object_owner_changed_owners :=
     native_object_owner_changed_owners w; native_object_created_owners := f
     (native_object_created_owners w); native_object_gas_adjusted := native_object_gas_adjusted
     w; native_object_before_from_changes := native_object_before_from_changes w;
     native_object_after_from_changes := native_object_after_from_changes w;
     native_balance_after_owner_deltas := native_balance_after_owner_deltas w;
     object_owner_index_additions := object_owner_index_additions w; object_index_additions :=
     object_index_additions w; owned_object_index_additions := owned_object_index_additions w |}.
Definition upd_native_object_gas_adjusted (f : gmap bytes Z → gmap bytes Z) (w : Work) : Work :=
  {| supplies_dirty := supplies_dirty w; owner_index_additions := owner_index_additions w;
     owners_to_recompute := owners_to_recompute w; native_object_changed_owners :=
     native_object_changed_owners w; non_native_object_changed_owners :=
     non_native_object_changed_owners w; native_object_owner_changed_owners :=
     native_object_owner_changed_owners w; native_object_created_owners :=
     native_object_created_owners w; native_object_gas_adjusted := f (native_object_gas_adjusted
     w); native_object_before_from_changes := native_object_before_from_changes w;
     native_object_after_from_changes := native_object_after_from_changes w;
     native_balance_after_owner_deltas := native_balance_after_owner_deltas w;
     object_owner_index_additions := object_owner_index_additions w; object_index_additions :=
     object_index_additions w; owned_object_index_additions := owned_object_index_additions w |}.
Definition upd_native_object_before_from_changes (f : gmap bytes Z → gmap bytes Z) (w : Work) : Work :=
  {| supplies_dirty := supplies_dirty w; owner_index_additions := owner_index_additions w;
     owners_to_recompute := owners_to_recompute w; native_object_changed_owners :=
     native_object_changed_owners w; non_native_object_changed_owners :=
     non_native_object_changed_owners w; native_object_owner_changed_owners :=
     native_object_owner_changed_owners w; native_object_created_owners :=
     native_object_created_owners w; native_object_gas_adjusted := native_object_gas_adjusted w;
     native_object_before_from_changes := f (native_object_before_from_changes w);
     native_object_after_from_changes := native_object_after_from_changes w;
     native_balance_after_owner_deltas := native_balance_after_owner_deltas w;
     object_owner_index_additions := object_owner_index_additions w; object_index_additions :=
     object_index_additions w; owned_object_index_additions := owned_object_index_additions w |}.
Definition upd_native_object_after_from_changes (f : gmap bytes Z → gmap bytes Z) (w : Work) : Work :=
  {| supplies_dirty := supplies_dirty w; owner_index_additions := owner_index_additions w;
     owners_to_recompute := owners_to_recompute w; native_object_changed_owners :=
     native_object_changed_owners w; non_native_object_changed_owners :=
     non_native_object_changed_owners w; native_object_owner_changed_owners :=
     native_object_owner_changed_owners w; native_object_created_owners :=
     native_object_created_owners w; native_object_gas_adjusted := native_object_gas_adjusted w;
     native_object_before_from_changes := native_object_before_from_changes w;
     native_object_after_from_changes := f (native_object_after_from_changes w);
     native_balance_after_owner_deltas := native_balance_after_owner_deltas w;
     object_owner_index_additions := object_owner_index_additions w; object_index_additions :=
     object_index_additions w; owned_object_index_additions := owned_object_index_additions w |}.
Definition upd_native_balance_after_owner_deltas (f : gmap bytes Z → gmap bytes Z) (w : Work) : Work :=
  {| supplies_dirty := supplies_dirty w; owner_index_additions := owner_index_additions w;
     owners_to_recompute := owners_to_recompute w; native_object_changed_owners :=
     native_object_changed_owners w; non_native_object_changed_owners :=
     non_native_object_changed_owners w; native_object_owner_changed_owners :=
     native_object_owner_changed_owners w; native_object_created_owners :=
     native_object_created_owners w; native_object_gas_adjusted := native_object_gas_adjusted w;
     native_object_before_from_changes := native_object_before_from_changes w;
     native_object_after_from_changes := native_object_after_from_changes w;
     native_balance_after_owner_deltas := f (native_balance_after_owner_deltas w);
     object_owner_index_additions := object_owner_index_additions w; object_index_additions :=
     object_index_additions w; owned_object_index_additions := owned_object_index_additions w |}.
Definition upd_object_owner_index_additions (f : list bytes → list bytes) (w : Work) : Work :=
  {| supplies_dirty := supplies_dirty w; owner_index_additions := owner_index_additions w;
     owners_to_recompute := owners_to_recompute w; native_object_changed_owners :=
     native_object_changed_owners w; non_native_object_changed_owners :=
     non_native_object_changed_owners w; native_object_owner_changed_owners :=
     native_object_owner_changed_owners w; native_object_created_owners :=
     native_object_created_owners w; native_object_gas_adjusted := native_object_gas_adjusted w;
     native_object_before_from_changes := native_object_before_from_changes w;
     native_object_after_from_changes := native_object_after_from_changes w;
     native_balance_after_owner_deltas := native_balance_after_owner_deltas w;
     object_owner_index_additions := f (object_owner_index_additions w); object_index_additions
     := object_index_additions w; owned_object_index_additions := owned_object_index_additions w |}.
Definition upd_object_index_additions (f : list bytes → list bytes) (w : Work) : Work :=
  {| supplies_dirty := supplies_dirty w; owner_index_additions := owner_index_additions w;
     owners_to_recompute := owners_to_recompute w; native_object_changed_owners :=
     native_object_changed_owners w; non_native_object_changed_owners :=
     non_native_object_changed_owners w; native_object_owner_changed_owners :=
     native_object_owner_changed_owners w; native_object_created_owners :=
     native_object_created_owners w; native_object_gas_adjusted := native_object_gas_adjusted w;
     native_object_before_from_changes := native_object_before_from_changes w;
     native_object_after_from_changes := native_object_after_from_changes w;
     native_balance_after_owner_deltas := native_balance_after_owner_deltas w;
     object_owner_index_additions := object_owner_index_additions w; object_index_additions := f
     (object_index_additions w); owned_object_index_additions := owned_object_index_additions w |}.
Definition upd_owned_object_index_additions (f : gmap bytes (list bytes) → gmap bytes (list bytes)) (w : Work) : Work :=
  {| supplies_dirty := supplies_dirty w; owner_index_additions := owner_index_additions w;
     owners_to_recompute := owners_to_recompute w; native_object_changed_owners :=
     native_object_changed_owners w; non_native_object_changed_owners :=
     non_native_object_changed_owners w; native_object_owner_changed_owners :=
     native_object_owner_changed_owners w; native_object_created_owners :=
     native_object_created_owners w; native_object_gas_adjusted := native_object_gas_adjusted w;
     native_object_before_from_changes := native_object_before_from_changes w;
     native_object_after_from_changes := native_object_after_from_changes w;
     native_balance_after_owner_deltas := native_balance_after_owner_deltas w;
     object_owner_index_additions := object_owner_index_additions w; object_index_additions :=
     object_index_additions w; owned_object_index_additions := f (owned_object_index_additions
     w) |}.

(** ** Classification *)

Section Apply.
Context {B3 : Blake3} {HX : Hex} {SC : StateCodecs} {TT : TypeTags}.

Definition is_system_clock_type (type_name : bytes) : option bool :=
  t ← struct_from_str type_name;
  Some (bool_decide (tag_module t = CLOCK_MODULE) && bool_decide (tag_name t = CLOCK_STRUCT)
        && list_empty (type_params t)).

Definition is_system_clock_object (object_id type_name : bytes) (s : StateManager) : result bool :=
  match is_system_clock_type type_name with
  | Some true =>
      let? configured := get_system_clock_object_id s in
      Ok (is_none configured || bool_decide (configured = MoveAddress.from_hex_literal object_id))
  | _ => Ok false
  end.

Definition is_object_locked_coin_holder_type (type_name : bytes) : bool :=
  match struct_from_str type_name with
  | None => false
  | Some t =>
      if is_balance_struct t then false
      else negb (bool_decide (tag_module t = COIN_MODULE)
                 && (bool_decide (tag_name t = TREASURY_CAP_STRUCT)
                     || bool_decide (tag_name t = str "CoinMetadata")))
  end.

Definition supply_tracking_token_types (cs : ChangeSet) (s : StateManager) : gset bytes :=
  dom (global_token_supplies s) ∪ {[GAS_COIN]}
  ∪ list_to_set (map (λ '(_, t, _), normalize_token_type t) (treasuries cs))
  ∪ list_to_set (map (λ '(_, t, _), normalize_token_type t) (token_balance_sets cs))
  ∪ list_to_set (omap (λ '(_, o), fst <$> balance_token_amount (type_ o) (data o)) (created_objects cs)).

Definition visible_supply_snapshot (token : bytes) (s : StateManager) : result Z :=
  let token_type := normalize_token_type token in
  let? indexed := indexed_wallet_supply token_type s in
  Ok (Z.max (default 0%Z (global_token_supplies s !! token_type)) indexed).

Definition capture_supply_snapshots (token_types : gset bytes) (s : StateManager) :
    result (gmap bytes Z * gmap bytes Z) :=
  try_fold (λ '(issued, visible) t,
    let? i := issued_supply_for_token t s in
    let? v := visible_supply_snapshot t s in
    Ok (<[t := i]> issued, <[t := v]> visible)) (sort_dedup (elements token_types)) (∅, ∅).

Definition reconcile_token (holders : list (bytes * CreatedObject)) (issued_before visible_before : gmap bytes Z)
    (s : StateManager) (records : list ObjectLockedCoinRecord) (token_type : bytes) :
    result (list ObjectLockedCoinRecord) :=
  let? issued_after := issued_supply_for_token token_type s in
  let? visible_after := visible_supply_snapshot token_type s in
  let issued_delta := (issued_after - default 0 (issued_before !! token_type))%Z in
  let visible_delta := (visible_after - default 0 (visible_before !! token_type))%Z in
  let locked_delta := (issued_delta - visible_delta)%Z in
  if (0 <? locked_delta)%Z then
    match holders with
    | holder :: _ => add_locked_coin_record records holder token_type (locked_delta mod 2 ^ 64)%Z
    | [] => Ok records
    end
  else if (locked_delta <? 0)%Z then
    Ok (release_locked_coin_records records (list_to_set (map fst holders)) token_type
          ((- locked_delta) mod 2 ^ 64)%Z)
  else Ok records.

#[export] Instance ObjectLockedCoinRecord_eq_dec : EqDecision ObjectLockedCoinRecord.
Proof. solve_decision. Defined.

Definition reconcile_object_locked_coin_records (cs : ChangeSet) (issued_before visible_before : gmap bytes Z) :
    sm unit :=
  let holders := List.filter (λ '(_, o), is_object_locked_coin_holder_type (type_ o)) (created_objects cs) in
  if list_empty holders && bool_decide (issued_before = ∅) then mret tt else
  original ← ask load_object_locked_coin_records;
  s ← st_gets (λ s, s);
  let kept := List.filter (λ r, negb (bool_decide (holder_object_id r ∈ deleted_objects cs))) original in
  let token_types := sort_dedup (elements (dom issued_before ∪ dom visible_before)) in
  records ← st_lift (try_fold (reconcile_token holders issued_before visible_before s) token_types kept);
  if decide (records = original) then mret tt else save_object_locked_coin_records records.

Definition needs_object_locked_reconciliation (cs : ChangeSet) (s : StateManager) : result bool :=
  if negb (list_empty (treasuries cs)) || negb (list_empty (token_balance_sets cs))
     || negb (list_empty (deleted_objects cs)) then Ok true
  else
    try_fold (λ acc '(id, o),
      let? clock := is_system_clock_object id (type_ o) s in
      Ok (acc || (negb clock && (is_object_locked_coin_holder_type (type_ o)
                                 || negb (is_none (treasury_cap_token_supply (type_ o) (data o)))))))
      (created_objects cs) false.

(** ** Native deltas *)

Definition i128_checked_add (a b : Z) : option Z :=
  if ((i128_min <=? a + b) && (a + b <=? i128_max))%Z then Some (a + b)%Z else None.

Definition changeset_supply_delta (cs : ChangeSet) : result Z :=
  try_fold (λ total '(_, d),
    require (i128_checked_add total (balance_delta d)) "Native supply delta overflow")
    (btree_iter (owner_deltas cs)) 0%Z.

Definition next_total_supply (delta : Z) (s : StateManager) : result (option Z) :=
  if (0 <? delta)%Z then
    let? mint := require (to_u64 delta) "Native supply delta overflowed u64 total supply" in
    let? next := require (checked_add (total_supply s) mint) "Native total supply overflow" in
    Ok (Some next)
  else if (delta <? 0)%Z then
    let? burn := require (to_u64 (- delta)) "Native supply delta overflowed u64 total supply" in
    let? _ := ensure (burn <=? total_supply s)%Z "Native total supply underflow" in
    let? next := require (checked_sub (total_supply s) burn)
                   "Native total supply underflow after burn precheck" in
    Ok (Some next)
  else Ok None.

Definition native_gas_debit_total (cs : ChangeSet) : result Z :=
  try_fold (λ total '(_, c), require (checked_add total c) "Native gas debit total overflow")
    (btree_iter (native_gas_credits cs)) 0%Z.

Definition delta_in (cs : ChangeSet) (owner : bytes) : Z :=
  match owner_deltas cs !! owner with Some d => balance_delta d | None => 0 end.
(** A negative delta as a [u64]. *)
Definition owner_native_debit (cs : ChangeSet) (owner : bytes) : result Z :=
  if (delta_in cs owner <? 0)%Z
  then require (to_u64 (- delta_in cs owner)) "Native debit overflowed u64 gas object adjustment"
  else Ok 0%Z.

Definition debit_owners (cs : ChangeSet) : list bytes :=
  map fst (List.filter (λ '(_, d), balance_delta d <? 0)%Z (btree_iter (owner_deltas cs))).
Definition implicit_gas_payer (cs : ChangeSet) : option bytes :=
  match (p ← cs_gas_payment cs; MoveAddress.from_hex_literal (payment_owner p)) with
  | Some owner => Some owner
  | None => match debit_owners cs with [owner] => Some owner | _ => None end
  end.
Definition owner_native_gas_debit (cs : ChangeSet) (gas_total : Z) (owner : bytes) (explicit : bool) : result Z :=
  if explicit || bool_decide (Some owner = implicit_gas_payer cs)
  then let? debit := owner_native_debit cs owner in Ok (Z.min debit gas_total)
  else Ok 0%Z.

Definition object_balance_token_for_type_and_data (type_name payload : bytes) : option bytes :=
  (λ '(t, _), normalize_token_type t) <$> balance_token_amount type_name payload.
Definition is_native_coin (type_name payload : bytes) : bool :=
  bool_decide (object_balance_token_for_type_and_data type_name payload = Some GAS_COIN).

(** The owners whose native balances are captured before anything is written. *)
Definition native_snapshot_owners (cs : ChangeSet) (s : StateManager) : result (gset bytes) :=
  let created : gset bytes :=
    list_to_set (map (λ e, created_owner e.2)
      (List.filter (λ e, is_native_coin (type_ e.2) (data e.2)) (created_objects cs))) in
  try_fold (λ owners id,
    let? found := load_stored_object_by_any_id id s in
    Ok (match found with
        | Some (_, o) => if is_native_coin (type_name o) (stored_data o) then owners ∪ {[stored_owner o]} else owners
        | None => owners
        end)) (deleted_objects cs) (dom (owner_deltas cs) ∪ created).

Definition snapshot_balance (cs : ChangeSet) (s : StateManager) (owner : bytes) : result (Z * Z) :=
  let? ledger := native_ledger owner s in
  let? debit :=
    if (delta_in cs owner <? 0)%Z
    then require (to_u64 (- delta_in cs owner)) "Native debit overflowed u64 owner balance"
    else Ok 0%Z in
  let? object :=
    if ((0 <? debit) && (debit <=? ledger))%Z then Ok 0%Z
    else let? balances := compute_owned_token_balances owner None s in
         Ok (default 0%Z (balances !! GAS_COIN)) in
  Ok (ledger, object).

Definition native_balances_before (cs : ChangeSet) (s : StateManager) : result (gmap bytes (Z * Z)) :=
  let? owners := native_snapshot_owners cs s in
  try_fold (λ (m : gmap bytes (Z * Z)) owner,
    let? b := snapshot_balance cs s owner in Ok (<[owner := b]> m)) (sort_dedup (elements owners)) ∅.

Definition check_debits (cs : ChangeSet) (before : gmap bytes (Z * Z)) : result unit :=
  try_fold (λ _ '(a, d),
    if (0 <=? balance_delta d)%Z then Ok tt else
    let? debit := require (to_u64 (- balance_delta d)) "Native debit overflowed u64 owner balance" in
    let '(ledger, object) := default (0, 0)%Z (before !! a) in
    ensure (debit <=? Z.max ledger object)%Z "Insufficient native balance")
    (btree_iter (owner_deltas cs)) tt.

(** ** The phases *)

Definition credited_balance (o : OwnerState) (delta : Z) : result OwnerState :=
  let? n := require (to_u64 delta) "Native credit overflowed u64 owner balance" in
  let? next := require (checked_add (native_balance o) n) "Native owner balance overflow" in
  Ok (set_token_balance_value GAS_COIN next o).
Definition debited_balance (o : OwnerState) (delta : Z) (before : option (Z * Z)) : result OwnerState :=
  let? debit := require (to_u64 (- delta)) "Native debit overflowed u64 owner balance" in
  let current := native_balance o in
  let effective :=
    if (debit <=? current)%Z then current
    else Z.max current (match before with Some (_, object) => object | None => 0%Z end) in
  let? next := require (checked_sub effective debit)
                 "Insufficient native balance while applying owner delta" in
  Ok (set_token_balance_value GAS_COIN next o).
Definition moved_balance (o : OwnerState) (delta : Z) (before : option (Z * Z)) : result OwnerState :=
  if (0 <? delta)%Z then credited_balance o delta
  else if (delta <? 0)%Z then debited_balance o delta before
  else Ok o.

Definition apply_owner_delta (before : gmap bytes (Z * Z)) (entry : bytes * OwnerDelta) : ap unit :=
  let '(a, change) := entry in
  o ← read_manager (load_owner_state_or_default a);
  o1 ← st_lift (moved_balance o (balance_delta change) (before !! a));
  on_work (upd_native_balance_after_owner_deltas <[address o1 := native_balance o1]>) ≫= λ _,
  let o2 := foldr owner_add_module o1 (elements (modules_added change)) in
  (if owner_is_empty o2 then
     on_manager (st_modify (put_overlay (owner_state_key (address o2)) None)) ≫= λ _,
     on_manager (remove_from_index_list OWNER_INDEX_KEY (MoveAddress.to_hex_literal (address o2)))
   else
     on_manager (save_owner_record o2) ≫= λ _,
     on_work (upd_owner_index_additions (λ l, l ++ [MoveAddress.to_hex_literal (address o2)]))) ≫= λ _,
  changed ← on_manager (capture_supply_changed o2 (token_balances o));
  on_work (upd_supplies_dirty (λ d, d || changed)).

Definition apply_treasury (entry : bytes * bytes * TreasuryCap) : sm unit :=
  let '(owner, token_type, cap) := entry in
  save_internal cap_codec (supply_key token_type) cap ≫= λ _,
  save_internal address_codec (treasury_key token_type) owner ≫= λ _,
  add_to_index_list (str "treasury_index") (treasury_key token_type) ≫= λ _,
  if decide (normalize_token_type token_type = GAS_COIN)
  then save_native_total_supply (ChangeSet.total_supply cap) else mret tt.

(** [persist_treasury_cap_state] writes the same records; it returns [Ok(true)]. *)
Definition persist_treasury_cap_state (token_type owner : bytes) (supply : Z) : sm bool :=
  save_internal cap_codec (supply_key token_type) {| ChangeSet.total_supply := supply |} ≫= λ _,
  save_internal address_codec (treasury_key token_type) owner ≫= λ _,
  add_to_index_list (str "treasury_index") (treasury_key token_type) ≫= λ _,
  (if decide (normalize_token_type token_type = GAS_COIN)
   then save_native_total_supply supply else mret tt) ≫= λ _, mret true.

Definition apply_nft_cap (entry : bytes * bytes * NftCapRecord) : sm unit :=
  let '(_, token_type, cap) := entry in save_internal nft_codec (str "nft:" ++ token_type) cap.

Definition changeset_creates_object_balance_for_owner (cs : ChangeSet) (owner token_type : bytes) : bool :=
  existsb (λ e, bool_decide (created_owner e.2 = owner)
    && bool_decide (object_balance_token_for_type_and_data (type_ e.2) (data e.2) = Some token_type))
    (created_objects cs).
Fixpoint deletes_balance_loop (ids : list bytes) (owner token_type : bytes) (s : StateManager) : result bool :=
  match ids with
  | [] => Ok false
  | id :: ids =>
      let? found := load_stored_object_by_any_id id s in
      match found with
      | Some (_, o) =>
          if bool_decide (stored_owner o = owner)
             && bool_decide (object_balance_token_for_type_and_data (type_name o) (stored_data o)
                             = Some token_type)
          then Ok true else deletes_balance_loop ids owner token_type s
      | None => deletes_balance_loop ids owner token_type s
      end
  end.
Definition changeset_deletes_object_balance_for_owner (cs : ChangeSet) (owner token_type : bytes) :
    StateManager → result bool := deletes_balance_loop (deleted_objects cs) owner token_type.
Definition owner_has_object_backed_token_balance (owner token_type : bytes) (s : StateManager) : result bool :=
  let? balances := compute_owned_token_balances owner None s in
  Ok (negb (is_none (balances !! token_type))).
Definition changeset_touches_object_backed_token_for_owner (cs : ChangeSet) (owner token_type : bytes)
    (s : StateManager) : result bool :=
  let? has := owner_has_object_backed_token_balance owner token_type s in
  if (has : bool) then Ok true
  else if changeset_creates_object_balance_for_owner cs owner token_type then Ok true
  else changeset_deletes_object_balance_for_owner cs owner token_type s.

Definition apply_balance_hint (cs : ChangeSet) (entry : bytes * bytes * BalanceRecord) : ap unit :=
  let '(owner, token_type, _) := entry in
  let normalized := normalize_token_type token_type in
  if decide (normalized = GAS_COIN) then mret tt else
  backed ← read_manager (changeset_touches_object_backed_token_for_owner cs owner normalized);
  if (backed : bool) then on_work (upd_owners_to_recompute (λ o, o ∪ {[owner]})) else mret tt.

Definition mark_owner_for_object_balance_recompute (owner token_type : bytes) (w : Work) : Work :=
  let w := upd_owners_to_recompute (λ o, o ∪ {[owner]}) w in
  if decide (normalize_token_type token_type = GAS_COIN)
  then upd_native_object_changed_owners (λ o, o ∪ {[owner]}) w
  else upd_non_native_object_changed_owners (λ o, o ∪ {[owner]}) w.
Definition record_object_balance_owner_if_needed (owner type_name payload : bytes) : ap unit :=
  match balance_token_amount type_name payload with
  | Some (token_type, _) => on_work (mark_owner_for_object_balance_recompute owner token_type)
  | None => mret tt
  end.

(** A checked addition to one of the maps of native amounts. *)
Definition count_native (get : Work → gmap bytes Z) (upd : (gmap bytes Z → gmap bytes Z) → Work → Work)
    (owner : bytes) (n : Z) : ap unit :=
  m ← read_work get;
  m' ← st_lift (add_entry m owner n "Native object balance snapshot overflow");
  on_work (upd (λ _, m')).
Definition count_before := count_native native_object_before_from_changes upd_native_object_before_from_changes.
Definition count_after := count_native native_object_after_from_changes upd_native_object_after_from_changes.
(** [balance_token_amount(..)] when it is the native token. *)
Definition native_amount (type_name payload : bytes) : option Z :=
  match balance_token_amount type_name payload with
  | Some (t, n) => if decide (normalize_token_type t = GAS_COIN) then Some n else None
  | None => None
  end.

Definition remove_owned_object_index_variants (owner object_id : bytes) (stored_id : option bytes) : sm unit :=
  let key := owned_objects_key owner in
  let canonical := canonical_owned_object_id object_id in
  remove_from_index_list key object_id ≫= λ _,
  (match stored_id with
   | Some sid => if decide (sid = object_id) then mret tt else remove_from_index_list key sid
   | None => mret tt
   end) ≫= λ _,
  (if decide (canonical = object_id) then mret tt else remove_from_index_list key canonical) ≫= λ _,
  match stored_id with
  | Some sid => if decide (canonical = sid) then mret tt else remove_from_index_list key canonical
  | None => mret tt
  end.
Definition refresh_owned_object_index (owner object_id : bytes) (stored_id : option bytes) : sm unit :=
  remove_owned_object_index_variants owner object_id stored_id ≫= λ _,
  add_to_index_list (owned_objects_key owner) (canonical_owned_object_id object_id).
Definition add_many_owned_object_index (owner : bytes) (ids : list bytes) : sm unit :=
  add_many_to_index_list (owned_objects_key owner) ids.

Definition is_address_owner (k : ObjectOwnerKind) : bool :=
  match k with AddressOwner _ => true | _ => false end.

Definition apply_deleted_object (id : bytes) : ap unit :=
  found ← read_manager (load_stored_object_by_any_id id);
  match found with
  | Some (sid, existing) =>
      let owner := stored_owner existing in
      record_object_balance_owner_if_needed owner (type_name existing) (stored_data existing) ≫= λ _,
      (if is_native_coin (type_name existing) (stored_data existing) then
         (match balance_token_amount (type_name existing) (stored_data existing) with
          | Some (_, n) =>
              count_before owner n ≫= λ _,
              on_work (upd_native_object_after_from_changes
                (λ m, <[owner := default 0%Z (m !! owner)]> m))
          | None => mret tt
          end) ≫= λ _,
         on_work (upd_native_object_owner_changed_owners (λ o, o ∪ {[owner]}))
       else mret tt) ≫= λ _,
      (if is_address_owner (stored_owner_kind existing)
       then on_manager (remove_owned_object_index_variants owner id (Some sid)) else mret tt) ≫= λ _,
      on_manager (st_modify (put_overlay (object_key sid) None)) ≫= λ _,
      on_manager (remove_from_index_list (str "object_index") sid) ≫= λ _,
      on_manager (remove_from_index_list (str "object_index") (canonical_owned_object_id id))
  | None =>
      on_manager (st_modify (put_overlay (object_key id) None)) ≫= λ _,
      on_manager (remove_from_index_list (str "object_index") (canonical_owned_object_id id))
  end.

Definition index_collection (entry : bytes * CreatedObject) : sm unit :=
  if contains (str "::collection::Collection") (type_ entry.2)
  then add_to_index_list (str "nft_collection_index") entry.1 else mret tt.
Definition index_mint_event (e : Event) : sm unit :=
  if contains (str "::nft::MintLog") (type_tag e) && (96 <=? length (event_data e)) then
    let nft_id := MoveAddress.to_hex_literal (take 32 (event_data e)) in
    let coll_id := MoveAddress.to_hex_literal (take 32 (drop 64 (event_data e))) in
    add_to_index_list (metadata_key (str "collection_members:") coll_id) nft_id
  else mret tt.

(** *** Created and mutated objects *)

Definition set_version (v : Z) (o : CreatedObject) : CreatedObject :=
  {| created_owner := created_owner o; owner_kind := owner_kind o; uid := uid o; created_id := created_id o;
     type_ := type_ o; data := data o; created_version := v |}.
Definition set_owner (w : bytes) (o : CreatedObject) : CreatedObject :=
  {| created_owner := w; owner_kind := owner_kind o; uid := uid o; created_id := created_id o;
     type_ := type_ o; data := data o; created_version := created_version o |}.
Definition set_data (d : bytes) (o : CreatedObject) : CreatedObject :=
  {| created_owner := created_owner o; owner_kind := owner_kind o; uid := uid o; created_id := created_id o;
     type_ := type_ o; data := d; created_version := created_version o |}.

(** The part of a native debit that an owner's coin objects have not paid yet. *)
Definition remaining_debit (cs : ChangeSet) (gas_total : Z) (owner : bytes) (explicit : bool) : ap (Z * Z) :=
  debit ← st_lift (owner_native_gas_debit cs gas_total owner explicit);
  adjusted ← read_work native_object_gas_adjusted;
  mret (debit, saturating_sub debit (default 0%Z (adjusted !! owner))).

Definition debit_coin_data (type_name payload : bytes) (debit : Z) (shortage : string) : result bytes :=
  let? t := require (struct_from_str type_name) "Invalid transferred native coin object type" in
  let? n := require (extract_balance_from_object_bytes payload t) "Invalid transferred native coin object data" in
  let? _ := ensure (debit <=? n)%Z shortage in
  require (write_balance_to_object_bytes payload t (n - debit))
    "Failed to write adjusted native coin object balance".

(** Versions wrap around in a release build. *)
Definition next_version (v : Z) : Z := ((v + 1) mod 2 ^ 64)%Z.

Definition gas_object_ids (cs : ChangeSet) : gset bytes :=
  list_to_set (map (λ r, canonical_owned_object_id (object_id r)) (cs_gas_object_refs cs)).

(** The gas owed by the owner is taken out of a native coin the change set
    writes, if the coin is the declared gas object or none is declared. *)
Definition charge_written_coin (cs : ChangeSet) (gas_total : Z) (canonical : bytes)
    (existing : StoredObject) (new_obj : CreatedObject) : ap CreatedObject :=
  let owner := stored_owner existing in
  let designated := bool_decide (canonical ∈ gas_object_ids cs) in
  let implicit := list_empty (cs_gas_object_refs cs) && (0 <? gas_total)%Z && (delta_in cs owner <? 0)%Z in
  if negb (is_none (native_amount (type_name existing) (stored_data existing))) && (designated || implicit) then
    '(debit, remaining) ← remaining_debit cs gas_total owner designated;
    if (0 <? remaining)%Z then
      payload ← st_lift (debit_coin_data (type_ new_obj) (data new_obj) remaining
        "Insufficient native coin object balance for gas");
      on_work (upd_native_object_gas_adjusted <[owner := debit]>) ≫= λ _,
      mret (set_data payload new_obj)
    else mret new_obj
  else mret new_obj.

Definition update_existing (cs : ChangeSet) (gas_total : Z) (obj_id canonical sid : bytes)
    (existing : StoredObject) (new_obj : CreatedObject) : ap CreatedObject :=
  let owner := stored_owner existing in
  clock ← read_manager (is_system_clock_object obj_id (type_name existing));
  let identical_clock_replay :=
    clock && bool_decide (type_name existing = type_ new_obj) && bool_decide (stored_data existing = data new_obj)
    && bool_decide (owner = created_owner new_obj) && bool_decide (stored_owner_kind existing = owner_kind new_obj) in
  let new_obj := set_version (if identical_clock_replay then stored_version existing
                              else next_version (stored_version existing)) new_obj in
  let new_obj := if decide (MoveAddress.to_hex_literal (created_owner new_obj) = obj_id)
                 then set_owner owner new_obj else new_obj in
  let existing_native := native_amount (type_name existing) (stored_data existing) in
  (match existing_native with Some n => count_before owner n | None => mret tt end) ≫= λ _,
  new_obj ← charge_written_coin cs gas_total canonical existing new_obj;
  (if negb (bool_decide (owner = created_owner new_obj)) && is_address_owner (stored_owner_kind existing) then
     (if negb (is_none existing_native)
      then on_work (upd_native_object_owner_changed_owners (λ o, o ∪ {[owner; created_owner new_obj]}))
      else mret tt) ≫= λ _,
     on_manager (remove_owned_object_index_variants owner obj_id (Some sid))
   else mret tt) ≫= λ _,
  (if decide (sid = canonical) then mret tt
   else on_manager (st_modify (put_overlay (object_key sid) None))) ≫= λ _,
  record_object_balance_owner_if_needed owner (type_name existing) (stored_data existing) ≫= λ _,
  mret new_obj.

(** [find('<')] and [rfind('>')]; a slice whose end precedes its start panics. *)
Fixpoint find_byte (c : Z) (l : bytes) : option nat :=
  match l with [] => None | b :: l => if (b =? c)%Z then Some 0 else S <$> find_byte c l end.
Definition rfind_byte (c : Z) (l : bytes) : option nat :=
  (λ i, length l - 1 - i) <$> find_byte c (rev l).
Definition metadata_of (type_name : bytes) : option (result bytes) :=
  if contains (str "::coin::CoinMetadata<") type_name then
    start ← find_byte 60 type_name;
    fin ← rfind_byte 62 type_name;
    Some (if fin <? S start then Err "slice index starts after it ends"
          else Ok (take (fin - S start) (drop (S start) type_name)))
  else None.

Definition stored_of (canonical : bytes) (o : CreatedObject) : StoredObject :=
  {| stored_id := canonical; stored_owner := created_owner o; stored_owner_kind := owner_kind o;
     type_name := type_ o; stored_data := data o; stored_version := created_version o |}.

Definition index_written_object (obj_id canonical : bytes) (existing : option (bytes * StoredObject))
    (new_obj : CreatedObject) : ap unit :=
  let owner := created_owner new_obj in
  if is_address_owner (owner_kind new_obj) then
    on_work (upd_object_owner_index_additions (λ l, l ++ [MoveAddress.to_hex_literal owner])) ≫= λ _,
    match existing with
    | None =>
        on_work (upd_owned_object_index_additions
          (λ m, <[owner := default [] (m !! owner) ++ [canonical]]> m))
    | Some (sid, e) =>
        if negb (bool_decide (sid = canonical)) || negb (bool_decide (stored_owner e = owner))
        then on_manager (refresh_owned_object_index owner obj_id (Some sid)) else mret tt
    end
  else mret tt.

Definition apply_created_object (cs : ChangeSet) (gas_total : Z) (entry : bytes * CreatedObject) : ap unit :=
  let '(obj_id, created) := entry in
  let canonical := canonical_owned_object_id obj_id in
  existing ← read_manager (load_stored_object_by_any_id obj_id);
  new_obj ← (match existing with
    | Some (sid, e) => update_existing cs gas_total obj_id canonical sid e created
    | None => mret (if (created_version created =? 0)%Z then set_version 1 created else created)
    end);
  record_object_balance_owner_if_needed (created_owner new_obj) (type_ new_obj) (data new_obj) ≫= λ _,
  (match native_amount (type_ new_obj) (data new_obj) with
   | Some n =>
       (if is_none existing
        then on_work (upd_native_object_created_owners (λ o, o ∪ {[created_owner new_obj]}))
        else mret tt) ≫= λ _,
       count_after (created_owner new_obj) n
   | None => mret tt
   end) ≫= λ _,
  (match treasury_cap_token_supply (type_ new_obj) (data new_obj) with
   | Some (token_type, supply) =>
       dirty ← on_manager (persist_treasury_cap_state token_type (created_owner new_obj) supply);
       on_work (upd_supplies_dirty (λ d, d || dirty))
   | None => mret tt
   end) ≫= λ _,
  on_manager (save_internal object_codec (object_key canonical) (stored_of canonical new_obj)) ≫= λ _,
  on_work (upd_object_index_additions (λ l, l ++ [canonical])) ≫= λ _,
  index_written_object obj_id canonical existing new_obj ≫= λ _,
  match metadata_of (type_ new_obj) with
  | Some token_type => t ← st_lift token_type; on_manager (persist_coin_metadata t (data new_obj))
  | None => mret tt
  end.

(** *** The declared gas objects *)

Definition gas_already_paid (cs : ChangeSet) (gas_total : Z) (canonical : bytes) : ap bool :=
  let owners : gmap bytes bytes :=
    foldl (λ (m : gmap bytes bytes) '(id, o), <[canonical_owned_object_id id := created_owner o]> m) ∅
      (created_objects cs) in
  match owners !! canonical with
  | None => mret false
  | Some owner =>
      debit ← st_lift (owner_native_gas_debit cs gas_total owner true);
      adjusted ← read_work native_object_gas_adjusted;
      mret ((0 <? debit) && (debit <=? default 0 (adjusted !! owner)))%Z
  end.

Definition write_gas_object (gas_id canonical sid : bytes) (existing : StoredObject) (payload : bytes) : ap unit :=
  let next_object :=
    {| stored_id := canonical; stored_owner := stored_owner existing;
       stored_owner_kind := stored_owner_kind existing; type_name := type_name existing;
       stored_data := payload; stored_version := saturating_add (stored_version existing) 1 |} in
  on_manager (save_internal object_codec (object_key canonical) next_object) ≫= λ _,
  (if decide (sid = canonical) then mret tt
   else on_manager (st_modify (put_overlay (object_key sid) None))) ≫= λ _,
  on_work (upd_object_index_additions (λ l, l ++ [canonical])) ≫= λ _,
  (if is_address_owner (stored_owner_kind existing) then
     on_work (upd_object_owner_index_additions
       (λ l, l ++ [MoveAddress.to_hex_literal (stored_owner existing)])) ≫= λ _,
     on_manager (refresh_owned_object_index (stored_owner existing) gas_id (Some sid))
   else mret tt) ≫= λ _,
  record_object_balance_owner_if_needed (stored_owner existing) (type_name existing) payload ≫= λ _,
  match native_amount (type_name existing) payload with
  | Some n => count_after (stored_owner existing) n
  | None => mret tt
  end.

Definition apply_gas_object (cs : ChangeSet) (gas_total : Z) (gas_ref : ObjectRef) : ap unit :=
  let canonical := canonical_owned_object_id (object_id gas_ref) in
  paid ← gas_already_paid cs gas_total canonical;
  if (paid : bool) then mret tt else
  found ← read_manager (load_stored_object_by_any_id (object_id gas_ref));
  match found with
  | None => mret tt
  | Some (sid, existing) =>
      let owner := stored_owner existing in
      '(debit, remaining) ← remaining_debit cs gas_total owner true;
      if (remaining =? 0)%Z then mret tt else
      match native_amount (type_name existing) (stored_data existing) with
      | None => mret tt
      | Some n =>
          st_lift (ensure (remaining <=? n)%Z "Insufficient native gas coin balance") ≫= λ _,
          payload ← st_lift (
            let? t := require (struct_from_str (type_name existing)) "Invalid native gas coin object type" in
            require (write_balance_to_object_bytes (stored_data existing) t (n - remaining))
              "Failed to write adjusted native gas coin balance");
          write_gas_object (object_id gas_ref) canonical sid existing payload ≫= λ _,
          on_work (upd_native_object_gas_adjusted <[owner := debit]>)
      end
  end.

(** *** Recomputed balances *)

(** The owner's native balance already agrees with its changed coin objects and
    nothing else of the owner changed. *)
Definition already_reconciled (cs : ChangeSet) (owner : bytes) (ledger_before object_before : Z) (w : Work) :
    result bool :=
  let delta := delta_in cs owner in
  let credit := default 0%Z (native_gas_credits cs !! owner) in
  if ((delta <=? 0) || (credit =? 0))%Z
     && bool_decide (owner ∈ native_object_changed_owners w)
     && negb (bool_decide (owner ∈ non_native_object_changed_owners w))
     && negb (bool_decide (owner ∈ native_object_owner_changed_owners w))
     && negb (bool_decide (owner ∈ native_object_created_owners w)) then
    match native_object_after_from_changes w !! owner, native_balance_after_owner_deltas w !! owner with
    | Some object_after, Some current =>
        if (0 <? current)%Z then
          let? with_ledger :=
            require (a ← checked_add object_after (saturating_sub ledger_before object_before);
                     checked_add a credit)
              "Native owner balance overflow during object reconciliation" in
          let expected := if (delta <? 0)%Z then Z.min with_ledger current else with_ledger in
          Ok (expected =? current)%Z
        else Ok false
    | _, _ => Ok false
    end
  else Ok false.

Definition recompute_owner (cs : ChangeSet) (before : gmap bytes (Z * Z)) (owner : bytes) : ap unit :=
  w ← read_work (λ w, w);
  let '(ledger_before, object_snapshot) := default (0, 0)%Z (before !! owner) in
  let object_before :=
    if (0 <? object_snapshot)%Z then object_snapshot
    else default 0%Z (native_object_before_from_changes w !! owner) in
  skip ← st_lift (already_reconciled cs owner ledger_before object_before w);
  if (skip : bool) then mret tt else
  changed ← on_manager (recompute_token_balances_for_owner owner (delta_in cs owner)
    (bool_decide (owner ∈ native_object_changed_owners w))
    (default 0%Z (native_gas_credits cs !! owner)) ledger_before object_before);
  if (changed : bool) then on_work (upd_supplies_dirty (λ _, true)) else mret tt.

(** *** Move writes and dynamic fields *)

Definition apply_move_write (entry : bytes * option bytes) : sm unit :=
  let '(key, value) := entry in
  (match value with
   | Some b => save_internal blob_codec key b
   | None => st_modify (put_overlay key None)
   end) ≫= λ _,
  if starts_with (str "module:") key then
    if utf8_valid key then
      if is_none value then remove_from_index_list (str "module_index") key
      else add_to_index_list (str "module_index") key
    else st_lift (Err "Move module key is not valid UTF-8")
  else mret tt.

Definition apply_added_field (entry : bytes * bytes * bytes) : sm unit :=
  let '(id, name, value) := entry in save_internal blob_codec (dynamic_field_key id name) value.
Definition apply_removed_field (entry : bytes * bytes) : sm unit :=
  st_modify (put_overlay (dynamic_field_key entry.1 entry.2) None).

(** ** [apply_changeset_with_options] *)

(** Everything that is computed before the first write. *)
Record Prepared := {
  prepared_supply : option Z;
  prepared_gas_total : Z;
  prepared_before : gmap bytes (Z * Z);
  prepared_reconcile : bool;
  prepared_issued : gmap bytes Z;
  prepared_visible : gmap bytes Z
}.
Definition prepare (cs : ChangeSet) (s : StateManager) : result Prepared :=
  let? delta := changeset_supply_delta cs in
  let? next := next_total_supply delta s in
  let? gas_total := native_gas_debit_total cs in
  let? before := native_balances_before cs s in
  let? _ := check_debits cs before in
  let? reconcile := needs_object_locked_reconciliation cs s in
  let? '(issued, visible) :=
    if (reconcile : bool) then capture_supply_snapshots (supply_tracking_token_types cs s) s
    else Ok (∅, ∅) in
  Ok {| prepared_supply := next; prepared_gas_total := gas_total; prepared_before := before;
        prepared_reconcile := reconcile; prepared_issued := issued; prepared_visible := visible |}.

Definition write_owners (cs : ChangeSet) (p : Prepared) : ap unit :=
  for_each (btree_iter (owner_deltas cs)) (apply_owner_delta (prepared_before p)) ≫= λ _,
  additions ← read_work owner_index_additions;
  on_manager (add_many_to_index_list OWNER_INDEX_KEY additions) ≫= λ _,
  match prepared_supply p with
  | Some next => on_manager (save_native_total_supply next)
  | None => mret tt
  end.

Definition write_records (cs : ChangeSet) : ap unit :=
  on_manager (for_each (treasuries cs) apply_treasury) ≫= λ _,
  on_manager (for_each (nft_caps cs) apply_nft_cap) ≫= λ _,
  for_each (token_balance_sets cs) (apply_balance_hint cs).

Definition write_objects (cs : ChangeSet) (p : Prepared) : ap unit :=
  for_each (deleted_objects cs) apply_deleted_object ≫= λ _,
  on_manager (for_each (created_objects cs) index_collection) ≫= λ _,
  on_manager (for_each (events cs) index_mint_event) ≫= λ _,
  for_each (created_objects cs) (apply_created_object cs (prepared_gas_total p)) ≫= λ _,
  for_each (cs_gas_object_refs cs) (apply_gas_object cs (prepared_gas_total p)).

Definition write_indexes : ap unit :=
  owned ← read_work owned_object_index_additions;
  on_manager (for_each (btree_iter owned) (λ '(owner, ids), add_many_owned_object_index owner ids)) ≫= λ _,
  objects ← read_work object_index_additions;
  on_manager (add_many_to_index_list (str "object_index") objects) ≫= λ _,
  owners ← read_work object_owner_index_additions;
  on_manager (add_many_to_index_list OWNER_INDEX_KEY owners).

Definition write_balances (cs : ChangeSet) (p : Prepared) : ap unit :=
  owners ← read_work owners_to_recompute;
  for_each (sort_dedup (elements owners)) (recompute_owner cs (prepared_before p)) ≫= λ _,
  (if prepared_reconcile p
   then on_manager (reconcile_object_locked_coin_records cs (prepared_issued p) (prepared_visible p))
   else mret tt) ≫= λ _,
  dirty ← read_work supplies_dirty;
  if (dirty : bool) then on_manager save_supplies else mret tt.

Definition write_fields (persist : bool) (cs : ChangeSet) : ap unit :=
  on_manager (for_each (btree_iter (move_writes cs)) apply_move_write) ≫= λ _,
  on_manager (for_each (added_dynamic_fields cs) apply_added_field) ≫= λ _,
  on_manager (for_each (removed_dynamic_fields cs) apply_removed_field) ≫= λ _,
  on_manager (advance_access_versions persist (deterministic_access_set cs)).

Definition write_all (persist : bool) (cs : ChangeSet) (p : Prepared) : ap unit :=
  write_owners cs p ≫= λ _,
  write_records cs ≫= λ _,
  write_objects cs p ≫= λ _,
  write_indexes ≫= λ _,
  write_balances cs p ≫= λ _,
  write_fields persist cs.

(** [validate_supply = false] *)
Definition apply_changeset_without_supply_validation (persist : bool) (cs : ChangeSet) : sm unit := λ s,
  match prepare cs s with
  | Err e => (s, Err e)
  | Ok p =>
      let '(a, r) := write_all persist cs p {| manager := s; work := no_work |} in (manager a, r)
  end.

(** [validate_supply = true]: on a clone that replaces the state at the end.
    Reporting a violation may fail on its own; the violation fails in any case. *)
Definition apply_validated (persist fail_fast : bool) (cs : ChangeSet) : sm unit := λ s,
  let candidate :=
    apply_changeset_without_supply_validation persist cs ≫= λ _,
    repair_legacy_native_wallet_overcount ≫= λ _,
    s' ← st_gets (λ s, s);
    st_lift (match validate_cached_supply_invariants s' with
             | Ok _ => Ok tt
             | Err e => let? _ := report_supply_invariant_violation fail_fast in Err e
             end) in
  match candidate s with
  | (s', Ok _) => (s', Ok tt)
  | (_, Err e) => (s, Err e)
  end.

Definition apply_changeset (persist fail_fast : bool) (cs : ChangeSet) : sm unit := λ s,
  let precheck :=
    if list_empty (treasuries cs) && (total_supply s <? native_cached s)%Z
    then validate_supply_invariants s else Ok tt in
  match precheck with
  | Err e => (s, Err e)
  | Ok _ => apply_validated persist fail_fast cs s
  end.

(** ** [try_apply_owned_native_burn_batch_without_supply_validation] *)

Record BurnBatch := {
  burn_deltas : gmap bytes Z;
  burn_updates : list StoredObject;
  burn_writes : gset bytes;
  burn_supply : Z
}.

(** The shape of an owned native burn: one gas object, rewritten, and nothing
    else but owner deltas and gas credits. *)
Definition is_owned_burn (cs : ChangeSet) : bool :=
  success cs && list_empty (events cs) && list_empty (treasuries cs) && list_empty (nft_caps cs)
  && list_empty (token_balance_sets cs) && list_empty (cs_shared_inputs cs)
  && list_empty (cs_immutable_inputs cs) && negb (is_none (cs_gas_payment cs))
  && (length (cs_gas_object_refs cs) =? 1) && (length (created_objects cs) =? 1)
  && list_empty (deleted_objects cs) && list_empty (added_dynamic_fields cs)
  && list_empty (removed_dynamic_fields cs) && bool_decide (move_writes cs = ∅)
  && bool_decide (resolver_reads cs = ∅).

Definition burn_delta (acc : gmap bytes Z * Z) (entry : bytes * OwnerDelta) : result (option (gmap bytes Z * Z)) :=
  let '(owner, d) := entry in
  if negb (bool_decide (modules_added d = ∅)) then Ok None else
  let? v := require (i128_checked_add (default 0%Z (acc.1 !! owner)) (balance_delta d))
              "Native owned batch owner delta overflow" in
  let? total := require (i128_checked_add acc.2 (balance_delta d))
                  "Native owned batch supply delta overflow" in
  Ok (Some (<[owner := v]> acc.1, total)).

(** [try_fold] with an early [return Ok(false)], [None]. *)
Fixpoint try_fold_opt {A B} (f : B → A → result (option B)) (l : list A) (acc : B) : result (option B) :=
  match l with
  | [] => Ok (Some acc)
  | x :: l =>
      let? r := f acc x in
      match r with Some acc => try_fold_opt f l acc | None => Ok None end
  end.

(** The coin of a burn after its debit, or [None] when the fast path does not apply. *)
Definition burnt_coin (cs : ChangeSet) (created : CreatedObject) (payment_owner : bytes) : result (option bytes) :=
  if negb (bool_decide (payment_owner = created_owner created)) then Ok None else
  let delta := delta_in cs (created_owner created) in
  if (0 <=? delta)%Z then Ok None else
  let? debit := require (to_u64 (- delta)) "Native owned batch sender debit overflowed u64" in
  let? gas := try_fold (λ acc '(_, v), require (checked_add acc v) "Native gas credit overflow in owned batch")
                (btree_iter (native_gas_credits cs)) 0%Z in
  if (debit <? gas)%Z then Ok None else
  match native_amount (type_ created) (data created) with
  | None => Ok None
  | Some balance =>
      if (balance <? debit)%Z then Ok None else
      let? t := require (struct_from_str (type_ created)) "Native owned batch coin object type is invalid" in
      Ok (write_balance_to_object_bytes (data created) t (balance - debit))
  end.

Definition burn_member (acc : BurnBatch) (cs : ChangeSet) : result (option BurnBatch) :=
  if negb (is_owned_burn cs) then Ok None else
  match cs_gas_object_refs cs, created_objects cs, cs_gas_payment cs with
  | gas_ref :: _, (object_id, created) :: _, Some payment =>
      let canonical := canonical_owned_object_id object_id in
      if negb (bool_decide (canonical_owned_object_id (Transaction.object_id gas_ref) = canonical)) then Ok None else
      if is_none (native_amount (type_ created) (data created)) then Ok None else
      let? owner := require (MoveAddress.from_hex_literal (payment_owner payment))
                      "Native owned batch gas payment owner is invalid" in
      let? coin := burnt_coin cs created owner in
      match coin with
      | None => Ok None
      | Some payload =>
          let? deltas := try_fold_opt burn_delta (btree_iter (owner_deltas cs)) (burn_deltas acc, burn_supply acc) in
          match deltas with
          | None => Ok None
          | Some (owner_deltas, supply) =>
              Ok (Some {| burn_deltas := owner_deltas;
                          burn_updates := burn_updates acc ++ [{|
                            stored_id := canonical; stored_owner := created_owner created;
                            stored_owner_kind := owner_kind created; type_name := type_ created;
                            stored_data := payload;
                            stored_version := saturating_add (created_version created) 1 |}];
                          burn_writes := burn_writes acc ∪ {[object_key canonical]};
                          burn_supply := supply |})
          end
      end
  | _, _, _ => Ok None
  end.

Definition burn_total_supply (supply_delta : Z) : sm unit :=
  if (0 <=? supply_delta)%Z then mret tt else
  n ← st_lift (require (to_u64 (- supply_delta)) "Native owned batch burn overflowed u64");
  total ← st_gets total_supply;
  st_lift (ensure (n <=? total)%Z "Native total supply underflow") ≫= λ _,
  save_native_total_supply (total - n) ≫= λ _,
  visible ← st_gets native_cached;
  st_lift (ensure (n <=? visible)%Z "Native visible supply underflow in owned batch") ≫= λ _,
  store_native_cache (visible - n) ≫= λ _,
  save_supplies.

Definition burn_next_balance (current delta : Z) : result Z :=
  if (0 <=? delta)%Z then
    let? n := require (to_u64 delta) "Native credit overflowed u64" in
    require (checked_add current n) "Native owner balance overflow"
  else
    let? debit := require (to_u64 (- delta)) "Native debit overflowed u64" in
    let? _ := ensure (debit <=? current)%Z "Insufficient native balance" in
    require (checked_sub current debit) "Native owner balance underflow after debit precheck".

(** The index additions of one owner of the batch. *)
Definition burn_owner (entry : bytes * Z) : sm (list bytes) :=
  let '(owner, delta) := entry in
  o ← ask (load_owner_state_or_default owner);
  next ← st_lift (burn_next_balance (native_balance o) delta);
  let o := set_token_balance_value GAS_COIN next o in
  if owner_is_empty o then
    st_modify (put_overlay (owner_state_key owner) None) ≫= λ _,
    remove_from_index_list OWNER_INDEX_KEY (MoveAddress.to_hex_literal owner) ≫= λ _, mret []
  else save_owner_record o ≫= λ _, mret [MoveAddress.to_hex_literal owner].

Fixpoint burn_owners (entries : list (bytes * Z)) : sm (list bytes) :=
  match entries with
  | [] => mret []
  | e :: entries => l ← burn_owner e; rest ← burn_owners entries; mret (l ++ rest)
  end.

Definition try_apply_owned_native_burn_batch_without_supply_validation (persist : bool)
    (changesets : list ChangeSet) : sm bool :=
  match changesets with
  | [] => mret true
  | _ =>
      batch ← st_lift (try_fold_opt burn_member changesets
        {| burn_deltas := ∅; burn_updates := []; burn_writes := ∅; burn_supply := 0 |});
      match batch with
      | None => mret false
      | Some b =>
          if (0 <? burn_supply b)%Z then mret false else
          burn_total_supply (burn_supply b) ≫= λ _,
          additions ← burn_owners (btree_iter (burn_deltas b));
          for_each (burn_updates b) (λ o, save_internal object_codec (object_key (stored_id o)) o) ≫= λ _,
          add_many_to_index_list OWNER_INDEX_KEY additions ≫= λ _,
          advance_access_versions persist {| reads := ∅; writes := burn_writes b |} ≫= λ _,
          mret true
      end
  end.
End Apply.
