(* ===== verification/StateRoot.v ===== *)
(** * The canonical state and its changes: [kanari-move-runtime-v1/src/state.rs]

    Which entries of the state enter the root, the changes of the tree that a
    pending overlay stands for, the root, and the commit of the overlay to the
    in-memory backend. *)

From stdpp Require Import base list gmap strings sorting.
From Stdlib Require Import ZArith Lia.
From S2P Require Import Prelude Order Hashing Text Address SmtBatch Transaction ChangeSet StateManager.

Section Root.
Context {B3 : Blake3} {HX : Hex} {SC : StateCodecs} {TT : TypeTags}.
Local Abbreviation entries_t := (gmap bytes bytes).

Definition is_canonical_state_root_key (key : bytes) : bool :=
  negb (bool_decide (key = GENESIS_INITIALIZED_KEY))
  && (bool_decide (key = str "total_supply")
      || starts_with (str "resource:") key || starts_with (str "account:") key
      || starts_with (str "df:") key || starts_with (str "system:") key
      || starts_with (str "supply:") key || starts_with (str "treasury:") key
      || starts_with (str "nft:") key).

(** The object keys an owned-objects index stands for: all identifiers are
    brought to canonical form, then every object must be present and decode. *)
Fixpoint all_canonical (ids : list bytes) : result (list bytes) :=
  match ids with
  | [] => Ok []
  | id :: ids =>
      let? canonical := require (canonical_object_id id) "Invalid object id in owned-object index" in
      let? rest := all_canonical ids in
      Ok (canonical :: rest)
  end.
Fixpoint present_objects (entries : entries_t) (ids : list bytes) : result (list bytes) :=
  match ids with
  | [] => Ok []
  | id :: ids =>
      let? b := require (entries !! object_key id) "Owned-object index references missing object" in
      let? _ := decode object_codec b in
      let? rest := present_objects entries ids in
      Ok (object_key id :: rest)
  end.
Definition indexed_object_keys (entries : entries_t) (ids : list bytes) : result (list bytes) :=
  let? canonical := all_canonical ids in present_objects entries canonical.

(** The loop over the entries: module keys and object keys of the indexes. *)
Definition indexed_keys_of (entries : entries_t) (acc : gset bytes) (entry : bytes * bytes) : result (gset bytes) :=
  let '(key, value) := entry in
  if decide (key = str "module_index") then
    let? ids := decode ids_codec value in
    Ok (acc ∪ list_to_set (List.filter (starts_with (str "module:")) ids))
  else if starts_with (str "owned_objects:") key then
    let? ids := decode ids_codec value in
    let? keys := indexed_object_keys entries ids in
    Ok (acc ∪ list_to_set keys)
  else Ok acc.

Definition retain_canonical_state_root_entries (entries : entries_t) : result entries_t :=
  let? keys := try_fold (indexed_keys_of entries) (btree_iter entries) ∅ in
  Ok (filter (λ e, is_canonical_state_root_key e.1 || bool_decide (e.1 ∈ keys) = true) entries).

(** [entries.insert] or [entries.remove] for every pending change *)
Definition merged_entries (s : StateManager) : entries_t :=
  foldl (λ (m : entries_t) '(k, v), put_or_remove k v m) (store s) (btree_iter (overlay s)).

Definition canonical_persisted_entries (s : StateManager) : result entries_t :=
  retain_canonical_state_root_entries (store s).
Definition try_canonical_state_snapshot (s : StateManager) : result entries_t :=
  retain_canonical_state_root_entries (merged_entries s).

(** The branch without an incremental tree. *)
Definition try_compute_state_root (s : StateManager) : result bytes :=
  let? entries := try_canonical_state_snapshot s in
  Ok (compute_sparse_root (btree_iter entries)).

(** *** Changes of the tree *)

Definition is_canonical_smt_update (key value : bytes) (s : StateManager) : result bool :=
  if is_canonical_state_root_key key then Ok true
  else if starts_with (str "module:") key && utf8_valid (drop 7 key) then
    let? ids := load_index_list (str "module_index") s in
    Ok (bool_decide (key ∈ ids))
  else if starts_with (str "object:") key && utf8_valid (drop 7 key) then
    let? object := decode object_codec value in
    match stored_owner_kind object with
    | AddressOwner _ =>
        let? canonical := require (canonical_object_id (drop 7 key)) "Invalid canonical object id" in
        let? ids := load_index_list (owned_objects_key (stored_owner object)) s in
        Ok (binary_search canonical ids).1
    | _ => Ok false
    end
  else Ok false.

(** Updates and deletes accumulated so far. *)
Definition changes_t : Type := list (bytes * bytes) * list bytes.

Definition overlay_update_is_canonical (key value : bytes) (s : StateManager) : result bool :=
  if starts_with (str "object:") key && utf8_valid (drop 7 key) then
    let? object := decode object_codec value in
    match stored_owner_kind object with
    | AddressOwner _ =>
        let? canonical := require (canonical_object_id (drop 7 key)) "Invalid canonical object id" in
        Ok (bool_decide (canonical = drop 7 key))
    | _ => Ok false
    end
  else is_canonical_smt_update key value s.

Definition is_indexed_key (key : bytes) : bool :=
  starts_with (str "module:") key || starts_with (str "object:") key.

Definition overlay_change (s : StateManager) (acc : changes_t) (entry : bytes * option bytes) : result changes_t :=
  match entry with
  | (key, Some value) =>
      let? canonical := overlay_update_is_canonical key value s in
      Ok (if (canonical : bool) then (acc.1 ++ [(key, value)], acc.2)
          else if is_indexed_key key then (acc.1, acc.2 ++ [key]) else acc)
  | (key, None) =>
      Ok (if is_canonical_state_root_key key || is_indexed_key key then (acc.1, acc.2 ++ [key]) else acc)
  end.

(** Membership changes of objects that are not in the overlay themselves. *)
Definition canonical_ids (ids : list bytes) : list bytes := sort_dedup (omap canonical_object_id ids).
Definition added_object (s : StateManager) (acc : changes_t) (id : bytes) : result changes_t :=
  let key := object_key id in
  let? o := load_internal object_codec key s in
  Ok (match o with
      | Some object =>
          if match stored_owner_kind object with AddressOwner _ => true | _ => false end
          then (acc.1 ++ [(key, enc object_codec object)], acc.2) else acc
      | None => acc
      end).
Definition index_change (s : StateManager) (acc : changes_t) (entry : bytes * option bytes) : result changes_t :=
  let '(key, value) := entry in
  if negb (starts_with (str "owned_objects:") key) then Ok acc else
  let? old := store_load ids_codec key (store s) in
  let? new := match value with Some b => decode ids_codec b | None => Ok [] end in
  let old_ids := canonical_ids (default [] old) in
  let new_ids := canonical_ids new in
  let removed := List.filter (λ id, negb (bool_decide (id ∈ new_ids))) old_ids in
  let added := List.filter (λ id, negb (bool_decide (id ∈ old_ids))) new_ids in
  try_fold (added_object s) added (acc.1, acc.2 ++ map object_key removed).

Definition smt_changes_from_overlay (s : StateManager) : result changes_t :=
  let? c1 := try_fold (overlay_change s) (btree_iter (overlay s)) ([], []) in
  let? '(updates, deletes) := try_fold (index_change s) (btree_iter (overlay s)) c1 in
  let updates := dedup_by_key (sort_by_key updates) in
  let deletes := List.filter (λ k, negb (bool_decide (k ∈ map fst updates))) deletes in
  Ok (updates, sort_dedup deletes).

Definition membership_changed (s : StateManager) (entry : bytes * option bytes) : result bool :=
  let '(key, value) := entry in
  if negb (bool_decide (key = str "module_index")) && negb (starts_with (str "owned_objects:") key)
  then Ok false else
  let? old := store_load ids_codec key (store s) in
  let? new := match value with Some b => let? ids := decode ids_codec b in Ok (Some ids) | None => Ok None end in
  Ok (negb (bool_decide (old = new))).
Definition canonical_membership_changed (s : StateManager) : result bool :=
  try_fold (λ acc e, if (acc : bool) then Ok true else membership_changed s e) (btree_iter (overlay s)) false.

(** *** Commit *)

(** [PersistentStore::apply_raw_changes] *)
Definition apply_raw_changes (updates : list (bytes * bytes)) (deletes : list bytes) (m : entries_t) : entries_t :=
  foldl (λ (m : entries_t) k, delete k m)
    (foldl (λ (m : entries_t) '(k, v), <[k := v]> m) m updates) deletes.

Definition overlay_updates (s : StateManager) : list (bytes * bytes) :=
  omap (λ '(k, v), pair k <$> v) (btree_iter (overlay s)).
Definition overlay_deletes (s : StateManager) : list bytes :=
  omap (λ '(k, v), match v with None => Some k | Some _ => None end) (btree_iter (overlay s)).

(** [commit_with_raw_updates_and_root] without an incremental tree. *)
Definition commit_with_raw_updates_and_root (updates : list (bytes * bytes)) (deletes : list bytes) : sm unit := λ s,
  ({| store := apply_raw_changes (updates ++ overlay_updates s) (deletes ++ overlay_deletes s) (store s);
      overlay := ∅; total_supply := total_supply s; global_token_supplies := global_token_supplies s;
      access_versions := access_versions s; access_epoch := access_epoch s |}, Ok tt).
Definition commit_with_raw_update (key value : bytes) : sm unit :=
  commit_with_raw_updates_and_root [(key, value)] [].
Definition commit : sm unit := commit_with_raw_updates_and_root [] [].
End Root.
