(* ===== verification/StateRootTheorems.v ===== *)
(** * The canonical state: theorems

    The entries that enter the state root, and the theorem that the changes
    derived from a pending overlay turn the persisted canonical entries into
    the canonical entries of the new state, so that the root of the incremental
    tree is the root computed from scratch. *)

From stdpp Require Import base list gmap strings sorting.
From Stdlib Require Import ZArith Lia.
From S2P Require Import Prelude Order Hashing Text Address Store SmtPath SmtSpec SmtTree SmtOps SmtCorrect SmtBatch SmtTheorems Transaction ChangeSet StateManager StateRoot.

(** ** Folds that collect *)

Lemma try_fold_collects {A B K} (f : B → A → result B) (mem : B → K → Prop) (P : A → K → Prop)
    (l : list A) acc r :
  (∀ acc x acc', x ∈ l → f acc x = Ok acc' → ∀ k, mem acc' k ↔ mem acc k ∨ P x k) →
  try_fold f l acc = Ok r → ∀ k, mem r k ↔ mem acc k ∨ ∃ x, x ∈ l ∧ P x k.
Proof.
  revert acc. induction l as [|x l IH]; intros acc Hf E k; cbn [try_fold] in E.
  - injection E as <-. split; [by left|]. intros [H|(x & Hx & _)]; [done|]. by apply elem_of_nil in Hx.
  - apply result_bind_ok in E as (acc' & E1 & E2).
    rewrite (IH acc'), (Hf acc x acc'); [|by left|done|intros a y a' Hy; apply Hf; by right|done].
    setoid_rewrite elem_of_cons. naive_solver.
Qed.

Lemma try_fold_total {A B} (f : B → A → result B) (l : list A) acc :
  (∀ acc x, x ∈ l → ∃ acc', f acc x = Ok acc') → ∃ r, try_fold f l acc = Ok r.
Proof.
  revert acc. induction l as [|x l IH]; intros acc H; cbn [try_fold]; [eauto|].
  destruct (H acc x) as [acc' ->]; [by left|]. apply IH. intros a y Hy. apply H. by right.
Qed.

Lemma try_fold_each {A B} (f : B → A → result B) (l : list A) acc r x :
  try_fold f l acc = Ok r → x ∈ l → ∃ a a', f a x = Ok a'.
Proof.
  revert acc. induction l as [|y l IH]; intros acc E Hx; [by apply elem_of_nil in Hx|].
  cbn [try_fold] in E. apply result_bind_ok in E as (acc' & E1 & E2).
  apply elem_of_cons in Hx as [->|Hx]; [eauto|by eapply IH].
Qed.

(** ** Keys *)

Lemma starts_with_true p l : starts_with p l = true ↔ ∃ r, l = p ++ r.
Proof.
  split; [intros H; exists (drop (length p) l); by apply starts_with_inv|].
  intros [r ->]. apply starts_with_app.
Qed.

Lemma elem_of_btree {V} (m : gmap bytes V) k v : (k, v) ∈ btree_iter m ↔ m !! k = Some v.
Proof. rewrite btree_iter_perm. apply elem_of_map_to_list. Qed.

Lemma starts_with_clash p l x y p' l' : p = x :: p' → l = y :: l' → x ≠ y → starts_with p l = false.
Proof.
  intros -> -> Hne. unfold starts_with. apply bool_decide_eq_false. cbn [length take]. congruence.
Qed.

(** No root key is a module or an object key. *)
Lemma root_key_not_indexed k : is_canonical_state_root_key k = true → is_indexed_key k = false.
Proof.
  intros Hr. destruct (is_indexed_key k) eqn:E; [|done]. exfalso.
  assert (H : ∃ y l, k = y :: l ∧ (y = 109 ∨ y = 111)%Z).
  { unfold is_indexed_key in E. apply orb_true_iff in E as [[r ->]%starts_with_true|[r ->]%starts_with_true];
      [exists 109%Z|exists 111%Z]; eexists; (split; [reflexivity|]); auto. }
  destruct H as (y & l & -> & Hy). unfold is_canonical_state_root_key in Hr.
  rewrite andb_true_iff, !orb_true_iff in Hr. destruct Hr as [_ Hr].
  repeat (destruct Hr as [Hr|Hr]; [|]);
    try (apply bool_decide_eq_true in Hr; destruct Hy; subst y; discriminate Hr);
    (erewrite starts_with_clash in Hr; [discriminate Hr|reflexivity|reflexivity|]; destruct Hy; subst y; discriminate).
Qed.

(** ** The retained entries *)

Definition is_address_kind (k : ObjectOwnerKind) : bool :=
  match k with AddressOwner _ => true | _ => false end.

Section Canonical.
Context {B3 : Blake3} {HX : Hex} {SC : StateCodecs} {TT : TypeTags}.
Local Abbreviation entries_t := (gmap bytes bytes).

(** [id] is the canonical form of an entry of the owned-objects index of [w]. *)
Definition in_index (m : entries_t) (w id : bytes) : Prop :=
  ∃ b ids i, m !! owned_objects_key w = Some b ∧ dec ids_codec b = Some ids
             ∧ i ∈ ids ∧ canonical_object_id i = Some id.
Definition in_module_index (m : entries_t) (k : bytes) : Prop :=
  ∃ b ids, m !! str "module_index" = Some b ∧ dec ids_codec b = Some ids ∧ k ∈ ids.
(** The keys that enter the root because an index names them. *)
Definition indexed_key (m : entries_t) (k : bytes) : Prop :=
  (starts_with (str "module:") k = true ∧ in_module_index m k)
  ∨ ∃ w id, k = object_key id ∧ in_index m w id.

Lemma decode_ok {T} (c : Codec T) b v : decode c b = Ok v ↔ dec c b = Some v.
Proof. unfold decode. destruct (dec c b); naive_solver. Qed.
Lemma require_ok {A} (o : option A) msg a : require o msg = Ok a ↔ o = Some a.
Proof. destruct o; cbn; naive_solver. Qed.

Lemma all_canonical_spec ids cs :
  all_canonical ids = Ok cs → ∀ c, c ∈ cs ↔ ∃ i, i ∈ ids ∧ canonical_object_id i = Some c.
Proof.
  revert cs. induction ids as [|i ids IH]; intros cs E c; cbn [all_canonical] in E.
  - injection E as <-. rewrite elem_of_nil. split; [done|]. intros (i & Hi & _). by apply elem_of_nil in Hi.
  - apply result_bind_ok in E as (d & Ed%require_ok & E). apply result_bind_ok in E as (rest & Er & E).
    injection E as <-. rewrite elem_of_cons, (IH rest Er). setoid_rewrite elem_of_cons. naive_solver.
Qed.
Lemma present_objects_spec (m : entries_t) ids keys :
  present_objects m ids = Ok keys →
  keys = map object_key ids ∧ ∀ id, id ∈ ids → ∃ v o, m !! object_key id = Some v ∧ dec object_codec v = Some o.
Proof.
  revert keys. induction ids as [|i ids IH]; intros keys E; cbn [present_objects] in E.
  - injection E as <-. split; [done|]. intros id Hi. by apply elem_of_nil in Hi.
  - apply result_bind_ok in E as (b & Eb%require_ok & E). apply result_bind_ok in E as (o & Eo%decode_ok & E).
    apply result_bind_ok in E as (rest & Er & E). injection E as <-. destruct (IH rest Er) as [-> H2].
    split; [done|]. intros id [->|Hi]%elem_of_cons; [eauto|by apply H2].
Qed.

Lemma indexed_object_keys_spec (m : entries_t) ids keys :
  indexed_object_keys m ids = Ok keys →
  (∀ k, k ∈ keys ↔ ∃ i id, i ∈ ids ∧ canonical_object_id i = Some id ∧ k = object_key id)
  ∧ (∀ i id, i ∈ ids → canonical_object_id i = Some id →
       ∃ v o, m !! object_key id = Some v ∧ dec object_codec v = Some o).
Proof.
  intros E. apply result_bind_ok in E as (cs & Ec & E). pose proof (all_canonical_spec _ _ Ec) as Hc.
  apply present_objects_spec in E as [-> Hp]. split.
  - intros k. rewrite list_elem_of_fmap. setoid_rewrite Hc. naive_solver.
  - intros i id Hi Hid. apply Hp, Hc. eauto.
Qed.

(** What one entry contributes to the set of indexed keys. *)
Definition contributes (m : entries_t) (entry : bytes * bytes) (k : bytes) : Prop :=
  (entry.1 = str "module_index" ∧ starts_with (str "module:") k = true
   ∧ ∃ ids, dec ids_codec entry.2 = Some ids ∧ k ∈ ids)
  ∨ (∃ w ids i id, entry.1 = owned_objects_key w ∧ dec ids_codec entry.2 = Some ids ∧ i ∈ ids
     ∧ canonical_object_id i = Some id ∧ k = object_key id).

Lemma indexed_keys_of_spec (m : entries_t) acc e acc' :
  indexed_keys_of m acc e = Ok acc' → ∀ k, k ∈ acc' ↔ k ∈ acc ∨ contributes m e k.
Proof.
  destruct e as [key value]. unfold indexed_keys_of, contributes. cbn [fst snd]. intros E k.
  case_decide as Hm.
  - subst key. apply result_bind_ok in E as (ids & Ei & E). apply decode_ok in Ei. injection E as <-.
    rewrite elem_of_union, elem_of_list_to_set, list_elem_of_In, filter_In, <- list_elem_of_In.
    split; [naive_solver|]. intros [H|[(_ & H1 & ids' & H2 & H3)|(w & ids' & i & id & Hk & _)]];
      [by left|right; simplify_eq; auto|discriminate Hk].
  - destruct (starts_with (str "owned_objects:") key) eqn:Es.
    + apply starts_with_true in Es as [w ->].
      apply result_bind_ok in E as (ids & Ei & E). apply decode_ok in Ei.
      apply result_bind_ok in E as (keys & Ek & E). injection E as <-.
      destruct (indexed_object_keys_spec _ _ _ Ek) as [H1 _].
      rewrite elem_of_union, elem_of_list_to_set, H1. split.
      * intros [H|(i & id & Hi & Hc & ->)]; [by left|]. right. right. exists w, ids, i, id. auto.
      * intros [H|[(H & _)|(w' & ids' & i & id & Hw & Hd & Hi & Hc & ->)]]; [by left|done|].
        right. simplify_eq. eauto 10.
    + injection E as <-. split; [by left|]. intros [H|[(H & _)|(w & ids & i & id & -> & _)]]; [done|done|].
      unfold owned_objects_key in Es. by rewrite starts_with_app in Es.
Qed.

Lemma contributes_indexed (m : entries_t) k :
  (∃ e, e ∈ btree_iter m ∧ contributes m e k) ↔ indexed_key m k.
Proof.
  unfold contributes, indexed_key, in_index, in_module_index. split.
  - intros ([key v] & He & H). cbn [fst snd] in H. apply elem_of_btree in He.
    destruct H as [(-> & Hs & ids & Hd & Hk)|(w & ids & i & id & -> & Hd & Hi & Hc & ->)];
      [left|right]; eauto 20.
  - intros [(Hs & b & ids & Hm & Hd & Hk)|(w & id & -> & b & ids & i & Hm & Hd & Hi & Hc)];
      apply elem_of_btree in Hm; eexists; (split; [exact Hm|]); [left|right]; cbn [fst snd]; eauto 20.
Qed.

Lemma retain_spec (m E : entries_t) :
  retain_canonical_state_root_entries m = Ok E →
  (∀ k v, E !! k = Some v ↔
     m !! k = Some v ∧ (is_canonical_state_root_key k = true ∨ indexed_key m k))
  ∧ (∀ w id, in_index m w id → ∃ v o, m !! object_key id = Some v ∧ dec object_codec v = Some o).
Proof.
  unfold retain_canonical_state_root_entries. intros H.
  apply result_bind_ok in H as (keys & Ek & H). injection H as <-. split.
  - intros k v. rewrite map_lookup_filter_Some. cbn [fst]. rewrite orb_true_iff, bool_decide_eq_true.
    rewrite (try_fold_collects _ (λ (B : gset bytes) k, k ∈ B) _ _ _ _
      (λ acc x acc' _, indexed_keys_of_spec m acc x acc') Ek k).
    rewrite contributes_indexed. set_solver.
  - intros w id (b & ids & i & Hm & Hd & Hi & Hc).
    destruct (try_fold_each _ _ _ _ (owned_objects_key w, b) Ek) as (a & a' & Ea);
      [by apply elem_of_btree|].
    unfold indexed_keys_of in Ea. rewrite decide_False in Ea by done.
    unfold owned_objects_key in Ea at 1. rewrite starts_with_app in Ea.
    apply result_bind_ok in Ea as (ids' & Ei & Ea). apply decode_ok in Ei. simplify_eq.
    apply result_bind_ok in Ea as (keys' & Ek' & _).
    destruct (indexed_object_keys_spec _ _ _ Ek') as [_ H2]. by eapply H2.
Qed.

(** ** The pending changes *)

(** The state as the node maintains it: every module key is named by the module
    index; an object is named by exactly the index of its owner, if it has an
    address owner and is stored under its canonical identifier. *)
Record indexed_state (m : entries_t) : Prop := {
  modules_indexed : ∀ k v, m !! k = Some v → starts_with (str "module:") k = true →
    utf8_valid (drop 7 k) = true ∧ in_module_index m k;
  objects_indexed : ∀ id v, m !! object_key id = Some v →
    utf8_valid id = true ∧ ∃ o, dec object_codec v = Some o ∧ enc object_codec o = v
    ∧ (is_address_kind (stored_owner_kind o) = true → is_Some (canonical_object_id id))
    ∧ ∀ w, in_index m w id ↔
        is_address_kind (stored_owner_kind o) = true ∧ stored_owner o = w ∧ canonical_object_id id = Some id
}.

Lemma index_decodes (m E : entries_t) key b :
  retain_canonical_state_root_entries m = Ok E → starts_with (str "owned_objects:") key = true →
  m !! key = Some b → ∃ ids, dec ids_codec b = Some ids.
Proof.
  unfold retain_canonical_state_root_entries. intros H Hk Hm.
  apply result_bind_ok in H as (keys & Ek & _).
  destruct (try_fold_each _ _ _ _ (key, b) Ek) as (a & a' & Ea); [by apply elem_of_btree|].
  unfold indexed_keys_of in Ea. rewrite decide_False in Ea by (intros ->; discriminate Hk).
  rewrite Hk in Ea. apply result_bind_ok in Ea as (ids & Ei & _). apply decode_ok in Ei. eauto.
Qed.

(** The view as a map. *)
Lemma put_all_lookup (l : list (bytes * option bytes)) (m : entries_t) k :
  NoDup (map fst l) →
  foldl (λ (m : entries_t) '(k, v), put_or_remove k v m) m l !! k
  = match (list_to_map l : gmap bytes (option bytes)) !! k with Some v => v | None => m !! k end.
Proof.
  revert m. induction l as [|[j v] l IH]; intros m Hd; [done|].
  cbn [map fst] in Hd. apply NoDup_cons in Hd as [Hj Hd]. cbn [foldl list_to_map foldr]. rewrite IH by done.
  destruct (decide (j = k)) as [->|Hne].
  - rewrite (not_elem_of_list_to_map_1 l k) by done. cbn. rewrite lookup_insert_eq, lookup_put_or_remove.
    by rewrite decide_True.
  - cbn. rewrite lookup_insert_ne by done. rewrite lookup_put_or_remove, decide_False by done. done.
Qed.
Lemma merged_lookup s k : merged_entries s !! k = view s k.
Proof.
  unfold merged_entries, view. rewrite put_all_lookup by apply btree_iter_NoDup. by rewrite btree_iter_map.
Qed.

Section Delta.
Context (s : StateManager) (E0 E1 : entries_t).
Local Abbreviation St := (store s).
Local Abbreviation V := (merged_entries s).
Hypothesis store_indexed : indexed_state St.
Hypothesis view_indexed : indexed_state V.
Hypothesis store_retained : retain_canonical_state_root_entries St = Ok E0.
Hypothesis view_retained : retain_canonical_state_root_entries V = Ok E1.

Definition canonical (m : entries_t) (k : bytes) : Prop :=
  is_canonical_state_root_key k = true ∨ indexed_key m k.

Lemma retained_store k v : E0 !! k = Some v ↔ St !! k = Some v ∧ canonical St k.
Proof. apply (proj1 (retain_spec _ _ store_retained)). Qed.
Lemma retained_view k v : E1 !! k = Some v ↔ V !! k = Some v ∧ canonical V k.
Proof. apply (proj1 (retain_spec _ _ view_retained)). Qed.

Lemma object_key_inj a b : object_key a = object_key b → a = b.
Proof. unfold object_key. by intros H%app_inv_head. Qed.
Lemma owned_objects_key_inj a b : owned_objects_key a = owned_objects_key b → a = b.
Proof. unfold owned_objects_key. by intros H%app_inv_head. Qed.
Lemma object_not_module id : starts_with (str "module:") (object_key id) = false.
Proof. by eapply starts_with_clash; [reflexivity..|]. Qed.
Lemma object_not_root id : is_canonical_state_root_key (object_key id) = false.
Proof.
  destruct (is_canonical_state_root_key (object_key id)) eqn:E; [|done].
  apply root_key_not_indexed in E. unfold is_indexed_key, object_key in E.
  rewrite starts_with_app, orb_true_r in E. discriminate E.
Qed.

(** For objects, being canonical is being named by the index of the owner. *)
Lemma canonical_object (m : entries_t) id : canonical m (object_key id) ↔ ∃ w, in_index m w id.
Proof.
  unfold canonical, indexed_key. rewrite object_not_root, object_not_module. split.
  - intros [H|[[H _]|(w & id' & E & H)]]; [done|done|]. apply object_key_inj in E as ->. eauto.
  - intros [w Hw]. right. right. eauto.
Qed.
Lemma canonical_module (m : entries_t) k v :
  indexed_state m → m !! k = Some v → starts_with (str "module:") k = true → canonical m k.
Proof. intros Hm Hk Hs. right. left. split; [done|]. by eapply (modules_indexed m Hm). Qed.

(** An address-owned object under its canonical identifier. *)
Definition owned_object (id v : bytes) : Prop :=
  ∃ o, dec object_codec v = Some o ∧ is_address_kind (stored_owner_kind o) = true
       ∧ canonical_object_id id = Some id.
Lemma canonical_owned (m : entries_t) id v :
  indexed_state m → m !! object_key id = Some v → canonical m (object_key id) ↔ owned_object id v.
Proof.
  intros Hm Hk. destruct (objects_indexed m Hm id v Hk) as (_ & o & Ho & _ & _ & Hi).
  rewrite canonical_object. split.
  - intros [w Hw%Hi]. exists o. naive_solver.
  - intros (o' & Ho' & Ha & Hc). simplify_eq. exists (stored_owner o). apply Hi. auto.
Qed.

Lemma drop_object id : drop 7 (object_key id) = id.
Proof. reflexivity. Qed.
Lemma object_key_prefix id : starts_with (str "object:") (object_key id) = true.
Proof. apply starts_with_app. Qed.

Lemma canonical_other (m : entries_t) k :
  is_canonical_state_root_key k = false → is_indexed_key k = false → ¬ canonical m k.
Proof.
  unfold is_indexed_key. rewrite orb_false_iff. intros Hr [Hm Ho] [H|[[H _]|(w & id & -> & _)]]; try congruence.
  by rewrite object_key_prefix in Ho.
Qed.

Lemma object_update_decides id v :
  V !! object_key id = Some v →
  ∃ b, overlay_update_is_canonical (object_key id) v s = Ok b ∧ (b = true ↔ canonical V (object_key id)).
Proof.
  intros Hk. setoid_rewrite (canonical_owned V id v view_indexed Hk).
  destruct (objects_indexed V view_indexed id v Hk) as (Hu & o & Ho & _ & Hsome & _).
  unfold overlay_update_is_canonical. rewrite object_key_prefix, drop_object, Hu. cbn [andb].
  rewrite (proj2 (decode_ok _ _ _) Ho). cbn [result_bind]. unfold owned_object.
  destruct (stored_owner_kind o) eqn:Ek.
  - destruct (Hsome eq_refl) as [c Ec]. rewrite Ec. cbn [require result_bind]. eexists. split; [done|].
    rewrite bool_decide_eq_true. split; [intros ->; exists o; by rewrite Ek|].
    intros (o' & _ & _ & E). congruence.
  - exists false. split; [done|]. split; [done|]. intros (o' & Ho' & Ha & _). simplify_eq. by rewrite Ek in Ha.
  - exists false. split; [done|]. split; [done|]. intros (o' & Ho' & Ha & _). simplify_eq. by rewrite Ek in Ha.
Qed.

Lemma load_module_index k :
  in_module_index V k → ∃ ids, load_index_list (str "module_index") s = Ok ids ∧ k ∈ ids.
Proof.
  intros (b & ids & Hm & Hd & Hk). exists ids. split; [|done].
  unfold load_index_list, load_internal. rewrite <- merged_lookup, Hm. cbn [result_bind].
  by rewrite (proj2 (decode_ok _ _ _) Hd).
Qed.

Lemma update_decides k v :
  V !! k = Some v → ∃ b, overlay_update_is_canonical k v s = Ok b ∧ (b = true ↔ canonical V k).
Proof.
  intros Hk. destruct (starts_with (str "object:") k) eqn:Eo.
  { apply starts_with_true in Eo as [id ->]. by apply (object_update_decides id). }
  unfold overlay_update_is_canonical, is_canonical_smt_update. rewrite Eo. cbn [andb].
  destruct (is_canonical_state_root_key k) eqn:Er; [exists true; split; [done|]; split; [by left|done]|].
  destruct (starts_with (str "module:") k) eqn:Em; cbn [andb].
  - destruct (modules_indexed V view_indexed k v Hk Em) as [Hu Hi]. rewrite Hu.
    destruct (load_module_index k Hi) as (ids & -> & Hin). cbn [result_bind].
    rewrite bool_decide_true by done. exists true. split; [done|]. split; [|done].
    intros _. by eapply canonical_module.
  - exists false. split; [done|]. split; [done|]. intros Hc. exfalso. revert Hc.
    apply canonical_other; [done|]. unfold is_indexed_key. by rewrite Em, Eo.
Qed.

(** ** What the two loops collect *)

Lemma overlay_view k v : overlay s !! k = Some v → V !! k = v.
Proof. intros H. rewrite merged_lookup. unfold view. by rewrite H. Qed.
Lemma unchanged k : overlay s !! k = None → V !! k = St !! k.
Proof. intros H. rewrite merged_lookup. unfold view. by rewrite H. Qed.

Definition first_update (e : bytes * option bytes) (x : bytes * bytes) : Prop :=
  e = (x.1, Some x.2) ∧ canonical V x.1.
Definition first_delete (e : bytes * option bytes) (k : bytes) : Prop :=
  e.1 = k ∧ match e.2 with
            | Some _ => ¬ canonical V k ∧ is_indexed_key k = true
            | None => is_canonical_state_root_key k || is_indexed_key k = true
            end.

Lemma overlay_change_spec acc e acc' :
  e ∈ btree_iter (overlay s) → overlay_change s acc e = Ok acc' →
  (∀ x, x ∈ acc'.1 ↔ x ∈ acc.1 ∨ first_update e x) ∧ (∀ k, k ∈ acc'.2 ↔ k ∈ acc.2 ∨ first_delete e k).
Proof.
  destruct e as [k [v|]]; intros He%elem_of_btree%overlay_view E; cbn [overlay_change] in E.
  - destruct (update_decides k v He) as (b & Eb & Hb). rewrite Eb in E. cbn [result_bind] in E.
    unfold first_update, first_delete. cbn [fst snd]. injection E as <-. destruct b.
    + assert (Hc : canonical V k) by (by apply Hb). cbn [fst snd]. split; [|naive_solver].
      intros [j u]. rewrite elem_of_app, list_elem_of_singleton. cbn [fst snd]. naive_solver.
    + assert (Hc : ¬ canonical V k) by (intros H%Hb; done).
      destruct (is_indexed_key k) eqn:Ei; cbn [fst snd]; (split; [naive_solver|]); intros j.
      * rewrite elem_of_app, list_elem_of_singleton. naive_solver.
      * naive_solver congruence.
  - unfold first_update, first_delete. cbn [fst snd]. injection E as <-.
    destruct (is_canonical_state_root_key k || is_indexed_key k) eqn:Ei; cbn [fst snd];
      (split; [naive_solver|]); intros j; rewrite ?elem_of_app, ?list_elem_of_singleton; naive_solver congruence.
Qed.

Lemma overlay_change_total acc e :
  e ∈ btree_iter (overlay s) → ∃ acc', overlay_change s acc e = Ok acc'.
Proof.
  destruct e as [k [v|]]; intros He%elem_of_btree%overlay_view; cbn [overlay_change]; [|eauto].
  destruct (update_decides k v He) as (b & -> & _). cbn [result_bind]. eauto.
Qed.

Lemma canonical_ids_spec ids id :
  id ∈ canonical_ids ids ↔ ∃ i, i ∈ ids ∧ canonical_object_id i = Some id.
Proof. unfold canonical_ids. by rewrite elem_of_sort_dedup, list_elem_of_omap. Qed.

Lemma owned_prefix w : starts_with (str "owned_objects:") (owned_objects_key w) = true.
Proof. apply starts_with_app. Qed.

Lemma old_index w :
  ∃ old, store_load ids_codec (owned_objects_key w) St = Ok old
         ∧ ∀ id, id ∈ canonical_ids (default [] old) ↔ in_index St w id.
Proof.
  unfold store_load, in_index. destruct (St !! owned_objects_key w) as [b|] eqn:Eb.
  - destruct (index_decodes _ _ _ _ store_retained (owned_prefix w) Eb) as [ids Ei].
    rewrite (proj2 (decode_ok _ _ _) Ei). exists (Some ids). split; [done|]. intros j. cbn [default from_option].
    rewrite canonical_ids_spec. naive_solver.
  - exists None. split; [done|]. intros id. cbn [default]. rewrite canonical_ids_spec.
    split; [intros (i & Hi & _); by apply elem_of_nil in Hi|naive_solver].
Qed.

Lemma new_index w value :
  overlay s !! owned_objects_key w = Some value →
  ∃ new, match value with Some b => decode ids_codec b | None => Ok [] end = Ok new
         ∧ ∀ id, id ∈ canonical_ids new ↔ in_index V w id.
Proof.
  intros Ho%overlay_view. unfold in_index. rewrite Ho. destruct value as [b|].
  - destruct (index_decodes _ _ _ _ view_retained (owned_prefix w) Ho) as [ids Ei].
    exists ids. split; [by apply decode_ok|]. intros id. rewrite canonical_ids_spec. naive_solver.
  - exists []. split; [done|]. intros id. rewrite canonical_ids_spec.
    split; [intros (i & Hi & _); by apply elem_of_nil in Hi|naive_solver].
Qed.

Lemma indexed_object w id :
  in_index V w id → ∃ v o, V !! object_key id = Some v ∧ load_internal object_codec (object_key id) s = Ok (Some o)
    ∧ is_address_kind (stored_owner_kind o) = true ∧ enc object_codec o = v ∧ stored_owner o = w.
Proof.
  intros Hi. destruct (proj2 (retain_spec _ _ view_retained) w id Hi) as (v & o & Hv & Ho).
  destruct (objects_indexed V view_indexed id v Hv) as (_ & o' & Ho' & He & _ & Hw).
  assert (o' = o) as -> by congruence. destruct (proj1 (Hw w) Hi) as (Ha & Hs & _).
  exists v, o. split_and!; try done.
  unfold load_internal. rewrite <- merged_lookup, Hv. cbn [result_bind]. by rewrite (proj2 (decode_ok _ _ _) Ho).
Qed.

Lemma added_object_spec w acc id :
  in_index V w id →
  ∃ v, V !! object_key id = Some v ∧ added_object s acc id = Ok (acc.1 ++ [(object_key id, v)], acc.2).
Proof.
  intros (v & o & Hv & Hl & Ha & He & _)%indexed_object. exists v. split; [done|].
  unfold added_object. rewrite Hl. cbn [result_bind]. unfold is_address_kind in Ha. rewrite Ha, He. done.
Qed.

Lemma added_objects_spec w l acc :
  (∀ id, id ∈ l → in_index V w id) →
  ∃ acc', try_fold (added_object s) l acc = Ok acc' ∧ acc'.2 = acc.2
    ∧ ∀ x, x ∈ acc'.1 ↔ x ∈ acc.1 ∨ ∃ id, id ∈ l ∧ x.1 = object_key id ∧ V !! object_key id = Some x.2.
Proof.
  revert acc. induction l as [|id l IH]; intros acc Hl; cbn [try_fold].
  - exists acc. split_and!; [done|done|]. intros x. split; [by left|].
    intros [H|(id & Hid & _)]; [done|by apply elem_of_nil in Hid].
  - destruct (added_object_spec w acc id) as (v & Hv & ->); [apply Hl; by left|]. cbn [result_bind].
    destruct (IH (acc.1 ++ [(object_key id, v)], acc.2)) as (acc' & E & H2 & H1);
      [intros j Hj; apply Hl; by right|].
    exists acc'. split_and!; [done|done|]. intros [k u]. rewrite H1. cbn [fst snd].
    rewrite elem_of_app, list_elem_of_singleton. setoid_rewrite elem_of_cons. naive_solver.
Qed.

Definition second_update (e : bytes * option bytes) (x : bytes * bytes) : Prop :=
  ∃ w id, e.1 = owned_objects_key w ∧ in_index V w id ∧ ¬ in_index St w id
          ∧ x.1 = object_key id ∧ V !! object_key id = Some x.2.
Definition second_delete (e : bytes * option bytes) (k : bytes) : Prop :=
  ∃ w id, e.1 = owned_objects_key w ∧ in_index St w id ∧ ¬ in_index V w id ∧ k = object_key id.

Lemma index_change_spec acc e :
  e ∈ btree_iter (overlay s) →
  ∃ acc', index_change s acc e = Ok acc'
    ∧ (∀ x, x ∈ acc'.1 ↔ x ∈ acc.1 ∨ second_update e x) ∧ (∀ k, k ∈ acc'.2 ↔ k ∈ acc.2 ∨ second_delete e k).
Proof.
  destruct e as [key value]. intros He%elem_of_btree. unfold index_change, second_update, second_delete.
  cbn [fst]. destruct (starts_with (str "owned_objects:") key) eqn:Ek; cbn [negb].
  - apply starts_with_true in Ek as [w Ew]. change (key = owned_objects_key w) in Ew. subst key.
    destruct (old_index w) as (old & -> & Hold). destruct (new_index w value He) as (new & -> & Hnew).
    cbn [result_bind].
    destruct (added_objects_spec w
      (List.filter (λ id, negb (bool_decide (id ∈ canonical_ids (default [] old)))) (canonical_ids new))
      (acc.1, acc.2 ++ map object_key
         (List.filter (λ id, negb (bool_decide (id ∈ canonical_ids new))) (canonical_ids (default [] old)))))
      as (acc' & E & H2 & H1).
    { intros id [Hid _]%list_elem_of_In%filter_In. by apply Hnew, list_elem_of_In. }
    exists acc'. split; [exact E|]. rewrite H2. cbn [fst snd] in H1 |- *. split.
    + intros x. rewrite H1. setoid_rewrite list_elem_of_In. setoid_rewrite filter_In.
      setoid_rewrite <- list_elem_of_In. setoid_rewrite negb_true_iff. setoid_rewrite bool_decide_eq_false.
      setoid_rewrite Hold. setoid_rewrite Hnew.
      split; (intros [H|H]; [by left|right]).
      * destruct H as (id & [Hi Hn] & Hx & Hv). exists w, id. auto.
      * destruct H as (w' & id & Hw & Hi & Hn & Hx & Hv). apply owned_objects_key_inj in Hw as <-. exists id. auto.
    + intros k. rewrite elem_of_app, list_elem_of_fmap. setoid_rewrite list_elem_of_In. setoid_rewrite filter_In.
      setoid_rewrite <- list_elem_of_In. setoid_rewrite negb_true_iff. setoid_rewrite bool_decide_eq_false.
      setoid_rewrite Hold. setoid_rewrite Hnew.
      split; (intros [H|H]; [by left|right]).
      * destruct H as (id & -> & Hi & Hn). exists w, id. auto.
      * destruct H as (w' & id & Hw & Hi & Hn & ->). apply owned_objects_key_inj in Hw as <-. exists id. auto.
  - exists acc. split; [done|].
    split; [intros x|intros k]; (split; [by left|]);
      (intros [H|(w & id & -> & _)]; [done|by rewrite owned_prefix in Ek]).
Qed.

(** ** The changes are exact *)

Definition updated (x : bytes * bytes) : Prop :=
  ∃ e, e ∈ btree_iter (overlay s) ∧ (first_update e x ∨ second_update e x).
Definition deleted_key (k : bytes) : Prop :=
  ∃ e, e ∈ btree_iter (overlay s) ∧ (first_delete e k ∨ second_delete e k).

Lemma collected_changes :
  ∃ U0 D0, smt_changes_from_overlay s
    = Ok (dedup_by_key (sort_by_key U0),
          sort_dedup (List.filter (λ k, negb (bool_decide (k ∈ map fst (dedup_by_key (sort_by_key U0))))) D0))
    ∧ (∀ x, x ∈ U0 ↔ updated x) ∧ (∀ k, k ∈ D0 ↔ deleted_key k).
Proof.
  destruct (try_fold_total (overlay_change s) (btree_iter (overlay s)) ([], [])) as [c1 E1'];
    [intros acc x; apply overlay_change_total|].
  destruct (try_fold_total (index_change s) (btree_iter (overlay s)) c1) as [[U0 D0] E2'].
  { intros acc x Hx. destruct (index_change_spec acc x Hx) as (acc' & E & _). eauto. }
  exists U0, D0. unfold smt_changes_from_overlay. rewrite E1'. cbn [result_bind]. rewrite E2'.
  split; [done|]. split; [intros x|intros k].
  - rewrite (try_fold_collects _ (λ (c : changes_t) x, x ∈ c.1) second_update _ _ (U0, D0)) with (2 := E2');
      [|intros acc e acc' He Ee; destruct (index_change_spec acc e He) as (a' & Ea & H & _);
        assert (acc' = a') as -> by congruence; apply H].
    rewrite (try_fold_collects _ (λ (c : changes_t) x, x ∈ c.1) first_update _ _ c1) with (2 := E1');
      [|intros acc e acc' He Ee; apply (overlay_change_spec acc e acc' He Ee)].
    cbn [fst]. unfold updated. rewrite elem_of_nil. naive_solver.
  - rewrite (try_fold_collects _ (λ (c : changes_t) k, k ∈ c.2) second_delete _ _ (U0, D0)) with (2 := E2');
      [|intros acc e acc' He Ee; destruct (index_change_spec acc e He) as (a' & Ea & _ & H);
        assert (acc' = a') as -> by congruence; apply H].
    rewrite (try_fold_collects _ (λ (c : changes_t) k, k ∈ c.2) first_delete _ _ c1) with (2 := E1');
      [|intros acc e acc' He Ee; apply (overlay_change_spec acc e acc' He Ee)].
    cbn [snd]. unfold deleted_key. rewrite elem_of_nil. naive_solver.
Qed.

Lemma updated_canonical x : updated x → V !! x.1 = Some x.2 ∧ canonical V x.1.
Proof.
  destruct x as [k v]. cbn [fst snd].
  intros (e & He & [[-> Hc]|(w & id & _ & Hi & _ & Hk & Hv)]); cbn [fst snd] in *.
  - apply elem_of_btree, overlay_view in He. done.
  - subst k. split; [done|]. apply canonical_object. eauto.
Qed.

Lemma pending_update k v :
  overlay s !! k = Some (Some v) → canonical V k → updated (k, v).
Proof. intros Ho Hc. exists (k, Some v). split; [by apply elem_of_btree|]. left. by split. Qed.

(** A key that is deleted and not updated is not canonical any more. *)
Lemma deleted_not_canonical k v :
  deleted_key k → V !! k = Some v → canonical V k → updated (k, v).
Proof.
  intros ([j val] & He & [[Hj Hd]|(w & id & _ & Hst & Hnv & ->)]) Hv Hc.
  - cbn [fst snd] in *. subst j. apply elem_of_btree in He. pose proof (overlay_view _ _ He) as Ev.
    destruct val as [u|]; [by destruct Hd|congruence].
  - destruct (overlay s !! object_key id) as [val'|] eqn:Eo.
    + pose proof (overlay_view _ _ Eo) as Ev. rewrite Hv in Ev. subst val'. by apply pending_update.
    + exfalso. apply Hnv. rewrite (unchanged _ Eo) in Hv.
      destruct (objects_indexed _ store_indexed id v Hv) as (_ & o & Ho & _ & _ & Hi).
      rewrite <- (unchanged _ Eo) in Hv.
      destruct (objects_indexed _ view_indexed id v Hv) as (_ & o' & Ho' & _ & _ & Hi').
      assert (o' = o) as -> by congruence. by apply Hi', Hi.
Qed.

(** A key the overlay does not mention keeps its status. *)
Lemma unchanged_canonical k v :
  overlay s !! k = None → St !! k = Some v → canonical V k ↔ canonical St k.
Proof.
  intros Eo Hst. assert (Hv : V !! k = Some v) by (by rewrite (unchanged _ Eo)).
  destruct (is_canonical_state_root_key k) eqn:Er; [split; intros _; by left|].
  destruct (starts_with (str "module:") k) eqn:Em; [split; intros _; by eapply canonical_module|].
  destruct (starts_with (str "object:") k) eqn:Ek.
  - apply starts_with_true in Ek as [id Eid]. change (k = object_key id) in Eid. subst k.
    by rewrite (canonical_owned V id v), (canonical_owned St id v).
  - split; intros Hc; exfalso; revert Hc; (apply canonical_other; [done|]; unfold is_indexed_key; by rewrite Em, Ek).
Qed.

(** A key that is neither updated nor deleted. *)
Lemma untouched k v :
  (∀ u, ¬ updated (k, u)) → ¬ deleted_key k →
  V !! k = Some v ∧ canonical V k ↔ St !! k = Some v ∧ canonical St k.
Proof.
  intros Hu Hd. destruct (overlay s !! k) as [val|] eqn:Eo.
  - assert (Hout : is_canonical_state_root_key k = false ∧ is_indexed_key k = false).
    { apply elem_of_btree in Eo as He. destruct val as [u|].
      - assert (Hnc : ¬ canonical V k) by (intros Hc; by apply (Hu u), pending_update). split.
        + destruct (is_canonical_state_root_key k) eqn:Er; [|done]. destruct Hnc. by left.
        + destruct (is_indexed_key k) eqn:Ei; [|done]. destruct Hd. exists (k, Some u).
          split; [done|]. left. by split.
      - apply orb_false_iff. destruct (_ || _) eqn:E; [|done]. destruct Hd. exists (k, None).
        split; [done|]. left. by split. }
    destruct Hout as [Hr Hi]. pose proof (canonical_other V k Hr Hi). pose proof (canonical_other St k Hr Hi).
    naive_solver.
  - rewrite (unchanged _ Eo). split; intros [H1 H2]; (split; [done|]); by apply (unchanged_canonical k v).
Qed.

(** The canonical entries after applying updates and deletes. *)
Definition after_changes (U : list (bytes * bytes)) (D : list bytes) (E : entries_t) (k : bytes) : option bytes :=
  match (list_to_map U : entries_t) !! k with
  | Some v => Some v
  | None => if decide (k ∈ D) then None else E !! k
  end.

(** The keys of the state, persisted or pending. *)
Definition state_keys : gset bytes := dom St ∪ dom (overlay s).

Lemma view_state_key k v : V !! k = Some v → k ∈ state_keys.
Proof.
  unfold state_keys. rewrite elem_of_union, !elem_of_dom. destruct (overlay s !! k) eqn:Eo; [eauto|].
  rewrite (unchanged _ Eo). eauto.
Qed.
Lemma deleted_state_key k : deleted_key k → k ∈ state_keys.
Proof.
  unfold state_keys. rewrite elem_of_union, !elem_of_dom.
  intros ([j val] & He & [[Hj _]|(w & id & _ & Hi & _ & ->)]).
  - cbn [fst] in Hj. subst j. apply elem_of_btree in He. eauto.
  - destruct (proj2 (retain_spec _ _ store_retained) w id Hi) as (v & _ & Hv & _). eauto.
Qed.

Lemma changes_exact :
  ∃ U D, smt_changes_from_overlay s = Ok (U, D) ∧ NoDup (map fst U) ∧ NoDup D
         ∧ (∀ k, k ∈ D → k ∉ map fst U ∧ k ∈ state_keys) ∧ (∀ k, k ∈ map fst U → k ∈ state_keys)
         ∧ ∀ k, E1 !! k = after_changes U D E0 k.
Proof.
  destruct collected_changes as (U0 & D0 & E & HU & HD). eexists _, _. split; [exact E|].
  split_and!.
  - apply dedup_by_key_NoDup, sort_by_key_sorted.
  - apply sort_dedup_NoDup.
  - intros k Hk. rewrite elem_of_sort_dedup in Hk. apply list_elem_of_In, filter_In in Hk as [Hd Hk].
    apply negb_true_iff, bool_decide_eq_false in Hk. split; [done|].
    by apply deleted_state_key, HD, list_elem_of_In.
  - intros k Hk. rewrite dedup_sort_keys in Hk. apply list_elem_of_fmap in Hk as ([j v] & -> & Hj).
    apply HU, updated_canonical in Hj as [Hv _]. by apply view_state_key in Hv.
  - intros k. unfold after_changes. rewrite dedup_by_key_map, sort_by_key_map.
    destruct ((list_to_map U0 : entries_t) !! k) as [v|] eqn:Ek.
    + apply elem_of_list_to_map_2, HU, updated_canonical in Ek. by apply retained_view.
    + assert (Hnu : ∀ u, ¬ updated (k, u)).
      { intros u Hu%HU. apply not_elem_of_list_to_map_2 in Ek. apply Ek.
        apply list_elem_of_fmap. by exists (k, u). }
      assert (HDk : k ∈ sort_dedup (List.filter
        (λ k, negb (bool_decide (k ∈ map fst (dedup_by_key (sort_by_key U0))))) D0) ↔ deleted_key k).
      { rewrite elem_of_sort_dedup, list_elem_of_In, filter_In, <- list_elem_of_In, HD.
        rewrite negb_true_iff, bool_decide_eq_false, dedup_sort_keys.
        split; [by intros [? _]|]. intros Hd. split; [done|].
        intros ([j u] & -> & Hu%HU)%list_elem_of_fmap. by apply (Hnu u). }
      case_decide as Hd.
      * apply HDk in Hd. destruct (E1 !! k) as [v|] eqn:Ev; [|done]. exfalso.
        apply retained_view in Ev as [Hv Hc]. by apply (Hnu v), deleted_not_canonical.
      * apply option_eq. intros v. rewrite retained_view, retained_store. apply untouched; [done|].
        by rewrite <- HDk.
Qed.
End Delta.
End Canonical.

(** ** The incremental tree *)

Section Tree.
Context {B3 : Blake3}.
Local Abbreviation entries_t := (gmap bytes bytes).

(** No two keys have digests that agree in their first 255 bits. *)
Definition separated (K : gset bytes) : Prop :=
  ∀ k1 k2, k1 ∈ K → k2 ∈ K → path (digest k1) 255 = path (digest k2) 255 → k1 = k2.

(** The entries keyed by the digests of their keys. *)
Definition digest_map (E : entries_t) : entries_t := list_to_map (digest_entries (btree_iter E)).

Lemma separated_digest (K : gset bytes) k1 k2 : separated K → k1 ∈ K → k2 ∈ K → digest k1 = digest k2 → k1 = k2.
Proof. intros HK H1 H2 E. apply HK; [done|done|]. by rewrite E. Qed.

Lemma NoDup_digest (K : gset bytes) (l : list bytes) :
  separated K → (∀ k, k ∈ l → k ∈ K) → NoDup l → NoDup (map digest l).
Proof.
  intros HK Hl Hd. induction Hd as [|k l Hk Hd IH]; cbn [map]; constructor.
  - intros (j & Ej & Hj)%list_elem_of_fmap. apply Hk.
    rewrite (separated_digest K k j) by (done || apply Hl; set_solver). done.
  - apply IH. intros j Hj. apply Hl. by right.
Qed.

Lemma digest_entries_keys l : map fst (digest_entries l) = map digest (map fst l).
Proof. unfold digest_entries. by rewrite !map_map. Qed.

Lemma digest_map_lookup (K : gset bytes) (E : entries_t) (k : bytes) :
  separated K → (∀ j v, E !! j = Some v → j ∈ K) → k ∈ K → digest_map E !! digest k = E !! k.
Proof.
  intros HK HE Hk. apply option_eq. intros v. unfold digest_map.
  rewrite <- elem_of_list_to_map.
  - unfold digest_entries. rewrite list_elem_of_fmap. split.
    + intros ([j u] & Ej & Hj). cbn [fst snd] in Ej. injection Ej as Ed ->.
      apply elem_of_btree in Hj. by rewrite (separated_digest K k j) by eauto.
    + intros Hv. exists (k, v). split; [done|]. by apply elem_of_btree.
  - change (NoDup (map fst (digest_entries (btree_iter E)))). rewrite digest_entries_keys.
    apply (NoDup_digest K); [done| |apply btree_iter_NoDup].
    intros j ([j' u] & -> & Hj)%list_elem_of_fmap. apply elem_of_btree in Hj. eauto.
Qed.

Lemma digest_map_other (E : entries_t) (h : bytes) :
  (∀ j v, E !! j = Some v → digest j ≠ h) → digest_map E !! h = None.
Proof.
  intros HE. apply not_elem_of_list_to_map_1.
  change (h ∉ map fst (digest_entries (btree_iter E))). rewrite digest_entries_keys.
  intros (j & -> & ([j' v] & -> & Hj)%list_elem_of_fmap)%list_elem_of_fmap.
  apply elem_of_btree in Hj. by apply (HE j' v).
Qed.

Lemma digest_map_dom (K : gset bytes) (E : entries_t) :
  (∀ j v, E !! j = Some v → j ∈ K) → dom (digest_map E) ⊆ list_to_set (map digest (elements K)).
Proof.
  intros HE h. rewrite elem_of_dom. intros [v Hv]. apply elem_of_list_to_map_2 in Hv.
  apply list_elem_of_fmap in Hv as ([j u] & Ej & Hj). cbn in Ej. injection Ej as -> ->.
  apply elem_of_btree in Hj. apply elem_of_list_to_set, list_elem_of_fmap. exists j.
  split; [done|]. apply elem_of_elements. eauto.
Qed.

Lemma separated_no_siblings K : separated K → no_siblings (list_to_set (map digest (elements K))).
Proof.
  intros HK h1 h2. rewrite !elem_of_list_to_set, !list_elem_of_fmap.
  intros (k1 & -> & H1) (k2 & -> & H2) E. f_equal. apply HK; by rewrite <- ?elem_of_elements.
Qed.

(** Changing the tree by the updates and deletes is changing the entries. *)
Lemma changed_digest_map (K : gset bytes) (E0 E1 : entries_t) (U : list (bytes * bytes)) (D : list bytes) :
  separated K → NoDup (map fst U) → NoDup D → (∀ k, k ∈ D → k ∉ map fst U ∧ k ∈ K) →
  (∀ k, k ∈ map fst U → k ∈ K) → (∀ j v, E0 !! j = Some v → j ∈ K) →
  (∀ k, E1 !! k = after_changes U D E0 k) →
  changed U D (digest_map E0) = digest_map E1.
Proof.
  intros HK HU HD Hdis HUK HE0 HE1.
  assert (HE1K : ∀ j v, E1 !! j = Some v → j ∈ K).
  { intros j v Hj. rewrite HE1 in Hj. unfold after_changes in Hj.
    destruct ((list_to_map U : entries_t) !! j) as [u|] eqn:Eu.
    - apply elem_of_list_to_map_2 in Eu. apply HUK, list_elem_of_fmap. by exists (j, u).
    - case_decide; [done|eauto]. }
  assert (Hkeys : map fst (change_list U D) = map digest (D ++ map fst U)).
  { unfold change_list. by rewrite !map_app, !map_map. }
  assert (Hnd : NoDup (map fst (change_list U D))).
  { rewrite Hkeys. apply (NoDup_digest K); [done| |].
    - intros k [Hk|Hk]%elem_of_app; [by apply Hdis|by apply HUK].
    - apply NoDup_app. split_and!; [done| |done]. intros k Hk. by apply Hdis. }
  apply map_eq. intros h. unfold changed.
  destruct (decide (h ∈ map digest (elements K))) as [(k & -> & Hk%elem_of_elements)%list_elem_of_fmap|Hh].
  - rewrite (digest_map_lookup K E1 k) by done. rewrite HE1. unfold after_changes.
    rewrite lookup_apply_changes by done.
    destruct ((list_to_map U : entries_t) !! k) as [u|] eqn:Eu.
    { apply elem_of_list_to_map_2 in Eu.
      rewrite (elem_of_list_to_map_1 (change_list U D) (digest k) (Some u)); [done|done|].
      apply elem_of_app. right. apply list_elem_of_fmap. by exists (k, u). }
    apply not_elem_of_list_to_map_2 in Eu. case_decide as Hd.
    { rewrite (elem_of_list_to_map_1 (change_list U D) (digest k) None); [done|done|].
      apply elem_of_app. left. apply list_elem_of_fmap. by exists k. }
    rewrite (not_elem_of_list_to_map_1 (change_list U D)); [by apply (digest_map_lookup K)|].
    change (digest k ∉ map fst (change_list U D)). rewrite Hkeys.
    intros (j & Ej & Hj)%list_elem_of_fmap. apply elem_of_app in Hj as [Hj|Hj].
    + apply Hd. rewrite (separated_digest K k j); [done|done|done|by apply Hdis|done].
    + apply Eu. rewrite (separated_digest K k j); [done|done|done|by apply HUK|done].
  - rewrite digest_map_other.
    + rewrite apply_changes_other; [apply digest_map_other|].
      * intros j v Hj <-. apply Hh, list_elem_of_fmap. exists j. split; [done|]. apply elem_of_elements. eauto.
      * rewrite Hkeys. intros (j & -> & Hj)%list_elem_of_fmap. apply Hh, list_elem_of_fmap. exists j.
        split; [done|]. apply elem_of_elements. apply elem_of_app in Hj as [Hj|Hj]; [by apply Hdis|by apply HUK].
    + intros j v Hj <-. apply Hh, list_elem_of_fmap. exists j. split; [done|]. apply elem_of_elements. eauto.
Qed.
End Tree.

Section Composition.
Context {B3 : Blake3} {HX : Hex} {SC : StateCodecs} {TT : TypeTags} `{Laws : KVStoreLaws DB}.

(** the tree that is kept up to date by the changes derived from the
    overlay has the root that is computed from scratch.  If the tree holds the
    canonical entries of the store, the changes of any pending overlay are
    defined, and the root the tree announces for them is the root of all
    canonical entries of the new state. *)
Theorem incremental_root_is_canonical (s : StateManager) (E0 E1 : gmap bytes bytes) (t : SparseMerkleTree DB) :
  indexed_state (store s) → indexed_state (merged_entries s) →
  canonical_persisted_entries s = Ok E0 → try_canonical_state_snapshot s = Ok E1 →
  good t → smt_bindings t = digest_map E0 → separated (state_keys s) →
  ∃ U D t' overlay,
    smt_changes_from_overlay s = Ok (U, D)
    ∧ root_hash_with_changes_and_overlay U D t = (t', Ok (compute_sparse_root (btree_iter E1), overlay))
    ∧ try_compute_state_root s = Ok (compute_sparse_root (btree_iter E1)).
Proof.
  intros Hst Hv H0 H1 Hg Hb HK.
  destruct (changes_exact s E0 E1 Hst Hv H0 H1) as (U & D & EUD & HU & HD & Hdis & HUK & HE).
  assert (HE0 : ∀ j v, E0 !! j = Some v → j ∈ state_keys s).
  { intros j v Hj. apply (retained_store s E0 H0) in Hj as [Hj _]. unfold state_keys.
    apply elem_of_union_l, elem_of_dom. eauto. }
  destruct (root_hash_with_changes_and_overlay_correct t U D Hg) as (t' & ov & Er & _).
  { eapply no_siblings_mono; [|apply (separated_no_siblings _ HK)]. rewrite Hb.
    apply union_subseteq. split; [|by apply digest_map_dom]. unfold touched, digest_set.
    intros h. rewrite !elem_of_list_to_set, !list_elem_of_fmap. intros (k & -> & Hk). exists k.
    split; [done|]. apply elem_of_elements. apply elem_of_app in Hk as [Hk|Hk]; [by apply Hdis|by apply HUK]. }
  exists U, D, t', ov. split; [exact EUD|].
  rewrite Er, Hb, (changed_digest_map (state_keys s) E0 E1 U D) by done.
  assert (Eroot : smt_root (digest_map E1) = compute_sparse_root (btree_iter E1))
    by (symmetry; apply compute_sparse_root_spec).
  rewrite Eroot. split; [reflexivity|]. unfold try_compute_state_root. rewrite H1. reflexivity.
Qed.
End Composition.

(** ** A concrete state *)

Module Runs.
Import ToyHash RealHex ToyCodecs MemStore SmtTheorems.Runs.
Local Abbreviation entries_t := (gmap bytes bytes).

(** Boolean forms of the invariants. *)
Definition in_index_b (m : entries_t) (w id : bytes) : bool :=
  match m !! owned_objects_key w with
  | Some b => match dec ids_codec b with
              | Some ids => bool_decide (id ∈ omap canonical_object_id ids)
              | None => false
              end
  | None => false
  end.
Lemma in_index_b_spec (m : entries_t) w id : in_index_b m w id = true ↔ in_index m w id.
Proof.
  unfold in_index_b, in_index. destruct (m !! owned_objects_key w) as [b|]; [|naive_solver].
  destruct (dec ids_codec b) as [ids|] eqn:E; [|naive_solver].
  rewrite bool_decide_eq_true, list_elem_of_omap. naive_solver.
Qed.

Definition owners_of (m : entries_t) : list bytes :=
  omap (λ e : bytes * bytes, if starts_with (str "owned_objects:") e.1 then Some (drop 14 e.1) else None)
    (map_to_list m).
Definition named_by (o : StoredObject) (id w : bytes) : bool :=
  is_address_kind (stored_owner_kind o) && bool_decide (stored_owner o = w)
  && bool_decide (canonical_object_id id = Some id).
Definition entry_indexed (m : entries_t) (e : bytes * bytes) : bool :=
  if starts_with (str "module:") e.1 then
    utf8_valid (drop 7 e.1)
    && match m !! str "module_index" with
       | Some b => match dec ids_codec b with Some ids => bool_decide (e.1 ∈ ids) | None => false end
       | None => false
       end
  else if starts_with (str "object:") e.1 then
    let id := drop 7 e.1 in
    utf8_valid id
    && match dec object_codec e.2 with
       | Some o => bool_decide (enc object_codec o = e.2)
                   && (negb (is_address_kind (stored_owner_kind o)) || bool_decide (is_Some (canonical_object_id id)))
                   && forallb (λ w, Bool.eqb (in_index_b m w id) (named_by o id w)) (stored_owner o :: owners_of m)
       | None => false
       end
  else true.

Lemma owners_of_complete (m : entries_t) w id : in_index m w id → w ∈ owners_of m.
Proof.
  intros (b & ids & i & Hm & _). apply list_elem_of_omap. exists (owned_objects_key w, b).
  split; [by apply elem_of_map_to_list|]. cbn [fst]. by rewrite owned_prefix.
Qed.
Lemma named_by_spec o id w :
  named_by o id w = true
  ↔ is_address_kind (stored_owner_kind o) = true ∧ stored_owner o = w ∧ canonical_object_id id = Some id.
Proof. unfold named_by. rewrite !andb_true_iff, !bool_decide_eq_true. tauto. Qed.

Lemma indexed_state_sound (m : entries_t) :
  forallb (entry_indexed m) (map_to_list m) = true → indexed_state m.
Proof.
  rewrite forallb_forall. intros H. split.
  - intros k v Hk Hs. specialize (H (k, v)). rewrite <- list_elem_of_In, elem_of_map_to_list in H.
    specialize (H Hk). unfold entry_indexed in H. cbn [fst] in H. rewrite Hs in H.
    apply andb_true_iff in H as [Hu H]. split; [done|]. unfold in_module_index.
    destruct (m !! str "module_index") as [b|]; [|done]. destruct (dec ids_codec b) as [ids|] eqn:E; [|done].
    apply bool_decide_eq_true in H. by exists b, ids.
  - intros id v Hk. specialize (H (object_key id, v)). rewrite <- list_elem_of_In, elem_of_map_to_list in H.
    specialize (H Hk). unfold entry_indexed in H. cbn [fst snd] in H.
    rewrite object_not_module, object_key_prefix, drop_object in H.
    apply andb_true_iff in H as [Hu H]. split; [done|]. destruct (dec object_codec v) as [o|]; [|done].
    rewrite !andb_true_iff, bool_decide_eq_true in H. destruct H as [[He Hc] Hw]. exists o. split_and!; [done|done| |].
    + intros Ha. rewrite Ha in Hc. by apply bool_decide_eq_true in Hc.
    + intros w. rewrite <- in_index_b_spec, <- named_by_spec.
      assert (Hin : in_index_b m w id = true ∨ named_by o id w = true → w ∈ stored_owner o :: owners_of m).
      { intros [Hi%in_index_b_spec|(_ & -> & _)%named_by_spec]; [right; by eapply owners_of_complete|left]. }
      rewrite forallb_forall in Hw. specialize (Hw w). rewrite <- list_elem_of_In in Hw.
      split; intros Hx; specialize (Hw (Hin ltac:(auto))); apply Bool.eqb_prop in Hw; congruence.
Qed.

Definition separated_b (l : list bytes) : bool :=
  forallb (λ k1, forallb (λ k2, bool_decide (k1 = k2)
    || negb (bool_decide (path (digest k1) 255 = path (digest k2) 255))) l) l.
Lemma separated_sound (K : gset bytes) : separated_b (elements K) = true → separated K.
Proof.
  unfold separated_b. rewrite forallb_forall. intros H k1 k2 H1 H2 E.
  apply elem_of_elements, list_elem_of_In in H1. apply elem_of_elements, list_elem_of_In in H2.
  specialize (H k1 H1). rewrite forallb_forall in H. specialize (H k2 H2).
  rewrite (bool_decide_true (path _ _ = _)), orb_false_r, bool_decide_eq_true in H by done. done.
Qed.

(** Object [0xa] moves from [0x1] to [0x2], object [0xb] is wrapped into a
    shared object, a module is published and an account entry disappears. *)
Definition toy_object (id w : bytes) (k : ObjectOwnerKind) : bytes :=
  enc object_codec {| stored_id := id; stored_owner := w; stored_owner_kind := k; type_name := str "T";
                      stored_data := [1%Z]; stored_version := 1 |}.
Definition addr (w : bytes) := AddressOwner w.
Definition w1 : bytes := str "0x1".
Definition w2 : bytes := str "0x2".
Definition moving : StateManager := {|
  store := list_to_map [
    (object_key (str "0xa"), toy_object (str "0xa") w1 (addr w1));
    (object_key (str "0xb"), toy_object (str "0xb") w1 (addr w1));
    (owned_objects_key w1, enc ids_codec [str "0xa"; str "0xb"]);
    (str "account:0x1", [1%Z]); (str "total_supply", [7%Z])];
  overlay := list_to_map [
    (object_key (str "0xa"), Some (toy_object (str "0xa") w2 (addr w2)));
    (object_key (str "0xb"), Some (toy_object (str "0xb") w1 Shared));
    (owned_objects_key w1, None);
    (owned_objects_key w2, Some (enc ids_codec [str "0xa"]));
    (str "module:0x1::m", Some [5%Z]); (str "module_index", Some (enc ids_codec [str "module:0x1::m"]));
    (str "account:0x1", None); (str "account:0x2", Some [2%Z])];
  total_supply := 7; global_token_supplies := ∅; access_versions := ∅; access_epoch := 0 |}.

Definition moving_old : entries_t := match canonical_persisted_entries moving with Ok E => E | Err _ => ∅ end.
Definition moving_new : entries_t := match try_canonical_state_snapshot moving with Ok E => E | Err _ => ∅ end.
Definition moving_tree : SparseMerkleTree MemStore.t := (insert (btree_iter moving_old) empty_tree).1.

Lemma moving_separated : separated (state_keys moving).
Proof. apply separated_sound. vm_compute. reflexivity. Qed.

Lemma moving_tree_good : good moving_tree ∧ smt_bindings moving_tree = digest_map moving_old.
Proof.
  destruct empty_good as [Hg Hb].
  destruct (insert_correct empty_tree (btree_iter moving_old) Hg) as (t' & E & Hg' & Hb').
  { rewrite Hb. eapply no_siblings_mono; [|apply (separated_no_siblings _ moving_separated)].
    apply (bool_decide_eq_true_1 _). vm_compute. reflexivity. }
  unfold moving_tree. rewrite E. cbn [fst]. split; [exact Hg'|]. rewrite Hb', Hb. apply (right_id_L ∅ (∪)).
Qed.

Lemma incremental_root_is_canonical_witness :
  canonical_persisted_entries moving = Ok moving_old ∧ try_canonical_state_snapshot moving = Ok moving_new
  ∧ ∃ U D t' overlay,
    smt_changes_from_overlay moving = Ok (U, D)
    ∧ root_hash_with_changes_and_overlay U D moving_tree = (t', Ok (compute_sparse_root (btree_iter moving_new), overlay))
    ∧ try_compute_state_root moving = Ok (compute_sparse_root (btree_iter moving_new)).
Proof.
  assert (H0 : canonical_persisted_entries moving = Ok moving_old) by (vm_compute; reflexivity).
  assert (H1 : try_canonical_state_snapshot moving = Ok moving_new) by (vm_compute; reflexivity).
  split; [exact H0|]. split; [exact H1|].
  apply (incremental_root_is_canonical moving moving_old moving_new moving_tree).
  - apply indexed_state_sound. vm_compute. reflexivity.
  - apply indexed_state_sound. vm_compute. reflexivity.
  - exact H0.
  - exact H1.
  - apply moving_tree_good.
  - apply moving_tree_good.
  - exact moving_separated.
Defined.
End Runs.
