(* ===== verification/StateFrame.v ===== *)
(** * What applying a change set leaves alone

    A method fixes an observation of its receiver if the observation is the same
    before and after, whether the method succeeds or fails.  Every phase of the
    application of a change set fixes the store and, but for the native treasury
    and the announced supply, the total supply. *)

From stdpp Require Import base list gmap strings sorting.
From Stdlib Require Import ZArith Lia.
From S2P Require Import Prelude Order Hashing Text Address GasCoin Transaction ChangeSet StateManager StateSupply StateApply.

(** ** Fixing an observation *)

Create HintDb frames discriminated.

Definition fixes {S X A} (obs : S → X) (m : st S A) : Prop := ∀ s, obs (m s).1 = obs s.

Section Fixing.
Context {S X : Type} (obs : S → X).

Lemma fixes_ret {A} (a : A) : fixes obs (mret a : st S A).
Proof. by intros s. Qed.
Lemma fixes_lift {A} (r : result A) : fixes obs (st_lift r).
Proof. by intros s. Qed.
Lemma fixes_gets {A} (f : S → A) : fixes obs (st_gets f).
Proof. by intros s. Qed.
Lemma fixes_bind {A B} (m : st S A) (k : A → st S B) :
  fixes obs m → (∀ a, fixes obs (k a)) → fixes obs (m ≫= k).
Proof.
  intros Hm Hk s. unfold mbind, st_bind. specialize (Hm s).
  destruct (m s) as [s' [a|e]]; cbn in *; [by rewrite Hk|done].
Qed.
Lemma fixes_for_each_elem {A} (l : list A) (body : A → st S unit) :
  (∀ x, x ∈ l → fixes obs (body x)) → fixes obs (for_each l body).
Proof.
  induction l as [|x l IH]; intros H; cbn [for_each]; [apply fixes_ret|].
  apply fixes_bind; [apply H; by left|intros _]. apply IH. intros y Hy. apply H. by right.
Qed.
Lemma fixes_for_each {A} (l : list A) (body : A → st S unit) :
  (∀ x, fixes obs (body x)) → fixes obs (for_each l body).
Proof. intros H. by apply fixes_for_each_elem. Qed.

(** Every value the method returns has the property. *)
Definition returns {A} (m : st S A) (P : A → Prop) : Prop := ∀ s s' a, m s = (s', Ok a) → P a.
Lemma returns_ret {A} (a : A) (P : A → Prop) : P a → returns (mret a) P.
Proof. intros H s s' a' [= _ <-]. done. Qed.
Lemma returns_bind {A B} (m : st S A) (k : A → st S B) (P : B → Prop) :
  (∀ a, returns (k a) P) → returns (m ≫= k) P.
Proof. intros H s s' b (s1 & a & _ & E)%st_bind_inv. by eapply H. Qed.
Lemma returns_bind_post {A B} (m : st S A) (k : A → st S B) (Q : A → Prop) (P : B → Prop) :
  returns m Q → (∀ a, Q a → returns (k a) P) → returns (m ≫= k) P.
Proof. intros Hm H s s' b (s1 & a & E1 & E)%st_bind_inv. eapply H; eauto. Qed.
Lemma fixes_bind_post {A B} (m : st S A) (k : A → st S B) (P : A → Prop) :
  returns m P → fixes obs m → (∀ a, P a → fixes obs (k a)) → fixes obs (m ≫= k).
Proof.
  intros HP Hm Hk s. unfold mbind, st_bind. specialize (Hm s). pose proof (HP s) as HPs.
  destruct (m s) as [s' [a|e]]; cbn in *; [rewrite Hk by (by eapply HPs)|]; done.
Qed.
End Fixing.
#[export] Hint Resolve fixes_ret fixes_lift fixes_gets : frames.

(** Step through a method body: binds, loops, branches. *)
Ltac frame_step :=
  match goal with
  | |- fixes _ (mbind _ _) => apply fixes_bind; [|intros ?]
  | |- fixes _ (for_each _ _) => apply fixes_for_each; intros ?
  | |- fixes _ (let '(_, _) := ?x in _) => destruct x
  | |- fixes _ (match ?x with _ => _ end) => destruct x eqn:?
  | |- fixes _ _ => solve [auto with frames]
  end.
Ltac frame := repeat frame_step.

(** ** The manager *)

(** Observations that overlay, caches and versions do not enter. *)
Class Quiet {X} (obs : StateManager → X) : Prop := {
  quiet_overlay : ∀ v s, obs (set_overlay v s) = obs s;
  quiet_supplies : ∀ v s, obs (set_supplies v s) = obs s;
  quiet_versions : ∀ v e s, obs (set_versions v e s) = obs s
}.
#[export] Instance store_quiet : Quiet store.
Proof. done. Qed.
#[export] Instance total_supply_quiet : Quiet total_supply.
Proof. done. Qed.
#[export] Hint Resolve store_quiet total_supply_quiet : frames.

Section Manager.
Context {B3 : Blake3} {HX : Hex} {SC : StateCodecs} {TT : TypeTags} {X : Type} (obs : StateManager → X) {Q : Quiet obs}.
Local Abbreviation keeps := (fixes obs).

Lemma keeps_ask {A} (f : StateManager → result A) : keeps (ask f).
Proof. by intros s. Qed.
Lemma keeps_put k v : keeps (st_modify (put_overlay k v)).
Proof. intros s. apply (quiet_overlay (obs := obs)). Qed.
Lemma keeps_save {T} (c : Codec T) k v : keeps (save_internal c k v).
Proof. apply keeps_put. Qed.
Hint Resolve keeps_ask keeps_put : frames.
Hint Resolve keeps_save : frames.

Lemma keeps_save_index k ids : keeps (save_index_list k ids).
Proof. apply keeps_save. Qed.
Hint Resolve keeps_save_index : frames.
Lemma keeps_add_index k v : keeps (add_to_index_list k v).
Proof. unfold add_to_index_list. frame. Qed.
Lemma keeps_remove_index k v : keeps (remove_from_index_list k v).
Proof. unfold remove_from_index_list. frame. Qed.
Lemma keeps_add_many k l : keeps (add_many_to_index_list k l).
Proof. unfold add_many_to_index_list. frame. Qed.
Hint Resolve keeps_add_index keeps_remove_index keeps_add_many : frames.

Lemma keeps_supplies : keeps save_supplies.
Proof. unfold save_supplies. frame. Qed.
Lemma keeps_native_cache n : keeps (store_native_cache n).
Proof. intros s. apply (quiet_supplies (obs := obs)). Qed.
Lemma keeps_owner_record o : keeps (save_owner_record o).
Proof. apply keeps_save. Qed.
Hint Resolve keeps_supplies keeps_native_cache keeps_owner_record : frames.
Lemma keeps_owner_state o : keeps (save_owner_state_without_supply_index o).
Proof. unfold save_owner_state_without_supply_index. frame. Qed.
Lemma keeps_capture o old : keeps (capture_supply_changed o old).
Proof.
  unfold capture_supply_changed, adjust_global_supplies_for_account_delta. frame.
  intros s. destruct (adjust_token _ _ _ _); [apply (quiet_supplies (obs := obs))|done].
Qed.
Hint Resolve keeps_owner_state keeps_capture : frames.
Lemma keeps_recompute w d c g lb ob : keeps (recompute_token_balances_for_owner w d c g lb ob).
Proof. unfold recompute_token_balances_for_owner. frame. Qed.
Lemma keeps_metadata t p : keeps (persist_coin_metadata t p).
Proof. unfold persist_coin_metadata, save_utf8_field. frame. Qed.
Lemma keeps_index_variants w id sid : keeps (remove_owned_object_index_variants w id sid).
Proof. unfold remove_owned_object_index_variants. frame. Qed.
Hint Resolve keeps_recompute keeps_metadata keeps_index_variants : frames.
Lemma keeps_refresh w id sid : keeps (refresh_owned_object_index w id sid).
Proof. unfold refresh_owned_object_index. frame. Qed.
Lemma keeps_add_owned w ids : keeps (add_many_owned_object_index w ids).
Proof. apply keeps_add_many. Qed.
Lemma keeps_nft e : keeps (apply_nft_cap e).
Proof. destruct e as [[? ?] ?]. apply keeps_save. Qed.
Lemma keeps_collection e : keeps (index_collection e).
Proof. unfold index_collection. frame. Qed.
Lemma keeps_mint_event e : keeps (index_mint_event e).
Proof. unfold index_mint_event. frame. Qed.
Lemma keeps_move_write e : keeps (apply_move_write e).
Proof. unfold apply_move_write. frame. Qed.
Lemma keeps_added_field e : keeps (apply_added_field e).
Proof. unfold apply_added_field. frame. Qed.
Lemma keeps_removed_field e : keeps (apply_removed_field e).
Proof. apply keeps_put. Qed.
Lemma keeps_locked cs i v : keeps (reconcile_object_locked_coin_records cs i v).
Proof. unfold reconcile_object_locked_coin_records, save_object_locked_coin_records. frame. Qed.
Lemma keeps_bump p k : keeps (bump_version p k).
Proof.
  intros s. unfold bump_version. destruct (checked_add _ _); [|done].
  destruct p; [etransitivity; [apply keeps_save|]|]; apply (quiet_versions (obs := obs)).
Qed.
Lemma keeps_epoch a : keeps (bump_epoch a).
Proof.
  intros s. unfold bump_epoch. destruct (bool_decide _); [done|]. destruct (checked_add _ _); [|done].
  apply (quiet_versions (obs := obs)).
Qed.
Hint Resolve keeps_bump keeps_epoch : frames.
Lemma keeps_advance p a : keeps (advance_access_versions p a).
Proof. unfold advance_access_versions. frame. Qed.
Lemma keeps_take_excess l n : keeps (take_excess l n).
Proof. revert n. induction l as [|a l IH]; intros n; cbn [take_excess]; frame. Qed.
Hint Resolve keeps_take_excess : frames.
Lemma keeps_sync : keeps sync_native_visible_supply_cache.
Proof. unfold sync_native_visible_supply_cache. frame. Qed.
Hint Resolve keeps_sync : frames.
Lemma keeps_repair : keeps repair_legacy_native_wallet_overcount.
Proof. unfold repair_legacy_native_wallet_overcount. frame. Qed.

(** The native treasury is the one place that moves the total supply. *)
Definition keeps_native : Prop := ∀ n, keeps (save_native_total_supply n).
Lemma keeps_treasury owner t cap :
  (normalize_token_type t = GAS_COIN → keeps_native) → keeps (apply_treasury (owner, t, cap)).
Proof. intros H. unfold apply_treasury. frame. by apply H. Qed.
Lemma keeps_treasury_state t owner n :
  (normalize_token_type t = GAS_COIN → keeps_native) → keeps (persist_treasury_cap_state t owner n).
Proof. intros H. unfold persist_treasury_cap_state. frame. by apply H. Qed.
End Manager.
#[export] Hint Resolve keeps_ask keeps_put keeps_add_index keeps_remove_index keeps_add_many : frames.
#[export] Hint Resolve keeps_save keeps_save_index keeps_supplies keeps_native_cache keeps_owner_record : frames.
#[export] Hint Resolve keeps_owner_state keeps_capture keeps_recompute keeps_metadata keeps_index_variants : frames.
#[export] Hint Resolve keeps_refresh keeps_add_owned keeps_nft keeps_collection keeps_mint_event : frames.
#[export] Hint Resolve keeps_move_write keeps_added_field keeps_removed_field keeps_locked keeps_advance keeps_repair : frames.

(** ** The phases *)

Section Phases.
Context {B3 : Blake3} {HX : Hex} {SC : StateCodecs} {TT : TypeTags} {X : Type} (obs : StateManager → X) {Q : Quiet obs}.
Local Abbreviation holds_still := (fixes (λ a, obs (manager a))).

Lemma still_manager {A} (m : sm A) : fixes obs m → holds_still (on_manager m).
Proof. intros H a. unfold on_manager. specialize (H (manager a)). by destruct (m (manager a)). Qed.
Lemma still_read {A} (f : StateManager → result A) : holds_still (read_manager f).
Proof. by intros a. Qed.
Lemma still_work f : holds_still (on_work f).
Proof. by intros a. Qed.
Lemma still_read_work {A} (f : Work → A) : holds_still (read_work f).
Proof. by intros a. Qed.
Hint Resolve still_read still_work still_read_work : frames.
Local Ltac still := intros; frame; repeat (apply still_manager; frame).

Lemma still_owner_delta before e : holds_still (apply_owner_delta before e).
Proof. unfold apply_owner_delta. still. Qed.
Lemma still_balance_hint cs e : holds_still (apply_balance_hint cs e).
Proof. unfold apply_balance_hint. still. Qed.
Lemma still_record_balance w t p : holds_still (record_object_balance_owner_if_needed w t p).
Proof. unfold record_object_balance_owner_if_needed. still. Qed.
Lemma still_count g u w n : holds_still (count_native g u w n).
Proof. unfold count_native. still. Qed.
Hint Resolve still_record_balance still_count : frames.
Lemma still_before w n : holds_still (count_before w n).
Proof. apply still_count. Qed.
Lemma still_after w n : holds_still (count_after w n).
Proof. apply still_count. Qed.
Hint Resolve still_before still_after : frames.
Lemma still_deleted id : holds_still (apply_deleted_object id).
Proof. unfold apply_deleted_object. still. Qed.
Lemma still_remaining cs g w e : holds_still (remaining_debit cs g w e).
Proof. unfold remaining_debit. still. Qed.
Hint Resolve still_remaining : frames.
Lemma still_charge cs g c e o : holds_still (charge_written_coin cs g c e o).
Proof. unfold charge_written_coin. still. Qed.
Hint Resolve still_charge : frames.
Lemma still_update cs g id c sid e o : holds_still (update_existing cs g id c sid e o).
Proof. unfold update_existing. still. Qed.
Lemma still_index_written id c e o : holds_still (index_written_object id c e o).
Proof. unfold index_written_object. still. Qed.
Lemma still_paid cs g c : holds_still (gas_already_paid cs g c).
Proof. unfold gas_already_paid. still. Qed.
Lemma still_write_gas g c sid e p : holds_still (write_gas_object g c sid e p).
Proof. unfold write_gas_object. still. Qed.
Hint Resolve still_update still_index_written still_paid still_write_gas : frames.
Lemma still_gas_object cs g r : holds_still (apply_gas_object cs g r).
Proof. unfold apply_gas_object. still. Qed.
Lemma still_recompute cs b w : holds_still (recompute_owner cs b w).
Proof. unfold recompute_owner. still. Qed.
Hint Resolve still_owner_delta still_balance_hint still_deleted still_gas_object still_recompute : frames.

Lemma charge_type cs g c e o : returns (charge_written_coin cs g c e o) (λ o', type_ o' = type_ o).
Proof.
  unfold charge_written_coin. repeat case_match; try by apply returns_ret.
  apply returns_bind. intros [d r]. case_match; [|by apply returns_ret].
  do 2 (apply returns_bind; intros ?). by apply returns_ret.
Qed.
Lemma update_type cs g id c sid e o : returns (update_existing cs g id c sid e o) (λ o', type_ o' = type_ o).
Proof.
  unfold update_existing. apply returns_bind. intros clock. apply returns_bind. intros _.
  eapply returns_bind_post; [apply charge_type|]. intros o' Ho'.
  do 3 (apply returns_bind; intros ?). apply returns_ret. rewrite Ho'. by case_decide.
Qed.

(** Types whose objects are read as the treasury of the native token. *)
Definition native_treasury_type (t : bytes) : Prop :=
  ∃ payload token n, treasury_cap_token_supply t payload = Some (token, n) ∧ normalize_token_type token = GAS_COIN.

Lemma still_created cs g id o :
  (native_treasury_type (type_ o) → keeps_native obs) → holds_still (apply_created_object cs g (id, o)).
Proof.
  intros H. unfold apply_created_object. apply fixes_bind; [still|]. intros existing.
  apply fixes_bind_post with (λ o', type_ o' = type_ o).
  - destruct existing as [[sid e]|]; [apply update_type|]. apply returns_ret. by case_match.
  - still.
  - intros o' Ho'. apply fixes_bind; [still|]. intros _. apply fixes_bind; [still|]. intros _.
    apply fixes_bind; [|still]. destruct (treasury_cap_token_supply _ _) as [[token n]|] eqn:E; [|still].
    apply fixes_bind; [|still]. apply still_manager, keeps_treasury_state; [done|].
    intros Hn. apply H. rewrite Ho' in E. by exists (data o'), token, n.
Qed.

(** The change set writes no treasury of the native token. *)
Definition no_native_treasury (cs : ChangeSet) : Prop :=
  (∀ owner t cap, (owner, t, cap) ∈ treasuries cs → normalize_token_type t ≠ GAS_COIN)
  ∧ ∀ id o, (id, o) ∈ created_objects cs → ¬ native_treasury_type (type_ o).

Section Gated.
Context (cs : ChangeSet) (gate : keeps_native obs ∨ no_native_treasury cs).

Lemma still_records : holds_still (write_records cs).
Proof.
  unfold write_records. apply fixes_bind; [|still]. apply still_manager, fixes_for_each_elem.
  intros [[owner t] cap] Hin. apply keeps_treasury; [done|]. intros Hn.
  destruct gate as [?|[H _]]; [done|]. destruct (H _ _ _ Hin Hn).
Qed.
Lemma still_objects p : holds_still (write_objects cs p).
Proof.
  unfold write_objects. do 3 (apply fixes_bind; [still|intros _]). apply fixes_bind; [|still].
  apply fixes_for_each_elem. intros [id o] Hin. apply still_created. intros Hn.
  destruct gate as [?|[_ H]]; [done|]. by destruct (H _ _ Hin).
Qed.
Lemma still_indexes : holds_still write_indexes.
Proof. unfold write_indexes. still. Qed.
Lemma still_balances p : holds_still (write_balances cs p).
Proof. unfold write_balances. still. Qed.
Lemma still_fields persist : holds_still (write_fields persist cs).
Proof. unfold write_fields. still. Qed.

(** All phases after the owners. *)
Lemma still_rest persist p :
  holds_still (write_records cs ≫= λ _, write_objects cs p ≫= λ _, write_indexes ≫= λ _,
               write_balances cs p ≫= λ _, write_fields persist cs).
Proof.
  apply fixes_bind; [apply still_records|intros _]. apply fixes_bind; [apply still_objects|intros _].
  apply fixes_bind; [apply still_indexes|intros _]. apply fixes_bind; [apply still_balances|intros _].
  apply still_fields.
Qed.
End Gated.
End Phases.
