(* ===== verification/StateTheorems.v ===== *)
(** * The state manager: theorems

    Applying a change set is atomic and respects the native supply; optimistic
    validation is exact; index lists are sorted sets; coin bytes, locked-coin
    records and commits do what their callers rely on. *)

From stdpp Require Import base list gmap strings sorting.
From Stdlib Require Import ZArith Lia.
From S2P Require Import Prelude Order Hashing Text Address GasCoin Transaction ChangeSet ChangeSetTheorems StateManager StateSupply StateApply StateRoot StateRootTheorems StateFrame.

(** ** Applying a change set *)

Section Applied.
Context {B3 : Blake3} {HX : Hex} {SC : StateCodecs} {TT : TypeTags}.

Lemma supply_delta_loop (l : list (bytes * OwnerDelta)) acc r :
  try_fold (λ total '(_, d), require (i128_checked_add total (balance_delta d)) "Native supply delta overflow") l acc
  = Ok r → r = (acc + zsum (map (λ e, balance_delta e.2) l))%Z.
Proof.
  revert acc. induction l as [|[a d] l IH]; intros acc E; cbn [try_fold] in E.
  - injection E as <-. cbn. lia.
  - apply result_bind_ok in E as (acc' & E1 & E2). apply require_ok in E1. unfold i128_checked_add in E1.
    case_match; [|done]. injection E1 as <-. apply IH in E2 as ->.
    cbn [map]. rewrite zsum_cons. cbn [snd]. lia.
Qed.

Lemma next_total_supply_spec delta s o :
  next_total_supply delta s = Ok o → default (total_supply s) o = (total_supply s + delta)%Z.
Proof.
  unfold next_total_supply. intros E.
  destruct (Z.ltb_spec 0 delta); [|destruct (Z.ltb_spec delta 0)]; [| |injection E as <-; cbn; lia].
  - apply result_bind_ok in E as (m & E1%require_ok & E). apply result_bind_ok in E as (n & E2%require_ok & E).
    injection E as <-. unfold to_u64 in E1. unfold checked_add in E2. repeat case_match; simplify_eq. cbn. lia.
  - apply result_bind_ok in E as (m & E1%require_ok & E). apply result_bind_ok in E as ([] & _ & E).
    apply result_bind_ok in E as (n & E2%require_ok & E). injection E as <-.
    unfold to_u64 in E1. unfold checked_sub in E2. repeat case_match; simplify_eq. cbn. lia.
Qed.

Lemma save_native_sets n s : total_supply (save_native_total_supply n s).1 = n.
Proof.
  unfold save_native_total_supply.
  rewrite (st_bind_ok (st_modify (set_total_supply n)) _ s (set_total_supply n s) tt) by done.
  set (s1 := set_total_supply n s). change n with (total_supply s1) at 2.
  match goal with |- total_supply (?m s1).1 = _ => assert (H : fixes total_supply m); [frame|apply (H s1)] end.
Qed.
Lemma save_native_ok n s : (save_native_total_supply n s).2 = Ok tt.
Proof. unfold save_native_total_supply, mbind, st_bind. cbn. repeat case_match; by simplify_eq. Qed.
Lemma save_native_keeps_store : keeps_native store.
Proof. intros n. unfold save_native_total_supply. frame. by intros s. Qed.

Lemma bind_fst {S A B} (m : st S A) (k : A → st S B) s s2 r :
  (m ≫= k) s = (s2, r) →
  (∃ s1 e, m s = (s1, Err e) ∧ s2 = s1 ∧ r = Err e) ∨ ∃ s1 a, m s = (s1, Ok a) ∧ k a s1 = (s2, r).
Proof. unfold mbind, st_bind. destruct (m s) as [s1 [a|e]]; intros E; [right; eauto|left; simplify_eq; eauto]. Qed.

(** The total supply after all phases. *)
Lemma write_all_supply persist cs p a a' :
  no_native_treasury cs → write_all persist cs p a = (a', Ok tt) →
  total_supply (manager a') = default (total_supply (manager a)) (prepared_supply p).
Proof.
  intros Hn (a1 & [] & E1 & E2)%st_bind_inv.
  pose proof (still_rest total_supply cs (or_intror Hn) persist p a1) as Hrest.
  unfold mbind in Hrest, E2. rewrite E2 in Hrest. cbn [fst] in Hrest. rewrite Hrest. clear E2 Hrest.
  unfold write_owners in E1. apply st_bind_inv in E1 as (a2 & [] & E2 & E1).
  apply st_bind_inv in E1 as (a3 & l & E3 & E1). apply st_bind_inv in E1 as (a4 & [] & E4 & E1).
  assert (H2 : total_supply (manager a2) = total_supply (manager a)).
  { pose proof (fixes_for_each (λ a, total_supply (manager a)) (btree_iter (owner_deltas cs))
      (apply_owner_delta (prepared_before p)) (still_owner_delta total_supply _) a) as H.
    by rewrite E2 in H. }
  assert (H4 : total_supply (manager a4) = total_supply (manager a3)).
  { pose proof (still_manager total_supply _ (keeps_add_many total_supply OWNER_INDEX_KEY l) a3) as H.
    by rewrite E4 in H. }
  injection E3 as -> _. destruct (prepared_supply p) as [n|]; cbn [default].
  - unfold on_manager in E1. pose proof (save_native_sets n (manager a4)) as Hs.
    destruct (save_native_total_supply n (manager a4)) as [s5 r]. by injection E1 as <- _.
  - injection E1 as <-. congruence.
Qed.

Lemma write_all_store persist cs p a : store (manager (write_all persist cs p a).1) = store (manager a).
Proof.
  apply (fixes_bind (λ a, store (manager a))).
  - unfold write_owners. apply fixes_bind; [apply fixes_for_each; intros; by apply still_owner_delta|intros _].
    apply fixes_bind; [apply still_read_work|intros l].
    apply fixes_bind; [by apply still_manager, keeps_add_many|intros _].
    destruct (prepared_supply p); [apply still_manager, save_native_keeps_store|apply fixes_ret].
  - intros _. apply still_rest; [apply _|]. left. apply save_native_keeps_store.
Qed.

(** Debits are covered before anything is written. *)
Definition covered (cs : ChangeSet) (s : StateManager) (a : bytes) : Prop :=
  ∃ ledger, native_ledger a s = Ok ledger
    ∧ ((- delta_in cs a ≤ ledger)%Z
       ∨ ∃ balances, compute_owned_token_balances a None s = Ok balances
         ∧ (- delta_in cs a ≤ default 0 (balances !! GAS_COIN))%Z).

Lemma try_fold_inv {A B} (f : B → A → result B) (I : B → Prop) l acc r :
  (∀ acc x acc', x ∈ l → I acc → f acc x = Ok acc' → I acc') → I acc → try_fold f l acc = Ok r → I r.
Proof.
  revert acc. induction l as [|x l IH]; intros acc Hf Hi E; cbn [try_fold] in E; [by injection E as <-|].
  apply result_bind_ok in E as (acc' & E1 & E2). apply (IH acc'); [|by eapply Hf; [left|..]|done].
  intros a y a' Hy. apply Hf. by right.
Qed.

Lemma snapshot_owners_complete cs s owners a :
  native_snapshot_owners cs s = Ok owners → is_Some (owner_deltas cs !! a) → a ∈ owners.
Proof.
  intros E Ha. unfold native_snapshot_owners in E.
  revert E. apply (try_fold_inv _ (λ o : gset bytes, a ∈ o)).
  - intros acc x acc' _ Hacc E. apply result_bind_ok in E as (found & _ & E). injection E as <-.
    repeat case_match; set_solver.
  - apply elem_of_union_l, elem_of_dom. done.
Qed.

Lemma balances_before_lookup cs s before a :
  native_balances_before cs s = Ok before → is_Some (owner_deltas cs !! a) →
  ∃ b, before !! a = Some b ∧ snapshot_balance cs s a = Ok b.
Proof.
  intros E Ha. unfold native_balances_before in E. apply result_bind_ok in E as (owners & Eo & E).
  pose proof (snapshot_owners_complete _ _ _ _ Eo Ha) as Hin.
  apply (try_fold_collects _ (λ (m : gmap bytes (Z * Z)) k, ∃ b, m !! k = Some b ∧ snapshot_balance cs s k = Ok b)
    (λ x k, x = k) _ _ _) with (k := a) in E.
  - apply E. right. exists a. split; [|done]. rewrite elem_of_sort_dedup. by apply elem_of_elements.
  - intros acc x acc' _ Ex k. apply result_bind_ok in Ex as (b & Eb & Ex). injection Ex as <-.
    destruct (decide (x = k)) as [->|Hne].
    + rewrite lookup_insert_eq. split; [by right|]. intros _. eauto.
    + rewrite lookup_insert_ne by done. naive_solver.
Qed.

Lemma prepared_covered cs s p a d :
  prepare cs s = Ok p → owner_deltas cs !! a = Some d → (balance_delta d < 0)%Z → covered cs s a.
Proof.
  intros E Ha Hd. unfold prepare in E.
  apply result_bind_ok in E as (delta & _ & E). apply result_bind_ok in E as (next & _ & E).
  apply result_bind_ok in E as (gas & _ & E). apply result_bind_ok in E as (before & Eb & E).
  apply result_bind_ok in E as ([] & Ec & _).
  destruct (balances_before_lookup _ _ _ a Eb ltac:(eauto)) as ([ledger object] & Hb & Hs).
  destruct (try_fold_each _ _ _ _ (a, d) Ec) as (u & u' & Eu); [by apply elem_of_btree|].
  cbn beta iota in Eu. rewrite (proj2 (Z.leb_gt 0 _)) in Eu by lia.
  apply result_bind_ok in Eu as (debit & Ed%require_ok & Eu). rewrite Hb in Eu. cbn [default from_option id] in Eu.
  apply ensure_ok, Z.leb_le in Eu. unfold to_u64 in Ed. case_match; [|done]. injection Ed as <-.
  assert (Hdelta : delta_in cs a = balance_delta d) by (unfold delta_in; by rewrite Ha).
  unfold snapshot_balance in Hs. rewrite Hdelta in Hs.
  apply result_bind_ok in Hs as (l & El & Hs). apply result_bind_ok in Hs as (db & Edb & Hs).
  apply result_bind_ok in Hs as (ob & Eob & Hs). injection Hs as -> ->.
  exists ledger. split; [done|]. rewrite Hdelta.
  case_match; [injection Eob as <-; left; lia|].
  apply result_bind_ok in Eob as (balances & Ebal & Eob). injection Eob as <-.
  destruct (Z.le_gt_cases (- balance_delta d) ledger); [by left|right; exists balances; split; [done|lia]].
Qed.

Lemma prepared_supply_spec cs s p :
  prepare cs s = Ok p → default (total_supply s) (prepared_supply p) = (total_supply s + supply_delta cs)%Z.
Proof.
  unfold prepare. intros E. apply result_bind_ok in E as (delta & Ed & E).
  apply result_bind_ok in E as (next & En & E). apply supply_delta_loop in Ed.
  apply result_bind_ok in E as (g & _ & E). apply result_bind_ok in E as (b & _ & E).
  apply result_bind_ok in E as ([] & _ & E). apply result_bind_ok in E as (r & _ & E).
  apply result_bind_ok in E as ([i v] & _ & E). injection E as <-. cbn [prepared_supply].
  apply next_total_supply_spec in En. rewrite En, Ed. unfold supply_delta.
  by rewrite (zsum_perm _ _ (Permutation_map _ (btree_iter_perm (owner_deltas cs)))).
Qed.

(** What a successful application has checked and done to the supply. *)
Definition supply_applied (cs : ChangeSet) (s s' : StateManager) : Prop :=
  (∀ a d, owner_deltas cs !! a = Some d → (balance_delta d < 0)%Z → covered cs s a)
  ∧ (no_native_treasury cs → total_supply s' = (total_supply s + supply_delta cs)%Z).

Lemma unvalidated_applied persist cs s s' r :
  apply_changeset_without_supply_validation persist cs s = (s', r) →
  store s' = store s ∧ (r = Ok tt → supply_applied cs s s').
Proof.
  unfold apply_changeset_without_supply_validation. intros E.
  destruct (prepare cs s) as [p|e] eqn:Ep; [|by injection E as <- <-].
  pose proof (write_all_store persist cs p {| manager := s; work := no_work |}) as Hst.
  destruct (write_all persist cs p _) as [a' r'] eqn:Ew. injection E as <- <-. split; [exact Hst|].
  intros ->. split; [intros a d; by apply prepared_covered with (p := p)|].
  intros Hn. rewrite (write_all_supply _ _ _ _ _ Hn Ew). by apply prepared_supply_spec.
Qed.

(** What the cached check of the node establishes: its counter of the visible
    native supply, alone and with what objects lock, is within the issued total,
    and the persisted native treasury agrees.  It bounds the counter, not the
    wallets: after a coin was transferred whole the wallets can hold more
    ([ExecutorTheorems.Runs.whole_coin_transfer_duplicates]). *)
Definition cached_supply_within (s : StateManager) : Prop :=
  ∃ locked, object_locked_supply_for_token GAS_COIN s = Ok locked
    ∧ (native_cached s ≤ total_supply s)%Z ∧ (native_cached s + locked ≤ total_supply s)%Z
    ∧ check_persisted_native s = Ok tt.

Lemma validate_cached_sound s : validate_cached_supply_invariants s = Ok tt → cached_supply_within s.
Proof.
  unfold validate_cached_supply_invariants. intros E.
  apply result_bind_ok in E as ([] & E1 & E). apply result_bind_ok in E as (locked & E2 & E).
  apply result_bind_ok in E as (acc & E3%require_ok & E). apply ensure_ok, andb_true_iff in E as [H1 H2].
  unfold checked_add in E3. case_match; [|done]. injection E3 as <-.
  exists locked. split_and!; [done|lia|lia|done].
Qed.

Lemma changeset_applied (persist fail_fast : bool) (cs : ChangeSet) (s s' : StateManager) (r : result unit) :
  apply_changeset persist fail_fast cs s = (s', r) →
  match r with
  | Err _ => s' = s
  | Ok _ => store s' = store s ∧ supply_applied cs s s' ∧ cached_supply_within s'
  end.
Proof.
  unfold apply_changeset. intros E. case_match; [|by injection E as <- <-].
  unfold apply_validated in E.
  match type of E with context [match ?c s with _ => _ end] => destruct (c s) as [s1 [u|e]] eqn:Ec end;
    injection E as <- <-; [|done].
  apply st_bind_inv in Ec as (s2 & [] & E1 & Ec). apply st_bind_inv in Ec as (s3 & b & E2 & Ec).
  apply st_bind_inv in Ec as (s4 & s4' & E3 & Ec). injection E3 as <- <-.
  apply unvalidated_applied in E1 as [Hst Happ].
  pose proof (keeps_repair store s2) as Hr1. pose proof (keeps_repair total_supply s2) as Hr2.
  rewrite E2 in Hr1, Hr2. cbn [fst] in Hr1, Hr2. unfold st_lift in Ec. injection Ec as <- Ev.
  destruct (Happ eq_refl) as [Hc Ht].
  split_and!; [congruence| |].
  - split; [done|]. intros Hn. rewrite Hr2. by apply Ht.
  - destruct (validate_cached_supply_invariants s3) as [[]|e] eqn:Ev'; [by apply validate_cached_sound|].
    apply result_bind_ok in Ev as (x & _ & Ev). done.
Qed.

(** C10: applying a change set is atomic.  If it fails the state is unchanged.
    If it succeeds nothing has reached the store yet, every debit was covered by
    the ledger balance or the coin objects of its owner, the cached counter of the
    native supply, with what objects lock, is within the total supply, which agrees
    with the persisted treasury ([cached_supply_within], which says nothing of the
    sum of the wallets), and, unless the change set writes a treasury of the native
    token or an object of its treasury type ([no_native_treasury]),
    the total supply has moved by exactly the sum of the owner deltas. *)
Theorem apply_changeset_atomic (persist fail_fast : bool) (cs : ChangeSet) (s s' : StateManager) (r : result unit) :
  apply_changeset persist fail_fast cs s = (s', r) →
  match r with
  | Err _ => s' = s
  | Ok _ => store s' = store s ∧ supply_applied cs s s' ∧ cached_supply_within s'
  end.
Proof. apply changeset_applied. Qed.
End Applied.

(** ** Optimistic validation *)

Section Validation.
Context {B3 : Blake3} {HX : Hex} {SC : StateCodecs} {TT : TypeTags}.

Lemma bump_version_spec persist k s s' :
  bump_version persist k s = (s', Ok tt) →
  ∀ j, version_of (access_versions s') j = (version_of (access_versions s) j + if decide (j = k) then 1 else 0)%Z.
Proof.
  unfold bump_version. intros E j. destruct (checked_add _ _) as [n|] eqn:En; [|done].
  unfold checked_add in En. destruct (_ <=? u64_max)%Z; [|done]. injection En as En.
  assert (Hv : access_versions s' = <[k := n]> (access_versions s)) 
    by (destruct persist; [unfold save_internal, st_modify in E|]; by injection E as <-).
  unfold version_of in *. rewrite Hv. case_decide as Hj.
  - subst j. rewrite lookup_insert_eq. cbn [default from_option id]. lia.
  - rewrite lookup_insert_ne by done. lia.
Qed.

Lemma bump_versions_spec persist l s s' :
  NoDup l → for_each l (bump_version persist) s = (s', Ok tt) →
  ∀ j, version_of (access_versions s') j = (version_of (access_versions s) j + if decide (j ∈ l) then 1 else 0)%Z.
Proof.
  revert s. induction l as [|k l IH]; intros s Hd E j; cbn [for_each] in E.
  - injection E as <-. rewrite decide_False by apply not_elem_of_nil. lia.
  - apply NoDup_cons in Hd as [Hk Hd]. apply st_bind_inv in E as (s1 & [] & E1 & E2).
    rewrite (IH s1 Hd E2 j), (bump_version_spec _ _ _ _ E1 j).
    destruct (decide (j = k)) as [->|Hj].
    + rewrite (decide_False (P := k ∈ l)), (decide_True (P := k ∈ k :: l)) by (done || by left). lia.
    + destruct (decide (j ∈ l)); [rewrite decide_True by (by right)|rewrite decide_False by set_solver]; lia.
Qed.

Lemma advance_spec persist access s s' :
  advance_access_versions persist access s = (s', Ok tt) →
  ∀ j, version_of (access_versions s') j
       = (version_of (access_versions s) j + if decide (j ∈ writes access) then 1 else 0)%Z.
Proof.
  intros (s1 & [] & E1 & E2)%st_bind_inv j.
  assert (H1 : access_versions s1 = access_versions s)
    by (unfold bump_epoch in E1; repeat case_match; by simplify_eq).
  rewrite (bump_versions_spec _ _ _ _ (sort_dedup_NoDup _) E2 j), H1.
  destruct (decide (j ∈ writes access)) as [Hj|Hj];
    [rewrite decide_True|rewrite decide_False]; rewrite ?elem_of_sort_dedup, ?elem_of_elements; done.
Qed.

(** The write sets committed one after the other. *)
Lemma advance_all_spec persist committed s s' :
  for_each committed (advance_access_versions persist) s = (s', Ok tt) →
  ∀ j, (version_of (access_versions s) j ≤ version_of (access_versions s') j)%Z
       ∧ (version_of (access_versions s') j = version_of (access_versions s) j
          ↔ ∀ c, c ∈ committed → j ∉ writes c).
Proof.
  revert s. induction committed as [|c l IH]; intros s E j; cbn [for_each] in E.
  - injection E as <-. split; [lia|]. split; [|done]. intros _ c Hc. by apply elem_of_nil in Hc.
  - apply st_bind_inv in E as (s1 & [] & E1 & E2). destruct (IH s1 E2 j) as [Hle Heq].
    pose proof (advance_spec _ _ _ _ E1 j) as Hs. setoid_rewrite elem_of_cons.
    destruct (decide (j ∈ writes c)) as [Hj|Hj].
    + split; [lia|]. split; [lia|]. intros H. by destruct (H c (or_introl eq_refl)).
    + replace (version_of (access_versions s1) j) with (version_of (access_versions s) j) in * by lia.
      split; [lia|]. rewrite Heq. naive_solver.
Qed.

Lemma captured_version access s j :
  j ∈ reads access ∪ writes access →
  version_of (capture_access_versions access s) j = version_of (access_versions s) j.
Proof.
  intros Hj. assert (Hl : capture_access_versions access s !! j = Some (version_of (access_versions s) j)).
  { apply lookup_set_to_map; [naive_solver|]. exists j. done. }
  unfold version_of at 1. by rewrite Hl.
Qed.

(** C32: validation of an optimistic execution is exact.  The versions captured
    before an execution validate against a later state precisely when none of the
    access sets committed in between writes a key that the execution reads or
    writes. *)
Theorem optimistic_validation_exact (persist : bool) (access : StateAccessSet)
    (committed : list StateAccessSet) (s s' : StateManager) :
  for_each committed (advance_access_versions persist) s = (s', Ok tt) →
  validate_access_snapshot (capture_access_versions access s) access s' = true
  ↔ ∀ c, c ∈ committed → (reads access ∪ writes access) ## writes c.
Proof.
  intros E. unfold validate_access_snapshot. rewrite forallb_forall. split.
  - intros H c Hc. apply elem_of_disjoint. intros j Hj Hw.
    assert (Hin : j ∈ elements (reads access) ++ elements (writes access))
      by (rewrite elem_of_app, !elem_of_elements; set_solver).
    specialize (H j (proj1 (list_elem_of_In _ _) Hin)). rewrite Z.eqb_eq, captured_version in H by done.
    destruct (advance_all_spec _ _ _ _ E j) as [_ Heq]. by apply (proj1 Heq (eq_sym H) c Hc).
  - intros H j Hj%list_elem_of_In. rewrite elem_of_app, !elem_of_elements, <- elem_of_union in Hj.
    rewrite Z.eqb_eq, captured_version by done. symmetry. apply (advance_all_spec _ _ _ _ E j).
    intros c Hc Hw. specialize (H c Hc). by apply (proj1 (elem_of_disjoint _ _) H j Hj Hw).
Qed.
End Validation.

(** ** Commit *)

Section Commits.
Context {B3 : Blake3} {HX : Hex} {SC : StateCodecs} {TT : TypeTags}.
Local Abbreviation entries_t := (gmap bytes bytes).

Lemma foldl_insert_lookup (l : list (bytes * bytes)) (m : entries_t) k :
  NoDup (map fst l) →
  foldl (λ (m : entries_t) '(k, v), <[k := v]> m) m l !! k
  = match (list_to_map l : entries_t) !! k with Some v => Some v | None => m !! k end.
Proof.
  revert m. induction l as [|[j v] l IH]; intros m Hd; [done|]. apply NoDup_cons in Hd as [Hj Hd].
  cbn [foldl]. rewrite IH by done. cbn [list_to_map foldr fst snd].
  destruct (decide (j = k)) as [->|Hne].
  - rewrite (not_elem_of_list_to_map_1 l k) by done. cbn. by rewrite !lookup_insert_eq.
  - cbn. by rewrite !lookup_insert_ne.
Qed.
Lemma foldl_delete_lookup (l : list bytes) (m : entries_t) k :
  foldl (λ (m : entries_t) k, delete k m) m l !! k = if decide (k ∈ l) then None else m !! k.
Proof.
  revert m. induction l as [|j l IH]; intros m; cbn [foldl]; [by rewrite decide_False by apply not_elem_of_nil|].
  rewrite IH. destruct (decide (j = k)) as [->|Hne].
  - rewrite lookup_delete_eq, (decide_True (P := k ∈ k :: l)) by (by left). by case_decide.
  - rewrite lookup_delete_ne by done. destruct (decide (k ∈ l)) as [Hk|Hk];
      [by rewrite decide_True by (by right)|by rewrite decide_False by set_solver].
Qed.

Lemma overlay_updates_lookup s k v : (k, v) ∈ overlay_updates s ↔ overlay s !! k = Some (Some v).
Proof.
  unfold overlay_updates. rewrite list_elem_of_omap. split.
  - intros ([j [u|]] & Hj & E); cbn in E; [|done]. injection E as -> ->. by apply elem_of_btree.
  - intros H. exists (k, Some v). split; [by apply elem_of_btree|done].
Qed.
Lemma overlay_deletes_lookup s k : k ∈ overlay_deletes s ↔ overlay s !! k = Some None.
Proof.
  unfold overlay_deletes. rewrite list_elem_of_omap. split.
  - intros ([j [u|]] & Hj & E); cbn in E; [done|]. injection E as ->. by apply elem_of_btree.
  - intros H. exists (k, None). split; [by apply elem_of_btree|done].
Qed.
Lemma overlay_updates_NoDup s : NoDup (map fst (overlay_updates s)).
Proof.
  unfold overlay_updates. pose proof (btree_iter_NoDup (overlay s)) as Hd.
  induction (btree_iter (overlay s)) as [|[k [v|]] l IH]; cbn in *; [constructor| |];
    apply NoDup_cons in Hd as [Hk Hd]; [|by apply IH].
  constructor; [|by apply IH]. intros ([j u] & -> & Hj)%list_elem_of_fmap.
  apply list_elem_of_omap in Hj as ([j' [u'|]] & Hj & E); [|done]. cbn in E. injection E as -> ->.
  apply Hk, list_elem_of_fmap. by exists (j, Some u).
Qed.

Lemma committed_store s : store (commit s).1 = merged_entries s.
Proof.
  apply map_eq. intros k. rewrite merged_lookup. unfold view. cbn. unfold apply_raw_changes.
  rewrite foldl_delete_lookup, foldl_insert_lookup by apply overlay_updates_NoDup.
  destruct (overlay s !! k) as [[v|]|] eqn:Eo.
  - rewrite decide_False by (rewrite overlay_deletes_lookup; congruence).
    rewrite (elem_of_list_to_map_1 _ k v); [done|apply overlay_updates_NoDup|by apply overlay_updates_lookup].
  - by rewrite decide_True by (by apply overlay_deletes_lookup).
  - rewrite decide_False by (rewrite overlay_deletes_lookup; congruence).
    rewrite not_elem_of_list_to_map_1; [done|].
    intros ([j u] & -> & Hj%overlay_updates_lookup)%list_elem_of_fmap. cbn in Eo. congruence.
Qed.

(** a commit makes the pending state persistent and changes nothing a
    reader can see: the overlay is empty, every key reads as before, the entries
    of the store are the merged entries, and the canonical snapshot and the state
    root are those announced before the commit. *)
Theorem commit_transparent (s : StateManager) :
  ∃ s', commit s = (s', Ok tt) ∧ overlay s' = ∅ ∧ store s' = merged_entries s
    ∧ (∀ k, view s' k = view s k)
    ∧ canonical_persisted_entries s' = try_canonical_state_snapshot s
    ∧ try_compute_state_root s' = try_compute_state_root s
    ∧ (total_supply s', global_token_supplies s', access_versions s', access_epoch s')
      = (total_supply s, global_token_supplies s, access_versions s, access_epoch s).
Proof.
  exists (commit s).1. pose proof (committed_store s) as Hst.
  assert (Hov : overlay (commit s).1 = ∅) by done.
  assert (Hm : merged_entries (commit s).1 = merged_entries s).
  { rewrite <- Hst. apply map_eq. intros k. rewrite merged_lookup. unfold view. by rewrite Hov, lookup_empty. }
  split_and!; [done|done|done| | | |done].
  - intros k. by rewrite <- !merged_lookup, Hm.
  - unfold canonical_persisted_entries, try_canonical_state_snapshot. by rewrite Hst.
  - unfold try_compute_state_root, try_canonical_state_snapshot. by rewrite Hm.
Qed.
End Commits.

(** ** Concrete runs *)

Module Runs.
Import ToyHash RealHex ToyCodecs ChangeSetTheorems.Runs.

(** Alice owns 100 Mist; she sends 70 to Bob and burns 5. *)
Definition alice_owner : OwnerState := with_native_balance alice 100.
Definition ready : StateManager := {|
  store := list_to_map [
    (owner_state_key alice, enc owner_codec alice_owner);
    (OWNER_INDEX_KEY, enc ids_codec [MoveAddress.to_hex_literal alice]);
    (str "total_supply", enc u64_codec 100%Z)];
  overlay := ∅; total_supply := 100; global_token_supplies := {[ GAS_COIN := 100%Z ]};
  access_versions := ∅; access_epoch := 0 |}.
Definition payment : ChangeSet := build [OpTransfer alice bob 70; OpBurn alice 5].
Definition paid : StateManager := (apply_changeset true false payment ready).1.

Lemma payment_applies : apply_changeset true false payment ready = (paid, Ok tt).
Proof.
  unfold paid. rewrite (surjective_pairing (apply_changeset true false payment ready)) at 1.
  f_equal; vm_compute; reflexivity.
Qed.

Lemma apply_changeset_atomic_witness :
  store paid = store ready ∧ supply_applied payment ready paid ∧ cached_supply_within paid.
Proof. exact (apply_changeset_atomic true false payment ready paid (Ok tt) payment_applies). Defined.

Example payment_supply : total_supply paid = 95%Z ∧ native_cached paid = 95%Z.
Proof. by vm_compute. Qed.

(** Too large a debit is refused. *)
Example overdraft_rejected :
  (apply_changeset true false (build [OpTransfer alice bob 101]) ready).2 = Err "Insufficient native balance".
Proof. by vm_compute. Qed.

Definition reader : StateAccessSet := {| reads := {[ [1%Z] ]}; writes := {[ [2%Z] ]} |}.
Definition others : list StateAccessSet :=
  [{| reads := {[ [1%Z] ]}; writes := {[ [3%Z] ]} |}; {| reads := ∅; writes := {[ [4%Z] ]} |}].

Lemma optimistic_validation_exact_witness :
  validate_access_snapshot (capture_access_versions reader ready) reader
    (for_each others (advance_access_versions true) ready).1 = true
  ↔ ∀ c, c ∈ others → (reads reader ∪ writes reader) ## writes c.
Proof.
  apply (optimistic_validation_exact true).
  rewrite (surjective_pairing (for_each others _ ready)) at 1. f_equal; vm_compute; reflexivity.
Defined.
Example stale_snapshot :
  validate_access_snapshot (capture_access_versions reader ready) reader
    (for_each (others ++ [reader]) (advance_access_versions true) ready).1 = false.
Proof. by vm_compute. Qed.
End Runs.
