(* ===== verification/StateRecords.v ===== *)
(** * The records of the state manager: theorems

    Sorted index lists, coin objects in bytes, and the records of coins that are
    locked inside objects. *)

From stdpp Require Import base list gmap strings sorting.
From Stdlib Require Import ZArith Lia.
From S2P Require Import Prelude Order Hashing Text Address GasCoin Transaction ChangeSet ChangeSetTheorems StateManager StateSupply StateApply StateRoot StateRootTheorems StateTheorems.

(** ** Index lists *)

Lemma GAS_COIN_valid : is_str GAS_COIN.
Proof. by vm_compute. Qed.

Definition index_ok (l : list bytes) : Prop := StronglySorted bytes_le l ∧ NoDup l.

Lemma index_ok_cons x l : index_ok (x :: l) ↔ index_ok l ∧ Forall (λ y, bytes_le x y ∧ x ≠ y) l.
Proof.
  unfold index_ok. rewrite NoDup_cons. split.
  - intros [Hs [Hx Hd]]. apply StronglySorted_inv in Hs as [Hs Hf]. split; [done|].
    rewrite Forall_forall in Hf |- *. intros y Hy. split; [by apply Hf|]. by intros ->.
  - intros [[Hs Hd] Hf]. split_and!; [constructor; [done|]|intros Hx|done].
    + eapply Forall_impl; [exact Hf|]. naive_solver.
    + rewrite Forall_forall in Hf. by destruct (Hf x Hx).
Qed.

(** A found position holds the value; otherwise it is where the value belongs. *)
Lemma binary_search_found v l :
  index_ok l → v ∈ l ↔ (binary_search v l).1 = true.
Proof.
  induction l as [|x l IH]; intros Hl; cbn [binary_search]; [by rewrite elem_of_nil|].
  apply index_ok_cons in Hl as [Hl Hx]. rewrite elem_of_cons. case_decide as E; [naive_solver|].
  destruct (bytes_leb v x) eqn:Hle; cbn [fst].
  - split; [|done]. intros [?|Hv]; [congruence|]. rewrite Forall_forall in Hx.
    destruct (Hx v Hv) as [H _]. destruct E. by apply (anti_symm bytes_le).
  - specialize (IH Hl). destruct (binary_search v l) as [f p]. cbn [fst] in *. naive_solver.
Qed.

Lemma insert_at_position v l :
  index_ok l → (binary_search v l).1 = false →
  let p := (binary_search v l).2 in
  index_ok (take p l ++ v :: drop p l) ∧ ∀ x, x ∈ take p l ++ v :: drop p l ↔ x = v ∨ x ∈ l.
Proof.
  intros Hl Hf. cbn zeta. split; [|intros x; pose proof (elem_of_app (take (binary_search v l).2 l)
    (drop (binary_search v l).2 l) x) as H; rewrite take_drop in H; rewrite H, elem_of_app, elem_of_cons; tauto].
  induction l as [|x l IH]; cbn [binary_search] in *; [apply index_ok_cons; split; [by split; constructor|done]|].
  apply index_ok_cons in Hl as [Hl Hx]. case_decide as E; [done|]. destruct (bytes_leb v x) eqn:Hle.
  - cbn [snd take drop app]. apply index_ok_cons. split; [by apply index_ok_cons|]. constructor; [split; [exact Hle|congruence]|].
    eapply Forall_impl; [exact Hx|]. intros y [Hy Hne]. split; [by etrans|].
    intros <-. apply E. by apply (anti_symm bytes_le).
  - destruct (binary_search v l) as [f p]. cbn [fst snd] in *. cbn [take drop app].
    apply index_ok_cons. split; [by apply IH|]. rewrite Forall_app, Forall_cons.
    rewrite <- (take_drop p l), Forall_app in Hx. destruct Hx as [H1 H2]. 
    split; [exact H1|]. split; [|exact H2]. split; [|done].
    destruct (total bytes_le x v) as [|H]; [done|]. unfold bytes_le in H. congruence.
Qed.

Lemma remove_at_position v l :
  index_ok l → (binary_search v l).1 = true →
  let p := (binary_search v l).2 in
  index_ok (take p l ++ drop (S p) l) ∧ ∀ x, x ∈ take p l ++ drop (S p) l ↔ x ≠ v ∧ x ∈ l.
Proof.
  cbn zeta. induction l as [|x l IH]; intros Hl Hf; cbn [binary_search] in *; [done|].
  apply index_ok_cons in Hl as [Hl Hx]. rewrite Forall_forall in Hx. case_decide as E.
  - subst x. cbn [snd take drop app]. split; [done|]. intros y. rewrite elem_of_cons. naive_solver.
  - destruct (bytes_leb v x); [done|]. destruct (binary_search v l) as [f p]. cbn [fst snd] in *.
    destruct (IH Hl Hf) as [H1 H2]. rewrite skipn_cons. cbn [take app]. split.
    + apply index_ok_cons. split; [done|]. rewrite Forall_forall. intros y Hy%H2. apply Hx. tauto.
    + intros y. rewrite !elem_of_cons, H2. naive_solver.
Qed.

Section Indexes.
Context {B3 : Blake3} {HX : Hex} {SC : StateCodecs} {TT : TypeTags}.

Lemma view_put s k v j : view (put_overlay k v s) j = if decide (k = j) then v else view s j.
Proof.
  unfold view, put_overlay. cbn. case_decide as E; [subst; by rewrite lookup_insert_eq|by rewrite lookup_insert_ne].
Qed.
Lemma load_saved_index k ids s :
  Forall is_str ids → load_index_list k (put_overlay k (Some (enc ids_codec ids)) s) = Ok ids.
Proof.
  intros Hs. unfold load_index_list, load_internal. rewrite view_put, decide_True by done.
  unfold decode. rewrite (dec_enc ids_codec ids (ids_storable ids Hs)). done.
Qed.

(** The list under [k] becomes a sorted set with the given members; no other key
    changes. *)
Definition index_becomes (k : bytes) (P : bytes → Prop) (s : StateManager) (run : StateManager * result unit) : Prop :=
  ∃ s' l', run = (s', Ok tt) ∧ load_index_list k s' = Ok l' ∧ index_ok l' ∧ (∀ x, x ∈ l' ↔ P x)
    ∧ ∀ j, j ≠ k → view s' j = view s j.

Lemma index_unchanged k l P s :
  load_index_list k s = Ok l → index_ok l → (∀ x, x ∈ l ↔ P x) → index_becomes k P s (s, Ok tt).
Proof. intros El Hl HP. exists s, l. split; [done|]. split; [done|]. split; [done|]. by split. Qed.
Lemma index_saved k ids P s :
  index_ok ids → (∀ x, x ∈ ids ↔ P x) → (∀ x, P x → is_str x) → index_becomes k P s (save_index_list k ids s).
Proof.
  intros Hi HP Hs. exists (put_overlay k (Some (enc ids_codec ids)) s), ids.
  split; [done|]. split; [apply load_saved_index, Forall_forall; intros x Hx; by apply Hs, HP|]. split; [done|]. split; [done|].
  intros j Hj. by rewrite view_put, decide_False.
Qed.

(** index lists are sorted sets.  On a sorted list without duplicates,
    adding, removing and adding many values succeed, leave a sorted list without
    duplicates with exactly the old members and the new ones, or without the
    removed one, and touch no other key. *)
Theorem index_lists_are_sets (k v : bytes) (values l : list bytes) (s : StateManager) :
  load_index_list k s = Ok l → index_ok l → (∀ x, x ∈ v :: values ++ l → is_str x) →
  index_becomes k (λ x, x = v ∨ x ∈ l) s (add_to_index_list k v s)
  ∧ index_becomes k (λ x, x ≠ v ∧ x ∈ l) s (remove_from_index_list k v s)
  ∧ index_becomes k (λ x, x ∈ l ∨ x ∈ values) s (add_many_to_index_list k values s).
Proof.
  intros El Hl Hstr. pose proof (binary_search_found v l Hl) as Hin.
  setoid_rewrite elem_of_cons in Hstr. setoid_rewrite elem_of_app in Hstr. split_and!.
  - unfold add_to_index_list, ask. rewrite (st_bind_ok _ _ s s l) by (by rewrite El).
    destruct (binary_search v l) as [[] p] eqn:Eb; cbn [fst] in Hin.
    + apply (index_unchanged k l); [done|done|]. intros x. split; [by right|]. intros [->|?]; [by apply Hin|done].
    + pose proof (insert_at_position v l Hl) as H. rewrite Eb in H. destruct (H eq_refl). apply index_saved; [done..|naive_solver].
  - unfold remove_from_index_list, ask. rewrite (st_bind_ok _ _ s s l) by (by rewrite El).
    destruct (binary_search v l) as [[] p] eqn:Eb; cbn [fst] in Hin.
    + pose proof (remove_at_position v l Hl) as H. rewrite Eb in H. destruct (H eq_refl). apply index_saved; [done..|naive_solver].
    + apply (index_unchanged k l); [done|done|]. intros x. split; [|tauto]. intros Hx. split; [|done].
      intros ->. apply Hin in Hx. discriminate Hx.
  - unfold add_many_to_index_list. destruct values as [|v0 vs]; [apply (index_unchanged k l); [done..|]; set_solver|].
    remember (v0 :: vs) as values. unfold ask. rewrite (st_bind_ok _ _ s s l) by (by rewrite El).
    destruct (forallb _ values) eqn:Ef.
    + rewrite forallb_forall in Ef. apply (index_unchanged k l); [done|done|]. intros x. split; [by left|].
      intros [?|Hx]; [done|]. apply list_elem_of_In in Hx. apply Ef, bool_decide_eq_true in Hx. done.
    + apply index_saved; [split; [apply sort_dedup_sorted|apply sort_dedup_NoDup]| |naive_solver].
      intros x. by rewrite elem_of_sort_dedup, elem_of_app.
Qed.
End Indexes.

(** ** Coins in bytes *)

Lemma u64_to_le_length k n : length (u64_to_le k n) = k.
Proof. revert n. induction k as [|k IH]; intros n; cbn [u64_to_le length]; [done|by rewrite IH]. Qed.
Lemma u64_le_roundtrip k n : (0 ≤ n < 256 ^ Z.of_nat k)%Z → u64_from_le (u64_to_le k n) = n.
Proof.
  revert n. induction k as [|k IH]; intros n Hn; cbn [u64_to_le].
  - change (256 ^ Z.of_nat 0)%Z with 1%Z in Hn. cbn. lia.
  - change (u64_from_le (n mod 256 :: u64_to_le k (n / 256)))%Z
      with (n mod 256 + 256 * u64_from_le (u64_to_le k (n / 256)))%Z.
    rewrite Nat2Z.inj_succ, Z.pow_succ_r in Hn by lia.
    rewrite IH; [|split; [apply Z.div_pos; lia|apply Z.div_lt_upper_bound; lia]].
    pose proof (Z.div_mod n 256 ltac:(lia)). lia.
Qed.

(** writing a balance into the bytes of a coin or balance object succeeds
    exactly where one can be read, and reading it back gives the written amount;
    the length and, for a coin, its identifier are kept. *)
Theorem coin_bytes_roundtrip (data : bytes) (t : StructTag) (n : Z) :
  (0 ≤ n ≤ u64_max)%Z →
  match write_balance_to_object_bytes data t n with
  | Some data' =>
      extract_balance_from_object_bytes data' t = Some n ∧ length data' = length data
      ∧ (is_coin t = true → take UID_SIZE data' = take UID_SIZE data)
      ∧ is_Some (extract_balance_from_object_bytes data t)
  | None => extract_balance_from_object_bytes data t = None
  end.
Proof.
  intros Hn. assert (Hb : (0 ≤ n < 256 ^ Z.of_nat U64_SIZE)%Z).
  { change (256 ^ Z.of_nat U64_SIZE)%Z with (u64_max + 1)%Z. lia. }
  pose proof (u64_to_le_length U64_SIZE n) as Hlen. pose proof (u64_le_roundtrip _ _ Hb) as Hrt.
  unfold write_balance_to_object_bytes, extract_balance_from_object_bytes.
  destruct (is_coin t).
  - destruct (Nat.ltb_spec (length data) (UID_SIZE + U64_SIZE)) as [|Hd]; [done|].
    assert (Hl : length (take UID_SIZE data ++ u64_to_le U64_SIZE n ++ drop (UID_SIZE + U64_SIZE) data) = length data).
    { rewrite !length_app, length_take, length_drop, Hlen. lia. }
    assert (Ht : length (take UID_SIZE data) = UID_SIZE) by (rewrite length_take; lia).
    rewrite Hl, (proj2 (Nat.ltb_ge _ _) Hd).
    rewrite drop_app_length' by done. rewrite take_app_length' by done.
    split_and!; [by rewrite Hrt|done|intros _; by rewrite take_app_length'|done].
  - destruct (is_balance t); [|done].
    destruct (Nat.ltb_spec (length data) U64_SIZE) as [|Hd]; [done|].
    assert (Hl : length (take (length data - U64_SIZE) data ++ u64_to_le U64_SIZE n) = length data).
    { rewrite length_app, length_take, Hlen. lia. }
    rewrite Hl, (proj2 (Nat.ltb_ge _ _) Hd).
    rewrite drop_app_length' by (rewrite length_take; lia).
    split_and!; [by rewrite Hrt|done|done|done].
Qed.

(** ** Coins locked in objects *)

Section Locked.

(** What the records say is locked of a token. *)
Definition locked_sum (t : bytes) (records : list ObjectLockedCoinRecord) : Z :=
  zsum (map amount (List.filter (λ r, bool_decide (locked_token_type r = t)) records)).
Lemma locked_sum_cons t r l :
  locked_sum t (r :: l) = ((if decide (locked_token_type r = t) then amount r else 0) + locked_sum t l)%Z.
Proof.
  unfold locked_sum. cbn [List.filter]. destruct (decide (locked_token_type r = t)) as [E|E].
  - rewrite bool_decide_true by done. cbn [map]. by rewrite zsum_cons.
  - rewrite bool_decide_false by done. lia.
Qed.
Definition not_negative (records : list ObjectLockedCoinRecord) : Prop := Forall (λ r, 0 ≤ amount r)%Z records.
Lemma locked_sum_not_negative t l : not_negative l → (0 ≤ locked_sum t l)%Z.
Proof.
  induction 1 as [|r l Hr Hl IH]; [done|]. rewrite locked_sum_cons. case_decide; lia.
Qed.

Lemma put_locked_sum holder t n l l' :
  put_locked holder t n l = Ok l' → (0 ≤ n)%Z → not_negative l →
  not_negative l' ∧ ∀ u, locked_sum u l' = (locked_sum u l + if decide (u = t) then n else 0)%Z.
Proof.
  intros E Hn Hl. revert l' E. induction Hl as [|r l Hr Hl IH]; intros l' E; cbn [put_locked] in E.
  - injection E as <-. split; [by repeat constructor|]. intros u. rewrite locked_sum_cons. cbn.
    repeat case_decide; by simplify_eq; lia.
  - case_bool_decide as E1; [case_bool_decide as E2|]; cbn [andb] in E.
    + apply result_bind_ok in E as (total & Et%require_ok & E). injection E as <-.
      unfold checked_add in Et. destruct (_ <=? _)%Z; [|done]. injection Et as <-.
      split; [constructor; [cbn; lia|done]|]. intros u. rewrite !locked_sum_cons. cbn.
      repeat case_decide; simplify_eq; lia.
    + apply result_bind_ok in E as (rest & Er & E). injection E as <-. destruct (IH _ Er) as [H1 H2].
      split; [by constructor|]. intros u. rewrite !locked_sum_cons, H2. lia.
    + apply result_bind_ok in E as (rest & Er & E). injection E as <-. destruct (IH _ Er) as [H1 H2].
      split; [by constructor|]. intros u. rewrite !locked_sum_cons, H2. lia.
Qed.

(** One pass releases from eligible records of the token until nothing remains
    to be released or nothing eligible is left. *)
Lemma release_pass_spec t eligible rem l :
  (∀ r n, eligible (set_amount n r) = eligible r) → (∀ r, eligible r = true → locked_token_type r = t) →
  (0 ≤ rem)%Z → not_negative l →
  let '(l', rem') := release_pass eligible rem l in
  not_negative l' ∧ (0 ≤ rem' ≤ rem)%Z
  ∧ (∀ u, locked_sum u l' = (locked_sum u l - if decide (u = t) then rem - rem' else 0)%Z)
  ∧ (rem' = 0%Z ∨ Forall (λ r, eligible r = true → amount r = 0%Z) l').
Proof.
  intros He Ht Hrem Hl. revert rem Hrem. induction Hl as [|r l Hr Hl IH]; intros rem Hrem; cbn [release_pass].
  - split_and!; [constructor|lia|lia|intros u; case_decide; lia|right; constructor].
  - destruct (Z.eqb_spec rem 0) as [->|Hne].
    { split_and!; [by constructor|lia|lia|intros u; case_decide; lia|by left]. }
    destruct (eligible r) eqn:Er; cbn [negb].
    + specialize (IH (rem - Z.min (amount r) rem)%Z ltac:(lia)).
      destruct (release_pass _ _ l) as [l' rem']. destruct IH as (H1 & H2 & H3 & H4).
      split_and!; [constructor; [cbn; lia|done]|lia|lia| |].
      * intros u. rewrite !locked_sum_cons, H3. cbn. rewrite (Ht r Er). repeat case_decide; try congruence; lia.
      * destruct H4 as [H4|H4]; [by left|]. destruct (decide (rem' = 0)%Z); [by left|]. right.
        constructor; [|done]. intros _. cbn. lia.
    + specialize (IH rem Hrem). destruct (release_pass _ rem l) as [l' rem']. destruct IH as (H1 & H2 & H3 & H4).
      split_and!; [by constructor|lia|lia|intros u; rewrite !locked_sum_cons, H3; lia|].
      destruct H4 as [H4|H4]; [by left|]. right. constructor; [congruence|done].
Qed.

Lemma locked_sum_zero t l :
  Forall (λ r, bool_decide (locked_token_type r = t) = true → amount r = 0%Z) l → locked_sum t l = 0%Z.
Proof.
  induction 1 as [|r l Hr Hl IH]; [done|]. rewrite locked_sum_cons, IH. case_decide; [|done].
  rewrite Hr by (by apply bool_decide_eq_true). done.
Qed.
Lemma locked_sum_positive u l :
  not_negative l → locked_sum u (List.filter (λ r, 0 <? amount r)%Z l) = locked_sum u l
                   ∧ not_negative (List.filter (λ r, 0 <? amount r)%Z l).
Proof.
  induction 1 as [|r l Hr Hl [IH1 IH2]]; [split; [done|constructor]|]. cbn [List.filter].
  destruct (Z.ltb_spec 0 (amount r)); rewrite !locked_sum_cons, <- ?IH1.
  - split; [done|by constructor].
  - split; [case_decide; lia|done].
Qed.

Lemma release_locked_sum l holders t n :
  not_negative l → (0 ≤ n)%Z →
  not_negative (release_locked_coin_records l holders t n)
  ∧ ∀ u, locked_sum u (release_locked_coin_records l holders t n)
         = if decide (u = t) then Z.max 0 (locked_sum t l - n) else locked_sum u l.
Proof.
  intros Hl Hn. unfold release_locked_coin_records.
  pose proof (release_pass_spec t (λ r, bool_decide (locked_token_type r = t)
    && bool_decide (holder_object_id r ∈ holders)) n l ltac:(done)) as P1.
  destruct (release_pass _ n l) as [l1 rem1] eqn:E1.
  destruct P1 as (A1 & A2 & A3 & _); [intros r [H _]%andb_true_iff; by apply bool_decide_eq_true in H|done|done|].
  destruct (Z.eqb_spec rem1 0) as [->|Hne].
  - split; [by apply (locked_sum_positive t)|]. intros u. destruct (locked_sum_positive u l1 A1) as [-> _].
    rewrite A3. case_decide; [subst u|lia]. pose proof (locked_sum_not_negative t l1 A1). rewrite A3, decide_True in H by done. lia.
  - pose proof (release_pass_spec t (λ r, bool_decide (locked_token_type r = t)) rem1 l1 ltac:(done)) as P2.
    destruct (release_pass (λ r, bool_decide (locked_token_type r = t)) rem1 l1) as [l2 rem2].
    destruct P2 as (B1 & B2 & B3 & B4); [intros r H; by apply bool_decide_eq_true in H|lia|done|].
    split; [by apply (locked_sum_positive t)|]. intros u. destruct (locked_sum_positive u l2 B1) as [-> _].
    rewrite B3, A3. case_decide; [subst u|lia].
    pose proof (locked_sum_not_negative t l2 B1) as Hp. rewrite B3, A3, !decide_True in Hp by done.
    destruct B4 as [->|B4]; [lia|]. apply locked_sum_zero in B4. rewrite B3, A3, !decide_True in B4 by done. lia.
Qed.

(** Records stay values of the Rust type. *)
Definition holder_ok (h : bytes * CreatedObject) : Prop :=
  is_str h.1 ∧ is_str (type_ h.2) ∧ hash_ok (created_owner h.2).

Lemma put_locked_ok holder t n l l' :
  holder_ok holder → is_str t → is_u64 n → Forall locked_ok l → put_locked holder t n l = Ok l' → Forall locked_ok l'.
Proof.
  intros (H1 & H2 & H3) Ht Hn Hl. revert l'. induction Hl as [|r l Hr Hl IH]; intros l' E; cbn [put_locked] in E.
  - injection E as <-. constructor; [by split|constructor].
  - destruct (_ && _).
    + apply result_bind_ok in E as (total & Et%require_ok & E). injection E as <-. destruct Hr.
      unfold checked_add in Et. destruct (Z.leb_spec (amount r + n) u64_max); [|done]. injection Et as <-.
      constructor; [|done]. split; cbn; try done. unfold is_u64 in *. lia.
    + apply result_bind_ok in E as (rest & Er & E). injection E as <-. constructor; auto.
Qed.
Lemma release_pass_ok eligible rem l :
  (0 ≤ rem)%Z → Forall locked_ok l → Forall locked_ok (release_pass eligible rem l).1.
Proof.
  intros Hrem Hl. revert rem Hrem. induction Hl as [|r l Hr Hl IH]; intros rem Hrem; cbn [release_pass]; [constructor|].
  destruct (rem =? 0)%Z; [by constructor|]. destruct (negb (eligible r)).
  - specialize (IH rem Hrem). destruct (release_pass _ rem l). by constructor.
  - destruct Hr as [? ? ? ? Ha]. specialize (IH (rem - Z.min (amount r) rem)%Z). unfold is_u64 in Ha.
    destruct (release_pass _ _ l). constructor; [|apply IH; lia]. split; cbn; try done. unfold is_u64. lia.
Qed.
Lemma locked_ok_not_negative l : Forall locked_ok l → not_negative l.
Proof. intros H. eapply Forall_impl; [exact H|]. intros r [_ _ _ _ Ha]. unfold is_u64 in Ha. lia. Qed.
Lemma Forall_List_filter {A} (P : A → Prop) (f : A → bool) l : Forall P l → Forall P (List.filter f l).
Proof. induction 1 as [|x l Hx Hl IH]; cbn [List.filter]; [constructor|]. destruct (f x); [by constructor|done]. Qed.
Lemma release_locked_ok l holders t n :
  (0 ≤ n)%Z → Forall locked_ok l → Forall locked_ok (release_locked_coin_records l holders t n).
Proof.
  intros Hn Hl. unfold release_locked_coin_records.
  pose proof (release_pass_ok (λ r, bool_decide (locked_token_type r = t) && bool_decide (holder_object_id r ∈ holders))
    n l Hn Hl) as P1.
  pose proof (release_pass_spec t (λ r, bool_decide (locked_token_type r = t)
    && bool_decide (holder_object_id r ∈ holders)) n l ltac:(done)) as S1.
  destruct (release_pass _ n l) as [l1 rem1].
  destruct S1 as (_ & S1 & _); [intros r [H _]%andb_true_iff; by apply bool_decide_eq_true in H|done|
    by apply locked_ok_not_negative|].
  destruct (Z.eqb_spec rem1 0) as [->|Hne]; [by apply Forall_List_filter|].
  pose proof (release_pass_ok (λ r, bool_decide (locked_token_type r = t)) rem1 l1) as P2.
  destruct (release_pass (λ r, bool_decide (locked_token_type r = t)) rem1 l1) as [l2 rem2].
  apply Forall_List_filter, P2; [lia|done].
Qed.
End Locked.

Section Reconciliation.
Context {B3 : Blake3} {HX : Hex} {SC : StateCodecs} {TT : TypeTags}.
Context (holders : list (bytes * CreatedObject)) (issued_before visible_before : gmap bytes Z) (s : StateManager).
Hypothesis holders_ok : Forall holder_ok holders.

(** How much more of the token is issued but not visible than before. *)
Definition locked_delta (t : bytes) : result Z :=
  let? issued_after := issued_supply_for_token t s in
  let? visible_after := visible_supply_snapshot t s in
  Ok ((issued_after - default 0 (issued_before !! t)) - (visible_after - default 0 (visible_before !! t)))%Z.

(** The records after one token: its sum follows the delta, down to zero. *)
Definition token_reconciled (t : bytes) (l l' : list ObjectLockedCoinRecord) : Prop :=
  ∃ d, locked_delta t = Ok d
    ∧ ((Z.abs d ≤ u64_max)%Z → holders ≠ [] → locked_sum t l' = Z.max 0 (locked_sum t l + d)).

Lemma reconcile_token_spec l t l' :
  is_str t → Forall locked_ok l → reconcile_token holders issued_before visible_before s l t = Ok l' →
  Forall locked_ok l' ∧ token_reconciled t l l' ∧ ∀ u, u ≠ t → locked_sum u l' = locked_sum u l.
Proof.
  intros Ht Hl E. pose proof (locked_ok_not_negative l Hl) as Hn.
  unfold reconcile_token in E. unfold token_reconciled, locked_delta.
  apply result_bind_ok in E as (ia & Ei & E). apply result_bind_ok in E as (va & Ev & E).
  rewrite Ei. cbn [result_bind]. rewrite Ev. cbn [result_bind].
  set (d := (_ - _ - (_ - _))%Z) in *.
  pose proof (locked_sum_not_negative t l Hn) as Hp.
  destruct (Z.ltb_spec 0 d) as [Hd|Hd]; [|destruct (Z.ltb_spec d 0) as [Hd'|Hd']].
  - destruct holders as [|h hs]; [injection E as <-; split_and!; [done|exists d; done|done]|].
    apply Forall_cons in holders_ok as [Hh _].
    assert (Hm : is_u64 (d mod 2 ^ 64)) by (unfold is_u64, u64_max; pose proof (Z.mod_pos_bound d (2 ^ 64)); lia).
    unfold add_locked_coin_record in E. destruct (Z.eqb_spec (d mod 2 ^ 64) 0) as [H0|H0].
    + injection E as <-. split_and!; [done| |done]. exists d. split; [done|]. intros Hb.
      rewrite Z.mod_small in H0 by (unfold u64_max in Hb; lia). lia.
    + destruct (put_locked_sum _ _ _ _ _ E ltac:(apply Hm) Hn) as [_ Hs].
      split_and!; [by eapply put_locked_ok| |intros u Hu; rewrite Hs, decide_False by done; lia].
      exists d. split; [done|]. intros Hb _. rewrite Hs, decide_True by done.
      rewrite Z.mod_small by (unfold u64_max in Hb; lia). lia.
  - injection E as <-. assert (Hm : (0 ≤ (- d) mod 2 ^ 64)%Z) by (apply Z.mod_pos_bound; lia).
    destruct (release_locked_sum l (list_to_set (map fst holders)) t _ Hn Hm) as [_ Hs].
    split_and!; [by apply release_locked_ok| |intros u Hu; by rewrite Hs, decide_False].
    exists d. split; [done|]. intros Hb _. rewrite Hs, decide_True by done.
    rewrite Z.mod_small by (unfold u64_max in Hb; lia). lia.
  - injection E as <-. split_and!; [done| |done]. exists d. split; [done|]. intros _ _. lia.
Qed.

Lemma reconcile_tokens_spec ts l l' :
  NoDup ts → Forall is_str ts → Forall locked_ok l →
  try_fold (reconcile_token holders issued_before visible_before s) ts l = Ok l' →
  Forall locked_ok l' ∧ (∀ t, t ∈ ts → token_reconciled t l l') ∧ ∀ u, u ∉ ts → locked_sum u l' = locked_sum u l.
Proof.
  revert l. induction ts as [|t ts IH]; intros l Hd Hts Hl E; cbn [try_fold] in E.
  - injection E as <-. split_and!; [done| |done]. intros t Ht. by apply elem_of_nil in Ht.
  - apply NoDup_cons in Hd as [Ht Hd]. apply Forall_cons in Hts as [Hst Hts].
    apply result_bind_ok in E as (l1 & E1 & E2).
    destruct (reconcile_token_spec _ _ _ Hst Hl E1) as (Hl1 & Hr & Ho).
    destruct (IH _ Hd Hts Hl1 E2) as (H1 & H2 & H3). split_and!; [done| |].
    + intros u [->|Hu]%elem_of_cons.
      * destruct Hr as (d & Ed & Hr). exists d. split; [done|]. intros Hb Hne. by rewrite H3, Hr.
      * destruct (H2 u Hu) as (d & Ed & Hr'). exists d. split; [done|]. intros Hb Hne.
        rewrite Hr', Ho by (done || by intros ->). done.
    + intros u [Hu Hus]%not_elem_of_cons. rewrite H3, Ho by done. done.
Qed.
End Reconciliation.

Section Theorems.
Context {B3 : Blake3} {HX : Hex} {SC : StateCodecs} {TT : TypeTags}.

Definition locked_holders (cs : ChangeSet) : list (bytes * CreatedObject) :=
  List.filter (λ '(_, o), is_object_locked_coin_holder_type (type_ o)) (created_objects cs).
Definition kept_records (cs : ChangeSet) (records : list ObjectLockedCoinRecord) : list ObjectLockedCoinRecord :=
  List.filter (λ r, negb (bool_decide (holder_object_id r ∈ deleted_objects cs))) records.

(** the records of coins locked in objects follow the supply.  If a change
    set writes an object that can hold coins, the amount recorded as locked of
    each tracked token moves by what was issued less what became visible in
    wallets, never below zero, and the saved records are well formed; records of
    deleted holders are dropped first. *)
Theorem locked_records_follow_supply (cs : ChangeSet) (issued_before visible_before : gmap bytes Z)
    (s s' : StateManager) (records : list ObjectLockedCoinRecord) :
  load_object_locked_coin_records s = Ok records → Forall locked_ok records →
  Forall holder_ok (locked_holders cs) → locked_holders cs ≠ [] →
  (∀ t, t ∈ dom issued_before ∪ dom visible_before → is_str t) →
  reconcile_object_locked_coin_records cs issued_before visible_before s = (s', Ok tt) →
  ∃ records', load_object_locked_coin_records s' = Ok records' ∧ Forall locked_ok records'
    ∧ ∀ t, t ∈ dom issued_before ∪ dom visible_before →
      ∃ d, locked_delta issued_before visible_before s t = Ok d
        ∧ ((Z.abs d ≤ u64_max)%Z →
           locked_sum t records' = Z.max 0 (locked_sum t (kept_records cs records) + d)).
Proof.
  intros El Hr Hh Hne Hts E. unfold reconcile_object_locked_coin_records in E. fold (locked_holders cs) in E.
  destruct (list_empty (locked_holders cs)) eqn:Ee; [by destruct (locked_holders cs)|]. cbn [andb] in E.
  rewrite (st_bind_ok _ _ s s records) in E by (unfold ask; by rewrite El).
  rewrite (st_bind_ok _ _ s s s) in E by done. cbv zeta in E.
  apply st_bind_inv in E as (s1 & records' & E1 & E). injection E1 as <- E1. fold (kept_records cs records) in E1.
  destruct (reconcile_tokens_spec (locked_holders cs) issued_before visible_before s Hh _ _ _
    (sort_dedup_NoDup _) ltac:(apply Forall_forall; intros t Ht; apply Hts; rewrite elem_of_sort_dedup in Ht;
      by apply elem_of_elements) (Forall_List_filter _ _ _ Hr) E1) as (H1 & H2 & _).
  exists records'. split_and!; [|done|].
  - case_decide as Ed; injection E as <-; [by rewrite Ed|].
    unfold load_object_locked_coin_records, load_internal. rewrite view_put, decide_True by done.
    unfold decode. by rewrite (dec_enc locked_codec records' (locked_storable _ H1)).
  - intros t Ht. destruct (H2 t) as (d & Ed & Hd); [rewrite elem_of_sort_dedup; by apply elem_of_elements|].
    exists d. split; [done|]. intros Hb. by apply Hd.
Qed.
End Theorems.

(** ** Concrete runs *)

Module Runs.
Import ToyHash RealHex ToyCodecs ChangeSetTheorems.Runs StateTheorems.Runs.

Definition alice_id : bytes := MoveAddress.to_hex_literal alice.
Definition bob_id : bytes := MoveAddress.to_hex_literal bob.

Lemma index_ok_single x : index_ok [x].
Proof. split; [repeat constructor|apply NoDup_singleton]. Qed.

Lemma index_lists_are_sets_witness :
  index_becomes OWNER_INDEX_KEY (λ x, x = bob_id ∨ x ∈ [alice_id]) ready (add_to_index_list OWNER_INDEX_KEY bob_id ready)
  ∧ index_becomes OWNER_INDEX_KEY (λ x, x ≠ bob_id ∧ x ∈ [alice_id]) ready
      (remove_from_index_list OWNER_INDEX_KEY bob_id ready)
  ∧ index_becomes OWNER_INDEX_KEY (λ x, x ∈ [alice_id] ∨ x ∈ [bob_id]) ready
      (add_many_to_index_list OWNER_INDEX_KEY [bob_id] ready).
Proof.
  apply (index_lists_are_sets OWNER_INDEX_KEY bob_id [bob_id] [alice_id] ready).
  - vm_compute. reflexivity.
  - apply index_ok_single.
  - intros x. cbn [app]. rewrite !elem_of_cons, elem_of_nil. intros [-> |[-> |[-> |[]]]]; vm_compute; reflexivity.
Defined.

Definition coin_tag : StructTag :=
  {| tag_module := COIN_MODULE; tag_name := COIN_STRUCT; type_params := [TStruct GAS_COIN] |}.
Definition coin_data : bytes := replicate 32 9%Z ++ u64_to_le 8 500.

Lemma coin_bytes_roundtrip_witness :
  match write_balance_to_object_bytes coin_data coin_tag 123456 with
  | Some data' =>
      extract_balance_from_object_bytes data' coin_tag = Some 123456%Z ∧ length data' = length coin_data
      ∧ (is_coin coin_tag = true → take UID_SIZE data' = take UID_SIZE coin_data)
      ∧ is_Some (extract_balance_from_object_bytes coin_data coin_tag)
  | None => extract_balance_from_object_bytes coin_data coin_tag = None
  end.
Proof. apply (coin_bytes_roundtrip coin_data coin_tag 123456). by split; vm_compute. Defined.

(** A vault is written after 30 Mist left the wallets. *)
Definition vault_id : bytes := str "0xfa".
Definition vault : CreatedObject :=
  {| created_owner := alice; owner_kind := Shared; uid := None; created_id := None; type_ := str "vault";
     data := []; created_version := 1 |}.
Definition lock : ChangeSet := set_created_objects [(vault_id, vault)] changeset_new.
Definition visible_then : gmap bytes Z := {[ GAS_COIN := 130%Z ]}.
Definition issued_then : gmap bytes Z := {[ GAS_COIN := 100%Z ]}.
Definition locked_state : StateManager := (reconcile_object_locked_coin_records lock issued_then visible_then ready).1.

Lemma locked_records_follow_supply_witness :
  ∃ records', load_object_locked_coin_records locked_state = Ok records' ∧ Forall locked_ok records'
    ∧ ∀ t, t ∈ dom issued_then ∪ dom visible_then →
      ∃ d, locked_delta issued_then visible_then ready t = Ok d
        ∧ ((Z.abs d ≤ u64_max)%Z → locked_sum t records' = Z.max 0 (locked_sum t (kept_records lock []) + d)).
Proof.
  apply (locked_records_follow_supply lock issued_then visible_then ready locked_state []).
  - vm_compute. reflexivity.
  - constructor.
  - change (locked_holders lock) with [(vault_id, vault)]. repeat constructor; try (vm_compute; reflexivity).
    all: apply (bool_decide_eq_true_1 _); vm_compute; reflexivity.
  - vm_compute. discriminate.
  - intros t Ht. replace t with GAS_COIN; [apply GAS_COIN_valid|].
    unfold issued_then, visible_then in Ht. rewrite !dom_singleton_L in Ht. set_solver.
  - unfold locked_state. rewrite (surjective_pairing (reconcile_object_locked_coin_records _ _ _ ready)) at 1.
    f_equal; vm_compute; reflexivity.
Defined.
End Runs.

(** ** Behaviours worth knowing

    Concrete runs where the code departs from what its comments announce. *)

Module Findings.
Import ToyHash RealHex ToyCodecs ChangeSetTheorems.Runs StateTheorems.Runs StateRecords.Runs.

(** Alice's vault is an owned object; a change set rewrites it as a shared object
    with the same owner field. *)
Definition vault_at (k : ObjectOwnerKind) : StoredObject :=
  {| stored_id := vault_id; stored_owner := alice; stored_owner_kind := k; type_name := str "vault";
     stored_data := []; stored_version := 1 |}.
Definition owning : StateManager :=
  {| store := list_to_map [
       (object_key vault_id, enc object_codec (vault_at (AddressOwner alice_id)));
       (owned_objects_key alice, enc ids_codec [vault_id])];
     overlay := ∅; total_supply := 100; global_token_supplies := ∅; access_versions := ∅; access_epoch := 0 |}.
Definition shared : StateManager := (apply_changeset_without_supply_validation true lock owning).1.

(** The owned-objects index still names the object, so it stays in the canonical
    snapshot, while the changes for the incremental tree delete its leaf. *)
Theorem sharing_splits_roots :
  (apply_changeset_without_supply_validation true lock owning).2 = Ok tt
  ∧ (∃ E v, try_canonical_state_snapshot shared = Ok E ∧ E !! object_key vault_id = Some v)
  ∧ (∃ U D, smt_changes_from_overlay shared = Ok (U, D) ∧ object_key vault_id ∈ D ∧ object_key vault_id ∉ map fst U).
Proof.
  split; [vm_compute; reflexivity|]. split.
  - exists (match try_canonical_state_snapshot shared with Ok E => E | Err _ => ∅ end).
    exists (enc object_codec {| stored_id := vault_id; stored_owner := alice; stored_owner_kind := Shared;
      type_name := str "vault"; stored_data := []; stored_version := 2 |}).
    split; vm_compute; reflexivity.
  - exists (match smt_changes_from_overlay shared with Ok (U, _) => U | Err _ => [] end).
    exists (match smt_changes_from_overlay shared with Ok (_, D) => D | Err _ => [] end).
    split; [vm_compute; reflexivity|].
    split; [apply (bool_decide_eq_true_1 _)|apply (bool_decide_eq_false_1 _)]; vm_compute; reflexivity.
Qed.

(** The batched burn writes the total supply before it finds that the visible
    supply does not cover the burn: the error leaves the new total behind. *)
Definition thin : StateManager :=
  {| store := ∅; overlay := ∅; total_supply := 100; global_token_supplies := {[ GAS_COIN := 10%Z ]};
     access_versions := ∅; access_epoch := 0 |}.
Theorem failed_burn_moves_supply :
  (burn_total_supply (-50) thin).2 = Err "Native visible supply underflow in owned batch"
  ∧ total_supply (burn_total_supply (-50) thin).1 = 50%Z.
Proof. split; vm_compute; reflexivity. Qed.
End Findings.
