(* ===== verification/StateLedger.v ===== *)
(** * The ledger effect of a change set

    A change set that moves native balances between owners, without touching coin
    objects, changes every owner's ledger balance by exactly its delta, from the
    balance the debit is taken from: the ledger, or the value of the owner's coin
    objects where only these cover the debit ([start_balance]). *)

From stdpp Require Import base list gmap strings sorting.
From Stdlib Require Import ZArith Lia.
From S2P Require Import Prelude Order Hashing Text Address GasCoin Transaction ChangeSet ChangeSetTheorems StateManager StateSupply StateApply StateRoot StateRootTheorems StateFrame StateTheorems StateRecords.

(** ** Writes outside the account records *)

Definition account_key (k : bytes) : bool := starts_with (str "account:") k.

Lemma not_account a k : account_key k = false → k ≠ owner_state_key a.
Proof. intros H ->. unfold account_key, owner_state_key in H. by rewrite starts_with_app in H. Qed.
Lemma prefix_not_account p r y p' : p = y :: p' → y ≠ 97%Z → account_key (p ++ r) = false.
Proof. intros -> Hy. by eapply starts_with_clash; [reflexivity..|]. Qed.

(** The record of an owner, and the visible supplies. *)
Definition record_of (a : bytes) (s : StateManager) : option bytes := view s (owner_state_key a).
Definition ledger_obs (a : bytes) (s : StateManager) : option bytes * gmap bytes Z :=
  (record_of a s, global_token_supplies s).

Section Aside.
Context {B3 : Blake3} {HX : Hex} {SC : StateCodecs} {TT : TypeTags} (a : bytes).
Local Abbreviation aside := (fixes (ledger_obs a)).

Lemma aside_put k v : account_key k = false → aside (st_modify (put_overlay k v)).
Proof.
  intros Hk s. unfold ledger_obs, record_of. cbn [st_modify fst]. rewrite view_put, decide_False; [done|].
  by apply not_account.
Qed.
Lemma aside_save {T} (c : Codec T) k v : account_key k = false → aside (save_internal c k v).
Proof. apply aside_put. Qed.
Lemma aside_ask {A} (f : StateManager → result A) : aside (ask f).
Proof. by intros s. Qed.
Hint Resolve aside_put aside_save aside_ask : frames.

Lemma aside_add_index k v : account_key k = false → aside (add_to_index_list k v).
Proof. intros Hk. unfold add_to_index_list, save_index_list. frame. Qed.
Lemma aside_remove_index k v : account_key k = false → aside (remove_from_index_list k v).
Proof. intros Hk. unfold remove_from_index_list, save_index_list. frame. Qed.
Lemma aside_add_many k l : account_key k = false → aside (add_many_to_index_list k l).
Proof. intros Hk. unfold add_many_to_index_list, save_index_list. frame. Qed.
Lemma aside_supplies : aside save_supplies.
Proof. unfold save_supplies. frame. Qed.
Lemma aside_native n : aside (save_native_total_supply n).
Proof. unfold save_native_total_supply. frame. by intros s. Qed.
Hint Resolve aside_add_index aside_add_many aside_supplies aside_native : frames.
Lemma aside_treasury e : aside (apply_treasury e).
Proof.
  destruct e as [[w t] cap]. unfold apply_treasury.
  assert (account_key (supply_key t) = false) by (by eapply prefix_not_account; [reflexivity|]).
  assert (account_key (treasury_key t) = false) by (by eapply prefix_not_account; [reflexivity|]). frame.
Qed.
Lemma aside_nft e : aside (apply_nft_cap e).
Proof. destruct e as [[w t] cap]. apply aside_save. by eapply prefix_not_account; [reflexivity|]. Qed.
Lemma aside_mint_event e : aside (index_mint_event e).
Proof. unfold index_mint_event, metadata_key. frame. Qed.
Lemma aside_added_field e : aside (apply_added_field e).
Proof. destruct e as [[i n] v]. apply aside_save. by eapply prefix_not_account; [reflexivity|]. Qed.
Lemma aside_removed_field e : aside (apply_removed_field e).
Proof. apply aside_put. by eapply prefix_not_account; [reflexivity|]. Qed.
Lemma aside_locked cs i v : aside (reconcile_object_locked_coin_records cs i v).
Proof. unfold reconcile_object_locked_coin_records, save_object_locked_coin_records. frame. Qed.
Lemma aside_advance p c : aside (advance_access_versions p c).
Proof.
  unfold advance_access_versions. apply fixes_bind; [|intros _; apply fixes_for_each; intros k].
  - intros s. unfold bump_epoch. by repeat case_match.
  - intros s. unfold bump_version. case_match; [|done]. destruct p; [|done].
    etransitivity; [apply aside_save; by eapply prefix_not_account; [reflexivity|]|done].
Qed.
End Aside.
#[export] Hint Resolve aside_add_many aside_supplies aside_native aside_treasury aside_nft : frames.
#[export] Hint Resolve aside_mint_event aside_added_field aside_removed_field aside_locked aside_advance : frames.

(** ** The visible supplies *)

Section Visible.
Context {B3 : Blake3} {HX : Hex} {SC : StateCodecs} {TT : TypeTags}.

Definition visible (m : gmap bytes Z) (t : bytes) : Z := default 0%Z (m !! t).

Lemma adjust_token_spec old new m t m' :
  adjust_token old new m t = Ok m' →
  ∀ u, visible m' u = (visible m u + if decide (u = t) then balance_in new t - balance_in old t else 0)%Z.
Proof.
  unfold adjust_token. intros E u. destruct (Z.eqb_spec (balance_in old t) (balance_in new t)) as [Eq|Ne].
  { injection E as <-. case_decide; lia. }
  apply result_bind_ok in E as (n & En & E). fold (visible m t) in En.
  assert (Hn : n = (visible m t + balance_in new t - balance_in old t)%Z).
  { destruct (_ <=? _)%Z; apply require_ok in En; unfold checked_add, checked_sub in En;
      destruct (_ <=? _)%Z; simplify_eq; lia. }
  injection E as <-. unfold visible in *. case_decide as Hu.
  - subst u. destruct (Z.eqb_spec n 0); [rewrite lookup_delete_eq|rewrite lookup_insert_eq]; cbn; lia.
  - destruct (n =? 0)%Z; [rewrite lookup_delete_ne by done|rewrite lookup_insert_ne by done]; lia.
Qed.

(** The loop of [adjust_global_supplies_for_account_delta]. *)
Definition adjust_step (old new : gmap bytes BalanceRecord) (t : bytes) : sm unit := λ s,
  match adjust_token old new (global_token_supplies s) t with
  | Ok supplies => (set_supplies supplies s, Ok tt)
  | Err e => (s, Err e)
  end.
Lemma adjust_loop_spec old new ts s s' :
  NoDup ts → for_each ts (adjust_step old new) s = (s', Ok tt) →
  (∀ u, visible (global_token_supplies s') u
        = (visible (global_token_supplies s) u + if decide (u ∈ ts) then balance_in new u - balance_in old u else 0)%Z)
  ∧ ∀ k, view s' k = view s k.
Proof.
  revert s. induction ts as [|t ts IH]; intros s Hd E; cbn [for_each] in E.
  - injection E as <-. split; [|done]. intros u. rewrite decide_False by apply not_elem_of_nil. lia.
  - apply NoDup_cons in Hd as [Ht Hd]. apply st_bind_inv in E as (s1 & [] & E1 & E2).
    unfold adjust_step in E1. destruct (adjust_token _ _ _ t) as [m|] eqn:Em; [|done]. injection E1 as <-.
    destruct (IH _ Hd E2) as [H1 H2]. split; [|intros k; by rewrite H2].
    intros u. rewrite H1. cbn [global_token_supplies set_supplies]. rewrite (adjust_token_spec _ _ _ _ _ Em u).
    destruct (decide (u = t)) as [->|Hu].
    + rewrite (decide_False (P := t ∈ ts)), (decide_True (P := t ∈ t :: ts)) by (done || by left). lia.
    + destruct (decide (u ∈ ts)); [rewrite decide_True by (by right)|rewrite decide_False by set_solver]; lia.
Qed.

Lemma balance_in_none b t : t ∉ dom b → balance_in b t = 0%Z.
Proof. intros H%not_elem_of_dom. unfold balance_in. by rewrite H. Qed.

(** Recording an owner moves the visible supply of every token by the change of
    the owner's balance. *)
Lemma capture_spec o old s s' b :
  capture_supply_changed o old s = (s', Ok b) →
  (∀ t, visible (global_token_supplies s') t
        = (visible (global_token_supplies s) t + get_token_balance o t - balance_in old t)%Z)
  ∧ ∀ k, view s' k = view s k.
Proof.
  unfold capture_supply_changed, adjust_global_supplies_for_account_delta. cbv zeta.
  intros (s1 & [] & E1 & E2)%st_bind_inv. injection E2 as <- _.
  destruct (adjust_loop_spec old (token_balances o) _ s s1 (sort_dedup_NoDup _) E1) as [H1 H2]. split; [|done].
  intros t. rewrite H1. unfold get_token_balance. case_decide as Ht; [lia|].
  rewrite elem_of_sort_dedup, elem_of_elements, elem_of_union in Ht.
  rewrite !balance_in_none by tauto. lia.
Qed.
End Visible.

(** ** One owner *)

Section Owner.
Context {B3 : Blake3} {HX : Hex} {SC : StateCodecs} {TT : TypeTags}.

Lemma set_value_balance t n o u :
  get_token_balance (set_token_balance_value t n o) u = if decide (u = t) then n else get_token_balance o u.
Proof.
  unfold set_token_balance_value, get_token_balance, balance_in. destruct (Z.eqb_spec n 0) as [->|Hn]; cbn.
  - destruct (decide (u = t)) as [->|Hu]; [by rewrite lookup_delete_eq|by rewrite lookup_delete_ne].
  - destruct (decide (u = t)) as [->|Hu]; [by rewrite lookup_insert_eq|by rewrite lookup_insert_ne].
Qed.
Lemma set_value_fields t n o :
  address (set_token_balance_value t n o) = address o ∧ modules (set_token_balance_value t n o) = modules o
  ∧ owner_nonce (set_token_balance_value t n o) = owner_nonce o.
Proof. unfold set_token_balance_value. by destruct (n =? 0)%Z. Qed.
Lemma set_value_ok t n o : is_str t → is_u64 n → owner_ok o → owner_ok (set_token_balance_value t n o).
Proof.
  intros Ht Hn [H1 H2 H3 H4]. destruct (set_value_fields t n o) as (Ea & Em & En).
  split; rewrite ?Ea, ?Em, ?En; [done..|]. unfold set_token_balance_value.
  destruct (n =? 0)%Z; cbn; [by apply map_Forall_delete|by apply map_Forall_insert_2].
Qed.
Lemma native_balance_u64 o : owner_ok o → is_u64 (native_balance o).
Proof.
  intros [_ _ _ H]. unfold native_balance, get_token_balance, balance_in.
  destruct (token_balances o !! GAS_COIN) as [b|] eqn:E; [by apply (H GAS_COIN b)|]. unfold is_u64, u64_max. lia.
Qed.

(** The owner record after its delta. *)
Definition moved (delta : Z) (o o1 : OwnerState) : Prop :=
  owner_ok o1 ∧ address o1 = address o
  ∧ ∀ t, get_token_balance o1 t = (get_token_balance o t + if decide (t = GAS_COIN) then delta else 0)%Z.

Lemma moved_set delta o :
  owner_ok o → is_u64 (native_balance o + delta) →
  moved delta o (set_token_balance_value GAS_COIN (native_balance o + delta) o).
Proof.
  intros Ho Hu. split_and!; [by apply set_value_ok; [apply GAS_COIN_valid|..]|apply set_value_fields|].
  intros t. rewrite set_value_balance. case_decide as Et; [subst t; done|lia].
Qed.
(** The balance a delta is applied to: that of the ledger, unless the ledger
    does not cover the debit and the coin objects hold more. *)
Definition effective_balance (ledger object delta : Z) : Z :=
  if ((0 <=? delta) || (- delta <=? ledger))%Z then ledger else Z.max ledger object.
Definition object_in (before : option (Z * Z)) : Z :=
  match before with Some (_, object) => object | None => 0%Z end.
(** The change of the ledger that goes with it. *)
Definition shift (ledger object delta : Z) : Z :=
  (effective_balance ledger object delta + delta - ledger)%Z.

Lemma moved_balance_spec o delta before o1 :
  owner_ok o → (object_in before ≤ u64_max)%Z → moved_balance o delta before = Ok o1 →
  moved (shift (native_balance o) (object_in before) delta) o o1.
Proof.
  intros Ho Hob E. pose proof (native_balance_u64 o Ho) as Hu.
  unfold moved_balance in E. unfold shift, effective_balance.
  destruct (Z.ltb_spec 0 delta); [|destruct (Z.ltb_spec delta 0)].
  - unfold credited_balance in E. apply result_bind_ok in E as (n & En%require_ok & E).
    apply result_bind_ok in E as (next & Ex%require_ok & E). injection E as <-.
    unfold to_u64 in En. unfold checked_add in Ex.
    destruct (_ && _); [|done]. injection En as <-. destruct (Z.leb_spec (native_balance o + delta) u64_max); [|done].
    injection Ex as <-. rewrite (proj2 (Z.leb_le 0 delta)) by lia. cbn [orb].
    replace (native_balance o + delta - native_balance o)%Z with delta by lia.
    apply moved_set; [done|]. unfold is_u64 in *. lia.
  - unfold debited_balance in E. apply result_bind_ok in E as (n & En%require_ok & E). cbv zeta in E.
    apply result_bind_ok in E as (next & Ex%require_ok & E). injection E as <-.
    unfold to_u64 in En. unfold checked_sub in Ex. destruct (_ && _); [|done]. injection En as <-.
    fold (object_in before) in Ex. set (eff := if (- delta <=? native_balance o)%Z then _ else _) in *.
    rewrite (proj2 (Z.leb_gt 0 delta)) by lia. cbn [orb]. fold eff.
    destruct (Z.leb_spec (- delta) eff); [|done]. injection Ex as <-.
    replace (eff - - delta)%Z with (native_balance o + (eff + delta - native_balance o))%Z by lia.
    apply moved_set; [done|]. unfold is_u64 in *. unfold eff in *. case_match; lia.
  - injection E as <-. rewrite (proj2 (Z.leb_le 0 delta)) by lia. cbn [orb].
    split_and!; [done|done|]. intros t. case_decide; lia.
Qed.
Lemma add_modules_spec l delta o o1 :
  (∀ m, m ∈ l → is_str m) → moved delta o o1 → moved delta o (foldr owner_add_module o1 l).
Proof.
  intros Hl (H1 & H2 & H3). induction l as [|m l IH]; cbn [foldr]; [done|].
  destruct IH as ([A B C D] & H5 & H6); [intros x Hx; apply Hl; by right|].
  split_and!; [|done|done]. split; cbn; [done|done| |done].
  intros x. rewrite elem_of_union, elem_of_singleton. intros [Hx| ->]; [by apply C|apply Hl; by left].
Qed.

(** What the record of an owner says. *)
Definition owner_at (a : bytes) (s : StateManager) (o : OwnerState) : Prop :=
  load_owner_state_or_default a s = Ok o ∧ address o = a ∧ owner_ok o.

Lemma owner_at_ledger a s o : owner_at a s o → native_ledger a s = Ok (native_balance o).
Proof.
  intros (H & _ & _). unfold load_owner_state_or_default in H. unfold native_ledger.
  apply result_bind_ok in H as (r & -> & H). injection H as <-. cbn [result_bind]. by destruct r.
Qed.
Lemma load_owner_cong a s1 s2 : record_of a s1 = record_of a s2 → load_owner_state a s1 = load_owner_state a s2.
Proof. unfold record_of, load_owner_state, load_internal. by intros ->. Qed.
Lemma ledger_cong a s1 s2 : record_of a s1 = record_of a s2 → native_ledger a s1 = native_ledger a s2.
Proof. intros H%load_owner_cong. unfold native_ledger. by rewrite H. Qed.
Lemma owner_at_cong a s1 s2 o : record_of a s1 = record_of a s2 → owner_at a s1 o → owner_at a s2 o.
Proof.
  intros H%load_owner_cong (H1 & H2). split; [|done].
  unfold load_owner_state_or_default in *. by rewrite <- H.
Qed.

Lemma empty_owner_native o : owner_is_empty o = true → native_balance o = 0%Z.
Proof.
  unfold owner_is_empty. rewrite andb_true_iff, !bool_decide_eq_true. intros [_ H].
  unfold native_balance, get_token_balance, balance_in. by rewrite H.
Qed.

(** Writing the record of an owner: the branch on emptiness of the loop body. *)
Definition write_owner (o : OwnerState) : ap unit :=
  if owner_is_empty o then
    on_manager (st_modify (put_overlay (owner_state_key (address o)) None)) ≫= λ _,
    on_manager (remove_from_index_list OWNER_INDEX_KEY (MoveAddress.to_hex_literal (address o)))
  else
    on_manager (save_owner_record o) ≫= λ _,
    on_work (upd_owner_index_additions (λ l, l ++ [MoveAddress.to_hex_literal (address o)])).

Lemma on_manager_inv {A} (m : sm A) x x' r :
  on_manager m x = (x', r) → m (manager x) = (manager x', r) ∧ work x' = work x.
Proof. unfold on_manager. destruct (m (manager x)) as [s1 r1]. intros E. by injection E as <- <-. Qed.

Lemma write_owner_spec o x x' :
  owner_ok o → write_owner o x = (x', Ok tt) →
  native_ledger (address o) (manager x') = Ok (native_balance o)
  ∧ (∀ a, a ≠ address o → record_of a (manager x') = record_of a (manager x))
  ∧ global_token_supplies (manager x') = global_token_supplies (manager x)
  ∧ owners_to_recompute (work x') = owners_to_recompute (work x).
Proof.
  intros Ho E. unfold write_owner in E. destruct (owner_is_empty o) eqn:Ee.
  - apply st_bind_inv in E as (x1 & [] & [E1 W1]%on_manager_inv & [E2 W2]%on_manager_inv).
    injection E1 as E1.
    pose proof (λ a, aside_remove_index a OWNER_INDEX_KEY (MoveAddress.to_hex_literal (address o)) eq_refl (manager x1)) as H.
    rewrite E2 in H. cbn [fst] in H. unfold ledger_obs in H.
    assert (Hr : ∀ a, record_of a (manager x') = if decide (a = address o) then None else record_of a (manager x)).
    { intros a. injection (H a) as -> _. unfold record_of. rewrite <- E1, view_put.
      destruct (decide (a = address o)) as [->|Hne]; [by rewrite decide_True|].
      rewrite decide_False; [done|]. intros Ek. apply Hne. symmetry. by apply app_inv_head in Ek. }
    split_and!.
    + unfold native_ledger, load_owner_state, load_internal. pose proof (Hr (address o)) as Hv. unfold record_of in Hv.
      rewrite Hv, decide_True by done. cbn [result_bind]. by rewrite empty_owner_native.
    + intros a Ha. by rewrite Hr, decide_False.
    + injection (H []) as _ ->. by rewrite <- E1.
    + by rewrite W2, W1.
  - apply st_bind_inv in E as (x1 & [] & [E1 W1]%on_manager_inv & E2). injection E1 as E1. injection E2 as <-.
    cbn [manager work]. split_and!.
    + unfold native_ledger, load_owner_state, load_internal. rewrite <- E1, view_put, decide_True by done.
      unfold decode. rewrite (dec_enc owner_codec o (owner_storable _ Ho)). done.
    + intros a Ha. unfold record_of. rewrite <- E1, view_put, decide_False; [done|].
      intros Ek. apply Ha. symmetry. by apply app_inv_head in Ek.
    + by rewrite <- E1.
    + cbn. by rewrite W1.
Qed.

(** The effect of one owner delta. *)
Lemma owner_delta_step (before : gmap bytes (Z * Z)) b d o x x' :
  owner_at b (manager x) o → (∀ m, m ∈ modules_added d → is_str m) → (object_in (before !! b) ≤ u64_max)%Z →
  apply_owner_delta before (b, d) x = (x', Ok tt) →
  let moves := shift (native_balance o) (object_in (before !! b)) (balance_delta d) in
  native_ledger b (manager x') = Ok (native_balance o + moves)%Z
  ∧ (∀ a, a ≠ b → record_of a (manager x') = record_of a (manager x))
  ∧ (∀ t, visible (global_token_supplies (manager x')) t
          = (visible (global_token_supplies (manager x)) t + if decide (t = GAS_COIN) then moves else 0)%Z)
  ∧ owners_to_recompute (work x') = owners_to_recompute (work x).
Proof.
  intros (El & Ea & Ho) Hm Hc E moves. unfold apply_owner_delta in E.
  rewrite (st_bind_ok _ _ x x o) in E by (unfold read_manager; by rewrite El).
  apply st_bind_inv in E as (x1 & o1 & E1 & E). injection E1 as <- E1.
  apply (moved_balance_spec _ _ _ _ Ho Hc) in E1. fold moves in E1.
  apply (add_modules_spec (elements (modules_added d))) in E1; [|intros m Hx; apply Hm; by apply elem_of_elements].
  set (o2 := foldr owner_add_module o1 _) in *. destruct E1 as (Ho2 & Ha2 & Hb2).
  apply st_bind_inv in E as (x2 & [] & E2 & E). injection E2 as <-.
  apply st_bind_inv in E as (x3 & [] & E3 & E). fold (write_owner o2) in E3.
  destruct (write_owner_spec o2 _ _ Ho2 E3) as (W1 & W2 & W3 & W4). cbn [manager work] in W2, W3, W4.
  apply st_bind_inv in E as (x4 & ch & [E4 Wk]%on_manager_inv & E). injection E as <-. cbn [manager work].
  apply capture_spec in E4 as [C1 C2]. rewrite Ea in Ha2.
  assert (Hrec : ∀ a, record_of a (manager x4) = record_of a (manager x3)) by (intros a; apply C2).
  split_and!.
  - rewrite (ledger_cong b _ _ (Hrec b)). rewrite Ha2 in W1. rewrite W1. f_equal.
    unfold native_balance. rewrite Hb2, decide_True by done. done.
  - intros a Hne. rewrite Hrec, W2 by congruence. done.
  - intros t. rewrite C1, W3, Hb2. unfold get_token_balance. lia.
  - cbn. by rewrite Wk, W4.
Qed.
End Owner.

(** ** The whole change set *)

Section Ledger.
Context {B3 : Blake3} {HX : Hex} {SC : StateCodecs} {TT : TypeTags}.

(** Every debited or credited owner has a well-formed record. *)
Definition record_ready (s : StateManager) (e : bytes * OwnerDelta) : Prop :=
  (∀ m, m ∈ modules_added e.2 → is_str m) ∧ ∃ o, owner_at e.1 s o.

Lemma record_ready_cong s1 s2 e : record_of e.1 s1 = record_of e.1 s2 → record_ready s1 e → record_ready s2 e.
Proof. intros H [H1 (o & H2)]. split; [done|]. exists o. by eapply owner_at_cong. Qed.

(** What an entry of the change set moves. *)
Definition entry_shift (before : gmap bytes (Z * Z)) (s : StateManager) (e : bytes * OwnerDelta) : Z :=
  match native_ledger e.1 s with
  | Ok ledger => shift ledger (object_in (before !! e.1)) (balance_delta e.2)
  | Err _ => 0%Z
  end.

Lemma entry_shift_cong before s1 s2 e :
  record_of e.1 s1 = record_of e.1 s2 → entry_shift before s1 e = entry_shift before s2 e.
Proof. intros H%ledger_cong. unfold entry_shift. by rewrite H. Qed.

Definition sum_of (f : bytes * OwnerDelta → Z) (a : bytes) (l : list (bytes * OwnerDelta)) : Z :=
  zsum (map (λ e, if decide (e.1 = a) then f e else 0)%Z l).

Lemma owner_loop_spec (before : gmap bytes (Z * Z)) s l x x' :
  (∀ e, e ∈ l → record_of e.1 (manager x) = record_of e.1 s) →
  NoDup (map fst l) → Forall (record_ready s) l → (∀ e, e ∈ l → object_in (before !! e.1) ≤ u64_max)%Z →
  for_each l (apply_owner_delta before) x = (x', Ok tt) →
  (∀ a n, native_ledger a (manager x) = Ok n →
     native_ledger a (manager x') = Ok (n + sum_of (entry_shift before s) a l)%Z)
  ∧ (∀ t, visible (global_token_supplies (manager x')) t
          = (visible (global_token_supplies (manager x)) t
             + if decide (t = GAS_COIN) then zsum (map (entry_shift before s) l) else 0)%Z)
  ∧ owners_to_recompute (work x') = owners_to_recompute (work x).
Proof.
  revert x. induction l as [|[b d] l IH]; intros x Hsame Hd Hr Hob E; cbn [for_each] in E.
  - injection E as <-. split_and!; [|intros t; cbn; case_decide; lia|done].
    intros a n Hn. rewrite Hn. f_equal. cbn. lia.
  - apply NoDup_cons in Hd as [Hb Hd]. apply Forall_cons in Hr as [[Hm (o & Ho)] Hr]. cbn [fst snd] in *.
    apply st_bind_inv in E as (x1 & [] & E1 & E2).
    pose proof (Hsame (b, d) ltac:(by left)) as Hrec. cbn [fst] in Hrec.
    assert (Hox : owner_at b (manager x) o) by (by eapply owner_at_cong).
    destruct (owner_delta_step _ _ _ _ _ _ Hox Hm (Hob (b, d) ltac:(by left)) E1) as (S1 & S2 & S3 & S4).
    assert (Hsh : shift (native_balance o) (object_in (before !! b)) (balance_delta d) = entry_shift before s (b, d)).
    { unfold entry_shift. cbn [fst snd]. by rewrite (owner_at_ledger _ _ _ Ho). }
    rewrite Hsh in S1, S3.
    destruct (IH x1) as (L1 & L2 & L3); [|done|done|intros e He; apply Hob; by right|done|].
    { intros e He. rewrite S2; [apply Hsame; by right|]. intros Eb. apply Hb. rewrite <- Eb.
      apply list_elem_of_fmap. eauto. }
    split_and!; [| |by rewrite L3].
    + intros a n Hn. unfold sum_of. cbn [map]. rewrite zsum_cons. cbn [fst snd]. fold (sum_of (entry_shift before s) a l).
      destruct (decide (b = a)) as [->|Hne].
      * rewrite (owner_at_ledger _ _ _ Hox) in Hn. injection Hn as <-. rewrite (L1 _ _ S1). f_equal. lia.
      * rewrite (L1 a n); [f_equal; lia|]. rewrite (ledger_cong a _ _ (S2 a ltac:(congruence))). done.
    + intros t. rewrite L2, S3. cbn [map]. rewrite zsum_cons. case_decide; lia.
Qed.

(** A sum over the entries of one owner is its entry. *)
Lemma sum_of_entry f cs a :
  sum_of f a (btree_iter (owner_deltas cs))
  = match owner_deltas cs !! a with Some d => f (a, d) | None => 0%Z end.
Proof.
  unfold sum_of. pose proof (btree_iter_NoDup (owner_deltas cs)) as Hd.
  pose proof (λ d, elem_of_btree (owner_deltas cs) a d) as Hin.
  assert (Hz : ∀ l : list (bytes * OwnerDelta), a ∉ map fst l →
    zsum (map (λ e, if decide (e.1 = a) then f e else 0)%Z l) = 0%Z).
  { induction l as [|e l IH]; intros Hn; [done|]. cbn [map] in *. apply not_elem_of_cons in Hn as [H1 H2].
    rewrite zsum_cons. cbn beta. rewrite decide_False by congruence. by rewrite IH. }
  destruct (owner_deltas cs !! a) as [d|] eqn:E.
  - apply elem_of_btree in E. clear Hin. induction (btree_iter (owner_deltas cs)) as [|[b d'] l IH]; [by apply elem_of_nil in E|].
    cbn [map fst] in *. apply NoDup_cons in Hd as [Hb Hd]. rewrite zsum_cons. cbn [fst snd].
    apply elem_of_cons in E as [[= <- <-]|E]; [rewrite decide_True, Hz by done; lia|].
    rewrite decide_False, IH by (try done; intros ->; apply Hb, list_elem_of_fmap; by exists (a, d)). lia.
  - apply Hz. intros ([b d] & -> & Hb)%list_elem_of_fmap. apply Hin in Hb. discriminate Hb.
Qed.

(** ** Where debits start *)

(** The balance of an owner that a change set is applied to, from the ledger and,
    when the ledger does not cover the debit, from the coin objects. *)
Definition start_balance (cs : ChangeSet) (s : StateManager) (a : bytes) : result Z :=
  let? ledger := native_ledger a s in
  if ((0 <=? delta_in cs a) || (- delta_in cs a <=? ledger))%Z then Ok ledger else
  let? balances := compute_owned_token_balances a None s in
  Ok (Z.max ledger (default 0%Z (balances !! GAS_COIN))).

(** What starting from the coin objects adds to the ledger. *)
Definition recognised (cs : ChangeSet) (s : StateManager) (a : bytes) : Z :=
  match start_balance cs s a, native_ledger a s with Ok n, Ok ledger => (n - ledger)%Z | _, _ => 0%Z end.

Lemma owned_loop_bound ids seen agg s m :
  map_Forall (λ _ n, (n ≤ u64_max)%Z) agg → owned_balances_loop ids seen agg s = Ok m →
  map_Forall (λ _ n, (n ≤ u64_max)%Z) m.
Proof.
  revert seen agg. induction ids as [|i ids IH]; intros seen agg Ha E; cbn [owned_balances_loop] in E.
  { by injection E as <-. }
  case_bool_decide; [by eapply IH|]. apply result_bind_ok in E as ([obj|] & _ & E); [|by eapply IH].
  destruct (balance_token_amount _ _) as [[t n]|]; [|by eapply IH].
  apply result_bind_ok in E as (agg' & Eg & E). eapply IH; [|exact E].
  unfold add_entry in Eg. apply result_bind_ok in Eg as (v & Ev%require_ok & Eg). injection Eg as <-.
  apply map_Forall_insert_2; [|done]. unfold checked_add in Ev. case_match eqn:Hle; [|done].
  injection Ev as <-. by apply Z.leb_le.
Qed.

Lemma owned_balance_bound a s balances :
  compute_owned_token_balances a None s = Ok balances → (default 0 (balances !! GAS_COIN) ≤ u64_max)%Z.
Proof.
  unfold compute_owned_token_balances. intros (ids & _ & E)%result_bind_ok.
  apply result_bind_ok in E as (m & E & Em). injection Em as <-.
  apply owned_loop_bound in E; [|apply map_Forall_empty].
  destruct (m !! GAS_COIN) as [n|] eqn:En; cbn; [by apply (E GAS_COIN)|]. unfold u64_max. lia.
Qed.

(** The snapshot taken before the writes holds the balances debits start from. *)
Lemma snapshot_start cs s a ledger object :
  snapshot_balance cs s a = Ok (ledger, object) →
  (object ≤ u64_max)%Z ∧ native_ledger a s = Ok ledger
  ∧ start_balance cs s a = Ok (effective_balance ledger object (delta_in cs a)).
Proof.
  unfold snapshot_balance, start_balance, effective_balance. intros (l & El & E)%result_bind_ok.
  apply result_bind_ok in E as (db & Edb & E). apply result_bind_ok in E as (ob & Eob & E).
  injection E as -> ->. rewrite El. cbn [result_bind]. split_and!; [|done|].
  - destruct (_ && _)%Z; [injection Eob as <-; unfold u64_max; lia|].
    apply result_bind_ok in Eob as (bs & Ebs & Eob). injection Eob as <-. by eapply owned_balance_bound.
  - destruct (Z.leb_spec 0 (delta_in cs a)) as [H0|H0]; [done|]. cbn [orb].
    destruct (Z.leb_spec (- delta_in cs a) ledger) as [Hle|Hgt]; [done|].
    assert (Hdb : ((0 <? db) && (db <=? ledger))%Z = false).
    { rewrite (proj2 (Z.ltb_lt _ _) H0) in Edb.
      apply require_ok in Edb. unfold to_u64 in Edb.
      match type of Edb with context [if ?c then _ else _] => destruct c; [|done] end. injection Edb as <-.
      apply andb_false_iff. right. by apply Z.leb_gt. }
    rewrite Hdb in Eob. apply result_bind_ok in Eob as (bs & -> & Eob). injection Eob as <-. done.
Qed.

Lemma prepared_before_lookup cs s p a :
  prepare cs s = Ok p → is_Some (owner_deltas cs !! a) →
  ∃ b, prepared_before p !! a = Some b ∧ snapshot_balance cs s a = Ok b.
Proof.
  unfold prepare. intros E Ha. apply result_bind_ok in E as (delta & _ & E).
  apply result_bind_ok in E as (next & _ & E). apply result_bind_ok in E as (gas & _ & E).
  apply result_bind_ok in E as (before & Eb & E). apply result_bind_ok in E as ([] & _ & E).
  apply result_bind_ok in E as (r & _ & E). apply result_bind_ok in E as ([i v] & _ & E).
  injection E as <-. cbn [prepared_before]. by eapply balances_before_lookup.
Qed.

Lemma prepared_shift cs s p a d :
  prepare cs s = Ok p → owner_deltas cs !! a = Some d →
  (object_in (prepared_before p !! a) ≤ u64_max)%Z
  ∧ entry_shift (prepared_before p) s (a, d) = (delta_in cs a + recognised cs s a)%Z
  ∧ ∀ n ledger, native_ledger a s = Ok ledger → start_balance cs s a = Ok n →
      recognised cs s a = (n - ledger)%Z.
Proof.
  intros E Ha. destruct (prepared_before_lookup _ _ _ a E ltac:(eauto)) as ([l ob] & Hb & Hs).
  destruct (snapshot_start _ _ _ _ _ Hs) as (Hob & El & Est). rewrite Hb. cbn [object_in].
  assert (Hd : delta_in cs a = balance_delta d) by (unfold delta_in; by rewrite Ha).
  split_and!; [done| |intros n ledger Hl Hn; unfold recognised; by rewrite Hl, Hn].
  unfold entry_shift, recognised, shift. cbn [fst snd]. rewrite Hb, El, Est, Hd. cbn [object_in]. lia.
Qed.

(** The change set moves balances and may carry treasuries, caps, events and
    dynamic fields, but no coin objects, balance hints or raw writes. *)
Definition ledger_only (cs : ChangeSet) : Prop :=
  created_objects cs = [] ∧ deleted_objects cs = [] ∧ token_balance_sets cs = []
  ∧ cs_gas_object_refs cs = [] ∧ move_writes cs = ∅.

Lemma aside_manager {A} a (m : sm A) : fixes (ledger_obs a) m → fixes (λ x, ledger_obs a (manager x)) (on_manager m).
Proof. intros H x. unfold on_manager. specialize (H (manager x)). by destruct (m (manager x)). Qed.

(** What a phase leaves alone: ledgers, visible supplies and pending recomputations. *)
Definition calm {A} (m : ap A) : Prop :=
  (∀ a, fixes (λ x, ledger_obs a (manager x)) m) ∧ fixes (λ x, owners_to_recompute (work x)) m.
Lemma calm_ret {A} (r : A) : calm (mret r : ap A).
Proof. by split. Qed.
Lemma calm_read_work {A} (f : Work → A) : calm (read_work f).
Proof. by split. Qed.
Lemma calm_bind {A B} (m : ap A) (k : A → ap B) : calm m → (∀ a, calm (k a)) → calm (m ≫= k).
Proof. intros [H1 H2] Hk. split; [intros a|]; apply fixes_bind; intros; auto; by apply Hk. Qed.
Lemma calm_manager {A} (m : sm A) : (∀ a, fixes (ledger_obs a) m) → calm (on_manager m).
Proof.
  intros H. split; [intros a; by apply aside_manager|]. intros x. unfold on_manager. by destruct (m (manager x)).
Qed.

Lemma calm_each {A} (l : list A) (body : A → ap unit) : (∀ e, calm (body e)) → calm (for_each l body).
Proof.
  intros H. induction l as [|e l IH]; cbn [for_each]; [apply calm_ret|]. apply calm_bind; [apply H|by intros _].
Qed.
Lemma aside_add_owned a w ids : fixes (ledger_obs a) (add_many_owned_object_index w ids).
Proof. apply aside_add_many. by eapply prefix_not_account; [reflexivity|]. Qed.

Lemma calm_records cs : token_balance_sets cs = [] → calm (write_records cs).
Proof.
  intros Hb. unfold write_records. rewrite Hb.
  apply calm_bind; [apply calm_manager; intros a; frame|intros _].
  apply calm_bind; [apply calm_manager; intros a; frame|intros _]. apply calm_ret.
Qed.
Lemma calm_objects cs p :
  created_objects cs = [] → deleted_objects cs = [] → cs_gas_object_refs cs = [] → calm (write_objects cs p).
Proof.
  intros Hc Hd Hg. unfold write_objects. rewrite Hc, Hd, Hg. cbn [for_each].
  apply calm_bind; [apply calm_ret|intros _].
  apply calm_bind; [apply calm_manager; intros a; frame|intros _].
  apply calm_bind; [apply calm_manager; intros a; frame|intros _].
  apply calm_bind; [apply calm_ret|intros _]. apply calm_ret.
Qed.
Lemma calm_indexes : calm write_indexes.
Proof.
  unfold write_indexes. apply calm_bind; [apply calm_read_work|intros owned].
  apply calm_bind; [apply calm_manager; intros a; apply fixes_for_each; intros [w ids]; apply aside_add_owned|intros _].
  apply calm_bind; [apply calm_read_work|intros objects].
  apply calm_bind; [apply calm_manager; intros a; by apply aside_add_many|intros _].
  apply calm_bind; [apply calm_read_work|intros owners]. apply calm_manager; intros a; by apply aside_add_many.
Qed.
Lemma calm_fields persist cs : move_writes cs = ∅ → calm (write_fields persist cs).
Proof.
  intros Hw. unfold write_fields. rewrite Hw. change (btree_iter (∅ : gmap bytes (option bytes))) with (@nil (bytes * option bytes)).
  cbn [for_each]. do 3 (apply calm_bind; [apply calm_manager; intros a; frame|intros _]).
  apply calm_manager. intros a. frame.
Qed.
(** Without owners to recompute, the balances phase only reconciles and saves. *)
Lemma calm_balances cs p x :
  owners_to_recompute (work x) = ∅ →
  ∀ a, ledger_obs a (manager (write_balances cs p x).1) = ledger_obs a (manager x).
Proof.
  intros Hr a. unfold write_balances.
  rewrite (st_bind_ok _ _ x x ∅) by (unfold read_work; by rewrite Hr).
  rewrite (st_bind_ok _ _ x x tt) by done.
  match goal with |- ledger_obs a (manager (?m x).1) = _ =>
    assert (H : calm m); [|exact (proj1 H a x)] end.
  apply calm_bind; [destruct (prepared_reconcile p); [apply calm_manager; intros b; frame|apply calm_ret]|intros _].
  apply calm_bind; [apply calm_read_work|intros dirty].
  destruct dirty; [apply calm_manager; intros b; frame|apply calm_ret].
Qed.

Lemma rest_keeps_ledger persist cs p x x' :
  ledger_only cs → owners_to_recompute (work x) = ∅ →
  (write_records cs ≫= λ _, write_objects cs p ≫= λ _, write_indexes ≫= λ _,
   write_balances cs p ≫= λ _, write_fields persist cs) x = (x', Ok tt) →
  ∀ a, ledger_obs a (manager x') = ledger_obs a (manager x).
Proof.
  intros (Hc & Hd & Hb & Hg & Hw) Hr E a.
  apply st_bind_inv in E as (x1 & [] & E1 & E). destruct (calm_records cs Hb) as [R1 R2].
  apply st_bind_inv in E as (x2 & [] & E2 & E). destruct (calm_objects cs p Hc Hd Hg) as [O1 O2].
  apply st_bind_inv in E as (x3 & [] & E3 & E). destruct calm_indexes as [I1 I2].
  apply st_bind_inv in E as (x4 & [] & E4 & E5). destruct (calm_fields persist cs Hw) as [F1 _].
  specialize (R1 a x). specialize (R2 x). rewrite E1 in R1, R2. cbn [fst] in R1, R2.
  specialize (O1 a x1). specialize (O2 x1). rewrite E2 in O1, O2. cbn [fst] in O1, O2.
  specialize (I1 a x2). specialize (I2 x2). rewrite E3 in I1, I2. cbn [fst] in I1, I2.
  specialize (F1 a x4). rewrite E5 in F1. cbn [fst] in F1.
  pose proof (calm_balances cs p x3 ltac:(congruence) a) as B1. rewrite E4 in B1. cbn [fst] in B1. congruence.
Qed.

Definition all_recognised (cs : ChangeSet) (s : StateManager) : Z :=
  zsum (map (λ e, recognised cs s e.1) (btree_iter (owner_deltas cs))).

Lemma prepared_shifts cs s p :
  prepare cs s = Ok p →
  (∀ a n ledger, native_ledger a s = Ok ledger → start_balance cs s a = Ok n →
     (ledger + sum_of (entry_shift (prepared_before p) s) a (btree_iter (owner_deltas cs)) = n + delta_in cs a)%Z)
  ∧ zsum (map (entry_shift (prepared_before p) s) (btree_iter (owner_deltas cs)))
    = (supply_delta cs + all_recognised cs s)%Z.
Proof.
  intros E. split.
  - intros a n ledger Hl Hn. rewrite sum_of_entry. destruct (owner_deltas cs !! a) as [d|] eqn:Ha.
    + destruct (prepared_shift _ _ _ _ _ E Ha) as (_ & -> & Hr). rewrite (Hr _ _ Hl Hn). lia.
    + unfold start_balance in Hn. rewrite Hl in Hn. cbn [result_bind] in Hn.
      assert (Hd : delta_in cs a = 0%Z) by (unfold delta_in; by rewrite Ha). rewrite Hd in Hn |- *.
      injection Hn as ->. lia.
  - unfold supply_delta, all_recognised.
    rewrite <- (zsum_perm _ _ (Permutation_map _ (btree_iter_perm (owner_deltas cs)))).
    assert (Hin : ∀ e, e ∈ btree_iter (owner_deltas cs) → owner_deltas cs !! e.1 = Some e.2)
      by (intros [a d] He; by apply elem_of_btree).
    induction (btree_iter (owner_deltas cs)) as [|[a d] l IH]; [done|].
    cbn [map]. rewrite !zsum_cons, IH by (intros e He; apply Hin; by right).
    pose proof (Hin (a, d) ltac:(by left)) as Ha. cbn [fst snd] in Ha |- *.
    destruct (prepared_shift _ _ _ _ _ E Ha) as (_ & -> & _). unfold delta_in. rewrite Ha. lia.
Qed.

Lemma owners_phase_spec cs p s x' :
  prepare cs s = Ok p → Forall (record_ready s) (btree_iter (owner_deltas cs)) →
  write_owners cs p {| manager := s; work := no_work |} = (x', Ok tt) →
  (∀ a n ledger, native_ledger a s = Ok ledger → start_balance cs s a = Ok n →
     native_ledger a (manager x') = Ok (n + delta_in cs a)%Z)
  ∧ (∀ t, visible (global_token_supplies (manager x')) t
          = (visible (global_token_supplies s) t
             + if decide (t = GAS_COIN) then supply_delta cs + all_recognised cs s else 0)%Z)
  ∧ owners_to_recompute (work x') = ∅.
Proof.
  intros Hp Hr E. destruct (prepared_shifts cs s p Hp) as [P1 P2].
  unfold write_owners in E. apply st_bind_inv in E as (x1 & [] & E1 & E).
  destruct (owner_loop_spec (prepared_before p) s (btree_iter (owner_deltas cs)) {| manager := s; work := no_work |} x1)
    as (L1 & L2 & L3); [done|apply btree_iter_NoDup|done| |done|].
  { intros [a d] He%elem_of_btree. by eapply prepared_shift. }
  cbn [manager work] in *.
  match type of E with ?m x1 = _ => assert (H : calm m) end.
  { apply calm_bind; [apply calm_read_work|intros l].
    apply calm_bind; [apply calm_manager; intros a; by apply aside_add_many|intros _].
    destruct (prepared_supply p); [apply calm_manager; intros a; frame|apply calm_ret]. }
  destruct H as [H1 H2]. specialize (H2 x1). rewrite E in H2. cbn [fst] in H2.
  assert (Ho : ∀ a, ledger_obs a (manager x') = ledger_obs a (manager x1)) by (intros a; specialize (H1 a x1); by rewrite E in H1).
  unfold ledger_obs in Ho. split_and!.
  - intros a n ledger Hl Hn. injection (Ho a) as Hrec _. rewrite (ledger_cong a _ _ Hrec), (L1 a ledger Hl).
    by rewrite (P1 a n ledger).
  - intros t. injection (Ho []) as _ ->. by rewrite L2, P2.
  - by rewrite H2, L3.
Qed.

(** A change set that only moves balances does exactly that.  When it is
    applied, the ledger balance of every owner, named in the change set or not,
    is the one it started from plus the owner's delta; the visible supply of the
    native token has moved by the sum of the deltas and what starting from coin
    objects added, and that of every other token not at all. *)
Lemma ledger_changes (persist : bool) (cs : ChangeSet) (s s' : StateManager) :
  ledger_only cs → Forall (record_ready s) (btree_iter (owner_deltas cs)) →
  apply_changeset_without_supply_validation persist cs s = (s', Ok tt) →
  (∀ a n, start_balance cs s a = Ok n → native_ledger a s' = Ok (n + delta_in cs a)%Z)
  ∧ (∀ t, default 0%Z (global_token_supplies s' !! t)
          = (default 0 (global_token_supplies s !! t)
             + if decide (t = GAS_COIN) then supply_delta cs + all_recognised cs s else 0)%Z).
Proof.
  intros Hl Hr E. unfold apply_changeset_without_supply_validation in E.
  destruct (prepare cs s) as [p|] eqn:Hp; [|done].
  destruct (write_all persist cs p _) as [x' r] eqn:Ew. injection E as <- ->.
  apply st_bind_inv in Ew as (x1 & [] & E1 & E2).
  destruct (owners_phase_spec cs p s x1 Hp Hr E1) as (O1 & O2 & O3).
  pose proof (rest_keeps_ledger persist cs p x1 x' Hl O3 E2) as Hk. unfold ledger_obs in Hk. split.
  - intros a n Hn. injection (Hk a) as Hrec _. rewrite (ledger_cong a _ _ Hrec).
    pose proof Hn as Hn'. unfold start_balance in Hn'. apply result_bind_ok in Hn' as (ledger & Hled & _).
    by apply (O1 a n ledger).
  - intros t. injection (Hk []) as _ ->. apply O2.
Qed.

(** Building writes owner deltas, gas credits and nothing else that an
    application acts on. *)
Definition plain (cs : ChangeSet) : Prop := ledger_only cs ∧ treasuries cs = [].
Lemma plain_delta a f cs : plain cs → plain (update_owner_delta a f cs).
Proof. done. Qed.
Lemma run_op_plain o cs : plain cs → plain (run_op o cs).
Proof. by destruct o. Qed.
Lemma build_plain ops : plain (build ops).
Proof.
  induction ops as [|o ops IH] using rev_ind; [by repeat split|]. rewrite build_snoc. by apply run_op_plain.
Qed.

(** C29: operations settle.  A change set built from transfers, mints, burns, gas
    collections and publications, once applied to a state with well-formed records
    of the owners it names, leaves every owner with the balance it started from
    plus the credits less the debits of these operations.  The start is the
    ledger balance, except for an owner whose ledger does not cover its debit:
    there it is the value of the owner's coin objects if that is more
    ([start_balance]).  The total supply moves by what is issued less what is
    burned; the visible native supply by that and by what such owners' ledgers
    were raised to the value of their coin objects ([recognised]). *)
Theorem operations_settle (persist : bool) (ops : list builder_op) (s s' : StateManager) :
  Forall (λ o, 0 ≤ op_amount o ≤ u64_max)%Z ops → (Z.of_nat (length ops) ≤ 2 ^ 62)%Z →
  Forall (record_ready s) (btree_iter (owner_deltas (build ops))) →
  apply_changeset_without_supply_validation persist (build ops) s = (s', Ok tt) →
  (∀ a n, start_balance (build ops) s a = Ok n → native_ledger a s' = Ok (n + zsum (map (net a) ops))%Z)
  ∧ total_supply s' = (total_supply s + zsum (map issued ops))%Z
  ∧ native_cached s' = (native_cached s + zsum (map issued ops) + all_recognised (build ops) s)%Z.
Proof.
  intros Hops Hlen Hr E. destruct (building_is_accounted ops Hops Hlen) as [Hd Hs].
  destruct (build_plain ops) as [Hl Ht].
  destruct (ledger_changes _ _ _ _ Hl Hr E) as [L1 L2]. destruct (unvalidated_applied _ _ _ _ _ E) as [_ [_ Hn]]; [done|].
  split_and!.
  - intros a n Ha. rewrite (L1 a n Ha). rewrite <- Hd. done.
  - rewrite Hn, Hs; [done|]. destruct Hl as (Hc & _). split; rewrite ?Ht, ?Hc; [intros w t c H|intros i o H];
      by apply elem_of_nil in H.
  - unfold native_cached. rewrite (L2 GAS_COIN), decide_True, Hs by done. lia.
Qed.
End Ledger.

(** ** Concrete runs *)

Module Runs.
Import ToyHash RealHex ToyCodecs ChangeSetTheorems.Runs StateTheorems.Runs.

Definition unvalidated : StateManager := (apply_changeset_without_supply_validation true payment ready).1.

Lemma empty_owner_ok a : hash_ok a → owner_ok (owner_new a).
Proof. intros Ha. split; cbn; [done|by split; vm_compute|set_solver|apply map_Forall_empty]. Qed.
Lemma alice_owner_ok : owner_ok alice_owner.
Proof.
  change alice_owner with (set_token_balance_value GAS_COIN 100 (owner_new alice)).
  apply set_value_ok; [apply GAS_COIN_valid|by split; vm_compute|]. apply empty_owner_ok.
  split; [done|]. by apply Forall_replicate.
Qed.

Lemma ready_entry e o :
  modules_added e.2 = ∅ → load_owner_state_or_default e.1 ready = Ok o → address o = e.1 → owner_ok o →
  record_ready ready e.
Proof. intros Hm Hl Ha Ho. split; [rewrite Hm; set_solver|]. by exists o. Qed.

Lemma bob_owner_ok : owner_ok (owner_new bob).
Proof. apply empty_owner_ok. split; [done|]. by apply Forall_replicate. Qed.
Lemma delta_known a d :
  owner_deltas payment !! a = Some d → d = default (delta_new []) (owner_deltas payment !! a).
Proof. intros H. rewrite H. reflexivity. Qed.

Lemma elem_of_keys {V} (l : list (bytes * V)) a d : (a, d) ∈ l → a ∈ map fst l.
Proof. intros H. apply list_elem_of_fmap. by exists (a, d). Qed.

Lemma payment_ready : Forall (record_ready ready) (btree_iter (owner_deltas payment)).
Proof.
  assert (E : map fst (btree_iter (owner_deltas payment)) = [alice; bob]) by (vm_compute; reflexivity).
  apply Forall_forall. intros [a d] Hin.
  assert (Ha : a ∈ [alice; bob]) by (rewrite <- E; exact (elem_of_keys _ _ _ Hin)).
  apply elem_of_btree in Hin. rewrite !elem_of_cons, elem_of_nil in Ha. destruct Ha as [-> |[-> |[]]].
  - apply (ready_entry _ alice_owner); cbn [fst snd].
    + rewrite (delta_known _ _ Hin). vm_compute. reflexivity.
    + vm_compute. reflexivity.
    + reflexivity.
    + exact alice_owner_ok.
  - apply (ready_entry _ (owner_new bob)); cbn [fst snd].
    + rewrite (delta_known _ _ Hin). vm_compute. reflexivity.
    + vm_compute. reflexivity.
    + reflexivity.
    + exact bob_owner_ok.
Qed.

Lemma operations_settle_witness :
  (∀ a n, start_balance payment ready a = Ok n →
     native_ledger a unvalidated = Ok (n + zsum (map (net a) [OpTransfer alice bob 70; OpBurn alice 5]))%Z)
  ∧ total_supply unvalidated = (total_supply ready + zsum (map issued [OpTransfer alice bob 70; OpBurn alice 5]))%Z
  ∧ native_cached unvalidated = (native_cached ready + zsum (map issued [OpTransfer alice bob 70; OpBurn alice 5])
       + all_recognised payment ready)%Z.
Proof.
  apply (operations_settle true [OpTransfer alice bob 70; OpBurn alice 5] ready unvalidated).
  - repeat (constructor; [by split; vm_compute|]). constructor.
  - vm_compute. discriminate.
  - exact payment_ready.
  - unfold unvalidated. fold payment.
    rewrite (surjective_pairing (apply_changeset_without_supply_validation true payment ready)) at 1.
    f_equal; vm_compute; reflexivity.
Defined.

Example paid_balances :
  map (λ a, native_ledger a unvalidated) [alice; bob; dao] = [Ok 25; Ok 70; Ok 0]%Z.
Proof. by vm_compute. Qed.
End Runs.
