(* ===== verification/StateSmt.v ===== *)
(** * The state manager with its incremental tree: [kanari-move-runtime-v1/src/state.rs]

    On RocksDB the manager keeps a sparse Merkle tree of the canonical entries.
    The tree lives in the same database under keys of its own, which
    [logical_entries] skips; here it is the second component of the state. *)

From stdpp Require Import base list gmap strings sorting.
From Stdlib Require Import ZArith Lia.
From S2P Require Import Prelude Order Hashing Text Address Store SmtPath SmtSpec SmtTree SmtOps SmtCorrect SmtBatch Transaction ChangeSet StateManager StateRoot.

Section Smt.
Context {B3 : Blake3} {HX : Hex} {SC : StateCodecs} {TT : TypeTags} `{KV : KVStore DB}.

Record SmtManager := { base : StateManager; tree : SparseMerkleTree DB }.
Local Abbreviation smt_st := (st SmtManager).

Definition on_tree {A} (m : st (SparseMerkleTree DB) A) : smt_st A := λ x,
  let '(t, r) := m (tree x) in ({| base := base x; tree := t |}, r).
Definition ask_base {A} (f : StateManager → result A) : smt_st A := λ x, (x, f (base x)).
Definition on_base (f : StateManager → StateManager) : smt_st unit := λ x,
  ({| base := f (base x); tree := tree x |}, Ok tt).

(** Updates, deletes and tree nodes computed ahead of a commit. *)
Definition PrecomputedSmtChanges : Type := list (bytes * bytes) * list bytes * list (bytes * option bytes).

(** [store.apply_raw_changes] and [overlay.clear] *)
Definition write_raw (updates : list (bytes * bytes)) (deletes : list bytes) (s : StateManager) : StateManager :=
  {| store := apply_raw_changes updates deletes (store s); overlay := overlay s; total_supply := total_supply s;
     global_token_supplies := global_token_supplies s; access_versions := access_versions s;
     access_epoch := access_epoch s |}.
Definition clear_overlay : StateManager → StateManager := set_overlay ∅.

Definition try_compute_state_root_with_smt_changes : smt_st (bytes * PrecomputedSmtChanges) :=
  '(updates, deletes) ← ask_base smt_changes_from_overlay;
  '(root, node_overlay) ← on_tree (root_hash_with_changes_and_overlay updates deletes);
  mret (root, (updates, deletes, node_overlay)).

(** *** Repair *)

Definition ensure_smt_initialized : smt_st unit :=
  root ← on_tree root_hash;
  if negb (bool_decide (root = nth 0 DEFAULT_HASHES [])) then mret tt else
  entries ← ask_base canonical_persisted_entries;
  if bool_decide (entries = ∅) then mret tt else on_tree (SmtOps.insert (btree_iter entries)).

Definition repair_persisted_smt : smt_st bool :=
  entries ← ask_base canonical_persisted_entries;
  let expected := compute_sparse_root (btree_iter entries) in
  root ← on_tree root_hash;
  if bool_decide (root = expected) then mret false else
  on_tree (rebuild (btree_iter entries)) ≫= λ _,
  root ← on_tree root_hash;
  st_lift (ensure (bool_decide (root = expected)) "SMT rebuild produced wrong root") ≫= λ _,
  mret true.

Definition ensure_smt_consistent : smt_st unit :=
  pending ← st_gets (λ x, overlay (base x));
  st_lift (ensure (bool_decide (pending = ∅)) "Cannot verify SMT with a pending overlay") ≫= λ _,
  repair_persisted_smt ≫= λ _, mret tt.

(** *** Commit *)

(** The deltas, derived before the overlay is written. *)
Definition pending_smt_changes (verified_root : option bytes) (precomputed : option PrecomputedSmtChanges) :
    smt_st PrecomputedSmtChanges :=
  match precomputed with
  | Some changes => mret changes
  | None =>
      '(updates, deletes) ← ask_base smt_changes_from_overlay;
      node_overlay ← (match verified_root with
        | Some root =>
            '(computed, node_overlay) ← on_tree (root_hash_with_changes_and_overlay updates deletes);
            st_lift (ensure (bool_decide (computed = root))
              "verified SMT root mismatch while precomputing node overlay") ≫= λ _,
            mret node_overlay
        | None => mret []
        end);
      mret (updates, deletes, node_overlay)
  end.

Definition update_tree (verified_root : option bytes) (changes : PrecomputedSmtChanges) :
    st (SparseMerkleTree DB) unit :=
  let '(updates, deletes, node_overlay) := changes in
  match verified_root with
  | Some root =>
      if list_empty node_overlay then apply_changes_with_root updates deletes root
      else apply_changes_with_precomputed_overlay updates deletes root node_overlay
  | None =>
      if negb (list_empty deletes) then
        SmtOps.delete deletes ≫= λ _,
        if negb (list_empty updates) then SmtOps.insert updates else mret tt
      else if negb (list_empty updates) then SmtOps.insert updates else mret tt
  end.

(** [if let Err(e) = update { self.repair_persisted_smt()?; }] *)
Definition update_or_repair (update : smt_st unit) : smt_st unit := λ x,
  match update x with
  | (x, Ok _) => (x, Ok tt)
  | (x, Err _) => (repair_persisted_smt ≫= λ _, mret tt) x
  end.

(** With a verified root and precomputed nodes the state and the tree share one
    write batch, so a failing stage writes neither; otherwise the state is
    written first and a failing tree is rebuilt from it. *)
Definition smt_commit (raw_updates : list (bytes * bytes)) (raw_deletes : list bytes)
    (verified_root : option bytes) (precomputed : option PrecomputedSmtChanges) : smt_st unit :=
  s ← st_gets base;
  let updates := raw_updates ++ overlay_updates s in
  let deletes := raw_deletes ++ overlay_deletes s in
  changes ← pending_smt_changes verified_root precomputed;
  (if negb (is_none verified_root) && negb (list_empty changes.2) then
     on_tree (update_tree verified_root changes) ≫= λ _, on_base (write_raw updates deletes)
   else
     on_base (write_raw updates deletes) ≫= λ _,
     update_or_repair (on_tree (update_tree verified_root changes))) ≫= λ _,
  on_base clear_overlay.

(** [<[u8; 32]>::try_from] *)
Definition verified_root_of (root : bytes) : result bytes :=
  let? _ := ensure (length root =? 32) "Verified state root must be 32 bytes" in Ok root.

Definition commit_with_raw_changes_verified_root_and_smt_changes (updates : list (bytes * bytes))
    (deletes : list bytes) (verified_root : bytes) (smt_changes : option PrecomputedSmtChanges) : smt_st unit :=
  root ← st_lift (verified_root_of verified_root);
  smt_commit updates deletes (Some root) smt_changes.
Definition commit_with_raw_update_verified_root_and_smt_changes (key value verified_root : bytes)
    (smt_changes : option PrecomputedSmtChanges) : smt_st unit :=
  commit_with_raw_changes_verified_root_and_smt_changes [(key, value)] [] verified_root smt_changes.
Definition commit_with_raw_update_and_verified_root (key value verified_root : bytes) : smt_st unit :=
  commit_with_raw_update_verified_root_and_smt_changes key value verified_root None.
Definition smt_commit_with_raw_update (key value : bytes) : smt_st unit := smt_commit [(key, value)] [] None None.
Definition smt_commit_plain : smt_st unit := smt_commit [] [] None None.
End Smt.
Arguments SmtManager DB : clear implicits.
