(* ===== verification/StateSmtTheorems.v ===== *)
(** * The state manager with its incremental tree: theorems

    The tree follows the state: a commit with the root that was announced for the
    pending changes keeps the tree on the canonical entries of the store, and a
    repair puts a stale tree back on them. *)

From stdpp Require Import base list gmap strings sorting.
From Stdlib Require Import ZArith Lia.
From S2P Require Import Prelude Order Hashing Text Address Store SmtPath SmtSpec SmtTree SmtOps SmtCorrect SmtBatch SmtTheorems Transaction ChangeSet StateManager StateSupply StateRoot StateRootTheorems StateTheorems StateSmt.

(** ** Keys that do not enter the root *)

Section Inert.
Context {B3 : Blake3} {HX : Hex} {SC : StateCodecs} {TT : TypeTags}.
Local Abbreviation entries_t := (gmap bytes bytes).

(** Records of other components in the same database: neither canonical nor an
    index of canonical keys. *)
Definition inert (k : bytes) : Prop :=
  is_canonical_state_root_key k = false ∧ is_indexed_key k = false
  ∧ k ≠ str "module_index" ∧ starts_with (str "owned_objects:") k = false.
#[export] Instance inert_dec k : Decision (inert k).
Proof. unfold inert. apply _. Defined.

Lemma object_not_inert id : ¬ inert (object_key id).
Proof.
  intros (_ & H & _). unfold is_indexed_key in H. by rewrite object_key_prefix, orb_true_r in H.
Qed.
Lemma owned_not_inert w : ¬ inert (owned_objects_key w).
Proof. intros (_ & _ & _ & H). by rewrite owned_prefix in H. Qed.
Lemma module_index_not_inert : ¬ inert (str "module_index").
Proof. by intros (_ & _ & H & _). Qed.

Section Agree.
Context (m1 m2 : entries_t).
Hypothesis agree : ∀ k, ¬ inert k → m2 !! k = m1 !! k.

Lemma present_objects_agree ids : present_objects m2 ids = present_objects m1 ids.
Proof.
  induction ids as [|i ids IH]; [done|]. cbn [present_objects]. rewrite agree by apply object_not_inert. by rewrite IH.
Qed.
Lemma in_index_agree w id : in_index m2 w id ↔ in_index m1 w id.
Proof. unfold in_index. by rewrite agree by apply owned_not_inert. Qed.
Lemma indexed_key_agree k : indexed_key m2 k ↔ indexed_key m1 k.
Proof.
  unfold indexed_key, in_module_index. rewrite agree by apply module_index_not_inert.
  by setoid_rewrite in_index_agree.
Qed.
Lemma canonical_not_inert (m : entries_t) k : canonical m k → ¬ inert k.
Proof. intros Hc (H1 & H2 & _). revert Hc. by apply canonical_other. Qed.

Lemma indexed_keys_total acc e :
  e ∈ btree_iter m2 → (∀ e', e' ∈ btree_iter m1 → ∃ a a', indexed_keys_of m1 a e' = Ok a') →
  ∃ acc', indexed_keys_of m2 acc e = Ok acc'.
Proof.
  intros He H1. destruct e as [k v]. apply elem_of_btree in He. unfold indexed_keys_of.
  destruct (decide (inert k)) as [(_ & _ & Hm & Ho)|Hi].
  { rewrite decide_False, Ho by done. eauto. }
  rewrite agree in He by done. apply elem_of_btree in He. destruct (H1 _ He) as (a & a' & E).
  unfold indexed_keys_of in E. case_decide.
  - apply result_bind_ok in E as (ids & -> & _). cbn [result_bind]. eauto.
  - destruct (starts_with _ k); [|eauto]. apply result_bind_ok in E as (ids & -> & E). cbn [result_bind].
    apply result_bind_ok in E as (keys & Ek & _). unfold indexed_object_keys in *.
    apply result_bind_ok in Ek as (cs & -> & Ek). cbn [result_bind]. rewrite present_objects_agree, Ek.
    cbn [result_bind]. eauto.
Qed.

Lemma retain_agree E :
  retain_canonical_state_root_entries m1 = Ok E → retain_canonical_state_root_entries m2 = Ok E.
Proof.
  intros E1. destruct (try_fold_total (indexed_keys_of m2) (btree_iter m2) ∅) as [keys Ek].
  { intros acc e He. apply indexed_keys_total; [done|]. intros e' He'. unfold retain_canonical_state_root_entries in E1.
    apply result_bind_ok in E1 as (keys & Ek & _). by apply (try_fold_each _ _ _ _ e' Ek). }
  assert (E2 : ∃ E', retain_canonical_state_root_entries m2 = Ok E').
  { unfold retain_canonical_state_root_entries. rewrite Ek. cbn [result_bind]. eauto. }
  destruct E2 as [E' E2]. rewrite E2. f_equal. apply map_eq. intros k. apply option_eq. intros v.
  rewrite (proj1 (retain_spec _ _ E2)), (proj1 (retain_spec _ _ E1)).
  assert (Hc : canonical m2 k ↔ canonical m1 k) by (unfold canonical; by rewrite indexed_key_agree).
  change (m2 !! k = Some v ∧ canonical m2 k ↔ m1 !! k = Some v ∧ canonical m1 k). rewrite Hc.
  split; intros [H1 H2]; (split; [|done]); [rewrite <- agree|rewrite agree]; try done; by apply (canonical_not_inert m1).
Qed.
End Agree.

(** ** What a commit writes *)

Lemma foldl_insert_other (l : list (bytes * bytes)) (m : entries_t) k :
  k ∉ map fst l → foldl (λ (m : entries_t) '(k, v), <[k := v]> m) m l !! k = m !! k.
Proof.
  revert m. induction l as [|[j v] l IH]; intros m Hk; [done|]. cbn [map fst] in Hk.
  apply not_elem_of_cons in Hk as [Hj Hk]. cbn [foldl]. rewrite IH by done. by rewrite lookup_insert_ne.
Qed.

Lemma raw_commit_agrees s raw_updates raw_deletes k :
  Forall inert (map fst raw_updates ++ raw_deletes) → ¬ inert k →
  apply_raw_changes (raw_updates ++ overlay_updates s) (raw_deletes ++ overlay_deletes s) (store s) !! k
  = merged_entries s !! k.
Proof.
  intros [Hu Hd]%Forall_app Hk. rewrite Forall_forall in Hu, Hd. unfold apply_raw_changes.
  rewrite <- committed_store. cbn. unfold apply_raw_changes. rewrite !foldl_delete_lookup, foldl_app.
  rewrite !foldl_insert_lookup by apply overlay_updates_NoDup.
  rewrite foldl_insert_other by (intros H; by apply Hk, Hu).
  assert (Hin : k ∈ raw_deletes ++ overlay_deletes s ↔ k ∈ overlay_deletes s).
  { rewrite elem_of_app. split; [|by right]. intros [H|H]; [by destruct (Hk (Hd _ H))|done]. }
  destruct (decide (k ∈ overlay_deletes s)); [rewrite decide_True by (by apply Hin)|
    rewrite decide_False by (by rewrite Hin)]; [done|].
  by rewrite foldl_insert_lookup by apply overlay_updates_NoDup.
Qed.

Lemma committed_canonical s raw_updates raw_deletes E1 :
  Forall inert (map fst raw_updates ++ raw_deletes) → try_canonical_state_snapshot s = Ok E1 →
  canonical_persisted_entries (clear_overlay (write_raw (raw_updates ++ overlay_updates s)
    (raw_deletes ++ overlay_deletes s) s)) = Ok E1.
Proof.
  intros Hi. apply retain_agree. intros k Hk. cbn. by apply raw_commit_agrees.
Qed.
End Inert.

(** ** The tree follows the state *)

Section Tracks.
Context {B3 : Blake3} {HX : Hex} {SC : StateCodecs} {TT : TypeTags} `{Laws : KVStoreLaws DB}.
Local Abbreviation entries_t := (gmap bytes bytes).

(** The tree holds exactly the canonical entries [E] of the store. *)
Definition tracks (E : entries_t) (x : SmtManager DB) : Prop :=
  good (tree x) ∧ canonical_persisted_entries (base x) = Ok E ∧ smt_bindings (tree x) = digest_map E.

Lemma on_tree_ok {A} (m : st (SparseMerkleTree DB) A) x t a :
  m (tree x) = (t, Ok a) → on_tree m x = ({| base := base x; tree := t |}, Ok a).
Proof. unfold on_tree. by intros ->. Qed.

Lemma tracked_root E x : tracks E x → root_hash (tree x) = (tree x, Ok (compute_sparse_root (btree_iter E))).
Proof.
  intros (Hg & _ & Hb). rewrite root_hash_correct, Hb by done. do 2 f_equal. symmetry. apply compute_sparse_root_spec.
Qed.

(** The tree after its pending changes, whichever way they are applied. *)
Lemma update_tree_verified t U D ov :
  good t → no_siblings (touched U D ∪ dom (smt_bindings t)) →
  let D' := changed U D (smt_bindings t) in
  describes t ov D' → node_cache_ready t = true ∨ ov = [] ∧ U = [] ∧ D = [] →
  ∃ t', update_tree (Some (smt_root D')) (U, D, ov) t = (t', Ok tt) ∧ good t' ∧ smt_bindings t' = D'.
Proof.
  intros Hg Hns D' Hd Hr. unfold update_tree. destruct (list_empty ov) eqn:Eo.
  - destruct (apply_changes_with_root_correct t U D (smt_root D') Hg Hns) as (t' & Hg' & H).
    rewrite decide_True in H by done. destruct H as [H1 H2]. eauto.
  - assert (Hns' : no_siblings (dom (smt_bindings t))) by (eapply no_siblings_mono; [|exact Hns]; set_solver).
    destruct (apply_precomputed_correct t U D ov Hg Hns' Hd Hr) as (t' & H1 & H2 & H3). eauto.
Qed.

Section Step.
Context (x : SmtManager DB) (E0 E1 : entries_t).
Hypothesis store_indexed : indexed_state (store (base x)).
Hypothesis view_indexed : indexed_state (merged_entries (base x)).
Hypothesis tracked : tracks E0 x.
Hypothesis snapshot : try_canonical_state_snapshot (base x) = Ok E1.
Hypothesis keys_separated : separated (state_keys (base x)).

Lemma announced :
  ∃ U D ov t, try_compute_state_root_with_smt_changes x
      = ({| base := base x; tree := t |}, Ok (smt_root (digest_map E1), (U, D, ov)))
    ∧ good t ∧ smt_bindings t = digest_map E0 ∧ changed U D (smt_bindings t) = digest_map E1
    ∧ no_siblings (touched U D ∪ dom (smt_bindings t))
    ∧ describes t ov (digest_map E1) ∧ (node_cache_ready t = true ∨ ov = [] ∧ U = [] ∧ D = []).
Proof.
  destruct tracked as (Hg & H0 & Hb).
  destruct (changes_exact (base x) E0 E1 store_indexed view_indexed H0 snapshot) as (U & D & EUD & HU & HD & Hdis & HUK & HE).
  assert (HE0 : ∀ j v, E0 !! j = Some v → j ∈ state_keys (base x)).
  { intros j v Hj. apply (retained_store (base x) E0 H0) in Hj as [Hj _]. unfold state_keys.
    apply elem_of_union_l, elem_of_dom. eauto. }
  assert (Hns : no_siblings (touched U D ∪ dom (smt_bindings (tree x)))).
  { eapply no_siblings_mono; [|apply (separated_no_siblings _ keys_separated)]. rewrite Hb.
    apply union_subseteq. split; [|by apply digest_map_dom]. unfold touched, digest_set.
    intros h. rewrite !elem_of_list_to_set, !list_elem_of_fmap. intros (k & -> & Hk). exists k.
    split; [done|]. apply elem_of_elements. apply elem_of_app in Hk as [Hk|Hk]; [by apply Hdis|by apply HUK]. }
  pose proof (changed_digest_map (state_keys (base x)) E0 E1 U D keys_separated HU HD Hdis HUK HE0 HE) as Hch.
  destruct (root_hash_with_changes_and_overlay_correct (tree x) U D Hg Hns) as (t & ov & Er & Hg' & Hb' & Hd & Hr).
  exists U, D, ov, t. rewrite Hb, Hch in Er, Hd. rewrite Hb in Hb'. split.
  - unfold try_compute_state_root_with_smt_changes, ask_base.
    rewrite (st_bind_ok _ _ x x (U, D)) by (by rewrite EUD).
    rewrite (st_bind_ok _ _ _ _ _ (on_tree_ok _ _ _ _ Er)). reflexivity.
  - rewrite Hb', Hch. rewrite <- Hb. done.
Qed.

Lemma subtree_length L n p : length (subtree L (S n) p) = 32.
Proof. exact (proj1 (hash_node_ok _ _)). Qed.
Lemma smt_root_length D : length (smt_root D) = 32.
Proof. unfold smt_root. generalize (leaf_of D). intros L. apply (subtree_length L 255). Qed.

(** The announcement and the commit with it, step by step. *)
Lemma commit_announced (raw_updates : list (bytes * bytes)) (raw_deletes : list bytes) :
  Forall inert (map fst raw_updates ++ raw_deletes) →
  ∃ root changes t t',
    let s' := clear_overlay (write_raw (raw_updates ++ overlay_updates (base x))
                (raw_deletes ++ overlay_deletes (base x)) (base x)) in
    try_compute_state_root_with_smt_changes x = ({| base := base x; tree := t |}, Ok (root, changes))
    ∧ root = compute_sparse_root (btree_iter E1)
    ∧ smt_commit raw_updates raw_deletes (Some root) (Some changes) {| base := base x; tree := t |}
      = ({| base := s'; tree := t' |}, Ok tt)
    ∧ tracks E1 {| base := s'; tree := t' |} ∧ length root = 32.
Proof.
  intros Hraw. destruct announced as (U & D & ov & t & Ea & Hg & Hb & Hch & Hns & Hd & Hr).
  destruct (update_tree_verified t U D ov Hg Hns) as (t' & Eu & Hg' & Hb'); [by rewrite Hch|done|].
  rewrite Hch in Eu, Hb'.
  assert (Eroot : smt_root (digest_map E1) = compute_sparse_root (btree_iter E1))
    by (symmetry; apply compute_sparse_root_spec).
  exists (smt_root (digest_map E1)), (U, D, ov), t, t'. cbv zeta.
  set (s' := clear_overlay _).
  split_and!; [exact Ea|exact Eroot| |by split_and!; [done|apply committed_canonical|]|apply smt_root_length].
  unfold smt_commit. rewrite (st_bind_ok _ _ _ {| base := base x; tree := t |} (base x)) by reflexivity.
  rewrite (st_bind_ok _ _ _ {| base := base x; tree := t |} (U, D, ov)) by reflexivity.
  cbn [is_none negb andb snd]. destruct (list_empty ov); cbn [negb].
  - unfold on_base, update_or_repair, on_tree, mbind, st_bind. cbn [base tree]. rewrite Eu. reflexivity.
  - unfold on_base, on_tree, mbind, st_bind. cbn [base tree]. rewrite Eu. reflexivity.
Qed.

(** C9: the tree follows the state.  If the tree holds the canonical entries of
    the store, the objects of the store and of the merged view are in their
    indexes ([indexed_state]) and no two keys meet in the tree ([separated]), then
    a root and changes are announced for the pending overlay, the root is that of
    all canonical entries of the new state, and the commit with this root and
    these changes, together with records that do not enter the root, succeeds and
    leaves an empty overlay, a store whose canonical entries are those announced,
    and the tree on exactly these entries again, with the announced root.  An
    overlay that shares an object outside the index is excluded: there the two
    roots differ ([StateRecords.sharing_splits_roots]). *)
Theorem commit_tracks_state (raw_updates : list (bytes * bytes)) (raw_deletes : list bytes) :
  Forall inert (map fst raw_updates ++ raw_deletes) →
  ∃ root changes x1 x2,
    try_compute_state_root_with_smt_changes x = (x1, Ok (root, changes))
    ∧ root = compute_sparse_root (btree_iter E1)
    ∧ smt_commit raw_updates raw_deletes (Some root) (Some changes) x1 = (x2, Ok tt)
    ∧ tracks E1 x2 ∧ overlay (base x2) = ∅ ∧ root_hash (tree x2) = (tree x2, Ok root).
Proof.
  intros Hraw. destruct (commit_announced raw_updates raw_deletes Hraw) as (root & changes & t & t' & Ea & Hr & Ec & Ht & _).
  eexists root, changes, _, _. split_and!; [exact Ea|exact Hr|exact Ec|exact Ht|reflexivity|].
  rewrite Hr. exact (tracked_root _ _ Ht).
Qed.
End Step.

(** C34: a stale tree is repaired.  Whatever the nodes and data entries of the
    tree are, as long as its root can be read, the repair succeeds, leaves the
    state alone, and the root is then that of the canonical entries of the store;
    if the root was wrong the tree has been rebuilt on exactly these entries. *)
Theorem repair_restores_root (x : SmtManager DB) (E : entries_t) (r : bytes) :
  repairable (tree x) → root_hash (tree x) = (tree x, Ok r) →
  canonical_persisted_entries (base x) = Ok E → separated (dom E) →
  ∃ x' rebuilt, repair_persisted_smt x = (x', Ok rebuilt) ∧ base x' = base x
    ∧ root_hash (tree x') = (tree x', Ok (compute_sparse_root (btree_iter E)))
    ∧ rebuilt = negb (bool_decide (r = compute_sparse_root (btree_iter E)))
    ∧ (rebuilt = true → tracks E x').
Proof.
  intros Hrep Hr HE HK. unfold repair_persisted_smt.
  rewrite (st_bind_ok _ _ x x E) by (unfold ask_base; by rewrite HE). cbv zeta.
  assert (Et : on_tree root_hash x = (x, Ok r)) by (rewrite (on_tree_ok _ _ _ _ Hr); by destruct x).
  rewrite (st_bind_ok _ _ _ _ _ Et). case_bool_decide as Eq; cbn [negb].
  { exists x, false. split; [reflexivity|]. split; [done|]. split; [by rewrite <- Eq|]. by split. }
  destruct (rebuild_correct (tree x) (btree_iter E) Hrep) as (t' & Eb & Hg & Hb).
  { eapply no_siblings_mono; [|apply (separated_no_siblings _ HK)]. unfold digest_set.
    intros h. rewrite !elem_of_list_to_set, !list_elem_of_fmap. intros (k & -> & Hk). exists k. split; [done|].
    apply list_elem_of_fmap in Hk as ([j v] & -> & Hj). apply elem_of_btree in Hj.
    apply elem_of_elements, elem_of_dom. eauto. }
  rewrite (st_bind_ok _ _ _ _ _ (on_tree_ok _ _ _ _ Eb)).
  assert (Ht : tracks E {| base := base x; tree := t' |}) by (by split_and!).
  rewrite (st_bind_ok _ _ _ _ _ (on_tree_ok root_hash {| base := base x; tree := t' |} _ _ (tracked_root _ _ Ht))).
  exists {| base := base x; tree := t' |}, true. rewrite bool_decide_true by reflexivity.
  split; [reflexivity|]. split; [done|]. split; [exact (tracked_root _ _ Ht)|]. by split.
Qed.
End Tracks.

(** ** Concrete runs *)

Module Runs.
Import ToyHash RealHex ToyCodecs MemStore SmtTheorems.Runs StateRootTheorems.Runs.

Definition moving_node : SmtManager MemStore.t := {| base := moving; tree := moving_tree |}.
Definition checkpoint_record : list (bytes * bytes) := [(str "checkpoint:1", [1%Z])].

Lemma moving_tracked : tracks moving_old moving_node.
Proof.
  destruct moving_tree_good as [Hg Hb]. split; [exact Hg|]. split; [|exact Hb].
  vm_compute. reflexivity.
Qed.

Lemma commit_tracks_state_witness :
  ∃ root changes x1 x2,
    try_compute_state_root_with_smt_changes moving_node = (x1, Ok (root, changes))
    ∧ root = compute_sparse_root (btree_iter moving_new)
    ∧ smt_commit checkpoint_record [] (Some root) (Some changes) x1 = (x2, Ok tt)
    ∧ tracks moving_new x2 ∧ overlay (base x2) = ∅ ∧ root_hash (tree x2) = (tree x2, Ok root).
Proof.
  apply (commit_tracks_state moving_node moving_old moving_new).
  - apply indexed_state_sound. vm_compute. reflexivity.
  - apply indexed_state_sound. vm_compute. reflexivity.
  - exact moving_tracked.
  - vm_compute. reflexivity.
  - exact moving_separated.
  - apply (bool_decide_eq_true_1 _). vm_compute. reflexivity.
Defined.

(** A tree that was never filled. *)
Definition stale_node : SmtManager MemStore.t := {| base := moving; tree := empty_tree |}.

Lemma repair_restores_root_witness :
  ∃ x' rebuilt, repair_persisted_smt stale_node = (x', Ok rebuilt) ∧ base x' = moving
    ∧ root_hash (tree x') = (tree x', Ok (compute_sparse_root (btree_iter moving_old)))
    ∧ rebuilt = negb (bool_decide (smt_root ∅ = compute_sparse_root (btree_iter moving_old)))
    ∧ (rebuilt = true → tracks moving_old x').
Proof.
  destruct empty_good as [Hg Hb].
  apply (repair_restores_root stale_node moving_old (smt_root ∅)).
  - destruct Hg as [Hi Hh]. split; [apply (inv_default _ Hi)|]. split; [exact Hh|].
    intros k [v H]. change ((∅ : gmap bytes bytes) !! k = Some v) in H. rewrite lookup_empty in H. discriminate H.
  - rewrite <- Hb. apply root_hash_correct. exact Hg.
  - vm_compute. reflexivity.
  - apply separated_sound. vm_compute. reflexivity.
Defined.
End Runs.
