(* ===== verification/StateStartup.v ===== *)
(** * Start-up of the state manager: [kanari-move-runtime-v1/src/state.rs]

    [try_new] on the in-memory backend: loading the persisted counters, running
    genesis once, migrating, rebuilding the derived indexes and checking the
    supply.  Genesis itself runs the Move VM and is an argument. *)

From stdpp Require Import base list gmap strings sorting.
From Stdlib Require Import ZArith Lia.
From S2P Require Import Prelude Order Hashing Text Address GasCoin Transaction ChangeSet StateManager StateSupply StateRoot.

Section Startup.
Context {B3 : Blake3} {HX : Hex} {SC : StateCodecs} {TT : TypeTags}.
Local Abbreviation entries_t := (gmap bytes bytes).

(** ** Derived indexes *)

Record DerivedIndexes := {
  derived_owners : gset bytes;
  derived_owned : gmap bytes (gset bytes);
  derived_objects : gset bytes
}.
Definition no_indexes : DerivedIndexes := {| derived_owners := ∅; derived_owned := ∅; derived_objects := ∅ |}.

Definition derive_entry (acc : DerivedIndexes) (entry : bytes * bytes) : DerivedIndexes :=
  let '(key, value) := entry in
  if starts_with (str "account:") key then
    match MoveAddress.from_bytes (drop 8 key) with
    | Some owner =>
        {| derived_owners := derived_owners acc ∪ {[MoveAddress.to_hex_literal owner]};
           derived_owned := derived_owned acc; derived_objects := derived_objects acc |}
    | None => acc
    end
  else if starts_with (str "object:") key && utf8_valid (drop 7 key) then
    let object_id := default (drop 7 key) (canonical_object_id (drop 7 key)) in
    let objects := derived_objects acc ∪ {[object_id]} in
    match dec object_codec value with
    | Some stored =>
        match stored_owner_kind stored with
        | AddressOwner _ =>
            let owner := stored_owner stored in
            {| derived_owners := derived_owners acc ∪ {[MoveAddress.to_hex_literal owner]};
               derived_owned := <[owner := default ∅ (derived_owned acc !! owner) ∪ {[object_id]}]> (derived_owned acc);
               derived_objects := objects |}
        | _ => {| derived_owners := derived_owners acc; derived_owned := derived_owned acc; derived_objects := objects |}
        end
    | None => {| derived_owners := derived_owners acc; derived_owned := derived_owned acc; derived_objects := objects |}
    end
  else acc.

Definition collect_derived_indexes (s : StateManager) : DerivedIndexes :=
  foldl derive_entry no_indexes (btree_iter (store s)).

(** A [BTreeSet] as a [Vec]. *)
Definition listed (ids : gset bytes) : list bytes := sort_dedup (elements ids).

(** Save the expected list if the current one differs; report whether it did. *)
Definition repair_list (key : bytes) (expected : list bytes) : sm bool :=
  current ← ask (load_index_list key);
  if decide (current = expected) then mret false
  else save_index_list key expected ≫= λ _, mret true.

Fixpoint repair_owned (owned : gmap bytes (gset bytes)) (owners : list bytes) : sm bool :=
  match owners with
  | [] => mret false
  | owner :: owners =>
      changed ← repair_list (owned_objects_key owner) (listed (default ∅ (owned !! owner)));
      rest ← repair_owned owned owners;
      mret (changed || rest)
  end.

Definition repair_derived_indexes_on_startup : sm bool :=
  expected ← st_gets collect_derived_indexes;
  current_owner_ids ← ask (load_index_list OWNER_INDEX_KEY);
  c1 ← repair_list OWNER_INDEX_KEY (listed (derived_owners expected));
  legacy ← ask (load_index_list LEGACY_ACCOUNT_INDEX_KEY);
  c2 ← (if list_empty legacy then mret false
        else st_modify (put_overlay LEGACY_ACCOUNT_INDEX_KEY None) ≫= λ _, mret true);
  c3 ← repair_list (str "object_index") (listed (derived_objects expected));
  let indexed_owners :=
    sort_dedup (omap MoveAddress.from_hex_literal (current_owner_ids ++ listed (derived_owners expected))) in
  c4 ← repair_owned (derived_owned expected) indexed_owners;
  mret (c1 || c2 || c3 || c4).

(** ** [try_new] *)

Definition load_access_versions (m : entries_t) : result (gmap bytes Z) :=
  let? persisted := store_load versions_codec ACCESS_VERSIONS_KEY m in
  try_fold (λ (acc : gmap bytes Z) '(key, value),
    if starts_with ACCESS_VERSION_PREFIX key then
      let? version := decode u64_codec value in
      Ok (<[drop (length ACCESS_VERSION_PREFIX) key := version]> acc)
    else Ok acc) (btree_iter m) (default ∅ persisted).

(** Canonical chain state besides the total supply itself. *)
Definition legacy_evidence (m : entries_t) : bool :=
  existsb (λ '(key, _),
    negb (bool_decide (key = str "total_supply"))
    && (bool_decide (key = str "module_index") || starts_with (str "module:") key
        || starts_with (str "resource:") key || starts_with (str "account:") key
        || starts_with (str "object:") key || starts_with (str "system:") key)) (btree_iter m).

Record Loaded := {
  supply_record : option Z;
  genesis_marker : bool;
  recovered_supply : Z;
  loaded_supplies : gmap bytes Z;
  loaded_versions : gmap bytes Z
}.
Definition load_persisted (m : entries_t) : result Loaded :=
  let? record := store_load u64_codec (str "total_supply") m in
  let? marker := store_load bool_codec GENESIS_INITIALIZED_KEY m in
  let? supplies := store_load supplies_codec (str "global_token_supplies") m in
  let? versions := load_access_versions m in
  let supplies := default ∅ supplies in
  let? recovered :=
    if (default 0 record =? 0)%Z then
      let? p := load_persisted_supply_from_store GAS_COIN m in
      Ok (match p with Some n => n | None => default 0%Z (supplies !! GAS_COIN) end)
    else Ok (default 0%Z record) in
  Ok {| supply_record := record; genesis_marker := default false marker; recovered_supply := recovered;
        loaded_supplies := supplies; loaded_versions := versions |}.
Definition genesis_already_initialized (l : Loaded) (m : entries_t) : bool :=
  genesis_marker l || (0 <? recovered_supply l)%Z
  || (bool_decide (supply_record l = Some 0%Z) && legacy_evidence m).

Definition initial_state (l : Loaded) (m : entries_t) : StateManager :=
  {| store := m; overlay := ∅; total_supply := recovered_supply l; global_token_supplies := loaded_supplies l;
     access_versions := loaded_versions l; access_epoch := 0 |}.

(** Backfill of the marker and the total supply of older databases. *)
Definition migrate_metadata (initialized : bool) (l : Loaded) : sm unit :=
  p1 ← (if initialized && negb (genesis_marker l)
        then save_internal bool_codec GENESIS_INITIALIZED_KEY true ≫= λ _, mret true else mret false);
  p2 ← (if is_none (supply_record l) && (0 <? recovered_supply l)%Z
        then save_internal u64_codec (str "total_supply") (recovered_supply l) ≫= λ _, mret true else mret false);
  if (p1 || p2 : bool) then commit else mret tt.

(** Under the initialization lock: another constructor may have run genesis on
    the same store. *)
Definition run_genesis (init_genesis : sm unit) : sm unit :=
  marker ← ask (λ s, store_load bool_codec GENESIS_INITIALIZED_KEY (store s));
  if default false marker then
    supply ← ask (λ s, store_load u64_codec (str "total_supply") (store s));
    supplies ← ask (λ s, store_load supplies_codec (str "global_token_supplies") (store s));
    st_modify (λ s, set_supplies (default ∅ supplies) (set_total_supply (default 0%Z supply) s))
  else
    save_internal bool_codec GENESIS_INITIALIZED_KEY true ≫= λ _,
    init_genesis ≫= λ _,
    commit ≫= λ _,
    total ← st_gets total_supply;
    st_lift (ensure (0 <? total)%Z "Genesis initialization completed but total_supply is still 0").

Definition migrate_runtime_state_schema : sm unit :=
  persisted ← ask (load_internal u32_codec RUNTIME_STATE_SCHEMA_KEY);
  let persisted := default 0%Z persisted in
  st_lift (ensure (persisted <=? RUNTIME_STATE_SCHEMA_VERSION)%Z
    "State database schema is newer than runtime schema") ≫= λ _,
  if (persisted <? RUNTIME_STATE_SCHEMA_VERSION)%Z then
    save_internal u32_codec RUNTIME_STATE_SCHEMA_KEY RUNTIME_STATE_SCHEMA_VERSION ≫= λ _, commit
  else mret tt.

(** [if step()? { commit()? }] *)
Definition commit_if (step : sm bool) : sm unit :=
  changed ← step; if (changed : bool) then commit else mret tt.

Definition repair_supply : sm unit :=
  version ← ask (load_internal u32_codec WALLET_SUPPLY_INDEX_VERSION_KEY);
  (if (default 0 version <? WALLET_SUPPLY_INDEX_VERSION)%Z
   then commit_if repair_legacy_native_wallet_overcount else mret tt) ≫= λ _,
  commit_if ensure_wallet_supply_index.

Definition check_supply (fail_fast : bool) : sm unit := λ s,
  match validate_supply_invariants s with
  | Ok _ => (s, Ok tt)
  | Err _ => (s, report_supply_invariant_violation fail_fast)
  end.

Definition start (init_genesis : sm unit) (fail_fast : bool) (l : Loaded) (m : entries_t) : sm unit :=
  let initialized := genesis_already_initialized l m in
  migrate_metadata initialized l ≫= λ _,
  (if initialized then mret tt else run_genesis init_genesis) ≫= λ _,
  migrate_runtime_state_schema ≫= λ _,
  commit_if repair_derived_indexes_on_startup ≫= λ _,
  repair_supply ≫= λ _,
  check_supply fail_fast.

(** The store survives a failed start. *)
Definition try_new (init_genesis : sm unit) (fail_fast : bool) (m : entries_t) : entries_t * result StateManager :=
  match load_persisted m with
  | Err e => (m, Err e)
  | Ok l =>
      match start init_genesis fail_fast l m (initial_state l m) with
      | (s, Ok _) => (store s, Ok s)
      | (s, Err e) => (store s, Err e)
      end
  end.
End Startup.
