(* ===== verification/StateStartupTheorems.v ===== *)
(** * Start-up of the state manager: theorems

    The rebuilt indexes are exactly those the stored records call for, a start
    leaves nothing pending, and genesis runs at most once. *)

From stdpp Require Import base list gmap strings sorting.
From Stdlib Require Import ZArith Lia.
From S2P Require Import Prelude Order Hashing Text Address GasCoin Transaction ChangeSet ChangeSetTheorems StateManager StateSupply StateRoot StateRootTheorems StateApply StateFrame StateTheorems StateRecords StateStartup.

(** ** What the records call for *)

Section Derived.
Context {B3 : Blake3} {HX : Hex} {SC : StateCodecs} {TT : TypeTags}.
Local Abbreviation entries_t := (gmap bytes bytes).

(** An object record and the identifier it is indexed under. *)
Definition object_record (m : entries_t) (id value : bytes) : Prop :=
  ∃ raw, m !! object_key raw = Some value ∧ is_str raw ∧ id = canonical_owned_object_id raw.
Definition owned_record (m : entries_t) (owner id : bytes) : Prop :=
  ∃ value o, object_record m id value ∧ dec object_codec value = Some o
             ∧ is_address_kind (stored_owner_kind o) = true ∧ stored_owner o = owner.
Definition owner_record (m : entries_t) (owner : bytes) : Prop :=
  (length owner = 32 ∧ is_Some (m !! owner_state_key owner)) ∨ ∃ id, owned_record m owner id.

(** The same for one entry. *)
Definition entry_object (e : bytes * bytes) (id : bytes) : Prop :=
  ∃ raw, e.1 = object_key raw ∧ is_str raw ∧ id = canonical_owned_object_id raw.
Definition entry_owned (e : bytes * bytes) (owner id : bytes) : Prop :=
  entry_object e id ∧ ∃ o, dec object_codec e.2 = Some o
    ∧ is_address_kind (stored_owner_kind o) = true ∧ stored_owner o = owner.
Definition entry_owner (e : bytes * bytes) (owner : bytes) : Prop :=
  (length owner = 32 ∧ e.1 = owner_state_key owner) ∨ ∃ id, entry_owned e owner id.

Definition in_owned (d : DerivedIndexes) (owner id : bytes) : Prop := id ∈ default ∅ (derived_owned d !! owner).

Lemma account_entry a v id : ¬ entry_object (owner_state_key a, v) id.
Proof. intros (raw & E & _). discriminate E. Qed.

Lemma derive_account acc a v :
  derive_entry acc (owner_state_key a, v) =
    if decide (length a = 32)
    then {| derived_owners := derived_owners acc ∪ {[MoveAddress.to_hex_literal a]};
            derived_owned := derived_owned acc; derived_objects := derived_objects acc |}
    else acc.
Proof.
  unfold derive_entry. unfold owner_state_key at 1. rewrite starts_with_app.
  change (drop 8 (owner_state_key a)) with a. unfold MoveAddress.from_bytes.
  destruct (Nat.eqb_spec (length a) 32); [by rewrite decide_True|by rewrite decide_False].
Qed.

(** [acc'] adds to [acc] exactly what the entry calls for. *)
Definition derives (acc acc' : DerivedIndexes) (e : bytes * bytes) : Prop :=
  (∀ h, h ∈ derived_owners acc' ↔ h ∈ derived_owners acc ∨ ∃ w, entry_owner e w ∧ h = MoveAddress.to_hex_literal w)
  ∧ (∀ i, i ∈ derived_objects acc' ↔ i ∈ derived_objects acc ∨ entry_object e i)
  ∧ (∀ w i, in_owned acc' w i ↔ in_owned acc w i ∨ entry_owned e w i).

Lemma derive_account_spec acc a v : derives acc (derive_entry acc (owner_state_key a, v)) (owner_state_key a, v).
Proof.
  rewrite derive_account.
  assert (Hno : ∀ w i, ¬ entry_owned (owner_state_key a, v) w i) by (intros w i [H _]; by apply account_entry in H).
  assert (Ho : ∀ w, entry_owner (owner_state_key a, v) w ↔ length a = 32 ∧ w = a).
  { intros w. unfold entry_owner. cbn [fst]. split.
    - intros [[Hl E]|[i H]]; [apply app_inv_head in E as <-; done|by destruct (Hno w i)].
    - intros [Hl ->]. by left. }
  split_and!.
  - intros h. setoid_rewrite Ho. case_decide; cbn [derived_owners]; [|naive_solver].
    rewrite elem_of_union, elem_of_singleton. naive_solver.
  - intros i. case_decide; cbn [derived_objects]; pose proof (account_entry a v i); tauto.
  - intros w i. unfold in_owned. case_decide; cbn [derived_owned]; pose proof (Hno w i); tauto.
Qed.

Lemma derive_other_spec acc key v :
  starts_with (str "account:") key = false → starts_with (str "object:") key && utf8_valid (drop 7 key) = false →
  derives acc (derive_entry acc (key, v)) (key, v).
Proof.
  intros Ea Eo. unfold derive_entry. rewrite Ea, Eo.
  assert (Hob : ∀ i, ¬ entry_object (key, v) i).
  { intros i (raw & E & Hs & _). cbn [fst] in E. subst key. rewrite object_key_prefix, drop_object in Eo.
    unfold is_str in Hs. by rewrite Hs in Eo. }
  assert (Hac : ∀ w, ¬ entry_owner (key, v) w).
  { intros w [[_ E]|[i [H _]]]; [|by apply Hob in H]. cbn [fst] in E. subst key.
    unfold owner_state_key in Ea. by rewrite starts_with_app in Ea. }
  split_and!; [naive_solver| |].
  - intros i. pose proof (Hob i). tauto.
  - intros w i. assert (¬ entry_owned (key, v) w i) by (intros [H _]; by apply Hob in H). tauto.
Qed.

(** The entry of an object that no address owns. *)
Lemma derive_unowned acc raw v :
  is_str raw → (∀ o, dec object_codec v = Some o → is_address_kind (stored_owner_kind o) = false) →
  derives acc {| derived_owners := derived_owners acc; derived_owned := derived_owned acc;
                 derived_objects := derived_objects acc ∪ {[canonical_owned_object_id raw]} |} (object_key raw, v).
Proof.
  intros Hs Hu.
  assert (Hno : ∀ w i, ¬ entry_owned (object_key raw, v) w i).
  { intros w i (_ & o & Ed & Hk & _). cbn [snd] in Ed. by rewrite (Hu o Ed) in Hk. }
  split_and!; cbn [derived_owners derived_objects derived_owned].
  - intros h. split; [by left|]. intros [H|(w & [[_ E]|[i H]] & _)]; [done|discriminate E|by destruct (Hno w i)].
  - intros i. rewrite elem_of_union, elem_of_singleton. unfold entry_object. cbn [fst]. split.
    + intros [H|H]; [by left|right]. by exists raw.
    + intros [H|(r & E & _ & ->)]; [by left|right]. apply object_key_inj in E as ->. done.
  - intros w i. pose proof (Hno w i). unfold in_owned. cbn [derived_owned]. tauto.
Qed.

Lemma derive_owned_object acc raw v o :
  is_str raw → dec object_codec v = Some o → is_address_kind (stored_owner_kind o) = true →
  derives acc {| derived_owners := derived_owners acc ∪ {[MoveAddress.to_hex_literal (stored_owner o)]};
                 derived_owned := <[stored_owner o := default ∅ (derived_owned acc !! stored_owner o)
                                      ∪ {[canonical_owned_object_id raw]}]> (derived_owned acc);
                 derived_objects := derived_objects acc ∪ {[canonical_owned_object_id raw]} |} (object_key raw, v).
Proof.
  intros Hs Ed Hk.
  assert (Hob : ∀ i, entry_object (object_key raw, v) i ↔ i = canonical_owned_object_id raw).
  { intros i. unfold entry_object. cbn [fst]. split; [|intros ->; by exists raw].
    intros (r & E & _ & ->). apply object_key_inj in E as ->. done. }
  assert (Hown : ∀ w i, entry_owned (object_key raw, v) w i ↔ i = canonical_owned_object_id raw ∧ w = stored_owner o).
  { intros w i. unfold entry_owned. rewrite Hob. cbn [snd]. rewrite Ed. naive_solver. }
  split_and!; cbn [derived_owners derived_objects derived_owned].
  - intros h. rewrite elem_of_union, elem_of_singleton. unfold entry_owner. setoid_rewrite Hown. cbn [fst]. split.
    + intros [H| ->]; [by left|right]. exists (stored_owner o). split; [right; eauto|done].
    + intros [H|(w & [[_ E]|(i & _ & ->)] & ->)]; [by left|discriminate E|by right].
  - intros i. rewrite elem_of_union, elem_of_singleton, Hob. done.
  - intros w i. rewrite Hown. unfold in_owned. cbn [derived_owned]. destruct (decide (w = stored_owner o)) as [->|Hne].
    + rewrite lookup_insert_eq. cbn [default from_option id]. rewrite elem_of_union, elem_of_singleton. tauto.
    + rewrite lookup_insert_ne by done. tauto.
Qed.

Lemma derive_entry_spec acc e : derives acc (derive_entry acc e) e.
Proof.
  destruct e as [key v]. destruct (starts_with (str "account:") key) eqn:Ea.
  { apply starts_with_true in Ea as [a Ea]. change (key = owner_state_key a) in Ea. subst key. apply derive_account_spec. }
  destruct (starts_with (str "object:") key && utf8_valid (drop 7 key)) eqn:Eo; [|by apply derive_other_spec].
  apply andb_true_iff in Eo as [Eo Eu]. apply starts_with_true in Eo as [raw Er]. change (key = object_key raw) in Er.
  subst key. rewrite drop_object in Eu. unfold derive_entry. rewrite Ea, object_key_prefix, drop_object, Eu.
  cbn [andb]. fold (canonical_owned_object_id raw).
  destruct (dec object_codec v) as [o|] eqn:Ed; [|apply derive_unowned; [done|congruence]].
  destruct (stored_owner_kind o) eqn:Ek.
  - apply derive_owned_object; [done|done|by rewrite Ek].
  - apply derive_unowned; [done|]. intros o' E. simplify_eq. by rewrite Ek.
  - apply derive_unowned; [done|]. intros o' E. simplify_eq. by rewrite Ek.
Qed.

Lemma derive_all_spec l acc :
  let d := foldl derive_entry acc l in
  (∀ h, h ∈ derived_owners d ↔ h ∈ derived_owners acc
     ∨ ∃ e w, e ∈ l ∧ entry_owner e w ∧ h = MoveAddress.to_hex_literal w)
  ∧ (∀ i, i ∈ derived_objects d ↔ i ∈ derived_objects acc ∨ ∃ e, e ∈ l ∧ entry_object e i)
  ∧ (∀ w i, in_owned d w i ↔ in_owned acc w i ∨ ∃ e, e ∈ l ∧ entry_owned e w i).
Proof.
  revert acc. induction l as [|e l IH]; intros acc; cbn [foldl].
  - cbn zeta. setoid_rewrite elem_of_nil. clear. split_and!; intros; naive_solver.
  - cbn zeta. destruct (IH (derive_entry acc e)) as (H1 & H2 & H3). destruct (derive_entry_spec acc e) as (D1 & D2 & D3).
    setoid_rewrite elem_of_cons. split_and!.
    + intros h. rewrite H1, D1. clear. split.
      * intros [[H|(w & H & ->)]|(e' & w & He & H & ->)]; [by left|right; eauto 10|right; eauto 10].
      * intros [H|(e' & w & [->|He] & H & ->)]; [auto|left; right; eauto|right; eauto 10].
    + intros i. rewrite H2, D2. naive_solver.
    + intros w i. rewrite H3, D3. naive_solver.
Qed.

Lemma collected_spec s :
  let d := collect_derived_indexes s in
  (∀ h, h ∈ derived_owners d ↔ ∃ w, owner_record (store s) w ∧ h = MoveAddress.to_hex_literal w)
  ∧ (∀ i, i ∈ derived_objects d ↔ ∃ v, object_record (store s) i v)
  ∧ (∀ w i, in_owned d w i ↔ owned_record (store s) w i).
Proof.
  cbn zeta. unfold collect_derived_indexes. destruct (derive_all_spec (btree_iter (store s)) no_indexes) as (H1 & H2 & H3).
  assert (Hobj : ∀ i v, object_record (store s) i v ↔ ∃ k, (k, v) ∈ btree_iter (store s) ∧ entry_object (k, v) i).
  { intros i v. unfold object_record, entry_object. setoid_rewrite elem_of_btree. cbn [fst]. naive_solver. }
  assert (Hown : ∀ w i, owned_record (store s) w i ↔ ∃ e, e ∈ btree_iter (store s) ∧ entry_owned e w i).
  { intros w i. unfold owned_record, entry_owned. setoid_rewrite Hobj. split.
    - intros (v & o & (k & Hk & He) & H). exists (k, v). cbn [snd]. naive_solver.
    - intros ([k v] & Hk & He & o & H). exists v, o. cbn [snd] in H. naive_solver. }
  split_and!.
  - intros h. rewrite H1. cbn [derived_owners no_indexes]. unfold owner_record, entry_owner. setoid_rewrite Hown. split.
    + intros [H|([k v] & w & Hk & [[Hl E]|[i H]] & ->)]; [by apply elem_of_empty in H| |].
      * cbn [fst] in E. subst k. apply elem_of_btree in Hk. exists w. split; [left; eauto|done].
      * exists w. split; [right; eauto|done].
    + intros (w & [[Hl [v Hv]]|(i & e & He & H)] & ->); right.
      * exists (owner_state_key w, v), w. split; [by apply elem_of_btree|]. split; [by left|done].
      * exists e, w. split; [done|]. split; [right; eauto|done].
  - intros i. rewrite H2. setoid_rewrite Hobj. cbn [derived_objects no_indexes]. split.
    + intros [H|([k v] & Hk & He)]; [by apply elem_of_empty in H|eauto].
    + intros (v & k & Hk & He). right. eauto.
  - intros w i. rewrite H3, Hown. unfold in_owned. cbn [derived_owned no_indexes]. rewrite lookup_empty.
    cbn [default from_option id]. rewrite elem_of_empty. tauto.
Qed.
End Derived.

(** ** The repair *)

Section Repair.
Context {B3 : Blake3} {HX : Hex} {SC : StateCodecs} {TT : TypeTags}.

Lemma ascii_utf8 (l : bytes) : Forall (λ c, c < 128)%Z l → is_str l.
Proof.
  unfold is_str, utf8_valid. induction 1 as [|c l Hc _ IH]; [done|]. cbn [length utf8_valid_fuel].
  by rewrite (proj2 (Z.ltb_lt c 128)).
Qed.
Lemma hex_literal_str a : hash_ok a → is_str (MoveAddress.to_hex_literal a).
Proof.
  intros [_ Hb]. apply ascii_utf8. unfold MoveAddress.to_hex_literal, MoveAddress.short_str_lossless.
  apply Forall_app. split; [by repeat constructor|].
  pose proof (hex_encode_digits a Hb) as Hd. destruct (trim_start_matches_app 48 (hex_encode a)) as [n En].
  rewrite En in Hd. apply Forall_app in Hd as [_ Hd]. destruct (trim_start_matches _ _) as [|c r]; [by repeat constructor|].
  eapply Forall_impl; [exact Hd|]. intros x Hx%KanariAddress.hexdigit_range. lia.
Qed.

Lemma listed_ok ids : index_ok (listed ids) ∧ ∀ i, i ∈ listed ids ↔ i ∈ ids.
Proof.
  unfold listed. split; [split; [apply sort_dedup_sorted|apply sort_dedup_NoDup]|].
  intros i. by rewrite elem_of_sort_dedup, elem_of_elements.
Qed.

Lemma load_cong k s1 s2 : view s1 k = view s2 k → load_index_list k s1 = load_index_list k s2.
Proof. unfold load_index_list, load_internal. by intros ->. Qed.

Lemma repair_list_spec k ids s s' c :
  Forall is_str ids → repair_list k ids s = (s', Ok c) →
  load_index_list k s' = Ok ids ∧ (∀ j, j ≠ k → view s' j = view s j) ∧ (c = false → s' = s).
Proof.
  intros Hs E. apply st_bind_inv in E as (s1 & cur & E1 & E). injection E1 as <- E1. case_decide as Ec.
  - injection E as <- <-. subst cur. done.
  - apply st_bind_inv in E as (s2 & [] & E2 & E). injection E as <- <-. injection E2 as <-.
    split_and!; [by apply load_saved_index| |done]. intros j Hj. by rewrite view_put, decide_False.
Qed.

Lemma repair_owned_spec owned owners s s' c :
  NoDup owners → (∀ w, w ∈ owners → ∀ i, i ∈ default ∅ (owned !! w) → is_str i) →
  repair_owned owned owners s = (s', Ok c) →
  (∀ w, w ∈ owners → load_index_list (owned_objects_key w) s' = Ok (listed (default ∅ (owned !! w))))
  ∧ (∀ j, starts_with (str "owned_objects:") j = false ∨ (∀ w, w ∈ owners → j ≠ owned_objects_key w) → view s' j = view s j)
  ∧ (c = false → s' = s).
Proof.
  revert s c. induction owners as [|w owners IH]; intros s c Hd Hs E; cbn [repair_owned] in E.
  - injection E as <- <-. split_and!; [intros w Hw; by apply elem_of_nil in Hw|done|done].
  - apply NoDup_cons in Hd as [Hw Hd]. apply st_bind_inv in E as (s1 & c1 & E1 & E).
    apply st_bind_inv in E as (s2 & c2 & E2 & E). injection E as <- <-.
    apply repair_list_spec in E1 as (L1 & V1 & S1).
    2: { apply Forall_forall. intros i Hi. apply (Hs w); [by left|]. by apply listed_ok. }
    destruct (IH s1 c2 Hd) as (L2 & V2 & S2); [intros u Hu; apply Hs; by right|done|].
    split_and!.
    + intros u [->|Hu]%elem_of_cons; [|by apply L2]. rewrite (load_cong _ _ s1); [done|]. apply V2. right.
      intros u Hu E. apply owned_objects_key_inj in E as ->. done.
    + intros j Hj. rewrite V2, V1; [done| |].
      * destruct Hj as [Hj|Hj]; [intros ->; by rewrite owned_prefix in Hj|apply Hj; by left].
      * destruct Hj as [Hj|Hj]; [by left|right]. intros u Hu. apply Hj. by right.
    + intros [-> ->]%orb_false_iff. by rewrite S2, S1.
Qed.

(** The list under [k] is the sorted set with the given members. *)
Definition lists (k : bytes) (P : bytes → Prop) (s : StateManager) : Prop :=
  ∃ ids, load_index_list k s = Ok ids ∧ index_ok ids ∧ ∀ i, i ∈ ids ↔ P i.
Lemma lists_listed k ids P s :
  load_index_list k s = Ok (listed ids) → (∀ i, i ∈ ids ↔ P i) → lists k P s.
Proof.
  intros E HP. destruct (listed_ok ids) as [H1 H2]. exists (listed ids). split; [done|]. split; [done|].
  intros i. by rewrite H2.
Qed.

(** C33: the repair at start-up makes every derived index exact.  Afterwards the
    owner index names exactly the owners with a record or an owned object, the
    object index exactly the stored objects, the legacy index is gone, and the
    owned-objects index of every such owner exactly the objects the owner's
    address owns; if nothing was reported as changed, nothing was. *)
Theorem derived_indexes_exact (s s' : StateManager) (changed : bool) :
  (∀ w, owner_record (store s) w → hash_ok w) → (∀ i v, object_record (store s) i v → is_str i) →
  repair_derived_indexes_on_startup s = (s', Ok changed) →
  lists OWNER_INDEX_KEY (λ h, ∃ w, owner_record (store s) w ∧ h = MoveAddress.to_hex_literal w) s'
  ∧ lists (str "object_index") (λ i, ∃ v, object_record (store s) i v) s'
  ∧ load_index_list LEGACY_ACCOUNT_INDEX_KEY s' = Ok []
  ∧ (∀ w, owner_record (store s) w → lists (owned_objects_key w) (owned_record (store s) w) s')
  ∧ (changed = false → s' = s).
Proof.
  intros Hw Hi E. unfold repair_derived_indexes_on_startup in E.
  rewrite (st_bind_ok _ _ s s (collect_derived_indexes s)) in E by done.
  destruct (collected_spec s) as (C1 & C2 & C3). set (d := collect_derived_indexes s) in *.
  apply st_bind_inv in E as (s0 & cur & E0 & E). injection E0 as <- _.
  apply st_bind_inv in E as (s1 & c1 & E1 & E).
  apply repair_list_spec in E1 as (L1 & V1 & S1).
  2: { apply Forall_forall. intros h Hh. apply listed_ok, C1 in Hh as (w & H & ->). by apply hex_literal_str, Hw. }
  apply st_bind_inv in E as (s1' & leg & E2 & E). injection E2 as <- E2.
  apply st_bind_inv in E as (s2 & c2 & E3 & E).
  assert (L2 : load_index_list LEGACY_ACCOUNT_INDEX_KEY s2 = Ok []
    ∧ (∀ j, j ≠ LEGACY_ACCOUNT_INDEX_KEY → view s2 j = view s1 j) ∧ (c2 = false → s2 = s1)).
  { destruct leg as [|x leg]; [by injection E3 as <- <-|]. injection E3 as <- <-. split_and!; [|intros j Hj|done].
    - unfold load_index_list, load_internal. by rewrite view_put, decide_True.
    - by rewrite view_put, decide_False. }
  destruct L2 as (L2 & V2 & S2). apply st_bind_inv in E as (s3 & c3 & E4 & E).
  apply repair_list_spec in E4 as (L3 & V3 & S3).
  2: { apply Forall_forall. intros i Hx. apply listed_ok, C2 in Hx as (v & H). by eapply Hi. }
  apply st_bind_inv in E as (s4 & c4 & E5 & E). injection E as <- <-.
  apply repair_owned_spec in E5 as (L4 & V4 & S4); [|apply sort_dedup_NoDup|].
  2: { intros w _ i (v & o & H & _)%C3. by eapply Hi. }
  split_and!.
  - apply (lists_listed _ (derived_owners d)); [|exact C1]. rewrite <- L1. apply load_cong.
    rewrite V4, V3, V2 by (done || by left). done.
  - apply (lists_listed _ (derived_objects d)); [|exact C2]. rewrite <- L3. apply load_cong. apply V4. by left.
  - rewrite <- L2. apply load_cong. rewrite V4, V3 by (done || by left). done.
  - intros w Hr. apply (lists_listed _ (default ∅ (derived_owned d !! w))); [|exact (C3 w)]. apply L4.
    rewrite elem_of_sort_dedup, list_elem_of_omap. exists (MoveAddress.to_hex_literal w). split.
    + apply elem_of_app. right. apply listed_ok, C1. eauto.
    + by apply MoveAddress.from_to_hex_literal, Hw.
  - intros [[[-> ->]%orb_false_iff ->]%orb_false_iff ->]%orb_false_iff. by rewrite S4, S3, S2, S1.
Qed.
End Repair.

(** ** Genesis runs once *)

Section Once.
Context {B3 : Blake3} {HX : Hex} {SC : StateCodecs} {TT : TypeTags}.

Definition marker (s : StateManager) : option bytes := view s GENESIS_INITIALIZED_KEY.
Local Abbreviation keeps_marker := (fixes marker).

(** Keys that do not start like "system:". *)
Definition off_marker (k : bytes) : bool := negb (starts_with (str "s") k).
Lemma off_marker_ne k : off_marker k = true → k ≠ GENESIS_INITIALIZED_KEY.
Proof. by intros H ->. Qed.

Lemma marker_put k v : off_marker k = true → keeps_marker (st_modify (put_overlay k v)).
Proof. intros Hk s. unfold marker. cbn [st_modify fst]. rewrite view_put, decide_False; [done|]. by apply off_marker_ne. Qed.
Lemma marker_save {T} (c : Codec T) k v : off_marker k = true → keeps_marker (save_internal c k v).
Proof. apply marker_put. Qed.
Lemma marker_ask {A} (f : StateManager → result A) : keeps_marker (ask f).
Proof. by intros s. Qed.
Lemma commit_view s k : view (commit s).1 k = view s k.
Proof.
  transitivity (store (commit s).1 !! k); [|by rewrite committed_store, merged_lookup].
  unfold view. change (overlay (commit s).1) with (∅ : gmap bytes (option bytes)). by rewrite lookup_empty.
Qed.
Lemma marker_commit : keeps_marker commit.
Proof. intros s. apply commit_view. Qed.
Hint Resolve marker_put marker_save marker_ask marker_commit : frames.

Lemma marker_native n : keeps_marker (store_native_cache n).
Proof. by intros s. Qed.
Lemma marker_supplies : keeps_marker save_supplies.
Proof. unfold save_supplies. frame. Qed.
Lemma marker_owner o : keeps_marker (save_owner_record o).
Proof. by apply marker_save. Qed.
Hint Resolve marker_native marker_supplies marker_owner : frames.
Lemma marker_excess l n : keeps_marker (take_excess l n).
Proof. revert n. induction l as [|a l IH]; intros n; cbn [take_excess]; frame. Qed.
Hint Resolve marker_excess : frames.
Lemma marker_sync : keeps_marker sync_native_visible_supply_cache.
Proof. unfold sync_native_visible_supply_cache. frame. Qed.
Hint Resolve marker_sync : frames.
Lemma marker_legacy : keeps_marker repair_legacy_native_wallet_overcount.
Proof. unfold repair_legacy_native_wallet_overcount. frame. Qed.
Lemma marker_wallet : keeps_marker ensure_wallet_supply_index.
Proof. unfold ensure_wallet_supply_index. frame. by intros s. Qed.
Lemma marker_list k ids : off_marker k = true → keeps_marker (repair_list k ids).
Proof. intros Hk. unfold repair_list, save_index_list. frame. Qed.
Lemma marker_owned owned l : keeps_marker (repair_owned owned l).
Proof.
  induction l as [|w l IH]; cbn [repair_owned]; [frame|]. apply fixes_bind; [by apply marker_list|intros c].
  apply fixes_bind; [done|intros r]. apply fixes_ret.
Qed.
Hint Resolve marker_legacy marker_wallet marker_list marker_owned : frames.
Lemma marker_derived : keeps_marker repair_derived_indexes_on_startup.
Proof. unfold repair_derived_indexes_on_startup. frame. Qed.
Hint Resolve marker_derived : frames.
Lemma marker_schema : keeps_marker migrate_runtime_state_schema.
Proof. unfold migrate_runtime_state_schema. frame. Qed.
Lemma marker_commit_if step : keeps_marker step → keeps_marker (commit_if step).
Proof. intros H. unfold commit_if. apply fixes_bind; [done|intros []; frame]. Qed.
Lemma marker_repair : keeps_marker repair_supply.
Proof. unfold repair_supply. frame; by apply marker_commit_if; frame. Qed.
Lemma marker_check ff : keeps_marker (check_supply ff).
Proof. intros s. unfold check_supply. by destruct (validate_supply_invariants s). Qed.

(** Nothing stays pending. *)
Definition settles (m : sm unit) : Prop := ∀ s s', overlay s = ∅ → m s = (s', Ok tt) → overlay s' = ∅.
Definition idle (step : sm bool) : Prop := ∀ s s', step s = (s', Ok false) → overlay s' = overlay s.

Lemma settles_bind (m k : sm unit) : settles m → settles k → settles (m ≫= λ _, k).
Proof. intros Hm Hk s s' H0 (s1 & [] & E1 & E2)%st_bind_inv. eapply Hk; [|done]. by eapply Hm. Qed.
Lemma settles_commit_if step : idle step → settles (commit_if step).
Proof.
  intros Hi s s' H0 (s1 & [] & E1 & E2)%st_bind_inv; [by injection E2 as <-|]. injection E2 as <-. by rewrite (Hi _ _ E1).
Qed.
Lemma idle_legacy : idle repair_legacy_native_wallet_overcount.
Proof.
  intros s s' E. unfold repair_legacy_native_wallet_overcount in E.
  apply st_bind_inv in E as (? & v & [= <- _] & E). apply st_bind_inv in E as (? & k & [= <- _] & E).
  apply st_bind_inv in E as (? & t & [= <- _] & E). cbv zeta in E. case_match.
  - apply st_bind_inv in E as (? & c & [= <- _] & E). case_match; [by injection E as <-|].
    apply st_bind_inv in E as (? & ? & _ & E). apply st_bind_inv in E as (? & ? & _ & E). discriminate E.
  - repeat (apply st_bind_inv in E as (? & ? & _ & E)). discriminate E.
Qed.
Lemma idle_wallet : idle ensure_wallet_supply_index.
Proof.
  intros s s' E. unfold ensure_wallet_supply_index in E. apply st_bind_inv in E as (? & v & [= <- _] & E). cbv zeta in E.
  apply st_bind_inv in E as (? & [] & [= <- _] & E). case_match; [by injection E as <-|].
  repeat (apply st_bind_inv in E as (? & ? & _ & E)). discriminate E.
Qed.
Lemma idle_list k ids : idle (repair_list k ids).
Proof.
  intros s s' (s1 & c & E1 & E)%st_bind_inv. injection E1 as <- _. case_decide; [by injection E as <-|].
  apply st_bind_inv in E as (? & ? & _ & E). discriminate E.
Qed.
Lemma idle_owned owned l : idle (repair_owned owned l).
Proof.
  induction l as [|w l IH]; intros s s' E; cbn [repair_owned] in E; [by injection E as <-|].
  apply st_bind_inv in E as (s1 & c & E1 & E). apply st_bind_inv in E as (s2 & r & E2 & E). injection E as <- Hb.
  apply orb_false_iff in Hb as [-> ->]. by rewrite (IH _ _ E2), (idle_list _ _ _ _ E1).
Qed.
Lemma idle_derived : idle repair_derived_indexes_on_startup.
Proof.
  intros s s' E. unfold repair_derived_indexes_on_startup in E.
  apply st_bind_inv in E as (? & d & [= <- _] & E). apply st_bind_inv in E as (? & cur & [= <- _] & E).
  apply st_bind_inv in E as (s1 & c1 & E1 & E). apply st_bind_inv in E as (? & leg & [= <- _] & E).
  apply st_bind_inv in E as (s2 & c2 & E2 & E). apply st_bind_inv in E as (s3 & c3 & E3 & E). cbv zeta in E.
  apply st_bind_inv in E as (s4 & c4 & E4 & E). injection E as <- Hb.
  rewrite !orb_false_iff in Hb. destruct Hb as [[[-> ->] ->] ->].
  rewrite (idle_owned _ _ _ _ E4), (idle_list _ _ _ _ E3), <- (idle_list _ _ _ _ E1).
  destruct (list_empty leg); [by injection E2 as <-|]. apply st_bind_inv in E2 as (? & ? & _ & E2). discriminate E2.
Qed.
Lemma settles_schema : settles migrate_runtime_state_schema.
Proof.
  intros s s' H0 E. unfold migrate_runtime_state_schema in E. apply st_bind_inv in E as (? & v & [= <- _] & E). cbv zeta in E.
  apply st_bind_inv in E as (? & [] & [= <- _] & E). case_match; [|by injection E as <-].
  apply st_bind_inv in E as (? & [] & _ & E). by injection E as <-.
Qed.
Lemma settles_repair : settles repair_supply.
Proof.
  intros s s' H0 E. unfold repair_supply in E. apply st_bind_inv in E as (? & v & [= <- _] & E).
  apply st_bind_inv in E as (s1 & [] & E1 & E2). eapply (settles_commit_if _ idle_wallet); [|exact E2]. case_match.
  - by apply (settles_commit_if _ idle_legacy s).
  - by injection E1 as <-.
Qed.

(** The marker is set. *)
Definition is_marked (s : StateManager) : Prop := ∃ b, marker s = Some b ∧ dec bool_codec b = Some true.

Lemma save_marker_marks s : is_marked (save_internal bool_codec GENESIS_INITIALIZED_KEY true s).1.
Proof.
  exists (enc bool_codec true). unfold marker. cbn [save_internal st_modify fst]. rewrite view_put, decide_True by done.
  split; [done|]. apply dec_enc, bool_storable.
Qed.
Lemma marked_cong s1 s2 : marker s1 = marker s2 → is_marked s1 → is_marked s2.
Proof. unfold is_marked. by intros ->. Qed.
Lemma loaded_marked s v :
  overlay s = ∅ → store_load bool_codec GENESIS_INITIALIZED_KEY (store s) = Ok v → default false v = true → is_marked s.
Proof.
  intros Ho E Hv. unfold is_marked, marker, view. rewrite Ho, lookup_empty. unfold store_load in E.
  destruct (store s !! GENESIS_INITIALIZED_KEY) as [b|]; [|by injection E as <-].
  apply result_bind_ok in E as (x & Ex & E). injection E as <-. apply decode_ok in Ex. exists b. split; [done|]. cbn in Hv. by subst x.
Qed.

Lemma migrate_settles i l s s' :
  overlay s = ∅ → migrate_metadata i l s = (s', Ok tt) →
  overlay s' = ∅ ∧ (i = true → genesis_marker l = false ∨ is_marked s → is_marked s').
Proof.
  intros H0 E. unfold migrate_metadata in E. apply st_bind_inv in E as (s1 & p1 & E1 & E).
  apply st_bind_inv in E as (s2 & p2 & E2 & E).
  assert (Hm1 : (p1 = true ∧ is_marked s1) ∨ (p1 = false ∧ s1 = s ∧ (i = true → genesis_marker l = true))).
  { destruct (i && negb (genesis_marker l)) eqn:Ei.
    - apply st_bind_inv in E1 as (s0 & [] & E0 & E1). injection E1 as <- <-. left. split; [done|].
      pose proof (save_marker_marks s) as H. by rewrite E0 in H.
    - injection E1 as <- <-. right. split; [done|]. split; [done|]. intros ->. by apply negb_false_iff in Ei. }
  assert (Hm2 : marker s2 = marker s1 ∧ (p2 = false → s2 = s1)).
  { destruct (is_none (supply_record l) && _); [|by injection E2 as <- <-]. apply st_bind_inv in E2 as (s0 & [] & E0 & E2). injection E2 as <- <-.
    split; [|done]. pose proof (marker_save u64_codec (str "total_supply") (recovered_supply l) eq_refl s1) as H. by rewrite E0 in H. }
  destruct Hm2 as [Hm2 Hs2].
  assert (Hv : marker s' = marker s2).
  { destruct (p1 || p2); injection E as <-; [apply marker_commit|done]. }
  split.
  - destruct (p1 || p2) eqn:Ep; injection E as <-; [done|]. apply orb_false_iff in Ep as [-> ->].
    rewrite Hs2 by done. destruct Hm1 as [[? _]|(_ & -> & _)]; [done|exact H0].
  - intros Hi Hg. apply (marked_cong s1); [congruence|]. destruct Hm1 as [[_ H]|(_ & -> & H)]; [done|].
    destruct Hg as [Hg|Hg]; [|done]. rewrite (H Hi) in Hg. done.
Qed.

Definition genesis_keeps_marker (init_genesis : sm unit) : Prop :=
  ∀ s s', init_genesis s = (s', Ok tt) → marker s' = marker s.

Lemma genesis_settles g s s' :
  genesis_keeps_marker g → overlay s = ∅ → run_genesis g s = (s', Ok tt) → overlay s' = ∅ ∧ is_marked s'.
Proof.
  intros Hg H0 E. unfold run_genesis in E. apply st_bind_inv in E as (? & v & E0 & E). injection E0 as <- E0.
  destruct (default false v) eqn:Ev.
  - pose proof (loaded_marked s v H0 E0 Ev) as Hm.
    apply st_bind_inv in E as (? & n & [= <- _] & E). apply st_bind_inv in E as (? & m & [= <- _] & E).
    injection E as <-. split; [exact H0|]. by apply (marked_cong s).
  - apply st_bind_inv in E as (s1 & [] & E1 & E). apply st_bind_inv in E as (s2 & [] & E2 & E).
    apply st_bind_inv in E as (s3 & [] & E3 & E). apply st_bind_inv in E as (? & t & [= <- _] & E). injection E as <- _.
    injection E3 as <-. split; [done|]. pose proof (save_marker_marks s) as H. rewrite E1 in H. cbn [fst] in H.
    apply (marked_cong s1); [|done]. etransitivity; [symmetry; by apply Hg|]. symmetry. exact (commit_view s2 _).
Qed.

Lemma start_spec g ff l m s :
  genesis_keeps_marker g → load_persisted m = Ok l → start g ff l m (initial_state l m) = (s, Ok tt) →
  overlay s = ∅ ∧ is_marked s.
Proof.
  intros Hg Hl E. unfold start in E. cbv zeta in E. set (i := genesis_already_initialized l m) in *.
  apply st_bind_inv in E as (s1 & [] & E1 & E). apply st_bind_inv in E as (s2 & [] & E2 & E).
  destruct (migrate_settles i l (initial_state l m) s1 eq_refl E1) as [O1 M1].
  assert (H2 : overlay s2 = ∅ ∧ is_marked s2).
  { destruct i eqn:Ei; [|by apply (genesis_settles g s1)]. injection E2 as <-. split; [done|]. apply M1; [done|].
    destruct (genesis_marker l) eqn:Em; [right|by left]. unfold load_persisted in Hl.
    apply result_bind_ok in Hl as (rec & _ & Hl). apply result_bind_ok in Hl as (v & Ev & Hl).
    apply result_bind_ok in Hl as (sup & _ & Hl). apply result_bind_ok in Hl as (ver & _ & Hl). cbv zeta in Hl.
    apply result_bind_ok in Hl as (rc & _ & Hl). injection Hl as <-. by apply (loaded_marked _ v). }
  destruct H2 as [O2 M2].
  apply st_bind_inv in E as (s3 & [] & E3 & E). pose proof (settles_schema _ _ O2 E3) as O3.
  apply st_bind_inv in E as (s4 & [] & E4 & E). pose proof (settles_commit_if _ idle_derived _ _ O3 E4) as O4.
  apply st_bind_inv in E as (s5 & [] & E5 & E). pose proof (settles_repair _ _ O4 E5) as O5.
  pose proof (marker_schema s2) as F3. rewrite E3 in F3.
  pose proof (marker_commit_if _ marker_derived s3) as F4. rewrite E4 in F4.
  pose proof (marker_repair s4) as F5. rewrite E5 in F5. pose proof (marker_check ff s5) as F6. rewrite E in F6.
  cbn [fst] in *. split; [|apply (marked_cong s2); [congruence|done]].
  unfold check_supply in E. by destruct (validate_supply_invariants s5); injection E as <-.
Qed.

(** a start is durable and genesis runs once.  After a successful start
    nothing is pending, the genesis marker is in the store, and a later start on
    that store gives the same answer whatever genesis would do: it is not run. *)
Theorem genesis_runs_once (init_genesis : sm unit) (fail_fast : bool) (m m' : gmap bytes bytes) (s : StateManager) :
  genesis_keeps_marker init_genesis → try_new init_genesis fail_fast m = (m', Ok s) →
  overlay s = ∅ ∧ store s = m' ∧ store_load bool_codec GENESIS_INITIALIZED_KEY m' = Ok (Some true)
  ∧ ∀ g1 g2, try_new g1 fail_fast m' = try_new g2 fail_fast m'.
Proof.
  intros Hg E. unfold try_new in E. destruct (load_persisted m) as [l|] eqn:El; [|done].
  destruct (start _ _ _ _ _) as [s1 [[]|]] eqn:Es; [|done]. injection E as <- <-.
  destruct (start_spec _ _ _ _ _ Hg El Es) as [Ho (b & Hb & Hd)].
  assert (Hm : store_load bool_codec GENESIS_INITIALIZED_KEY (store s1) = Ok (Some true)).
  { unfold marker, view in Hb. rewrite Ho, lookup_empty in Hb. unfold store_load. rewrite Hb. by rewrite (proj2 (decode_ok _ _ _) Hd). }
  split_and!; [done|done|done|]. intros g1 g2. unfold try_new.
  destruct (load_persisted (store s1)) as [l'|] eqn:El'; [|done].
  assert (Hi : genesis_already_initialized l' (store s1) = true).
  { unfold genesis_already_initialized. unfold load_persisted in El'.
    apply result_bind_ok in El' as (rec & _ & El'). rewrite Hm in El'. cbn [result_bind] in El'.
    apply result_bind_ok in El' as (sup & _ & El'). apply result_bind_ok in El' as (ver & _ & El'). cbv zeta in El'.
    apply result_bind_ok in El' as (rc & _ & El'). injection El' as <-. done. }
  unfold start. by rewrite Hi.
Qed.
End Once.

(** ** Concrete runs *)

Module Runs.
Import ToyHash RealHex ToyCodecs ChangeSetTheorems.Runs StateTheorems.Runs.

(** Alice has a record and a coin that no index knows; Bob's entry is stale. *)
Definition alice_coin : StoredObject :=
  {| stored_id := str "0xa"; stored_owner := alice; stored_owner_kind := AddressOwner (MoveAddress.to_hex_literal alice);
     type_name := str "coin"; stored_data := []; stored_version := 1 |}.
Definition drifted_entries : list (bytes * bytes) :=
  [(owner_state_key alice, enc owner_codec alice_owner); (object_key (str "0xa"), enc object_codec alice_coin);
   (OWNER_INDEX_KEY, enc ids_codec [MoveAddress.to_hex_literal bob]);
   (LEGACY_ACCOUNT_INDEX_KEY, enc ids_codec [MoveAddress.to_hex_literal bob])].
Definition drifted : StateManager :=
  {| store := list_to_map drifted_entries; overlay := ∅; total_supply := 100;
     global_token_supplies := {[ GAS_COIN := 100%Z ]}; access_versions := ∅; access_epoch := 0 |}.
Definition repaired : StateManager := (repair_derived_indexes_on_startup drifted).1.

Lemma drifted_lookup k v : store drifted !! k = Some v → (k, v) ∈ drifted_entries.
Proof. apply elem_of_list_to_map_2. Qed.
Lemma drifted_objects i v :
  object_record (store drifted) i v → v = enc object_codec alice_coin ∧ i = canonical_owned_object_id (str "0xa").
Proof.
  intros (raw & H%drifted_lookup & _ & ->). unfold drifted_entries in H. rewrite !elem_of_cons, elem_of_nil in H.
  destruct H as [[= _ _]|[E|[[= _ _]|[[= _ _]|[]]]]]. injection E as -> ->. split; reflexivity.
Qed.
Lemma alice_ok : hash_ok alice.
Proof. split; [done|]. by apply Forall_replicate. Qed.
Lemma alice_coin_decodes : dec object_codec (enc object_codec alice_coin) = Some alice_coin.
Proof. vm_compute. reflexivity. Qed.
Lemma drifted_owners w : owner_record (store drifted) w → hash_ok w.
Proof.
  intros [[_ [v H%drifted_lookup]]|(i & v & o & [-> _]%drifted_objects & Ho & _ & <-)].
  - unfold drifted_entries in H. rewrite !elem_of_cons, elem_of_nil in H.
    destruct H as [E|[[= _ _]|[[= _ _]|[[= _ _]|[]]]]]. injection E as -> _. apply alice_ok.
  - rewrite alice_coin_decodes in Ho. injection Ho as <-. apply alice_ok.
Qed.

Lemma derived_indexes_exact_witness :
  lists OWNER_INDEX_KEY (λ h, ∃ w, owner_record (store drifted) w ∧ h = MoveAddress.to_hex_literal w) repaired
  ∧ lists (str "object_index") (λ i, ∃ v, object_record (store drifted) i v) repaired
  ∧ load_index_list LEGACY_ACCOUNT_INDEX_KEY repaired = Ok []
  ∧ (∀ w, owner_record (store drifted) w → lists (owned_objects_key w) (owned_record (store drifted) w) repaired)
  ∧ (true = false → repaired = drifted).
Proof.
  apply (derived_indexes_exact drifted repaired true).
  - exact drifted_owners.
  - intros i v [_ ->]%drifted_objects. vm_compute. reflexivity.
  - unfold repaired. rewrite (surjective_pairing (repair_derived_indexes_on_startup drifted)) at 1.
    f_equal; vm_compute; reflexivity.
Defined.

(** Genesis issues 1,000 Mist. *)
Definition toy_genesis : sm unit := save_native_total_supply 1000.
Definition started : gmap bytes bytes := (try_new toy_genesis false ∅).1.
Definition started_state : StateManager :=
  match (try_new toy_genesis false ∅).2 with Ok s => s | Err _ => drifted end.

Lemma pair_ok {A B} (p : A * result B) (d : B) :
  is_ok p.2 = true → p = (p.1, Ok (match p.2 with Ok b => b | Err _ => d end)).
Proof. by destruct p as [a [b|e]]. Qed.
Lemma started_ok : try_new toy_genesis false ∅ = (started, Ok started_state).
Proof. apply (pair_ok (try_new toy_genesis false ∅) drifted). vm_compute. reflexivity. Qed.

Lemma toy_genesis_keeps : genesis_keeps_marker toy_genesis.
Proof.
  intros s s' E. assert (H : fixes marker toy_genesis).
  { unfold toy_genesis, save_native_total_supply. apply fixes_bind; [by intros ?|intros _].
    apply fixes_bind; [by apply marker_save|intros _]. apply fixes_bind; [apply fixes_gets|intros [|]].
    - intros x. unfold marker. cbn [save_internal st_modify fst]. by rewrite view_put, decide_False.
    - apply fixes_bind; [apply fixes_gets|intros [|]]; [|apply fixes_ret].
      intros x. unfold marker. cbn [save_internal st_modify fst]. by rewrite view_put, decide_False. }
  specialize (H s). by rewrite E in H.
Qed.

Lemma genesis_runs_once_witness :
  overlay started_state = ∅ ∧ store started_state = started
  ∧ store_load bool_codec GENESIS_INITIALIZED_KEY started = Ok (Some true)
  ∧ ∀ g1 g2, try_new g1 false started = try_new g2 false started.
Proof.
  apply (genesis_runs_once toy_genesis false ∅ started started_state).
  - exact toy_genesis_keeps.
  - exact started_ok.
Defined.
End Runs.
