(* ===== verification/Committee.v ===== *)
(** * Authorities, stake and quorums

    Models [authority.rs] (authority indices, the 128-bit [AuthoritySet]) and
    [committee.rs] ([Committee], [StakeAggregator]) of the DAG crate.

    The second half is the theory every consensus theorem rests on: the stake of
    a set of authorities, the meaning of the aggregation loops, and the
    intersection of quorums. *)

From S2P Require Import Prelude.
From stdpp Require Import base gmap list strings.
From Stdlib Require Import NArith ZArith Lia.

(** ** [authority.rs] *)

(** [Authority] wraps a [u64] index; [Stake] and [RoundNumber] are [u64]. *)
Abbreviation Authority := N.
Abbreviation Stake := N.
Abbreviation RoundNumber := N.

Definition u64_limit : N := 2 ^ 64.

(** [AuthoritySet(u128)]: bit [v] stands for authority [v]. *)
Abbreviation AuthoritySet := N.

Module AuthoritySet.

Definition insert (s : AuthoritySet) (v : Authority) : AuthoritySet * bool :=
  let bit := N.shiftl 1 v in
  if (N.land s bit =? bit)%N then (s, false) else (N.lor s bit, true).

Definition present (s : AuthoritySet) : list Authority :=
  filter (λ bit, N.land s (N.shiftl 1 bit) ≠ 0%N) (map N.of_nat (seq 0 128)).

Definition clear (s : AuthoritySet) : AuthoritySet := 0%N.

End AuthoritySet.

(** ** [committee.rs] *)

Record AuthorityInfo := { stake : Stake; public_key : bytes }.

Record Committee := { committee_authorities : list AuthorityInfo; total_stake : Stake }.

(** [total_stake.checked_add(a.stake()).expect(..)] over all authorities. *)
Fixpoint add_stakes (acc : Stake) (l : list AuthorityInfo) : result Stake :=
  match l with
  | [] => Ok acc
  | a :: l =>
      if (acc + stake a <? u64_limit)%N then add_stakes (acc + stake a) l
      else Err "Total stake overflow"
  end.

Definition committee_new (authorities : list AuthorityInfo) : result Committee :=
  let? _ := ensure (negb (bool_decide (authorities = []))) "assert: authorities" in
  let? _ := ensure (forallb (λ a, (0 <? stake a)%N) authorities) "assert: stake" in
  let? _ := ensure (length authorities <=? 128)%nat "assert: len <= 128" in
  let? total := add_stakes 0 authorities in
  Ok {| committee_authorities := authorities; total_stake := total |}.

Definition committee_len (C : Committee) : N := N.of_nat (length (committee_authorities C)).
Definition get_stake (C : Committee) (a : Authority) : option Stake :=
  stake <$> committee_authorities C !! N.to_nat a.
Definition get_public_key (C : Committee) (a : Authority) : option bytes :=
  public_key <$> committee_authorities C !! N.to_nat a.
Definition known_authority (C : Committee) (a : Authority) : bool := (a <? committee_len C)%N.
Definition authorities (C : Committee) : list Authority :=
  map N.of_nat (seq 0 (length (committee_authorities C))).

Record StakeAggregator := { votes : AuthoritySet; agg_stake : Stake; threshold : Stake }.

Definition aggregator_new (threshold : Stake) : StakeAggregator :=
  {| votes := 0; agg_stake := 0; threshold := threshold |}.

Definition aggregator_add (g : StakeAggregator) (vote : Authority) (C : Committee) :
    result (StakeAggregator * bool) :=
  match get_stake C vote with
  | None => Err "Authority not found"
  | Some s =>
      let '(votes', inserted) := AuthoritySet.insert (votes g) vote in
      let stake' := if inserted then (agg_stake g + s)%N else agg_stake g in
      Ok ({| votes := votes'; agg_stake := stake'; threshold := threshold g |},
          (threshold g <=? stake')%N)
  end.

Definition aggregator_clear (g : StakeAggregator) : StakeAggregator :=
  {| votes := AuthoritySet.clear (votes g); agg_stake := 0; threshold := threshold g |}.

(** The loop the committers share, with its early [return true]: items name the
    author they count for, or nobody. *)
Fixpoint aggregate {A} (C : Committee) (p : A → result (option Authority))
    (g : StakeAggregator) (l : list A) : result bool :=
  match l with
  | [] => Ok false
  | x :: l =>
      let? o := p x in
      match o with
      | Some a =>
          let? ' (g', reached) := aggregator_add g a C in
          if reached : bool then Ok true else aggregate C p g' l
      | None => aggregate C p g l
      end
  end.

(** [items.any(|x| p(x) && aggregator.add(author(x)))] *)
Definition aggregate_any {A} (C : Committee) (author : A → Authority) (p : A → result bool)
    (g : StakeAggregator) (l : list A) : result bool :=
  aggregate C (λ x, let? b := p x in Ok (if b : bool then Some (author x) else None)) g l.

(** ** Stake of a set of authorities *)

Fixpoint stake_from (i : N) (l : list AuthorityInfo) (X : gset Authority) : Stake :=
  match l with
  | [] => 0
  | a :: l => (if decide (i ∈ X) then stake a else 0) + stake_from (N.succ i) l X
  end%N.

Definition stake_of (C : Committee) (X : gset Authority) : Stake :=
  stake_from 0 (committee_authorities C) X.

(** What [committee_new] establishes. *)
Record committee_ok (C : Committee) : Prop := {
  ok_total : total_stake C = stake_of C (list_to_set (authorities C));
  ok_len : length (committee_authorities C) ≤ 128;
  ok_nonempty : committee_authorities C ≠ [];
  ok_u64 : (total_stake C < u64_limit)%N;
  ok_positive : Forall (λ a, (0 < stake a)%N) (committee_authorities C)
}.

Definition known (C : Committee) (a : Authority) : Prop := is_Some (get_stake C a).

Lemma known_authority_iff C a : known_authority C a = true ↔ known C a.
Proof.
  unfold known_authority, known, get_stake, committee_len.
  rewrite fmap_is_Some, lookup_lt_is_Some, N.ltb_lt. lia.
Qed.

Lemma elem_of_authorities C a : a ∈ authorities C ↔ known C a.
Proof.
  rewrite <- known_authority_iff. unfold authorities, known_authority, committee_len.
  rewrite list_elem_of_fmap, N.ltb_lt. split.
  - intros (i & -> & [_ Hi]%elem_of_seq). lia.
  - intros H. exists (N.to_nat a). rewrite elem_of_seq. lia.
Qed.

Lemma stake_from_mono i l X Y :
  (∀ a, a ∈ X → (i ≤ a)%N → (a < i + N.of_nat (length l))%N → a ∈ Y) →
  (stake_from i l X ≤ stake_from i l Y)%N.
Proof.
  revert i. induction l as [|x l IH]; intros i H; simpl; [lia|].
  assert (stake_from (N.succ i) l X ≤ stake_from (N.succ i) l Y)%N.
  { apply IH. intros a HX ? ?. apply H; [done|lia|simpl; lia]. }
  case_decide as HX; [|lia]. rewrite decide_True; [lia|].
  apply H; [done|lia|simpl; lia].
Qed.

Lemma stake_of_mono C (X Y : gset Authority) :
  (∀ a, known C a → a ∈ X → a ∈ Y) → (stake_of C X ≤ stake_of C Y)%N.
Proof.
  intros H. apply stake_from_mono. intros a HX _ Ha. apply H; [|done].
  apply known_authority_iff. unfold known_authority, committee_len. apply N.ltb_lt. lia.
Qed.

Lemma stake_from_union_inter i l X Y :
  (stake_from i l X + stake_from i l Y
   = stake_from i l (X ∪ Y) + stake_from i l (X ∩ Y))%N.
Proof.
  revert i. induction l as [|x l IH]; intros i; simpl; [done|].
  specialize (IH (N.succ i)). repeat case_decide; try set_solver; lia.
Qed.

Lemma stake_of_union_inter C X Y :
  (stake_of C X + stake_of C Y = stake_of C (X ∪ Y) + stake_of C (X ∩ Y))%N.
Proof. apply stake_from_union_inter. Qed.

Lemma stake_of_empty C : stake_of C ∅ = 0%N.
Proof.
  unfold stake_of. generalize 0%N at 1. induction (committee_authorities C) as [|x l IH]; intros i;
    simpl; [done|]. rewrite IH, decide_False by set_solver. lia.
Qed.

Lemma stake_of_le_total C X : committee_ok C → (stake_of C X ≤ total_stake C)%N.
Proof.
  intros HC. rewrite (ok_total _ HC). apply stake_of_mono.
  intros a Ha _. by apply elem_of_list_to_set, elem_of_authorities.
Qed.

Lemma stake_of_diff C (X Y : gset Authority) :
  (stake_of C X ≤ stake_of C (X ∖ Y) + stake_of C Y)%N.
Proof.
  pose proof (stake_of_union_inter C (X ∖ Y) Y).
  assert (stake_of C X ≤ stake_of C (X ∖ Y ∪ Y))%N; [|lia].
  apply stake_of_mono. intros a _ ?. destruct (decide (a ∈ Y)); set_solver.
Qed.

(** Two sets of authorities share honest stake: what exceeds the total and the
    stake of the faulty ones. *)
Lemma honest_overlap C (X Y B : gset Authority) :
  committee_ok C →
  (stake_of C X + stake_of C Y ≤ total_stake C + stake_of C B + stake_of C ((X ∩ Y) ∖ B))%N.
Proof.
  intros HC. rewrite stake_of_union_inter.
  pose proof (stake_of_le_total C (X ∪ Y) HC). pose proof (stake_of_diff C (X ∩ Y) B). lia.
Qed.

Lemma stake_from_positive i l (X : gset Authority) :
  (0 < stake_from i l X)%N → ∃ a, a ∈ X ∧ (i ≤ a)%N ∧ (a < i + N.of_nat (length l))%N.
Proof.
  revert i. induction l as [|x l IH]; intros i; simpl; [lia|].
  case_decide as HX.
  - intros _. exists i. split_and!; [done|lia|lia].
  - intros H. destruct (IH (N.succ i)) as (a & ? & ? & ?); [lia|]. exists a. split_and!; [done|lia|lia].
Qed.

Lemma stake_of_positive C X : (0 < stake_of C X)%N → ∃ a, a ∈ X ∧ known C a.
Proof.
  intros (a & ? & _ & Ha)%stake_from_positive. exists a. split; [done|].
  apply known_authority_iff. unfold known_authority, committee_len. apply N.ltb_lt. lia.
Qed.

(** Quorum intersection: an honest authority in both. *)
Lemma quorum_intersection C (X Y B : gset Authority) :
  committee_ok C →
  (total_stake C + stake_of C B < stake_of C X + stake_of C Y)%N →
  ∃ a, a ∈ X ∧ a ∈ Y ∧ a ∉ B ∧ known C a.
Proof.
  intros HC Hlt. pose proof (honest_overlap C X Y B HC).
  destruct (stake_of_positive C ((X ∩ Y) ∖ B)) as (a & Ha & ?); [lia|]. exists a. set_solver.
Qed.

Lemma stake_from_insert i l (X : gset Authority) a :
  a ∉ X → (i ≤ a)%N →
  stake_from i l ({[a]} ∪ X)
  = (stake_from i l X + from_option stake 0 (l !! N.to_nat (a - i)))%N.
Proof.
  intros HaX. revert i. induction l as [|x l IH]; intros i Hi; simpl; [done|].
  destruct (decide (i = a)) as [->|Hne].
  - rewrite decide_True, decide_False by set_solver.
    replace (N.to_nat (a - a)) with 0 by lia. simpl.
    assert (stake_from (N.succ a) l ({[a]} ∪ X) = stake_from (N.succ a) l X); [|lia].
    apply N.le_antisymm; apply stake_from_mono; intros b; [|set_solver].
    intros [->%elem_of_singleton|?]%elem_of_union; [lia|done].
  - rewrite IH by lia. replace (N.to_nat (a - i)) with (S (N.to_nat (a - N.succ i))) by lia. simpl.
    destruct (decide (i ∈ X)); [rewrite decide_True by set_solver|rewrite decide_False by set_solver]; lia.
Qed.

Lemma stake_of_insert C (X : gset Authority) a s :
  a ∉ X → get_stake C a = Some s → stake_of C ({[a]} ∪ X) = (stake_of C X + s)%N.
Proof.
  intros HaX Hs. unfold stake_of. rewrite stake_from_insert, N.sub_0_r by (done || lia).
  unfold get_stake in Hs. apply fmap_Some in Hs as (x & -> & ->). done.
Qed.
#[export] Hint Rewrite stake_of_empty : kanari.

(** ** The bit set and the aggregator *)

Definition bits_repr (v : AuthoritySet) (X : gset Authority) : Prop :=
  ∀ a, N.testbit v a = bool_decide (a ∈ X).

Lemma insert_spec v X a :
  bits_repr v X →
  bits_repr (AuthoritySet.insert v a).1 ({[a]} ∪ X) ∧
  (AuthoritySet.insert v a).2 = negb (bool_decide (a ∈ X)).
Proof.
  intros HR. unfold AuthoritySet.insert. rewrite N.shiftl_1_l.
  assert ((N.land v (2 ^ a) =? 2 ^ a)%N = bool_decide (a ∈ X)) as ->.
  { rewrite <- HR. destruct (N.testbit v a) eqn:E.
    - apply N.eqb_eq, N.bits_inj. intros b. rewrite N.land_spec, N.pow2_bits_eqb.
      destruct (N.eqb_spec a b) as [->|]; [by rewrite E|by rewrite andb_false_r].
    - apply N.eqb_neq. intros H. apply (f_equal (λ z, N.testbit z a)) in H.
      rewrite N.land_spec, E, N.pow2_bits_true in H. done. }
  case_bool_decide as HX; simpl; split; try done.
  - intros b. rewrite HR. apply bool_decide_ext. set_solver.
  - intros b. rewrite N.lor_spec, HR, N.pow2_bits_eqb.
    destruct (N.eqb_spec a b) as [->|Hne].
    + rewrite orb_true_r. symmetry. apply bool_decide_eq_true_2. set_solver.
    + rewrite orb_false_r. apply bool_decide_ext. set_solver.
Qed.

(** The aggregator holds the set [X] and its stake. *)
Definition agg_repr (C : Committee) (g : StakeAggregator) (X : gset Authority) : Prop :=
  bits_repr (votes g) X ∧ agg_stake g = stake_of C X.

Lemma aggregator_new_repr C q : agg_repr C (aggregator_new q) ∅.
Proof.
  split; simpl; [|by rewrite stake_of_empty].
  intros a. rewrite N.bits_0. symmetry. apply bool_decide_eq_false_2. set_solver.
Qed.

Lemma aggregator_add_spec C g X a :
  agg_repr C g X → known C a →
  ∃ g', aggregator_add g a C
        = Ok (g', (threshold g <=? stake_of C ({[a]} ∪ X))%N) ∧
        agg_repr C g' ({[a]} ∪ X) ∧ threshold g' = threshold g.
Proof.
  intros [HR Hs] [s Ha]. unfold aggregator_add. rewrite Ha.
  destruct (insert_spec _ _ a HR) as [HR' Hi].
  destruct (AuthoritySet.insert (votes g) a) as [v' i]. simpl in *. subst i.
  assert ((if negb (bool_decide (a ∈ X)) then agg_stake g + s else agg_stake g)%N
          = stake_of C ({[a]} ∪ X)) as HE.
  { case_bool_decide as HX; simpl; [|by rewrite (stake_of_insert _ _ _ s), Hs].
    rewrite Hs. f_equal. set_solver. }
  rewrite HE. eexists. split; [done|]. by split.
Qed.

(** The authors of the items that satisfy [q]. *)
Definition authors_of {A} (author : A → Authority) (q : A → bool) (l : list A) : gset Authority :=
  list_to_set (author <$> filter (λ x, q x = true) l).

Lemma elem_of_authors_of {A} (author : A → Authority) q l a :
  a ∈ authors_of author q l ↔ ∃ x, a = author x ∧ q x = true ∧ x ∈ l.
Proof.
  unfold authors_of. rewrite elem_of_list_to_set, list_elem_of_fmap.
  setoid_rewrite list_elem_of_filter. naive_solver.
Qed.

Lemma authors_of_ext {A} (author : A → Authority) q q' l :
  (∀ x, x ∈ l → q x = q' x) → authors_of author q l = authors_of author q' l.
Proof.
  intros H. apply set_eq. intros a. rewrite !elem_of_authors_of.
  split; intros (x & -> & Hq & Hin); exists x; split_and!; try done; by rewrite <- Hq, H.
Qed.

Lemma authors_of_none {A} (author : A → Authority) q l :
  existsb q l = false → authors_of author q l = ∅.
Proof.
  intros Hex. apply set_eq. intros a. rewrite elem_of_authors_of. split; [|set_solver].
  intros (y & _ & Hy & Hin). exfalso. apply not_true_iff_false in Hex. apply Hex, existsb_exists.
  exists y. by rewrite <- list_elem_of_In.
Qed.

Lemma aggregate_from {A} C (author : A → Authority) p q g X l :
  agg_repr C g X →
  (∀ x, x ∈ l → p x = Ok (if q x : bool then Some (author x) else None)) →
  (∀ x, x ∈ l → q x = true → known C (author x)) →
  aggregate C p g l
  = Ok (existsb q l && (threshold g <=? stake_of C (X ∪ authors_of author q l))%N).
Proof.
  revert g X. induction l as [|x l IH]; intros g X HR Hp Hk; simpl; [done|].
  rewrite Hp by set_solver. simpl. destruct (q x) eqn:Hq; simpl.
  - destruct (aggregator_add_spec C g X (author x) HR) as (g' & -> & HR' & Ht); [set_solver|]. simpl.
    assert (({[author x]} ∪ X) ∪ authors_of author q l = X ∪ authors_of author q (x :: l)) as HE.
    { apply set_eq. intros a. rewrite !elem_of_union, !elem_of_authors_of, elem_of_singleton.
      set_solver. }
    destruct (N.leb_spec (threshold g) (stake_of C ({[author x]} ∪ X))) as [Hle|Hlt].
    + f_equal. symmetry. apply N.leb_le. etrans; [exact Hle|].
      apply stake_of_mono. rewrite <- HE. set_solver.
    + rewrite (IH g' _ HR'), Ht, HE by set_solver.
      f_equal. destruct (existsb q l) eqn:Hex; [done|]. simpl. symmetry. apply N.leb_gt.
      rewrite <- HE, authors_of_none, (right_id_L ∅ (∪)) by done. done.
  - rewrite (IH g X) by set_solver.
    do 4 f_equal. unfold authors_of. by rewrite filter_cons_False by congruence.
Qed.

(** With a positive threshold the loop answers whether the distinct authors
    counted hold that much stake. *)
Lemma aggregate_spec {A} C (author : A → Authority) p q t l :
  (0 < t)%N →
  (∀ x, x ∈ l → p x = Ok (if q x : bool then Some (author x) else None)) →
  (∀ x, x ∈ l → q x = true → known C (author x)) →
  aggregate C p (aggregator_new t) l = Ok (t <=? stake_of C (authors_of author q l))%N.
Proof.
  intros Ht Hp Hk. rewrite (aggregate_from _ author _ q _ ∅) by auto using aggregator_new_repr.
  rewrite (left_id_L ∅ (∪)). simpl. f_equal.
  destruct (existsb q l) eqn:Hex; [done|]. symmetry. apply N.leb_gt.
  by rewrite authors_of_none, stake_of_empty.
Qed.

Lemma aggregate_any_spec {A} C (author : A → Authority) p q t l :
  (0 < t)%N →
  (∀ x, x ∈ l → p x = Ok (q x)) →
  (∀ x, x ∈ l → q x = true → known C (author x)) →
  aggregate_any C author p (aggregator_new t) l
  = Ok (t <=? stake_of C (authors_of author q l))%N.
Proof.
  intros Ht Hp Hk. apply aggregate_spec; [done| |done].
  intros x Hx. by rewrite Hp.
Qed.

(** ** What the constructor establishes *)

Lemma add_stakes_spec acc l t :
  add_stakes acc l = Ok t →
  t = (acc + stake_from 0 l (list_to_set (map N.of_nat (seq 0 (length l)))))%N ∧
  ((acc < u64_limit)%N → (t < u64_limit)%N).
Proof.
  assert (∀ i, add_stakes acc l = Ok t →
    t = (acc + stake_from (N.of_nat i) l (list_to_set (map N.of_nat (seq i (length l)))))%N ∧
    ((acc < u64_limit)%N → (t < u64_limit)%N)) as H; [|by apply (H 0)].
  revert acc. induction l as [|x l IH]; intros acc i; simpl.
  - intros [= ->]. split; [lia|done].
  - destruct (N.ltb_spec (acc + stake x) u64_limit); [|done]. intros E.
    apply (IH _ (S i)) in E as [-> Hb]. split; [|intros _; by apply Hb].
    rewrite decide_True by set_solver. rewrite <- N.add_assoc. do 2 f_equal.
    rewrite Nat2N.inj_succ. apply N.le_antisymm; apply stake_from_mono; intros a; [set_solver|].
    intros [->%elem_of_singleton|?]%elem_of_union; [lia|done].
Qed.

Lemma committee_new_ok l C : committee_new l = Ok C → committee_ok C ∧ committee_authorities C = l.
Proof.
  unfold committee_new. intros H. inv_ok H. split; [|done].
  apply add_stakes_spec in E2 as [-> Hb].
  split; simpl.
  - done.
  - by apply ensure_ok, Nat.leb_le in E1.
  - by apply ensure_ok, negb_true_iff, bool_decide_eq_false in E.
  - apply Hb. unfold u64_limit. lia.
  - apply Forall_forall. intros x Hx%list_elem_of_In. apply N.ltb_lt.
    revert x Hx. apply forallb_forall. by apply ensure_ok in E0.
Qed.

(** A committee has stake. *)
Lemma total_positive C : committee_ok C → (0 < total_stake C)%N.
Proof.
  intros HC. pose proof (ok_nonempty _ HC) as Hne. pose proof (ok_positive _ HC) as Hpos.
  destruct (committee_authorities C) as [|x l] eqn:E; [done|].
  apply Forall_cons in Hpos as [Hx _].
  assert (stake_of C {[0%N]} ≤ total_stake C)%N as Hle by (by apply stake_of_le_total).
  unfold stake_of in Hle. rewrite E in Hle. cbn [stake_from] in Hle.
  rewrite decide_True in Hle by set_solver. lia.
Qed.
