(* ===== verification/DagBlock.v ===== *)
(** * Blocks of the DAG, their digests and the threshold clock

    Models [block/reference.rs], [block.rs] (blocks, genesis, [Block::new],
    [Block::verify]), [crypto.rs] and [crypto/digest.rs] (the three crypto modes,
    content hash, digest) and [core/threshold_clock.rs] of the DAG crate.

    Blake2b and Ed25519 are the class [BlockCrypto]; a [Data<Block>] is its block. *)

From S2P Require Import Prelude Order Committee.
From stdpp Require Import base gmap list strings.
From Stdlib Require Import NArith ZArith Lia.

(** ** [block/reference.rs] *)

Abbreviation BlockDigest := bytes (only parsing).

Record BlockReference := { ref_authority : Authority; ref_round : RoundNumber; ref_digest : BlockDigest }.

#[export] Instance BlockReference_eq_dec : EqDecision BlockReference.
Proof. solve_decision. Defined.
#[export] Instance BlockReference_countable : Countable BlockReference.
Proof.
  apply (inj_countable' (λ r, (ref_authority r, ref_round r, ref_digest r))
           (λ p, {| ref_authority := p.1.1; ref_round := p.1.2; ref_digest := p.2 |})).
  by intros [].
Defined.

Definition author_round (r : BlockReference) : Authority * RoundNumber := (ref_authority r, ref_round r).
Definition author_digest (r : BlockReference) : Authority * BlockDigest := (ref_authority r, ref_digest r).

(** [Ord for BlockReference]: round, authority, digest. *)
Definition reference_leb (a b : BlockReference) : bool :=
  (ref_round a <? ref_round b)%N
  || ((ref_round a =? ref_round b)%N
      && ((ref_authority a <? ref_authority b)%N
          || ((ref_authority a =? ref_authority b)%N && bytes_leb (ref_digest a) (ref_digest b)))).

(** ** [block.rs] *)

Definition GENESIS_ROUND : RoundNumber := 0.

Record Block := {
  reference : BlockReference;
  includes : list BlockReference;
  block_transactions : list bytes;
  timestamp_ns : N;
  block_signature : bytes
}.

#[export] Instance Block_eq_dec : EqDecision Block.
Proof. solve_decision. Defined.

Definition author (b : Block) : Authority := ref_authority (reference b).
Definition round (b : Block) : RoundNumber := ref_round (reference b).
Definition block_digest (b : Block) : BlockDigest := ref_digest (reference b).

(** [PartialEq for Block] compares references only. *)
Definition block_eqb (a b : Block) : bool := bool_decide (reference a = reference b).

(** ** [crypto/digest.rs] *)

(** [u64::to_be_bytes] *)
Definition to_be_bytes (n : N) : bytes :=
  map (λ i, Z.of_N (N.land (N.shiftr n (8 * N.of_nat (7 - i))) 255)) (seq 0 8).

Definition GOLDEN_RATIO_MIXER : N := 0x9E3779B97F4A7C15.

Definition synthetic (r : RoundNumber) (a : Authority) : BlockDigest :=
  let mixed := N.lxor ((r * GOLDEN_RATIO_MIXER) mod u64_limit) a in
  to_be_bytes mixed ++ replicate 24 0%Z.

Definition dummy_signature : bytes := replicate 64 0%Z.

Class BlockCrypto := {
  blake2b256 : bytes → bytes;
  ed25519_sign : bytes → bytes → bytes;
  ed25519_verify : bytes → bytes → bytes → bool
}.

Inductive CryptoMode := Enabled | Disabled | Simulated.

Record CryptoEngine := { signer : bytes; mode : CryptoMode }.

Section Crypto.
Context `{BlockCrypto}.

(** The bytes [BlockDigest::new] feeds to the hasher. *)
Definition reference_image (r : BlockReference) : bytes :=
  to_be_bytes (ref_authority r) ++ to_be_bytes (ref_round r) ++ ref_digest r.
Definition transaction_image (tx : bytes) : bytes := to_be_bytes (N.of_nat (length tx)) ++ tx.
Definition content_image (a : Authority) (r : RoundNumber) (incs : list BlockReference)
    (txs : list bytes) (ts : N) : bytes :=
  to_be_bytes a ++ to_be_bytes r ++ concat (map reference_image incs)
  ++ concat (map transaction_image txs) ++ to_be_bytes ts.

Definition digest_new (a : Authority) (r : RoundNumber) (incs : list BlockReference)
    (txs : list bytes) (ts : N) : BlockDigest := blake2b256 (content_image a r incs txs ts).
Definition with_signature (content sig : bytes) : BlockDigest := blake2b256 (content ++ sig).

(** [CryptoEngine::sign] *)
Definition crypto_sign (e : CryptoEngine) (a : Authority) (r : RoundNumber)
    (incs : list BlockReference) (txs : list bytes) (ts : N) : bytes * BlockDigest :=
  match mode e with
  | Enabled =>
      let content_hash := digest_new a r incs txs ts in
      let sig := ed25519_sign (signer e) content_hash in
      (sig, with_signature content_hash sig)
  | _ => (dummy_signature, synthetic r a)
  end.

(** [CryptoVerifier::verify] *)
Definition crypto_verify (md : CryptoMode) (pk : bytes) (b : Block) : result BlockDigest :=
  match md with
  | Disabled => Ok (synthetic (round b) (author b))
  | Simulated => Ok (block_digest b)
  | Enabled =>
      let digest := digest_new (author b) (round b) (includes b) (block_transactions b) (timestamp_ns b) in
      let? _ := ensure (ed25519_verify pk (block_signature b) digest) "Signature verification failed" in
      Ok (with_signature digest (block_signature b))
  end.

Definition block_genesis (a : Authority) : Block :=
  {| reference := {| ref_authority := a; ref_round := GENESIS_ROUND;
                     ref_digest := synthetic GENESIS_ROUND a |};
     includes := []; block_transactions := []; timestamp_ns := 0; block_signature := dummy_signature |}.

Definition block_new (a : Authority) (r : RoundNumber) (incs : list BlockReference)
    (txs : list bytes) (ts : N) (e : CryptoEngine) : Block :=
  let '(sig, digest) := crypto_sign e a r incs txs ts in
  {| reference := {| ref_authority := a; ref_round := r; ref_digest := digest |};
     includes := incs; block_transactions := txs; timestamp_ns := ts; block_signature := sig |}.

(** ** [core/threshold_clock.rs] *)

(** [is_quorum = aggregator.add(..)] for every include of the previous round. *)
Fixpoint quorum_loop (C : Committee) (prev : RoundNumber) (g : StakeAggregator) (is_quorum : bool)
    (incs : list BlockReference) : result bool :=
  match incs with
  | [] => Ok is_quorum
  | i :: incs =>
      if (ref_round i =? prev)%N then
        let? ' (g', q) := aggregator_add g (ref_authority i) C in quorum_loop C prev g' q incs
      else quorum_loop C prev g is_quorum incs
  end.

Definition threshold_clock_valid_non_genesis (b : Block) (C : Committee) (quorum_threshold : Stake) :
    result bool :=
  let round_number := round b in
  let? _ := ensure (0 <? round_number)%N "assert: round_number > 0" in
  if existsb (λ i, (round b <=? ref_round i)%N) (includes b) then Ok false else
  quorum_loop C (round_number - 1) (aggregator_new quorum_threshold) false (includes b).

Record ThresholdClockAggregator := {
  clock_aggregator : StakeAggregator; clock_quorum : Stake; clock_round : RoundNumber
}.

Definition clock_new (r : RoundNumber) (quorum_threshold : Stake) : ThresholdClockAggregator :=
  {| clock_aggregator := aggregator_new quorum_threshold; clock_quorum := quorum_threshold;
     clock_round := r |}.

Definition clock_add_block (t : ThresholdClockAggregator) (b : BlockReference) (C : Committee) :
    result ThresholdClockAggregator :=
  let? t' :=
    match (ref_round b ?= clock_round t)%N with
    | Lt => Ok t
    | Gt =>
        let? ' (g, _) := aggregator_add (aggregator_new (clock_quorum t)) (ref_authority b) C in
        Ok {| clock_aggregator := g; clock_quorum := clock_quorum t; clock_round := ref_round b |}
    | Eq =>
        let? ' (g, reached) := aggregator_add (clock_aggregator t) (ref_authority b) C in
        if reached : bool then
          Ok {| clock_aggregator := aggregator_new (clock_quorum t); clock_quorum := clock_quorum t;
                clock_round := ref_round b + 1 |}
        else
          Ok {| clock_aggregator := g; clock_quorum := clock_quorum t; clock_round := clock_round t |}
    end in
  if (clock_round t' <? ref_round b)%N then
    Ok {| clock_aggregator := clock_aggregator t'; clock_quorum := clock_quorum t';
          clock_round := ref_round b |}
  else Ok t'.

(** ** [Block::verify] *)

Fixpoint check_includes (C : Committee) (r : RoundNumber) (incs : list BlockReference) : result unit :=
  match incs with
  | [] => Ok tt
  | i :: incs =>
      let? _ := ensure (known_authority C (ref_authority i)) "Include references unknown authority" in
      let? _ := ensure (ref_round i <? r)%N "Include round is >= own round" in
      check_includes C r incs
  end.

Definition block_verify (b : Block) (C : Committee) (quorum_threshold : Stake) (md : CryptoMode) :
    result unit :=
  let? _ := ensure (negb (round b =? GENESIS_ROUND)%N) "Genesis blocks cannot be verified" in
  match get_public_key C (author b) with
  | None => Err "Unknown block author"
  | Some pk =>
      let? expected := crypto_verify md pk b in
      let? _ := ensure (bool_decide (expected = block_digest b)) "Digest mismatch" in
      let? _ := check_includes C (round b) (includes b) in
      let? valid := threshold_clock_valid_non_genesis b C quorum_threshold in
      ensure valid "Threshold clock is not valid"
  end.
End Crypto.

(** ** What a verified block satisfies *)

(** The authors of the included blocks of round [r]. *)
Definition parents_at (b : Block) (r : RoundNumber) : gset Authority :=
  authors_of ref_authority (λ i, (ref_round i =? r)%N) (includes b).

(** Structure of a block: earlier includes by known authorities, and after
    genesis a quorum of the previous round. *)
Record well_formed (C : Committee) (q : Stake) (b : Block) : Prop := {
  wf_author : known C (author b);
  wf_includes : ∀ i, i ∈ includes b → known C (ref_authority i) ∧ (ref_round i < round b)%N;
  wf_quorum : (0 < round b)%N → (q ≤ stake_of C (parents_at b (round b - 1)))%N
}.

Lemma quorum_loop_spec C prev g X q0 incs :
  agg_repr C g X →
  (∀ i, i ∈ incs → known C (ref_authority i)) →
  quorum_loop C prev g q0 incs
  = Ok (if existsb (λ i, (ref_round i =? prev)%N) incs
        then (threshold g <=? stake_of C (X ∪ authors_of ref_authority (λ i, (ref_round i =? prev)%N) incs))%N
        else q0).
Proof.
  revert g X q0. induction incs as [|i incs IH]; intros g X q0 HR Hk; simpl; [done|].
  destruct (ref_round i =? prev)%N eqn:Hi; simpl.
  - destruct (aggregator_add_spec C g X (ref_authority i) HR) as (g' & -> & HR' & Ht); [set_solver|].
    simpl. rewrite (IH _ _ _ HR'), Ht by set_solver. f_equal.
    assert (authors_of ref_authority (λ i, (ref_round i =? prev)%N) (i :: incs)
            = {[ref_authority i]} ∪ authors_of ref_authority (λ i, (ref_round i =? prev)%N) incs) as HE.
    { unfold authors_of. by rewrite filter_cons_True. }
    rewrite HE. destruct (existsb _ incs) eqn:Hex.
    + do 2 f_equal. set_solver.
    + rewrite (authors_of_none _ _ incs), (right_id_L ∅ (∪)) by done. do 2 f_equal. set_solver.
  - rewrite (IH _ _ _ HR) by set_solver.
    assert (authors_of ref_authority (λ i, (ref_round i =? prev)%N) (i :: incs)
            = authors_of ref_authority (λ i, (ref_round i =? prev)%N) incs) as ->; [|done].
    unfold authors_of. by rewrite filter_cons_False by congruence.
Qed.

Lemma threshold_clock_valid_spec b C q :
  (0 < round b)%N → (0 < q)%N →
  (∀ i, i ∈ includes b → known C (ref_authority i)) →
  (∀ i, i ∈ includes b → (ref_round i < round b)%N) →
  threshold_clock_valid_non_genesis b C q = Ok (q <=? stake_of C (parents_at b (round b - 1)))%N.
Proof.
  intros Hr Hq Hk Hlt. unfold threshold_clock_valid_non_genesis.
  rewrite (proj2 (N.ltb_lt _ _)) by done. simpl.
  destruct (existsb (λ i, (round b <=? ref_round i)%N) (includes b)) eqn:Hex.
  { apply existsb_exists in Hex as (i & Hi%list_elem_of_In & ?%N.leb_le). apply Hlt in Hi. lia. }
  rewrite (quorum_loop_spec _ _ _ ∅) by auto using aggregator_new_repr.
  rewrite (left_id_L ∅ (∪)). simpl. unfold parents_at. case_match eqn:Hex'; [done|].
  rewrite authors_of_none, stake_of_empty by done. f_equal. symmetry. by apply N.leb_gt.
Qed.

Lemma check_includes_spec C r incs :
  check_includes C r incs = Ok tt ↔
  (∀ i, i ∈ incs → known C (ref_authority i) ∧ (ref_round i < r)%N).
Proof.
  induction incs as [|i incs IH]; simpl; [set_solver|].
  rewrite result_bind_ok. setoid_rewrite result_bind_ok.
  setoid_rewrite ensure_ok. setoid_rewrite IH. setoid_rewrite known_authority_iff.
  setoid_rewrite N.ltb_lt. set_unfold. split; [naive_solver|].
  intros Hall. exists tt. split; [naive_solver|]. exists tt. naive_solver.
Qed.

(** [Block::verify] accepts exactly the well-formed blocks of known authors
    whose signature checks and whose digest is the recomputed one. *)
Lemma block_verify_ok `{BlockCrypto} b C q md :
  (0 < q)%N →
  block_verify b C q md = Ok tt ↔
  (0 < round b)%N ∧ well_formed C q b ∧
  ∃ pk, get_public_key C (author b) = Some pk ∧ crypto_verify md pk b = Ok (block_digest b).
Proof.
  intros Hq. unfold block_verify, GENESIS_ROUND.
  assert (∀ pk, get_public_key C (author b) = Some pk → known C (author b)) as Hknown.
  { intros pk. unfold get_public_key, known, get_stake. intros (x & -> & _)%fmap_Some. by eexists. }
  split.
  - intros Hv. inv_ok Hv. apply ensure_ok, negb_true_iff, N.eqb_neq in E.
    destruct (get_public_key C (author b)) as [pk|] eqn:Hpk; [|done]. inv_ok Hv.
    apply ensure_ok, bool_decide_eq_true in E1 as ->.
    destruct a2. rewrite check_includes_spec in E2.
    rewrite threshold_clock_valid_spec in E3 by (lia || naive_solver). injection E3 as Ht%N.leb_le.
    split; [lia|]. split; [split|]; eauto.
  - intros (Hr & [Ha Hi Hqu] & pk & Hpk & Hv).
    rewrite (proj2 (N.eqb_neq _ _)) by lia. simpl. rewrite Hpk, Hv. simpl.
    rewrite bool_decide_eq_true_2 by done. simpl.
    rewrite (proj2 (check_includes_spec _ _ _)) by done. simpl.
    rewrite threshold_clock_valid_spec by naive_solver. simpl.
    rewrite (proj2 (N.leb_le _ _)) by auto. done.
Qed.

(** What a validator signs verifies under its key. *)
Lemma block_new_verifies `{BlockCrypto} a r incs txs ts e pk :
  (∀ m, ed25519_verify pk (ed25519_sign (signer e) m) m = true) → mode e ≠ Simulated →
  crypto_verify (mode e) pk (block_new a r incs txs ts e)
  = Ok (block_digest (block_new a r incs txs ts e)).
Proof.
  intros Hkey Hsim. unfold block_new, crypto_sign. destruct (mode e); [|done|done].
  cbn. by rewrite Hkey.
Qed.
