(* ===== verification/DagStore.v ===== *)
(** * The block store and the write-ahead log

    Models [storage/block_store.rs] ([BlockStore], own-block index, unloading),
    [storage/reader.rs] ([BlockReader], [linked], replay of the log),
    [storage/state.rs] ([RecoveredStateBuilder]) and [storage.rs] ([Storage]).

    The log holds typed entries and a position is the index of an entry: the code
    uses byte offsets, of which only the order matters. The [Arc<RwLock<BlockStore>>]
    the reader, the block manager and the committer share is the one [Storage]
    value threaded through them.

    [BlockReader] is the interface the clients see: the operations may iterate in
    any order (a [HashMap] sits below) and are specified by [ReaderLaws] against
    the set of blocks held, the view. *)

From S2P Require Import Prelude Order Committee DagBlock.
From stdpp Require Import base gmap list strings.
From Stdlib Require Import NArith ZArith Lia.

(** ** The log *)

Abbreviation WalPosition := N.
Definition WAL_MAX : WalPosition := u64_limit - 1.

Record OwnBlockData := { next_entry : WalPosition; own_block : Block }.
Record CommitData := { commit_leader : BlockReference; commit_sub_dag : list BlockReference }.

(** The tags [WAL_ENTRY_*] with their payloads. *)
Inductive WalEntry :=
| WalBlock (b : Block)
| WalPayload (txs : list bytes)
| WalOwnBlock (d : OwnBlockData)
| WalState
| WalCommit (commits : list CommitData).

Inductive MetaStatement := Include (r : BlockReference) | Payload (txs : list bytes).

(** ** [BlockStore] *)

Inductive IndexEntry := InWal (position : WalPosition) | Loaded (position : WalPosition) (b : Block).

Record BlockStore := {
  index : gmap RoundNumber (gmap (Authority * BlockDigest) IndexEntry);
  own_blocks : gmap RoundNumber BlockDigest;
  highest_round : RoundNumber;
  store_authority : Authority;
  last_seen_by_authority : list RoundNumber;
  store_last_own_block : option BlockReference
}.

Record Storage := { wal : list WalEntry; store : BlockStore }.

Definition store_new (a : Authority) (C : Committee) : BlockStore :=
  {| index := ∅; own_blocks := ∅; highest_round := 0; store_authority := a;
     last_seen_by_authority := map (λ _, 0%N) (authorities C); store_last_own_block := None |}.

(** [self.index.get(&round)], with an absent round as an empty map. *)
Definition blocks_at (s : BlockStore) (r : RoundNumber) : gmap (Authority * BlockDigest) IndexEntry :=
  default ∅ (index s !! r).

Definition store_block_exists (s : BlockStore) (r : BlockReference) : bool :=
  bool_decide (is_Some (blocks_at s (ref_round r) !! author_digest r)).

Definition block_exists_at_authority_round (s : BlockStore) (a : Authority) (r : RoundNumber) : bool :=
  existsb (λ k, bool_decide (k.1 = a)) (map fst (map_to_list (blocks_at s r))).

(** Without any block at the round the answer is [false], even for no authority. *)
Definition all_blocks_exists_at_authority_round (s : BlockStore) (l : list Authority)
    (r : RoundNumber) : bool :=
  match index s !! r with
  | None => false
  | Some _ => forallb (λ a, block_exists_at_authority_round s a r) l
  end.

Definition store_get_blocks_at_authority_round (s : BlockStore) (a : Authority) (r : RoundNumber) :
    list IndexEntry :=
  map snd (filter (λ ke, ke.1.1 = a) (map_to_list (blocks_at s r))).

Definition store_get_blocks_by_round (s : BlockStore) (r : RoundNumber) : list IndexEntry :=
  map snd (map_to_list (blocks_at s r)).

Definition store_get_block (s : BlockStore) (r : BlockReference) : option IndexEntry :=
  blocks_at s (ref_round r) !! author_digest r.

Definition unload_entry (e : IndexEntry) : IndexEntry :=
  match e with InWal p => InWal p | Loaded p _ => InWal p end.

Definition set_index (i : gmap RoundNumber (gmap (Authority * BlockDigest) IndexEntry))
    (s : BlockStore) : BlockStore :=
  {| index := i; own_blocks := own_blocks s; highest_round := highest_round s;
     store_authority := store_authority s; last_seen_by_authority := last_seen_by_authority s;
     store_last_own_block := store_last_own_block s |}.

Definition unload_below_round (threshold_round : RoundNumber) (s : BlockStore) : BlockStore :=
  set_index (map_imap (λ r m, Some (if (threshold_round <? r)%N then m else fmap (M := gmap (Authority * BlockDigest)) unload_entry m))
               (index s)) s.

Definition add_own_index (r : BlockReference) (s : BlockStore) : BlockStore :=
  if negb (ref_authority r =? store_authority s)%N then s else
  {| index := index s;
     own_blocks := match own_blocks s !! ref_round r with
                   | None => <[ref_round r := ref_digest r]> (own_blocks s)
                   | Some _ => own_blocks s
                   end;
     highest_round := highest_round s; store_authority := store_authority s;
     last_seen_by_authority := last_seen_by_authority s;
     store_last_own_block :=
       if (from_option ref_round 0 (store_last_own_block s) <? ref_round r)%N then Some r
       else store_last_own_block s |}.

Definition update_last_seen_by_authority (r : BlockReference) (s : BlockStore) : result BlockStore :=
  match last_seen_by_authority s !! N.to_nat (ref_authority r) with
  | None => Err "last_seen_by_authority not found"
  | Some seen =>
      Ok {| index := index s; own_blocks := own_blocks s; highest_round := highest_round s;
            store_authority := store_authority s;
            last_seen_by_authority :=
              if (seen <? ref_round r)%N
              then <[N.to_nat (ref_authority r) := ref_round r]> (last_seen_by_authority s)
              else last_seen_by_authority s;
            store_last_own_block := store_last_own_block s |}
  end.

Definition raise_highest (r : RoundNumber) (s : BlockStore) : BlockStore :=
  {| index := index s; own_blocks := own_blocks s; highest_round := N.max (highest_round s) r;
     store_authority := store_authority s; last_seen_by_authority := last_seen_by_authority s;
     store_last_own_block := store_last_own_block s |}.

Definition index_insert (r : BlockReference) (e : IndexEntry) (s : BlockStore) : BlockStore :=
  set_index (<[ref_round r := <[author_digest r := e]> (blocks_at s (ref_round r))]> (index s)) s.

Definition add_unloaded (r : BlockReference) (position : WalPosition) (s : BlockStore) :
    result BlockStore :=
  let s1 := index_insert r (InWal position) (raise_highest (ref_round r) s) in
  update_last_seen_by_authority r (add_own_index r s1).

Definition add_loaded (position : WalPosition) (b : Block) (s : BlockStore) : result BlockStore :=
  let s1 := add_own_index (reference b) (raise_highest (round b) s) in
  let? s2 := update_last_seen_by_authority (reference b) s1 in
  Ok (index_insert (reference b) (Loaded position b) s2).

Definition store_last_seen (s : BlockStore) (a : Authority) : result RoundNumber :=
  match last_seen_by_authority s !! N.to_nat a with
  | None => Err "last_seen_by_authority not found"
  | Some r => Ok r
  end.

(** The entries of a [BTreeMap] keyed by round, in order. *)
Definition by_round {A} (m : gmap RoundNumber A) : list (RoundNumber * A) :=
  sort_by (λ a b, (a.1 <=? b.1)%N) (map_to_list m).

Definition expect_entry (s : BlockStore) (r : BlockReference) : result IndexEntry :=
  match store_get_block s r with Some e => Ok e | None => Err "Block index corrupted" end.

Fixpoint map_result {A B} (f : A → result B) (l : list A) : result (list B) :=
  match l with
  | [] => Ok []
  | x :: l => let? y := f x in let? ys := map_result f l in Ok (y :: ys)
  end.

Definition store_get_own_blocks (s : BlockStore) (from_excluded : RoundNumber) (limit : nat) :
    result (list IndexEntry) :=
  map_result (λ rd, expect_entry s {| ref_authority := store_authority s; ref_round := rd.1;
                                      ref_digest := rd.2 |})
    (take limit (filter (λ rd, (from_excluded + 1 ≤ rd.1)%N) (by_round (own_blocks s)))).

(** The limit counts rounds. *)
Definition store_get_others_blocks (s : BlockStore) (from_excluded : RoundNumber) (a : Authority)
    (limit : nat) : result (list IndexEntry) :=
  map_result (expect_entry s)
    (concat (map (λ rm, map (λ k, {| ref_authority := k.1; ref_round := rm.1; ref_digest := k.2 |})
                          (filter (λ k, k.1 = a) (map fst (map_to_list rm.2))))
       (take limit (filter (λ rm, (from_excluded + 1 ≤ rm.1)%N) (by_round (index s)))))).

(** ** [BlockReader] *)

Definition read_index (w : list WalEntry) (e : IndexEntry) : result Block :=
  match e with
  | Loaded _ b => Ok b
  | InWal p =>
      match w !! N.to_nat p with
      | None => Err "Failed to read wal"
      | Some (WalBlock b) => Ok b
      | Some (WalOwnBlock d) => Ok (own_block d)
      | Some _ => Err "Trying to load index entry"
      end
  end.

Definition st_get_block (st : Storage) (r : BlockReference) : result (option Block) :=
  match store_get_block (store st) r with
  | None => Ok None
  | Some e => let? b := read_index (wal st) e in Ok (Some b)
  end.
Definition st_get_blocks_by_round (st : Storage) (r : RoundNumber) : result (list Block) :=
  map_result (read_index (wal st)) (store_get_blocks_by_round (store st) r).
Definition st_get_blocks_at_authority_round (st : Storage) (a : Authority) (r : RoundNumber) :
    result (list Block) :=
  map_result (read_index (wal st)) (store_get_blocks_at_authority_round (store st) a r).
Definition st_get_own_blocks (st : Storage) (from_excluded : RoundNumber) (limit : nat) :
    result (list Block) :=
  let? l := store_get_own_blocks (store st) from_excluded limit in map_result (read_index (wal st)) l.
Definition st_get_others_blocks (st : Storage) (from_excluded : RoundNumber) (a : Authority)
    (limit : nat) : result (list Block) :=
  let? l := store_get_others_blocks (store st) from_excluded a limit in
  map_result (read_index (wal st)) l.

(** The newest own blocks, oldest first. *)
Definition get_latest_own_blocks (st : Storage) (limit : nat) : result (list Block) :=
  if decide (limit = 0) then Ok [] else
  let? l := map_result (λ rd, expect_entry (store st)
              {| ref_authority := store_authority (store st); ref_round := rd.1; ref_digest := rd.2 |})
              (take limit (reverse (by_round (own_blocks (store st))))) in
  map_result (read_index (wal st)) (reverse l).

Definition cleanup_store (threshold_round : RoundNumber) (st : Storage) : Storage :=
  if (threshold_round =? 0)%N then st
  else {| wal := wal st; store := unload_below_round threshold_round (store st) |}.

(** What the committers, the linearizer and the block manager read. *)
Record BlockReader := {
  get_block : BlockReference → result (option Block);
  get_blocks_by_round : RoundNumber → result (list Block);
  get_blocks_at_authority_round : Authority → RoundNumber → result (list Block);
  reader_highest_round : RoundNumber
}.

Definition block_reader (st : Storage) : BlockReader :=
  {| get_block := st_get_block st;
     get_blocks_by_round := st_get_blocks_by_round st;
     get_blocks_at_authority_round := st_get_blocks_at_authority_round st;
     reader_highest_round := highest_round (store st) |}.

(** [(lo..hi).rev()] *)
Definition rounds_down (lo hi : RoundNumber) : list RoundNumber :=
  reverse (map N.of_nat (seq (N.to_nat lo) (N.to_nat (hi - lo)))).

Definition includes_block (b x : Block) : bool := bool_decide (reference b ∈ includes x).

Fixpoint link_down (R : BlockReader) (parents : list Block) (rounds : list RoundNumber) :
    result (list Block) :=
  match rounds with
  | [] => Ok parents
  | r :: rounds =>
      let? blocks := get_blocks_by_round R r in
      link_down R (filter (λ b, existsb (includes_block b) parents = true) blocks) rounds
  end.

(** Is [earlier] an ancestor of [later]? The walk goes round by round. *)
Definition linked (R : BlockReader) (later earlier : Block) : result bool :=
  let? parents := link_down R [later] (rounds_down (round earlier) (round later)) in
  Ok (existsb (block_eqb earlier) parents).

(** ** [Storage] *)

(** [WalWriter::writev] on an entry within [MAX_ENTRY_SIZE]: the file layout, the
    I/O errors and the assertion that an entry fits into one 256 MB map are
    outside the model.  [try_new_block] checks its own blocks against half of that
    size; nothing checks received blocks, batches of payload or commit records. *)
Definition wal_write (e : WalEntry) (st : Storage) : Storage * WalPosition :=
  ({| wal := wal st ++ [e]; store := store st |}, N.of_nat (length (wal st))).

Definition write_payload (txs : list bytes) (st : Storage) : Storage * WalPosition :=
  wal_write (WalPayload txs) st.
Definition write_commits (commits : list CommitData) (st : Storage) : Storage :=
  (wal_write (WalCommit commits) st).1.

Definition insert_block (b : Block) (st : Storage) : result (Storage * WalPosition) :=
  let '(st1, pos) := wal_write (WalBlock b) st in
  let? s := add_loaded pos b (store st1) in
  Ok ({| wal := wal st1; store := s |}, pos).

Definition insert_own_block (d : OwnBlockData) (st : Storage) : result Storage :=
  let '(st1, pos) := wal_write (WalOwnBlock d) st in
  let? s := add_loaded pos (own_block d) (store st1) in
  Ok {| wal := wal st1; store := s |}.

(** [Storage::iter_commits] *)
Definition iter_commits (st : Storage) : list CommitData :=
  concat (map (λ e, match e with WalCommit l => l | _ => [] end) (wal st)).

(** ** Recovery: [BlockReader::open], [RecoveredStateBuilder] *)

Record RecoveredState := {
  rec_last_own_block : option OwnBlockData;
  rec_pending : list (WalPosition * MetaStatement);
  unprocessed_blocks : list Block;
  last_committed_leader : option BlockReference;
  committed_blocks : gset BlockReference
}.

Definition recovered_empty : RecoveredState :=
  {| rec_last_own_block := None; rec_pending := []; unprocessed_blocks := [];
     last_committed_leader := None; committed_blocks := ∅ |}.

(** The builder's [BTreeMap<WalPosition, _>] is filled in increasing position,
    so it is the list in that order. *)
Definition recover_entry (pos : WalPosition) (e : WalEntry) (r : RecoveredState) : RecoveredState :=
  match e with
  | WalBlock b =>
      {| rec_last_own_block := rec_last_own_block r;
         rec_pending := rec_pending r ++ [(pos, Include (reference b))];
         unprocessed_blocks := unprocessed_blocks r ++ [b];
         last_committed_leader := last_committed_leader r; committed_blocks := committed_blocks r |}
  | WalPayload txs =>
      {| rec_last_own_block := rec_last_own_block r;
         rec_pending := rec_pending r ++ [(pos, Payload txs)];
         unprocessed_blocks := unprocessed_blocks r;
         last_committed_leader := last_committed_leader r; committed_blocks := committed_blocks r |}
  | WalOwnBlock d =>
      {| rec_last_own_block := Some d;
         rec_pending := filter (λ ps, (next_entry d ≤ ps.1)%N) (rec_pending r);
         unprocessed_blocks := unprocessed_blocks r ++ [own_block d];
         last_committed_leader := last_committed_leader r; committed_blocks := committed_blocks r |}
  | WalState => r
  | WalCommit commits =>
      {| rec_last_own_block := rec_last_own_block r; rec_pending := rec_pending r;
         unprocessed_blocks := unprocessed_blocks r;
         last_committed_leader :=
           fold_left (λ _ c, Some (commit_leader c)) commits (last_committed_leader r);
         committed_blocks :=
           fold_left (λ s c, s ∪ list_to_set (commit_sub_dag c)) commits (committed_blocks r) |}
  end.

Definition recover_store (pos : WalPosition) (e : WalEntry) (s : BlockStore) : result BlockStore :=
  match e with
  | WalBlock b => add_unloaded (reference b) pos s
  | WalOwnBlock d => add_unloaded (reference (own_block d)) pos s
  | _ => Ok s
  end.

Fixpoint replay (pos : WalPosition) (w : list WalEntry) (acc : BlockStore * RecoveredState) :
    result (BlockStore * RecoveredState) :=
  match w with
  | [] => Ok acc
  | e :: w =>
      let? s := recover_store pos e acc.1 in
      replay (pos + 1) w (s, recover_entry pos e acc.2)
  end.

(** [Storage::open] on an existing log. *)
Definition storage_open (a : Authority) (C : Committee) (w : list WalEntry) :
    result (Storage * RecoveredState) :=
  let? ' (s, r) := replay 0 w (store_new a C, recovered_empty) in
  Ok ({| wal := w; store := s |}, r).

(** ** The interface *)

(** [R] reads the blocks of the view [V], in any order. *)
Class ReaderLaws (R : BlockReader) (V : gmap BlockReference Block) : Prop := {
  law_keys : ∀ r b, V !! r = Some b → reference b = r;
  law_get : ∀ r, get_block R r = Ok (V !! r);
  law_round : ∀ n, ∃ l, get_blocks_by_round R n = Ok l ∧ NoDup l ∧
    ∀ b, b ∈ l ↔ V !! reference b = Some b ∧ round b = n;
  law_authority : ∀ a n, ∃ l, get_blocks_at_authority_round R a n = Ok l ∧ NoDup l ∧
    ∀ b, b ∈ l ↔ V !! reference b = Some b ∧ author b = a ∧ round b = n;
  law_highest : ∀ r b, V !! r = Some b → (round b ≤ reader_highest_round R)%N;
  law_highest_attained : reader_highest_round R = 0%N ∨
    ∃ r, is_Some (V !! r) ∧ ref_round r = reader_highest_round R
}.

(** The blocks a log holds. *)
Definition wal_block (e : WalEntry) : option Block :=
  match e with WalBlock b => Some b | WalOwnBlock d => Some (own_block d) | _ => None end.

Definition wal_view_step (V : gmap BlockReference Block) (e : WalEntry) : gmap BlockReference Block :=
  match wal_block e with Some b => <[reference b := b]> V | None => V end.
Definition wal_view (w : list WalEntry) : gmap BlockReference Block := fold_left wal_view_step w ∅.

(** The store indexes exactly the blocks of the view, each readable. *)
Record store_repr (st : Storage) (V : gmap BlockReference Block) : Prop := {
  repr_keys : ∀ r b, V !! r = Some b → reference b = r;
  repr_get : ∀ r, match store_get_block (store st) r with
                  | None => V !! r = None
                  | Some e => ∃ b, read_index (wal st) e = Ok b ∧
                      read_index (wal st) (unload_entry e) = Ok b ∧ V !! r = Some b
                  end;
  repr_highest : ∀ r b, V !! r = Some b → (round b ≤ highest_round (store st))%N;
  repr_highest_attained : highest_round (store st) = 0%N ∨
    ∃ r, is_Some (V !! r) ∧ ref_round r = highest_round (store st)
}.

(** The invariant of a [Storage]: it shows what its log holds. *)
Record storage_ok (C : Committee) (st : Storage) : Prop := {
  sto_repr : store_repr st (wal_view (wal st));
  sto_seen : length (last_seen_by_authority (store st)) = length (committee_authorities C);
  sto_known : Forall (λ e, ∀ b, wal_block e = Some b → known C (author b)) (wal st)
}.
