(* ===== verification/DagStoreTheorems.v ===== *)
(** * The block store shows exactly what its log holds

    The reader of a [Storage] satisfies [ReaderLaws] for the blocks of its log;
    every write keeps the invariant, unloading is invisible, and reopening the log
    restores the same view, own block and commits. *)

From S2P Require Import Prelude Order Committee DagBlock DagStore.
From stdpp Require Import base gmap list strings.
From Stdlib Require Import NArith ZArith Lia.

Lemma known_lookup {A} C a (l : list A) :
  length l = length (committee_authorities C) → known C a ↔ is_Some (l !! N.to_nat a).
Proof.
  intros Hl. unfold known, get_stake. rewrite fmap_is_Some, !lookup_lt_is_Some, Hl. done.
Qed.

Lemma map_result_ok {A B} (f : A → result B) (l : list A) (P : A → B → Prop) :
  (∀ x, x ∈ l → ∃ y, f x = Ok y ∧ P x y) → ∃ ys, map_result f l = Ok ys ∧ Forall2 P l ys.
Proof.
  induction l as [|x l IH]; intros H; simpl; [by exists []|].
  destruct (H x) as (y & -> & Hy); [set_solver|]. simpl.
  destruct IH as (ys & -> & Hys); [set_solver|]. exists (y :: ys). by split; [|constructor].
Qed.

(** ** The laws *)

Section Laws.
Context (st : Storage) (V : gmap BlockReference Block) (HV : store_repr st V).

Lemma st_get_block_spec r : st_get_block st r = Ok (V !! r).
Proof.
  unfold st_get_block. pose proof (repr_get _ _ HV r) as H.
  destruct (store_get_block (store st) r); [|by rewrite H].
  destruct H as (b & -> & _ & ->). done.
Qed.

(** Reading the entries of one round. *)
Definition entry_is (n : RoundNumber) (ke : Authority * BlockDigest * IndexEntry) (b : Block) : Prop :=
  read_index (wal st) ke.2 = Ok b ∧ reference b = {| ref_authority := ke.1.1; ref_round := n; ref_digest := ke.1.2 |} ∧
  V !! reference b = Some b.

Lemma entry_readable n ke :
  blocks_at (store st) n !! ke.1 = Some ke.2 → ∃ b, entry_is n ke b.
Proof.
  destruct ke as [[a d] e]. simpl. intros Hl.
  pose proof (repr_get _ _ HV {| ref_authority := a; ref_round := n; ref_digest := d |}) as H.
  unfold store_get_block, author_digest in H. simpl in H. rewrite Hl in H. destruct H as (b & Hb & _ & Hv).
  pose proof (repr_keys _ _ HV _ _ Hv) as Hr. exists b. unfold entry_is. simpl. by rewrite Hr.
Qed.

Lemma read_entries n (l : list (Authority * BlockDigest * IndexEntry)) :
  NoDup (map fst l) →
  (∀ ke, ke ∈ l → blocks_at (store st) n !! ke.1 = Some ke.2) →
  ∃ bs, map_result (read_index (wal st)) (map snd l) = Ok bs ∧ NoDup bs ∧
    ∀ b, b ∈ bs ↔ V !! reference b = Some b ∧ round b = n ∧ author_digest (reference b) ∈ map fst l.
Proof.
  induction l as [|ke l IH]; intros Hnd Hl; simpl.
  { exists []. split_and!; [done|constructor|]. intros b. set_solver. }
  inversion Hnd as [|x y Hk Hnd']; subst.
  destruct (entry_readable n ke) as (b0 & Hr0 & Href0 & Hv0); [set_solver|].
  rewrite Hr0. simpl. destruct IH as (bs & -> & Hnd2 & Hbs); [done|set_solver|]. simpl.
  assert (author_digest (reference b0) = ke.1) as Had by (rewrite Href0; by destruct ke as [[]]).
  exists (b0 :: bs). split_and!; [done| |].
  - constructor; [|done]. rewrite Hbs. intros (_ & _ & Hin). rewrite Had in Hin. done.
  - intros b. rewrite !elem_of_cons, Hbs. split.
    + intros [->|(? & ? & ?)]; [|auto]. rewrite Had. split_and!; [done| |auto].
      unfold round. by rewrite Href0.
    + intros (Hv & Hn & [Hin|Hin]); [|auto]. left.
      assert (reference b = reference b0) as Heq.
      { rewrite Href0. destruct b as [[a r d] ? ? ? ?], ke as [[]]. unfold round, author_digest in *.
        simpl in *. congruence. }
      rewrite Heq, Hv0 in Hv. congruence.
Qed.

Lemma elem_of_round_keys n b :
  V !! reference b = Some b → round b = n →
  author_digest (reference b) ∈ map fst (map_to_list (blocks_at (store st) n)).
Proof.
  intros Hv Hn. pose proof (repr_get _ _ HV (reference b)) as H. unfold store_get_block in H.
  change (ref_round (reference b)) with (round b) in H. rewrite Hn in H.
  destruct (blocks_at (store st) n !! author_digest (reference b)) as [e|] eqn:E; [|congruence].
  apply list_elem_of_fmap. exists (author_digest (reference b), e). split; [done|].
  by apply elem_of_map_to_list.
Qed.

#[export] Instance storage_reader_laws : ReaderLaws (block_reader st) V.
Proof.
  split; simpl.
  - apply (repr_keys _ _ HV).
  - apply st_get_block_spec.
  - intros n. destruct (read_entries n (map_to_list (blocks_at (store st) n))) as (l & Hl & Hnd & Hin).
    { apply NoDup_fst_map_to_list. }
    { intros [k e] He. by apply elem_of_map_to_list in He. }
    exists l. split_and!; [done|done|]. intros b. rewrite Hin. split; [naive_solver|].
    intros [? ?]. eauto using elem_of_round_keys.
  - intros a n. unfold st_get_blocks_at_authority_round, store_get_blocks_at_authority_round.
    destruct (read_entries n (filter (λ ke, ke.1.1 = a) (map_to_list (blocks_at (store st) n))))
      as (l & Hl & Hnd & Hin).
    { eapply sublist_NoDup; [apply (NoDup_fst_map_to_list (blocks_at (store st) n))|].
      apply fmap_sublist, sublist_filter. }
    { intros [k e] [_ He]%list_elem_of_filter. by apply elem_of_map_to_list in He. }
    exists l. split_and!; [done|done|]. intros b. rewrite Hin. split.
    + intros (Hv & Hn & Hk). split_and!; [done| |done].
      apply list_elem_of_fmap in Hk as ([k e] & Hk & [Ha _]%list_elem_of_filter).
      unfold author, author_digest in *. simpl in *. by subst.
    + intros (Hv & Ha & Hn). split_and!; [done|done|].
      pose proof (elem_of_round_keys n b Hv Hn) as Hk.
      apply list_elem_of_fmap in Hk as ([k e] & Hk & He). apply list_elem_of_fmap. exists (k, e).
      split; [done|]. apply list_elem_of_filter. simpl in *. subst k. done.
  - apply (repr_highest _ _ HV).
  - apply (repr_highest_attained _ _ HV).
Qed.
End Laws.

(** ** Writing *)

Lemma read_index_app w e i : is_ok (read_index w i) = true → read_index (w ++ e) i = read_index w i.
Proof.
  destruct i as [p|p b]; [|done]. simpl. destruct (w !! N.to_nat p) as [x|] eqn:E; [|done].
  by rewrite (lookup_app_l_Some _ _ _ _ E).
Qed.

Lemma store_repr_wal st V e :
  store_repr st V → store_repr {| wal := wal st ++ e; store := store st |} V.
Proof.
  intros [Hk Hg Hh Hat]. split; [done| |done|done]. intros r. simpl. specialize (Hg r).
  destruct (store_get_block (store st) r) as [i|]; [|done]. destruct Hg as (b & Hb & Hu & Hv).
  exists b. rewrite !read_index_app; [done|by rewrite Hu|by rewrite Hb].
Qed.

Lemma blocks_at_index_insert r e s n :
  blocks_at (index_insert r e s) n
  = if decide (n = ref_round r) then <[author_digest r := e]> (blocks_at s n) else blocks_at s n.
Proof.
  unfold blocks_at at 1, index_insert, set_index. simpl. rewrite lookup_insert.
  destruct (decide (n = ref_round r)) as [->|Hne]; [by rewrite decide_True|by rewrite decide_False].
Qed.

Lemma store_get_index_insert r e s r' :
  store_get_block (index_insert r e s) r' = if decide (r' = r) then Some e else store_get_block s r'.
Proof.
  unfold store_get_block. rewrite blocks_at_index_insert.
  destruct (decide (r' = r)) as [->|Hne].
  - rewrite decide_True by done. by rewrite lookup_insert_eq.
  - destruct (decide (ref_round r' = ref_round r)) as [Hr|]; [|done].
    rewrite lookup_insert_ne; [done|]. intros Had. apply Hne.
    destruct r, r'. unfold author_digest in Had. simpl in *. congruence.
Qed.

(** The other updates leave the index alone. *)
Lemma store_get_same_index s s' r : index s' = index s → store_get_block s' r = store_get_block s r.
Proof. unfold store_get_block, blocks_at. by intros ->. Qed.

Lemma add_own_index_frame r s :
  index (add_own_index r s) = index s ∧ highest_round (add_own_index r s) = highest_round s ∧
  last_seen_by_authority (add_own_index r s) = last_seen_by_authority s ∧
  store_authority (add_own_index r s) = store_authority s.
Proof. unfold add_own_index. by case_match. Qed.

Lemma update_last_seen_frame C r s :
  length (last_seen_by_authority s) = length (committee_authorities C) →
  known C (ref_authority r) →
  ∃ s', update_last_seen_by_authority r s = Ok s' ∧ index s' = index s ∧
    highest_round s' = highest_round s ∧ own_blocks s' = own_blocks s ∧
    store_authority s' = store_authority s ∧
    length (last_seen_by_authority s') = length (last_seen_by_authority s).
Proof.
  intros Hl Hk. apply (known_lookup C _ _ Hl) in Hk as [seen Hs].
  unfold update_last_seen_by_authority. rewrite Hs. eexists. split_and!; [done..|]. simpl.
  case_match; [by rewrite length_insert|done].
Qed.

(** Both ways to add a block: the index gains its reference. *)
Lemma added_repr st V s' i b C :
  store_repr st V →
  length (last_seen_by_authority (store st)) = length (committee_authorities C) →
  known C (author b) →
  read_index (wal st) i = Ok b →
  read_index (wal st) (unload_entry i) = Ok b →
  highest_round s' = N.max (highest_round (store st)) (round b) →
  (∀ r, store_get_block s' r
        = if decide (r = reference b) then Some i else store_get_block (store st) r) →
  store_repr {| wal := wal st; store := s' |} (<[reference b := b]> V).
Proof.
  intros [Hk Hg Hh Hat] Hlen Ha Hi Hiu Hr Hget. split; simpl.
  - intros r b'. destruct (decide (r = reference b)) as [->|Hne];
      [rewrite lookup_insert_eq by done; by intros [= ->]|rewrite lookup_insert_ne by done; apply Hk].
  - intros r. rewrite Hget. destruct (decide (r = reference b)) as [->|Hne].
    + exists b. by rewrite lookup_insert_eq.
    + specialize (Hg r). rewrite lookup_insert_ne by done. done.
  - intros r b' Hl. rewrite Hr. destruct (decide (r = reference b)) as [->|Hne].
    + rewrite lookup_insert_eq in Hl. injection Hl as ->. lia.
    + rewrite lookup_insert_ne in Hl by done. apply Hh in Hl. lia.
  - rewrite Hr. destruct (N.le_gt_cases (highest_round (store st)) (round b)) as [Hle|Hlt].
    + right. exists (reference b). rewrite lookup_insert_eq. split; [by eexists|].
      change (ref_round (reference b)) with (round b). lia.
    + destruct Hat as [?|(r & Hr' & Hrr)]; [lia|right]. exists r. split; [|lia].
      apply lookup_insert_is_Some'. by right.
Qed.

Lemma add_loaded_spec C st V pos b :
  store_repr st V →
  length (last_seen_by_authority (store st)) = length (committee_authorities C) →
  known C (author b) →
  read_index (wal st) (InWal pos) = Ok b →
  ∃ s', add_loaded pos b (store st) = Ok s' ∧
    store_repr {| wal := wal st; store := s' |} (<[reference b := b]> V) ∧
    length (last_seen_by_authority s') = length (last_seen_by_authority (store st)).
Proof.
  intros HV Hl Ha Hread. unfold add_loaded.
  set (s1 := add_own_index (reference b) (raise_highest (round b) (store st))).
  destruct (add_own_index_frame (reference b) (raise_highest (round b) (store st)))
    as (Hi1 & Hh1 & Hs1 & _). fold s1 in Hi1, Hh1, Hs1.
  destruct (update_last_seen_frame C (reference b) s1) as (s2 & -> & Hi2 & Hh2 & _ & _ & Hs2);
    [by rewrite Hs1|done|].
  simpl. eexists. split; [done|]. split.
  - apply (added_repr st V _ (Loaded pos b) b C); [done..| |].
    + simpl. by rewrite Hh2, Hh1.
    + intros r. rewrite store_get_index_insert. case_decide; [done|].
      rewrite (store_get_same_index _ _ _ Hi2). by rewrite (store_get_same_index _ _ _ Hi1).
  - simpl. by rewrite Hs2, Hs1.
Qed.

Lemma add_unloaded_spec C st V pos b :
  store_repr st V →
  length (last_seen_by_authority (store st)) = length (committee_authorities C) →
  known C (author b) →
  read_index (wal st) (InWal pos) = Ok b →
  ∃ s', add_unloaded (reference b) pos (store st) = Ok s' ∧
    store_repr {| wal := wal st; store := s' |} (<[reference b := b]> V) ∧
    length (last_seen_by_authority s') = length (last_seen_by_authority (store st)).
Proof.
  intros HV Hl Ha Hread. unfold add_unloaded.
  set (s0 := index_insert (reference b) (InWal pos) (raise_highest (ref_round (reference b)) (store st))).
  destruct (add_own_index_frame (reference b) s0) as (Hi1 & Hh1 & Hs1 & _).
  destruct (update_last_seen_frame C (reference b) (add_own_index (reference b) s0))
    as (s2 & -> & Hi2 & Hh2 & _ & _ & Hs2); [by rewrite Hs1|done|].
  eexists. split; [done|]. split.
  - apply (added_repr st V _ (InWal pos) b C); [done..| |].
    + by rewrite Hh2, Hh1.
    + intros r. rewrite (store_get_same_index _ _ _ Hi2), (store_get_same_index _ _ _ Hi1).
      unfold s0. rewrite store_get_index_insert. by case_decide.
  - by rewrite Hs2, Hs1.
Qed.

Lemma wal_view_app w e : wal_view (w ++ [e]) = wal_view_step (wal_view w) e.
Proof. unfold wal_view. by rewrite fold_left_app. Qed.

(** Appending an entry without a block, or writing one with its block. *)
Lemma wal_write_ok C st e :
  storage_ok C st → wal_block e = None → storage_ok C (wal_write e st).1.
Proof.
  intros [HV Hl Hk] He. split; simpl.
  - rewrite wal_view_app. unfold wal_view_step. rewrite He. by apply store_repr_wal.
  - done.
  - apply Forall_app. split; [done|]. constructor; [|done]. intros b. by rewrite He.
Qed.

Lemma read_new w e b :
  wal_block e = Some b → read_index (w ++ [e]) (InWal (N.of_nat (length w))) = Ok b.
Proof.
  intros He. simpl. rewrite Nat2N.id, lookup_app_r, Nat.sub_diag by lia. simpl.
  destruct e; simpl in He; congruence.
Qed.

Lemma write_block_ok C st e b :
  storage_ok C st → wal_block e = Some b → known C (author b) →
  ∃ s, add_loaded (N.of_nat (length (wal st))) b (store st) = Ok s ∧
    storage_ok C {| wal := wal st ++ [e]; store := s |}.
Proof.
  intros [HV Hl Hk] He Ha.
  destruct (add_loaded_spec C {| wal := wal st ++ [e]; store := store st |} (wal_view (wal st))
              (N.of_nat (length (wal st))) b)
    as (s & Hs & HV' & Hl'); [by apply store_repr_wal|done|done|by apply read_new|].
  exists s. split; [done|]. split; simpl.
  - rewrite wal_view_app. unfold wal_view_step. by rewrite He.
  - by rewrite Hl'.
  - apply Forall_app. split; [done|]. constructor; [|done]. intros b'. rewrite He. by intros [= <-].
Qed.

Lemma insert_block_ok C st b :
  storage_ok C st → known C (author b) →
  ∃ st', insert_block b st = Ok (st', N.of_nat (length (wal st))) ∧ storage_ok C st' ∧
    wal st' = wal st ++ [WalBlock b] ∧ wal_view (wal st') = <[reference b := b]> (wal_view (wal st)).
Proof.
  intros Hst Ha. unfold insert_block, wal_write. simpl.
  destruct (write_block_ok C st (WalBlock b) b) as (s & -> & Hok);
    [done..|]. simpl. eexists. split_and!; [done|done|done|]. simpl. by rewrite wal_view_app.
Qed.

Lemma insert_own_block_ok C st d :
  storage_ok C st → known C (author (own_block d)) →
  ∃ st', insert_own_block d st = Ok st' ∧ storage_ok C st' ∧
    wal st' = wal st ++ [WalOwnBlock d] ∧
    wal_view (wal st') = <[reference (own_block d) := own_block d]> (wal_view (wal st)).
Proof.
  intros Hst Ha. unfold insert_own_block, wal_write. simpl.
  destruct (write_block_ok C st (WalOwnBlock d) (own_block d))
    as (s & -> & Hok); [done..|]. simpl. eexists. split_and!; [done|done|done|]. simpl.
  by rewrite wal_view_app.
Qed.

(** ** Unloading is invisible *)

Lemma unload_get s t r :
  ∃ u : bool, store_get_block (unload_below_round t s) r
  = (if u then unload_entry else (λ e, e)) <$> store_get_block s r.
Proof.
  unfold store_get_block, blocks_at, unload_below_round, set_index. simpl.
  rewrite map_lookup_imap. exists (negb (t <? ref_round r)%N).
  destruct (index s !! ref_round r) as [m|]; simpl; [|by case_match].
  destruct (t <? ref_round r)%N; simpl.
  - by rewrite option_fmap_id.
  - by rewrite lookup_fmap.
Qed.

Lemma unload_repr st V t :
  store_repr st V → store_repr {| wal := wal st; store := unload_below_round t (store st) |} V.
Proof.
  intros [Hk Hg Hh Hat]. split; [done| |done|done]. intros r. simpl. specialize (Hg r).
  destruct (unload_get (store st) t r) as [u ->].
  destruct (store_get_block (store st) r) as [e|]; simpl; [|done].
  destruct Hg as (b & Hb & Hu & Hv). exists b. destruct u; [|done].
  split_and!; [done|by destruct e|done].
Qed.

Lemma cleanup_store_ok C st t :
  storage_ok C st → storage_ok C (cleanup_store t st) ∧ wal (cleanup_store t st) = wal st.
Proof.
  intros [HV Hl Hk]. unfold cleanup_store. case_match; [done|]. split; [|done].
  split; simpl; [|done..]. by apply unload_repr.
Qed.

(** ** Recovery *)

Lemma store_new_repr C w a : store_repr {| wal := w; store := store_new a C |} ∅.
Proof. split; [done| |done|by left]. intros r. done. Qed.

Lemma replay_ok C W pre w s r :
  W = pre ++ w →
  store_repr {| wal := W; store := s |} (wal_view pre) →
  length (last_seen_by_authority s) = length (committee_authorities C) →
  Forall (λ e, ∀ b, wal_block e = Some b → known C (author b)) w →
  ∃ s' r', replay (N.of_nat (length pre)) w (s, r) = Ok (s', r') ∧
    store_repr {| wal := W; store := s' |} (wal_view W) ∧
    length (last_seen_by_authority s') = length (committee_authorities C).
Proof.
  revert pre s r. induction w as [|e w IH]; intros pre s r HW HV Hl Hk; simpl.
  { rewrite app_nil_r in HW. subst. eauto. }
  inversion Hk as [|x y Hke Hk']; subst x y.
  assert (∃ s', recover_store (N.of_nat (length pre)) e s = Ok s' ∧
    store_repr {| wal := W; store := s' |} (wal_view (pre ++ [e])) ∧
    length (last_seen_by_authority s') = length (committee_authorities C)) as (s' & -> & HV' & Hl').
  { rewrite wal_view_app. unfold wal_view_step. destruct (wal_block e) as [b|] eqn:He.
    - assert (recover_store (N.of_nat (length pre)) e s
              = add_unloaded (reference b) (N.of_nat (length pre)) s) as ->.
      { destruct e; simpl in *; congruence. }
      destruct (add_unloaded_spec C {| wal := W; store := s |} (wal_view pre) (N.of_nat (length pre)) b)
        as (s' & Hs & HV' & Hl'); [done|done|by apply Hke| |].
      + simpl wal. rewrite HW, (cons_middle e pre w), app_assoc, read_index_app;
          rewrite (read_new pre e b He); done.
      + exists s'. split_and!; [done|done|]. simpl in Hl'. congruence.
    - exists s. destruct e; simpl in *; try done; congruence. }
  simpl. destruct (IH (pre ++ [e]) s' (recover_entry (N.of_nat (length pre)) e r))
    as (s2 & r2 & Hs2 & HV2 & Hl2); [by rewrite <- app_assoc|done|done|done|].
  exists s2, r2. rewrite length_app in Hs2. simpl in Hs2.
  replace (N.of_nat (length pre) + 1)%N with (N.of_nat (length pre + 1)) by lia. done.
Qed.

(** Reopening the log of any storage gives a storage with the same blocks. *)
Lemma storage_open_ok C a w :
  Forall (λ e, ∀ b, wal_block e = Some b → known C (author b)) w →
  ∃ st r, storage_open a C w = Ok (st, r) ∧ storage_ok C st ∧ wal st = w.
Proof.
  intros Hk. unfold storage_open.
  destruct (replay_ok C w [] w (store_new a C) recovered_empty) as (s & r & Hr & HV & Hl);
    [done|apply store_new_repr| |done|].
  { simpl. unfold authorities. by rewrite !length_map, length_seq. }
  change (N.of_nat (length (@nil WalEntry))) with 0%N in Hr. rewrite Hr. simpl.
  eauto 10 using Build_storage_ok.
Qed.
