(* ===== verification/Protocol.v ===== *)
(** * Consensus protocols: waves, leaders and thresholds

    Models [wave.rs], [leader.rs] and [protocol.rs] of the consensus crate: the
    arithmetic of waves, round-robin leaders, and the nine protocols with their
    thresholds. Stake arithmetic is [u64] and wraps, as in a release build.

    [safe_thresholds] states what agreement needs of the thresholds of a protocol
    against [f] Byzantine stake; [to_protocol_safe] shows that every protocol that
    [to_protocol] builds has it under its fault bound, and [quorums_intersect] what
    it means for sets of validators. *)

From S2P Require Import Prelude Committee DagBlock.
From stdpp Require Import base gmap list strings.
From Stdlib Require Import NArith ZArith Lia.

(** ** [wave.rs] *)

Record Wave := { wave_length : RoundNumber; round_offset : RoundNumber; wave_merged : bool }.

Module Wave.
(** [round.saturating_sub(self.round_offset) / self.wave_length] *)
Definition number (w : Wave) (round : RoundNumber) : N := ((round - round_offset w) / wave_length w)%N.
Definition leader_round (w : Wave) (wave : N) : RoundNumber := (wave * wave_length w + round_offset w)%N.
Definition decision_round (w : Wave) (wave : N) : RoundNumber := (leader_round w wave + wave_length w - 1)%N.
Definition voting_round (w : Wave) (wave : N) : RoundNumber :=
  let decision_round := decision_round w wave in
  if wave_merged w then decision_round else N.max (leader_round w wave + 1) (decision_round - 1).
Definition is_leader_round (w : Wave) (round : RoundNumber) : bool :=
  (leader_round w (number w round) =? round)%N.
End Wave.

(** ** [leader.rs] *)

Record LeaderElector := { elector_committee_len : N }.
Definition elector_elect (e : LeaderElector) (round : RoundNumber) : Authority :=
  (round mod elector_committee_len e)%N.

(** ** [protocol.rs] *)

Record FastPath := { commit_quorum : Stake; weak_indirect_quorum : Stake }.

Record Protocol := {
  direct_commit_quorum : Stake;
  direct_skip_quorum : Stake;
  certificate_quorum : Stake;
  quorum_threshold : Stake;
  fast_path : option FastPath;
  anchor_link_size : Stake;
  protocol_wave_length : RoundNumber;
  merged_certificates : bool;
  leader_count : positive;
  pipeline : bool;
  leader_wait : bool;
  require_crypto : bool
}.

Inductive ConsensusProtocol :=
| CordialMinersPartiallySynchronous
| CordialMinersAsynchronous
| Mysticeti (leader_count : positive)
| BlueBottlePartiallySynchronous (leader_count : positive)
| BlueBottleAsynchronous (leader_count : positive)
| Orcaella (leader_count : positive) (f c : Stake)
| MahiMahi (leader_count : positive) (wave_length : RoundNumber)
| NemoNemo (leader_count : positive)
| DagHydrangea (leader_count : positive) (f c k : Stake).

(** Wrapping [u64] arithmetic. *)
Definition w64 (n : N) : N := (n mod u64_limit)%N.
Definition wsub (a b : N) : N := w64 (a + (u64_limit - w64 b)).

Definition third_quorum (total_stake : Stake) : Stake := w64 (w64 (2 * total_stake) / 3 + 1).

Definition cordial_miners_partially_synchronous (total_stake : Stake) : Protocol :=
  let quorum := third_quorum total_stake in
  {| direct_commit_quorum := quorum; direct_skip_quorum := total_stake; certificate_quorum := quorum;
     quorum_threshold := quorum; fast_path := None; anchor_link_size := 1; protocol_wave_length := 3;
     merged_certificates := false; leader_count := 1; pipeline := false; leader_wait := true;
     require_crypto := true |}.

Definition cordial_miners_asynchronous (total_stake : Stake) : Protocol :=
  let quorum := third_quorum total_stake in
  {| direct_commit_quorum := quorum; direct_skip_quorum := total_stake; certificate_quorum := quorum;
     quorum_threshold := quorum; fast_path := None; anchor_link_size := 1; protocol_wave_length := 5;
     merged_certificates := false; leader_count := 1; pipeline := false; leader_wait := false;
     require_crypto := true |}.

Definition mysticeti (total_stake : Stake) (leaders : positive) : Protocol :=
  let quorum := third_quorum total_stake in
  {| direct_commit_quorum := quorum; direct_skip_quorum := quorum; certificate_quorum := quorum;
     quorum_threshold := quorum; fast_path := None; anchor_link_size := 1; protocol_wave_length := 3;
     merged_certificates := false; leader_count := leaders; pipeline := true; leader_wait := true;
     require_crypto := true |}.

Definition blue_bottle (wl : RoundNumber) (wait : bool) (total_stake : Stake) (leaders : positive) :
    Protocol :=
  let strong_quorum := w64 (w64 (4 * total_stake) / 5 + 1) in
  let weak_quorum := w64 (w64 (2 * total_stake) / 5 + 1) in
  {| direct_commit_quorum := strong_quorum; direct_skip_quorum := strong_quorum;
     certificate_quorum := strong_quorum; quorum_threshold := strong_quorum; fast_path := None;
     anchor_link_size := weak_quorum; protocol_wave_length := wl; merged_certificates := true;
     leader_count := leaders; pipeline := true; leader_wait := wait; require_crypto := true |}.
Definition blue_bottle_partially_synchronous := blue_bottle 2 true.
Definition blue_bottle_asynchronous := blue_bottle 3 false.

Inductive ProtocolError :=
| FaultBoundViolated (protocol : string) (n min_n : Stake)
| MahiMahiInvalidWaveLength (wave_length : RoundNumber)
| LeaderCountExceedsCommittee (leader_count : positive) (committee_size : N).

Definition orcaella (total_stake f c : Stake) (leaders : positive) : Protocol + ProtocolError :=
  let min_n := if (f =? 0)%N then w64 (w64 (2 * c) + 1)
               else w64 (w64 (w64 (5 * f) + w64 (3 * c)) + 1) in
  if (total_stake <? min_n)%N then inr (FaultBoundViolated "Orcaella" total_stake min_n) else
  let quorum := wsub (wsub total_stake f) c in
  inl {| direct_commit_quorum := quorum;
         direct_skip_quorum := w64 (w64 (w64 (4 * f) + w64 (2 * c)) + 1);
         certificate_quorum := quorum; quorum_threshold := quorum; fast_path := None;
         anchor_link_size := wsub (wsub total_stake (w64 (3 * f))) (w64 (2 * c));
         protocol_wave_length := 2; merged_certificates := true; leader_count := leaders;
         pipeline := true; leader_wait := true; require_crypto := negb (f =? 0)%N |}.

Definition mahi_mahi (total_stake : Stake) (leaders : positive) (wl : RoundNumber) :
    Protocol + ProtocolError :=
  if negb (wl =? 4)%N && negb (wl =? 5)%N then inr (MahiMahiInvalidWaveLength wl) else
  let quorum := third_quorum total_stake in
  inl {| direct_commit_quorum := quorum; direct_skip_quorum := quorum; certificate_quorum := quorum;
         quorum_threshold := quorum; fast_path := None; anchor_link_size := 1;
         protocol_wave_length := wl; merged_certificates := false; leader_count := leaders;
         pipeline := true; leader_wait := false; require_crypto := true |}.

Definition nemo_nemo (total_stake : Stake) (leaders : positive) : Protocol :=
  let quorum := w64 (total_stake / 2 + 1) in
  {| direct_commit_quorum := quorum; direct_skip_quorum := total_stake; certificate_quorum := quorum;
     quorum_threshold := quorum; fast_path := None; anchor_link_size := 1; protocol_wave_length := 2;
     merged_certificates := true; leader_count := leaders; pipeline := true; leader_wait := true;
     require_crypto := false |}.

(** Computed in [u128], so exact; the casts back to [u64] truncate. *)
Definition dag_hydrangea (n f c k : Stake) (leaders : positive) : Protocol + ProtocolError :=
  let min_n := (3 * f + 2 * c + k + 1)%N in
  if (n <? min_n)%N
  then inr (FaultBoundViolated "DagHydrangea" n (if (min_n <? u64_limit)%N then min_n else u64_limit - 1))
  else
  let p := ((c + k) / 2)%N in
  let cert_quorum := ((n + f + 2) / 2)%N in
  let fp := {| commit_quorum := w64 (n - p); weak_indirect_quorum := w64 (f + p + 1) |} in
  inl {| direct_commit_quorum := w64 (2 * f + c + 1); direct_skip_quorum := commit_quorum fp;
         certificate_quorum := w64 cert_quorum; quorum_threshold := w64 (n - f - c);
         fast_path := Some fp; anchor_link_size := 1; protocol_wave_length := 3;
         merged_certificates := false; leader_count := leaders; pipeline := true; leader_wait := true;
         require_crypto := negb (f =? 0)%N |}.

Definition user_leader_count (p : ConsensusProtocol) : option positive :=
  match p with
  | CordialMinersPartiallySynchronous | CordialMinersAsynchronous => None
  | Mysticeti l | BlueBottlePartiallySynchronous l | BlueBottleAsynchronous l
  | Orcaella l _ _ | MahiMahi l _ | NemoNemo l | DagHydrangea l _ _ _ => Some l
  end.

Definition to_protocol (p : ConsensusProtocol) (C : Committee) : Protocol + ProtocolError :=
  let T := total_stake C in
  let committee_size := committee_len C in
  let too_many := match user_leader_count p with
                  | Some l => if (committee_size <? Npos l)%N then Some l else None
                  | None => None
                  end in
  match too_many with
  | Some l => inr (LeaderCountExceedsCommittee l committee_size)
  | None =>
      match p with
      | CordialMinersPartiallySynchronous => inl (cordial_miners_partially_synchronous T)
      | CordialMinersAsynchronous => inl (cordial_miners_asynchronous T)
      | Mysticeti l => inl (mysticeti T l)
      | BlueBottlePartiallySynchronous l => inl (blue_bottle_partially_synchronous T l)
      | BlueBottleAsynchronous l => inl (blue_bottle_asynchronous T l)
      | Orcaella l f c => orcaella T f c l
      | MahiMahi l w => mahi_mahi T l w
      | NemoNemo l => inl (nemo_nemo T l)
      | DagHydrangea l f c k => dag_hydrangea T f c k l
      end
  end.

(** [Protocol::default_round_timeout], in milliseconds. *)
Definition default_round_timeout (p : Protocol) : N := if leader_wait p then 1000 else 75.

(** ** What agreement needs of the thresholds *)

Record safe_thresholds (p : Protocol) (T f : Stake) : Prop := {
  safe_positive : (0 < direct_commit_quorum p ∧ 0 < direct_skip_quorum p ∧
    0 < certificate_quorum p ∧ 0 < quorum_threshold p ∧ 0 < anchor_link_size p)%N;
  safe_wave : (2 ≤ protocol_wave_length p)%N ∧
    (merged_certificates p = false → (3 ≤ protocol_wave_length p)%N);
  safe_link : (T + f + anchor_link_size p ≤ direct_commit_quorum p + quorum_threshold p)%N;
  safe_merged : merged_certificates p = true →
    fast_path p = None ∧
    (T + f < direct_skip_quorum p + anchor_link_size p)%N ∧
    (T + f < direct_commit_quorum p + direct_skip_quorum p)%N ∧
    ((0 < f)%N → (T + f < direct_commit_quorum p + anchor_link_size p)%N ∧
                 (T + f < 2 * direct_commit_quorum p)%N);
  safe_unmerged : merged_certificates p = false →
    (T + f < 2 * certificate_quorum p)%N ∧ (T + f < certificate_quorum p + direct_skip_quorum p)%N;
  safe_fast : ∀ fp, fast_path p = Some fp →
    (0 < commit_quorum fp ∧ 0 < weak_indirect_quorum fp)%N ∧
    (T + f + weak_indirect_quorum fp ≤ commit_quorum fp + quorum_threshold p)%N ∧
    (T + f < commit_quorum fp + certificate_quorum p)%N ∧
    (T + f < commit_quorum fp + weak_indirect_quorum fp)%N ∧
    (T + f < direct_skip_quorum p + weak_indirect_quorum fp)%N ∧
    (T + f < commit_quorum fp + direct_skip_quorum p)%N ∧
    (T + f < 2 * commit_quorum fp)%N;
  safe_commits : merged_certificates p = true → (T + f < 2 * direct_commit_quorum p)%N
}.

(** The Byzantine stake each protocol is designed for. *)
Definition within_faults (p : ConsensusProtocol) (T f : Stake) : Prop :=
  match p with
  | CordialMinersPartiallySynchronous | CordialMinersAsynchronous | Mysticeti _ | MahiMahi _ _ =>
      (3 * f < T)%N
  | BlueBottlePartiallySynchronous _ | BlueBottleAsynchronous _ => (5 * f < T)%N
  | Orcaella _ f' _ => (f ≤ f')%N
  | NemoNemo _ => f = 0%N
  | DagHydrangea _ f' _ _ => (f ≤ f')%N
  end.

(** The configured fault parameters are far from the end of [u64]. *)
Definition small_parameters (p : ConsensusProtocol) : Prop :=
  match p with
  | Orcaella _ f c => (f < 2 ^ 60 ∧ c < 2 ^ 60)%N
  | _ => True
  end.

Ltac n_lia := zify; Z.to_euclidean_division_equations; lia.

Lemma w64_small n : (n < u64_limit)%N → w64 n = n.
Proof. apply N.mod_small. Qed.

Lemma wsub_small a b : (b ≤ a)%N → (a < u64_limit)%N → wsub a b = (a - b)%N.
Proof.
  intros Hb Ha. unfold wsub. rewrite (w64_small b) by lia. unfold w64.
  replace (a + (u64_limit - b))%N with (a - b + 1 * u64_limit)%N by lia.
  rewrite N.Div0.mod_add. apply N.mod_small. lia.
Qed.

Lemma third_quorum_eq T : (T < 2 ^ 62)%N → third_quorum T = (2 * T / 3 + 1)%N.
Proof.
  intros HT. unfold third_quorum. rewrite (w64_small (2 * T)), w64_small; unfold u64_limit; [done| |lia].
  change (2 ^ 64)%N with 18446744073709551616%N. change (2 ^ 62)%N with 4611686018427387904%N in HT. n_lia.
Qed.

(** The thresholds of the three-round protocols with a two-thirds quorum. *)
Lemma third_quorum_safe p T f :
  (3 * f < T)%N → (T < 2 ^ 62)%N →
  direct_commit_quorum p = third_quorum T →
  certificate_quorum p = third_quorum T → quorum_threshold p = third_quorum T →
  direct_skip_quorum p = T ∨ direct_skip_quorum p = third_quorum T →
  fast_path p = None → anchor_link_size p = 1%N → merged_certificates p = false →
  (3 ≤ protocol_wave_length p)%N →
  safe_thresholds p T f.
Proof.
  intros Hf HT Hdc Hcq Hqt Hsq Hfp Hal Hm Hw. rewrite third_quorum_eq in * by done.
  split; rewrite ?Hdc, ?Hcq, ?Hqt, ?Hal, ?Hfp, ?Hm; try done.
  - destruct Hsq as [-> | ->]; n_lia.
  - split; [lia|done].
  - n_lia.
  - intros _. destruct Hsq as [-> | ->]; n_lia.
Qed.

Lemma blue_bottle_safe wl wait T l f :
  (5 * f < T)%N → (T < 2 ^ 62)%N → (2 ≤ wl)%N → safe_thresholds (blue_bottle wl wait T l) T f.
Proof.
  intros Hf HT Hwl. unfold blue_bottle.
  rewrite (w64_small (4 * T)), (w64_small (2 * T)) by (unfold u64_limit; lia).
  assert (4 * T / 5 + 1 < u64_limit)%N by (change u64_limit with 18446744073709551616%N; n_lia).
  assert (2 * T / 5 + 1 < u64_limit)%N by (change u64_limit with 18446744073709551616%N; n_lia).
  rewrite !w64_small by done.
  split; simpl; [n_lia|done|n_lia|intros _; split; [done|n_lia]|done|done|intros _; n_lia].
Qed.

Lemma nemo_nemo_safe T l : (0 < T)%N → (T < 2 ^ 62)%N → safe_thresholds (nemo_nemo T l) T 0.
Proof.
  intros HT0 HT. unfold nemo_nemo.
  rewrite w64_small by (change u64_limit with 18446744073709551616%N; n_lia).
  split; simpl; [n_lia|done|n_lia|intros _; split; [done|n_lia]|done|done|intros _; n_lia].
Qed.

Lemma orcaella_safe T f' c l p f :
  (T < 2 ^ 62)%N → (f' < 2 ^ 60)%N → (c < 2 ^ 60)%N → (f ≤ f')%N →
  orcaella T f' c l = inl p → safe_thresholds p T f.
Proof.
  intros HT Hf' Hc Hf. unfold orcaella.
  rewrite !(w64_small (_ * _)) by (unfold u64_limit; lia).
  rewrite !(w64_small (_ * _ + _ * _)) by (unfold u64_limit; lia).
  rewrite !w64_small by (unfold u64_limit; lia).
  case_match eqn:Hn; [done|]. apply N.ltb_ge in Hn. intros [= <-].
  assert (f' + c ≤ T ∧ 3 * f' + 2 * c ≤ T)%N as [H1 H2].
  { destruct (N.eqb_spec f' 0) as [->|]; lia. }
  rewrite (wsub_small T f'), (wsub_small T (3 * f')), !wsub_small by (unfold u64_limit; lia).
  destruct (N.eqb_spec f' 0) as [->|];
    (split; simpl; [lia|done|lia|intros _; split; [done|lia]|done|done|intros _; lia]).
Qed.

Lemma dag_hydrangea_safe T f' c k l p f :
  (T < 2 ^ 62)%N → (f ≤ f')%N → dag_hydrangea T f' c k l = inl p → safe_thresholds p T f.
Proof.
  intros HT Hf. unfold dag_hydrangea. case_match eqn:Hn; [done|]. apply N.ltb_ge in Hn. intros [= <-].
  set (h := ((c + k) / 2)%N). set (q := ((T + f' + 2) / 2)%N).
  assert (2 * h ≤ c + k)%N by (unfold h; n_lia).
  assert (T + f' + 1 ≤ 2 * q ≤ T + f' + 2)%N by (unfold q; n_lia).
  rewrite !w64_small by (unfold u64_limit; lia).
  split; simpl; [lia|done|lia|done|lia| |done]. intros fp [= <-]. simpl. lia.
Qed.

Lemma to_protocol_safe cp C p f :
  (0 < total_stake C)%N → (total_stake C < 2 ^ 62)%N → small_parameters cp →
  within_faults cp (total_stake C) f → to_protocol cp C = inl p → safe_thresholds p (total_stake C) f.
Proof.
  intros HT0 HT Hs Hf. unfold to_protocol. case_match eqn:Hl; [done|]. clear Hl.
  destruct cp; simpl in Hf, Hs; intros Hp; try (injection Hp as <-);
    try (apply third_quorum_safe; simpl; auto; lia).
  - by apply blue_bottle_safe.
  - by apply blue_bottle_safe.
  - by eapply (orcaella_safe _ _ _ _ _ _ HT (proj1 Hs) (proj2 Hs)).
  - unfold mahi_mahi in Hp. case_match eqn:Hw; [done|]. injection Hp as <-.
    apply third_quorum_safe; simpl; auto.
    apply andb_false_iff in Hw as [Hw%negb_false_iff%N.eqb_eq|Hw%negb_false_iff%N.eqb_eq]; lia.
  - subst f. by apply nemo_nemo_safe.
  - by eapply dag_hydrangea_safe.
Qed.

(** C28: the thresholds of all nine protocols, fault-free configurations
    included. Whatever protocol [to_protocol] accepts for a committee of less than
    2^62 stake (and fault parameters below 2^60 for Orcaella, so that the
    wrapping arithmetic does not), with at most the faulty stake the protocol is
    made for: two sets of validators that each hold the stake of a certificate (of
    a direct commit where votes and certificates are the same), or one such set
    and one of the stake that skips a leader, share a validator that is not faulty;
    and whoever proposes on a quorum of a round has seen the anchor-link stake of
    every set that can commit directly, from validators that are not faulty. *)
Theorem quorums_intersect cp C p Byz X Y :
  committee_ok C → (total_stake C < 2 ^ 62)%N → small_parameters cp → to_protocol cp C = inl p →
  within_faults cp (total_stake C) (stake_of C Byz) →
  let certificate := if merged_certificates p then direct_commit_quorum p else certificate_quorum p in
  (certificate ≤ stake_of C X)%N →
  ((direct_skip_quorum p ≤ stake_of C Y)%N → ∃ a, a ∈ X ∧ a ∈ Y ∧ a ∉ Byz ∧ known C a) ∧
  ((certificate ≤ stake_of C Y)%N → ∃ a, a ∈ X ∧ a ∈ Y ∧ a ∉ Byz ∧ known C a) ∧
  ((direct_commit_quorum p ≤ stake_of C X)%N → (quorum_threshold p ≤ stake_of C Y)%N →
   (anchor_link_size p ≤ stake_of C ((X ∩ Y) ∖ Byz))%N).
Proof.
  intros HC HT Hs Hp Hf certificate HX.
  destruct (to_protocol_safe cp C p _ (total_positive C HC) HT Hs Hf Hp) as [_ _ Hlink Hm Hu _ Hd].
  split_and!.
  - intros HY. apply quorum_intersection; [done|]. unfold certificate in HX.
    destruct (merged_certificates p); [destruct (Hm eq_refl) as (_ & _ & ? & _)|destruct (Hu eq_refl)]; lia.
  - intros HY. apply quorum_intersection; [done|]. unfold certificate in *.
    destruct (merged_certificates p); [specialize (Hd eq_refl)|destruct (Hu eq_refl)]; lia.
  - intros HX' HY. pose proof (honest_overlap C X Y Byz HC). lia.
Qed.

Module Runs.
Definition four : list AuthorityInfo := replicate 4 {| stake := 1; public_key := [] |}.
Definition committee_four : Committee := {| committee_authorities := four; total_stake := 4 |}.

Lemma committee_four_ok : committee_ok committee_four.
Proof. apply (committee_new_ok four). vm_compute. reflexivity. Qed.

Lemma quorums_intersect_witness :
  ∃ a, a ∈ ({[0; 1; 2]} : gset Authority)%N ∧ a ∈ ({[1; 2; 3]} : gset Authority)%N ∧
       a ∉ ({[1]} : gset Authority)%N ∧ known committee_four a.
Proof.
  refine (proj1 (quorums_intersect (Mysticeti 2) committee_four (mysticeti 4 2) {[1%N]} {[0; 1; 2]}%N {[1; 2; 3]}%N
    committee_four_ok _ _ _ _ _) _); [reflexivity|exact I|reflexivity|reflexivity|vm_compute; discriminate|vm_compute; discriminate].
Defined.
End Runs.

