(* ===== verification/Committer.v ===== *)
(** * The commit rule

    Models [base.rs] ([BaseCommitter]: votes, certificates, direct and indirect
    decisions), [committer.rs] ([Committer]) of the consensus crate and the
    [LeaderStatus] of the DAG crate's [consensus.rs].

    [expect]s and panics are errors of [result]; [find_support] recurses over the
    DAG and takes the round of its block plus one as fuel, which is enough because
    the includes of a verified block have smaller rounds. *)

From S2P Require Import Prelude Order Committee DagBlock DagStore Protocol.
From stdpp Require Import base gmap list strings.
From Stdlib Require Import NArith ZArith Lia.

(** ** [LeaderStatus] *)

Inductive DirectCommitPath := Fast | Slow.
Inductive IndirectCommitPath := Certificate | WeakQuorum.

Inductive LeaderStatus :=
| DirectCommit (b : Block) (path : DirectCommitPath)
| IndirectCommit (b : Block) (path : IndirectCommitPath)
| DirectSkip (a : Authority) (r : RoundNumber)
| IndirectSkip (a : Authority) (r : RoundNumber)
| Undecided (a : Authority) (r : RoundNumber).

Definition status_round (s : LeaderStatus) : RoundNumber :=
  match s with
  | DirectCommit b _ | IndirectCommit b _ => round b
  | DirectSkip _ r | IndirectSkip _ r | Undecided _ r => r
  end.
Definition status_authority (s : LeaderStatus) : Authority :=
  match s with
  | DirectCommit b _ | IndirectCommit b _ => author b
  | DirectSkip a _ | IndirectSkip a _ | Undecided a _ => a
  end.
Definition is_decided (s : LeaderStatus) : bool :=
  match s with Undecided _ _ => false | _ => true end.
Definition into_decided_block (s : LeaderStatus) : result (option Block) :=
  match s with
  | DirectCommit b _ | IndirectCommit b _ => Ok (Some b)
  | DirectSkip _ _ | IndirectSkip _ _ => Ok None
  | Undecided _ _ => Err "Decided block must be a commit or a skip"
  end.

(** ** [BaseCommitter] *)

Record BaseCommitter := {
  bc_committee : Committee;
  bc_leader_elector : LeaderElector;
  bc_direct_commit_quorum : Stake;
  bc_direct_skip_quorum : Stake;
  bc_certificate_quorum : Stake;
  bc_fast_path : option FastPath;
  bc_anchor_link_size : Stake;
  bc_wave : Wave;
  bc_leader_offset : RoundNumber
}.

Definition base_new (C : Committee) (e : LeaderElector) (p : Protocol)
    (leader_offset round_offset : RoundNumber) : BaseCommitter :=
  {| bc_committee := C; bc_leader_elector := e;
     bc_direct_commit_quorum := direct_commit_quorum p;
     bc_direct_skip_quorum := direct_skip_quorum p;
     bc_certificate_quorum := certificate_quorum p;
     bc_fast_path := fast_path p;
     bc_anchor_link_size := anchor_link_size p;
     bc_wave := {| wave_length := protocol_wave_length p; round_offset := round_offset;
                   wave_merged := merged_certificates p |};
     bc_leader_offset := leader_offset |}.

Definition elect_leader (bc : BaseCommitter) (r : RoundNumber) : option Authority :=
  if negb (Wave.is_leader_round (bc_wave bc) r) then None
  else Some (elector_elect (bc_leader_elector bc) (r + bc_leader_offset bc)).

(** [self.block_reader.get_block(include).expect(..)] *)
Definition expect_block (R : BlockReader) (r : BlockReference) : result Block :=
  let? o := get_block R r in
  match o with Some b => Ok b | None => Err "We should have the whole sub-dag by now" end.

Section Base.
Context (R : BlockReader).

(** The block of slot [(author, round)] that [from] supports: the first one met
    by a depth-first walk of the includes. *)
Fixpoint find_support_fuel (fuel : nat) (slot : Authority * RoundNumber) (from : Block) :
    result (option BlockReference) :=
  match fuel with
  | O => Err "stack overflow"
  | S fuel =>
      if (round from <? slot.2)%N then Ok None else
      (fix go (incs : list BlockReference) : result (option BlockReference) :=
         match incs with
         | [] => Ok None
         | i :: incs =>
             if (ref_round i <? slot.2)%N then go incs
             else if bool_decide (author_round i = slot) then Ok (Some i)
             else
               let? b := expect_block R i in
               let? support := find_support_fuel fuel slot b in
               match support with Some s => Ok (Some s) | None => go incs end
         end) (includes from)
  end.
Definition find_support (slot : Authority * RoundNumber) (from : Block) :
    result (option BlockReference) :=
  find_support_fuel (S (N.to_nat (round from))) slot from.

Definition is_vote (potential_vote leader_block : Block) : result bool :=
  let? support := find_support (author_round (reference leader_block)) potential_vote in
  Ok (bool_decide (support = Some (reference leader_block))).

Definition is_certificate (bc : BaseCommitter) (votes : list Block) (leader_block : Block)
    (quorum : Stake) : result bool :=
  aggregate_any (bc_committee bc) author (λ vote, is_vote vote leader_block)
    (aggregator_new quorum) votes.

(** The included blocks are loaded one by one as the votes are counted. *)
Definition carries_certificate (bc : BaseCommitter) (decision_block leader_block : Block) :
    result bool :=
  aggregate (bc_committee bc)
    (λ i, let? vote := expect_block R i in
          let? v := is_vote vote leader_block in
          Ok (if v : bool then Some (author vote) else None))
    (aggregator_new (bc_certificate_quorum bc)) (includes decision_block).

(** [min_by_key(|b| b.reference().digest)]: the first block with the least digest. *)
Fixpoint min_by_digest (l : list Block) : option Block :=
  match l with
  | [] => None
  | b :: l =>
      match min_by_digest l with
      | None => Some b
      | Some m => if bytes_leb (block_digest b) (block_digest m) then Some b else Some m
      end
  end.

Fixpoint filter_result {A} (p : A → result bool) (l : list A) : result (list A) :=
  match l with
  | [] => Ok []
  | x :: l =>
      let? b := p x in
      let? rest := filter_result p l in
      Ok (if b then x :: rest else rest)
  end.

Definition and_result (a b : result bool) : result bool :=
  let? x := a in if x then b else Ok false.

(** Is the certificate of [leader_block] linked to the anchor? *)
Definition certified_by (bc : BaseCommitter) (anchor : Block) (decision_blocks : list Block)
    (leader_block : Block) : result bool :=
  if wave_merged (bc_wave bc) then
    aggregate_any (bc_committee bc) author
      (λ b, and_result (linked R anchor b) (is_vote b leader_block))
      (aggregator_new (bc_anchor_link_size bc)) decision_blocks
  else
    aggregate_any (bc_committee bc) author
      (λ b, and_result (linked R anchor b) (carries_certificate bc b leader_block))
      (aggregator_new (bc_anchor_link_size bc)) decision_blocks.

Definition weakly_backed (bc : BaseCommitter) (fp : FastPath) (anchor : Block)
    (voting_blocks : list Block) (leader_block : Block) : result bool :=
  aggregate_any (bc_committee bc) author
    (λ b, and_result (linked R anchor b) (is_vote b leader_block))
    (aggregator_new (weak_indirect_quorum fp)) voting_blocks.

Definition decide_leader_from_anchor (bc : BaseCommitter) (anchor : Block) (leader : Authority)
    (leader_round : RoundNumber) : result LeaderStatus :=
  let? leader_blocks := get_blocks_at_authority_round R leader leader_round in
  let wave := Wave.number (bc_wave bc) leader_round in
  let decision_round := Wave.decision_round (bc_wave bc) wave in
  let? decision_blocks := get_blocks_by_round R decision_round in
  let? certified := filter_result (certified_by bc anchor decision_blocks) leader_blocks in
  match min_by_digest certified with
  | Some b => Ok (IndirectCommit b Certificate)
  | None =>
      match bc_fast_path bc with
      | None => Ok (IndirectSkip leader leader_round)
      | Some fp =>
          let voting_round := Wave.voting_round (bc_wave bc) wave in
          let? voting_blocks := get_blocks_by_round R voting_round in
          let? weak := filter_result (weakly_backed bc fp anchor voting_blocks) leader_blocks in
          match min_by_digest weak with
          | Some b => Ok (IndirectCommit b WeakQuorum)
          | None => Ok (IndirectSkip leader leader_round)
          end
      end
  end.

Definition enough_leader_blame (bc : BaseCommitter) (voting_blocks : list Block) (leader : Authority)
    (leader_round : RoundNumber) : result bool :=
  aggregate_any (bc_committee bc) author
    (λ b, let? support := find_support (leader, leader_round) b in Ok (bool_decide (support = None)))
    (aggregator_new (bc_direct_skip_quorum bc)) voting_blocks.

Definition enough_leader_support (bc : BaseCommitter) (decision_round : RoundNumber)
    (leader_block : Block) : result bool :=
  let? decision_blocks := get_blocks_by_round R decision_round in
  if wave_merged (bc_wave bc) then
    is_certificate bc decision_blocks leader_block (bc_direct_commit_quorum bc)
  else
    aggregate_any (bc_committee bc) author (λ b, carries_certificate bc b leader_block)
      (aggregator_new (bc_direct_commit_quorum bc)) decision_blocks.

Definition enough_fast_path_support (bc : BaseCommitter) (voting_blocks : list Block)
    (leader_block : Block) : result bool :=
  match bc_fast_path bc with
  | None => Ok false
  | Some fp =>
      aggregate_any (bc_committee bc) author (λ b, is_vote b leader_block)
        (aggregator_new (commit_quorum fp)) voting_blocks
  end.

Fixpoint try_indirect_decide (bc : BaseCommitter) (leader : Authority) (leader_round : RoundNumber)
    (leaders : list LeaderStatus) : result LeaderStatus :=
  match leaders with
  | [] => Ok (Undecided leader leader_round)
  | s :: leaders =>
      if (leader_round + wave_length (bc_wave bc) <=? status_round s)%N then
        match s with
        | DirectCommit anchor _ | IndirectCommit anchor _ =>
            decide_leader_from_anchor bc anchor leader leader_round
        | DirectSkip _ _ | IndirectSkip _ _ => try_indirect_decide bc leader leader_round leaders
        | Undecided _ _ => Ok (Undecided leader leader_round)
        end
      else try_indirect_decide bc leader leader_round leaders
  end.

(** The blocks with direct support and the rule that supports each. The source
    stops after the second one, to panic. *)
Fixpoint supported (bc : BaseCommitter) (voting_blocks : list Block) (decision_round : RoundNumber)
    (leader_blocks : list Block) : result (list (Block * DirectCommitPath)) :=
  match leader_blocks with
  | [] => Ok []
  | b :: leader_blocks =>
      let? fast := enough_fast_path_support bc voting_blocks b in
      if fast then
        let? rest := supported bc voting_blocks decision_round leader_blocks in Ok ((b, Fast) :: rest)
      else
        let? slow := enough_leader_support bc decision_round b in
        let? rest := supported bc voting_blocks decision_round leader_blocks in
        Ok (if slow then (b, Slow) :: rest else rest)
  end.

Definition try_direct_decide (bc : BaseCommitter) (leader : Authority) (leader_round : RoundNumber) :
    result LeaderStatus :=
  let wave := Wave.number (bc_wave bc) leader_round in
  let voting_round := Wave.voting_round (bc_wave bc) wave in
  let decision_round := Wave.decision_round (bc_wave bc) wave in
  let? voting_blocks := get_blocks_by_round R voting_round in
  let? blame := enough_leader_blame bc voting_blocks leader leader_round in
  if blame then Ok (DirectSkip leader leader_round) else
  let? leader_blocks := get_blocks_at_authority_round R leader leader_round in
  let? l := supported bc voting_blocks decision_round leader_blocks in
  match l with
  | [] => Ok (Undecided leader leader_round)
  | [(b, path)] => Ok (DirectCommit b path)
  | _ => Err "More than one certified block"
  end.

(** ** [Committer::try_commit] *)

(** One slot: the direct rule, else the indirect one on the leaders after it. *)
Definition decide_slot (bc : BaseCommitter) (leader : Authority) (r : RoundNumber)
    (leaders : list LeaderStatus) : result LeaderStatus :=
  let? status := try_direct_decide bc leader r in
  if is_decided status then Ok status else try_indirect_decide bc leader r leaders.

(** [for committer in self.base_committers.iter().rev()]: the last one first,
    each status pushed to the front. *)
Fixpoint decide_round (bcs : list BaseCommitter) (r : RoundNumber) (leaders : list LeaderStatus) :
    result (list LeaderStatus) :=
  match bcs with
  | [] => Ok leaders
  | bc :: bcs =>
      let? leaders' := decide_round bcs r leaders in
      match elect_leader bc r with
      | None => Ok leaders'
      | Some leader => let? status := decide_slot bc leader r leaders' in Ok (status :: leaders')
      end
  end.

(** [for round in (low..=high).rev()] over the [n] rounds from [low]. *)
Fixpoint decide_rounds (bcs : list BaseCommitter) (low : RoundNumber) (n : nat) :
    result (list LeaderStatus) :=
  match n with
  | O => Ok []
  | S n =>
      let? leaders := decide_rounds bcs (low + 1) n in
      decide_round bcs low leaders
  end.
End Base.

(** ** [Committer] *)

Record Committer := {
  base_committers : list BaseCommitter;
  committer_quorum_threshold : Stake;
  committer_leader_wait : bool;
  fast_commit_quorum_above_clock : option Stake
}.

(** [0..n] *)
Definition rangeN (n : N) : list N := map N.of_nat (seq 0 (N.to_nat n)).

Definition committer_new (C : Committee) (p : Protocol) : Committer :=
  let pipeline_stages := if pipeline p then protocol_wave_length p else 1%N in
  {| base_committers :=
       concat (map (λ round_offset,
                      map (λ leader_offset, base_new C {| elector_committee_len := committee_len C |}
                                              p leader_offset round_offset)
                        (rangeN (Npos (leader_count p))))
                 (rangeN pipeline_stages));
     committer_quorum_threshold := quorum_threshold p;
     committer_leader_wait := leader_wait p;
     fast_commit_quorum_above_clock :=
       match fast_path p with
       | Some fp => if (quorum_threshold p <? commit_quorum fp)%N then Some (commit_quorum fp) else None
       | None => None
       end |}.

Fixpoint skip_while {A} (p : A → bool) (l : list A) : list A :=
  match l with [] => [] | x :: l' => if p x then skip_while p l' else l end.
Fixpoint take_while {A} (p : A → bool) (l : list A) : list A :=
  match l with [] => [] | x :: l => if p x then x :: take_while p l else [] end.

Definition status_slot (s : LeaderStatus) : RoundNumber * Authority :=
  (status_round s, status_authority s).

(** The decided leaders after [last_decided], without genesis, up to the first
    undecided one. *)
Definition decided_sequence (last_decided : option (RoundNumber * Authority))
    (leaders : list LeaderStatus) : list LeaderStatus :=
  let after :=
    match last_decided with
    | Some slot => drop 1 (skip_while (λ x, negb (bool_decide (status_slot x = slot))) leaders)
    | None => leaders
    end in
  take_while is_decided (filter (λ x, (0 < status_round x)%N) after).

Definition try_commit (c : Committer) (R : BlockReader)
    (last_decided : option (RoundNumber * Authority)) : result (list LeaderStatus) :=
  let highest_known_round := reader_highest_round R in
  let last_decided_round := from_option fst 0%N last_decided in
  let? leaders := decide_rounds R (base_committers c) last_decided_round
                    (N.to_nat (highest_known_round + 1 - last_decided_round)) in
  Ok (decided_sequence last_decided leaders).

(** [get_leaders] of [DagConsensus]. *)
Definition get_leaders (c : Committer) (r : RoundNumber) : option (list Authority) :=
  if committer_leader_wait c then Some (omap (λ bc, elect_leader bc r) (base_committers c)) else None.
