(* ===== verification/CommitSupport.v ===== *)
(** * Support, links and quorums in a view of the DAG

    The world the committers run in: all blocks ever produced ([DagWorld]), of
    which each validator holds a causally closed part ([DagView]). On it the
    walks of the commit rule are total and mean what they should: support and
    links do not depend on the view, honest support never changes, and every
    later block is linked to a quorum of each earlier round. *)

From S2P Require Import Prelude Order Committee DagBlock DagStore Protocol Committer.
From stdpp Require Import base gmap list strings.
From Stdlib Require Import NArith ZArith Lia.

(** ** World and views *)

(** [U] holds of every block that exists. References name blocks; the authors
    outside [Byz] make at most one block per round, each with its own previous
    block as first include; blocks are well formed. *)
Class DagWorld (C : Committee) (qt : Stake) (Byz : gset Authority) (U : Block → Prop) : Prop := {
  world_committee : committee_ok C;
  world_ref : ∀ b b', U b → U b' → reference b = reference b' → b = b';
  world_honest : ∀ b b', U b → U b' → author b ∉ Byz → author b = author b' →
    round b = round b' → b = b';
  world_own : ∀ b b', U b → U b' → author b ∉ Byz → author b = author b' → (round b < round b')%N →
    ∃ i incs, includes b' = i :: incs ∧ ref_authority i = author b ∧ (round b ≤ ref_round i)%N;
  world_wf : ∀ b, U b → well_formed C qt b;
  world_quorum : (0 < qt)%N
}.

(** A validator's view: what its reader shows is part of the world, with the
    whole past of each block. *)
Class DagView (U : Block → Prop) (R : BlockReader) (V : gmap BlockReference Block) : Prop := {
  view_laws :: ReaderLaws R V;
  view_world : ∀ r b, V !! r = Some b → U b;
  view_closed : ∀ r b i, V !! r = Some b → i ∈ includes b → is_Some (V !! i)
}.

(** The value of a test that cannot fail. *)
Definition okb (r : result bool) : bool := match r with Ok b => b | Err _ => false end.

Section Views.
Context {C : Committee} {qt : Stake} {Byz : gset Authority} {U : Block → Prop}
  `{HW : !DagWorld C qt Byz U}.

(** [b] is in the view. *)
Definition holds (V : gmap BlockReference Block) (b : Block) : Prop := V !! reference b = Some b.

Lemma view_holds R V `{!DagView U R V} r b : V !! r = Some b → holds V b.
Proof. intros Hb. unfold holds. by rewrite (law_keys (R := R) _ _ Hb). Qed.

Lemma holds_world R V `{!DagView U R V} b : holds V b → U b.
Proof. apply view_world. Qed.

Lemma holds_include R V `{!DagView U R V} b i :
  holds V b → i ∈ includes b → ∃ b', V !! i = Some b' ∧ reference b' = i ∧ holds V b' ∧
    (round b' < round b)%N.
Proof.
  intros Hb Hi. destruct (view_closed _ _ i Hb Hi) as [b' Hb'].
  pose proof (law_keys (R := R) _ _ Hb') as Hr. exists b'. split_and!; [done|done|by eapply view_holds|].
  pose proof (wf_includes _ _ _ (world_wf b (holds_world R V b Hb)) i Hi) as [_ Hlt].
  unfold round at 1. by rewrite Hr.
Qed.

Lemma expect_block_ok R V `{!DagView U R V} b : holds V b → expect_block R (reference b) = Ok b.
Proof. intros Hb. unfold expect_block. rewrite law_get. simpl. by rewrite Hb. Qed.

Lemma holds_same R1 V1 R2 V2 `{!DagView U R1 V1, !DagView U R2 V2} b1 b2 :
  holds V1 b1 → holds V2 b2 → reference b1 = reference b2 → b1 = b2.
Proof. intros H1 H2. apply world_ref; [by eapply (holds_world R1)|by eapply (holds_world R2)]. Qed.

(** ** Support *)

(** The inner loop of [find_support], by itself. *)
Fixpoint support_loop (R : BlockReader) (rec : Block → result (option BlockReference))
    (slot : Authority * RoundNumber) (incs : list BlockReference) : result (option BlockReference) :=
  match incs with
  | [] => Ok None
  | i :: incs =>
      if (ref_round i <? slot.2)%N then support_loop R rec slot incs
      else if bool_decide (author_round i = slot) then Ok (Some i)
      else
        let? b := expect_block R i in
        let? support := rec b in
        match support with Some s => Ok (Some s) | None => support_loop R rec slot incs end
  end.

Lemma find_support_unfold R fuel slot from :
  find_support_fuel R (S fuel) slot from
  = if (round from <? slot.2)%N then Ok None
    else support_loop R (find_support_fuel R fuel slot) slot (includes from).
Proof.
  simpl. case_match; [done|].
  induction (includes from) as [|i incs IH]; simpl; [done|]. by rewrite IH.
Qed.

(** The walk is total with any fuel above the round, finds only blocks of the
    slot that the view holds, and does not depend on the view. *)
Lemma find_support_ok R V `{!DagView U R V} slot fuel from :
  holds V from → (N.to_nat (round from) < fuel) →
  ∃ o, find_support_fuel R fuel slot from = Ok o ∧
    ∀ r, o = Some r → author_round r = slot ∧ is_Some (V !! r) ∧ (ref_round r < round from)%N.
Proof.
  revert from. induction fuel as [|fuel IH]; intros from Hf Hfuel; [lia|].
  rewrite find_support_unfold. case_match; [by eexists|].
  assert (∀ i, i ∈ includes from → i ∈ includes from) as Hsub by done. revert Hsub.
  generalize (includes from) at 1 3. intros incs.
  induction incs as [|i incs IHi]; intros Hsub; simpl; [by eexists|].
  destruct (IHi) as (o & Ho & Hspec); [set_solver|].
  destruct (holds_include R V from i) as (b & Hb & Hr & Hh & Hlt); [done|set_solver|].
  case_match; [by eexists|]. case_bool_decide as Hs.
  - eexists. split; [done|]. intros r [= <-]. split_and!; [done|by eexists|].
    unfold round in Hlt at 1. by rewrite Hr in Hlt.
  - subst i. rewrite (expect_block_ok R V b Hh). simpl.
    destruct (IH b Hh) as (o' & -> & Hspec'); [lia|]. simpl. destruct o' as [s|]; [|by eexists].
    eexists. split; [done|]. intros r [= <-]. destruct (Hspec' s eq_refl) as (? & ? & ?).
    split_and!; [done|done|lia].
Qed.

Lemma find_support_agree R1 V1 R2 V2 `{!DagView U R1 V1, !DagView U R2 V2} slot from f1 f2 :
  holds V1 from → holds V2 from → (N.to_nat (round from) < f1) → (N.to_nat (round from) < f2) →
  find_support_fuel R1 f1 slot from = find_support_fuel R2 f2 slot from.
Proof.
  revert f2 from. induction f1 as [|f1 IH]; intros f2 from H1 H2 Hf1 Hf2; [lia|].
  destruct f2 as [|f2]; [lia|]. rewrite !find_support_unfold. case_match; [done|].
  assert (∀ i, i ∈ includes from → i ∈ includes from) as Hsub by done. revert Hsub.
  generalize (includes from) at 1 3 4. intros incs.
  induction incs as [|i incs IHi]; intros Hsub; simpl; [done|].
  rewrite IHi by set_solver. case_match; [done|]. case_bool_decide; [done|].
  destruct (holds_include R1 V1 from i) as (b & Hb & Hr & Hh & Hlt); [done|set_solver|].
  destruct (holds_include R2 V2 from i) as (b' & Hb' & Hr' & Hh' & _); [done|set_solver|].
  assert (b = b') as <- by (eapply (holds_same R1 V1 R2 V2); [done|done|congruence]).
  subst i. rewrite (expect_block_ok R1 V1 b Hh), (expect_block_ok R2 V2 b Hh'). simpl.
  by rewrite (IH f2 b) by (done || lia).
Qed.

Lemma find_support_total R V `{!DagView U R V} slot b :
  holds V b → ∃ o, find_support R slot b = Ok o ∧
    ∀ r, o = Some r → author_round r = slot ∧ is_Some (V !! r) ∧ (ref_round r < round b)%N.
Proof. intros Hb. apply (find_support_ok R V); [done|lia]. Qed.

Lemma find_support_view R1 V1 R2 V2 `{!DagView U R1 V1, !DagView U R2 V2} slot b :
  holds V1 b → holds V2 b → find_support R1 slot b = find_support R2 slot b.
Proof. intros H1 H2. apply (find_support_agree R1 V1 R2 V2); (done || lia). Qed.

(** Support through the first include. *)
Lemma find_support_head R V `{!DagView U R V} slot b b' incs x :
  holds V b → includes b = reference b' :: incs → holds V b' →
  find_support R slot b' = Ok (Some x) → find_support R slot b = Ok (Some x).
Proof.
  intros Hb Hinc Hb' Hx.
  destruct (holds_include R V b (reference b')) as (b'' & Hl & _ & _ & Hlt);
    [done|rewrite Hinc; apply elem_of_cons; auto|].
  rewrite Hb' in Hl. injection Hl as <-.
  destruct (find_support_total R V slot b' Hb') as (o & Ho & Hspec). rewrite Hx in Ho. injection Ho as <-.
  destruct (Hspec x eq_refl) as (Hslot & _ & Hxb).
  assert (slot.2 = ref_round x) as Hs2 by (by rewrite <- Hslot).
  unfold find_support. rewrite find_support_unfold, Hinc. rewrite (proj2 (N.ltb_ge _ _)) by lia. simpl.
  change (ref_round (reference b')) with (round b'). rewrite (proj2 (N.ltb_ge _ _)) by lia.
  case_bool_decide as Hs.
  { exfalso. rewrite <- Hs in Hs2. unfold round in Hxb, Hlt. simpl in Hs2. lia. }
  rewrite (expect_block_ok R V b' Hb'). simpl.
  rewrite (find_support_agree R V R V _ _ _ (S (N.to_nat (round b')))) by (done || lia).
  unfold find_support in Hx. by rewrite Hx.
Qed.

(** Honest support is never withdrawn: a later block of an honest author
    supports what an earlier one does. *)
Lemma honest_support_kept R1 V1 R2 V2 `{!DagView U R1 V1, !DagView U R2 V2} slot b1 b2 x :
  holds V1 b1 → holds V2 b2 → author b1 ∉ Byz → author b1 = author b2 → (round b1 ≤ round b2)%N →
  find_support R1 slot b1 = Ok (Some x) → find_support R2 slot b2 = Ok (Some x).
Proof.
  intros H1 H2 Hh Ha. remember (N.to_nat (round b2)) as n eqn:Hn. revert b2 H2 Ha Hn.
  induction (lt_wf n) as [n _ IH]. intros b2 H2 Ha Hn Hle Hx.
  destruct (decide (round b1 = round b2)) as [Heq|Hne].
  { assert (b1 = b2) as <-.
    { apply world_honest; [by eapply (holds_world R1)|by eapply (holds_world R2)|done..]. }
    by rewrite <- (find_support_view R1 V1 R2 V2). }
  destruct (world_own b1 b2) as (i & incs & Hinc & Hia & Hir);
    [by eapply (holds_world R1)|by eapply (holds_world R2)|done|done|lia|].
  destruct (holds_include R2 V2 b2 i) as (b' & Hb' & Hr & Hh' & Hlt);
    [done|rewrite Hinc; apply elem_of_cons; auto|].
  subst i. eapply (find_support_head R2 V2); [done|done|done|].
  apply (IH (N.to_nat (round b'))); [lia|done|done|done|done|done].
Qed.

Lemma honest_support_unique R1 V1 R2 V2 `{!DagView U R1 V1, !DagView U R2 V2} slot b1 b2 x y :
  holds V1 b1 → holds V2 b2 → author b1 ∉ Byz → author b1 = author b2 →
  find_support R1 slot b1 = Ok (Some x) → find_support R2 slot b2 = Ok (Some y) → x = y.
Proof.
  intros H1 H2 Hh Ha Hx Hy. destruct (N.le_ge_cases (round b1) (round b2)) as [Hle|Hle].
  - rewrite (honest_support_kept R1 V1 R2 V2 slot b1 b2 x) in Hy by done. congruence.
  - rewrite (honest_support_kept R2 V2 R1 V1 slot b2 b1 y) in Hx by (done || congruence). congruence.
Qed.

(** ** Votes and certificates *)

Lemma is_vote_ok R V `{!DagView U R V} b B :
  holds V b → is_vote R b B = Ok (okb (is_vote R b B)).
Proof.
  intros Hb. unfold is_vote.
  destruct (find_support_total R V (author_round (reference B)) b Hb) as (o & -> & _). done.
Qed.

Lemma is_vote_true R V `{!DagView U R V} b B :
  holds V b →
  okb (is_vote R b B) = true ↔ find_support R (author_round (reference B)) b = Ok (Some (reference B)).
Proof.
  intros Hb. unfold is_vote.
  destruct (find_support_total R V (author_round (reference B)) b Hb) as (o & -> & _). simpl.
  rewrite bool_decide_eq_true. naive_solver.
Qed.

Lemma is_vote_view R1 V1 R2 V2 `{!DagView U R1 V1, !DagView U R2 V2} b B :
  holds V1 b → holds V2 b → is_vote R1 b B = is_vote R2 b B.
Proof. intros H1 H2. unfold is_vote. by rewrite (find_support_view R1 V1 R2 V2). Qed.

(** A vote names a block of the view. *)
Lemma vote_holds R V `{!DagView U R V} b B :
  holds V b → U B → okb (is_vote R b B) = true → holds V B ∧ (round B < round b)%N.
Proof.
  intros Hb HB Hv. apply (is_vote_true R V) in Hv; [|done].
  destruct (find_support_total R V (author_round (reference B)) b Hb) as (o & Ho & Hspec).
  rewrite Ho in Hv. injection Hv as ->. destruct (Hspec _ eq_refl) as (_ & [B' HB'] & Hlt).
  pose proof (law_keys (R := R) _ _ HB') as Hr.
  assert (B' = B) as -> by (apply world_ref; [by eapply view_world|done|done]). done.
Qed.

(** The authors of the votes a block includes. *)
Definition vote_included (R : BlockReader) (B : Block) (i : BlockReference) : bool :=
  match expect_block R i with Ok b => okb (is_vote R b B) | Err _ => false end.
Definition included_voters (R : BlockReader) (B b : Block) : gset Authority :=
  authors_of ref_authority (vote_included R B) (includes b).

Lemma elem_of_included_voters R V `{!DagView U R V} B b a :
  holds V b →
  a ∈ included_voters R B b ↔
  ∃ v, holds V v ∧ author v = a ∧ reference v ∈ includes b ∧ okb (is_vote R v B) = true.
Proof.
  intros Hb. unfold included_voters, vote_included. rewrite elem_of_authors_of. split.
  - intros (i & -> & Hv & Hi). destruct (holds_include R V b i) as (v & _ & <- & Hh & _); [done|done|].
    rewrite (expect_block_ok R V v Hh) in Hv. by exists v.
  - intros (v & Hh & <- & Hi & Hv). exists (reference v). by rewrite (expect_block_ok R V v Hh).
Qed.

Lemma carries_certificate_ok R V `{!DagView U R V} bc b B :
  holds V b → bc_committee bc = C → (0 < bc_certificate_quorum bc)%N →
  carries_certificate R bc b B
  = Ok (bc_certificate_quorum bc <=? stake_of C (included_voters R B b))%N.
Proof.
  intros Hb HC Hq. unfold carries_certificate. rewrite HC. apply aggregate_spec; [done| |].
  - intros i Hi. unfold vote_included.
    destruct (holds_include R V b i) as (v & _ & <- & Hh & _); [done|done|].
    rewrite (expect_block_ok R V v Hh). simpl. rewrite (is_vote_ok R V v B Hh) at 1. done.
  - intros i Hi _. by apply (wf_includes _ _ _ (world_wf b (holds_world R V b Hb)) i Hi).
Qed.

Lemma included_voters_view R1 V1 R2 V2 `{!DagView U R1 V1, !DagView U R2 V2} B b :
  holds V1 b → holds V2 b → included_voters R1 B b = included_voters R2 B b.
Proof.
  intros H1 H2. apply authors_of_ext. intros i Hi. unfold vote_included.
  destruct (holds_include R1 V1 b i) as (v & _ & <- & Hh & _); [done|done|].
  destruct (holds_include R2 V2 b (reference v)) as (v' & _ & Hr & Hh' & _); [done|done|].
  assert (v' = v) as -> by (by eapply (holds_same R2 V2 R1 V1)).
  rewrite (expect_block_ok R1 V1 v Hh), (expect_block_ok R2 V2 v Hh').
  by rewrite (is_vote_view R1 V1 R2 V2 v B Hh Hh').
Qed.

(** ** Links *)

(** One step back in the DAG, to the previous round. *)
Definition parent (x y : Block) : Prop := U y ∧ reference y ∈ includes x ∧ (round x = round y + 1)%N.
Definition chain : Block → Block → Prop := rtc parent.

Lemma chain_round x y : chain x y → (round y ≤ round x)%N.
Proof. induction 1 as [|x y z (_ & _ & ?) _ IH]; lia. Qed.

Lemma chain_holds R V `{!DagView U R V} x y : holds V x → chain x y → holds V y.
Proof.
  intros Hx Hc. induction Hc as [|x y z (Hy & Hi & _) _ IH]; [done|]. apply IH.
  destruct (holds_include R V x (reference y)) as (y' & Hl & Hr & Hh & _); [done|done|].
  assert (y' = y) as <- by (apply world_ref; [by eapply (holds_world R)|done|done]). done.
Qed.

Lemma rounds_down_snoc lo hi : (lo < hi)%N → rounds_down lo hi = rounds_down (lo + 1) hi ++ [lo].
Proof.
  intros Hlt. unfold rounds_down.
  replace (N.to_nat (hi - lo)) with (S (N.to_nat (hi - (lo + 1)))) by lia.
  simpl. rewrite reverse_cons, N2Nat.id. do 4 f_equal. lia.
Qed.

Lemma link_down_app R ps rs1 rs2 :
  link_down R ps (rs1 ++ rs2) = let? ps' := link_down R ps rs1 in link_down R ps' rs2.
Proof.
  revert ps. induction rs1 as [|r rs1 IH]; intros ps; simpl; [done|].
  destruct (get_blocks_by_round R r); simpl; [apply IH|done].
Qed.

Lemma link_down_spec R V `{!DagView U R V} x k :
  holds V x → (N.of_nat k ≤ round x)%N →
  ∃ l, link_down R [x] (rounds_down (round x - N.of_nat k) (round x)) = Ok l ∧
    ∀ y, y ∈ l ↔ chain x y ∧ round y = (round x - N.of_nat k)%N.
Proof.
  intros Hx. induction k as [|k IH]; intros Hk.
  - unfold rounds_down. replace (round x - (round x - N.of_nat 0))%N with 0%N by lia. simpl.
    exists [x]. split; [done|]. intros y. rewrite list_elem_of_singleton. split.
    + intros ->. split; [by apply rtc_refl|lia].
    + intros [Hc Hr]. inversion Hc as [|? z ? (_ & _ & Hxz) Hzy]; [done|]. subst.
      apply chain_round in Hzy. lia.
  - destruct IH as (l & Hl & Hspec); [lia|].
    rewrite rounds_down_snoc by lia.
    replace (round x - N.of_nat (S k) + 1)%N with (round x - N.of_nat k)%N by lia.
    rewrite link_down_app, Hl. simpl.
    destruct (law_round (R := R) (V := V) (round x - N.of_nat (S k))%N) as (bs & -> & _ & Hbs). simpl.
    eexists. split; [done|]. intros y. rewrite list_elem_of_filter, existsb_exists, Hbs. split.
    + intros ((p & Hp%list_elem_of_In & Hi%bool_decide_eq_true) & Hy & Hr).
      apply Hspec in Hp as [Hc Hrp]. split; [|done]. eapply rtc_r; [exact Hc|].
      split_and!; [by eapply (holds_world R)|done|lia].
    + intros [Hc Hr]. destruct (rtc_inv_r _ _ Hc) as [->|(p & Hcp & (Hy & Hi & Hrp))]; [lia|].
      split; [|by split; [eapply (chain_holds R V); [exact Hx|]|]].
      exists p. rewrite <- list_elem_of_In. split; [apply Hspec; split; [done|lia]|].
      by apply bool_decide_eq_true.
Qed.

Lemma linked_spec R V `{!DagView U R V} x y :
  holds V x → holds V y → ∃ v, linked R x y = Ok v ∧ (v = true ↔ chain x y).
Proof.
  intros Hx Hy. unfold linked. destruct (N.le_gt_cases (round y) (round x)) as [Hle|Hgt].
  - destruct (link_down_spec R V x (N.to_nat (round x - round y))) as (l & Hl & Hspec); [done|lia|].
    replace (round x - N.of_nat (N.to_nat (round x - round y)))%N with (round y) in * by lia.
    rewrite Hl. simpl. eexists. split; [done|]. rewrite existsb_exists. split.
    + intros (z & Hz%list_elem_of_In & Heq%bool_decide_eq_true). apply Hspec in Hz as [Hc _].
      assert (y = z) as ->; [|done].
      eapply (holds_same R V R V); [done|exact (chain_holds R V x z Hx Hc)|done].
    + intros Hc. exists y. rewrite <- list_elem_of_In, Hspec. split; [done|].
      by apply bool_decide_eq_true.
  - unfold rounds_down. replace (round x - round y)%N with 0%N by lia. simpl.
    eexists. split; [done|]. rewrite orb_false_r. unfold block_eqb. rewrite bool_decide_eq_true.
    split; [|intros Hc%chain_round; lia].
    intros Heq. assert (y = x) as -> by (by eapply (holds_same R V R V)). lia.
Qed.

Lemma linked_ok R V `{!DagView U R V} x y :
  holds V x → holds V y → linked R x y = Ok (okb (linked R x y)).
Proof. intros Hx Hy. destruct (linked_spec R V x y Hx Hy) as (v & -> & _). done. Qed.

Lemma linked_true R V `{!DagView U R V} x y :
  holds V x → holds V y → okb (linked R x y) = true ↔ chain x y.
Proof. intros Hx Hy. destruct (linked_spec R V x y Hx Hy) as (v & -> & Hv). done. Qed.

(** ** Blocks and authors at a round *)

Definition round_blocks (R : BlockReader) (n : RoundNumber) : list Block :=
  match get_blocks_by_round R n with Ok l => l | Err _ => [] end.

Lemma round_blocks_ok R V `{!DagView U R V} n : get_blocks_by_round R n = Ok (round_blocks R n).
Proof. unfold round_blocks. by destruct (law_round (R := R) (V := V) n) as (l & -> & _). Qed.

Lemma elem_of_round_blocks R V `{!DagView U R V} n b :
  b ∈ round_blocks R n ↔ holds V b ∧ round b = n.
Proof.
  unfold round_blocks. destruct (law_round (R := R) (V := V) n) as (l & -> & _ & Hl). apply Hl.
Qed.

(** The authors of the blocks of round [n] that pass a test. *)
Definition at_round (R : BlockReader) (n : RoundNumber) (q : Block → bool) : gset Authority :=
  authors_of author q (round_blocks R n).

Lemma elem_of_at_round R V `{!DagView U R V} n q a :
  a ∈ at_round R n q ↔ ∃ b, holds V b ∧ round b = n ∧ author b = a ∧ q b = true.
Proof.
  unfold at_round. rewrite elem_of_authors_of. setoid_rewrite (elem_of_round_blocks R V).
  naive_solver.
Qed.

Lemma aggregate_round R V `{!DagView U R V} n p t :
  (0 < t)%N → (∀ b, holds V b → round b = n → p b = Ok (okb (p b))) →
  aggregate_any C author p (aggregator_new t) (round_blocks R n)
  = Ok (t <=? stake_of C (at_round R n (λ b, okb (p b))))%N.
Proof.
  intros Ht Hp. apply aggregate_any_spec; [done| |].
  - intros b [Hb Hr]%(elem_of_round_blocks R V). by apply Hp.
  - intros b [Hb _]%(elem_of_round_blocks R V) _.
    apply (wf_author _ _ _ (world_wf b (holds_world R V b Hb))).
Qed.

Definition linked_at (R : BlockReader) (x : Block) (n : RoundNumber) : gset Authority :=
  at_round R n (λ b, okb (linked R x b)).

(** Every block is linked to a quorum of each earlier round. *)
Lemma linked_quorum R V `{!DagView U R V} x n :
  holds V x → (n < round x)%N → (qt ≤ stake_of C (linked_at R x n))%N.
Proof.
  intros Hx Hn.
  assert (∃ y, chain x y ∧ round y = (n + 1)%N) as (y & Hc & Hr).
  { remember (N.to_nat (round x - (n + 1))) as k eqn:Hk. revert x Hx Hn Hk.
    induction k as [|k IH]; intros x Hx Hn Hk.
    { exists x. split; [apply rtc_refl|lia]. }
    pose proof (world_wf x (holds_world R V x Hx)) as Hwf.
    pose proof (wf_quorum _ _ _ Hwf ltac:(lia)) as Hq. pose proof world_quorum.
    destruct (stake_of_positive C (parents_at x (round x - 1))) as (a & Ha & _); [lia|].
    apply elem_of_authors_of in Ha as (i & _ & Hi%N.eqb_eq & Hin).
    destruct (holds_include R V x i) as (z & Hz & Hzr & Hzh & Hlt); [done|done|].
    assert (round z = (round x - 1)%N) as Hrz by (unfold round; by rewrite Hzr).
    destruct (IH z) as (y & Hc & Hy); [done|lia|lia|].
    exists y. split; [|done]. eapply rtc_l; [|exact Hc].
    split_and!; [by eapply (holds_world R)|by rewrite Hzr|lia]. }
  pose proof (chain_holds R V x y Hx Hc) as Hy.
  pose proof (wf_quorum _ _ _ (world_wf y (holds_world R V y Hy)) ltac:(lia)) as Hq.
  replace (round y - 1)%N with n in Hq by lia.
  etrans; [exact Hq|]. apply stake_of_mono. intros a _ Ha.
  apply elem_of_authors_of in Ha as (i & -> & Hi%N.eqb_eq & Hin).
  destruct (holds_include R V y i) as (z & Hz & Hzr & Hzh & _); [done|done|].
  assert (round z = n) as Hrz by (unfold round; by rewrite Hzr).
  apply (elem_of_at_round R V). exists z. split_and!; [done|done|by rewrite <- Hzr|].
  apply (linked_true R V); [done|done|]. eapply rtc_r; [exact Hc|].
  split_and!; [by eapply (holds_world R)|by rewrite Hzr|lia].
Qed.
End Views.
