(* ===== verification/CommitRules.v ===== *)
(** * Meaning of the decision rules, and why they cannot disagree

    One slot of one base committer, read in two views of the same world. The
    direct and the indirect rule are characterised by the stake behind a leader
    block; quorum intersection then shows that no two decisions about the slot
    conflict, whichever rule each view used. *)

From S2P Require Import Prelude Order Committee DagBlock DagStore Protocol Committer CommitSupport.
From stdpp Require Import base gmap list strings.
From Stdlib Require Import NArith ZArith Lia.

(** ** Waves *)

Lemma leader_round_fix w r : Wave.is_leader_round w r = true → Wave.leader_round w (Wave.number w r) = r.
Proof. apply N.eqb_eq. Qed.

(** The round is a leader round exactly when it lies a multiple of the wave
    length after the offset. *)
Lemma is_leader_round_iff w r :
  (0 < wave_length w)%N →
  Wave.is_leader_round w r = true ↔
  (round_offset w ≤ r)%N ∧ ((r - round_offset w) mod wave_length w = 0)%N.
Proof.
  intros Hw. unfold Wave.is_leader_round, Wave.leader_round, Wave.number. rewrite N.eqb_eq.
  pose proof (N.div_mod (r - round_offset w) (wave_length w)) as Hdm.
  pose proof (N.mod_lt (r - round_offset w) (wave_length w)) as Hlt.
  rewrite (N.mul_comm (wave_length w)) in Hdm. revert Hdm Hlt.
  generalize ((r - round_offset w) / wave_length w * wave_length w)%N. intros k Hdm Hlt. lia.
Qed.

(** ** Least digests *)

Lemma min_by_digest_spec l :
  match min_by_digest l with
  | Some m => m ∈ l ∧ ∀ x, x ∈ l → bytes_le (block_digest m) (block_digest x)
  | None => l = []
  end.
Proof.
  induction l as [|b l IH]; simpl; [done|].
  destruct (min_by_digest l) as [m|].
  - destruct IH as [Hm Hmin]. destruct (bytes_leb (block_digest b) (block_digest m)) eqn:E.
    + split; [set_solver|]. intros x [->|Hx]%elem_of_cons; [reflexivity|].
      etrans; [exact E|by apply Hmin].
    + split; [set_solver|]. intros x [->|Hx]%elem_of_cons; [|by apply Hmin].
      destruct (total bytes_le (block_digest b) (block_digest m)) as [H|H]; [|done].
      unfold bytes_le in H. congruence.
  - subst l. split; [set_solver|]. intros x [->|Hx]%elem_of_cons; [reflexivity|set_solver].
Qed.

Lemma filter_result_spec {A} (p : A → result bool) (q : A → bool) l :
  (∀ x, x ∈ l → p x = Ok (q x)) → filter_result p l = Ok (filter (λ x, q x = true) l).
Proof.
  induction l as [|x l IH]; intros H; simpl; [done|].
  rewrite H, IH by set_solver. simpl. destruct (q x) eqn:E; simpl.
  - by rewrite filter_cons_True.
  - by rewrite filter_cons_False by congruence.
Qed.

Lemma leb_decide (a b : N) (P : Prop) `{!Decision P} :
  ((a ≤ b)%N ↔ P) → (a <=? b)%N = bool_decide P.
Proof. intros H. apply eq_true_iff_eq. by rewrite N.leb_le, bool_decide_eq_true. Qed.

Lemma and_result_ok a b x y : a = Ok x → (x = true → b = Ok y) → and_result a b = Ok (x && y).
Proof. intros -> Hb. unfold and_result. simpl. destruct x; [by rewrite Hb|done]. Qed.

(** ** Statuses and anchors *)

(** The block a decided slot commits. *)
Definition committed (s : LeaderStatus) : option Block :=
  match s with DirectCommit b _ | IndirectCommit b _ => Some b | _ => None end.

(** The anchor of the indirect rule: the first committed leader from [bound] on,
    if no undecided one precedes it. *)
Fixpoint anchor_of (bound : RoundNumber) (leaders : list LeaderStatus) : option Block :=
  match leaders with
  | [] => None
  | s :: leaders =>
      if (bound <=? status_round s)%N then
        match committed s with
        | Some b => Some b
        | None => if is_decided s then anchor_of bound leaders else None
        end
      else anchor_of bound leaders
  end.

Lemma try_indirect_decide_eq R bc leader r leaders :
  try_indirect_decide R bc leader r leaders
  = match anchor_of (r + wave_length (bc_wave bc)) leaders with
    | Some A => decide_leader_from_anchor R bc A leader r
    | None => Ok (Undecided leader r)
    end.
Proof.
  induction leaders as [|s leaders IH]; cbn [try_indirect_decide anchor_of]; [done|].
  destruct (_ <=? _)%N; [|done]. destruct s; cbn [committed is_decided]; done.
Qed.

(** Every leader committed so far is a block of the view. *)
Definition leaders_held (V : gmap BlockReference Block) (leaders : list LeaderStatus) : Prop :=
  Forall (λ s, ∀ b, committed s = Some b → holds V b) leaders.

Lemma anchor_of_spec V bound leaders A :
  leaders_held V leaders → anchor_of bound leaders = Some A → holds V A ∧ (bound ≤ round A)%N.
Proof.
  induction 1 as [|s leaders Hs _ IH]; simpl; [done|].
  case_match eqn:Hb; [|done]. apply N.leb_le in Hb. destruct (committed s) as [b|] eqn:Hc.
  - intros [= <-]. split; [by apply Hs|]. destruct s; simpl in *; naive_solver.
  - by case_match.
Qed.

(** Two statuses of one slot that do not contradict each other. *)
Definition status_agree (s1 s2 : LeaderStatus) : Prop :=
  status_slot s1 = status_slot s2 ∧
  (is_decided s1 = true → is_decided s2 = true → committed s1 = committed s2).

(** The later status of a slot keeps an earlier decision. *)
Definition status_extends (s1 s2 : LeaderStatus) : Prop :=
  status_slot s1 = status_slot s2 ∧
  (is_decided s1 = true → is_decided s2 = true ∧ committed s1 = committed s2).

(** Two lists related position by position, as far as both go. *)
Inductive overlap {A} (P : A → A → Prop) : list A → list A → Prop :=
| overlap_nil_l l : overlap P [] l
| overlap_nil_r l : overlap P l []
| overlap_cons x y l k : P x y → overlap P l k → overlap P (x :: l) (y :: k).

Lemma overlap_prefix {A} (P : A → A → Prop) l k : Forall2 P l (take (length l) k) → overlap P l k.
Proof.
  revert k. induction l as [|x l IH]; intros k H; [constructor|].
  destruct k as [|y k]; simpl in H; inversion H; subst. constructor; auto.
Qed.

Lemma anchor_agree bound L1 L2 A1 A2 :
  overlap status_agree L1 L2 →
  anchor_of bound L1 = Some A1 → anchor_of bound L2 = Some A2 → A1 = A2.
Proof.
  induction 1 as [| |s1 s2 L1 L2 [Hslot Hdec] _ IH]; [done..|]. simpl.
  assert (status_round s1 = status_round s2) as -> by (unfold status_slot in Hslot; congruence).
  case_match; [|done].
  assert (∀ s b, committed s = Some b → is_decided s = true) as Hcd by (by intros []).
  destruct (committed s1) as [b1|] eqn:E1, (committed s2) as [b2|] eqn:E2; simpl.
  - intros [= <-] [= <-]. specialize (Hdec (Hcd _ _ E1) (Hcd _ _ E2)). congruence.
  - intros _. case_match eqn:Hd; [|done]. specialize (Hdec (Hcd _ _ E1) eq_refl). congruence.
  - case_match eqn:Hd; [|done]. specialize (Hdec eq_refl (Hcd _ _ E2)). congruence.
  - do 2 case_match; try done.
Qed.

Lemma anchor_extends bound L1 L2 A :
  Forall2 status_extends L1 (take (length L1) L2) →
  anchor_of bound L1 = Some A → anchor_of bound L2 = Some A.
Proof.
  revert L2. induction L1 as [|s1 L1 IH]; intros L2 HF; [done|].
  destruct L2 as [|s2 L2]; simpl in HF; inversion HF as [|? ? ? ? [Hslot Hdec] HF']; subst. simpl.
  assert (status_round s1 = status_round s2) as -> by (unfold status_slot in Hslot; congruence).
  case_match; [|by apply IH].
  assert (∀ s b, committed s = Some b → is_decided s = true) as Hcd by (by intros []).
  destruct (committed s1) as [b1|] eqn:E1.
  - intros [= <-]. destruct (Hdec (Hcd _ _ E1)) as [_ <-]. done.
  - case_match eqn:Hd; [|done]. destruct (Hdec eq_refl) as [Hd2 <-]. rewrite Hd2. by apply IH.
Qed.

Section Rules.
Context {C : Committee} {Byz : gset Authority} {U : Block → Prop} (p : Protocol) (f : Stake)
  `{HW : !DagWorld C (quorum_threshold p) Byz U}
  (Hsafe : safe_thresholds p (total_stake C) f) (Hbyz : (stake_of C Byz ≤ f)%N)
  (e : LeaderElector) (lo ro : RoundNumber) (leader : Authority) (r : RoundNumber).

Abbreviation bc := (base_new C e p lo ro).
Abbreviation T := (total_stake C).
Abbreviation wl := (protocol_wave_length p).

Context (Hleader : Wave.is_leader_round (bc_wave bc) r = true).

Definition voting : RoundNumber := Wave.voting_round (bc_wave bc) (Wave.number (bc_wave bc) r).
Definition decision : RoundNumber := Wave.decision_round (bc_wave bc) (Wave.number (bc_wave bc) r).

Lemma decision_eq : decision = (r + wl - 1)%N.
Proof. unfold decision, Wave.decision_round. by rewrite leader_round_fix. Qed.

Lemma voting_merged : merged_certificates p = true → voting = decision.
Proof. unfold voting, Wave.voting_round. simpl. by intros ->. Qed.

Lemma voting_unmerged : merged_certificates p = false → (voting + 1 = decision)%N.
Proof.
  intros Hm. pose proof (proj2 (safe_wave _ _ _ Hsafe) Hm). pose proof decision_eq as Hd.
  unfold voting, Wave.voting_round. simpl. rewrite Hm.
  change (Wave.decision_round _ _) with decision.
  rewrite leader_round_fix by done. lia.
Qed.

Lemma rounds_order : (r < voting ∧ voting ≤ decision ∧ decision < r + wl)%N.
Proof.
  pose proof decision_eq. pose proof (safe_wave _ _ _ Hsafe) as [Hw Hw3].
  destruct (merged_certificates p) eqn:Hm.
  - rewrite voting_merged by done. lia.
  - pose proof (voting_unmerged Hm). specialize (Hw3 eq_refl). lia.
Qed.

(** ** Stake behind a block, in one view *)

Definition slot_block (B : Block) : Prop := U B ∧ author B = leader ∧ round B = r.

Definition voters (R : BlockReader) (B : Block) : gset Authority :=
  at_round R voting (λ b, okb (is_vote R b B)).
Definition certifiers (R : BlockReader) (B : Block) : gset Authority :=
  at_round R decision (λ b, okb (carries_certificate R bc b B)).
Definition blame (R : BlockReader) (b : Block) : result bool :=
  let? support := find_support R (leader, r) b in Ok (bool_decide (support = None)).
Definition blamers (R : BlockReader) : gset Authority := at_round R voting (λ b, okb (blame R b)).
Definition linked_voters (R : BlockReader) (A B : Block) : gset Authority :=
  at_round R voting (λ b, okb (linked R A b) && okb (is_vote R b B)).
Definition linked_certifiers (R : BlockReader) (A B : Block) : gset Authority :=
  at_round R decision (λ b, okb (linked R A b) && okb (carries_certificate R bc b B)).

(** The conditions of the four rules. *)
Definition skipped (R : BlockReader) : Prop := (direct_skip_quorum p ≤ stake_of C (blamers R))%N.
Definition slow (R : BlockReader) (B : Block) : Prop :=
  if merged_certificates p then (direct_commit_quorum p ≤ stake_of C (voters R B))%N
  else (direct_commit_quorum p ≤ stake_of C (certifiers R B))%N.
Definition fast (R : BlockReader) (B : Block) : Prop :=
  ∃ fp, fast_path p = Some fp ∧ (commit_quorum fp ≤ stake_of C (voters R B))%N.
Definition certified (R : BlockReader) (A B : Block) : Prop :=
  if merged_certificates p then (anchor_link_size p ≤ stake_of C (linked_voters R A B))%N
  else (anchor_link_size p ≤ stake_of C (linked_certifiers R A B))%N.
Definition weak (R : BlockReader) (A B : Block) : Prop :=
  ∃ fp, fast_path p = Some fp ∧ (weak_indirect_quorum fp ≤ stake_of C (linked_voters R A B))%N.

#[local] Instance skipped_dec R : Decision (skipped R).
Proof. unfold skipped. apply _. Defined.
#[local] Instance slow_dec R B : Decision (slow R B).
Proof. unfold slow. destruct (merged_certificates p); apply _. Defined.
#[local] Instance certified_dec R A B : Decision (certified R A B).
Proof. unfold certified. destruct (merged_certificates p); apply _. Defined.
#[local] Instance fast_dec R B : Decision (fast R B).
Proof.
  refine (match fast_path p as o return fast_path p = o → _ with
          | None => λ E, right _
          | Some fp => λ E, cast_if (decide (commit_quorum fp ≤ stake_of C (voters R B))%N)
          end eq_refl); abstract (unfold fast; naive_solver).
Defined.
#[local] Instance weak_dec R A B : Decision (weak R A B).
Proof.
  refine (match fast_path p as o return fast_path p = o → _ with
          | None => λ E, right _
          | Some fp => λ E, cast_if (decide (weak_indirect_quorum fp ≤ stake_of C (linked_voters R A B))%N)
          end eq_refl); abstract (unfold weak; naive_solver).
Defined.

(** ** The tests are total *)

Section OneView.
Context (R : BlockReader) (V : gmap BlockReference Block) `{HV : !DagView U R V}.

Lemma cert_ok b B : holds V b → carries_certificate R bc b B = Ok (okb (carries_certificate R bc b B)).
Proof.
  intros Hb. pose proof (safe_positive _ _ _ Hsafe).
  rewrite (carries_certificate_ok R V) by (done || naive_solver). done.
Qed.

Lemma blame_ok b : holds V b → blame R b = Ok (okb (blame R b)).
Proof.
  intros Hb. unfold blame. destruct (find_support_total R V (leader, r) b Hb) as (o & -> & _). done.
Qed.

Lemma blame_spec :
  enough_leader_blame R bc (round_blocks R voting) leader r = Ok (bool_decide (skipped R)).
Proof.
  unfold enough_leader_blame. pose proof (safe_positive _ _ _ Hsafe) as (_ & Hpos & _).
  change (bc_committee bc) with C.
  etrans; [apply (aggregate_round R V _ (blame R)); [done|auto using blame_ok]|].
  f_equal. by apply leb_decide.
Qed.

Lemma slow_spec B : enough_leader_support R bc decision B = Ok (bool_decide (slow R B)).
Proof.
  unfold enough_leader_support. rewrite (round_blocks_ok R V). simpl.
  pose proof (safe_positive _ _ _ Hsafe) as (Hpos & _).
  destruct (merged_certificates p) eqn:Hm.
  - etrans; [apply (aggregate_round R V); [done|eauto using is_vote_ok]|].
    f_equal. apply leb_decide. unfold slow, voters. by rewrite Hm, voting_merged.
  - etrans; [apply (aggregate_round R V); [done|auto using cert_ok]|].
    f_equal. apply leb_decide. unfold slow. by rewrite Hm.
Qed.

Lemma fast_spec B :
  enough_fast_path_support R bc (round_blocks R voting) B = Ok (bool_decide (fast R B)).
Proof.
  unfold enough_fast_path_support. simpl. destruct (fast_path p) as [fp|] eqn:Hfp.
  - pose proof (safe_fast _ _ _ Hsafe fp Hfp) as [[Hpos _] _].
    etrans; [apply (aggregate_round R V); [done|eauto using is_vote_ok]|].
    f_equal. apply leb_decide. unfold fast. naive_solver.
  - f_equal. symmetry. apply bool_decide_eq_false. unfold fast. naive_solver.
Qed.

Lemma linked_vote_ok A B b :
  holds V A → holds V b →
  and_result (linked R A b) (is_vote R b B) = Ok (okb (linked R A b) && okb (is_vote R b B)).
Proof. intros HA Hb. apply and_result_ok; eauto using linked_ok, is_vote_ok. Qed.

Lemma linked_cert_ok A B b :
  holds V A → holds V b →
  and_result (linked R A b) (carries_certificate R bc b B)
  = Ok (okb (linked R A b) && okb (carries_certificate R bc b B)).
Proof. intros HA Hb. apply and_result_ok; eauto using linked_ok, cert_ok. Qed.

Lemma linked_voters_eq A B :
  holds V A →
  at_round R voting (λ b, okb (and_result (linked R A b) (is_vote R b B))) = linked_voters R A B.
Proof.
  intros HA. apply authors_of_ext. intros b [Hb _]%(elem_of_round_blocks R V).
  by rewrite (linked_vote_ok A B b).
Qed.

Lemma certified_spec A B :
  holds V A →
  certified_by R bc A (round_blocks R decision) B = Ok (bool_decide (certified R A B)).
Proof.
  intros HA. unfold certified_by. simpl.
  pose proof (safe_positive _ _ _ Hsafe) as (_ & _ & _ & _ & Hpos).
  destruct (merged_certificates p) eqn:Hm;
    (etrans; [apply (aggregate_round R V); [done|]|]);
    [intros b Hb _; by rewrite (linked_vote_ok A B b)| |
     intros b Hb _; by rewrite (linked_cert_ok A B b)|]; f_equal; apply leb_decide;
    unfold certified; rewrite Hm.
  - by rewrite <- (linked_voters_eq A B HA), voting_merged.
  - assert (at_round R decision (λ b, okb (and_result (linked R A b) (carries_certificate R bc b B)))
            = linked_certifiers R A B) as ->; [|done].
    apply authors_of_ext. intros b [Hb _]%(elem_of_round_blocks R V). by rewrite (linked_cert_ok A B b).
Qed.

Lemma weak_spec fp A B :
  holds V A → fast_path p = Some fp →
  weakly_backed R bc fp A (round_blocks R voting) B = Ok (bool_decide (weak R A B)).
Proof.
  intros HA Hfp. unfold weakly_backed. pose proof (safe_fast _ _ _ Hsafe fp Hfp) as [[_ Hpos] _].
  etrans; [apply (aggregate_round R V); [done|]|].
  { intros b Hb _. by rewrite (linked_vote_ok A B b). }
  f_equal. rewrite linked_voters_eq by done. apply leb_decide. unfold weak. naive_solver.
Qed.

(** ** The indirect rule *)

Definition best (q : Block → Prop) (B : Block) : Prop :=
  q B ∧ ∀ B', slot_block B' → holds V B' → q B' → bytes_le (block_digest B) (block_digest B').

Lemma min_filter (q : Block → Prop) `{!∀ B, Decision (q B)} l :
  (∀ B, B ∈ l ↔ holds V B ∧ author B = leader ∧ round B = r) →
  match min_by_digest (filter (λ B, bool_decide (q B) = true) l) with
  | Some B => slot_block B ∧ holds V B ∧ best q B
  | None => ∀ B, slot_block B → holds V B → ¬ q B
  end.
Proof.
  intros Hl. pose proof (min_by_digest_spec (filter (λ B, bool_decide (q B) = true) l)) as Hm.
  assert (∀ B, B ∈ filter (λ B, bool_decide (q B) = true) l ↔ q B ∧ slot_block B ∧ holds V B) as Hin.
  { intros B. rewrite list_elem_of_filter, bool_decide_eq_true, Hl. unfold slot_block.
    split; [|naive_solver]. intros (? & Hh & ? & ?). split_and!; try done. by eapply (holds_world R). }
  destruct (min_by_digest _) as [B|].
  - destruct Hm as [(HqB & HsB & HhB)%Hin Hmin]. split_and!; [done|done|]. split; [done|].
    intros B' Hs' Hh' Hq'. apply Hmin, Hin. done.
  - intros B HsB HhB HqB. assert (B ∈ []) as []%not_elem_of_nil. rewrite <- Hm. by apply Hin.
Qed.

(** What [decide_leader_from_anchor] answers. *)
Definition anchor_spec (A : Block) (s : LeaderStatus) : Prop :=
  match s with
  | IndirectCommit B Certificate => slot_block B ∧ holds V B ∧ best (certified R A) B
  | IndirectCommit B WeakQuorum =>
      (∀ B', slot_block B' → holds V B' → ¬ certified R A B') ∧
      slot_block B ∧ holds V B ∧ best (weak R A) B
  | IndirectSkip a n =>
      a = leader ∧ n = r ∧
      (∀ B', slot_block B' → holds V B' → ¬ certified R A B' ∧ ¬ weak R A B')
  | _ => False
  end.

Lemma decide_from_anchor_spec A :
  holds V A → ∃ s, decide_leader_from_anchor R bc A leader r = Ok s ∧ anchor_spec A s.
Proof.
  intros HA. unfold decide_leader_from_anchor.
  destruct (law_authority (R := R) (V := V) leader r) as (l & -> & _ & Hl). simpl.
  change (Wave.decision_round _ _) with decision. change (Wave.voting_round _ _) with voting.
  rewrite (round_blocks_ok R V). simpl.
  rewrite (filter_result_spec _ (λ B, bool_decide (certified R A B)))
    by (intros B _; by apply certified_spec). simpl.
  pose proof (min_filter (certified R A) l Hl) as Hm.
  destruct (min_by_digest _) as [B|]; [by eexists|].
  destruct (fast_path p) as [fp|] eqn:Hfp.
  - rewrite (round_blocks_ok R V). simpl.
    rewrite (filter_result_spec _ (λ B, bool_decide (weak R A B)))
      by (intros B _; by apply weak_spec). simpl.
    pose proof (min_filter (weak R A) l Hl) as Hw.
    destruct (min_by_digest _) as [B|]; eexists; split; [done|by split|done|]. simpl. split_and!; auto.
  - eexists. split; [done|]. simpl. split_and!; [done|done|].
    intros B' Hs Hh. split; [by apply Hm|]. unfold weak. naive_solver.
Qed.
End OneView.

(** ** Evidence for a block *)

(** The authors of [X] support [B] by blocks of the view up to the voting round. *)
Definition backed (R : BlockReader) (V : gmap BlockReference Block) (B : Block) (X : gset Authority) : Prop :=
  ∀ a, a ∈ X → ∃ b, holds V b ∧ author b = a ∧ (round b ≤ voting)%N ∧ okb (is_vote R b B) = true.
Definition evidence (R : BlockReader) (V : gmap BlockReference Block) (B : Block) (q : Stake) : Prop :=
  ∃ X, backed R V B X ∧ (q ≤ stake_of C X)%N.

Section Evidence.
Context (R : BlockReader) (V : gmap BlockReference Block) `{HV : !DagView U R V}.

Lemma voters_backed B : backed R V B (voters R B).
Proof.
  intros a (b & Hb & Hr & Ha & Hv)%(elem_of_at_round R V). exists b. split_and!; [done|done|lia|done].
Qed.

Lemma linked_voters_backed A B : backed R V B (linked_voters R A B).
Proof.
  intros a (b & Hb & Hr & Ha & [_ Hv]%andb_true_iff)%(elem_of_at_round R V).
  exists b. split_and!; [done|done|lia|done].
Qed.

Lemma certificate_backed b B :
  holds V b → (round b ≤ voting + 1)%N → okb (carries_certificate R bc b B) = true →
  evidence R V B (certificate_quorum p).
Proof.
  intros Hb Hr. pose proof (safe_positive _ _ _ Hsafe) as (_ & _ & Hpos & _).
  rewrite (carries_certificate_ok R V) by done. simpl. intros Hq%N.leb_le.
  exists (included_voters R B b). split; [|done].
  intros a (v & Hv & <- & Hi & Hvote)%(elem_of_included_voters R V); [|done].
  exists v. split_and!; [done|done| |done].
  pose proof (wf_includes _ _ _ (world_wf b (holds_world R V b Hb)) _ Hi) as [_ Hlt].
  unfold round at 1. lia.
Qed.

Lemma slow_evidence B :
  slow R B → evidence R V B (if merged_certificates p then direct_commit_quorum p else certificate_quorum p).
Proof.
  unfold slow. pose proof (safe_positive _ _ _ Hsafe) as (Hpos & _).
  destruct (merged_certificates p) eqn:Hm; intros Hs.
  - exists (voters R B). by split; [apply voters_backed|].
  - destruct (stake_of_positive C (certifiers R B)) as (a & Ha & _); [lia|].
    apply (elem_of_at_round R V) in Ha as (b & Hb & Hr & _ & Hc).
    apply (certificate_backed b); [done| |done]. pose proof (voting_unmerged Hm). lia.
Qed.

Lemma fast_evidence B fp : fast_path p = Some fp → fast R B → evidence R V B (commit_quorum fp).
Proof.
  intros Hfp (fp' & Hfp' & Hq). rewrite Hfp in Hfp'. injection Hfp' as <-.
  exists (voters R B). by split; [apply voters_backed|].
Qed.

Lemma certified_evidence A B :
  certified R A B → evidence R V B (if merged_certificates p then anchor_link_size p else certificate_quorum p).
Proof.
  unfold certified. pose proof (safe_positive _ _ _ Hsafe) as (_ & _ & _ & _ & Hpos).
  destruct (merged_certificates p) eqn:Hm; intros Hs.
  - exists (linked_voters R A B). by split; [apply linked_voters_backed|].
  - destruct (stake_of_positive C (linked_certifiers R A B)) as (a & Ha & _); [lia|].
    apply (elem_of_at_round R V) in Ha as (b & Hb & Hr & _ & [_ Hc]%andb_true_iff).
    apply (certificate_backed b); [done| |done]. pose proof (voting_unmerged Hm). lia.
Qed.

Lemma weak_evidence A B fp : fast_path p = Some fp → weak R A B → evidence R V B (weak_indirect_quorum fp).
Proof.
  intros Hfp (fp' & Hfp' & Hq). rewrite Hfp in Hfp'. injection Hfp' as <-.
  exists (linked_voters R A B). by split; [apply linked_voters_backed|].
Qed.

(** Evidence names a block the view holds. *)
Lemma evidence_holds B q : slot_block B → evidence R V B q → (0 < q)%N → holds V B.
Proof.
  intros (HU & _) (X & HX & Hq) Hpos.
  destruct (stake_of_positive C X) as (a & Ha & _); [lia|].
  destruct (HX a Ha) as (b & Hb & _ & _ & Hv). by apply (vote_holds R V b B).
Qed.
End Evidence.

(** ** Quorums of evidence cannot conflict *)

Section TwoViews.
Context (R1 : BlockReader) (V1 : gmap BlockReference Block) `{HV1 : !DagView U R1 V1}
  (R2 : BlockReader) (V2 : gmap BlockReference Block) `{HV2 : !DagView U R2 V2}.

Lemma slot_author_round B : slot_block B → author_round (reference B) = (leader, r).
Proof. by intros (_ & <- & <-). Qed.

Lemma slot_known B : slot_block B → known C leader.
Proof. intros (HU & <- & _). apply (wf_author _ _ _ (world_wf B HU)). Qed.

Lemma evidence_unique B1 B2 q1 q2 :
  slot_block B1 → slot_block B2 → evidence R1 V1 B1 q1 → evidence R2 V2 B2 q2 →
  (T + f < q1 + q2)%N → B1 = B2.
Proof.
  intros Hs1 Hs2 (X1 & HX1 & Hq1) (X2 & HX2 & Hq2) Hlt.
  destruct (quorum_intersection C X1 X2 Byz) as (a & Ha1 & Ha2 & Hh & _);
    [apply world_committee|lia|].
  destruct (HX1 a Ha1) as (b1 & Hb1 & Hab1 & _ & Hv1). destruct (HX2 a Ha2) as (b2 & Hb2 & Hab2 & _ & Hv2).
  apply (is_vote_true R1 V1) in Hv1; [|done]. apply (is_vote_true R2 V2) in Hv2; [|done].
  rewrite slot_author_round in Hv1, Hv2 by done.
  apply world_ref; [by apply Hs1|by apply Hs2|].
  eapply (honest_support_unique R1 V1 R2 V2 _ b1 b2); [done|done|by rewrite Hab1|congruence|done|done].
Qed.

Lemma evidence_not_skipped B q :
  slot_block B → evidence R1 V1 B q → (T + f < q + direct_skip_quorum p)%N → ¬ skipped R2.
Proof.
  intros Hs (X & HX & Hq) Hlt Hskip. unfold skipped in Hskip.
  destruct (quorum_intersection C X (blamers R2) Byz) as (a & Ha1 & Ha2 & Hh & _);
    [apply world_committee|lia|].
  destruct (HX a Ha1) as (b1 & Hb1 & Hab1 & Hle & Hv).
  apply (elem_of_at_round R2 V2) in Ha2 as (b2 & Hb2 & Hr2 & Hab2 & Hbl).
  apply (is_vote_true R1 V1) in Hv; [|done]. rewrite slot_author_round in Hv by done.
  apply (honest_support_kept R1 V1 R2 V2 _ b1 b2) in Hv;
    [|done|done|by rewrite Hab1|congruence|lia].
  unfold blame in Hbl. rewrite Hv in Hbl. done.
Qed.

(** Without Byzantine stake the leader made one block. *)
Lemma honest_leader_unique B1 B2 : f = 0%N → slot_block B1 → slot_block B2 → B1 = B2.
Proof.
  intros Hf0 Hs1 Hs2. destruct Hs1 as (HU1 & Ha1 & Hr1), Hs2 as (HU2 & Ha2 & Hr2).
  apply world_honest; [done|done| |congruence|congruence].
  intros HB. pose proof (wf_author _ _ _ (world_wf B1 HU1)) as [s Hs].
  assert (0 < stake_of C {[author B1]})%N as Hpos.
  { rewrite <- (right_id_L ∅ (∪) {[author B1]}), (stake_of_insert _ _ _ s), stake_of_empty by (done || set_solver).
    unfold get_stake in Hs. apply fmap_Some in Hs as (x & Hx & ->).
    pose proof (ok_positive _ world_committee) as Hp. rewrite Forall_lookup in Hp.
    apply Hp in Hx. simpl in Hx. lia. }
  assert (stake_of C {[author B1]} ≤ stake_of C Byz)%N; [|lia].
  apply stake_of_mono. set_solver.
Qed.

(** Two direct commits name one block. *)
Lemma direct_commits_agree B1 B2 :
  slot_block B1 → slot_block B2 → slow R1 B1 ∨ fast R1 B1 → slow R2 B2 ∨ fast R2 B2 → B1 = B2.
Proof.
  intros Hs1 Hs2 H1 H2. destruct (decide (f = 0%N)) as [Hf|Hf]; [by apply honest_leader_unique|].
  pose proof (safe_merged _ _ _ Hsafe) as Hm. pose proof (safe_unmerged _ _ _ Hsafe) as Hu.
  pose proof (safe_fast _ _ _ Hsafe) as Hfp.
  destruct H1 as [H1|H1]; [apply (slow_evidence R1 V1) in H1|pose proof H1 as (fp1 & E1 & _); apply (fast_evidence R1 V1 _ fp1) in H1; [|done]];
  (destruct H2 as [H2|H2]; [apply (slow_evidence R2 V2) in H2|pose proof H2 as (fp2 & E2 & _); apply (fast_evidence R2 V2 _ fp2) in H2; [|done]]);
  apply (evidence_unique _ _ _ _ Hs1 Hs2 H1 H2); destruct (merged_certificates p) eqn:Em;
    try destruct (Hm eq_refl) as (Hn & _ & _ & Hf2); try specialize (Hu eq_refl);
    try (rewrite Hn in *; discriminate); try specialize (Hf2 ltac:(lia));
    try pose proof (Hfp _ E1); try pose proof (Hfp _ E2); lia.
Qed.

(** A direct commit and a direct skip exclude each other. *)
Lemma direct_commit_not_skipped B :
  slot_block B → slow R1 B ∨ fast R1 B → ¬ skipped R2.
Proof.
  intros Hs H. pose proof (safe_merged _ _ _ Hsafe) as Hm. pose proof (safe_unmerged _ _ _ Hsafe) as Hu.
  destruct H as [H|H].
  - apply (slow_evidence R1 V1) in H. eapply evidence_not_skipped; [done|exact H|].
    destruct (merged_certificates p); [destruct (Hm eq_refl)|destruct (Hu eq_refl)]; lia.
  - pose proof H as (fp & E & _). apply (fast_evidence R1 V1 _ fp) in H; [|done].
    eapply evidence_not_skipped; [done|exact H|]. pose proof (safe_fast _ _ _ Hsafe fp E). lia.
Qed.

(** A direct skip starves every anchor. *)
Lemma skip_starves A B :
  slot_block B → skipped R2 → ¬ certified R1 A B ∧ ¬ weak R1 A B.
Proof.
  intros Hs Hskip. pose proof (safe_merged _ _ _ Hsafe) as Hm. pose proof (safe_unmerged _ _ _ Hsafe) as Hu.
  split; intros H.
  - apply (certified_evidence R1 V1) in H. eapply evidence_not_skipped; [done|exact H| |exact Hskip].
    destruct (merged_certificates p); [destruct (Hm eq_refl)|destruct (Hu eq_refl)]; lia.
  - pose proof H as (fp & E & _). apply (weak_evidence R1 V1 _ _ fp) in H; [|done].
    eapply evidence_not_skipped; [done|exact H| |exact Hskip]. pose proof (safe_fast _ _ _ Hsafe fp E). lia.
Qed.

(** What a quorum of one view shows, every later block of another is linked to. *)
Lemma linked_overlap A n q1 q2 :
  holds V2 A → (n < round A)%N →
  (∀ b, holds V1 b → holds V2 b → round b = n → q1 b = true → q2 b = true) →
  (stake_of C (at_round R1 n q1) + quorum_threshold p
   ≤ T + f + stake_of C (at_round R2 n (λ b, okb (linked R2 A b) && q2 b)))%N.
Proof.
  intros HA Hn Hq. pose proof (linked_quorum R2 V2 A n HA Hn) as Hl.
  pose proof (honest_overlap C (at_round R1 n q1) (linked_at R2 A n) Byz world_committee) as Ho.
  assert (stake_of C ((at_round R1 n q1 ∩ linked_at R2 A n) ∖ Byz)
          ≤ stake_of C (at_round R2 n (λ b, okb (linked R2 A b) && q2 b)))%N as Hsub; [|lia].
  apply stake_of_mono. intros a _ [[Ha1 Ha2]%elem_of_intersection Hh]%elem_of_difference.
  apply (elem_of_at_round R1 V1) in Ha1 as (b1 & Hb1 & Hr1 & Hab1 & Hq1).
  apply (elem_of_at_round R2 V2) in Ha2 as (b2 & Hb2 & Hr2 & Hab2 & Hl2).
  assert (b1 = b2) as <-.
  { apply world_honest; [by eapply (holds_world R1)|by eapply (holds_world R2)|by rewrite Hab1|congruence|congruence]. }
  apply (elem_of_at_round R2 V2). exists b1. rewrite Hl2, (Hq b1) by done. done.
Qed.

Lemma cert_view b B :
  holds V1 b → holds V2 b → carries_certificate R1 bc b B = carries_certificate R2 bc b B.
Proof.
  intros H1 H2. pose proof (safe_positive _ _ _ Hsafe) as (_ & _ & Hpos & _).
  rewrite (carries_certificate_ok R1 V1), (carries_certificate_ok R2 V2) by done.
  by rewrite (included_voters_view R1 V1 R2 V2).
Qed.

Lemma vote_transfers b B :
  holds V1 b → holds V2 b → okb (is_vote R1 b B) = true → okb (is_vote R2 b B) = true.
Proof. intros H1 H2. by rewrite (is_vote_view R1 V1 R2 V2). Qed.

(** A slow commit certifies its block for every later anchor. *)
Lemma slow_certified A B :
  slow R1 B → holds V2 A → (r + wl ≤ round A)%N → certified R2 A B.
Proof.
  intros Hs HA Hr. pose proof (safe_link _ _ _ Hsafe) as Hl. pose proof rounds_order as (_ & Hvd & Hd).
  unfold slow in Hs. unfold certified. destruct (merged_certificates p) eqn:Hm.
  - pose proof (linked_overlap A voting (λ b, okb (is_vote R1 b B)) (λ b, okb (is_vote R2 b B)) HA) as Ho.
    unfold voters in Hs. unfold linked_voters. specialize (Ho ltac:(lia)).
    assert (∀ b, holds V1 b → holds V2 b → round b = voting →
      okb (is_vote R1 b B) = true → okb (is_vote R2 b B) = true) as Hq by eauto using vote_transfers.
    specialize (Ho Hq). lia.
  - pose proof (linked_overlap A decision (λ b, okb (carries_certificate R1 bc b B))
      (λ b, okb (carries_certificate R2 bc b B)) HA ltac:(lia)) as Ho.
    assert (∀ b, holds V1 b → holds V2 b → round b = decision →
      okb (carries_certificate R1 bc b B) = true → okb (carries_certificate R2 bc b B) = true) as Hq.
    { intros b H1 H2 _. by rewrite (cert_view b B H1 H2). }
    specialize (Ho Hq). unfold certifiers in Hs. unfold linked_certifiers. lia.
Qed.

(** A fast commit is weakly backed for every later anchor. *)
Lemma fast_weak A B :
  fast R1 B → holds V2 A → (r + wl ≤ round A)%N → weak R2 A B.
Proof.
  intros (fp & E & Hq) HA Hr. pose proof rounds_order as (_ & Hvd & Hd).
  pose proof (safe_fast _ _ _ Hsafe fp E) as (_ & Hl & _).
  exists fp. split; [done|].
  pose proof (linked_overlap A voting (λ b, okb (is_vote R1 b B)) (λ b, okb (is_vote R2 b B)) HA
    ltac:(lia) ltac:(eauto using vote_transfers)) as Ho.
  unfold voters in Hq. unfold linked_voters. lia.
Qed.

(** What an anchor certifies, or weakly backs, beside a direct commit is that block. *)
Lemma certified_unique A B B' :
  slot_block B → slot_block B' → slow R1 B ∨ fast R1 B → certified R2 A B' → B' = B.
Proof.
  intros Hs Hs' H Hc. destruct (decide (f = 0%N)) as [Hf|Hf]; [by apply honest_leader_unique|].
  apply (certified_evidence R2 V2) in Hc.
  pose proof (safe_merged _ _ _ Hsafe) as Hm. pose proof (safe_unmerged _ _ _ Hsafe) as Hu.
  symmetry. destruct H as [H|H].
  - apply (slow_evidence R1 V1) in H. apply (evidence_unique _ _ _ _ Hs Hs' H Hc).
    destruct (merged_certificates p);
      [destruct (Hm eq_refl) as (_ & _ & _ & Hf2); specialize (Hf2 ltac:(lia))|destruct (Hu eq_refl)]; lia.
  - pose proof H as (fp & E & _). apply (fast_evidence R1 V1 _ fp) in H; [|done].
    apply (evidence_unique _ _ _ _ Hs Hs' H Hc). pose proof (safe_fast _ _ _ Hsafe fp E).
    destruct (merged_certificates p); [|lia]. destruct (Hm eq_refl) as (Hn & _). congruence.
Qed.

Lemma weak_unique A B B' :
  slot_block B → slot_block B' → fast R1 B → weak R2 A B' → B' = B.
Proof.
  intros Hs Hs' H Hw. symmetry. pose proof H as (fp & E & _).
  apply (fast_evidence R1 V1 _ fp) in H; [|done]. apply (weak_evidence R2 V2 _ _ fp) in Hw; [|done].
  apply (evidence_unique _ _ _ _ Hs Hs' H Hw). pose proof (safe_fast _ _ _ Hsafe fp E). lia.
Qed.

(** ** One anchor, two views *)

Lemma at_round_linked A n q1 q2 :
  holds V1 A → holds V2 A →
  (∀ b, holds V1 b → holds V2 b → q1 b = q2 b) →
  ∀ a, a ∈ at_round R1 n (λ b, okb (linked R1 A b) && q1 b) →
       a ∈ at_round R2 n (λ b, okb (linked R2 A b) && q2 b).
Proof.
  intros H1 H2 Hq a (b & Hb & Hr & Ha & [Hl Hqb]%andb_true_iff)%(elem_of_at_round R1 V1).
  apply (linked_true R1 V1) in Hl; [|done|done].
  pose proof (chain_holds R2 V2 A b H2 Hl) as Hb2. apply (elem_of_at_round R2 V2). exists b.
  split_and!; [done|done|done|]. apply andb_true_iff. split; [by apply (linked_true R2 V2)|].
  by rewrite <- (Hq b).
Qed.

Lemma certified_view A B : holds V1 A → holds V2 A → certified R1 A B → certified R2 A B.
Proof.
  intros H1 H2. unfold certified. destruct (merged_certificates p); intros Hle;
    (etrans; [exact Hle|]); apply stake_of_mono; intros a _; apply at_round_linked; try done.
  - intros b Hb1 Hb2. by rewrite (is_vote_view R1 V1 R2 V2).
  - intros b Hb1 Hb2. by rewrite cert_view.
Qed.

Lemma weak_view A B : holds V1 A → holds V2 A → weak R1 A B → weak R2 A B.
Proof.
  intros H1 H2 (fp & E & Hle). exists fp. split; [done|]. etrans; [exact Hle|].
  apply stake_of_mono. intros a _. apply at_round_linked; try done.
  intros b Hb1 Hb2. by rewrite (is_vote_view R1 V1 R2 V2).
Qed.
End TwoViews.

(** ** The direct rule *)

Section Direct.
Context (R : BlockReader) (V : gmap BlockReference Block) `{HV : !DagView U R V}.

(** What [try_direct_decide] answers. *)
Definition direct_spec (s : LeaderStatus) : Prop :=
  match s with
  | DirectCommit B _ => slot_block B ∧ holds V B ∧ (slow R B ∨ fast R B)
  | DirectSkip a n => a = leader ∧ n = r ∧ skipped R
  | Undecided a n =>
      a = leader ∧ n = r ∧ ¬ skipped R ∧
      ∀ B, slot_block B → holds V B → ¬ (slow R B ∨ fast R B)
  | _ => False
  end.

Definition support_path (B : Block) : option (Block * DirectCommitPath) :=
  if decide (fast R B) then Some (B, Fast) else if decide (slow R B) then Some (B, Slow) else None.

Lemma supported_eq l :
  supported R bc (round_blocks R voting) decision l = Ok (omap support_path l).
Proof.
  induction l as [|B l IH]; simpl; [done|].
  rewrite (fast_spec R V), IH, (slow_spec R V). simpl. unfold support_path.
  destruct (decide (fast R B)); [by rewrite bool_decide_eq_true_2|].
  rewrite bool_decide_eq_false_2 by done.
  destruct (decide (slow R B)); [by rewrite bool_decide_eq_true_2|by rewrite bool_decide_eq_false_2].
Qed.

Lemma support_path_some B x :
  support_path B = Some x ↔ x.1 = B ∧ ((x.2 = Fast ∧ fast R B) ∨ (x.2 = Slow ∧ ¬ fast R B ∧ slow R B)).
Proof.
  unfold support_path. destruct x as [B' path]. simpl.
  repeat case_decide; destruct path; naive_solver.
Qed.

Lemma omap_support (l : list Block) :
  (∀ B, B ∈ l ↔ holds V B ∧ author B = leader ∧ round B = r) →
  ∀ x, x ∈ omap support_path l ↔
    slot_block x.1 ∧ holds V x.1 ∧ support_path x.1 = Some x.
Proof.
  intros Hl x. rewrite list_elem_of_omap. split.
  - intros (B & HB%Hl & Hx). pose proof (proj1 (support_path_some _ _) Hx) as [-> _].
    destruct HB as (Hh & Ha & Hr). split_and!; [split_and!|..]; try done. by eapply (holds_world R).
  - intros ((_ & Ha & Hr) & Hh & Hx). exists x.1. rewrite Hl. done.
Qed.

Lemma omap_support_nodup (l : list Block) : NoDup l → NoDup (map fst (omap support_path l)).
Proof.
  intros Hnd. apply (sublist_NoDup _ l); [done|].
  induction l as [|B l IH]; [done|]. simpl. inversion Hnd; subst.
  destruct (support_path B) as [x|] eqn:E.
  - apply support_path_some in E as [<- _]. simpl. apply sublist_skip. auto.
  - apply sublist_cons. auto.
Qed.

Lemma try_direct_decide_spec :
  ∃ s, try_direct_decide R bc leader r = Ok s ∧ direct_spec s.
Proof.
  unfold try_direct_decide.
  change (Wave.decision_round _ _) with decision. change (Wave.voting_round _ _) with voting.
  rewrite (round_blocks_ok R V). simpl. rewrite (blame_spec R V). simpl.
  case_bool_decide as Hskip; [by eexists|].
  destruct (law_authority (R := R) (V := V) leader r) as (l & -> & Hnd & Hl). simpl.
  rewrite supported_eq. simpl.
  pose proof (omap_support l Hl) as Hin. pose proof (omap_support_nodup l Hnd) as Hnd'.
  destruct (omap support_path l) as [|[B1 path1] [|[B2 path2] rest]].
  - eexists. split; [done|]. simpl. split_and!; [done|done|done|].
    intros B Hs Hh Hsup. assert (is_Some (support_path B)) as [x Hx].
    { unfold support_path. repeat case_decide; try by eexists. naive_solver. }
    pose proof (proj1 (support_path_some _ _) Hx) as [HB _].
    assert (x ∈ []) as []%not_elem_of_nil. apply Hin. by rewrite HB.
  - eexists. split; [done|]. simpl.
    destruct (proj1 (Hin (B1, path1)) ltac:(set_solver)) as (Hs & Hh & Hp%support_path_some).
    simpl in *. split_and!; try done; naive_solver.
  - exfalso. destruct (proj1 (Hin (B1, path1)) ltac:(set_solver)) as (Hs1 & _ & H1%support_path_some).
    destruct (proj1 (Hin (B2, path2)) ltac:(set_solver)) as (Hs2 & _ & H2%support_path_some). simpl in *.
    assert (B1 = B2) as ->.
    { eapply (direct_commits_agree R V R V); [done|done|naive_solver|naive_solver]. }
    inversion Hnd'; set_solver.
Qed.
End Direct.

(** ** One slot *)

(** How a slot was decided. *)
Inductive slot_decision (R : BlockReader) (V : gmap BlockReference Block)
    (leaders : list LeaderStatus) (s : LeaderStatus) : Prop :=
| decided_direct :
    is_decided s = true → direct_spec R V s →
    slot_decision R V leaders s
| decided_indirect A s0 :
    is_decided s0 = false → direct_spec R V s0 →
    anchor_of (r + wl) leaders = Some A → holds V A →
    (r + wl ≤ round A)%N →
    anchor_spec R V A s →
    slot_decision R V leaders s
| not_decided :
    s = Undecided leader r → direct_spec R V s →
    anchor_of (r + wl) leaders = None →
    slot_decision R V leaders s.

Lemma decide_slot_spec R V `{!DagView U R V} leaders :
  leaders_held V leaders → ∃ s, decide_slot R bc leader r leaders = Ok s ∧ slot_decision R V leaders s.
Proof.
  intros Hl. unfold decide_slot.
  destruct (try_direct_decide_spec R V) as (s & -> & Hs). simpl.
  destruct (is_decided s) eqn:Hd; [by eexists; split; [|apply decided_direct]|].
  rewrite try_indirect_decide_eq. simpl.
  destruct (anchor_of _ leaders) as [A|] eqn:HA.
  - destruct (anchor_of_spec V _ _ _ Hl HA) as [HhA HrA].
    destruct (decide_from_anchor_spec R V A HhA) as (s' & -> & Hs').
    eexists. split; [done|]. by eapply decided_indirect.
  - eexists. split; [done|]. destruct s; try done. destruct Hs as (-> & -> & Hs).
    by apply not_decided.
Qed.

Lemma slot_decision_slot R V `{!DagView U R V} leaders s :
  slot_decision R V leaders s →
  status_slot s = (r, leader) ∧ ∀ b, committed s = Some b → holds V b.
Proof.
  assert (∀ s, direct_spec R V s →
    status_slot s = (r, leader) ∧ ∀ b, committed s = Some b → holds V b) as Hdir.
  { intros []; simpl; try done; unfold status_slot; simpl; try naive_solver.
    intros ((_ & <- & <-) & Hh & _). split; [done|]. by intros ? [= <-]. }
  intros [Hd Hs|A s0 _ _ _ _ _ Hs| -> Hs _]; [by apply Hdir| |by apply Hdir].
  destruct s as [|B []| | |]; simpl in Hs; try done; unfold status_slot; simpl.
  - destruct Hs as ((_ & <- & <-) & Hh & _). split; [done|]. by intros ? [= <-].
  - destruct Hs as (_ & (_ & <- & <-) & Hh & _). split; [done|]. by intros ? [= <-].
  - destruct Hs as (-> & -> & _). done.
Qed.

Section Two.
Context (R1 : BlockReader) (V1 : gmap BlockReference Block) `{HV1 : !DagView U R1 V1}
  (R2 : BlockReader) (V2 : gmap BlockReference Block) `{HV2 : !DagView U R2 V2}.

Lemma best_agree (q1 q2 : Block → Prop) B1 B2 :
  slot_block B1 → slot_block B2 →
  best V1 q1 B1 → best V2 q2 B2 →
  holds V2 B1 → holds V1 B2 → q2 B1 → q1 B2 → B1 = B2.
Proof.
  intros Hs1 Hs2 [_ Hm1] [_ Hm2] H21 H12 Hq2 Hq1.
  pose proof (Hm1 B2 Hs2 H12 Hq1) as Hle1. pose proof (Hm2 B1 Hs1 H21 Hq2) as Hle2.
  pose proof (anti_symm bytes_le _ _ Hle1 Hle2) as Hd.
  destruct Hs1 as (HU1 & Ha1 & Hr1), Hs2 as (HU2 & Ha2 & Hr2).
  apply world_ref; [done|done|].
  destruct B1 as [[a1 n1 d1] ? ? ? ?], B2 as [[a2 n2 d2] ? ? ? ?].
  unfold author, round, block_digest in *. simpl in *. congruence.
Qed.

(** Evidence in one view is held by the other, for one anchor in both. *)
Lemma certified_transfers A B :
  holds V1 A → holds V2 A → slot_block B →
  certified R1 A B → holds V2 B ∧ certified R2 A B.
Proof.
  intros H1 H2 Hs Hc.
  assert (certified R2 A B) as Hc2
    by (by eapply (certified_view R1 V1 R2 V2)).
  split; [|done]. pose proof (safe_positive _ _ _ Hsafe) as (_ & _ & Hcq & _ & Hal).
  pose proof (certified_evidence R2 V2 A B Hc2) as He.
  eapply (evidence_holds R2 V2); [done|exact He|]. by case_match.
Qed.

Lemma weak_transfers A B :
  holds V1 A → holds V2 A → slot_block B →
  weak R1 A B → holds V2 B ∧ weak R2 A B.
Proof.
  intros H1 H2 Hs Hc.
  assert (weak R2 A B) as Hc2
    by (by eapply (weak_view R1 V1 R2 V2)).
  split; [|done]. pose proof Hc2 as (fp & E & _).
  pose proof (weak_evidence R2 V2 A B fp E Hc2) as He.
  eapply (evidence_holds R2 V2); [done|exact He|].
  apply (safe_fast _ _ _ Hsafe fp E).
Qed.
End Two.

Section Decisions.
Context (R1 : BlockReader) (V1 : gmap BlockReference Block) `{HV1 : !DagView U R1 V1}
  (R2 : BlockReader) (V2 : gmap BlockReference Block) `{HV2 : !DagView U R2 V2}.

(** From one anchor both views take the same decision. *)
Lemma anchor_decisions_agree A s1 s2 :
  holds V1 A → holds V2 A → anchor_spec R1 V1 A s1 → anchor_spec R2 V2 A s2 →
  committed s1 = committed s2.
Proof.
  intros H1 H2.
  pose proof (λ B, certified_transfers R1 V1 R2 V2 A B H1 H2) as Hc12.
  pose proof (λ B, certified_transfers R2 V2 R1 V1 A B H2 H1) as Hc21.
  pose proof (λ B, weak_transfers R1 V1 R2 V2 A B H1 H2) as Hw12.
  pose proof (λ B, weak_transfers R2 V2 R1 V1 A B H2 H1) as Hw21.
  destruct s1 as [|B1 []| | |]; simpl; try done;
    destruct s2 as [|B2 []| | |]; simpl; try done.
  - intros (Hs1 & Hh1 & Hb1) (Hs2 & Hh2 & Hb2). f_equal.
    destruct (Hc12 B1 Hs1 (proj1 Hb1)), (Hc21 B2 Hs2 (proj1 Hb2)).
    by eapply (best_agree V1 V2 (certified R1 A) (certified R2 A)).
  - intros (Hs1 & Hh1 & Hb1) (Hn2 & _). destruct (Hc12 B1 Hs1 (proj1 Hb1)). exfalso. by apply (Hn2 B1).
  - intros (Hs1 & Hh1 & Hb1) (_ & _ & Hn2). destruct (Hc12 B1 Hs1 (proj1 Hb1)) as [Hh Hc]. exfalso.
    by apply (proj1 (Hn2 B1 Hs1 Hh)).
  - intros (Hn1 & _) (Hs2 & Hh2 & Hb2). destruct (Hc21 B2 Hs2 (proj1 Hb2)). exfalso. by apply (Hn1 B2).
  - intros (_ & Hs1 & Hh1 & Hb1) (_ & Hs2 & Hh2 & Hb2). f_equal.
    destruct (Hw12 B1 Hs1 (proj1 Hb1)), (Hw21 B2 Hs2 (proj1 Hb2)).
    by eapply (best_agree V1 V2 (weak R1 A) (weak R2 A)).
  - intros (_ & Hs1 & Hh1 & Hb1) (_ & _ & Hn2). destruct (Hw12 B1 Hs1 (proj1 Hb1)) as [Hh Hw]. exfalso.
    by apply (proj2 (Hn2 B1 Hs1 Hh)).
  - intros (_ & _ & Hn1) (Hs2 & Hh2 & Hb2). destruct (Hc21 B2 Hs2 (proj1 Hb2)) as [Hh Hc]. exfalso.
    by apply (proj1 (Hn1 B2 Hs2 Hh)).
  - intros (_ & _ & Hn1) (_ & Hs2 & Hh2 & Hb2). destruct (Hw21 B2 Hs2 (proj1 Hb2)) as [Hh Hw]. exfalso.
    by apply (proj2 (Hn1 B2 Hs2 Hh)).
Qed.

(** A direct decision in one view fixes what every later anchor of another decides. *)
Lemma direct_fixes_anchor A s1 s2 :
  is_decided s1 = true → direct_spec R1 V1 s1 →
  holds V2 A → (r + wl ≤ round A)%N → anchor_spec R2 V2 A s2 →
  committed s1 = committed s2.
Proof.
  intros Hd Hs1 HA Hr Hs2. destruct s1 as [B path| |a n| |]; simpl in *; try done.
  - destruct Hs1 as (Hs & _ & Hsup).
    assert (∀ B', slot_block B' → certified R2 A B' → B' = B) as Hcu.
    { intros B' Hs' Hc'. by eapply (certified_unique R1 V1 R2 V2 A). }
    assert (certified R2 A B ∧ holds V2 B ∨ fast R1 B ∧ weak R2 A B ∧ holds V2 B) as Hev.
    { pose proof (safe_positive _ _ _ Hsafe) as (_ & _ & Hcq & _ & Hal). destruct Hsup as [Hsl|Hfa].
      - left. assert (certified R2 A B) as Hc by (by eapply (slow_certified R1 V1 R2 V2)). split; [done|].
        eapply (evidence_holds R2 V2); [done|by apply (certified_evidence R2 V2 A)|]. by case_match.
      - right. assert (weak R2 A B) as Hw by (by eapply (fast_weak R1 V1 R2 V2)). split_and!; [done|done|].
        pose proof Hw as (fp & E & _).
        eapply (evidence_holds R2 V2); [done|by apply (weak_evidence R2 V2 A B fp)|].
        apply (safe_fast _ _ _ Hsafe fp E). }
    destruct s2 as [|B2 []| | |]; simpl in Hs2; try done; simpl.
    + destruct Hs2 as (Hs2 & _ & [Hc _]). f_equal. symmetry. by apply Hcu.
    + destruct Hs2 as (Hn & Hs2 & _ & [Hw _]). f_equal. destruct Hev as [[Hc Hh]|(Hfa & _)].
      * exfalso. by apply (Hn B).
      * symmetry. by eapply (weak_unique R1 V1 R2 V2 A).
    + destruct Hs2 as (_ & _ & Hn). exfalso. destruct Hev as [[Hc Hh]|(_ & Hw & Hh)];
        [by apply (proj1 (Hn B Hs Hh))|by apply (proj2 (Hn B Hs Hh))].
  - destruct Hs1 as (_ & _ & Hskip).
    pose proof (λ B Hs, skip_starves R2 V2 R1 V1 A B Hs Hskip) as Hst.
    destruct s2 as [|B2 []| | |]; simpl in Hs2; try done; exfalso.
    + destruct Hs2 as (Hs2 & _ & [Hc _]). by apply (proj1 (Hst B2 Hs2)).
    + destruct Hs2 as (_ & Hs2 & _ & [Hw _]). by apply (proj2 (Hst B2 Hs2)).
Qed.

End Decisions.

Section Slots.
Context (R1 : BlockReader) (V1 : gmap BlockReference Block) `{HV1 : !DagView U R1 V1}
  (R2 : BlockReader) (V2 : gmap BlockReference Block) `{HV2 : !DagView U R2 V2}.

(** Two direct decisions agree. *)
Lemma direct_decisions_agree s1 s2 :
  is_decided s1 = true → is_decided s2 = true → direct_spec R1 V1 s1 → direct_spec R2 V2 s2 →
  committed s1 = committed s2.
Proof.
  intros Hd1 Hd2 Hs1 Hs2.
  destruct s1 as [B1 p1| | | |]; simpl in *; try done;
    destruct s2 as [B2 p2| | | |]; simpl in *; try done.
  - f_equal. eapply (direct_commits_agree R1 V1 R2 V2); naive_solver.
  - destruct Hs1 as (Hs1 & _ & Hsup), Hs2 as (_ & _ & Hskip). exfalso.
    by eapply (direct_commit_not_skipped R1 V1 R2 V2).
  - destruct Hs2 as (Hs2 & _ & Hsup), Hs1 as (_ & _ & Hskip). exfalso.
    by eapply (direct_commit_not_skipped R2 V2 R1 V1).
Qed.

(** ** Growth of a view *)

Section Growth.
Context (Hsub : V1 ⊆ V2).

Lemma holds_grows b : holds V1 b → holds V2 b.
Proof. unfold holds. intros Hb. by eapply lookup_weaken. Qed.

Lemma at_round_grows n q1 q2 :
  (∀ b, holds V1 b → holds V2 b → q1 b = true → q2 b = true) →
  (stake_of C (at_round R1 n q1) ≤ stake_of C (at_round R2 n q2))%N.
Proof.
  intros Hq. apply stake_of_mono. intros a _ (b & Hb & Hr & Ha & Hqb)%(elem_of_at_round R1 V1).
  apply (elem_of_at_round R2 V2). exists b. pose proof (holds_grows b Hb). split_and!; auto.
Qed.

Lemma support_grows B : slow R1 B ∨ fast R1 B → slow R2 B ∨ fast R2 B.
Proof.
  assert (stake_of C (voters R1 B) ≤ stake_of C (voters R2 B))%N as Hv.
  { apply at_round_grows. eauto using vote_transfers. }
  intros [Hs|(fp & E & Hq)]; [left|right; exists fp; split; [done|lia]].
  unfold slow in *. destruct (merged_certificates p); [lia|]. etrans; [exact Hs|].
  apply at_round_grows. intros b H1 H2. by rewrite (cert_view R1 V1 R2 V2).
Qed.

Lemma skipped_grows : skipped R1 → skipped R2.
Proof.
  unfold skipped. intros Hs. etrans; [exact Hs|]. apply at_round_grows.
  intros b H1 H2. unfold blame. by rewrite (find_support_view R1 V1 R2 V2).
Qed.

Lemma direct_grows s1 s2 :
  is_decided s1 = true → direct_spec R1 V1 s1 → direct_spec R2 V2 s2 → is_decided s2 = true.
Proof.
  intros Hd Hs1 Hs2. destruct (is_decided s2) eqn:Hd2; [done|]. exfalso.
  destruct s2; simpl in *; try done. destruct Hs2 as (_ & _ & Hns & Hnc).
  destruct s1 as [B path| |a1 n1| |]; simpl in *; try done.
  - destruct Hs1 as (Hs & Hh & Hsup). apply (Hnc B Hs (holds_grows B Hh)). by apply support_grows.
  - apply Hns, skipped_grows. naive_solver.
Qed.
End Growth.

Lemma anchor_spec_decided V R A s : anchor_spec V R A s → is_decided s = true.
Proof. by destruct s. Qed.

(** ** The slot, decided twice *)

Lemma slot_agree L1 L2 s1 s2 :
  slot_decision R1 V1 L1 s1 → slot_decision R2 V2 L2 s2 → overlap status_agree L1 L2 →
  status_agree s1 s2.
Proof.
  intros D1 D2 Hov. split.
  { destruct (slot_decision_slot R1 V1 L1 s1 D1), (slot_decision_slot R2 V2 L2 s2 D2). congruence. }
  intros Hd1 Hd2.
  destruct D1 as [_ Hs1|A1 t1 _ _ HA1 Hh1 Hr1 Hs1| -> _ _]; [| |done];
    (destruct D2 as [_ Hs2|A2 t2 _ _ HA2 Hh2 Hr2 Hs2| -> _ _]; [| |done]).
  - by apply direct_decisions_agree.
  - by apply (direct_fixes_anchor R1 V1 R2 V2 A2).
  - symmetry. by apply (direct_fixes_anchor R2 V2 R1 V1 A1).
  - assert (A1 = A2) as <- by (by eapply anchor_agree). by apply (anchor_decisions_agree R1 V1 R2 V2 A1).
Qed.

(** A decision survives the growth of the view. *)
Lemma slot_extends L1 L2 s1 s2 :
  V1 ⊆ V2 → slot_decision R1 V1 L1 s1 → slot_decision R2 V2 L2 s2 →
  Forall2 status_extends L1 (take (length L1) L2) → status_extends s1 s2.
Proof.
  intros Hsub D1 D2 HF.
  assert (overlap status_agree L1 L2) as Hov.
  { apply overlap_prefix. eapply Forall2_impl; [exact HF|]. intros x y [? Hd]. split; [done|].
    intros Hx _. by apply Hd. }
  destruct (slot_agree L1 L2 s1 s2 D1 D2 Hov) as [Hslot Hagree]. split; [done|].
  intros Hd1. assert (is_decided s2 = true) as Hd2; [|auto].
  destruct D2 as [Hd2 _|A2 t2 _ _ _ _ _ Hs2| -> Hs2 HA2]; [done|by eapply anchor_spec_decided|].
  destruct D1 as [_ Hs1|A1 t1 _ _ HA1 _ _ _| -> _ _]; [|exfalso|done].
  - by apply (direct_grows Hsub s1).
  - pose proof (anchor_extends _ _ _ _ HF HA1). congruence.
Qed.
End Slots.
End Rules.
