(* ===== verification/CommitAgreement.v ===== *)
(** * Agreement of the commit rule

    From the slot to the sequence: two validators never decide one slot
    differently, a decision survives the growth of the DAG, and the sequences of
    decided leaders of any two validators are prefixes of each other. All of it
    for every protocol with [safe_thresholds]. *)

From S2P Require Import Prelude Order Committee DagBlock DagStore Protocol Committer.
From S2P Require Import CommitSupport CommitRules.
From stdpp Require Import base gmap list strings.
From Stdlib Require Import NArith ZArith Lia.

(** ** Lists of statuses *)

(** What a validator learns about a slot: the slot and the block it commits. *)
Definition decision_of (s : LeaderStatus) : (RoundNumber * Authority) * option Block :=
  (status_slot s, committed s).

(** The decided prefix without genesis. *)
Definition decided_prefix (leaders : list LeaderStatus) : list LeaderStatus :=
  take_while is_decided (filter (λ x, (0 < status_round x)%N) leaders).

Lemma overlap_filter {A} (P : A → A → Prop) (q : A → Prop) `{!∀ x, Decision (q x)} l k :
  (∀ x y, P x y → q x ↔ q y) → overlap P l k → overlap P (filter q l) (filter q k).
Proof.
  intros Hq. induction 1 as [l|l|x y l k Hxy _ IH]; [constructor|constructor|].
  pose proof (Hq x y Hxy) as Hqxy. destruct (decide (q x)) as [Hx|Hx].
  - rewrite (filter_cons_True _ x), (filter_cons_True _ y) by tauto. by constructor.
  - by rewrite (filter_cons_False _ x), (filter_cons_False _ y) by tauto.
Qed.

Lemma overlap_decided l k :
  overlap status_agree l k →
  map decision_of (take_while is_decided l) `prefix_of` map decision_of (take_while is_decided k) ∨
  map decision_of (take_while is_decided k) `prefix_of` map decision_of (take_while is_decided l).
Proof.
  induction 1 as [l|l|x y l k [Hslot Hxy] _ IH]; simpl.
  - left. apply prefix_nil.
  - right. apply prefix_nil.
  - destruct (is_decided x) eqn:Hx; [|left; apply prefix_nil].
    destruct (is_decided y) eqn:Hy; [|right; apply prefix_nil].
    simpl. assert (decision_of x = decision_of y) as ->.
    { unfold decision_of. f_equal; auto. }
    destruct IH; [left|right]; by apply prefix_cons.
Qed.

Lemma agree_round x y : status_agree x y → (0 < status_round x)%N ↔ (0 < status_round y)%N.
Proof. intros [Hs _]. unfold status_slot in Hs. by injection Hs as -> _. Qed.

Lemma extends_agree x y : status_extends x y → status_agree x y.
Proof. intros [Hs Hd]. split; [done|]. intros Hx _. by apply Hd. Qed.

Lemma extends_round x y : status_extends x y → (0 < status_round x)%N ↔ (0 < status_round y)%N.
Proof. intros H. by apply agree_round, extends_agree. Qed.

Lemma extends_filter (q : LeaderStatus → Prop) `{!∀ x, Decision (q x)} l k :
  (∀ x y, status_extends x y → q x ↔ q y) → Forall2 status_extends l (take (length l) k) →
  Forall2 status_extends (filter q l) (take (length (filter q l)) (filter q k)).
Proof.
  intros Hq. revert k. induction l as [|x l IH]; intros k HF; [constructor|].
  destruct k as [|y k]; simpl in HF; inversion HF as [|? ? ? ? Hxy HF']; subst.
  pose proof (Hq x y Hxy) as Hqxy. destruct (decide (q x)) as [Hx|Hx].
  - rewrite (filter_cons_True _ x), (filter_cons_True _ y) by tauto. simpl. constructor; auto.
  - rewrite (filter_cons_False _ x), (filter_cons_False _ y) by tauto. auto.
Qed.

(** Later statuses keep the decided prefix. *)
Lemma extends_decided l k :
  Forall2 status_extends l (take (length l) k) →
  map decision_of (take_while is_decided l) `prefix_of` map decision_of (take_while is_decided k).
Proof.
  revert k. induction l as [|x l IH]; intros k HF; simpl; [apply prefix_nil|].
  destruct k as [|y k]; simpl in HF; inversion HF as [|? ? ? ? [Hslot Hd] HF']; subst. simpl.
  destruct (is_decided x) eqn:Hx; [|apply prefix_nil]. destruct (Hd eq_refl) as [-> Hc]. simpl.
  assert (decision_of x = decision_of y) as -> by (unfold decision_of; by f_equal).
  by apply prefix_cons, IH.
Qed.

(** ** Slots *)

(** The leader slots of the [n] rounds from [low], in the order of the committer. *)
Definition round_slots (bcs : list BaseCommitter) (r : RoundNumber) : list (RoundNumber * Authority) :=
  map (pair r) (omap (λ bc, elect_leader bc r) bcs).
Fixpoint slots (bcs : list BaseCommitter) (low : RoundNumber) (n : nat) : list (RoundNumber * Authority) :=
  match n with O => [] | S n => round_slots bcs low ++ slots bcs (low + 1) n end.

Lemma slots_round bcs low n x : x ∈ slots bcs low n → (low ≤ x.1 < low + N.of_nat n)%N.
Proof.
  revert low. induction n as [|n IH]; intros low; simpl; [by intros ?%not_elem_of_nil|].
  intros [Hx|Hx%IH]%elem_of_app; [|lia]. unfold round_slots in Hx.
  apply list_elem_of_fmap in Hx as (a & -> & _). simpl. lia.
Qed.

Lemma slots_app bcs low n m : slots bcs low (n + m) = slots bcs low n ++ slots bcs (low + N.of_nat n) m.
Proof.
  revert low. induction n as [|n IH]; intros low; simpl; [by rewrite N.add_0_r|].
  rewrite IH, <- app_assoc. do 3 f_equal. lia.
Qed.

Lemma NoDup_omap {A B} (g : A → option B) (l : list A) :
  NoDup l → (∀ x y z, x ∈ l → y ∈ l → g x = Some z → g y = Some z → x = y) → NoDup (omap g l).
Proof.
  induction 1 as [|x l Hx Hnd IH]; intros Hg; csimpl; [constructor|].
  assert (NoDup (omap g l)) as IH' by (apply IH; set_solver).
  destruct (g x) as [z|] eqn:Ez; [|done]. constructor; [|done].
  intros (y & Hy & Ey)%list_elem_of_omap. apply Hx.
  by rewrite (Hg x y z) by (set_solver || done).
Qed.

Lemma omap_fmap {A B D} (g : B → option D) (h : A → B) (l : list A) : omap g (h <$> l) = omap (g ∘ h) l.
Proof. induction l as [|x l IH]; csimpl; [done|]. by rewrite IH. Qed.

Lemma NoDup_prod {A B} (l : list A) (k : list B) : NoDup l → NoDup k → NoDup (list_prod l k).
Proof.
  intros Hl Hk. induction Hl as [|x l Hx Hl IH]; simpl; [constructor|].
  apply NoDup_app. split_and!; [| |done].
  - by apply (NoDup_fmap_2 (pair x)).
  - intros y (b & -> & _)%(list_elem_of_fmap (pair x)) Hin.
    by apply list_elem_of_In, in_prod_iff in Hin as [?%list_elem_of_In _].
Qed.

Lemma add_mod_inj a x y n : ((a + x) mod n = (a + y) mod n → x < n → y < n → x = y)%N.
Proof.
  intros H Hx Hy. pose proof (N.div_mod (a + x) n) as E1. pose proof (N.div_mod (a + y) n) as E2.
  rewrite H in E1. revert E1 E2. generalize ((a + x) / n)%N ((a + y) / n)%N ((a + y) mod n)%N.
  intros q1 q2 m E1 E2. specialize (E1 ltac:(lia)). specialize (E2 ltac:(lia)).
  destruct (N.lt_trichotomy q1 q2) as [Hq|[->|Hq]]; nia.
Qed.

Lemma elem_of_rangeN x n : x ∈ rangeN n → (x < n)%N.
Proof. intros (k & -> & Hk%elem_of_seq)%(list_elem_of_fmap N.of_nat). lia. Qed.

Lemma NoDup_rangeN n : NoDup (rangeN n).
Proof. apply (NoDup_fmap_2 N.of_nat). apply NoDup_seq. Qed.

(** A round belongs to one pipeline stage only. *)
Lemma leader_stage_unique wl m r ro ro' :
  (ro < wl)%N → (ro' < wl)%N →
  Wave.is_leader_round {| wave_length := wl; round_offset := ro; wave_merged := m |} r = true →
  Wave.is_leader_round {| wave_length := wl; round_offset := ro'; wave_merged := m |} r = true →
  ro = ro'.
Proof.
  intros Hro Hro' [H1 E1]%is_leader_round_iff [H2 E2]%is_leader_round_iff; simpl in *; [|lia..].
  apply N.Div0.mod_divides in E1 as [k1 E1]; [|lia..]. apply N.Div0.mod_divides in E2 as [k2 E2]; [|lia..].
  destruct (N.lt_trichotomy k1 k2) as [Hq|[->|Hq]]; nia.
Qed.

(** The committer names each slot once. *)
Lemma round_slots_nodup C p r :
  (2 ≤ protocol_wave_length p)%N → (Npos (leader_count p) ≤ committee_len C)%N →
  NoDup (round_slots (base_committers (committer_new C p)) r).
Proof.
  intros Hwl Hlc. unfold round_slots. apply (NoDup_fmap_2 (pair r)).
  set (stages := if pipeline p then protocol_wave_length p else 1%N).
  assert (stages ≤ protocol_wave_length p)%N by (unfold stages; destruct (pipeline p); lia).
  assert (base_committers (committer_new C p)
          = (λ x : N * N, base_new C {| elector_committee_len := committee_len C |} p x.2 x.1)
            <$> list_prod (rangeN stages) (rangeN (Npos (leader_count p)))) as ->.
  { simpl. rewrite list_prod_as_flat_map, flat_map_concat_map. fold stages.
    induction (rangeN stages) as [|ro l IH]; simpl; [done|]. rewrite fmap_app, IH. f_equal.
    change (map ?g (map ?h ?k)) with (g <$> (h <$> k)). by rewrite <- list_fmap_compose. }
  rewrite omap_fmap. apply NoDup_omap.
  { apply NoDup_prod; apply NoDup_rangeN. }
  intros [ro lo] [ro' lo'] a [Hro Hlo]%list_elem_of_In%in_prod_iff [Hro' Hlo']%list_elem_of_In%in_prod_iff.
  apply list_elem_of_In, elem_of_rangeN in Hro, Hlo, Hro', Hlo'. unfold elect_leader. simpl.
  destruct (Wave.is_leader_round _ r) eqn:E1; [|done].
  destruct (Wave.is_leader_round {| wave_length := _; round_offset := ro' ; wave_merged := _ |} r) eqn:E2; [|done].
  simpl. intros [= <-] [= Hm]. f_equal.
  - eapply leader_stage_unique; [..|exact E1|exact E2]; lia.
  - symmetry in Hm. by apply (add_mod_inj r lo lo' (committee_len C)); [|lia..].
Qed.

Lemma slots_nodup bcs low n : (∀ r, NoDup (round_slots bcs r)) → NoDup (slots bcs low n).
Proof.
  intros Hr. revert low. induction n as [|n IH]; intros low; simpl; [constructor|].
  apply NoDup_app. split_and!; [done| |done].
  intros x (a & -> & _)%(list_elem_of_fmap (pair low)) ?%slots_round. simpl in *. lia.
Qed.

(** ** Resuming after the last consumed decision *)

Lemma decided_sequence_none L : decided_sequence None L = decided_prefix L.
Proof. done. Qed.

Lemma decided_sequence_skip slot P L :
  slot ∉ map status_slot P → decided_sequence (Some slot) (P ++ L) = decided_sequence (Some slot) L.
Proof.
  intros Hs. unfold decided_sequence. do 3 f_equal.
  induction P as [|x P IH]; simpl; [done|]. simpl in Hs. apply not_elem_of_cons in Hs as [Hx Hs].
  rewrite bool_decide_false by congruence. simpl. auto.
Qed.

Lemma decided_prefix_in L x : x ∈ map decision_of (decided_prefix L) → x.1 ∈ map status_slot L ∧ (0 < x.1.1)%N.
Proof.
  assert (∀ l s, s ∈ take_while is_decided l → s ∈ l) as Htw.
  { induction l as [|y l IH]; simpl; [done|]. intros s. case_match; set_solver. }
  intros (s & -> & Hs)%(list_elem_of_fmap decision_of).
  apply Htw, list_elem_of_filter in Hs as [Hr Hs]. split; [|done].
  apply (list_elem_of_fmap status_slot). by exists s.
Qed.

(** The answer with a cursor is what follows the cursor in the full answer. *)
Lemma decided_sequence_resume slot o L pre post :
  NoDup (map status_slot L) → map decision_of (decided_prefix L) = pre ++ (slot, o) :: post →
  map decision_of (decided_sequence (Some slot) L) = post.
Proof.
  revert pre. induction L as [|s L IH]; intros pre Hnd Heq; [by destruct pre|].
  simpl in Hnd. apply NoDup_cons in Hnd as [Hs Hnd].
  assert ((slot, o) ∈ map decision_of (decided_prefix (s :: L))) as Hin.
  { rewrite Heq. set_solver. }
  destruct (decided_prefix_in _ _ Hin) as [_ Hpos]. simpl in Hpos.
  assert (∀ pre', map decision_of (decided_prefix L) = pre' ++ (slot, o) :: post →
    map decision_of (decided_sequence (Some slot) (s :: L)) = post) as Hrec.
  { intros pre' Heq'. change (s :: L) with ([s] ++ L). rewrite decided_sequence_skip; [by eapply IH|].
    simpl. intros ->%list_elem_of_singleton. apply Hs.
    by apply (decided_prefix_in L (status_slot s, o)); rewrite Heq'; set_solver. }
  unfold decided_prefix in Heq. destruct (decide (0 < status_round s)%N) as [Hr|Hr].
  - rewrite filter_cons_True in Heq by done. simpl in Heq.
    destruct (is_decided s); [|by destruct pre]. destruct pre as [|y pre]; simpl in Heq; [|naive_solver].
    injection Heq as Hsl _ Hpost. unfold decided_sequence. simpl. by rewrite bool_decide_true.
  - rewrite filter_cons_False in Heq by done. by eapply Hrec.
Qed.

Section Agreement.
Context {C : Committee} {Byz : gset Authority} {U : Block → Prop} (p : Protocol) (f : Stake)
  `{HW : !DagWorld C (quorum_threshold p) Byz U}
  (Hsafe : safe_thresholds p (total_stake C) f) (Hbyz : (stake_of C Byz ≤ f)%N).

(** The base committers of one committer. *)
Definition bases_ok : list BaseCommitter → Prop :=
  Forall (λ bc, ∃ e lo ro, bc = base_new C e p lo ro).

Lemma committer_bases : bases_ok (base_committers (committer_new C p)).
Proof.
  simpl. apply Forall_concat, List.Forall_map, Forall_true. intros ro.
  apply List.Forall_map, Forall_true. intros lo. eauto.
Qed.

Lemma elect_leader_round bc r l : elect_leader bc r = Some l → Wave.is_leader_round (bc_wave bc) r = true.
Proof. unfold elect_leader. by destruct (Wave.is_leader_round _ r). Qed.

(** ** One view *)

Section One.
Context (R : BlockReader) (V : gmap BlockReference Block) `{HV : !DagView U R V}.

Lemma decide_round_ok bcs r L :
  bases_ok bcs → leaders_held V L → ∃ L', decide_round R bcs r L = Ok L' ∧ leaders_held V L'.
Proof.
  intros Hb HL. induction Hb as [|bc bcs (e & lo & ro & ->) _ IH]; simpl; [by eexists|].
  destruct IH as (L' & -> & HL'). simpl.
  destruct (elect_leader _ r) as [l|] eqn:He; [|by eexists].
  apply elect_leader_round in He as Hr.
  destruct (decide_slot_spec p f Hsafe Hbyz e lo ro l r Hr R V L' HL') as (s & -> & Hs). simpl.
  eexists. split; [done|]. constructor; [|done].
  by eapply (slot_decision_slot p e lo ro l r Hr R V).
Qed.

Lemma decide_rounds_ok bcs low n :
  bases_ok bcs → ∃ L, decide_rounds R bcs low n = Ok L ∧ leaders_held V L.
Proof.
  intros Hb. revert low. induction n as [|n IH]; intros low; simpl; [by eexists; split; [|constructor]|].
  destruct (IH (low + 1)%N) as (L & -> & HL). simpl. by apply decide_round_ok.
Qed.

(** A run from a later round is a suffix of a run from an earlier one. *)
Lemma decide_round_suffix bcs r L L' : decide_round R bcs r L = Ok L' → ∃ P, L' = P ++ L.
Proof.
  revert L'. induction bcs as [|bc bcs IH]; intros L'; simpl; [intros [= <-]; by exists []|].
  destruct (decide_round R bcs r L) as [L1|] eqn:E; simpl; [|done].
  destruct (IH _ eq_refl) as [P ->]. destruct (elect_leader bc r) as [l|]; [|intros [= <-]; by exists P].
  destruct (decide_slot _ _ _ _ _) as [s|]; simpl; [|done]. intros [= <-]. by exists (s :: P).
Qed.

Lemma decide_rounds_suffix bcs low n m L :
  decide_rounds R bcs low (n + m) = Ok L →
  ∃ P L', L = P ++ L' ∧ decide_rounds R bcs (low + N.of_nat n) m = Ok L'.
Proof.
  revert low L. induction n as [|n IH]; intros low L; simpl.
  { intros HL. exists [], L. by rewrite N.add_0_r. }
  destruct (decide_rounds R bcs (low + 1) (n + m)) as [L1|] eqn:E; simpl; [|done].
  intros (P & ->)%decide_round_suffix. destruct (IH _ _ E) as (P' & L' & -> & HL').
  exists (P ++ P'), L'. rewrite <- app_assoc. split; [done|]. rewrite <- HL'. f_equal. lia.
Qed.

(** The statuses are those of the slots. *)
Lemma decide_round_slots bcs r L L' :
  bases_ok bcs → leaders_held V L → decide_round R bcs r L = Ok L' →
  map status_slot L' = round_slots bcs r ++ map status_slot L.
Proof.
  intros Hb HL. revert L'. induction Hb as [|bc bcs (e & lo & ro & ->) Hb IH]; intros L'; simpl.
  { by intros [= <-]. }
  destruct (decide_round_ok bcs r L Hb HL) as (K & E & HK). specialize (IH _ E). rewrite E. simpl.
  unfold round_slots. csimpl. destruct (elect_leader _ r) as [l|] eqn:He; [|intros [= <-]; exact IH].
  apply elect_leader_round in He as Hr.
  destruct (decide_slot_spec p f Hsafe Hbyz e lo ro l r Hr R V K HK) as (s & -> & Hs). simpl.
  intros [= <-]. simpl. rewrite IH. f_equal. by eapply (slot_decision_slot p e lo ro l r Hr R V).
Qed.

Lemma decide_rounds_slots bcs low n L :
  bases_ok bcs → decide_rounds R bcs low n = Ok L → map status_slot L = slots bcs low n.
Proof.
  intros Hb. revert low L. induction n as [|n IH]; intros low L; simpl; [by intros [= <-]|].
  destruct (decide_rounds_ok bcs (low + 1) n Hb) as (K & E & HK). rewrite E. simpl.
  intros HL%decide_round_slots; [|done..]. by rewrite HL, (IH _ _ E).
Qed.

(** The full answer. *)
Lemma try_commit_none :
  ∃ L, decide_rounds R (base_committers (committer_new C p)) 0 (N.to_nat (reader_highest_round R + 1)) = Ok L ∧
    try_commit (committer_new C p) R None = Ok (decided_prefix L).
Proof.
  destruct (decide_rounds_ok (base_committers (committer_new C p)) 0
              (N.to_nat (reader_highest_round R + 1)) committer_bases) as (L & E & _).
  exists L. split; [done|]. unfold try_commit. cbn [from_option]. by rewrite N.sub_0_r, E.
Qed.

(** The answer with a cursor that the full answer contains. *)
Lemma try_commit_resume D pre slot o post :
  (Npos (leader_count p) ≤ committee_len C)%N →
  try_commit (committer_new C p) R None = Ok D →
  map decision_of D = pre ++ (slot, o) :: post →
  ∃ D', try_commit (committer_new C p) R (Some slot) = Ok D' ∧ map decision_of D' = post.
Proof.
  intros Hlc. destruct try_commit_none as (L & HL & ->). intros [= <-] Heq.
  pose proof (decide_rounds_slots _ _ _ _ committer_bases HL) as Hslots.
  assert (slot ∈ map status_slot L) as Hin.
  { apply (decided_prefix_in L (slot, o)). rewrite Heq. set_solver. }
  rewrite Hslots in Hin. apply slots_round in Hin as [_ Hhi].
  set (n := N.to_nat slot.1). set (m := N.to_nat (reader_highest_round R + 1 - slot.1)).
  replace (N.to_nat (reader_highest_round R + 1)) with (n + m) in HL by lia.
  destruct (decide_rounds_suffix _ _ _ _ _ HL) as (P & L' & -> & HL').
  rewrite N.add_0_l in HL'. unfold n in HL'. rewrite N2Nat.id in HL'.
  exists (decided_sequence (Some slot) L'). split.
  { unfold try_commit. cbn [from_option]. fold m. by rewrite HL'. }
  assert (NoDup (map status_slot (P ++ L'))) as Hnd.
  { rewrite Hslots. apply slots_nodup. intros r. apply round_slots_nodup; [|done].
    apply (safe_wave _ _ _ Hsafe). }
  rewrite <- (decided_sequence_skip slot P L'); [by eapply decided_sequence_resume|].
  pose proof (decide_rounds_slots _ _ _ _ committer_bases HL') as Hslots'.
  rewrite map_app in Hslots.
  replace (N.to_nat (reader_highest_round R + 1)) with (n + m) in Hslots by lia.
  rewrite slots_app, N.add_0_l in Hslots. unfold n in Hslots at 2.
  rewrite N2Nat.id, <- Hslots' in Hslots. apply app_inv_tail in Hslots as ->.
  intros [_ Hlt]%slots_round. lia.
Qed.
End One.

(** ** Two views *)

Section Two.
Context (R1 : BlockReader) (V1 : gmap BlockReference Block) `{HV1 : !DagView U R1 V1}
  (R2 : BlockReader) (V2 : gmap BlockReference Block) `{HV2 : !DagView U R2 V2}.

Lemma decide_round_agree bcs r L1 L2 L1' L2' :
  bases_ok bcs → leaders_held V1 L1 → leaders_held V2 L2 → overlap status_agree L1 L2 →
  decide_round R1 bcs r L1 = Ok L1' → decide_round R2 bcs r L2 = Ok L2' →
  overlap status_agree L1' L2'.
Proof.
  intros Hb H1 H2 Hov. revert L1' L2'.
  induction Hb as [|bc bcs (e & lo & ro & ->) Hb IH]; intros L1' L2'; simpl; [by intros [= <-] [= <-]|].
  destruct (decide_round_ok R1 V1 bcs r L1 Hb H1) as (K1 & E1 & HK1).
  destruct (decide_round_ok R2 V2 bcs r L2 Hb H2) as (K2 & E2 & HK2).
  specialize (IH _ _ E1 E2). rewrite E1, E2. simpl.
  destruct (elect_leader _ r) as [l|] eqn:He; [|by intros [= <-] [= <-]].
  apply elect_leader_round in He as Hr.
  destruct (decide_slot_spec p f Hsafe Hbyz e lo ro l r Hr R1 V1 K1 HK1) as (s1 & -> & Hs1).
  destruct (decide_slot_spec p f Hsafe Hbyz e lo ro l r Hr R2 V2 K2 HK2) as (s2 & -> & Hs2).
  simpl. intros [= <-] [= <-]. constructor; [|done].
  by eapply (slot_agree p f Hsafe Hbyz e lo ro l r Hr R1 V1 R2 V2).
Qed.

Lemma decide_rounds_agree bcs low n1 n2 L1 L2 :
  bases_ok bcs → decide_rounds R1 bcs low n1 = Ok L1 → decide_rounds R2 bcs low n2 = Ok L2 →
  overlap status_agree L1 L2.
Proof.
  intros Hb. revert low n2 L1 L2. induction n1 as [|n1 IH]; intros low n2 L1 L2; simpl.
  { intros [= <-] _. constructor. }
  destruct n2 as [|n2]; simpl; [intros _ [= <-]; constructor|].
  destruct (decide_rounds_ok R1 V1 bcs (low + 1) n1 Hb) as (K1 & E1 & H1).
  destruct (decide_rounds_ok R2 V2 bcs (low + 1) n2 Hb) as (K2 & E2 & H2).
  rewrite E1, E2. simpl. apply (decide_round_agree bcs low K1 K2); eauto.
Qed.

(** The later view extends the statuses of the earlier one. *)
Definition extends_prefix (L1 L2 : list LeaderStatus) : Prop :=
  Forall2 status_extends L1 (take (length L1) L2).

Lemma decide_round_extends bcs r L1 L2 L1' L2' :
  V1 ⊆ V2 → bases_ok bcs → leaders_held V1 L1 → leaders_held V2 L2 → extends_prefix L1 L2 →
  decide_round R1 bcs r L1 = Ok L1' → decide_round R2 bcs r L2 = Ok L2' → extends_prefix L1' L2'.
Proof.
  intros Hsub Hb H1 H2 Hov. revert L1' L2'.
  induction Hb as [|bc bcs (e & lo & ro & ->) Hb IH]; intros L1' L2'; simpl; [by intros [= <-] [= <-]|].
  destruct (decide_round_ok R1 V1 bcs r L1 Hb H1) as (K1 & E1 & HK1).
  destruct (decide_round_ok R2 V2 bcs r L2 Hb H2) as (K2 & E2 & HK2).
  specialize (IH _ _ E1 E2). rewrite E1, E2. simpl.
  destruct (elect_leader _ r) as [l|] eqn:He; [|by intros [= <-] [= <-]].
  apply elect_leader_round in He as Hr.
  destruct (decide_slot_spec p f Hsafe Hbyz e lo ro l r Hr R1 V1 K1 HK1) as (s1 & -> & Hs1).
  destruct (decide_slot_spec p f Hsafe Hbyz e lo ro l r Hr R2 V2 K2 HK2) as (s2 & -> & Hs2).
  simpl. intros [= <-] [= <-]. constructor; [|done].
  by eapply (slot_extends p f Hsafe Hbyz e lo ro l r Hr R1 V1 R2 V2).
Qed.

Lemma decide_rounds_extends bcs low n1 n2 L1 L2 :
  V1 ⊆ V2 → n1 ≤ n2 → bases_ok bcs →
  decide_rounds R1 bcs low n1 = Ok L1 → decide_rounds R2 bcs low n2 = Ok L2 → extends_prefix L1 L2.
Proof.
  intros Hsub. revert low n2 L1 L2. induction n1 as [|n1 IH]; intros low n2 L1 L2 Hn Hb; simpl.
  { intros [= <-] _. constructor. }
  destruct n2 as [|n2]; simpl; [lia|].
  destruct (decide_rounds_ok R1 V1 bcs (low + 1) n1 Hb) as (K1 & E1 & H1).
  destruct (decide_rounds_ok R2 V2 bcs (low + 1) n2 Hb) as (K2 & E2 & H2).
  rewrite E1, E2. simpl. apply (decide_round_extends bcs low K1 K2); [done..|].
  apply (IH (low + 1)%N n2); (done || lia).
Qed.

(** The sequences of two validators, from the start. *)
Lemma try_commit_agree :
  ∃ D1 D2, try_commit (committer_new C p) R1 None = Ok D1 ∧ try_commit (committer_new C p) R2 None = Ok D2 ∧
    (map decision_of D1 `prefix_of` map decision_of D2 ∨ map decision_of D2 `prefix_of` map decision_of D1).
Proof.
  destruct (try_commit_none R1 V1) as (L1 & E1 & ->), (try_commit_none R2 V2) as (L2 & E2 & ->).
  do 2 eexists. split_and!; [done|done|]. apply overlap_decided, overlap_filter; [apply agree_round|].
  eapply decide_rounds_agree; [apply committer_bases|done..].
Qed.

Lemma highest_mono : V1 ⊆ V2 → (reader_highest_round R1 ≤ reader_highest_round R2)%N.
Proof.
  intros Hsub. destruct (law_highest_attained (R := R1) (V := V1)) as [->|(r & [b Hb] & <-)]; [lia|].
  pose proof (law_keys (R := R1) _ _ Hb) as <-.
  apply (law_highest (R := R2) (V := V2) (reference b)). by eapply lookup_weaken.
Qed.

(** The answers of a growing view: what was decided stays, and the answer from
    a decision [D1] ends with is exactly what follows. *)
Lemma try_commit_grows D1 A1 A2 :
  V1 ⊆ V2 → (Npos (leader_count p) ≤ committee_len C)%N →
  try_commit (committer_new C p) R1 None = Ok D1 → map decision_of D1 = A1 ++ A2 →
  ∃ D D2 A3, try_commit (committer_new C p) R2 (last (map fst A1)) = Ok D ∧
    try_commit (committer_new C p) R2 None = Ok D2 ∧
    map decision_of D2 = A1 ++ map decision_of D ∧ map decision_of D = A2 ++ A3.
Proof.
  intros Hsub Hlc. pose proof (highest_mono Hsub) as Hh.
  destruct (try_commit_none R1 V1) as (L1 & E1 & ->), (try_commit_none R2 V2) as (L2 & E2 & Ht2).
  intros [= <-] HA.
  assert (map decision_of (decided_prefix L1) `prefix_of` map decision_of (decided_prefix L2)) as [post Hp].
  { apply extends_decided, extends_filter; [apply extends_round|].
    eapply decide_rounds_extends; [done| |apply committer_bases|done..]. lia. }
  rewrite HA, <- app_assoc in Hp.
  destruct (last A1) as [[slot o]|] eqn:El.
  - apply last_Some in El as [pre ->]. rewrite <- app_assoc in Hp. cbn [app] in Hp.
    destruct (try_commit_resume R2 V2 _ pre slot o (A2 ++ post) Hlc Ht2 Hp) as (D' & HD' & Hpost).
    exists D', (decided_prefix L2), post. rewrite map_app. simpl. rewrite last_snoc.
    split_and!; [done|done| |done]. by rewrite Hp, Hpost, <- app_assoc.
  - apply last_None in El as ->. cbn [app map last] in *.
    exists (decided_prefix L2), (decided_prefix L2), post. done.
Qed.
End Two.
End Agreement.
