(* ===== verification/Linearizer.v ===== *)
(** * The linearizer

    Models [CommittedSubDag] and [Linearizer] of the DAG crate's [consensus.rs]
    and [CommitData::from] of its [block_store.rs]: the committed leaders become
    a sequence of sub-DAGs, each the part of the leader's past that was not
    committed before, sorted by round.

    The stack of [collect_sub_dag] is a list with its top first; the loop takes
    fuel, and one unit per block of the view is enough. *)

From S2P Require Import Prelude Order Committee DagBlock DagStore Committer CommitSupport.
From stdpp Require Import base gmap list strings sorting.
From Stdlib Require Import NArith ZArith Lia.

(** ** The code *)

Record CommittedSubDag := { sub_anchor : BlockReference; sub_blocks : list Block }.

(** [Linearizer::committed] *)
Definition Linearizer : Type := gset BlockReference.
Definition linearizer_new : Linearizer := ∅.

(** [self.blocks.sort_by_key(|x| x.round())] *)
Definition round_leb (x y : Block) : bool := (round x <=? round y)%N.
Definition sub_dag_sort (s : CommittedSubDag) : CommittedSubDag :=
  {| sub_anchor := sub_anchor s; sub_blocks := sort_by round_leb (sub_blocks s) |}.

Section Code.
Context (R : BlockReader).

(** The loop over the includes of one block. *)
Fixpoint visit_includes (incs : list BlockReference) (committed : Linearizer) (buffer : list Block) :
    result (Linearizer * list Block) :=
  match incs with
  | [] => Ok (committed, buffer)
  | i :: incs =>
      let? block := expect_block R i in
      if bool_decide (i ∈ committed) then visit_includes incs committed buffer
      else visit_includes incs ({[i]} ∪ committed) (block :: buffer)
  end.

(** [while let Some(x) = buffer.pop()] *)
Fixpoint collect_loop (fuel : nat) (committed : Linearizer) (buffer to_commit : list Block) :
    result (Linearizer * list Block) :=
  match buffer with
  | [] => Ok (committed, to_commit)
  | x :: buffer =>
      match fuel with
      | O => Err "out of fuel"
      | S fuel =>
          let? ' (committed, buffer) := visit_includes (includes x) committed buffer in
          collect_loop fuel committed buffer (to_commit ++ [x])
      end
  end.

Definition collect_sub_dag (fuel : nat) (committed : Linearizer) (leader_block : Block) :
    result (Linearizer * CommittedSubDag) :=
  if bool_decide (reference leader_block ∈ committed)
  then Err "assertion failed: self.committed.insert(leader_block_ref)" else
  let? ' (committed, to_commit) :=
    collect_loop fuel ({[reference leader_block]} ∪ committed) [leader_block] [] in
  Ok (committed, {| sub_anchor := reference leader_block; sub_blocks := to_commit |}).

Fixpoint handle_commit (fuel : nat) (committed : Linearizer) (committed_leaders : list Block) :
    result (Linearizer * list CommittedSubDag) :=
  match committed_leaders with
  | [] => Ok (committed, [])
  | leader_block :: committed_leaders =>
      let? ' (committed, sub_dag) := collect_sub_dag fuel committed leader_block in
      let? ' (committed, rest) := handle_commit fuel committed committed_leaders in
      Ok (committed, sub_dag_sort sub_dag :: rest)
  end.
End Code.

(** [CommitData::from] *)
Definition commit_data (s : CommittedSubDag) : CommitData :=
  {| commit_leader := sub_anchor s; commit_sub_dag := map reference (sub_blocks s) |}.

(** All blocks of a sequence of sub-DAGs, in order of delivery. *)
Definition delivered (subs : list CommittedSubDag) : list Block := concat (map sub_blocks subs).
Definition delivered_refs (subs : list CommittedSubDag) : list BlockReference := map reference (delivered subs).

(** ** Sequences of leaders *)

Lemma handle_commit_app R fuel committed l1 l2 :
  handle_commit R fuel committed (l1 ++ l2)
  = let? ' (c1, s1) := handle_commit R fuel committed l1 in
    let? ' (c2, s2) := handle_commit R fuel c1 l2 in
    Ok (c2, s1 ++ s2).
Proof.
  revert committed. induction l1 as [|b l1 IH]; intros committed; simpl.
  { by destruct (handle_commit R fuel committed l2) as [[]|]. }
  destruct (collect_sub_dag R fuel committed b) as [[c sub]|]; simpl; [|done]. rewrite IH.
  destruct (handle_commit R fuel c l1) as [[c1 s1]|]; simpl; [|done].
  by destruct (handle_commit R fuel c1 l2) as [[c2 s2]|].
Qed.

(** Each block comes after what it includes; [c] came before. *)
Fixpoint causal_order (c : Linearizer) (l : list Block) : Prop :=
  match l with
  | [] => True
  | b :: l => (∀ i, i ∈ includes b → i ∈ c) ∧ causal_order ({[reference b]} ∪ c) l
  end.

Lemma causal_order_app c l1 l2 :
  causal_order c (l1 ++ l2) ↔ causal_order c l1 ∧ causal_order (c ∪ list_to_set (map reference l1)) l2.
Proof.
  revert c. induction l1 as [|b l1 IH]; intros c; simpl.
  { rewrite (right_id_L ∅ (∪)). tauto. }
  rewrite IH. replace ({[reference b]} ∪ c ∪ list_to_set (map reference l1))
    with (c ∪ ({[reference b]} ∪ list_to_set (map reference l1))) by set_solver. tauto.
Qed.

(** A list sorted by round is in causal order. *)
Lemma causal_order_sorted c l :
  StronglySorted (λ x y, round_leb x y = true) l →
  (∀ b i, b ∈ l → i ∈ includes b → (i ∈ c ∨ i ∈ map reference l) ∧ (ref_round i < round b)%N) →
  causal_order c l.
Proof.
  intros Hs. revert c. induction Hs as [|b l Hs IH Hb]; intros c Hi; simpl; [done|]. split.
  - intros i Hin. destruct (Hi b i) as [[|Hin'] Hlt]; [set_solver|done|done|]. exfalso.
    assert (∀ y, y ∈ b :: l → (round b ≤ round y)%N) as Hle.
    { intros y [->|Hy]%elem_of_cons; [done|]. rewrite Forall_forall in Hb. by apply N.leb_le, Hb. }
    apply (list_elem_of_fmap reference) in Hin' as (y & -> & Hy). specialize (Hle y Hy).
    unfold round in Hlt, Hle. lia.
  - apply IH. intros b' i Hb' Hi'. destruct (Hi b' i) as [Hor Hlt]; [set_solver|done|].
    split; [|done]. simpl in Hor. rewrite elem_of_cons in Hor. set_solver.
Qed.

Lemma round_leb_total x y : round_leb x y = false → round_leb y x = true.
Proof. unfold round_leb. rewrite N.leb_gt, N.leb_le. lia. Qed.

Lemma sort_round_sorted l : StronglySorted (λ x y, round_leb x y = true) (sort_by round_leb l).
Proof.
  apply Sorted_StronglySorted; [|apply sort_by_sorted, round_leb_total].
  intros x y z. unfold round_leb. rewrite !N.leb_le. lia.
Qed.

Section Views.
Context {C : Committee} {qt : Stake} {Byz : gset Authority} {U : Block → Prop}
  `{HW : !DagWorld C qt Byz U}.

(** ** What the walk collects *)

(** One step into the past, within the view. *)
Definition include_step (V : gmap BlockReference Block) (x y : Block) : Prop :=
  holds V y ∧ reference y ∈ includes x.
Definition past (V : gmap BlockReference Block) : Block → Block → Prop := rtc (include_step V).

(** The committed set contains the past of each of its blocks. *)
Definition committed_closed (V : gmap BlockReference Block) (c : Linearizer) : Prop :=
  ∀ b i, holds V b → reference b ∈ c → i ∈ includes b → i ∈ c.

Section One.
Context (R : BlockReader) (V : gmap BlockReference Block) `{HV : !DagView U R V}.

Abbreviation refs := (map reference).

Lemma past_round x y : holds V x → past V x y → holds V y ∧ (y = x ∨ (round y < round x)%N).
Proof.
  intros Hx Hp. induction Hp as [x|x y z [Hy Hi] _ IH]; [auto|].
  destruct (holds_include R V x (reference y)) as (y' & Hl & _ & _ & Hlt); [done|done|].
  unfold holds in Hy. rewrite Hy in Hl. injection Hl as <-.
  destruct (IH Hy) as [Hz [->|Hr]]; split; auto. right. lia.
Qed.

Lemma past_closed c x y : committed_closed V c → holds V x → reference x ∈ c → past V x y → reference y ∈ c.
Proof.
  intros Hc Hx Hr Hp. induction Hp as [x|x y z [Hy Hi] _ IH]; [done|].
  apply IH; [done|]. by apply (Hc x).
Qed.

(** The state of the walk: [c0] was committed before; [buffer] and [done] are
    distinct new blocks of the leader's past, and they make up what was added. *)
Record walk (c0 : Linearizer) (leader : Block) (c : Linearizer) (buffer done : list Block) : Prop := {
  walk_new : c = c0 ∪ list_to_set (refs (done ++ buffer));
  walk_nodup : NoDup (refs (done ++ buffer));
  walk_fresh : ∀ b, b ∈ done ++ buffer → reference b ∉ c0 ∧ holds V b ∧ past V leader b;
  walk_leader : reference leader ∈ c
}.

Lemma walk_push c0 leader c buffer dn x b :
  walk c0 leader c buffer dn → x ∈ dn → holds V b → reference b ∈ includes x → reference b ∉ c →
  walk c0 leader ({[reference b]} ∪ c) (b :: buffer) dn.
Proof.
  intros [Hc Hnd Hf Hl] Hx Hb Hi Hn.
  assert (refs (dn ++ b :: buffer) ≡ₚ reference b :: refs (dn ++ buffer)) as Hperm.
  { rewrite !map_app. simpl. by rewrite Permutation_middle. }
  split.
  - rewrite (list_to_set_perm_L _ _ Hperm). simpl. subst c. set_solver.
  - rewrite Hperm. apply NoDup_cons. split; [|done]. intros Hin. apply Hn. subst c.
    apply elem_of_union. right. by apply elem_of_list_to_set.
  - intros y. rewrite elem_of_app, elem_of_cons. intros [Hy|[->|Hy]].
    + apply Hf. set_solver.
    + subst c. split_and!; [set_solver|done|]. eapply rtc_r; [|by split].
      apply Hf, elem_of_app. by left.
    + apply Hf. set_solver.
  - set_solver.
Qed.

Lemma visit_includes_ok c0 leader x dn incs c buffer :
  x ∈ dn → holds V x → (∀ i, i ∈ incs → i ∈ includes x) → walk c0 leader c buffer dn →
  ∃ c' buffer', visit_includes R incs c buffer = Ok (c', buffer') ∧ walk c0 leader c' buffer' dn ∧
    c ⊆ c' ∧ (∀ i, i ∈ incs → i ∈ c').
Proof.
  intros Hx Hh. revert c buffer. induction incs as [|i incs IH]; intros c buffer Hin Hw; simpl.
  { exists c, buffer. split_and!; [done|done|done|set_solver]. }
  destruct (holds_include R V x i) as (b & Hb & <- & Hhb & _); [done|set_solver|].
  rewrite (expect_block_ok R V b Hhb). simpl. case_bool_decide as Hc.
  - destruct (IH c buffer) as (c' & buffer' & -> & Hw' & Hsub & Hall); [set_solver|done|].
    exists c', buffer'. split_and!; [done|done|done|set_solver].
  - destruct (IH ({[reference b]} ∪ c) (b :: buffer)) as (c' & buffer' & -> & Hw' & Hsub & Hall).
    { set_solver. }
    { eapply walk_push; [done..| |done]. set_solver. }
    exists c', buffer'. split_and!; [done|done|set_solver|set_solver].
Qed.

Lemma walk_size c0 leader c buffer dn :
  walk c0 leader c buffer dn → length dn + length buffer ≤ size V.
Proof.
  intros [_ Hnd Hf _]. rewrite <- length_app, <- (length_map reference), <- size_dom.
  rewrite <- (size_list_to_set (C := gset BlockReference)) by done.
  apply subseteq_size. intros r (b & -> & Hb)%elem_of_list_to_set%(list_elem_of_fmap reference).
  apply elem_of_dom. exists b. by apply Hf.
Qed.

Lemma collect_loop_ok fuel c0 leader c buffer dn :
  size V ≤ fuel + length dn → walk c0 leader c buffer dn →
  (∀ b i, b ∈ dn → i ∈ includes b → i ∈ c) →
  ∃ c' l, collect_loop R fuel c buffer dn = Ok (c', l) ∧ walk c0 leader c' [] l ∧
    (∀ b i, b ∈ l → i ∈ includes b → i ∈ c').
Proof.
  revert c buffer dn. induction fuel as [|fuel IH]; intros c buffer dn Hf Hw Hinc;
    pose proof (walk_size _ _ _ _ _ Hw) as Hs; (destruct buffer as [|x buffer]; [by eexists _, _|]);
    simpl in Hs; [lia|].
  simpl. assert (walk c0 leader c buffer (dn ++ [x])) as Hw'.
  { destruct Hw as [H1 H2 H3 H4]. split; [..|done]; by rewrite <- app_assoc. }
  destruct (visit_includes_ok c0 leader x (dn ++ [x]) (includes x) c buffer)
    as (c' & buffer' & -> & Hw2 & Hsub & Hall); [set_solver| |done|done|].
  { apply (walk_fresh _ _ _ _ _ Hw). set_solver. }
  simpl. apply IH; [rewrite length_app; simpl; lia|done|].
  intros b i [Hb| ->%list_elem_of_singleton]%elem_of_app Hi; [by apply Hsub, (Hinc b)|by apply Hall].
Qed.

(** The sub-DAG of a leader: its past without what was committed before. *)
Lemma collect_sub_dag_ok fuel c leader :
  size V ≤ fuel → holds V leader → committed_closed V c → reference leader ∉ c →
  ∃ c' l, collect_sub_dag R fuel c leader
          = Ok (c', {| sub_anchor := reference leader; sub_blocks := l |}) ∧
    c' = c ∪ list_to_set (refs l) ∧ committed_closed V c' ∧ NoDup (refs l) ∧
    (∀ b, b ∈ l ↔ past V leader b ∧ reference b ∉ c).
Proof.
  intros Hf Hl Hc Hn. unfold collect_sub_dag. rewrite bool_decide_false by done.
  destruct (collect_loop_ok fuel c leader ({[reference leader]} ∪ c) [leader] [])
    as (c' & l & -> & [H1 H2 H3 H4] & Hinc); [simpl; lia| |set_solver|].
  { split; simpl; [set_solver|apply NoDup_singleton| |set_solver].
    intros b ->%list_elem_of_singleton. split_and!; [done|done|apply rtc_refl]. }
  simpl. rewrite app_nil_r in *.
  assert (committed_closed V c') as Hcl.
  { intros b i Hb Hin Hi. subst c'. apply elem_of_union in Hin as [Hin|Hin].
    - apply elem_of_union. left. by apply (Hc b).
    - apply elem_of_list_to_set, (list_elem_of_fmap reference) in Hin as (b' & Hr & Hb').
      apply (Hinc b' i Hb'). assert (b = b') as <-; [|done].
      apply (holds_same R V R V); [done|by apply H3|done]. }
  exists c', l. split_and!; [done|done|done|done|]. intros b. split.
  - intros Hb. split; by apply H3.
  - intros [Hp Hb]. pose proof (past_closed c' leader b Hcl Hl H4 Hp) as Hin.
    destruct (past_round leader b Hl Hp) as [Hhb _].
    subst c'. apply elem_of_union in Hin as [Hin|Hin]; [done|].
    apply elem_of_list_to_set, (list_elem_of_fmap reference) in Hin as (b' & Hr & Hb').
    assert (b = b') as <-; [|done]. apply (holds_same R V R V); [done|by apply H3|done].
Qed.

(** ** A sequence of leaders *)

(** Leaders the linearizer accepts after [c]: new, distinct, in order of rounds. *)
Record leaders_ok (c : Linearizer) (leaders : list Block) : Prop := {
  leaders_hold : ∀ b, b ∈ leaders → holds V b;
  leaders_new : ∀ b, b ∈ leaders → reference b ∉ c;
  leaders_nodup : NoDup (refs leaders);
  leaders_sorted : StronglySorted (λ x y, (round x ≤ round y)%N) leaders
}.

(** What the sub-DAGs of a sequence of leaders are. *)
Record linearized (c : Linearizer) (leaders : list Block) (c' : Linearizer)
    (subs : list CommittedSubDag) : Prop := {
  lin_anchors : map sub_anchor subs = refs leaders;
  lin_committed : c' = c ∪ list_to_set (delivered_refs subs);
  lin_closed : committed_closed V c';
  lin_once : NoDup (delivered_refs subs);
  lin_complete : ∀ b, b ∈ delivered subs ↔ (∃ l, l ∈ leaders ∧ past V l b) ∧ reference b ∉ c;
  lin_causal : causal_order c (delivered subs)
}.

Lemma leaders_ok_tail c b leaders l :
  leaders_ok c (b :: leaders) → (∀ x, x ∈ l → past V b x) →
  leaders_ok (c ∪ list_to_set (refs l)) leaders.
Proof.
  intros [Hh Hn Hnd Hs] Hl. apply StronglySorted_inv in Hs as [Hs Hle].
  simpl in Hnd. apply NoDup_cons in Hnd as [Hb Hnd]. split; [set_solver| |done|done].
  intros y Hy. rewrite elem_of_union. intros [Hin|Hin]; [by apply (Hn y); [set_solver|]|].
  apply elem_of_list_to_set, (list_elem_of_fmap reference) in Hin as (x & Hr & Hx).
  rewrite Forall_forall in Hle. specialize (Hle y Hy).
  destruct (past_round b x) as [_ [->|Hlt]]; [by apply Hh; set_solver|by apply Hl| |].
  - apply Hb. rewrite <- Hr. apply (list_elem_of_fmap reference). by exists y.
  - unfold round in *. rewrite Hr in Hle. lia.
Qed.

Lemma handle_commit_ok fuel c leaders :
  size V ≤ fuel → committed_closed V c → leaders_ok c leaders →
  ∃ c' subs, handle_commit R fuel c leaders = Ok (c', subs) ∧ linearized c leaders c' subs.
Proof.
  intros Hf. revert c. induction leaders as [|b leaders IH]; intros c Hc Hl; simpl.
  { exists c, []. split; [done|]. split; simpl; [done| |done|constructor| |done].
    - unfold delivered_refs. simpl. by rewrite (right_id_L ∅ (∪)).
    - set_solver. }
  destruct (collect_sub_dag_ok fuel c b) as (c1 & l & -> & Hc1 & Hcl1 & Hnd1 & Hin1);
    [done|by apply (leaders_hold _ _ Hl); set_solver|done|by apply (leaders_new _ _ Hl); set_solver|].
  simpl. destruct (IH c1 Hcl1) as (c2 & subs & -> & [Ha Hc2 Hcl2 Hnd2 Hin2 Hca2]).
  { subst c1. eapply leaders_ok_tail; [done|]. intros x Hx. by apply Hin1. }
  simpl. eexists _, _. split; [done|].
  set (k := sort_by round_leb l). assert (k ≡ₚ l) as Hk by apply sort_by_perm.
  assert (delivered (sub_dag_sort {| sub_anchor := reference b; sub_blocks := l |} :: subs)
          = k ++ delivered subs) as Hdel by done.
  assert (refs k ≡ₚ refs l) as Hrk by (by apply Permutation_map).
  assert (list_to_set (refs k) = (list_to_set (refs l) : Linearizer)) as Hsk by (by apply list_to_set_perm_L).
  assert (∀ y, y ∈ delivered subs → reference y ∉ c1) as Hnew by (intros y Hy; by apply Hin2).
  assert (∀ x, x ∈ k ↔ past V b x ∧ reference x ∉ c) as Hin by (intros x; by rewrite Hk, Hin1).
  split.
  - simpl. by rewrite Ha.
  - unfold delivered_refs. rewrite Hdel, map_app. subst c2 c1.
    rewrite list_to_set_app_L, Hsk. by rewrite (assoc_L (∪)).
  - done.
  - unfold delivered_refs. rewrite Hdel, map_app. apply NoDup_app. split_and!; [by rewrite Hrk| |done].
    intros r Hr (y & -> & Hy)%(list_elem_of_fmap reference). apply (Hnew y Hy). subst c1.
    apply elem_of_union. right. apply elem_of_list_to_set. by rewrite <- Hrk.
  - intros x. rewrite Hdel, elem_of_app, Hin, Hin2. subst c1. split.
    + intros [[Hp Hx]|[(y & Hy & Hp) Hx]]; (split; [|set_solver]); eexists; (split; [|done]); set_solver.
    + intros [(y & [->|Hy]%elem_of_cons & Hp) Hx]; [by left|].
      destruct (decide (reference x ∈ refs l)) as [Hr|Hr].
      * left. apply (list_elem_of_fmap reference) in Hr as (x' & Hr & Hx').
        assert (x = x') as <-; [|by apply Hin1].
        apply (holds_same R V R V); [| |done].
        -- apply (past_round y x); [by apply (leaders_hold _ _ Hl); set_solver|done].
        -- apply Hin1 in Hx' as [Hp' _]. apply (past_round b x'); [|done].
           apply (leaders_hold _ _ Hl); set_solver.
      * right. split; [by exists y|]. rewrite elem_of_union, elem_of_list_to_set. tauto.
  - rewrite Hdel. apply causal_order_app. split.
    + apply causal_order_sorted; [apply sort_round_sorted|]. intros x i Hx Hi.
      assert (holds V x) as Hhx.
      { apply Hin in Hx as [Hp _]. apply (past_round b x); [|done]. apply (leaders_hold _ _ Hl); set_solver. }
      split; [|by apply (wf_includes _ _ _ (world_wf x (holds_world R V x Hhx)) i Hi)].
      change (i ∈ c ∨ i ∈ refs k).
      assert (i ∈ c1) as Hic1.
      { apply (Hcl1 x); [done| |done]. subst c1. apply elem_of_union. right.
        apply elem_of_list_to_set. rewrite <- Hrk. apply (list_elem_of_fmap reference). by exists x. }
      subst c1. apply elem_of_union in Hic1 as [?|?%elem_of_list_to_set]; [by left|right; by rewrite Hrk].
    + replace (c ∪ list_to_set (refs k)) with c1; [done|]. subst c1. by rewrite Hsk.
Qed.
(** Sub-DAG by sub-DAG: the anchor is the leader, and the blocks are the past
    of the leader without what the earlier ones have delivered. *)
Fixpoint sub_dags_of (c : Linearizer) (leaders : list Block) (subs : list CommittedSubDag) : Prop :=
  match leaders, subs with
  | [], [] => True
  | b :: leaders, sub :: subs =>
      sub_anchor sub = reference b ∧ reference b ∉ c ∧
      (∀ x, x ∈ sub_blocks sub ↔ past V b x ∧ reference x ∉ c) ∧
      sub_dags_of (c ∪ list_to_set (refs (sub_blocks sub))) leaders subs
  | _, _ => False
  end.

Lemma handle_commit_subs fuel c leaders c' subs :
  size V ≤ fuel → committed_closed V c → leaders_ok c leaders →
  handle_commit R fuel c leaders = Ok (c', subs) → sub_dags_of c leaders subs.
Proof.
  intros Hf. revert c c' subs. induction leaders as [|b leaders IH]; intros c c' subs Hc Hl; simpl.
  { by intros [= <- <-]. }
  destruct (collect_sub_dag_ok fuel c b) as (c1 & l & -> & Hc1 & Hcl1 & Hnd1 & Hin1);
    [done|by apply (leaders_hold _ _ Hl); set_solver|done|by apply (leaders_new _ _ Hl); set_solver|].
  cbn [result_bind]. destruct (handle_commit R fuel c1 leaders) as [[c2 subs2]|] eqn:E; [|done].
  cbn [result_bind]. intros [= <- <-]. cbn [sub_dags_of sub_dag_sort sub_anchor sub_blocks].
  assert (sort_by round_leb l ≡ₚ l) as Hk by apply sort_by_perm.
  split_and!; [done|by apply (leaders_new _ _ Hl); set_solver|intros x; by rewrite Hk, Hin1|].
  rewrite (list_to_set_perm_L _ (refs l)) by (by apply Permutation_map). rewrite <- Hc1.
  apply (IH c1 c2); [done| |done]. subst c1. eapply leaders_ok_tail; [done|].
  intros x Hx. by apply Hin1.
Qed.

Lemma sub_dags_split c leaders pre sub post :
  sub_dags_of c leaders (pre ++ sub :: post) →
  ∃ b, leaders !! length pre = Some b ∧ sub_anchor sub = reference b ∧ b ∈ sub_blocks sub ∧
    ∀ x, x ∈ sub_blocks sub ↔ past V b x ∧ reference x ∉ c ∧ reference x ∉ delivered_refs pre.
Proof.
  revert c leaders. induction pre as [|s pre IH]; intros c [|b leaders]; simpl; try done.
  - intros (Ha & Hb & Hin & _). exists b.
    split_and!; [done|done|apply Hin; split; [apply rtc_refl|done]|]. intros x. rewrite Hin.
    unfold delivered_refs. simpl. rewrite elem_of_nil. tauto.
  - intros (_ & _ & _ & H). destruct (IH _ _ H) as (b' & Hb & Ha & Hl & Hin). exists b'.
    split_and!; [done|done|done|]. intros x. rewrite Hin. unfold delivered_refs, delivered.
    simpl. rewrite map_app, elem_of_app, elem_of_union, elem_of_list_to_set. tauto.
Qed.
End One.

(** ** The sub-DAGs do not depend on the view *)

Section Two.
Context (R1 : BlockReader) (V1 : gmap BlockReference Block) `{HV1 : !DagView U R1 V1}
  (R2 : BlockReader) (V2 : gmap BlockReference Block) `{HV2 : !DagView U R2 V2}.

Definition both (b : Block) : Prop := holds V1 b ∧ holds V2 b.

Lemma visit_includes_view x incs c buffer :
  both x → (∀ i, i ∈ incs → i ∈ includes x) → Forall both buffer →
  ∃ c' buffer', visit_includes R1 incs c buffer = Ok (c', buffer') ∧
    visit_includes R2 incs c buffer = Ok (c', buffer') ∧ Forall both buffer'.
Proof.
  intros [H1 H2]. revert c buffer. induction incs as [|i incs IH]; intros c buffer Hin Hb; simpl.
  { by exists c, buffer. }
  destruct (holds_include R1 V1 x i) as (b & Hl & <- & Hh1 & _); [done|set_solver|].
  destruct (holds_include R2 V2 x (reference b)) as (b' & _ & Hr & Hh2 & _); [done|set_solver|].
  assert (b' = b) as -> by (by apply (holds_same R2 V2 R1 V1)).
  rewrite (expect_block_ok R1 V1 b Hh1), (expect_block_ok R2 V2 b Hh2). simpl.
  case_bool_decide; apply IH; try set_solver. by constructor.
Qed.

Lemma collect_loop_view f1 f2 c buffer dn res :
  f1 ≤ f2 → Forall both buffer → collect_loop R1 f1 c buffer dn = Ok res →
  collect_loop R2 f2 c buffer dn = Ok res.
Proof.
  revert f2 c buffer dn. induction f1 as [|f1 IH]; intros f2 c buffer dn Hf Hb;
    (destruct buffer as [|x buffer]; [by destruct f2|]); [done|].
  destruct f2 as [|f2]; [lia|]. apply Forall_cons in Hb as [Hx Hb]. simpl.
  destruct (visit_includes_view x (includes x) c buffer Hx) as (c' & buffer' & -> & -> & Hb'); [done|done|].
  simpl. apply IH; [lia|done].
Qed.

Lemma handle_commit_view f1 f2 c leaders res :
  f1 ≤ f2 → Forall both leaders → handle_commit R1 f1 c leaders = Ok res →
  handle_commit R2 f2 c leaders = Ok res.
Proof.
  intros Hf Hb. revert c res. induction Hb as [|b leaders Hb _ IH]; intros c res; simpl; [done|].
  unfold collect_sub_dag. case_bool_decide; [done|].
  destruct (collect_loop R1 f1 _ [b] []) as [[c1 l]|] eqn:E; [|done].
  assert (Forall both [b]) as Hbb by (apply Forall_singleton, Hb).
  rewrite (collect_loop_view f1 f2 _ [b] _ _ Hf Hbb E). simpl.
  destruct (handle_commit R1 f1 c1 leaders) as [[c2 subs]|] eqn:E2; [|done].
  by rewrite (IH _ _ E2).
Qed.
End Two.
End Views.
