(* ===== verification/BlockManager.v ===== *)
(** * The block manager

    Models [core/block_manager.rs] of the DAG crate: blocks wait until every
    block they include is stored; storing one may release others.

    The order in which a [HashSet] is iterated is the argument [order]; the loop
    takes fuel, and two units per incoming block plus one per pending block are
    enough. *)

From S2P Require Import Prelude Order Committee DagBlock DagStore DagStoreTheorems.
From stdpp Require Import base gmap list strings.
From Stdlib Require Import NArith ZArith Lia.

(** ** The code *)

Record BlockManager := {
  blocks_pending : gmap BlockReference Block;
  block_references_waiting : gmap BlockReference (gset BlockReference);
  missing : list (gset BlockReference)
}.

Definition manager_new (C : Committee) : BlockManager :=
  {| blocks_pending := ∅; block_references_waiting := ∅;
     missing := replicate (N.to_nat (committee_len C)) ∅ |}.

(** [self.missing[authority]] with an update; indexing out of range panics. *)
Definition missing_update (f : gset BlockReference → gset BlockReference) (a : Authority)
    (l : list (gset BlockReference)) : result (list (gset BlockReference)) :=
  match l !! N.to_nat a with
  | None => Err "index out of bounds"
  | Some s => Ok (<[N.to_nat a := f s]> l)
  end.

(** The loop over the includes of an incoming block. *)
Fixpoint check_references (st : Storage) (b : BlockReference) (incs : list BlockReference)
    (m : BlockManager) (processed : bool) : result (BlockManager * bool) :=
  match incs with
  | [] => Ok (m, processed)
  | i :: incs =>
      if store_block_exists (store st) i then check_references st b incs m processed
      else
        let waiting := <[i := {[b]} ∪ default ∅ (block_references_waiting m !! i)]>
                         (block_references_waiting m) in
        let? miss :=
          match blocks_pending m !! i with
          | Some _ => Ok (missing m)
          | None => missing_update ({[i]} ∪.) (ref_authority i) (missing m)
          end in
        check_references st b incs
          {| blocks_pending := blocks_pending m; block_references_waiting := waiting; missing := miss |}
          false
  end.

(** No included block is waited for any more. *)
Definition unblocked (waiting : gmap BlockReference (gset BlockReference)) (b : Block) : bool :=
  forallb (λ i, bool_decide (waiting !! i = None)) (includes b).

Fixpoint release (waiting : gmap BlockReference (gset BlockReference)) (refs : list BlockReference)
    (pending : gmap BlockReference Block) (queue : list Block) :
    result (gmap BlockReference Block * list Block) :=
  match refs with
  | [] => Ok (pending, queue)
  | r :: refs =>
      match pending !! r with
      | None => Err "Block waiting ref must exist"
      | Some b =>
          if unblocked waiting b then release waiting refs (delete r pending) (b :: queue)
          else release waiting refs pending queue
      end
  end.

Section Code.
Context (order : gset BlockReference → list BlockReference).

Fixpoint add_blocks_loop (fuel : nat) (blocks : list Block) (m : BlockManager) (st : Storage)
    (newly_blocks_processed : list (WalPosition * Block)) :
    result (BlockManager * Storage * list (WalPosition * Block)) :=
  match blocks with
  | [] => Ok (m, st, newly_blocks_processed)
  | block :: blocks =>
      match fuel with
      | O => Err "out of fuel"
      | S fuel =>
          let r := reference block in
          if store_block_exists (store st) r || bool_decide (is_Some (blocks_pending m !! r))
          then add_blocks_loop fuel blocks m st newly_blocks_processed
          else
            let? ' (m1, processed) := check_references st r (includes block) m true in
            let? miss := missing_update (.∖ {[r]}) (ref_authority r) (missing m1) in
            if negb processed then
              add_blocks_loop fuel blocks
                {| blocks_pending := <[r := block]> (blocks_pending m1);
                   block_references_waiting := block_references_waiting m1; missing := miss |}
                st newly_blocks_processed
            else
              let? ' (st1, position) := insert_block block st in
              let newly := newly_blocks_processed ++ [(position, block)] in
              let waiting := delete r (block_references_waiting m1) in
              let? ' (pending, blocks) :=
                match block_references_waiting m1 !! r with
                | None => Ok (blocks_pending m1, blocks)
                | Some refs => release waiting (order refs) (blocks_pending m1) blocks
                end in
              add_blocks_loop fuel blocks
                {| blocks_pending := pending; block_references_waiting := waiting; missing := miss |}
                st1 newly
      end
  end.

Definition manager_fuel (blocks : list Block) (m : BlockManager) : nat :=
  2 * length blocks + size (blocks_pending m).

Definition manager_add_blocks (blocks : list Block) (m : BlockManager) (st : Storage) :
    result (BlockManager * Storage * list (WalPosition * Block)) :=
  add_blocks_loop (manager_fuel blocks m) blocks m st [].
End Code.

(** ** Lemmas on the store *)

Lemma block_exists_iff C st r :
  storage_ok C st → store_block_exists (store st) r = true ↔ is_Some (wal_view (wal st) !! r).
Proof.
  intros [HV _ _]. unfold store_block_exists. rewrite bool_decide_eq_true.
  pose proof (repr_get _ _ HV r) as H. unfold store_get_block in H.
  destruct (blocks_at (store st) (ref_round r) !! author_digest r).
  - destruct H as (b & _ & _ & ->). split; eauto.
  - rewrite H. by split; intros [? ?].
Qed.

Lemma block_exists_false C st r :
  storage_ok C st → store_block_exists (store st) r = false ↔ wal_view (wal st) !! r = None.
Proof.
  intros Hst. rewrite <- not_true_iff_false, (block_exists_iff C) by done. by rewrite <- eq_None_not_Some.
Qed.

(** ** The invariant *)

(** [r] is listed as missing at index [a]. *)
Definition in_missing (l : list (gset BlockReference)) (a : nat) (r : BlockReference) : Prop :=
  ∃ s, l !! a = Some s ∧ r ∈ s.

(** A block the loop can take: known authors only. *)
Definition admissible (C : Committee) (b : Block) : Prop :=
  known C (author b) ∧ ∀ i, i ∈ includes b → known C (ref_authority i).

(** What the manager knows about the view [V], with the blocks [us] released but
    not stored yet: a reference is waited for exactly when it is a missing
    include of a pending block, and it is listed as missing exactly when it is
    waited for and was not received. *)
Record manager_ok (C : Committee) (V : gmap BlockReference Block) (us : list Block)
    (m : BlockManager) : Prop := {
  man_pending : ∀ r b, blocks_pending m !! r = Some b →
    reference b = r ∧ V !! r = None ∧ admissible C b ∧ r ∉ map reference us;
  man_wait_sound : ∀ i s, block_references_waiting m !! i = Some s →
    V !! i = None ∧ ∀ p, p ∈ s → ∃ b, blocks_pending m !! p = Some b ∧ i ∈ includes b;
  man_wait_some : ∀ i s, block_references_waiting m !! i = Some s → s ≠ ∅;
  man_wait_complete : ∀ p b i, blocks_pending m !! p = Some b → i ∈ includes b → V !! i = None →
    ∃ s, block_references_waiting m !! i = Some s ∧ p ∈ s;
  man_blocked : ∀ p b, blocks_pending m !! p = Some b → ∃ i, i ∈ includes b ∧ V !! i = None;
  man_missing_len : length (missing m) = length (committee_authorities C);
  man_missing : ∀ a r, in_missing (missing m) a r ↔
    a = N.to_nat (ref_authority r) ∧ is_Some (block_references_waiting m !! r) ∧
    blocks_pending m !! r = None ∧ r ∉ map reference us
}.

(** A block that can be stored at once. *)
Definition ready (C : Committee) (V : gmap BlockReference Block) (b : Block) : Prop :=
  V !! reference b = None ∧ (∀ i, i ∈ includes b → is_Some (V !! i)) ∧ admissible C b.

Lemma missing_update_ok C f a l :
  known C a → length l = length (committee_authorities C) →
  ∃ s, l !! N.to_nat a = Some s ∧ missing_update f a l = Ok (<[N.to_nat a := f s]> l).
Proof.
  intros Ha Hl. unfold missing_update.
  destruct (l !! N.to_nat a) as [s|] eqn:E; [by exists s|].
  apply lookup_ge_None in E. unfold known, get_stake in Ha.
  destruct Ha as [x (y & Ha & _)%fmap_Some]. apply lookup_lt_Some in Ha. lia.
Qed.

Lemma in_missing_insert l a s s' x r :
  l !! a = Some s → in_missing (<[a := s']> l) x r ↔ (x = a ∧ r ∈ s') ∨ (x ≠ a ∧ in_missing l x r).
Proof.
  intros Ha. unfold in_missing. destruct (decide (x = a)) as [->|Hne].
  - rewrite list_lookup_insert_eq by (by eapply lookup_lt_Some). naive_solver.
  - rewrite list_lookup_insert_ne by done. naive_solver.
Qed.

Lemma missing_add C i l :
  known C (ref_authority i) → length l = length (committee_authorities C) →
  ∃ l', missing_update ({[i]} ∪.) (ref_authority i) l = Ok l' ∧ length l' = length l ∧
    ∀ a r, in_missing l' a r ↔ in_missing l a r ∨ (a = N.to_nat (ref_authority i) ∧ r = i).
Proof.
  intros Ha Hl. destruct (missing_update_ok C ({[i]} ∪.) _ l Ha Hl) as (s & Hs & ->).
  eexists. split_and!; [done|by rewrite length_insert|]. intros a r.
  rewrite (in_missing_insert _ _ _ _ _ _ Hs), elem_of_union, elem_of_singleton.
  destruct (decide (a = N.to_nat (ref_authority i))) as [->|]; [|naive_solver].
  unfold in_missing. rewrite Hs. naive_solver.
Qed.

Lemma missing_remove C i l :
  known C (ref_authority i) → length l = length (committee_authorities C) →
  ∃ l', missing_update (.∖ {[i]}) (ref_authority i) l = Ok l' ∧ length l' = length l ∧
    ∀ a r, in_missing l' a r ↔ in_missing l a r ∧ ¬ (a = N.to_nat (ref_authority i) ∧ r = i).
Proof.
  intros Ha Hl. destruct (missing_update_ok C (.∖ {[i]}) _ l Ha Hl) as (s & Hs & ->).
  eexists. split_and!; [done|by rewrite length_insert|]. intros a r.
  rewrite (in_missing_insert _ _ _ _ _ _ Hs), elem_of_difference, elem_of_singleton.
  destruct (decide (a = N.to_nat (ref_authority i))) as [->|]; [|naive_solver].
  unfold in_missing. rewrite Hs. naive_solver.
Qed.

(** What one pass over the includes changes. *)
Lemma check_references_ok C st b incs m processed :
  storage_ok C st → (∀ i, i ∈ incs → known C (ref_authority i)) →
  length (missing m) = length (committee_authorities C) →
  ∃ m', check_references st b incs m processed
        = Ok (m', processed && forallb (λ i, store_block_exists (store st) i) incs) ∧
    blocks_pending m' = blocks_pending m ∧ length (missing m') = length (missing m) ∧
    (∀ i, block_references_waiting m' !! i
          = if decide (i ∈ incs ∧ wal_view (wal st) !! i = None)
            then Some ({[b]} ∪ default ∅ (block_references_waiting m !! i))
            else block_references_waiting m !! i) ∧
    (∀ a r, in_missing (missing m') a r ↔ in_missing (missing m) a r ∨
       (a = N.to_nat (ref_authority r) ∧ r ∈ incs ∧ wal_view (wal st) !! r = None ∧
        blocks_pending m !! r = None)).
Proof.
  intros Hst. revert m processed. induction incs as [|i incs IH]; intros m processed Hk Hl;
    cbn [check_references forallb].
  { exists m. rewrite andb_true_r. split_and!; [done|done|done| |].
    - intros i. rewrite decide_False; [done|]. intros [[]%not_elem_of_nil _].
    - set_solver. }
  destruct (store_block_exists (store st) i) eqn:He.
  - destruct (IH m processed) as (m' & -> & Hp & Hlen & Hw & Hm); [set_solver|done|].
    apply (block_exists_iff C) in He as [x Hx]; [|done].
    exists m'. split_and!; [done|done|done| |].
    + intros j. rewrite Hw. apply decide_ext. rewrite elem_of_cons. naive_solver.
    + intros a r. rewrite Hm, elem_of_cons. naive_solver.
  - apply (block_exists_false C) in He; [|done].
    assert (∃ miss, match blocks_pending m !! i with
                    | Some _ => Ok (missing m)
                    | None => missing_update ({[i]} ∪.) (ref_authority i) (missing m)
                    end = Ok miss ∧ length miss = length (missing m) ∧
      ∀ a r, in_missing miss a r ↔ in_missing (missing m) a r ∨
        (a = N.to_nat (ref_authority i) ∧ r = i ∧ blocks_pending m !! i = None)) as (miss & -> & Hlm & Hmiss).
    { destruct (blocks_pending m !! i) as [x|] eqn:E; [exists (missing m); naive_solver|].
      destruct (missing_add C i (missing m)) as (l' & -> & Hl' & Hin'); [set_solver|done|].
      exists l'. naive_solver. }
    cbn [result_bind].
    set (w := <[i := {[b]} ∪ default ∅ (block_references_waiting m !! i)]> (block_references_waiting m)).
    destruct (IH {| blocks_pending := blocks_pending m; block_references_waiting := w; missing := miss |} false)
      as (m' & -> & Hp & Hlen & Hw & Hm); [set_solver|simpl; congruence|].
    exists m'. cbn in Hp, Hlen, Hw, Hm. rewrite andb_false_r. split_and!; [done|done|congruence| |].
    + intros j. rewrite Hw. unfold w. destruct (decide (j = i)) as [->|Hne].
      * rewrite lookup_insert_eq. rewrite (decide_True (P := i ∈ i :: incs ∧ _)) by set_solver.
        simpl. case_decide; [|done]. f_equal. set_solver.
      * rewrite lookup_insert_ne by done. apply decide_ext. rewrite elem_of_cons. naive_solver.
    + intros a r. rewrite Hm, Hmiss, elem_of_cons. naive_solver.
Qed.

(** The waiting blocks that are unblocked leave the pending map. *)
Lemma release_ok waiting refs pending queue :
  NoDup refs → (∀ r, r ∈ refs → is_Some (pending !! r)) →
  (∀ r b, pending !! r = Some b → reference b = r) →
  ∃ us pending', release waiting refs pending queue = Ok (pending', us ++ queue) ∧
    size pending = length us + size pending' ∧
    NoDup (map reference us) ∧
    (∀ b, b ∈ us ↔ ∃ r, r ∈ refs ∧ pending !! r = Some b ∧ unblocked waiting b = true) ∧
    (∀ r b, pending' !! r = Some b ↔
      pending !! r = Some b ∧ ¬ (r ∈ refs ∧ unblocked waiting b = true)).
Proof.
  revert pending queue. induction refs as [|r refs IH]; intros pending queue Hnd Hin Hk; simpl.
  { exists [], pending. split_and!; [done|done|constructor|set_solver|set_solver]. }
  apply NoDup_cons in Hnd as [Hr Hnd].
  destruct (Hin r) as [b Hb]; [set_solver|]. rewrite Hb. destruct (unblocked waiting b) eqn:Hu.
  - destruct (IH (delete r pending) (b :: queue) Hnd) as (us & pending' & -> & Hs & Hnd' & Hus & Hp).
    { intros r' Hr'. rewrite lookup_delete_ne by set_solver. set_solver. }
    { intros r' b' [_ Hb']%lookup_delete_Some. by apply Hk. }
    rewrite map_size_delete, Hb in Hs.
    assert (size pending ≠ 0) by (apply map_size_ne_0_lookup; eauto).
    exists (us ++ [b]), pending'. split_and!.
    + by rewrite <- app_assoc.
    + rewrite length_app. simpl. lia.
    + rewrite map_app. apply NoDup_app. split_and!; [done| |apply NoDup_singleton].
      intros x (y & -> & (r' & _ & [Hne Hy]%lookup_delete_Some & _)%Hus)%(list_elem_of_fmap reference).
      intros Hx%list_elem_of_singleton. apply Hne. by rewrite <- (Hk r' y), <- (Hk r b).
    + intros x. rewrite elem_of_app, list_elem_of_singleton, Hus. setoid_rewrite elem_of_cons.
      setoid_rewrite lookup_delete_Some. split; [naive_solver|].
      intros (r' & [->|Hr'] & Hx & Hux); [right; congruence|left]. exists r'. set_solver.
    + intros r' x. rewrite Hp, lookup_delete_Some, elem_of_cons. split; [|naive_solver].
      intros ((Hne & Hx) & Hn). split; [done|]. naive_solver.
  - destruct (IH pending queue Hnd) as (us & pending' & -> & Hs & Hnd' & Hus & Hp); [set_solver|done|].
    exists us, pending'. split_and!; [done|done|done| |].
    + intros x. rewrite Hus. setoid_rewrite elem_of_cons. split; [naive_solver|].
      intros (r' & [->|Hr'] & Hx & Hux); [congruence|]. eauto.
    + intros r' x. rewrite Hp, elem_of_cons. split; [|naive_solver].
      intros [Hx Hn]. split; [done|]. intros [[->|Hr'] Hux]; [congruence|naive_solver].
Qed.

Lemma manager_new_ok C V : manager_ok C V [] (manager_new C).
Proof.
  split; simpl; try (intros *; by rewrite lookup_empty).
  - rewrite length_replicate. unfold committee_len. lia.
  - intros a r. rewrite lookup_empty. split; [|naive_solver].
    intros (s & [-> _]%lookup_replicate & Hr). set_solver.
Qed.

(** ** The steps of the loop *)

Section Steps.
Context (order : gset BlockReference → list BlockReference)
  (Horder : ∀ s, order s ≡ₚ elements s).

Lemma order_nodup s : NoDup (order s).
Proof. rewrite Horder. apply NoDup_elements. Qed.

Lemma elem_of_order s r : r ∈ order s ↔ r ∈ s.
Proof. by rewrite Horder, elem_of_elements. Qed.

Definition set_missing (l : list (gset BlockReference)) (m : BlockManager) : BlockManager :=
  {| blocks_pending := blocks_pending m; block_references_waiting := block_references_waiting m;
     missing := l |}.

(** A received block is not missing. *)
Lemma received_ok C V us us' m b :
  manager_ok C V us m → known C (author b) → blocks_pending m !! reference b = None →
  (∀ r, r ∈ map reference us' ↔ r ∈ map reference us ∨ r = reference b) →
  ∃ l, missing_update (.∖ {[reference b]}) (ref_authority (reference b)) (missing m) = Ok l ∧
    manager_ok C V us' (set_missing l m).
Proof.
  intros [Hp Hws Hwn Hwc Hb Hl Hm] Hk Hnp Hus.
  destruct (missing_remove C (reference b) (missing m) Hk Hl) as (l & -> & Hlen & Hin).
  exists l. split; [done|]. split; simpl; [|done|done|done|done|congruence|].
  - intros r x Hx. destruct (Hp r x Hx) as (H1 & H2 & H3 & H4). split_and!; [done|done|done|].
    rewrite Hus. intros [?| ->]; [done|congruence].
  - intros a r. rewrite Hin, Hm, Hus. naive_solver.
Qed.

Lemma unblocked_spec waiting b : unblocked waiting b = true ↔ ∀ i, i ∈ includes b → waiting !! i = None.
Proof.
  unfold unblocked. rewrite forallb_forall. setoid_rewrite <- list_elem_of_In.
  by setoid_rewrite bool_decide_eq_true.
Qed.

(** What storing [b] does to the suspended blocks: those that waited for nothing
    else are released. *)
Local Notation waiting_after m b := (delete (reference b) (block_references_waiting m)).

Record released (m : BlockManager) (b : Block) (rel : list Block) (pending : gmap BlockReference Block) : Prop := {
  rel_size : size (blocks_pending m) = length rel + size pending;
  rel_nodup : NoDup (map reference rel);
  rel_blocks : ∀ x, x ∈ rel ↔ ∃ r, reference b ∈ includes x ∧ blocks_pending m !! r = Some x ∧
    unblocked (waiting_after m b) x = true;
  rel_pending : ∀ r x, pending !! r = Some x ↔ blocks_pending m !! r = Some x ∧
    ¬ (reference b ∈ includes x ∧ unblocked (waiting_after m b) x = true)
}.

Lemma release_waiting_ok C V us m b queue :
  manager_ok C V us m → V !! reference b = None →
  ∃ rel pending,
    match block_references_waiting m !! reference b with
    | None => Ok (blocks_pending m, queue)
    | Some refs => release (waiting_after m b) (order refs) (blocks_pending m) queue
    end = Ok (pending, rel ++ queue) ∧ released m b rel pending.
Proof.
  intros [Hp Hws Hwn Hwc Hb Hl Hm] HbV.
  destruct (block_references_waiting m !! reference b) as [refs|] eqn:E.
  - destruct (Hws _ _ E) as [_ Hrefs].
    destruct (release_ok (waiting_after m b) (order refs) (blocks_pending m) queue)
      as (rel & pending & Heq & Hs & Hn & Hr & Hpd); [apply order_nodup| | |].
    { intros r Hr%elem_of_order. destruct (Hrefs r Hr) as (x & Hx & _). eauto. }
    { intros r x Hx. by apply Hp. }
    assert (∀ r x, blocks_pending m !! r = Some x → r ∈ order refs ↔ reference b ∈ includes x) as Hiff.
    { intros r x Hx. rewrite elem_of_order. split.
      - intros Hr'. destruct (Hrefs r Hr') as (y & Hy & Hi). congruence.
      - intros Hi. destruct (Hwc r x (reference b) Hx Hi HbV) as (s & Hs' & Hin). congruence. }
    exists rel, pending. split; [done|]. split; [done|done| |].
    + intros x. rewrite Hr. split; intros (r & H1 & H2 & H3); exists r; naive_solver.
    + intros r x. rewrite Hpd. split; intros [Hx Hn']; (split; [done|]); rewrite (Hiff r x Hx) in *; done.
  - exists [], (blocks_pending m).
    assert (∀ r x, blocks_pending m !! r = Some x → reference b ∉ includes x) as Hno.
    { intros r x Hx Hi. destruct (Hwc r x (reference b) Hx Hi HbV) as (s & Hs & _). congruence. }
    split; [done|]. split; [done|constructor| |].
    + intros x. split; [set_solver|]. intros (r & Hi & Hx & _). by destruct (Hno r x Hx).
    + intros r x. naive_solver.
Qed.

Section Released.
Context (C : Committee) (V : gmap BlockReference Block) (us : list Block) (m : BlockManager) (b : Block)
  (rel : list Block) (pending : gmap BlockReference Block)
  (Hok : manager_ok C V (b :: us) m) (Hrel : released m b rel pending).

Lemma waiting_absent i : is_Some (waiting_after m b !! i) → i ≠ reference b ∧ <[reference b := b]> V !! i = None.
Proof.
  intros [s [Hne Hs]%lookup_delete_Some]. split; [done|].
  rewrite lookup_insert_ne by done. by apply (man_wait_sound _ _ _ _ Hok i s).
Qed.

Lemma still_waiting r x i :
  blocks_pending m !! r = Some x → i ∈ includes x → <[reference b := b]> V !! i = None →
  ∃ s, waiting_after m b !! i = Some s ∧ r ∈ s.
Proof.
  intros Hx Hi [Hv Hne]%lookup_insert_None.
  destruct (man_wait_complete _ _ _ _ Hok r x i Hx Hi Hv) as (s & Hs & Hin). exists s.
  by rewrite lookup_delete_ne.
Qed.

Lemma pending_other r x : blocks_pending m !! r = Some x → r ≠ reference b ∧ <[reference b := b]> V !! r = None.
Proof.
  intros Hx. destruct (man_pending _ _ _ _ Hok _ _ Hx) as (_ & Hv & _ & Hn).
  assert (r ≠ reference b) as Hne by (intros ->; apply Hn; simpl; set_solver).
  split; [done|]. by rewrite lookup_insert_ne.
Qed.

Lemma released_ready x : x ∈ rel → ready C (<[reference b := b]> V) x ∧ blocks_pending m !! reference x = Some x.
Proof.
  intros (r & Hi & Hx & Hu)%(rel_blocks _ _ _ _ Hrel). destruct (man_pending _ _ _ _ Hok r x Hx) as (Hr & Hv & Ha & Hn).
  rewrite unblocked_spec in Hu. rewrite Hr. split; [|done]. split_and!; [|intros i Hii|done].
  - rewrite Hr. by eapply pending_other.
  - destruct (<[_ := _]> V !! i) eqn:Ev; [by eexists|]. destruct (still_waiting r x i Hx Hii Ev) as (s & Hs & _).
    rewrite Hu in Hs; done.
Qed.

Lemma released_refs r :
  r ∈ map reference (rel ++ us) ↔ (∃ x, x ∈ rel ∧ r = reference x) ∨ r ∈ map reference us.
Proof. rewrite map_app, elem_of_app, (list_elem_of_fmap reference). naive_solver. Qed.

Lemma kept_or_released r x : blocks_pending m !! r = Some x → x ∈ rel ∨ pending !! r = Some x.
Proof.
  intros Hx. destruct (decide (reference b ∈ includes x ∧ unblocked (waiting_after m b) x = true)) as [[]|Hd].
  - left. apply (rel_blocks _ _ _ _ Hrel). eauto.
  - right. by apply (rel_pending _ _ _ _ Hrel).
Qed.

(** What stays suspended still lacks an include. *)
Lemma released_blocked q x :
  pending !! q = Some x → ∃ i, i ∈ includes x ∧ <[reference b := b]> V !! i = None.
Proof.
  intros [Hx Hn]%(rel_pending _ _ _ _ Hrel). destruct (man_blocked _ _ _ _ Hok q x Hx) as (i & Hi & Hv).
  destruct (decide (i = reference b)) as [->|Hne].
  - destruct (unblocked (waiting_after m b) x) eqn:Hu; [naive_solver|]. apply not_true_iff_false in Hu.
    destruct (decide (Forall (λ i, waiting_after m b !! i = None) (includes x))) as [HF|HF].
    { exfalso. apply Hu, unblocked_spec. by apply Forall_forall. }
    apply not_Forall_Exists, Exists_exists in HF as (j & Hj & Hwj); [|intros ?; apply _].
    exists j. split; [done|]. apply waiting_absent. by apply not_eq_None_Some.
  - exists i. split; [done|]. by rewrite lookup_insert_ne.
Qed.

Lemma released_missing a r :
  in_missing (missing m) a r ↔
  a = N.to_nat (ref_authority r) ∧ is_Some (waiting_after m b !! r) ∧ pending !! r = None ∧
  r ∉ map reference (rel ++ us).
Proof.
  rewrite (man_missing _ _ _ _ Hok). simpl. rewrite not_elem_of_cons, released_refs. split.
  - intros (-> & [s Hs] & Hn & Hne & Hnu). split_and!; [done| | |].
    + exists s. by rewrite lookup_delete_ne.
    + destruct (pending !! r) as [x|] eqn:E; [|done]. apply (rel_pending _ _ _ _ Hrel) in E as [E _]. congruence.
    + intros [(x & Hx & ->)|Hin]; [|done]. destruct (released_ready x Hx) as [_ Hx']. congruence.
  - intros (-> & Hs & Hn & Hnu). rewrite lookup_delete_is_Some in Hs. destruct Hs as [Hne Hs].
    split_and!; [done|done| |done|tauto].
    destruct (blocks_pending m !! r) as [x|] eqn:E; [exfalso|done].
    destruct (kept_or_released r x E) as [Hx|Hx]; [|congruence].
    apply Hnu. left. exists x. split; [done|]. by destruct (man_pending _ _ _ _ Hok r x E) as (-> & _).
Qed.

Lemma released_manager :
  manager_ok C (<[reference b := b]> V) (rel ++ us)
    {| blocks_pending := pending; block_references_waiting := waiting_after m b; missing := missing m |}.
Proof.
  split; simpl.
  - intros r x [Hx Hn]%(rel_pending _ _ _ _ Hrel).
    destruct (man_pending _ _ _ _ Hok r x Hx) as (Hr & Hv & Ha & Hnu). split_and!; [done|by eapply pending_other|done|].
    rewrite released_refs. intros [(y & Hy & Hry)|Hin]; [|by apply Hnu; set_solver].
    destruct (released_ready y Hy) as [_ Hy']. rewrite <- Hry, Hx in Hy'. injection Hy' as <-.
    apply Hn. apply (rel_blocks _ _ _ _ Hrel) in Hy as (r' & H1 & _ & H2). done.
  - intros i s Hs. split; [by apply waiting_absent; eauto|]. intros q Hq.
    apply lookup_delete_Some in Hs as [Hne Hs]. destruct (man_wait_sound _ _ _ _ Hok i s Hs) as [_ Hsnd].
    destruct (Hsnd q Hq) as (x & Hx & Hi). exists x. split; [|done]. apply (rel_pending _ _ _ _ Hrel). split; [done|].
    rewrite unblocked_spec. intros [_ Hu]. specialize (Hu i Hi).
    rewrite lookup_delete_ne in Hu by done. congruence.
  - intros i s [_ Hs]%lookup_delete_Some. by eapply (man_wait_some _ _ _ _ Hok).
  - intros q x i [Hx _]%(rel_pending _ _ _ _ Hrel) Hi Hv. by eapply still_waiting.
  - apply released_blocked.
  - apply (man_missing_len _ _ _ _ Hok).
  - apply released_missing.
Qed.

Lemma released_others :
  Forall (ready C V) us → NoDup (map reference (b :: us)) →
  Forall (ready C (<[reference b := b]> V)) (rel ++ us) ∧ NoDup (map reference (rel ++ us)).
Proof.
  intros Hus [Hbus Hnd]%NoDup_cons. split.
  - apply Forall_app. split; [apply Forall_forall; intros x Hx; by apply released_ready|].
    rewrite Forall_forall in Hus |- *. intros x Hx. destruct (Hus x Hx) as (H1 & H2 & H3).
    split_and!; [|intros i Hi|done].
    + rewrite lookup_insert_ne; [done|]. intros Heq'. apply Hbus. rewrite Heq'.
      apply (list_elem_of_fmap reference). by exists x.
    + apply lookup_insert_is_Some'. right. by apply H2.
  - rewrite map_app. apply NoDup_app. split_and!; [apply (rel_nodup _ _ _ _ Hrel)| |done].
    intros r (x & -> & Hx)%(list_elem_of_fmap reference) Hin.
    destruct (released_ready x Hx) as [_ Hx']. destruct (man_pending _ _ _ _ Hok _ _ Hx') as (_ & _ & _ & Hn).
    apply Hn. simpl. set_solver.
Qed.
End Released.

(** A ready block is stored and releases the blocks that waited for nothing else. *)
Lemma process_ok C V us m b queue :
  manager_ok C V (b :: us) m → ready C V b → Forall (ready C V) us → NoDup (map reference (b :: us)) →
  let V' := <[reference b := b]> V in
  let waiting := delete (reference b) (block_references_waiting m) in
  ∃ rel pending,
    match block_references_waiting m !! reference b with
    | None => Ok (blocks_pending m, queue)
    | Some refs => release waiting (order refs) (blocks_pending m) queue
    end = Ok (pending, rel ++ queue) ∧
    manager_ok C V' (rel ++ us)
      {| blocks_pending := pending; block_references_waiting := waiting; missing := missing m |} ∧
    Forall (ready C V') (rel ++ us) ∧ NoDup (map reference (rel ++ us)) ∧
    size (blocks_pending m) = length rel + size pending ∧
    (∀ x, (∃ r, blocks_pending m !! r = Some x) ↔ x ∈ rel ∨ ∃ r, pending !! r = Some x).
Proof.
  intros Hok (HbV & _) Hus Hnd V' waiting.
  destruct (release_waiting_ok C V (b :: us) m b queue Hok HbV) as (rel & pending & Heq & HR).
  exists rel, pending. split; [done|]. destruct (released_others C V us m b rel pending Hok HR Hus Hnd).
  split_and!; [by apply released_manager|done|done|apply (rel_size _ _ _ _ HR)|].
  intros x. split.
  - intros [r Hx]. destruct (kept_or_released m b rel pending HR r x Hx); eauto.
  - intros [(r & _ & Hx & _)%(rel_blocks _ _ _ _ HR)|[r [Hx _]%(rel_pending _ _ _ _ HR)]]; eauto.
Qed.

(** A block with a missing include is kept until that include is stored. *)
Lemma suspend_ok C st m b :
  storage_ok C st → manager_ok C (wal_view (wal st)) [] m → admissible C b →
  wal_view (wal st) !! reference b = None → blocks_pending m !! reference b = None →
  forallb (λ i, store_block_exists (store st) i) (includes b) = false →
  ∃ m1 l, check_references st (reference b) (includes b) m true = Ok (m1, false) ∧
    missing_update (.∖ {[reference b]}) (ref_authority (reference b)) (missing m1) = Ok l ∧
    blocks_pending m1 = blocks_pending m ∧
    manager_ok C (wal_view (wal st)) []
      {| blocks_pending := <[reference b := b]> (blocks_pending m1);
         block_references_waiting := block_references_waiting m1; missing := l |}.
Proof.
  intros Hst [Hp Hws Hwn Hwc Hb Hl Hm] [Hk Hki] Hv Hnp Hf.
  destruct (check_references_ok C st (reference b) (includes b) m true Hst Hki Hl)
    as (m1 & -> & Hp1 & Hl1 & Hw1 & Hm1). rewrite Hf. simpl.
  destruct (missing_remove C (reference b) (missing m1) Hk) as (l & Hrm & Hlen & Hin); [congruence|].
  exists m1, l. split_and!; [done|done|done|]. split; simpl; rewrite ?Hp1.
  - intros r x [[<- <-]|[Hne Hx]]%lookup_insert_Some; [|by apply Hp].
    split_and!; [done|done|by split|]. apply not_elem_of_nil.
  - intros i s. rewrite Hw1. case_decide as Hd.
    + intros [= <-]. split; [by apply Hd|]. intros q [->%elem_of_singleton|Hq]%elem_of_union.
      { exists b. rewrite lookup_insert_eq. split; [done|]. by apply Hd. }
      destruct (block_references_waiting m !! i) as [s|] eqn:E; simpl in Hq; [|set_solver].
      destruct (Hws i s E) as [_ Hs]. destruct (Hs q Hq) as (x & Hx & Hi). exists x.
      rewrite lookup_insert_ne; [done|]. congruence.
    + intros Hs. destruct (Hws i s Hs) as [Hi Hs']. split; [done|]. intros q Hq.
      destruct (Hs' q Hq) as (x & Hx & Hix). exists x. rewrite lookup_insert_ne; [done|]. congruence.
  - intros i s. rewrite Hw1. case_decide; [|apply Hwn]. intros [= <-]. set_solver.
  - intros q x i [[<- <-]|[Hne Hx]]%lookup_insert_Some Hi Hvi; rewrite Hw1.
    + rewrite decide_True by done. eexists. split; [done|]. set_solver.
    + destruct (Hwc q x i Hx Hi Hvi) as (s & Hs & Hq). case_decide; [|by exists s].
      rewrite Hs. eexists. split; [done|]. set_solver.
  - intros q x [[<- <-]|[Hne Hx]]%lookup_insert_Some; [|by eapply Hb].
    apply not_true_iff_false in Hf. rewrite forallb_forall in Hf.
    destruct (decide (Forall (λ i, store_block_exists (store st) i = true) (includes b))) as [HF|HF].
    { exfalso. apply Hf. intros i Hi%list_elem_of_In. rewrite Forall_forall in HF. by apply HF. }
    apply not_Forall_Exists, Exists_exists in HF as (i & Hi & Hn); [|intros ?; apply _].
    exists i. split; [done|]. apply (block_exists_false C); [done|]. by apply not_true_iff_false.
  - congruence.
  - intros a r. rewrite Hin, Hm1, Hm, Hw1.
    rewrite lookup_insert_None. pose proof (not_elem_of_nil (A := BlockReference)) as Hnil. simpl. case_decide as Hd; [|naive_solver]. split; [naive_solver|].
    intros (-> & _ & [Hr Hne] & _). split; [|naive_solver]. right. naive_solver.
Qed.

(** The blocks stored one after the other, each with all its includes stored. *)
Inductive stored : gmap BlockReference Block → list Block → gmap BlockReference Block → Prop :=
| stored_nil V : stored V [] V
| stored_cons V V' b bs :
    V !! reference b = None → (∀ i, i ∈ includes b → is_Some (V !! i)) →
    stored (<[reference b := b]> V) bs V' → stored V (b :: bs) V'.

(** [b] is stored or pending. *)
Definition knows (V : gmap BlockReference Block) (m : BlockManager) (b : Block) : Prop :=
  V !! reference b = Some b ∨ ∃ r, blocks_pending m !! r = Some b.

Lemma ready_forallb C st b :
  storage_ok C st → ready C (wal_view (wal st)) b →
  forallb (λ i, store_block_exists (store st) i) (includes b) = true.
Proof.
  intros Hst (_ & Hi & _). apply forallb_forall. intros i Hin%list_elem_of_In.
  apply (block_exists_iff C); auto.
Qed.

(** The result of the loop: what was stored, and what is known. *)
Record loop_result (C : Committee) (st : Storage) (m : BlockManager) (us rest : list Block)
    (st' : Storage) (m' : BlockManager) (new : list (WalPosition * Block)) : Prop := {
  loop_storage : storage_ok C st';
  loop_manager : manager_ok C (wal_view (wal st')) [] m';
  loop_wal : wal st' = wal st ++ map (λ pb, WalBlock pb.2) new;
  loop_positions : ∀ k pb, new !! k = Some pb → pb.1 = N.of_nat (length (wal st) + k);
  loop_stored : stored (wal_view (wal st)) (map snd new) (wal_view (wal st'));
  loop_knows_old : ∀ b, knows (wal_view (wal st)) m b → knows (wal_view (wal st')) m' b;
  loop_knows_new : ∀ b, knows (wal_view (wal st')) m' b →
    knows (wal_view (wal st)) m b ∨ b ∈ us ++ rest;
  loop_releases : ∀ b, b ∈ us → wal_view (wal st') !! reference b = Some b;
  loop_receives : ∀ b, b ∈ rest → is_Some (wal_view (wal st') !! reference b) ∨
    is_Some (blocks_pending m' !! reference b)
}.

Lemma check_references_exists st b incs m processed :
  forallb (λ i, store_block_exists (store st) i) incs = true →
  check_references st b incs m processed = Ok (m, processed).
Proof.
  induction incs as [|i incs IH]; simpl; [done|]. intros [Hi Hs]%andb_true_iff. rewrite Hi. auto.
Qed.

Lemma stored_subseteq V bs V' : stored V bs V' → V ⊆ V'.
Proof.
  induction 1 as [|V V' b bs Hb _ _ IH]; [done|]. etrans; [|exact IH]. by apply insert_subseteq.
Qed.

(** One stored block before the rest of the loop. *)
Lemma loop_result_store C st m b rel pending us rest st1 m1 pos st' m' new :
  pos = N.of_nat (length (wal st)) →
  wal st1 = wal st ++ [WalBlock b] → wal_view (wal st1) = <[reference b := b]> (wal_view (wal st)) →
  ready C (wal_view (wal st)) b → blocks_pending m1 = pending →
  (∀ x, (∃ r, blocks_pending m !! r = Some x) ↔ x ∈ rel ∨ ∃ r, pending !! r = Some x) →
  loop_result C st1 m1 (rel ++ us) rest st' m' new →
  loop_result C st m (b :: us) rest st' m' ((pos, b) :: new).
Proof.
  intros -> Hw Hview Hready Hp Hrel [Hs Hm Hwal Hpos Hst Hold Hnew Hus Hrec].
  assert (∀ x, knows (wal_view (wal st1)) m1 x ∨ x ∈ rel ↔ knows (wal_view (wal st)) m x ∨ x = b) as Hk.
  { intros x. unfold knows. rewrite Hview, Hp, Hrel.
    destruct (decide (reference x = reference b)) as [Heq|Hxb].
    - rewrite Heq, lookup_insert_eq. destruct Hready as (Hnone & _).
      rewrite Hnone. naive_solver.
    - rewrite lookup_insert_ne by done. naive_solver. }
  split; [done|done| | | | | | |done].
  - rewrite Hwal, Hw, <- app_assoc. done.
  - intros [|k] pb; simpl; [by intros [= <-]; simpl; f_equal; lia|].
    intros ->%Hpos. rewrite Hw, length_app. simpl. f_equal. lia.
  - simpl. constructor; [apply Hready|apply Hready|]. by rewrite <- Hview.
  - intros x Hx. destruct (proj2 (Hk x) (or_introl Hx)) as [H1|H1]; [by apply Hold|].
    left. apply Hus. set_solver.
  - intros x [Hx|Hx]%Hnew.
    + destruct (proj1 (Hk x) (or_introl Hx)) as [?| ->]; [by left|right; set_solver].
    + apply elem_of_app in Hx as [[Hx|Hx]%elem_of_app|Hx]; [|right; set_solver..].
      destruct (proj1 (Hk x) (or_intror Hx)) as [?| ->]; [by left|right; set_solver].
  - intros x [->|Hx]%elem_of_cons; [|apply Hus; set_solver].
    eapply lookup_weaken; [|by eapply stored_subseteq]. by rewrite Hview, lookup_insert_eq.
Qed.

(** The step that stores a block, whether it was released or has just come in. *)
Lemma store_step C st m us0 us rest b fuel newly :
  storage_ok C st → manager_ok C (wal_view (wal st)) us0 m →
  (∀ r, r ∈ map reference (b :: us) ↔ r ∈ map reference us0 ∨ r = reference b) →
  ready C (wal_view (wal st)) b → blocks_pending m !! reference b = None →
  Forall (ready C (wal_view (wal st))) us → NoDup (map reference (b :: us)) →
  ∃ rel st1 m1 pos,
    add_blocks_loop order (S fuel) (b :: us ++ rest) m st newly
    = add_blocks_loop order fuel ((rel ++ us) ++ rest) m1 st1 (newly ++ [(pos, b)]) ∧
    storage_ok C st1 ∧ manager_ok C (wal_view (wal st1)) (rel ++ us) m1 ∧
    Forall (ready C (wal_view (wal st1))) (rel ++ us) ∧ NoDup (map reference (rel ++ us)) ∧
    size (blocks_pending m) = length rel + size (blocks_pending m1) ∧
    ∀ st' m' new, loop_result C st1 m1 (rel ++ us) rest st' m' new →
      loop_result C st m (b :: us) rest st' m' ((pos, b) :: new).
Proof.
  intros Hst Hm Href Hready Hnp Hus Hnd. pose proof Hready as (Hv & Hi & Ha).
  destruct (received_ok C _ us0 (b :: us) m b Hm (proj1 Ha) Hnp Href) as (l & Hl & Hm').
  destruct (process_ok C _ us (set_missing l m) b (us ++ rest) Hm') as (rel & pending & Heq & Hm1 & Hr1 & Hn1 & Hsz & Hrel);
    [done..|].
  destruct (insert_block_ok C st b Hst (proj1 Ha)) as (st1 & Hins & Hst1 & Hwal & Hview).
  rewrite <- Hview in Hm1, Hr1. simpl in Heq, Hsz, Hrel.
  eexists rel, st1, _, _. split; [|split_and!; [done|exact Hm1|done|done|done|]].
  - simpl. rewrite (proj2 (block_exists_false C st (reference b) Hst)) by done. simpl.
    rewrite bool_decide_false by (rewrite Hnp; by intros [? ?]).
    rewrite check_references_exists by (by eapply ready_forallb). simpl. rewrite Hl. simpl.
    rewrite Hins. simpl. rewrite Heq. simpl. by rewrite <- app_assoc.
  - intros st' m' new. by eapply loop_result_store.
Qed.

Lemma loop_result_nil C st m :
  storage_ok C st → manager_ok C (wal_view (wal st)) [] m → loop_result C st m [] [] st m [].
Proof.
  intros Hs Hm. split; [done|done|by rewrite app_nil_r|done|constructor|auto|auto|set_solver|set_solver].
Qed.

(** A block that is known already is skipped. *)
Lemma loop_result_skip C st m b rest st' m' new :
  manager_ok C (wal_view (wal st)) [] m →
  is_Some (wal_view (wal st) !! reference b) ∨ is_Some (blocks_pending m !! reference b) →
  loop_result C st m [] rest st' m' new → loop_result C st m [] (b :: rest) st' m' new.
Proof.
  intros Hm Hkn [Hs Hm2 Hwal Hpos Hsto Hold Hnew Hus Hrec].
  split; [done|done|done|done|done|done| |done|].
  - intros x [?|Hx]%Hnew; [by left|right; set_solver].
  - intros x [->|Hx]%elem_of_cons; [|by apply Hrec]. destruct Hkn as [[y Hy]|[y Hy]].
    + left. exists y. eapply lookup_weaken; [done|by eapply stored_subseteq].
    + destruct (man_pending _ _ _ _ Hm _ _ Hy) as (Hr' & _).
      destruct (Hold y (or_intror (ex_intro _ _ Hy))) as [Hin|[r Hin]]; rewrite <- Hr'; [by left; exists y|].
      right. exists y. by rewrite (proj1 (man_pending _ _ _ _ Hm2 _ _ Hin)).
Qed.

(** A block that is put aside. *)
Lemma loop_result_suspend C st m m1 b rest st' m' new :
  blocks_pending m !! reference b = None → blocks_pending m1 = <[reference b := b]> (blocks_pending m) →
  loop_result C st m1 [] rest st' m' new → loop_result C st m [] (b :: rest) st' m' new.
Proof.
  intros Hnp Hp [Hs Hm2 Hwal Hpos Hsto Hold Hnew Hus Hrec].
  assert (∀ x, knows (wal_view (wal st)) m1 x ↔ knows (wal_view (wal st)) m x ∨ x = b) as Hk.
  { intros x. unfold knows. rewrite Hp. split.
    - intros [?|[r [[_ <-]|[_ ?]]%lookup_insert_Some]]; eauto.
    - intros [[?|[r Hr]]| ->]; [by left|right; exists r|right; exists (reference b); apply lookup_insert_eq].
      rewrite lookup_insert_ne; [done|]. congruence. }
  split; [done|done|done|done|done| | |done|].
  - intros x Hx. apply Hold, Hk. by left.
  - intros x [[?| ->]%Hk|Hx]%Hnew; [by left|right; set_solver|right; set_solver].
  - intros x [->|Hx]%elem_of_cons; [|by apply Hrec].
    destruct (Hold b (proj2 (Hk b) (or_intror eq_refl))) as [Hin|[r Hin]]; [by left; eexists|].
    right. exists b. by rewrite (proj1 (man_pending _ _ _ _ Hm2 _ _ Hin)).
Qed.

Lemma add_blocks_loop_ok C fuel us rest m st newly :
  storage_ok C st → manager_ok C (wal_view (wal st)) us m → NoDup (map reference us) →
  Forall (ready C (wal_view (wal st))) us → Forall (admissible C) rest →
  length us + 2 * length rest + size (blocks_pending m) ≤ fuel →
  ∃ m' st' new, add_blocks_loop order fuel (us ++ rest) m st newly = Ok (m', st', newly ++ new) ∧
    loop_result C st m us rest st' m' new.
Proof.
  revert us rest m st newly. induction fuel as [|fuel IH]; intros us rest m st newly Hst Hm Hnd Hr Ha Hf.
  all: destruct us as [|b us]; [destruct rest as [|b rest]|]; simpl in Hf; try lia.
  1-2: exists m, st, []; rewrite (app_nil_r newly); split; [done|by apply loop_result_nil].
  - apply Forall_cons in Ha as [Hb Ha]. cbn [app].
    destruct (decide (is_Some (wal_view (wal st) !! reference b) ∨ is_Some (blocks_pending m !! reference b)))
      as [Hkn|Hkn].
    + destruct (IH [] rest m st newly) as (m' & st' & new & Heq & HR); [done..|simpl; lia|].
      exists m', st', new. split; [|by apply loop_result_skip].
      simpl. rewrite <- Heq. destruct (store_block_exists (store st) (reference b)) eqn:E; [done|].
      apply (block_exists_false C) in E; [|done]. rewrite bool_decide_true; [done|].
      destruct Hkn as [[? Hx]|]; [congruence|done].
    + apply Decidable.not_or in Hkn as [Hnv Hnp]. rewrite <- eq_None_not_Some in Hnv, Hnp.
      destruct (forallb (λ i, store_block_exists (store st) i) (includes b)) eqn:Hall.
      * destruct (store_step C st m [] [] rest b fuel newly) as
          (rel & st1 & m1 & pos & Heq & Hst1 & Hm1 & Hr1 & Hn1 & Hsz & HR);
          [done|done|set_solver| |done|done|apply NoDup_singleton|].
        { split_and!; [done| |done]. intros i Hi%list_elem_of_In.
          apply (block_exists_iff C); [done|]. rewrite forallb_forall in Hall. by apply Hall. }
        rewrite app_nil_r in *. cbn [app] in Heq. rewrite Heq.
        destruct (IH rel rest m1 st1 (newly ++ [(pos, b)])) as (m' & st' & new & -> & HR'); [done..|lia|].
        exists m', st', ((pos, b) :: new). rewrite <- app_assoc. split; [done|].
        destruct (HR _ _ _ HR') as [Hs Hm2 Hwal Hpos Hsto Hold Hnew Hus Hrec].
        split; [done|done|done|done|done|done|done|set_solver|].
        intros x [->|Hx]%elem_of_cons; [left; exists b; apply Hus; set_solver|by apply Hrec].
      * destruct (suspend_ok C st m b) as (m1 & l & Hc & Hl & Hp1 & Hm1); [done..|].
        destruct (IH [] rest _ st newly Hst Hm1) as (m' & st' & new & Heq & HR).
        { constructor. } { done. } { done. }
        { simpl. rewrite map_size_insert_None by (by rewrite Hp1). rewrite Hp1. lia. }
        exists m', st', new. split; [|eapply loop_result_suspend; [done| |exact HR]; simpl; by rewrite Hp1].
        simpl. rewrite (proj2 (block_exists_false C st (reference b) Hst)) by done. simpl.
        rewrite bool_decide_false by (rewrite Hnp; by intros [? ?]).
        rewrite Hc. simpl. rewrite Hl. done.
  - apply Forall_cons in Hr as [Hb Hr].
    destruct (store_step C st m (b :: us) us rest b fuel newly) as
      (rel & st1 & m1 & pos & Heq & Hst1 & Hm1 & Hr1 & Hn1 & Hsz & HR);
      [done|done|set_solver|done| |done|done|].
    { destruct (blocks_pending m !! reference b) as [x|] eqn:E; [|done].
      destruct (man_pending _ _ _ _ Hm _ _ E) as (_ & _ & _ & Hn). exfalso. apply Hn. simpl. set_solver. }
    cbn [app] in *. rewrite Heq.
    destruct (IH (rel ++ us) rest m1 st1 (newly ++ [(pos, b)])) as (m' & st' & new & -> & HR');
      [done..|rewrite length_app; lia|].
    exists m', st', ((pos, b) :: new). rewrite <- app_assoc. split; [done|]. by apply HR.
Qed.

(** [add_blocks] never panics and gives the result of the loop. *)
Lemma manager_add_blocks_ok C blocks m st :
  storage_ok C st → manager_ok C (wal_view (wal st)) [] m → Forall (admissible C) blocks →
  ∃ m' st' new, manager_add_blocks order blocks m st = Ok (m', st', new) ∧
    loop_result C st m [] blocks st' m' new.
Proof.
  intros Hst Hm Ha. unfold manager_add_blocks.
  apply (add_blocks_loop_ok C _ [] blocks m st []); [done|done|constructor|done|done|].
  unfold manager_fuel. simpl. lia.
Qed.

(** ** What the manager stores in the long run *)

(** The references that the received blocks [K] connect to the view [V0]. *)
Inductive connected (V0 : gmap BlockReference Block) (K : list Block) : BlockReference → Prop :=
| connected_base r : is_Some (V0 !! r) → connected V0 K r
| connected_step b : b ∈ K → (∀ i, i ∈ includes b → connected V0 K i) → connected V0 K (reference b).

Lemma connected_mono V0 K K' r : (∀ b, b ∈ K → b ∈ K') → connected V0 K r → connected V0 K' r.
Proof. intros HK. induction 1; [by apply connected_base|]. apply connected_step; auto. Qed.

(** Each batch in turn. *)
Fixpoint add_batches (batches : list (list Block)) (m : BlockManager) (st : Storage) :
    result (BlockManager * Storage) :=
  match batches with
  | [] => Ok (m, st)
  | blocks :: batches =>
      let? ' (m, st, _) := manager_add_blocks order blocks m st in add_batches batches m st
  end.

(** The state after receiving [K], from the view [V0]. *)
Record received_all (C : Committee) (V0 : gmap BlockReference Block) (K : list Block)
    (m : BlockManager) (st : Storage) : Prop := {
  all_storage : storage_ok C st;
  all_manager : manager_ok C (wal_view (wal st)) [] m;
  all_base : V0 ⊆ wal_view (wal st);
  all_known : ∀ b, knows (wal_view (wal st)) m b → V0 !! reference b = Some b ∨ b ∈ K;
  all_received : ∀ b, b ∈ K → is_Some (wal_view (wal st) !! reference b) ∨
    is_Some (blocks_pending m !! reference b);
  all_connected : ∀ r, is_Some (wal_view (wal st) !! r) → connected V0 K r
}.

Lemma stored_in V bs V' b : stored V bs V' → b ∈ bs → V' !! reference b = Some b.
Proof.
  induction 1 as [|V V' x bs _ _ Hs IH]; [by intros ?%not_elem_of_nil|].
  intros [->|Hb]%elem_of_cons; [|auto].
  eapply lookup_weaken; [apply lookup_insert_eq|by eapply stored_subseteq].
Qed.

Lemma stored_connected V bs V' V0 K :
  stored V bs V' → (∀ b, b ∈ bs → b ∈ K ∨ is_Some (V0 !! reference b)) →
  (∀ r, is_Some (V !! r) → connected V0 K r) → ∀ r, is_Some (V' !! r) → connected V0 K r.
Proof.
  induction 1 as [|V V' b bs Hb Hi Hs IH]; intros HK HV; [done|]. apply IH; [set_solver|].
  intros r [<-|Hr]%lookup_insert_is_Some'; [|auto].
  destruct (HK b) as [Hin|Hin]; [set_solver| |by apply connected_base].
  apply connected_step; auto.
Qed.

Lemma received_step C V0 K m st blocks :
  received_all C V0 K m st → Forall (admissible C) blocks →
  ∃ m' st' new, manager_add_blocks order blocks m st = Ok (m', st', new) ∧
    received_all C V0 (K ++ blocks) m' st'.
Proof.
  intros [Hs Hm Hb Hk Hr Hc] Ha.
  destruct (manager_add_blocks_ok C blocks m st Hs Hm Ha) as (m' & st' & new & Heq & HR).
  exists m', st', new. split; [done|].
  destruct HR as [Hs' Hm' Hwal Hpos Hst Hold Hnew Hrel Hrec].
  assert (∀ b, knows (wal_view (wal st')) m' b → V0 !! reference b = Some b ∨ b ∈ K ++ blocks) as Hkn.
  { intros b [[?|?]%Hk|?]%Hnew; [by left|right; set_solver|right; set_solver]. }
  split; [done|done|etrans; [exact Hb|by eapply stored_subseteq]|done| |].
  - intros b [Hin|Hin]%elem_of_app; [|by apply Hrec]. destruct (Hr b Hin) as [[x Hx]|[x Hx]].
    + left. exists x. eapply lookup_weaken; [done|by eapply stored_subseteq].
    + destruct (man_pending _ _ _ _ Hm _ _ Hx) as (Hrx & _). rewrite <- Hrx.
      destruct (Hold x (or_intror (ex_intro _ _ Hx))) as [?|[r Hin']]; [by left; eexists|].
      right. exists x. by rewrite (proj1 (man_pending _ _ _ _ Hm' _ _ Hin')).
  - eapply stored_connected; [done| |].
    + intros b Hin. destruct (Hkn b) as [?|?]; [left; by eapply stored_in|right; by eexists|by left].
    + intros r Hin. eapply connected_mono; [|by apply Hc]. set_solver.
Qed.

Lemma add_batches_ok C V0 K m st batches :
  received_all C V0 K m st → Forall (Forall (admissible C)) batches →
  ∃ m' st', add_batches batches m st = Ok (m', st') ∧ received_all C V0 (K ++ concat batches) m' st'.
Proof.
  intros HR Ha. revert K m st HR. induction Ha as [|blocks batches Hb _ IH]; intros K m st HR; simpl.
  { exists m, st. by rewrite app_nil_r. }
  destruct (received_step C V0 K m st blocks HR Hb) as (m1 & st1 & new & -> & HR1). simpl.
  destruct (IH _ _ _ HR1) as (m' & st' & -> & HR'). exists m', st'. by rewrite (assoc_L (++)).
Qed.

(** Everything connected is stored. *)
Lemma received_complete C V0 K m st r :
  received_all C V0 K m st →
  (∀ b b', b ∈ K → b' ∈ K → reference b = reference b' → b = b') →
  connected V0 K r → is_Some (wal_view (wal st) !! r).
Proof.
  intros [Hs Hm Hb Hk Hr Hc] Huniq. induction 1 as [r [x Hx]|b Hin Hi IH].
  { exists x. by eapply lookup_weaken. }
  destruct (Hr b Hin) as [|[x Hx]]; [done|exfalso].
  destruct (man_pending _ _ _ _ Hm _ _ Hx) as (Hrx & Hnone & _).
  destruct (Hk x (or_intror (ex_intro _ _ Hx))) as [Hx0|HxK].
  - rewrite Hrx in Hx0. rewrite (lookup_weaken _ _ _ _ Hx0 Hb) in Hnone. done.
  - assert (x = b) as -> by (by apply Huniq).
    destruct (man_blocked _ _ _ _ Hm _ _ Hx) as (i & Hib & Hv).
    destruct (IH i Hib) as [y Hy]. congruence.
Qed.

(** A block stored past the manager that no received block waits for. *)
Lemma manager_ok_insert C V m b :
  manager_ok C V [] m → blocks_pending m !! reference b = None →
  (∀ r x, blocks_pending m !! r = Some x → reference b ∉ includes x) →
  manager_ok C (<[reference b := b]> V) [] m.
Proof.
  intros [Hp Hws Hwn Hwc Hb Hl Hm] Hnp Hni. split; [| |done| | |done|done].
  - intros r x Hx. destruct (Hp r x Hx) as (H1 & H2 & H3 & H4). split_and!; [done| |done|done].
    rewrite lookup_insert_ne; [done|]. congruence.
  - intros i s Hs. destruct (Hws i s Hs) as [Hi Hq]. split; [|done].
    destruct (set_choose_L s (Hwn i s Hs)) as [q Hqs]. destruct (Hq q Hqs) as (x & Hx & Hix).
    rewrite lookup_insert_ne; [done|]. intros <-. by eapply Hni.
  - intros q x i Hx Hi [Hv _]%lookup_insert_None. eauto.
  - intros q x Hx. destruct (Hb q x Hx) as (i & Hi & Hv). exists i. split; [done|].
    rewrite lookup_insert_ne; [done|]. intros <-. by eapply Hni.
Qed.

Lemma received_start C st : storage_ok C st → received_all C (wal_view (wal st)) [] (manager_new C) st.
Proof.
  intros Hs. split; [done|apply manager_new_ok|done| |set_solver|by intros; apply connected_base].
  intros b [?|[r Hr]]; [by left|]. simpl in Hr. by rewrite lookup_empty in Hr.
Qed.

(** What is stored and what is suspended depend on what was received only. *)
Lemma received_view C V0 K K' m st m' st' r b :
  received_all C V0 K m st → received_all C V0 K' m' st' → (∀ b, b ∈ K ↔ b ∈ K') →
  (∀ b b', b ∈ K → b' ∈ K → reference b = reference b' → b = b') →
  wal_view (wal st) !! r = Some b → wal_view (wal st') !! r = Some b.
Proof.
  intros HR HR' HK Huniq Hb.
  assert (∀ b b', b ∈ K' → b' ∈ K' → reference b = reference b' → b = b') as Huniq' by (intros ????; apply Huniq; by apply HK).
  assert (is_Some (wal_view (wal st') !! r)) as [x Hx].
  { eapply received_complete; [exact HR'|done|]. eapply connected_mono; [intros ?; by apply HK|].
    by apply (all_connected _ _ _ _ _ HR). }
  rewrite Hx. f_equal.
  pose proof (repr_keys _ _ (sto_repr _ _ (all_storage _ _ _ _ _ HR)) _ _ Hb) as Hrb.
  pose proof (repr_keys _ _ (sto_repr _ _ (all_storage _ _ _ _ _ HR')) _ _ Hx) as Hrx.
  destruct (V0 !! r) as [y|] eqn:Hy.
  { rewrite (lookup_weaken _ _ _ _ Hy (all_base _ _ _ _ _ HR)) in Hb.
    rewrite (lookup_weaken _ _ _ _ Hy (all_base _ _ _ _ _ HR')) in Hx. congruence. }
  destruct (all_known _ _ _ _ _ HR b) as [Hb0|HbK]; [left; by rewrite Hrb|congruence|].
  destruct (all_known _ _ _ _ _ HR' x) as [Hx0|HxK]; [left; by rewrite Hrx|congruence|].
  apply Huniq; [by apply HK|done|congruence].
Qed.

Lemma received_pending C V0 K K' m st m' st' r b :
  received_all C V0 K m st → received_all C V0 K' m' st' → (∀ b, b ∈ K ↔ b ∈ K') →
  (∀ b b', b ∈ K → b' ∈ K → reference b = reference b' → b = b') →
  blocks_pending m !! r = Some b → blocks_pending m' !! r = Some b.
Proof.
  intros HR HR' HK Huniq Hb.
  destruct (man_pending _ _ _ _ (all_manager _ _ _ _ _ HR) _ _ Hb) as (Hrb & Hnone & _).
  assert (∀ x, wal_view (wal st') !! r ≠ Some x) as Hno.
  { intros x Hx. enough (wal_view (wal st) !! r = Some x) by congruence.
    eapply received_view; [exact HR'|exact HR| | |done]; [intros; by rewrite HK|].
    intros ????. apply Huniq; by apply HK. }
  assert (b ∈ K) as Hin.
  { destruct (all_known _ _ _ _ _ HR b) as [H0|?]; [right; by exists r| |done].
    rewrite Hrb in H0. by rewrite (lookup_weaken _ _ _ _ H0 (all_base _ _ _ _ _ HR)) in Hnone. }
  destruct (all_received _ _ _ _ _ HR' b) as [[x Hx]|[x Hx]]; [by apply HK| |]; rewrite Hrb in Hx; [by apply Hno in Hx|].
  rewrite Hx. f_equal. destruct (man_pending _ _ _ _ (all_manager _ _ _ _ _ HR') _ _ Hx) as (Hrx & _).
  destruct (all_known _ _ _ _ _ HR' x) as [H0|HxK]; [right; by exists r| |].
  - rewrite Hrx in H0. by destruct (Hno x (lookup_weaken _ _ _ _ H0 (all_base _ _ _ _ _ HR'))).
  - apply Huniq; [by apply HK|done|congruence].
Qed.

(** C25: the order of arrival does not matter. Whatever batches the network
    delivers a set of blocks in, in any order and with any repetitions, the block
    manager does not fail and ends with the same blocks stored and the same
    blocks suspended; stored are exactly the blocks whose whole past has arrived. *)
Theorem arrival_order_irrelevant C st batches batches' :
  storage_ok C st → Forall (Forall (admissible C)) batches → Forall (Forall (admissible C)) batches' →
  (∀ b, b ∈ concat batches ↔ b ∈ concat batches') →
  (∀ b b', b ∈ concat batches → b' ∈ concat batches → reference b = reference b' → b = b') →
  ∃ m1 st1 m2 st2,
    add_batches batches (manager_new C) st = Ok (m1, st1) ∧
    add_batches batches' (manager_new C) st = Ok (m2, st2) ∧
    wal_view (wal st1) = wal_view (wal st2) ∧ blocks_pending m1 = blocks_pending m2 ∧
    ∀ r, is_Some (wal_view (wal st1) !! r) ↔ connected (wal_view (wal st)) (concat batches) r.
Proof.
  intros Hst Ha1 Ha2 HK Huniq. pose proof (received_start C st Hst) as HR.
  destruct (add_batches_ok C _ _ _ _ _ HR Ha1) as (m1 & st1 & E1 & R1).
  destruct (add_batches_ok C _ _ _ _ _ HR Ha2) as (m2 & st2 & E2 & R2). simpl in R1, R2.
  assert (∀ b b', b ∈ concat batches' → b' ∈ concat batches' → reference b = reference b' → b = b') as Huniq'
    by (intros ????; apply Huniq; by apply HK).
  exists m1, st1, m2, st2. split_and!; [done|done| | |].
  - apply map_eq. intros r. apply option_eq. intros b.
    split; eapply received_view; [exact R1|exact R2|done|done|exact R2|exact R1|by intros; rewrite HK|done].
  - apply map_eq. intros r. apply option_eq. intros b.
    split; eapply received_pending; [exact R1|exact R2|done|done|exact R2|exact R1|by intros; rewrite HK|done].
  - intros r. split; [apply (all_connected _ _ _ _ _ R1)|]. by eapply received_complete.
Qed.
End Steps.

(** ** A block that arrives before its parents *)

Module Runs.
Definition two : Committee :=
  {| committee_authorities := replicate 2 {| stake := 1; public_key := [] |}; total_stake := 2 |}.
Definition empty_storage : Storage := {| wal := []; store := store_new 0 two |}.
Definition child (a : Authority) (incs : list BlockReference) (txs : list bytes) : Block :=
  {| reference := {| ref_authority := a; ref_round := 1; ref_digest := [] |}; includes := incs;
     block_transactions := txs; timestamp_ns := 0; block_signature := [] |}.
Definition early : Block := child 0 [reference (block_genesis 0); reference (block_genesis 1)] [].
Definition orphan : Block :=
  child 1 [reference (block_genesis 1); {| ref_authority := 0; ref_round := 0; ref_digest := [7%Z] |}] [].
Definition family : list Block := [block_genesis 0; block_genesis 1; early; orphan].

Lemma two_known a : (a <? 2)%N = true → known two a.
Proof. intros Ha. by apply known_authority_iff. Qed.

Lemma family_admissible b : b ∈ family → admissible two b.
Proof.
  intros Hb. assert (Forall (λ b, Forall (λ a, (a <? 2)%N = true) (author b :: map ref_authority (includes b))) family)
    as HF by (repeat constructor).
  rewrite Forall_forall in HF. specialize (HF b Hb). apply Forall_cons in HF as [Ha Hi].
  split; [by apply two_known|]. intros i Hin. rewrite Forall_forall in Hi.
  apply two_known, Hi. apply (list_elem_of_fmap ref_authority). by exists i.
Qed.

Lemma family_unique b b' : b ∈ family → b' ∈ family → reference b = reference b' → b = b'.
Proof.
  unfold family. intros Hb Hb' E. rewrite !elem_of_cons, elem_of_nil in Hb. rewrite !elem_of_cons, elem_of_nil in Hb'.
  destruct Hb as [->|[->|[->|[->|[]]]]], Hb' as [->|[->|[->|[->|[]]]]];
    (reflexivity || (vm_compute in E; discriminate E)).
Qed.

Definition scattered : list (list Block) := [[early; orphan]; [block_genesis 0]; [block_genesis 1]].
Lemma scattered_family b : b ∈ concat scattered ↔ b ∈ family.
Proof. unfold scattered, family. cbn [concat app]. rewrite !elem_of_cons, elem_of_nil. tauto. Qed.

Lemma arrival_order_irrelevant_witness :
  ∃ m1 st1 m2 st2,
    add_batches elements scattered (manager_new two) empty_storage = Ok (m1, st1) ∧
    add_batches elements [family] (manager_new two) empty_storage = Ok (m2, st2) ∧
    wal_view (wal st1) = wal_view (wal st2) ∧ blocks_pending m1 = blocks_pending m2.
Proof.
  destruct (arrival_order_irrelevant elements (λ _, reflexivity _) two empty_storage scattered [family])
    as (m1 & st1 & m2 & st2 & H1 & H2 & H3 & H4 & _).
  - split; [apply store_new_repr|reflexivity|constructor].
  - apply Forall_forall. intros l Hl. apply Forall_forall. intros b Hb. apply family_admissible, scattered_family.
    apply list_elem_of_In, in_concat. exists l. split; by apply list_elem_of_In.
  - constructor; [|constructor]. apply Forall_forall, family_admissible.
  - intros b. rewrite scattered_family. cbn [concat]. by rewrite app_nil_r.
  - intros b b' Hb%scattered_family Hb'%scattered_family. by apply family_unique.
  - exists m1, st1, m2, st2. exact (conj H1 (conj H2 (conj H3 H4))).
Defined.
End Runs.
