(* ===== verification/DagCore.v ===== *)
(** * The core of a validator

    Models [core.rs] ([Core]), [core/block_handler.rs] ([RealBlockHandler],
    [CommitHandler]) and [core/syncer.rs] ([Syncer]) of the DAG crate: opening
    from the log, receiving blocks, proposing, running the commit rule, and the
    loop that ties them together.

    Metrics, timestamps of transactions and the notification of waiting tasks
    have no effect on the state and are left out; the clock is an argument, and
    the size of a serialised block is the function [serialized_len]. *)

From S2P Require Import Prelude Order Committee DagBlock DagStore Protocol Committer Linearizer BlockManager.
From stdpp Require Import base gmap list strings.
From Stdlib Require Import NArith ZArith Lia.

(** ** [RealBlockHandler] *)

Definition SOFT_MAX_PROPOSED_PER_BLOCK : N := 20 * 1000.
Definition CHANNEL_CAPACITY : N := 1024.

(** The channel of submitted batches, oldest first. *)
Record BlockHandler := { receiver : list (list bytes); pending_transactions : N }.

Definition handler_new : BlockHandler := {| receiver := []; pending_transactions := 0 |}.

(** [sender.try_send] *)
Definition try_send (batch : list bytes) (h : BlockHandler) : option BlockHandler :=
  if (N.of_nat (length (receiver h)) <? CHANNEL_CAPACITY)%N
  then Some {| receiver := receiver h ++ [batch]; pending_transactions := pending_transactions h |}
  else None.

(** [handle_blocks(true)]: batches are received until the limit is reached. *)
Fixpoint receive_batches (channel : list (list bytes)) (pending : N) : list bytes * list (list bytes) * N :=
  match channel with
  | [] => ([], [], pending)
  | data :: channel' =>
      if (SOFT_MAX_PROPOSED_PER_BLOCK <=? pending)%N then ([], channel, pending)
      else
        let '(response, rest, pending') := receive_batches channel' (pending + N.of_nat (length data)) in
        (data ++ response, rest, pending')
  end.
Definition handle_blocks (h : BlockHandler) : list bytes * BlockHandler :=
  let '(response, rest, pending) := receive_batches (receiver h) (pending_transactions h) in
  (response, {| receiver := rest; pending_transactions := pending |}).

Definition handle_proposal (b : Block) (h : BlockHandler) : BlockHandler :=
  {| receiver := receiver h;
     pending_transactions := pending_transactions h - N.of_nat (length (block_transactions b)) |}.

(** ** [Core] *)

Record Core := {
  block_manager : BlockManager;
  pending : list (WalPosition * MetaStatement);
  last_own_block : OwnBlockData;
  block_handler : BlockHandler;
  core_authority : Authority;
  threshold_clock : ThresholdClockAggregator;
  core_committee : Committee;
  last_decided : option (RoundNumber * Authority);
  storage : Storage;
  crypto : CryptoEngine;
  recovered_committed_blocks : option (gset BlockReference);
  committer : Committer
}.

Definition last_proposed (c : Core) : RoundNumber := round (own_block (last_own_block c)).
Definition core_reader (c : Core) : BlockReader := block_reader (storage c).

(** Record update. *)
Definition set_handler (p : list (WalPosition * MetaStatement)) (h : BlockHandler) (st : Storage) (c : Core) : Core :=
  {| block_manager := block_manager c; pending := p; last_own_block := last_own_block c;
     block_handler := h; core_authority := core_authority c; threshold_clock := threshold_clock c;
     core_committee := core_committee c; last_decided := last_decided c; storage := st;
     crypto := crypto c; recovered_committed_blocks := recovered_committed_blocks c;
     committer := committer c |}.
Definition set_received (m : BlockManager) (p : list (WalPosition * MetaStatement))
    (t : ThresholdClockAggregator) (st : Storage) (c : Core) : Core :=
  {| block_manager := m; pending := p; last_own_block := last_own_block c;
     block_handler := block_handler c; core_authority := core_authority c; threshold_clock := t;
     core_committee := core_committee c; last_decided := last_decided c; storage := st;
     crypto := crypto c; recovered_committed_blocks := recovered_committed_blocks c;
     committer := committer c |}.
Definition set_proposed (p : list (WalPosition * MetaStatement)) (d : OwnBlockData) (h : BlockHandler)
    (t : ThresholdClockAggregator) (st : Storage) (c : Core) : Core :=
  {| block_manager := block_manager c; pending := p; last_own_block := d;
     block_handler := h; core_authority := core_authority c; threshold_clock := t;
     core_committee := core_committee c; last_decided := last_decided c; storage := st;
     crypto := crypto c; recovered_committed_blocks := recovered_committed_blocks c;
     committer := committer c |}.
Definition set_decided (l : option (RoundNumber * Authority)) (c : Core) : Core :=
  {| block_manager := block_manager c; pending := pending c; last_own_block := last_own_block c;
     block_handler := block_handler c; core_authority := core_authority c;
     threshold_clock := threshold_clock c; core_committee := core_committee c; last_decided := l;
     storage := storage c; crypto := crypto c;
     recovered_committed_blocks := recovered_committed_blocks c; committer := committer c |}.
Definition set_storage (st : Storage) (c : Core) : Core :=
  {| block_manager := block_manager c; pending := pending c; last_own_block := last_own_block c;
     block_handler := block_handler c; core_authority := core_authority c;
     threshold_clock := threshold_clock c; core_committee := core_committee c;
     last_decided := last_decided c; storage := st; crypto := crypto c;
     recovered_committed_blocks := recovered_committed_blocks c; committer := committer c |}.

(** [self.threshold_clock.add_block] for each include statement. *)
Fixpoint clock_add_pending (t : ThresholdClockAggregator) (p : list (WalPosition * MetaStatement))
    (C : Committee) : result ThresholdClockAggregator :=
  match p with
  | [] => Ok t
  | (_, Include i) :: p => let? t := clock_add_block t i C in clock_add_pending t p C
  | (_, Payload _) :: p => clock_add_pending t p C
  end.

(** The genesis blocks of the other authorities. *)
Fixpoint open_genesis (blocks : list Block) (C : Committee) (t : ThresholdClockAggregator) (st : Storage)
    (p : list (WalPosition * MetaStatement)) :
    result (ThresholdClockAggregator * Storage * list (WalPosition * MetaStatement)) :=
  match blocks with
  | [] => Ok (t, st, p)
  | b :: blocks =>
      let? t := clock_add_block t (reference b) C in
      let? ' (st, position) := insert_block b st in
      open_genesis blocks C t st (p ++ [(position, Include (reference b))])
  end.

Definition run_block_handler (c : Core) : Core :=
  let '(statements, h) := handle_blocks (block_handler c) in
  let '(st, position) := write_payload statements (storage c) in
  set_handler (pending c ++ [(position, Payload statements)]) h st c.

Definition core_open (h : BlockHandler) (a : Authority) (C : Committee) (st : Storage)
    (recovered : RecoveredState) (cm : Committer) (e : CryptoEngine) : result Core :=
  let t := clock_new 0 (committer_quorum_threshold cm) in
  let? ' (t, st, p, own) :=
    match rec_last_own_block recovered with
    | Some own =>
        let? t := clock_add_pending t (rec_pending recovered) C in
        Ok (t, st, rec_pending recovered, own)
    | None =>
        let? _ := ensure (bool_decide (rec_pending recovered = [])) "assertion failed: pending.is_empty()" in
        let own_genesis_block := block_genesis a in
        let other_genesis_blocks := map block_genesis (filter (λ x, x ≠ a) (authorities C)) in
        let? ' (t, st, p) := open_genesis other_genesis_blocks C t st (rec_pending recovered) in
        let? t := clock_add_block t (reference own_genesis_block) C in
        let own := {| next_entry := WAL_MAX; own_block := own_genesis_block |} in
        let? st := insert_own_block own st in
        Ok (t, st, p, own)
    end in
  let this :=
    {| block_manager := manager_new C; pending := p; last_own_block := own; block_handler := h;
       core_authority := a; threshold_clock := t; core_committee := C;
       last_decided := (λ r, (ref_round r, ref_authority r)) <$> last_committed_leader recovered;
       storage := st; crypto := e;
       recovered_committed_blocks := Some (committed_blocks recovered); committer := cm |} in
  Ok (if bool_decide (unprocessed_blocks recovered = []) then this else run_block_handler this).

Section Core.
Context `{BlockCrypto} (serialized_len : Block → N) (order : gset BlockReference → list BlockReference).

Fixpoint clock_add_processed (t : ThresholdClockAggregator) (processed : list (WalPosition * Block))
    (C : Committee) : result ThresholdClockAggregator :=
  match processed with
  | [] => Ok t
  | (_, b) :: processed =>
      let? t := clock_add_block t (reference b) C in clock_add_processed t processed C
  end.

Definition core_add_blocks (blocks : list Block) (c : Core) : result (Core * list Block) :=
  let? ' (m, st, processed) := manager_add_blocks order blocks (block_manager c) (storage c) in
  let? t := clock_add_processed (threshold_clock c) processed (core_committee c) in
  let p := pending c ++ map (λ pb, (pb.1, Include (reference pb.2))) processed in
  Ok (run_block_handler (set_received m p t st c), map snd processed).

Definition drain_submitted_transactions (c : Core) : Core := run_block_handler c.

(** The statements before the first include of round [clock_round] or later. *)
Definition before_round (r : RoundNumber) (ps : WalPosition * MetaStatement) : bool :=
  match ps.2 with Include i => negb (r <=? ref_round i)%N | Payload _ => true end.

(** The references in the includes of the taken statements. *)
Fixpoint references_in (R : BlockReader) (taken : list (WalPosition * MetaStatement)) :
    result (list BlockReference) :=
  match taken with
  | [] => Ok []
  | (_, Include i) :: taken =>
      let? o := get_block R i in
      let? rest := references_in R taken in
      Ok (match o with Some b => includes b ++ rest | None => rest end)
  | (_, Payload _) :: taken => references_in R taken
  end.

Definition include_of (ps : WalPosition * MetaStatement) : option BlockReference :=
  match ps.2 with Include i => Some i | Payload _ => None end.
Definition payload_of (ps : WalPosition * MetaStatement) : list bytes :=
  match ps.2 with Include _ => [] | Payload txs => txs end.

Definition MAX_ENTRY_SIZE : N := 0x10000000 - 16.

Definition try_new_block (time_ns : N) (c : Core) : result (Core * option Block) :=
  let r := clock_round (threshold_clock c) in
  if (r <=? last_proposed c)%N then Ok (c, None) else
  let taken := take_while (before_round r) (pending c) in
  let rest := skip_while (before_round r) (pending c) in
  let own := own_block (last_own_block c) in
  let? references := references_in (core_reader c) taken in
  let references_in_block := includes own ++ references in
  let incs := reference own :: filter (λ i, i ∉ references_in_block) (omap include_of taken) in
  let statements := concat (map payload_of taken) in
  let block := block_new (core_authority c) r incs statements time_ns (crypto c) in
  let? _ := ensure (bool_decide (ref_authority (reference own) = core_authority c)) "Invalid block" in
  let? _ := ensure (serialized_len block <=? MAX_ENTRY_SIZE / 2)%N "Created an oversized block" in
  let? t := clock_add_block (threshold_clock c) (reference block) (core_committee c) in
  let h := handle_proposal block (block_handler c) in
  let next_entry := match rest with (pos, _) :: _ => pos | [] => WAL_MAX end in
  let d := {| next_entry := next_entry; own_block := block |} in
  let? st := insert_own_block d (storage c) in
  Ok (set_proposed rest d h t st c, Some block).

(** [filter_map(LeaderStatus::into_decided_block)] *)
Fixpoint decided_blocks (l : list LeaderStatus) : result (list Block) :=
  match l with
  | [] => Ok []
  | s :: l =>
      let? o := into_decided_block s in
      let? rest := decided_blocks l in
      Ok (match o with Some b => b :: rest | None => rest end)
  end.

Definition core_try_commit (c : Core) : result (Core * list Block) :=
  let? sequence := try_commit (committer c) (core_reader c) (last_decided c) in
  let latest := match last sequence with Some s => Some (status_slot s) | None => last_decided c end in
  let? blocks := decided_blocks sequence in
  Ok (set_decided latest c, blocks).

(** ** Fast commits *)

Definition stake_at_round_reaches (c : Core) (r : RoundNumber) (threshold : Stake) : result bool :=
  let? blocks := get_blocks_by_round (core_reader c) r in
  aggregate_any (core_committee c) author (λ _, Ok true) (aggregator_new threshold) blocks.

Record WatchedVotingRound := { watched_round : RoundNumber; quorum_reached : bool }.
Record FastCommitWatch := {
  fast_quorum : Stake; same_round_slot : WatchedVotingRound; next_round_slot : WatchedVotingRound
}.

Definition last_decided_round (c : Core) : RoundNumber := from_option fst GENESIS_ROUND (last_decided c).

Definition fast_commit_watch (c : Core) : result (option FastCommitWatch) :=
  match fast_commit_quorum_above_clock (committer c) with
  | None => Ok None
  | Some q =>
      let watch r := let? b := stake_at_round_reaches c r q in
                     Ok {| watched_round := r; quorum_reached := b |} in
      let? same := watch (last_decided_round c + 1)%N in
      let? next := watch (last_decided_round c + 2)%N in
      Ok (Some {| fast_quorum := q; same_round_slot := same; next_round_slot := next |})
  end.

Definition crossed_at (c : Core) (q : Stake) (w : WatchedVotingRound) : result bool :=
  if quorum_reached w then Ok false else stake_at_round_reaches c (watched_round w) q.
Definition fast_commit_quorum_crossed (c : Core) (w : FastCommitWatch) : result bool :=
  let? same := crossed_at c (fast_quorum w) (same_round_slot w) in
  if same : bool then Ok true else crossed_at c (fast_quorum w) (next_round_slot w).

(** ** Housekeeping *)

Definition RETAIN_BELOW_COMMIT_ROUNDS : RoundNumber := 100.

Definition core_cleanup (c : Core) : Core :=
  set_storage (cleanup_store (last_decided_round c - RETAIN_BELOW_COMMIT_ROUNDS) (storage c)) c.

Definition ready_new_block (connected_authorities : gset Authority) (c : Core) : bool :=
  let quorum_round := clock_round (threshold_clock c) in
  if (N.max (last_decided_round c) 1 <? quorum_round)%N then
    let leader_round := (quorum_round - 1)%N in
    let leaders := match get_leaders (committer c) leader_round with
                   | Some l => l
                   | None => authorities (core_committee c)
                   end in
    all_blocks_exists_at_authority_round (store (storage c))
      (filter (λ a, a ∈ connected_authorities) leaders) leader_round
  else false.

Definition handle_committed_subdag (committed : list CommittedSubDag) (c : Core) : Core :=
  set_storage (write_commits (map commit_data committed) (storage c)) c.

Definition take_recovered_committed_blocks (c : Core) : result (Core * gset BlockReference) :=
  match recovered_committed_blocks c with
  | None => Err "take_recovered_committed_blocks called twice"
  | Some s =>
      Ok ({| block_manager := block_manager c; pending := pending c; last_own_block := last_own_block c;
             block_handler := block_handler c; core_authority := core_authority c;
             threshold_clock := threshold_clock c; core_committee := core_committee c;
             last_decided := last_decided c; storage := storage c; crypto := crypto c;
             recovered_committed_blocks := None; committer := committer c |}, s)
  end.

(** ** [CommitHandler] and [Syncer] *)

Record CommitHandler := { commit_interpreter : Linearizer; committed_leaders : list BlockReference }.

Definition commit_handler_new : CommitHandler :=
  {| commit_interpreter := linearizer_new; committed_leaders := [] |}.

(** Enough steps for the linearizer: one per entry of the log. *)
Definition walk_fuel (st : Storage) : nat := length (wal st).

Definition commit_handler_handle (c : Core) (leaders : list Block) (h : CommitHandler) :
    result (CommitHandler * list CommittedSubDag) :=
  let? ' (l, committed) :=
    handle_commit (core_reader c) (walk_fuel (storage c)) (commit_interpreter h) leaders in
  Ok ({| commit_interpreter := l;
         committed_leaders := committed_leaders h ++ map sub_anchor committed |}, committed).

Definition recover_committed (committed : gset BlockReference) (h : CommitHandler) : result CommitHandler :=
  if bool_decide (commit_interpreter h = ∅)
  then Ok {| commit_interpreter := committed; committed_leaders := committed_leaders h |}
  else Err "assertion failed: self.commit_interpreter.committed.is_empty()".

Record Syncer := {
  syncer_core : Core;
  force_new_block : bool;
  new_block_signal : bool;
  commit_handler : CommitHandler;
  connected_authorities : gset Authority
}.

Definition syncer_new (c : Core) (h : CommitHandler) : Syncer :=
  {| syncer_core := c; force_new_block := false; new_block_signal := false; commit_handler := h;
     connected_authorities := ∅ |}.

Definition try_propose (time_ns : N) (s : Syncer) : result (Syncer * bool) :=
  if force_new_block s || ready_new_block (connected_authorities s) (syncer_core s) then
    let? ' (c, o) := try_new_block time_ns (syncer_core s) in
    match o with
    | None => Ok ({| syncer_core := c; force_new_block := force_new_block s;
                     new_block_signal := new_block_signal s; commit_handler := commit_handler s;
                     connected_authorities := connected_authorities s |}, false)
    | Some _ => Ok ({| syncer_core := c; force_new_block := false; new_block_signal := true;
                       commit_handler := commit_handler s;
                       connected_authorities := connected_authorities s |}, true)
    end
  else Ok (s, false).

Definition syncer_commit (s : Syncer) : result (Syncer * list CommittedSubDag) :=
  let? ' (c, newly_committed) := core_try_commit (syncer_core s) in
  let? ' (h, committed) := commit_handler_handle c newly_committed (commit_handler s) in
  Ok ({| syncer_core := handle_committed_subdag committed c; force_new_block := force_new_block s;
         new_block_signal := new_block_signal s; commit_handler := h;
         connected_authorities := connected_authorities s |}, committed).

Definition syncer_try_new_block (time_ns : N) (s : Syncer) : result (Syncer * list CommittedSubDag) :=
  let? ' (s, proposed) := try_propose time_ns s in
  if proposed : bool then syncer_commit s else Ok (s, []).

Definition set_core (c : Core) (s : Syncer) : Syncer :=
  {| syncer_core := c; force_new_block := force_new_block s; new_block_signal := new_block_signal s;
     commit_handler := commit_handler s; connected_authorities := connected_authorities s |}.

Definition syncer_add_blocks (time_ns : N) (blocks : list Block) (s : Syncer) :
    result (Syncer * list CommittedSubDag) :=
  let? watch := fast_commit_watch (syncer_core s) in
  let? ' (c, _) := core_add_blocks blocks (syncer_core s) in
  let? ' (s, proposed) := try_propose time_ns (set_core c s) in
  let? run :=
    if proposed : bool then Ok true
    else match watch with
         | Some w => fast_commit_quorum_crossed (syncer_core s) w
         | None => Ok false
         end in
  if run : bool then syncer_commit s else Ok (s, []).

Definition syncer_force_new_block (time_ns : N) (r : RoundNumber) (s : Syncer) :
    result (Syncer * list CommittedSubDag) :=
  if (last_proposed (syncer_core s) =? r)%N then
    syncer_try_new_block time_ns
      {| syncer_core := syncer_core s; force_new_block := true; new_block_signal := new_block_signal s;
         commit_handler := commit_handler s; connected_authorities := connected_authorities s |}
  else Ok (s, []).

(** [SyncerSignals::take_new_block] *)
Definition take_new_block (s : Syncer) : Syncer * bool :=
  ({| syncer_core := syncer_core s; force_new_block := force_new_block s; new_block_signal := false;
      commit_handler := commit_handler s; connected_authorities := connected_authorities s |},
   new_block_signal s).

Definition connect_authority (a : Authority) (s : Syncer) : Syncer :=
  {| syncer_core := syncer_core s; force_new_block := force_new_block s;
     new_block_signal := new_block_signal s; commit_handler := commit_handler s;
     connected_authorities := {[a]} ∪ connected_authorities s |}.
Definition disconnect_authority (a : Authority) (s : Syncer) : Syncer :=
  {| syncer_core := syncer_core s; force_new_block := force_new_block s;
     new_block_signal := new_block_signal s; commit_handler := commit_handler s;
     connected_authorities := connected_authorities s ∖ {[a]} |}.
End Core.
