(* ===== verification/DagCoreTheorems.v ===== *)
(** * The core keeps its invariant and proposes valid blocks

    [core_ok] relates the fields of a [Core] to the view its storage holds: the
    clock counts blocks of the view, the pending list holds every block of the
    view that can still be a parent, in causal order. Every operation keeps it,
    and every proposal is a block its peers accept. *)

From S2P Require Import Prelude Order Committee DagBlock DagStore DagStoreTheorems Protocol Committer.
From S2P Require Import Linearizer BlockManager DagCore.
From stdpp Require Import base gmap list strings.
From Stdlib Require Import NArith ZArith Lia.

Definition core_view (c : Core) : gmap BlockReference Block := wal_view (wal (storage c)).

(** ** The threshold clock *)

(** A quorum of authors has blocks of round [n] in the view. *)
Definition quorum_at (C : Committee) (q : Stake) (V : gmap BlockReference Block) (n : RoundNumber) : Prop :=
  ∃ X : gset Authority, (q ≤ stake_of C X)%N ∧
    ∀ a, a ∈ X → ∃ b, V !! reference b = Some b ∧ author b = a ∧ round b = n.

(** The clock counts authors with blocks of its round, and its round is past a quorum. *)
Record clock_ok (C : Committee) (q : Stake) (V : gmap BlockReference Block)
    (t : ThresholdClockAggregator) : Prop := {
  clk_quorum : clock_quorum t = q;
  clk_threshold : threshold (clock_aggregator t) = q;
  clk_votes : ∃ X, agg_repr C (clock_aggregator t) X ∧
    ∀ a, a ∈ X → ∃ b, V !! reference b = Some b ∧ author b = a ∧ round b = clock_round t;
  clk_round : (0 < clock_round t)%N → quorum_at C q V (clock_round t - 1)
}.

Lemma quorum_at_mono C q V V' n : V ⊆ V' → quorum_at C q V n → quorum_at C q V' n.
Proof.
  intros Hsub (X & Hq & HX). exists X. split; [done|]. intros a Ha.
  destruct (HX a Ha) as (b & Hb & ? & ?). exists b. split_and!; [by eapply lookup_weaken|done|done].
Qed.

Lemma clock_ok_mono C q V V' t : V ⊆ V' → clock_ok C q V t → clock_ok C q V' t.
Proof.
  intros Hsub [H1 H2 (X & HR & HX) H4]. split; [done|done| |].
  - exists X. split; [done|]. intros a Ha. destruct (HX a Ha) as (b & Hb & ? & ?).
    exists b. split_and!; [by eapply lookup_weaken|done|done].
  - intros Hr. eapply quorum_at_mono; eauto.
Qed.

Lemma clock_new_ok C q V : clock_ok C q V (clock_new 0 q).
Proof.
  split; [done|done| |simpl; lia]. exists ∅. split; [apply aggregator_new_repr|set_solver].
Qed.

(** The parents of a stored block. *)
Lemma parents_quorum C q V b :
  (∀ r x, V !! r = Some x → reference x = r) → (∀ i, i ∈ includes b → is_Some (V !! i)) →
  well_formed C q b → (0 < round b)%N → quorum_at C q V (round b - 1).
Proof.
  intros Hk Hi Hwf Hr. exists (parents_at b (round b - 1)). split; [by apply wf_quorum|].
  intros a (i & -> & Hri%N.eqb_eq & Hin)%elem_of_authors_of.
  destruct (Hi i Hin) as [x Hx]. pose proof (Hk _ _ Hx) as <-. exists x. done.
Qed.

Lemma clock_add_block_ok C q V t b :
  (0 < q)%N → (∀ r x, V !! r = Some x → reference x = r) →
  V !! reference b = Some b → (∀ i, i ∈ includes b → is_Some (V !! i)) → well_formed C q b →
  clock_ok C q V t →
  ∃ t', clock_add_block t (reference b) C = Ok t' ∧ clock_ok C q V t' ∧
    (clock_round t ≤ clock_round t')%N ∧ (round b ≤ clock_round t')%N.
Proof.
  intros Hq Hk Hb Hi Hwf [H1 H2 (X & HR & HX) H4]. unfold clock_add_block.
  change (ref_round (reference b)) with (round b). change (ref_authority (reference b)) with (author b).
  pose proof (wf_author _ _ _ Hwf) as Hka.
  destruct (N.compare_spec (round b) (clock_round t)) as [Heq|Hlt|Hgt]; simpl.
  - destruct (aggregator_add_spec C _ X (author b) HR Hka) as (g & -> & HR' & Ht). simpl.
    assert (∀ a, a ∈ {[author b]} ∪ X → ∃ x, V !! reference x = Some x ∧ author x = a ∧ round x = clock_round t) as HX'.
    { intros a [->%elem_of_singleton|Ha]%elem_of_union; [by exists b|by apply HX]. }
    destruct (_ <=? _)%N eqn:Hle; simpl.
    + rewrite (proj2 (N.ltb_ge _ _)) by lia. eexists. split; [done|]. split; simpl; [|lia].
      split; simpl; [done|done| |].
      * exists ∅. split; [apply aggregator_new_repr|set_solver].
      * intros _. exists ({[author b]} ∪ X). split; [apply N.leb_le in Hle; by rewrite <- H2|].
        intros a Ha. destruct (HX' a Ha) as (x & ? & ? & ?). exists x. split_and!; [done|done|lia].
    + rewrite (proj2 (N.ltb_ge _ _)) by lia. eexists. split; [done|]. split; simpl; [|lia].
      split; simpl; [done|congruence|by exists ({[author b]} ∪ X)|done].
  - rewrite (proj2 (N.ltb_ge _ _)) by lia. eexists. split; [done|]. split; [|lia].
    split; [done|done|by exists X|done].
  - destruct (aggregator_add_spec C _ ∅ (author b) (aggregator_new_repr C (clock_quorum t)) Hka)
      as (g & -> & HR' & Ht). simpl.
    rewrite (proj2 (N.ltb_ge _ _)) by lia. eexists. split; [done|]. split; simpl; [|lia].
    split; simpl; [done|by rewrite Ht| |].
    + eexists. split; [exact HR'|]. intros a [->%elem_of_singleton|?]%elem_of_union; [by exists b|set_solver].
    + intros Hr. by eapply parents_quorum.
Qed.

(** ** The invariant *)

(** The blocks waiting to be included, in order. *)
Definition pending_includes (c : Core) : list BlockReference := omap include_of (pending c).

(** [Q] holds of the blocks that exist. *)
Record core_ok (Q : Block → Prop) (c : Core) : Prop := {
  co_committee : committee_ok (core_committee c);
  co_quorum : (0 < committer_quorum_threshold (committer c))%N;
  co_self : known (core_committee c) (core_authority c);
  co_storage : storage_ok (core_committee c) (storage c);
  co_manager : manager_ok (core_committee c) (core_view c) [] (block_manager c);
  co_exist : ∀ b, knows (core_view c) (block_manager c) b → Q b;
  co_wf : ∀ b, Q b → well_formed (core_committee c) (committer_quorum_threshold (committer c)) b;
  co_closed : ∀ r b i, core_view c !! r = Some b → i ∈ includes b → is_Some (core_view c !! i);
  co_clock : clock_ok (core_committee c) (committer_quorum_threshold (committer c)) (core_view c)
    (threshold_clock c);
  co_own : core_view c !! reference (own_block (last_own_block c)) = Some (own_block (last_own_block c)) ∧
    author (own_block (last_own_block c)) = core_authority c;
  co_own_all : ∀ b, Q b → author b = core_authority c →
    core_view c !! reference b = Some b ∧ (round b ≤ last_proposed c)%N ∧
    (round b = last_proposed c → b = own_block (last_own_block c));
  co_pending_in : ∀ i, i ∈ pending_includes c → is_Some (core_view c !! i);
  co_pending_all : ∀ b, core_view c !! reference b = Some b → author b ≠ core_authority c →
    (last_proposed c ≤ round b)%N → reference b ∈ pending_includes c;
  co_pending_order : ∀ pre b post, pending_includes c = pre ++ reference b :: post →
    core_view c !! reference b = Some b → ∀ i, i ∈ includes b → (last_proposed c ≤ ref_round i)%N →
    ref_authority i ≠ core_authority c → i ∈ pre
}.

Lemma core_keys Q c r b : core_ok Q c → core_view c !! r = Some b → reference b = r.
Proof. intros Hc. apply (repr_keys _ _ (sto_repr _ _ (co_storage _ _ Hc))). Qed.

(** More blocks may come into existence, as long as none claims to be ours. *)
Lemma core_ok_weaken Q Q' c :
  core_ok Q c → (∀ b, Q b → Q' b) →
  (∀ b, Q' b → well_formed (core_committee c) (committer_quorum_threshold (committer c)) b) →
  (∀ b, Q' b → author b = core_authority c → Q b) →
  core_ok Q' c.
Proof. intros [] HQ Hwf Hself. split; try done; auto. Qed.

(** The operations that leave the DAG alone. *)
Lemma core_ok_ext Q c c' :
  core_ok Q c →
  core_committee c' = core_committee c → committer c' = committer c → core_authority c' = core_authority c →
  block_manager c' = block_manager c → threshold_clock c' = threshold_clock c →
  last_own_block c' = last_own_block c → pending_includes c' = pending_includes c →
  core_view c' = core_view c → storage_ok (core_committee c) (storage c') →
  core_ok Q c'.
Proof.
  intros [] E1 E2 E3 E4 E5 E6 E7 E8 Hst. unfold last_proposed in *.
  split; unfold last_proposed; rewrite ?E1, ?E2, ?E3, ?E4, ?E5, ?E6, ?E7, ?E8; done.
Qed.

Lemma wal_view_write st e : wal_block e = None → wal_view (wal (wal_write e st).1) = wal_view (wal st).
Proof. intros He. simpl. rewrite wal_view_app. unfold wal_view_step. by rewrite He. Qed.

Lemma run_block_handler_ok Q c :
  core_ok Q c → core_ok Q (run_block_handler c) ∧ core_view (run_block_handler c) = core_view c.
Proof.
  intros Hc. unfold run_block_handler. destruct (handle_blocks (block_handler c)) as [txs h].
  unfold write_payload. destruct (wal_write _ _) as [st pos] eqn:E.
  assert (st = (wal_write (WalPayload txs) (storage c)).1) as -> by (by rewrite E).
  assert (core_view (set_handler (pending c ++ [(pos, Payload txs)]) h
            (wal_write (WalPayload txs) (storage c)).1 c) = core_view c) as Hv by (by apply wal_view_write).
  split; [|done]. eapply core_ok_ext; [done|done..| |done|].
  - unfold pending_includes. simpl. rewrite omap_app. simpl. by rewrite app_nil_r.
  - simpl. by apply (wal_write_ok _ _ (WalPayload txs)); [apply (co_storage _ _ Hc)|].
Qed.

Lemma core_cleanup_ok Q c : core_ok Q c → core_ok Q (core_cleanup c) ∧ core_view (core_cleanup c) = core_view c.
Proof.
  intros Hc. unfold core_cleanup.
  destruct (cleanup_store_ok (core_committee c) (storage c)
    (last_decided_round c - RETAIN_BELOW_COMMIT_ROUNDS)%N (co_storage _ _ Hc)) as [Hst Hw].
  assert (core_view (set_storage (cleanup_store (last_decided_round c - RETAIN_BELOW_COMMIT_ROUNDS) (storage c)) c)
          = core_view c) as Hv by (unfold core_view; simpl; by rewrite Hw).
  split; [|done]. by eapply core_ok_ext.
Qed.

Lemma handle_committed_subdag_ok Q subs c :
  core_ok Q c → core_ok Q (handle_committed_subdag subs c) ∧
    core_view (handle_committed_subdag subs c) = core_view c.
Proof.
  intros Hc. assert (core_view (handle_committed_subdag subs c) = core_view c) as Hv.
  { unfold core_view, handle_committed_subdag, write_commits. simpl. by apply wal_view_write. }
  split; [|done]. eapply core_ok_ext; [done|done..|].
  by apply (wal_write_ok _ _ (WalCommit _)); [apply (co_storage _ _ Hc)|].
Qed.

(** ** Receiving blocks *)

Definition view_closed_under (V : gmap BlockReference Block) : Prop :=
  ∀ r b i, V !! r = Some b → i ∈ includes b → is_Some (V !! i).

Lemma stored_closed V bs V' : stored V bs V' → view_closed_under V → view_closed_under V'.
Proof.
  induction 1 as [|V V' b bs Hb Hi _ IH]; intros HV; [done|]. apply IH.
  intros r x i [[_ <-]|[_ Hx]]%lookup_insert_Some Hin; apply lookup_insert_is_Some'; right; eauto.
Qed.

Lemma stored_new V bs V' r b : stored V bs V' → V' !! r = Some b → V !! r = Some b ∨ b ∈ bs.
Proof.
  induction 1 as [|V V' x bs _ _ _ IH]; [by left|]. intros Hb.
  destruct (IH Hb) as [[[_ <-]|[_ ?]]%lookup_insert_Some|?]; [right; set_solver|by left|right; set_solver].
Qed.

Lemma stored_order V bs V' k b post :
  stored V bs V' → bs = k ++ b :: post → ∀ i, i ∈ includes b → is_Some (V !! i) ∨ i ∈ map reference k.
Proof.
  intros Hs. revert k. induction Hs as [|V V' x bs Hx Hi _ IH]; intros k Heq; [by destruct k|].
  destruct k as [|y k]; simpl in Heq; injection Heq as -> ->; [by left; apply Hi|].
  intros i Hin. destruct (IH k eq_refl i Hin) as [[<-|?]%lookup_insert_is_Some'|?];
    [right; simpl; set_solver|by left|right; simpl; set_solver].
Qed.

Lemma clock_add_processed_ok C q V t (new : list (WalPosition * Block)) :
  (0 < q)%N → (∀ r x, V !! r = Some x → reference x = r) →
  (∀ b, b ∈ map snd new → V !! reference b = Some b ∧ (∀ i, i ∈ includes b → is_Some (V !! i)) ∧
     well_formed C q b) →
  clock_ok C q V t →
  ∃ t', clock_add_processed t new C = Ok t' ∧ clock_ok C q V t'.
Proof.
  intros Hq Hk. revert t. induction new as [|[p b] new IH]; intros t Hall Ht; simpl; [by exists t|].
  destruct (Hall b) as (H1 & H2 & H3); [simpl; set_solver|].
  destruct (clock_add_block_ok C q V t b) as (t1 & -> & Ht1 & _); [done..|]. simpl.
  apply IH; [|done]. intros x Hx. apply Hall. simpl. set_solver.
Qed.

Lemma omap_include_new (new : list (WalPosition * Block)) :
  omap include_of (map (λ pb, (pb.1, Include (reference pb.2))) new) = map reference (map snd new).
Proof. induction new as [|pb new IH]; csimpl; [done|]. by rewrite IH. Qed.

(** The pending list stays in causal order when stored blocks are appended. *)
Lemma pending_order_app Q c V' bs pre b post :
  core_ok Q c → stored (core_view c) bs V' → V' !! reference b = Some b →
  pending_includes c ++ map reference bs = pre ++ reference b :: post →
  ∀ i, i ∈ includes b → (last_proposed c ≤ ref_round i)%N → ref_authority i ≠ core_authority c → i ∈ pre.
Proof.
  intros Hc Hst Hb Heq i Hi Hl Ha. pose proof (stored_subseteq _ _ _ Hst) as Hsub.
  assert ((∃ k, pending_includes c = pre ++ reference b :: k) ∨
    ∃ k, pre = pending_includes c ++ k ∧ map reference bs = k ++ reference b :: post) as [[k Hk]|(k & -> & Hk)].
  { apply app_eq_inv in Heq as [([|x k] & H1 & H2)|(k & H1 & H2)]; [|left|right; by exists k].
    - right. exists []. rewrite app_nil_r in H1 |- *. auto.
    - injection H2 as <- ->. by exists k. }
  - destruct (co_pending_in _ _ Hc (reference b)) as [x Hx]; [rewrite Hk; set_solver|].
    pose proof (lookup_weaken _ _ _ _ Hx Hsub) as Hx'. rewrite Hb in Hx'. injection Hx' as <-.
    by eapply (co_pending_order _ _ Hc).
  - apply map_eq_app in Hk as (ks & [|x bs'] & -> & <- & Hx); [done|].
    simpl in Hx. injection Hx as Hx _.
    assert (x = b) as ->.
    { pose proof (stored_in _ _ _ x Hst) as Hin. rewrite Hx, Hb in Hin.
      assert (Some b = Some x) as [= <-]; [apply Hin; set_solver|done]. }
    apply elem_of_app. destruct (stored_order _ _ _ ks b bs' Hst eq_refl i Hi) as [[x Hxi]|?]; [left|by right].
    pose proof (core_keys _ _ _ _ Hc Hxi) as <-. by apply (co_pending_all _ _ Hc).
Qed.

Section Operations.
Context `{BlockCrypto} (serialized_len : Block → N)
  (order : gset BlockReference → list BlockReference) (Horder : ∀ s, order s ≡ₚ elements s).

Lemma core_add_blocks_ok Q c blocks :
  core_ok Q c → Forall Q blocks →
  ∃ c' new, core_add_blocks order blocks c = Ok (c', new) ∧ core_ok Q c' ∧
    stored (core_view c) new (core_view c').
Proof.
  intros Hc HQ. unfold core_add_blocks.
  destruct (manager_add_blocks_ok order Horder (core_committee c) blocks (block_manager c) (storage c))
    as (m & st & new & -> & [Hs Hm Hwal Hpos Hst Hold Hnew _ Hrec]);
    [apply (co_storage _ _ Hc)|apply (co_manager _ _ Hc)| |].
  { eapply Forall_impl; [exact HQ|]. intros b Hb. pose proof (co_wf _ _ Hc b Hb) as Hwf.
    split; [apply (wf_author _ _ _ Hwf)|]. intros i Hi. by apply (wf_includes _ _ _ Hwf). }
  simpl. set (V' := wal_view (wal st)) in *. pose proof (stored_subseteq _ _ _ Hst) as Hsub.
  assert (∀ b, knows V' m b → Q b) as Hex.
  { intros b [Hb|Hb]%Hnew; [by apply (co_exist _ _ Hc)|]. rewrite Forall_forall in HQ. by apply HQ. }
  assert (∀ r x, V' !! r = Some x → reference x = r) as Hkeys by apply (repr_keys _ _ (sto_repr _ _ Hs)).
  assert (view_closed_under V') as Hclo by (eapply stored_closed; [exact Hst|exact (co_closed _ _ Hc)]).
  destruct (clock_add_processed_ok (core_committee c) (committer_quorum_threshold (committer c)) V'
              (threshold_clock c) new) as (t & -> & Ht);
    [apply (co_quorum _ _ Hc)|done| |eapply clock_ok_mono; [done|apply (co_clock _ _ Hc)]|].
  { intros b Hb. pose proof (stored_in _ _ _ b Hst Hb) as HbV. split_and!; [done|exact (λ i, Hclo _ _ i HbV)|].
    apply (co_wf _ _ Hc), Hex. by left. }
  simpl. set (p := pending c ++ _). eexists _, _. split; [done|].
  assert (pending_includes (set_received m p t st c) = pending_includes c ++ map reference (map snd new)) as Hp.
  { unfold pending_includes, p. simpl. by rewrite omap_app, omap_include_new. }
  assert (core_ok Q (set_received m p t st c)) as Hc'.
  { split; try apply Hc; try done; rewrite ?Hp; change (core_view (set_received m p t st c)) with V';
      change (last_proposed (set_received m p t st c)) with (last_proposed c); simpl.
    - destruct (co_own _ _ Hc). split; [by eapply lookup_weaken|done].
    - intros b Hb Ha. destruct (co_own_all _ _ Hc b Hb Ha) as (H1 & H2 & H3).
      split_and!; [by eapply lookup_weaken|done|done].
    - intros i [Hi|(b & -> & Hb)%(list_elem_of_fmap reference)]%elem_of_app.
      + destruct (co_pending_in _ _ Hc i Hi) as [x Hx]. exists x. by eapply lookup_weaken.
      + exists b. by eapply stored_in.
    - intros b Hb Ha Hl. apply elem_of_app. destruct (stored_new _ _ _ _ _ Hst Hb) as [Hb'|Hb'].
      + left. by apply (co_pending_all _ _ Hc).
      + right. apply (list_elem_of_fmap reference). by exists b.
    - intros pre b post Heq Hb. by eapply pending_order_app. }
  destruct (run_block_handler_ok _ _ Hc') as [Hc2 Hv2]. split; [done|by rewrite Hv2].
Qed.

(** ** Proposing *)

Lemma take_skip_while {A} (q : A → bool) l : take_while q l ++ skip_while q l = l.
Proof. induction l as [|x l IH]; simpl; [done|]. destruct (q x); simpl; congruence. Qed.

Lemma take_while_forall {A} (q : A → bool) l x : x ∈ take_while q l → q x = true.
Proof.
  induction l as [|y l IH]; simpl; [by intros ?%not_elem_of_nil|]. destruct (q y) eqn:E; [|by intros ?%not_elem_of_nil].
  intros [->|?]%elem_of_cons; auto.
Qed.

Lemma skip_while_head {A} (q : A → bool) l x l' : skip_while q l = x :: l' → q x = false.
Proof. induction l as [|y l IH]; simpl; [done|]. destruct (q y) eqn:E; [done|]. by intros [= <- <-]. Qed.

(** The statements a proposal of round [r] takes, and the rest. *)
Definition taken_at (r : RoundNumber) (c : Core) := take_while (before_round r) (pending c).
Definition rest_at (r : RoundNumber) (c : Core) := skip_while (before_round r) (pending c).
Definition taken_includes (r : RoundNumber) (c : Core) : list BlockReference :=
  omap include_of (taken_at r c).

Lemma pending_split r c :
  pending_includes c = taken_includes r c ++ omap include_of (rest_at r c).
Proof.
  unfold pending_includes, taken_includes. rewrite <- omap_app. unfold taken_at, rest_at.
  by rewrite take_skip_while.
Qed.

Lemma taken_round r c i : i ∈ taken_includes r c → (ref_round i < r)%N.
Proof.
  intros ([p s] & Hin & Hs)%list_elem_of_omap. apply take_while_forall in Hin.
  destruct s as [j|]; [|done]. simpl in *. injection Hs as ->.
  unfold before_round in Hin. simpl in Hin. apply negb_true_iff, N.leb_gt in Hin. done.
Qed.

(** The first statement left behind includes a block of the round or later. *)
Lemma rest_first r c :
  omap include_of (rest_at r c) = [] ∧ rest_at r c = [] ∨
  ∃ i l, omap include_of (rest_at r c) = i :: l ∧ (r ≤ ref_round i)%N.
Proof.
  unfold rest_at. destruct (skip_while _ _) as [|[p s] l] eqn:E; [by left|right].
  apply skip_while_head in E. destruct s as [i|]; [|done]. csimpl. exists i, (omap include_of l).
  split; [done|]. unfold before_round in E. simpl in E. by apply negb_false_iff, N.leb_le in E.
Qed.

Section Propose.
Context (Q : Block → Prop) (c : Core) (Hc : core_ok Q c).

Abbreviation C := (core_committee c).
Abbreviation q := (committer_quorum_threshold (committer c)).
Abbreviation V := (core_view c).
Abbreviation r := (clock_round (threshold_clock c)).
Abbreviation own := (own_block (last_own_block c)).

Context (Hr : (last_proposed c < r)%N).

Lemma view_exist x : V !! reference x = Some x → Q x.
Proof. intros Hx. apply (co_exist _ _ Hc). by left. Qed.

(** A possible parent is our last block or pending. *)
Lemma parent_pending x :
  V !! reference x = Some x → (last_proposed c ≤ round x)%N → (author x = core_authority c → x = own) ∧
  (author x ≠ core_authority c → reference x ∈ pending_includes c).
Proof.
  intros Hx Hl. split; [|intros Ha; by apply (co_pending_all _ _ Hc)].
  intros Ha. destruct (co_own_all _ _ Hc x (view_exist x Hx) Ha) as (_ & H2 & H3). apply H3. lia.
Qed.

(** The parents a proposal finds form a quorum. *)
Lemma parents_taken :
  ∃ X : gset Authority, (q ≤ stake_of C X)%N ∧
    ∀ a, a ∈ X → ∃ i, ref_authority i = a ∧ ref_round i = (r - 1)%N ∧
      (i = reference own ∨ i ∈ taken_includes r c).
Proof.
  destruct (rest_first r c) as [[Hno _]|(i & l & Hrest & Hi)].
  - destruct (clk_round _ _ _ _ (co_clock _ _ Hc)) as (X & HX & Hall); [lia|].
    exists X. split; [done|]. intros a Ha. destruct (Hall a Ha) as (x & Hx & Hxa & Hxr).
    exists (reference x). split_and!; [done|done|].
    destruct (parent_pending x Hx) as [H1 H2]; [lia|].
    destruct (decide (author x = core_authority c)) as [Hs|Hs]; [left; by rewrite (H1 Hs)|right].
    specialize (H2 Hs). rewrite (pending_split r), Hno, app_nil_r in H2. done.
  - pose proof (pending_split r c) as Hsplit. rewrite Hrest in Hsplit.
    destruct (co_pending_in _ _ Hc i) as [A HA]; [rewrite Hsplit; set_solver|].
    pose proof (core_keys _ _ _ _ Hc HA) as <-. change (ref_round (reference A)) with (round A) in Hi.
    pose proof (co_wf _ _ Hc A (view_exist A HA)) as Hwf.
    assert (∀ i, i ∈ includes A → ref_round i = (round A - 1)%N →
      ref_round i = (r - 1)%N ∧ (i = reference own ∨ i ∈ taken_includes r c)) as Hpar.
    { intros i Hin Hri. destruct (co_closed _ _ Hc _ _ i HA Hin) as [x Hx].
      pose proof (core_keys _ _ _ _ Hc Hx) as <-. change (ref_round (reference x)) with (round x) in *.
      destruct (parent_pending x Hx) as [H1 H2]; [lia|].
      destruct (decide (author x = core_authority c)) as [Hs|Hs].
      - specialize (H1 Hs). subst x. change (round own) with (last_proposed c) in Hri. split; [|by left].
        change (round own) with (last_proposed c). lia.
      - assert (reference x ∈ taken_includes r c) as Hin'.
        { eapply (co_pending_order _ _ Hc _ A); [exact Hsplit|done|done| |done].
          change (ref_round (reference x)) with (round x). lia. }
        split; [|by right]. apply taken_round in Hin'.
        change (ref_round (reference x)) with (round x) in Hin'. lia. }
    exists (parents_at A (round A - 1)). split; [apply (wf_quorum _ _ _ Hwf); lia|].
    intros a (i & -> & Hri%N.eqb_eq & Hin)%elem_of_authors_of. exists i. split; [done|]. by apply Hpar.
Qed.

(** What the taken blocks refer to. *)
Lemma references_in_ok taken :
  (∀ i, i ∈ omap include_of taken → is_Some (V !! i)) →
  ∃ l, references_in (core_reader c) taken = Ok l ∧
    ∀ j, j ∈ l → ∃ i x, i ∈ omap include_of taken ∧ V !! i = Some x ∧ j ∈ includes x.
Proof.
  induction taken as [|[p [i|txs]] taken IH]; intros Hin; simpl; [exists []; set_solver| |].
  - destruct IH as (l & Hl & Hspec); [intros j Hj; apply Hin; csimpl; set_solver|].
    destruct (Hin i) as [x Hx]; [csimpl; set_solver|].
    assert (get_block (core_reader c) i = Ok (Some x)) as Hg.
    { simpl. rewrite (st_get_block_spec _ _ (sto_repr _ _ (co_storage _ _ Hc))). by f_equal. }
    simpl in Hg. rewrite Hg. simpl. rewrite Hl. simpl. eexists. split; [done|].
    intros j [Hj|Hj]%elem_of_app.
    + exists i, x. csimpl. set_solver.
    + destruct (Hspec j Hj) as (i' & x' & H1 & H2 & H3). exists i', x'. csimpl. set_solver.
  - destruct IH as (l & Hl & Hspec); [done|]. exists l. by split.
Qed.

Section Block.
Context (refs : list BlockReference)
  (Hrefs : ∀ j, j ∈ refs → ∃ i x, i ∈ taken_includes r c ∧ V !! i = Some x ∧ j ∈ includes x)
  (b : Block) (Hba : author b = core_authority c) (Hbr : round b = r)
  (Hbi : includes b = reference own :: filter (λ i, i ∉ includes own ++ refs) (taken_includes r c)).

Lemma own_wf : well_formed C q own.
Proof. apply (co_wf _ _ Hc), view_exist, (co_own _ _ Hc). Qed.

(** References the proposal leaves out are too old to be parents. *)
Lemma references_old j : j ∈ includes own ++ refs → (ref_round j < r - 1)%N.
Proof.
  intros [Hj|Hj]%elem_of_app.
  - apply (wf_includes _ _ _ own_wf) in Hj as [_ Hj]. change (round own) with (last_proposed c) in Hj. lia.
  - destruct (Hrefs j Hj) as (i & x & Hi & Hx & Hjx). pose proof (core_keys _ _ _ _ Hc Hx) as <-.
    apply taken_round in Hi. change (ref_round (reference x)) with (round x) in Hi.
    pose proof (wf_includes _ _ _ (co_wf _ _ Hc x (view_exist x Hx)) j Hjx) as [_ Hlt]. lia.
Qed.

Lemma proposal_includes i :
  i ∈ includes b → (i = reference own ∨ i ∈ taken_includes r c) ∧ (∃ x, V !! i = Some x ∧ reference x = i) ∧
    known C (ref_authority i) ∧ (ref_round i < r)%N.
Proof.
  rewrite Hbi. intros Hi.
  assert (i = reference own ∨ i ∈ taken_includes r c) as Hor.
  { apply elem_of_cons in Hi as [?|[_ ?]%list_elem_of_filter]; auto. }
  split; [done|]. destruct Hor as [->|Hi'].
  - destruct (co_own _ _ Hc) as [Ho Ha]. split_and!; [by exists own| |].
    + change (known C (author own)). rewrite Ha. apply (co_self _ _ Hc).
    + exact Hr.
  - destruct (co_pending_in _ _ Hc i) as [x Hx]; [rewrite (pending_split r); set_solver|].
    pose proof (core_keys _ _ _ _ Hc Hx) as Hk. split_and!; [by exists x| |by eapply taken_round].
    rewrite <- Hk. apply (wf_author _ _ _ (co_wf _ _ Hc x (view_exist x (eq_trans (f_equal (V !!.) Hk) Hx)))).
Qed.

Lemma proposal_wf : well_formed C q b.
Proof.
  split.
  - rewrite Hba. apply (co_self _ _ Hc).
  - intros i Hi. rewrite Hbr. by apply proposal_includes in Hi as (_ & _ & ? & ?).
  - intros _. rewrite Hbr. destruct parents_taken as (X & HX & Hall). etrans; [exact HX|].
    apply stake_of_mono. intros a _ Ha. destruct (Hall a Ha) as (i & <- & Hri & Hor).
    apply elem_of_authors_of. exists i. split_and!; [done|by apply N.eqb_eq|]. rewrite Hbi.
    destruct Hor as [->|Hi]; [apply elem_of_cons; by left|].
    apply elem_of_cons. right. apply list_elem_of_filter. split; [|done].
    intros Hj%references_old. lia.
Qed.

Lemma proposal_fresh : V !! reference b = None.
Proof.
  destruct (V !! reference b) as [x|] eqn:E; [exfalso|done].
  pose proof (core_keys _ _ _ _ Hc E) as Hk. rewrite <- Hk in E.
  destruct (co_own_all _ _ Hc x (view_exist x E)) as (_ & Hle & _).
  - unfold author. rewrite Hk. exact Hba.
  - unfold round in Hle. rewrite Hk in Hle. change (ref_round (reference b)) with (round b) in Hle. lia.
Qed.

(** The invariant after the proposal, if nobody referred to the block before it existed. *)
Lemma proposal_ok t st h d :
  (∀ x, Q x → reference b ∉ includes x) →
  own_block d = b → storage_ok C st → wal_view (wal st) = <[reference b := b]> V →
  clock_ok C q (<[reference b := b]> V) t →
  core_ok (λ x, Q x ∨ x = b) (set_proposed (rest_at r c) d h t st c).
Proof.
  intros Hni Hd Hst Hview Ht. set (c' := set_proposed _ _ _ _ _ _).
  assert (core_view c' = <[reference b := b]> V) as Hv by exact Hview.
  assert (last_proposed c' = r) as Hl by (unfold last_proposed; simpl; by rewrite Hd).
  assert (V ⊆ <[reference b := b]> V) as Hsub by (apply insert_subseteq, proposal_fresh).
  assert (∀ x, x ≠ b → <[reference b := b]> V !! reference x = Some x → V !! reference x = Some x) as Hback.
  { intros x Hne [[_ ?]|[_ ?]]%lookup_insert_Some; congruence. }
  assert (∀ y x, blocks_pending (block_manager c) !! y = Some x → Q x) as Hpq.
  { intros y x Hx. apply (co_exist _ _ Hc). right. by exists y. }
  split; try apply Hc; rewrite ?Hv, ?Hl; unfold c'; cbn [core_committee committer core_authority
    block_manager threshold_clock storage last_own_block set_proposed]; try done.
  - apply manager_ok_insert; [apply (co_manager _ _ Hc)| |].
    + destruct (blocks_pending (block_manager c) !! reference b) as [x|] eqn:E; [exfalso|done].
      destruct (man_pending _ _ _ _ (co_manager _ _ Hc) _ _ E) as (Hk & _).
      destruct (co_own_all _ _ Hc x (Hpq _ _ E)) as (_ & Hle & _).
      * unfold author. rewrite Hk. exact Hba.
      * unfold round in Hle. rewrite Hk in Hle. change (ref_round (reference b)) with (round b) in Hle. lia.
    + intros y x Hx. by eapply Hni, Hpq.
  - intros x [Hx|[y Hx]]; [|left; by eapply Hpq].
    destruct (decide (x = b)) as [->|Hne]; [by right|left]. by apply view_exist, Hback.
  - intros x [Hx| ->]; [by apply (co_wf _ _ Hc)|apply proposal_wf].
  - intros y x i [[_ <-]|[_ Hx]]%lookup_insert_Some Hi; apply lookup_insert_is_Some'; right.
    + apply proposal_includes in Hi as (_ & (z & Hz & _) & _). by exists z.
    + by eapply (co_closed _ _ Hc).
  - rewrite Hd. split; [apply lookup_insert_eq|done].
  - intros x [Hx| ->] Ha; [|rewrite Hbr, Hd; split_and!; [apply lookup_insert_eq|done|done]].
    destruct (co_own_all _ _ Hc x Hx Ha) as (H1 & H2 & _).
    split_and!; [by eapply lookup_weaken|lia|intros; lia].
  - intros i Hi. destruct (co_pending_in _ _ Hc i) as [x Hx].
    { rewrite (pending_split r). apply elem_of_app. by right. }
    exists x. by eapply lookup_weaken.
  - intros x Hx Ha Hrx. assert (x ≠ b) as Hne by congruence.
    assert (reference x ∈ pending_includes c) as Hin.
    { apply (co_pending_all _ _ Hc); [by apply Hback|done|lia]. }
    rewrite (pending_split r) in Hin. apply elem_of_app in Hin as [Hin|Hin]; [|done].
    apply taken_round in Hin. change (ref_round (reference x)) with (round x) in Hin. lia.
  - intros pre x post Heq Hx i Hi Hri Ha.
    assert (pending_includes c = (taken_includes r c ++ pre) ++ reference x :: post) as Heq'.
    { rewrite (pending_split r), <- app_assoc. f_equal. exact Heq. }
    assert (V !! reference x = Some x) as HxV.
    { destruct (co_pending_in _ _ Hc (reference x)) as [y Hy]; [rewrite Heq'; set_solver|].
      pose proof (lookup_weaken _ _ _ _ Hy Hsub) as Hy'. congruence. }
    assert (i ∈ taken_includes r c ++ pre) as [Hin|Hin]%elem_of_app; [|apply taken_round in Hin; lia|done].
    eapply (co_pending_order _ _ Hc); [exact Heq'|done|done|lia|done].
Qed.
End Block.
End Propose.

(** A proposal is a valid block on top of our last one, for a later round. *)
Record proposed (c : Core) (b : Block) : Prop := {
  prop_author : author b = core_authority c;
  prop_round : round b = clock_round (threshold_clock c) ∧ (last_proposed c < round b)%N;
  prop_first : ∃ incs, includes b = reference (own_block (last_own_block c)) :: incs;
  prop_valid : well_formed (core_committee c) (committer_quorum_threshold (committer c)) b
}.

Lemma block_new_fields a r incs txs ts e :
  let b := block_new a r incs txs ts e in author b = a ∧ round b = r ∧ includes b = incs.
Proof. unfold block_new. by destruct (crypto_sign e a r incs txs ts). Qed.

(** What is proposed was made by [Block::new]. *)
Lemma try_new_block_signed c time_ns c' b :
  try_new_block serialized_len time_ns c = Ok (c', Some b) →
  ∃ a r incs txs ts, b = block_new a r incs txs ts (crypto c).
Proof.
  unfold try_new_block. destruct (_ <=? _)%N; [done|]. intros Heq. inv_ok Heq. eauto 10.
Qed.

(** The one way a proposal can fail is the panic on an oversized block. *)
Lemma try_new_block_ok Q c time_ns :
  core_ok Q c →
  match try_new_block serialized_len time_ns c with
  | Ok (c', None) => c' = c ∧ (clock_round (threshold_clock c) ≤ last_proposed c)%N
  | Ok (c', Some b) =>
      (serialized_len b ≤ MAX_ENTRY_SIZE / 2)%N ∧
      proposed c b ∧ core_view c' = <[reference b := b]> (core_view c) ∧
      own_block (last_own_block c') = b ∧
      ((∀ x, Q x → reference b ∉ includes x) → core_ok (λ x, Q x ∨ x = b) c')
  | Err e => e = "Created an oversized block" ∧
      ∃ b, proposed c b ∧ (MAX_ENTRY_SIZE / 2 < serialized_len b)%N
  end.
Proof.
  intros Hc. unfold try_new_block.
  destruct (N.leb_spec (clock_round (threshold_clock c)) (last_proposed c)) as [Hle|Hr]; [done|].
  destruct (references_in_ok Q c Hc Hr (taken_at (clock_round (threshold_clock c)) c)) as (refs & Hrefs & Hspec).
  { intros i Hi. apply (co_pending_in _ _ Hc). rewrite (pending_split (clock_round (threshold_clock c))).
    apply elem_of_app. by left. }
  unfold taken_at in Hrefs. rewrite Hrefs. cbn [result_bind].
  set (b := block_new _ _ _ _ _ _).
  pose proof (block_new_fields (core_authority c) (clock_round (threshold_clock c))
    (reference (own_block (last_own_block c)) :: filter (λ i, i ∉ includes (own_block (last_own_block c)) ++ refs)
      (taken_includes (clock_round (threshold_clock c)) c))
    (concat (map payload_of (taken_at (clock_round (threshold_clock c)) c))) time_ns (crypto c)) as Hf.
  change (block_new _ _ _ _ _ _) with b in Hf. destruct Hf as (Hba & Hbr & Hbi).
  destruct (co_own _ _ Hc) as [_ Hoa].
  rewrite bool_decide_true by exact Hoa. cbn [ensure result_bind].
  pose proof (proposal_wf Q c Hc Hr refs Hspec b Hba Hbr Hbi) as Hwf.
  assert (proposed c b) as Hprop by (split; [done|split; [done|lia]|by eexists|done]).
  destruct (N.leb_spec (serialized_len b) (MAX_ENTRY_SIZE / 2)) as [Hlen|Hlen]; cbn [ensure result_bind];
    [|by split; [|exists b]].
  pose proof (proposal_fresh Q c Hc Hr b Hba Hbr) as Hfresh.
  assert (core_view c ⊆ <[reference b := b]> (core_view c)) as Hsub by (by apply insert_subseteq).
  destruct (insert_own_block_ok (core_committee c) (storage c)
    {| next_entry := match rest_at (clock_round (threshold_clock c)) c with (pos, _) :: _ => pos | [] => WAL_MAX end;
       own_block := b |}) as (st & Hst & Hsok & Hwal & Hview);
    [apply (co_storage _ _ Hc)|apply (wf_author _ _ _ Hwf)|].
  destruct (clock_add_block_ok (core_committee c) (committer_quorum_threshold (committer c))
    (<[reference b := b]> (core_view c)) (threshold_clock c) b) as (t & -> & Ht & _);
    [apply (co_quorum _ _ Hc)| |apply lookup_insert_eq| |done|eapply clock_ok_mono; [done|apply (co_clock _ _ Hc)]|].
  { intros y x [[<- <-]|[_ Hx]]%lookup_insert_Some; [done|by eapply core_keys]. }
  { intros i Hi. destruct (proposal_includes Q c Hc Hr refs Hspec b Hba Hbr Hbi i Hi) as (_ & (x & Hx & _) & _).
    exists x. by eapply lookup_weaken. }
  cbn [result_bind]. unfold rest_at in Hst. rewrite Hst. cbn [result_bind].
  split_and!; [exact Hlen|exact Hprop|exact Hview|done|].
  intros Hni. by apply (proposal_ok Q c Hc Hr refs Hspec b).
Qed.
End Operations.

(** ** A fresh start *)

(** The blocks that exist before any proposal. *)
Definition genesis (C : Committee) (b : Block) : Prop := known C (author b) ∧ b = block_genesis (author b).

Lemma genesis_wf C q b : genesis C b → well_formed C q b.
Proof.
  intros [Hk ->]. split; [done| |]; simpl.
  - intros i []%not_elem_of_nil.
  - unfold round. simpl. unfold GENESIS_ROUND. lia.
Qed.

Lemma genesis_new C a : known C a → genesis C (block_genesis a).
Proof. done. Qed.

Lemma genesis_same C b b' : genesis C b → genesis C b' → author b = author b' → b = b'.
Proof. intros [_ ->] [_ ->]. unfold author. simpl. by intros ->. Qed.

Definition genesis_view (C : Committee) (V : gmap BlockReference Block) : Prop :=
  ∀ r b, V !! r = Some b → genesis C b ∧ reference b = r.

Lemma genesis_view_insert C V b :
  genesis_view C V → genesis C b → genesis_view C (<[reference b := b]> V) ∧ V ⊆ <[reference b := b]> V.
Proof.
  intros HV Hb. split.
  - intros r x [[<- <-]|[_ Hx]]%lookup_insert_Some; [done|by apply HV].
  - apply map_subseteq_spec. intros r x Hx. destruct (HV r x Hx) as [Hg Hr].
    destruct (decide (r = reference b)) as [->|Hne]; [|by rewrite lookup_insert_ne].
    rewrite lookup_insert_eq. f_equal. apply (genesis_same C); [done|done|].
    unfold author. by rewrite Hr.
Qed.

Lemma open_genesis_ok C q bs t st p :
  (0 < q)%N → Forall (genesis C) bs → storage_ok C st → genesis_view C (wal_view (wal st)) →
  clock_ok C q (wal_view (wal st)) t →
  ∃ t' st' p', open_genesis bs C t st p = Ok (t', st', p') ∧ storage_ok C st' ∧
    genesis_view C (wal_view (wal st')) ∧ clock_ok C q (wal_view (wal st')) t' ∧
    omap include_of p' = omap include_of p ++ map reference bs ∧
    wal_view (wal st) ⊆ wal_view (wal st') ∧
    (∀ b, b ∈ bs → wal_view (wal st') !! reference b = Some b) ∧
    (∀ r b, wal_view (wal st') !! r = Some b → b ∈ bs ∨ wal_view (wal st) !! r = Some b).
Proof.
  intros Hq Hbs. revert t st p. induction Hbs as [|b bs Hb _ IH]; intros t st p Hst HV Ht; simpl.
  { exists t, st, p. rewrite app_nil_r. split_and!; try done; [set_solver|auto]. }
  destruct (insert_block_ok C st b Hst (proj1 Hb)) as (st1 & Hins & Hst1 & Hwal & Hview).
  destruct (genesis_view_insert C _ b HV Hb) as [HV1 Hsub]. rewrite <- Hview in HV1, Hsub.
  assert (∀ i, i ∈ includes b → is_Some (wal_view (wal st1) !! i)) as Hno.
  { rewrite (proj2 Hb). intros i []%not_elem_of_nil. }
  destruct (clock_add_block_ok C q (wal_view (wal st1)) t b) as (t1 & -> & Ht1 & _);
    [done|intros r x Hx; by apply HV1|by rewrite Hview, lookup_insert_eq|done|by apply genesis_wf
    |by eapply clock_ok_mono|].
  cbn [result_bind]. rewrite Hins. cbn [result_bind].
  edestruct (IH t1 st1 (p ++ [(N.of_nat (length (wal st)), Include (reference b))]))
    as (t' & st' & p' & -> & H1 & H2 & H3 & H4 & H5 & H6 & H7); [done..|].
  exists t', st', p'. split_and!; try done.
  - rewrite H4, omap_app. csimpl. by rewrite <- app_assoc.
  - by etrans.
  - intros x [->|Hx]%elem_of_cons; [|auto]. eapply lookup_weaken; [|done]. by rewrite Hview, lookup_insert_eq.
  - intros r x Hx. destruct (H7 r x Hx) as [?|Hx1]; [left; set_solver|].
    rewrite Hview in Hx1. apply lookup_insert_Some in Hx1 as [[_ <-]|[_ ?]]; [left; set_solver|by right].
Qed.

(** The state of a validator that starts with an empty log. *)
Lemma core_open_fresh_ok C a h cm e :
  committee_ok C → known C a → (0 < committer_quorum_threshold cm)%N →
  ∃ c, core_open h a C {| wal := []; store := store_new a C |} recovered_empty cm e = Ok c ∧
    core_ok (genesis C) c ∧ core_committee c = C ∧ core_authority c = a ∧ committer c = cm ∧ crypto c = e ∧
    last_proposed c = 0%N ∧ last_decided c = None.
Proof.
  intros HC Ha Hq. unfold core_open. cbn [rec_last_own_block recovered_empty rec_pending].
  rewrite bool_decide_true by done. cbn [ensure result_bind].
  destruct (storage_open_ok C a []) as (st0 & r0 & Hopen & Hst0 & Hw0); [constructor|].
  assert (st0 = {| wal := []; store := store_new a C |}) as -> by (by injection Hopen as <- _).
  set (others := map block_genesis (filter (λ x, x ≠ a) (authorities C))).
  assert (∀ b, b ∈ others ↔ genesis C b ∧ author b ≠ a) as Hothers.
  { intros b. unfold others. rewrite (list_elem_of_fmap block_genesis).
    setoid_rewrite list_elem_of_filter. setoid_rewrite elem_of_authorities. split.
    - intros (x & -> & Hx & Hk). split; [by apply genesis_new|done].
    - intros [[Hk Hb] Hx]. exists (author b). done. }
  destruct (open_genesis_ok C (committer_quorum_threshold cm) others
    (clock_new 0 (committer_quorum_threshold cm)) {| wal := []; store := store_new a C |} [])
    as (t1 & st1 & p1 & -> & Hst1 & HV1 & Ht1 & Hp1 & _ & Hin1 & Hnew1);
    [done| |done|intros r b; cbn; by rewrite lookup_empty|apply clock_new_ok|].
  { apply Forall_forall. intros b Hb. by apply Hothers in Hb as [? _]. }
  cbn [result_bind]. set (g := block_genesis a).
  assert (genesis C g) as Hg by (by apply genesis_new).
  destruct (insert_own_block_ok C st1 {| next_entry := WAL_MAX; own_block := g |} Hst1 Ha)
    as (st2 & Hins & Hst2 & _ & Hview2). cbn [own_block] in Hview2.
  destruct (genesis_view_insert C _ g HV1 Hg) as [HV2 Hsub]. rewrite <- Hview2 in HV2, Hsub.
  destruct (clock_add_block_ok C (committer_quorum_threshold cm) (wal_view (wal st2)) t1 g)
    as (t2 & -> & Ht2 & _);
    [done|intros r x Hx; by apply HV2|by rewrite Hview2, lookup_insert_eq| |by apply genesis_wf
    |by eapply clock_ok_mono|].
  { intros i []%not_elem_of_nil. }
  cbn [result_bind]. rewrite Hins. cbn [result_bind].
  eexists. split; [by rewrite bool_decide_true|]. split; [|done].
  assert (∀ b, genesis C b → wal_view (wal st2) !! reference b = Some b) as Hall.
  { intros b Hb. destruct (decide (author b = a)) as [Hba|Hba].
    - rewrite (genesis_same C b g) by done. by rewrite Hview2, lookup_insert_eq.
    - eapply lookup_weaken; [|done]. apply Hin1, Hothers. done. }
  assert (∀ b, genesis C b → includes b = []) as Hinc by (by intros b [_ ->]).
  split; cbn [core_committee committer core_authority storage block_manager threshold_clock
    last_own_block own_block]; try done; unfold core_view, pending_includes, last_proposed; cbn [storage pending
    last_own_block own_block].
  - apply manager_new_ok.
  - intros b [Hb|[r Hb]]; [by apply HV2 in Hb as [? _]|]. simpl in Hb. by rewrite lookup_empty in Hb.
  - intros b Hb. by apply genesis_wf.
  - intros r b i Hb Hi. apply HV2 in Hb as [Hb _]. rewrite Hinc in Hi by done. by apply not_elem_of_nil in Hi.
  - split; [by apply Hall|done].
  - intros b Hb Hba. split_and!; [by apply Hall|by rewrite (genesis_same C b g)|].
    intros _. by apply (genesis_same C).
  - rewrite Hp1. intros i (b & -> & Hb)%(list_elem_of_fmap reference). exists b.
    by apply Hall, Hothers.
  - rewrite Hp1. intros b Hb Hba _. apply (list_elem_of_fmap reference). exists b. split; [done|].
    apply Hothers. by apply HV2 in Hb as [? _].
  - intros pre b post _ Hb i Hi. apply HV2 in Hb as [Hb _]. rewrite Hinc in Hi by done.
    by apply not_elem_of_nil in Hi.
Qed.

(** ** What no operation on blocks changes *)

Record same_frame (c c' : Core) : Prop := {
  frame_committee : core_committee c' = core_committee c;
  frame_committer : committer c' = committer c;
  frame_authority : core_authority c' = core_authority c;
  frame_decided : last_decided c' = last_decided c;
  frame_crypto : crypto c' = crypto c
}.

Lemma run_block_handler_frame c : same_frame c (run_block_handler c).
Proof.
  unfold run_block_handler. destruct (handle_blocks _). by destruct (write_payload _ _).
Qed.

Lemma core_add_blocks_frame order blocks c c' new :
  core_add_blocks order blocks c = Ok (c', new) → same_frame c c'.
Proof.
  unfold core_add_blocks. destruct (manager_add_blocks _ _ _ _) as [[[m st] l]|]; [|done]. cbn [result_bind].
  destruct (clock_add_processed _ _ _) as [t|]; [|done]. cbn [result_bind]. intros [= <- _].
  destruct (run_block_handler_frame (set_received m
    (pending c ++ map (λ pb, (pb.1, Include (reference pb.2))) l) t st c)). done.
Qed.

Lemma try_new_block_frame `{BlockCrypto} len time_ns c c' o :
  try_new_block len time_ns c = Ok (c', o) → same_frame c c'.
Proof.
  unfold try_new_block. case_match; [by intros [= <- <-]|]. intros Heq. by inv_ok Heq.
Qed.
