(* ===== verification/DagRecovery.v ===== *)
(** * Restart from the log

    The log holds enough to restart a validator: the pending statements and the
    last own block that [RecoveredStateBuilder] rebuilds are those the core had,
    and the reopened core satisfies the invariant again, so it never proposes
    twice for one round. What the log does not bring back is shown too: the own
    block's vote in the threshold clock, and the pending genesis blocks of a
    validator that stopped before its first proposal. *)

From S2P Require Import Prelude Order Committee DagBlock DagStore DagStoreTheorems Protocol Committer.
From S2P Require Import Linearizer BlockManager DagCore DagCoreTheorems.
From stdpp Require Import base gmap list strings sorting.
From Stdlib Require Import NArith ZArith Lia.

(** ** The state the log describes *)

Fixpoint recover_from (pos : WalPosition) (w : list WalEntry) (r : RecoveredState) : RecoveredState :=
  match w with
  | [] => r
  | e :: w => recover_from (pos + 1) w (recover_entry pos e r)
  end.
Definition recover_log (w : list WalEntry) : RecoveredState := recover_from 0 w recovered_empty.

Lemma replay_recover pos w s r s' r' : replay pos w (s, r) = Ok (s', r') → r' = recover_from pos w r.
Proof.
  revert pos s r. induction w as [|e w IH]; intros pos s r; simpl; [by intros [= _ <-]|].
  destruct (recover_store pos e s); simpl; [|done]. apply IH.
Qed.

Lemma recover_from_app pos w w' r :
  recover_from pos (w ++ w') r = recover_from (pos + N.of_nat (length w)) w' (recover_from pos w r).
Proof.
  revert pos r. induction w as [|e w IH]; intros pos r; simpl; [by rewrite N.add_0_r|].
  rewrite IH. f_equal. lia.
Qed.

Lemma recover_log_app w w' :
  recover_log (w ++ w') = recover_from (N.of_nat (length w)) w' (recover_log w).
Proof. unfold recover_log. by rewrite recover_from_app. Qed.

Lemma storage_open_log C a w st r : storage_open a C w = Ok (st, r) → r = recover_log w ∧ wal st = w.
Proof.
  unfold storage_open. destruct (replay 0 w _) as [[s r0]|] eqn:E; [|done]. simpl. intros [= <- <-].
  by apply replay_recover in E.
Qed.

(** ** The log matches the core *)

(** The pending statements are those of the log, after genesis blocks that only a
    core without a proposal still has; positions increase and lie in the log. *)
Record log_ok (c : Core) : Prop := {
  log_own : rec_last_own_block (recover_log (wal (storage c))) = Some (last_own_block c);
  log_pending : ∃ gen, pending c = gen ++ rec_pending (recover_log (wal (storage c))) ∧
    Forall (λ ps, ∃ i, ps.2 = Include i ∧ ref_round i = 0%N) gen ∧ ((0 < last_proposed c)%N → gen = []);
  log_sorted : StronglySorted (λ x y, (x.1 < y.1)%N) (pending c);
  log_inside : Forall (λ ps, (ps.1 < N.of_nat (length (wal (storage c))))%N) (pending c)
}.

Lemma log_ok_ext c c' :
  log_ok c → wal (storage c') = wal (storage c) → last_own_block c' = last_own_block c →
  pending c' = pending c → log_ok c'.
Proof.
  intros [H1 H2 H3 H4] E1 E2 E3. unfold last_proposed in *.
  split; unfold last_proposed; rewrite ?E1, ?E2, ?E3; done.
Qed.

Lemma sorted_snoc {A} (P : A → A → Prop) l x :
  StronglySorted P l → Forall (λ y, P y x) l → StronglySorted P (l ++ [x]).
Proof.
  induction 1 as [|y l Hs IH HF]; simpl; [by repeat constructor|]. intros [Hy Hl]%Forall_cons.
  constructor; [auto|]. apply Forall_app. split; [done|by constructor].
Qed.

(** Statements written to the log and pushed to the pending list together. *)
Lemma log_push c c' e s :
  log_ok c → wal_block e = None ∨ (∃ b, e = WalBlock b) →
  (∀ r, recover_entry (N.of_nat (length (wal (storage c)))) e r
        = {| rec_last_own_block := rec_last_own_block r;
             rec_pending := rec_pending r ++ [(N.of_nat (length (wal (storage c))), s)];
             unprocessed_blocks := unprocessed_blocks (recover_entry (N.of_nat (length (wal (storage c)))) e r);
             last_committed_leader := last_committed_leader r; committed_blocks := committed_blocks r |}) →
  wal (storage c') = wal (storage c) ++ [e] → last_own_block c' = last_own_block c →
  pending c' = pending c ++ [(N.of_nat (length (wal (storage c))), s)] →
  log_ok c'.
Proof.
  intros [Ho (gen & Hp & Hg & Hl) Hs Hi] He Hrec Hw Hown Hpend. unfold last_proposed in *.
  assert (recover_log (wal (storage c'))
    = recover_entry (N.of_nat (length (wal (storage c)))) e (recover_log (wal (storage c)))) as Hlog.
  { by rewrite Hw, recover_log_app. }
  split.
  - by rewrite Hlog, Hrec, Hown.
  - exists gen. rewrite Hlog, Hrec. cbn [rec_pending]. rewrite Hpend, Hp, <- app_assoc.
    unfold last_proposed. by rewrite Hown.
  - rewrite Hpend. apply sorted_snoc; [done|]. exact Hi.
  - rewrite Hpend, Hw, length_app. apply Forall_app. split.
    + eapply Forall_impl; [exact Hi|]. simpl. lia.
    + constructor; [simpl; lia|done].
Qed.

Lemma run_block_handler_log c : log_ok c → log_ok (run_block_handler c).
Proof.
  intros Hc. unfold run_block_handler. destruct (handle_blocks (block_handler c)) as [txs h].
  eapply (log_push c _ (WalPayload txs) (Payload txs)); [done|by left|done|done|done|done].
Qed.

Lemma add_processed_log c m t st new :
  log_ok c → wal st = wal (storage c) ++ map (λ pb : WalPosition * Block, WalBlock pb.2) new →
  (∀ k pb, new !! k = Some pb → pb.1 = N.of_nat (length (wal (storage c)) + k)) →
  log_ok (set_received m (pending c ++ map (λ pb, (pb.1, Include (reference pb.2))) new) t st c).
Proof.
  revert st. induction new as [|[p b] new IH] using rev_ind; intros st Hc Hw Hpos.
  { simpl in *. rewrite app_nil_r in *. destruct Hc as [H1 H2 H3 H4].
    split; simpl; rewrite ?Hw; done. }
  rewrite map_app, app_assoc in Hw |- *.
  set (st0 := {| wal := wal (storage c) ++ map (λ pb : WalPosition * Block, WalBlock pb.2) new; store := store st |}).
  assert (log_ok (set_received m (pending c ++ map (λ pb, (pb.1, Include (reference pb.2))) new) t st0 c)) as Hc0.
  { apply IH; [done|done|]. intros k pb Hk. apply Hpos. by apply lookup_app_l_Some. }
  assert (p = N.of_nat (length (wal st0))) as ->.
  { unfold st0. cbn [wal]. rewrite length_app, length_map.
    apply (Hpos (length new) (p, b)). rewrite lookup_app_r by lia. by rewrite Nat.sub_diag. }
  eapply (log_push _ _ (WalBlock b) (Include (reference b))); [exact Hc0|right; by eexists|done|exact Hw|done|done].
Qed.

Lemma insert_own_block_wal d st st' : insert_own_block d st = Ok st' → wal st' = wal st ++ [WalOwnBlock d].
Proof.
  unfold insert_own_block, wal_write. simpl. intros Heq. inv_ok Heq. done.
Qed.

Lemma insert_block_wal b st st' pos :
  insert_block b st = Ok (st', pos) → wal st' = wal st ++ [WalBlock b] ∧ pos = N.of_nat (length (wal st)).
Proof. unfold insert_block, wal_write. simpl. intros Heq. inv_ok Heq. done. Qed.

Lemma take_while_app_all {A} (q : A → bool) l k :
  Forall (λ x, q x = true) l → take_while q (l ++ k) = l ++ take_while q k ∧ skip_while q (l ++ k) = skip_while q k.
Proof. induction 1 as [|x l Hx _ [IH1 IH2]]; simpl; [done|]. rewrite Hx, IH1, IH2. done. Qed.

(** Dropping the entries before the first of the rest drops what was taken. *)
Lemma filter_next (taken rest : list (WalPosition * MetaStatement)) :
  StronglySorted (λ x y, (x.1 < y.1)%N) (taken ++ rest) →
  Forall (λ ps, (ps.1 < WAL_MAX)%N) (taken ++ rest) →
  filter (λ ps, (match rest with (pos, _) :: _ => pos | [] => WAL_MAX end ≤ ps.1)%N) (taken ++ rest) = rest.
Proof.
  intros Hs Hm. set (next := match rest with (pos, _) :: _ => pos | [] => WAL_MAX end).
  induction taken as [|x taken IH]; simpl in *.
  - unfold next. destruct rest as [|[pos s] rest]; [done|]. apply StronglySorted_inv in Hs as [_ HF].
    rewrite filter_cons_True by (simpl; lia). f_equal. clear Hm.
    induction HF as [|y rest Hy _ IH]; [done|]. simpl in Hy. rewrite filter_cons_True by lia. by f_equal.
  - apply StronglySorted_inv in Hs as [Hs HF]. apply Forall_cons in Hm as [Hx Hm].
    rewrite filter_cons_False; [auto|]. unfold next. destruct rest as [|[pos s] rest]; [lia|].
    rewrite Forall_forall in HF. specialize (HF (pos, s)). simpl in HF.
    assert (x.1 < pos)%N by (apply HF; set_solver). lia.
Qed.

Lemma try_new_block_log `{BlockCrypto} len time_ns c c' o :
  log_ok c → (N.of_nat (length (wal (storage c))) < WAL_MAX)%N →
  try_new_block len time_ns c = Ok (c', o) → log_ok c'.
Proof.
  intros Hc Hm. unfold try_new_block. destruct (N.leb_spec (clock_round (threshold_clock c)) (last_proposed c)) as [Hle|Hr].
  { by intros [= <- _]. }
  destruct (references_in _ _) as [refs|]; [|done]. cbn [result_bind]. set (b := block_new _ _ _ _ _ _).
  assert (round b = clock_round (threshold_clock c)) as Hbr by apply block_new_fields.
  destruct (ensure _ _); [|done]. cbn [result_bind]. destruct (ensure _ _); [|done]. cbn [result_bind].
  destruct (clock_add_block _ _ _) as [t|]; [|done]. cbn [result_bind].
  destruct (insert_own_block _ _) as [st|] eqn:Hins; [|done]. cbn [result_bind]. intros [= <- _].
  apply insert_own_block_wal in Hins. destruct Hc as [Ho (gen & Hp & Hg & _) Hs Hi].
  set (recp := rec_pending (recover_log (wal (storage c)))) in *.
  assert (Forall (λ ps, before_round (clock_round (threshold_clock c)) ps = true) gen) as Hgb.
  { eapply Forall_impl; [exact Hg|]. intros [p s] (i & Hsi & Hi0). simpl in Hsi. subst s.
    unfold before_round. simpl. rewrite Hi0. apply negb_true_iff, N.leb_gt. lia. }
  destruct (take_while_app_all _ gen recp Hgb) as [_ Hskip]. rewrite Hp in Hs, Hi, Hins |- *.
  rewrite Hskip in Hins |- *.
  set (rest := skip_while _ recp) in *. set (tk := take_while (before_round (clock_round (threshold_clock c))) recp).
  assert (recp = tk ++ rest) as Hrec by (symmetry; apply take_skip_while).
  rewrite Hrec in Hs, Hi. apply Forall_app in Hi as [_ Hi]. pose proof Hi as Hi'. apply Forall_app in Hi' as [_ Hir].
  assert (StronglySorted (λ x y : WalPosition * MetaStatement, (x.1 < y.1)%N) (tk ++ rest)) as Hs1.
  { clear -Hs. induction gen as [|x gen IH]; [done|]. apply StronglySorted_inv in Hs as [Hs _]. auto. }
  assert (StronglySorted (λ x y : WalPosition * MetaStatement, (x.1 < y.1)%N) rest) as Hs2.
  { clear -Hs1. induction tk as [|x tk IH]; [done|]. apply StronglySorted_inv in Hs1 as [Hs1 _]. auto. }
  split; cbn [storage set_proposed last_own_block pending].
  - rewrite Hins, recover_log_app. done.
  - exists []. split_and!; [|done|done]. rewrite Hins, recover_log_app. cbn [recover_from recover_entry rec_pending app].
    cbn [next_entry]. fold recp. rewrite Hrec. symmetry. apply filter_next; [done|].
    eapply Forall_impl; [exact Hi|]. simpl. lia.
  - done.
  - rewrite Hins, length_app. eapply Forall_impl; [exact Hir|]. simpl. lia.
Qed.

(** ** A fresh log *)

Lemma open_genesis_log bs C t st p t' st' p' :
  open_genesis bs C t st p = Ok (t', st', p') →
  StronglySorted (λ x y, (x.1 < y.1)%N) p → Forall (λ ps, (ps.1 < N.of_nat (length (wal st)))%N) p →
  Forall (λ b, round b = 0%N) bs → Forall (λ ps, ∃ i, ps.2 = Include i ∧ ref_round i = 0%N) p →
  wal st' = wal st ++ map WalBlock bs ∧ StronglySorted (λ x y, (x.1 < y.1)%N) p' ∧
  Forall (λ ps, (ps.1 < N.of_nat (length (wal st')))%N) p' ∧
  Forall (λ ps, ∃ i, ps.2 = Include i ∧ ref_round i = 0%N) p'.
Proof.
  revert t st p. induction bs as [|b bs IH]; intros t st p; simpl.
  { intros [= <- <- <-]. by rewrite app_nil_r. }
  destruct (clock_add_block _ _ _) as [t1|]; [|done]. cbn [result_bind].
  destruct (insert_block b st) as [[st1 pos]|] eqn:E; [|done]. cbn [result_bind].
  apply insert_block_wal in E as [Hw ->]. intros Heq Hs Hi Hb Hp. apply Forall_cons in Hb as [Hb0 Hb].
  destruct (IH _ _ _ Heq) as (H1 & H2 & H3 & H4); [by apply sorted_snoc| |done| |].
  - rewrite Hw, length_app. apply Forall_app. split; [eapply Forall_impl; [exact Hi|]; simpl; lia|].
    constructor; [simpl; lia|done].
  - apply Forall_app. split; [done|]. constructor; [|done]. by exists (reference b).
  - split_and!; [|done..]. by rewrite H1, Hw, <- app_assoc.
Qed.

Lemma recover_pending_blocks pos bs r :
  rec_pending r = [] → (pos + N.of_nat (length bs) < WAL_MAX)%N →
  Forall (λ ps, (ps.1 < WAL_MAX)%N) (rec_pending (recover_from pos (map WalBlock bs) r)).
Proof.
  intros Hr. assert (Forall (λ ps, (ps.1 < WAL_MAX)%N) (rec_pending r)) as HF by (by rewrite Hr).
  clear Hr. revert pos r HF. induction bs as [|b bs IH]; intros pos r HF Hlt; simpl in *; [done|].
  apply IH; [|lia]. simpl. apply Forall_app. split; [done|]. constructor; [simpl; lia|done].
Qed.

Lemma core_open_fresh_log C a h cm e c :
  committee_ok C →
  core_open h a C {| wal := []; store := store_new a C |} recovered_empty cm e = Ok c → log_ok c.
Proof.
  intros HC. unfold core_open. cbn [rec_last_own_block recovered_empty rec_pending].
  rewrite bool_decide_true by done. cbn [ensure result_bind].
  set (others := map block_genesis (filter (λ x, x ≠ a) (authorities C))).
  destruct (open_genesis others _ _ _ _) as [[[t st] p]|] eqn:E; [|done]. cbn [result_bind].
  destruct (clock_add_block _ _ _) as [t1|]; [|done]. cbn [result_bind].
  destruct (insert_own_block _ _) as [st1|] eqn:Hins; [|done]. cbn [result_bind].
  rewrite bool_decide_true by done. intros [= <-].
  apply insert_own_block_wal in Hins.
  apply open_genesis_log in E as (Hw & Hs & Hi & Hg); [|constructor|constructor| |constructor].
  2: { apply Forall_forall. intros b (x & -> & _)%(list_elem_of_fmap block_genesis). done. }
  simpl in Hw. assert (length others ≤ 128) as Hlen.
  { unfold others. rewrite length_map. etrans; [apply length_filter|].
    unfold authorities. rewrite length_map, length_seq. apply (ok_len _ HC). }
  assert (rec_pending (recover_log (wal st1)) = []) as Hrec.
  { rewrite Hins, recover_log_app. cbn [recover_from recover_entry rec_pending next_entry].
    pose proof (recover_pending_blocks 0 others recovered_empty eq_refl) as HF.
    assert (0 + N.of_nat (length others) < WAL_MAX)%N as Hm by (unfold WAL_MAX, u64_limit; lia).
    specialize (HF Hm). rewrite Hw. unfold recover_log.
    induction HF as [|x l Hx _ IH]; [done|]. by rewrite filter_cons_False by lia. }
  split; cbn [storage last_own_block pending].
  - by rewrite Hins, recover_log_app.
  - exists p. rewrite Hrec, app_nil_r. split_and!; [done|done|].
    unfold last_proposed, round. simpl. unfold GENESIS_ROUND. lia.
  - done.
  - rewrite Hins, length_app. eapply Forall_impl; [exact Hi|]. simpl. lia.
Qed.

(** ** Reopening *)

Lemma clock_add_pending_ok C q V t p :
  (0 < q)%N → (∀ r x, V !! r = Some x → reference x = r) →
  (∀ i, i ∈ omap include_of p → ∃ b, V !! i = Some b ∧ (∀ j, j ∈ includes b → is_Some (V !! j)) ∧
     well_formed C q b) →
  clock_ok C q V t →
  ∃ t', clock_add_pending t p C = Ok t' ∧ clock_ok C q V t'.
Proof.
  intros Hq Hk. revert t. induction p as [|[pos [i|txs]] p IH]; intros t Hall Ht; simpl; [by exists t| |by apply IH].
  destruct (Hall i) as (b & Hb & Hi & Hwf); [csimpl; set_solver|]. pose proof (Hk _ _ Hb) as <-.
  destruct (clock_add_block_ok C q V t b) as (t1 & -> & Ht1 & _); [done..|]. cbn [result_bind].
  apply IH; [|done]. intros j Hj. apply Hall. csimpl. set_solver.
Qed.

Lemma recovered_own_unprocessed w d :
  rec_last_own_block (recover_log w) = Some d → unprocessed_blocks (recover_log w) ≠ [].
Proof.
  induction w as [|e w IH] using rev_ind; [done|]. rewrite recover_log_app. cbn [recover_from].
  destruct e; cbn [recover_entry rec_last_own_block unprocessed_blocks]; try done;
    intros Hd; try (by apply IH); intros Happ; apply (app_eq_nil _ _) in Happ as [_ ?]; done.
Qed.

(** The core after a restart. *)
Definition restart (h : BlockHandler) (c : Core) : result Core :=
  let? ' (st, r) := storage_open (core_authority c) (core_committee c) (wal (storage c)) in
  core_open h (core_authority c) (core_committee c) st r (committer c) (crypto c).

Lemma restart_ok Q c h :
  core_ok Q c → log_ok c → (0 < last_proposed c)%N →
  ∃ c', restart h c = Ok c' ∧ core_ok Q c' ∧ log_ok c' ∧ core_view c' = core_view c ∧
    last_own_block c' = last_own_block c ∧ pending_includes c' = pending_includes c ∧
    (∃ txs, wal (storage c') = wal (storage c) ++ [WalPayload txs]) ∧
    last_decided c' = (λ r, (ref_round r, ref_authority r)) <$>
      last_committed_leader (recover_log (wal (storage c))) ∧
    recovered_committed_blocks c' = Some (committed_blocks (recover_log (wal (storage c)))) ∧
    core_authority c' = core_authority c ∧ core_committee c' = core_committee c ∧ committer c' = committer c.
Proof.
  intros Hc Hlog Hpos. unfold restart.
  destruct (storage_open_ok (core_committee c) (core_authority c) (wal (storage c)))
    as (st & r & Hopen & Hst & Hw); [apply (sto_known _ _ (co_storage _ _ Hc))|].
  rewrite Hopen. cbn [result_bind]. apply storage_open_log in Hopen as [-> _].
  destruct Hlog as [Ho (gen & Hp & _ & Hgen) Hs Hi]. rewrite (Hgen Hpos) in Hp. cbn [app] in Hp.
  unfold core_open. rewrite Ho, <- Hp.
  assert (wal_view (wal st) = core_view c) as Hv by (unfold core_view; by rewrite Hw).
  destruct (clock_add_pending_ok (core_committee c) (committer_quorum_threshold (committer c)) (core_view c)
    (clock_new 0 (committer_quorum_threshold (committer c))) (pending c)) as (t & -> & Ht);
    [apply (co_quorum _ _ Hc)|intros x b Hb; by eapply core_keys| |apply clock_new_ok|].
  { intros i Hin. destruct (co_pending_in _ _ Hc i Hin) as [b Hb]. exists b.
    split_and!; [done|intros j Hj; by eapply (co_closed _ _ Hc)|].
    pose proof (core_keys _ _ _ _ Hc Hb) as Hk. rewrite <- Hk in Hb.
    apply (co_wf _ _ Hc), (co_exist _ _ Hc). by left. }
  cbn [result_bind].
  rewrite bool_decide_false by (by eapply recovered_own_unprocessed).
  set (this := {| block_manager := _ |}).
  assert (core_ok Q this) as Hthis.
  { assert (core_view this = core_view c) as Hv' by exact Hv.
    assert (pending_includes this = pending_includes c) as Hpi by done.
    split; try apply Hc; rewrite ?Hv', ?Hpi; cbn [core_committee committer core_authority storage block_manager
      threshold_clock last_own_block this]; try done; try apply Hc.
    - apply manager_new_ok.
    - intros b [Hb|[x Hb]]; [apply (co_exist _ _ Hc); by left|]. simpl in Hb. by rewrite lookup_empty in Hb. }
  assert (log_ok this) as Hlthis.
  { split; cbn [storage last_own_block pending this]; rewrite ?Hw; [done| |done|done].
    exists []. by split_and!. }
  destruct (run_block_handler_ok _ _ Hthis) as [Hc' Hv'].
  destruct (run_block_handler_frame this) as [F1 F2 F3 _ _].
  eexists. split; [done|]. split; [done|]. split; [by apply run_block_handler_log|].
  unfold pending_includes. split; [by rewrite Hv'|].
  unfold run_block_handler. destruct (handle_blocks (block_handler this)) as [txs h'].
  cbn [write_payload wal_write pending set_handler last_own_block core_authority core_committee committer].
  rewrite omap_app. csimpl. rewrite app_nil_r. split_and!; [done|done| |done..].
  exists txs. unfold this. cbn [storage wal]. by rewrite Hw.
Qed.

(** ** What the other operations append *)

(** The entry records no commit. *)
Definition no_commit (e : WalEntry) : Prop := match e with WalCommit _ => False | _ => True end.

Definition log_grows (c c' : Core) : Prop :=
  ∃ l, wal (storage c') = wal (storage c) ++ l ∧ Forall no_commit l.

(** The part of the recovered state that commits determine. *)
Definition commit_part (r : RecoveredState) : option BlockReference * gset BlockReference :=
  (last_committed_leader r, committed_blocks r).

Lemma commit_part_grows c c' :
  log_grows c c' →
  commit_part (recover_log (wal (storage c'))) = commit_part (recover_log (wal (storage c))).
Proof.
  intros (l & -> & Hl). rewrite recover_log_app. generalize (N.of_nat (length (wal (storage c)))).
  generalize (recover_log (wal (storage c))). induction Hl as [|e l He _ IH]; intros r pos; simpl; [done|].
  rewrite IH. by destruct e.
Qed.

Lemma run_block_handler_grows c : log_grows c (run_block_handler c).
Proof.
  unfold run_block_handler. destruct (handle_blocks _) as [txs h]. exists [WalPayload txs].
  split; [done|]. by repeat constructor.
Qed.

Lemma log_grows_trans c1 c2 c3 : log_grows c1 c2 → log_grows c2 c3 → log_grows c1 c3.
Proof.
  intros (l & H1 & HF1) (k & H2 & HF2). exists (l ++ k). rewrite H2, H1, <- app_assoc.
  split; [done|]. by apply Forall_app.
Qed.

Lemma try_new_block_grows `{BlockCrypto} len time_ns c c' o :
  try_new_block len time_ns c = Ok (c', o) → log_grows c c'.
Proof.
  unfold try_new_block. case_match.
  { intros [= <- _]. exists []. by rewrite app_nil_r. }
  intros Heq. inv_ok Heq. apply insert_own_block_wal in E3. eexists [_]. split; [exact E3|]. by repeat constructor.
Qed.

Lemma core_add_blocks_log order Q c c' new blocks :
  (∀ s, order s ≡ₚ elements s) → core_ok Q c → Forall Q blocks → log_ok c →
  core_add_blocks order blocks c = Ok (c', new) → log_ok c' ∧ log_grows c c'.
Proof.
  intros Ho Hc HQ Hlog. unfold core_add_blocks.
  destruct (manager_add_blocks_ok order Ho (core_committee c) blocks (block_manager c) (storage c))
    as (m & st & l & -> & [_ _ Hwal Hpos _ _ _ _ _]);
    [apply (co_storage _ _ Hc)|apply (co_manager _ _ Hc)| |].
  { eapply Forall_impl; [exact HQ|]. intros b Hb. pose proof (co_wf _ _ Hc b Hb) as Hwf.
    split; [apply (wf_author _ _ _ Hwf)|]. intros i Hi. by apply (wf_includes _ _ _ Hwf). }
  cbn [result_bind]. destruct (clock_add_processed _ _ _) as [t|]; [|done]. cbn [result_bind].
  intros [= <- _]. split.
  - by apply run_block_handler_log, add_processed_log.
  - eapply log_grows_trans; [|apply run_block_handler_grows].
    exists (map (λ pb, WalBlock pb.2) l). split; [done|]. apply Forall_forall.
    by intros e (pb & -> & _)%(list_elem_of_fmap (λ pb : WalPosition * Block, WalBlock pb.2)).
Qed.

(** Recording a commit. *)
Lemma handle_committed_subdag_log subs c : log_ok c → log_ok (handle_committed_subdag subs c).
Proof.
  intros [Ho Hp Hs Hi]. unfold handle_committed_subdag, write_commits, wal_write.
  split; cbn [storage set_storage wal fst last_own_block pending]; unfold last_proposed in *; simpl in *.
  - by rewrite recover_log_app.
  - by rewrite recover_log_app.
  - done.
  - rewrite length_app. eapply Forall_impl; [exact Hi|]. simpl. lia.
Qed.

Lemma handle_committed_subdag_part subs c :
  commit_part (recover_log (wal (storage (handle_committed_subdag subs c))))
  = (match last (map sub_anchor subs) with
     | Some a => Some a
     | None => last_committed_leader (recover_log (wal (storage c)))
     end,
     committed_blocks (recover_log (wal (storage c))) ∪ list_to_set (delivered_refs subs)).
Proof.
  unfold handle_committed_subdag, write_commits, wal_write. cbn [storage set_storage wal fst].
  rewrite recover_log_app. cbn [recover_from recover_entry]. unfold commit_part. cbn [last_committed_leader committed_blocks].
  f_equal.
  - generalize (last_committed_leader (recover_log (wal (storage c)))). induction subs as [|x subs IH]; intros o; cbn [map fold_left]; [done|].
    rewrite IH, last_cons. by destruct (last (map sub_anchor subs)).
  - generalize (committed_blocks (recover_log (wal (storage c)))). unfold delivered_refs, delivered.
    induction subs as [|x subs IH]; intros o; simpl; [by rewrite (right_id_L ∅ (∪))|].
    rewrite IH, map_app, list_to_set_app_L. by rewrite (assoc_L (∪)).
Qed.

Lemma open_genesis_grows bs C t st p t' st' p' :
  open_genesis bs C t st p = Ok (t', st', p') → wal st' = wal st ++ map WalBlock bs.
Proof.
  revert t st p. induction bs as [|b bs IH]; intros t st p; simpl; [intros [= _ <- _]; by rewrite app_nil_r|].
  destruct (clock_add_block _ _ _) as [t1|]; [|done]. cbn [result_bind].
  destruct (insert_block b st) as [[st1 pos]|] eqn:E; [|done]. cbn [result_bind].
  apply insert_block_wal in E as [Hw _]. intros ->%IH. by rewrite Hw, <- app_assoc.
Qed.

Lemma core_open_fresh_part C a h cm e c :
  core_open h a C {| wal := []; store := store_new a C |} recovered_empty cm e = Ok c →
  commit_part (recover_log (wal (storage c))) = (None, ∅).
Proof.
  unfold core_open. cbn [rec_last_own_block recovered_empty rec_pending].
  rewrite bool_decide_true by done. cbn [ensure result_bind].
  destruct (open_genesis _ _ _ _ _) as [[[t st] p]|] eqn:E; [|done]. cbn [result_bind].
  destruct (clock_add_block _ _ _) as [t1|]; [|done]. cbn [result_bind].
  destruct (insert_own_block _ _) as [st1|] eqn:Hins; [|done]. cbn [result_bind].
  rewrite bool_decide_true by done. intros [= <-]. cbn [storage].
  apply insert_own_block_wal in Hins. apply open_genesis_grows in E. rewrite Hins, E. simpl.
  rewrite recover_log_app. cbn [recover_from recover_entry]. unfold commit_part at 1. simpl.
  change (commit_part (recover_log (map WalBlock (map block_genesis (filter (λ x, x ≠ a) (authorities C))))) = (None, ∅)).
  unfold recover_log. generalize 0%N. assert (commit_part recovered_empty = (None, ∅)) as Hr by done.
  revert Hr. generalize recovered_empty. clear.
  induction (map block_genesis _) as [|b l IH]; intros r Hr pos; simpl; [done|]. apply IH. exact Hr.
Qed.
