(* ===== verification/DagSystem.v ===== *)
(** * Validators and their blocks, together

    The system of all validators: honest ones run [Core], the linearizer and
    [Block::verify] of the code; the others create any block that verifies. From
    the steps follow the world the commit rule needs ([DagWorld], [DagView]) and
    the two promises of the whole: no step of an honest validator panics, and
    what any two honest validators deliver never disagrees.

    Honest validators receive, propose, commit, accept submissions, clean up, and
    crash and restart from their log, in any interleaving; a restart before the
    first proposal is excluded ([DagLimits] shows why).

    Assumed of the network and of cryptography, as guards of the steps: only
    faulty validators create blocks under the names of faulty validators, two
    blocks never share a reference, and nobody includes a block before it
    exists. *)

From S2P Require Import Prelude Order Committee DagBlock DagStore DagStoreTheorems Protocol Committer.
From S2P Require Import CommitSupport CommitRules CommitAgreement Linearizer TotalOrder.
From S2P Require Import BlockManager DagCore DagCoreTheorems DagRecovery.
From stdpp Require Import base gmap list strings.
From Stdlib Require Import NArith ZArith Lia.

(** An honest validator: its core, its linearizer and what it delivered. *)
Record Node := { node_core : Core; node_linearizer : Linearizer; node_out : list CommittedSubDag }.

Record System := { nodes : gmap Authority Node; produced : list Block }.

(** The blocks that exist. *)
Definition existing (C : Committee) (s : System) (b : Block) : Prop := genesis C b ∨ b ∈ produced s.

Section System.
Context `{BlockCrypto} (serialized_len : Block → N) (order : gset BlockReference → list BlockReference)
  (C : Committee) (p : Protocol) (Byz : gset Authority) (md : CryptoMode).

(** The commit rule, the linearizer and the record of the commit, one after the other. *)
Definition node_commit (n : Node) : result Node :=
  let? ' (c, leaders) := core_try_commit (node_core n) in
  let? ' (l, subs) := handle_commit (core_reader c) (walk_fuel (storage c)) (node_linearizer n) leaders in
  Ok {| node_core := handle_committed_subdag subs c; node_linearizer := l; node_out := node_out n ++ subs |}.

(** A crash of the process, and a restart from the log: the linearizer resumes
    with the recorded commits.  The operating system keeps what the process wrote,
    so the restart finds the whole log whether or not [fsync] is on; losing unsynced
    entries in a crash of the machine is outside the model. *)
Definition node_restart (h : BlockHandler) (n : Node) : result Node :=
  let? c := restart h (node_core n) in
  let? ' (c, committed) := take_recovered_committed_blocks c in
  Ok {| node_core := c; node_linearizer := committed; node_out := node_out n |}.

Definition node_receive (blocks : list Block) (n : Node) : result Node :=
  let? ' (c, _) := core_add_blocks order blocks (node_core n) in
  Ok {| node_core := c; node_linearizer := node_linearizer n; node_out := node_out n |}.

Definition with_core (c : Core) (n : Node) : Node :=
  {| node_core := c; node_linearizer := node_linearizer n; node_out := node_out n |}.
Definition set_node (a : Authority) (n : Node) (s : System) : System :=
  {| nodes := <[a := n]> (nodes s); produced := produced s |}.

(** The guards that are not conditions of the code: a faulty validator's block
    does not take the reference of another block ([step_byzantine]; the digest
    covers lists without their lengths, so this is more than collision freeness,
    see [DagLimits.block_malleable]); the reference of a proposal is not known
    before the block is made, and the log has room for it ([step_propose]); a
    validator restarts only after its first proposal ([step_restart], see
    [DagLimits.restart_before_proposal]). *)
Inductive step (s : System) : System → Prop :=
| step_byzantine b :
    author b ∈ Byz → block_verify b C (quorum_threshold p) md = Ok tt →
    (∀ b', existing C s b' → reference b' = reference b → b' = b) →
    step s {| nodes := nodes s; produced := b :: produced s |}
| step_receive a n n' blocks :
    nodes s !! a = Some n →
    Forall (λ b, existing C s b ∧ block_verify b C (quorum_threshold p) md = Ok tt) blocks →
    node_receive blocks n = Ok n' → step s (set_node a n' s)
| step_propose a n c b time_ns :
    nodes s !! a = Some n → try_new_block serialized_len time_ns (node_core n) = Ok (c, Some b) →
    (∀ x, existing C s x → reference b ∉ includes x) →
    (N.of_nat (length (wal (storage (node_core n)))) < WAL_MAX)%N →
    step s {| nodes := <[a := with_core c n]> (nodes s); produced := b :: produced s |}
| step_commit a n n' :
    nodes s !! a = Some n → node_commit n = Ok n' → step s (set_node a n' s)
| step_restart a n n' h :
    nodes s !! a = Some n → (0 < last_proposed (node_core n))%N → node_restart h n = Ok n' →
    step s (set_node a n' s)
| step_submit a n h :
    nodes s !! a = Some n →
    step s (set_node a (with_core (set_handler (pending (node_core n)) h (storage (node_core n))
                                     (node_core n)) n) s)
| step_drain a n :
    nodes s !! a = Some n →
    step s (set_node a (with_core (drain_submitted_transactions (node_core n)) n) s)
| step_cleanup a n :
    nodes s !! a = Some n → step s (set_node a (with_core (core_cleanup (node_core n)) n) s).

(** Every honest validator has opened an empty log. *)
Definition initial (s : System) : Prop :=
  produced s = [] ∧
  ∀ a, match nodes s !! a with
       | Some n =>
           a ∉ Byz ∧ known C a ∧ node_linearizer n = linearizer_new ∧ node_out n = [] ∧
           ∃ h e, core_open h a C {| wal := []; store := store_new a C |} recovered_empty
                    (committer_new C p) e = Ok (node_core n)
       | None => a ∈ Byz ∨ ¬ known C a
       end.

Definition reachable (s : System) : Prop := ∃ s0, initial s0 ∧ rtc step s0 s.

(** ** The invariant *)

(** What an honest validator has delivered: the linearisation of the leaders it
    decided in some earlier view. Its cursor is a decision after which only skips
    follow: after a restart it is the last commit. *)
Definition delivered_ok (U : Block → Prop) (n : Node) : Prop :=
  ∃ R V D A1 A2,
    DagView U R V ∧ V ⊆ core_view (node_core n) ∧
    try_commit (committer_new C p) R None = Ok D ∧
    map decision_of D = A1 ++ A2 ∧ omap snd A2 = [] ∧
    last_decided (node_core n) = last (map fst A1) ∧
    linearized V ∅ (omap committed D) (node_linearizer n) (node_out n) ∧
    handle_commit R (size V) ∅ (omap committed D) = Ok (node_linearizer n, node_out n).

Record node_ok (U : Block → Prop) (a : Authority) (n : Node) : Prop := {
  nd_core : core_ok U (node_core n);
  nd_committee : core_committee (node_core n) = C;
  nd_committer : committer (node_core n) = committer_new C p;
  nd_self : core_authority (node_core n) = a;
  nd_honest : a ∉ Byz;
  nd_delivered : delivered_ok U n;
  nd_log : log_ok (node_core n);
  nd_recorded : commit_part (recover_log (wal (storage (node_core n))))
    = (last (map sub_anchor (node_out n)), node_linearizer n)
}.

Record system_ok (s : System) : Prop := {
  sys_world : DagWorld C (quorum_threshold p) Byz (existing C s);
  sys_nodes : ∀ a n, nodes s !! a = Some n → node_ok (existing C s) a n;
  sys_honest : ∀ a, known C a → a ∉ Byz → is_Some (nodes s !! a)
}.

(** ** Views *)

Lemma core_view_ok U c : core_ok U c → DagView U (core_reader c) (core_view c).
Proof.
  intros Hc. split.
  - exact (storage_reader_laws (storage c) (core_view c) (sto_repr _ _ (co_storage _ _ Hc))).
  - intros r b Hb. pose proof (core_keys _ _ _ _ Hc Hb) as <-. apply (co_exist _ _ Hc). by left.
  - apply (co_closed _ _ Hc).
Qed.

Lemma view_weaken (U U' : Block → Prop) R V : (∀ b, U b → U' b) → DagView U R V → DagView U' R V.
Proof. intros HU [H1 H2 H3]. split; [done| |done]. intros r b Hb. by eapply HU, H2. Qed.

Lemma wal_view_size w : size (wal_view w) ≤ length w.
Proof.
  induction w as [|e w IH] using rev_ind; [done|]. rewrite wal_view_app, length_app. simpl.
  unfold wal_view_step. destruct (wal_block e) as [b|]; [|lia].
  rewrite map_size_insert. destruct (_ !! _); simpl; lia.
Qed.

Lemma decided_blocks_ok D : Forall (λ s, is_decided s = true) D → decided_blocks D = Ok (omap committed D).
Proof.
  induction 1 as [|s D Hs _ IH]; simpl; [done|]. csimpl. rewrite IH. destruct s; simpl in *; done.
Qed.

(** ** One commit *)

Section Commit.
Context (f : Stake) (Hsafe : safe_thresholds p (total_stake C) f) (Hbyz : (stake_of C Byz ≤ f)%N)
  (Hlc : (Npos (leader_count p) ≤ committee_len C)%N).

Lemma try_commit_genesis U `{HW : !DagWorld C (quorum_threshold p) Byz U} R V `{HV : !DagView U R V} :
  reader_highest_round R = 0%N → try_commit (committer_new C p) R None = Ok [].
Proof.
  intros Hh. destruct (try_commit_none p f Hsafe Hbyz R V) as (L & HL & ->). f_equal.
  pose proof (decide_rounds_slots p f Hsafe Hbyz R V _ _ _ _ (committer_bases p) HL) as Hslots.
  destruct (decided_prefix L) as [|s D] eqn:E; [done|exfalso].
  destruct (decided_prefix_in L (decision_of s)) as [Hin Hpos]; [rewrite E; simpl; set_solver|].
  rewrite Hslots, Hh in Hin. apply slots_round in Hin. lia.
Qed.

(** The answer from the cursor, in terms of all decisions. *)
Lemma delivered_resume U `{HW : !DagWorld C (quorum_threshold p) Byz U} a n :
  node_ok U a n →
  ∃ D' D2 A1, try_commit (committer_new C p) (core_reader (node_core n)) (last_decided (node_core n)) = Ok D' ∧
    try_commit (committer_new C p) (core_reader (node_core n)) None = Ok D2 ∧
    map decision_of D2 = A1 ++ map decision_of D' ∧ last_decided (node_core n) = last (map fst A1) ∧
    ∃ subs l, handle_commit (core_reader (node_core n)) (walk_fuel (storage (node_core n)))
                (node_linearizer n) (omap committed D') = Ok (l, subs) ∧
      handle_commit (core_reader (node_core n)) (size (core_view (node_core n))) ∅ (omap committed D2)
      = Ok (l, node_out n ++ subs) ∧
      linearized (core_view (node_core n)) ∅ (omap committed D2) l (node_out n ++ subs).
Proof.
  intros [Hc HC Hcm Hself Hh (R & V & D & A1 & A2 & HV & Hsub & HD & HA & HA2 & Hlast & Hlin & Hcommit) _ _].
  pose proof (core_view_ok U (node_core n) Hc) as HV2.
  set (R2 := core_reader (node_core n)) in *. set (V2 := core_view (node_core n)) in *.
  destruct (try_commit_grows p f Hsafe Hbyz R V R2 V2 D A1 A2 Hsub Hlc HD HA) as (D' & D2 & A3 & HD' & HD2 & Happ & HA3).
  assert (size V2 ≤ walk_fuel (storage (node_core n))) as Hfuel by apply wal_view_size.
  destruct (pipeline_ok p f Hsafe Hbyz Hlc R2 V2 (walk_fuel (storage (node_core n))) Hfuel)
    as (E & l2 & subs2 & HE & Hc2 & Hl2).
  rewrite HD2 in HE. injection HE as <-.
  assert (omap committed D2 = omap committed D ++ omap committed D') as Hom.
  { rewrite !omap_committed_decisions, Happ, HA, HA3, !omap_app, HA2. by rewrite app_nil_r. }
  assert (∀ b, b ∈ omap committed D2 → holds V2 b) as Hheld.
  { apply (leaders_hold _ _ _ (decided_leaders_ok p f Hsafe Hbyz Hlc R2 V2 D2 HD2)). }
  pose proof (subseteq_size _ _ (subseteq_dom _ _ Hsub)) as Hsz. rewrite !size_dom in Hsz.
  assert (handle_commit R2 (walk_fuel (storage (node_core n))) ∅ (omap committed D)
          = Ok (node_linearizer n, node_out n)) as Hold.
  { eapply (handle_commit_view R V R2 V2); [|apply Forall_forall|exact Hcommit]; [lia|].
    intros b Hb. split; [|apply Hheld; rewrite Hom; set_solver].
    by apply (leaders_hold _ _ _ (decided_leaders_ok p f Hsafe Hbyz Hlc R V D HD)). }
  exists D', D2, A1. split_and!; [by rewrite Hlast|done|done|done|].
  assert (∃ subs, handle_commit R2 (walk_fuel (storage (node_core n))) (node_linearizer n) (omap committed D')
            = Ok (l2, subs) ∧ subs2 = node_out n ++ subs) as (subs & Hnew & ->).
  { rewrite Hom, handle_commit_app, Hold in Hc2. simpl in Hc2.
    destruct (handle_commit R2 _ (node_linearizer n) (omap committed D')) as [[l3 s3]|]; [|done].
    injection Hc2 as <- <-. by exists s3. }
  exists subs, l2. split_and!; [done| |done].
  destruct (pipeline_ok p f Hsafe Hbyz Hlc R2 V2 (size V2) (Nat.le_refl _)) as (E & l3 & s3 & HE & Hc3 & _).
  rewrite HD2 in HE. injection HE as <-. rewrite Hc3.
  rewrite <- Hc2. symmetry. eapply (handle_commit_view R2 V2 R2 V2); [exact Hfuel| |exact Hc3].
  apply Forall_forall. intros b Hb. split; by apply Hheld.
Qed.

Lemma node_commit_ok U `{HW : !DagWorld C (quorum_threshold p) Byz U} a n :
  node_ok U a n → ∃ n' subs, node_commit n = Ok n' ∧ node_ok U a n' ∧
    core_view (node_core n') = core_view (node_core n) ∧ node_out n' = node_out n ++ subs ∧
    ∃ D, try_commit (committer_new C p) (core_reader (node_core n)) None = Ok D ∧
      handle_commit (core_reader (node_core n)) (size (core_view (node_core n))) linearizer_new (omap committed D)
      = Ok (node_linearizer n', node_out n').
Proof.
  intros Hn. pose proof Hn as [Hc HC Hcm Hself Hh _ Hlog Hrec].
  destruct (delivered_resume U a n Hn) as (D' & D2 & A1 & HD' & HD2 & Happ & Hlast & subs & l2 & Hnew & Hfull & Hlin).
  set (latest := match last D' with Some s => Some (status_slot s) | None => last_decided (node_core n) end).
  set (c1 := set_decided latest (node_core n)).
  assert (core_ok U c1) as Hc1 by (by eapply core_ok_ext; [exact Hc|done..|apply (co_storage _ _ Hc)]).
  destruct (handle_committed_subdag_ok U subs c1 Hc1) as [Hc2 Hv2].
  exists {| node_core := handle_committed_subdag subs c1; node_linearizer := l2; node_out := node_out n ++ subs |}, subs.
  split; [|split; [|split; [done|split; [done|by exists D2]]]].
  - unfold node_commit, core_try_commit. rewrite Hcm, HD'. cbn [result_bind].
    rewrite (decided_blocks_ok D') by (by eapply decided_all). cbn [result_bind].
    fold latest. fold c1. change (core_reader c1) with (core_reader (node_core n)).
    change (storage c1) with (storage (node_core n)). by rewrite Hnew.
  - split; cbn [node_core node_linearizer node_out]; [done|done|done|done|done| |
      by apply handle_committed_subdag_log, (log_ok_ext (node_core n))|].
    + exists (core_reader (node_core n)), (core_view (node_core n)), D2, (map decision_of D2), [].
      split_and!; [by apply core_view_ok|cbn [node_core]; by rewrite Hv2|done|by rewrite app_nil_r|done| |done|done].
      change (last_decided (handle_committed_subdag subs c1)) with latest. unfold latest.
      rewrite Happ, map_app, last_app, map_map.
      change (map (λ x, (decision_of x).1) D') with (status_slot <$> D'). rewrite fmap_last.
      destruct (last D'); simpl; done.
    + rewrite handle_committed_subdag_part. change (storage c1) with (storage (node_core n)).
      injection Hrec as Hr1 Hr2. rewrite Hr1, Hr2, map_app, last_app. f_equal.
      rewrite (lin_committed _ _ _ _ _ Hlin).
      destruct (nd_delivered _ _ _ Hn) as (R & V & D & _ & _ & _ & _ & _ & _ & _ & _ & Hlin0 & _).
      rewrite (lin_committed _ _ _ _ _ Hlin0). unfold delivered_refs, delivered.
      rewrite map_app, concat_app, map_app, list_to_set_app_L. by rewrite (assoc_L (∪)).
Qed.

(** A restart forgets nothing that was delivered. *)
Lemma node_restart_ok U a n h :
  node_ok U a n → (0 < last_proposed (node_core n))%N →
  ∃ n', node_restart h n = Ok n' ∧ node_ok U a n' ∧ node_out n' = node_out n ∧
    last_own_block (node_core n') = last_own_block (node_core n).
Proof.
  intros [Hc HC Hcm Hself Hh (R & V & D & A1 & A2 & HV & Hsub & HD & HA & HA2 & Hlast & Hlin & Hcommit) Hlog Hrec] Hpos.
  destruct (restart_ok U (node_core n) h Hc Hlog Hpos) as
    (c & Heq & Hc' & Hlog' & Hv & Hown & _ & (txs & Hwal) & Hdec & Hcom & Hau & Hco & Hcmt).
  unfold node_restart. rewrite Heq. cbn [result_bind]. unfold take_recovered_committed_blocks.
  rewrite Hcom. cbn [result_bind]. eexists. split; [done|].
  assert (commit_part (recover_log (wal (storage c))) = commit_part (recover_log (wal (storage (node_core n))))) as Hpart.
  { apply commit_part_grows. exists [WalPayload txs]. split; [done|]. by repeat constructor. }
  injection Hrec as Hr1 Hr2.
  split; [|split; [done|exact Hown]].
  split; cbn [node_core node_linearizer node_out]; [|simpl; congruence|simpl; congruence|simpl; congruence|done| | |].
  - by eapply core_ok_ext; [exact Hc'|done..|apply (co_storage _ _ Hc')].
  - destruct (split_last_commit (map decision_of D)) as (B1 & B2 & HB & HB2 & HB3).
    exists R, V, D, B1, B2. rewrite Hr2. split_and!; [done|by rewrite <- Hv in Hsub|done|done|done| |done|done].
    cbn [last_decided]. rewrite Hdec, Hr1, (lin_anchors _ _ _ _ _ Hlin).
    rewrite <- omap_committed_decisions in HB3.
    change (map reference (omap committed D)) with (reference <$> omap committed D). rewrite fmap_last.
    destruct (last (omap committed D)) as [b|]; [|by rewrite HB3].
    destruct HB3 as (A0 & slot & ->). rewrite map_app. simpl. rewrite last_snoc. f_equal.
    symmetry. change ((ref_round (reference b), ref_authority (reference b))) with (round b, author b).
    apply (decision_slot D (slot, Some b)); [|done]. rewrite HB, !elem_of_app, list_elem_of_singleton. auto.
  - by apply (log_ok_ext c).
  - change (commit_part (recover_log (wal (storage c))) = (last (map sub_anchor (node_out n)),
      committed_blocks (recover_log (wal (storage (node_core n)))))).
    rewrite Hpart. unfold commit_part. by rewrite Hr1.
Qed.
End Commit.

(** ** The other steps *)

Lemma delivered_ok_mono (U U' : Block → Prop) n n' :
  delivered_ok U n → (∀ b, U b → U' b) → core_view (node_core n) ⊆ core_view (node_core n') →
  last_decided (node_core n') = last_decided (node_core n) →
  node_linearizer n' = node_linearizer n → node_out n' = node_out n →
  delivered_ok U' n'.
Proof.
  intros (R & V & D & A1 & A2 & HV & Hsub & HD & HA & HA2 & Hlast & Hlin & Hc) HU Hv Hl E1 E2.
  exists R, V, D, A1, A2. rewrite Hl, E1, E2. split_and!; [by eapply view_weaken|by etrans|done..].
Qed.

(** A step of one core that keeps its frame. *)
Lemma node_ok_core (U U' : Block → Prop) a n c :
  node_ok U a n → (∀ b, U b → U' b) → core_ok U' c → core_view (node_core n) ⊆ core_view c →
  same_frame (node_core n) c → log_ok c → log_grows (node_core n) c →
  node_ok U' a (with_core c n).
Proof.
  intros [Hc HC Hcm Hself Hh Hd Hlog Hrec] HU Hc' Hsub [E1 E2 E3 E4 _] Hl Hg.
  split; simpl; [done|congruence|congruence|congruence|done| |done|].
  - by eapply delivered_ok_mono.
  - by rewrite (commit_part_grows _ _ Hg).
Qed.

Lemma log_grows_same c c' : wal (storage c') = wal (storage c) → log_grows c c'.
Proof. intros Heq. exists []. by rewrite app_nil_r. Qed.

(** Blocks of other authors may appear. *)
Lemma node_ok_weaken (U U' : Block → Prop) a n :
  node_ok U a n → (∀ b, U b → U' b) → (∀ b, U' b → well_formed C (quorum_threshold p) b) →
  (∀ b, U' b → author b = a → U b) → node_ok U' a n.
Proof.
  intros Hn HU Hwf Ha. pose proof Hn as [Hc HC Hcm Hself Hh Hd Hlog Hrec].
  split; [|done|done|done|done|by eapply delivered_ok_mono|done|done].
  eapply core_ok_weaken; [done|done| |by rewrite Hself].
  rewrite HC, Hcm. exact Hwf.
Qed.

Lemma node_receive_ok (Horder : ∀ s, order s ≡ₚ elements s) U a n blocks :
  node_ok U a n → Forall U blocks → ∃ n', node_receive blocks n = Ok n' ∧ node_ok U a n'.
Proof.
  intros Hn Hb. unfold node_receive.
  destruct (core_add_blocks_ok order Horder U (node_core n) blocks (nd_core _ _ _ Hn) Hb)
    as (c & new & Heq & Hc & Hst). rewrite Heq. cbn [result_bind]. eexists. split; [done|].
  destruct (core_add_blocks_log order U _ _ _ _ Horder (nd_core _ _ _ Hn) Hb (nd_log _ _ _ Hn) Heq) as [Hlog Hg].
  apply core_add_blocks_frame in Heq. eapply (node_ok_core U U a n); try done.
  by eapply stored_subseteq.
Qed.

Lemma existing_step s b x : existing C {| nodes := nodes s; produced := b :: produced s |} x ↔ existing C s x ∨ x = b.
Proof. unfold existing. simpl. rewrite elem_of_cons. naive_solver. Qed.

(** A new block that is well formed, has its own reference, and, if its author is
    honest, sits on top of all blocks of the author. *)
Lemma world_grows (U U' : Block → Prop) b :
  DagWorld C (quorum_threshold p) Byz U → (∀ x, U' x ↔ U x ∨ x = b) →
  well_formed C (quorum_threshold p) b →
  (∀ x, U x → reference x = reference b → x = b) →
  (author b ∉ Byz → (∀ x, U x → author x = author b → (round x < round b)%N) ∧
     ∃ i incs, includes b = i :: incs ∧ ref_authority i = author b ∧
       ∀ x, U x → author x = author b → (round x ≤ ref_round i)%N) →
  DagWorld C (quorum_threshold p) Byz U'.
Proof.
  intros [HC Href Hhon Hown Hwf Hq] HU Hb Hfresh Htop. split; [done| | | | |done].
  - intros x y [Hx| ->]%HU [Hy| ->]%HU Hr; [auto|auto|symmetry; auto|done].
  - intros x y [Hx| ->]%HU [Hy| ->]%HU Hn Ha Hr; [auto| | |done].
    + destruct Htop as [Hlt _]; [by rewrite <- Ha|]. specialize (Hlt x Hx Ha). lia.
    + destruct Htop as [Hlt _]; [done|]. specialize (Hlt y Hy (eq_sym Ha)). lia.
  - intros x y [Hx| ->]%HU [Hy| ->]%HU Hn Ha Hr; [auto| | |lia].
    + destruct Htop as [_ (i & incs & H1 & H2 & H3)]; [by rewrite <- Ha|].
      exists i, incs. split_and!; [done|congruence|by apply H3].
    + destruct Htop as [Hlt _]; [done|]. specialize (Hlt y Hy (eq_sym Ha)). lia.
  - intros x [Hx| ->]%HU; auto.
Qed.

Section Steps.
Context (f : Stake) (Hsafe : safe_thresholds p (total_stake C) f) (Hbyz : (stake_of C Byz ≤ f)%N)
  (Hlc : (Npos (leader_count p) ≤ committee_len C)%N)
  (Horder : ∀ s, order s ≡ₚ elements s).

(** A step of one node that produces no block. *)
Lemma set_node_ok s a n' :
  system_ok s → node_ok (existing C s) a n' → system_ok (set_node a n' s).
Proof.
  intros [Hw Hn Hh] Hn'. split; [done| |].
  - intros x n Hx. simpl in Hx. apply lookup_insert_Some in Hx as [[<- <-]|[_ Hx]]; [done|by apply Hn].
  - intros x Hk Hx. simpl. apply lookup_insert_is_Some'. right. by apply Hh.
Qed.

Lemma byzantine_ok s b :
  system_ok s → author b ∈ Byz → block_verify b C (quorum_threshold p) md = Ok tt →
  (∀ b', existing C s b' → reference b' = reference b → b' = b) →
  system_ok {| nodes := nodes s; produced := b :: produced s |}.
Proof.
  intros [Hw Hn Hh] Hb Hv Hf. pose proof (world_quorum (DagWorld := Hw)) as Hq.
  apply (block_verify_ok b C (quorum_threshold p) md Hq) in Hv as (_ & Hwf & _).
  assert (DagWorld C (quorum_threshold p) Byz (existing C {| nodes := nodes s; produced := b :: produced s |})) as Hw'.
  { eapply world_grows; [done|apply existing_step|done|done|done]. }
  split; [done| |done]. intros a n Ha. pose proof (Hn a n Ha) as Hna.
  eapply node_ok_weaken; [done|intros x Hx; apply existing_step; by left|apply world_wf|].
  intros x [Hx| ->]%existing_step Hxa; [done|]. exfalso. apply (nd_honest _ _ _ Hna). by rewrite <- Hxa.
Qed.

Lemma propose_ok s a n c b time_ns :
  system_ok s → nodes s !! a = Some n → try_new_block serialized_len time_ns (node_core n) = Ok (c, Some b) →
  (∀ x, existing C s x → reference b ∉ includes x) →
  (N.of_nat (length (wal (storage (node_core n)))) < WAL_MAX)%N →
  system_ok {| nodes := <[a := with_core c n]> (nodes s); produced := b :: produced s |}.
Proof.
  intros [Hw Hn Hh] Ha Heq Hni Hmax. pose proof (Hn a n Ha) as Hna.
  pose proof Hna as [Hc HC Hcm Hself Hhon Hd Hlog Hrec].
  pose proof (try_new_block_ok serialized_len order Horder (existing C s) (node_core n) time_ns Hc) as Ho.
  rewrite Heq in Ho. destruct Ho as (_ & [Hba [Hbr Hlt] [incs Hinc] Hwf] & Hview & Hlast & Hok). specialize (Hok Hni).
  rewrite HC, Hcm in Hwf. change (committer_quorum_threshold (committer_new C p)) with (quorum_threshold p) in Hwf.
  rewrite Hself in Hba.
  assert (∀ x, existing C s x → author x = author b → (round x ≤ last_proposed (node_core n))%N) as Hle.
  { intros x Hx Hxa. apply (co_own_all _ _ Hc x Hx). congruence. }
  assert (∀ x, existing C {| nodes := <[a := with_core c n]> (nodes s); produced := b :: produced s |} x
            ↔ existing C s x ∨ x = b) as Hex by (intros x; apply existing_step).
  assert (DagWorld C (quorum_threshold p) Byz
    (existing C {| nodes := <[a := with_core c n]> (nodes s); produced := b :: produced s |})) as Hw'.
  { eapply world_grows; [done|exact Hex|done| |].
    - intros x Hx Hr. assert (author x = author b) as Hxa by (unfold author; by rewrite Hr).
      specialize (Hle x Hx Hxa). unfold round in Hle. rewrite Hr in Hle. unfold round in Hlt. lia.
    - intros _. split; [intros x Hx Hxa; specialize (Hle x Hx Hxa); lia|].
      eexists _, incs. split_and!; [exact Hinc| |].
      + change (author (own_block (last_own_block (node_core n))) = author b).
        rewrite (proj2 (co_own _ _ Hc)). congruence.
      + intros x Hx Hxa. by apply Hle. }
  split; [done| |].
  - intros x m Hx. simpl in Hx. apply lookup_insert_Some in Hx as [[<- <-]|[Hne Hx]].
    + pose proof (try_new_block_log _ _ _ _ _ Hlog Hmax Heq) as Hlog'.
      pose proof (try_new_block_grows _ _ _ _ _ Heq) as Hgrow.
      apply try_new_block_frame in Heq as Hframe. pose proof Hframe as [F1 F2 _ _ _].
      eapply node_ok_core; try done; [intros y Hy; apply Hex; by left| |].
      * eapply core_ok_weaken; [exact Hok|intros y Hy; by apply Hex| |intros y Hy _; by apply Hex in Hy].
        rewrite F1, F2, HC, Hcm. apply world_wf.
      * rewrite Hview. apply insert_subseteq.
        destruct (core_view (node_core n) !! reference b) as [y|] eqn:E; [exfalso|done].
        pose proof (core_keys _ _ _ _ Hc E) as Hk. rewrite <- Hk in E.
        assert (existing C s y) as Hy by (apply (co_exist _ _ Hc); by left).
        assert (round y ≤ last_proposed (node_core n))%N as Hr.
        { apply Hle; [done|]. unfold author. by rewrite Hk. }
        unfold round in Hr. rewrite Hk in Hr. unfold round in Hlt. lia.
    + eapply node_ok_weaken; [by apply Hn|intros y Hy; apply Hex; by left|apply world_wf|].
      intros y [Hy| ->]%Hex Hya; [done|]. congruence.
  - intros x Hk Hx. simpl. apply lookup_insert_is_Some'. right. by apply Hh.
Qed.

Lemma step_ok s s' : system_ok s → step s s' → system_ok s'.
Proof.
  intros Hs Hstep. pose proof Hs as [Hw Hn Hh].
  destruct Hstep as [b Hb Hv Hf|a n n' blocks Ha Hb Heq|a n c b t Ha Heq Hni|a n n' Ha Heq
                    |a n n' h Ha Hpos Heq|a n h Ha|a n Ha|a n Ha]; [by apply byzantine_ok| |by eapply propose_ok|..];
    (apply set_node_ok; [done|]); pose proof (Hn a n Ha) as Hna.
  - destruct (node_receive_ok Horder _ a n blocks Hna) as (n2 & Heq' & Hok); [|congruence].
    eapply Forall_impl; [exact Hb|]. by intros x [? _].
  - destruct (node_commit_ok f Hsafe Hbyz Hlc _ a n Hna) as (n2 & subs & Heq' & Hok & _). congruence.
  - destruct (node_restart_ok _ a n h Hna Hpos) as (n2 & Heq' & Hok & _). congruence.
  - eapply node_ok_core; [done|done| |done|done| |by apply log_grows_same].
    + by eapply core_ok_ext; [apply (nd_core _ _ _ Hna)|done..|apply (co_storage _ _ (nd_core _ _ _ Hna))].
    + by apply (log_ok_ext (node_core n)); [apply (nd_log _ _ _ Hna)|..].
  - destruct (run_block_handler_ok _ _ (nd_core _ _ _ Hna)) as [Hok Hv]. unfold drain_submitted_transactions.
    eapply node_ok_core; [done|done|exact Hok|by rewrite Hv|apply run_block_handler_frame
      |apply run_block_handler_log, (nd_log _ _ _ Hna)|apply run_block_handler_grows].
  - destruct (core_cleanup_ok _ _ (nd_core _ _ _ Hna)) as [Hok Hv].
    assert (wal (storage (core_cleanup (node_core n))) = wal (storage (node_core n))) as Hw2.
    { unfold core_cleanup. simpl. unfold cleanup_store. by case_match. }
    eapply node_ok_core; [done|done|exact Hok|by rewrite Hv|done| |by apply log_grows_same].
    by apply (log_ok_ext (node_core n)); [apply (nd_log _ _ _ Hna)|..].
Qed.

(** ** The start *)

Lemma genesis_world : committee_ok C → DagWorld C (quorum_threshold p) Byz (genesis C).
Proof.
  intros HC. pose proof (safe_positive _ _ _ Hsafe) as (_ & _ & _ & Hq & _). split; [done| | | | |done].
  - intros b b' Hb Hb' Hr. apply (genesis_same C); [done|done|]. unfold author. by rewrite Hr.
  - intros b b' Hb Hb' _ Ha _. by apply (genesis_same C).
  - intros b b' [_ ->] [_ ->] _ _. unfold round. simpl. lia.
  - intros b. apply genesis_wf.
Qed.

Lemma genesis_highest c : core_ok (genesis C) c → reader_highest_round (core_reader c) = 0%N.
Proof.
  intros Hc. pose proof (core_view_ok _ _ Hc) as HV.
  destruct (law_highest_attained (R := core_reader c) (V := core_view c)) as [?|(r & [b Hb] & Hr)]; [done|].
  rewrite <- Hr. pose proof (core_keys _ _ _ _ Hc Hb) as <-.
  assert (genesis C b) as [_ ->] by (apply (co_exist _ _ Hc); by left). done.
Qed.

Lemma fresh_node_ok a n :
  committee_ok C → a ∉ Byz → known C a → node_linearizer n = linearizer_new → node_out n = [] →
  (∃ h e, core_open h a C {| wal := []; store := store_new a C |} recovered_empty (committer_new C p) e
            = Ok (node_core n)) →
  node_ok (genesis C) a n.
Proof.
  intros HC Ha Hk Hl Ho (h & e & Hopen). pose proof (genesis_world HC) as Hw.
  destruct (core_open_fresh_ok C a h (committer_new C p) e HC Hk) as
    (c & Hopen' & Hc & E1 & E2 & E3 & _ & _ & E4); [apply (safe_positive _ _ _ Hsafe)|].
  rewrite Hopen in Hopen'. injection Hopen' as <-.
  pose proof (core_open_fresh_log _ _ _ _ _ _ HC Hopen) as Hlog.
  split; [done|done|done|done|done| |done|by rewrite Hl, Ho, (core_open_fresh_part _ _ _ _ _ _ Hopen)].
  pose proof (core_view_ok _ _ Hc) as HV.
  exists (core_reader (node_core n)), (core_view (node_core n)), [], [], [].
  pose proof (try_commit_genesis f Hsafe Hbyz Hlc (genesis C) (core_reader (node_core n))
    (core_view (node_core n)) (genesis_highest _ Hc)) as HD.
  rewrite Hl, Ho. split_and!; try done.
  destruct (pipeline_ok p f Hsafe Hbyz Hlc (core_reader (node_core n)) (core_view (node_core n))
    (size (core_view (node_core n))) (Nat.le_refl _)) as (D & l & subs & HD' & Hh & Hlin).
  rewrite HD in HD'. injection HD' as <-. simpl in Hh. injection Hh as <- <-. done.
Qed.

Lemma initial_ok s : committee_ok C → initial s → system_ok s.
Proof.
  intros HC [Hp Hn]. pose proof (genesis_world HC) as Hw.
  assert (∀ b, existing C s b ↔ genesis C b) as Hex.
  { intros b. unfold existing. rewrite Hp. set_solver. }
  split.
  - destruct Hw as [H1 H2 H3 H4 H5 H6]. split; [done| | | | |done].
    + intros b b' ?%Hex ?%Hex. auto.
    + intros b b' ?%Hex ?%Hex. auto.
    + intros b b' ?%Hex ?%Hex. auto.
    + intros b ?%Hex. auto.
  - intros a n Ha. specialize (Hn a). rewrite Ha in Hn. destruct Hn as (H1 & H2 & H3 & H4 & H5).
    eapply node_ok_weaken; [by apply fresh_node_ok|intros b Hb; by apply Hex| |intros b Hb _; by apply Hex].
    intros b Hb%Hex. by apply genesis_wf.
  - intros a Hk Ha. specialize (Hn a). destruct (nodes s !! a); [by eexists|]. naive_solver.
Qed.

Lemma reachable_ok s : committee_ok C → reachable s → system_ok s.
Proof.
  intros HC (s0 & H0 & Hs). apply (initial_ok s0 HC) in H0.
  induction Hs as [|x y z Hxy _ IH]; [done|]. apply IH. by eapply step_ok.
Qed.

(** ** The promises *)

Lemma delivered_agree U n1 n2 :
  DagWorld C (quorum_threshold p) Byz U → delivered_ok U n1 → delivered_ok U n2 →
  node_out n1 `prefix_of` node_out n2 ∨ node_out n2 `prefix_of` node_out n1.
Proof.
  intros HW (R1 & V1 & D1 & ? & ? & HV1 & _ & HD1 & _ & _ & _ & _ & Hc1)
    (R2 & V2 & D2 & ? & ? & HV2 & _ & HD2 & _ & _ & _ & _ & Hc2).
  destruct (try_commit_agree p f Hsafe Hbyz R1 V1 R2 V2) as (E1 & E2 & HE1 & HE2 & Hor).
  rewrite HD1 in HE1. injection HE1 as <-. rewrite HD2 in HE2. injection HE2 as <-.
  destruct Hor as [Hpre|Hpre]; [left|right].
  - by eapply (handle_commit_prefix p f Hsafe Hbyz Hlc R1 V1 R2 V2 _ _ D1 D2).
  - by eapply (handle_commit_prefix p f Hsafe Hbyz Hlc R2 V2 R1 V1 _ _ D2 D1).
Qed.
End Steps.
End System.

(** ** The theorems *)

Section Promises.
Context `{BlockCrypto} (serialized_len : Block → N) (order : gset BlockReference → list BlockReference)
  (C : Committee) (cp : ConsensusProtocol) (p : Protocol) (Byz : gset Authority) (md : CryptoMode).

(** Everything the theorems assume: a committee that [Committee::new] accepts, a
    protocol that [to_protocol] accepts for it and at most the Byzantine stake the
    protocol is made for. *)
Record setup : Prop := {
  setup_committee : committee_ok C;
  setup_total : (total_stake C < 2 ^ 62)%N;
  setup_parameters : small_parameters cp;
  setup_protocol : to_protocol cp C = inl p;
  setup_faults : within_faults cp (total_stake C) (stake_of C Byz);
  setup_order : ∀ s, order s ≡ₚ elements s
}.

Lemma setup_safe : setup → safe_thresholds p (total_stake C) (stake_of C Byz).
Proof. intros []. by eapply to_protocol_safe; [apply total_positive|..]. Qed.

Lemma setup_leaders : setup → (Npos (leader_count p) ≤ committee_len C)%N.
Proof.
  intros [HC _ _ Hp _ _].
  assert (1 ≤ committee_len C)%N as Hone.
  { pose proof (ok_nonempty _ HC). unfold committee_len. destruct (committee_authorities C); simpl; [done|lia]. }
  assert (∀ l, (Npos l <=? committee_len C)%N = negb (committee_len C <? Npos l)%N) as Hleb.
  { intros l. rewrite N.ltb_antisym. by rewrite negb_involutive. }
  apply N.leb_le. rewrite Hleb. unfold to_protocol in Hp.
  destruct cp; simpl in Hp; unfold orcaella, mahi_mahi, dag_hydrangea in Hp;
    repeat case_match; simplify_eq; simpl; try (rewrite <- Hleb; by apply N.leb_le); by apply negb_true_iff.
Qed.

Lemma setup_system s :
  setup → reachable serialized_len order C p Byz md s → system_ok C p Byz s.
Proof.
  intros Hs. pose proof (setup_safe Hs) as Hsafe. pose proof (setup_leaders Hs) as Hl.
  destruct Hs as [HC _ _ _ _ Ho]. by eapply reachable_ok.
Qed.

(** C2: agreement. In every reachable state of the whole system, whichever
    protocol is configured and whatever the faulty validators do within the
    fault bound, of what two honest validators have delivered one is a prefix of
    the other: the same sub-DAGs with the same blocks in the same order. *)
Theorem system_agreement s a1 n1 a2 n2 :
  setup → reachable serialized_len order C p Byz md s →
  nodes s !! a1 = Some n1 → nodes s !! a2 = Some n2 →
  node_out n1 `prefix_of` node_out n2 ∨ node_out n2 `prefix_of` node_out n1.
Proof.
  intros Hs Hr H1 H2. destruct (setup_system s Hs Hr) as [Hw Hn _].
  apply (delivered_agree C p Byz (stake_of C Byz) (setup_safe Hs) (N.le_refl _) (setup_leaders Hs) (existing C s));
    [done|apply (nd_delivered _ _ _ _ _ _ (Hn _ _ H1))|apply (nd_delivered _ _ _ _ _ _ (Hn _ _ H2))].
Qed.

(** C3: honest validators do not panic in the protocol. In every reachable state
    (whose restarts all come after a first proposal), receiving any existing
    blocks succeeds, and so does committing: the commit rule with its recursive
    walks and its "More than one certified block" panic, the linearizer with its
    assertion.  A proposal succeeds, or fails with "Created an oversized block"
    exactly because the block it has made, valid otherwise, is over the size limit
    of the log; a validator that has made a proposal restarts from its log.  The
    log itself takes every entry: the 256 MB limit of [WalWriter::writev] on
    received blocks and batches is outside the model. *)
Theorem system_no_panic s a n :
  setup → reachable serialized_len order C p Byz md s → nodes s !! a = Some n →
  (∀ blocks, Forall (existing C s) blocks → is_ok (node_receive order blocks n) = true) ∧
  (∀ time_ns, match try_new_block serialized_len time_ns (node_core n) with
              | Ok (_, Some b) => (serialized_len b ≤ MAX_ENTRY_SIZE / 2)%N
              | Ok (_, None) => (clock_round (threshold_clock (node_core n)) ≤ last_proposed (node_core n))%N
              | Err e => e = "Created an oversized block" ∧
                  ∃ b, proposed (node_core n) b ∧ (MAX_ENTRY_SIZE / 2 < serialized_len b)%N
              end) ∧
  is_ok (node_commit n) = true ∧
  (∀ h, (0 < last_proposed (node_core n))%N → is_ok (node_restart h n) = true).
Proof.
  intros Hs Hr Ha. destruct (setup_system s Hs Hr) as [Hw Hn _]. pose proof (Hn a n Ha) as Hna.
  split_and!.
  - intros blocks Hb. destruct (node_receive_ok order C p Byz (setup_order Hs) _ a n blocks Hna Hb)
      as (n' & -> & _). done.
  - intros time_ns. pose proof (try_new_block_ok serialized_len order (setup_order Hs) _ _ time_ns
      (nd_core _ _ _ _ _ _ Hna)) as Ho.
    destruct (try_new_block _ _ _) as [[c' [b|]]|e]; [apply Ho|apply Ho|exact Ho].
  - destruct (node_commit_ok serialized_len order C p Byz (stake_of C Byz) (setup_safe Hs) (N.le_refl _) (setup_leaders Hs) _ a n Hna)
      as (n' & subs & -> & _). done.
  - intros h Hpos. by destruct (node_restart_ok C p Byz _ a n h Hna Hpos) as (n' & -> & _).
Qed.

(** Each delivered sub-DAG belongs to the leader the commit rule decided in its
    place: the rule run from the first round on the validator's DAG commits the
    anchors in this order, and the blocks of the sub-DAG are the leader's past
    without what was delivered before. *)
Lemma delivered_leaders s a n pre sub post :
  setup → reachable serialized_len order C p Byz md s → nodes s !! a = Some n →
  node_out n = pre ++ sub :: post →
  let V := core_view (node_core n) in
  ∃ D leader, try_commit (committer_new C p) (core_reader (node_core n)) None = Ok D ∧
    omap committed D !! length pre = Some leader ∧ sub_anchor sub = reference leader ∧
    holds V leader ∧ leader ∈ sub_blocks sub ∧
    ∀ b, b ∈ sub_blocks sub ↔ past V leader b ∧ reference b ∉ delivered_refs pre.
Proof.
  intros Hs Hr Ha Hout V. destruct (setup_system s Hs Hr) as [Hw Hn _]. pose proof (Hn a n Ha) as Hna.
  destruct (node_commit_ok serialized_len order C p Byz (stake_of C Byz) (setup_safe Hs) (N.le_refl _)
    (setup_leaders Hs) _ a n Hna) as (n' & subs & _ & _ & _ & Hout' & D & HD & Hh).
  pose proof (core_view_ok _ _ (nd_core _ _ _ _ _ _ Hna)) as HV.
  pose proof (decided_leaders_ok p _ (setup_safe Hs) (N.le_refl _) (setup_leaders Hs)
    (core_reader (node_core n)) V D HD) as Hl.
  apply (handle_commit_subs (core_reader (node_core n)) V) in Hh; [|done|done|done].
  rewrite Hout', Hout, <- app_assoc in Hh.
  destruct (sub_dags_split V _ _ _ _ _ Hh) as (leader & Hb & Ha' & Hl' & Hin). exists D, leader.
  split_and!; [done|done|done|by apply (leaders_hold _ _ _ Hl); eapply list_elem_of_lookup_2|done|].
  intros x. rewrite Hin. set_solver.
Qed.

(** C4: what is delivered. Every validator delivers each block at most once, only
    blocks that exist, and each after all the blocks it includes.  The sub-DAGs
    are those of the committed leaders, in the order in which the commit rule
    decides them: the anchor of the [k]-th is the [k]-th committed leader, the
    leader is in its own sub-DAG, every block of the sub-DAG is in the leader's
    past, and of that past nothing is missing once the sub-DAG is delivered. *)
Theorem system_delivery s a n :
  setup → reachable serialized_len order C p Byz md s → nodes s !! a = Some n →
  NoDup (delivered_refs (node_out n)) ∧
  (∀ b, b ∈ delivered (node_out n) → existing C s b) ∧
  causal_order ∅ (delivered (node_out n)) ∧
  node_linearizer n = list_to_set (delivered_refs (node_out n)) ∧
  ∀ pre sub post, node_out n = pre ++ sub :: post →
    let V := core_view (node_core n) in
    ∃ D leader, try_commit (committer_new C p) (core_reader (node_core n)) None = Ok D ∧
      omap committed D !! length pre = Some leader ∧ sub_anchor sub = reference leader ∧
      leader ∈ sub_blocks sub ∧
      (∀ b, b ∈ sub_blocks sub → past V leader b) ∧
      (∀ b, past V leader b → reference b ∈ delivered_refs (pre ++ [sub])).
Proof.
  intros Hs Hr Ha. destruct (setup_system s Hs Hr) as [Hw Hn _].
  destruct (nd_delivered _ _ _ _ _ _ (Hn a n Ha)) as
    (R & V & D & A1 & A2 & HV & _ & HD & _ & _ & _ & [_ Hl _ Hnd Hall Hca] & _).
  rewrite (left_id_L ∅ (∪)) in Hl. split_and!; [done| |done|done|].
  - intros b Hb. eapply (holds_world R V). apply Hall in Hb as [(l & Hin & Hp) _].
    apply (past_round R V l b); [|done].
    by apply (leaders_hold _ _ _ (decided_leaders_ok p _ (setup_safe Hs) (N.le_refl _) (setup_leaders Hs) R V D HD)).
  - intros pre sub post Hout W.
    destruct (delivered_leaders s a n pre sub post Hs Hr Ha Hout) as (E & leader & HE & Hk & Hanc & _ & Hin & Hiff).
    exists E, leader. split_and!; [done|done|done|done|by intros b [? _]%Hiff|].
    intros b Hp. unfold delivered_refs, delivered. rewrite map_app, concat_app, map_app, elem_of_app.
    destruct (decide (reference b ∈ delivered_refs pre)) as [|Hnb]; [by left|]. right. simpl.
    rewrite app_nil_r. apply (list_elem_of_fmap reference). exists b. split; [done|]. by apply Hiff.
Qed.

(** C5: committing step by step is the same as recomputing everything. The commit
    rule runs from the validator's cursor and the linearizer from what it has
    delivered already; what has been delivered after a commit, and the set of
    committed blocks, are what the rule from the first round and an empty
    linearizer give on the validator's DAG, and extend what was delivered before. *)
Theorem system_incremental s a n :
  setup → reachable serialized_len order C p Byz md s → nodes s !! a = Some n →
  ∃ n' D, node_commit n = Ok n' ∧ node_out n `prefix_of` node_out n' ∧
    try_commit (committer_new C p) (core_reader (node_core n)) None = Ok D ∧
    handle_commit (core_reader (node_core n)) (size (core_view (node_core n))) linearizer_new (omap committed D)
    = Ok (node_linearizer n', node_out n').
Proof.
  intros Hs Hr Ha. destruct (setup_system s Hs Hr) as [Hw Hn _].
  destruct (node_commit_ok serialized_len order C p Byz (stake_of C Byz) (setup_safe Hs) (N.le_refl _) (setup_leaders Hs)
    _ a n (Hn a n Ha)) as (n' & subs & Hc & _ & _ & Hout & D & HD & Hh).
  exists n', D. split_and!; [done|rewrite Hout; by exists subs|done|done].
Qed.

(** C11: no equivocation. The blocks of an honest validator never fork: of each
    round there is at most one, whatever crashes and restarts happened between
    its proposals, and each later one leads, as its first include, to all the
    earlier ones. *)
Theorem system_no_equivocation s b b' :
  setup → reachable serialized_len order C p Byz md s →
  existing C s b → existing C s b' → author b ∉ Byz → author b' = author b →
  (round b' = round b → b' = b) ∧
  ((round b < round b')%N →
    ∃ i incs, includes b' = i :: incs ∧ ref_authority i = author b ∧ (round b ≤ ref_round i)%N).
Proof.
  intros Hs Hr Hb Hb' Hh Ha. destruct (setup_system s Hs Hr) as [Hw _ _]. split.
  - intros E. symmetry. by apply (world_honest b b').
  - by apply (world_own b b').
Qed.

(** C26: the local DAG is well typed. What an honest validator stores is a map from
    references to the blocks that carry them; each block exists, comes from a
    known authority, includes only blocks of earlier rounds, with a quorum of the
    previous one, and all of them are stored too. Nothing it keeps suspended is
    also stored. *)
Theorem system_typed s a n r b :
  setup → reachable serialized_len order C p Byz md s → nodes s !! a = Some n →
  core_view (node_core n) !! r = Some b →
  reference b = r ∧ existing C s b ∧ well_formed C (quorum_threshold p) b ∧
  blocks_pending (block_manager (node_core n)) !! r = None ∧
  ∀ i, i ∈ includes b → ∃ b', core_view (node_core n) !! i = Some b' ∧ (round b' < round b)%N.
Proof.
  intros Hs Hr Ha Hb. destruct (setup_system s Hs Hr) as [Hw Hn _].
  pose proof (nd_core _ _ _ _ _ _ (Hn a n Ha)) as Hc.
  pose proof (core_view_ok _ _ Hc) as HV. pose proof (core_keys _ _ _ _ Hc Hb) as Hk.
  assert (existing C s b) as He by (apply (view_world (R := core_reader (node_core n)) r b Hb)).
  split_and!; [done|done|by apply world_wf| |].
  - destruct (blocks_pending _ !! r) as [x|] eqn:Hx; [|done].
    apply (man_pending _ _ _ _ (co_manager _ _ Hc)) in Hx as (_ & Hx & _). by rewrite Hx in Hb.
  - intros i Hi. destruct (holds_include (core_reader (node_core n)) (core_view (node_core n)) b i) as (b' & H1 & _ & _ & H2);
      [unfold holds; by rewrite Hk|done|by exists b'].
Qed.

(** what is missing. The references a validator asks the others for are
    exactly those that some suspended block includes and that are neither stored
    nor suspended themselves, each filed under its author. *)
Theorem system_missing s a n k r :
  setup → reachable serialized_len order C p Byz md s → nodes s !! a = Some n →
  in_missing (missing (block_manager (node_core n))) k r ↔
  k = N.to_nat (ref_authority r) ∧ core_view (node_core n) !! r = None ∧
  blocks_pending (block_manager (node_core n)) !! r = None ∧
  ∃ q b, blocks_pending (block_manager (node_core n)) !! q = Some b ∧ r ∈ includes b.
Proof.
  intros Hs Hr Ha. destruct (setup_system s Hs Hr) as [_ Hn _].
  pose proof (co_manager _ _ (nd_core _ _ _ _ _ _ (Hn a n Ha))) as Hm.
  rewrite (man_missing _ _ _ _ Hm). split.
  - intros (-> & [w Hw] & Hp & _). destruct (man_wait_sound _ _ _ _ Hm r w Hw) as [Hv Hq].
    destruct (set_choose_L w (man_wait_some _ _ _ _ Hm r w Hw)) as [q Hin]. destruct (Hq q Hin) as (b & Hb & Hi).
    split_and!; [done..|]. by exists q, b.
  - intros (-> & Hv & Hp & q & b & Hb & Hi). split_and!; [done| |done|apply not_elem_of_nil].
    destruct (man_wait_complete _ _ _ _ Hm q b r Hb Hi Hv) as (w & Hw & _). by exists w.
Qed.

(** C12: recovery. A validator that has made a proposal, crashes and reopens its
    log holds the same
    blocks, the same last proposal, the same blocks to include next, and resumes
    the linearisation where it stopped: what it delivered, and the set of blocks it
    will not deliver again, are unchanged.  The crash is one of the process: the log
    keeps all that was written ([node_restart]).  Before the first proposal the
    claim fails ([DagLimits.restart_before_proposal]). *)
Theorem system_recovery s a n h :
  setup → reachable serialized_len order C p Byz md s → nodes s !! a = Some n →
  (0 < last_proposed (node_core n))%N →
  ∃ n', node_restart h n = Ok n' ∧ core_view (node_core n') = core_view (node_core n) ∧
    last_own_block (node_core n') = last_own_block (node_core n) ∧
    pending_includes (node_core n') = pending_includes (node_core n) ∧
    node_linearizer n' = node_linearizer n ∧ node_out n' = node_out n.
Proof.
  intros Hs Hr Ha Hpos. destruct (setup_system s Hs Hr) as [_ Hn _].
  destruct (Hn a n Ha) as [Hc _ _ _ _ _ Hlog Hrec].
  destruct (restart_ok _ (node_core n) h Hc Hlog Hpos) as (c & Heq & _ & _ & Hv & Hown & Hp & _ & _ & Hcom & _).
  unfold node_restart. rewrite Heq. cbn [result_bind]. unfold take_recovered_committed_blocks.
  rewrite Hcom. cbn [result_bind]. eexists. split; [done|]. simpl. injection Hrec as _ Hr2. done.
Qed.

(** C27: proposals are accepted. A block an honest validator creates in a
    reachable state, where no restart came before the validator's first proposal,
    passes [Block::verify] at every validator that runs in the same signing mode
    with the proposer's public key: its signature, its digest, its includes and its
    quorum of parents.  The mode is one of the two deployed ones, not [Simulated],
    which the code only offers to the simulator; a restart before the first
    proposal does lead to a block that is refused
    ([DagLimits.restart_before_proposal]). *)
Theorem system_proposal s a n c b time_ns pk :
  setup → reachable serialized_len order C p Byz md s → nodes s !! a = Some n →
  try_new_block serialized_len time_ns (node_core n) = Ok (c, Some b) →
  get_public_key C a = Some pk →
  (∀ m, ed25519_verify pk (ed25519_sign (signer (crypto (node_core n))) m) m = true) →
  mode (crypto (node_core n)) = md → md ≠ Simulated →
  block_verify b C (quorum_threshold p) md = Ok tt.
Proof.
  intros Hs Hr Ha Hb Hpk Hkey Hmode Hsim. destruct (setup_system s Hs Hr) as [Hw Hn _].
  destruct (Hn a n Ha) as [Hc HC Hcm Hself _ _ _ _].
  pose proof (try_new_block_ok serialized_len order (setup_order Hs) _ _ time_ns Hc) as Ho.
  rewrite Hb in Ho. destruct Ho as (_ & [Hau Hround _ Hwf] & _).
  assert (committer_quorum_threshold (committer (node_core n)) = quorum_threshold p) as Hq by (by rewrite Hcm).
  rewrite HC, Hq in Hwf. apply block_verify_ok; [apply world_quorum|].
  split; [destruct Hround; lia|]. split; [done|]. exists pk. rewrite Hau, Hself. split; [done|].
  apply try_new_block_signed in Hb as (a' & r & incs & txs & ts & ->). rewrite <- Hmode.
  apply block_new_verifies; [done|by rewrite Hmode].
Qed.
End Promises.

(** ** Running the system *)

Module Runs.
Section Exec.
Context `{BlockCrypto} (serialized_len : Block → N) (order : gset BlockReference → list BlockReference)
  (C : Committee) (p : Protocol) (Byz : gset Authority) (md : CryptoMode).

Inductive action :=
| Propose (a : Authority) (time_ns : N)
| Receive (a : Authority) (k : list nat)
| Commit (a : Authority)
| Restart (a : Authority)
| Submit (a : Authority) (batch : list bytes)
| Drain (a : Authority).

Definition verifies (b : Block) : bool :=
  match block_verify b C (quorum_threshold p) md with Ok tt => true | Err _ => false end.

(** One step, with its guards checked. Blocks are named by their age. *)
Definition exec (x : action) (s : System) : result System :=
  match x with
  | Propose a t =>
      match nodes s !! a with
      | None => Err "no such node"
      | Some n =>
          let? ' (c, o) := try_new_block serialized_len t (node_core n) in
          match o with
          | None => Err "nothing proposed"
          | Some b =>
              let? _ := ensure (forallb (λ x, bool_decide (reference b ∉ includes x)) (produced s)) "guessed" in
              let? _ := ensure (N.of_nat (length (wal (storage (node_core n)))) <? WAL_MAX)%N "log full" in
              Ok {| nodes := <[a := with_core c n]> (nodes s); produced := b :: produced s |}
          end
      end
  | Receive a k =>
      match nodes s !! a with
      | None => Err "no such node"
      | Some n =>
          let blocks := omap (λ i, reverse (produced s) !! i) k in
          let? _ := ensure (forallb verifies blocks) "does not verify" in
          let? n' := node_receive order blocks n in Ok (set_node a n' s)
      end
  | Commit a =>
      match nodes s !! a with
      | None => Err "no such node"
      | Some n => let? n' := node_commit n in Ok (set_node a n' s)
      end
  | Restart a =>
      match nodes s !! a with
      | None => Err "no such node"
      | Some n =>
          let? _ := ensure (0 <? last_proposed (node_core n))%N "no proposal yet" in
          let? n' := node_restart handler_new n in Ok (set_node a n' s)
      end
  | Submit a batch =>
      match nodes s !! a with
      | None => Err "no such node"
      | Some n =>
          match try_send batch (block_handler (node_core n)) with
          | None => Err "channel full"
          | Some h => Ok (set_node a (with_core (set_handler (pending (node_core n)) h (storage (node_core n))
                                                   (node_core n)) n) s)
          end
      end
  | Drain a =>
      match nodes s !! a with
      | None => Err "no such node"
      | Some n => Ok (set_node a (with_core (drain_submitted_transactions (node_core n)) n) s)
      end
  end.

Fixpoint exec_all (l : list action) (s : System) : result System :=
  match l with [] => Ok s | x :: l => let? s := exec x s in exec_all l s end.

(** The honest validators open empty logs. *)
Fixpoint boot (e : Authority → CryptoEngine) (l : list Authority) : result System :=
  match l with
  | [] => Ok {| nodes := ∅; produced := [] |}
  | a :: l =>
      let? s := boot e l in
      let? c := core_open handler_new a C {| wal := []; store := store_new a C |} recovered_empty
                  (committer_new C p) (e a) in
      Ok (set_node a {| node_core := c; node_linearizer := linearizer_new; node_out := [] |} s)
  end.

Lemma exec_step x s s' : exec x s = Ok s' → step serialized_len order C p Byz md s s'.
Proof.
  destruct x as [a t|a k|a|a|a batch|a]; simpl; (destruct (nodes s !! a) as [n|] eqn:Ha; [|done]).
  - destruct (try_new_block serialized_len t (node_core n)) as [[c [b|]]|] eqn:Ht; [|done..]. cbn [result_bind].
    destruct (forallb _ _) eqn:Hg; [|done]. destruct (_ <? _)%N eqn:Hw; [|done]. cbn [ensure result_bind].
    intros [= <-]. eapply step_propose; [done|exact Ht| |by apply N.ltb_lt].
    intros x [[_ ->]|Hx]; [intros []%not_elem_of_nil|]. rewrite forallb_forall in Hg.
    specialize (Hg x (proj1 (list_elem_of_In _ _) Hx)). by apply bool_decide_eq_true in Hg.
  - destruct (forallb _ _) eqn:Hg; [|done]. cbn [ensure result_bind]. intros Heq. inv_ok Heq.
    eapply step_receive; [done| |exact E]. apply Forall_forall. intros b Hb. split.
    + right. apply list_elem_of_omap in Hb as (i & _ & Hi). apply list_elem_of_lookup_2 in Hi.
      by rewrite elem_of_reverse in Hi.
    + rewrite forallb_forall in Hg. specialize (Hg b (proj1 (list_elem_of_In _ _) Hb)). unfold verifies in Hg.
      by destruct (block_verify _ _ _ _) as [[]|].
  - intros Heq. inv_ok Heq. by eapply step_commit.
  - destruct (_ <? _)%N eqn:Hp; [|done]. cbn [ensure result_bind]. intros Heq. inv_ok Heq.
    eapply step_restart; [done|by apply N.ltb_lt|done].
  - destruct (try_send _ _) as [h|]; [|done]. intros [= <-]. by apply step_submit.
  - intros [= <-]. by apply step_drain.
Qed.

Lemma exec_all_steps l s s' : exec_all l s = Ok s' → rtc (step serialized_len order C p Byz md) s s'.
Proof.
  revert s. induction l as [|x l IH]; intros s; simpl; [intros [= <-]; apply rtc_refl|].
  intros Heq. inv_ok Heq. eapply rtc_l; [by eapply exec_step|]. by apply IH.
Qed.

Lemma boot_spec e l s :
  boot e l = Ok s → produced s = [] ∧
  ∀ a, match nodes s !! a with
       | Some n => a ∈ l ∧ node_linearizer n = linearizer_new ∧ node_out n = [] ∧
           core_open handler_new a C {| wal := []; store := store_new a C |} recovered_empty
             (committer_new C p) (e a) = Ok (node_core n)
       | None => a ∉ l
       end.
Proof.
  revert s. induction l as [|x l IH]; intros s; simpl.
  { intros [= <-]. split; [done|]. intros a. simpl. rewrite lookup_empty. apply not_elem_of_nil. }
  intros Heq. inv_ok Heq. destruct (IH _ eq_refl) as [Hp Hn]. split; [done|]. intros b. simpl.
  destruct (decide (x = b)) as [->|Hne].
  - rewrite lookup_insert_eq. split_and!; [set_solver|done|done|done].
  - rewrite lookup_insert_ne by done. specialize (Hn b). destruct (nodes a !! b); set_solver.
Qed.

Lemma boot_initial e l s :
  boot e l = Ok s → (∀ a, a ∈ l ↔ known C a ∧ a ∉ Byz) → initial C p Byz s.
Proof.
  intros [Hp Hn]%boot_spec Hl. split; [done|]. intros a. specialize (Hn a).
  destruct (nodes s !! a) as [n|].
  - destruct Hn as (Ha & H1 & H2 & H3). apply Hl in Ha as [Hk Hb]. eauto 10.
  - destruct (decide (a ∈ Byz)); [by left|right]. intros Hk. apply Hn, Hl. done.
Qed.

(** Booting and running. *)
Definition run (e : Authority → CryptoEngine) (l : list Authority) (acts : list action) : result System :=
  let? s := boot e l in exec_all acts s.

Lemma run_reachable e l acts s :
  (∀ a, a ∈ l ↔ known C a ∧ a ∉ Byz) → run e l acts = Ok s → reachable serialized_len order C p Byz md s.
Proof.
  intros Hl Heq. unfold run in Heq. inv_ok Heq. exists a. split; [by eapply boot_initial|by eapply exec_all_steps].
Qed.
End Exec.

(** ** A run of four validators, one of them silent *)

(** A checksum for a hash and a signature that hashes the key with the message. *)
Definition toy_hash (m : bytes) : bytes := [fold_left Z.add m 0%Z].
#[export] Instance toy_crypto : BlockCrypto :=
  {| blake2b256 := toy_hash; ed25519_sign := λ k m, toy_hash (k ++ m);
     ed25519_verify := λ k s m, bool_decide (s = toy_hash (k ++ m)) |}.

Definition demo_infos : list AuthorityInfo := map (λ k, {| stake := 1; public_key := [k] |}) [0; 1; 2; 3]%Z.
Definition demo_committee : Committee := {| committee_authorities := demo_infos; total_stake := 4 |}.
Definition demo_parameters : ConsensusProtocol := Mysticeti 1.
Definition demo_protocol : Protocol := mysticeti (total_stake demo_committee) 1.
Definition demo_engine (a : Authority) : CryptoEngine := {| signer := [Z.of_N a]; mode := Enabled |}.
Definition demo_len (b : Block) : N := 1.
Definition demo_byz : gset Authority := {[3%N]}.

(** One round: everyone proposes, everyone receives. *)
Definition demo_round (k : nat) : list action :=
  [Propose 0 1; Propose 1 1; Propose 2 1; Receive 0 [k + 1; k + 2]; Receive 1 [k + 2; k]; Receive 2 [k; k + 1]].
Definition demo_run : list action :=
  demo_round 0 ++ demo_round 3 ++ demo_round 6 ++ [Commit 0; Restart 1; Commit 1].

Notation demo_exec :=
  (run demo_len elements demo_committee demo_protocol Enabled demo_engine [0; 1; 2]%N demo_run).
Definition from_ok (r : result System) : System :=
  match r with Ok s => s | Err _ => {| nodes := ∅; produced := [] |} end.
Definition demo_state : System := from_ok demo_exec.
Definition demo_node (a : Authority) : option Node := nodes demo_state !! a.

Lemma from_ok_spec r : is_ok r = true → r = Ok (from_ok r).
Proof. by destruct r. Qed.

Lemma demo_setup : setup elements demo_committee demo_parameters demo_protocol demo_byz.
Proof.
  split; [|vm_compute; reflexivity|exact I|vm_compute; reflexivity|vm_compute; reflexivity|done].
  apply (committee_new_ok demo_infos). vm_compute. reflexivity.
Qed.

Lemma demo_exec_ok : demo_exec = Ok demo_state.
Proof. apply from_ok_spec. vm_compute. reflexivity. Qed.

Lemma demo_reachable : reachable demo_len elements demo_committee demo_protocol demo_byz Enabled demo_state.
Proof.
  apply (run_reachable _ _ _ _ _ _ demo_engine [0; 1; 2]%N demo_run); [|exact demo_exec_ok].
  intros a. rewrite <- known_authority_iff. unfold known_authority, demo_byz.
  change (committee_len demo_committee) with 4%N. rewrite N.ltb_lt, not_elem_of_singleton, !elem_of_cons, elem_of_nil. lia.
Qed.

(** Two of them delivered the same sub-DAG of five blocks, one of them after a
    restart; the third has not committed yet. *)
Lemma demo_outcome :
  map (λ a, (λ n, length (delivered (node_out n))) <$> demo_node a) [0; 1; 2; 3]%N
  = [Some 5; Some 5; Some 0; None].
Proof. vm_compute. reflexivity. Qed.

Lemma demo_some a : bool_decide (is_Some (demo_node a)) = true → ∃ n, nodes demo_state !! a = Some n.
Proof. unfold demo_node. destruct (nodes demo_state !! a) as [n|]; [by exists n|done]. Qed.

Lemma demo_zero : ∃ n, nodes demo_state !! 0%N = Some n.
Proof. apply demo_some. vm_compute. reflexivity. Qed.
Lemma demo_one : ∃ n, nodes demo_state !! 1%N = Some n.
Proof. apply demo_some. vm_compute. reflexivity. Qed.

Lemma system_agreement_witness :
  ∃ n0 n1, nodes demo_state !! 0%N = Some n0 ∧ nodes demo_state !! 1%N = Some n1 ∧
  (node_out n0 `prefix_of` node_out n1 ∨ node_out n1 `prefix_of` node_out n0).
Proof.
  destruct demo_zero as [n0 H0], demo_one as [n1 H1]. exists n0, n1. split; [exact H0|]. split; [exact H1|].
  exact (system_agreement _ _ _ _ _ _ _ demo_state 0%N n0 1%N n1 demo_setup demo_reachable H0 H1).
Defined.

Lemma system_no_panic_witness :
  ∃ n0, nodes demo_state !! 0%N = Some n0 ∧ is_ok (node_commit n0) = true.
Proof.
  destruct demo_zero as [n0 H0]. exists n0. split; [exact H0|].
  exact (proj1 (proj2 (proj2 (system_no_panic _ _ _ _ _ _ _ demo_state 0%N n0 demo_setup demo_reachable H0)))).
Defined.

Lemma demo_out : ∃ n1 sub, nodes demo_state !! 1%N = Some n1 ∧ node_out n1 = [sub].
Proof.
  destruct demo_one as [n1 H1]. exists n1.
  assert (match nodes demo_state !! 1%N with Some n => length (node_out n) =? 1 | None => false end = true) as Hl
    by (vm_compute; reflexivity).
  rewrite H1 in Hl |- *. destruct (node_out n1) as [|sub [|]]; [discriminate Hl| |discriminate Hl].
  exists sub. split; reflexivity.
Qed.

Lemma system_delivery_witness :
  ∃ n1 sub leader, nodes demo_state !! 1%N = Some n1 ∧ node_out n1 = [sub] ∧
    NoDup (delivered_refs (node_out n1)) ∧
    sub_anchor sub = reference leader ∧ leader ∈ sub_blocks sub.
Proof.
  destruct demo_out as (n1 & sub & H1 & Hout).
  pose proof (system_delivery _ _ _ _ _ _ _ demo_state 1%N n1 demo_setup demo_reachable H1)
    as (Hnd & _ & _ & _ & Hsub).
  destruct (Hsub [] sub [] Hout) as (D & leader & _ & _ & Hanc & Hin & _). exists n1, sub, leader.
  split; [exact H1|]. split; [exact Hout|]. split; [exact Hnd|]. split; [exact Hanc|exact Hin].
Defined.

(** The blocks of the run, the latest first. *)
Definition demo_block (k : nat) : Block := default (block_genesis 0) (produced demo_state !! k).
Lemma demo_block_exists k : (k <? 9)%nat = true → existing demo_committee demo_state (demo_block k).
Proof.
  intros Hk%Nat.ltb_lt. right. unfold demo_block.
  assert (length (produced demo_state) = 9) as Hl by (vm_compute; reflexivity).
  destruct (lookup_lt_is_Some_2 (produced demo_state) k) as [b Hb]; [by rewrite Hl|].
  rewrite Hb. by eapply list_elem_of_lookup_2.
Qed.

Lemma demo_honest : author (demo_block 8) ∉ demo_byz.
Proof.
  assert (author (demo_block 8) = 0%N) as -> by (vm_compute; reflexivity).
  unfold demo_byz. by rewrite not_elem_of_singleton.
Qed.

Lemma system_no_equivocation_witness :
  ∃ i incs, includes (demo_block 2) = i :: incs ∧ ref_authority i = author (demo_block 8) ∧
    (round (demo_block 8) ≤ ref_round i)%N.
Proof.
  apply (proj2 (system_no_equivocation _ _ _ _ _ _ _ demo_state (demo_block 8) (demo_block 2) demo_setup
    demo_reachable (demo_block_exists 8 eq_refl) (demo_block_exists 2 eq_refl)
    demo_honest ltac:(vm_compute; reflexivity))).
  vm_compute. reflexivity.
Defined.

Lemma demo_stored : ∃ n b, nodes demo_state !! 0%N = Some n ∧
  core_view (node_core n) !! reference (demo_block 0) = Some b.
Proof.
  assert (match nodes demo_state !! 0%N with
          | Some n => match core_view (node_core n) !! reference (demo_block 0) with Some _ => true | None => false end
          | None => false
          end = true) as Hs by (vm_compute; reflexivity).
  destruct (nodes demo_state !! 0%N) as [n|]; [|discriminate Hs]. exists n.
  destruct (core_view (node_core n) !! reference (demo_block 0)) as [b|]; [|discriminate Hs].
  exists b. split; reflexivity.
Qed.

Lemma system_typed_witness :
  ∃ b, reference b = reference (demo_block 0) ∧ well_formed demo_committee (quorum_threshold demo_protocol) b.
Proof.
  destruct demo_stored as (n & b & Hn & Hb). exists b.
  destruct (system_typed _ _ _ _ _ _ _ demo_state 0%N n (reference (demo_block 0)) b demo_setup demo_reachable Hn Hb)
    as (H1 & _ & H2 & _). exact (conj H1 H2).
Defined.

Lemma system_missing_witness :
  ∃ n, nodes demo_state !! 0%N = Some n ∧
  (in_missing (missing (block_manager (node_core n))) 1 (reference (demo_block 1)) ↔
   1 = N.to_nat (ref_authority (reference (demo_block 1))) ∧
   core_view (node_core n) !! reference (demo_block 1) = None ∧
   blocks_pending (block_manager (node_core n)) !! reference (demo_block 1) = None ∧
   ∃ q b, blocks_pending (block_manager (node_core n)) !! q = Some b ∧ reference (demo_block 1) ∈ includes b).
Proof.
  destruct demo_zero as [n H0]. exists n. split; [exact H0|].
  exact (system_missing _ _ _ _ _ _ _ demo_state 0%N n 1 (reference (demo_block 1)) demo_setup demo_reachable H0).
Defined.

Lemma demo_proposed : ∃ n, nodes demo_state !! 1%N = Some n ∧ (0 < last_proposed (node_core n))%N.
Proof.
  assert (match nodes demo_state !! 1%N with Some n => (0 <? last_proposed (node_core n))%N | None => false end = true)
    as Hs by (vm_compute; reflexivity).
  destruct (nodes demo_state !! 1%N) as [n|]; [|discriminate Hs]. exists n. split; [reflexivity|].
  apply N.ltb_lt, Hs.
Qed.

Lemma system_recovery_witness :
  ∃ n n', nodes demo_state !! 1%N = Some n ∧ node_restart handler_new n = Ok n' ∧ node_out n' = node_out n.
Proof.
  destruct demo_proposed as (n & Hn & Hp).
  destruct (system_recovery _ _ _ _ _ _ _ demo_state 1%N n handler_new demo_setup demo_reachable Hn Hp)
    as (n' & H1 & _ & _ & _ & _ & H2). exists n, n'. exact (conj Hn (conj H1 H2)).
Defined.

Lemma demo_next : ∃ n c b, nodes demo_state !! 2%N = Some n ∧
  try_new_block demo_len 5 (node_core n) = Ok (c, Some b) ∧ crypto (node_core n) = demo_engine 2.
Proof.
  assert (match nodes demo_state !! 2%N with
          | Some n => match try_new_block demo_len 5 (node_core n) with
                      | Ok (_, Some _) => bool_decide (signer (crypto (node_core n)) = [2%Z]) && match mode (crypto (node_core n)) with Enabled => true | _ => false end
                      | _ => false
                      end
          | None => false
          end = true) as Hs by (vm_compute; reflexivity).
  destruct (nodes demo_state !! 2%N) as [n|]; [|discriminate Hs]. exists n.
  destruct (try_new_block demo_len 5 (node_core n)) as [[c [b|]]|] ; [|discriminate Hs..]. exists c, b.
  split; [reflexivity|]. split; [reflexivity|]. apply andb_true_iff in Hs as [H1%bool_decide_eq_true H2].
  destruct (crypto (node_core n)) as [sg []]; simpl in *; by subst.
Qed.

Lemma system_proposal_witness :
  ∃ b, block_verify b demo_committee (quorum_threshold demo_protocol) Enabled = Ok tt.
Proof.
  destruct demo_next as (n & c & b & Hn & Hb & He). exists b.
  apply (system_proposal _ _ _ _ _ _ _ demo_state 2%N n c b 5%N [2%Z] demo_setup demo_reachable Hn Hb);
    [reflexivity|rewrite He; intros m; apply bool_decide_eq_true_2; reflexivity|rewrite He; reflexivity|discriminate].
Defined.

Lemma system_incremental_witness :
  ∃ n n' D, nodes demo_state !! 1%N = Some n ∧ node_commit n = Ok n' ∧
    handle_commit (core_reader (node_core n)) (size (core_view (node_core n))) linearizer_new (omap committed D)
    = Ok (node_linearizer n', node_out n').
Proof.
  destruct demo_one as [n H1].
  destruct (system_incremental _ _ _ _ _ _ _ demo_state 1%N n demo_setup demo_reachable H1) as (n' & D & E1 & _ & _ & E2).
  exists n, n', D. exact (conj H1 (conj E1 E2)).
Defined.
End Runs.
