(* ===== verification/DagLimits.v ===== *)
(** * Limits of the consensus code

    Where the code does less than its comments say, each on a concrete input or
    for every input of a shape: the block digest does not separate includes from
    transactions ([content_image_ambiguous], [block_malleable]), the thresholds
    wrap for very large stakes ([third_quorum_wraps], [orcaella_wraps]), and the
    recovery of a validator can leave it unable to propose ([restart_alone],
    [restart_all]) or with a proposal nobody accepts ([restart_before_proposal]).
    None of it is within the assumptions of the theorems on the whole system. *)

From S2P Require Import Prelude Committee DagBlock DagStore Protocol Committer Linearizer DagCore DagRecovery DagSystem.
From stdpp Require Import base gmap list strings.
From Stdlib Require Import NArith ZArith Lia.

(** ** Digests *)

Section Digest.
Context `{BlockCrypto}.

(** The last include, read as a transaction of forty bytes. *)
Definition as_transaction (x : BlockReference) : bytes := to_be_bytes (ref_round x) ++ ref_digest x.

Lemma to_be_bytes_length n : length (to_be_bytes n) = 8.
Proof. unfold to_be_bytes. by rewrite length_map, length_seq. Qed.

Lemma reference_as_transaction x :
  ref_authority x = 40%N → length (ref_digest x) = 32 →
  reference_image x = transaction_image (as_transaction x).
Proof.
  intros Hx Hd. unfold reference_image, transaction_image. f_equal. rewrite Hx. f_equal.
  unfold as_transaction. by rewrite length_app, Hd, to_be_bytes_length.
Qed.

Lemma content_image_ambiguous a r incs x txs ts :
  ref_authority x = 40%N → length (ref_digest x) = 32 →
  content_image a r (incs ++ [x]) txs ts = content_image a r incs (as_transaction x :: txs) ts.
Proof.
  intros Hx Hd. unfold content_image. rewrite map_app, concat_app. cbn [map concat].
  rewrite app_nil_r, (reference_as_transaction x Hx Hd). by rewrite <- !app_assoc.
Qed.

(** The block with its last include turned into a transaction. *)
Definition reread (b : Block) (incs : list BlockReference) (x : BlockReference) : Block :=
  {| reference := reference b; includes := incs; block_transactions := as_transaction x :: block_transactions b;
     timestamp_ns := timestamp_ns b; block_signature := block_signature b |}.

(** A block that verifies and whose last include is a block of validator 40 has a
    twin: a different block under the same reference, with the author's signature,
    that verifies as well as soon as the other includes are a quorum. *)
Lemma block_malleable b C q md incs x :
  (0 < q)%N → block_verify b C q md = Ok tt → includes b = incs ++ [x] →
  ref_authority x = 40%N → length (ref_digest x) = 32 →
  (q ≤ stake_of C (parents_at (reread b incs x) (round b - 1)))%N →
  block_verify (reread b incs x) C q md = Ok tt ∧ reread b incs x ≠ b ∧
  reference (reread b incs x) = reference b.
Proof.
  intros Hq Hv Hi Hx Hd Hpar.
  apply block_verify_ok in Hv as (Hr & [Ha Hinc _] & pk & Hpk & Hc); [|done]. split_and!; [|by intros Heq; rewrite <- Heq in Hi; apply (f_equal length) in Hi; rewrite length_app in Hi; simpl in Hi; lia|done].
  apply block_verify_ok; [done|]. split; [done|]. split.
  - split; [done| |done]. intros i Hin. apply Hinc. rewrite Hi. apply elem_of_app. by left.
  - exists pk. split; [done|]. destruct md; [|done|done]. unfold crypto_verify in *.
    unfold digest_new in *. rewrite Hi, content_image_ambiguous in Hc by done. exact Hc.
Qed.
End Digest.

(** ** Thresholds *)

Definition heavy : list AuthorityInfo := replicate 2 {| stake := 2 ^ 62; public_key := [] |}.

(** [Committee::new] accepts two validators of stake [2^62]; twice the total is
    zero in [u64], so every quorum of Mysticeti is a stake of one: two disjoint
    validators are each a quorum. *)
Lemma third_quorum_wraps :
  ∃ C, committee_new heavy = Ok C ∧
  certificate_quorum (mysticeti (total_stake C) 1) = 1%N ∧ get_stake C 0 = Some (2 ^ 62)%N.
Proof. eexists. vm_compute. split; [reflexivity|]. split; reflexivity. Qed.

(** The fault bound of Orcaella wraps to zero: the parameters are accepted with any
    committee. *)
Lemma orcaella_wraps l T : ∃ p, orcaella T 3689348814741910323 0 l = inl p.
Proof.
  unfold orcaella. assert (w64 (w64 (w64 (5 * 3689348814741910323) + w64 (3 * 0)) + 1) = 0%N) as Hw
    by (vm_compute; reflexivity).
  rewrite Hw. cbn [N.eqb]. rewrite (proj2 (N.ltb_ge T 0)) by lia. by eexists.
Qed.

(** ** Recovery *)

Module Recovery.
Import DagSystem.Runs.

(** The round the validators of a state propose next, [None] when they do not. *)
Definition proposals (l : list Authority) (r : result System) : list (option RoundNumber) :=
  match r with
  | Err _ => []
  | Ok s => map (λ a, n ← nodes s !! a;
      match try_new_block demo_len 5 (node_core n) with Ok (_, Some b) => Some (round b) | _ => None end) l
  end.

Definition alone : Committee := {| committee_authorities := [{| stake := 1; public_key := [0%Z] |}]; total_stake := 1 |}.

(** The only validator of a committee proposes round after round; after a restart
    it does not propose any more, since the recovered clock has not counted its
    own last block. *)
Lemma restart_alone :
  let run acts := run demo_len elements alone (mysticeti 1 1) Enabled demo_engine [0%N] acts in
  proposals [0%N] (run [Propose 0 1; Propose 0 1]) = [Some 3%N] ∧
  proposals [0%N] (run [Propose 0 1; Propose 0 1; Restart 0]) = [None].
Proof. vm_compute. split; reflexivity. Qed.

Definition exchange : list action := [Receive 0 [1; 2]; Receive 1 [2; 0]; Receive 2 [0; 1]].

(** Three of four validators restart between proposing and receiving the others'
    blocks: no one proposes again until the fourth does. *)
Lemma restart_all :
  let run acts := run demo_len elements demo_committee demo_protocol Enabled demo_engine [0; 1; 2]%N acts in
  let round_one := [Propose 0 1; Propose 1 1; Propose 2 1] in
  proposals [0; 1; 2]%N (run (round_one ++ exchange)) = [Some 2; Some 2; Some 2]%N ∧
  proposals [0; 1; 2]%N (run (round_one ++ [Restart 0; Restart 1; Restart 2] ++ exchange)) = [None; None; None].
Proof. vm_compute. split; reflexivity. Qed.

(** A restart before the first proposal loses the genesis blocks to include: the
    validator waits for blocks of round 1, its own block of that round then has
    one parent only, and no one accepts it. *)
Definition proposal_check (n : result Node) : option (nat * bool) :=
  match n with
  | Err _ => None
  | Ok n =>
      match try_new_block demo_len 5 (node_core n) with
      | Ok (_, Some b) =>
          Some (length (includes b), is_ok (block_verify b demo_committee (quorum_threshold demo_protocol) Enabled))
      | _ => None
      end
  end.

(** Validator 0 receives the first blocks of the others, after [k] on its fresh state. *)
Definition first_blocks (k : Node → result Node) : result Node :=
  let? s := run demo_len elements demo_committee demo_protocol Enabled demo_engine [0; 1; 2]%N
              [Propose 1 1; Propose 2 1] in
  match nodes s !! 0%N with
  | Some n => let? n := k n in node_receive elements (produced s) n
  | None => Err "no such node"
  end.

Lemma restart_before_proposal :
  proposal_check (first_blocks Ok) = Some (4, true) ∧
  proposal_check (first_blocks (node_restart handler_new)) = Some (1, false).
Proof. vm_compute. split; reflexivity. Qed.
End Recovery.
