(* ===== verification/History.v ===== *)
(** * The durable history: [kanari-core/src/engine.rs] and [engine/bootstrap.rs]

    How checkpoints are written to the persistent store, pruned, and read back
    into a chain when the engine starts: the keys, the raw changes committed
    with a checkpoint, the snapshot of the chain, the recovery scan and the
    durable marker of a checkpoint whose commit was interrupted.

    Every write of the store is one step of [Disk], which remembers the earlier
    contents: a crash leaves one of them behind. *)

From stdpp Require Import base list gmap strings sorting.
From Stdlib Require Import ZArith Lia.
From S2P Require Import Prelude Order Hashing Text Address GasCoin SmtSpec Transaction Blockchain Mempool Proposer ChangeSet StateManager StateSupply StateRoot StateStartup.

(** ** The store *)

Record Disk := { contents : gmap bytes bytes; earlier : list (gmap bytes bytes) }.
Abbreviation dk := (st Disk).

(** What a crash can leave behind. *)
Definition durable (d : Disk) : list (gmap bytes bytes) := contents d :: earlier d.

Definition write (f : gmap bytes bytes → gmap bytes bytes) : dk unit :=
  st_modify (λ d, {| contents := f (contents d); earlier := contents d :: earlier d |}).
Definition read {A} (f : gmap bytes bytes → result A) : dk A := λ d, (d, f (contents d)).

(** [if let Err(error) = m { warn!(..) }] *)
Definition attempt {A} (m : dk A) : dk unit := λ d, ((m d).1, Ok tt).

(** ** Third-party codecs *)

Record LegacyCheckpointMetadata := {
  legacy_sequence : Z;
  legacy_vertices : list bytes;
  legacy_transactions : list SignedTransaction;
  legacy_state_root : bytes;
  legacy_timestamp : Z;
  legacy_prev_checkpoint_hash : bytes
}.

Record PersistedTransactionLocation := {
  checkpoint_sequence : Z;
  location_state_root : bytes
}.

(** The fields of [Blockchain] that are not [serde(skip)]. *)
Definition ChainRecord : Type := list Checkpoint * Z.

Class HistoryCodecs {SC : StateCodecs} := {
  checkpoint_codec : Codec Checkpoint;
  txs_codec : Codec (list SignedTransaction);        (* Arc<[SignedTransaction]> *)
  tx_codec : Codec SignedTransaction;
  hashes_codec : Codec (list bytes);                 (* Vec<Vec<u8>> *)
  watermark_codec : Codec (gmap bytes Z);            (* BTreeMap<String, u64> *)
  location_codec : Codec PersistedTransactionLocation;
  chain_codec : Codec ChainRecord;
  legacy_dec : bytes → option LegacyCheckpointMetadata;
  json_checkpoint_dec : bytes → option Checkpoint;   (* serde_json *)
  json_chain : Codec ChainRecord;
  hashes_storable : ∀ l, Forall bytes_ok l → storable hashes_codec l;
  watermark_storable : ∀ m, map_Forall (λ k v, is_str k ∧ is_u64 v) m → storable watermark_codec m;
  chain_storable : ∀ cs total, Forall (storable checkpoint_codec) cs → is_u64 total →
    storable json_chain (cs, total);
  json_storable : ∀ r, storable json_chain r → storable blob_codec (enc json_chain r)
}.

(** [serde(skip)] on the caches of a transaction. *)
Definition forget_tx (tx : SignedTransaction) : SignedTransaction :=
  {| transaction := transaction tx; signature := signature tx;
     cached_transaction_hash := None; cached_verified_signature := None |}.

Definition set_transactions (txs : list SignedTransaction) (c : Checkpoint) : Checkpoint :=
  {| sequence := sequence c; vertices := vertices c; transactions := txs;
     transaction_effects := transaction_effects c; checkpoint_changes := checkpoint_changes c;
     object_graph_edges := object_graph_edges c; state_root := state_root c;
     timestamp := timestamp c; prev_checkpoint_hash := prev_checkpoint_hash c;
     hash_version := hash_version c |}.
Definition forget (c : Checkpoint) : Checkpoint :=
  set_transactions (map forget_tx (transactions c)) c.

(** ** Keys *)

Definition RawCheckpointUpdates : Type := list (bytes * bytes).
Definition RawCheckpointDeletes : Type := list bytes.
Definition MAX_PERSISTED_RECENT_TX_HASHES : Z := 100000.

(** [{sequence:020}] *)
Definition pad20 (n : Z) : bytes :=
  let digits := u64_to_string n in replicate (20 - length digits) 48%Z ++ digits.

Definition checkpoint_transactions_key (sequence : Z) : bytes := str "checkpoint_txs/" ++ pad20 sequence.
Definition checkpoint_metadata_key (sequence : Z) : bytes := str "checkpoint_meta/" ++ pad20 sequence.
Definition checkpoint_metadata_json_key (sequence : Z) : bytes :=
  str "checkpoint_meta_json_v1/" ++ pad20 sequence.
Definition blockchain_json_key : bytes := str "blockchain_json_v1".
Definition blockchain_key : bytes := str "blockchain".
Definition pending_checkpoint_commit_key : bytes := str "runtime:pending_checkpoint_commit_v1".
Definition transaction_payload_key `{Hex} (tx_hash : bytes) : bytes := str "tx_payload/" ++ hex_encode tx_hash.
Definition transaction_index_key `{Hex} (tx_hash : bytes) : bytes := str "tx_index/" ++ hex_encode tx_hash.
Definition recent_transaction_hashes_key : bytes := str "tx_recent".
Definition sender_nonce_watermark_key : bytes := str "sender_nonce_watermark_v1".
Definition history_pruned_through_key : bytes := str "runtime:history_pruned_through".
Definition history_persisted_through_key : bytes := str "runtime:history_persisted_through".

Section History.
Context {B3 : Blake3} {BC : Bcs} {BK : BcsCheckpoint} {HX : Hex} {SC : StateCodecs} {TT : TypeTags}
  {HC : HistoryCodecs}.
Local Abbreviation entries_t := (gmap bytes bytes).
Context (sha3_256 to_uppercase to_lowercase : bytes → bytes).
(** The environment, and [store.get_db().is_some()]. *)
Context (env : bytes → option bytes) (rocks : bool).

Definition save {T} (c : Codec T) (key : bytes) (v : T) : dk unit := write (<[key := enc c v]>).
Definition erase (key : bytes) : dk unit := write (delete key).

(** ** Configuration *)

Definition history_retention_checkpoints : option Z :=
  value ← env (str "KANARI_HISTORY_RETENTION_CHECKPOINTS");
  n ← parse_u64 value;
  if (0 <? n)%Z then Some n else None.

(** [matches!(value, "1" | "true" | "TRUE" | "yes" | "YES")] *)
Definition enabled (value : bytes) : bool :=
  existsb (λ s, bool_decide (value = str s)) ["1"; "true"; "TRUE"; "yes"; "YES"]%string.

Definition persist_transaction_hash_index_enabled : bool :=
  match env (str "KANARI_PERSIST_TX_HASH_INDEX") with
  | Some value => enabled value
  | None => negb (is_none history_retention_checkpoints) || negb rocks
  end.

Definition persist_blockchain_json_snapshot_enabled : bool :=
  match env (str "KANARI_PERSIST_BLOCKCHAIN_JSON") with
  | Some value => enabled value
  | None => negb rocks
  end.

(** ** Writing a checkpoint *)

Definition checkpoint_without_transactions (c : Checkpoint) : Checkpoint :=
  let stripped :=
    with_object_graph_edges (object_graph_edges c)
      (with_object_changes (checkpoint_changes c)
        (with_transaction_effects (transaction_effects c)
          (checkpoint_new (sequence c) (vertices c) [] (state_root c) (timestamp c)
            (prev_checkpoint_hash c)))) in
  {| sequence := sequence stripped; vertices := vertices stripped;
     transactions := transactions stripped; transaction_effects := transaction_effects stripped;
     checkpoint_changes := checkpoint_changes stripped;
     object_graph_edges := object_graph_edges stripped; state_root := state_root stripped;
     timestamp := timestamp stripped; prev_checkpoint_hash := prev_checkpoint_hash stripped;
     hash_version := hash_version c |}.

Definition load_sender_nonce_watermark (m : entries_t) : result (gmap bytes Z) :=
  let? loaded := store_load watermark_codec sender_nonce_watermark_key m in Ok (default ∅ loaded).

Definition load_recent_transaction_hashes_for_update (m : entries_t) : result (list bytes) :=
  let? loaded := store_load hashes_codec recent_transaction_hashes_key m in
  match loaded with
  | None => Ok []
  | Some hashes =>
      let? _ := ensure (forallb (λ h, length h =? 32) hashes)
        "Recent transaction index contains invalid hash length" in
      Ok hashes
  end.

(** The body of the loop over the checkpoint's transactions. *)
Definition index_transaction (persist_hash_index : bool) (c : Checkpoint)
    (acc : RawCheckpointUpdates * list bytes * gset bytes) (tx : SignedTransaction) :
    RawCheckpointUpdates * list bytes * gset bytes :=
  let '(updates, recent_hashes, recent_set) := acc in
  let tx_hash := hash_of tx in
  let updates :=
    if persist_hash_index then
      updates ++ [(transaction_index_key tx_hash,
        enc location_codec {| checkpoint_sequence := sequence c; location_state_root := state_root c |})]
    else updates in
  if bool_decide (tx_hash ∈ recent_set) then (updates, recent_hashes, recent_set)
  else (updates, recent_hashes ++ [tx_hash], {[tx_hash]} ∪ recent_set).

(** [recent_hashes.drain(0..trim)] *)
Definition trim_recent (recent_hashes : list bytes) : list bytes :=
  drop (Z.to_nat (Z.of_nat (length recent_hashes) - MAX_PERSISTED_RECENT_TX_HASHES)) recent_hashes.

Definition history_marker (mark_history_persisted : bool) (c : Checkpoint) : RawCheckpointUpdates :=
  if mark_history_persisted then [(history_persisted_through_key, enc u64_codec (sequence c))] else [].

Definition checkpoint_persistence_raw_changes (m : entries_t) (c : Checkpoint)
    (mark_history_persisted : bool) : result (RawCheckpointUpdates * RawCheckpointDeletes) :=
  let updates := [(checkpoint_metadata_key (sequence c),
    enc checkpoint_codec (forget (checkpoint_without_transactions c)))] in
  let deletes := [checkpoint_metadata_json_key (sequence c)] in
  if list_empty (transactions c) || (sequence c =? 0)%Z then
    Ok (updates ++ history_marker mark_history_persisted c, deletes)
  else
  let? recent_hashes := load_recent_transaction_hashes_for_update m in
  let '(updates, recent_hashes, _) :=
    fold_left (index_transaction persist_transaction_hash_index_enabled c) (transactions c)
      (updates, recent_hashes, list_to_set recent_hashes) in
  let updates := updates ++
    [(recent_transaction_hashes_key, enc hashes_codec (trim_recent recent_hashes))] in
  let? watermark := load_sender_nonce_watermark m in
  let sender_watermark :=
    sender_watermark_update sha3_256 to_uppercase to_lowercase watermark (transactions c) in
  let updates := updates ++ [(sender_nonce_watermark_key, enc watermark_codec sender_watermark)] in
  let updates := updates ++
    [(checkpoint_transactions_key (sequence c), enc txs_codec (map forget_tx (transactions c)))] in
  Ok (updates ++ history_marker mark_history_persisted c, deletes).

Definition persist_checkpoint_transactions (c : Checkpoint) : dk unit :=
  '(updates, deletes) ← read (λ m, checkpoint_persistence_raw_changes m c false);
  write (apply_raw_changes updates deletes).

(** ** Reading it back *)

(** [store.load(..).ok().flatten()] *)
Definition load_ok {T} (c : Codec T) (key : bytes) (m : entries_t) : option T :=
  match store_load c key m with Ok v => v | Err _ => None end.

Definition load_checkpoint_metadata (m : entries_t) (sequence : Z) : option Checkpoint :=
  let from_json :=
    json ← load_ok blob_codec (checkpoint_metadata_json_key sequence) m;
    json_checkpoint_dec json in
  match from_json with
  | Some checkpoint => Some checkpoint
  | None =>
      match m !! checkpoint_metadata_key sequence with
      | None => None
      | Some b =>
          match dec checkpoint_codec b with
          | Some checkpoint => Some checkpoint
          | None =>
              legacy ← legacy_dec b;
              Some (checkpoint_new (legacy_sequence legacy) (legacy_vertices legacy)
                (legacy_transactions legacy) (legacy_state_root legacy) (legacy_timestamp legacy)
                (legacy_prev_checkpoint_hash legacy))
          end
      end
  end.

Definition load_checkpoint_transactions (m : entries_t) (sequence : Z) :
    option (list SignedTransaction) :=
  load_ok txs_codec (checkpoint_transactions_key sequence) m.

Definition load_transaction_by_hash_from_index (m : entries_t) (tx_hash : bytes) :
    option (SignedTransaction * PersistedTransactionLocation) :=
  location ← load_ok location_codec (transaction_index_key tx_hash) m;
  tx ← match load_ok tx_codec (transaction_payload_key tx_hash) m with
       | Some tx => Some tx
       | None =>
           transactions ← load_checkpoint_transactions m (checkpoint_sequence location);
           find (λ tx, bool_decide (hash_of tx = tx_hash)) transactions
       end;
  Some (tx, location).

(** [for sequence in (1..=height).rev()], then the transactions in reverse. *)
Fixpoint scan_history (m : entries_t) (tx_hash : bytes) (sequences : list Z) :
    option (SignedTransaction * Z * bytes) :=
  match sequences with
  | [] => None
  | sequence :: sequences =>
      match load_checkpoint_transactions m sequence with
      | None => scan_history m tx_hash sequences
      | Some transactions =>
          match find (λ tx, bool_decide (hash_of tx = tx_hash)) (rev transactions) with
          | Some tx =>
              let root := match load_checkpoint_metadata m sequence with
                          | Some checkpoint => state_root checkpoint
                          | None => []
                          end in
              Some (tx, sequence, root)
          | None => scan_history m tx_hash sequences
          end
      end
  end.

(** The last loop, over the checkpoints in memory; genesis ends it. *)
Fixpoint scan_chain (tx_hash : bytes) (cs : list Checkpoint) : option (SignedTransaction * Z * bytes) :=
  match cs with
  | [] => None
  | c :: cs =>
      if (sequence c =? 0)%Z then None else
      match find (λ tx, bool_decide (hash_of tx = tx_hash)) (rev (transactions c)) with
      | Some tx => Some (tx, sequence c, state_root c)
      | None => scan_chain tx_hash cs
      end
  end.

Definition get_committed_transaction_from_history (store : option entries_t) (chain : Blockchain)
    (tx_hash : bytes) : option (SignedTransaction * Z * bytes) :=
  m ← store;
  match load_transaction_by_hash_from_index m tx_hash with
  | Some (tx, location) => Some (tx, checkpoint_sequence location, location_state_root location)
  | None =>
      height ← height chain;
      match scan_history m tx_hash (rev (seqZ 1 height)) with
      | Some found => Some found
      | None => scan_chain tx_hash (rev (dag_checkpoints chain))
      end
  end.

Definition get_committed_transaction_effect_from_history (store : option entries_t)
    (chain : Blockchain) (tx_hash : bytes) : option TransactionEffects :=
  let persisted :=
    m ← store;
    '(_, location) ← load_transaction_by_hash_from_index m tx_hash;
    transactions ← load_checkpoint_transactions m (checkpoint_sequence location);
    index ← find_index tx_hash (map hash_of transactions);
    checkpoint ← load_checkpoint_metadata m (checkpoint_sequence location);
    transaction_effects checkpoint !! index in
  match persisted with
  | Some effect => Some effect
  | None =>
      '(_, _, _, effect) ← get_transaction_location_with_effect chain tx_hash;
      effect
  end.

(** ** Pruning *)

(** The loop over [previous + 1 ..= through], with the pruned hashes. *)
Fixpoint prune_sequences (sequences : list Z) (pruned_hashes : gset bytes) : dk (gset bytes) :=
  match sequences with
  | [] => mret pruned_hashes
  | sequence :: sequences =>
      loaded ← read (λ m, Ok (load_checkpoint_transactions m sequence));
      let hashes := map hash_of (default [] loaded) in
      for_each hashes (λ hash, erase (transaction_payload_key hash)) ≫= λ _,
      erase (checkpoint_transactions_key sequence) ≫= λ _,
      prune_sequences sequences (pruned_hashes ∪ list_to_set hashes)
  end.

Definition prune_transaction_payloads (through : Z) : dk unit :=
  if (through =? 0)%Z then mret tt else
  previous ← read (store_load u64_codec history_pruned_through_key);
  let previous := default 0%Z previous in
  if (through <=? previous)%Z then mret tt else
  pruned_hashes ← prune_sequences
    (seqZ (saturating_add previous 1) (through - saturating_add previous 1 + 1)) ∅;
  (if bool_decide (pruned_hashes = ∅) then mret tt else
   recent ← read load_recent_transaction_hashes_for_update;
   save hashes_codec recent_transaction_hashes_key
     (filter (λ hash, hash ∉ pruned_hashes) recent)) ≫= λ _,
  save u64_codec history_pruned_through_key through.

(** ** The snapshot of the chain *)

Definition no_genesis_panic : string := "blockchain must contain at least the genesis checkpoint".

Definition slim_checkpoint (c : Checkpoint) : Checkpoint :=
  if list_empty (transactions c) then c else checkpoint_without_transactions c.
Definition slim_chain (chain : Blockchain) : ChainRecord :=
  (map (λ c, forget (slim_checkpoint c)) (dag_checkpoints chain), total_transaction_count chain).

(** The checkpoints the snapshot still has to write. *)
Definition unpersisted (persisted_through : option Z) (cs : list Checkpoint) : list Checkpoint :=
  List.filter (λ c, match persisted_through with
               | None => true
               | Some through => (through <? sequence c)%Z
               end) cs.

Definition persist_blockchain_snapshot_to_store (chain : Blockchain) : dk unit :=
  height ← st_lift (require (height chain) no_genesis_panic);
  persisted ← read (store_load u64_codec history_persisted_through_key);
  let persisted_through := (λ sequence, Z.min sequence height) <$> persisted in
  for_each (unpersisted persisted_through (dag_checkpoints chain)) persist_checkpoint_transactions ≫= λ _,
  save u64_codec history_persisted_through_key height ≫= λ _,
  (if persist_blockchain_json_snapshot_enabled then
     save blob_codec blockchain_json_key (enc json_chain (slim_chain chain))
   else erase blockchain_json_key) ≫= λ _,
  match history_retention_checkpoints with
  | Some retention => prune_transaction_payloads (saturating_sub height retention)
  | None => mret tt
  end.

Definition hydrate_checkpoint (m : entries_t) (c : Checkpoint) : Checkpoint :=
  if negb (list_empty (transactions c)) || (sequence c =? 0)%Z then c
  else match load_checkpoint_transactions m (sequence c) with
       | Some transactions => set_transactions transactions c
       | None => c
       end.
Definition hydrate_blockchain_transactions (m : entries_t) (chain : Blockchain) : Blockchain :=
  set_dag (map (hydrate_checkpoint m) (dag_checkpoints chain)) chain.

(** ** Recovery at start-up *)

Definition is_internal_smt_key (key : bytes) : bool :=
  starts_with (str "n:") key || starts_with (str "d:") key.
Definition logical_entries (m : entries_t) : list (bytes * bytes) :=
  if rocks then List.filter (λ e, negb (is_internal_smt_key e.1)) (btree_iter m) else btree_iter m.

Definition strip_prefix (prefix s : bytes) : option bytes :=
  if starts_with prefix s then Some (drop (length prefix) s) else None.

(** The closure of the [filter_map]. *)
Definition checkpoint_sequence_of (key : bytes) : option Z :=
  if utf8_valid key then
    suffix ← match strip_prefix (str "checkpoint_meta/") key with
             | Some s => Some s
             | None =>
                 match strip_prefix (str "checkpoint_meta_json_v1/") key with
                 | Some s => Some s
                 | None => strip_prefix (str "checkpoint_txs/") key
                 end
             end;
    parse_u64 suffix
  else None.

(** [dedup] *)
Fixpoint dedup (l : list Z) : list Z :=
  match l with
  | x :: (y :: _) as r => if (x =? y)%Z then dedup r else x :: dedup r
  | _ => l
  end.

Definition recover_checkpoint_sequences_from_store (m : entries_t) : list Z :=
  dedup (merge_sort Z.le (omap (λ e, checkpoint_sequence_of e.1) (logical_entries m))).

(** The checkpoint of one recovery entry; [Ok None] ends the recovery. *)
Definition recover_checkpoint (m : entries_t) (blockchain : Blockchain) (sequence : Z) :
    result (option Checkpoint) :=
  let? checkpoint :=
    match load_checkpoint_metadata m sequence with
    | Some checkpoint => Ok (Some checkpoint)
    | None =>
        match load_checkpoint_transactions m sequence with
        | None => Ok None
        | Some transactions =>
            let? latest := require (latest_checkpoint blockchain) no_genesis_panic in
            let? prev_hash := checkpoint_hash latest in
            Ok (Some (checkpoint_new sequence [] transactions []
              (saturating_add (timestamp latest) 1) prev_hash))
        end
    end in
  match checkpoint with
  | None => Ok None
  | Some c =>
      Ok (Some (match load_checkpoint_transactions m sequence with
                | Some txs => if list_empty (transactions c) then set_transactions txs c else c
                | None => c
                end))
  end.

Fixpoint recover_loop (m : entries_t) (sequences : list Z) (blockchain : Blockchain) :
    result (option Blockchain) :=
  match sequences with
  | [] => Ok (Some (rebuild_tx_hash_index blockchain))
  | sequence :: sequences =>
      if (sequence =? 0)%Z then recover_loop m sequences blockchain else
      let? checkpoint := recover_checkpoint m blockchain sequence in
      match checkpoint with
      | None => Ok None
      | Some checkpoint =>
          match add_checkpoint_with_validation checkpoint true blockchain with
          | (blockchain, Ok _) => recover_loop m sequences blockchain
          | (_, Err _) => Ok None
          end
      end
  end.

Definition recover_blockchain_from_checkpoint_store (m : entries_t) : result (option Blockchain) :=
  match recover_checkpoint_sequences_from_store m with
  | [] => Ok None
  | checkpoint_sequences => recover_loop m checkpoint_sequences blockchain_new
  end.

(** *** The fallback to a fresh genesis *)

Section Start.
(** The arguments of [StateManager::try_new]. *)
Context (init_genesis : st StateManager unit) (fail_fast : bool).

(** [StateManager::try_new(store)?.try_compute_state_root()?] *)
Definition started_root (m : entries_t) : entries_t * result bytes :=
  let '(m, r) := try_new init_genesis fail_fast m in
  (m, let? state := r in try_compute_state_root state).

Definition persistent_store_can_use_fresh_genesis_metadata : dk bool :=
  entries ← st_gets (λ d, logical_entries (contents d));
  if list_empty entries then mret true else
  marker ← read (store_load checkpoint_codec pending_checkpoint_commit_key);
  if negb (is_none marker) then mret true else
  state_root ← (λ d, let '(m, r) := started_root (contents d) in
                     ({| contents := m; earlier := contents d :: earlier d |}, r));
  fresh_root ← st_lift (started_root ∅).2;
  mret (bool_decide (state_root = fresh_root)).

Definition fresh_genesis_if_allowed (require_recoverable_metadata : bool) : dk Blockchain :=
  allowed ← (if require_recoverable_metadata then persistent_store_can_use_fresh_genesis_metadata
             else mret true);
  st_lift (ensure allowed "Refusing to create fresh genesis") ≫= λ _,
  mret blockchain_new.

(** *** Loading the chain *)

(** [Deserialize] of [Blockchain]: the skipped fields are empty. *)
Definition chain_of_record (r : ChainRecord) : Blockchain :=
  {| dag_checkpoints := r.1; executed_tx_hashes := ∅; tx_hash_queue := [];
     tx_location_index := ∅; total_transaction_count := r.2 |}.

(** The common tail of the two snapshot formats. *)
Definition restore_snapshot (r : ChainRecord) : dk Blockchain :=
  let '(blockchain, repaired_genesis) := ensure_genesis_retained (chain_of_record r) in
  blockchain ← st_gets (λ d, rebuild_tx_hash_index (hydrate_blockchain_transactions (contents d) blockchain));
  (if (repaired_genesis : bool) then attempt (persist_blockchain_snapshot_to_store blockchain) else mret tt) ≫= λ _,
  mret blockchain.

Definition load_blockchain (require_recoverable_metadata : bool) : dk Blockchain := λ d,
  let from_json :=
    json ← load_ok blob_codec blockchain_json_key (contents d);
    dec json_chain json in
  match from_json with
  | Some r => restore_snapshot r d
  | None =>
      match store_load chain_codec blockchain_key (contents d) with
      | Ok (Some r) => restore_snapshot r d
      | loaded =>
          (recovered ← read recover_blockchain_from_checkpoint_store;
           match recovered with
           | Some blockchain =>
               attempt (persist_blockchain_snapshot_to_store blockchain) ≫= λ _, mret blockchain
           | None =>
               if is_ok loaded then fresh_genesis_if_allowed require_recoverable_metadata
               else st_lift (Err "Failed to load blockchain metadata and checkpoint recovery failed")
           end) d
      end
  end.

(** *** The marker of an interrupted commit: the first half of [init] *)

(** The match on [checkpoint.sequence.cmp(&chain.height())]. *)
Definition resume_checkpoint (checkpoint : Checkpoint) (chain : Blockchain) : result Blockchain :=
  let? latest := require (latest_checkpoint chain) no_genesis_panic in
  match (sequence checkpoint ?= sequence latest)%Z with
  | Gt =>
      match add_checkpoint_with_validation checkpoint true chain with
      | (chain, Ok _) => Ok chain
      | (_, Err _) => Err "Failed to recover checkpoint metadata from durable marker"
      end
  | Eq =>
      let? latest_hash := checkpoint_hash latest in
      let? marker_hash := checkpoint_hash checkpoint in
      let? _ := ensure (bool_decide (latest_hash = marker_hash))
        "Pending checkpoint marker conflicts with persisted checkpoint" in
      Ok chain
  | Lt => Err "Pending checkpoint marker is behind persisted chain height"
  end.

Definition init_chain (require_recoverable_metadata : bool) : dk Blockchain :=
  blockchain ← load_blockchain require_recoverable_metadata;
  marker ← read (store_load checkpoint_codec pending_checkpoint_commit_key);
  match marker with
  | None => mret blockchain
  | Some checkpoint =>
      chain ← st_lift (resume_checkpoint checkpoint blockchain);
      persist_blockchain_snapshot_to_store chain ≫= λ _,
      erase pending_checkpoint_commit_key ≫= λ _,
      mret chain
  end.
End Start.
End History.

(** ** Stand-ins for concrete runs *)

Module ToyHistory.
Import ToyCodecs.

(** A cheap checksum in place of Blake3. *)
Definition checksum (data : bytes) : bytes := (fold_left Z.add data 7 mod 251)%Z :: replicate 31 0%Z.
Lemma checksum_ok data : hash_ok (checksum data).
Proof.
  split; [done|]. constructor; [|by apply Forall_replicate].
  unfold byte_ok. pose proof (Z.mod_pos_bound (fold_left Z.add data 7%Z) 251). lia.
Qed.
#[export] Instance quick_blake3 : Blake3 := {| blake3 := checksum; blake3_ok := checksum_ok |}.

(** Transactions that differ in their nonce only. *)
Definition tx (n : Z) : SignedTransaction := signed_new
  (UpgradeModule {| tx_sender := str "0xa"; tx_gas_payment := None; tx_gas_limit := 1;
                    tx_gas_price := 1; tx_nonce := n |} [] (str "m")).
Definition nonces (txs : list SignedTransaction) : list Z := map (λ t, nonce (transaction t)) txs.
Definition plain (txs : list SignedTransaction) : Prop := map tx (nonces txs) = txs.

Definition packed : Type := Z * list bytes * list Z * bytes * Z * bytes * Z.
Definition pack (c : Checkpoint) : packed :=
  (sequence c, vertices c, nonces (transactions c), state_root c, timestamp c, prev_checkpoint_hash c, hash_version c).
Definition unpack_checkpoint (p : packed) : Checkpoint :=
  let '(seq, vs, ns, root, time, prev, v) := p in
  {| sequence := seq; vertices := vs; transactions := map tx ns; transaction_effects := [];
     checkpoint_changes := []; object_graph_edges := []; state_root := root; timestamp := time;
     prev_checkpoint_hash := prev; hash_version := v |}.

(** A codec through a countable type. *)
Program Definition through {T P : Type} `{Countable P} (out : T → P) (back : P → T) : Codec T :=
  {| enc v := enc (codec P) (out v); dec b := back <$> dec (codec P) b; storable v := back (out v) = v |}.
Next Obligation. intros T P ? ? out back v Hv. cbn. rewrite decode_encode. cbn. by rewrite Hv. Qed.

#[export] Instance toy_history : HistoryCodecs := {|
  checkpoint_codec := through pack unpack_checkpoint;
  txs_codec := through nonces (map tx);
  tx_codec := through (λ t, nonce (transaction t)) tx;
  hashes_codec := codec (list bytes);
  watermark_codec := codec (gmap bytes Z);
  location_codec := through (λ l, (checkpoint_sequence l, location_state_root l))
    (λ p, {| checkpoint_sequence := p.1; location_state_root := p.2 |});
  chain_codec := through (λ r, (map pack r.1, r.2)) (λ p, (map unpack_checkpoint p.1, p.2));
  legacy_dec _ := None;
  json_checkpoint_dec _ := None;
  json_chain := through (λ r, (map pack r.1, r.2)) (λ p, (map unpack_checkpoint p.1, p.2));
  hashes_storable _ _ := I;
  watermark_storable _ _ := I;
  chain_storable cs total Hc _ := f_equal (λ l, (l, total)) (eq_trans (map_map _ _ _)
    (eq_trans (map_ext_in _ (λ x, x) _ (λ c Hin, proj1 (List.Forall_forall _ _) Hc c Hin)) (map_id cs)));
  json_storable _ _ := I
|}.
End ToyHistory.
