(* ===== verification/ChainReplay.v ===== *)
(** * Replaying a chain

    A chain is what its checkpoints, added one after the other to a new chain,
    give.  Here: a checkpoint that went through the store (its transactions lose
    their caches) is accepted wherever the original was, and the chain rebuilt
    from the retained checkpoints stays in step with the original.  The theorem
    at the end says what a chain remembers of all that was added to it. *)

From stdpp Require Import base list gmap strings sorting.
From Stdlib Require Import ZArith Lia.
From S2P Require Import Prelude Order Hashing SmtSpec Transaction TypesTheorems Blockchain BlockchainTheorems History.

Section Replay.
Context {B3 : Blake3} {BC : Bcs} {BK : BcsCheckpoint}.

(** All additions succeed. *)
Fixpoint replay (cs : list Checkpoint) (bc : Blockchain) : option Blockchain :=
  match cs with
  | [] => Some bc
  | c :: cs =>
      match add_checkpoint_with_validation c true bc with
      | (bc, Ok _) => replay cs bc
      | (_, Err _) => None
      end
  end.

Lemma replay_app cs ds bc :
  replay (cs ++ ds) bc = match replay cs bc with Some bc => replay ds bc | None => None end.
Proof.
  revert bc. induction cs as [|c cs IH]; intros bc; [done|]. cbn [app replay].
  destruct (add_checkpoint_with_validation c true bc) as [bc' []]; [apply IH|done].
Qed.

Lemma replay_snoc cs c bc bc1 :
  replay cs bc = Some bc1 →
  replay (cs ++ [c]) bc = match add_checkpoint_with_validation c true bc1 with
                          | (bc2, Ok _) => Some bc2
                          | (_, Err _) => None
                          end.
Proof. intros E. rewrite replay_app, E. cbn [replay]. by destruct (add_checkpoint_with_validation c true bc1) as [? []]. Qed.

Lemma add_ok_inv c bc bc' :
  add_checkpoint_with_validation c true bc = (bc', Ok tt) →
  bc' = append_checkpoint bc c ∧ validate_checkpoint bc c = Ok tt.
Proof.
  unfold add_checkpoint_with_validation. destruct (validate_checkpoint bc c) as [[]|]; [|done].
  by intros [= <-].
Qed.

Lemma add_ok c bc :
  validate_checkpoint bc c = Ok tt →
  add_checkpoint_with_validation c true bc = (append_checkpoint bc c, Ok tt).
Proof. unfold add_checkpoint_with_validation. by intros ->. Qed.

Lemma replay_snoc_ok cs c bc bc1 :
  replay cs bc = Some bc1 → validate_checkpoint bc1 c = Ok tt →
  replay (cs ++ [c]) bc = Some (append_checkpoint bc1 c).
Proof. intros E Hv. by rewrite (replay_snoc _ _ _ _ E), (add_ok _ _ Hv). Qed.

(** ** The window *)

(** The retained checkpoints: genesis and the last 999. *)
Definition window (cs : list Checkpoint) : list Checkpoint :=
  drop (length cs - (MAX_RETAINED_BLOCKS - 1)) cs.

Lemma window_snoc cs c :
  window (cs ++ [c])
  = if MAX_RETAINED_BLOCKS <? length (genesis :: window cs ++ [c]) then tail (window cs ++ [c])
    else window cs ++ [c].
Proof.
  unfold window. cbn [length]. rewrite !length_app, length_drop. cbn [length].
  unfold MAX_RETAINED_BLOCKS. destruct (Nat.ltb_spec 1000 (S (length cs - (length cs - (1000 - 1)) + 1))) as [H|H].
  - replace (length cs + 1 - (1000 - 1)) with (S (length cs - (1000 - 1))) by lia.
    rewrite <- (drop_app_le cs [c]) by lia.
    change (tail (drop (length cs - (1000 - 1)) (cs ++ [c]))) with (drop 1 (drop (length cs - (1000 - 1)) (cs ++ [c]))).
    rewrite drop_drop. f_equal. lia.
  - replace (length cs + 1 - (1000 - 1)) with 0 by lia.
    replace (length cs - (1000 - 1)) with 0 by lia. done.
Qed.

Lemma window_sublist cs c : c ∈ window cs → c ∈ cs.
Proof. unfold window. intros H. rewrite <- (take_drop (length cs - (MAX_RETAINED_BLOCKS - 1)) cs). apply elem_of_app. by right. Qed.

Lemma window_last cs : last (genesis :: window cs) = Some (default genesis (last cs)).
Proof.
  induction cs as [|c cs _] using rev_ind; [done|]. rewrite last_snoc. cbn [default].
  assert (E : ∃ l, window (cs ++ [c]) = l ++ [c]).
  { unfold window. exists (drop (length (cs ++ [c]) - (MAX_RETAINED_BLOCKS - 1)) cs).
    rewrite length_app. cbn [length]. apply drop_app_le. unfold MAX_RETAINED_BLOCKS. lia. }
  destruct E as [l ->]. apply (last_snoc c (genesis :: l)).
Qed.

Lemma nth_sequence cs i c :
  map sequence cs = seqZ 1 (Z.of_nat (length cs)) → cs !! i = Some c → sequence c = (1 + Z.of_nat i)%Z.
Proof.
  intros E Hi. assert (H : map sequence cs !! i = Some (sequence c)) by (by rewrite list_lookup_fmap, Hi).
  rewrite E in H. apply lookup_seqZ in H as [H _]. lia.
Qed.

Lemma last_sequence cs :
  map sequence cs = seqZ 1 (Z.of_nat (length cs)) →
  sequence (default genesis (last cs)) = Z.of_nat (length cs).
Proof.
  intros E. destruct (last cs) as [c|] eqn:El; [|by apply last_None in El as ->].
  rewrite last_lookup in El. change (sequence (default genesis (Some c))) with (sequence c).
  rewrite (nth_sequence _ _ _ E El). destruct cs; [done|]. cbn [length Nat.pred]. lia.
Qed.

(** What a replay from a new chain leaves. *)
Lemma replay_dag cs bc :
  replay cs blockchain_new = Some bc →
  dag_checkpoints bc = genesis :: window cs ∧ chain_inv bc
  ∧ map sequence cs = seqZ 1 (Z.of_nat (length cs)).
Proof.
  revert bc. induction cs as [|c cs IH] using rev_ind; intros bc E.
  { cbn in E. injection E as <-. split; [done|]. split; [apply new_inv|done]. }
  rewrite replay_app in E. destruct (replay cs blockchain_new) as [bc0|] eqn:E0; [|done].
  destruct (IH bc0 eq_refl) as (Hd & Hi & Hs). cbn [replay] in E.
  destruct (add_checkpoint_with_validation c true bc0) as [bc1 [[]|]] eqn:Ea; [|done]. injection E as <-.
  pose proof (add_inv _ _ _ Hi Ea) as Hi1. apply add_ok_inv in Ea as [-> Hv]. split; [|split; [done|]].
  - rewrite append_dag, Hd. cbv zeta. change ((genesis :: window cs) ++ [c]) with (genesis :: (window cs ++ [c])).
    rewrite window_snoc. destruct (MAX_RETAINED_BLOCKS <? _) eqn:Eb; [|done].
    destruct (window cs ++ [c]) as [|x l] eqn:Ew; [|done]. by destruct (window cs).
  - apply validate_checkpoint_ok in Hv as (latest & Hl & Hseq & _). unfold latest_checkpoint in Hl.
    rewrite Hd, window_last in Hl. injection Hl as <-.
    pose proof (last_sequence cs Hs) as Hlast.
    rewrite map_app, Hs, length_app. cbn [map length]. rewrite Hseq, Hlast.
    replace (Z.of_nat (length cs + 1)) with (Z.of_nat (length cs) + 1)%Z by lia.
    rewrite seqZ_app by lia. f_equal. rewrite seqZ_cons by lia. change (seqZ (Z.succ _) (Z.pred 1)) with (@nil Z).
    f_equal. lia.
Qed.

Lemma replay_latest cs bc :
  replay cs blockchain_new = Some bc → latest_checkpoint bc = Some (default genesis (last cs)).
Proof. intros E. apply replay_dag in E as (E & _). unfold latest_checkpoint. rewrite E. apply window_last. Qed.

Lemma replay_sequence cs bc i c :
  replay cs blockchain_new = Some bc → cs !! i = Some c → sequence c = (1 + Z.of_nat i)%Z.
Proof. intros E. apply replay_dag in E as (_ & _ & E). by apply nth_sequence. Qed.

Lemma replay_height cs bc :
  replay cs blockchain_new = Some bc → height bc = Some (Z.of_nat (length cs)).
Proof.
  intros E. unfold height. rewrite (replay_latest _ _ E). cbn [fmap option_fmap option_map].
  f_equal. apply last_sequence, (replay_dag _ _ E).
Qed.

(** ** Forgotten caches *)

(** The hash cache holds the hash of the transaction. *)
Definition cache_ok (tx : SignedTransaction) : Prop :=
  ∀ h, cached_transaction_hash tx = Some h → h = tx_hash (transaction tx).
Definition caches_ok (c : Checkpoint) : Prop := Forall cache_ok (transactions c).

Lemma hash_of_forget tx : cache_ok tx → hash_of (forget_tx tx) = hash_of tx.
Proof.
  intros H. unfold hash_of, transaction_hash. cbn [forget_tx cached_transaction_hash transaction].
  destruct (cached_transaction_hash tx) as [h|] eqn:E; cbn [snd]; [symmetry; by apply H|done].
Qed.

Lemma tx_hashes_forget c : caches_ok c → tx_hashes (forget c) = tx_hashes c.
Proof.
  unfold tx_hashes. cbn [forget set_transactions transactions]. intros H. rewrite map_map.
  apply map_ext_in. intros tx Htx. apply hash_of_forget.
  apply (proj1 (Forall_forall _ _) H). by apply list_elem_of_In.
Qed.

Lemma checkpoint_hash_forget c : caches_ok c → checkpoint_hash (forget c) = checkpoint_hash c.
Proof.
  intros H. unfold checkpoint_hash. do 2 f_equal. unfold checkpoint_image_of.
  rewrite tx_hashes_forget by done. reflexivity.
Qed.

Lemma forget_tx_idemp tx : forget_tx (forget_tx tx) = forget_tx tx.
Proof. reflexivity. Qed.
Lemma map_forget_idemp txs : map forget_tx (map forget_tx txs) = map forget_tx txs.
Proof. rewrite map_map. apply map_ext. apply forget_tx_idemp. Qed.
Lemma forget_idemp c : forget (forget c) = forget c.
Proof. unfold forget at 1 2. cbn [forget set_transactions transactions]. rewrite map_forget_idemp. reflexivity. Qed.

Lemma forget_caches c : caches_ok (forget c).
Proof. unfold caches_ok. cbn. apply Forall_forall. intros tx Htx. apply list_elem_of_fmap in Htx as (? & -> & _). by intros h [=]. Qed.

(** ** Chains in step *)

(** The same checkpoints up to caches, and no more executed hashes. *)
Record in_step (bc' bc : Blockchain) : Prop := {
  step_dag : dag_checkpoints bc' = map forget (dag_checkpoints bc);
  step_queue : tx_hash_queue bc' `suffix_of` tx_hash_queue bc;
  step_index : index_ok bc;
  step_index' : index_ok bc'
}.

Lemma forget_genesis : forget genesis = genesis.
Proof. reflexivity. Qed.

Lemma in_step_new : in_step blockchain_new blockchain_new.
Proof. split; [done|done| |]; split; by try constructor. Qed.

(** The newest hashes that fit in the index. *)
Definition newest (q : list bytes) : list bytes := drop (overflow q) q.

Lemma newest_suffix q q' : q' `suffix_of` q → newest q' `suffix_of` newest q.
Proof.
  intros [p ->]. unfold newest, overflow. rewrite length_app.
  set (n := Z.to_nat MAX_RETAINED_TX_HASHES).
  assert (Hn : Z.of_nat n = MAX_RETAINED_TX_HASHES) by (unfold n, MAX_RETAINED_TX_HASHES; lia).
  rewrite <- Hn. clearbody n. clear Hn. destruct (decide (length q' ≤ n)).
  - replace (Z.to_nat (Z.of_nat (length q') - Z.of_nat n)) with 0 by lia. rewrite drop_0.
    rewrite drop_app_le by lia. by exists (drop (Z.to_nat (Z.of_nat (length p + length q') - Z.of_nat n)) p).
  - rewrite drop_app_ge by lia.
    replace (Z.to_nat (Z.of_nat (length p + length q') - Z.of_nat n) - length p)
      with (Z.to_nat (Z.of_nat (length q') - Z.of_nat n)) by lia. done.
Qed.

Lemma newest_of_suffix q : newest q `suffix_of` q.
Proof. exists (take (overflow q) q). symmetry. apply take_drop. Qed.

Lemma add_queue bc c :
  index_ok bc → validate_checkpoint bc c = Ok tt →
  tx_hash_queue (append_checkpoint bc c) = newest (tx_hash_queue bc ++ tx_hashes c).
Proof.
  intros Hi Hv. apply validate_checkpoint_ok in Hv as (_ & _ & _ & _ & Hnd & Hf).
  destruct (append_index bc c) as (-> & _). unfold track_checkpoint_transactions.
  destruct (evict_index (fold_left (track_tx (sequence c)) (enumerate_hashes c) bc)) as [_ ->];
    [by apply track_fold_index|].
  destruct (track_fold_fresh (sequence c) (enumerate_hashes c) bc) as [-> _];
    rewrite ?enumerate_snd; [done..|]. done.
Qed.

Lemma append_index_ok bc c : index_ok bc → index_ok (append_checkpoint bc c).
Proof. intros H. by apply append_index_inv. Qed.

Lemma executed_suffix bc' bc h :
  in_step bc' bc → h ∉ executed_tx_hashes bc → h ∉ executed_tx_hashes bc'.
Proof.
  intros [_ [p Hq] [_ He] [_ He']]. rewrite He, He', !elem_of_list_to_set, Hq, elem_of_app. naive_solver.
Qed.

Lemma in_step_valid bc' bc c :
  in_step bc' bc → caches_ok c → Forall caches_ok (dag_checkpoints bc) →
  validate_checkpoint bc c = Ok tt → validate_checkpoint bc' (forget c) = Ok tt.
Proof.
  intros Hs Hc Hall Hv. apply validate_checkpoint_ok in Hv as (latest & Hl & Hseq & Hh & Hnd & Hf).
  apply validate_checkpoint_ok. exists (forget latest). unfold latest_checkpoint in *.
  rewrite (step_dag _ _ Hs), tx_hashes_forget by done.
  change (last (map forget (dag_checkpoints bc))) with (last (forget <$> dag_checkpoints bc)).
  rewrite fmap_last, Hl. split; [done|]. split; [done|]. split.
  - rewrite checkpoint_hash_forget; [done|]. rewrite Forall_forall in Hall. by apply Hall, last_Some_elem_of.
  - split; [done|]. intros h Hin. eapply executed_suffix; [done|]. by apply Hf.
Qed.

Lemma append_dag_forget bc' bc c :
  dag_checkpoints bc' = map forget (dag_checkpoints bc) →
  dag_checkpoints (append_checkpoint bc' (forget c)) = map forget (dag_checkpoints (append_checkpoint bc c)).
Proof.
  intros E. rewrite !append_dag, E. cbv zeta. rewrite !length_app, length_map. cbn [length].
  destruct (MAX_RETAINED_BLOCKS <? _); [|by rewrite map_app].
  destruct (dag_checkpoints bc) as [|a [|b l]]; [done..|]. cbn [map app remove_second snd].
  by rewrite map_app.
Qed.

Lemma in_step_add bc' bc c bc1 :
  in_step bc' bc → caches_ok c → Forall caches_ok (dag_checkpoints bc) →
  add_checkpoint_with_validation c true bc = (bc1, Ok tt) →
  add_checkpoint_with_validation (forget c) true bc' = (append_checkpoint bc' (forget c), Ok tt)
  ∧ in_step (append_checkpoint bc' (forget c)) bc1.
Proof.
  intros Hs Hc Hall Ha. apply add_ok_inv in Ha as [-> Hv].
  pose proof (in_step_valid bc' bc c Hs Hc Hall Hv) as Hv'. split; [by apply add_ok|].
  destruct Hs as [Hd Hq Hi Hi']. split; [by apply append_dag_forget| |by apply append_index_ok..].
  rewrite !add_queue, tx_hashes_forget by done. apply newest_suffix.
  destruct Hq as [p ->]. exists p. by rewrite app_assoc.
Qed.

(** ** The rebuilt index *)

Local Abbreviation rebuild_step := (λ bc c, fold_left (λ bc e, evict (track_tx (sequence c) bc e)) (enumerate_hashes c) bc).

Lemma newest_snoc q h : newest (newest q ++ [h]) = newest (q ++ [h]).
Proof.
  unfold newest, overflow. rewrite !length_app, length_drop. cbn [length].
  set (n := Z.to_nat MAX_RETAINED_TX_HASHES).
  assert (Hn : Z.of_nat n = MAX_RETAINED_TX_HASHES) by (unfold n, MAX_RETAINED_TX_HASHES; lia).
  rewrite <- Hn. clearbody n. clear Hn.
  rewrite <- (drop_app_le q [h]) by lia. rewrite drop_drop. f_equal. lia.
Qed.

Lemma newest_app q hs : newest (newest q ++ hs) = newest (q ++ hs).
Proof.
  induction hs as [|h hs IH] using rev_ind.
  - rewrite !app_nil_r. unfold newest at 1. unfold newest, overflow. rewrite length_drop.
    set (n := Z.to_nat MAX_RETAINED_TX_HASHES).
    assert (Hn : Z.of_nat n = MAX_RETAINED_TX_HASHES) by (unfold n, MAX_RETAINED_TX_HASHES; lia).
    rewrite <- Hn. clearbody n. clear Hn. rewrite drop_drop. f_equal. lia.
  - rewrite !app_assoc, <- newest_snoc, IH. apply newest_snoc.
Qed.

Lemma newest_idemp q : newest (newest q) = newest q.
Proof. pose proof (newest_app q []) as E. by rewrite !app_nil_r in E. Qed.

Lemma newest_elem h q : h ∈ newest q → h ∈ q.
Proof. destruct (newest_of_suffix q) as [p E]. intros H. rewrite E. apply elem_of_app. by right. Qed.

(** One retained checkpoint, tracked again on a shorter queue. *)
Lemma rebuild_hashes seq es bc Q :
  index_ok bc → tx_hash_queue bc `suffix_of` newest Q →
  NoDup (map snd es) → (∀ h, h ∈ map snd es → h ∉ newest Q) →
  let bc' := fold_left (λ bc e, evict (track_tx seq bc e)) es bc in
  index_ok bc' ∧ dag_checkpoints bc' = dag_checkpoints bc
  ∧ tx_hash_queue bc' `suffix_of` newest (Q ++ map snd es).
Proof.
  revert bc Q. induction es as [|[i h] es IH]; intros bc Q Hi Hs Hnd Hf.
  { cbn [map fold_left]. by rewrite app_nil_r. }
  cbn [map snd] in *. apply NoDup_cons in Hnd as [Hni Hnd]. cbn [fold_left].
  pose proof (track_tx_index seq bc (i, h) Hi) as Ht. destruct (evict_index _ Ht) as [He Hq].
  destruct (evict_fields (track_tx seq bc (i, h))) as [Hd _].
  assert (Hh : is_transaction_hash_executed bc h = false).
  { apply bool_decide_false. destruct Hi as [_ ->]. rewrite elem_of_list_to_set. intros Hin.
    apply (Hf h); [by left|]. destruct Hs as [p ->]. apply elem_of_app. by right. }
  assert (Hq' : tx_hash_queue (evict (track_tx seq bc (i, h))) = newest (tx_hash_queue bc ++ [h])).
  { rewrite Hq. cbn [track_tx tx_hash_queue]. by rewrite Hh. }
  destruct (IH (evict (track_tx seq bc (i, h))) (Q ++ [h]) He) as (H1 & H2 & H3).
  - rewrite Hq', <- (newest_snoc Q). apply newest_suffix. destruct Hs as [p ->]. exists p. by rewrite app_assoc.
  - done.
  - intros h' Hin. rewrite <- newest_snoc. intros Hx%newest_elem.
    apply elem_of_app in Hx as [Hx|Hx%list_elem_of_singleton]; [|by subst].
    apply (Hf h'); [by right|done].
  - split; [done|]. split; [by rewrite H2|]. by rewrite <- app_assoc in H3.
Qed.

(** Retained checkpoints, tracked again beside the chain that accepted them. *)
Lemma rebuild_window ds bc bcQ bcQ' :
  index_ok bc → index_ok bcQ → tx_hash_queue bc `suffix_of` newest (tx_hash_queue bcQ) →
  Forall caches_ok ds → replay ds bcQ = Some bcQ' →
  let bc' := fold_left rebuild_step (map forget ds) bc in
  index_ok bc' ∧ index_ok bcQ' ∧ dag_checkpoints bc' = dag_checkpoints bc
  ∧ tx_hash_queue bc' `suffix_of` newest (tx_hash_queue bcQ').
Proof.
  revert bc bcQ. induction ds as [|c ds IH]; intros bc bcQ Hi HiQ Hs Hc E.
  { cbn in E. by injection E as <-. }
  apply Forall_cons in Hc as [Hc Hcs]. cbn [replay] in E.
  destruct (add_checkpoint_with_validation c true bcQ) as [bc1 [[]|]] eqn:Ea; [|done].
  apply add_ok_inv in Ea as [-> Hv]. pose proof (add_queue _ _ HiQ Hv) as Hq.
  pose proof Hv as Hv'. apply validate_checkpoint_ok in Hv' as (_ & _ & _ & _ & Hnd & Hf).
  cbn [map fold_left].
  destruct (rebuild_hashes (sequence (forget c)) (enumerate_hashes (forget c)) bc (tx_hash_queue bcQ)) as (H1 & H2 & H3).
  - done.
  - done.
  - by rewrite enumerate_snd, tx_hashes_forget.
  - rewrite enumerate_snd, tx_hashes_forget by done. intros h Hin Hx%newest_elem. apply (Hf h Hin).
    destruct HiQ as [_ ->]. by apply elem_of_list_to_set.
  - rewrite enumerate_snd, tx_hashes_forget in H3 by done.
    destruct (IH _ (append_checkpoint bcQ c) H1) as (H4 & H5 & H6 & H7).
    + by apply append_index_ok.
    + rewrite Hq, newest_idemp. exact H3.
    + done.
    + done.
    + split; [done|]. split; [done|]. split; [|done]. by rewrite H6.
Qed.

(** The chain rebuilt from the retained checkpoints of a replayed one. *)
Lemma in_step_rebuild cs bc bc' :
  replay cs blockchain_new = Some bc → Forall caches_ok cs →
  dag_checkpoints bc' = map forget (dag_checkpoints bc) →
  in_step (rebuild_tx_hash_index bc') bc.
Proof.
  intros E Hc Hd. pose proof (replay_dag _ _ E) as (Hdag & Hinv & _). destruct (inv_index _ Hinv) as [Hi Hlen].
  set (k := length cs - (MAX_RETAINED_BLOCKS - 1)).
  assert (Ecs : take k cs ++ window cs = cs) by apply take_drop.
  rewrite <- Ecs, replay_app in E.
  destruct (replay (take k cs) blockchain_new) as [bc0|] eqn:E0; [|done].
  destruct (inv_index _ (proj1 (proj2 (replay_dag _ _ E0)))) as [Hi0 _].
  set (start := {| dag_checkpoints := dag_checkpoints bc'; executed_tx_hashes := ∅; tx_hash_queue := [];
    tx_location_index := ∅; total_transaction_count := 0 |}).
  destruct (rebuild_window (window cs) start bc0 bc) as (H1 & _ & H2 & H3).
  - split; [constructor|done].
  - done.
  - apply suffix_nil.
  - apply Forall_forall. intros c Hin. rewrite Forall_forall in Hc. by apply Hc, window_sublist.
  - done.
  - assert (Ef : fold_left rebuild_step (dag_checkpoints bc') start
      = fold_left rebuild_step (map forget (window cs)) start).
    { rewrite Hd, Hdag. reflexivity. }
    unfold rebuild_tx_hash_index. fold start. rewrite Ef.
    split; cbn [dag_checkpoints tx_hash_queue executed_tx_hashes]; [by rewrite H2| |done|exact H1].
    destruct H3 as [p H3]. destruct (newest_of_suffix (tx_hash_queue bc)) as [p' H4].
    exists (p' ++ p). rewrite <- app_assoc, <- H3. exact H4.
Qed.

(** A chain that went through the store is accepted step by step. *)
Lemma in_step_replay cs bc :
  replay cs blockchain_new = Some bc → Forall caches_ok cs →
  ∃ bc', replay (map forget cs) blockchain_new = Some bc' ∧ in_step bc' bc.
Proof.
  revert bc. induction cs as [|c cs IH] using rev_ind; intros bc E Hc.
  { cbn in E. injection E as <-. exists blockchain_new. split; [done|apply in_step_new]. }
  apply Forall_app in Hc as [Hcs [Hc _]%Forall_cons].
  rewrite replay_app in E. destruct (replay cs blockchain_new) as [bc0|] eqn:E0; [|done].
  destruct (IH bc0 eq_refl Hcs) as (bc0' & E0' & Hs). cbn [replay] in E.
  destruct (add_checkpoint_with_validation c true bc0) as [bc1 [[]|]] eqn:Ea; [|done]. injection E as <-.
  destruct (in_step_add bc0' bc0 c bc1 Hs Hc) as [Ha' Hs'].
  - rewrite (proj1 (replay_dag _ _ E0)). constructor; [constructor|].
    apply Forall_forall. intros d Hd. rewrite Forall_forall in Hcs. by apply Hcs, window_sublist.
  - done.
  - rewrite map_app. cbn [map]. rewrite (replay_snoc _ _ _ _ E0'), Ha'. eauto.
Qed.

Lemma replay_caches cs bc :
  replay cs blockchain_new = Some bc → Forall caches_ok cs → Forall caches_ok (dag_checkpoints bc).
Proof.
  intros E Hc. rewrite (proj1 (replay_dag _ _ E)). constructor; [constructor|].
  apply Forall_forall. intros d Hd. rewrite Forall_forall in Hc. by apply Hc, window_sublist.
Qed.

(** ** The executed hashes *)

(** The queue holds the newest hashes of the whole history. *)
Lemma replay_queue cs bc :
  replay cs blockchain_new = Some bc → tx_hash_queue bc = newest (concat (map tx_hashes cs)).
Proof.
  revert bc. induction cs as [|c cs IH] using rev_ind; intros bc E.
  { cbn in E. by injection E as <-. }
  rewrite replay_app in E. destruct (replay cs blockchain_new) as [bc0|] eqn:E0; [|done]. cbn [replay] in E.
  destruct (add_checkpoint_with_validation c true bc0) as [bc1 [[]|]] eqn:Ea; [|done]. injection E as <-.
  apply add_ok_inv in Ea as [-> Hv]. destruct (inv_index _ (proj1 (proj2 (replay_dag _ _ E0)))) as [Hi _].
  rewrite (add_queue _ _ Hi Hv), (IH bc0 eq_refl), newest_app, map_app, concat_app. cbn [map concat].
  by rewrite app_nil_r.
Qed.

(** A rebuilt index knows hashes of retained checkpoints only. *)
Lemma rebuilt_executed bc h :
  h ∈ executed_tx_hashes (rebuild_tx_hash_index bc) → ∃ c, c ∈ dag_checkpoints bc ∧ h ∈ tx_hashes c.
Proof.
  unfold rebuild_tx_hash_index. cbv zeta. cbn [executed_tx_hashes]. intros Hh.
  set (start := {| dag_checkpoints := dag_checkpoints bc; executed_tx_hashes := ∅;
    tx_hash_queue := []; tx_location_index := ∅; total_transaction_count := 0 |}) in Hh.
  assert (Hi : index_ok start) by (split; [constructor|done]).
  destruct (rebuilt_checkpoints (dag_checkpoints bc) start Hi) as (_ & _ & Hs & _).
  apply Hs in Hh. cbn [executed_tx_hashes start] in Hh. rewrite union_empty_r_L in Hh.
  apply elem_of_list_to_set, list_elem_of_In, in_concat in Hh as (l & Hl & Hin).
  apply in_map_iff in Hl as (c & <- & Hc). exists c. split; by apply list_elem_of_In.
Qed.

(** ** The lifetime count *)

Local Abbreviation counted bc := (0 ≤ total_transaction_count bc ≤ u64_max)%Z.

Lemma track_tx_counted seq bc e : counted bc → counted (track_tx seq bc e).
Proof.
  destruct e as [i h]. cbn [track_tx total_transaction_count]. destruct (negb _); [|done].
  unfold saturating_add, u64_max. lia.
Qed.

Lemma track_fold_counted seq es bc : counted bc → counted (fold_left (track_tx seq) es bc).
Proof.
  revert bc. induction es as [|e es IH]; intros bc H; [done|]. cbn [fold_left]. apply IH. by apply track_tx_counted.
Qed.

Lemma append_counted bc c : counted bc → counted (append_checkpoint bc c).
Proof.
  intros H. destruct (append_index bc c) as (_ & _ & ->). unfold track_checkpoint_transactions.
  rewrite (proj2 (evict_fields _)). by apply track_fold_counted.
Qed.

Lemma replay_counted cs bc bc' : counted bc → replay cs bc = Some bc' → counted bc'.
Proof.
  revert bc. induction cs as [|c cs IH]; intros bc H E; cbn in E; [by injection E as <-|].
  destruct (add_checkpoint_with_validation c true bc) as [bc1 [[]|]] eqn:Ea; [|done].
  apply add_ok_inv in Ea as [-> _]. eapply IH; [|exact E]. by apply append_counted.
Qed.

Lemma rebuild_counted bc : counted bc → counted (rebuild_tx_hash_index bc).
Proof.
  intros H. unfold rebuild_tx_hash_index. cbv zeta. cbn [total_transaction_count].
  match goal with |- context [fold_left ?f ?l ?s] =>
    assert (Hr : counted (fold_left f l s)) end; [|lia].
  assert (Hs : ∀ cs bc, counted bc → counted (fold_left rebuild_step cs bc)).
  { clear. intros cs. induction cs as [|c cs IH]; intros bc H; [done|]. cbn [fold_left]. apply IH.
    generalize (enumerate_hashes c). intros es. revert bc H. induction es as [|e es IHe]; intros bc H; [done|].
    cbn [fold_left]. apply IHe. rewrite (proj2 (evict_fields _)). by apply track_tx_counted. }
  apply Hs. cbn. unfold u64_max. lia.
Qed.

(** ** What a chain remembers *)

Lemma replay_executed cs bc h :
  replay cs blockchain_new = Some bc →
  is_transaction_hash_executed bc h = true ↔ h ∈ newest (concat (map tx_hashes cs)).
Proof.
  intros E. destruct (inv_index _ (proj1 (proj2 (replay_dag _ _ E)))) as [[_ Hex] _].
  unfold is_transaction_hash_executed. rewrite bool_decide_eq_true, Hex, elem_of_list_to_set.
  by rewrite (replay_queue _ _ E).
Qed.

(** One addition: the checkpoint pushed out of the window is an old one that is
    no longer retained. *)
Lemma evicted_old cs c e bc :
  replay (cs ++ [c]) blockchain_new = Some bc →
  (remove_second ((genesis :: window cs) ++ [c])).1 = Some e →
  MAX_RETAINED_BLOCKS < length ((genesis :: window cs) ++ [c]) →
  e ∈ cs ∧ e ∉ window (cs ++ [c]).
Proof.
  intros E He Hb. rewrite window_snoc. change (genesis :: window cs ++ [c]) with ((genesis :: window cs) ++ [c]).
  rewrite (proj2 (Nat.ltb_lt _ _) Hb). destruct (window cs) as [|x w] eqn:Ew.
  { unfold MAX_RETAINED_BLOCKS in Hb. simpl in Hb. lia. }
  cbn [app remove_second fst] in He. injection He as ->. cbn [app tail].
  assert (Hin : e ∈ cs) by (apply window_sublist; rewrite Ew; by left). split; [done|]. intros Hw.
  pose proof (replay_dag _ _ E) as (Hd & Hinv & _). pose proof (inv_increasing _ Hinv) as Hs.
  rewrite replay_app in E. destruct (replay cs blockchain_new) as [bc0|] eqn:E0; [|done].
  destruct (replay_dag _ _ E0) as (Hd0 & Hinv0 & _). cbn [replay] in E.
  destruct (add_checkpoint_with_validation c true bc0) as [bc1 [[]|]] eqn:Ea; [|done].
  apply add_ok_inv in Ea as [_ Hv]. apply validate_checkpoint_ok in Hv as (latest & Hl & Hseq & _).
  unfold latest_checkpoint in Hl. pose proof (inv_increasing _ Hinv0) as Hs0.
  rewrite Hd0, Ew in Hs0, Hl. apply StronglySorted_inv in Hs0 as [Hs1 _].
  apply StronglySorted_inv in Hs1 as [_ Hlt]. rewrite Forall_forall in Hlt.
  apply elem_of_app in Hw as [Hw|Hw%list_elem_of_singleton].
  - specialize (Hlt e Hw). unfold seq_lt in Hlt. lia.
  - subst c. pose proof (inv_increasing _ Hinv0) as Hs2. rewrite Hd0, Ew in Hs2.
    pose proof (seq_lt_last _ _ e Hs2 Hl ltac:(right; by left)). lia.
Qed.

(** Every transaction of a retained checkpoint that is among the newest hashes,
    and in no other checkpoint, is located. *)
Lemma replay_located cs bc c i h :
  replay cs blockchain_new = Some bc → c ∈ window cs → tx_hashes c !! i = Some h →
  h ∈ newest (concat (map tx_hashes cs)) → (∀ d, d ∈ cs → h ∈ tx_hashes d → d = c) →
  tx_location_index bc !! h = Some (sequence c, i).
Proof.
  revert bc. induction cs as [|c' cs IH] using rev_ind; intros bc E Hc Hi Hn Hu.
  { by apply elem_of_nil in Hc. }
  pose proof E as Eall. rewrite replay_app in E. destruct (replay cs blockchain_new) as [bc0|] eqn:E0; [|done].
  cbn [replay] in E.
  destruct (add_checkpoint_with_validation c' true bc0) as [bc1 [[]|]] eqn:Ea; [|done]. injection E as <-.
  apply add_ok_inv in Ea as [-> Hv]. pose proof (replay_dag _ _ E0) as (Hd0 & Hinv0 & _).
  destruct (inv_index _ Hinv0) as [Hidx _].
  assert (Hnd : NoDup (tx_hashes c')) by (by apply validate_checkpoint_ok in Hv as (_ & _ & _ & _ & Hnd & _)).
  pose proof (replay_queue _ _ Eall) as Hq. rewrite append_located; [|done| |].
  - destruct (decide (h ∈ tx_hashes c')) as [Hh|Hh].
    + assert (c' = c) as <- by (apply Hu; [set_solver|done]).
      apply track_fold_located; [by rewrite enumerate_snd|by apply enumerate_elem].
    + assert (Hne : c ≠ c') by (intros ->; apply Hh; by eapply list_elem_of_lookup_2).
      assert (Hcw : c ∈ window cs).
      { assert (Hc' : c ∈ window cs ++ [c']); [|set_solver]. rewrite window_snoc in Hc.
        destruct (_ <? _); [|done]. destruct (window cs ++ [c']); [done|by right]. }
      rewrite track_fold_other by (by rewrite enumerate_snd). apply IH; [done|done|done| |].
      * rewrite map_app, concat_app in Hn. cbn [map concat] in Hn. rewrite app_nil_r in Hn.
        rewrite <- newest_app in Hn. by apply newest_elem, elem_of_app in Hn as [|].
      * intros d Hd. apply Hu. set_solver.
  - rewrite <- (proj1 (append_index bc0 c')), Hq. done.
  - rewrite Hd0. intros e He Hb Hin. destruct (evicted_old _ _ _ _ Eall He Hb) as [Hin' Hout].
    apply Hout. by rewrite (Hu e ltac:(set_solver) Hin).
Qed.

(** C31: what a chain remembers.  Of all checkpoints added to a new chain by
    validated additions, the chain keeps genesis and the last 999, in order of
    their sequence numbers, without a gap and linked by hashes, and every
    recorded transaction location is right ([chain_inv]).  The executed hashes are
    exactly the newest two million of all transactions ever added; while there
    are no more than that, no transaction was added twice.  Every transaction of a
    retained checkpoint that is among them, and in no other checkpoint, is in the
    location index under its checkpoint's sequence number and its position. *)
Theorem chain_of_additions (cs : list Checkpoint) (bc : Blockchain) :
  replay cs blockchain_new = Some bc →
  let added := concat (map tx_hashes cs) in
  chain_inv bc
  ∧ dag_checkpoints bc = genesis :: window cs
  ∧ (∀ h, is_transaction_hash_executed bc h = true ↔ h ∈ newest added)
  ∧ ((Z.of_nat (length added) ≤ MAX_RETAINED_TX_HASHES)%Z → NoDup added)
  ∧ (∀ c i h, c ∈ window cs → tx_hashes c !! i = Some h → h ∈ newest added →
       (∀ d, d ∈ cs → h ∈ tx_hashes d → d = c) →
       tx_location_index bc !! h = Some (sequence c, i)).
Proof.
  intros E added. pose proof (replay_dag _ _ E) as (Hd & Hinv & _).
  split_and!; [done|done|intros h; by apply replay_executed| |intros c i h; by apply replay_located].
  intros Hlen. destruct (inv_index _ Hinv) as [[Hnd _] _]. rewrite (replay_queue _ _ E) in Hnd.
  fold added in Hnd. unfold newest, overflow in Hnd.
  by replace (Z.to_nat _) with 0 in Hnd by (unfold MAX_RETAINED_TX_HASHES in *; lia).
Qed.
End Replay.

(** ** A chain of one checkpoint *)

Import ToyHash RunBcs BlockchainTheorems.Runs.

Lemma chain_of_additions_witness :
  is_transaction_hash_executed chain1 (hash_of (tx 2)) = true
  ∧ tx_location_index chain1 !! hash_of (tx 2) = Some (1%Z, 1).
Proof.
  destruct (chain_of_additions [first] chain1) as (_ & _ & Hex & _ & Hloc).
  { cbn [replay]. by rewrite chain1_eq. }
  assert (Hin : hash_of (tx 2) ∈ newest (concat (map tx_hashes [first]))).
  { apply (bool_decide_unpack _). by vm_compute. }
  split; [by apply Hex|]. apply (Hloc first 1 (hash_of (tx 2))); [|reflexivity|exact Hin|].
  - apply list_elem_of_singleton. reflexivity.
  - intros d Hd _. by apply list_elem_of_singleton in Hd.
Defined.
