(* ===== verification/HistoryStore.v ===== *)
(** * What the store holds of the history

    The keys of the durable history are pairwise different, the scan of the
    store finds exactly the checkpoints written, and writing one checkpoint
    touches its own records only. *)

From stdpp Require Import base list gmap strings sorting.
From Stdlib Require Import ZArith Lia.
From S2P Require Import Prelude Order Hashing Text Address GasCoin SmtSpec Transaction Blockchain BlockchainTheorems Mempool Proposer ChangeSet StateManager StateRoot StateRootTheorems StateTheorems StateSmtTheorems History ChainReplay.

(** ** Keys *)

Lemma pad20_digits n : is_u64 n → digits_ok (pad20 n) ∧ dec_value (pad20 n) = n ∧ pad20 n ≠ [].
Proof.
  intros Hn. destruct (u64_to_string_spec n Hn) as (H1 & H2 & H3). unfold pad20. cbv zeta. split; [|split].
  - apply Forall_app. split; [|done]. apply Forall_replicate. done.
  - rewrite dec_value_app, dec_value_zeros. lia.
  - by destruct (replicate _ _), (u64_to_string n).
Qed.

Lemma parse_pad20 n : is_u64 n → parse_u64 (pad20 n) = Some n.
Proof.
  intros Hn. destruct (pad20_digits n Hn) as (H1 & H2 & H3). rewrite parse_u64_digits by done.
  rewrite H2. destruct Hn as [_ Hn]. by rewrite (proj2 (Z.leb_le _ _) Hn).
Qed.

Lemma ascii_bytes_utf8 l : Forall (λ c, (0 ≤ c < 128)%Z) l → utf8_valid l = true.
Proof.
  intros Hl. unfold utf8_valid. induction Hl as [|c l Hc _ IH]; [done|].
  cbn [length utf8_valid_fuel]. by rewrite (proj2 (Z.ltb_lt c 128)) by lia.
Qed.

Lemma digits_ascii l : digits_ok l → Forall (λ c, (0 ≤ c < 128)%Z) l.
Proof. intros Hl. eapply Forall_impl; [exact Hl|]. intros c Hc%digit_range. lia. Qed.

Lemma str_ascii_utf8 s l :
  forallb (λ c, (0 <=? c) && (c <? 128))%Z (str s) = true → digits_ok l → utf8_valid (str s ++ l) = true.
Proof.
  intros Hs Hl. apply ascii_bytes_utf8, Forall_app. split; [|by apply digits_ascii].
  apply Forall_forall. intros c Hc. rewrite forallb_forall in Hs.
  apply list_elem_of_In, Hs, andb_true_iff in Hc as [H1%Z.leb_le H2%Z.ltb_lt]. lia.
Qed.

(** Two keys with different constant prefixes. *)
Ltac keys_differ :=
  let H := fresh "H" in
  intros H; lazymatch type of H with _ = _ => idtac end;
  unfold checkpoint_transactions_key, checkpoint_metadata_key, checkpoint_metadata_json_key,
    blockchain_json_key, blockchain_key, pending_checkpoint_commit_key, transaction_payload_key,
    transaction_index_key, recent_transaction_hashes_key, sender_nonce_watermark_key,
    history_pruned_through_key, history_persisted_through_key in H;
  repeat match type of H with
  | context [pad20 ?n] => let x := fresh "x" in generalize dependent (pad20 n); intros x H
  | context [hex_encode ?n] => let x := fresh "x" in generalize dependent (hex_encode n); intros x H
  end;
  vm_compute in H; discriminate H.

Lemma checkpoint_sequence_of_meta n : is_u64 n → checkpoint_sequence_of (checkpoint_metadata_key n) = Some n.
Proof.
  intros Hn. destruct (pad20_digits n Hn) as (Hd & _). unfold checkpoint_sequence_of, checkpoint_metadata_key.
  rewrite str_ascii_utf8 by done. unfold strip_prefix at 1. rewrite starts_with_app, drop_app_length.
  by apply parse_pad20.
Qed.

Lemma not_starts_with p k l : starts_with p k = false → length p ≤ length k → starts_with p (k ++ l) = false.
Proof. unfold starts_with. intros H Hl. by rewrite take_app_le. Qed.

Lemma checkpoint_sequence_of_json n :
  is_u64 n → checkpoint_sequence_of (checkpoint_metadata_json_key n) = Some n.
Proof.
  intros Hn. destruct (pad20_digits n Hn) as (Hd & _).
  unfold checkpoint_sequence_of, checkpoint_metadata_json_key. rewrite str_ascii_utf8 by done.
  unfold strip_prefix at 1. rewrite not_starts_with by (try reflexivity; vm_compute; lia).
  unfold strip_prefix at 1. rewrite starts_with_app, drop_app_length. by apply parse_pad20.
Qed.

Lemma txs_prefix p x :
  p ∈ [str "checkpoint_meta/"; str "checkpoint_meta_json_v1/"] → starts_with p (str "checkpoint_txs/" ++ x) = false.
Proof.
  intros H. unfold starts_with. apply bool_decide_false. intros E.
  repeat (apply elem_of_cons in H as [->|H]; [vm_compute in E; discriminate E|]). by apply elem_of_nil in H.
Qed.

Lemma checkpoint_sequence_of_txs n :
  is_u64 n → checkpoint_sequence_of (checkpoint_transactions_key n) = Some n.
Proof.
  intros Hn. destruct (pad20_digits n Hn) as (Hd & _).
  unfold checkpoint_sequence_of, checkpoint_transactions_key. rewrite str_ascii_utf8 by done.
  unfold strip_prefix. rewrite !txs_prefix by (repeat constructor). rewrite starts_with_app, drop_app_length. by apply parse_pad20.
Qed.

(** The keys of the history other than those of single checkpoints and transactions. *)
Definition singletons : list bytes :=
  [blockchain_json_key; blockchain_key; pending_checkpoint_commit_key; recent_transaction_hashes_key;
   sender_nonce_watermark_key; history_pruned_through_key; history_persisted_through_key].

Lemma singleton_no_sequence k : k ∈ singletons → checkpoint_sequence_of k = None.
Proof.
  unfold singletons. intros H.
  repeat (apply elem_of_cons in H as [->|H]; [vm_compute; reflexivity|]). by apply elem_of_nil in H.
Qed.

Lemma index_no_sequence `{Hex} h : checkpoint_sequence_of (transaction_index_key h) = None.
Proof.
  unfold checkpoint_sequence_of, transaction_index_key. destruct (utf8_valid _); [|done].
  generalize (hex_encode h). intros x. reflexivity.
Qed.

Lemma sequence_prefix k n :
  checkpoint_sequence_of k = Some n →
  ∃ p x, k = p ++ x
    ∧ p ∈ [str "checkpoint_meta/"; str "checkpoint_meta_json_v1/"; str "checkpoint_txs/"]
    ∧ parse_u64 x = Some n.
Proof.
  unfold checkpoint_sequence_of. destruct (utf8_valid k); [|done]. unfold strip_prefix.
  destruct (starts_with (str "checkpoint_meta/") k) eqn:E1; [|destruct (starts_with (str "checkpoint_meta_json_v1/") k) eqn:E2;
    [|destruct (starts_with (str "checkpoint_txs/") k) eqn:E3; [|done]]]; cbn [mbind option_bind]; intros H.
  - eexists _, _. split; [by apply starts_with_inv|]. split; [by repeat constructor|done].
  - eexists _, _. split; [by apply starts_with_inv|]. split; [by repeat constructor|done].
  - eexists _, _. split; [by apply starts_with_inv|]. split; [by repeat constructor|done].
Qed.

Lemma sequence_not_internal k n : checkpoint_sequence_of k = Some n → is_internal_smt_key k = false.
Proof.
  intros (p & x & -> & Hp & _)%sequence_prefix.
  repeat (apply elem_of_cons in Hp as [->|Hp]; [reflexivity|]). by apply elem_of_nil in Hp.
Qed.

Lemma parse_u64_range s n : parse_u64 s = Some n → is_u64 n.
Proof.
  unfold parse_u64. set (digits := match s with 43%Z :: (_ :: _) as r => r | _ => s end).
  clearbody digits. destruct digits as [|c l]; [done|].
  destruct (forallb is_ascii_digit (c :: l)) eqn:E; [|done].
  destruct (dec_value (c :: l) <=? u64_max)%Z eqn:Em; [|done]. intros [= <-].
  apply digits_ok_forallb in E. split; [by apply dec_value_nonneg|by apply Z.leb_le].
Qed.

Lemma sequence_u64 k n : checkpoint_sequence_of k = Some n → is_u64 n.
Proof. intros (p & x & _ & _ & H)%sequence_prefix. by eapply parse_u64_range. Qed.

(** ** The scan *)

Lemma dedup_cons a b l : dedup (a :: b :: l) = if (a =? b)%Z then dedup (b :: l) else a :: dedup (b :: l).
Proof. reflexivity. Qed.

Lemma dedup_elem l x : x ∈ dedup l ↔ x ∈ l.
Proof.
  induction l as [|a [|b l] IH]; [done..|]. rewrite dedup_cons. destruct (Z.eqb_spec a b) as [->|Hne].
  - rewrite IH, !elem_of_cons. naive_solver.
  - rewrite elem_of_cons, IH, (elem_of_cons (b :: l) x a). done.
Qed.

Lemma dedup_sorted l : StronglySorted Z.le l → StronglySorted Z.lt (dedup l).
Proof.
  induction 1 as [|a l Hs IH Ha]; [constructor|]. destruct l as [|b l]; [by repeat constructor|].
  rewrite dedup_cons. destruct (Z.eqb_spec a b) as [->|Hne]; [done|]. constructor; [done|].
  apply Forall_forall. intros x Hx. apply (proj1 (dedup_elem _ _)) in Hx. apply StronglySorted_inv in Hs as [_ Hb].
  apply Forall_cons in Ha as [Hab _]. apply elem_of_cons in Hx as [->|Hx]; [lia|].
  rewrite Forall_forall in Hb. specialize (Hb x Hx). lia.
Qed.

Lemma strictly_sorted_nodup l : StronglySorted Z.lt l → NoDup l.
Proof.
  induction 1 as [|a l _ IH Ha]; constructor; [|done]. intros Hin. rewrite Forall_forall in Ha.
  specialize (Ha a Hin). lia.
Qed.

Lemma strictly_sorted_unique l k :
  StronglySorted Z.lt l → StronglySorted Z.lt k → (∀ x, x ∈ l ↔ x ∈ k) → l = k.
Proof.
  intros Hl Hk Heq. apply (StronglySorted_unique_strong Z.lt).
  - intros x y _ _ H1 H2. lia.
  - done.
  - done.
  - by apply NoDup_Permutation; [apply strictly_sorted_nodup..|].
Qed.

Lemma seqZ_sorted m n : StronglySorted Z.lt (seqZ m n).
Proof.
  destruct (decide (0 ≤ n)%Z) as [Hn|Hn]; [|by rewrite seqZ_nil by lia; constructor].
  revert m. pattern n. apply natlike_ind; [|clear n Hn; intros n Hn IH m|done].
  - intros m. rewrite seqZ_nil by lia. constructor.
  - rewrite seqZ_cons by lia. rewrite Z.pred_succ. constructor; [apply IH|].
    apply Forall_forall. intros x Hx%elem_of_seqZ. lia.
Qed.

Section Scan.
Context (rocks : bool).
Local Abbreviation entries_t := (gmap bytes bytes).

Lemma elem_of_logical (m : entries_t) k v n :
  checkpoint_sequence_of k = Some n → (k, v) ∈ logical_entries rocks m ↔ m !! k = Some v.
Proof.
  intros Hn. rewrite <- elem_of_btree. unfold logical_entries. destruct rocks; [|done].
  rewrite !list_elem_of_In, filter_In. cbn [fst]. rewrite (sequence_not_internal _ _ Hn). naive_solver.
Qed.

Lemma logical_sub (m : entries_t) k v : (k, v) ∈ logical_entries rocks m → m !! k = Some v.
Proof.
  unfold logical_entries. rewrite <- elem_of_btree. destruct rocks; [|done].
  rewrite !list_elem_of_In, filter_In. naive_solver.
Qed.

Lemma recover_sequences_elem (m : entries_t) n :
  n ∈ recover_checkpoint_sequences_from_store rocks m
  ↔ ∃ k, is_Some (m !! k) ∧ checkpoint_sequence_of k = Some n.
Proof.
  unfold recover_checkpoint_sequences_from_store. rewrite dedup_elem, merge_sort_Permutation, list_elem_of_omap. split.
  - intros ([k v] & Hk & Hn). cbn [fst] in Hn. exists k. split; [|done]. exists v. by apply logical_sub.
  - intros (k & [v Hk] & Hn). exists (k, v). split; [by apply (elem_of_logical m k v n)|done].
Qed.

Lemma recover_sequences_sorted (m : entries_t) :
  StronglySorted Z.lt (recover_checkpoint_sequences_from_store rocks m).
Proof. apply dedup_sorted, StronglySorted_merge_sort; apply _. Qed.
End Scan.

(** ** Raw changes *)

Section Raw.
Local Abbreviation entries_t := (gmap bytes bytes).
Local Abbreviation put_all := (foldl (λ (m : entries_t) '(k, v), <[k := v]> m)).

Lemma raw_unchanged (U : list (bytes * bytes)) (D : list bytes) (m : entries_t) (k : bytes) :
  k ∉ map fst U → k ∉ D → apply_raw_changes U D m !! k = m !! k.
Proof.
  intros HU HD. unfold apply_raw_changes. rewrite foldl_delete_lookup, decide_False by done.
  by apply foldl_insert_other.
Qed.

Lemma raw_deleted (U : list (bytes * bytes)) (D : list bytes) (m : entries_t) (k : bytes) : k ∈ D → apply_raw_changes U D m !! k = None.
Proof. intros H. unfold apply_raw_changes. by rewrite foldl_delete_lookup, decide_True. Qed.

Lemma raw_written (U1 : list (bytes * bytes)) (k v : bytes) (U2 : list (bytes * bytes)) (D : list bytes) (m : entries_t) :
  k ∉ map fst U2 → k ∉ D → apply_raw_changes (U1 ++ (k, v) :: U2) D m !! k = Some v.
Proof.
  intros HU HD. unfold apply_raw_changes. rewrite foldl_delete_lookup, decide_False by done.
  rewrite foldl_app. cbn [foldl]. rewrite foldl_insert_other by done. apply lookup_insert_eq.
Qed.

(** The last of several writes of one value wins. *)
Lemma raw_written_in (U : list (bytes * bytes)) (k v : bytes) (D : list bytes) (m : entries_t) :
  (k, v) ∈ U → (∀ v', (k, v') ∈ U → v' = v) → k ∉ D → apply_raw_changes U D m !! k = Some v.
Proof.
  intros Hin Hu HD. unfold apply_raw_changes. rewrite foldl_delete_lookup, decide_False by done.
  induction U as [|[j w] U IH] using rev_ind; [by apply elem_of_nil in Hin|].
  rewrite foldl_app. cbn [foldl]. destruct (decide (j = k)) as [->|Hne].
  - rewrite lookup_insert_eq. f_equal. apply Hu, elem_of_app. right. by apply list_elem_of_singleton.
  - rewrite lookup_insert_ne by done. apply IH.
    + apply elem_of_app in Hin as [Hin|[= -> ->]%list_elem_of_singleton]; [done|done].
    + intros v' Hv'. apply Hu, elem_of_app. by left.
Qed.
End Raw.

(** ** One checkpoint *)

Section Persist.
Context {B3 : Blake3} {BC : Bcs} {BK : BcsCheckpoint} {HX : Hex} {SC : StateCodecs} {HC : HistoryCodecs}.
Local Abbreviation entries_t := (gmap bytes bytes).
Context (sha3_256 to_uppercase to_lowercase : bytes → bytes) (env : bytes → option bytes) (rocks : bool).
Local Abbreviation normalize_addr := (KanariAddress.normalize_addr sha3_256 to_uppercase to_lowercase).
Local Abbreviation raw_changes := (checkpoint_persistence_raw_changes sha3_256 to_uppercase to_lowercase env rocks).

(** The values of the Rust types. *)
Record storable_checkpoint (c : Checkpoint) : Prop := {
  sc_caches : caches_ok c;
  sc_sequence : is_u64 (sequence c);
  sc_hash : ∃ h, checkpoint_hash c = Ok h;
  sc_meta : storable checkpoint_codec (forget (checkpoint_without_transactions c));
  sc_full : storable checkpoint_codec (forget c);
  sc_txs : storable txs_codec (map forget_tx (transactions c));
  sc_senders : Forall (λ tx, is_str (normalize_addr (sender_address (transaction tx)))
    ∧ is_u64 (nonce (transaction tx))) (transactions c)
}.

Definition watermark_typed (w : gmap bytes Z) : Prop := map_Forall (λ k v, is_str k ∧ is_u64 v) w.
Definition recent_ok (m : entries_t) : Prop :=
  ∃ l, load_recent_transaction_hashes_for_update m = Ok l ∧ Forall hash_ok l.
Definition watermark_ok (m : entries_t) : Prop :=
  ∃ w, load_sender_nonce_watermark m = Ok w ∧ watermark_typed w.

Lemma store_load_enc {T} (c : Codec T) (k : bytes) (v : T) (m : entries_t) :
  storable c v → m !! k = Some (enc c v) → store_load c k m = Ok (Some v).
Proof. intros Hv E. unfold store_load, decode. by rewrite E, dec_enc. Qed.

Lemma store_load_none {T} (c : Codec T) (k : bytes) (m : entries_t) : m !! k = None → store_load c k m = Ok None.
Proof. intros E. unfold store_load. by rewrite E. Qed.

Lemma recent_ok_written (m : entries_t) l :
  m !! recent_transaction_hashes_key = Some (enc hashes_codec l) → Forall hash_ok l → recent_ok m.
Proof.
  intros E Hl. exists l. split; [|done]. unfold load_recent_transaction_hashes_for_update.
  rewrite (store_load_enc _ _ l); [|apply hashes_storable; eapply Forall_impl; [exact Hl|by intros h [_ ?]]|done].
  cbn [result_bind]. replace (forallb _ l) with true; [done|]. symmetry. apply forallb_forall.
  intros h Hh%list_elem_of_In. rewrite Forall_forall in Hl. destruct (Hl h Hh) as [-> _]. done.
Qed.

Lemma watermark_ok_written (m : entries_t) w :
  m !! sender_nonce_watermark_key = Some (enc watermark_codec w) → watermark_typed w → watermark_ok m.
Proof.
  intros E Hw. exists w. split; [|done]. unfold load_sender_nonce_watermark.
  by rewrite (store_load_enc _ _ w) by (by try apply watermark_storable).
Qed.

Lemma recent_ok_same (m m' : entries_t) :
  m' !! recent_transaction_hashes_key = m !! recent_transaction_hashes_key → recent_ok m → recent_ok m'.
Proof. unfold recent_ok, load_recent_transaction_hashes_for_update, store_load. by intros ->. Qed.
Lemma watermark_ok_same (m m' : entries_t) :
  m' !! sender_nonce_watermark_key = m !! sender_nonce_watermark_key → watermark_ok m → watermark_ok m'.
Proof. unfold watermark_ok, load_sender_nonce_watermark, store_load. by intros ->. Qed.

Lemma hash_of_ok tx : cache_ok tx → hash_ok (hash_of tx).
Proof. intros H. rewrite <- hash_of_forget by done. apply blake3_ok. Qed.

Lemma watermark_update_typed w txs :
  watermark_typed w →
  Forall (λ tx, is_str (normalize_addr (sender_address (transaction tx))) ∧ is_u64 (nonce (transaction tx))) txs →
  watermark_typed (sender_watermark_update sha3_256 to_uppercase to_lowercase w txs).
Proof.
  unfold sender_watermark_update. intros Hw Htx.
  assert (H0 : watermark_typed (cap_watermark w)).
  { unfold cap_watermark. intros k v Hk. apply lookup_fmap_Some in Hk as (v0 & <- & Hk).
    destruct (Hw k v0 Hk) as [H1 H2]. split; [done|]. destruct (MAX_WATERMARK <=? v0)%Z; [|done].
    split; [done|]. unfold u64_max. lia. }
  revert H0. generalize (cap_watermark w). clear w Hw. induction Htx as [|tx txs [H1 H2] _ IH]; intros w Hw; [done|].
  cbn [fold_left]. apply IH. unfold raise_watermark. destruct (_ <? _)%Z; [|done].
  apply map_Forall_insert_2; [|done]. by split.
Qed.

(** What the loop over the transactions adds. *)
Lemma index_fold persist c txs U recent seen :
  Forall cache_ok txs → Forall hash_ok recent →
  ∃ U' recent' seen', fold_left (index_transaction persist c) txs (U, recent, seen) = (U ++ U', recent', seen')
    ∧ Forall hash_ok recent'
    ∧ ∀ k v, (k, v) ∈ U' → ∃ h, k = transaction_index_key h
        ∧ v = enc location_codec {| checkpoint_sequence := sequence c; location_state_root := state_root c |}.
Proof.
  revert U recent seen. induction txs as [|tx txs IH]; intros U recent seen Hc Hr.
  { exists [], recent, seen. rewrite app_nil_r. split; [done|]. split; [done|]. by intros k v ?%elem_of_nil. }
  apply Forall_cons in Hc as [Hc Hcs]. cbn [fold_left].
  set (entry := (transaction_index_key (hash_of tx), enc location_codec
    {| checkpoint_sequence := sequence c; location_state_root := state_root c |})).
  set (one := if persist then [entry] else []).
  assert (Hone : ∀ k v, (k, v) ∈ one → (k, v) = entry).
  { unfold one. destruct persist; intros k v H; [by apply list_elem_of_singleton in H|by apply elem_of_nil in H]. }
  set (recent1 := if bool_decide (hash_of tx ∈ seen) then recent else recent ++ [hash_of tx]).
  set (seen1 := if bool_decide (hash_of tx ∈ seen) then seen else {[hash_of tx]} ∪ seen).
  assert (E : index_transaction persist c (U, recent, seen) tx = (U ++ one, recent1, seen1)).
  { unfold index_transaction, one, recent1, seen1, entry. destruct persist, (bool_decide _); rewrite ?app_nil_r; done. }
  rewrite E. destruct (IH (U ++ one) recent1 seen1 Hcs) as (U' & recent' & seen' & E' & Hr' & HU').
  { unfold recent1. destruct (bool_decide _); [done|]. apply Forall_app. split; [done|].
    apply Forall_singleton. by apply hash_of_ok. }
  exists (one ++ U'), recent', seen'. split; [rewrite app_assoc; exact E'|]. split; [done|].
  intros k v [H|H]%elem_of_app; [|by apply HU']. apply Hone in H. injection H as -> ->. eauto.
Qed.

Definition meta_record (c : Checkpoint) : bytes := enc checkpoint_codec (forget (checkpoint_without_transactions c)).
Definition txs_record (c : Checkpoint) : bytes := enc txs_codec (map forget_tx (transactions c)).
(** The checkpoint has a record of its transactions. *)
Definition has_payload (c : Checkpoint) : bool := negb (list_empty (transactions c) || (sequence c =? 0)%Z).

(** The writes of one checkpoint, with the new recent hashes and watermarks. *)
Inductive written_by (c : Checkpoint) (mark : bool) (l : list bytes) (w : gmap bytes Z) : bytes → bytes → Prop :=
| by_meta : written_by c mark l w (checkpoint_metadata_key (sequence c)) (meta_record c)
| by_index h v : written_by c mark l w (transaction_index_key h) v
| by_recent : written_by c mark l w recent_transaction_hashes_key (enc hashes_codec l)
| by_watermark : written_by c mark l w sender_nonce_watermark_key (enc watermark_codec w)
| by_txs : has_payload c = true →
    written_by c mark l w (checkpoint_transactions_key (sequence c)) (txs_record c)
| by_mark : mark = true →
    written_by c mark l w history_persisted_through_key (enc u64_codec (sequence c)).

Lemma history_marker_written c mark l w k v :
  (k, v) ∈ history_marker mark c → written_by c mark l w k v.
Proof.
  unfold history_marker. destruct mark eqn:E; [|by intros ?%elem_of_nil].
  intros [= -> ->]%list_elem_of_singleton. by apply by_mark.
Qed.

Lemma trim_recent_ok l : Forall hash_ok l → Forall hash_ok (trim_recent l).
Proof. intros H. by apply Forall_drop. Qed.

(** The raw changes of one checkpoint. *)
Record changes_of (c : Checkpoint) (mark : bool) (l : list bytes) (w : gmap bytes Z)
    (U : RawCheckpointUpdates) : Prop := {
  of_recent : Forall hash_ok l;
  of_watermark : watermark_typed w;
  of_written : ∀ k v, (k, v) ∈ U → written_by c mark l w k v;
  of_meta : (checkpoint_metadata_key (sequence c), meta_record c) ∈ U;
  of_payload : has_payload c = true →
    (checkpoint_transactions_key (sequence c), txs_record c) ∈ U
    ∧ (recent_transaction_hashes_key, enc hashes_codec l) ∈ U
    ∧ (sender_nonce_watermark_key, enc watermark_codec w) ∈ U;
  of_no_payload : has_payload c = false → ∀ k v, (k, v) ∈ U →
    k ≠ recent_transaction_hashes_key ∧ k ≠ sender_nonce_watermark_key;
  of_mark : mark = true → (history_persisted_through_key, enc u64_codec (sequence c)) ∈ U
}.

Lemma raw_changes_written (m : entries_t) c mark :
  storable_checkpoint c → recent_ok m → watermark_ok m →
  ∃ U l w, raw_changes m c mark = Ok (U, [checkpoint_metadata_json_key (sequence c)])
    ∧ changes_of c mark l w U.
Proof.
  intros Hc (l0 & Hl0 & Hok0) (w0 & Hw0 & Hwt0). unfold checkpoint_persistence_raw_changes.
  fold (meta_record c).
  assert (Hmark : mark = true → (history_persisted_through_key, enc u64_codec (sequence c)) ∈ history_marker mark c).
  { intros ->. by apply list_elem_of_singleton. }
  destruct (list_empty (transactions c) || (sequence c =? 0)%Z) eqn:Ee.
  { assert (Ep : has_payload c = false) by (unfold has_payload; by rewrite Ee).
    eexists _, [], ∅. split; [done|]. split; rewrite ?Ep.
    - constructor.
    - apply map_Forall_empty.
    - intros k v [[= -> ->]%list_elem_of_singleton|H]%elem_of_app; [apply by_meta|by apply history_marker_written].
    - apply elem_of_app. left. by apply list_elem_of_singleton.
    - done.
    - intros _ k v [[= -> ->]%list_elem_of_singleton|H]%elem_of_app; [split; keys_differ|].
      unfold history_marker in H. destruct mark; [|by apply elem_of_nil in H].
      apply list_elem_of_singleton in H as [= -> ->]. split; keys_differ.
    - intros E. apply elem_of_app. right. by apply Hmark. }
  rewrite Hl0. cbn [result_bind].
  destruct (index_fold (persist_transaction_hash_index_enabled env rocks) c (transactions c)
    [(checkpoint_metadata_key (sequence c), meta_record c)] l0 (list_to_set l0)) as (U' & l & seen & E & Hl & HU').
  { apply (sc_caches c Hc). } { done. }
  set (w := sender_watermark_update sha3_256 to_uppercase to_lowercase w0 (transactions c)).
  assert (Hw : watermark_typed w) by (apply watermark_update_typed; [done|apply (sc_senders c Hc)]).
  eexists _, (trim_recent l), w. split.
  { rewrite Hw0. cbn [result_bind].
    match goal with |- context [fold_left ?f ?x ?a] =>
      replace (fold_left f x a) with ([(checkpoint_metadata_key (sequence c), meta_record c)] ++ U', l, seen) by exact (eq_sym E) end.
    reflexivity. }
  assert (Ep : has_payload c = true) by (unfold has_payload; by rewrite Ee).
  fold (txs_record c). rewrite <- !app_assoc. split; rewrite ?Ep.
  - by apply trim_recent_ok.
  - done.
  - intros k v. rewrite !elem_of_app, !list_elem_of_singleton.
    intros [[= -> ->]|[H|[[= -> ->]|[[= -> ->]|[[= -> ->]|H]]]]].
    + apply by_meta.
    + destruct (HU' k v H) as (h & -> & ->). apply by_index.
    + apply by_recent.
    + apply by_watermark.
    + by apply by_txs.
    + by apply history_marker_written.
  - rewrite elem_of_app. left. by apply list_elem_of_singleton.
  - intros _. rewrite !elem_of_app, !list_elem_of_singleton. naive_solver.
  - done.
  - intros Em. rewrite !elem_of_app. do 5 right. by apply Hmark.
Qed.

(** Keys of other components of the store. *)
Definition foreign (k : bytes) : Prop := checkpoint_sequence_of k = None ∧ k ∉ singletons.
#[export] Instance foreign_dec k : Decision (foreign k).
Proof. unfold foreign. apply _. Defined.

(** The store after the writes of one checkpoint. *)
Record wrote (c : Checkpoint) (mark : bool) (m m' : entries_t) : Prop := {
  wrote_meta : m' !! checkpoint_metadata_key (sequence c) = Some (meta_record c);
  wrote_json : m' !! checkpoint_metadata_json_key (sequence c) = None;
  wrote_txs : m' !! checkpoint_transactions_key (sequence c)
    = if has_payload c then Some (txs_record c) else m !! checkpoint_transactions_key (sequence c);
  wrote_other : ∀ k n, checkpoint_sequence_of k = Some n → n ≠ sequence c → m' !! k = m !! k;
  wrote_recent : recent_ok m';
  wrote_watermark : watermark_ok m';
  wrote_through : m' !! history_persisted_through_key
    = if mark then Some (enc u64_codec (sequence c)) else m !! history_persisted_through_key;
  wrote_chain : m' !! blockchain_json_key = m !! blockchain_json_key ∧ m' !! blockchain_key = m !! blockchain_key
}.

(** The keys a checkpoint may write. *)
Lemma written_key c mark l w k v :
  written_by c mark l w k v → is_u64 (sequence c) →
  (∀ n, checkpoint_sequence_of k = Some n → n = sequence c)
  ∧ k ∉ [blockchain_json_key; blockchain_key; pending_checkpoint_commit_key]
  ∧ (k = history_persisted_through_key → mark = true)
  ∧ (k = checkpoint_transactions_key (sequence c) → has_payload c = true).
Proof.
  intros H Hs. split.
  { intros n. destruct H as [|h v| | | |];
      rewrite ?checkpoint_sequence_of_meta, ?index_no_sequence, ?checkpoint_sequence_of_txs by done;
      try (by intros [= <-]); try done; by rewrite singleton_no_sequence by (by repeat constructor). }
  destruct H as [|h v| | | |]; (split; [rewrite !not_elem_of_cons; split_and!; try apply not_elem_of_nil; keys_differ|]);
    split; try done; try (intros E; exfalso; revert E; keys_differ).
Qed.

(** A written key has one value. *)
Lemma written_value c mark l w k v v' :
  written_by c mark l w k v → written_by c mark l w k v' → (∀ h, k ≠ transaction_index_key h) → v' = v.
Proof.
  intros H H' Hk. destruct H as [|h v| | | |]; try (by destruct (Hk h)); inversion H'; subst; try done;
    match goal with E : _ = _ |- _ => exfalso; revert E; keys_differ end.
Qed.

(** [ext] and [extd]: what else is committed in the same batch. *)
Section Batch.
Context (m : entries_t) (c : Checkpoint) (mark : bool) (l : list bytes) (w : gmap bytes Z) (U : RawCheckpointUpdates).
Context (ext : list (bytes * bytes)) (extd : list bytes).
Hypothesis (storable : storable_checkpoint c) (recents : recent_ok m) (watermarks : watermark_ok m).
Hypothesis changes : changes_of c mark l w U.
Hypothesis others : Forall (λ k, foreign k ∨ k = pending_checkpoint_commit_key) (map fst ext ++ extd).
Local Abbreviation batch :=
  (apply_raw_changes (U ++ ext) ([checkpoint_metadata_json_key (sequence c)] ++ extd) m).

Lemma not_other k :
  ¬ foreign k → k ≠ pending_checkpoint_commit_key → k ∉ map fst ext ∧ k ∉ extd.
Proof.
  intros Hf Hm. rewrite Forall_app, !Forall_forall in others. destruct others as [H1 H2].
  split; intros Hin; [destruct (H1 k Hin)|destruct (H2 k Hin)]; done.
Qed.

Lemma batch_same k :
  ¬ foreign k → k ≠ pending_checkpoint_commit_key → k ≠ checkpoint_metadata_json_key (sequence c) →
  (∀ v, (k, v) ∉ U) → batch !! k = m !! k.
Proof.
  intros Hf Hm Hj Hw. destruct (not_other k Hf Hm) as [H1 H2]. apply raw_unchanged.
  - rewrite map_app, elem_of_app. intros [Hin|Hin]; [|done].
    apply list_elem_of_fmap in Hin as ([k' v] & -> & Hin). by apply (Hw v).
  - rewrite elem_of_app, list_elem_of_singleton. naive_solver.
Qed.

Lemma batch_written k v :
  ¬ foreign k → k ≠ pending_checkpoint_commit_key → k ≠ checkpoint_metadata_json_key (sequence c) →
  (∀ h, k ≠ transaction_index_key h) → (k, v) ∈ U → batch !! k = Some v.
Proof.
  intros Hf Hm Hj Hi Hin. destruct (not_other k Hf Hm) as [H1 H2]. apply raw_written_in.
  - apply elem_of_app. by left.
  - intros v' [Hin'|Hin']%elem_of_app.
    + eapply written_value; [by apply (of_written _ _ _ _ _ changes)|by apply (of_written _ _ _ _ _ changes)|done].
    + destruct H1. apply list_elem_of_fmap. exists (k, v'). done.
  - rewrite elem_of_app, list_elem_of_singleton. naive_solver.
Qed.

Lemma sequence_not_foreign k n : checkpoint_sequence_of k = Some n → ¬ foreign k ∧ k ∉ singletons.
Proof.
  intros E. split; [intros [E' _]; congruence|]. intros H%singleton_no_sequence. congruence.
Qed.
Lemma singleton_not_foreign k : k ∈ singletons → ¬ foreign k.
Proof. by intros H [_ ?]. Qed.

(** Singletons other than the marker. *)
Lemma batch_singleton k v :
  k ∈ singletons → k ≠ pending_checkpoint_commit_key → (k, v) ∈ U → batch !! k = Some v.
Proof.
  intros Hk Hm. apply batch_written; [by apply singleton_not_foreign|done|..].
  - intros ->. apply singleton_no_sequence in Hk.
    by rewrite checkpoint_sequence_of_json in Hk by apply (sc_sequence c storable).
  - intros h ->. revert Hk. unfold singletons. rewrite !elem_of_cons, elem_of_nil.
    intros H. repeat (destruct H as [H|H]; [revert H; keys_differ|]). done.
Qed.

Lemma batch_singleton_same k :
  k ∈ singletons → k ≠ pending_checkpoint_commit_key → (∀ v, (k, v) ∉ U) → batch !! k = m !! k.
Proof.
  intros Hk Hm. apply batch_same; [by apply singleton_not_foreign|done|].
  intros ->. apply singleton_no_sequence in Hk.
  by rewrite checkpoint_sequence_of_json in Hk by apply (sc_sequence c storable).
Qed.

Lemma batch_recent : recent_ok batch ∧ watermark_ok batch.
Proof.
  destruct (has_payload c) eqn:Ep.
  - destruct (of_payload _ _ _ _ _ changes Ep) as (_ & Hr & Hw). split.
    + apply (recent_ok_written _ l); [|apply (of_recent _ _ _ _ _ changes)].
      apply batch_singleton; [by repeat constructor|keys_differ|done].
    + apply (watermark_ok_written _ w); [|apply (of_watermark _ _ _ _ _ changes)].
      apply batch_singleton; [by repeat constructor|keys_differ|done].
  - split.
    + eapply recent_ok_same; [|exact recents]. apply batch_singleton_same; [by repeat constructor|keys_differ|].
      intros v Hin. by destruct (of_no_payload _ _ _ _ _ changes Ep _ _ Hin).
    + eapply watermark_ok_same; [|exact watermarks]. apply batch_singleton_same; [by repeat constructor|keys_differ|].
      intros v Hin. by destruct (of_no_payload _ _ _ _ _ changes Ep _ _ Hin).
Qed.

Lemma batch_key k v : (k, v) ∈ U →
  (∀ n, checkpoint_sequence_of k = Some n → n = sequence c)
  ∧ k ∉ [blockchain_json_key; blockchain_key; pending_checkpoint_commit_key]
  ∧ (k = history_persisted_through_key → mark = true)
  ∧ (k = checkpoint_transactions_key (sequence c) → has_payload c = true).
Proof.
  intros Hin. eapply written_key; [by apply (of_written _ _ _ _ _ changes)|apply (sc_sequence c storable)].
Qed.

Lemma checkpoint_wrote : wrote c mark m batch.
Proof.
  pose proof (sc_sequence c storable) as Hs. split; try apply batch_recent.
  - apply batch_written; [|keys_differ|keys_differ|intros h; keys_differ|apply (of_meta _ _ _ _ _ changes)].
    by apply (sequence_not_foreign _ (sequence c)), checkpoint_sequence_of_meta.
  - apply raw_deleted. by left.
  - destruct (sequence_not_foreign _ _ (checkpoint_sequence_of_txs _ Hs)) as [Hf _].
    destruct (has_payload c) eqn:Ep.
    + apply batch_written; [done|keys_differ|keys_differ|intros h; keys_differ|].
      by apply (of_payload _ _ _ _ _ changes).
    + apply batch_same; [done|keys_differ|keys_differ|]. intros v H.
      destruct (batch_key _ _ H) as (_ & _ & _ & H'). rewrite H' in Ep; done.
  - intros k n Hk Hn. destruct (sequence_not_foreign _ _ Hk) as [Hf Hsi]. apply batch_same; [done| | |].
    + intros ->. apply Hsi. by repeat constructor.
    + intros ->. rewrite checkpoint_sequence_of_json in Hk by done. injection Hk as Hk. by apply Hn.
    + intros v H. destruct (batch_key _ _ H) as (H' & _). by apply Hn, H'.
  - case_eq mark; intros Em.
    + apply batch_singleton; [by repeat constructor|keys_differ|by apply (of_mark _ _ _ _ _ changes)].
    + apply batch_singleton_same; [by repeat constructor|keys_differ|]. intros v H.
      destruct (batch_key _ _ H) as (_ & _ & H' & _). rewrite H' in Em by done. discriminate Em.
  - split; (apply batch_singleton_same; [by repeat constructor|keys_differ|]); intros v H;
      destruct (batch_key _ _ H) as (_ & H' & _); apply H'; by repeat constructor.
Qed.

(** The marker is written by nothing else. *)
Lemma batch_marker_kept :
  pending_checkpoint_commit_key ∉ map fst ext → pending_checkpoint_commit_key ∉ extd →
  batch !! pending_checkpoint_commit_key = m !! pending_checkpoint_commit_key.
Proof.
  intros H1 H2. apply raw_unchanged.
  - rewrite map_app, elem_of_app. intros [Hin|Hin]; [|done].
    apply list_elem_of_fmap in Hin as ([k' v] & E & Hin). cbn in E. subst k'.
    destruct (batch_key _ _ Hin) as (_ & H & _). apply H. by repeat constructor.
  - rewrite elem_of_app, list_elem_of_singleton. intros [H|H]; [revert H; keys_differ|done].
Qed.
End Batch.
End Persist.
