(* ===== verification/HistoryRecovery.v ===== *)
(** * Crash triples and the abstraction of the durable history

    A small logic for programs on a store that may crash between two writes, the
    relation [consistent] between a store and the list of checkpoints it
    represents, and the recovery of a chain from the records alone. *)

From stdpp Require Import base list gmap strings sorting.
From Stdlib Require Import ZArith Lia.
From S2P Require Import Prelude Order Hashing Text Address GasCoin SmtSpec Transaction Blockchain BlockchainTheorems Mempool Proposer ChangeSet StateManager StateRoot StateStartup History ChainReplay HistoryStore.

(** ** Crash triples *)

(** From a store with [pre] the program returns a value and a store with [post],
    and every store a crash can leave on the way satisfies [crash]. *)
Definition crash_triple {A : Type} (crash pre : gmap bytes bytes → Prop) (prog : dk A)
    (post : A → gmap bytes bytes → Prop) : Prop :=
  ∀ d, pre (contents d) → ∃ d' a ms, prog d = (d', Ok a) ∧ post a (contents d')
    ∧ earlier d' = ms ++ earlier d ∧ Forall crash ms.

Section Triples.
Local Abbreviation entries_t := (gmap bytes bytes).
Context (crash : entries_t → Prop).

Lemma triple_ret {A : Type} (a : A) (pre : entries_t → Prop) (post : A → entries_t → Prop) :
  (∀ m, pre m → post a m) → crash_triple crash pre (mret a) post.
Proof. intros H d Hd. exists d, a, []. split; [done|]. split; [by apply H|]. by split. Qed.

Lemma triple_bind {A B : Type} (prog : dk A) (k : A → dk B) pre mid post :
  crash_triple crash pre prog mid → (∀ a, crash_triple crash (mid a) (k a) post) →
  crash_triple crash pre (prog ≫= k) post.
Proof.
  intros H1 H2 d Hd. destruct (H1 d Hd) as (d1 & a & ms1 & E1 & Hm & He1 & Hc1).
  destruct (H2 a d1 Hm) as (d2 & b & ms2 & E2 & Hp & He2 & Hc2).
  exists d2, b, (ms2 ++ ms1). rewrite (st_bind_ok _ _ _ _ _ E1). split; [done|]. split; [done|].
  split; [by rewrite He2, He1, app_assoc|]. by apply Forall_app.
Qed.

Lemma triple_write (f : entries_t → entries_t) (pre : entries_t → Prop) (post : unit → entries_t → Prop) :
  (∀ m, pre m → crash m ∧ post tt (f m)) → crash_triple crash pre (write f) post.
Proof.
  intros H d Hd. destruct (H _ Hd) as [Hc Hp]. eexists _, tt, [contents d]. split; [reflexivity|].
  split; [done|]. split; [done|]. by constructor.
Qed.

Lemma triple_read {A : Type} (f : entries_t → result A) (pre : entries_t → Prop) (post : A → entries_t → Prop) :
  (∀ m, pre m → ∃ a, f m = Ok a ∧ post a m) → crash_triple crash pre (read f) post.
Proof.
  intros H d Hd. destruct (H _ Hd) as (a & E & Hp). exists d, a, []. split; [unfold read; by rewrite E|]. by split.
Qed.

Lemma triple_lift {A : Type} (r : result A) (pre : entries_t → Prop) (post : A → entries_t → Prop) :
  (∀ m, pre m → ∃ a, r = Ok a ∧ post a m) → crash_triple crash pre (st_lift r) post.
Proof. intros H d Hd. destruct (H _ Hd) as (a & -> & Hp). exists d, a, []. by split. Qed.

Lemma triple_weaken {A : Type} (prog : dk A) (pre pre' : entries_t → Prop) (post post' : A → entries_t → Prop) :
  crash_triple crash pre prog post → (∀ m, pre' m → pre m) → (∀ a m, post a m → post' a m) →
  crash_triple crash pre' prog post'.
Proof.
  intros H Hpre Hpost d Hd. destruct (H d (Hpre _ Hd)) as (d' & a & ms & E & Hp & He & Hc).
  exists d', a, ms. split; [done|]. split; [by apply Hpost|done].
Qed.

Lemma triple_attempt {A : Type} (prog : dk A) (pre : entries_t → Prop) (post : unit → entries_t → Prop) :
  crash_triple crash pre prog (λ _, post tt) → crash_triple crash pre (attempt prog) post.
Proof.
  intros H d Hd. destruct (H d Hd) as (d' & a & ms & E & Hp & He & Hc). exists d', tt, ms.
  unfold attempt. rewrite E. done.
Qed.

Lemma triple_for_each {A : Type} (l : list A) (body : A → dk unit) (inv : list A → entries_t → Prop) :
  (∀ past x todo, l = past ++ x :: todo → crash_triple crash (inv past) (body x) (λ _, inv (past ++ [x]))) →
  crash_triple crash (inv []) (for_each l body) (λ _, inv l).
Proof.
  intros H. enough (Hg : ∀ todo past, l = past ++ todo →
    crash_triple crash (inv past) (for_each todo body) (λ _, inv l)) by by apply (Hg l []).
  intros todo. induction todo as [|x todo IH]; intros past E; cbn [for_each].
  - rewrite app_nil_r in E. rewrite E. by apply triple_ret.
  - eapply triple_bind; [by apply (H past x todo)|]. intros ?. apply IH. by rewrite E, <- app_assoc.
Qed.
End Triples.

(** ** The abstraction *)

Section Consistency.
Context {B3 : Blake3} {BC : Bcs} {BK : BcsCheckpoint} {HX : Hex} {SC : StateCodecs} {TT : TypeTags} {HC : HistoryCodecs}.
Local Abbreviation entries_t := (gmap bytes bytes).
Context (sha3_256 to_uppercase to_lowercase : bytes → bytes).
Local Abbreviation storable_checkpoint := (storable_checkpoint sha3_256 to_uppercase to_lowercase).

(** The records of the checkpoints of a history. *)
Record stored (cs : list Checkpoint) (m : entries_t) : Prop := {
  stored_meta : ∀ c, c ∈ cs → m !! checkpoint_metadata_key (sequence c) = Some (meta_record c);
  stored_json : ∀ c, c ∈ cs → m !! checkpoint_metadata_json_key (sequence c) = None;
  stored_txs : ∀ c, c ∈ cs → m !! checkpoint_transactions_key (sequence c)
    = if has_payload c then Some (txs_record c) else None;
  stored_only : ∀ k n, is_Some (m !! k) → checkpoint_sequence_of k = Some n →
    n = 0%Z ∨ ∃ c, c ∈ cs ∧ sequence c = n;
  stored_recent : recent_ok m;
  stored_watermark : watermark_ok m
}.

(** The marker names the last checkpoint. *)
Definition marked (cs : list Checkpoint) (m : entries_t) : Prop :=
  ∃ c, last cs = Some c ∧ m !! pending_checkpoint_commit_key = Some (enc checkpoint_codec (forget c)).
(** A part of the store holds all of the history, or all but the marked checkpoint. *)
Definition behind (kept cs : list Checkpoint) (m : entries_t) : Prop :=
  kept = cs ∨ marked cs m ∧ ∃ c, cs = kept ++ [c].

(** The JSON snapshot of a chain. *)
Definition snapshot_record (bc : Blockchain) (total : Z) : bytes :=
  enc blob_codec (enc json_chain (map (λ c, forget (checkpoint_without_transactions c)) (dag_checkpoints bc), total)).

(** The store holds the records of [kept], and its snapshot, if any, is of [old]. *)
Record holds (kept old cs : list Checkpoint) (m : entries_t) : Prop := {
  holds_stored : stored kept m;
  holds_kept : behind kept cs m;
  holds_through : m !! history_persisted_through_key = None
    ∨ ∃ n, m !! history_persisted_through_key = Some (enc u64_codec n) ∧ is_u64 n
        ∧ (n ≤ Z.of_nat (length kept))%Z;
  holds_json : m !! blockchain_json_key = None
    ∨ ∃ bc total, replay old blockchain_new = Some bc ∧ is_u64 total
        ∧ m !! blockchain_json_key = Some (snapshot_record bc total);
  holds_old : behind old cs m ∧ length old ≤ length kept;
  holds_marker : m !! pending_checkpoint_commit_key = None ∨ marked cs m;
  holds_chain : m !! blockchain_key = None
}.

(** The store represents the history [cs]. *)
Definition consistent (cs : list Checkpoint) (m : entries_t) : Prop := ∃ kept old, holds kept old cs m.

(** *** Writing a checkpoint keeps the others *)

Lemma forget_records c' c :
  forget c' = forget c →
  sequence c' = sequence c ∧ meta_record c' = meta_record c ∧ txs_record c' = txs_record c
  ∧ has_payload c' = has_payload c.
Proof.
  intros E. pose proof (f_equal sequence E) as E1. cbn in E1. split; [done|].
  pose proof (f_equal transactions E) as E2. cbn in E2. unfold txs_record, has_payload. rewrite E2, E1. split; [|split; [done|]].
  - unfold meta_record. f_equal. destruct c', c. unfold forget, set_transactions in E. cbn in E.
    injection E as -> -> _ -> -> -> -> -> -> ->. reflexivity.
  - do 2 f_equal. by destruct (transactions c'), (transactions c).
Qed.

Lemma wrote_forget (c' c : Checkpoint) (mark : bool) (m m' : entries_t) : forget c' = forget c → wrote c' mark m m' → wrote c mark m m'.
Proof.
  intros E. destruct (forget_records c' c E) as (E1 & E2 & E3 & E4). intros [H1 H2 H3 H4 H5 H6 H7 H8].
  split; rewrite <- ?E1, <- ?E2, <- ?E3, <- ?E4; done.
Qed.

Definition distinct (cs : list Checkpoint) : Prop :=
  ∀ c d, c ∈ cs → d ∈ cs → sequence c = sequence d → c = d.
Definition ranged (cs : list Checkpoint) : Prop := ∀ c, c ∈ cs → is_u64 (sequence c) ∧ sequence c ≠ 0%Z.

Lemma wrote_elsewhere (c d : Checkpoint) (mark : bool) (m m' : entries_t) :
  wrote c mark m m' → is_u64 (sequence d) → sequence d ≠ sequence c →
  m' !! checkpoint_metadata_key (sequence d) = m !! checkpoint_metadata_key (sequence d)
  ∧ m' !! checkpoint_metadata_json_key (sequence d) = m !! checkpoint_metadata_json_key (sequence d)
  ∧ m' !! checkpoint_transactions_key (sequence d) = m !! checkpoint_transactions_key (sequence d).
Proof.
  intros Hw Hd Hne. split_and!; apply (wrote_other _ _ _ _ Hw _ (sequence d)); try done.
  - by apply checkpoint_sequence_of_meta.
  - by apply checkpoint_sequence_of_json.
  - by apply checkpoint_sequence_of_txs.
Qed.

(** The records do not depend on the rest of the store. *)
Lemma stored_frame (cs : list Checkpoint) (m m' : entries_t) :
  ranged cs → (∀ k n, checkpoint_sequence_of k = Some n → m' !! k = m !! k) →
  m' !! recent_transaction_hashes_key = m !! recent_transaction_hashes_key →
  m' !! sender_nonce_watermark_key = m !! sender_nonce_watermark_key →
  stored cs m → stored cs m'.
Proof.
  intros Hr Hseq Hrec Hwat [S1 S2 S3 S4 S5 S6]. split.
  - intros c Hc. rewrite (Hseq _ (sequence c)); [by apply S1|]. apply checkpoint_sequence_of_meta, Hr, Hc.
  - intros c Hc. rewrite (Hseq _ (sequence c)); [by apply S2|]. apply checkpoint_sequence_of_json, Hr, Hc.
  - intros c Hc. rewrite (Hseq _ (sequence c)); [by apply S3|]. apply checkpoint_sequence_of_txs, Hr, Hc.
  - intros k n Hk Hn. apply (S4 k n); [|done]. by rewrite <- (Hseq k n).
  - by eapply recent_ok_same.
  - by eapply watermark_ok_same.
Qed.

(** Rewriting a checkpoint of the history, or genesis, changes nothing. *)
Lemma stored_wrote (cs : list Checkpoint) (c : Checkpoint) (mark : bool) (m m' : entries_t) :
  distinct cs → ranged cs → stored cs m → c ∈ cs ∨ sequence c = 0%Z → wrote c mark m m' → stored cs m'.
Proof.
  intros Hd Hr [S1 S2 S3 S4 S5 S6] Hc Hw. pose proof Hw as Hw'. destruct Hw' as [W1 W2 W3 W4 W5 W6 _ _].
  assert (Hcase : ∀ d, d ∈ cs → d = c ∨ sequence d ≠ sequence c).
  { intros d Hin. destruct (decide (sequence d = sequence c)) as [E|E]; [|by right]. left.
    destruct Hc as [Hc|Hc]; [by apply Hd|]. destruct (Hr d Hin). lia. }
  split; [| | | |done|done].
  - intros d Hin. destruct (Hcase d Hin) as [->|Hne]; [done|].
    destruct (wrote_elsewhere _ d _ _ _ Hw) as (-> & _); [by apply Hr|done|by apply S1].
  - intros d Hin. destruct (Hcase d Hin) as [->|Hne]; [done|].
    destruct (wrote_elsewhere _ d _ _ _ Hw) as (_ & -> & _); [by apply Hr|done|by apply S2].
  - intros d Hin. destruct (Hcase d Hin) as [->|Hne].
    + rewrite W3. destruct (has_payload c) eqn:Ep; [done|]. rewrite S3 by done. by rewrite Ep.
    + destruct (wrote_elsewhere _ d _ _ _ Hw) as (_ & _ & ->); [by apply Hr|done|by apply S3].
  - intros k n Hk Hn. destruct (decide (n = sequence c)) as [->|Hne].
    + destruct Hc as [Hc|Hc]; [right; eauto|by left].
    + apply (S4 k); [|done]. by rewrite <- (W4 k n).
Qed.

(** A new checkpoint extends the history. *)
Lemma stored_extend (cs : list Checkpoint) (c : Checkpoint) (mark : bool) (m m' : entries_t) :
  distinct (cs ++ [c]) → ranged (cs ++ [c]) → c ∉ cs → stored cs m → wrote c mark m m' → stored (cs ++ [c]) m'.
Proof.
  intros Hd Hr Hni [S1 S2 S3 S4 S5 S6] Hw. pose proof Hw as Hw'. destruct Hw' as [W1 W2 W3 W4 W5 W6 _ _].
  assert (Hc : c ∈ cs ++ [c]) by (apply elem_of_app; right; by apply list_elem_of_singleton).
  destruct (Hr c Hc) as [Hu H0].
  assert (Hne : ∀ d, d ∈ cs → is_u64 (sequence d) ∧ sequence d ≠ sequence c).
  { intros d Hin. assert (Hin' : d ∈ cs ++ [c]) by (apply elem_of_app; by left).
    split; [by apply Hr|]. intros E. rewrite (Hd d c) in Hin; done. }
  assert (Hnone : ∀ k, checkpoint_sequence_of k = Some (sequence c) → m !! k = None).
  { intros k Hk. destruct (m !! k) eqn:E; [|done]. exfalso.
    destruct (S4 k (sequence c)) as [?|(d & Hin & Hs)]; [eauto|done|done|]. by destruct (Hne d Hin). }
  split; [| | | |done|done].
  - intros d [Hin| ->%list_elem_of_singleton]%elem_of_app; [|done]. destruct (Hne d Hin).
    destruct (wrote_elsewhere _ d _ _ _ Hw) as (-> & _); [done..|by apply S1].
  - intros d [Hin| ->%list_elem_of_singleton]%elem_of_app; [|done]. destruct (Hne d Hin).
    destruct (wrote_elsewhere _ d _ _ _ Hw) as (_ & -> & _); [done..|by apply S2].
  - intros d [Hin| ->%list_elem_of_singleton]%elem_of_app.
    + destruct (Hne d Hin). destruct (wrote_elsewhere _ d _ _ _ Hw) as (_ & _ & ->); [done..|by apply S3].
    + rewrite W3. destruct (has_payload c); [done|]. by apply Hnone, checkpoint_sequence_of_txs.
  - intros k n Hk Hn. destruct (decide (n = sequence c)) as [->|Hn']; [right; eauto|].
    destruct (S4 k n) as [?|(d & Hin & Hs)]; [by rewrite <- (W4 k n)|done|by left|].
    right. exists d. split; [|done]. apply elem_of_app. by left.
Qed.
End Consistency.

(** ** Reading the history back *)

Section Recovery.
Context {B3 : Blake3} {BC : Bcs} {BK : BcsCheckpoint} {HX : Hex} {SC : StateCodecs} {TT : TypeTags} {HC : HistoryCodecs}.
Local Abbreviation entries_t := (gmap bytes bytes).
Context (sha3_256 to_uppercase to_lowercase : bytes → bytes) (rocks : bool).
Local Abbreviation storable_checkpoint := (storable_checkpoint sha3_256 to_uppercase to_lowercase).

Lemma replay_distinct cs bc : replay cs blockchain_new = Some bc → distinct cs.
Proof.
  intros E c d [i Hi]%list_elem_of_lookup [j Hj]%list_elem_of_lookup Hs.
  rewrite (replay_sequence _ _ _ _ E Hi), (replay_sequence _ _ _ _ E Hj) in Hs.
  assert (i = j) by lia. subst. congruence.
Qed.

Lemma replay_ranged cs bc :
  replay cs blockchain_new = Some bc → Forall storable_checkpoint cs → ranged cs.
Proof.
  intros E Hs c Hc. rewrite Forall_forall in Hs. split; [by apply (sc_sequence _ _ _ _ (Hs c Hc))|].
  apply list_elem_of_lookup in Hc as [i Hi]. rewrite (replay_sequence _ _ _ _ E Hi). lia.
Qed.

Lemma storable_caches cs : Forall storable_checkpoint cs → Forall caches_ok cs.
Proof. intros H. eapply Forall_impl; [exact H|]. intros c Hc. apply Hc. Qed.

Lemma forget_without c : list_empty (transactions c) = true → forget (checkpoint_without_transactions c) = forget c.
Proof. destruct c as [sq vs [|tx txs] ef ch ed rt ts pv hv]; done. Qed.

Lemma set_forget c :
  set_transactions (map forget_tx (transactions c)) (forget (checkpoint_without_transactions c)) = forget c.
Proof. by destruct c. Qed.

(** One checkpoint is read as it was written. *)
Lemma metadata_read (cs : list Checkpoint) (m : entries_t) (c : Checkpoint) :
  stored cs m → c ∈ cs → storable_checkpoint c →
  load_checkpoint_metadata m (sequence c) = Some (forget (checkpoint_without_transactions c)).
Proof.
  intros Hs Hc Hok. unfold load_checkpoint_metadata, load_ok.
  rewrite store_load_none by by apply (stored_json _ _ Hs). cbn [mbind option_bind].
  rewrite (stored_meta _ _ Hs c Hc). unfold meta_record. by rewrite dec_enc by apply Hok.
Qed.

Lemma transactions_read (cs : list Checkpoint) (m : entries_t) (c : Checkpoint) :
  stored cs m → c ∈ cs → storable_checkpoint c →
  load_checkpoint_transactions m (sequence c)
  = if has_payload c then Some (map forget_tx (transactions c)) else None.
Proof.
  intros Hs Hc Hok. unfold load_checkpoint_transactions, load_ok. pose proof (stored_txs _ _ Hs c Hc) as E.
  destruct (has_payload c); [|by rewrite store_load_none].
  rewrite (store_load_enc _ _ (map forget_tx (transactions c))); [done|apply Hok|done].
Qed.

Lemma no_payload c : has_payload c = false → sequence c ≠ 0%Z → list_empty (transactions c) = true.
Proof.
  unfold has_payload. intros H%negb_false_iff%orb_true_iff H0. destruct H as [H|H%Z.eqb_eq]; [done|lia].
Qed.

Lemma checkpoint_read (cs : list Checkpoint) (m : entries_t) (c : Checkpoint) (ch : Blockchain) :
  stored cs m → c ∈ cs → storable_checkpoint c → sequence c ≠ 0%Z →
  recover_checkpoint m ch (sequence c) = Ok (Some (forget c)).
Proof.
  intros Hs Hc Hok H0. unfold recover_checkpoint.
  rewrite (metadata_read cs), (transactions_read cs) by done. cbn [result_bind].
  destruct (has_payload c) eqn:Ep; apply (f_equal (λ x, Ok (Some x))).
  - change (list_empty (transactions (forget (checkpoint_without_transactions c)))) with true. apply set_forget.
  - by apply forget_without, no_payload.
Qed.

Lemma recover_loop_nonzero (m : entries_t) (l : list Z) (ch : Blockchain) :
  recover_loop m l ch = recover_loop m (filter (λ n, n ≠ 0%Z) l) ch.
Proof.
  revert ch. induction l as [|n l IH]; intros ch; [done|]. destruct (decide (n = 0%Z)) as [->|Hn].
  - rewrite filter_cons_False by (intros H; by apply H). cbn [recover_loop]. apply IH.
  - rewrite filter_cons_True by done. cbn [recover_loop]. rewrite (proj2 (Z.eqb_neq n 0)) by done.
    destruct (recover_checkpoint m ch n) as [[c|]|]; cbn [result_bind]; [|done..].
    destruct (add_checkpoint_with_validation c true ch) as [ch' []]; [apply IH|done].
Qed.

Lemma recover_loop_replay (cs : list Checkpoint) (m : entries_t) (ds : list Checkpoint) (ch : Blockchain) :
  stored cs m → ranged cs → Forall storable_checkpoint ds → (∀ c, c ∈ ds → c ∈ cs) →
  recover_loop m (map sequence ds) ch = Ok (rebuild_tx_hash_index <$> replay (map forget ds) ch).
Proof.
  intros Hs Hr Hok. revert ch. induction ds as [|c ds IH]; intros ch Hin; [done|].
  apply Forall_cons in Hok as [Hc Hok]. assert (Hcs : c ∈ cs) by (apply Hin; by left).
  destruct (Hr c Hcs) as [_ H0]. cbn [map recover_loop replay]. rewrite (proj2 (Z.eqb_neq _ _)) by done.
  rewrite (checkpoint_read cs) by done. cbn [result_bind].
  destruct (add_checkpoint_with_validation (forget c) true ch) as [ch' [|]]; [|done].
  apply IH; [done|]. intros d Hd. apply Hin. by right.
Qed.

(** The scan finds the sequence numbers of the history, in order. *)
Lemma recover_sequences (cs : list Checkpoint) (bc : Blockchain) (m : entries_t) :
  replay cs blockchain_new = Some bc → Forall storable_checkpoint cs → stored cs m →
  filter (λ n, n ≠ 0%Z) (recover_checkpoint_sequences_from_store rocks m) = map sequence cs.
Proof.
  intros E Hok Hs. pose proof (replay_ranged _ _ E Hok) as Hr.
  destruct (replay_dag _ _ E) as (_ & _ & Eseq). apply strictly_sorted_unique.
  - eapply StronglySorted_sublist; [apply sublist_filter|apply recover_sequences_sorted].
  - rewrite Eseq. apply seqZ_sorted.
  - intros n. rewrite list_elem_of_filter, recover_sequences_elem, list_elem_of_fmap. split.
    + intros (Hn & k & Hk & Hkn). destruct (stored_only _ _ Hs k n Hk Hkn) as [?|(c & Hc & <-)]; [done|eauto].
    + intros (c & -> & Hc). destruct (Hr c Hc) as [Hu H0]. split; [done|].
      exists (checkpoint_metadata_key (sequence c)). split; [|by apply checkpoint_sequence_of_meta].
      rewrite (stored_meta _ _ Hs c Hc). eauto.
Qed.

(** Recovery from the records alone. *)
Lemma recover_stored (cs : list Checkpoint) (bc : Blockchain) (m : entries_t) :
  replay cs blockchain_new = Some bc → Forall storable_checkpoint cs → stored cs m →
  (∃ ch, recover_blockchain_from_checkpoint_store rocks m = Ok (Some ch) ∧ in_step ch bc
     ∧ is_u64 (total_transaction_count ch))
  ∨ recover_blockchain_from_checkpoint_store rocks m = Ok None ∧ cs = [].
Proof.
  intros E Hok Hs. pose proof (replay_ranged _ _ E Hok) as Hr. pose proof (storable_caches _ Hok) as Hc.
  destruct (in_step_replay _ _ E Hc) as (bc' & E' & Hst).
  assert (Hloop : recover_loop m (recover_checkpoint_sequences_from_store rocks m) blockchain_new
    = Ok (Some (rebuild_tx_hash_index bc'))).
  { rewrite recover_loop_nonzero, (recover_sequences cs bc) by done.
    rewrite (recover_loop_replay cs) by done. by rewrite E'. }
  unfold recover_blockchain_from_checkpoint_store.
  destruct (recover_checkpoint_sequences_from_store rocks m) as [|n l] eqn:El.
  - right. split; [done|]. pose proof (recover_sequences cs bc m E Hok Hs) as Hl. rewrite El in Hl.
    by destruct cs.
  - left. rewrite Hloop. eexists. split; [done|]. split; [by apply (in_step_rebuild cs), step_dag|].
    apply rebuild_counted. eapply replay_counted; [|exact E']. done.
Qed.
End Recovery.
