(* ===== verification/HistoryTheorems.v ===== *)
(** * The durable history: theorems

    Every write of a snapshot and of a recovery keeps the store consistent, and
    starting from a consistent store gives the chain of its history back, also
    when the start itself is interrupted and repeated. *)

From stdpp Require Import base list gmap strings sorting.
From Stdlib Require Import ZArith Lia.
From S2P Require Import Prelude Order Hashing SmtSpec Text Address GasCoin Transaction TypesTheorems Blockchain BlockchainTheorems Mempool Proposer ChangeSet StateManager StateRoot StateStartup History ChainReplay HistoryStore HistoryRecovery.

(** ** Restart *)

Section Restart.
Context {B3 : Blake3} {BC : Bcs} {BK : BcsCheckpoint} {HX : Hex} {SC : StateCodecs} {TT : TypeTags} {HC : HistoryCodecs}.
Local Abbreviation entries_t := (gmap bytes bytes).
Context (sha3_256 to_uppercase to_lowercase : bytes → bytes) (env : bytes → option bytes) (rocks : bool).
Local Abbreviation storable_checkpoint := (storable_checkpoint sha3_256 to_uppercase to_lowercase).
Local Abbreviation persist := (persist_blockchain_snapshot_to_store sha3_256 to_uppercase to_lowercase env rocks).
Local Abbreviation persist_one := (persist_checkpoint_transactions sha3_256 to_uppercase to_lowercase env rocks).
Context (cs : list Checkpoint) (bc : Blockchain).
Hypothesis no_retention : history_retention_checkpoints env = None.
Hypothesis history_valid : replay cs blockchain_new = Some bc.
Hypothesis history_storable : Forall storable_checkpoint cs.
Hypothesis genesis_storable : storable_checkpoint genesis.

(** *** Parts of the history *)

Lemma marked_same (m m' : entries_t) :
  m' !! pending_checkpoint_commit_key = m !! pending_checkpoint_commit_key → marked cs m → marked cs m'.
Proof. unfold marked. by intros ->. Qed.
Lemma behind_same (m m' : entries_t) (kept : list Checkpoint) :
  m' !! pending_checkpoint_commit_key = m !! pending_checkpoint_commit_key → behind kept cs m → behind kept cs m'.
Proof. unfold behind, marked. by intros ->. Qed.

Lemma behind_sub (kept : list Checkpoint) (m : entries_t) : behind kept cs m → ∃ rest, cs = kept ++ rest.
Proof. intros [->|(_ & c & ->)]; [exists []; by rewrite app_nil_r|eauto]. Qed.

Lemma behind_replay (kept : list Checkpoint) (m : entries_t) :
  behind kept cs m → Forall storable_checkpoint kept ∧ ∃ bck, replay kept blockchain_new = Some bck.
Proof.
  intros [rest E]%behind_sub. pose proof history_valid as Hv. pose proof history_storable as Hs.
  rewrite E in Hv, Hs. apply Forall_app in Hs as [Hs _]. split; [done|]. rewrite replay_app in Hv.
  destruct (replay kept blockchain_new); [eauto|done].
Qed.

(** Of two parts the longer one holds the shorter one. *)
Lemma behind_nested (kept old : list Checkpoint) (m : entries_t) c :
  behind kept cs m → behind old cs m → length old ≤ length kept → c ∈ old → c ∈ kept.
Proof.
  intros [r1 E1]%behind_sub [r2 E2]%behind_sub Hl Hc. rewrite E1 in E2.
  assert (E : old = take (length old) kept).
  { rewrite <- (take_app_le kept r1) by done. rewrite E2. by rewrite take_app_length. }
  rewrite E in Hc. by apply elem_of_take in Hc as (i & Hi & _); apply list_elem_of_lookup_2 in Hi.
Qed.

Lemma behind_full (kept : list Checkpoint) (m : entries_t) :
  behind kept cs m → length cs ≤ length kept → kept = cs.
Proof. intros [->|(_ & c & E)] Hl; [done|]. rewrite E, length_app in Hl. cbn [length] in Hl. lia. Qed.

(** *** A chain that represents a part of the history *)

Lemma storable_forget c : storable_checkpoint c → storable_checkpoint (forget c).
Proof.
  intros [H1 H2 [h Hh] H3 H4 H5 H6]. split.
  - apply forget_caches.
  - done.
  - exists h. by rewrite checkpoint_hash_forget.
  - exact H3.
  - by rewrite forget_idemp.
  - change (transactions (forget c)) with (map forget_tx (transactions c)). by rewrite map_forget_idemp.
  - change (transactions (forget c)) with (map forget_tx (transactions c)). rewrite Forall_map. exact H6.
Qed.

Record chain_of (kept : list Checkpoint) (ch : Blockchain) : Prop := {
  chain_dag : map forget (dag_checkpoints ch) = map forget (genesis :: window kept);
  chain_total : is_u64 (total_transaction_count ch);
  chain_storable_all : Forall storable_checkpoint (dag_checkpoints ch)
}.

Lemma in_step_chain (kept : list Checkpoint) bck ch :
  replay kept blockchain_new = Some bck → Forall storable_checkpoint kept → in_step ch bck →
  is_u64 (total_transaction_count ch) → chain_of kept ch.
Proof.
  intros E Hs Hi Ht. split; [|done|]; rewrite (step_dag _ _ Hi), (proj1 (replay_dag _ _ E)).
  - rewrite map_map. apply map_ext. apply forget_idemp.
  - change (map forget (genesis :: window kept)) with (forget genesis :: map forget (window kept)).
    constructor; [by apply storable_forget|]. apply Forall_map, Forall_forall. intros c Hc%window_sublist.
    apply storable_forget. by apply (proj1 (Forall_forall _ _) Hs).
Qed.

Lemma chain_member (kept : list Checkpoint) ch c :
  chain_of kept ch → c ∈ dag_checkpoints ch →
  storable_checkpoint c ∧ ∃ c0, (c0 ∈ kept ∨ c0 = genesis) ∧ forget c = forget c0.
Proof.
  intros H Hc. split; [by apply (proj1 (Forall_forall _ _) (chain_storable_all _ _ H))|].
  assert (Hin : forget c ∈ map forget (genesis :: window kept)).
  { rewrite <- (chain_dag _ _ H). by apply list_elem_of_fmap_2. }
  apply list_elem_of_fmap in Hin as (c0 & E & Hin). exists c0. split; [|done].
  apply elem_of_cons in Hin as [->|Hin]; [by right|left; by apply window_sublist].
Qed.

Lemma chain_last (kept : list Checkpoint) ch :
  chain_of kept ch → ∃ c, latest_checkpoint ch = Some c ∧ forget c = forget (default genesis (last kept)).
Proof.
  intros H. pose proof (f_equal last (chain_dag _ _ H)) as E.
  change (last (map forget (dag_checkpoints ch))) with (last (forget <$> dag_checkpoints ch)) in E.
  change (last (map forget (genesis :: window kept))) with (last (forget <$> (genesis :: window kept))) in E.
  rewrite !fmap_last, window_last in E. unfold latest_checkpoint.
  destruct (last (dag_checkpoints ch)) as [c|]; [|done]. apply (inj Some) in E. by exists c.
Qed.

Lemma chain_height (kept : list Checkpoint) bck ch :
  replay kept blockchain_new = Some bck → chain_of kept ch → height ch = Some (Z.of_nat (length kept)).
Proof.
  intros E H. destruct (chain_last kept ch H) as (c & Hc & Ef). unfold height. rewrite Hc.
  cbn [fmap option_fmap option_map]. f_equal. rewrite <- (last_sequence kept) by apply (replay_dag _ _ E).
  apply (f_equal sequence) in Ef. exact Ef.
Qed.
(** *** Persisting a chain *)

Lemma part_facts (kept : list Checkpoint) (m : entries_t) : behind kept cs m → distinct kept ∧ ranged kept.
Proof.
  intros H. destruct (behind_replay kept m H) as (Hs & bck & E).
  split; [by eapply replay_distinct|by eapply replay_ranged].
Qed.

Lemma full_distinct (kept : list Checkpoint) c : cs = kept ++ [c] → c ∉ kept.
Proof.
  intros E Hin. pose proof history_valid as Hv. rewrite E in Hv.
  apply list_elem_of_lookup in Hin as [i Hi]. pose proof (lookup_lt_Some _ _ _ Hi) as Hlt.
  assert (H1 : (kept ++ [c]) !! i = Some c) by by rewrite lookup_app_l.
  assert (H2 : (kept ++ [c]) !! length kept = Some c) by (rewrite lookup_app_r, Nat.sub_diag; done).
  pose proof (replay_sequence _ _ _ _ Hv H1). pose proof (replay_sequence _ _ _ _ Hv H2). lia.
Qed.

(** After the records of a checkpoint of the history were written again. *)
Lemma holds_wrote (kept old part : list Checkpoint) (m m' : entries_t) c :
  holds kept old cs m → behind part cs m → c ∈ part ∨ c = genesis → wrote c false m m' →
  m' !! pending_checkpoint_commit_key = m !! pending_checkpoint_commit_key →
  ∃ kept', holds kept' old cs m' ∧ length kept ≤ length kept' ∧ (c ∈ kept' ∨ c = genesis).
Proof.
  intros [H1 H2 H3 H4 [H5 H5'] H6 H7] Hp Hc Hw Hm.
  destruct (part_facts kept m H2) as [Hd Hr].
  assert (Hgen : ∀ kept', stored kept' m' → behind kept' cs m → length kept ≤ length kept' →
    (c ∈ kept' ∨ c = genesis) →
    ∃ kept', holds kept' old cs m' ∧ length kept ≤ length kept' ∧ (c ∈ kept' ∨ c = genesis)).
  { intros kept' Hs' Hb' Hl Hin. exists kept'. split; [|done]. split.
    - done.
    - by apply (behind_same m).
    - rewrite (wrote_through _ _ _ _ Hw). destruct H3 as [H3|(n & Hn & Hu & Hle)]; [by left|].
      right. exists n. split; [done|]. split; [done|]. lia.
    - rewrite (proj1 (wrote_chain _ _ _ _ Hw)). exact H4.
    - split; [by apply (behind_same m)|lia].
    - destruct H6 as [H6|H6]; [left; by rewrite Hm|right; by apply (marked_same m)].
    - by rewrite (proj2 (wrote_chain _ _ _ _ Hw)). }
  assert (Hold : c ∈ kept ∨ c = genesis →
    ∃ kept', holds kept' old cs m' ∧ length kept ≤ length kept' ∧ (c ∈ kept' ∨ c = genesis)).
  { intros Hin. apply (Hgen kept); [|done|lia|done]. apply (stored_wrote kept c false m m'); [done|done|done| |done].
    destruct Hin as [Hin| ->]; [by left|by right]. }
  destruct Hc as [Hc|Hc]; [|apply Hold; by right].
  assert (Hcs : c ∈ cs).
  { destruct (behind_sub _ _ Hp) as [r E]. rewrite E. apply elem_of_app. by left. }
  destruct H2 as [->|(Hmk & x & Ex)]; [apply Hold; by left|]. pose proof Hcs as Hcs'. rewrite Ex in Hcs'.
  apply elem_of_app in Hcs' as [Hin|Hin]; [apply Hold; by left|]. apply list_elem_of_singleton in Hin as <-.
  apply (Hgen cs); [|by left|rewrite Ex, length_app; lia|by left].
  destruct (part_facts cs m) as [Hd' Hr']; [by left|]. rewrite Ex in Hd', Hr' |- *.
  apply (stored_extend kept c false m m'); [done|done|by apply full_distinct|done|done].
Qed.

Lemma persist_one_triple (part : list Checkpoint) ch c :
  chain_of part ch → c ∈ dag_checkpoints ch →
  ∀ n, crash_triple (consistent cs)
    (λ m, ∃ kept old, holds kept old cs m ∧ behind part cs m ∧ n ≤ length kept)
    (persist_one c)
    (λ _ m, ∃ kept old, holds kept old cs m ∧ behind part cs m ∧ n ≤ length kept
       ∧ (sequence c ≤ Z.of_nat (length kept))%Z).
Proof.
  intros Hch Hc n d (kept & old & Hh & Hp & Hn).
  destruct (chain_member part ch c Hch Hc) as (Hs & c0 & Hc0 & Ef).
  destruct (raw_changes_written sha3_256 to_uppercase to_lowercase env rocks (contents d) c false Hs
    (stored_recent _ _ (holds_stored _ _ _ _ Hh)) (stored_watermark _ _ (holds_stored _ _ _ _ Hh)))
    as (U & l & w & EU & HU).
  set (D := [checkpoint_metadata_json_key (sequence c)]). set (m' := apply_raw_changes U D (contents d)).
  assert (Hw : wrote c false (contents d) m').
  { pose proof (checkpoint_wrote sha3_256 to_uppercase to_lowercase env (contents d) c false l w U [] [] Hs
      (stored_recent _ _ (holds_stored _ _ _ _ Hh)) (stored_watermark _ _ (holds_stored _ _ _ _ Hh)) HU) as W.
    rewrite !app_nil_r in W. apply W. constructor. }
  assert (Hm : m' !! pending_checkpoint_commit_key = contents d !! pending_checkpoint_commit_key).
  { pose proof (batch_marker_kept sha3_256 to_uppercase to_lowercase (contents d) c false l w U [] [] Hs HU) as W.
    rewrite !app_nil_r in W. apply W; apply not_elem_of_nil. }
  eexists {| contents := m'; earlier := contents d :: earlier d |}, tt, [contents d].
  split; [unfold persist_checkpoint_transactions, read, mbind, st_bind; rewrite EU; reflexivity|].
  cbn [contents earlier]. split; [|split; [done|constructor; [by exists kept, old|constructor]]].
  destruct (holds_wrote kept old part (contents d) m' c0 Hh Hp Hc0) as (kept' & Hh' & Hl & Hin).
  { by apply (wrote_forget c). } { done. }
  exists kept', old. split; [done|]. split; [by apply (behind_same (contents d))|]. split; [lia|].
  apply (f_equal sequence) in Ef. change (sequence c = sequence c0) in Ef. rewrite Ef.
  destruct Hin as [Hin| ->]; [|simpl; lia].
  destruct (behind_replay kept' m' (holds_kept _ _ _ _ Hh')) as (_ & bck & Ek).
  apply list_elem_of_lookup in Hin as [i Hi]. rewrite (replay_sequence _ _ _ _ Ek Hi).
  apply lookup_lt_Some in Hi. lia.
Qed.
(** The part of the chain that the snapshot still has to write reaches its tip. *)
Lemma unpersisted_reaches (part : list Checkpoint) bck ch through k :
  replay part blockchain_new = Some bck → chain_of part ch →
  (∀ n, through = Some n → n ≤ Z.of_nat k)%Z →
  (∀ c, c ∈ unpersisted through (dag_checkpoints ch) → sequence c ≤ Z.of_nat k)%Z →
  length part ≤ k.
Proof.
  intros E Hch Ht Hu. destruct (chain_last part ch Hch) as (c & Hc & Ef).
  apply (f_equal sequence) in Ef. change (sequence c = sequence (default genesis (last part))) in Ef.
  rewrite (last_sequence part) in Ef by apply (replay_dag _ _ E).
  assert (Hin : c ∈ dag_checkpoints ch) by by apply last_Some_elem_of.
  destruct through as [n|].
  - specialize (Ht n eq_refl). destruct (Z.ltb_spec n (sequence c)) as [Hlt|Hge]; [|lia].
    enough (sequence c ≤ Z.of_nat k)%Z by lia. apply Hu. unfold unpersisted.
    apply list_elem_of_In, filter_In. split; [by apply list_elem_of_In|]. by apply Z.ltb_lt.
  - enough (sequence c ≤ Z.of_nat k)%Z by lia. apply Hu. unfold unpersisted.
    apply list_elem_of_In, filter_In. split; [by apply list_elem_of_In|done].
Qed.

Lemma unpersisted_sub through l c : c ∈ unpersisted through l → c ∈ l.
Proof. unfold unpersisted. rewrite !list_elem_of_In, filter_In. naive_solver. Qed.

Lemma slim_forget c : forget (slim_checkpoint c) = forget (checkpoint_without_transactions c).
Proof. unfold slim_checkpoint. destruct (list_empty (transactions c)) eqn:E; [|done]. by rewrite forget_without. Qed.

Lemma forget_without_eq c' c : forget c' = forget c →
  forget (checkpoint_without_transactions c') = forget (checkpoint_without_transactions c).
Proof.
  intros E. destruct c', c. unfold forget, set_transactions in E. cbn in E.
  injection E as -> -> _ -> -> -> -> -> -> ->. reflexivity.
Qed.

(** The slim snapshot of a chain depends on its checkpoints up to caches only. *)
Lemma slim_chain_of (part : list Checkpoint) bck ch :
  replay part blockchain_new = Some bck → chain_of part ch →
  slim_chain ch = (map (λ c, forget (checkpoint_without_transactions c)) (dag_checkpoints bck), total_transaction_count ch).
Proof.
  intros E Hch. unfold slim_chain. f_equal. rewrite (proj1 (replay_dag _ _ E)).
  pose proof (chain_dag _ _ Hch) as Hd. revert Hd. generalize (dag_checkpoints ch), (genesis :: window part).
  intros l. induction l as [|c l IH]; intros [|c' l'] Hd; try done. cbn [map] in *.
  pose proof (f_equal (hd (forget c)) Hd) as Hc1. pose proof (f_equal tail Hd) as Hl. cbn [hd tail] in Hc1, Hl.
  rewrite slim_forget, (forget_without_eq c c' Hc1). apply (f_equal (cons _)). by apply IH.
Qed.

Lemma holds_congruent (kept old : list Checkpoint) (m m' : entries_t) :
  holds kept old cs m →
  (∀ k, k ≠ history_persisted_through_key → k ≠ blockchain_json_key → m' !! k = m !! k) →
  (m' !! history_persisted_through_key = m !! history_persisted_through_key
   ∨ ∃ n, m' !! history_persisted_through_key = Some (enc u64_codec n) ∧ is_u64 n ∧ (n ≤ Z.of_nat (length kept))%Z) →
  ∀ old', behind old' cs m → length old' ≤ length kept →
  (m' !! blockchain_json_key = None ∨ ∃ bck total, replay old' blockchain_new = Some bck ∧ is_u64 total
     ∧ m' !! blockchain_json_key = Some (snapshot_record bck total)) →
  holds kept old' cs m'.
Proof.
  intros [H1 H2 H3 H4 [H5 H5'] H6 H7] Hsame Ht old' Hb Hl Hj.
  assert (Hm : m' !! pending_checkpoint_commit_key = m !! pending_checkpoint_commit_key)
    by (apply Hsame; keys_differ).
  assert (Hseq : ∀ k n, checkpoint_sequence_of k = Some n → m' !! k = m !! k).
  { intros k n Hk. apply Hsame; intros ->; apply (sequence_not_foreign _ _) in Hk as [_ Hk]; apply Hk; by repeat constructor. }
  destruct (part_facts kept m H2) as [_ Hr].
  split; [|by apply (behind_same m)| |done|split; [by apply (behind_same m)|done]| |rewrite Hsame; [done|keys_differ..]].
  - eapply (stored_frame kept m); [done|done|apply Hsame; keys_differ..|done].
  - destruct Ht as [->|Ht]; [done|by right].
  - destruct H6 as [H6|H6]; [left; by rewrite Hm|right; by apply (marked_same m)].
Qed.

Lemma cs_height : is_u64 (Z.of_nat (length cs)).
Proof.
  destruct (last cs) as [c|] eqn:El; [|apply last_None in El; rewrite El; done].
  pose proof (last_sequence cs (proj2 (proj2 (replay_dag _ _ history_valid)))) as Hs. rewrite El in Hs. cbn in Hs.
  rewrite <- Hs. apply (sc_sequence sha3_256 to_uppercase to_lowercase).
  by apply (proj1 (Forall_forall _ _) history_storable), last_Some_elem_of.
Qed.

(** The largest sequence number written so far. *)
Definition reach (k : nat) (l : list Checkpoint) : nat := foldr (λ c b, Nat.max (Z.to_nat (sequence c)) b) k l.

Lemma reach_snoc k l c : reach k (l ++ [c]) = Nat.max (reach k l) (Z.to_nat (sequence c)).
Proof. induction l as [|x l IH]; cbn; [lia|]. unfold reach in IH. rewrite IH. lia. Qed.

Lemma reach_elem k l c : c ∈ l → Z.to_nat (sequence c) ≤ reach k l.
Proof.
  induction l as [|x l IH]; intros Hc; [by apply elem_of_nil in Hc|]. cbn.
  apply elem_of_cons in Hc as [->|Hc]; [lia|]. specialize (IH Hc). unfold reach in IH. lia.
Qed.

Lemma reach_start k l : k ≤ reach k l.
Proof. induction l as [|x l IH]; cbn; [lia|]. unfold reach in IH. lia. Qed.

(** The loop over the checkpoints that are not persisted yet. *)
Lemma records_triple (part : list Checkpoint) bck ch (p : option Z) h :
  replay part blockchain_new = Some bck → chain_of part ch → (∀ n, p = Some n → is_u64 n) →
  crash_triple (consistent cs)
    (λ m, ∃ kept old, holds kept old cs m ∧ behind part cs m ∧ Z.to_nat (default 0%Z p) ≤ length kept)
    (for_each (unpersisted ((λ sequence, Z.min sequence h) <$> p) (dag_checkpoints ch)) persist_one)
    (λ _ m, ∃ kept old, holds kept old cs m ∧ behind part cs m ∧ length part ≤ length kept).
Proof.
  intros E Hch Hu. set (l := unpersisted ((λ sequence, Z.min sequence h) <$> p) (dag_checkpoints ch)).
  set (k := Z.to_nat (default 0%Z p)).
  eapply triple_weaken; [apply (triple_for_each _ l _ (λ past m,
    ∃ kept old, holds kept old cs m ∧ behind part cs m ∧ reach k past ≤ length kept))| |].
  - intros past c todo El d' (kept & old & Hm).
    assert (Hc : c ∈ dag_checkpoints ch).
    { apply (unpersisted_sub ((λ sequence, Z.min sequence h) <$> p)). fold l. rewrite El.
      apply elem_of_app. right. by left. }
    destruct (persist_one_triple part ch c Hch Hc (reach k past) d') as (d1 & [] & ms & E1 & Hpost & E2 & Hms);
      [by exists kept, old|].
    exists d1, tt, ms. split; [done|]. split; [|done].
    destruct Hpost as (kept' & old' & H1 & H2 & H3 & H4). exists kept', old'. split; [done|]. split; [done|].
    rewrite reach_snoc. lia.
  - intros m H. exact H.
  - intros [] m (kept & old & H1 & H2 & H3). exists kept, old. split; [done|]. split; [done|].
    apply (unpersisted_reaches part bck ch ((λ sequence, Z.min sequence h) <$> p) (length kept) E Hch).
    + intros n Hn. destruct p as [n0|]; [|done]. injection Hn as <-. pose proof (reach_start k l).
      specialize (Hu n0 eq_refl). unfold k in *. cbn in *. destruct Hu. lia.
    + intros c Hc. pose proof (reach_elem k l c Hc).
      assert (0 ≤ sequence c)%Z; [|lia].
      destruct (chain_member part ch c Hch) as [Hsc _]; [by eapply unpersisted_sub|]. apply Hsc.
Qed.

(** Then the reach of the records and the snapshot itself. *)
Lemma snapshot_triple (part : list Checkpoint) bck ch :
  replay part blockchain_new = Some bck → chain_of part ch →
  crash_triple (consistent cs)
    (λ m, ∃ kept old, holds kept old cs m ∧ behind part cs m ∧ length part ≤ length kept)
    (save u64_codec history_persisted_through_key (Z.of_nat (length part)) ≫= λ _,
     (if persist_blockchain_json_snapshot_enabled env rocks
      then save blob_codec blockchain_json_key (enc json_chain (slim_chain ch))
      else erase blockchain_json_key) ≫= λ _, mret tt)
    (λ _ m, ∃ kept, holds kept part cs m).
Proof.
  intros E Hch. assert (Hbase : ∀ m kept old, holds kept old cs m → consistent cs m) by (intros m k o H; by exists k, o).
  eapply (triple_bind _ _ _ _ (λ _ m,
    ∃ kept old, holds kept old cs m ∧ behind part cs m ∧ length part ≤ length kept)).
  { apply triple_write. intros m (kept & old & H1 & H2 & H3). split; [by eapply Hbase|].
    exists kept, old. split; [|split; [|done]].
    - apply (holds_congruent kept old m); [done| | |apply H1..|].
      + intros k Hk _. by rewrite lookup_insert_ne.
      + right. exists (Z.of_nat (length part)). rewrite lookup_insert_eq. split; [done|].
        pose proof cs_height as Hcs. destruct (behind_sub _ _ H2) as [r Er]. rewrite Er, length_app in Hcs.
        unfold is_u64 in *. lia.
      + rewrite lookup_insert_ne by keys_differ. apply H1.
    - apply (behind_same m); [|done]. rewrite lookup_insert_ne; [done|keys_differ]. }
  intros []. eapply (triple_bind _ _ _ _ (λ _ m, ∃ kept, holds kept part cs m)); [|intros []; by apply triple_ret].
  destruct (persist_blockchain_json_snapshot_enabled env rocks); apply triple_write;
    intros m (kept & old & H1 & H2 & H3); (split; [by eapply Hbase|]); exists kept;
    (apply (holds_congruent kept old m); [done| | |done|done|]).
  - intros k _ Hk. by rewrite lookup_insert_ne.
  - left. rewrite lookup_insert_ne; [done|keys_differ].
  - right. exists bck, (total_transaction_count ch). split; [done|]. split; [apply Hch|].
    rewrite lookup_insert_eq, (slim_chain_of part bck ch) by done. reflexivity.
  - intros k _ Hk. by rewrite lookup_delete_ne.
  - left. rewrite lookup_delete_ne; [done|keys_differ].
  - left. apply lookup_delete_eq.
Qed.

(** Persisting a chain that represents a part of the history: all its records are
    there afterwards and the snapshot, if any, is the chain's. *)
Lemma persist_triple (part : list Checkpoint) ch :
  chain_of part ch →
  crash_triple (consistent cs)
    (λ m, consistent cs m ∧ behind part cs m) (persist ch)
    (λ _ m, ∃ kept, holds kept part cs m).
Proof.
  intros Hch d [Hd1 Hd2]. destruct (behind_replay part (contents d) Hd2) as (Hs & bck & E).
  pose proof (chain_height part bck ch E Hch) as Hh.
  enough (T : crash_triple (consistent cs) (λ m, consistent cs m ∧ behind part cs m) (persist ch)
    (λ _ m, ∃ kept, holds kept part cs m)) by by apply (T d).
  unfold persist_blockchain_snapshot_to_store.
  eapply (triple_bind _ _ _ _ (λ h m, h = Z.of_nat (length part) ∧ consistent cs m ∧ behind part cs m)).
  { apply triple_lift. intros m [H1 H2]. rewrite Hh. by eexists. }
  intros h. eapply (triple_bind _ _ _ _ (λ p m, (h = Z.of_nat (length part) ∧ ∀ n, p = Some n → is_u64 n)
    ∧ ∃ kept old, holds kept old cs m ∧ behind part cs m ∧ Z.to_nat (default 0%Z p) ≤ length kept)).
  { apply triple_read. intros m (-> & (kept & old & H) & Hp).
    destruct (holds_through _ _ _ _ H) as [Hn|(n & Hn & Hu & Hle)].
    - rewrite store_load_none by done. exists None. split; [done|]. split; [done|].
      exists kept, old. split; [done|]. split; [done|]. cbn. lia.
    - rewrite (store_load_enc _ _ n) by (by try apply u64_storable). exists (Some n). split; [done|].
      split; [split; [done|by intros ? [= <-]]|]. exists kept, old. split; [done|]. split; [done|]. cbn. lia. }
  intros p d1 [[-> Hu] Hm]. revert d1 Hm.
  change (crash_triple (consistent cs)
    (λ m, ∃ kept old, holds kept old cs m ∧ behind part cs m ∧ Z.to_nat (default 0%Z p) ≤ length kept)
    (for_each (unpersisted ((λ sequence, Z.min sequence (Z.of_nat (length part))) <$> p) (dag_checkpoints ch)) persist_one
     ≫= λ _, save u64_codec history_persisted_through_key (Z.of_nat (length part)) ≫= λ _,
     (if persist_blockchain_json_snapshot_enabled env rocks
      then save blob_codec blockchain_json_key (enc json_chain (slim_chain ch))
      else erase blockchain_json_key) ≫= λ _,
     match history_retention_checkpoints env with
     | Some retention => prune_transaction_payloads (saturating_sub (Z.of_nat (length part)) retention)
     | None => mret tt
     end)
    (λ _ m, ∃ kept, holds kept part cs m)).
  rewrite no_retention. eapply triple_bind; [by apply (records_triple part bck)|]. intros [].
  by apply (snapshot_triple part bck ch).
Qed.

(** *** Loading the chain *)

Context (init_genesis : st StateManager unit) (fail_fast : bool).
Local Abbreviation load := (load_blockchain sha3_256 to_uppercase to_lowercase env rocks init_genesis fail_fast).
Local Abbreviation init := (init_chain sha3_256 to_uppercase to_lowercase env rocks init_genesis fail_fast).

(** A chain for the part of the history that is behind at most by the marker. *)
Definition represents (ch : Blockchain) (m : entries_t) : Prop :=
  ∃ part bck, behind part cs m ∧ replay part blockchain_new = Some bck ∧ in_step ch bck
    ∧ is_u64 (total_transaction_count ch).

Lemma represents_chain (ch : Blockchain) (m : entries_t) :
  represents ch m → ∃ part, behind part cs m ∧ chain_of part ch.
Proof.
  intros (part & bck & Hb & E & Hi & Ht). exists part. split; [done|].
  destruct (behind_replay part m Hb) as [Hs _]. by eapply in_step_chain.
Qed.

(** Checkpoints of the snapshot get their transactions back. *)
Lemma hydrated (kept old : list Checkpoint) (m : entries_t) (bck : Blockchain) (total : Z) :
  holds kept old cs m → replay old blockchain_new = Some bck →
  dag_checkpoints (hydrate_blockchain_transactions m (chain_of_record
    (map (λ c, forget (checkpoint_without_transactions c)) (dag_checkpoints bck), total)))
  = map forget (dag_checkpoints bck).
Proof.
  intros H E. cbn [hydrate_blockchain_transactions set_dag dag_checkpoints chain_of_record fst].
  rewrite map_map. apply map_ext_in. intros c Hc%list_elem_of_In.
  rewrite (proj1 (replay_dag _ _ E)) in Hc. unfold hydrate_checkpoint.
  change (transactions (forget (checkpoint_without_transactions c))) with (@nil SignedTransaction).
  change (sequence (forget (checkpoint_without_transactions c))) with (sequence c). cbn [list_empty negb orb].
  apply elem_of_cons in Hc as [->|Hc]; [done|].
  assert (Hk : c ∈ kept).
  { destruct (holds_old _ _ _ _ H) as [Hb Hl]. eapply (behind_nested kept old m); [apply H|done..|].
    by apply window_sublist. }
  destruct (behind_replay kept m (holds_kept _ _ _ _ H)) as (Hs & bk & Ek).
  destruct (replay_ranged _ _ _ _ _ Ek Hs c Hk) as [_ H0]. rewrite (proj2 (Z.eqb_neq _ _) H0).
  rewrite (transactions_read sha3_256 to_uppercase to_lowercase kept m c (holds_stored _ _ _ _ H) Hk)
    by by apply (proj1 (Forall_forall _ _) Hs).
  destruct (has_payload c) eqn:Ep; [apply set_forget|]. by apply forget_without, no_payload.
Qed.

Lemma snapshot_restored (kept old : list Checkpoint) d bck total :
  holds kept old cs (contents d) → replay old blockchain_new = Some bck → is_u64 total →
  ∃ ch, restore_snapshot sha3_256 to_uppercase to_lowercase env rocks
      (map (λ c, forget (checkpoint_without_transactions c)) (dag_checkpoints bck), total) d = (d, Ok ch)
    ∧ represents ch (contents d).
Proof.
  intros H E Ht. set (r := (map _ (dag_checkpoints bck), total)).
  assert (Eg : ensure_genesis_retained (chain_of_record r) = (chain_of_record r, false)).
  { unfold ensure_genesis_retained. cbn [chain_of_record dag_checkpoints r fst].
    rewrite (proj1 (replay_dag _ _ E)). reflexivity. }
  unfold restore_snapshot. rewrite Eg. eexists. split; [reflexivity|].
  destruct (behind_replay old (contents d)) as (Hs & _); [apply H|].
  exists old, bck. split; [apply H|]. split; [done|]. split.
  - eapply (in_step_rebuild old); [done|by eapply storable_caches|by apply (hydrated kept old)].
  - by apply rebuild_counted.
Qed.

Lemma snapshot_decoded (bck : Blockchain) (total : Z) (m : entries_t) :
  m !! blockchain_json_key = Some (snapshot_record bck total) → is_u64 total →
  Forall storable_checkpoint (dag_checkpoints bck) →
  (json ← load_ok blob_codec blockchain_json_key m; dec json_chain json)
  = Some (map (λ c, forget (checkpoint_without_transactions c)) (dag_checkpoints bck), total).
Proof.
  intros Hm Ht Hs. unfold load_ok.
  assert (Hj : storable json_chain (map (λ c, forget (checkpoint_without_transactions c)) (dag_checkpoints bck), total)).
  { apply chain_storable; [|done]. apply Forall_map. eapply Forall_impl; [exact Hs|]. intros c Hc. apply Hc. }
  rewrite (store_load_enc _ _ _ m (json_storable _ Hj) Hm). cbn [mbind option_bind]. by apply dec_enc.
Qed.

Lemma fresh_allowed (strict : bool) (m : entries_t) :
  strict = false ∨ marked cs m →
  crash_triple (consistent cs) (λ m', m' = m) (fresh_genesis_if_allowed rocks init_genesis fail_fast strict)
    (λ ch m', ch = blockchain_new ∧ m' = m).
Proof.
  intros Hok d Hd. exists d, blockchain_new, []. split; [|by split].
  unfold fresh_genesis_if_allowed. destruct strict; [|done]. destruct Hok as [?|(c & Hl & Hm)]; [done|].
  assert (Hs : storable_checkpoint c).
  { apply (proj1 (Forall_forall _ _) history_storable). by apply last_Some_elem_of. }
  unfold persistent_store_can_use_fresh_genesis_metadata, mbind, st_bind, st_gets.
  destruct (list_empty (logical_entries rocks (contents d))); [done|].
  unfold read. rewrite Hd. by rewrite (store_load_enc _ _ _ _ (sc_full _ _ _ _ Hs) Hm).
Qed.

Lemma behind_nil (m : entries_t) : cs ≠ [] → behind [] cs m → marked cs m.
Proof. intros Hne [<-|[H _]]; [done|exact H]. Qed.

(** Loading from the records or, without any, starting afresh. *)
Lemma recover_triple strict :
  cs ≠ [] ∨ strict = false →
  crash_triple (consistent cs) (λ m, consistent cs m)
    (recovered ← read (recover_blockchain_from_checkpoint_store rocks);
     match recovered with
     | Some blockchain => attempt (persist blockchain) ≫= λ _, mret blockchain
     | None => fresh_genesis_if_allowed rocks init_genesis fail_fast strict
     end)
    (λ ch m, consistent cs m ∧ represents ch m).
Proof.
  intros Hne. eapply (triple_bind _ _ _ _ (λ o m, consistent cs m
    ∧ match o with Some ch => represents ch m | None => behind [] cs m end)).
  { apply triple_read. intros m (kept & old & H).
    destruct (behind_replay kept m (holds_kept _ _ _ _ H)) as (Hs & bck & E).
    destruct (recover_stored sha3_256 to_uppercase to_lowercase rocks kept bck m E Hs (holds_stored _ _ _ _ H))
      as [(ch & Hr & Hi & Ht)|[Hr Ek]]; rewrite Hr; eexists; (split; [done|]); (split; [by exists kept, old|]).
    - exists kept, bck. split; [apply H|done].
    - rewrite <- Ek. apply (holds_kept _ _ _ _ H). }
  intros [ch|].
  - intros d [Hc (part & bck & Hb & E & Hi & Ht)].
    destruct (behind_replay part (contents d) Hb) as [Hs _].
    pose proof (in_step_chain part bck ch E Hs Hi Ht) as Hch.
    enough (T : crash_triple (consistent cs) (λ m, consistent cs m ∧ behind part cs m)
      (attempt (persist ch) ≫= λ _, mret ch) (λ ch m, consistent cs m ∧ represents ch m)) by by apply (T d).
    eapply (triple_bind _ _ _ _ (λ _ m, ∃ kept, holds kept part cs m)).
    + apply triple_attempt, (persist_triple part ch Hch).
    + intros []. apply triple_ret. intros m [kept H]. split; [by exists kept, part|].
      exists part, bck. split; [apply (holds_old _ _ _ _ H)|done].
  - intros d [Hc Hb]. destruct (fresh_allowed strict (contents d)) with (d := d) as (d' & ch & ms & E & [-> Hm] & H).
    + destruct Hne as [Hne| ->]; [right; by apply behind_nil|by left].
    + done.
    + exists d', blockchain_new, ms. split; [done|]. split; [|done]. rewrite Hm. split; [done|].
      exists [], blockchain_new. split; [done|]. split; [done|]. split; [apply in_step_new|done].
Qed.

Lemma load_triple strict :
  cs ≠ [] ∨ strict = false →
  crash_triple (consistent cs) (λ m, consistent cs m) (load strict)
    (λ ch m, consistent cs m ∧ represents ch m).
Proof.
  intros Hne d (kept & old & H). unfold load_blockchain.
  destruct (holds_json _ _ _ _ H) as [Hj|(bck & total & E & Ht & Hj)].
  - unfold load_ok. rewrite (store_load_none blob_codec _ _ Hj). cbn [mbind option_bind].
    rewrite (store_load_none chain_codec _ _ (holds_chain _ _ _ _ H)). cbn [is_ok].
    apply (recover_triple strict Hne d). by exists kept, old.
  - rewrite (snapshot_decoded bck total _ Hj Ht).
    + destruct (snapshot_restored kept old d bck total H E Ht) as (ch & Er & Hr).
      exists d, ch, []. split; [exact Er|]. split; [|by split]. split; [by exists kept, old|done].
    + rewrite (proj1 (replay_dag _ _ E)). constructor; [done|].
      destruct (behind_replay old (contents d)) as (Hs & _); [apply H|].
      apply Forall_forall. intros c Hc%window_sublist. by apply (proj1 (Forall_forall _ _) Hs).
Qed.

(** *** The marker *)

Lemma in_step_latest ch bck c :
  in_step ch bck → latest_checkpoint bck = Some c → latest_checkpoint ch = Some (forget c).
Proof.
  intros Hi Hc. unfold latest_checkpoint in *. rewrite (step_dag _ _ Hi).
  change (last (map forget (dag_checkpoints bck))) with (last (forget <$> dag_checkpoints bck)).
  by rewrite fmap_last, Hc.
Qed.

(** The marked checkpoint brings the chain up to date. *)
Lemma resumed (ch : Blockchain) (c : Checkpoint) (m : entries_t) :
  represents ch m → last cs = Some c →
  ∃ ch', resume_checkpoint (forget c) ch = Ok ch' ∧ in_step ch' bc ∧ is_u64 (total_transaction_count ch').
Proof.
  intros (part & bck & Hb & E & Hi & Ht) Hl. destruct (behind_replay part m Hb) as (Hs & _).
  pose proof (replay_latest _ _ E) as Hlat.
  pose proof (in_step_latest _ _ _ Hi Hlat) as Hlat'. unfold resume_checkpoint. rewrite Hlat'. cbn [require result_bind].
  change (sequence (forget c)) with (sequence c).
  change (sequence (forget (default genesis (last part)))) with (sequence (default genesis (last part))).
  assert (Hseq : sequence c = Z.of_nat (length cs)).
  { pose proof (last_sequence cs (proj2 (proj2 (replay_dag _ _ history_valid)))) as Hls. by rewrite Hl in Hls. }
  rewrite Hseq, (last_sequence part) by apply (replay_dag _ _ E).
  assert (Hc : storable_checkpoint c).
  { apply (proj1 (Forall_forall _ _) history_storable). by apply last_Some_elem_of. }
  destruct Hb as [->|(_ & x & Ex)].
  - rewrite Z.compare_refl, Hl. change (default genesis (Some c)) with c.
    destruct (sc_hash _ _ _ _ Hc) as [h Eh]. rewrite checkpoint_hash_forget, Eh by apply Hc.
    cbn [result_bind]. rewrite bool_decide_true by done. cbn [ensure result_bind]. exists ch.
    split; [done|]. rewrite history_valid in E. by injection E as <-.
  - assert (x = c) as ->.
    { rewrite Ex, last_snoc in Hl. by injection Hl. }
    rewrite (proj2 (Z.compare_gt_iff _ _)); [|rewrite Ex, length_app; cbn [length]; lia].
    pose proof history_valid as Hv. rewrite Ex, (replay_snoc _ _ _ _ E) in Hv.
    destruct (add_checkpoint_with_validation c true bck) as [bc1 [[]|]] eqn:Ea; [|done]. injection Hv as ->.
    destruct (in_step_add ch bck c bc Hi) as [Ea' Hi']; [apply Hc|by eapply replay_caches; [|eapply storable_caches]|done|].
    rewrite Ea'. eexists. split; [done|]. split; [done|]. by apply append_counted.
Qed.

(** Once records and snapshot are complete the marker may go. *)
Lemma marker_erased (kept : list Checkpoint) (m : entries_t) :
  holds kept cs cs m → holds cs cs cs (delete pending_checkpoint_commit_key m).
Proof.
  intros H. destruct (holds_old _ _ _ _ H) as [_ Hl].
  pose proof (behind_full kept m (holds_kept _ _ _ _ H) Hl) as ->.
  destruct H as [H1 H2 H3 H4 _ H6 H7].
  destruct (part_facts cs m H2) as [_ Hr].
  assert (Hseq : ∀ k n, checkpoint_sequence_of k = Some n → delete pending_checkpoint_commit_key m !! k = m !! k).
  { intros k n Hk. apply lookup_delete_ne. intros <-. apply (sequence_not_foreign _ _) in Hk as [_ Hk].
    apply Hk. by repeat constructor. }
  split.
  - eapply (stored_frame cs m); [done|done|apply lookup_delete_ne; keys_differ..|done].
  - by left.
  - rewrite lookup_delete_ne; [done|keys_differ].
  - rewrite lookup_delete_ne; [done|keys_differ].
  - split; [by left|done].
  - left. apply lookup_delete_eq.
  - rewrite lookup_delete_ne; [done|keys_differ].
Qed.

(** Starting on a consistent store succeeds, also if it is interrupted and
    repeated, and gives the chain of the history; the marker is gone afterwards. *)
Lemma init_triple strict :
  cs ≠ [] ∨ strict = false →
  crash_triple (consistent cs) (λ m, consistent cs m) (init strict)
    (λ ch m, consistent cs m ∧ m !! pending_checkpoint_commit_key = None
       ∧ in_step ch bc ∧ is_u64 (total_transaction_count ch)).
Proof.
  intros Hne. unfold init_chain. eapply triple_bind; [by apply load_triple|]. intros ch.
  eapply (triple_bind _ _ _ _ (λ o m, consistent cs m ∧ represents ch m
    ∧ match o with
      | Some c' => ∃ c, last cs = Some c ∧ c' = forget c
      | None => m !! pending_checkpoint_commit_key = None
      end)).
  { apply triple_read. intros m [(kept & old & H) Hr].
    destruct (holds_marker _ _ _ _ H) as [Hm|(c & Hl & Hm)].
    - rewrite store_load_none by done. exists None. split; [done|]. split; [by exists kept, old|done].
    - assert (Hc : storable_checkpoint c).
      { apply (proj1 (Forall_forall _ _) history_storable). by apply last_Some_elem_of. }
      rewrite (store_load_enc _ _ _ m (sc_full _ _ _ _ Hc) Hm). exists (Some (forget c)). split; [done|].
      split; [by exists kept, old|]. split; [done|]. by exists c. }
  intros [c'|].
  - eapply (triple_bind _ _ _ _ (λ ch' m, consistent cs m ∧ in_step ch' bc ∧ is_u64 (total_transaction_count ch'))).
    { apply triple_lift. intros m (Hc & Hr & c & Hl & ->).
      destruct (resumed ch c m Hr Hl) as (ch' & E & Hi & Ht). exists ch'. done. }
    intros ch' d (Hc & Hi & Ht).
    pose proof (in_step_chain cs bc ch' history_valid history_storable Hi Ht) as Hch.
    enough (T : crash_triple (consistent cs) (λ m, consistent cs m ∧ behind cs cs m)
      (persist ch' ≫= λ _, erase pending_checkpoint_commit_key ≫= λ _, mret ch')
      (λ ch m, consistent cs m ∧ m !! pending_checkpoint_commit_key = None
         ∧ in_step ch bc ∧ is_u64 (total_transaction_count ch))) by (apply (T d); split; [done|by left]).
    eapply triple_bind; [by apply persist_triple|]. intros [].
    eapply (triple_bind _ _ _ _ (λ _ m, consistent cs m ∧ m !! pending_checkpoint_commit_key = None)).
    { apply triple_write. intros m [kept H]. split; [by exists kept, cs|]. split; [|apply lookup_delete_eq].
      exists cs, cs. by apply (marker_erased kept). }
    intros []. apply triple_ret. by intros m [H1 H2].
  - apply triple_ret. intros m (Hc & (part & bck & Hb & E & Hi & Ht) & Hm). split; [done|]. split; [done|].
    destruct Hb as [->|[(c & _ & Hm') _]]; [|congruence]. rewrite history_valid in E. by injection E as <-.
Qed.

(** a start gives the history back.  From a store that represents a history
    of validated checkpoints, clean or left behind by a crash in the middle of a
    commit or of an earlier start, in every configuration without pruning, the
    engine starts; its chain has exactly the checkpoints of the history that a
    running node retains (up to caches) and no executed hash the running node
    does not have; the marker is gone; and every store that a crash of this start
    could leave behind represents the same history again. *)
Theorem restart_restores_history (strict : bool) (m : entries_t) (before : list entries_t) :
  consistent cs m → cs ≠ [] ∨ strict = false →
  ∃ d ch ms, init strict {| contents := m; earlier := before |} = (d, Ok ch)
    ∧ dag_checkpoints ch = map forget (dag_checkpoints bc)
    ∧ (∀ h, is_transaction_hash_executed ch h = true → is_transaction_hash_executed bc h = true)
    ∧ contents d !! pending_checkpoint_commit_key = None
    ∧ earlier d = ms ++ before ∧ Forall (consistent cs) (contents d :: ms).
Proof.
  intros Hc Hne. destruct (init_triple strict Hne {| contents := m; earlier := before |} Hc)
    as (d & ch & ms & E & (H1 & H2 & H3 & _) & H4 & H5).
  exists d, ch, ms. split; [done|]. split; [apply H3|]. split; [|split; [done|split; [done|by constructor]]].
  intros h Hh. apply bool_decide_eq_true in Hh. apply bool_decide_eq_true.
  destruct (decide (h ∈ executed_tx_hashes bc)) as [Hin|Hni]; [done|].
  by apply (executed_suffix ch bc) in Hni.
Qed.
End Restart.

(** ** The commit of a checkpoint *)

Section Commit.
Context {B3 : Blake3} {BC : Bcs} {BK : BcsCheckpoint} {HX : Hex} {SC : StateCodecs} {TT : TypeTags} {HC : HistoryCodecs}.
Local Abbreviation entries_t := (gmap bytes bytes).
Context (sha3_256 to_uppercase to_lowercase : bytes → bytes) (env : bytes → option bytes) (rocks : bool).
Local Abbreviation storable_checkpoint := (storable_checkpoint sha3_256 to_uppercase to_lowercase).
Context (cs : list Checkpoint) (c : Checkpoint) (bc : Blockchain) (m : entries_t).
Hypothesis history_valid : replay (cs ++ [c]) blockchain_new = Some bc.
Hypothesis history_storable : Forall storable_checkpoint (cs ++ [c]).
Hypothesis clean : consistent cs m.
Hypothesis unmarked : m !! pending_checkpoint_commit_key = None.
(** What else the batch of the commit writes: the state. *)
Context (ext : list (bytes * bytes)) (extd : list bytes).
Hypothesis state_keys_foreign : Forall foreign (map fst ext ++ extd).
Local Abbreviation marker := (pending_checkpoint_commit_key, enc checkpoint_codec (forget c)).

Lemma clean_holds : holds cs cs cs m.
Proof.
  destruct clean as (kept & old & H). pose proof (holds_kept _ _ _ _ H) as Hk.
  destruct (holds_old _ _ _ _ H) as [Ho _].
  assert (Hno : ¬ marked cs m) by (intros (x & _ & Hm); congruence).
  destruct Hk as [->|[? _]]; [|done]. destruct Ho as [->|[? _]]; [|done]. exact H.
Qed.

Lemma parts : distinct (cs ++ [c]) ∧ ranged (cs ++ [c]) ∧ c ∉ cs ∧ ranged cs
  ∧ sequence c = Z.of_nat (length (cs ++ [c])) ∧ storable_checkpoint c.
Proof.
  split; [by eapply replay_distinct|]. pose proof (replay_ranged _ _ _ _ _ history_valid history_storable) as Hr.
  split; [done|]. split; [|split; [|split]].
  - intros Hin. apply list_elem_of_lookup in Hin as [i Hi]. pose proof (lookup_lt_Some _ _ _ Hi).
    assert (H1 : (cs ++ [c]) !! i = Some c) by by rewrite lookup_app_l.
    assert (H2 : (cs ++ [c]) !! length cs = Some c) by (rewrite lookup_app_r, Nat.sub_diag; done).
    pose proof (replay_sequence _ _ _ _ history_valid H1). pose proof (replay_sequence _ _ _ _ history_valid H2). lia.
  - intros x Hx. apply Hr. apply elem_of_app. by left.
  - pose proof (last_sequence _ (proj2 (proj2 (replay_dag _ _ history_valid)))) as H. by rewrite last_snoc in H.
  - apply (proj1 (Forall_forall _ _) history_storable), elem_of_app. right. by apply list_elem_of_singleton.
Qed.

Lemma marked_new (m' : entries_t) :
  m' !! pending_checkpoint_commit_key = Some (enc checkpoint_codec (forget c)) → marked (cs ++ [c]) m'.
Proof. intros H. exists c. by rewrite last_snoc. Qed.

(** The old parts of the store, seen from the longer history. *)
Lemma behind_new (m' : entries_t) : marked (cs ++ [c]) m' → behind cs (cs ++ [c]) m'.
Proof. intros H. right. split; [done|]. by exists c. Qed.

(** Only the state and the marker: the records follow later. *)
Lemma commit_marker :
  consistent (cs ++ [c]) (apply_raw_changes ([marker] ++ ext) extd m).
Proof.
  pose proof clean_holds as [H1 H2 H3 H4 _ _ H7]. destruct parts as (Hd & Hr & Hni & Hr' & Hseq & Hs).
  apply Forall_app in state_keys_foreign as [Fe Fd]. rewrite Forall_forall in Fe, Fd.
  set (m' := apply_raw_changes ([marker] ++ ext) extd m).
  assert (Hm : m' !! pending_checkpoint_commit_key = Some (enc checkpoint_codec (forget c))).
  { apply (raw_written []).
    - intros Hin. apply (singleton_not_foreign pending_checkpoint_commit_key); [by repeat constructor|by apply Fe].
    - intros Hin. apply (singleton_not_foreign pending_checkpoint_commit_key); [by repeat constructor|by apply Fd]. }
  assert (Hsame : ∀ k, ¬ foreign k → k ≠ pending_checkpoint_commit_key → m' !! k = m !! k).
  { intros k Hf Hk. apply raw_unchanged.
    - cbn [app map fst]. rewrite not_elem_of_cons. split; [done|]. intros Hin. by apply Hf, Fe.
    - intros Hin. by apply Hf, Fd. }
  assert (Hsing : ∀ k, k ∈ singletons → k ≠ pending_checkpoint_commit_key → m' !! k = m !! k).
  { intros k Hk. apply Hsame. by apply singleton_not_foreign. }
  pose proof (marked_new m' Hm) as Hmk. pose proof (behind_new m' Hmk) as Hb.
  exists cs, cs. split.
  - eapply (stored_frame cs m); [done| |apply Hsing; [by repeat constructor|keys_differ]..|done].
    intros k n Hk. destruct (sequence_not_foreign _ _ Hk) as [Hf Hsi]. apply Hsame; [done|].
    intros ->. apply Hsi. by repeat constructor.
  - done.
  - rewrite Hsing; [done|by repeat constructor|keys_differ].
  - rewrite Hsing; [done|by repeat constructor|keys_differ].
  - done.
  - by right.
  - rewrite Hsing; [done|by repeat constructor|keys_differ].
Qed.

(** The records of the checkpoint in the same batch. *)
Lemma commit_inline :
  ∃ U D, checkpoint_persistence_raw_changes sha3_256 to_uppercase to_lowercase env rocks m c true = Ok (U, D)
    ∧ Forall (λ k, ¬ foreign k ∨ ∃ h, k = transaction_index_key h) (map fst U ++ D)
    ∧ holds (cs ++ [c]) cs (cs ++ [c]) (apply_raw_changes ((U ++ [marker]) ++ ext) (D ++ extd) m)
    ∧ apply_raw_changes ((U ++ [marker]) ++ ext) (D ++ extd) m !! blockchain_json_key = m !! blockchain_json_key.
Proof.
  pose proof clean_holds as [H1 H2 H3 H4 _ _ H7]. destruct parts as (Hd & Hr & Hni & Hr' & Hseq & Hs).
  destruct (raw_changes_written sha3_256 to_uppercase to_lowercase env rocks m c true Hs
    (stored_recent _ _ H1) (stored_watermark _ _ H1)) as (U & l & w & EU & HU).
  exists U, [checkpoint_metadata_json_key (sequence c)]. split; [done|]. split.
  { apply Forall_app. split.
    - apply Forall_forall. intros k Hk. apply list_elem_of_fmap in Hk as ([k' v] & -> & Hin). cbn [fst].
      apply (of_written _ _ _ _ _ HU) in Hin. destruct Hin as [|h v| | | |]; [left|right; by exists h|left..].
      + by eapply sequence_not_foreign, checkpoint_sequence_of_meta, Hs.
      + apply singleton_not_foreign. by repeat constructor.
      + apply singleton_not_foreign. by repeat constructor.
      + by eapply sequence_not_foreign, checkpoint_sequence_of_txs, Hs.
      + apply singleton_not_foreign. by repeat constructor.
    - apply Forall_singleton. left. by eapply sequence_not_foreign, checkpoint_sequence_of_json, Hs. }
  rewrite <- app_assoc. cbn [app]. pose proof state_keys_foreign as [Fe Fd]%Forall_app. rewrite Forall_forall in Fe, Fd.
  set (m' := apply_raw_changes (U ++ marker :: ext) (checkpoint_metadata_json_key (sequence c) :: extd) m).
  assert (Hw : wrote c true m m').
  { apply (checkpoint_wrote sha3_256 to_uppercase to_lowercase env m c true l w U (marker :: ext) extd Hs
      (stored_recent _ _ H1) (stored_watermark _ _ H1) HU).
    cbn [map fst app]. constructor; [by right|]. eapply Forall_impl; [exact state_keys_foreign|]. intros k Hk. by left. }
  assert (Hm : m' !! pending_checkpoint_commit_key = Some (enc checkpoint_codec (forget c))).
  { apply raw_written.
    - intros Hin. apply (singleton_not_foreign pending_checkpoint_commit_key); [by repeat constructor|by apply Fe].
    - rewrite not_elem_of_cons. split; [keys_differ|]. intros Hin.
      apply (singleton_not_foreign pending_checkpoint_commit_key); [by repeat constructor|by apply Fd]. }
  pose proof (marked_new m' Hm) as Hmk. split; [|exact (proj1 (wrote_chain _ _ _ _ Hw))]. split.
  - by apply (stored_extend cs c true m).
  - by left.
  - right. exists (sequence c). rewrite (wrote_through _ _ _ _ Hw). split; [done|]. split; [apply Hs|lia].
  - rewrite (proj1 (wrote_chain _ _ _ _ Hw)). exact H4.
  - split; [by apply behind_new|]. rewrite length_app. lia.
  - by right.
  - by rewrite (proj2 (wrote_chain _ _ _ _ Hw)).
Qed.
End Commit.

(** ** Runs *)

Module Runs.
Import ToyCodecs ToyHistory RealHex RunBcs.

#[export] Instance run_bcs_checkpoint : BcsCheckpoint := λ img, Ok (
  match img with
  | ImageV0 n hs root prev => n :: concat hs ++ root ++ prev
  | ImageV1 v n vs hs _ _ _ root t prev => v :: n :: concat vs ++ concat hs ++ root ++ t :: prev
  | ImageV2 v n vs hs _ root t prev => v :: n :: concat vs ++ concat hs ++ root ++ t :: prev
  end).
#[export] Instance no_tags : TypeTags := {| struct_from_str _ := None; type_from_str _ := None |}.

Definition same (b : bytes) : bytes := b.
Definition no_env (_ : bytes) : option bytes := None.
Definition hash_or_nil (c : Checkpoint) : bytes := match checkpoint_hash c with Ok h => h | Err _ => [] end.

Definition first : Checkpoint := checkpoint_new 1 [] [tx 1; tx 2] (replicate 32 7%Z) 5 (hash_or_nil genesis).
Definition chain1 : Blockchain := append_checkpoint blockchain_new first.

Lemma first_valid : replay [first] blockchain_new = Some chain1.
Proof.
  assert (E : validate_checkpoint blockchain_new first = Ok tt) by (vm_compute; reflexivity).
  cbn [replay]. rewrite (add_ok _ _ E). reflexivity.
Qed.

Lemma first_storable : storable_checkpoint same same same first.
Proof.
  split.
  - repeat constructor; intros h [=].
  - vm_compute. by split.
  - eexists. reflexivity.
  - vm_compute. reflexivity.
  - vm_compute. reflexivity.
  - vm_compute. reflexivity.
  - repeat constructor; by vm_compute.
Qed.

Lemma genesis_storable : storable_checkpoint same same same genesis.
Proof.
  split.
  - constructor.
  - vm_compute. by split.
  - eexists. reflexivity.
  - vm_compute. reflexivity.
  - vm_compute. reflexivity.
  - vm_compute. reflexivity.
  - constructor.
Qed.

(** A crash after the commit of the state, before any record of the checkpoint. *)
Definition interrupted : gmap bytes bytes :=
  {[pending_checkpoint_commit_key := enc checkpoint_codec (forget first)]}.

Lemma interrupted_only k : k ≠ pending_checkpoint_commit_key → interrupted !! k = None.
Proof. intros H. by apply lookup_singleton_ne. Qed.

Lemma interrupted_consistent : consistent [first] interrupted.
Proof.
  assert (Hm : marked [first] interrupted) by (exists first; split; [done|apply lookup_singleton_eq]).
  exists [], []. split.
  - split; try (by intros c ?%elem_of_nil).
    + intros k n Hk Hn. destruct (decide (k = pending_checkpoint_commit_key)) as [->|Hne].
      * vm_compute in Hn. discriminate Hn.
      * rewrite interrupted_only in Hk by done. by destruct Hk.
    + exists []. split; [|constructor]. unfold load_recent_transaction_hashes_for_update.
      rewrite store_load_none by (apply interrupted_only; keys_differ). reflexivity.
    + exists ∅. split; [|apply map_Forall_empty]. unfold load_sender_nonce_watermark.
      rewrite store_load_none by (apply interrupted_only; keys_differ). reflexivity.
  - right. split; [done|]. by exists first.
  - left. apply interrupted_only. keys_differ.
  - left. apply interrupted_only. keys_differ.
  - split; [|done]. right. split; [done|]. by exists first.
  - by right.
  - apply interrupted_only. keys_differ.
Qed.

Lemma restart_restores_history_witness :
  ∃ d ch ms, init_chain same same same no_env true (mret tt) true true
      {| contents := interrupted; earlier := [] |} = (d, Ok ch)
    ∧ dag_checkpoints ch = map forget (dag_checkpoints chain1)
    ∧ (∀ h, is_transaction_hash_executed ch h = true → is_transaction_hash_executed chain1 h = true)
    ∧ contents d !! pending_checkpoint_commit_key = None
    ∧ earlier d = ms ++ [] ∧ Forall (consistent [first]) (contents d :: ms).
Proof.
  apply (restart_restores_history same same same no_env true [first] chain1 eq_refl first_valid
    (Forall_cons_2 _ _ _ first_storable (Forall_nil_2 _)) genesis_storable (mret tt) true true
    interrupted [] interrupted_consistent).
  left. discriminate.
Defined.
End Runs.

(** ** Limits of the durable history

    Two behaviours that the comments of the sources do not expect: pruning old
    payloads makes the chain unrecoverable, and a restart forgets which
    transactions of evicted checkpoints were executed. *)

Module Pruning.
Import ToyCodecs ToyHistory RealHex RunBcs HistoryTheorems.Runs.

(** RocksDB with a retention of one checkpoint. *)
Definition retain_one (name : bytes) : option bytes :=
  if bool_decide (name = str "KANARI_HISTORY_RETENTION_CHECKPOINTS") then Some (str "1") else None.

Definition second : Checkpoint := checkpoint_new 2 [] [tx 3] (replicate 32 8%Z) 6 (hash_or_nil first).
Definition third : Checkpoint := checkpoint_new 3 [] [tx 4] (replicate 32 9%Z) 7 (hash_or_nil second).
Definition chain3 : Blockchain := append_checkpoint (append_checkpoint chain1 second) third.

(** The store after the third checkpoint. *)
Definition pruned : gmap bytes bytes :=
  contents (persist_blockchain_snapshot_to_store same same same retain_one true chain3
    {| contents := ∅; earlier := [] |}).1.

(** With a retention the payloads of old checkpoints are deleted, while the hash
    of a checkpoint covers its transactions: the recovery computes another hash
    for a pruned checkpoint, rejects its successor and gives up.  The node then
    starts with the genesis chain, or, in strict mode, not at all. *)
Theorem pruned_history_lost :
  replay [first; second; third] blockchain_new = Some chain3
  ∧ recover_blockchain_from_checkpoint_store true pruned = Ok None
  ∧ (init_chain same same same retain_one true (mret tt) true false
       {| contents := pruned; earlier := [] |}).2 = Ok blockchain_new.
Proof.
  split; [|split].
  - assert (E2 : validate_checkpoint chain1 second = Ok tt) by (vm_compute; reflexivity).
    assert (E3 : validate_checkpoint (append_checkpoint chain1 second) third = Ok tt) by (vm_compute; reflexivity).
    exact (replay_snoc_ok _ _ _ _ (replay_snoc_ok _ _ _ _ first_valid E2) E3).
  - vm_compute. reflexivity.
  - vm_compute. reflexivity.
Qed.
End Pruning.

Module Forgetting.
Import ToyCodecs ToyHistory RealHex RunBcs HistoryTheorems.Runs.

(** A checkpoint without transactions on top of a chain. *)
Definition idle (bc : Blockchain) : Checkpoint :=
  match latest_checkpoint bc with
  | Some c => checkpoint_new (sequence c + 1) [] [] [] 0 (hash_or_nil c)
  | None => genesis
  end.

Lemma idle_valid bc c : latest_checkpoint bc = Some c → validate_checkpoint bc (idle bc) = Ok tt.
Proof.
  intros H. apply validate_checkpoint_ok. exists c. unfold idle. rewrite H. cbn [checkpoint_new sequence prev_checkpoint_hash].
  split; [done|]. split; [done|]. split; [reflexivity|]. split; [constructor|]. intros h Hh. by apply elem_of_nil in Hh.
Qed.

(** Any number of them. *)
Lemma idle_history n cs bc :
  replay cs blockchain_new = Some bc →
  ∃ cs' bc', replay (cs ++ cs') blockchain_new = Some bc' ∧ length cs' = n
    ∧ Forall (λ c, transactions c = []) cs'.
Proof.
  intros E. induction n as [|n (cs' & bc' & E' & Hl & Hf)].
  { exists [], bc. rewrite app_nil_r. done. }
  exists (cs' ++ [idle bc']), (append_checkpoint bc' (idle bc')).
  rewrite app_assoc, (replay_snoc _ _ _ _ E'), (add_ok _ _ (idle_valid _ _ (replay_latest _ _ E'))).
  split; [done|]. rewrite length_app. cbn [length]. split; [lia|].
  apply Forall_app. split; [done|]. apply Forall_singleton. unfold idle.
  by rewrite (replay_latest _ _ E').
Qed.

Lemma idle_hashes cs' : Forall (λ c, transactions c = []) cs' → concat (map tx_hashes cs') = [].
Proof. induction 1 as [|c cs' Hc _ IH]; [done|]. cbn [map concat]. rewrite IH, app_nil_r. unfold tx_hashes. by rewrite Hc. Qed.

(** The index of executed transactions is rebuilt from the retained checkpoints
    only.  After the first checkpoint has left the window, the running node still
    rejects its transactions as executed, and the same node after a restart does
    not know them any more. *)
Theorem restart_forgets_executed :
  ∃ cs bc h, replay cs blockchain_new = Some bc ∧ is_transaction_hash_executed bc h = true
    ∧ ∀ bc', dag_checkpoints bc' = map forget (dag_checkpoints bc) →
        is_transaction_hash_executed (rebuild_tx_hash_index bc') h = false.
Proof.
  destruct (idle_history 999 [first] chain1 first_valid) as (cs' & bc & E & Hl & Hf).
  exists ([first] ++ cs'), bc, (hash_of (tx 1)). split; [done|]. split.
  - apply bool_decide_eq_true.
    destruct (inv_index _ (proj1 (proj2 (replay_dag _ _ E)))) as [[_ Hex] _]. rewrite Hex, elem_of_list_to_set.
    rewrite (replay_queue _ _ E).
    change (map tx_hashes ([first] ++ cs')) with (tx_hashes first :: map tx_hashes cs'). cbn [concat].
    rewrite (idle_hashes cs' Hf), app_nil_r.
    vm_compute. by left.
  - intros bc' Hd. apply bool_decide_eq_false. intros Hin.
    apply rebuilt_executed in Hin as (c & Hc & Hh). rewrite Hd in Hc.
    apply list_elem_of_fmap in Hc as (c0 & -> & Hc). rewrite (proj1 (replay_dag _ _ E)) in Hc.
    assert (Hempty : transactions c0 = []).
    { apply elem_of_cons in Hc as [->|Hc]; [done|].
      assert (Hw : window ([first] ++ cs') = cs').
      { unfold window. rewrite length_app, Hl. reflexivity. }
      rewrite Hw in Hc. by apply (proj1 (Forall_forall _ _) Hf). }
    unfold tx_hashes in Hh. cbn in Hh. rewrite Hempty in Hh. by apply elem_of_nil in Hh.
Qed.
End Forgetting.
