(* ===== verification/TypeArgs.v ===== *)
(** * Type arguments: [parse_type_tag] of [kanari-core/src/engine.rs]

    The recursive parser of the type-argument strings of a transaction, the
    printer of the same tags ([Display] in [move-core-types/language_storage.rs])
    and Move identifiers ([identifier.rs]).  Theorem: a printed tag of the
    supported types parses back, so the fuel, the length of the string, is
    enough for every printed tag. *)

From stdpp Require Import base list gmap strings.
From Stdlib Require Import ZArith Lia.
From S2P Require Import Prelude Hashing Text Address Mempool.

(** ** Identifiers *)

Definition is_ascii_alpha (b : Z) : bool :=
  ((97 <=? b)%Z && (b <=? 122)%Z) || ((65 <=? b)%Z && (b <=? 90)%Z).
Definition is_valid_identifier_char (c : Z) : bool :=
  (c =? 95)%Z || is_ascii_alpha c || is_ascii_digit c.
Definition all_bytes_valid (b : bytes) (start_offset : nat) : bool :=
  forallb is_valid_identifier_char (drop start_offset b).
Definition identifier_is_valid (s : bytes) : bool :=
  if bool_decide (s = str "<SELF>") then true else
  match s with
  | c :: _ =>
      if is_ascii_alpha c then all_bytes_valid s 1
      else if (c =? 95)%Z && (1 <? length s) then all_bytes_valid s 1
      else false
  | [] => false
  end.
Definition identifier_new (s : bytes) : option bytes := if identifier_is_valid s then Some s else None.

(** ** Tags and their parser *)

Inductive TypeArg :=
| TBool | TU8 | TU64 | TU128 | TAddress | TSigner
| TVector (t : TypeArg)
| TNamed (address module name : bytes) (type_params : list TypeArg)
| TU16 | TU32 | TU256.

(** [split_top_level_commas]: the part read so far and the nesting depth; the
    three delimiters are ASCII, so characters are bytes. *)
Fixpoint split_top_level_commas (depth : nat) (part s : bytes) : list bytes :=
  match s with
  | [] => [trim part]
  | ch :: s =>
      if (ch =? 60)%Z then split_top_level_commas (S depth) (part ++ [ch]) s
      else if (ch =? 62)%Z then split_top_level_commas (depth - 1) (part ++ [ch]) s
      else if (ch =? 44)%Z && (depth =? 0) then trim part :: split_top_level_commas 0 [] s
      else split_top_level_commas depth (part ++ [ch]) s
  end.

(** [join] with two colons *)
Fixpoint join_colons (parts : list bytes) : bytes :=
  match parts with
  | [] => []
  | [p] => p
  | p :: parts => p ++ str "::" ++ join_colons parts
  end.

(** [strip_prefix("vector<")] and [strip_suffix('>')] *)
Definition strip_vector (s : bytes) : option bytes :=
  if starts_with (str "vector<") s then
    let inner := drop 7 s in
    if ends_with (str ">") inner then Some (take (length inner - 1) inner) else None
  else None.

(** The name and the generics of the last component; [None]: the early return. *)
Definition split_generics (s : bytes) : option (bytes * option bytes) :=
  match split_once 60 s with
  | Some (name, rest) =>
      if ends_with (str ">") s then Some (trim name, Some (take (length rest - 1) rest)) else None
  | None => Some (s, None)
  end.

Definition primitive_type (s : bytes) : option TypeArg :=
  if bool_decide (s = str "bool") then Some TBool
  else if bool_decide (s = str "u8") then Some TU8
  else if bool_decide (s = str "u64") then Some TU64
  else if bool_decide (s = str "u128") then Some TU128
  else if bool_decide (s = str "address") then Some TAddress
  else None.

Section Parse.
Context {HX : Hex} (sha3_256 to_uppercase : bytes → bytes).
Local Abbreviation parse_address := (KanariAddress.parse_to_account_address sha3_256 to_uppercase).

(** Every recursive call is on a shorter string: the length is enough fuel. *)
Fixpoint parse_type_tag_fuel (fuel : nat) (s : bytes) : option TypeArg :=
  let s := trim s in
  match primitive_type s with
  | Some t => Some t
  | None =>
      match fuel with
      | O => None
      | S fuel =>
          match strip_vector s with
          | Some inner => TVector <$> parse_type_tag_fuel fuel inner
          | None =>
              match split_colons s with
              | addr_str :: module_str :: ((_ :: _) as rest) =>
                  '(name_str, generics_opt) ← split_generics (trim (join_colons rest));
                  addr ← match parse_address (trim addr_str) with
                         | KanariAddress.Parsed a => Some a
                         | KanariAddress.Failed _ => None
                         end;
                  module_id ← identifier_new (trim module_str);
                  name_id ← identifier_new name_str;
                  type_params ← match generics_opt with
                                | Some generics =>
                                    mapM (parse_type_tag_fuel fuel)
                                      (filter (λ g, g ≠ []) (split_top_level_commas 0 [] generics))
                                | None => Some []
                                end;
                  Some (TNamed addr module_id name_id type_params)
              | _ => None
              end
          end
      end
  end.
Definition parse_type_tag (s : bytes) : option TypeArg := parse_type_tag_fuel (length s) s.

(** ** The printer *)

Fixpoint join_params (l : list bytes) : bytes :=
  match l with
  | [] => []
  | [p] => p
  | p :: l => p ++ str ", " ++ join_params l
  end.

Fixpoint show_tag (t : TypeArg) : bytes :=
  match t with
  | TBool => str "bool" | TU8 => str "u8" | TU16 => str "u16" | TU32 => str "u32"
  | TU64 => str "u64" | TU128 => str "u128" | TU256 => str "u256"
  | TAddress => str "address" | TSigner => str "signer"
  | TVector t => str "vector<" ++ show_tag t ++ str ">"
  | TNamed address module name type_params =>
      str "0x" ++ MoveAddress.short_str_lossless address ++ str "::" ++ module ++ str "::" ++ name
      ++ match type_params with
         | [] => []
         | _ => str "<" ++ join_params (map show_tag type_params) ++ str ">"
         end
  end.
End Parse.

(** ** A printed tag parses back *)

(** The tags the parser knows: the address is one the node accepts (not zero),
    the identifiers are not the reserved [<SELF>]. *)
Definition plain_identifier (s : bytes) : Prop := identifier_is_valid s = true ∧ s ≠ str "<SELF>".
Inductive supported : TypeArg → Prop :=
| supported_bool : supported TBool
| supported_u8 : supported TU8
| supported_u64 : supported TU64
| supported_u128 : supported TU128
| supported_address : supported TAddress
| supported_vector t : supported t → supported (TVector t)
| supported_named a m n ps :
    hash_ok a → KanariAddress.validate_non_zero a = KanariAddress.Parsed tt →
    plain_identifier m → plain_identifier n → Forall supported ps → supported (TNamed a m n ps).

(** *** Trimming does nothing to a text that starts and ends with a visible character *)

Definition visible (b : Z) : Prop := (32 < b < 128)%Z.
Definition compact (s : bytes) : Prop :=
  (∃ b r, s = b :: r ∧ visible b) ∧ ∃ b r, s = r ++ [b] ∧ visible b.

Lemma find_none_all {A} (f : A → bool) (l : list A) : Forall (λ x, f x = false) l → find f l = None.
Proof. induction 1 as [|x l Hx _ IH]; [done|]. cbn [find]. by rewrite Hx. Qed.

Lemma whitespace_ends :
  Forall (λ w, ∃ b r b' r', w = b :: r ∧ w = r' ++ [b'] ∧ ¬ visible b ∧ ¬ visible b') whitespace.
Proof.
  unfold whitespace, visible.
  repeat first [ apply Forall_cons; split | apply Forall_nil; done ];
  match goal with
  | |- ∃ b r b' r', [?x] = _ ∧ _ => exists x, [], x, []
  | |- ∃ b r b' r', [?x; ?y] = _ ∧ _ => exists x, [y], y, [x]
  | |- ∃ b r b' r', [?x; ?y; ?z] = _ ∧ _ => exists x, [y; z], z, [x; y]
  end; repeat split; lia.
Qed.

Lemma same_first_byte b r c s : starts_with (b :: r) (c :: s) = true → b = c.
Proof. unfold starts_with. intros H%bool_decide_eq_true. cbn in H. by injection H. Qed.

Lemma compact_untouched s : compact s → (∀ k, trim_start_fuel k s = s) ∧ ∀ k, trim_end_fuel k s = s.
Proof.
  intros [(b & r & E & Hb) (b' & r' & E' & Hb')].
  assert (H1 : find (λ w, starts_with w s) whitespace = None).
  { apply find_none_all. eapply Forall_impl; [apply whitespace_ends|].
    intros w (x & y & _ & _ & -> & _ & Hx & _). destruct (starts_with _ s) eqn:Es; [|done].
    rewrite E in Es. apply same_first_byte in Es. congruence. }
  assert (H2 : find (λ w, ends_with w s) whitespace = None).
  { apply find_none_all. eapply Forall_impl; [apply whitespace_ends|].
    intros w (_ & _ & x & y & _ & -> & _ & Hx). destruct (ends_with _ s) eqn:Es; [|done].
    unfold ends_with in Es. rewrite E' in Es. rewrite !rev_app_distr in Es.
    apply same_first_byte in Es. congruence. }
  split; intros [|k]; cbn [trim_start_fuel trim_end_fuel]; by rewrite ?H1, ?H2.
Qed.

Lemma trim_compact s : compact s → trim s = s.
Proof. intros [Hs He]%compact_untouched. unfold trim. by rewrite Hs, He. Qed.

Lemma trim_space s : compact s → trim (32%Z :: s) = s.
Proof.
  intros [Hs He]%compact_untouched. unfold trim. cbn [length trim_start_fuel].
  replace (find (λ w, starts_with w (32%Z :: s)) whitespace) with (Some [32%Z]) by reflexivity.
  change (drop (length [32%Z]) (32%Z :: s)) with s. by rewrite Hs, He.
Qed.

(** *** Splitting *)

Lemma split_colons_cons b s : b ≠ 58%Z →
  split_colons (b :: s) = match split_colons s with x :: xs => (b :: x) :: xs | [] => [[b]] end.
Proof.
  intros Hb. cbn [split_colons]. destruct b as [|p|p]; try done.
  do 6 (destruct p as [p|p|]; try done).
Qed.

Lemma split_colons_app a s : 58%Z ∉ a → split_colons (a ++ str "::" ++ s) = a :: split_colons s.
Proof.
  induction a as [|b a IH]; intros Ha; [done|]. apply not_elem_of_cons in Ha as [Hb Ha].
  change ((b :: a) ++ ?r) with (b :: (a ++ r)). rewrite split_colons_cons by done. by rewrite IH.
Qed.

Lemma split_colons_nonempty s : split_colons s ≠ [].
Proof.
  destruct s as [|b s]; [done|]. destruct (decide (b = 58%Z)) as [->|Hb].
  - destruct s as [|c s]; [done|]. destruct (decide (c = 58%Z)) as [->|Hc]; [done|].
    replace (split_colons (58%Z :: c :: s)) with
      (match split_colons (c :: s) with x :: xs => (58%Z :: x) :: xs | [] => [[58%Z]] end).
    { by destruct (split_colons (c :: s)). }
    cbn [split_colons]. destruct c as [|p|p]; try done. do 6 (destruct p as [p|p|]; try done).
  - rewrite split_colons_cons by done. by destruct (split_colons s).
Qed.

Lemma join_colons_head b x (xs : list bytes) : join_colons ((b :: x) :: xs) = b :: join_colons (x :: xs).
Proof. by destruct xs. Qed.

Lemma join_split_colons s : join_colons (split_colons s) = s.
Proof.
  remember (length s) as n eqn:En. revert s En.
  induction (lt_wf n) as [n _ IH]. intros s ->.
  assert (Hgen : ∀ b s', s = b :: s' →
    split_colons s = (match split_colons s' with x :: xs => (b :: x) :: xs | [] => [[b]] end) →
    join_colons (split_colons s) = s).
  { intros b s' -> Es. pose proof (split_colons_nonempty s') as Hne.
    pose proof (IH (length s') ltac:(simpl; lia) s' eq_refl) as E. rewrite Es.
    destruct (split_colons s') as [|x xs]; [done|]. rewrite join_colons_head. by f_equal. }
  destruct s as [|b s]; [done|]. destruct (decide (b = 58%Z)) as [->|Hb].
  - destruct s as [|c s]; [done|]. destruct (decide (c = 58%Z)) as [->|Hc].
    + change (split_colons (58%Z :: 58%Z :: s)) with ([] :: split_colons s).
      pose proof (IH (length s) ltac:(simpl; lia) s eq_refl) as E.
      pose proof (split_colons_nonempty s) as Hne. destruct (split_colons s) as [|x xs] eqn:Es; [done|].
      change (join_colons ([] :: x :: xs)) with (str "::" ++ join_colons (x :: xs)). by rewrite E.
    + apply (Hgen _ _ eq_refl). cbn [split_colons]. destruct c as [|p|p]; try done.
      do 6 (destruct p as [p|p|]; try done).
  - apply (Hgen _ _ eq_refl). by apply split_colons_cons.
Qed.

(** *** The characters of a printed tag *)

Lemma identifier_char_range c : is_valid_identifier_char c = true →
  visible c ∧ c ≠ 58%Z ∧ c ≠ 60%Z ∧ c ≠ 62%Z ∧ c ≠ 44%Z.
Proof.
  unfold is_valid_identifier_char, is_ascii_alpha, is_ascii_digit, visible.
  rewrite !orb_true_iff, !andb_true_iff, !Z.leb_le, Z.eqb_eq. lia.
Qed.

Lemma plain_identifier_chars s : plain_identifier s →
  s ≠ [] ∧ Forall (λ c, is_valid_identifier_char c = true) s.
Proof.
  intros [Hv Hs]. unfold identifier_is_valid in Hv. rewrite bool_decide_false in Hv by done.
  destruct s as [|c s]; [done|]. split; [done|].
  assert (Hall : all_bytes_valid (c :: s) 1 = true → Forall (λ c, is_valid_identifier_char c = true) s).
  { unfold all_bytes_valid. cbn [drop]. rewrite forallb_forall. intros H. apply Forall_forall.
    intros x Hx. apply H. by apply list_elem_of_In. }
  unfold is_valid_identifier_char at 1.
  destruct (is_ascii_alpha c) eqn:Ea.
  - constructor; [by rewrite Ea, orb_true_r|by apply Hall].
  - destruct (c =? 95)%Z eqn:E95; cbn [andb] in Hv; [|done]. destruct (1 <? length (c :: s)); [|done].
    constructor; [by rewrite E95|by apply Hall].
Qed.

Lemma plain_identifier_new s : plain_identifier s → identifier_new s = Some s.
Proof. intros [Hv _]. unfold identifier_new. by rewrite Hv. Qed.

Lemma compact_chars s : s ≠ [] → Forall visible s → compact s.
Proof.
  intros Hne Hv. split.
  - destruct s as [|b s]; [done|]. exists b, s. by inversion Hv.
  - destruct (exists_last Hne) as (r & b & ->). exists b, r. split; [done|].
    apply Forall_app in Hv as [_ Hb]. by inversion Hb.
Qed.

Lemma identifier_visible s : plain_identifier s → s ≠ [] ∧ Forall visible s.
Proof.
  intros [Hne Hc]%plain_identifier_chars. split; [done|]. eapply Forall_impl; [done|].
  intros c Hc'. exact (proj1 (identifier_char_range c Hc')).
Qed.

Lemma compact_around a s b :
  (∃ c r, a = c :: r ∧ visible c) → (∃ c r, b = r ++ [c] ∧ visible c) → compact (a ++ s ++ b).
Proof.
  intros (c & r & -> & Hc) (c' & r' & -> & Hc'). split.
  - by exists c, (r ++ s ++ r' ++ [c']).
  - exists c', ((c :: r) ++ s ++ r'). by rewrite <- !(assoc_L (++)).
Qed.

Section Round.
Context {HX : Hex} (sha3_256 to_uppercase : bytes → bytes).

(** An address printed without its leading zeros is accepted by the parser of
    the node, and padded to the same bytes. *)
Lemma short_literal a : hash_ok a → KanariAddress.validate_non_zero a = KanariAddress.Parsed tt →
  KanariAddress.parse_to_account_address sha3_256 to_uppercase (str "0x" ++ MoveAddress.short_str_lossless a)
  = KanariAddress.Parsed a.
Proof.
  intros Ha Hz. pose proof (hex_encode_digits a (proj2 Ha)) as Hd.
  pose proof (hex_encode_length a) as Hlen. rewrite (proj1 Ha) in Hlen.
  set (h := hex_encode a) in *.
  destruct (trim_start_matches_app 48 h) as [n En].
  set (t := trim_start_matches 48 h) in *.
  assert (Hs : ∃ k, h = replicate k 48%Z ++ MoveAddress.short_str_lossless a
    ∧ MoveAddress.short_str_lossless a ≠ []).
  { unfold MoveAddress.short_str_lossless. fold h. fold t. destruct t as [|c r] eqn:Et.
    - exists 63. split; [|done]. rewrite app_nil_r in En. rewrite En in Hlen. rewrite length_replicate in Hlen.
      rewrite En. by subst n.
    - by exists n. }
  destruct Hs as (k & Ek & Hne). set (s := MoveAddress.short_str_lossless a) in *. clearbody s.
  assert (Hds : KanariAddress.hex_digits s) by (rewrite Ek in Hd; by apply Forall_app in Hd as [_ Hd]).
  assert (Hls : k + length s = 64) by (rewrite Ek in Hlen; rewrite length_app, length_replicate in Hlen; lia).
  assert (Hsplit : split_once 58 (str "0x" ++ s) = None).
  { apply split_once_none. rewrite not_elem_of_app. split; [|by apply KanariAddress.hex_digits_no_colon].
    vm_compute. intros Hin. by repeat (apply elem_of_cons in Hin as [Hin|Hin]; [done|]);
      apply not_elem_of_nil in Hin. }
  unfold KanariAddress.parse_to_account_address. rewrite starts_with_app. cbn [orb].
  unfold KanariAddress.from_hex_literal.
  change (str "0x" ++ s) with (48%Z :: 120%Z :: s) in *. cbn [length KanariAddress.from_hex_literal_fuel].
  rewrite Hsplit. change (48%Z :: 120%Z :: s) with (str "0x" ++ s).
  unfold KanariAddress.from_plain_literal. rewrite starts_with_app. cbn [negb].
  rewrite drop_app_length' by done. unfold KanariAddress.LENGTH.
  rewrite (proj2 (Nat.ltb_ge _ (length s))) by lia.
  rewrite KanariAddress.hex_digits_valid by (done || lia). cbn [KanariAddress.parse_bind].
  replace (if length s <? 32 * 2 then KanariAddress.pad_zeros (32 * 2) s else s) with h.
  { unfold h. rewrite KanariAddress.from_hex_encode by done. by rewrite Hz. }
  unfold KanariAddress.pad_zeros. destruct (Nat.ltb_spec (length s) (32 * 2)).
  - rewrite Ek. do 2 f_equal. lia.
  - assert (k = 0) by lia. by subst k.
Qed.

Definition named_head (a m : bytes) : bytes :=
  str "0x" ++ MoveAddress.short_str_lossless a ++ str "::" ++ m ++ str "::".
Definition named_tail (n : bytes) (ps : list TypeArg) : bytes :=
  n ++ match ps with
       | [] => []
       | _ => str "<" ++ join_params (map show_tag ps) ++ str ">"
       end.
Lemma show_named a m n ps : show_tag (TNamed a m n ps) = named_head a m ++ named_tail n ps.
Proof. unfold named_head, named_tail. cbn [show_tag]. by rewrite <- !(assoc_L (++)). Qed.

Lemma named_tail_last n ps : plain_identifier n → ∃ c r, named_tail n ps = r ++ [c] ∧ visible c.
Proof.
  intros [Hne Hv]%identifier_visible. unfold named_tail. destruct ps as [|p ps].
  - rewrite app_nil_r. by apply compact_chars.
  - exists 62%Z. rewrite !(assoc_L (++)). eexists. by split.
Qed.

Lemma compact_show t : supported t → compact (show_tag t).
Proof.
  intros Ht.
  assert (Hp : ∀ s, forallb (λ b, (32 <? b)%Z && (b <? 128)%Z) s = true → s ≠ [] → compact s).
  { intros s Hs Hne. apply compact_chars; [done|]. apply Forall_forall. intros x Hx.
    rewrite forallb_forall in Hs. specialize (Hs x). rewrite <- list_elem_of_In in Hs.
    specialize (Hs Hx). unfold visible. lia. }
  destruct Ht as [| | | | |t Ht|a m n ps Ha Hz Hm Hn Hps]; try (by apply Hp).
  - cbn [show_tag]. apply compact_around; [by exists 118%Z, (str "ector<")|by exists 62%Z, []].
  - rewrite show_named. change (named_head a m ++ ?x) with ([48%Z] ++ (120%Z :: tail (tail (named_head a m))) ++ x).
    apply compact_around; [by exists 48%Z, []|by apply named_tail_last].
Qed.

(** *** The commas between parameters *)

Lemma split_run depth part s r :
  Forall (λ c, c ≠ 60 ∧ c ≠ 62 ∧ c ≠ 44)%Z s →
  split_top_level_commas depth part (s ++ r) = split_top_level_commas depth (part ++ s) r.
Proof.
  intros Hs. revert part. induction Hs as [|c s (H1 & H2 & H3) _ IH]; intros part; [by rewrite app_nil_r|].
  cbn [app split_top_level_commas].
  rewrite (proj2 (Z.eqb_neq c 60)), (proj2 (Z.eqb_neq c 62)), (proj2 (Z.eqb_neq c 44)) by done.
  cbn [andb]. rewrite IH. by rewrite <- (assoc_L (++)).
Qed.

(** Below a bracket a comma is a character like the others. *)
Lemma split_comma_inside depth part r :
  split_top_level_commas (S depth) part (str ", " ++ r) = split_top_level_commas (S depth) (part ++ str ", ") r.
Proof. cbn. by rewrite <- (assoc_L (++)). Qed.
Lemma split_open depth part r :
  split_top_level_commas depth part (str "<" ++ r) = split_top_level_commas (S depth) (part ++ str "<") r.
Proof. done. Qed.
Lemma split_close depth part r :
  split_top_level_commas (S depth) part (str ">" ++ r) = split_top_level_commas depth (part ++ str ">") r.
Proof. cbn. by rewrite Nat.sub_0_r. Qed.

Lemma hex_char_free c : is_ascii_hexdigit c = true → (c ≠ 60 ∧ c ≠ 62 ∧ c ≠ 44)%Z.
Proof. intros H%KanariAddress.hexdigit_range. lia. Qed.

Lemma short_digits a : hash_ok a → KanariAddress.hex_digits (MoveAddress.short_str_lossless a).
Proof.
  intros [_ Hb]. pose proof (hex_encode_digits a Hb) as Hd. unfold MoveAddress.short_str_lossless.
  destruct (trim_start_matches_app 48 (hex_encode a)) as [n En]. rewrite En in Hd.
  apply Forall_app in Hd as [_ Hd]. destruct (trim_start_matches 48 (hex_encode a)); [|done].
  by repeat constructor.
Qed.

Lemma identifier_free s : plain_identifier s → Forall (λ c, c ≠ 60 ∧ c ≠ 62 ∧ c ≠ 44)%Z s.
Proof.
  intros [_ Hc]%plain_identifier_chars. eapply Forall_impl; [done|].
  intros c H%identifier_char_range. lia.
Qed.

Lemma named_head_free a m : hash_ok a → plain_identifier m →
  Forall (λ c, c ≠ 60 ∧ c ≠ 62 ∧ c ≠ 44)%Z (named_head a m).
Proof.
  intros Ha Hm. unfold named_head. repeat apply Forall_app_2; try (by repeat constructor).
  - eapply Forall_impl; [by apply short_digits|]. apply hex_char_free.
  - by apply identifier_free.
Qed.

(** Induction on supported tags, with the hypothesis for all parameters. *)
Lemma supported_induction (P : TypeArg → Prop) :
  P TBool → P TU8 → P TU64 → P TU128 → P TAddress →
  (∀ t, supported t → P t → P (TVector t)) →
  (∀ a m n ps, hash_ok a → KanariAddress.validate_non_zero a = KanariAddress.Parsed tt →
     plain_identifier m → plain_identifier n → Forall (λ t, supported t ∧ P t) ps → P (TNamed a m n ps)) →
  ∀ t, supported t → P t.
Proof.
  intros Hb H8 H64 H128 Ha Hv Hn. fix IH 2. intros t [].
  - exact Hb.
  - exact H8.
  - exact H64.
  - exact H128.
  - exact Ha.
  - apply Hv; [assumption|]. apply IH. assumption.
  - apply Hn; try assumption.
    match goal with H : Forall supported ?ps |- _ => rename H into Hps end.
    clear - Hps IH. revert Hps. generalize dependent ps.
    refine (fix go ps Hps := match Hps in Forall _ ps return Forall _ ps with
      | List.Forall_nil _ => Forall_nil_2 _
      | List.Forall_cons _ x l Hx Hl => Forall_cons_2 _ x l (conj Hx (IH x Hx)) (go l Hl) end).
Qed.

Lemma split_show t : supported t → ∀ depth part r,
  split_top_level_commas depth part (show_tag t ++ r) = split_top_level_commas depth (part ++ show_tag t) r.
Proof.
  intros Ht. induction Ht as [| | | | |t _ IH|a m n ps Ha Hz Hm Hn Hps] using supported_induction;
    intros depth part r; try (apply split_run; by repeat constructor).
  - cbn [show_tag]. change (str "vector<") with (str "vector" ++ str "<"). rewrite <- !(assoc_L (++)).
    rewrite split_run by (by repeat constructor). rewrite split_open, IH, split_close.
    by rewrite <- !(assoc_L (++)).
  - rewrite show_named. unfold named_tail. rewrite <- !(assoc_L (++)).
    rewrite split_run by (by apply named_head_free). rewrite split_run by (by apply identifier_free).
    destruct ps as [|p ps]; [cbn [app]; by rewrite app_nil_r, <- !(assoc_L (++))|].
    rewrite <- !(assoc_L (++)), split_open.
    assert (Hin : ∀ l q part r, Forall (λ t, supported t ∧ ∀ depth part r,
        split_top_level_commas depth part (show_tag t ++ r)
        = split_top_level_commas depth (part ++ show_tag t) r) (q :: l) →
      split_top_level_commas (S depth) part (join_params (map show_tag (q :: l)) ++ r)
      = split_top_level_commas (S depth) (part ++ join_params (map show_tag (q :: l))) r).
    { clear. induction l as [|q' l IHl]; intros q part r Hl; inversion Hl as [|? ? [_ Hq] Hl']; subst.
      - cbn [map join_params]. apply Hq.
      - change (join_params (map show_tag (q :: q' :: l)))
          with (show_tag q ++ str ", " ++ join_params (map show_tag (q' :: l))).
        rewrite <- !(assoc_L (++)), Hq, split_comma_inside, IHl by done. by rewrite <- !(assoc_L (++)). }
    rewrite Hin, split_close by done. by rewrite <- !(assoc_L (++)).
Qed.

(** The generics of a printed tag split into the printed parameters. *)
Lemma split_params ps : Forall supported ps → ps ≠ [] →
  split_top_level_commas 0 [] (join_params (map show_tag ps)) = map show_tag ps.
Proof.
  intros Hps Hne. destruct ps as [|p ps]; [done|]. clear Hne.
  assert (Htrim : ∀ t part, supported t → (part = [] ∨ part = [32%Z]) → trim (part ++ show_tag t) = show_tag t).
  { intros t part Ht%compact_show [-> | ->]; [by apply trim_compact|by apply trim_space]. }
  assert (Hgen : ∀ part, (part = [] ∨ part = [32%Z]) →
    split_top_level_commas 0 part (join_params (map show_tag (p :: ps))) = map show_tag (p :: ps)).
  { revert p Hps. induction ps as [|q ps IH]; intros p Hps part Hpart; inversion Hps as [|? ? Hp Hq]; subst.
    - cbn [map join_params]. rewrite <- (app_nil_r (show_tag p)) at 1. rewrite split_show by done.
      cbn [split_top_level_commas]. by rewrite Htrim.
    - change (join_params (map show_tag (p :: q :: ps)))
        with (show_tag p ++ str ", " ++ join_params (map show_tag (q :: ps))).
      rewrite split_show by done.
      change (split_top_level_commas 0 ?w (str ", " ++ ?r))
        with (trim w :: split_top_level_commas 0 [32%Z] r).
      rewrite Htrim, IH by (try done; by right). done. }
  apply Hgen. by left.
Qed.

(** *** The theorem *)

Lemma strip_vector_show t : strip_vector (show_tag (TVector t)) = Some (show_tag t).
Proof.
  unfold strip_vector. cbn [show_tag]. rewrite starts_with_app.
  change (drop 7 (str "vector<" ++ ?x)) with x.
  assert (E : ends_with (str ">") (show_tag t ++ str ">") = true).
  { unfold ends_with. rewrite rev_app_distr. apply starts_with_app. }
  rewrite E, length_app. cbn [length str]. f_equal.
  replace (length (show_tag t) + _ - 1) with (length (show_tag t)) by (cbn; lia). by rewrite take_app_length.
Qed.

Lemma split_once_app c a r : c ∉ a → split_once c (a ++ c :: r) = Some (a, r).
Proof.
  induction a as [|b a IH]; intros Ha; cbn [app split_once].
  - by rewrite Z.eqb_refl.
  - apply not_elem_of_cons in Ha as [Hb Ha]. rewrite (proj2 (Z.eqb_neq b c)) by congruence. by rewrite IH.
Qed.

Lemma free_not_in c s : Forall (λ x, x ≠ 60 ∧ x ≠ 62 ∧ x ≠ 44)%Z s → (c = 60 ∨ c = 62 ∨ c = 44)%Z → c ∉ s.
Proof. intros Hs Hc Hin. rewrite Forall_forall in Hs. specialize (Hs _ Hin). lia. Qed.

Lemma split_generics_tail n ps : plain_identifier n →
  split_generics (named_tail n ps) = Some (n, match ps with
    | [] => None | _ => Some (join_params (map show_tag ps)) end).
Proof.
  intros Hn. pose proof (identifier_free n Hn) as Hf. unfold split_generics, named_tail.
  destruct ps as [|p ps].
  - rewrite app_nil_r, split_once_none; [done|]. apply (free_not_in _ _ Hf). by left.
  - change (str "<" ++ ?x) with (60%Z :: x).
    rewrite split_once_app by (apply (free_not_in _ _ Hf); by left).
    assert (E : ∀ x y, ends_with (str ">") (x ++ 60%Z :: y ++ str ">") = true).
    { intros x y. unfold ends_with. change (60%Z :: y ++ str ">") with ((60%Z :: y) ++ str ">").
      rewrite (assoc_L (++)), rev_app_distr. apply starts_with_app. }
    rewrite E. rewrite trim_compact by (apply compact_chars; by apply identifier_visible). do 3 f_equal.
    rewrite length_app. replace (_ + _ - 1) with (length (join_params (map show_tag (p :: ps)))) by (cbn; lia).
    by rewrite take_app_length.
Qed.

Lemma compact_tail n ps : plain_identifier n → compact (named_tail n ps).
Proof.
  intros Hn. split; [|by apply named_tail_last]. apply identifier_visible in Hn as [Hne Hv].
  unfold named_tail. destruct n as [|c n]; [done|]. exists c. eexists. by inversion Hv.
Qed.

Lemma identifier_no_colon s : plain_identifier s → 58%Z ∉ s.
Proof.
  intros [_ Hc]%plain_identifier_chars Hin. rewrite Forall_forall in Hc.
  by apply Hc, identifier_char_range in Hin as (_ & ? & _).
Qed.

Lemma split_named a m n ps : hash_ok a → plain_identifier m →
  split_colons (show_tag (TNamed a m n ps))
  = (str "0x" ++ MoveAddress.short_str_lossless a) :: m :: split_colons (named_tail n ps).
Proof.
  intros Ha Hm. rewrite show_named. unfold named_head. rewrite <- !(assoc_L (++)).
  rewrite (assoc_L (++) (str "0x")), split_colons_app, split_colons_app; [done|by apply identifier_no_colon|].
  apply not_elem_of_app. split; [|by apply KanariAddress.hex_digits_no_colon, short_digits].
  vm_compute. intros Hin. by repeat (apply elem_of_cons in Hin as [Hin|Hin]; [done|]);
    apply not_elem_of_nil in Hin.
Qed.

Lemma named_shape a m n ps : primitive_type (show_tag (TNamed a m n ps)) = None
  ∧ strip_vector (show_tag (TNamed a m n ps)) = None.
Proof.
  split; [unfold primitive_type|unfold strip_vector, starts_with]; cbn [show_tag];
    change (str "0x" ++ ?x) with (48%Z :: 120%Z :: x); by rewrite !bool_decide_false.
Qed.

Lemma literal_compact a : hash_ok a → compact (str "0x" ++ MoveAddress.short_str_lossless a).
Proof.
  intros Ha. apply compact_chars; [done|]. apply Forall_app. split; [by repeat constructor|].
  eapply Forall_impl; [by apply short_digits|]. intros c Hc%KanariAddress.hexdigit_range. unfold visible. lia.
Qed.

Lemma params_shorter p (ps : list TypeArg) :
  In p ps → length (show_tag p) ≤ length (join_params (map show_tag ps)).
Proof.
  induction ps as [|q ps IH]; [done|]. intros Hp. destruct ps as [|q' ps].
  - destruct Hp as [->|[]]. done.
  - change (join_params (map show_tag (q :: q' :: ps)))
      with (show_tag q ++ str ", " ++ join_params (map show_tag (q' :: ps))).
    rewrite !length_app. destruct Hp as [->|Hp]; [lia|]. specialize (IH Hp). lia.
Qed.

Lemma parse_show t : supported t → ∀ f, length (show_tag t) ≤ f →
  parse_type_tag_fuel sha3_256 to_uppercase f (show_tag t) = Some t.
Proof.
  intros Ht. induction Ht as [| | | | |t Ht IH|a m n ps Ha Hz Hm Hn Hps] using supported_induction;
    intros [|f] Hf; try done; try (cbn in Hf; lia).
  - cbn [parse_type_tag_fuel]. rewrite trim_compact by (by apply compact_show; constructor).
    rewrite strip_vector_show. replace (primitive_type _) with (@None TypeArg).
    2:{ unfold primitive_type. cbn [show_tag]. change (str "vector<" ++ ?x) with (118%Z :: str "ector<" ++ x).
        by rewrite !bool_decide_false. }
    rewrite IH; [done|]. cbn [show_tag] in Hf. rewrite !length_app in Hf. cbn in Hf. lia.
  - assert (Hs : supported (TNamed a m n ps)).
    { constructor; try done. eapply Forall_impl; [done|]. by intros ? []. }
    cbn [parse_type_tag_fuel]. rewrite trim_compact by (by apply compact_show).
    destruct (named_shape a m n ps) as [-> ->]. rewrite split_named by done.
    pose proof (split_colons_nonempty (named_tail n ps)) as Hne.
    destruct (split_colons (named_tail n ps)) as [|x xs] eqn:Ex; [done|].
    rewrite <- Ex, join_split_colons.
    rewrite (trim_compact (named_tail n ps)) by (by apply compact_tail). rewrite split_generics_tail by done.
    cbn [mbind option_bind]. rewrite (trim_compact _ (literal_compact a Ha)), short_literal by done.
    rewrite trim_compact by (apply compact_chars; by apply identifier_visible).
    rewrite !plain_identifier_new by done. cbn [mbind option_bind].
    destruct ps as [|p ps]; [done|]. set (l := p :: ps) in *.
    assert (Hsup : Forall supported l) by (eapply Forall_impl; [done|]; by intros ? []).
    rewrite split_params by done.
    assert (Hfil : filter (λ g, g ≠ []) (map show_tag l) = map show_tag l).
    { clear -Hsup. induction Hsup as [|q l Hq _ IHl]; [done|]. cbn [map]. rewrite filter_cons_True, IHl; [done|].
      apply compact_show in Hq as [(? & ? & -> & _) _]. done. }
    rewrite Hfil. assert (Hlen : length (join_params (map show_tag l)) ≤ f).
    { rewrite show_named in Hf. unfold named_tail in Hf. subst l. rewrite !length_app in Hf. cbn in Hf |- *. lia. }
    assert (Hmap : mapM (parse_type_tag_fuel sha3_256 to_uppercase f) (map show_tag l) = Some l).
    { clearbody l. apply mapM_Some. apply Forall2_fmap_l, Forall_Forall2_diag.
      rewrite Forall_forall in Hps |- *. intros q Hq. apply Hps; [done|].
      etrans; [|done]. apply params_shorter. by apply list_elem_of_In. }
    by rewrite Hmap.
Qed.

(** C38: type arguments round-trip.  The text that [Display] gives a supported
    type tag, at any nesting, is parsed by [parse_type_tag] to the same tag. *)
Theorem type_args_roundtrip t : supported t → parse_type_tag sha3_256 to_uppercase (show_tag t) = Some t.
Proof. intros Ht. by apply parse_show. Qed.
End Round.

Module Runs.
Import RealHex.
Definition system : bytes := replicate 31 0%Z ++ [2%Z].
Definition coin_of (t : TypeArg) : TypeArg := TNamed system (str "coin") (str "Coin") [t; TVector TU8].
Definition nested : TypeArg := TVector (coin_of (coin_of TU64)).

Lemma named_supported m n ps : identifier_is_valid m = true → identifier_is_valid n = true →
  m ≠ str "<SELF>" → n ≠ str "<SELF>" → Forall supported ps → supported (TNamed system m n ps).
Proof.
  intros Hm Hn Hm' Hn' Hps. constructor; try done.
  split; [done|]. apply Forall_app. split; [apply Forall_replicate|repeat constructor]; unfold byte_ok; lia.
Qed.

Lemma type_args_roundtrip_witness :
  supported nested ∧ show_tag nested = str "vector<0x2::coin::Coin<0x2::coin::Coin<u64, vector<u8>>, vector<u8>>>"
  ∧ parse_type_tag id id (show_tag nested) = Some nested.
Proof.
  assert (Hc : ∀ t, supported t → supported (coin_of t)).
  { intros t Ht. apply named_supported; try done. by repeat constructor. }
  assert (Hs : supported nested) by (constructor; apply Hc, Hc; constructor).
  split; [exact Hs|]. split; [vm_compute; reflexivity|]. exact (type_args_roundtrip id id nested Hs).
Defined.

(** The other integer types are not known to the parser: a type argument [u16],
    [u32] or [u256] is refused. *)
Theorem unsupported_integers :
  parse_type_tag id id (show_tag TU16) = None ∧ parse_type_tag id id (show_tag TU32) = None
  ∧ parse_type_tag id id (show_tag TU256) = None.
Proof. by vm_compute. Qed.
End Runs.
