(* ===== verification/Execution.v ===== *)
(** * Transaction execution: [kanari-core/src/engine.rs], [kanari-types/src/gas/gas_v1.rs], [coin.rs]

    The execution of one transaction against the state: the static charge, the
    checks of the declared objects, the two native operations, the calls into the
    Move runtime, the settlement of gas between sender and DAO, the object
    changes reported with the change set, and the change set of a transaction
    that fails before it has one.  The runtime drives the Move VM and is the
    record [MoveRuntime] of functions to change sets; SHA3-256 and Unicode case
    mapping are arguments.  Messages are written out as far
    as the code looks into them. *)

From stdpp Require Import base list gmap strings.
From Stdlib Require Import ZArith Lia Ascii.
From Stdlib Require String.
From S2P Require Import Prelude Order Hashing Text Address GasCoin Transaction Mempool ChangeSet StateManager StateSupply TypeArgs.

(** The [String] of a byte string, inverse to [str] on bytes. *)
Definition text (b : bytes) : string := String.string_of_list_ascii (map (λ z, ascii_of_nat (Z.to_nat z)) b).

(** ** The static gas schedule: [gas_v1.rs] *)

Inductive GasOperation :=
| GasTransfer
| GasPublishModule (module_size : nat)
| GasExecuteFunction (complexity : Z)
| GasCreateAccount
| GasUpdateAccount.

Definition gas_units (op : GasOperation) : Z :=
  match op with
  | GasTransfer => 100
  | GasPublishModule module_size => 500 + Z.of_nat module_size
  | GasExecuteFunction complexity => 200 + complexity * 10
  | GasCreateAccount => 150
  | GasUpdateAccount => 50
  end.

Module TxGas.
Record GasMeter := {
  gas_used : Z;
  gas_price : Z;
  gas_limit : Z;
  storage_bytes_written : Z;
  storage_bytes_deleted : Z
}.
Definition new (gas_limit gas_price : Z) : GasMeter :=
  {| gas_used := 0; gas_price := gas_price; gas_limit := gas_limit;
     storage_bytes_written := 0; storage_bytes_deleted := 0 |}.
Definition consume (units : Z) (m : GasMeter) : result GasMeter :=
  match checked_add (gas_used m) units with
  | None => Err "Gas calculation overflow"
  | Some new_usage =>
      if (gas_limit m <? new_usage)%Z then
        Err ("Out of gas: required " ++ text (u64_to_string new_usage) ++ " but limit is "
             ++ text (u64_to_string (gas_limit m)))%string
      else Ok {| gas_used := new_usage; gas_price := gas_price m; gas_limit := gas_limit m;
                 storage_bytes_written := storage_bytes_written m;
                 storage_bytes_deleted := storage_bytes_deleted m |}
  end.
Definition saturating_mul (a b : Z) : Z := Z.min (a * b) u64_max.
Definition total_cost (m : GasMeter) : Z := saturating_mul (gas_used m) (gas_price m).
Definition remaining (m : GasMeter) : Z := saturating_sub (gas_limit m) (gas_used m).
End TxGas.

Definition checked_mul (a b : Z) : option Z :=
  if (a * b <=? u64_max)%Z then Some (a * b)%Z else None.
Definition checked_sub (a b : Z) : option Z :=
  if (b <=? a)%Z then Some (a - b)%Z else None.

(** ** [CoinModule] *)

Definition KANARI_SYSTEM_ADDRESS : bytes := str "0x2".
Definition coin_module_path : bytes := KANARI_SYSTEM_ADDRESS ++ str "::" ++ COIN_MODULE.
Definition coin_type (token_type : bytes) : bytes :=
  coin_module_path ++ str "::" ++ COIN_STRUCT ++ str "<" ++ token_type ++ str ">".
Definition legacy_nested_coin_type (token_type : bytes) : bytes :=
  KANARI_SYSTEM_ADDRESS ++ str "::" ++ COIN_MODULE ++ str "::" ++ COIN_MODULE ++ str "::"
  ++ COIN_STRUCT ++ str "<" ++ token_type ++ str ">".
Definition is_coin_type_for (object_type token_type : bytes) : bool :=
  bool_decide (object_type = coin_type token_type)
  || bool_decide (object_type = legacy_nested_coin_type token_type).
Definition read_balance (data : bytes) : option Z :=
  if length data <? 40 then None else Some (u64_from_le (take 8 (drop 32 data))).

Definition is_native_gas_coin_type (object_type : bytes) : bool := is_coin_type_for object_type GAS_COIN.
Definition native_coin_data_with_balance (object_id existing_data : bytes) (amount : Z) : result bytes :=
  if length existing_data <? 40 then
    Err ("Native coin object " ++ text object_id ++ " has invalid coin bytes")%string
  else Ok (take 32 existing_data ++ u64_to_le 8 amount ++ drop 40 existing_data).

(** [impl Display for AddressParseError] *)
Definition address_error (e : KanariAddress.AddressParseError) : string :=
  match e with
  | KanariAddress.InvalidLength len =>
      "Invalid address length: " ++ text (u64_to_string (Z.of_nat len)) ++ " (expected 32)"
  | KanariAddress.InvalidHexPrefix => "Invalid hex literal prefix (expected '0x')"
  | KanariAddress.InvalidHexString => "Invalid hex string"
  | KanariAddress.InvalidCharacter c => "Invalid character in hex string: '" ++ text c ++ "'"
  | KanariAddress.EmptyString => "Empty address string"
  | KanariAddress.Overflow => "Address value overflow"
  | KanariAddress.InvalidUtf8 => "Invalid UTF-8 in address string"
  | KanariAddress.ZeroAddress => "Zero address not allowed in this context"
  | KanariAddress.InvalidPadding => "Invalid padding in address bytes"
  end%string.

(** ** The Move runtime *)

Record EntryFunctionObjectContext := {
  ctx_object_inputs : list ObjectInput;
  ctx_sender : option bytes;
  ctx_gas_info : option (Z * Z);
  ctx_timestamp : option Z;
  ctx_tx_hash : option bytes;
  ctx_persist_runtime_state : bool;
  ctx_state_overlay : option (gmap bytes (option bytes))
}.
Record ModuleId := { module_address : bytes; module_name : bytes }.

(** The calls see the store the runtime shares with the state. *)
Definition PublishCall (A : Type) : Type :=
  gmap bytes bytes → A → bytes → option (Z * Z) → option Z → option bytes → bool → result ChangeSet.
Record MoveRuntime := {
  publish_module_with_context_and_persistence : PublishCall bytes;
  upgrade_module_with_context_and_persistence : PublishCall bytes;
  publish_package_with_context_and_persistence : PublishCall (list (bytes * bytes));
  upgrade_package_with_context_and_persistence : PublishCall (list (bytes * bytes));
  execute_entry_function_with_object_context_and_persistence :
    gmap bytes bytes → ModuleId → bytes → list TypeArg → list bytes → EntryFunctionObjectContext → result ChangeSet
}.

(** ** The native operations *)

Section Execute.
Context {B3 : Blake3} {HX : Hex} {BC : Bcs} {SC : StateCodecs} {TT : TypeTags}.
Context (sha3_256 to_uppercase : bytes → bytes).

(** [parse_to_account_address(s)?] *)
Definition account_address (s : bytes) : result bytes :=
  match KanariAddress.parse_to_account_address sha3_256 to_uppercase s with
  | KanariAddress.Parsed a => Ok a
  | KanariAddress.Failed e => Err (address_error e)
  end.

Definition push_created (id : bytes) (o : CreatedObject) (cs : ChangeSet) : ChangeSet :=
  set_created_objects (created_objects cs ++ [(id, o)]) cs.
Definition push_deleted (id : bytes) (cs : ChangeSet) : ChangeSet :=
  set_deleted_objects (deleted_objects cs ++ [id]) cs.

(** A field update of an object the state returned. *)
Definition with_data (d : bytes) (o : CreatedObject) : CreatedObject :=
  {| created_owner := created_owner o; owner_kind := owner_kind o; uid := uid o; created_id := created_id o;
     type_ := type_ o; data := d; created_version := created_version o |}.
Definition with_owner (a : bytes) (o : CreatedObject) : CreatedObject :=
  {| created_owner := a; owner_kind := AddressOwner (MoveAddress.to_hex_literal a); uid := uid o;
     created_id := created_id o; type_ := type_ o; data := data o; created_version := created_version o |}.

(** A coin object the sender must own; [what] is the role in the messages. *)
Definition owned_native_coin (state : StateManager) (what : string) (id sender_addr : bytes)
    (missing : string) : result CreatedObject :=
  let? found := get_object id state in
  let? o := require found missing in
  let? _ := ensure (is_native_gas_coin_type (type_ o))
              (what +:+ " " +:+ text id +:+ " must be Coin<0x2::kanari::KANARI>, found " +:+ text (type_ o)) in
  let? _ := ensure (bool_decide (created_owner o = sender_addr))
              (what +:+ " " +:+ text id +:+ " is not owned by sender "
               +:+ text (MoveAddress.to_hex_literal sender_addr)) in
  Ok o.
Definition coin_balance (what : string) (id : bytes) (o : CreatedObject) : result Z :=
  require (read_balance (data o)) (what +:+ " " +:+ text id +:+ " has invalid coin bytes").

(** The first prepared gas payment object. *)
Definition gas_object_ref (what : string) (tx : Transaction) : result ObjectRef :=
  let? payment := require (gas_payment tx) (what +:+ " requires prepared gas payment") in
  require (head (payment_objects payment)) (what +:+ " requires one prepared gas payment object").

Definition execute_backend_native_burn (state : StateManager) (tx : Transaction) (sender_addr : bytes)
    (amount gas_cost : Z) : st ChangeSet unit :=
  st_lift (ensure (0 <? amount)%Z "Native burn amount must be non-zero") ≫= λ _,
  gas_ref ← st_lift (gas_object_ref "Native burn" tx);
  gas_object ← st_lift (owned_native_coin state "Native burn gas object" (object_id gas_ref) sender_addr
    ("Native burn gas object " +:+ text (object_id gas_ref) +:+ " was not found in state"));
  object_balance ← st_lift (coin_balance "Native burn gas object" (object_id gas_ref) gas_object);
  total_required ← st_lift (require (checked_add amount gas_cost) "Native burn amount + gas overflowed u64");
  st_lift (ensure (total_required <=? object_balance)%Z
    ("Native burn requires one Coin<0x2::kanari::KANARI> object with at least "
     +:+ text (u64_to_string total_required) +:+ " Mist for burn + gas; selected object "
     +:+ text (object_id gas_ref) +:+ " only has " +:+ text (u64_to_string object_balance) +:+ " Mist")) ≫= λ _,
  st_modify (burn sender_addr amount) ≫= λ _,
  if (object_balance =? total_required)%Z then st_modify (push_deleted (object_id gas_ref))
  else
    burned_coin_balance ← st_lift (require (checked_sub object_balance amount)
                                     "Native burn coin balance underflow after precheck");
    d ← st_lift (native_coin_data_with_balance (object_id gas_ref) (data gas_object) burned_coin_balance);
    st_modify (push_created (object_id gas_ref) (with_data d gas_object)).

Definition deterministic_native_transfer_output_id (tx : Transaction) : bytes :=
  str "0x" ++ hex_encode (hash_data_blake3_array (str "kanari:native_transfer_output:v1:" ++ tx_hash tx)).

(** [output_data[..32].copy_from_slice(output_addr)] *)
Definition stamp_id (output_id d : bytes) : bytes :=
  match MoveAddress.from_hex_literal output_id with
  | Some a => a ++ drop 32 d
  | None => d
  end.

Definition execute_backend_native_transfer (state : StateManager) (tx : Transaction)
    (sender_addr coin_object_id recipient : bytes) (amount gas_cost : Z) : st ChangeSet unit :=
  st_lift (ensure (0 <? amount)%Z "Native transfer amount must be non-zero") ≫= λ _,
  gas_ref ← st_lift (gas_object_ref "Native transfer" tx);
  st_lift (ensure (negb (bool_decide (object_id gas_ref = coin_object_id)))
    "Native transfer requires two distinct Coin<0x2::kanari::KANARI> objects: one mutable transfer input and one separate gas payment object") ≫= λ _,
  transfer_object ← st_lift (owned_native_coin state "Native transfer object" coin_object_id sender_addr
    ("Native transfer coin object " +:+ text coin_object_id +:+ " was not found"));
  gas_object ← st_lift (owned_native_coin state "Native transfer gas object" (object_id gas_ref) sender_addr
    ("Native transfer gas object " +:+ text (object_id gas_ref) +:+ " was not found"));
  transfer_balance ← st_lift (coin_balance "Native transfer object" coin_object_id transfer_object);
  gas_balance ← st_lift (coin_balance "Native transfer gas object" (object_id gas_ref) gas_object);
  st_lift (ensure (amount <=? transfer_balance)%Z
    ("Native transfer requires Coin<0x2::kanari::KANARI> object " +:+ text coin_object_id +:+ " with at least "
     +:+ text (u64_to_string amount) +:+ " Mist; only has " +:+ text (u64_to_string transfer_balance)
     +:+ " Mist")) ≫= λ _,
  st_lift (ensure (gas_cost <=? gas_balance)%Z
    ("Native transfer gas object " +:+ text (object_id gas_ref) +:+ " needs at least "
     +:+ text (u64_to_string gas_cost) +:+ " Mist; only has " +:+ text (u64_to_string gas_balance)
     +:+ " Mist")) ≫= λ _,
  recipient_addr ← st_lift (account_address recipient);
  if (transfer_balance =? amount)%Z then
    st_modify (push_created coin_object_id (with_owner recipient_addr transfer_object))
  else
    st_modify (transfer sender_addr recipient_addr amount) ≫= λ _,
    rest ← st_lift (require (checked_sub transfer_balance amount)
                           "Native transfer coin balance underflow after precheck");
    kept ← st_lift (native_coin_data_with_balance coin_object_id (data transfer_object) rest);
    st_modify (push_created coin_object_id (with_data kept transfer_object)) ≫= λ _,
    let output_id := deterministic_native_transfer_output_id tx in
    output_data ← st_lift (native_coin_data_with_balance output_id (data transfer_object) amount);
    st_modify (push_created output_id
      {| created_owner := recipient_addr;
         owner_kind := AddressOwner (MoveAddress.to_hex_literal recipient_addr);
         uid := None; created_id := None; type_ := type_ transfer_object;
         data := stamp_id output_id output_data; created_version := 1 |}).

(** ** Gas settlement *)

Definition delta_of_owner (a : bytes) (cs : ChangeSet) : Z :=
  match owner_deltas cs !! a with Some d => balance_delta d | None => 0 end.
Definition gas_credit_of (a : bytes) (cs : ChangeSet) : Z := default 0%Z (native_gas_credits cs !! a).

Definition i128_checked_sub (a b : Z) : option Z :=
  if (i128_min <=? a - b)%Z && (a - b <=? i128_max)%Z then Some (a - b)%Z else None.

Definition apply_gas_and_sequence (sender : bytes) (gas_cost used : Z) : st ChangeSet unit :=
  st_modify (update_owner_delta sender (debit gas_cost)) ≫= λ _,
  dao_addr ← st_lift (require (MoveAddress.from_hex_literal DAO_ADDRESS) "Invalid hex string");
  dao_delta_before ← st_gets (delta_of_owner dao_addr);
  dao_gas_credit_before ← st_gets (gas_credit_of dao_addr);
  st_modify (collect_gas dao_addr gas_cost) ≫= λ _,
  dao_delta_after ← st_gets (delta_of_owner dao_addr);
  dao_gas_credit_after ← st_gets (λ cs, native_gas_credits cs !! dao_addr);
  st_lift (ensure (bool_decide (i128_checked_sub dao_delta_after dao_delta_before = Some gas_cost))
    "DAO gas credit mismatch") ≫= λ _,
  st_lift (ensure (bool_decide ((credit ← dao_gas_credit_after; checked_sub credit dao_gas_credit_before)
                                = Some gas_cost))
    "DAO gas-credit metadata mismatch") ≫= λ _,
  st_modify (set_gas_used used).

(** ** The object changes reported with a change set *)

Definition created_object_change (state : StateManager) (e : bytes * CreatedObject) : result ObjectChange :=
  let '(id, created) := e in
  let next_ref := object_ref_of created id in
  let? found := get_object id state in
  Ok match found with
     | Some existing =>
         {| change_type := if bool_decide (created_owner existing = created_owner created)
                           then Mutated else Transferred;
            changed_ref := next_ref;
            previous_object_ref := Some (object_ref_of existing id);
            object_type := Some (type_ created);
            new_owner := Some (owner_kind created);
            previous_owner := Some (owner_kind existing);
            previous_version := Some (created_version existing) |}
     | None =>
         {| change_type := Created; changed_ref := next_ref; previous_object_ref := None;
            object_type := Some (type_ created); new_owner := Some (owner_kind created);
            previous_owner := None; previous_version := None |}
     end.
Definition deleted_object_change (state : StateManager) (id : bytes) : result ObjectChange :=
  let? found := get_object id state in
  let previous := (λ o, object_ref_of o id) <$> found in
  Ok {| change_type := Deleted;
        changed_ref := default {| object_id := id; version := created_version <$> found; ref_digest := None |} previous;
        previous_object_ref := previous; object_type := None; new_owner := None;
        previous_owner := owner_kind <$> found; previous_version := created_version <$> found |}.

(** A loop of fallible steps over a list. *)
Fixpoint try_map {A B} (f : A → result B) (l : list A) : result (list B) :=
  match l with
  | [] => Ok []
  | x :: l => let? y := f x in let? ys := try_map f l in Ok (y :: ys)
  end.

Definition annotate_changeset_object_effects (state : StateManager) : st ChangeSet unit :=
  cs ← st_gets (λ cs, cs);
  created ← st_lift (try_map (created_object_change state) (created_objects cs));
  deleted ← st_lift (try_map (deleted_object_change state) (deleted_objects cs));
  st_modify (set_explicit_object_changes (created ++ deleted)).

(** ** Access validation *)

(** [if let Some(v) = declared && stored != v { bail }] *)
Definition matches_declared {A} `{EqDecision A} (declared : option A) (stored : A) : bool :=
  match declared with Some v => bool_decide (stored = v) | None => true end.

Definition validate_object_input (state : StateManager) (strict_metadata : bool) (input : ObjectInput) :
    result unit :=
  let id := object_id (object_ref input) in
  let? _ := if strict_metadata then
              let? _ := ensure (has_full_metadata (object_ref input))
                ("ExecuteFunction object input " +:+ text id +:+ " must include (object_id, version, digest)") in
              ensure (negb (is_none (input_owner input)))
                ("ExecuteFunction object input " +:+ text id +:+ " must declare owner semantics")
            else Ok tt in
  let? _ := ensure (negb (is_immutable input && mutable input))
              ("Immutable object input " +:+ text id +:+ " cannot be declared mutable") in
  let? found := get_object id state in
  let? stored := require found ("Referenced object " +:+ text id +:+ " does not exist") in
  let? _ := ensure (matches_declared (version (object_ref input)) (created_version stored))
              ("Object version mismatch for " +:+ text id +:+ ": expected "
               +:+ text (u64_to_string (default 0%Z (version (object_ref input))))
               +:+ ", found " +:+ text (u64_to_string (created_version stored))) in
  let? _ := ensure (matches_declared (ref_digest (object_ref input)) (object_digest stored))
              ("Object digest mismatch for " +:+ text id) in
  match input_owner input with
  | None => Ok tt
  | Some (AddressOwner expected_owner) =>
      let? _ := ensure (match owner_kind stored with AddressOwner _ => true | _ => false end)
                  ("Object " +:+ text id +:+ " is not canonically address-owned") in
      let? expected := account_address expected_owner in
      ensure (bool_decide (created_owner stored = expected))
        ("Owned object " +:+ text id +:+ " is not owned by declared owner " +:+ text expected_owner)
  | Some Shared =>
      ensure (match owner_kind stored with Shared => true | _ => false end)
        ("Object " +:+ text id +:+ " is not canonically shared")
  | Some Immutable =>
      ensure (match owner_kind stored with Immutable => true | _ => false end)
        ("Object " +:+ text id +:+ " is not canonically immutable")
  end.

Definition validate_payment_object (state : StateManager) (strict_metadata : bool)
    (mutable_input_ids : gset bytes) (expected_owner : bytes) (payment : ObjectRef) : result unit :=
  let id := object_id payment in
  let? _ := if strict_metadata then
              ensure (has_full_metadata payment)
                ("ExecuteFunction gas payment " +:+ text id +:+ " must include (object_id, version, digest)")
            else Ok tt in
  let? found := get_object id state in
  let? stored := require found ("Gas payment object " +:+ text id +:+ " does not exist") in
  let? _ := ensure (is_native_gas_coin_type (type_ stored))
              ("Gas payment object " +:+ text id +:+ " must be Coin<0x2::kanari::KANARI>, found "
               +:+ text (type_ stored)) in
  let? _ := ensure (bool_decide (created_owner stored = expected_owner))
              ("Gas payment object " +:+ text id +:+ " is not owned by sender") in
  let? _ := ensure (matches_declared (version payment) (created_version stored))
              ("Gas payment version mismatch for " +:+ text id +:+ ": expected "
               +:+ text (u64_to_string (default 0%Z (version payment))) +:+ ", found "
               +:+ text (u64_to_string (created_version stored))) in
  let? _ := ensure (matches_declared (ref_digest payment) (object_digest stored))
              ("Gas payment digest mismatch for " +:+ text id) in
  ensure (negb (bool_decide (id ∈ mutable_input_ids)))
    ("Gas payment object " +:+ text id +:+ " cannot overlap with a mutable object input").

Definition validate_transaction_object_access (state : StateManager) (tx : Transaction)
    (sender_addr : bytes) : result unit :=
  let strict_metadata := requires_strict_object_metadata tx in
  let mutable_input_ids : gset bytes :=
    list_to_set (map (λ i, object_id (object_ref i)) (List.filter mutable (object_inputs tx))) in
  let? _ := try_map (validate_object_input state strict_metadata) (object_inputs tx) in
  match gas_payment tx with
  | None => Ok tt
  | Some payment =>
      let? expected_owner := account_address (payment_owner payment) in
      let? _ := ensure (bool_decide (expected_owner = sender_addr)) "Gas payment owner must match sender" in
      let? _ := if strict_metadata then
                  ensure (negb (list_empty (payment_objects payment)))
                    "ExecuteFunction gas payment must declare at least one payment object"
                else Ok tt in
      let? _ := try_map (validate_payment_object state strict_metadata mutable_input_ids expected_owner)
                  (payment_objects payment) in
      Ok tt
  end.

(** ** Executing one transaction *)

Definition gas_operation (tx : Transaction) : GasOperation :=
  match tx with
  | PublishModule _ module_bytes _ | UpgradeModule _ module_bytes _ => GasPublishModule (length module_bytes)
  | PublishPackage _ modules | UpgradePackage _ modules =>
      GasPublishModule (sum_list_with (λ m, length (published_bytes m)) modules)
  | ExecuteFunction _ _ _ _ _ _ =>
      if negb (is_none (native_call tx)) then GasTransfer else GasExecuteFunction 1
  end.

Section Vm.
Context (runtime : MoveRuntime).

(** The merge of what a call into the runtime returned, or the failure. *)
Definition merge_call (prefix : string) (on_error : ChangeSet → ChangeSet) (r : result ChangeSet) : st ChangeSet unit :=
  match r with
  | Ok move_cs => st_modify (λ cs, merge cs move_cs)
  | Err e => st_modify (λ cs, on_error (mark_failed (str (prefix +:+ e)) cs))
  end.

(** A native operation settles its gas itself. *)
Definition settle_native (state : StateManager) (sender_addr : bytes) (base_gas_cost used : Z)
    (operation : st ChangeSet unit) : st ChangeSet unit :=
  (λ cs, match operation cs with
         | (cs, Ok _) => (cs, Ok tt)
         | (cs, Err e) => (mark_failed (str ("Execution failed: " +:+ e)) cs, Ok tt)
         end) ≫= λ _,
  apply_gas_and_sequence sender_addr base_gas_cost used ≫= λ _,
  annotate_changeset_object_effects state.

(** The entry-function call of a transaction that is no native operation. *)
Definition call_entry_function (state : StateManager) (tx : Transaction) (sender_addr : bytes)
    (timestamp : option Z) (persist_runtime_state : bool) (state_overlay : option (gmap bytes (option bytes)))
    (module function : bytes) (type_args args : list bytes) : st ChangeSet unit :=
  match split_colons module with
  | [address; name] =>
      addr ← st_lift (account_address address);
      name ← st_lift (require (identifier_new name) "Invalid identifier");
      let module_id := {| module_address := addr; module_name := name |} in
      st_modify (record_resolver_reads
        [str "module:" ++ MoveAddress.to_hex_literal addr ++ str ":" ++ name]) ≫= λ _,
      type_tags ← st_lift (try_map (λ s, require (parse_type_tag sha3_256 to_uppercase s) "Invalid type argument")
                             type_args);
      merge_call "Execution failed: " (set_gas_used (gas_limit tx))
        (execute_entry_function_with_object_context_and_persistence runtime (store state) module_id function
           type_tags args
           {| ctx_object_inputs := object_inputs tx; ctx_sender := Some sender_addr;
              ctx_gas_info := Some (gas_limit tx, effective_gas_price (gas_price tx));
              ctx_timestamp := timestamp; ctx_tx_hash := Some (tx_hash tx);
              ctx_persist_runtime_state := persist_runtime_state; ctx_state_overlay := state_overlay |})
  | _ => st_lift (Err "Invalid module format. Expected: address::module")
  end.

(** A publication of a module or a package. *)
Definition publish {A} (call : PublishCall A) (what : string) (state : StateManager) (tx : Transaction)
    (timestamp : option Z) (persist_runtime_state : bool) (payload : A) : st ChangeSet unit :=
  publisher ← st_lift (account_address (sender tx));
  merge_call (what +:+ " failed: ") id
    (call (store state) payload publisher (Some (gas_limit tx, effective_gas_price (gas_price tx))) timestamp
       (Some (tx_hash tx)) persist_runtime_state).

Definition package_modules (modules : list PublishedModule) : list (bytes * bytes) :=
  map (λ m, (published_name m, published_bytes m)) modules.

(** The gas of a call into the runtime: what it used, at least the base charge. *)
Definition settle_call (state : StateManager) (tx : Transaction) (sender_addr : bytes) (base_units : Z) :
    st ChangeSet unit :=
  charged_gas_units ← st_gets (λ cs, Z.max (cs_gas_used cs) base_units);
  st_lift (ensure (charged_gas_units <=? gas_limit tx)%Z
    ("Runtime gas usage " +:+ text (u64_to_string charged_gas_units) +:+ " exceeds transaction gas limit "
     +:+ text (u64_to_string (gas_limit tx)))) ≫= λ _,
  charged_gas_cost ← st_lift (require (checked_mul charged_gas_units (effective_gas_price (gas_price tx)))
                                "Transaction gas cost overflow");
  apply_gas_and_sequence sender_addr charged_gas_cost charged_gas_units ≫= λ _,
  annotate_changeset_object_effects state.

(** The match on the transaction. *)
Definition run_transaction (state : StateManager) (tx : Transaction) (sender_addr : bytes)
    (timestamp : option Z) (persist_runtime_state : bool) (state_overlay : option (gmap bytes (option bytes)))
    (meter : TxGas.GasMeter) : st ChangeSet unit :=
  let base_gas_cost := TxGas.total_cost meter in
  let used := TxGas.gas_used meter in
  let settle := settle_call state tx sender_addr used in
  match tx with
  | PublishModule _ module_bytes _ =>
      publish (publish_module_with_context_and_persistence runtime) "Publish" state tx timestamp
        persist_runtime_state module_bytes ≫= λ _, settle
  | UpgradeModule _ module_bytes _ =>
      publish (upgrade_module_with_context_and_persistence runtime) "Upgrade" state tx timestamp
        persist_runtime_state module_bytes ≫= λ _, settle
  | PublishPackage _ modules =>
      publish (publish_package_with_context_and_persistence runtime) "Publish package" state tx timestamp
        persist_runtime_state (package_modules modules) ≫= λ _, settle
  | UpgradePackage _ modules =>
      publish (upgrade_package_with_context_and_persistence runtime) "Upgrade package" state tx timestamp
        persist_runtime_state (package_modules modules) ≫= λ _, settle
  | ExecuteFunction _ module function type_args args _ =>
      match native_call tx with
      | Some (NativeTransfer coin_object_id recipient amount) =>
          settle_native state sender_addr base_gas_cost used
            (execute_backend_native_transfer state tx sender_addr coin_object_id recipient amount base_gas_cost)
      | Some (NativeBurn amount) =>
          settle_native state sender_addr base_gas_cost used
            (execute_backend_native_burn state tx sender_addr amount base_gas_cost)
      | None =>
          call_entry_function state tx sender_addr timestamp persist_runtime_state state_overlay
            module function type_args args ≫= λ _, settle
      end
  end.

(** A method on a local change set: its final value, or the error. *)
Definition build_changeset (m : st ChangeSet unit) : result ChangeSet :=
  match m changeset_new with
  | (cs, Ok _) => Ok cs
  | (_, Err e) => Err e
  end.

Definition execute_transaction_with_runtime_overlay (state : StateManager) (tx : Transaction)
    (timestamp : option Z) (persist_runtime_state : bool) (state_overlay : option (gmap bytes (option bytes))) :
    result ChangeSet :=
  let? sender_addr := account_address (sender_address tx) in
  let? meter := TxGas.consume (gas_units (gas_operation tx))
                  (TxGas.new (gas_limit tx) (effective_gas_price (gas_price tx))) in
  let? max_gas_cost := require (checked_mul (gas_limit tx) (effective_gas_price (gas_price tx)))
                         "Transaction maximum gas cost overflow" in
  let? _ := validate_transaction_object_access state tx sender_addr in
  let balance := match resolve_owner_native_balance sender_addr state with Ok b => b | Err _ => 0%Z end in
  build_changeset (
    st_modify (set_transaction_context (object_inputs tx) (gas_payment tx)) ≫= λ _,
    if (0 <? max_gas_cost)%Z && (balance <? max_gas_cost)%Z then
      st_modify (mark_failed (str "Insufficient balance for maximum gas: need " ++ u64_to_string max_gas_cost
                              ++ str ", have " ++ u64_to_string balance)) ≫= λ _,
      apply_gas_and_sequence sender_addr (Z.min (TxGas.total_cost meter) balance) (TxGas.gas_used meter) ≫= λ _,
      annotate_changeset_object_effects state
    else run_transaction state tx sender_addr timestamp persist_runtime_state state_overlay meter).

(** The overlay is handed to the runtime when it is not empty. *)
Definition execute_transaction_with_runtime_internal (state : StateManager) (tx : Transaction)
    (timestamp : option Z) (persist_runtime_state : bool) : result ChangeSet :=
  execute_transaction_with_runtime_overlay state tx timestamp persist_runtime_state
    (if decide (overlay state = ∅) then None else Some (overlay state)).
Definition execute_transaction_with_runtime (state : StateManager) (tx : Transaction) (timestamp : option Z) :
    result ChangeSet :=
  execute_transaction_with_runtime_internal state tx timestamp false.
End Vm.

(** ** A transaction that fails before it has a change set *)

Definition RACE_MARKERS : list bytes :=
  [str "Object version mismatch for"; str "Object digest mismatch for";
   str "Gas payment version mismatch for"; str "Gas payment digest mismatch for"].

Definition failed_changeset_for_error (state : StateManager) (tx : Transaction) (error_message : bytes) :
    result ChangeSet :=
  let? sender_addr := account_address (sender_address tx) in
  let base_units := Z.min (gas_units (gas_operation tx)) (gas_limit tx) in
  let? requested_cost := require (checked_mul base_units (effective_gas_price (gas_price tx)))
                           "Failed to calculate failure gas cost" in
  let balance := match resolve_owner_native_balance sender_addr state with Ok b => b | Err _ => 0%Z end in
  let is_race := existsb (λ marker, contains marker error_message) RACE_MARKERS in
  let '(gas_cost, error_message) :=
    if (is_race : bool) then
      (0%Z, error_message ++ str " (object changed concurrently; retry with fresh object refs)")
    else (Z.min requested_cost balance, error_message) in
  build_changeset (
    st_modify (set_transaction_context (object_inputs tx) (gas_payment tx)) ≫= λ _,
    st_modify (mark_failed error_message) ≫= λ _,
    apply_gas_and_sequence sender_addr gas_cost base_units ≫= λ _,
    annotate_changeset_object_effects state).

(** ** The root of a checkpoint *)

Definition checkpoint_root_matches (strict : bool) (computed_root checkpoint_root : bytes) : result bool :=
  if bool_decide (computed_root = checkpoint_root) then Ok true
  else if strict then Err "Checkpoint state root mismatch: strict verification failed"
  else Ok false.
End Execute.
