(* ===== verification/ExecutionTheorems.v ===== *)
(** * Theorems about the execution of a transaction

    Gas is moved from the sender to the DAO and never created, nobody is charged
    more than the limit allows or than the sender has, the native operations
    conserve coins and fail without a trace, access validation is exact, and a
    failing transaction still gets a change set. *)

From stdpp Require Import base list gmap strings.
From Stdlib Require Import ZArith Lia.
From S2P Require Import Prelude Order Hashing Text Address GasCoin Transaction TypesTheorems Mempool ChangeSet ChangeSetTheorems StateManager StateSupply StateRootTheorems StateRecords TypeArgs Execution.
Local Open Scope Z_scope.

(** ** Steps of the monad *)

Lemma lift_step {S A B} (r : result A) (k : A → st S B) s :
  (st_lift r ≫= k) s = match r with Ok a => k a s | Err e => (s, Err e) end.
Proof. by destruct r. Qed.
Lemma modify_step {S B} (f : S → S) (k : unit → st S B) s : (st_modify f ≫= k) s = k tt (f s).
Proof. done. Qed.
Lemma gets_step {S A B} (f : S → A) (k : A → st S B) s : (st_gets f ≫= k) s = k (f s) s.
Proof. done. Qed.


(** Run the next step of [H : (m ≫= k) s = (s', Ok _)]; its result is named. *)
Ltac step_ok H :=
  first
  [ rewrite lift_step in H;
    match type of H with
    | context [match ?r with Ok _ => _ | Err _ => _ end] =>
        let E := fresh "E" in destruct r eqn:E; [|discriminate H]
    end
  | rewrite modify_step in H
  | rewrite gets_step in H ].

(** ** The bytes of a coin *)

Lemma read_balance_length d b : read_balance d = Some b → (40 ≤ length d)%nat.
Proof. unfold read_balance. destruct (Nat.ltb_spec (length d) 40); [done|lia]. Qed.

(** Little-endian bytes of a balance are a [u64]. *)
Lemma u64_from_le_range l : Forall byte_ok l → 0 ≤ u64_from_le l < 256 ^ Z.of_nat (length l).
Proof.
  induction 1 as [|b l Hb _ IH]; [cbn; lia|]. unfold byte_ok in Hb.
  cbn [u64_from_le foldr length] in *. fold (u64_from_le l). rewrite Nat2Z.inj_succ, Z.pow_succ_r by lia. lia.
Qed.

Lemma rebalanced id d n d' : native_coin_data_with_balance id d n = Ok d' → 0 ≤ n ≤ u64_max →
  read_balance d' = Some n ∧ take 32 d' = take 32 d ∧ drop 40 d' = drop 40 d ∧ length d' = length d.
Proof.
  unfold native_coin_data_with_balance. destruct (Nat.ltb_spec (length d) 40) as [|Hl]; [done|].
  intros E Hn. apply (f_equal (λ r, match r with Ok x => x | Err _ => [] end)) in E. cbv beta iota in E. subst d'.
  pose proof (u64_to_le_length 8 n) as H8.
  assert (H32 : length (take 32 d) = 32%nat) by (rewrite length_take; lia).
  assert (Hlen : length (take 32 d ++ u64_to_le 8 n ++ drop 40 d) = length d).
  { rewrite !length_app, H32, H8, length_drop. lia. }
  split_and!; [| |..|done].
  - unfold read_balance. rewrite Hlen. destruct (Nat.ltb_spec (length d) 40); [lia|].
    rewrite drop_app_length' by done. rewrite take_app_length' by done. f_equal. apply u64_le_roundtrip.
    unfold u64_max in Hn. cbn. lia.
  - by rewrite take_app_length' by done.
  - replace (drop 40 (take 32 d ++ u64_to_le 8 n ++ drop 40 d)) with (drop 8 (drop 32 (take 32 d ++ u64_to_le 8 n ++ drop 40 d)))
      by (rewrite drop_drop; done).
    rewrite (drop_app_length' (take 32 d)) by done. by rewrite drop_app_length' by done.
Qed.

Lemma rebalance_total id d b n : read_balance d = Some b → 0 ≤ n ≤ u64_max →
  ∃ d', native_coin_data_with_balance id d n = Ok d' ∧ read_balance d' = Some n.
Proof.
  intros Hb%read_balance_length Hn.
  destruct (native_coin_data_with_balance id d n) as [d'|] eqn:Ed.
  - exists d'. split; [done|]. by apply (rebalanced id d n d').
  - unfold native_coin_data_with_balance in Ed. destruct (Nat.ltb_spec (length d) 40); [lia|done].
Qed.

Lemma stamped `{Hex} id d b : read_balance d = Some b → read_balance (stamp_id id d) = Some b.
Proof.
  intros Hb. unfold stamp_id. destruct (MoveAddress.from_hex_literal id) as [a|] eqn:Ea; [|done].
  apply from_hex_literal_32 in Ea. pose proof (read_balance_length d b Hb) as Hl.
  unfold read_balance in *. rewrite length_app, Ea, length_drop.
  replace (32 + (length d - 32))%nat with (length d) by lia.
  destruct (Nat.ltb_spec (length d) 40); [done|]. rewrite drop_app_length' by done. done.
Qed.

(** ** Gas *)

Definition bounded (cs : ChangeSet) : Prop := ∀ a, Z.abs (delta_of cs a) ≤ 2 ^ 100.

(** Gas taken from [payer] and collected by [dao]. *)
Definition charge (payer dao : bytes) (cost used : Z) (cs : ChangeSet) : ChangeSet :=
  set_gas_used used (collect_gas dao cost (update_owner_delta payer (debit cost) cs)).

Lemma charge_moves payer dao cost used cs : 0 ≤ cost ≤ u64_max → bounded cs →
  (∀ a, delta_of (charge payer dao cost used cs) a = delta_of cs a - at_ a payer cost + at_ a dao cost)
  ∧ supply_delta (charge payer dao cost used cs) = supply_delta cs.
Proof.
  intros Hc Hb.
  destruct (run_op_moves (OpBurn payer cost) cs (2 ^ 100)) as [H1 H2];
    [done|lia|unfold i128_max; lia|done|].
  destruct (run_op_moves (OpCollectGas dao cost) (burn payer cost cs) (2 ^ 100 + 2 ^ 64)) as [H3 H4];
    [done|lia|unfold i128_max; lia| |].
  { intros a. change (burn payer cost cs) with (run_op (OpBurn payer cost) cs). rewrite H1. cbn [net].
    specialize (Hb a). unfold at_, u64_max in *. case_decide; lia. }
  cbn [run_op net issued] in *. split.
  - intros a. specialize (H3 a). specialize (H1 a).
    change (delta_of (charge payer dao cost used cs) a)
      with (delta_of (collect_gas dao cost (burn payer cost cs)) a). lia.
  - change (supply_delta (charge payer dao cost used cs))
      with (supply_delta (collect_gas dao cost (burn payer cost cs))). lia.
Qed.

Section Settle.
Context {B3 : Blake3} {HX : Hex} {BC : Bcs} {SC : StateCodecs} {TT : TypeTags}.

Lemma apply_gas_inv payer cost used cs cs' :
  apply_gas_and_sequence payer cost used cs = (cs', Ok tt) →
  ∃ dao, MoveAddress.from_hex_literal DAO_ADDRESS = Some dao ∧ cs' = charge payer dao cost used cs
    ∧ gas_credit_of dao cs + cost ≤ u64_max.
Proof.
  unfold apply_gas_and_sequence. intros H.
  step_ok H. step_ok H. apply require_ok in E. rename a into dao.
  step_ok H. step_ok H. step_ok H. step_ok H. step_ok H. step_ok H. step_ok H.
  exists dao. split; [done|].
  apply (f_equal fst) in H as H'. cbn in H'. split; [done|].
  apply ensure_ok, bool_decide_eq_true in E1. clear -E1.
  unfold collect_gas in E1. cbn [native_gas_credits set_native_gas_credits set_owner_deltas update_owner_delta] in E1.
  unfold add_credit in E1. rewrite lookup_insert_eq in E1. cbn [mbind option_bind] in E1.
  unfold checked_sub, gas_credit_of, saturating_add in *.
  cbn [native_gas_credits set_owner_deltas update_owner_delta] in E1. unfold u64_max in *.
  destruct (_ <=? _); [|done]. injection E1 as E1. lia.
Qed.

Lemma apply_gas_total payer dao cost used cs :
  MoveAddress.from_hex_literal DAO_ADDRESS = Some dao → 0 ≤ cost ≤ u64_max → bounded cs →
  0 ≤ gas_credit_of dao cs → gas_credit_of dao cs + cost ≤ u64_max →
  apply_gas_and_sequence payer cost used cs = (charge payer dao cost used cs, Ok tt).
Proof.
  intros Ed Hc Hb Hg Hm. unfold apply_gas_and_sequence. rewrite modify_step, Ed, lift_step.
  cbn [require]. rewrite !gets_step, modify_step, !gets_step, !lift_step.
  destruct (charge_moves payer dao cost used cs Hc Hb) as [H1 _].
  set (mid := update_owner_delta payer (debit cost) cs).
  assert (Hmid : delta_of_owner dao mid = delta_of cs dao - at_ dao payer cost).
  { change (delta_of_owner dao mid) with (delta_of (run_op (OpBurn payer cost) cs) dao).
    destruct (run_op_moves (OpBurn payer cost) cs (2 ^ 100)) as [H2 _];
      [done|lia|unfold i128_max; lia|done|]. rewrite H2. cbn [net]. lia. }
  assert (Hafter : delta_of_owner dao (collect_gas dao cost mid) = delta_of cs dao - at_ dao payer cost + cost).
  { change (delta_of_owner dao (collect_gas dao cost mid)) with (delta_of (charge payer dao cost used cs) dao).
    rewrite H1. unfold at_ at 2. rewrite decide_True by done. lia. }
  rewrite Hafter, Hmid. specialize (Hb dao). unfold i128_checked_sub.
  replace (delta_of cs dao - at_ dao payer cost + cost - (delta_of cs dao - at_ dao payer cost)) with cost by lia.
  assert (Hr : (i128_min <=? cost) && (cost <=? i128_max) = true) by (unfold u64_max, i128_min, i128_max in *; lia).
  rewrite Hr, bool_decide_true by done. unfold u64_max in *. cbn [ensure].
  unfold collect_gas. cbn [native_gas_credits set_native_gas_credits set_owner_deltas update_owner_delta].
  unfold add_credit. rewrite lookup_insert_eq. cbn [mbind option_bind].
  change (gas_credit_of dao mid) with (gas_credit_of dao cs).
  change (default 0 (native_gas_credits mid !! dao)) with (gas_credit_of dao cs).
  unfold saturating_add, u64_max. rewrite Z.min_l by lia. unfold checked_sub.
  rewrite (proj2 (Z.leb_le _ _)) by lia.
  replace (gas_credit_of dao cs + cost - gas_credit_of dao cs) with cost by lia. rewrite bool_decide_true by done.
  cbn [ensure]. unfold st_modify, charge, collect_gas, add_credit, saturating_add, u64_max.
  rewrite Z.min_l; [done|exact Hm].
Qed.

(** The reported changes: one per written object and one per deleted one. *)
Lemma annotate_inv state cs cs' : annotate_changeset_object_effects state cs = (cs', Ok tt) →
  ∃ created deleted, try_map (created_object_change state) (created_objects cs) = Ok created
    ∧ try_map (deleted_object_change state) (deleted_objects cs) = Ok deleted
    ∧ cs' = set_explicit_object_changes (created ++ deleted) cs.
Proof.
  unfold annotate_changeset_object_effects. intros H. step_ok H. step_ok H. step_ok H.
  exists a, a0. split_and!; [done|done|]. by apply (f_equal fst) in H.
Qed.

Lemma settle_inv state payer cost used cs cs' :
  (apply_gas_and_sequence payer cost used ≫= λ _, annotate_changeset_object_effects state) cs = (cs', Ok tt) →
  ∃ dao changes, MoveAddress.from_hex_literal DAO_ADDRESS = Some dao
    ∧ gas_credit_of dao cs + cost ≤ u64_max
    ∧ cs' = set_explicit_object_changes changes (charge payer dao cost used cs).
Proof.
  intros (cs1 & [] & H1 & H2)%st_bind_inv. apply apply_gas_inv in H1 as (dao & Ed & -> & Hg).
  apply annotate_inv in H2 as (c & d & _ & _ & ->). eauto 6.
Qed.
End Settle.

(** ** The native operations *)

Section Native.
Context {B3 : Blake3} {HX : Hex} {BC : Bcs} {SC : StateCodecs} {TT : TypeTags}.
Context (sha3_256 to_uppercase : bytes → bytes).

(** The records of the state are values of their Rust types. *)
Record typed_view (state : StateManager) : Prop := {
  view_objects : ∀ id o, get_object id state = Ok (Some o) → bytes_ok (data o);
  view_balances : ∀ a b, resolve_owner_native_balance a state = Ok b → 0 ≤ b ≤ u64_max
}.

Definition native_coin (state : StateManager) (id owner : bytes) (o : CreatedObject) (b : Z) : Prop :=
  get_object id state = Ok (Some o) ∧ is_native_gas_coin_type (type_ o) = true
  ∧ created_owner o = owner ∧ read_balance (data o) = Some b.

Lemma owned_native_coin_ok state what id owner missing o what' b :
  owned_native_coin state what id owner missing = Ok o → coin_balance what' id o = Ok b →
  native_coin state id owner o b.
Proof.
  unfold owned_native_coin, coin_balance. intros H Hb%require_ok.
  destruct (get_object id state) as [found|] eqn:Eg; [|done]. cbn [result_bind] in H.
  destruct (require found missing) as [o'|] eqn:Er; [|done]. apply require_ok in Er. subst found. cbn [result_bind] in H.
  destruct (is_native_gas_coin_type (type_ o')) eqn:Et; [|done]. cbn [ensure result_bind] in H.
  destruct (bool_decide (created_owner o' = owner)) eqn:Eo; [|done]. apply bool_decide_eq_true in Eo.
  injection H as <-. done.
Qed.

Lemma native_coin_range state id owner o b : typed_view state → native_coin state id owner o b → 0 ≤ b ≤ u64_max.
Proof.
  intros [Ho _] (Hg & _ & _ & Hb). apply Ho in Hg. unfold read_balance in Hb.
  destruct (length (data o) <? 40)%nat eqn:El; [done|]. apply Nat.ltb_ge in El. injection Hb as <-.
  assert (H8 : length (take 8 (drop 32 (data o))) = 8%nat) by (rewrite length_take, length_drop; lia).
  pose proof (u64_from_le_range (take 8 (drop 32 (data o)))) as Hr. rewrite H8 in Hr.
  unfold u64_max. cbn in Hr. enough (Forall byte_ok (take 8 (drop 32 (data o)))) by (specialize (Hr H); lia).
  by apply Forall_take, Forall_drop.
Qed.

(** What a transfer adds to a change set: the coin whole, or its rest and a new coin. *)
Inductive transferred (state : StateManager) (tx : Transaction) (coin from to : bytes) (amount : Z) (cs : ChangeSet) :
    ChangeSet → Prop :=
| transferred_whole o :
    native_coin state coin from o amount →
    transferred state tx coin from to amount cs (push_created coin (with_owner to o) cs)
| transferred_part o b kept out :
    native_coin state coin from o b → amount < b →
    read_balance kept = Some (b - amount) →
    read_balance (data out) = Some amount → created_owner out = to →
    transferred state tx coin from to amount cs
      (push_created (deterministic_native_transfer_output_id tx) out
        (push_created coin (with_data kept o) (transfer from to amount cs))).

(** A transfer succeeds with exactly its effect, or leaves the change set alone. *)
Lemma native_transfer_outcome state tx from coin recipient amount cost cs :
  typed_view state →
  match execute_backend_native_transfer sha3_256 to_uppercase state tx from coin recipient amount cost cs with
  | (cs', Ok _) => 0 < amount ∧ ∃ to gas_ref g gb,
      account_address sha3_256 to_uppercase recipient = Ok to
      ∧ gas_object_ref "Native transfer" tx = Ok gas_ref ∧ object_id gas_ref ≠ coin
      ∧ native_coin state (object_id gas_ref) from g gb ∧ cost ≤ gb
      ∧ transferred state tx coin from to amount cs cs'
  | (cs', Err _) => cs' = cs
  end.
Proof.
  intros Hv. unfold execute_backend_native_transfer.
  rewrite lift_step. destruct (ensure (0 <? amount) _) eqn:Ea; [|done]. apply ensure_ok in Ea.
  rewrite lift_step. destruct (gas_object_ref _ tx) as [gas_ref|] eqn:Eg; [|done].
  rewrite lift_step. destruct (ensure (negb _) _) eqn:Ed; [|done]. apply ensure_ok in Ed.
  apply negb_true_iff, bool_decide_eq_false in Ed.
  rewrite lift_step. destruct (owned_native_coin _ _ coin _ _) as [o|] eqn:Eo; [|done].
  rewrite lift_step. destruct (owned_native_coin _ _ (object_id gas_ref) _ _) as [g|] eqn:Ego; [|done].
  rewrite lift_step. destruct (coin_balance _ coin o) as [b|] eqn:Eb; [|done].
  rewrite lift_step. destruct (coin_balance _ _ g) as [gb|] eqn:Egb; [|done].
  pose proof (owned_native_coin_ok _ _ _ _ _ _ _ _ Eo Eb) as Ho.
  pose proof (owned_native_coin_ok _ _ _ _ _ _ _ _ Ego Egb) as Hg.
  pose proof (native_coin_range _ _ _ _ _ Hv Ho) as Hb.
  rewrite lift_step. destruct (ensure (amount <=? b) _) eqn:Eab; [|done]. apply ensure_ok in Eab.
  rewrite lift_step. destruct (ensure (cost <=? gb) _) eqn:Ecb; [|done]. apply ensure_ok in Ecb.
  rewrite lift_step. destruct (account_address _ _ recipient) as [to|] eqn:Er; [|done].
  assert (Hall : ∀ cs', transferred state tx coin from to amount cs cs' → 0 < amount ∧ ∃ to0 gas_ref0 g0 gb0,
      Ok to = Ok to0 ∧ Ok gas_ref = Ok gas_ref0 ∧ object_id gas_ref0 ≠ coin
      ∧ native_coin state (object_id gas_ref0) from g0 gb0 ∧ cost ≤ gb0
      ∧ transferred state tx coin from to0 amount cs cs').
  { intros cs' Ht. split; [lia|]. exists to, gas_ref, g, gb. split_and!; try done. lia. }
  destruct (Z.eqb_spec b amount) as [->|Hne].
  { apply Hall. by constructor. }
  rewrite modify_step. unfold checked_sub. rewrite (proj2 (Z.leb_le amount b)) by lia. rewrite lift_step. cbn [require].
  destruct Ho as (Ho1 & Ho2 & Ho3 & Hread).
  destruct (rebalance_total coin _ _ (b - amount) Hread) as (kept & -> & Hk); [lia|].
  destruct (rebalance_total (deterministic_native_transfer_output_id tx) _ _ amount Hread) as (out & -> & Hout); [lia|].
  rewrite lift_step, modify_step, lift_step. unfold st_modify. apply Hall.
  eapply transferred_part; try done; [lia|]. cbn [data]. by apply stamped.
Qed.

(** What a burn adds: the coin without the burnt amount, or its removal when
    burn and gas use it up. *)
Inductive burnt (state : StateManager) (coin from : bytes) (amount cost : Z) (cs : ChangeSet) : ChangeSet → Prop :=
| burnt_whole o :
    native_coin state coin from o (amount + cost) →
    burnt state coin from amount cost cs (push_deleted coin (burn from amount cs))
| burnt_part o b kept :
    native_coin state coin from o b → amount + cost < b → read_balance kept = Some (b - amount) →
    burnt state coin from amount cost cs (push_created coin (with_data kept o) (burn from amount cs)).

Lemma native_burn_outcome state tx from amount cost cs :
  typed_view state → 0 ≤ cost →
  match execute_backend_native_burn state tx from amount cost cs with
  | (cs', Ok _) => 0 < amount ∧ ∃ gas_ref,
      gas_object_ref "Native burn" tx = Ok gas_ref ∧ burnt state (object_id gas_ref) from amount cost cs cs'
  | (cs', Err _) => cs' = cs
  end.
Proof.
  intros Hv Hc. unfold execute_backend_native_burn.
  rewrite lift_step. destruct (ensure (0 <? amount) _) eqn:Ea; [|done]. apply ensure_ok in Ea.
  rewrite lift_step. destruct (gas_object_ref _ tx) as [gas_ref|] eqn:Eg; [|done].
  rewrite lift_step. destruct (owned_native_coin _ _ _ _ _) as [o|] eqn:Eo; [|done].
  rewrite lift_step. destruct (coin_balance _ _ o) as [b|] eqn:Eb; [|done].
  pose proof (owned_native_coin_ok _ _ _ _ _ _ _ _ Eo Eb) as Ho.
  pose proof (native_coin_range _ _ _ _ _ Hv Ho) as Hb.
  rewrite lift_step. destruct (require (checked_add amount cost) _) as [total|] eqn:Et; [|done].
  apply require_ok in Et. unfold checked_add in Et. destruct (_ <=? _); [|done]. injection Et as <-.
  rewrite lift_step. destruct (ensure (amount + cost <=? b) _) eqn:Eab; [|done]. apply ensure_ok in Eab.
  rewrite modify_step. destruct (Z.eqb_spec b (amount + cost)) as [->|Hne].
  { unfold st_modify. split; [lia|]. exists gas_ref. split; [done|]. by econstructor. }
  unfold checked_sub. rewrite (proj2 (Z.leb_le amount b)) by lia. rewrite lift_step. cbn [require].
  destruct (rebalance_total (object_id gas_ref) _ _ (b - amount) (proj2 (proj2 (proj2 Ho)))) as (kept & -> & Hk); [lia|].
  rewrite lift_step. unfold st_modify. split; [lia|]. exists gas_ref. split; [done|].
  eapply burnt_part; [done|lia|done].
Qed.

(** ** One execution *)

Section Run.
Context (runtime : MoveRuntime) (state : StateManager) (tx : Transaction)
  (timestamp : option Z) (persist : bool) (ov : option (gmap bytes (option bytes))).

(** The change set every execution starts from. *)
Definition context_of : ChangeSet := set_transaction_context (object_inputs tx) (gas_payment tx) changeset_new.

(** A property of every change set the runtime returns. *)
Record answers (Q : ChangeSet → Prop) : Prop := {
  answers_publish : ∀ m b a g t h p cs,
    publish_module_with_context_and_persistence runtime m b a g t h p = Ok cs → Q cs;
  answers_upgrade : ∀ m b a g t h p cs,
    upgrade_module_with_context_and_persistence runtime m b a g t h p = Ok cs → Q cs;
  answers_publish_package : ∀ m b a g t h p cs,
    publish_package_with_context_and_persistence runtime m b a g t h p = Ok cs → Q cs;
  answers_upgrade_package : ∀ m b a g t h p cs,
    upgrade_package_with_context_and_persistence runtime m b a g t h p = Ok cs → Q cs;
  answers_function : ∀ m id f tags args ctx cs,
    execute_entry_function_with_object_context_and_persistence runtime m id f tags args ctx = Ok cs → Q cs
}.

(** A change set without effects besides the context. *)
Definition blank (cs : ChangeSet) : Prop :=
  owner_deltas cs = ∅ ∧ native_gas_credits cs = ∅ ∧ created_objects cs = [] ∧ deleted_objects cs = [].

(** The change set before gas is settled.  A failed call into a function of the
    runtime reports the whole limit as used; otherwise the gas reported is what
    the runtime has answered, and none where it was not called. *)
Inductive outcome (Q : ChangeSet → Prop) (payer : bytes) (cost : Z) : ChangeSet → Prop :=
| outcome_failed cs :
    blank cs → success cs = false → cs_gas_used cs = 0 ∨ cs_gas_used cs = gas_limit tx →
    outcome Q payer cost cs
| outcome_called base move_cs :
    native_call tx = None → Q move_cs → blank base → success base = true → cs_gas_used base = 0 →
    outcome Q payer cost (merge base move_cs)
| outcome_transferred coin recipient amount to cs :
    native_call tx = Some (NativeTransfer coin recipient amount) →
    account_address sha3_256 to_uppercase recipient = Ok to → 0 < amount →
    transferred state tx coin payer to amount context_of cs → outcome Q payer cost cs
| outcome_burnt amount gas_ref cs :
    native_call tx = Some (NativeBurn amount) → 0 < amount →
    gas_object_ref "Native burn" tx = Ok gas_ref →
    burnt state (object_id gas_ref) payer amount cost context_of cs → outcome Q payer cost cs.

Lemma blank_context : blank context_of ∧ success context_of = true.
Proof. done. Qed.

(** The units charged: what was used, at least the base charge of the operation. *)
Definition charged_units (before : ChangeSet) : Z :=
  Z.max (cs_gas_used before) (gas_units (gas_operation tx)).

Lemma base_units_nonneg : 0 ≤ gas_units (gas_operation tx).
Proof. unfold gas_operation. destruct tx; cbn; try lia; case_match; cbn; lia. Qed.
Lemma charged_base before : cs_gas_used before = 0 → charged_units before = gas_units (gas_operation tx).
Proof. pose proof base_units_nonneg. unfold charged_units. lia. Qed.

(** The settled change set of an execution. *)
Definition settled (Q : ChangeSet → Prop) (payer : bytes) (cost used : Z) (cs : ChangeSet) : Prop :=
  ∃ before dao changes, outcome Q payer cost before ∧ used = charged_units before
    ∧ MoveAddress.from_hex_literal DAO_ADDRESS = Some dao
    ∧ gas_credit_of dao before + cost ≤ u64_max
    ∧ cs = set_explicit_object_changes changes (charge payer dao cost used before).

Lemma settled_intro Q payer cost used before cs : outcome Q payer cost before → used = charged_units before →
  (apply_gas_and_sequence payer cost used ≫= λ _, annotate_changeset_object_effects state) before = (cs, Ok tt) →
  settled Q payer cost used cs.
Proof. intros Ho Hu (dao & changes & Hd & Hg & ->)%settle_inv. by exists before, dao, changes. Qed.

(** What a call into the runtime leaves. *)
Lemma merge_call_inv Q payer cost prefix on_error r base before :
  native_call tx = None → (∀ cs, r = Ok cs → Q cs) → blank base → success base = true →
  cs_gas_used base = 0 →
  (∀ cs, blank cs → blank (on_error cs)) → (∀ cs, success (on_error cs) = success cs) →
  (∀ cs, cs_gas_used cs = 0 → cs_gas_used (on_error cs) = 0 ∨ cs_gas_used (on_error cs) = gas_limit tx) →
  merge_call prefix on_error r base = (before, Ok tt) → outcome Q payer cost before.
Proof.
  intros Hn HQ Hb Hs Hg He1 He2 He3. destruct r as [move_cs|e]; intros [= <-].
  - by apply outcome_called; [| apply HQ| | |].
  - apply outcome_failed; [by apply He1|by rewrite He2|by apply He3].
Qed.

Lemma publish_inv {A} Q payer cost (call : PublishCall A) what payload before :
  native_call tx = None → (∀ m b a g t h p cs, call m b a g t h p = Ok cs → Q cs) →
  publish sha3_256 to_uppercase call what state tx timestamp persist payload context_of = (before, Ok tt) →
  outcome Q payer cost before.
Proof.
  intros Hn HQ H. unfold publish in H. step_ok H.
  eapply (merge_call_inv Q payer cost _ _ _ _ _ Hn); try apply H; try done; [|by left]. intros cs. apply HQ.
Qed.

Lemma call_entry_function_inv Q payer cost module function type_args args before :
  native_call tx = None → answers Q →
  call_entry_function sha3_256 to_uppercase runtime state tx payer timestamp persist ov module function type_args args
    context_of = (before, Ok tt) →
  outcome Q payer cost before.
Proof.
  intros Hn HQ H. unfold call_entry_function in H.
  destruct (split_colons module) as [|a [|n [|? ?]]]; try done.
  step_ok H. step_ok H. step_ok H. step_ok H.
  eapply (merge_call_inv Q payer cost _ _ _ _ _ Hn); try apply H; try done; [|by right]. intros cs. by apply answers_function.
Qed.

Lemma settle_native_inv Q payer cost used op cs :
  match op context_of with
  | (cs', Ok _) => outcome Q payer cost cs' ∧ cs_gas_used cs' = 0
  | (cs', Err _) => cs' = context_of
  end →
  used = gas_units (gas_operation tx) →
  settle_native state payer cost used op context_of = (cs, Ok tt) → settled Q payer cost used cs.
Proof.
  intros Hop Hu H. unfold settle_native in H. apply st_bind_inv in H as (cs1 & [] & H1 & H2).
  destruct (op context_of) as [cs' [u|e]].
  - injection H1 as <-. destruct Hop as [Hop Hg].
    apply (settled_intro _ _ _ _ cs'); [done|by rewrite charged_base|done].
  - subst cs'. apply (f_equal fst) in H1. cbn [fst] in H1. subst cs1.
    eapply (settled_intro _ _ _ _ _ _); [| |exact H2]; [by apply outcome_failed; [| |left]|by rewrite charged_base].
Qed.

(** The price of the gas used, within limit and machine range. *)
Definition priced (cost used : Z) : Prop :=
  0 ≤ used ≤ gas_limit tx ∧ cost = TxGas.saturating_mul used (effective_gas_price (gas_price tx)).

Lemma settle_call_inv Q payer before cs :
  (∀ cost, outcome Q payer cost before) →
  settle_call state tx payer (gas_units (gas_operation tx)) before = (cs, Ok tt) →
  ∃ cost used, priced cost used ∧ settled Q payer cost used cs.
Proof.
  intros Ho H. pose proof base_units_nonneg as Hb. unfold settle_call in H. step_ok H. step_ok H. step_ok H.
  apply ensure_ok in E. apply require_ok in E0.
  eexists _, _. split; [|by eapply settled_intro; [apply Ho| |exact H]].
  unfold checked_mul in E0. destruct (_ <=? u64_max) eqn:Em; [|done]. injection E0 as <-.
  split; [lia|]. unfold TxGas.saturating_mul. lia.
Qed.

Lemma run_transaction_inv Q payer meter cs :
  typed_view state → answers Q → priced (TxGas.total_cost meter) (TxGas.gas_used meter) →
  0 ≤ TxGas.total_cost meter → TxGas.gas_used meter = gas_units (gas_operation tx) →
  run_transaction sha3_256 to_uppercase runtime state tx payer timestamp persist ov meter context_of = (cs, Ok tt) →
  ∃ cost used, priced cost used ∧ settled Q payer cost used cs.
Proof.
  intros Hv HQ Hp Hc Hu H. unfold run_transaction in H. rewrite !Hu in H. rewrite Hu in Hp.
  assert (Hcall : ∀ m : st ChangeSet unit, native_call tx = None →
    (∀ before cost, m context_of = (before, Ok tt) → outcome Q payer cost before) →
    (m ≫= λ _, settle_call state tx payer (gas_units (gas_operation tx))) context_of = (cs, Ok tt) →
    ∃ cost used, priced cost used ∧ settled Q payer cost used cs).
  { intros m _ Hm (before & [] & H1 & H2)%st_bind_inv.
    eapply settle_call_inv; [|exact H2]. intros cost. by apply Hm. }
  destruct tx as [c b n|c ms|c b n|c ms|c module function type_args args inputs] eqn:Etx; rewrite <- Etx in *.
  - apply Hcall in H; [done|by rewrite Etx|]. intros before cost Hb. eapply publish_inv; [by rewrite Etx| |exact Hb].
    intros * Hr. by eapply answers_publish.
  - apply Hcall in H; [done|by rewrite Etx|]. intros before cost Hb. eapply publish_inv; [by rewrite Etx| |exact Hb].
    intros * Hr. by eapply answers_publish_package.
  - apply Hcall in H; [done|by rewrite Etx|]. intros before cost Hb. eapply publish_inv; [by rewrite Etx| |exact Hb].
    intros * Hr. by eapply answers_upgrade.
  - apply Hcall in H; [done|by rewrite Etx|]. intros before cost Hb. eapply publish_inv; [by rewrite Etx| |exact Hb].
    intros * Hr. by eapply answers_upgrade_package.
  - destruct (native_call tx) as [[coin recipient amount|amount]|] eqn:En.
    + exists (TxGas.total_cost meter), (gas_units (gas_operation tx)). split; [done|].
      eapply settle_native_inv; [|reflexivity|exact H].
      pose proof (native_transfer_outcome state tx payer coin recipient amount
        (TxGas.total_cost meter) context_of Hv) as Ht.
      destruct (execute_backend_native_transfer _ _ _ _ _ _ _ _ _ _) as [cs' [u|e]]; [|done].
      destruct Ht as (Ha & to & gas_ref & g & gb & Hto & _ & _ & _ & _ & Htr).
      split; [by eapply outcome_transferred|by destruct Htr].
    + exists (TxGas.total_cost meter), (gas_units (gas_operation tx)). split; [done|].
      eapply settle_native_inv; [|reflexivity|exact H].
      pose proof (native_burn_outcome state tx payer amount (TxGas.total_cost meter) context_of Hv Hc) as Ht.
      destruct (execute_backend_native_burn _ _ _ _ _ _) as [cs' [u|e]]; [|done].
      destruct Ht as (Ha & gas_ref & Hg & Hb).
      split; [by eapply outcome_burnt|by destruct Hb].
    + apply Hcall in H; [done|done|]. intros before cost Hb. by eapply call_entry_function_inv.
Qed.
End Run.
End Native.

(** ** What the change set of an execution says *)

Lemma delta_of_blank cs a : blank cs → delta_of cs a = 0.
Proof. intros (E & _). unfold delta_of. by rewrite E. Qed.
Lemma supply_delta_blank cs : blank cs → supply_delta cs = 0.
Proof. intros (E & _). unfold supply_delta. by rewrite E, map_to_list_empty. Qed.

Lemma supply_delta_ext (cs1 cs2 : ChangeSet) :
  (∀ k, balance_delta <$> owner_deltas cs1 !! k = balance_delta <$> owner_deltas cs2 !! k) →
  supply_delta cs1 = supply_delta cs2.
Proof.
  intros H. unfold supply_delta.
  assert (E : ∀ m : gmap bytes OwnerDelta,
    map (λ e : bytes * OwnerDelta, balance_delta e.2) (map_to_list m) = (map_to_list (balance_delta <$> m)).*2).
  { intros m. rewrite map_to_list_fmap, <- list_fmap_compose. apply list_fmap_ext. by intros ? [? ?] _. }
  rewrite !E. do 3 f_equal. apply map_eq. intros k. rewrite !lookup_fmap. apply H.
Qed.

(** A change set merged into a blank one keeps its deltas and objects. *)
Lemma merge_blank base cs : blank base → bounded cs →
  (∀ a, delta_of (merge base cs) a = delta_of cs a) ∧ supply_delta (merge base cs) = supply_delta cs
  ∧ created_objects (merge base cs) = created_objects cs ∧ deleted_objects (merge base cs) = deleted_objects cs.
Proof.
  intros (Ed & _ & Ec & El) Hb.
  assert (H : ∀ k, balance_delta <$> owner_deltas (merge base cs) !! k = balance_delta <$> owner_deltas cs !! k).
  { intros k. cbn [merge owner_deltas]. rewrite upsert_btree, Ed, lookup_empty.
    specialize (Hb k). unfold delta_of in Hb. destruct (owner_deltas cs !! k) as [d|]; [|done].
    cbn. rewrite i128_saturating_id; [done|]. cbn. lia. }
  split_and!.
  - intros a. specialize (H a). unfold delta_of.
    destruct (owner_deltas (merge base cs) !! a), (owner_deltas cs !! a); cbn in H; congruence.
  - by apply supply_delta_ext.
  - cbn. by rewrite Ec.
  - cbn. by rewrite El.
Qed.

(** The reported changes are no effects. *)
Lemma explicit_effects l cs a :
  delta_of (set_explicit_object_changes l cs) a = delta_of cs a
  ∧ supply_delta (set_explicit_object_changes l cs) = supply_delta cs
  ∧ native_gas_credits (set_explicit_object_changes l cs) = native_gas_credits cs
  ∧ created_objects (set_explicit_object_changes l cs) = created_objects cs
  ∧ deleted_objects (set_explicit_object_changes l cs) = deleted_objects cs
  ∧ success (set_explicit_object_changes l cs) = success cs
  ∧ cs_gas_used (set_explicit_object_changes l cs) = cs_gas_used cs.
Proof. done. Qed.
Lemma charge_effects payer dao cost used cs :
  native_gas_credits (charge payer dao cost used cs) = add_credit (native_gas_credits cs) dao cost
  ∧ created_objects (charge payer dao cost used cs) = created_objects cs
  ∧ deleted_objects (charge payer dao cost used cs) = deleted_objects cs
  ∧ success (charge payer dao cost used cs) = success cs
  ∧ cs_gas_used (charge payer dao cost used cs) = used.
Proof. done. Qed.

(** The balance the objects of a change set give an owner. *)
Definition held (a : bytes) (objects : list (bytes * CreatedObject)) : Z :=
  zsum (map (λ e, at_ a (created_owner e.2) (default 0 (read_balance (data e.2)))) objects).

Section Effects.
Context {B3 : Blake3} {HX : Hex} {BC : Bcs} {SC : StateCodecs} {TT : TypeTags}.
Context (sha3_256 to_uppercase : bytes → bytes) (state : StateManager) (tx : Transaction).

Lemma context_moves (o : builder_op) : 0 ≤ op_amount o ≤ u64_max →
  (∀ a, delta_of (run_op o (context_of tx)) a = net a o)
  ∧ supply_delta (run_op o (context_of tx)) = issued o ∧ bounded (run_op o (context_of tx)).
Proof.
  intros Hn. destruct (run_op_moves o (context_of tx) 0) as [H1 H2];
    [done|lia|unfold i128_max; lia|intros a; by rewrite delta_of_blank|].
  assert (H3 : ∀ a, delta_of (run_op o (context_of tx)) a = net a o).
  { intros a. rewrite H1, delta_of_blank by done. lia. }
  split_and!; [done|by rewrite H2, supply_delta_blank by done|].
  intros a. rewrite H3. pose proof (net_bound a o Hn). lia.
Qed.

Lemma transferred_effect coin from to amount cs :
  typed_view state → 0 < amount → transferred state tx coin from to amount (context_of tx) cs →
  ∃ o b, native_coin state coin from o b ∧ amount ≤ b ∧ bounded cs ∧ supply_delta cs = 0
    ∧ deleted_objects cs = [] ∧ success cs = true ∧ native_gas_credits cs = ∅
    ∧ (∀ a, held a (created_objects cs) = at_ a from (b - amount) + at_ a to amount)
    ∧ ∀ a, delta_of cs a = if (amount =? b) then 0 else at_ a to amount - at_ a from amount.
Proof.
  intros Hv Ha Ht. destruct Ht as [o Ho|o b kept out Ho Hlt Hk Hout Hto].
  - exists o, amount. pose proof (native_coin_range _ _ _ _ _ Hv Ho) as Hr. pose proof Ho as (_ & _ & _ & Hb).
    split_and!; try done.
    + intros a. unfold held, zsum. cbn. rewrite Hb. unfold at_. cbn. repeat case_decide; lia.
    + intros a. by rewrite Z.eqb_refl.
  - pose proof (native_coin_range _ _ _ _ _ Hv Ho) as Hr. pose proof Ho as (_ & _ & Hfrom & Hb).
    destruct (context_moves (OpTransfer from to amount)) as (H1 & H2 & H3); [cbn; lia|]. cbn [run_op] in *.
    exists o, b. split_and!; try done; [lia| |].
    + intros a. unfold held, zsum. cbn [map push_created set_created_objects created_objects transfer update_owner_delta set_owner_deltas foldr app fst snd created_owner data with_data].
      cbn. rewrite Hk, Hout, Hfrom, Hto. unfold at_. cbn. repeat case_decide; lia.
    + intros a. destruct (Z.eqb_spec amount b); [lia|]. apply (H1 a).
Qed.

Lemma burnt_effect coin from amount cost cs :
  typed_view state → 0 < amount → 0 ≤ cost → burnt state coin from amount cost (context_of tx) cs →
  ∃ o b, native_coin state coin from o b ∧ amount + cost ≤ b ∧ bounded cs ∧ supply_delta cs = - amount
    ∧ success cs = true ∧ native_gas_credits cs = ∅
    ∧ (∀ a, delta_of cs a = - at_ a from amount)
    ∧ (if (b =? amount + cost) then created_objects cs = [] ∧ deleted_objects cs = [coin]
       else deleted_objects cs = [] ∧ ∀ a, held a (created_objects cs) = at_ a from (b - amount)).
Proof.
  intros Hv Ha Hc Ht. destruct Ht as [o Ho|o b kept Ho Hlt Hk];
    pose proof (native_coin_range _ _ _ _ _ Hv Ho) as Hr; pose proof Ho as (_ & _ & Hfrom & Hb);
    (destruct (context_moves (OpBurn from amount)) as (H1 & H2 & H3); [cbn; lia|]); cbn [run_op] in *.
  - exists o, (amount + cost). split_and!; try done. by rewrite Z.eqb_refl.
  - exists o, b. split_and!; try done; [lia|].
    destruct (Z.eqb_spec b (amount + cost)); [lia|]. split; [done|].
    intros a. unfold held, zsum. cbn. rewrite Hk, Hfrom. unfold at_. cbn. case_decide; lia.
Qed.
End Effects.

(** ** The theorems *)

Section Theorems.
Context {B3 : Blake3} {HX : Hex} {BC : Bcs} {SC : StateCodecs} {TT : TypeTags}.
Context (sha3_256 to_uppercase : bytes → bytes) (runtime : MoveRuntime).
(** The runtime answers with deltas of at most 100 bits. *)
Hypothesis runtime_bounded : answers runtime bounded.
Context (state : StateManager) (tx : Transaction) (timestamp : option Z) (persist : bool)
  (ov : option (gmap bytes (option bytes))).
Hypothesis state_typed : typed_view state.
Hypothesis tx_typed : is_u64 (gas_limit tx) ∧ is_u64 (gas_price tx).

Local Abbreviation execute :=
  (execute_transaction_with_runtime_overlay sha3_256 to_uppercase runtime state tx timestamp persist ov).
Local Abbreviation unit_price := (effective_gas_price (gas_price tx)).

Definition native_balance_of (a : bytes) : Z :=
  match resolve_owner_native_balance a state with Ok b => b | Err _ => 0 end.

Lemma unit_price_pos : 0 ≤ unit_price.
Proof. unfold effective_gas_price. destruct (_ =? _); lia. Qed.
Lemma native_balance_range a : 0 ≤ native_balance_of a ≤ u64_max.
Proof.
  unfold native_balance_of. destruct (resolve_owner_native_balance a state) eqn:E; [|unfold u64_max; lia].
  by apply (view_balances state state_typed a).
Qed.

Lemma meter_inv meter :
  TxGas.consume (gas_units (gas_operation tx)) (TxGas.new (gas_limit tx) unit_price) = Ok meter →
  TxGas.gas_used meter = gas_units (gas_operation tx) ∧ TxGas.gas_price meter = unit_price
  ∧ 0 ≤ TxGas.gas_used meter ≤ gas_limit tx.
Proof.
  unfold TxGas.consume. cbn [TxGas.gas_used TxGas.gas_limit TxGas.new]. unfold checked_add.
  destruct (_ <=? u64_max) eqn:E1; [|done]. destruct (_ <? _) eqn:E2; [done|].
  intros [= <-]. cbn [TxGas.gas_used TxGas.gas_price TxGas.new].
  assert (0 ≤ gas_units (gas_operation tx)) by (unfold gas_operation; destruct tx; cbn; try lia; case_match; cbn; lia).
  split_and!; [lia|done|lia|lia].
Qed.

(** An execution settles an outcome, at a price within the limit and the balance. *)
Lemma execute_inv cs : execute = Ok cs →
  ∃ payer cost used, account_address sha3_256 to_uppercase (sender_address tx) = Ok payer
    ∧ validate_transaction_object_access sha3_256 to_uppercase state tx payer = Ok tt
    ∧ settled sha3_256 to_uppercase state tx bounded payer cost used cs
    ∧ 0 ≤ used ≤ gas_limit tx ∧ 0 ≤ cost ≤ used * unit_price ∧ cost ≤ native_balance_of payer
    ∧ cost = Z.min (used * unit_price) (native_balance_of payer).
Proof.
  intros H. unfold execute_transaction_with_runtime_overlay in H. pose proof unit_price_pos as Hpos.
  destruct (account_address _ _ (sender_address tx)) as [payer|] eqn:Ep; [|done]. cbn [result_bind] in H.
  destruct (TxGas.consume _ _) as [meter|] eqn:Em; [|done]. cbn [result_bind] in H.
  apply meter_inv in Em as (Hu & Hprice & Hrange).
  destruct (require _ _) as [max|] eqn:Emax; [|done]. cbn [result_bind] in H. apply require_ok in Emax.
  unfold checked_mul in Emax. destruct (_ <=? u64_max) eqn:Emm; [|done]. injection Emax as <-.
  destruct (validate_transaction_object_access _ _ _ _ _) as [[]|] eqn:Ev; [|done]. cbn [result_bind] in H.
  fold (native_balance_of payer) in H. pose proof (native_balance_range payer) as Hbal.
  unfold build_changeset in H. rewrite modify_step in H. fold (context_of tx) in H.
  assert (Hcost : 0 ≤ TxGas.total_cost meter ≤ TxGas.gas_used meter * unit_price).
  { unfold TxGas.total_cost, TxGas.saturating_mul, u64_max. rewrite Hprice. nia. }
  assert (Hexact : TxGas.total_cost meter = TxGas.gas_used meter * unit_price).
  { unfold TxGas.total_cost, TxGas.saturating_mul. rewrite Hprice. apply Z.min_l. nia. }
  exists payer. destruct ((0 <? _) && _) eqn:Epoor.
  - rewrite modify_step in H.
    destruct ((apply_gas_and_sequence _ _ _ ≫= _) _) as [cs' [[]|]] eqn:Es; [|done]. injection H as <-.
    exists (Z.min (TxGas.total_cost meter) (native_balance_of payer)), (TxGas.gas_used meter).
    split_and!; try done; [|lia..].
    eapply settled_intro; [| |exact Es]; [by apply outcome_failed; [| |left]|by rewrite charged_base].
  - destruct (run_transaction _ _ _ _ _ _ _ _ _ _ _) as [cs' [[]|]] eqn:Er; [|done]. injection H as <-.
    apply (run_transaction_inv _ _ _ _ _ _ _ _ bounded) in Er as (cost & used & [Hused Hcs] & Hset); try done; [| |lia].
    2:{ split; [done|]. unfold TxGas.total_cost. by rewrite Hprice. }
    exists cost, used. subst cost. unfold TxGas.saturating_mul.
    assert (0 ≤ used * unit_price ≤ gas_limit tx * unit_price) by nia.
    split_and!; try done; try lia.
Qed.

Lemma outcome_bounded payer cost before : 0 ≤ cost → outcome sha3_256 to_uppercase state tx bounded payer cost before →
  bounded before.
Proof.
  intros Hc Ho. destruct Ho as [cs Hb _ _|base cs _ Hq Hb _ _|coin recipient amount to cs _ _ Ha Ht|amount gas_ref cs _ Ha _ Hb].
  - intros a. rewrite delta_of_blank by done. lia.
  - intros a. destruct (merge_blank base cs Hb Hq) as [E _]. rewrite E. apply Hq.
  - by apply transferred_effect in Ht as (o & b & _ & _ & H & _).
  - by apply burnt_effect in Hb as (o & b & _ & _ & H & _).
Qed.

Lemma settled_moves payer cost used cs : 0 ≤ cost ≤ u64_max →
  settled sha3_256 to_uppercase state tx bounded payer cost used cs →
  ∃ dao before, MoveAddress.from_hex_literal DAO_ADDRESS = Some dao
    ∧ outcome sha3_256 to_uppercase state tx bounded payer cost before
    ∧ (∀ a, delta_of cs a = delta_of before a - at_ a payer cost + at_ a dao cost)
    ∧ supply_delta cs = supply_delta before
    ∧ native_gas_credits cs !! dao = Some (gas_credit_of dao before + cost)
    ∧ created_objects cs = created_objects before ∧ deleted_objects cs = deleted_objects before
    ∧ success cs = success before ∧ cs_gas_used cs = used ∧ used = charged_units tx before.
Proof.
  intros Hc (before & dao & changes & Ho & Hu & Hd & Hg & ->).
  pose proof (outcome_bounded payer cost before (proj1 Hc) Ho) as Hb.
  destruct (charge_moves payer dao cost used before Hc Hb) as [H1 H2].
  exists dao, before. split_and!; try done.
  unfold charge, collect_gas, add_credit. cbn [native_gas_credits set_explicit_object_changes set_gas_used set_cs_gas_used set_native_gas_credits update_owner_delta set_owner_deltas].
  rewrite lookup_insert_eq. f_equal. unfold saturating_add. apply Z.min_l. exact Hg.
Qed.


(** C21: a native transfer conserves coins.  Either it fails and only gas moves,
    or the coin of the sender is divided exactly: the objects written give the
    recipient the amount and leave the sender the rest, the ledger deltas move
    the amount from one to the other (no ledger delta is recorded when the coin
    changes hands as a whole), and gas moves to the DAO; in all cases the supply
    stays. *)
Theorem native_transfer_conserves coin recipient amount cs :
  native_call tx = Some (NativeTransfer coin recipient amount) → execute = Ok cs →
  ∃ payer dao cost, account_address sha3_256 to_uppercase (sender_address tx) = Ok payer
    ∧ MoveAddress.from_hex_literal DAO_ADDRESS = Some dao ∧ 0 ≤ cost ≤ native_balance_of payer
    ∧ deleted_objects cs = [] ∧ supply_delta cs = 0 ∧ native_gas_credits cs !! dao = Some cost
    ∧ if success cs then ∃ to o b, account_address sha3_256 to_uppercase recipient = Ok to
          ∧ native_coin state coin payer o b ∧ 0 < amount ≤ b
          ∧ (∀ a, held a (created_objects cs) = at_ a payer (b - amount) + at_ a to amount)
          ∧ ∀ a, delta_of cs a = (if (amount =? b) then 0 else at_ a to amount - at_ a payer amount)
                                 - at_ a payer cost + at_ a dao cost
      else created_objects cs = [] ∧ ∀ a, delta_of cs a = at_ a dao cost - at_ a payer cost.
Proof.
  intros Hn (payer & cost & used & Hp & _ & Hs & Hu & Hc & Hb)%execute_inv.
  pose proof (native_balance_range payer) as Hr.
  apply settled_moves in Hs as (dao & before & Hd & Ho & H1 & H2 & H3 & H4 & H5 & H6 & H7); [|lia].
  exists payer, dao, cost. rewrite H2, H4, H5, H6.
  destruct Ho as [before Hbl Hf|base mcs E|c2 r2 a2 to before E Hto Ha Ht|a2 g2 before E]; try congruence.
  - rewrite Hf. pose proof Hbl as (_ & Hcr & -> & ->). unfold gas_credit_of in H3. rewrite Hcr, lookup_empty in H3.
    split_and!; try done; try lia; [by apply supply_delta_blank|].
    intros a. rewrite H1, delta_of_blank by done. lia.
  - rewrite Hn in E. injection E as <- <- <-.
    apply transferred_effect in Ht as (o & b & Hcoin & Hle & _ & Hsup & Hdel & Hsuc & Hcr & Hheld & Hdelta); [|done|done].
    unfold gas_credit_of in H3. rewrite Hcr, lookup_empty in H3. rewrite Hsuc, Hdel, Hsup.
    split_and!; try done; try lia. exists to, o, b. split_and!; try done; try lia. intros a. by rewrite H1, Hdelta.
Qed.

(** A native burn destroys exactly its amount: either it fails and only gas
    moves, or the supply shrinks by the amount, the sender is debited it, and the
    coin keeps the rest (the gas is taken from it when the change set is applied),
    or disappears when burn and gas use it up. *)
Theorem native_burn_exact amount cs :
  native_call tx = Some (NativeBurn amount) → execute = Ok cs →
  ∃ payer dao cost, account_address sha3_256 to_uppercase (sender_address tx) = Ok payer
    ∧ MoveAddress.from_hex_literal DAO_ADDRESS = Some dao ∧ 0 ≤ cost ≤ native_balance_of payer
    ∧ if success cs then ∃ gas_ref o b, gas_object_ref "Native burn" tx = Ok gas_ref
          ∧ native_coin state (object_id gas_ref) payer o b ∧ 0 < amount ∧ amount + cost ≤ b
          ∧ supply_delta cs = - amount
          ∧ (∀ a, delta_of cs a = at_ a dao cost - at_ a payer cost - at_ a payer amount)
          ∧ (if (b =? amount + cost)
             then created_objects cs = [] ∧ deleted_objects cs = [object_id gas_ref]
             else deleted_objects cs = [] ∧ ∀ a, held a (created_objects cs) = at_ a payer (b - amount))
      else created_objects cs = [] ∧ deleted_objects cs = [] ∧ supply_delta cs = 0
           ∧ ∀ a, delta_of cs a = at_ a dao cost - at_ a payer cost.
Proof.
  intros Hn (payer & cost & used & Hp & _ & Hs & Hu & Hc & Hb)%execute_inv.
  pose proof (native_balance_range payer) as Hr.
  apply settled_moves in Hs as (dao & before & Hd & Ho & H1 & H2 & _ & H4 & H5 & H6 & H7); [|lia].
  exists payer, dao, cost. rewrite H2, H4, H5, H6.
  destruct Ho as [before Hbl Hf|base mcs E|c2 r2 a2 to before E|a2 g2 before E Ha Hg Ht]; try congruence.
  - rewrite Hf. pose proof Hbl as (_ & _ & -> & ->).
    split_and!; try done; try lia; [by apply supply_delta_blank|].
    intros a. rewrite H1, delta_of_blank by done. lia.
  - rewrite Hn in E. injection E as <-.
    apply burnt_effect in Ht as (o & b & Hcoin & Hle & _ & Hsup & Hsuc & _ & Hdelta & Hobj); [|done|done|lia].
    rewrite Hsuc, Hsup. split_and!; try done; try lia. exists g2, o, b. split_and!; try done.
    intros a. rewrite H1, Hdelta. lia.
Qed.

(** The units and the cost of a failing transaction. *)
Definition failure_units : Z := Z.min (gas_units (gas_operation tx)) (gas_limit tx).
Definition failure_cost (payer error_message : bytes) : Z :=
  if existsb (λ marker, contains marker error_message) RACE_MARKERS then 0
  else Z.min (failure_units * unit_price) (native_balance_of payer).

End Theorems.

(** ** Access validation *)

Lemma try_map_ok {A B} (f : A → result B) (l : list A) :
  (∃ ys, try_map f l = Ok ys) ↔ Forall (λ x, ∃ y, f x = Ok y) l.
Proof.
  induction l as [|x l IH]; [split; [by constructor|by exists []]|]. cbn [try_map].
  rewrite Forall_cons, <- IH. destruct (f x) as [y|e]; cbn [result_bind].
  - split.
    + intros [ys H]. split; [by exists y|]. destruct (try_map f l) as [zs|]; [by exists zs|done].
    + intros [_ [zs ->]]. by exists (y :: zs).
  - split; [by intros [? ?]|by intros [[? ?] _]].
Qed.

Lemma ensure_bind {A} b msg (k : unit → result A) r :
  result_bind (ensure b msg) k = Ok r ↔ b = true ∧ k tt = Ok r.
Proof. destruct b; cbn; split; try done; by intros []. Qed.
Lemma require_bind {A B} (o : option A) msg (k : A → result B) r :
  result_bind (require o msg) k = Ok r ↔ ∃ a, o = Some a ∧ k a = Ok r.
Proof. destruct o; cbn; split; try done; [eauto|by intros (? & [= ->] & ?)|by intros (? & ? & ?)]. Qed.
Lemma ok_bind {A B} (e : result A) (k : A → result B) r :
  result_bind e k = Ok r ↔ ∃ a, e = Ok a ∧ k a = Ok r.
Proof. destruct e; cbn; split; try done; [eauto|by intros (? & [= ->] & ?)|by intros (? & ? & ?)]. Qed.
Lemma matches_declared_full {A} `{EqDecision A} (d : option A) (v : A) :
  is_none d = false → matches_declared d v = true ↔ d = Some v.
Proof. destruct d as [x|]; [|done]. intros _. cbn. rewrite bool_decide_eq_true. split; congruence. Qed.

Section Access.
Context {B3 : Blake3} {HX : Hex} {BC : Bcs} {SC : StateCodecs} {TT : TypeTags}.
Context (sha3_256 to_uppercase : bytes → bytes) (state : StateManager).
Local Abbreviation account_address := (account_address sha3_256 to_uppercase).

(** The reference is exact: the object exists with that version and digest. *)
Definition references (r : ObjectRef) (o : CreatedObject) : Prop :=
  get_object (object_id r) state = Ok (Some o)
  ∧ version r = Some (created_version o) ∧ ref_digest r = Some (object_digest o).

(** The declared ownership is the recorded one. *)
Definition owned_as (k : ObjectOwnerKind) (o : CreatedObject) : Prop :=
  match k with
  | AddressOwner w => (∃ x, owner_kind o = AddressOwner x) ∧ account_address w = Ok (created_owner o)
  | Shared => owner_kind o = Shared
  | Immutable => owner_kind o = Immutable
  end.

Definition input_valid (i : ObjectInput) : Prop :=
  ∃ k o, input_owner i = Some k ∧ (k = Immutable → mutable i = false)
    ∧ references (object_ref i) o ∧ owned_as k o.
Definition payment_valid (payer : bytes) (inputs : list ObjectInput) (r : ObjectRef) : Prop :=
  ∃ o, references r o ∧ is_native_gas_coin_type (type_ o) = true ∧ created_owner o = payer
    ∧ Forall (λ i, mutable i = true → object_id (object_ref i) ≠ object_id r) inputs.

Lemma full_metadata r : has_full_metadata r = true ↔ is_none (version r) = false ∧ is_none (ref_digest r) = false.
Proof. unfold has_full_metadata. destruct (version r), (ref_digest r); cbn; intuition congruence. Qed.

Lemma validate_input_exact i :
  validate_object_input sha3_256 to_uppercase state true i = Ok tt ↔ input_valid i.
Proof.
  unfold validate_object_input, input_valid, references. cbv zeta. split.
  - intros H. apply ok_bind in H as ([] & Hm & H). apply ensure_bind in Hm as [Hm Ho%ensure_ok].
    apply full_metadata in Hm as [Hm1 Hm2]. apply ensure_bind in H as [Hi H].
    apply ok_bind in H as (found & Hg & H). apply require_bind in H as (o & -> & H).
    apply ensure_bind in H as [Hv H]. apply ensure_bind in H as [Hd Hk].
    destruct (input_owner i) as [k|] eqn:Ek; [|done]. exists k, o.
    apply matches_declared_full in Hv; [|done]. apply matches_declared_full in Hd; [|done].
    split_and!; try done.
    + intros ->. unfold is_immutable in Hi. rewrite Ek in Hi. by destruct (mutable i).
    + destruct k as [w| |]; cbn in Hk |- *.
      * rewrite ensure_bind, ok_bind in Hk. destruct Hk as (Hkind & a & Ha & He%ensure_ok%bool_decide_eq_true).
        split; [destruct (owner_kind o); eauto; done|by rewrite He].
      * apply ensure_ok in Hk. by destruct (owner_kind o).
      * apply ensure_ok in Hk. by destruct (owner_kind o).
  - intros (k & o & Ek & Him & (Hg & Hv & Hd) & Hown).
    assert (Hi : negb (is_immutable i && mutable i) = true).
    { unfold is_immutable. rewrite Ek. destruct k; try done. by rewrite Him. }
    unfold has_full_metadata. rewrite Hi, Hv, Hd, Ek. cbn [ensure result_bind is_none negb]. rewrite Hg.
    cbn [result_bind require matches_declared]. rewrite !bool_decide_true by done. cbn [ensure result_bind].
    destruct k as [w| |]; cbn in Hown |- *; [|by rewrite Hown..].
    destruct Hown as [[x ->] Ha]. cbn. rewrite Ha. cbn. by rewrite bool_decide_true.
Qed.

Lemma validate_payment_exact payer inputs r :
  validate_payment_object state true
    (list_to_set (map (λ i, object_id (object_ref i)) (List.filter mutable inputs))) payer r = Ok tt
  ↔ payment_valid payer inputs r.
Proof.
  unfold validate_payment_object, payment_valid, references. cbv zeta.
  assert (Hmut : ∀ id, ensure (negb (bool_decide (id ∈ (list_to_set (map (λ i, object_id (object_ref i))
      (List.filter mutable inputs)) : gset bytes)))) ("Gas payment object " +:+ text id +:+
      " cannot overlap with a mutable object input") = Ok tt
    ↔ Forall (λ i, mutable i = true → object_id (object_ref i) ≠ id) inputs).
  { intros id. rewrite Forall_forall. unfold ensure.
    destruct (bool_decide (id ∈ _)) eqn:Eb; cbn [negb].
    - apply bool_decide_eq_true in Eb. split; [done|]. intros H. exfalso.
      apply elem_of_list_to_set, list_elem_of_fmap in Eb as (i & -> & Hi%list_elem_of_In%filter_In).
      destruct Hi as [Hi Hm]. by apply (H i); [apply list_elem_of_In| |].
    - apply bool_decide_eq_false in Eb. split; [|done]. intros _ i Hi Hm <-. apply Eb.
      apply elem_of_list_to_set, list_elem_of_fmap. exists i. split; [done|].
      apply list_elem_of_In, filter_In. split; [by apply list_elem_of_In|done]. }
  split.
  - intros H. apply ok_bind in H as ([] & Hm%ensure_ok & H). apply full_metadata in Hm as [Hm1 Hm2].
    apply ok_bind in H as (found & Hg & H). apply require_bind in H as (o & -> & H).
    apply ensure_bind in H as [Ht H]. apply ensure_bind in H as [Ho%bool_decide_eq_true H].
    apply ensure_bind in H as [Hv H]. apply ensure_bind in H as [Hd Hmu]. exists o.
    apply matches_declared_full in Hv; [|done]. apply matches_declared_full in Hd; [|done].
    split_and!; try done. by apply Hmut.
  - intros (o & (Hg & Hv & Hd) & Ht & Ho & Hmu). unfold has_full_metadata. rewrite Hv, Hd, Hg.
    cbn [ensure result_bind require matches_declared]. rewrite Ht, !bool_decide_true by done.
    cbn [ensure result_bind]. by apply Hmut.
Qed.

(** C22: access validation is exact.  A transaction passes if and only if every
    declared input exists with the declared version, digest and ownership (an
    immutable one is not declared mutable), and the gas payment, if there is one,
    is owned by the sender and names at least one coin, each an existing native
    coin of the sender with the declared version and digest and none of them a
    mutable input. *)
Theorem access_validation_exact tx payer :
  validate_transaction_object_access sha3_256 to_uppercase state tx payer = Ok tt ↔
  Forall input_valid (object_inputs tx)
  ∧ match gas_payment tx with
    | None => True
    | Some g => account_address (payment_owner g) = Ok payer ∧ payment_objects g ≠ []
                ∧ Forall (payment_valid payer (object_inputs tx)) (payment_objects g)
    end.
Proof.
  assert (Hall : ∀ (A : Type) (f : A → result unit) l,
    (∃ ys, try_map f l = Ok ys) ↔ Forall (λ x, f x = Ok tt) l).
  { intros A f l. rewrite try_map_ok. split; intros H; (eapply Forall_impl; [exact H|]); cbn; eauto. by intros x [[] ?]. }
  unfold validate_transaction_object_access.
  replace (requires_strict_object_metadata tx) with true by (by destruct tx). cbv zeta.
  assert (Hin : Forall input_valid (object_inputs tx)
    ↔ Forall (λ i, validate_object_input sha3_256 to_uppercase state true i = Ok tt) (object_inputs tx)).
  { split; intros H; (eapply Forall_impl; [exact H|]); intros i; apply validate_input_exact. }
  rewrite Hin, <- Hall. split.
  - intros H. apply ok_bind in H as (ys & Hys & H). split; [by exists ys|].
    destruct (gas_payment tx) as [g|]; [|done]. apply ok_bind in H as (owner & Ho & H).
    apply ensure_bind in H as [->%bool_decide_eq_true H]. apply ensure_bind in H as [Hne H].
    apply ok_bind in H as (zs & Hzs & _). split_and!; [done|by destruct (payment_objects g)|].
    assert (Hf : ∃ ys, try_map (validate_payment_object state true (list_to_set (map (λ i, object_id (object_ref i))
      (List.filter mutable (object_inputs tx)))) payer) (payment_objects g) = Ok ys) by (by exists zs).
    rewrite Hall in Hf. eapply Forall_impl; [exact Hf|]. intros r. apply validate_payment_exact.
  - intros [[ys Hys] H]. rewrite Hys. cbn [result_bind]. destruct (gas_payment tx) as [g|]; [|done].
    destruct H as (Ho & Hne & Hf). rewrite Ho. cbn [result_bind]. rewrite bool_decide_true by done. cbn [ensure result_bind].
    replace (negb (list_empty (payment_objects g))) with true by (by destruct (payment_objects g)). cbn [ensure result_bind].
    assert (Hz : ∃ ys, try_map (validate_payment_object state true (list_to_set (map (λ i, object_id (object_ref i))
      (List.filter mutable (object_inputs tx)))) payer) (payment_objects g) = Ok ys).
    { rewrite Hall. eapply Forall_impl; [exact Hf|]. intros r. apply validate_payment_exact. }
    destruct Hz as [zs Hz]. by rewrite Hz.
Qed.
End Access.
