(* ===== verification/ExecutionRuns.v ===== *)
(** * Runs of the executor of one transaction, and two of its defects

    Concrete states and transactions on which the theorems of
    [ExecutionTheorems] apply; a failing transaction that pays no gas because it
    names an object after a race marker; and a transaction that passes admission
    but has neither a result nor a failure result. *)

From stdpp Require Import base list gmap strings.
From Stdlib Require Import ZArith Lia.
From S2P Require Import Prelude Order Hashing Text Address GasCoin Transaction TypesTheorems Mempool ChangeSet ChangeSetTheorems StateManager StateSupply StateRecords TypeArgs Execution ExecutionTheorems.
Local Open Scope Z_scope.

Module Runs.
Import ToyHash RealHex RunBcs ToyCodecs.

(** The name of the native coin parses to its struct tag. *)
#[export] Instance coin_types : TypeTags := {|
  struct_from_str n :=
    if decide (n = coin_type GAS_COIN) then
      Some {| tag_module := COIN_MODULE; tag_name := COIN_STRUCT; type_params := [TStruct GAS_COIN] |}
    else None;
  type_from_str n := if decide (n = GAS_COIN) then Some (TStruct GAS_COIN) else None
|}.

Definition account (b : Z) : bytes := replicate 31 0 ++ [b].
Definition alice : bytes := account 161.
Definition bob : bytes := account 178.

Definition coin_object (id : bytes) (n : Z) : StoredObject :=
  {| stored_id := id; stored_owner := alice; stored_owner_kind := AddressOwner (str "0xa1");
     type_name := coin_type GAS_COIN; stored_data := replicate 32 0 ++ u64_to_le 8 n; stored_version := 3 |}.
Definition coin_id : bytes := str "0xc0".
Definition gas_id : bytes := str "0x9a".
Definition alice_owner : OwnerState := set_token_balance_value GAS_COIN 10000 (owner_new alice).

Definition objects_store : gmap bytes bytes :=
  <[StateManager.object_key coin_id := enc object_codec (coin_object coin_id 500)]>
  (<[StateManager.object_key gas_id := enc object_codec (coin_object gas_id 400)]> ∅).
Definition funded : StateManager :=
  {| store := <[owner_state_key alice := enc owner_codec alice_owner]> objects_store;
     overlay := ∅; total_supply := 10000; global_token_supplies := ∅;
     access_versions := ∅; access_epoch := 0 |}.

(** A runtime whose calls do nothing. *)
Definition idle : MoveRuntime :=
  {| publish_module_with_context_and_persistence _ _ _ _ _ _ _ := Ok changeset_new;
     upgrade_module_with_context_and_persistence _ _ _ _ _ _ _ := Ok changeset_new;
     publish_package_with_context_and_persistence _ _ _ _ _ _ _ := Ok changeset_new;
     upgrade_package_with_context_and_persistence _ _ _ _ _ _ _ := Ok changeset_new;
     execute_entry_function_with_object_context_and_persistence _ _ _ _ _ _ := Ok changeset_new |}.

Lemma idle_bounded : answers idle bounded.
Proof. split; intros * [= <-] a; rewrite delta_of_blank by done; lia. Qed.

Lemma objects_of_funded id o : get_object id funded = Ok (Some o) → bytes_ok (data o).
Proof.
  unfold get_object, load_stored_object_by_any_id.
  assert (Hload : ∀ k r, load_internal object_codec (StateManager.object_key k) funded = Ok (Some r) →
    bytes_ok (stored_data r)).
  { intros k r. unfold load_internal, view. cbn [overlay store funded]. rewrite lookup_empty.
    rewrite lookup_insert_ne by done. unfold objects_store.
    destruct (decide (k = coin_id)) as [->|H1].
    { rewrite lookup_insert_eq. intros E. vm_compute in E. injection E as <-. cbn [stored_data].
      repeat constructor; lia. }
    rewrite lookup_insert_ne by (intros E; apply H1; by apply (inj (app (str "object:"))) in E).
    destruct (decide (k = gas_id)) as [->|H2].
    { rewrite lookup_insert_eq. intros E. vm_compute in E. injection E as <-. cbn [stored_data].
      repeat constructor; lia. }
    rewrite lookup_insert_ne by (intros E; apply H2; by apply (inj (app (str "object:"))) in E).
    by rewrite lookup_empty. }
  assert (Hloop : ∀ ids p, load_first_object ids funded = Ok (Some p) → bytes_ok (stored_data p.2)).
  { induction ids as [|k ids IH]; intros p H; [done|]. cbn [load_first_object] in H.
    destruct (load_internal object_codec (StateManager.object_key k) funded) as [[r|]|] eqn:E; try done.
    - injection H as <-. by apply (Hload k).
    - by apply IH. }
  intros H. destruct (load_first_object (object_lookup_ids id) funded) as [[[sid r]|]|] eqn:E; try done.
  injection H as <-. cbn [data]. by apply (Hloop _ (sid, r) E).
Qed.

Lemma funded_typed : typed_view funded.
Proof.
  split; [exact objects_of_funded|]. intros a b H.
  assert (Ho : get_owned_objects a funded = Ok []).
  { unfold get_owned_objects, load_internal, view. cbn [overlay store funded].
    rewrite lookup_empty, lookup_insert_ne by done. unfold objects_store.
    by rewrite !lookup_insert_ne, lookup_empty by done. }
  unfold resolve_owner_native_balance, resolve_owner_token_balance, resolve_owner_token_balances in H.
  unfold compute_owned_token_balances in H. rewrite Ho in H. cbn [result_bind owned_balances_loop] in H.
  destruct (decide (a = alice)) as [->|Ha].
  - replace (load_owner_state alice funded) with (Ok (Some alice_owner) : result (option OwnerState)) in H
      by (vm_compute; reflexivity).
    vm_compute in H. injection H as <-. unfold u64_max. lia.
  - assert (El : load_owner_state a funded = Ok None).
    { unfold load_owner_state, load_internal, view. cbn [overlay store funded].
      rewrite lookup_empty, lookup_insert_ne by (intros E; apply Ha; by apply (inj (app (str "account:"))) in E).
      unfold objects_store. by rewrite !lookup_insert_ne, lookup_empty by done. }
    rewrite El in H. vm_compute in H. injection H as <-. unfold u64_max. lia.
Qed.

Definition ref_of (id : bytes) (n : Z) : ObjectRef :=
  {| object_id := id; version := Some 3;
     ref_digest := Some (str "0x" ++ hex_encode (hash_data_blake3_array (replicate 32 0 ++ u64_to_le 8 n))) |}.
Definition common_of (price : Z) : TxCommon :=
  {| tx_sender := str "0xa1";
     tx_gas_payment := Some {| payment_objects := [ref_of gas_id 400]; payment_owner := str "0xa1";
                               budget := 1000; Transaction.price := price |};
     tx_gas_limit := 1000; tx_gas_price := price; tx_nonce := 1 |}.
Definition pay_bob (amount : Z) : Transaction :=
  ExecuteFunction (common_of 5) module_path fn_transfer [] [account 192; RunBcs.le_bytes 8 amount; bob]
    [{| object_ref := ref_of coin_id 500; input_owner := Some (AddressOwner (str "0xa1")); mutable := true |}].

Lemma pay_bob_typed amount : is_u64 (gas_limit (pay_bob amount)) ∧ is_u64 (gas_price (pay_bob amount)).
Proof. unfold is_u64, u64_max. cbn. lia. Qed.

Definition executed (tx : Transaction) : result ChangeSet :=
  execute_transaction_with_runtime_overlay id id idle funded tx (Some 7) false None.
Definition paid : ChangeSet := match executed (pay_bob 200) with Ok cs => cs | Err _ => changeset_new end.
Lemma executed_paid : executed (pay_bob 200) = Ok paid.
Proof. vm_compute. reflexivity. Qed.

(** 200 of the 500 Mist move to Bob, 100 Mist of gas to the DAO. *)
Lemma paid_facts : success paid = true ∧ cs_gas_used paid = 100
  ∧ delta_of paid alice = -300 ∧ delta_of paid bob = 200
  ∧ held alice (created_objects paid) = 300 ∧ held bob (created_objects paid) = 200.
Proof. vm_compute. repeat split; reflexivity. Qed.


Lemma native_transfer_conserves_witness :
  ∃ payer dao cost, account_address id id (sender_address (pay_bob 200)) = Ok payer
    ∧ MoveAddress.from_hex_literal DAO_ADDRESS = Some dao ∧ 0 ≤ cost ≤ native_balance_of funded payer
    ∧ deleted_objects paid = [] ∧ supply_delta paid = 0 ∧ native_gas_credits paid !! dao = Some cost
    ∧ if success paid then ∃ to o b, account_address id id (str "0xb2") = Ok to
          ∧ native_coin funded coin_id payer o b ∧ 0 < 200 ≤ b
          ∧ (∀ a, held a (created_objects paid) = at_ a payer (b - 200) + at_ a to 200)
          ∧ ∀ a, delta_of paid a = (if (200 =? b) then 0 else at_ a to 200 - at_ a payer 200)
                                   - at_ a payer cost + at_ a dao cost
      else created_objects paid = [] ∧ ∀ a, delta_of paid a = at_ a dao cost - at_ a payer cost.
Proof.
  assert (Hn : native_call (pay_bob 200) = Some (NativeTransfer coin_id (str "0xb2") 200)) by (vm_compute; reflexivity).
  exact (native_transfer_conserves id id idle idle_bounded funded (pay_bob 200) (Some 7) false None
    funded_typed (pay_bob_typed 200) coin_id (str "0xb2") 200 paid Hn executed_paid).
Defined.

Definition burn_tx (amount : Z) : Transaction :=
  ExecuteFunction (common_of 5) module_path fn_burn [] [RunBcs.le_bytes 8 amount] [].
Definition burned : ChangeSet := match executed (burn_tx 300) with Ok cs => cs | Err _ => changeset_new end.
(** A burn that uses up the coin together with its gas. *)
Lemma native_burn_exact_witness :
  ∃ payer dao cost, account_address id id (sender_address (burn_tx 300)) = Ok payer
    ∧ MoveAddress.from_hex_literal DAO_ADDRESS = Some dao ∧ 0 ≤ cost ≤ native_balance_of funded payer
    ∧ if success burned then ∃ gas_ref o b, gas_object_ref "Native burn" (burn_tx 300) = Ok gas_ref
          ∧ native_coin funded (object_id gas_ref) payer o b ∧ 0 < 300 ∧ 300 + cost ≤ b
          ∧ supply_delta burned = - 300
          ∧ (∀ a, delta_of burned a = at_ a dao cost - at_ a payer cost - at_ a payer 300)
          ∧ (if (b =? 300 + cost)
             then created_objects burned = [] ∧ deleted_objects burned = [object_id gas_ref]
             else deleted_objects burned = [] ∧ ∀ a, held a (created_objects burned) = at_ a payer (b - 300))
      else created_objects burned = [] ∧ deleted_objects burned = [] ∧ supply_delta burned = 0
           ∧ ∀ a, delta_of burned a = at_ a dao cost - at_ a payer cost.
Proof.
  assert (Hn : native_call (burn_tx 300) = Some (NativeBurn 300)) by (vm_compute; reflexivity).
  assert (He : executed (burn_tx 300) = Ok burned) by (vm_compute; reflexivity).
  exact (native_burn_exact id id idle idle_bounded funded (burn_tx 300) (Some 7) false None
    funded_typed (pay_bob_typed 300) 300 burned Hn He).
Defined.
Lemma burned_facts : success burned = true ∧ deleted_objects burned = [gas_id] ∧ supply_delta burned = -300.
Proof. vm_compute. repeat split; reflexivity. Qed.

Definition dao : bytes := default [] (MoveAddress.from_hex_literal DAO_ADDRESS).

(** *** A failure that costs nothing

    The markers of lost races are searched in the whole message, and the message
    of a missing object quotes the id the sender chose. *)

Definition forged_id : bytes := str "Object version mismatch for".
Definition forged : Transaction :=
  ExecuteFunction (common_of 5) module_path fn_transfer [] []
    [{| object_ref := ref_of forged_id 1; input_owner := Some (AddressOwner (str "0xa1")); mutable := true |}].

Definition forged_message : string := "Referenced object " +:+ text forged_id +:+ " does not exist".
Definition forged_failure : ChangeSet :=
  match failed_changeset_for_error id id funded forged (str forged_message) with Ok cs => cs | Err _ => changeset_new end.

(** The transaction fails, although nothing changed concurrently, and is not
    charged; with any other unknown id the same transaction pays 210 Mist. *)
Theorem forged_race_is_free :
  executed forged = Err forged_message
  ∧ failed_changeset_for_error id id funded forged (str forged_message) = Ok forged_failure
  ∧ delta_of forged_failure alice = 0
  ∧ native_balance_of funded alice = 10000
  ∧ failure_cost funded forged alice (str "Referenced object 0xc1 does not exist") = 210.
Proof. split_and!; vm_compute; reflexivity. Qed.

(** *** A transaction without any result *)

Definition greedy : Transaction :=
  ExecuteFunction (common_of u64_max) module_path fn_transfer [] [account 192; RunBcs.le_bytes 8 1; bob]
    [{| object_ref := ref_of coin_id 500; input_owner := Some (AddressOwner (str "0xa1")); mutable := true |}].

(** A gas price near 2^64 passes the admission checks, but neither the execution
    nor the failure result can compute a cost. *)
Theorem greedy_has_no_result (state : StateManager) :
  validate_transaction_admission_shape id id (λ _, Ok 500%nat) identifier_is_valid (λ _, true) greedy = Ok tt
  ∧ executed greedy = Err "Transaction maximum gas cost overflow"
  ∧ ∀ e, failed_changeset_for_error id id state greedy e = Err "Failed to calculate failure gas cost".
Proof.
  split; [vm_compute; reflexivity|]. split; [vm_compute; reflexivity|]. intros e.
  unfold failed_changeset_for_error.
  replace (account_address id id (sender_address greedy)) with (Ok alice) by (vm_compute; reflexivity).
  cbn [result_bind].
  replace (checked_mul _ _) with (@None Z) by (vm_compute; reflexivity). reflexivity.
Qed.
End Runs.
