(* ===== verification/Executor.v ===== *)
(** * Executing a batch of transactions: [kanari-core/src/engine.rs]

    [execute_tx_waves_parallel_inner]: the serial mode, the speculative waves
    with their conflict check, candidate state and serial retry; and
    [execute_conflict_free_transactions_parallel_with_effects] with its fast path
    for owned native coins.  The workers of a pool run the same code on the same
    state, so a parallel map is a map; the runtime never persists anything itself
    ([persist_objects] is false in every call outside tests). *)

From stdpp Require Import base list gmap strings.
From Stdlib Require Import ZArith Lia.
From S2P Require Import Prelude Order Hashing Text Address GasCoin Transaction TypesTheorems Scheduler Mempool Proposer ChangeSet ApplyBatch StateManager StateSupply StateApply TypeArgs Execution.

(** One effect per transaction, and whether it counts as executed. *)
Definition Tally : Type := nat * nat * list TransactionEffects.
Definition tally_one (executed : bool) (e : TransactionEffects) (t : Tally) : Tally :=
  let '(ex, fl, effs) := t in
  if executed then (S ex, fl, effs ++ [e]) else (ex, S fl, effs ++ [e]).

Definition is_publication (tx : SignedTransaction) : bool :=
  match transaction tx with ExecuteFunction _ _ _ _ _ _ => false | _ => true end.

(** [access_sets[..i].iter().flatten().any(|right| left.conflicts_with(right))],
    for every [i] in turn. *)
Fixpoint intra_wave_conflict (seen rest : list StateAccessSet) : bool :=
  match rest with
  | [] => false
  | access :: rest => existsb (ChangeSet.conflicts_with access) seen || intra_wave_conflict (seen ++ [access]) rest
  end.

(** The reads and writes of all change sets so far against the next one. *)
Fixpoint has_access_conflict (reserved : StateAccessSet) (accesses : list StateAccessSet) : bool :=
  match accesses with
  | [] => false
  | a :: accesses =>
      existsb (λ key, bool_decide (key ∈ reads reserved) || bool_decide (key ∈ writes reserved)) (elements (writes a))
      || existsb (λ key, bool_decide (key ∈ writes reserved)) (elements (reads a))
      || has_access_conflict (extend_access_set reserved a) accesses
  end.

Section Executor.
Context {B3 : Blake3} {HX : Hex} {BC : Bcs} {SC : StateCodecs} {TT : TypeTags}.
Context (sha3_256 to_uppercase : bytes → bytes) (env : bytes → option bytes) (runtime : MoveRuntime).
(** [persist_versions], [fail_fast]: the switches of [apply_changeset];
    [batching], [cap]: those of the dependency-aware application;
    [reload_vm_cache]: of the first runtime, on the shared store. *)
Context (persist_versions fail_fast batching : bool) (cap : nat)
  (reload_vm_cache : gmap bytes bytes → result unit).
Context (timestamp : option Z).

Local Abbreviation apply_plain := (apply_changeset_without_supply_validation persist_versions).

Definition effects_of (tx : SignedTransaction) (cs : ChangeSet) : TransactionEffects :=
  effects (gas_payment (transaction tx)) cs.

(** ** Serial execution *)

(** The result of one transaction applied to the state: its change set, or the
    change set of its failure. *)
Definition serial_step (fail_hard : bool) (tx : SignedTransaction) (tally : Tally) : sm Tally := λ s,
  match execute_transaction_with_runtime_internal sha3_256 to_uppercase runtime s (transaction tx) timestamp false with
  | Ok cs =>
      match apply_changeset persist_versions fail_fast cs s with
      | (s, Ok _) => (s, Ok (tally_one true (effects_of tx cs) tally))
      | (s, Err _) => (s, Err "Failed to apply serial transaction changeset")
      end
  | Err e =>
      if fail_hard then (s, Err "Execution failed for tx") else
      match failed_changeset_for_error sha3_256 to_uppercase s (transaction tx) (str e) with
      | Err e => (s, Err e)
      | Ok failed =>
          match apply_changeset persist_versions fail_fast failed s with
          | (s, Ok _) => (s, Ok (tally_one false (effects_of tx failed) tally))
          | (s, Err _) => (s, Err "Failed to apply deterministic failure gas changeset")
          end
      end
  end.
Fixpoint serial_loop (fail_hard : bool) (txs : list SignedTransaction) (tally : Tally) : sm Tally :=
  match txs with
  | [] => mret tally
  | tx :: txs => tally ← serial_step fail_hard tx tally; serial_loop fail_hard txs tally
  end.

(** ** Speculative waves *)

Definition speculate (wave : list SignedTransaction) (s : StateManager) : list (result ChangeSet) :=
  let wave_overlay := if decide (overlay s = ∅) then None else Some (overlay s) in
  map (λ tx, execute_transaction_with_runtime_overlay sha3_256 to_uppercase runtime s (transaction tx) timestamp
               false wave_overlay) wave.

(** [collect::<Result<Vec<_>>>] *)
Definition all_ok {A} (l : list (result A)) : option (list A) :=
  mapM (λ r, match r with Ok a => Some a | Err _ => None end) l.

(** The candidate of a wave whose executions all succeeded. *)
Definition wave_candidate (changesets : list ChangeSet) : sm unit :=
  apply_dependency_aware_changesets_without_supply_validation apply_plain batching cap changesets ≫= λ _,
  repair_legacy_native_wallet_overcount ≫= λ _,
  s' ← st_gets (λ s, s);
  st_lift (validate_supply_invariants s').

(** The live state changes only when the whole wave is accepted; [None]: retry
    serially.  The epoch is read again under the write lock. *)
Definition commit_wave (access_epoch_before : Z) (results : list (result ChangeSet)) (s : StateManager) :
    option (StateManager * list ChangeSet) :=
  match all_ok results with
  | None => None
  | Some changesets =>
      if intra_wave_conflict [] (map deterministic_access_set changesets) then None
      else if negb (access_epoch s =? access_epoch_before)%Z then None
      else match wave_candidate changesets s with
           | (s', Ok _) => Some (s', changesets)
           | (_, Err _) => None
           end
  end.

Fixpoint tally_wave (wave : list SignedTransaction) (changesets : list ChangeSet) (t : Tally) : Tally :=
  match wave, changesets with
  | tx :: wave, cs :: changesets => tally_wave wave changesets (tally_one true (effects_of tx cs) t)
  | _, _ => t
  end.

Definition run_wave (fail_hard : bool) (wave : list SignedTransaction) (tally : Tally) : sm Tally := λ s,
  match commit_wave (access_epoch s) (speculate wave s) s with
  | Some (s', changesets) => (s', Ok (tally_wave wave changesets tally))
  | None => serial_loop fail_hard wave tally s
  end.
Fixpoint run_waves (fail_hard : bool) (waves : list (list SignedTransaction)) (tally : Tally) : sm Tally :=
  match waves with
  | [] => mret tally
  | wave :: waves => tally ← run_wave fail_hard wave tally; run_waves fail_hard waves tally
  end.

Definition execute_tx_waves_parallel_inner (serial_execution fail_hard : bool)
    (transactions : list SignedTransaction) : sm Tally :=
  let has_module_publish := existsb is_publication transactions in
  if serial_execution || has_module_publish then
    (if has_module_publish then s ← st_gets (λ s, s); st_lift (reload_vm_cache (store s)) else mret tt) ≫= λ _,
    serial_loop fail_hard transactions (0, 0, [])
  else run_waves fail_hard (schedule transactions) (0, 0, []).

Definition execute_tx_waves_deterministic_parallel_with_effects (transactions : list SignedTransaction) : sm Tally :=
  execute_tx_waves_parallel_inner false false transactions.

(** ** Conflict-free batches *)

(** The conflict keys reserved transaction by transaction. *)
Fixpoint reserves_distinct_keys (reserved : gset bytes) (transactions : list SignedTransaction) : bool :=
  match transactions with
  | [] => true
  | tx :: transactions =>
      is_owned_fast_path_eligible tx
      && (let keys := sort_dedup (get_conflict_keys (transaction tx)) in
          negb (list_empty keys) && forallb (λ k, negb (bool_decide (k ∈ reserved))) keys
          && reserves_distinct_keys (reserved ∪ list_to_set keys) transactions)
  end.
Definition is_plain_owned_effect (cs : ChangeSet) : bool :=
  success cs && list_empty (events cs) && list_empty (treasuries cs) && list_empty (nft_caps cs)
  && list_empty (token_balance_sets cs) && list_empty (cs_shared_inputs cs)
  && list_empty (cs_immutable_inputs cs) && list_empty (deleted_objects cs)
  && list_empty (added_dynamic_fields cs) && list_empty (removed_dynamic_fields cs)
  && bool_decide (move_writes cs = ∅) && bool_decide (resolver_reads cs = ∅).
Definition can_trust_owned_native_conflict_keys (transactions : list SignedTransaction)
    (changesets : list ChangeSet) : bool :=
  (length transactions =? length changesets) && reserves_distinct_keys ∅ transactions
  && forallb is_plain_owned_effect changesets.

Definition validate_owned_fastpath : bool :=
  match env (str "KANARI_VALIDATE_OWNED_FASTPATH_SUPPLY") with
  | Some v => bool_decide (v ∈ [str "1"; str "true"; str "TRUE"; str "yes"; str "YES"])
  | None => false
  end.

(** Applying to the candidate and validating it. *)
Definition apply_trusted (changesets : list ChangeSet) : sm unit :=
  applied ← try_apply_owned_native_burn_batch_without_supply_validation persist_versions changesets;
  (if (applied : bool) then mret tt
   else apply_single_changeset_batch_without_supply_validation apply_plain changesets ≫= λ _, mret tt) ≫= λ _,
  if validate_owned_fastpath then
    repair_cached_native_wallet_overcount ≫= λ _,
    s' ← st_gets (λ s, s);
    st_lift (validate_cached_supply_invariants s')
  else mret tt.

Definition conflict_free_candidate (transactions : list SignedTransaction) (changesets : list ChangeSet) :
    option (sm unit) :=
  if can_trust_owned_native_conflict_keys transactions changesets then Some (apply_trusted changesets)
  else if has_access_conflict no_access (map deterministic_access_set changesets) then None
  else Some (wave_candidate changesets).

Fixpoint tally_conflict_free (transactions : list SignedTransaction) (changesets : list ChangeSet) (t : Tally) : Tally :=
  match transactions, changesets with
  | tx :: transactions, cs :: changesets =>
      tally_conflict_free transactions changesets (tally_one (success cs) (effects_of tx cs) t)
  | _, _ => t
  end.

Definition execute_conflict_free_transactions_parallel_with_effects (transactions : list SignedTransaction) :
    sm Tally := λ s,
  match transactions with
  | [] => (s, Ok (0, 0, []))
  | _ =>
      match all_ok (speculate transactions s) with
      | None => execute_tx_waves_deterministic_parallel_with_effects transactions s
      | Some changesets =>
          match conflict_free_candidate transactions changesets with
          | None => execute_tx_waves_deterministic_parallel_with_effects transactions s
          | Some candidate =>
              match candidate s with
              | (s', Ok _) => (s', Ok (tally_conflict_free transactions changesets (0, 0, [])))
              | (_, Err _) => execute_tx_waves_deterministic_parallel_with_effects transactions s
              end
          end
      end
  end.
End Executor.
