(* ===== verification/ExecutorTheorems.v ===== *)
(** * Theorems about the execution of a batch

    The executor refines a sequence of atomic steps: each transaction is executed
    once, in the order of the batch, either alone or in a wave of executions of
    the same state whose access sets do not conflict.  By rule induction on these
    steps: one effect per transaction, nothing reaches the store, and the supply
    stays within what was issued. *)

From stdpp Require Import base list gmap strings.
From Stdlib Require Import ZArith Lia.
From S2P Require Import Prelude Order Hashing Text Address GasCoin Transaction TypesTheorems Scheduler Mempool Proposer ChangeSet ChangeSetTheorems ApplyBatch StateManager StateSupply StateApply StateRootTheorems StateFrame StateTheorems TypeArgs Execution ExecutionTheorems ExecutionRuns Executor.

Section Steps.
Context {B3 : Blake3} {HX : Hex} {BC : Bcs} {SC : StateCodecs} {TT : TypeTags}.
Context (sha3_256 to_uppercase : bytes → bytes) (env : bytes → option bytes) (runtime : MoveRuntime).
Context (persist_versions fail_fast batching : bool) (cap : nat)
  (reload_vm_cache : gmap bytes bytes → result unit) (timestamp : option Z).
(** The name of the native token is canonical: Move prints its tag as it is written. *)
Hypothesis gas_coin_canonical : normalize_token_type GAS_COIN = GAS_COIN.

Definition execute_at (s : StateManager) (tx : Transaction) : result ChangeSet :=
  execute_transaction_with_runtime_internal sha3_256 to_uppercase runtime s tx timestamp false.
Local Abbreviation apply_one := (apply_changeset persist_versions fail_fast).
Local Abbreviation candidate := (wave_candidate persist_versions batching cap).

(** ** The specification: steps of a batch *)

(** No change set of the list touches what another one writes. *)
Definition unrelated (css : list ChangeSet) : Prop :=
  ForallOrdPairs (λ a b, ChangeSet.conflicts_with (deterministic_access_set b) (deterministic_access_set a) = false) css.

Definition Trace : Type := list (bool * TransactionEffects).

Inductive progress (fail_hard : bool) : StateManager → list SignedTransaction → Trace → StateManager → Prop :=
| progress_done s : progress fail_hard s [] [] s
| progress_executed s tx cs s1 txs trace s' :
    execute_at s (transaction tx) = Ok cs → apply_one cs s = (s1, Ok tt) →
    progress fail_hard s1 txs trace s' →
    progress fail_hard s (tx :: txs) ((true, effects_of tx cs) :: trace) s'
| progress_failed s tx e failed s1 txs trace s' :
    fail_hard = false → execute_at s (transaction tx) = Err e →
    failed_changeset_for_error sha3_256 to_uppercase s (transaction tx) (str e) = Ok failed →
    apply_one failed s = (s1, Ok tt) →
    progress fail_hard s1 txs trace s' →
    progress fail_hard s (tx :: txs) ((false, effects_of tx failed) :: trace) s'
| progress_wave s wave css s1 txs trace s' :
    wave ≠ [] → Forall2 (λ tx cs, execute_at s (transaction tx) = Ok cs) wave css →
    unrelated css → candidate css s = (s1, Ok tt) →
    progress fail_hard s1 txs trace s' →
    progress fail_hard s (wave ++ txs) (zip_with (λ tx cs, (true, effects_of tx cs)) wave css ++ trace) s'.

Definition executed_in (t : Trace) : nat := length (List.filter fst t).
Definition failed_in (t : Trace) : nat := length (List.filter (λ e, negb e.1) t).

(** ** Store and supply *)

Lemma plain_store cs : fixes store (apply_changeset_without_supply_validation persist_versions cs).
Proof.
  intros s. destruct (apply_changeset_without_supply_validation persist_versions cs s) as [s' r] eqn:E.
  by apply unvalidated_applied in E as [? _].
Qed.

Lemma batch_store css indices :
  fixes store (apply_changeset_batch_without_supply_validation
    (apply_changeset_without_supply_validation persist_versions) css indices).
Proof.
  unfold apply_changeset_batch_without_supply_validation. destruct indices as [|i [|j l]]; [apply fixes_ret| |];
    case_match; (apply plain_store || apply fixes_lift).
Qed.
Lemma batches_store css bs :
  fixes store (apply_batches (apply_changeset_without_supply_validation persist_versions) css bs).
Proof.
  induction bs as [|b bs IH]; cbn [apply_batches]; [apply fixes_ret|].
  apply fixes_bind; [apply batch_store|by intros _].
Qed.

Lemma candidate_store css : fixes store (candidate css).
Proof.
  unfold wave_candidate, apply_dependency_aware_changesets_without_supply_validation.
  apply fixes_bind; [apply fixes_bind; [apply batches_store|intros ?; apply fixes_ret]|intros ?].
  apply fixes_bind; [apply (keeps_repair store)|intros ?]. apply fixes_bind; [apply fixes_gets|intros ?]. apply fixes_lift.
Qed.

Lemma validate_sound s : validate_supply_invariants s = Ok tt → cached_supply_within s.
Proof.
  unfold validate_supply_invariants, token_supply_summary. rewrite gas_coin_canonical. intros E.
  apply result_bind_ok in E as ([] & E1 & E). apply result_bind_ok in E as (native & En & E).
  apply result_bind_ok in E as ([] & Hv%ensure_ok & E). apply result_bind_ok in E as ([] & Ha%ensure_ok & _).
  apply result_bind_ok in En as (total & Et & En). apply result_bind_ok in En as (v & _ & En).
  rewrite bool_decide_true in En by done. cbn [negb andb] in En.
  apply result_bind_ok in En as (visible & Evis & En). apply result_bind_ok in Evis as (indexed & _ & Evis).
  apply result_bind_ok in En as (locked & El & En). apply result_bind_ok in En as (acc & Eacc%require_ok & En).
  injection En as <-. cbn [wallet_visible_supply summary_total_supply accounted_supply] in *.
  unfold issued_supply_for_token in Et. rewrite decide_True in Et by done. injection Et as <-. injection Evis as <-.
  unfold checked_add in Eacc. destruct (_ <=? _)%Z in Eacc; [|done]. injection Eacc as <-.
  exists locked. unfold native_cached in *. split_and!; [done|lia|lia|done].
Qed.

Lemma candidate_within css s s1 : candidate css s = (s1, Ok tt) → cached_supply_within s1.
Proof.
  unfold wave_candidate. intros (s2 & u & _ & H)%st_bind_inv. apply st_bind_inv in H as (s3 & b & _ & H).
  apply st_bind_inv in H as (s4 & s4' & [= <- <-] & H). unfold st_lift in H. injection H as <- H.
  by apply validate_sound.
Qed.

Lemma progress_store fail_hard s txs trace s' : progress fail_hard s txs trace s' → store s' = store s.
Proof.
  induction 1 as [|s tx cs s1 txs trace s' _ Ha _ IH|s tx e failed s1 txs trace s' _ _ _ Ha _ IH
                 |s wave css s1 txs trace s' _ _ _ Hc _ IH]; [done|..]; rewrite IH.
  - by apply changeset_applied in Ha as (? & _ & _).
  - by apply changeset_applied in Ha as (? & _ & _).
  - pose proof (candidate_store css s) as Hs. by rewrite Hc in Hs.
Qed.

Lemma progress_within fail_hard s txs trace s' : progress fail_hard s txs trace s' →
  cached_supply_within s ∨ txs ≠ [] → cached_supply_within s'.
Proof.
  induction 1 as [|s tx cs s1 txs trace s' _ Ha _ IH|s tx e failed s1 txs trace s' _ _ _ Ha _ IH
                 |s wave css s1 txs trace s' _ _ _ Hc _ IH]; intros Hw.
  - by destruct Hw.
  - apply IH. left. by apply changeset_applied in Ha as (_ & _ & ?).
  - apply IH. left. by apply changeset_applied in Ha as (_ & _ & ?).
  - apply IH. left. by apply candidate_within in Hc.
Qed.

(** ** Counting *)

Lemma progress_length fail_hard s txs trace s' : progress fail_hard s txs trace s' → length trace = length txs.
Proof.
  induction 1 as [| | |s wave css s1 txs trace s' _ Hf _ _ _ IH]; cbn [length]; [done|lia|lia|].
  rewrite !length_app, length_zip_with. apply Forall2_length in Hf. lia.
Qed.

Lemma trace_count (t : Trace) : executed_in t + failed_in t = length t.
Proof.
  unfold executed_in, failed_in. induction t as [|[[] e] t IH]; [done|..]; cbn [List.filter fst negb length] in *; lia.
Qed.

Lemma progress_no_failure s txs trace s' : progress true s txs trace s' → failed_in trace = 0.
Proof.
  induction 1 as [|s tx cs s1 txs trace s' _ _ _ IH| |s wave css s1 txs trace s' _ Hf _ _ _ IH];
    [done|exact IH|done|].
  unfold failed_in in *. rewrite List.filter_app, length_app, IH. clear -Hf.
  induction Hf as [|tx cs wave css _ _ IH]; [done|]. exact IH.
Qed.

(** ** Refinement *)

Definition tally_plus (t : Tally) (trace : Trace) : Tally :=
  let '(ex, fl, effs) := t in (ex + executed_in trace, fl + failed_in trace, effs ++ map snd trace).

Lemma tally_plus_app t t1 t2 : tally_plus (tally_plus t t1) t2 = tally_plus t (t1 ++ t2).
Proof.
  destruct t as [[ex fl] effs]. unfold tally_plus, executed_in, failed_in.
  rewrite !List.filter_app, !length_app, map_app, <- (assoc_L (++)), !Nat.add_assoc. done.
Qed.
Lemma tally_plus_one t b e : tally_plus t [(b, e)] = tally_one b e t.
Proof. destruct t as [[ex fl] effs], b; cbn; by rewrite ?Nat.add_0_r, ?Nat.add_1_r. Qed.
Lemma tally_plus_nil t : tally_plus t [] = t.
Proof. destruct t as [[ex fl] effs]. cbn. by rewrite !Nat.add_0_r, app_nil_r. Qed.

Lemma progress_app fail_hard s txs1 t1 s1 txs2 t2 s2 :
  progress fail_hard s txs1 t1 s1 → progress fail_hard s1 txs2 t2 s2 →
  progress fail_hard s (txs1 ++ txs2) (t1 ++ t2) s2.
Proof.
  induction 1; intros Hrest; cbn [app]; [done|by eapply progress_executed; eauto|by eapply progress_failed; eauto|].
  rewrite <- !(assoc_L (++)). eapply progress_wave; eauto.
Qed.

Local Abbreviation serial_step := (serial_step sha3_256 to_uppercase runtime persist_versions fail_fast timestamp).
Local Abbreviation serial_loop := (serial_loop sha3_256 to_uppercase runtime persist_versions fail_fast timestamp).
Local Abbreviation run_wave := (run_wave sha3_256 to_uppercase runtime persist_versions fail_fast batching cap timestamp).
Local Abbreviation run_waves := (run_waves sha3_256 to_uppercase runtime persist_versions fail_fast batching cap timestamp).

(** A run refines the steps: its result, if there is one, is a trace of them. *)
Definition refines (fail_hard : bool) (txs : list SignedTransaction) (tally : Tally) (m : sm Tally) : Prop :=
  ∀ s s' tally', m s = (s', Ok tally') → ∃ trace, progress fail_hard s txs trace s' ∧ tally' = tally_plus tally trace.

Lemma serial_step_refines fail_hard tx tally : refines fail_hard [tx] tally (serial_step fail_hard tx tally).
Proof.
  intros s s' tally' H. unfold Executor.serial_step in H. fold (execute_at s (transaction tx)) in H.
  destruct (execute_at s (transaction tx)) as [cs|e] eqn:Ee.
  - destruct (apply_one cs s) as [s1 [[]|]] eqn:Ea; [|done]. injection H as <- <-.
    exists [(true, effects_of tx cs)]. split; [|by rewrite tally_plus_one].
    eapply progress_executed; [done|done|constructor].
  - destruct fail_hard eqn:Eh; [done|].
    destruct (failed_changeset_for_error _ _ s (transaction tx) (str e)) as [failed|] eqn:Ef; [|done].
    destruct (apply_one failed s) as [s1 [[]|]] eqn:Ea; [|done]. injection H as <- <-.
    exists [(false, effects_of tx failed)]. split; [|by rewrite tally_plus_one].
    eapply progress_failed; [done|done|done|done|constructor].
Qed.

Lemma serial_loop_refines fail_hard txs tally : refines fail_hard txs tally (serial_loop fail_hard txs tally).
Proof.
  revert tally. induction txs as [|tx txs IH]; intros tally s s' tally' H.
  - injection H as <- <-. exists []. split; [constructor|by rewrite tally_plus_nil].
  - cbn [Executor.serial_loop] in H. apply st_bind_inv in H as (s1 & t1 & H1 & H2).
    apply serial_step_refines in H1 as (tr1 & P1 & ->). apply IH in H2 as (tr2 & P2 & ->).
    exists (tr1 ++ tr2). split; [by apply (progress_app _ _ [tx] tr1 s1)|by rewrite tally_plus_app].
Qed.

Lemma all_ok_spec {A} (l : list (result A)) (css : list A) :
  all_ok l = Some css → Forall2 (λ r c, r = Ok c) l css.
Proof.
  unfold all_ok. intros H%mapM_Some. eapply Forall2_impl; [exact H|]. intros [a|] c; cbn; congruence.
Qed.

Lemma intra_wave_spec (css : list ChangeSet) seen :
  intra_wave_conflict seen (map deterministic_access_set css) = false →
  Forall (λ c, Forall (λ a, ChangeSet.conflicts_with (deterministic_access_set c) a = false) seen) css ∧ unrelated css.
Proof.
  revert seen. induction css as [|c css IH]; intros seen H; cbn [map intra_wave_conflict] in H;
    [split; [by constructor|apply FOP_nil]|].
  apply orb_false_iff in H as [H1 H2]. apply IH in H2 as [H2 H3]. split.
  - constructor.
    + apply Forall_forall. intros a Ha. apply existsb_false_iff with (x := a) in H1; [done|by apply list_elem_of_In].
    + eapply Forall_impl; [exact H2|]. intros x Hx. by apply Forall_app in Hx as [Hx _].
  - apply FOP_cons; [|done]. eapply Forall_impl; [exact H2|].
    intros x Hx. apply Forall_app in Hx as [_ Hx]. by inversion Hx.
Qed.

Lemma tally_wave_plus (wave : list SignedTransaction) (css : list ChangeSet) t :
  length wave = length css →
  tally_wave wave css t = tally_plus t (zip_with (λ tx cs, (true, effects_of tx cs)) wave css).
Proof.
  revert css t. induction wave as [|tx wave IH]; intros [|cs css] t Hl; try done; cbn [tally_wave zip_with].
  - by rewrite tally_plus_nil.
  - rewrite IH by (cbn in Hl; lia). rewrite <- tally_plus_one, tally_plus_app. done.
Qed.

Lemma commit_wave_spec wave s s' css :
  commit_wave persist_versions batching cap (access_epoch s)
    (speculate sha3_256 to_uppercase runtime timestamp wave s) s = Some (s', css) →
  Forall2 (λ tx cs, execute_at s (transaction tx) = Ok cs) wave css ∧ unrelated css ∧ candidate css s = (s', Ok tt).
Proof.
  unfold commit_wave. destruct (all_ok _) as [css'|] eqn:Ea; [|done].
  destruct (intra_wave_conflict _ _) eqn:Ei; [done|]. destruct (negb _); [done|].
  destruct (candidate css' s) as [s1 [[]|]] eqn:Ec; [|done]. intros [= <- <-].
  split_and!; [|by apply (intra_wave_spec css' [])|done].
  apply all_ok_spec in Ea. unfold speculate in Ea. by apply Forall2_fmap_l in Ea.
Qed.

Lemma run_wave_refines fail_hard wave tally : wave ≠ [] → refines fail_hard wave tally (run_wave fail_hard wave tally).
Proof.
  intros Hne s s' tally' H. unfold Executor.run_wave in H.
  destruct (commit_wave _ _ _ _ _ _) as [[s1 css]|] eqn:Ec; [|by apply serial_loop_refines in H].
  injection H as <- <-. apply commit_wave_spec in Ec as (Hf & Hu & Hc).
  exists (zip_with (λ tx cs, (true, effects_of tx cs)) wave css). split.
  - rewrite <- (app_nil_r wave) at 1. rewrite <- (app_nil_r (zip_with _ _ _)).
    by eapply progress_wave; [| | | |constructor].
  - apply tally_wave_plus. by apply Forall2_length in Hf.
Qed.

Lemma run_waves_refines fail_hard waves tally : Forall (λ w, w ≠ []) waves →
  refines fail_hard (concat waves) tally (run_waves fail_hard waves tally).
Proof.
  intros Hw. revert tally. induction Hw as [|wave waves Hne _ IH]; intros tally s s' tally' H.
  - injection H as <- <-. exists []. split; [constructor|by rewrite tally_plus_nil].
  - cbn [Executor.run_waves] in H. apply st_bind_inv in H as (s1 & t1 & H1 & H2).
    apply run_wave_refines in H1 as (tr1 & P1 & ->); [|done]. apply IH in H2 as (tr2 & P2 & ->).
    exists (tr1 ++ tr2). cbn [concat]. split; [by eapply progress_app|by rewrite tally_plus_app].
Qed.

(** *** The store, whatever happens *)

Lemma apply_one_store cs : fixes store (apply_one cs).
Proof.
  intros s. destruct (apply_one cs s) as [s' [[]|e]] eqn:E; apply changeset_applied in E; cbn [fst].
  - by destruct E.
  - by subst.
Qed.

Lemma serial_step_store fail_hard tx tally : fixes store (serial_step fail_hard tx tally).
Proof.
  intros s. unfold Executor.serial_step. destruct (execute_transaction_with_runtime_internal _ _ _ _ _ _ _) as [cs|e].
  - pose proof (apply_one_store cs s) as H. by destruct (apply_one cs s) as [s1 [[]|]].
  - destruct fail_hard; [done|]. destruct (failed_changeset_for_error _ _ _ _ _) as [failed|]; [|done].
    pose proof (apply_one_store failed s) as H. by destruct (apply_one failed s) as [s1 [[]|]].
Qed.
Lemma serial_loop_store fail_hard txs tally : fixes store (serial_loop fail_hard txs tally).
Proof.
  revert tally. induction txs as [|tx txs IH]; intros tally; [apply fixes_ret|].
  cbn [Executor.serial_loop]. apply fixes_bind; [apply serial_step_store|intros ?; apply IH].
Qed.
Lemma run_waves_store fail_hard waves tally : fixes store (run_waves fail_hard waves tally).
Proof.
  revert tally. induction waves as [|wave waves IH]; intros tally; [apply fixes_ret|].
  cbn [Executor.run_waves]. apply fixes_bind; [|intros ?; apply IH].
  intros s. unfold Executor.run_wave. destruct (commit_wave _ _ _ _ _ _) as [[s1 css]|] eqn:Ec.
  - apply commit_wave_spec in Ec as (_ & _ & Hc). pose proof (candidate_store css s) as H. by rewrite Hc in H.
  - apply serial_loop_store.
Qed.

Local Abbreviation execute_batch :=
  (execute_tx_waves_parallel_inner sha3_256 to_uppercase runtime persist_versions fail_fast batching cap
     reload_vm_cache timestamp).

Lemma execute_batch_store serial fail_hard txs : fixes store (execute_batch serial fail_hard txs).
Proof.
  unfold execute_tx_waves_parallel_inner. destruct (serial || _); [|apply run_waves_store].
  apply fixes_bind; [|intros ?; apply serial_loop_store].
  destruct (existsb _ _); [|apply fixes_ret]. apply fixes_bind; [apply fixes_gets|intros ?; apply fixes_lift].
Qed.

Lemma execute_batch_refines serial fail_hard txs :
  refines fail_hard txs (0, 0, []) (execute_batch serial fail_hard txs).
Proof.
  intros s s' tally H. unfold execute_tx_waves_parallel_inner in H. destruct (serial || _).
  - apply st_bind_inv in H as (s1 & [] & H1 & H2). apply serial_loop_refines in H2.
    enough (s1 = s) by (by subst). destruct (existsb _ _); [|by injection H1].
    apply st_bind_inv in H1 as (s2 & x & [= <- <-] & H1). unfold st_lift in H1. by injection H1.
  - destruct (schedule_spec txs) as [Hc Hw]. apply run_waves_refines in H; [by rewrite Hc in H|].
    eapply Forall_impl; [exact Hw|]. by intros w (? & _).
Qed.

(** ** The theorems *)

(** C19: a batch is executed transaction by transaction.  Nothing reaches the
    store.  If the executor returns, its effects are those of a sequence of
    atomic steps in the order of the batch: a transaction executed on the state
    its predecessors left and applied with validation, a failure charged, or a
    wave of executions on one state whose access sets do not conflict.  There is
    one effect per transaction, the counts add up, none fails in the strict mode,
    and the cached supply counter of the node is within the issued total
    ([cached_supply_within]; the wallets can hold more, see
    [Runs.whole_coin_transfer_duplicates]). *)
Theorem batch_execution (serial fail_hard : bool) (txs : list SignedTransaction) (s s' : StateManager)
    (r : result Tally) :
  execute_batch serial fail_hard txs s = (s', r) →
  store s' = store s ∧
  match r with
  | Ok (executed, failed, effs) =>
      ∃ trace, progress fail_hard s txs trace s' ∧ effs = map snd trace ∧ length effs = length txs
        ∧ executed = executed_in trace ∧ failed = failed_in trace ∧ executed + failed = length txs
        ∧ (fail_hard = true → failed = 0) ∧ (txs ≠ [] → cached_supply_within s')
  | Err _ => True
  end.
Proof.
  intros H. pose proof (execute_batch_store serial fail_hard txs s) as Hs. rewrite H in Hs. split; [done|].
  destruct r as [[[executed failed] effs]|e]; [|done].
  apply execute_batch_refines in H as (trace & P & E). injection E as -> -> ->.
  exists trace. pose proof (progress_length _ _ _ _ _ P) as Hl. pose proof (trace_count trace) as Hc.
  split_and!; try done.
  - by rewrite length_map.
  - by rewrite Hc, Hl.
  - intros ->. by apply progress_no_failure in P.
  - intros Hne. apply (progress_within _ _ _ _ _ P). by right.
Qed.

(** *** Conflict-free batches *)

Lemma has_access_conflict_spec (accesses : list StateAccessSet) (reserved : StateAccessSet) :
  has_access_conflict reserved accesses = false →
  Forall (λ a, writes a ## reads reserved ∧ writes a ## writes reserved ∧ writes reserved ## reads a) accesses
  ∧ ForallOrdPairs (λ a b, ChangeSet.conflicts_with b a = false) accesses.
Proof.
  revert reserved. induction accesses as [|a accesses IH]; intros reserved H; cbn [has_access_conflict] in H;
    [split; [by constructor|apply FOP_nil]|].
  apply orb_false_iff in H as [H1 H2]. apply orb_false_iff in H1 as [Hw Hr].
  rewrite existsb_false_iff in Hw, Hr. setoid_rewrite <- list_elem_of_In in Hw. setoid_rewrite <- list_elem_of_In in Hr.
  setoid_rewrite elem_of_elements in Hw. setoid_rewrite elem_of_elements in Hr.
  setoid_rewrite orb_false_iff in Hw. setoid_rewrite bool_decide_eq_false in Hw. setoid_rewrite bool_decide_eq_false in Hr.
  apply IH in H2 as [H2 H3]. split.
  - constructor.
    + split_and!; intros k Hk Hk'; [by destruct (Hw k Hk)|by destruct (Hw k Hk)|by apply (Hr k Hk')].
    + eapply Forall_impl; [exact H2|]. cbn [extend_access_set reads writes]. intros b. set_solver.
  - apply FOP_cons; [|done]. eapply Forall_impl; [exact H2|]. intros b Hb. apply access_conflict_spec.
    cbn [extend_access_set reads writes] in Hb. set_solver.
Qed.

Lemma ordered_map (css : list ChangeSet) :
  ForallOrdPairs (λ a b, ChangeSet.conflicts_with b a = false) (map deterministic_access_set css) → unrelated css.
Proof.
  induction css as [|c css IH]; intros H; [apply FOP_nil|]. inversion H; subst. apply FOP_cons; [|by apply IH].
  by apply Forall_fmap in H2.
Qed.

Lemma tally_conflict_free_spec (txs : list SignedTransaction) (css : list ChangeSet) t :
  length txs = length css →
  ∃ flags, length flags = length txs
    ∧ tally_conflict_free txs css t = tally_plus t (zip flags (zip_with effects_of txs css)).
Proof.
  revert css t. induction txs as [|tx txs IH]; intros [|cs css] t Hl; try done; cbn [tally_conflict_free zip_with].
  - exists []. split; [done|]. by rewrite tally_plus_nil.
  - destruct (IH css (tally_one (success cs) (effects_of tx cs) t)) as (flags & Hf & E); [cbn in Hl; lia|].
    exists (success cs :: flags). split; [cbn; lia|]. rewrite E, <- tally_plus_one, tally_plus_app. done.
Qed.

Local Abbreviation execute_conflict_free :=
  (execute_conflict_free_transactions_parallel_with_effects sha3_256 to_uppercase env runtime persist_versions
     fail_fast batching cap reload_vm_cache timestamp).

(** A batch of owned native coins the fast path may apply at once: distinct
    conflict keys and plain effects. *)
Definition trusted (txs : list SignedTransaction) (css : list ChangeSet) : Prop :=
  can_trust_owned_native_conflict_keys txs css = true.

(** The conflict-free executor either refines the same steps, or executed the
    whole batch on one state and applied it as a trusted batch; there is one
    effect per transaction in both cases. *)
Theorem conflict_free_execution (txs : list SignedTransaction) (s s' : StateManager) executed failed effs :
  execute_conflict_free txs s = (s', Ok (executed, failed, effs)) →
  length effs = length txs ∧ executed + failed = length txs ∧
  ((∃ trace, progress false s txs trace s' ∧ effs = map snd trace)
   ∨ ∃ css, Forall2 (λ tx cs, execute_at s (transaction tx) = Ok cs) txs css ∧ trusted txs css
       ∧ apply_trusted env persist_versions css s = (s', Ok tt) ∧ effs = zip_with effects_of txs css).
Proof.
  assert (Hfall : ∀ txs, execute_batch false false txs s = (s', Ok (executed, failed, effs)) →
    length effs = length txs ∧ executed + failed = length txs ∧ ∃ trace, progress false s txs trace s' ∧ effs = map snd trace).
  { intros l (trace & P & E)%execute_batch_refines. injection E as -> -> ->.
    pose proof (progress_length _ _ _ _ _ P) as Hl. pose proof (trace_count trace) as Hc.
    split_and!; [by rewrite length_map|by rewrite Hc|by exists trace]. }
  unfold execute_conflict_free_transactions_parallel_with_effects. intros H.
  destruct txs as [|tx0 txs0] eqn:Etx.
  { injection H as <- <- <- <-. split_and!; [done|done|]. left. exists []. split; [constructor|done]. }
  rewrite <- Etx in *. assert (Hne : txs ≠ []) by (by rewrite Etx). clear Etx.
  destruct (all_ok (speculate _ _ _ _ txs s)) as [css|] eqn:Ea.
  2:{ apply Hfall in H as (? & ? & ?). auto. }
  apply all_ok_spec in Ea. unfold speculate in Ea. apply Forall2_fmap_l in Ea.
  pose proof (Forall2_length _ _ _ Ea) as Hlen.
  destruct (conflict_free_candidate _ _ _ _ txs css) as [c|] eqn:Ec.
  2:{ apply Hfall in H as (? & ? & ?). auto. }
  destruct (c s) as [s1 [[]|]] eqn:Ecs.
  2:{ apply Hfall in H as (? & ? & ?). auto. }
  destruct (tally_conflict_free_spec txs css (0, 0, []) Hlen) as (flags & Hfl & Et). rewrite Et in H.
  apply (f_equal snd) in H as Hr. apply (f_equal fst) in H as Hs. cbn [fst snd] in Hr, Hs. subst s1.
  injection Hr as <- <- <-.
  set (tr := zip flags (zip_with effects_of txs css)) in *.
  assert (Hsnd : map snd tr = zip_with effects_of txs css).
  { apply snd_zip. rewrite length_zip_with. lia. }
  assert (Htr : length tr = length txs) by (unfold tr; rewrite length_zip_with, length_zip_with; lia).
  pose proof (trace_count tr) as Hc. split; [by rewrite length_map|]. split; [lia|].
  unfold conflict_free_candidate in Ec. destruct (can_trust_owned_native_conflict_keys txs css) eqn:Etrust.
  - injection Ec as <-. right. exists css. by rewrite Hsnd.
  - destruct (has_access_conflict _ _) eqn:Eh; [done|]. injection Ec as <-. left.
    exists (zip_with (λ tx cs, (true, effects_of tx cs)) txs css). split.
    + rewrite <- (app_nil_r txs) at 1. rewrite <- (app_nil_r (zip_with (λ tx cs, (true, effects_of tx cs)) txs css)).
      eapply progress_wave; [done|done| |done|constructor].
      by apply ordered_map, (has_access_conflict_spec _ no_access).
    + rewrite Hsnd. clear. revert css. induction txs as [|tx txs IH]; intros [|cs css]; cbn; [done..|]. by rewrite IH.
Qed.
End Steps.

(** ** Runs of the batch executor

    A wallet with two native coins executes a batch of two payments, of which the
    second names a stale reference: the first is applied, the second is charged.
    A second batch pays with a coin spent whole. *)

Module Runs.
Import ToyHash RealHex RunBcs ToyCodecs ExecutionRuns.Runs.
Local Open Scope Z_scope.

(** Alice has 10000 Mist in two coins, one of them for gas. *)
Definition live : StateManager :=
  {| store := list_to_map [
       (owner_state_key alice, enc owner_codec alice_owner);
       (OWNER_INDEX_KEY, enc ids_codec [MoveAddress.to_hex_literal alice]);
       (str "object_index", enc ids_codec [gas_id; coin_id]);
       (owned_objects_key alice, enc ids_codec [gas_id; coin_id]);
       (StateManager.object_key coin_id, enc object_codec (coin_object coin_id 500));
       (StateManager.object_key gas_id, enc object_codec (coin_object gas_id 9500));
       (str "total_supply", enc u64_codec 10000)];
     overlay := ∅; total_supply := 10000; global_token_supplies := {[ GAS_COIN := 10000 ]};
     access_versions := ∅; access_epoch := 0 |}.

Definition payer_common : TxCommon :=
  {| tx_sender := str "0xa1";
     tx_gas_payment := Some {| payment_objects := [ref_of gas_id 9500]; payment_owner := str "0xa1";
                               budget := 1000; Transaction.price := 5 |};
     tx_gas_limit := 1000; tx_gas_price := 5; tx_nonce := 1 |}.
Definition pay (coin : ObjectRef) : Transaction :=
  ExecuteFunction payer_common module_path fn_transfer [] [account 192; RunBcs.le_bytes 8 200; bob]
    [{| object_ref := coin; input_owner := Some (AddressOwner (str "0xa1")); mutable := true |}].
Definition signed (tx : Transaction) : SignedTransaction :=
  {| transaction := tx; signature := []; cached_transaction_hash := None; cached_verified_signature := None |}.

(** A payment, and a second one with the references the first made stale. *)
Definition batch : list SignedTransaction := [signed (pay (ref_of coin_id 500)); signed (pay (ref_of coin_id 501))].
Definition run : StateManager * result Tally :=
  execute_tx_waves_parallel_inner id id idle false true true 8 (λ _, Ok tt) (Some 7) false false batch live.

Lemma gas_coin_printed : normalize_token_type GAS_COIN = GAS_COIN.
Proof. vm_compute. reflexivity. Qed.

(** The payment went through, the stale one was charged its failure. *)
Lemma run_counts :
  match run.2 with Ok (executed, failed, effs) => (executed, failed, length effs) = (1%nat, 1%nat, 2%nat) | Err _ => False end.
Proof. vm_compute. reflexivity. Qed.

Lemma run_eq :
  execute_tx_waves_parallel_inner id id idle false true true 8 (λ _, Ok tt) (Some 7) false false batch live
  = (run.1, run.2).
Proof. apply surjective_pairing. Qed.

Lemma batch_execution_witness :
  ∃ trace, progress id id idle false true true 8 (Some 7) false live batch trace run.1
    ∧ executed_in trace = 1%nat ∧ failed_in trace = 1%nat ∧ length (map snd trace) = 2%nat
    ∧ cached_supply_within run.1 ∧ store run.1 = store live.
Proof.
  pose proof (batch_execution id id idle false true true 8 (λ _, Ok tt) (Some 7) gas_coin_printed
    false false batch live run.1 run.2 run_eq) as [Hs Hr].
  pose proof run_counts as Hc. destruct run.2 as [[[executed failed] effs]|e]; [|destruct Hc].
  destruct Hr as (trace & P & E1 & _ & E2 & E3 & _ & _ & Hw). injection Hc as C1 C2 C3.
  exists trace. split; [exact P|]. split; [congruence|]. split; [congruence|]. split; [congruence|].
  split; [apply Hw; discriminate|exact Hs].
Defined.

(** *** A coin spent whole *)

(** Alice pays Bob the whole of her coin of 500 Mist, and the gas with the other. *)
Definition pay_whole : Transaction :=
  ExecuteFunction payer_common module_path fn_transfer [] [account 192; RunBcs.le_bytes 8 500; bob]
    [{| object_ref := ref_of coin_id 500; input_owner := Some (AddressOwner (str "0xa1")); mutable := true |}].
Definition whole : StateManager * result Tally :=
  execute_tx_waves_parallel_inner id id idle false true true 8 (λ _, Ok tt) (Some 7) false false [signed pay_whole] live.

Definition coins_of (owner : bytes) (s : StateManager) : option Z :=
  match compute_owned_token_balances owner None s with Ok m => m !! GAS_COIN | Err _ => None end.

(** The payment counts as a success.  Alice's coins are worth 9400 Mist, but her
    ledger was debited for the gas only: 9900.  With Bob's 500 and the 100 of gas
    the wallets hold 10500 Mist of a supply of 10000. *)
Lemma whole_coin_transfer_duplicates :
  (match whole.2 with Ok (executed, failed, _) => (executed, failed) = (1%nat, 0%nat) | Err _ => False end)
  ∧ coins_of alice whole.1 = Some 9400 ∧ native_balance_of whole.1 alice = 9900
  ∧ coins_of bob whole.1 = Some 500 ∧ native_balance_of whole.1 bob = 500
  ∧ native_balance_of whole.1 dao = 100 ∧ total_supply whole.1 = 10000.
Proof. split_and!; vm_compute; reflexivity. Qed.

End Runs.
