(* ===== verification/CheckpointEngine.v ===== *)
(** * Executing and committing a checkpoint: [kanari-core/src/engine/apply_checkpoint.rs]

    The engine executes the transactions of a checkpoint on a copy of its state,
    compares or records the root, commits the state together with a recovery
    marker in one batch, adds the checkpoint to the chain, drains the mempool and
    clears the marker.  [finalize_committed_batch] makes a checkpoint of what
    consensus committed ([engine/produce_dag_vertex.rs]); the owned fast path of a
    single authority makes one of its own transactions ([engine.rs]).

    The state, the chain and the mempool are behind locks that one finalization
    holds at a time ([finalization_lock]); copies of the state share the database
    and the tree with the live one. *)

From stdpp Require Import base list gmap strings.
From Stdlib Require Import ZArith Lia.
From S2P Require Import Prelude Order Hashing Text Address Store SmtPath SmtSpec SmtTree SmtOps GasCoin Transaction TypesTheorems Blockchain Scheduler Mempool Proposer ChangeSet ApplyBatch StateManager StateSupply StateApply StateRoot StateSmt History TypeArgs Execution Executor.

Section Engine.
Context {B3 : Blake3} {BC : Bcs} {BK : BcsCheckpoint} {HX : Hex} {SC : StateCodecs} {TT : TypeTags}
  {HC : HistoryCodecs} `{KV : KVStore DB}.
Local Abbreviation entries_t := (gmap bytes bytes).
Context (sha3_256 to_uppercase to_lowercase : bytes → bytes) (env : bytes → option bytes) (runtime : MoveRuntime).
Context (persist_versions fail_fast batching : bool) (cap : nat).
(** [persistent]: the engine has a RocksDB store; [strict_roots]: the guard on
    checkpoint roots. *)
Context (persistent strict_roots : bool).
(** The Move runtimes beside execution: what they read is the shared store;
    [create_system_clock] runs [clock::create] in the VM. *)
Context (reload_vm_cache refresh_committed_modules : entries_t → result unit) (clear_object_cache : result unit)
  (create_system_clock : st StateManager bytes).

(** [earlier_stores]: the contents of the database before each write since the
    start, newest first. *)
Record BlockchainEngine := {
  eng_state : StateManager;
  eng_tree : SparseMerkleTree DB;
  eng_chain : Blockchain;
  eng_mempool : MempoolState;
  earlier_stores : list entries_t
}.
Local Abbreviation en := (st BlockchainEngine).

Definition set_chain (c : Blockchain) (e : BlockchainEngine) : BlockchainEngine :=
  {| eng_state := eng_state e; eng_tree := eng_tree e; eng_chain := c; eng_mempool := eng_mempool e;
     earlier_stores := earlier_stores e |}.
Definition set_mempool (m : MempoolState) (e : BlockchainEngine) : BlockchainEngine :=
  {| eng_state := eng_state e; eng_tree := eng_tree e; eng_chain := eng_chain e; eng_mempool := m;
     earlier_stores := earlier_stores e |}.
Definition set_eng_tree (t : SparseMerkleTree DB) (e : BlockchainEngine) : BlockchainEngine :=
  {| eng_state := eng_state e; eng_tree := t; eng_chain := eng_chain e; eng_mempool := eng_mempool e;
     earlier_stores := earlier_stores e |}.

(** The state manager [s] on the database with contents [m]. *)
Definition on_store (m : entries_t) (s : StateManager) : StateManager :=
  {| store := m; overlay := overlay s; total_supply := total_supply s;
     global_token_supplies := global_token_supplies s; access_versions := access_versions s;
     access_epoch := access_epoch s |}.

(** A write to the store outside of a state commit. *)
Definition on_disk {A} (p : dk A) : en A := λ e,
  let '(d, r) := p {| contents := store (eng_state e); earlier := earlier_stores e |} in
  ({| eng_state := on_store (contents d) (eng_state e); eng_tree := eng_tree e; eng_chain := eng_chain e;
      eng_mempool := eng_mempool e; earlier_stores := earlier d |}, r).

(** What admission and replay checks see of the engine. *)
Definition store_answers (m : entries_t) : Mempool.Store :=
  {| store_committed h := let? location := store_load location_codec (transaction_index_key h) m in
                          Ok (negb (is_none location));
     store_watermark := load_sender_nonce_watermark m |}.
Definition admission_view (e : BlockchainEngine) : Mempool.Engine :=
  {| eng_blockchain := eng_chain e;
     eng_store := if persistent then Some (store_answers (store (eng_state e))) else None |}.
Definition engine_committed (e : BlockchainEngine) (h : bytes) : result bool :=
  try_is_transaction_committed (admission_view e) h.

(** ** The clock prologue *)

Definition changeset_needs_native_wallet_repair (cs : ChangeSet) : bool :=
  negb (bool_decide (owner_deltas cs = ∅)) || negb (bool_decide (native_gas_credits cs = ∅))
  || negb (list_empty (treasuries cs)) || negb (list_empty (token_balance_sets cs))
  || negb (list_empty (cs_gas_object_refs cs)).

(** [bcs] of [Clock]: the id and the timestamp. *)
Definition clock_data (id : bytes) (timestamp_ms : Z) : bytes := id ++ u64_to_le 8 timestamp_ms.
Definition clock_timestamp (data : bytes) : option Z :=
  if length data =? 40 then Some (u64_from_le (drop 32 data)) else None.

(** The clock is also put into the object storage of the runtime, which is not
    modelled. *)
Definition clock_type : bytes := KANARI_SYSTEM_ADDRESS ++ str "::clock::Clock".
Definition ensure_system_clock_native : st StateManager bytes :=
  let genesis_tx_hash := hash_data_blake3_array (str "KANARI::GENESIS::CLOCK") in
  addr ← st_lift (require (MoveAddress.from_bytes (take 32 (sha3_256 (genesis_tx_hash ++ u64_to_le 8 0))))
                    "Failed to derive native system clock object id");
  let cs := push_created (MoveAddress.to_hex_literal addr)
    {| created_owner := replicate 32 0%Z; owner_kind := Shared; uid := Some {| uid_addr := addr |};
       created_id := None; type_ := clock_type; data := clock_data addr 0; created_version := 1 |} changeset_new in
  apply_changeset_without_supply_validation persist_versions cs ≫= λ _,
  set_system_clock_object_id addr ≫= λ _,
  mret addr.

Definition create_clock_in_vm : bool :=
  match env (str "KANARI_CLOCK_CREATE_VM") with
  | Some v => bool_decide (v ∈ [str "1"; str "true"; str "TRUE"; str "yes"; str "YES"])
  | None => false
  end.

(** Genesis calls it first. *)
Definition ensure_system_clock : st StateManager bytes :=
  id ← (λ s, (s, get_system_clock_object_id s));
  match id with
  | Some id => mret id
  | None => if create_clock_in_vm then create_system_clock else ensure_system_clock_native
  end.

Definition build_native_clock_consensus_commit_prologue (s : StateManager) (clock_id : bytes) (timestamp_ms : Z) :
    result ChangeSet :=
  let object_id := MoveAddress.to_hex_literal clock_id in
  let? found := get_object object_id s in
  let? existing := require found "System clock object not found" in
  let? current := require (clock_timestamp (data existing))
                    "Failed to decode system clock object for native prologue" in
  let? _ := ensure (current <=? timestamp_ms)%Z "Clock timestamp is not monotonic" in
  let next := clock_data clock_id timestamp_ms in
  Ok (push_created object_id
    {| created_owner := created_owner existing; owner_kind := owner_kind existing;
       uid := Some {| uid_addr := clock_id |}; created_id := created_id existing; type_ := type_ existing;
       data := next;
       created_version := if bool_decide (next = data existing) then created_version existing
                          else saturating_add (created_version existing) 1 |} changeset_new).

Definition apply_system_prologue_to_state (timestamp_ms : Z) : st StateManager unit :=
  clock_id ← ensure_system_clock;
  cs ← (λ s, (s, build_native_clock_consensus_commit_prologue s clock_id timestamp_ms));
  st_context (apply_changeset_without_supply_validation persist_versions cs)
    "Failed to apply clock prologue changeset" ≫= λ _,
  if changeset_needs_native_wallet_repair cs then
    st_context repair_legacy_native_wallet_overcount
      "Failed to repair native wallet overcount after clock prologue" ≫= λ _, mret tt
  else mret tt.

(** ** Preparing the state of a checkpoint *)

Record PreparedCheckpointState := {
  prepared_root : bytes;
  prepared_smt_changes : option PrecomputedSmtChanges;
  prepared_state : StateManager;
  prepared_transactions : list SignedTransaction;
  prepared_effects : list TransactionEffects
}.

(** The repair before and after execution. *)
Definition checkpoint_repair (assume_conflict_free : bool) : st StateManager unit :=
  if assume_conflict_free then
    if validate_owned_fastpath env then
      st_context repair_cached_native_wallet_overcount "Failed to repair cached native wallet overcount" ≫= λ _, mret tt
    else mret tt
  else st_context repair_legacy_native_wallet_overcount "Failed to repair legacy native wallet overcount" ≫= λ _, mret tt.

Fixpoint uncommitted (committed : bytes → result bool) (txs : list SignedTransaction) :
    result (list SignedTransaction) :=
  match txs with
  | [] => Ok []
  | tx :: txs =>
      let? c := committed (hash_of tx) in
      let? rest := uncommitted committed txs in
      Ok (if (c : bool) then rest else tx :: rest)
  end.

Definition execute_selected (assume_conflict_free : bool) (timestamp_ms : Z) (txs : list SignedTransaction) :
    st StateManager Tally :=
  if assume_conflict_free then
    execute_conflict_free_transactions_parallel_with_effects sha3_256 to_uppercase env runtime persist_versions
      fail_fast batching cap reload_vm_cache (Some timestamp_ms) txs
  else
    execute_tx_waves_deterministic_parallel_with_effects sha3_256 to_uppercase runtime persist_versions
      fail_fast batching cap reload_vm_cache (Some timestamp_ms) txs.

(** Everything that happens on the copy of the state. *)
Definition execute_checkpoint (assume_conflict_free : bool) (c : Checkpoint)
    (selected : result (list SignedTransaction)) : st StateManager (list SignedTransaction * list TransactionEffects) :=
  checkpoint_repair assume_conflict_free ≫= λ _,
  to_execute ← st_lift selected;
  (if list_empty (transactions c) then mret tt else apply_system_prologue_to_state (timestamp c)) ≫= λ _,
  '(_, _, effs) ← execute_selected assume_conflict_free (timestamp c) to_execute;
  checkpoint_repair assume_conflict_free ≫= λ _,
  mret (to_execute, effs).

(** [try_compute_state_root_with_smt_changes], with or without a tree. *)
Definition state_root_with_changes (s : StateManager) : en (bytes * option PrecomputedSmtChanges) := λ e,
  if persistent then
    match try_compute_state_root_with_smt_changes {| base := s; tree := eng_tree e |} with
    | (x, Ok (root, changes)) => (set_eng_tree (tree x) e, Ok (root, Some changes))
    | (x, Err err) => (set_eng_tree (tree x) e, Err err)
    end
  else (e, let? root := try_compute_state_root s in Ok (root, None)).

Definition prepare_checkpoint_state_inner (assume_conflict_free : bool) (c : Checkpoint) :
    en PreparedCheckpointState := λ e,
  match execute_checkpoint assume_conflict_free c (uncommitted (engine_committed e) (transactions c)) (eng_state e) with
  | (_, Err err) => (e, Err err)
  | (s, Ok (to_execute, effs)) =>
      ('(root, changes) ← state_root_with_changes s;
       mret {| prepared_root := root; prepared_smt_changes := changes; prepared_state := s;
               prepared_transactions := to_execute; prepared_effects := effs |}) e
  end.
Definition prepare_checkpoint_state : Checkpoint → en PreparedCheckpointState := prepare_checkpoint_state_inner false.
Definition prepare_conflict_free_checkpoint_state : Checkpoint → en PreparedCheckpointState :=
  prepare_checkpoint_state_inner true.

(** ** Committing it *)

(** The metadata goes into the batch of the state when no snapshot or pruning
    has to follow. *)
Definition inline_checkpoint_metadata : bool :=
  persistent && negb (persist_blockchain_json_snapshot_enabled env true)
  && is_none (history_retention_checkpoints env).

(** The batch beside the state: the records of the checkpoint and the marker. *)
Definition checkpoint_raw_changes (m : entries_t) (c : Checkpoint) : result (RawCheckpointUpdates * RawCheckpointDeletes) :=
  let? ' (updates, deletes) :=
    (if inline_checkpoint_metadata then
       match checkpoint_persistence_raw_changes sha3_256 to_uppercase to_lowercase env true m c true with
       | Ok changes => Ok changes
       | Err _ => Err "Failed to encode checkpoint metadata for state commit"
       end
     else Ok ([], [])) in
  Ok (updates ++ [(pending_checkpoint_commit_key, enc checkpoint_codec (forget c))], deletes).

(** The live state is replaced after the commit succeeded; what a failing one
    wrote is in the shared store and tree all the same. *)
Definition commit_state (c : Checkpoint) (new_state : StateManager)
    (smt_changes : option PrecomputedSmtChanges) : en unit := λ e,
  let m := store (eng_state e) in
  if persistent then
    match checkpoint_raw_changes m c with
    | Err err => (e, Err err)
    | Ok (updates, deletes) =>
        let '(x, r) := commit_with_raw_changes_verified_root_and_smt_changes updates deletes (state_root c) smt_changes
                         {| base := on_store m new_state; tree := eng_tree e |} in
        ({| eng_state := match r with Ok _ => base x | Err _ => on_store (store (base x)) (eng_state e) end;
            eng_tree := tree x; eng_chain := eng_chain e; eng_mempool := eng_mempool e;
            earlier_stores := m :: earlier_stores e |},
         match r with Ok _ => Ok tt | Err _ => Err "Failed to commit state and checkpoint marker to RocksDB" end)
    end
  else
    let '(s, _) := StateRoot.commit (on_store m new_state) in
    ({| eng_state := s; eng_tree := eng_tree e; eng_chain := eng_chain e; eng_mempool := eng_mempool e;
        earlier_stores := m :: earlier_stores e |}, Ok tt).

Definition add_to_chain (c : Checkpoint) : en unit := λ e,
  let '(chain, r) := add_checkpoint_with_validation c true (eng_chain e) in (set_chain chain e, r).

Definition persist_blockchain_snapshot : en unit := λ e,
  if persistent then
    on_disk (persist_blockchain_snapshot_to_store sha3_256 to_uppercase to_lowercase env true (eng_chain e)) e
  else (e, Ok tt).

Definition finalize_checkpoint_metadata (c : Checkpoint) (already_persisted : bool) : en unit :=
  add_to_chain c ≫= λ _,
  (if persistent && negb already_persisted then
     st_context persist_blockchain_snapshot "Failed to persist blockchain metadata for checkpoint"
   else mret tt) ≫= λ _,
  st_modify (λ e, set_mempool (drain_committed (tx_hashes c) (eng_mempool e)) e).

Definition finalize_checkpoint (c : Checkpoint) (new_state : StateManager)
    (smt_changes : option PrecomputedSmtChanges) (validate_supply : bool) : en unit :=
  st_lift (if validate_supply then
             match validate_supply_invariants new_state with
             | Ok _ => Ok tt
             | Err _ => Err "Supply invariants failed before checkpoint commit"
             end
           else Ok tt) ≫= λ _,
  commit_state c new_state smt_changes ≫= λ _,
  st_lift clear_object_cache ≫= λ _,
  finalize_checkpoint_metadata c inline_checkpoint_metadata ≫= λ _,
  (if existsb is_publication (transactions c) then
     m ← st_gets (λ e, store (eng_state e));
     st_context (st_lift (refresh_committed_modules m)) "Failed to refresh Move VM modules after checkpoint commit"
   else mret tt) ≫= λ _,
  if persistent then on_disk (erase pending_checkpoint_commit_key) else mret tt.

(** The side effects of the transactions are not replayed: the committed state is
    the only source of truth. *)
Definition apply_prepared_checkpoint (c : Checkpoint) (verified_state : StateManager)
    (smt_changes : option PrecomputedSmtChanges) (validate_supply : bool) : en unit :=
  finalize_checkpoint c verified_state smt_changes validate_supply.

Definition ensure_checkpoint_root_matches (c : Checkpoint) (computed_root : bytes) : result unit :=
  let? matches := checkpoint_root_matches strict_roots computed_root (state_root c) in
  ensure matches "State root mismatch for checkpoint".

Definition apply_checkpoint (c : Checkpoint) : en unit :=
  prepared ← prepare_checkpoint_state c;
  st_lift (ensure_checkpoint_root_matches c (prepared_root prepared)) ≫= λ _,
  apply_prepared_checkpoint c (prepared_state prepared) (prepared_smt_changes prepared) true.

(** ** Checkpoints made here *)

Definition with_result (root : bytes) (effs : list TransactionEffects) (c : Checkpoint) : Checkpoint :=
  {| sequence := sequence c; vertices := vertices c; transactions := transactions c;
     transaction_effects := effs; checkpoint_changes := checkpoint_changes c;
     object_graph_edges := object_graph_edges c; state_root := root; timestamp := timestamp c;
     prev_checkpoint_hash := prev_checkpoint_hash c; hash_version := hash_version c |}.

(** [seen.insert(hash) && !is_committed] *)
Fixpoint fresh_transactions (committed : bytes → result bool) (seen : gset bytes) (txs : list SignedTransaction) :
    result (list SignedTransaction) :=
  match txs with
  | [] => Ok []
  | tx :: txs =>
      let h := hash_of tx in
      if bool_decide (h ∈ seen) then fresh_transactions committed seen txs else
      let? c := committed h in
      let? rest := fresh_transactions committed ({[h]} ∪ seen) txs in
      Ok (if (c : bool) then rest else tx :: rest)
  end.

(** The next checkpoint on top of the chain, without its results. *)
Definition next_checkpoint (chain : Blockchain) (vertices : list bytes) (txs : list SignedTransaction)
    (timestamp_of : Checkpoint → Z) : result Checkpoint :=
  let? latest := require (latest_checkpoint chain) no_genesis_panic in
  let? prev_hash := checkpoint_hash latest in
  Ok (checkpoint_new (saturating_add (sequence latest) 1) vertices txs [] (timestamp_of latest) prev_hash).

Record MysticetiCommittedBatch := {
  anchor : bytes;
  batch_vertices : list bytes;
  batch_transactions : list SignedTransaction;
  batch_timestamp_ms : Z
}.

Definition finalize_committed_batch (batch : MysticetiCommittedBatch) : en (option Checkpoint) := λ e,
  match find (λ c, bool_decide (vertices c = batch_vertices batch)) (dag_checkpoints (eng_chain e)) with
  | Some existing => (e, Ok (Some existing))
  | None =>
      (txs ← st_lift (fresh_transactions (engine_committed e) ∅ (batch_transactions batch));
       if list_empty txs then mret None else
       c ← st_lift (next_checkpoint (eng_chain e) (batch_vertices batch) txs
                      (λ latest, Z.max (batch_timestamp_ms batch) (saturating_add (timestamp latest) 1)));
       prepared ← prepare_checkpoint_state c;
       let c := with_result (prepared_root prepared) (prepared_effects prepared) c in
       apply_prepared_checkpoint c (prepared_state prepared) (prepared_smt_changes prepared) true ≫= λ _,
       mret (Some c)) e
  end.

Fixpoint finalize_batches (batches : list MysticetiCommittedBatch) : en (option Checkpoint) :=
  match batches with
  | [] => mret None
  | batch :: batches =>
      made ← finalize_committed_batch batch;
      later ← finalize_batches batches;
      mret (match later with Some c => Some c | None => made end)
  end.

(** *** The owned fast path *)

Record ProductionInfo := {
  info_sequence : option Z;
  info_tx_count : nat;
  info_executed : nat;
  info_failed : nat
}.

Definition produce_owned_fast_checkpoint_from_selection (txs : list SignedTransaction) : en ProductionInfo := λ e,
  if list_empty txs then (e, Ok {| info_sequence := None; info_tx_count := 0; info_executed := 0; info_failed := 0 |})
  else
  (c ← st_lift (next_checkpoint (eng_chain e) [] txs
                  (λ latest, Z.max (saturating_add (timestamp latest) 1) (saturating_add (sequence latest) 1)));
   prepared ← prepare_conflict_free_checkpoint_state c;
   let c := with_result (prepared_root prepared) (prepared_effects prepared) c in
   let executed := length (List.filter (λ effs, bool_decide (status effs = str "success")) (transaction_effects c)) in
   apply_prepared_checkpoint c (prepared_state prepared) (prepared_smt_changes prepared) false ≫= λ _,
   mret {| info_sequence := Some (sequence c); info_tx_count := length (transactions c);
           info_executed := executed; info_failed := length (transaction_effects c) - executed |}) e.

End Engine.
Arguments BlockchainEngine DB : clear implicits.
