(* ===== verification/CheckpointTheorems.v ===== *)
(** * Theorems about executing and committing checkpoints

    What an engine makes of the committed batches does not depend on its mempool,
    extends its chain with validated checkpoints only, and is accepted by every
    replica that is in the same state; a rejected checkpoint leaves the ledger as
    it was. *)

From stdpp Require Import base list gmap strings.
From Stdlib Require Import ZArith Lia.
From S2P Require Import Prelude Order Hashing Text Address Store SmtPath SmtSpec SmtTree SmtOps GasCoin Transaction TypesTheorems Blockchain BlockchainTheorems Scheduler Mempool Proposer ChangeSet ApplyBatch StateManager StateSupply StateApply StateRoot StateRootTheorems StateSmt History ChainReplay TypeArgs Execution Executor ExecutorTheorems CheckpointEngine.

(** ** The ledger of an engine

    Everything but the mempool, which every validator fills on its own. *)

Section Ledger.
Context {DB : Type}.
Local Abbreviation engine := (BlockchainEngine DB).
Local Abbreviation en := (st engine).

Record same_ledger (e e' : engine) : Prop := {
  same_state : eng_state e = eng_state e';
  same_tree : eng_tree e = eng_tree e';
  same_chain : eng_chain e = eng_chain e';
  same_stores : earlier_stores e = earlier_stores e'
}.

#[export] Instance same_ledger_equiv : Equivalence same_ledger.
Proof.
  split.
  - intros e. by split.
  - intros e e' [H1 H2 H3 H4]. by split.
  - intros e1 e2 e3 [H1 H2 H3 H4] [H1' H2' H3' H4']. split; by etrans.
Qed.

Definition same_outcome {A} (x y : engine * result A) : Prop := same_ledger x.1 y.1 ∧ x.2 = y.2.

(** Operations that do not look at the mempool for anything but the mempool. *)
Class LedgerOp {A} (m : en A) : Prop := ledger_op : Proper (same_ledger ==> same_outcome) m.

#[export] Instance ledger_ret {A} (a : A) : LedgerOp (mret a).
Proof. intros e e' H. by split. Qed.
#[export] Instance ledger_lift {A} (r : result A) : LedgerOp (st_lift r).
Proof. intros e e' H. by split. Qed.
#[export] Instance ledger_bind {A B} (m : en A) (k : A → en B) :
  LedgerOp m → (∀ a, LedgerOp (k a)) → LedgerOp (m ≫= k).
Proof.
  intros Hm Hk e e' H. destruct (Hm e e' H) as [H1 H2]. unfold mbind, st_bind.
  destruct (m e) as [e1 r1], (m e') as [e2 r2]. cbn in H1, H2. subst r2. destruct r1 as [a|err]; [by apply Hk|by split].
Qed.
#[export] Instance ledger_context {A} (m : en A) msg : LedgerOp m → LedgerOp (st_context m msg).
Proof.
  intros Hm e e' H. destruct (Hm e e' H) as [H1 H2]. unfold st_context.
  destruct (m e) as [e1 r1], (m e') as [e2 r2]. cbn in H1, H2. subst r2. by destruct r1; split.
Qed.
#[export] Instance ledger_if {A} (b : bool) (m m' : en A) :
  LedgerOp m → LedgerOp m' → LedgerOp (if b then m else m').
Proof. by destruct b. Qed.
Lemma ledger_gets_store : LedgerOp (st_gets (λ e : engine, store (eng_state e))).
Proof. intros e e' H. split; [done|]. cbn. by rewrite (same_state _ _ H). Qed.
Lemma ledger_mempool (f : engine → MempoolState) : LedgerOp (st_modify (λ e, set_mempool (f e) e)).
Proof. intros e e' [H1 H2 H3 H4]. split; [|done]. by split. Qed.

#[export] Instance ledger_on_disk {A} (p : dk A) : LedgerOp (on_disk p).
Proof.
  intros e e' [H1 H2 H3 H4]. unfold on_disk. rewrite H1, H4. destruct (p _) as [d r]. split; [|done].
  by split.
Qed.

(** ** The chain only grows *)

Section Chains.
Context {B3 : Blake3} {BC : Bcs} {BK : BcsCheckpoint}.

Definition extends (c c' : Blockchain) : Prop := ∃ cs, replay cs c = Some c'.
#[export] Instance extends_preorder : PreOrder extends.
Proof.
  split.
  - intros c. by exists [].
  - intros a b c [cs1 E1] [cs2 E2]. exists (cs1 ++ cs2). by rewrite replay_app, E1.
Qed.
Lemma extends_add c chain chain' :
  add_checkpoint_with_validation c true chain = (chain', Ok tt) → extends chain chain'.
Proof. intros E. exists [c]. cbn. by rewrite E. Qed.

Class ChainOp {A} (m : en A) : Prop := chain_op : ∀ e, extends (eng_chain e) (eng_chain (m e).1).

#[export] Instance chain_ret {A} (a : A) : ChainOp (mret a).
Proof. intros e. done. Qed.
#[export] Instance chain_lift {A} (r : result A) : ChainOp (st_lift r).
Proof. intros e. done. Qed.
#[export] Instance chain_bind {A B} (m : en A) (k : A → en B) :
  ChainOp m → (∀ a, ChainOp (k a)) → ChainOp (m ≫= k).
Proof.
  intros Hm Hk e. specialize (Hm e). unfold mbind, st_bind. destruct (m e) as [e1 [a|err]]; [|done].
  etrans; [exact Hm|]. apply Hk.
Qed.
#[export] Instance chain_context {A} (m : en A) msg : ChainOp m → ChainOp (st_context m msg).
Proof. intros Hm e. specialize (Hm e). unfold st_context. by destruct (m e) as [e1 []]. Qed.
#[export] Instance chain_if {A} (b : bool) (m m' : en A) : ChainOp m → ChainOp m' → ChainOp (if b then m else m').
Proof. by destruct b. Qed.
Lemma chain_gets {A} (f : engine → A) : ChainOp (st_gets f).
Proof. intros e. done. Qed.
Lemma chain_mempool (f : engine → MempoolState) : ChainOp (st_modify (λ e, set_mempool (f e) e)).
Proof. intros e. done. Qed.
#[export] Instance chain_on_disk {A} (p : dk A) : ChainOp (on_disk p).
Proof. intros e. unfold on_disk. by destruct (p _) as [d r]. Qed.
End Chains.
End Ledger.
#[export] Existing Instances ledger_gets_store ledger_mempool chain_gets chain_mempool.

(** ** The operations *)

Section Operations.
Context {B3 : Blake3} {BC : Bcs} {BK : BcsCheckpoint} {HX : Hex} {SC : StateCodecs} {TT : TypeTags}
  {HC : HistoryCodecs} `{KV : KVStore DB}.
Local Abbreviation entries_t := (gmap bytes bytes).
Context (sha3_256 to_uppercase to_lowercase : bytes → bytes) (env : bytes → option bytes) (runtime : MoveRuntime).
Context (persist_versions fail_fast batching : bool) (cap : nat).
Context (persistent strict_roots : bool).
Context (reload_vm_cache refresh_committed_modules : entries_t → result unit) (clear_object_cache : result unit)
  (create_system_clock : st StateManager bytes).
Local Abbreviation engine := (BlockchainEngine DB).
Local Abbreviation en := (st engine).
Local Abbreviation prepare := (prepare_checkpoint_state_inner sha3_256 to_uppercase env runtime persist_versions
  fail_fast batching cap persistent reload_vm_cache create_system_clock).
Local Abbreviation finalize := (finalize_checkpoint sha3_256 to_uppercase to_lowercase env persistent
  refresh_committed_modules clear_object_cache).
Local Abbreviation finalize_batch := (finalize_committed_batch sha3_256 to_uppercase to_lowercase env runtime
  persist_versions fail_fast batching cap persistent reload_vm_cache refresh_committed_modules clear_object_cache
  create_system_clock).
Local Abbreviation finalize_all := (finalize_batches sha3_256 to_uppercase to_lowercase env runtime
  persist_versions fail_fast batching cap persistent reload_vm_cache refresh_committed_modules clear_object_cache
  create_system_clock).
Local Abbreviation apply := (apply_checkpoint sha3_256 to_uppercase to_lowercase env runtime
  persist_versions fail_fast batching cap persistent strict_roots reload_vm_cache refresh_committed_modules
  clear_object_cache create_system_clock).

Lemma committed_same (e e' : engine) : same_ledger e e' → engine_committed persistent e = engine_committed persistent e'.
Proof. intros [H1 _ H3 _]. unfold engine_committed, admission_view. by rewrite H1, H3. Qed.

#[export] Instance root_ledger s : LedgerOp (state_root_with_changes persistent s).
Proof.
  intros e e' [H1 H2 H3 H4]. unfold state_root_with_changes. rewrite H2. destruct persistent.
  - destruct (try_compute_state_root_with_smt_changes _) as [x [[root changes]|err]]; (split; [|done]); by split.
  - split; [|done]. by split.
Qed.
#[export] Instance prepare_ledger b c : LedgerOp (prepare b c).
Proof.
  intros e e' H. unfold prepare_checkpoint_state_inner. rewrite (committed_same e e' H), (same_state _ _ H).
  destruct (execute_checkpoint _ _ _ _ _ _ _ _ _ _ _ _ _ _) as [s [[txs effs]|err]]; [|by split].
  apply (ledger_bind _ _); [apply _|intros [root changes]; apply _|done].
Qed.
#[export] Instance commit_ledger c s changes : LedgerOp (commit_state sha3_256 to_uppercase to_lowercase env persistent c s changes).
Proof.
  intros e e' H. pose proof H as [H1 H2 H3 H4]. unfold commit_state. rewrite H1, H2, H3, H4. destruct persistent.
  - destruct (checkpoint_raw_changes _ _ _ _ _ _ _) as [[U D]|err]; [|by split].
    destruct (commit_with_raw_changes_verified_root_and_smt_changes _ _ _ _ _) as [x [[]|err]]; by repeat split.
  - by destruct (StateRoot.commit _) as [s' r]; repeat split.
Qed.
#[export] Instance add_ledger c : LedgerOp (add_to_chain (DB := DB) c).
Proof.
  intros e e' [H1 H2 H3 H4]. unfold add_to_chain. rewrite H3.
  destruct (add_checkpoint_with_validation c true (eng_chain e')) as [chain r]. by repeat split.
Qed.
#[export] Instance snapshot_ledger :
  LedgerOp (persist_blockchain_snapshot (DB := DB) sha3_256 to_uppercase to_lowercase env persistent).
Proof.
  intros e e' H. unfold persist_blockchain_snapshot. rewrite (same_chain _ _ H).
  destruct persistent; [by apply ledger_on_disk|by split].
Qed.
#[export] Instance finalize_ledger c s changes v : LedgerOp (finalize c s changes v).
Proof. unfold finalize_checkpoint, finalize_checkpoint_metadata. apply _. Qed.
#[export] Instance finalize_batch_ledger b : LedgerOp (finalize_batch b).
Proof.
  intros e e' H. unfold finalize_committed_batch. rewrite (same_chain _ _ H), (committed_same e e' H).
  destruct (find _ _) as [c|]; [by split|].
  eapply (ledger_bind (st_lift _)); [apply _| |exact H]. intros txs.
  unfold prepare_checkpoint_state, apply_prepared_checkpoint. apply _.
Qed.
#[export] Instance finalize_all_ledger bs : LedgerOp (finalize_all bs).
Proof. induction bs as [|b bs IH]; cbn [finalize_batches]; apply _. Qed.

#[export] Instance root_chain s : ChainOp (state_root_with_changes (DB := DB) persistent s).
Proof.
  intros e. unfold state_root_with_changes. destruct persistent; [|done].
  by destruct (try_compute_state_root_with_smt_changes _) as [x [[root changes]|err]].
Qed.
#[export] Instance prepare_chain b c : ChainOp (prepare b c).
Proof.
  intros e. unfold prepare_checkpoint_state_inner.
  destruct (execute_checkpoint _ _ _ _ _ _ _ _ _ _ _ _ _ _) as [s [[txs effs]|err]]; [|done].
  apply (chain_bind _ _); [apply _|intros [root changes]; apply _].
Qed.
#[export] Instance commit_chain c s changes :
  ChainOp (DB := DB) (commit_state sha3_256 to_uppercase to_lowercase env persistent c s changes).
Proof.
  intros e. unfold commit_state. destruct persistent.
  - destruct (checkpoint_raw_changes _ _ _ _ _ _ _) as [[U D]|err]; [|done].
    by destruct (commit_with_raw_changes_verified_root_and_smt_changes _ _ _ _ _) as [x r].
  - by destruct (StateRoot.commit _) as [s' r].
Qed.
#[export] Instance add_chain c : ChainOp (add_to_chain (DB := DB) c).
Proof.
  intros e. unfold add_to_chain. destruct (add_checkpoint_with_validation c true (eng_chain e)) as [chain r] eqn:E.
  cbn. destruct r as [[]|err]; [by eapply extends_add|].
  unfold add_checkpoint_with_validation in E. destruct (validate_checkpoint _ c) as [[]|]; [done|]. by injection E as <- _.
Qed.
#[export] Instance snapshot_chain :
  ChainOp (persist_blockchain_snapshot (DB := DB) sha3_256 to_uppercase to_lowercase env persistent).
Proof. intros e. unfold persist_blockchain_snapshot. destruct persistent; [apply chain_on_disk|done]. Qed.
#[export] Instance finalize_chain c s changes v : ChainOp (finalize c s changes v).
Proof. unfold finalize_checkpoint, finalize_checkpoint_metadata. apply _. Qed.
#[export] Instance finalize_batch_chain b : ChainOp (finalize_batch b).
Proof.
  intros e. unfold finalize_committed_batch. destruct (find _ _) as [c|]; [done|].
  eapply (chain_bind (st_lift _)); [apply _|]. intros txs.
  unfold prepare_checkpoint_state, apply_prepared_checkpoint. apply _.
Qed.
#[export] Instance finalize_all_chain bs : ChainOp (finalize_all bs).
Proof. induction bs as [|b bs IH]; cbn [finalize_batches]; apply _. Qed.

(** ** Replicas *)

Lemma finalize_all_app bs bs' e :
  finalize_all (bs ++ bs') e =
  match finalize_all bs e with
  | (e1, Ok r1) => match finalize_all bs' e1 with
                   | (e2, Ok r2) => (e2, Ok (match r2 with Some c => Some c | None => r1 end))
                   | (e2, Err err) => (e2, Err err)
                   end
  | (e1, Err err) => (e1, Err err)
  end.
Proof.
  revert e. induction bs as [|b bs IH]; intros e.
  { cbn. by destruct (finalize_all bs' e) as [e2 [[c|]|err]]. }
  cbn [app finalize_batches]. unfold mbind at 1 3, st_bind. destruct (finalize_batch b e) as [e1 [r1|err]]; [|done].
  unfold mbind, st_bind. rewrite IH. destruct (finalize_all bs e1) as [e2 [r2|err]]; [|done].
  cbn. destruct (finalize_all bs' e2) as [e3 [[c|]|err]]; [done|by destruct r2|done].
Qed.

(** The life of an engine: it finalizes groups of batches, and between them its
    mempool changes in any way. *)
Inductive evolves (e0 : engine) : list MysticetiCommittedBatch → engine → Prop :=
| evolves_start : evolves e0 [] e0
| evolves_mempool bs e mp : evolves e0 bs e → evolves e0 bs (set_mempool mp e)
| evolves_finalize bs e bs' e' r :
    evolves e0 bs e → finalize_all bs' e = (e', Ok r) → evolves e0 (bs ++ bs') e'.

Lemma evolves_ledger e0 bs e :
  evolves e0 bs e → same_ledger (finalize_all bs e0).1 e ∧ ∃ r, (finalize_all bs e0).2 = Ok r.
Proof.
  induction 1 as [|bs e mp _ [IH Hr]|bs e bs' e' r _ [IH (r1 & Hr)] E].
  - split; [done|]. by eexists.
  - split; [|done]. destruct IH as [H1 H2 H3 H4]. by split.
  - rewrite finalize_all_app. destruct (finalize_all bs e0) as [e1 r2]. cbn in IH, Hr. subst r2.
    destruct (finalize_all_ledger bs' e1 e IH) as [Hl Ho]. rewrite E in Hl, Ho.
    destruct (finalize_all bs' e1) as [e2 r3]. cbn in Hl, Ho. subst r3. cbn. split; [done|]. by eexists.
Qed.

(** The chains of two replicas, of which one has finalized a prefix of the other. *)
Lemma replicas_prefix e1 e2 bs1 bs2 e1' e2' :
  same_ledger e1 e2 → evolves e1 bs1 e1' → evolves e2 bs2 e2' → bs1 `prefix_of` bs2 →
  extends (eng_chain e1') (eng_chain e2') ∧ (bs1 = bs2 → same_ledger e1' e2').
Proof.
  intros H E1 E2 [bs ->]. apply evolves_ledger in E1 as [L1 [r1 R1]]. apply evolves_ledger in E2 as [L2 _].
  destruct (finalize_all_ledger bs1 e1 e2 H) as [Hl Ho]. split.
  - rewrite <- (same_chain _ _ L1), <- (same_chain _ _ L2), finalize_all_app, (same_chain _ _ Hl).
    rewrite R1 in Ho. destruct (finalize_all bs1 e2) as [e r]. cbn in Ho |- *. subst r.
    pose proof (finalize_all_chain bs e) as Hc. by destruct (finalize_all bs e) as [e3 [[c|]|err]].
  - intros E. rewrite <- (app_nil_r bs1) in E at 1. apply app_inv_head in E as <-. rewrite app_nil_r in L2.
    rewrite <- L1, <- L2. exact Hl.
Qed.

(** ** One batch *)

Lemma fresh_spec committed seen l txs :
  fresh_transactions committed seen l = Ok txs →
  txs `sublist_of` l ∧ NoDup (map hash_of txs)
  ∧ (∀ tx, tx ∈ txs → hash_of tx ∉ seen ∧ committed (hash_of tx) = Ok false)
  ∧ (∀ tx, tx ∈ l → hash_of tx ∈ seen ∨ committed (hash_of tx) = Ok true ∨ hash_of tx ∈ map hash_of txs).
Proof.
  revert seen txs. induction l as [|tx l IH]; intros seen txs E; cbn [fresh_transactions] in E.
  { injection E as <-. split_and!; [done|constructor|set_solver..]. }
  case_bool_decide as Hs.
  { destruct (IH _ _ E) as (H1 & H2 & H3 & H4). split_and!; [by constructor|done|done|].
    intros x [->|Hx]%elem_of_cons; [by left|by apply H4]. }
  apply result_bind_ok in E as (c & Ec & E). apply result_bind_ok in E as (rest & Er & E). injection E as <-.
  destruct (IH _ _ Er) as (H1 & H2 & H3 & H4).
  assert (Hrest : ∀ x, x ∈ rest → hash_of x ∉ seen ∧ hash_of x ≠ hash_of tx ∧ committed (hash_of x) = Ok false).
  { intros x Hx. destruct (H3 x Hx) as [Hn Hc]. set_solver. }
  destruct c.
  - split_and!; [by constructor|done|naive_solver|]. intros x [->|Hx]%elem_of_cons; [by right; left|].
    destruct (H4 x Hx) as [Hin|[Hin|Hin]]; [|by right; left|by right; right].
    apply elem_of_union in Hin as [->%elem_of_singleton|Hin]; [by right; left|by left].
  - split_and!.
    + by constructor.
    + cbn [map]. apply NoDup_cons. split; [|done]. intros Hin. apply list_elem_of_fmap in Hin as (x & Ex & Hx).
      by destruct (Hrest x Hx) as (_ & Hne & _).
    + intros x [->|Hx]%elem_of_cons; [done|]. by destruct (Hrest x Hx) as (? & _ & ?).
    + intros x [->|Hx]%elem_of_cons; [right; right; by left|].
      destruct (H4 x Hx) as [Hin|[Hin|Hin]]; [|by right; left|right; right; by right].
      apply elem_of_union in Hin as [->%elem_of_singleton|Hin]; [right; right; by left|by left].
Qed.

Lemma committed_false (e : engine) h : engine_committed persistent e h = Ok false → h ∉ executed_tx_hashes (eng_chain e).
Proof.
  unfold engine_committed, try_is_transaction_committed, is_transaction_hash_executed. cbn.
  intros H Hin. by rewrite bool_decide_true in H.
Qed.

(** The checkpoint made of fresh transactions is valid on the chain it was made for. *)
Lemma next_valid (e : engine) b vs txs ts c root effs :
  fresh_transactions (engine_committed persistent e) ∅ b = Ok txs →
  next_checkpoint (eng_chain e) vs txs ts = Ok c → (sequence c < u64_max)%Z →
  validate_checkpoint (eng_chain e) (with_result root effs c) = Ok tt.
Proof.
  intros Hf Hn Hu. apply fresh_spec in Hf as (_ & Hnd & Hfr & _).
  unfold next_checkpoint in Hn. apply result_bind_ok in Hn as (latest & El & Hn).
  apply require_ok in El. apply result_bind_ok in Hn as (h & Eh & Hn). injection Hn as <-.
  apply validate_checkpoint_ok. exists latest. cbn [with_result checkpoint_new sequence prev_checkpoint_hash] in *.
  split_and!; [done| |done|done|].
  - unfold saturating_add in *. lia.
  - intros h' Hin. apply list_elem_of_fmap in Hin as (tx & -> & Htx). by apply committed_false, Hfr.
Qed.

(** *** Preparing *)

Local Abbreviation execute := (execute_checkpoint sha3_256 to_uppercase env runtime persist_versions fail_fast batching
  cap reload_vm_cache create_system_clock).

Lemma root_step s (e e1 : engine) r : state_root_with_changes persistent s e = (e1, r) → ∃ t, e1 = set_eng_tree t e.
Proof.
  unfold state_root_with_changes. destruct persistent.
  - destruct (try_compute_state_root_with_smt_changes _) as [x [[root changes]|err]]; intros [= <- _]; by eexists.
  - intros [= <- _]. exists (eng_tree e). by destruct e.
Qed.

Lemma prepare_step b c (e e1 : engine) r : prepare b c e = (e1, r) → ∃ t, e1 = set_eng_tree t e.
Proof.
  unfold prepare_checkpoint_state_inner. destruct (execute b c _ (eng_state e)) as [s [[txs effs]|err]].
  - unfold mbind, st_bind. destruct (state_root_with_changes persistent s e) as [e2 r2] eqn:E.
    apply root_step in E as [t ->]. destruct r2 as [[root changes]|err]; intros [= <- _]; by eexists.
  - intros [= <- _]. exists (eng_tree e). by destruct e.
Qed.

Lemma prepare_inv b c (e e1 : engine) p :
  prepare b c e = (e1, Ok p) →
  execute b c (uncommitted (engine_committed persistent e) (transactions c)) (eng_state e)
  = (prepared_state p, Ok (prepared_transactions p, prepared_effects p))
  ∧ state_root_with_changes persistent (prepared_state p) e = (e1, Ok (prepared_root p, prepared_smt_changes p)).
Proof.
  unfold prepare_checkpoint_state_inner. destruct (execute b c _ (eng_state e)) as [s [[txs effs]|err]]; [|done].
  intros H. apply st_bind_inv in H as (e2 & [root changes] & E & H). injection H as <- <-. done.
Qed.

(** The state a checkpoint leads to depends on its transactions and its time. *)
Lemma prepare_ext b c c' (e : engine) :
  transactions c = transactions c' → timestamp c = timestamp c' → prepare b c e = prepare b c' e.
Proof. intros H1 H2. unfold prepare_checkpoint_state_inner, execute_checkpoint. by rewrite H1, H2. Qed.

Lemma uncommitted_all committed txs sel :
  Forall (λ tx, committed (hash_of tx) = Ok false) txs → uncommitted committed txs = Ok sel → sel = txs.
Proof.
  intros H. revert sel. induction H as [|tx txs Ht _ IH]; intros sel; cbn [uncommitted]; [by intros [= <-]|].
  rewrite Ht. cbn [result_bind]. destruct (uncommitted committed txs) as [rest|]; [|done]. cbn. intros [= <-].
  f_equal. by apply IH.
Qed.

(** One effect per executed transaction. *)
Lemma execute_effects c sel s s' txs effs :
  execute false c sel s = (s', Ok (txs, effs)) → sel = Ok txs ∧ length effs = length txs.
Proof.
  unfold execute_checkpoint. intros H.
  apply st_bind_inv in H as (s1 & [] & _ & H). apply st_bind_inv in H as (s2 & l & Hl & H).
  apply st_bind_inv in H as (s3 & [] & _ & H). apply st_bind_inv in H as (s4 & [[ex fl] effs'] & Hx & H).
  apply st_bind_inv in H as (s5 & [] & _ & H). injection H as _ <- <-. injection Hl as _ ->. split; [done|].
  unfold execute_selected, execute_tx_waves_deterministic_parallel_with_effects in Hx.
  apply execute_batch_refines in Hx as (trace & Hp & E). injection E as _ _ ->.
  apply progress_length in Hp. cbn [app]. by rewrite length_map.
Qed.

(** *** Committing *)

Lemma smt_commit_overlay U D root changes x x' :
  smt_commit U D root changes x = (x', Ok tt) → overlay (base x') = ∅.
Proof.
  unfold smt_commit. intros H. apply st_bind_inv in H as (x1 & s & _ & H).
  apply st_bind_inv in H as (x2 & ch & _ & H). apply st_bind_inv in H as (x3 & [] & _ & H). by injection H as <-.
Qed.

Lemma commit_state_inv c s changes (e e' : engine) :
  commit_state sha3_256 to_uppercase to_lowercase env persistent c s changes e = (e', Ok tt) →
  eng_chain e' = eng_chain e ∧ eng_mempool e' = eng_mempool e ∧ overlay (eng_state e') = ∅
  ∧ earlier_stores e' = store (eng_state e) :: earlier_stores e.
Proof.
  unfold commit_state. destruct persistent; [|by intros [= <-]].
  destruct (checkpoint_raw_changes _ _ _ _ _ _ _) as [[U D]|err]; [|done].
  destruct (commit_with_raw_changes_verified_root_and_smt_changes _ _ _ _ _) as [x [[]|err]] eqn:E; [|done].
  intros [= <-]. split_and!; try done. cbn. unfold commit_with_raw_changes_verified_root_and_smt_changes in E.
  apply st_bind_inv in E as (x1 & root & _ & E). by apply smt_commit_overlay in E.
Qed.

Lemma on_disk_inv {A} (p : dk A) (e e' : engine) r :
  on_disk p e = (e', r) →
  eng_chain e' = eng_chain e ∧ eng_mempool e' = eng_mempool e ∧ eng_tree e' = eng_tree e
  ∧ ∃ d, p {| contents := store (eng_state e); earlier := earlier_stores e |} = (d, r)
         ∧ eng_state e' = on_store (contents d) (eng_state e) ∧ earlier_stores e' = earlier d.
Proof.
  unfold on_disk. destruct (p _) as [d r'] eqn:E. intros [= <- <-]. split_and!; try done. by exists d.
Qed.

(** What a successful finalization has done. *)
Lemma finalize_inv c s changes v (e e' : engine) :
  finalize c s changes v e = (e', Ok tt) →
  add_checkpoint_with_validation c true (eng_chain e) = (eng_chain e', Ok tt)
  ∧ eng_mempool e' = drain_committed (tx_hashes c) (eng_mempool e) ∧ overlay (eng_state e') = ∅
  ∧ (persistent = true → store (eng_state e') !! pending_checkpoint_commit_key = None)
  ∧ (v = true → validate_supply_invariants s = Ok tt).
Proof.
  unfold finalize_checkpoint, finalize_checkpoint_metadata. intros H.
  apply st_bind_inv in H as (e0 & [] & Hv & H). apply st_bind_inv in H as (e1 & [] & H1 & H).
  apply st_bind_inv in H as (e2 & [] & H2 & H). apply st_bind_inv in H as (e3 & [] & H3 & H).
  apply st_bind_inv in H as (e4 & [] & H4 & H5). unfold st_lift in Hv, H2. injection Hv as <- Hv. injection H2 as <- _.
  apply commit_state_inv in H1 as (C1 & M1 & O1 & _).
  apply st_bind_inv in H3 as (a1 & [] & A1 & H3). apply st_bind_inv in H3 as (a2 & [] & A2 & A3). injection A3 as <-.
  unfold add_to_chain in A1. rewrite C1 in A1.
  destruct (add_checkpoint_with_validation c true (eng_chain e)) as [chain [[]|err]] eqn:Ea; [|done]. injection A1 as <-.
  assert (D2 : eng_chain a2 = chain ∧ eng_mempool a2 = eng_mempool e1 ∧ overlay (eng_state a2) = ∅).
  { destruct (persistent && _); [|by injection A2 as <-]. unfold st_context, persist_blockchain_snapshot in A2.
    destruct persistent; [|by injection A2 as <-].
    destruct (on_disk _ _) as [a3 [[]|err]] eqn:Ed; [|done]. injection A2 as <-.
    apply on_disk_inv in Ed as (-> & -> & _ & d & _ & -> & _). done. }
  destruct D2 as (C2 & M2 & O2).
  assert (E4 : e4 = set_mempool (drain_committed (tx_hashes c) (eng_mempool a2)) a2).
  { destruct (existsb _ _); [|by injection H4 as <-]. apply st_bind_inv in H4 as (x & m & Hm & H4). injection Hm as <- <-.
    unfold st_context, st_lift in H4. destruct (refresh_committed_modules _); [|done]. by injection H4 as <-. }
  subst e4. assert (Hs : v = true → validate_supply_invariants s = Ok tt).
  { intros ->. by destruct (validate_supply_invariants s) as [[]|]. }
  destruct persistent.
  - apply on_disk_inv in H5 as (-> & -> & _ & d & Ed & -> & _). injection Ed as <-. cbn. rewrite C2, M2, M1, O2.
    split_and!; try done. intros _. apply lookup_delete_eq.
  - injection H5 as <-. cbn. rewrite C2, M2, M1, O2. done.
Qed.

(** ** The theorems *)

(** What a successful call did when no retained checkpoint has the vertices. *)
Lemma finalize_batch_inv b (e e' : engine) r :
  finalize_batch b e = (e', Ok r) →
  (∃ c, r = Some c ∧ e' = e ∧ c ∈ dag_checkpoints (eng_chain e) ∧ vertices c = batch_vertices b)
  ∨ ∃ txs, fresh_transactions (engine_committed persistent e) ∅ (batch_transactions b) = Ok txs ∧
    ((r = None ∧ e' = e ∧ txs = [])
     ∨ ∃ c0 p e1, txs ≠ [] ∧ r = Some (with_result (prepared_root p) (prepared_effects p) c0)
        ∧ next_checkpoint (eng_chain e) (batch_vertices b) txs
            (λ latest, Z.max (batch_timestamp_ms b) (saturating_add (timestamp latest) 1)) = Ok c0
        ∧ prepare false c0 e = (e1, Ok p)
        ∧ finalize (with_result (prepared_root p) (prepared_effects p) c0) (prepared_state p)
            (prepared_smt_changes p) true e1 = (e', Ok tt)).
Proof.
  unfold finalize_committed_batch. destruct (find _ _) as [c|] eqn:Ef.
  { intros [= <- <-]. left. exists c. apply find_some in Ef as [Hin Hv]. apply bool_decide_eq_true in Hv.
    by rewrite <- list_elem_of_In in Hin. }
  intros H. right. apply st_bind_inv in H as (e0 & txs & Ht & H). unfold st_lift in Ht. injection Ht as <- Ht.
  exists txs. split; [done|]. destruct (list_empty txs) eqn:El.
  { injection H as <- <-. left. by destruct txs. }
  right. apply st_bind_inv in H as (e0 & c0 & Hc & H). unfold st_lift in Hc. injection Hc as <- Hc.
  apply st_bind_inv in H as (e1 & p & Hp & H). apply st_bind_inv in H as (e2 & [] & Hf & H). injection H as <- <-.
  exists c0, p, e1. split_and!; try done. by destruct txs.
Qed.

Lemma append_latest bc c : latest_checkpoint (append_checkpoint bc c) = Some c.
Proof.
  unfold latest_checkpoint. rewrite append_dag. cbv zeta. destruct (MAX_RETAINED_BLOCKS <? _) eqn:E; [|apply last_snoc].
  destruct (dag_checkpoints bc) as [|a [|x l]]; [done..|]. cbn [app remove_second snd]. apply (last_snoc c (a :: l)).
Qed.

(** Finalizing a batch again changes nothing. *)
Lemma finalize_batch_again b (e e' : engine) r :
  finalize_batch b e = (e', Ok r) → ∃ r', finalize_batch b e' = (e', Ok r').
Proof.
  intros H. pose proof H as [(c & -> & -> & _)|(txs & _ & [(-> & -> & ->)|
    (c0 & p & e1 & _ & _ & Hn & Hp & Hz)])]%finalize_batch_inv; [by eexists..|].
  apply prepare_step in Hp as [t ->]. apply finalize_inv in Hz as (Ha & _). cbn [set_eng_tree eng_chain] in Ha.
  set (c := with_result _ _ c0) in *.
  assert (Hin : c ∈ dag_checkpoints (eng_chain e')).
  { apply add_ok_inv in Ha as [-> Hv]. apply last_Some_elem_of. by apply append_latest. }
  assert (Hv : vertices c = batch_vertices b).
  { unfold next_checkpoint in Hn. apply result_bind_ok in Hn as (latest & _ & Hn).
    apply result_bind_ok in Hn as (h & _ & Hn). by injection Hn as <-. }
  unfold finalize_committed_batch. destruct (find _ _) as [x|] eqn:Ef; [by eexists|].
  exfalso. apply list_elem_of_In in Hin. pose proof (List.find_none _ _ Ef c Hin) as Hx.
  cbn beta in Hx. by rewrite bool_decide_true in Hx.
Qed.
(** C17: what becomes of a committed batch.  If the engine reports success, then
    either a retained checkpoint already has the vertices of the batch and nothing
    changes; or every transaction of the batch is committed and nothing changes;
    or the chain is extended by one valid checkpoint with these vertices, whose
    transactions are those of the batch not committed before, each once and in
    order, with one effect each; the mempool is drained of them, nothing is left
    pending in the state and the recovery marker is gone.  Finalizing the batch
    once more changes nothing. *)
Theorem committed_batch_checkpoint b (e e' : engine) r :
  (∀ latest, latest_checkpoint (eng_chain e) = Some latest → sequence latest + 1 < u64_max)%Z →
  finalize_batch b e = (e', Ok r) →
  (∃ r', finalize_batch b e' = (e', Ok r')) ∧
  match r with
  | None => e' = e ∧ ∀ tx, tx ∈ batch_transactions b → engine_committed persistent e (hash_of tx) = Ok true
  | Some c => vertices c = batch_vertices b ∧
      ((e' = e ∧ c ∈ dag_checkpoints (eng_chain e))
       ∨ (validate_checkpoint (eng_chain e) c = Ok tt ∧ eng_chain e' = append_checkpoint (eng_chain e) c
          ∧ transactions c `sublist_of` batch_transactions b
          ∧ (∀ tx, tx ∈ batch_transactions b →
               engine_committed persistent e (hash_of tx) = Ok true ∨ hash_of tx ∈ tx_hashes c)
          ∧ (∀ tx, tx ∈ transactions c → engine_committed persistent e (hash_of tx) = Ok false)
          ∧ length (transaction_effects c) = length (transactions c) ∧ transactions c ≠ []
          ∧ eng_mempool e' = drain_committed (tx_hashes c) (eng_mempool e)
          ∧ overlay (eng_state e') = ∅
          ∧ (persistent = true → store (eng_state e') !! pending_checkpoint_commit_key = None)))
  end.
Proof.
  intros Hu H. split; [by eapply finalize_batch_again|]. apply finalize_batch_inv in H as [(c & -> & -> & Hin & Hv)|(txs & Hf & [(-> & -> & ->)|
    (c0 & p & e1 & Hne & -> & Hn & Hp & Hz)])]; [by split; [|left]| |].
  - split; [done|]. intros tx Htx. apply fresh_spec in Hf as (_ & _ & _ & Hall).
    destruct (Hall tx Htx) as [H|[H|H]]; [by apply elem_of_empty in H|done|by apply elem_of_nil in H].
  - pose proof Hf as (Hsub & _ & Hfr & Hall)%fresh_spec.
    assert (Ec : transactions c0 = txs ∧ vertices c0 = batch_vertices b
      ∧ ∃ latest, latest_checkpoint (eng_chain e) = Some latest ∧ sequence c0 = saturating_add (sequence latest) 1).
    { unfold next_checkpoint in Hn. apply result_bind_ok in Hn as (latest & El & Hn). apply require_ok in El.
      apply result_bind_ok in Hn as (h & _ & Hn). injection Hn as <-. split_and!; [done..|]. by exists latest. }
    destruct Ec as (Et & Ev & latest & El & Es). specialize (Hu latest El).
    assert (Hlt : (sequence c0 < u64_max)%Z) by (rewrite Es; unfold saturating_add; lia).
    pose proof (next_valid e _ _ _ _ c0 (prepared_root p) (prepared_effects p) Hf Hn Hlt) as Hval.
    pose proof Hp as [Hx _]%prepare_inv. apply execute_effects in Hx as [Hsel Hlen].
    assert (Hpt : prepared_transactions p = txs).
    { rewrite Et in Hsel. eapply uncommitted_all; [|exact Hsel]. apply Forall_forall. intros tx Htx. by apply Hfr. }
    apply prepare_step in Hp as [t ->]. apply finalize_inv in Hz as (Ha & Hm & Ho & Hk & _).
    cbn [set_eng_tree eng_chain eng_mempool] in Ha, Hm. apply add_ok_inv in Ha as [Ha _].
    cbn [with_result vertices transactions transaction_effects] in *. split; [done|]. right.
    rewrite Hlen, Hpt, Et. split_and!; try done.
    + intros tx Htx. destruct (Hall tx Htx) as [H|[H|H]]; [by apply elem_of_empty in H|by left|right].
      unfold tx_hashes. cbn [with_result transactions]. by rewrite Et.
    + intros tx Htx. by apply Hfr.
Qed.

(** C18: replicas accept each other's checkpoints.  The checkpoint one engine made
    of a batch is accepted, with the strict check of its root or without it, by
    every engine with the same ledger, which then has the ledger of the maker; the
    same checkpoint with another root is refused and changes nothing but the node
    cache of the tree. *)
Theorem produced_checkpoint_accepted b (e e' r : engine) c :
  finalize_batch b e = (e', Ok (Some c)) → c ∉ dag_checkpoints (eng_chain e) → same_ledger e r →
  (∃ r', apply c r = (r', Ok tt) ∧ same_ledger e' r')
  ∧ ∀ root, root ≠ state_root c →
      ∃ t err, apply (with_result root (transaction_effects c) c) r = (set_eng_tree t r, Err err).
Proof.
  intros H Hni Hr. apply finalize_batch_inv in H as [(c' & [= <-] & _ & Hin & _)|(txs & _ & [(? & _)|
    (c0 & p & e1 & _ & [= ->] & _ & Hp & Hz)])]; [done|done|].
  set (c := with_result (prepared_root p) (prepared_effects p) c0) in *.
  destruct (prepare_ledger false c0 e r Hr) as [Hl Ho]. rewrite Hp in Hl, Ho.
  destruct (prepare false c0 r) as [r1 o] eqn:Ep. cbn in Hl, Ho. subst o. split.
  - destruct (finalize_ledger c (prepared_state p) (prepared_smt_changes p) true e1 r1 Hl) as [Hl' Ho'].
    rewrite Hz in Hl', Ho'. destruct (finalize c _ _ true r1) as [r2 o] eqn:Ef. cbn in Hl', Ho'. subst o.
    exists r2. split; [|done]. unfold apply_checkpoint, prepare_checkpoint_state.
    rewrite (st_bind_ok _ _ r r1 p) by (rewrite (prepare_ext false c c0); [exact Ep|done..]).
    unfold ensure_checkpoint_root_matches, checkpoint_root_matches. rewrite bool_decide_true by done.
    exact Ef.
  - intros root Hroot. pose proof Ep as [t ->]%prepare_step. exists t. unfold apply_checkpoint, prepare_checkpoint_state.
    rewrite (st_bind_ok _ _ r (set_eng_tree t r) p) by (rewrite (prepare_ext false _ c0); [exact Ep|done..]).
    unfold ensure_checkpoint_root_matches, checkpoint_root_matches.
    rewrite bool_decide_false by (intros E; apply Hroot; exact (eq_sym E)).
    destruct strict_roots; cbn; by eexists.
Qed.

End Operations.
