(* ===== verification/CheckpointDurable.v ===== *)
(** * The commit of a checkpoint is durable

    The commit ties the state, its tree and the stored history together: whatever
    write a crash follows, the store represents the history with or without the
    new checkpoint, and a completed commit restores the invariant of the engine. *)

From stdpp Require Import base list gmap strings.
From Stdlib Require Import ZArith Lia.
From S2P Require Import Prelude Order Hashing Text Address Store SmtPath SmtSpec SmtTree SmtOps SmtCorrect SmtBatch GasCoin Transaction TypesTheorems Blockchain BlockchainTheorems Mempool Proposer ChangeSet StateManager StateSupply StateApply StateRoot StateRootTheorems StateSmt StateSmtTheorems History ChainReplay HistoryStore HistoryRecovery HistoryTheorems TypeArgs Execution Executor CheckpointEngine CheckpointTheorems.

(** ** The records of the history do not enter the root *)

Section Keys.
Context {HX : Hex}.

Definition history_key (k : bytes) : Prop := ¬ foreign k ∨ ∃ h, k = transaction_index_key h.

Lemma prefix_inert p x :
  p ∈ [str "checkpoint_meta/"; str "checkpoint_meta_json_v1/"; str "checkpoint_txs/"; str "tx_index/"; str "tx_payload/"] →
  inert (p ++ x).
Proof.
  intros Hp.
  assert (Hne : ∀ k, k ∈ [GENESIS_INITIALIZED_KEY; str "total_supply"; str "module_index"] → p ++ x ≠ k).
  { intros k Hk. repeat (apply elem_of_cons in Hp as [->|Hp]; [repeat (apply elem_of_cons in Hk as [->|Hk]; [discriminate|]);
      by apply elem_of_nil in Hk|]). by apply elem_of_nil in Hp. }
  unfold inert, is_canonical_state_root_key. rewrite !bool_decide_false by (apply Hne; set_solver).
  repeat (apply elem_of_cons in Hp as [->|Hp]; [split_and!; try reflexivity; apply Hne; set_solver|]).
  by apply elem_of_nil in Hp.
Qed.

Lemma history_inert k : history_key k → inert k.
Proof.
  intros [Hk|[h ->]]; [|apply prefix_inert; by rewrite !elem_of_cons; auto].
  destruct (checkpoint_sequence_of k) as [n|] eqn:E.
  - apply sequence_prefix in E as (p & x & -> & Hp & _). apply prefix_inert.
    rewrite !elem_of_cons in Hp. rewrite !elem_of_cons. destruct Hp as [->|[->|[->|Hp%elem_of_nil]]]; auto. done.
  - assert (Hs : k ∈ singletons) by (destruct (decide (k ∈ singletons)); [done|by destruct Hk]).
    unfold singletons in Hs. repeat (apply elem_of_cons in Hs as [->|Hs]; [by apply (bool_decide_unpack _); vm_compute|]).
    by apply elem_of_nil in Hs.
Qed.
End Keys.

(** ** Programs that write only such records *)

(** The two stores differ in such records only. *)
Definition agrees (m m' : gmap bytes bytes) : Prop := ∀ k, ¬ inert k → m' !! k = m !! k.
#[export] Instance agrees_preorder : PreOrder agrees.
Proof.
  split; [by intros m k|]. intros m1 m2 m3 H1 H2 k Hk. by rewrite (H2 k Hk), (H1 k Hk).
Qed.

(** Every store on the way, and the last one, agrees with the first. *)
Class InertOp {A} (p : dk A) : Prop :=
  inert_op : ∀ d, ∃ ms, earlier (p d).1 = ms ++ earlier d ∧ Forall (agrees (contents d)) (contents (p d).1 :: ms).

Lemma inert_step {A} (p : dk A) : (∀ d, (p d).1 = d) → InertOp p.
Proof. intros H d. exists []. rewrite H. split; [done|]. by apply Forall_singleton. Qed.
#[export] Instance inert_ret {A} (a : A) : InertOp (mret a).
Proof. by apply inert_step. Qed.
#[export] Instance inert_lift {A} (r : result A) : InertOp (st_lift r).
Proof. by apply inert_step. Qed.
#[export] Instance inert_read {A} (f : gmap bytes bytes → result A) : InertOp (read f).
Proof. by apply inert_step. Qed.
#[export] Instance inert_bind {A B} (p : dk A) (q : A → dk B) : InertOp p → (∀ a, InertOp (q a)) → InertOp (p ≫= q).
Proof.
  intros Hp Hq d. destruct (Hp d) as (ms & He & Hf). unfold mbind, st_bind. destruct (p d) as [d1 [a|err]]; [|by exists ms].
  cbn [fst] in *. destruct (Hq a d1) as (ms' & He' & Hf'). exists (ms' ++ ms). split; [by rewrite He', He, app_assoc|].
  apply Forall_cons in Hf as [H1 Hf]. rewrite app_comm_cons. apply Forall_app. split; [|done].
  eapply Forall_impl; [exact Hf'|]. intros m Hm. by transitivity (contents d1).
Qed.
#[export] Instance inert_if {A} (b : bool) (p q : dk A) : InertOp p → InertOp q → InertOp (if b then p else q).
Proof. by destruct b. Qed.
#[export] Instance inert_for_each {A} (l : list A) (body : A → dk unit) :
  (∀ a, InertOp (body a)) → InertOp (for_each l body).
Proof. intros H. induction l as [|a l IH]; cbn [for_each]; apply _. Qed.

Lemma inert_write f : (∀ m, agrees m (f m)) → InertOp (write f).
Proof. intros H d. exists [contents d]. split; [done|]. repeat constructor; [apply H|done..]. Qed.
Lemma inert_erase k : inert k → InertOp (erase k).
Proof. intros H. apply inert_write. intros m j Hj. apply lookup_delete_ne. by intros <-. Qed.
Lemma inert_save {T} (c : Codec T) k v : inert k → InertOp (save c k v).
Proof. intros H. apply inert_write. intros m j Hj. apply lookup_insert_ne. by intros <-. Qed.

Lemma raw_agree (U : list (bytes * bytes)) (D : list bytes) (m : gmap bytes bytes) :
  Forall inert (map fst U ++ D) → agrees m (apply_raw_changes U D m).
Proof.
  intros [Hu Hd]%Forall_app k Hk. rewrite Forall_forall in Hu, Hd. apply raw_unchanged.
  - intros Hin. by apply Hk, Hu.
  - intros Hin. by apply Hk, Hd.
Qed.

Section Persist.
Context {B3 : Blake3} {BC : Bcs} {BK : BcsCheckpoint} {HX : Hex} {SC : StateCodecs} {TT : TypeTags} {HC : HistoryCodecs}.
Context (sha3_256 to_uppercase to_lowercase : bytes → bytes) (env : bytes → option bytes) (rocks : bool).

Ltac inert_record :=
  match goal with
  | |- inert (checkpoint_metadata_key _) => apply prefix_inert; rewrite !elem_of_cons; auto
  | |- inert (checkpoint_metadata_json_key _) => apply prefix_inert; rewrite !elem_of_cons; auto
  | |- inert (checkpoint_transactions_key _) => apply prefix_inert; rewrite !elem_of_cons; auto 6
  | |- inert (transaction_index_key _) => apply prefix_inert; rewrite !elem_of_cons; auto 7
  | |- inert (transaction_payload_key _) => apply prefix_inert; rewrite !elem_of_cons; auto 8
  | |- inert _ => apply (bool_decide_unpack _); vm_compute; exact I
  end.

Lemma index_fold_inert b c txs acc :
  Forall inert (map fst acc.1.1) → Forall inert (map fst (fold_left (index_transaction b c) txs acc).1.1).
Proof.
  revert acc. induction txs as [|tx txs IH]; intros acc H; [done|]. cbn [fold_left]. apply IH.
  destruct acc as [[U recent] seen]. cbn in *. unfold index_transaction.
  assert (Hu : Forall inert (map fst (if b then U ++ [(transaction_index_key (hash_of tx),
    enc location_codec {| checkpoint_sequence := sequence c; location_state_root := state_root c |})] else U))).
  { destruct b; [|done]. rewrite map_app. apply Forall_app. split; [done|]. apply Forall_singleton. cbn [fst]. inert_record. }
  destruct (bool_decide _); exact Hu.
Qed.

Lemma raw_changes_inert m c mark U D :
  checkpoint_persistence_raw_changes sha3_256 to_uppercase to_lowercase env rocks m c mark = Ok (U, D) →
  Forall inert (map fst U ++ D).
Proof.
  unfold checkpoint_persistence_raw_changes.
  assert (Hmark : Forall inert (map fst (history_marker mark c))).
  { destruct mark; [|done]. apply Forall_singleton. cbn [fst]. inert_record. }
  assert (Hdel : Forall inert [checkpoint_metadata_json_key (sequence c)]) by (apply Forall_singleton; inert_record).
  destruct (list_empty (transactions c) || _).
  { intros [= <- <-]. apply Forall_app. split; [|done]. cbn [map fst]. constructor; [inert_record|done]. }
  intros H. apply result_bind_ok in H as (recent & _ & H).
  pose proof (index_fold_inert (persist_transaction_hash_index_enabled env rocks) c (transactions c)
    ([(checkpoint_metadata_key (sequence c), enc checkpoint_codec (forget (checkpoint_without_transactions c)))], recent,
     list_to_set recent)) as Hf.
  destruct (fold_left _ _ _) as [[U1 recent1] seen]. apply result_bind_ok in H as (w & _ & H). injection H as <- <-.
  cbn [fst] in Hf. rewrite !map_app. cbn [map fst]. rewrite !Forall_app, !Forall_singleton.
  split_and!; [|inert_record..|exact Hmark|inert_record].
  apply Hf, Forall_singleton. inert_record.
Qed.

#[export] Instance inert_persist_one c :
  InertOp (persist_checkpoint_transactions sha3_256 to_uppercase to_lowercase env rocks c).
Proof.
  intros d. unfold persist_checkpoint_transactions, mbind, st_bind, read.
  destruct (checkpoint_persistence_raw_changes _ _ _ _ _ _ _ _) as [[U D]|err] eqn:E.
  - apply (inert_write (apply_raw_changes U D)). intros m. apply raw_agree. by eapply raw_changes_inert.
  - by apply (inert_step (λ d, (d, Err err))).
Qed.
#[export] Instance inert_prune l seen : InertOp (prune_sequences l seen).
Proof.
  revert seen. induction l as [|n l IH]; intros seen; cbn [prune_sequences]; [apply _|].
  apply inert_bind; [apply _|]. intros loaded. apply inert_bind.
  - apply inert_for_each. intros h. apply inert_erase. inert_record.
  - intros []. apply inert_bind; [apply inert_erase; inert_record|]. intros []. apply IH.
Qed.
#[export] Instance inert_prune_all through : InertOp (prune_transaction_payloads through).
Proof.
  unfold prune_transaction_payloads. apply inert_if; [apply _|]. apply inert_bind; [apply _|]. intros previous.
  apply inert_if; [apply _|]. apply inert_bind; [apply _|]. intros pruned. apply inert_bind.
  - apply inert_if; [apply _|]. apply inert_bind; [apply _|]. intros recent. apply inert_save. inert_record.
  - intros []. apply inert_save. inert_record.
Qed.
#[export] Instance inert_persist chain :
  InertOp (persist_blockchain_snapshot_to_store sha3_256 to_uppercase to_lowercase env rocks chain).
Proof.
  unfold persist_blockchain_snapshot_to_store. apply inert_bind; [apply _|]. intros h. apply inert_bind; [apply _|].
  intros persisted. apply inert_bind; [apply _|]. intros []. apply inert_bind; [apply inert_save; inert_record|].
  intros []. apply inert_bind.
  - apply inert_if; [apply inert_save; inert_record|apply inert_erase; inert_record].
  - intros []. destruct (history_retention_checkpoints env); apply _.
Qed.
End Persist.

(** ** The invariant of an engine *)

Section Durable.
Context {B3 : Blake3} {BC : Bcs} {BK : BcsCheckpoint} {HX : Hex} {SC : StateCodecs} {TT : TypeTags}
  {HC : HistoryCodecs} `{Laws : KVStoreLaws DB}.
Local Abbreviation entries_t := (gmap bytes bytes).
Context (sha3_256 to_uppercase to_lowercase : bytes → bytes) (env : bytes → option bytes).
Context (refresh_committed_modules : entries_t → result unit) (clear_object_cache : result unit).
Local Abbreviation engine := (BlockchainEngine DB).
Local Abbreviation storable_checkpoint := (storable_checkpoint sha3_256 to_uppercase to_lowercase).
Local Abbreviation finalize := (finalize_checkpoint sha3_256 to_uppercase to_lowercase env true
  refresh_committed_modules clear_object_cache).
Local Abbreviation inline := (inline_checkpoint_metadata env true).

(** The store holds exactly the history [cs], the chain is that of [cs], nothing
    is pending and the tree is on the canonical entries [E]. *)
Record engine_ok (cs : list Checkpoint) (E : entries_t) (e : engine) : Prop := {
  ok_history : consistent cs (store (eng_state e));
  ok_unmarked : store (eng_state e) !! pending_checkpoint_commit_key = None;
  ok_chain : chain_of sha3_256 to_uppercase to_lowercase cs (eng_chain e);
  ok_tracks : tracks E {| base := eng_state e; tree := eng_tree e |};
  ok_overlay : overlay (eng_state e) = ∅
}.

(** A store without any record of the history. *)
Lemma fresh_consistent (m : entries_t) : map_Forall (λ k _, foreign k) m → consistent [] m.
Proof.
  intros Hf. assert (Hnone : ∀ k, k ∈ singletons → m !! k = None).
  { intros k Hk. destruct (m !! k) as [v|] eqn:E; [|done]. destruct (Hf k v E) as [_ Hn]. by destruct Hn. }
  assert (Hs : ∀ k, bool_decide (k ∈ singletons) = true → m !! k = None)
    by (intros k Hk; apply Hnone; by apply bool_decide_eq_true in Hk).
  exists [], []. split.
  - split; try (by intros c ?%elem_of_nil).
    + intros k n [v Hk] Hn. destruct (Hf k v Hk) as [Hn' _]. congruence.
    + exists []. split; [|constructor]. unfold load_recent_transaction_hashes_for_update.
      by rewrite store_load_none by (by apply Hs).
    + exists ∅. split; [|apply map_Forall_empty]. unfold load_sender_nonce_watermark.
      by rewrite store_load_none by (by apply Hs).
  - by left.
  - left. by apply Hs.
  - left. by apply Hs.
  - split; [by left|done].
  - left. by apply Hs.
  - by apply Hs.
Qed.

(** A state prepared on the store of the engine, with canonical entries [E1]. *)
Record staged (e : engine) (s : StateManager) (E1 : entries_t) : Prop := {
  staged_store : store s = store (eng_state e);
  staged_indexed : indexed_state (store s);
  staged_view : indexed_state (merged_entries s);
  staged_snapshot : try_canonical_state_snapshot s = Ok E1;
  staged_separated : separated (state_keys s);
  staged_foreign : Forall foreign (map fst (overlay_updates s) ++ overlay_deletes s)
}.

Lemma on_store_same s : on_store (store s) s = s.
Proof. by destruct s. Qed.

Lemma tracks_inert E (x : SmtManager DB) s' :
  tracks E x → agrees (store (base x)) (store s') → tracks E {| base := s'; tree := tree x |}.
Proof.
  intros (Hg & Hc & Hb) H. split_and!; [done| |done]. cbn [base]. unfold canonical_persisted_entries in *.
  by apply (retain_agree (store (base x))).
Qed.

Lemma chain_grows cs c ch :
  chain_of sha3_256 to_uppercase to_lowercase cs ch → storable_checkpoint c →
  chain_of sha3_256 to_uppercase to_lowercase (cs ++ [c]) (append_checkpoint ch c).
Proof.
  intros [H1 H2 H3] Hc. split.
  - rewrite append_dag. cbv zeta. rewrite window_snoc.
    pose proof (f_equal length H1) as Hl. rewrite !length_map in Hl. cbn [length] in Hl.
    rewrite !length_app, Hl. cbn [length]. rewrite !length_app. cbn [length].
    replace (S (length (window cs)) + 1) with (S (length (window cs) + 1)) by lia.
    destruct (MAX_RETAINED_BLOCKS <? S (length (window cs) + 1)) eqn:E.
    + destruct (dag_checkpoints ch) as [|a l]; [done|]. cbn [map] in H1. apply (inj2 cons) in H1 as [Ha Hw].
      destruct l as [|b l]; [destruct (window cs); [done|done]|]. destruct (window cs) as [|w ws]; [done|].
      cbn [map] in Hw. apply (inj2 cons) in Hw as [_ Hw]. cbn [app remove_second snd tail map]. by rewrite Ha, !map_app, Hw.
    + rewrite app_comm_cons, !map_app. by rewrite H1.
  - by apply append_counted.
  - rewrite append_dag. cbv zeta. assert (Hall : Forall storable_checkpoint (dag_checkpoints ch ++ [c])).
    { apply Forall_app. split; [done|]. by apply Forall_singleton. }
    destruct (_ <? _); [|done]. destruct (dag_checkpoints ch ++ [c]) as [|a [|b l]]; [done..|].
    cbn [remove_second snd]. inversion Hall as [|? ? Ha Hb]. inversion Hb. by constructor.
Qed.

(** A store with the history [cs] and the canonical entries [E]. *)
Definition version (cs : list Checkpoint) (E m : entries_t) : Prop :=
  consistent cs m ∧ retain_canonical_state_root_entries m = Ok E.

(** A crash-safe program on the store of an engine. *)
Lemma on_disk_triple (hs : list Checkpoint) (pre : entries_t → Prop) (post : unit → entries_t → Prop) (p : dk unit) (e : engine) (E : entries_t) :
  crash_triple (consistent hs) pre p post → InertOp p → pre (store (eng_state e)) →
  tracks E {| base := eng_state e; tree := eng_tree e |} →
  ∃ e' ms, on_disk p e = (e', Ok tt) ∧ post tt (store (eng_state e'))
    ∧ earlier_stores e' = ms ++ earlier_stores e ∧ Forall (version hs E) ms
    ∧ eng_chain e' = eng_chain e ∧ overlay (eng_state e') = overlay (eng_state e)
    ∧ tracks E {| base := eng_state e'; tree := eng_tree e' |}.
Proof.
  intros T Hi Hp Ht. destruct (T {| contents := store (eng_state e); earlier := earlier_stores e |} Hp)
    as (d & [] & ms & Ed & Hpost & He & Hc).
  destruct (Hi {| contents := store (eng_state e); earlier := earlier_stores e |}) as (ms' & He' & Ha).
  exists (on_disk p e).1, ms. unfold on_disk. rewrite Ed in He', Ha |- *.
  cbn [fst eng_state eng_tree eng_chain earlier_stores contents earlier] in *.
  assert (ms' = ms) as -> by (rewrite He in He'; by apply app_inv_tail in He').
  apply Forall_cons in Ha as [Hd Ha]. split_and!; try done.
  - apply Forall_forall. intros m Hm. rewrite Forall_forall in Hc, Ha. split; [by apply Hc|].
    apply (retain_agree (store (eng_state e))); [apply Ha, Hm|apply Ht].
  - apply (tracks_inert _ _ (on_store (contents d) (eng_state e)) Ht). exact Hd.
Qed.

(** ** One commit *)

Section Commit.
Context (cs : list Checkpoint) (c : Checkpoint) (bc : Blockchain) (e : engine) (s : StateManager) (E0 E1 : entries_t).
Hypothesis no_retention : history_retention_checkpoints env = None.
(** Without snapshots, none of an earlier configuration is left. *)
Hypothesis no_snapshot : inline = true → store (eng_state e) !! blockchain_json_key = None.
Hypothesis runtime_ready : clear_object_cache = Ok tt ∧ ∀ m, refresh_committed_modules m = Ok tt.
Hypothesis before : engine_ok cs E0 e.
Hypothesis prepared : staged e s E1.
Hypothesis history_valid : replay (cs ++ [c]) blockchain_new = Some bc.
Hypothesis history_storable : Forall storable_checkpoint (cs ++ [c]).
Hypothesis genesis_storable : storable_checkpoint genesis.
Hypothesis valid_here : validate_checkpoint (eng_chain e) c = Ok tt.
Local Abbreviation m0 := (store (eng_state e)).
Local Abbreviation cs' := (cs ++ [c]).

(** The records beside the state, and what the batch leaves. *)
Lemma raw_changes_ready :
  ∃ U D, checkpoint_raw_changes sha3_256 to_uppercase to_lowercase env true m0 c = Ok (U, D)
    ∧ Forall inert (map fst U ++ D)
    ∧ let m := apply_raw_changes (U ++ overlay_updates s) (D ++ overlay_deletes s) m0 in
      consistent cs' m ∧ (inline = true → holds cs' cs' cs' m ∧ m !! blockchain_json_key = None).
Proof.
  destruct before as [Hh Hu _ _ _]. unfold checkpoint_raw_changes.
  assert (Hmarker : inert pending_checkpoint_commit_key) by (by apply (bool_decide_unpack _); vm_compute).
  destruct inline eqn:Ei.
  - destruct (commit_inline sha3_256 to_uppercase to_lowercase env true cs c bc m0 history_valid history_storable Hh Hu
      (overlay_updates s) (overlay_deletes s) (staged_foreign _ _ _ prepared)) as (U & D & EU & _ & Hholds & Hjson).
    pose proof (raw_changes_inert _ _ _ _ _ _ _ _ _ _ EU) as Hin. rewrite EU. cbn [result_bind].
    eexists _, _. split; [done|]. split.
    { rewrite map_app, !Forall_app. rewrite Forall_app in Hin. destruct Hin. split_and!; [done| |done].
      by apply Forall_singleton. }
    cbv zeta. rewrite no_snapshot in Hjson by done. split; [by exists cs', cs|]. intros _.
    destruct Hholds as [H1 H2 H3 _ _ H6 H7]. split; [|done].
    split; [done|done|done|by left|split; [by left|done]|done|done].
  - pose proof (commit_marker sha3_256 to_uppercase to_lowercase cs c bc m0 history_valid history_storable Hh Hu
      (overlay_updates s) (overlay_deletes s) (staged_foreign _ _ _ prepared)) as Hm.
    eexists _, _. cbn [result_bind]. split; [done|]. split; [by apply Forall_singleton|]. by cbv zeta.
Qed.

Lemma commit_step e1 root changes :
  state_root_with_changes true s e = (e1, Ok (root, changes)) → state_root c = root →
  ∃ e2, commit_state sha3_256 to_uppercase to_lowercase env true c s changes e1 = (e2, Ok tt)
    ∧ eng_chain e2 = eng_chain e ∧ earlier_stores e2 = m0 :: earlier_stores e
    ∧ tracks E1 {| base := eng_state e2; tree := eng_tree e2 |} ∧ overlay (eng_state e2) = ∅
    ∧ root = compute_sparse_root (btree_iter E1)
    ∧ consistent cs' (store (eng_state e2))
    ∧ (inline = true → holds cs' cs' cs' (store (eng_state e2)) ∧ store (eng_state e2) !! blockchain_json_key = None).
Proof.
  intros Er Ec. destruct raw_changes_ready as (U & D & Eraw & Hin & Hcons). cbv zeta in Hcons.
  destruct prepared as [Hst Hi Hv Hsn Hsep _]. destruct before as [_ _ _ Ht _].
  assert (Ht0 : tracks E0 {| base := s; tree := eng_tree e |}).
  { apply (tracks_inert _ _ s Ht). intros k _. cbn [base]. by rewrite Hst. }
  destruct (commit_announced {| base := s; tree := eng_tree e |} E0 E1 Hi Hv Ht0 Hsn Hsep U D Hin)
    as (root' & changes' & t & t' & Ea & Hroot & Ecm & Htr & Hlen). cbn [base tree] in *.
  unfold state_root_with_changes in Er. rewrite Ea in Er. injection Er as <- <- <-.
  unfold commit_state. cbn [set_eng_tree eng_state eng_tree eng_chain eng_mempool earlier_stores]. rewrite Eraw.
  assert (Eon : on_store m0 s = s) by (rewrite <- Hst; apply on_store_same). rewrite Eon.
  unfold commit_with_raw_changes_verified_root_and_smt_changes, verified_root_of. rewrite Ec, Hlen. cbn [Nat.eqb].
  unfold mbind at 1, st_bind at 1, st_lift. cbn [ensure result_bind]. rewrite Ecm.
  eexists. split; [done|]. cbn [eng_chain earlier_stores eng_state eng_tree base tree]. split_and!; try done.
  - cbn. rewrite Hst. apply Hcons.
  - cbn. rewrite Hst. apply Hcons.
Qed.

(** The records of the checkpoint, when the batch did not have them. *)
Lemma metadata_step e2 :
  eng_chain e2 = eng_chain e → tracks E1 {| base := eng_state e2; tree := eng_tree e2 |} →
  overlay (eng_state e2) = ∅ → consistent cs' (store (eng_state e2)) →
  (inline = true → holds cs' cs' cs' (store (eng_state e2)) ∧ store (eng_state e2) !! blockchain_json_key = None) →
  ∃ e3 ms, finalize_checkpoint_metadata sha3_256 to_uppercase to_lowercase env true c inline e2 = (e3, Ok tt)
    ∧ eng_chain e3 = append_checkpoint (eng_chain e) c ∧ (∃ kept, holds kept cs' cs' (store (eng_state e3)))
    ∧ earlier_stores e3 = ms ++ earlier_stores e2 ∧ Forall (version cs' E1) ms
    ∧ tracks E1 {| base := eng_state e3; tree := eng_tree e3 |} ∧ overlay (eng_state e3) = ∅
    ∧ (inline = true → store (eng_state e3) !! blockchain_json_key = None).
Proof.
  intros Hch Ht Ho Hc Hin. unfold finalize_checkpoint_metadata.
  set (e2' := set_chain (append_checkpoint (eng_chain e) c) e2).
  rewrite (st_bind_ok _ _ e2 e2' tt) by (unfold add_to_chain; by rewrite Hch, (add_ok _ _ valid_here)).
  destruct inline eqn:Ei; cbn [negb andb].
  { eexists _, []. unfold mbind, st_bind. split; [reflexivity|]. cbn. split_and!; try done; [|intros _; by apply Hin]. exists cs'. by apply Hin. }
  assert (Hs : storable_checkpoint c).
  { apply (proj1 (Forall_forall _ _) history_storable), elem_of_app. right. by apply list_elem_of_singleton. }
  pose proof (persist_triple sha3_256 to_uppercase to_lowercase env true cs' bc no_retention history_valid
    history_storable cs' (append_checkpoint (eng_chain e) c) (chain_grows _ _ _ (ok_chain _ _ _ before) Hs)) as T.
  destruct (on_disk_triple _ _ _ _ e2' E1 T (inert_persist _ _ _ _ _ _)) as (e3 & ms & Ed & Hk & He & Hcr & Hch3 & Ho3 & Ht3);
    [by split; [|left]|done|].
  assert (Ep : st_context (persist_blockchain_snapshot sha3_256 to_uppercase to_lowercase env true)
    "Failed to persist blockchain metadata for checkpoint" e2' = (e3, Ok tt)).
  { unfold st_context, persist_blockchain_snapshot. change (eng_chain e2') with (append_checkpoint (eng_chain e) c).
    by rewrite Ed. }
  rewrite (st_bind_ok _ _ _ _ _ Ep).
  eexists _, ms. split; [reflexivity|]. cbn. split_and!; [by rewrite Hch3|done..|by rewrite Ho3|done].
Qed.

Lemma finalize_step e1 root changes v :
  state_root_with_changes true s e = (e1, Ok (root, changes)) → state_root c = root →
  (v = true → validate_supply_invariants s = Ok tt) →
  ∃ e' ms, finalize c s changes v e1 = (e', Ok tt)
    ∧ engine_ok cs' E1 e' ∧ eng_chain e' = append_checkpoint (eng_chain e) c
    ∧ root = compute_sparse_root (btree_iter E1)
    ∧ earlier_stores e' = ms ++ earlier_stores e ∧ Forall (λ m, version cs E0 m ∨ version cs' E1 m) ms
    ∧ (inline = true → store (eng_state e') !! blockchain_json_key = None).
Proof.
  intros Er Ec Hv. destruct runtime_ready as [Hclear Hrefresh].
  destruct (commit_step e1 root changes Er Ec) as (e2 & E2 & C2 & S2 & T2 & O2 & Hroot & H2 & Hin).
  destruct (metadata_step e2 C2 T2 O2 H2 Hin) as (e3 & ms & E3 & C3 & (kept & K3) & S3 & F3 & T3 & O3 & J3).
  assert (Te : crash_triple (consistent cs')
    (λ m, holds kept cs' cs' m ∧ (inline = true → m !! blockchain_json_key = None)) (erase pending_checkpoint_commit_key)
    (λ _ m, holds cs' cs' cs' m ∧ m !! pending_checkpoint_commit_key = None
            ∧ (inline = true → m !! blockchain_json_key = None))).
  { apply triple_write. intros m [Hm Hj]. split; [by exists kept, cs'|].
    split_and!; [|apply lookup_delete_eq|by rewrite lookup_delete_ne].
    by apply (marker_erased sha3_256 to_uppercase to_lowercase cs' bc history_valid history_storable kept). }
  destruct (on_disk_triple _ _ _ _ e3 E1 Te) as (e4 & ms' & E4 & (K4 & N4 & J4) & S4 & F4 & C4 & O4 & T4);
    [apply inert_erase; by apply (bool_decide_unpack _); vm_compute|done|done|].
  exists e4, (ms' ++ ms ++ [m0]). unfold finalize_checkpoint.
  rewrite (st_bind_ok _ _ e1 e1 tt) by (unfold st_lift; destruct v; [by rewrite Hv|done]).
  rewrite (st_bind_ok _ _ _ _ _ E2). rewrite Hclear. rewrite (st_bind_ok _ _ e2 e2 tt) by done.
  rewrite (st_bind_ok _ _ _ _ _ E3).
  rewrite (st_bind_ok _ _ e3 e3 tt).
  2:{ destruct (existsb _ _); [|done]. unfold mbind, st_bind, st_gets, st_context, st_lift. by rewrite Hrefresh. }
  split; [exact E4|]. assert (Hs : storable_checkpoint c).
  { apply (proj1 (Forall_forall _ _) history_storable), elem_of_app. right. by apply list_elem_of_singleton. }
  split_and!; try done.
  - split; [by exists cs', cs'|done| |done|by rewrite O4].
    rewrite C4, C3. by apply chain_grows; [apply (ok_chain _ _ _ before)|].
  - by rewrite C4.
  - rewrite S4, S3, S2. by rewrite <- !app_assoc.
  - rewrite !Forall_app. split_and!; [eapply Forall_impl; [exact F4|]; by right|eapply Forall_impl; [exact F3|]; by right|].
    apply Forall_singleton. left. split; [apply (ok_history _ _ _ before)|].
    apply (ok_tracks _ _ _ before).
Qed.

(** What a start finds in a store of that version. *)
Lemma version_restart (init_genesis : st StateManager unit) (fail_fast strict : bool) (hs : list Checkpoint) (bck ch : Blockchain) (E m : entries_t) :
  replay hs blockchain_new = Some bck → Forall storable_checkpoint hs →
  chain_of sha3_256 to_uppercase to_lowercase hs ch → hs ≠ [] ∨ strict = false → version hs E m →
  ∃ d ch', init_chain sha3_256 to_uppercase to_lowercase env true init_genesis fail_fast strict
             {| contents := m; earlier := [] |} = (d, Ok ch')
    ∧ dag_checkpoints ch' = map forget (dag_checkpoints ch).
Proof.
  intros Hr Hs Hch Hne [Hv _].
  destruct (init_triple sha3_256 to_uppercase to_lowercase env true hs bck no_retention Hr Hs genesis_storable
    init_genesis fail_fast strict Hne {| contents := m; earlier := [] |} Hv) as (d & ch' & ms & Ei & (_ & _ & Hst & _) & _).
  exists d, ch'. split; [done|]. by rewrite (step_dag _ _ Hst), (proj1 (replay_dag _ _ Hr)), (chain_dag _ _ _ _ _ Hch).
Qed.

(** C13: the commit of a checkpoint is atomic and durable.  On a node whose store,
    tree and chain agree, that keeps its whole history ([no_retention]) and has no
    JSON snapshot left from another configuration ([no_snapshot]), committing a
    valid checkpoint with its announced root and a prepared state whose objects
    are indexed, whose keys do not meet in the tree and whose overlay leaves the
    records of the history alone ([staged]) succeeds, and leaves a node whose
    store, tree and chain agree again, with the checkpoint on the chain and the
    root the announced one.  Whatever write a crash follows, a start from what is
    on disk then succeeds with either the chain and the state before the commit, or
    the chain and the state after it.  [stale_snapshot_rewinds],
    [pruned_history_lost] and [sharing_splits_roots] show what the conditions
    exclude. *)
Theorem checkpoint_commit_durable (init_genesis : st StateManager unit) (fail_fast strict : bool) (e1 : engine) root changes v :
  state_root_with_changes true s e = (e1, Ok (root, changes)) → state_root c = root →
  (v = true → validate_supply_invariants s = Ok tt) → cs ≠ [] ∨ strict = false →
  ∃ e' ms, finalize c s changes v e1 = (e', Ok tt)
    ∧ engine_ok cs' E1 e' ∧ eng_chain e' = append_checkpoint (eng_chain e) c
    ∧ root = compute_sparse_root (btree_iter E1) ∧ root_hash (eng_tree e') = (eng_tree e', Ok root)
    ∧ earlier_stores e' = ms ++ earlier_stores e
    ∧ ∀ m, m ∈ store (eng_state e') :: ms →
        ∃ d ch, init_chain sha3_256 to_uppercase to_lowercase env true init_genesis fail_fast strict
                  {| contents := m; earlier := [] |} = (d, Ok ch)
          ∧ ((dag_checkpoints ch = map forget (dag_checkpoints (eng_chain e))
              ∧ retain_canonical_state_root_entries m = Ok E0)
             ∨ (dag_checkpoints ch = map forget (dag_checkpoints (eng_chain e'))
                ∧ retain_canonical_state_root_entries m = Ok E1)).
Proof.
  intros Er Ec Hv Hne.
  destruct (finalize_step e1 root changes v Er Ec Hv) as (e' & ms & Ef & Hok & Hch & Hroot & Hst & Hvs & _).
  exists e', ms. destruct (ok_tracks _ _ _ Hok) as (Hg & Hc & Hb). split_and!; try done.
  { rewrite Hroot. apply (tracked_root E1 {| base := eng_state e'; tree := eng_tree e' |}), (ok_tracks _ _ _ Hok). }
  assert (Hall : Forall (λ m, version cs E0 m ∨ version cs' E1 m) (store (eng_state e') :: ms)).
  { constructor; [right; split; [apply (ok_history _ _ _ Hok)|exact Hc]|done]. }
  intros m Hm. rewrite Forall_forall in Hall. destruct (Hall m Hm) as [Hx|Hx].
  - pose proof history_valid as Hr. rewrite replay_app in Hr. destruct (replay cs blockchain_new) as [bc0|] eqn:Er0; [|done].
    destruct (version_restart init_genesis fail_fast strict cs bc0 (eng_chain e) E0 m) as (d & ch & Ei & Hd);
      [done|by apply Forall_app in history_storable as [? _]|apply (ok_chain _ _ _ before)|done|done|].
    exists d, ch. split; [done|]. left. split; [done|apply Hx].
  - destruct (version_restart init_genesis fail_fast strict cs' bc (eng_chain e') E1 m) as (d & ch & Ei & Hd);
      [done|done|apply (ok_chain _ _ _ Hok)|left; by destruct cs|done|].
    exists d, ch. split; [done|]. right. split; [done|apply Hx].
Qed.
End Commit.

(** ** The life of a node *)

Section Life.
Hypothesis no_retention : history_retention_checkpoints env = None.
Hypothesis runtime_ready : clear_object_cache = Ok tt ∧ ∀ m, refresh_committed_modules m = Ok tt.
Hypothesis genesis_storable : storable_checkpoint genesis.

(** A new node: its store has no record of a history, its tree is on the
    canonical entries of the store. *)
Record fresh (E : entries_t) (e : engine) : Prop := {
  fresh_store : map_Forall (λ k _, foreign k) (store (eng_state e));
  fresh_chain : eng_chain e = blockchain_new;
  fresh_tracks : tracks E {| base := eng_state e; tree := eng_tree e |};
  fresh_overlay : overlay (eng_state e) = ∅;
  fresh_disk : earlier_stores e = []
}.

(** A new node and the commits it has finished; [earlier_stores] collects every
    store that was on disk on the way. *)
Inductive life : list Checkpoint → entries_t → engine → Prop :=
| life_new E e : fresh E e → life [] E e
| life_commit cs E0 e c s E1 e1 changes v e' :
    life cs E0 e → staged e s E1 → storable_checkpoint c → validate_checkpoint (eng_chain e) c = Ok tt →
    state_root_with_changes true s e = (e1, Ok (state_root c, changes)) →
    finalize c s changes v e1 = (e', Ok tt) → life (cs ++ [c]) E1 e'.

(** The store has the history [hs], and its state the root of the last checkpoint. *)
Definition snapshot_of (hs : list Checkpoint) (m : entries_t) : Prop :=
  ∃ E, version hs E m ∧ ∀ c, last hs = Some c → state_root c = compute_sparse_root (btree_iter E).

Record alive (cs : list Checkpoint) (E : entries_t) (e : engine) : Prop := {
  alive_ok : engine_ok cs E e;
  alive_chain : replay cs blockchain_new = Some (eng_chain e);
  alive_storable : Forall storable_checkpoint cs;
  alive_snapshot : inline = true → store (eng_state e) !! blockchain_json_key = None;
  alive_root : ∀ c, last cs = Some c → state_root c = compute_sparse_root (btree_iter E);
  alive_disk : Forall (λ m, ∃ hs, hs `prefix_of` cs ∧ snapshot_of hs m) (earlier_stores e)
}.

Lemma fresh_alive E e : fresh E e → alive [] E e.
Proof.
  intros [Hs Hc Ht Ho Hd].
  assert (Hnone : ∀ k, bool_decide (k ∈ singletons) = true → store (eng_state e) !! k = None).
  { intros k Hk%bool_decide_eq_true. destruct (store (eng_state e) !! k) as [v|] eqn:Ek; [|done].
    by destruct (Hs k v Ek) as [_ Hn]. }
  split.
  - split; [by apply fresh_consistent|by apply Hnone| |done|done]. rewrite Hc.
    split; [done|by vm_compute|by apply Forall_singleton].
  - by rewrite Hc.
  - constructor.
  - intros _. by apply Hnone.
  - done.
  - by rewrite Hd.
Qed.

Lemma finalize_validated c s changes v e1 e' :
  finalize c s changes v e1 = (e', Ok tt) → v = true → validate_supply_invariants s = Ok tt.
Proof.
  intros Hf ->. unfold finalize_checkpoint in Hf. apply st_bind_inv in Hf as (x & [] & E & _).
  unfold st_lift in E. injection E as _ E. revert E. by destruct (validate_supply_invariants s) as [[]|].
Qed.

Lemma life_alive cs E e : life cs E e → alive cs E e.
Proof.
  induction 1 as [E e Hf|cs E0 e c s E1 e1 changes v e' _ [Hok Hch Hst Hj Hr Hd] Hs Hc Hv Er Ef];
    [by apply fresh_alive|].
  assert (Hall : Forall storable_checkpoint (cs ++ [c])) by (apply Forall_app; split; [done|by apply Forall_singleton]).
  pose proof (replay_snoc_ok _ _ _ _ Hch Hv) as Hreplay.
  destruct (finalize_step cs c (append_checkpoint (eng_chain e) c) e s E0 E1 no_retention Hj runtime_ready Hok Hs
    Hreplay Hall Hv e1 (state_root c) changes v Er eq_refl (finalize_validated _ _ _ _ _ _ Ef))
    as (e2 & ms & Ef' & Hok' & Hch' & Hroot & He & Hvs & Hj').
  rewrite Ef in Ef'. injection Ef' as <-.
  assert (Hlast : ∀ x, last (cs ++ [c]) = Some x → state_root x = compute_sparse_root (btree_iter E1)).
  { intros x. rewrite last_snoc. intros [= <-]. exact Hroot. }
  split; [done|by rewrite Hch'|done|done|done|]. rewrite He. apply Forall_app. split.
  - eapply Forall_impl; [exact Hvs|]. intros m [Hm|Hm]; [exists cs|exists (cs ++ [c])]; (split; [|by eexists]).
    + by apply prefix_app_r.
    + done.
  - eapply Forall_impl; [exact Hd|]. intros m (hs & Hp & Hm). exists hs. split; [by apply prefix_app_r|done].
Qed.

(** Starting again and again: each start may crash after any of its writes, and
    the next one finds what was then on disk. *)
Context (init_genesis : st StateManager unit) (fail_fast : bool).
Local Abbreviation start strict m :=
  (init_chain sha3_256 to_uppercase to_lowercase env true init_genesis fail_fast strict {| contents := m; earlier := [] |}).

Inductive started (strict : bool) (m : entries_t) : entries_t → Prop :=
| started_never : started strict m m
| started_again m1 d r m2 :
    started strict m m1 → start strict m1 = (d, r) → m2 ∈ contents d :: earlier d → started strict m m2.

Lemma started_consistent strict hs bc m m' :
  replay hs blockchain_new = Some bc → Forall storable_checkpoint hs → hs ≠ [] ∨ strict = false →
  consistent hs m → started strict m m' → consistent hs m'.
Proof.
  intros Hr Hs Hne Hc. induction 1 as [|m1 d r m2 _ IH Ei Hin]; [done|].
  destruct (init_triple sha3_256 to_uppercase to_lowercase env true hs bc no_retention Hr Hs genesis_storable
    init_genesis fail_fast strict Hne {| contents := m1; earlier := [] |} IH) as (d' & ch & ms & Ei' & (H1 & _) & He & Hms).
  rewrite Ei in Ei'. injection Ei' as <- ->. rewrite He in Hin. cbn [earlier] in Hin. rewrite app_nil_r in Hin.
  apply elem_of_cons in Hin as [->|Hin]; [done|]. rewrite Forall_forall in Hms. by apply Hms.
Qed.

End Life.
End Durable.
