(* ===== verification/CheckpointRuns.v ===== *)
(** * Runs of the checkpoint engine

    A node without a database finalizes a batch of two payments and another node
    accepts the checkpoint; a node with a database commits a checkpoint. *)

From stdpp Require Import base list gmap strings.
From Stdlib Require Import ZArith Lia.
From S2P Require Import Prelude Order Hashing Text Address Store SmtPath SmtSpec SmtTree SmtOps SmtCorrect SmtBatch SmtTheorems GasCoin Transaction TypesTheorems Blockchain BlockchainTheorems Scheduler Mempool Proposer ChangeSet ApplyBatch StateManager StateSupply StateApply StateRoot StateRootTheorems StateSmt StateSmtTheorems History ChainReplay HistoryStore HistoryRecovery HistoryTheorems TypeArgs Execution ExecutionRuns Executor CheckpointEngine CheckpointTheorems CheckpointDurable.

(** ** Two replicas *)

Module Replicas.
Import HistoryTheorems.Runs ToyHistory ToyHash RealHex RunBcs ToyCodecs MemStore SmtTheorems.Runs ExecutionRuns.Runs ExecutorTheorems.Runs.
Local Open Scope Z_scope.

(** The state of the payments, with the clock. *)
Definition clock_id : bytes := account 6.
Definition clock_object : StoredObject :=
  {| stored_id := MoveAddress.to_hex_literal clock_id; stored_owner := account 0; stored_owner_kind := Shared;
     type_name := str "0x2::clock::Clock"; stored_data := clock_data clock_id 0; stored_version := 1 |}.
Definition with_clock : StateManager :=
  {| store := <[SYSTEM_CLOCK_OBJECT_ID_KEY := enc blob_codec clock_id]>
              (<[StateManager.object_key (MoveAddress.to_hex_literal clock_id) := enc object_codec clock_object]> (store live));
     overlay := ∅; total_supply := total_supply live; global_token_supplies := global_token_supplies live;
     access_versions := ∅; access_epoch := 0 |}.

Definition node : BlockchainEngine MemStore.t :=
  {| eng_state := with_clock; eng_tree := empty_tree; eng_chain := blockchain_new; eng_mempool := empty_mempool;
     earlier_stores := [] |}.
(** The same ledger, with another mempool. *)
Definition replica : BlockchainEngine MemStore.t := set_mempool (drain_committed [[]] empty_mempool) node.

(** A second payment, with references the first makes stale. *)
Definition later_common : TxCommon :=
  {| tx_sender := tx_sender payer_common; tx_gas_payment := tx_gas_payment payer_common;
     tx_gas_limit := 1000; tx_gas_price := 5; tx_nonce := 2 |}.
Definition pay_later : Transaction :=
  ExecuteFunction later_common module_path fn_transfer [] [account 192; RunBcs.le_bytes 8 200; bob]
    [{| object_ref := ref_of coin_id 500; input_owner := Some (AddressOwner (str "0xa1")); mutable := true |}].
Definition payments : list SignedTransaction := [signed (pay (ref_of coin_id 500)); signed pay_later].

Definition committed : MysticetiCommittedBatch :=
  {| anchor := [9]; batch_vertices := [[9]]; batch_transactions := payments ++ payments; batch_timestamp_ms := 7 |}.
Definition finalized : BlockchainEngine MemStore.t * result (option Checkpoint) :=
  finalize_committed_batch id id id no_env idle false true true 8 false (λ _, Ok tt) (λ _, Ok tt) (Ok tt) (mret [])
    committed node.

(** One of the payments succeeds, the other is charged; the repetition is dropped. *)
Lemma finalized_checkpoint :
  match finalized.2 with
  | Ok (Some c) => sequence c = 1 ∧ tx_hashes c = map hash_of payments
                   ∧ map status (transaction_effects c) = [str "success"; str "failed"]
  | _ => False
  end.
Proof. vm_compute. auto. Qed.

Lemma committed_batch_checkpoint_witness :
  ∃ c, finalized.2 = Ok (Some c) ∧ validate_checkpoint (eng_chain node) c = Ok tt
    ∧ eng_chain finalized.1 = append_checkpoint (eng_chain node) c.
Proof.
  pose proof (committed_batch_checkpoint id id id no_env idle false true true 8 false (λ _, Ok tt) (λ _, Ok tt) (Ok tt)
    (mret []) committed node finalized.1) as H.
  assert (Hs : match finalized.2 with Ok (Some c) => sequence c = 1 | _ => False end) by (vm_compute; reflexivity).
  destruct finalized as [e' r] eqn:E. cbn [fst snd] in *. destruct r as [[c|]|]; [|destruct Hs|destruct Hs].
  exists c. split; [reflexivity|]. destruct (H (Some c)) as [_ [_ [[_ Hin]|(Hv & Ha & _)]]]; [|exact E| |exact (conj Hv Ha)].
  - intros latest Hl. vm_compute in Hl. injection Hl as <-. vm_compute. reflexivity.
  - exfalso. apply list_elem_of_singleton in Hin. subst c. cbn in Hs. discriminate Hs.
Defined.

Lemma produced_checkpoint_accepted_witness :
  ∃ c r', finalized.2 = Ok (Some c) ∧ same_ledger finalized.1 r'
    ∧ apply_checkpoint id id id no_env idle false true true 8 false true (λ _, Ok tt) (λ _, Ok tt) (Ok tt) (mret [])
        c replica = (r', Ok tt).
Proof.
  pose proof (produced_checkpoint_accepted id id id no_env idle false true true 8 false true (λ _, Ok tt) (λ _, Ok tt)
    (Ok tt) (mret []) committed node finalized.1 replica) as H.
  assert (Hs : match finalized.2 with Ok (Some c) => sequence c = 1 | _ => False end) by (vm_compute; reflexivity).
  destruct finalized as [e' r] eqn:E. cbn [fst snd] in *. destruct r as [[c|]|]; [|destruct Hs|destruct Hs].
  destruct (H c) as [(r' & Hr & Hl) _]; [exact E| |split; reflexivity|exists c, r'; split; [reflexivity|exact (conj Hl Hr)]].
  intros Hin. apply list_elem_of_singleton in Hin. subst c. cbn in Hs. discriminate Hs.
Defined.
End Replicas.

(** ** A commit *)

Module Commit.
Import HistoryTheorems.Runs ToyHistory ToyHash RealHex RunBcs ToyCodecs MemStore SmtTheorems.Runs StateRootTheorems.Runs StateSmtTheorems.Runs.

Definition settled : StateManager :=
  {| store := store moving; overlay := ∅; total_supply := total_supply moving;
     global_token_supplies := global_token_supplies moving; access_versions := access_versions moving;
     access_epoch := access_epoch moving |}.
Definition node : BlockchainEngine MemStore.t :=
  {| eng_state := settled; eng_tree := moving_tree; eng_chain := blockchain_new; eng_mempool := empty_mempool;
     earlier_stores := [] |}.
Definition start_hash : bytes := match checkpoint_hash genesis with Ok h => h | Err _ => [] end.
Definition moving_root : bytes := compute_sparse_root (btree_iter moving_new).
Definition moved : Checkpoint := checkpoint_new 1 [] [tx 1; tx 2] moving_root 5 start_hash.
Definition moved_chain : Blockchain := append_checkpoint blockchain_new moved.

Lemma moved_valid : validate_checkpoint blockchain_new moved = Ok tt.
Proof. vm_compute. reflexivity. Qed.
Lemma moved_storable : storable_checkpoint same same same moved.
Proof.
  split.
  - repeat constructor; intros h [=].
  - vm_compute. by split.
  - eexists. vm_compute. reflexivity.
  - vm_compute. reflexivity.
  - vm_compute. reflexivity.
  - vm_compute. reflexivity.
  - repeat constructor; by vm_compute.
Qed.
Lemma start_storable : storable_checkpoint same same same genesis.
Proof.
  split; [constructor|vm_compute; by split|eexists; vm_compute; reflexivity|vm_compute; reflexivity..|constructor].
Qed.

Lemma node_ok : engine_ok same same same [] moving_old node.
Proof.
  assert (Hf : map_Forall (λ k _, foreign k) (store settled)).
  { apply (bool_decide_eq_true_1 _). vm_compute. reflexivity. }
  split.
  - apply fresh_consistent. exact Hf.
  - vm_compute. reflexivity.
  - split; [reflexivity|vm_compute; by split|]. apply Forall_singleton. exact start_storable.
  - exact moving_tracked.
  - reflexivity.
Qed.

Lemma moving_staged : staged node moving moving_new.
Proof.
  split.
  - reflexivity.
  - apply indexed_state_sound. vm_compute. reflexivity.
  - apply indexed_state_sound. vm_compute. reflexivity.
  - vm_compute. reflexivity.
  - exact moving_separated.
  - apply (bool_decide_eq_true_1 _). vm_compute. reflexivity.
Qed.

Lemma checkpoint_commit_durable_witness :
  ∃ e1 changes e',
    state_root_with_changes true moving node = (e1, Ok (moving_root, changes))
    ∧ finalize_checkpoint same same same no_env true (λ _, Ok tt) (Ok tt) moved moving changes false e1 = (e', Ok tt)
    ∧ eng_chain e' = moved_chain.
Proof.
  assert (Ht : tracks moving_old {| base := moving; tree := eng_tree node |}) by exact moving_tracked.
  pose proof moving_staged as [_ Hi Hv Hs Hsep _].
  destruct (commit_announced {| base := moving; tree := eng_tree node |} moving_old moving_new Hi Hv Ht Hs Hsep [] []
    (Forall_nil_2 _)) as (root & changes & t & t' & Ea & Hr & _).
  assert (Er : state_root_with_changes true moving node = (set_eng_tree t node, Ok (root, Some changes))).
  { unfold state_root_with_changes. by rewrite Ea. }
  pose proof (checkpoint_commit_durable same same same no_env (λ _, Ok tt) (Ok tt) [] moved moved_chain node moving
    moving_old moving_new eq_refl) as H.
  destruct (H (λ _, eq_refl) (conj eq_refl (λ _, eq_refl)) node_ok moving_staged
    (replay_snoc_ok [] moved blockchain_new blockchain_new eq_refl moved_valid)
    (Forall_cons_2 _ _ _ moved_storable (Forall_nil_2 _)) start_storable moved_valid (mret tt) true false
    (set_eng_tree t node) root (Some changes) false Er (eq_sym Hr)) as (e' & ms & Ef & _ & Hch & _).
  - intros [=].
  - right. reflexivity.
  - rewrite Hr in Er. exists (set_eng_tree t node), (Some changes), e'. exact (conj Er (conj Ef Hch)).
Defined.

(** *** A life of one commit *)

Lemma node_fresh : fresh moving_old node.
Proof.
  split; [|reflexivity|exact moving_tracked|reflexivity|reflexivity].
  apply (bool_decide_eq_true_1 _). vm_compute. reflexivity.
Qed.

Lemma moved_life :
  ∃ e', life same same same no_env (λ _, Ok tt) (Ok tt) [moved] moving_new e'
    ∧ eng_chain e' = moved_chain.
Proof.
  assert (Ht : tracks moving_old {| base := moving; tree := eng_tree node |}) by exact moving_tracked.
  pose proof moving_staged as [_ Hi Hv Hs Hsep _].
  destruct (commit_announced {| base := moving; tree := eng_tree node |} moving_old moving_new Hi Hv Ht Hs Hsep [] []
    (Forall_nil_2 _)) as (root & changes & t & t' & Ea & Hr & _).
  assert (Er : state_root_with_changes true moving node = (set_eng_tree t node, Ok (state_root moved, Some changes))).
  { unfold state_root_with_changes. by rewrite Ea, Hr. }
  pose proof (finalize_step same same same no_env (λ _, Ok tt) (Ok tt) [] moved moved_chain node moving
    moving_old moving_new eq_refl (λ _, eq_refl) (conj eq_refl (λ _, eq_refl)) node_ok moving_staged
    (replay_snoc_ok [] moved blockchain_new blockchain_new eq_refl moved_valid)
    (Forall_cons_2 _ _ _ moved_storable (Forall_nil_2 _)) moved_valid
    (set_eng_tree t node) (state_root moved) (Some changes) false Er eq_refl) as H.
  destruct H as (e' & ms & Ef & _ & Hch & _); [intros [=]|]. exists e'. split; [|exact Hch].
  eapply (life_commit _ _ _ _ _ _ []); [exact (life_new _ _ _ _ _ _ _ _ node_fresh)|exact moving_staged|exact moved_storable
    |exact moved_valid|exact Er|exact Ef].
Qed.


(** *** Two defects *)

(** Committing a checkpoint with the prepared state [s]. *)
Definition commit_with (env : bytes → option bytes) (c : Checkpoint) (s : StateManager) :
    st (BlockchainEngine MemStore.t) unit := λ e,
  match state_root_with_changes true s e with
  | (e1, Ok (_, changes)) => finalize_checkpoint same same same env true (λ _, Ok tt) (Ok tt) c s changes false e1
  | (e1, Err err) => (e1, Err err)
  end.
Definition start (e : BlockchainEngine MemStore.t) : result (list Z) :=
  let? chain := (init_chain same same same no_env true (mret tt) true true
                   {| contents := store (eng_state e); earlier := [] |}).2 in
  Ok (map sequence (dag_checkpoints chain)).

(** The snapshot in JSON is enabled for the first checkpoint and disabled for the
    second: the inline commit of the second neither refreshes nor removes the
    snapshot, which a start prefers.  Both commits succeed and the node is at
    height 2; after a clean restart it is at height 1, on the state of height 2. *)
Definition json_env (name : bytes) : option bytes :=
  if bool_decide (name = str "KANARI_PERSIST_BLOCKCHAIN_JSON") then Some (str "true") else None.
Definition successor : Checkpoint :=
  checkpoint_new 2 [] [tx 3] moving_root 6 (match checkpoint_hash moved with Ok h => h | Err _ => [] end).
Definition day1 : BlockchainEngine MemStore.t * result unit := commit_with json_env moved moving node.
Definition day2 : BlockchainEngine MemStore.t * result unit :=
  commit_with no_env successor (eng_state day1.1) day1.1.
Lemma stale_snapshot_rewinds :
  day1.2 = Ok tt ∧ day2.2 = Ok tt ∧ map sequence (dag_checkpoints (eng_chain day2.1)) = [0; 1; 2]%Z
  ∧ store (eng_state day2.1) !! pending_checkpoint_commit_key = None ∧ start day2.1 = Ok [0; 1]%Z.
Proof. split_and!; vm_compute; reflexivity. Qed.

(** The link of a checkpoint is validated only after the state and the marker
    were committed: a checkpoint with a wrong sequence is refused by the chain,
    but the next start finds the marker and fails. *)
Definition unlinked : Checkpoint := checkpoint_new 7 [] [tx 1] moving_root 5 start_hash.
Definition broken : BlockchainEngine MemStore.t * result unit := commit_with no_env unlinked moving node.
Lemma unlinked_checkpoint_breaks_restart :
  broken.2 = Err "Invalid checkpoint sequence"
  ∧ map sequence (dag_checkpoints (eng_chain broken.1)) = [0]%Z
  ∧ start broken.1 = Err "Failed to recover checkpoint metadata from durable marker".
Proof. split_and!; vm_compute; reflexivity. Qed.
End Commit.
