(* ===== verification/DagEngine.v ===== *)
(** * The node on top of consensus: [kanari-core/src/engine/produce_dag_vertex.rs]

    [MysticetiBackend] drives the core of a validator ([DagCore]) and its
    linearizer; [DagEngine] ties it to the checkpoint engine: it proposes pending
    transactions, takes vertices from the network, turns committed sub-DAGs into
    batches and finalizes them, and answers requests for vertices.

    Locks serialise the operations; a panic of the core is an error here.  The
    clock ([now], in milliseconds, and the time stamp of a new block) is an
    argument of the operations that read it. *)

From stdpp Require Import base list gmap strings.
From Stdlib Require Import NArith ZArith Lia.
From S2P Require Import Prelude Order Hashing Text Address Store SmtTree GasCoin Transaction Blockchain Mempool Proposer ChangeSet StateManager StateRoot History Execution Executor CheckpointEngine Committee DagBlock DagStore Protocol Committer Linearizer BlockManager DagCore.

(** ** Vertices *)

Record DagVertex := {
  v_id : bytes;
  v_round : N;
  v_author : bytes;
  v_chain_id : bytes;
  v_parents : list (bytes * N * bytes);
  v_transactions : list SignedTransaction;
  v_timestamp : Z;
  v_signature : bytes;
  v_native_block : bytes
}.

Definition vertex_new (round : N) (author chain_id : bytes) (parents : list (bytes * N * bytes))
    (transactions : list SignedTransaction) (timestamp : Z) : DagVertex :=
  {| v_id := replicate 32 0%Z; v_round := round; v_author := author; v_chain_id := chain_id;
     v_parents := parents; v_transactions := transactions; v_timestamp := timestamp; v_signature := [];
     v_native_block := [] |}.
(** The fields assigned after [DagVertex::new]. *)
Definition with_native (id signature native_block : bytes) (v : DagVertex) : DagVertex :=
  {| v_id := id; v_round := v_round v; v_author := v_author v; v_chain_id := v_chain_id v;
     v_parents := v_parents v; v_transactions := v_transactions v; v_timestamp := v_timestamp v;
     v_signature := signature; v_native_block := native_block |}.

Definition DAG_CHAIN_ID : bytes := str "kanari-v2-mysticeti".

Record CheckpointInfo := { ci_sequence : Z; ci_vertex_count : nat; ci_tx_count : nat }.
Record CheckpointProductionInfo := {
  cp_vertex_id : bytes;
  cp_round : N;
  cp_tx_count : nat;
  cp_checkpoint : option CheckpointInfo;
  cp_vertex : option DagVertex
}.

Record DagProductionPolicy := {
  current_round : N;
  parent_round : N;
  target_round : N;
  parent_ids : list bytes;
  parent_authors : list bytes;
  missing_parent_authors : list bytes;
  parent_author_count : nat;
  quorum_size : N
}.
Definition should_wait_for_current_round_quorum (p : DagProductionPolicy) : bool :=
  (0 <? current_round p)%N && (parent_round p =? current_round p)%N
  && (N.of_nat (parent_author_count p) <? quorum_size p)%N.

Definition mysticeti_reference_to_vertex_id (r : BlockReference) : bytes := ref_digest r.

(** [timestamp_ns() / 1_000_000] *)
Definition timestamp_ms (b : Block) : Z := Z.of_N (timestamp_ns b / 1000000).

(** ** [MysticetiBackend] *)

Record MysticetiBackend := {
  core : Core;
  protocol : Protocol;
  authority_ids : list bytes;
  linearizer : Linearizer;
  submitted_tx_hashes : gset bytes;
  pending_committed_subdags : list CommittedSubDag;
  last_cleanup : Z
}.

Definition set_backend_core (c : Core) (b : MysticetiBackend) : MysticetiBackend :=
  {| core := c; protocol := protocol b; authority_ids := authority_ids b; linearizer := linearizer b;
     submitted_tx_hashes := submitted_tx_hashes b; pending_committed_subdags := pending_committed_subdags b;
     last_cleanup := last_cleanup b |}.
Definition set_submitted (s : gset bytes) (b : MysticetiBackend) : MysticetiBackend :=
  {| core := core b; protocol := protocol b; authority_ids := authority_ids b; linearizer := linearizer b;
     submitted_tx_hashes := s; pending_committed_subdags := pending_committed_subdags b;
     last_cleanup := last_cleanup b |}.
Definition set_committed (c : Core) (l : Linearizer) (subs : list CommittedSubDag) (b : MysticetiBackend) :
    MysticetiBackend :=
  {| core := c; protocol := protocol b; authority_ids := authority_ids b; linearizer := l;
     submitted_tx_hashes := submitted_tx_hashes b; pending_committed_subdags := subs;
     last_cleanup := last_cleanup b |}.

Record MysticetiBlockSummary := {
  s_vertex_id : bytes;
  s_round : N;
  s_parents : list (bytes * N * bytes);
  s_timestamp_ms : Z;
  s_signature : bytes;
  s_native_block : bytes;
  s_transactions : list SignedTransaction
}.

Section Backend.
Context `{BlockCrypto} {B3 : Blake3} {BC : Bcs} {SC : StateCodecs} {HC : HistoryCodecs}.
Context (serialized_len : Block → N) (order : gset BlockReference → list BlockReference).
(** [bincode] of a native block, and what the third-party signatures check. *)
Context (block_codec : Codec Block) (verify_signature_raw : bytes → bytes → bytes → result bool)
  (valid_public_key : bytes → bool).
Local Abbreviation bk := (st MysticetiBackend).

Definition signed_tx_to_mysticeti_transaction (tx : SignedTransaction) : bytes := enc tx_codec (forget_tx tx).
Definition decode_transaction (msg : string) (b : bytes) : result SignedTransaction := require (dec tx_codec b) msg.

(** The name of an authority, or the fallback of [DagEngine::authority_id]. *)
Definition authority_name (ids : list bytes) (a : Authority) : bytes :=
  match ids !! N.to_nat a with
  | Some id => id
  | None => str "auth" ++ u64_to_string (Z.of_N a + 1)
  end.
Definition parent_of (ids : list bytes) (r : BlockReference) : bytes * N * bytes :=
  (authority_name ids (ref_authority r), ref_round r, mysticeti_reference_to_vertex_id r).

Definition block_to_vertex (ids : list bytes) (b : Block) : result DagVertex :=
  let? author := require (ids !! N.to_nat (author b)) "Unknown Mysticeti block author" in
  let? parents := try_map (λ r,
    let? parent_author := require (ids !! N.to_nat (ref_authority r)) "Unknown Mysticeti parent author" in
    Ok (parent_author, ref_round r, mysticeti_reference_to_vertex_id r)) (includes b) in
  let? transactions := try_map (decode_transaction "Mysticeti transaction is not a SignedTransaction")
                         (block_transactions b) in
  Ok (with_native (mysticeti_reference_to_vertex_id (reference b)) (block_signature b) (enc block_codec b)
       (vertex_new (round b) author DAG_CHAIN_ID parents transactions (timestamp_ms b))).

(** [wal] is empty for an ephemeral store; every authority has stake 1. *)
Definition backend_new (local_authority : bytes) (ids : list bytes) (signing_key : bytes)
    (public_keys : gmap bytes bytes) (log : list WalEntry) (now : Z) : result MysticetiBackend :=
  let? _ := ensure (negb (list_empty ids)) "Mysticeti committee cannot be empty" in
  let? local_index := require (fst <$> list_find (λ id, id = local_authority) ids)
                        "Local authority is not in committee" in
  let me := N.of_nat local_index in
  let? members := try_map (λ id,
    let? key := require (public_keys !! id) "Missing consensus public key" in
    let? _ := ensure (length key =? 32) "Invalid consensus public key length" in
    let? _ := ensure (valid_public_key key) "Invalid consensus public key" in
    Ok {| stake := 1; public_key := key |}) ids in
  let? C := committee_new members in
  let leader_count := if length members =? 1 then 1%positive else 2%positive in
  let? p := match to_protocol (Mysticeti leader_count) C with
            | inl p => Ok p
            | inr _ => Err "Failed to build Mysticeti protocol"
            end in
  let? ' (storage, recovered) := storage_open me C log in
  let? c := core_open handler_new me C storage recovered (committer_new C p)
              {| signer := signing_key; mode := Enabled |} in
  let? ' (c, committed) := take_recovered_committed_blocks c in
  Ok {| core := c; protocol := p; authority_ids := ids; linearizer := committed; submitted_tx_hashes := ∅;
        pending_committed_subdags := []; last_cleanup := now - 10000 |}.

Definition cleanup_if_due (now : Z) (b : MysticetiBackend) : MysticetiBackend :=
  if (10000 <=? now - last_cleanup b)%Z then
    {| core := core_cleanup (core b); protocol := protocol b; authority_ids := authority_ids b;
       linearizer := linearizer b; submitted_tx_hashes := submitted_tx_hashes b;
       pending_committed_subdags := pending_committed_subdags b; last_cleanup := now |}
  else b.

(** Handing the transactions over to the core. *)
Definition submit_transactions (transactions : list SignedTransaction) : bk unit := λ b,
  let candidates := filter (λ tx, hash_of tx ∉ submitted_tx_hashes b) transactions in
  let hashes : gset bytes := list_to_set (map hash_of candidates) in
  match map signed_tx_to_mysticeti_transaction candidates with
  | [] => (b, Ok tt)
  | new_transactions =>
      let b := set_submitted (submitted_tx_hashes b ∪ hashes) b in
      match try_send new_transactions (block_handler (core b)) with
      | Some h => (set_backend_core (set_handler (pending (core b)) h (storage (core b)) (core b)) b, Ok tt)
      | None => (set_submitted (submitted_tx_hashes b ∖ hashes) b,
                 Err "Failed to submit transactions to Mysticeti Core")
      end
  end.

Definition block_summary (ids : list bytes) (b : Block) : result MysticetiBlockSummary :=
  let? transactions := try_map (decode_transaction "Proposed Mysticeti transaction is not a SignedTransaction")
                         (block_transactions b) in
  Ok {| s_vertex_id := mysticeti_reference_to_vertex_id (reference b); s_round := round b;
        s_parents := map (parent_of ids) (includes b); s_timestamp_ms := timestamp_ms b;
        s_signature := block_signature b; s_native_block := enc block_codec b; s_transactions := transactions |}.

Definition propose_block (now : Z) (time_ns : N) (transactions : list SignedTransaction) :
    bk (option MysticetiBlockSummary) :=
  st_modify (cleanup_if_due now) ≫= λ _,
  submit_transactions transactions ≫= λ _,
  st_modify (λ b, set_backend_core (drain_submitted_transactions (core b)) b) ≫= λ _,
  proposed ← (λ b, match try_new_block serialized_len time_ns (core b) with
                   | Ok (c, o) => (set_backend_core c b, Ok o)
                   | Err e => (b, Err e)
                   end);
  match proposed with
  | None => mret None
  | Some block =>
      ids ← st_gets authority_ids;
      summary ← st_lift (block_summary ids block);
      mret (Some summary)
  end.

(** The native block of a vertex, decoded and verified. *)
Definition native_block (b : MysticetiBackend) (v : DagVertex) : result Block :=
  let? _ := ensure (negb (list_empty (v_native_block v))) "Missing canonical Mysticeti block" in
  let? block := require (dec block_codec (v_native_block v)) "Invalid canonical Mysticeti block encoding" in
  match block_verify block (core_committee (core b)) (committer_quorum_threshold (committer (core b)))
          (mode (crypto (core b))) with
  | Ok _ => Ok block
  | Err _ => Err "Invalid canonical Mysticeti block"
  end.

Definition add_network_block (v : DagVertex) : bk unit := λ b,
  match native_block b v with
  | Err e => (b, Err e)
  | Ok block =>
      match core_add_blocks order [block] (core b) with
      | Ok (c, _) => (set_backend_core c b, Ok tt)
      | Err e => (b, Err e)
      end
  end.

(** *** Committed sub-DAGs *)

Definition block_reference_leb (x y : Block) : bool := reference_leb (reference x) (reference y).
(** [subdag.blocks.sort_by_key(|block| *block.reference())] *)
Definition sort_by_reference (s : CommittedSubDag) : CommittedSubDag :=
  {| sub_anchor := sub_anchor s; sub_blocks := sort_by block_reference_leb (sub_blocks s) |}.

Definition committed_transaction (b : bytes) : result SignedTransaction :=
  let? signed := decode_transaction "Committed Mysticeti transaction is not a SignedTransaction" b in
  let '(signed, verified) := verified_transaction_hash verify_signature_raw signed in
  let? _ := verified in
  Ok signed.

Definition batch_of_subdag (s : CommittedSubDag) : result MysticetiCommittedBatch :=
  let? transactions := try_map (λ b, try_map committed_transaction (block_transactions b)) (sub_blocks s) in
  Ok {| anchor := mysticeti_reference_to_vertex_id (sub_anchor s);
        batch_vertices := map (λ b, mysticeti_reference_to_vertex_id (reference b))
                            (filter (λ b, (0 < round b)%N) (sub_blocks s));
        batch_transactions := concat transactions;
        batch_timestamp_ms := match find (λ b, bool_decide (reference b = sub_anchor s)) (sub_blocks s) with
                              | Some b => timestamp_ms b
                              | None => 0%Z
                              end |}.

Definition try_committed_batches : bk (list MysticetiCommittedBatch) := λ b,
  match pending_committed_subdags b with
  | [] =>
      match core_try_commit (core b) with
      | Err e => (b, Err e)
      | Ok (c, []) => (set_backend_core c b, Ok [])
      | Ok (c, leaders) =>
          match handle_commit (core_reader c) (walk_fuel (storage c)) (linearizer b) leaders with
          | Err e => (b, Err e)
          | Ok (l, subs) =>
              let subs := map sort_by_reference subs in
              (set_committed c l subs b, try_map batch_of_subdag subs)
          end
      end
  | subs => (b, try_map batch_of_subdag subs)
  end.

Definition forget_submitted (s : gset bytes) (tx : bytes) : gset bytes :=
  match dec tx_codec tx with
  | Some signed => s ∖ {[hash_of signed]}
  | None => s
  end.

Definition ack_committed_batches (b : MysticetiBackend) : MysticetiBackend :=
  match pending_committed_subdags b with
  | [] => b
  | committed =>
      let submitted := fold_left forget_submitted
        (concat (map block_transactions (concat (map sub_blocks committed)))) (submitted_tx_hashes b) in
      set_committed (handle_committed_subdag committed (core b)) (linearizer b) [] (set_submitted submitted b)
  end.

(** ** Vertices for others *)

Definition production_policy (b : MysticetiBackend) : result DagProductionPolicy :=
  let r := reader_highest_round (core_reader (core b)) in
  let? blocks := get_blocks_by_round (core_reader (core b)) r in
  let authors := sort_dedup (map (λ x, authority_name (authority_ids b) (author x)) blocks) in
  Ok {| current_round := r; parent_round := r; target_round := N.min (r + 1) (u64_limit - 1);
        parent_ids := map (λ x, ref_digest (reference x)) blocks; parent_authors := authors;
        missing_parent_authors := filter (λ id, id ∉ authors) (authority_ids b);
        parent_author_count := length authors; quorum_size := direct_commit_quorum (protocol b) |}.

(** Round, author, id. *)
Definition vertex_leb (x y : DagVertex) : bool :=
  if negb (v_round x =? v_round y)%N then (v_round x <=? v_round y)%N
  else if negb (bool_decide (v_author x = v_author y)) then bytes_leb (v_author x) (v_author y)
  else bytes_leb (v_id x) (v_id y).

(** [lo..=hi] *)
Definition rounds (lo hi : N) : list N := map (λ i, lo + N.of_nat i)%N (seq 0 (N.to_nat (hi + 1 - lo))).

(** The blocks of some rounds, each round in the order of [f]. *)
Definition vertices_of_rounds (f : list Block → list Block) (b : MysticetiBackend) (rs : list N) :
    result (list DagVertex) :=
  let? vss := try_map (λ r, let? blocks := get_blocks_by_round (core_reader (core b)) r in
                            try_map (block_to_vertex (authority_ids b)) (f blocks)) rs in
  Ok (concat vss).

Definition latest_own_vertices (limit : nat) (b : MysticetiBackend) : result (list DagVertex) :=
  if limit =? 0 then Ok [] else
  let? blocks := get_latest_own_blocks (storage (core b)) limit in
  try_map (block_to_vertex (authority_ids b)) blocks.

(** The newest [limit] of all. *)
Definition vertices_for_sync (limit : nat) (b : MysticetiBackend) : result (list DagVertex) :=
  if limit =? 0 then Ok [] else
  let? vs := vertices_of_rounds (λ l, l) b (rounds 1 (reader_highest_round (core_reader (core b)))) in
  let vs := sort_by vertex_leb vs in
  Ok (drop (length vs - limit) vs).

(** Conversion stops with the vertex that reaches the limit. *)
Fixpoint convert_up_to (limit : nat) (ids : list bytes) (blocks : list Block) : result (list DagVertex) :=
  match limit, blocks with
  | 0, _ | _, [] => Ok []
  | S limit, b :: blocks =>
      let? v := block_to_vertex ids b in
      let? rest := convert_up_to limit ids blocks in
      Ok (v :: rest)
  end.
Fixpoint collect_rounds (limit : nat) (b : MysticetiBackend) (rs : list N) : result (list DagVertex) :=
  match limit, rs with
  | 0, _ | _, [] => Ok []
  | _, r :: rs =>
      let? blocks := get_blocks_by_round (core_reader (core b)) r in
      let? vs := convert_up_to limit (authority_ids b) (sort_by (λ x y, (author x <=? author y)%N) blocks) in
      let? rest := collect_rounds (limit - length vs) b rs in
      Ok (vs ++ rest)
  end.
Definition vertices_through_round_for_sync (target : N) (limit : nat) (b : MysticetiBackend) :
    result (list DagVertex) :=
  if (target =? 0)%N || (limit =? 0) then Ok [] else
  let target := N.min target (reader_highest_round (core_reader (core b))) in
  let? vs := collect_rounds limit b (reverse (rounds 1 target)) in
  Ok (sort_by vertex_leb vs).

(** A block of that round and id. *)
Definition find_parent (b : MysticetiBackend) (r : N) (id : bytes) : result (option Block) :=
  let? blocks := get_blocks_by_round (core_reader (core b)) r in
  Ok (find (λ x, bool_decide (mysticeti_reference_to_vertex_id (reference x) = id)) blocks).

Fixpoint missing_rounds (b : MysticetiBackend) (parents : list (bytes * N * bytes)) : result (list N) :=
  match parents with
  | [] => Ok []
  | (_, r, id) :: parents =>
      let? missing := (if (r =? 0)%N then Ok [] else
                       let? found := find_parent b r id in Ok (if is_none found then [r] else [])) in
      let? rest := missing_rounds b parents in
      Ok (missing ++ rest)
  end.
(** A [BTreeSet] of rounds, in order. *)
Definition missing_parent_rounds_for_sync (vs : list DagVertex) (b : MysticetiBackend) : result (list N) :=
  let? missing := missing_rounds b (concat (map v_parents vs)) in
  Ok (sort_by N.leb (remove_dups missing)).

(** *** The vertices of a checkpoint and their ancestry *)

Definition MAX_SYNC_VERTEX_JSON_BYTES : N := 4 * 1024 * 1024.

(** The parents of a vertex that are not in the closure yet. *)
Fixpoint parents_to_visit (b : MysticetiBackend) (closure : gmap bytes DagVertex)
    (parents : list (bytes * N * bytes)) : result (list DagVertex) :=
  match parents with
  | [] => Ok []
  | (parent_author, r, id) :: parents =>
      if (r =? 0)%N || bool_decide (is_Some (closure !! id)) then parents_to_visit b closure parents else
      let? found := find_parent b r id in
      let? parent := require found "Missing DAG parent for checkpoint vertex" in
      let? v := block_to_vertex (authority_ids b) parent in
      let? _ := ensure (bool_decide (v_author v = parent_author)) "DAG parent author mismatch" in
      let? rest := parents_to_visit b closure parents in
      Ok (v :: rest)
  end.

Section Closure.
(** The length of the JSON text of a vertex. *)
Context (json_len : DagVertex → option N).

(** Breadth first; the loop stops at the limit, or when an ancestor would exceed
    the budget of bytes. *)
Fixpoint closure_loop (fuel : nat) (b : MysticetiBackend) (roots : gset bytes) (limit : nat)
    (queue : list DagVertex) (closure : gmap bytes DagVertex) (encoded_bytes : N) :
    result (gmap bytes DagVertex) :=
  match fuel with
  | 0 => Err "out of fuel"
  | S fuel =>
      match queue with
      | [] => Ok closure
      | v :: queue =>
          if bool_decide (is_Some (closure !! v_id v)) then closure_loop fuel b roots limit queue closure encoded_bytes
          else if limit <=? size closure then Ok closure else
          let? vertex_bytes := require (json_len v) "Failed to size DAG vertex for checkpoint sync" in
          let total := N.min (encoded_bytes + vertex_bytes) (u64_limit - 1) in
          if bool_decide (v_id v ∉ roots) && (MAX_SYNC_VERTEX_JSON_BYTES <? total)%N then Ok closure else
          let? parents := parents_to_visit b closure (v_parents v) in
          closure_loop fuel b roots limit (queue ++ parents) (<[v_id v := v]> closure) total
      end
  end.

(** Every vertex is visited once, and each visit enqueues its parents. *)
Definition closure_fuel (roots : list bytes) (vs : list DagVertex) : nat :=
  S (length roots + sum_list_with (λ v, length (v_parents v)) vs).

Definition checkpoint_vertices_for_sync (checkpoint_vertices : list bytes) (limit : nat) (b : MysticetiBackend) :
    result (list DagVertex) :=
  if list_empty checkpoint_vertices then Ok [] else
  let? _ := ensure (negb (limit =? 0)) "Checkpoint DAG sync limit must be non-zero" in
  let? vs := vertices_of_rounds (λ l, l) b (rounds 1 (reader_highest_round (core_reader (core b)))) in
  let recent : gmap bytes DagVertex := fold_left (λ m v, <[v_id v := v]> m) vs ∅ in
  let? queue := try_map (λ id, require (recent !! id)
                  "Checkpoint DAG vertex is missing from retained Mysticeti block store") checkpoint_vertices in
  let? closure := closure_loop (closure_fuel checkpoint_vertices vs) b (list_to_set checkpoint_vertices) limit
                    queue ∅ 0 in
  Ok (sort_by vertex_leb (map snd (map_to_list closure))).
End Closure.

(** ** Vertices from others *)

Fixpoint check_payloads (native : list bytes) (transported : list SignedTransaction) : result unit :=
  match native, transported with
  | n :: native, t :: transported =>
      let? _ := ensure (bool_decide (n = signed_tx_to_mysticeti_transaction t))
                  "Mysticeti block transaction payload mismatch" in
      let? _ := (verified_transaction_hash verify_signature_raw t).2 in
      check_payloads native transported
  | _, _ => Ok tt
  end.

Definition validate_network_vertex (b : MysticetiBackend) (v : DagVertex) : result unit :=
  let? _ := ensure (bool_decide (v_chain_id v = DAG_CHAIN_ID)) "Invalid DAG vertex chain id" in
  let? _ := ensure (negb (v_round v =? 0)%N) "Invalid DAG vertex round 0" in
  let? _ := ensure (bool_decide (v_author v ∈ authority_ids b)) "Unknown DAG vertex author" in
  let? block := native_block b v in
  let? _ := ensure (bool_decide (authority_name (authority_ids b) (author block) = v_author v))
              "Mysticeti block author does not match transport author" in
  let? _ := ensure (round block =? v_round v)%N "Mysticeti block round mismatch" in
  let? _ := ensure (bool_decide (mysticeti_reference_to_vertex_id (reference block) = v_id v))
              "Mysticeti block digest mismatch" in
  let? _ := ensure (bool_decide (block_signature block = v_signature v)) "Mysticeti block signature mismatch" in
  let? _ := ensure (timestamp_ms block =? v_timestamp v)%Z "Mysticeti block timestamp mismatch" in
  let? _ := ensure (bool_decide (map (parent_of (authority_ids b)) (includes block) = v_parents v))
              "Mysticeti block parents do not match transport parents" in
  let? _ := ensure (length (block_transactions block) =? length (v_transactions v))
              "Mysticeti block transaction count mismatch" in
  check_payloads (block_transactions block) (v_transactions v).

Definition already_in_mysticeti (b : MysticetiBackend) (v : DagVertex) : result bool :=
  let? found := find_parent b (v_round v) (v_id v) in
  Ok (negb (is_none found)).
End Backend.

(** ** [DagEngine] *)

Section Engine.
Context `{BlockCrypto} {B3 : Blake3} {BC : Bcs} {BK : BcsCheckpoint} {HX : Hex} {SC : StateCodecs} {TT : TypeTags}
  {HC : HistoryCodecs} `{KV : KVStore DB}.
Context (serialized_len : Block → N) (order : gset BlockReference → list BlockReference).
Context (block_codec : Codec Block) (verify_signature_raw : bytes → bytes → bytes → result bool)
  (valid_public_key : bytes → bool).
Context (signed_size : SignedTransaction → result nat).
Context (env : bytes → option bytes).
(** The checkpoint engine: [finalize_batches] of [CheckpointEngine]. *)
Context (finalize_batches : list MysticetiCommittedBatch → st (BlockchainEngine DB) (option Checkpoint)).

Record DagEngine := {
  engine : BlockchainEngine DB;
  mysticeti_backend : MysticetiBackend;
  authority_id : bytes
}.
Local Abbreviation dg := (st DagEngine).

Definition on_engine {A} (m : st (BlockchainEngine DB) A) : dg A := λ d,
  let '(e, r) := m (engine d) in
  ({| engine := e; mysticeti_backend := mysticeti_backend d; authority_id := authority_id d |}, r).
Definition on_backend {A} (m : st MysticetiBackend A) : dg A := λ d,
  let '(b, r) := m (mysticeti_backend d) in
  ({| engine := engine d; mysticeti_backend := b; authority_id := authority_id d |}, r).

Definition from_parts (e : BlockchainEngine DB) (id : bytes) (ids : list bytes) (signing_key : bytes)
    (public_keys : gmap bytes bytes) (log : list WalEntry) (now : Z) : result DagEngine :=
  let? b := backend_new valid_public_key id ids signing_key public_keys log now in
  Ok {| engine := e; mysticeti_backend := b; authority_id := id |}.

Definition new_secure (e : BlockchainEngine DB) (id : bytes) (ids : list bytes) (signing_key local_public_key : bytes)
    (public_keys : gmap bytes bytes) (log : list WalEntry) (now : Z) : result DagEngine :=
  let? _ := ensure (negb (list_empty ids)) "Consensus authority set cannot be empty" in
  let? _ := ensure (size (list_to_set ids : gset bytes) =? length ids) "Consensus authority set contains duplicates" in
  let? expected := require (public_keys !! id) "Missing consensus public key" in
  let? _ := ensure (bool_decide (expected = local_public_key))
              "Consensus signing key does not match local authority public key" in
  from_parts e id ids signing_key public_keys log now.

Definition checkpoint_info (c : Checkpoint) : CheckpointInfo :=
  {| ci_sequence := sequence c; ci_vertex_count := length (vertices c); ci_tx_count := length (transactions c) |}.

Definition finalize_ready_commits : dg (option CheckpointInfo) :=
  committed_batches ← on_backend (try_committed_batches verify_signature_raw);
  if list_empty committed_batches then mret None else
  made ← on_engine (finalize_batches committed_batches);
  on_backend (st_modify ack_committed_batches) ≫= λ _,
  mret (checkpoint_info <$> made).

(** The vertex of the block just proposed. *)
Definition vertex_of_summary (id : bytes) (s : MysticetiBlockSummary) : DagVertex :=
  with_native (s_vertex_id s) (s_signature s) (s_native_block s)
    (vertex_new (s_round s) id DAG_CHAIN_ID (s_parents s) (s_transactions s) (s_timestamp_ms s)).

Definition produce_vertex (now : Z) (time_ns : N) : dg CheckpointProductionInfo :=
  transactions ← st_gets (λ d, pending_conflict_free_transactions_snapshot env signed_size (eng_mempool (engine d)));
  info ← finalize_ready_commits;
  latest ← st_gets (λ d, latest_checkpoint (eng_chain (engine d)));
  st_lift (require latest no_genesis_panic) ≫= λ _,
  block ← on_backend (propose_block serialized_len block_codec now time_ns transactions);
  match block with
  | None =>
      match info with
      | Some _ =>
          policy ← (λ d, (d, production_policy (mysticeti_backend d)));
          mret {| cp_vertex_id := []; cp_round := target_round policy; cp_tx_count := 0; cp_checkpoint := info;
                  cp_vertex := None |}
      | None => st_lift (Err "DAG_WAITING: Mysticeti threshold clock has not advanced")
      end
  | Some summary =>
      id ← st_gets authority_id;
      let vertex := vertex_of_summary id summary in
      committed ← finalize_ready_commits;
      mret {| cp_vertex_id := hex_encode (v_id vertex); cp_round := v_round vertex;
              cp_tx_count := length (v_transactions vertex);
              cp_checkpoint := match committed with Some c => Some c | None => info end;
              cp_vertex := Some vertex |}
  end.

Definition add_network_vertex (v : DagVertex) : dg unit :=
  known ← (λ d, (d, already_in_mysticeti (mysticeti_backend d) v));
  if (known : bool) then mret tt else
  (λ d, (d, validate_network_vertex block_codec verify_signature_raw (mysticeti_backend d) v)) ≫= λ _,
  st_context (on_backend (add_network_block order block_codec v))
    "Failed to inject network vertex into Mysticeti (missing parents or duplicate)" ≫= λ _,
  finalize_ready_commits ≫= λ _,
  mret tt.
End Engine.
