(* ===== verification/DagEngineTheorems.v ===== *)
(** * The node on top of consensus: theorems

    Agreement of the validators on the ledger, from agreement on the sub-DAGs and
    determinism of execution; the step from commits to checkpoints; the transport
    of blocks as vertices; and the search for the ancestry of a checkpoint. *)

From stdpp Require Import base list gmap strings.
From Stdlib Require Import NArith ZArith Lia Sorting.
From S2P Require Import Prelude Order Hashing Text Address Store SmtTree SmtTheorems GasCoin Transaction TypesTheorems Blockchain Mempool Proposer ChangeSet StateManager StateRoot StateRootTheorems History HistoryTheorems Execution ExecutionRuns Executor ExecutorTheorems CheckpointEngine CheckpointTheorems CheckpointRuns Committee DagBlock DagStore DagStoreTheorems Protocol Committer Linearizer BlockManager DagCore DagCoreTheorems DagSystem DagEngine.

(** ** Mapping with errors *)

Lemma try_map_app {A B} (f : A → result B) l1 l2 ys :
  try_map f (l1 ++ l2) = Ok ys → ∃ ys1 ys2, try_map f l1 = Ok ys1 ∧ try_map f l2 = Ok ys2 ∧ ys = ys1 ++ ys2.
Proof.
  revert ys. induction l1 as [|x l1 IH]; intros ys E; cbn [app try_map] in E.
  { by exists [], ys. }
  apply result_bind_ok in E as (y & Ey & E). apply result_bind_ok in E as (zs & Ez & E). injection E as <-.
  destruct (IH _ Ez) as (ys1 & ys2 & E1 & E2 & ->). exists (y :: ys1), ys2. cbn [try_map]. by rewrite Ey, E1.
Qed.
Lemma try_map_all {A B} (f : A → result B) (g : A → B) l :
  (∀ x, x ∈ l → f x = Ok (g x)) → try_map f l = Ok (map g l).
Proof.
  induction l as [|x l IH]; intros Hf; [done|]. cbn [try_map map]. rewrite Hf by (by left). cbn [result_bind].
  by rewrite IH by (intros y Hy; apply Hf; by right).
Qed.
Lemma try_map_elem {A B} (f : A → result B) l ys y :
  try_map f l = Ok ys → y ∈ ys → ∃ x, x ∈ l ∧ f x = Ok y.
Proof.
  revert ys. induction l as [|x l IH]; intros ys E Hy; cbn [try_map] in E.
  { injection E as <-. by apply elem_of_nil in Hy. }
  apply result_bind_ok in E as (z & Ez & E). apply result_bind_ok in E as (zs & Ezs & E). injection E as <-.
  apply elem_of_cons in Hy as [->|Hy]; [exists x; split; [by left|done]|].
  destruct (IH _ Ezs Hy) as (x' & Hx & E). exists x'. split; [by right|done].
Qed.

Lemma try_map_total {A B} (f : A → result B) l :
  (∀ x, x ∈ l → ∃ y, f x = Ok y) →
  ∃ ys, try_map f l = Ok ys ∧ ∀ y, y ∈ ys ↔ ∃ x, x ∈ l ∧ f x = Ok y.
Proof.
  induction l as [|x l IH]; intros Hf.
  { exists []. split; [done|]. intros y. split; [by intros ?%elem_of_nil|by intros (x & ?%elem_of_nil & _)]. }
  destruct (Hf x) as [y Ey]; [by left|]. destruct IH as (ys & Eys & Hys); [intros z Hz; apply Hf; by right|].
  exists (y :: ys). cbn [try_map]. rewrite Ey, Eys. split; [done|]. intros z. rewrite elem_of_cons, Hys. split.
  - intros [->|(w & Hw & Ew)]; [exists x; split; [by left|done]|exists w; split; [by right|done]].
  - intros (w & [->|Hw]%elem_of_cons & Ew); [left; congruence|right; by exists w].
Qed.

(** ** Agreement *)

Section Agreement.
Context `{BlockCrypto} {B3 : Blake3} {BC : Bcs} {BK : BcsCheckpoint} {HX : Hex} {SC : StateCodecs} {TT : TypeTags}
  {HC : HistoryCodecs} `{KV : KVStore DB}.
Context (serialized_len : Block → N) (order : gset BlockReference → list BlockReference)
  (C : Committee) (cp : ConsensusProtocol) (p : Protocol) (Byz : gset Authority) (md : CryptoMode).
Context (verify_signature_raw : bytes → bytes → bytes → result bool).
Context (sha3_256 to_uppercase to_lowercase : bytes → bytes) (env : bytes → option bytes) (runtime : MoveRuntime).
Context (persist_versions fail_fast batching : bool) (cap : nat) (persistent : bool).
Context (reload_vm_cache refresh_committed_modules : gmap bytes bytes → result unit) (clear_object_cache : result unit)
  (create_system_clock : st StateManager bytes).
Local Abbreviation engine_t := (BlockchainEngine DB).
Local Abbreviation finalize_all := (finalize_batches sha3_256 to_uppercase to_lowercase env runtime
  persist_versions fail_fast batching cap persistent reload_vm_cache refresh_committed_modules clear_object_cache
  create_system_clock).
Local Abbreviation evolves := (evolves sha3_256 to_uppercase to_lowercase env runtime persist_versions fail_fast batching
  cap persistent reload_vm_cache refresh_committed_modules clear_object_cache create_system_clock).

Lemma evolves_once (e e' : engine_t) bs r : finalize_all bs e = (e', Ok r) → evolves e bs e'.
Proof. intros E. apply (evolves_finalize _ _ _ _ _ _ _ _ _ _ _ _ _ _ e [] e bs e' r); [constructor|exact E]. Qed.

(** The batches of a sequence of delivered sub-DAGs. *)
Definition batches_of (subs : list CommittedSubDag) : result (list MysticetiCommittedBatch) :=
  try_map (batch_of_subdag verify_signature_raw) (map sort_by_reference subs).

Lemma batches_prefix subs1 subs2 bs1 bs2 :
  batches_of subs1 = Ok bs1 → batches_of subs2 = Ok bs2 → subs1 `prefix_of` subs2 → bs1 `prefix_of` bs2.
Proof.
  intros E1 E2 [subs ->]. unfold batches_of in *. rewrite map_app in E2.
  apply try_map_app in E2 as (ys1 & ys2 & E & _ & ->). rewrite E1 in E. injection E as <-. by eexists.
Qed.

(** C1: the validators agree on the ledger.  In every reachable state of the
    system of validators, take two honest ones, each with an engine that started
    with the same ledger and has finalized, in any grouping and with any mempool,
    the batches of some first sub-DAGs its validator delivered.  Then the chain of
    one extends the chain of the other by valid checkpoints; and if both have
    finalized equally many sub-DAGs, their chains and states are the same. *)
Theorem validators_agree s a1 n1 a2 n2 subs1 subs2 bs1 bs2 (e1 e2 e1' e2' : engine_t) :
  setup order C cp p Byz → reachable serialized_len order C p Byz md s →
  nodes s !! a1 = Some n1 → nodes s !! a2 = Some n2 →
  subs1 `prefix_of` node_out n1 → subs2 `prefix_of` node_out n2 →
  batches_of subs1 = Ok bs1 → batches_of subs2 = Ok bs2 →
  same_ledger e1 e2 → evolves e1 bs1 e1' → evolves e2 bs2 e2' →
  (extends (eng_chain e1') (eng_chain e2') ∨ extends (eng_chain e2') (eng_chain e1'))
  ∧ (length subs1 = length subs2 → same_ledger e1' e2').
Proof.
  intros Hs Hr H1 H2 P1 P2 B1 B2 He E1 E2.
  destruct (setup_system serialized_len order C cp p Byz md s Hs Hr) as [Hw Hn _].
  assert (Hp : subs1 `prefix_of` subs2 ∨ subs2 `prefix_of` subs1).
  { destruct (delivered_agree C p Byz (stake_of C Byz) (setup_safe _ _ _ _ _ Hs) (N.le_refl _)
      (setup_leaders _ _ _ _ _ Hs) (existing C s) n1 n2) as [Hp|Hp];
      [done|apply (nd_delivered _ _ _ _ _ _ (Hn _ _ H1))|apply (nd_delivered _ _ _ _ _ _ (Hn _ _ H2))|..].
    - by apply (prefix_weak_total _ _ (node_out n2)); [transitivity (node_out n1)|].
    - by apply (prefix_weak_total _ _ (node_out n1)); [|transitivity (node_out n2)]. }
  destruct Hp as [Hp|Hp].
  - destruct (replicas_prefix _ _ _ _ _ _ _ _ _ _ _ _ _ _ _ _ _ _ _ _ He E1 E2 (batches_prefix _ _ _ _ B1 B2 Hp)) as [Hx Hl].
    split; [by left|]. intros Hlen. apply Hl.
    assert (subs1 = subs2) as -> by (by apply prefix_length_eq; [|lia]). congruence.
  - symmetry in He.
    destruct (replicas_prefix _ _ _ _ _ _ _ _ _ _ _ _ _ _ _ _ _ _ _ _ He E2 E1 (batches_prefix _ _ _ _ B2 B1 Hp)) as [Hx Hl].
    split; [by right|]. intros Hlen. symmetry. apply Hl.
    assert (subs2 = subs1) as -> by (by apply prefix_length_eq; [|lia]). congruence.
Qed.

(** ** From commits to checkpoints *)

Local Abbreviation ready := (finalize_ready_commits verify_signature_raw finalize_all).

Lemma try_map_length {A B} (f : A → result B) l ys : try_map f l = Ok ys → length ys = length l.
Proof.
  revert ys. induction l as [|x l IH]; intros ys E; cbn [try_map] in E; [by injection E as <-|].
  apply result_bind_ok in E as (y & _ & E). apply result_bind_ok in E as (zs & Ez & E). injection E as <-.
  cbn [length]. by rewrite (IH _ Ez).
Qed.
Lemma handle_commit_length R fuel l leaders l' subs :
  handle_commit R fuel l leaders = Ok (l', subs) → length subs = length leaders.
Proof.
  revert l l' subs. induction leaders as [|b leaders IH]; intros l l' subs E; cbn [handle_commit] in E.
  { by injection E as <- <-. }
  apply result_bind_ok in E as ([l1 sub] & _ & E). apply result_bind_ok in E as ([l2 rest] & Er & E).
  injection E as <- <-. cbn [length]. by rewrite (IH _ _ _ Er).
Qed.

(** Pending sub-DAGs are finalized, or stay. *)
Lemma ready_pending (d : DagEngine) :
  pending_committed_subdags (mysticeti_backend d) ≠ [] →
  let subs := pending_committed_subdags (mysticeti_backend d) in
  match ready d with
  | (d', Ok _) => ∃ bs, try_map (batch_of_subdag verify_signature_raw) subs = Ok bs
      ∧ engine d' = (finalize_all bs (engine d)).1 ∧ pending_committed_subdags (mysticeti_backend d') = []
      ∧ linearizer (mysticeti_backend d') = linearizer (mysticeti_backend d)
      ∧ core (mysticeti_backend d') = handle_committed_subdag subs (core (mysticeti_backend d))
  | (d', Err _) => mysticeti_backend d' = mysticeti_backend d
  end.
Proof.
  intros Hne. cbv zeta. unfold finalize_ready_commits, on_backend, on_engine, try_committed_batches, mbind, st_bind.
  destruct (pending_committed_subdags (mysticeti_backend d)) as [|sub subs] eqn:Ep; [done|].
  destruct (try_map _ (sub :: subs)) as [bs|err] eqn:Eb; [|done].
  assert (Hbs : bs ≠ []) by (intros ->; by apply try_map_length in Eb).
  replace (list_empty bs) with false by (by destruct bs).
  cbn [engine mysticeti_backend authority_id]. destruct (finalize_all bs (engine d)) as [e' [r|err]] eqn:Ef; [|reflexivity].
  cbn. exists bs. rewrite Ef. unfold ack_committed_batches. rewrite Ep. done.
Qed.

(** The next call, with the sub-DAGs [subs] just committed. *)
Lemma ready_retry (e : engine_t) id c l subs b :
  subs ≠ [] →
  let d := {| engine := e; mysticeti_backend := set_committed c l (map sort_by_reference subs) b; authority_id := id |} in
  match ready d with
  | (d2, Ok _) => ∃ bs, batches_of subs = Ok bs ∧ engine d2 = (finalize_all bs e).1
      ∧ pending_committed_subdags (mysticeti_backend d2) = [] ∧ linearizer (mysticeti_backend d2) = l
  | (d2, Err _) => mysticeti_backend d2 = mysticeti_backend d
  end.
Proof.
  intros Hs d. assert (Hm : pending_committed_subdags (mysticeti_backend d) ≠ []) by (by destruct subs).
  pose proof (ready_pending d Hm) as Hr. cbv zeta in Hr. destruct (ready d) as [d2 [r|err]]; [|done].
  destruct Hr as (bs & E1 & E2 & E3 & E4 & _). by exists bs.
Qed.

(** C14: no committed sub-DAG is lost.  When nothing is pending, finalizing what is
    ready commits exactly what the validator of the system model commits
    ([node_commit]).  On success the batches of the new sub-DAGs have been
    finalized in order, and the sub-DAGs are recorded in the log with their blocks
    ordered by reference.  On failure either nothing was committed, or the new
    sub-DAGs are pending: the next call does not run the commit rule but takes
    the batches of the same sub-DAGs, until it has finalized all of them. *)
Theorem ready_commits_complete (d : DagEngine) out :
  pending_committed_subdags (mysticeti_backend d) = [] →
  let b := mysticeti_backend d in
  let n := {| node_core := core b; node_linearizer := linearizer b; node_out := out |} in
  let d' := (ready d).1 in
  let b' := mysticeti_backend d' in
  match (ready d).2 with
  | Ok _ => ∃ n' subs bs c, node_commit n = Ok n' ∧ node_out n' = out ++ subs ∧ batches_of subs = Ok bs
      ∧ engine d' = (finalize_all bs (engine d)).1
      ∧ linearizer b' = node_linearizer n' ∧ pending_committed_subdags b' = []
      ∧ node_core n' = handle_committed_subdag subs c
      ∧ core b' = (if list_empty subs then c else handle_committed_subdag (map sort_by_reference subs) c)
  | Err _ => b' = b ∨
      ∃ n' subs, node_commit n = Ok n' ∧ node_out n' = out ++ subs ∧ subs ≠ []
        ∧ pending_committed_subdags b' = map sort_by_reference subs ∧ linearizer b' = node_linearizer n'
        ∧ match ready d' with
          | (d2, Ok _) => ∃ bs, batches_of subs = Ok bs ∧ engine d2 = (finalize_all bs (engine d')).1
              ∧ pending_committed_subdags (mysticeti_backend d2) = []
              ∧ linearizer (mysticeti_backend d2) = node_linearizer n'
          | (d2, Err _) => mysticeti_backend d2 = b'
          end
  end.
Proof.
  intros Hp. cbv zeta. remember (ready d) as x eqn:Ex. destruct x as [d' o]. cbn [fst snd].
  unfold node_commit. cbn [node_core node_linearizer node_out].
  unfold finalize_ready_commits, on_backend, on_engine, try_committed_batches, mbind, st_bind in Ex. rewrite Hp in Ex.
  destruct (core_try_commit (core (mysticeti_backend d))) as [[c leaders]|err] eqn:Ec; cbn [result_bind].
  2:{ injection Ex as -> ->. left. reflexivity. }
  destruct leaders as [|leader leaders].
  { injection Ex as -> ->. cbn. exists {| node_core := handle_committed_subdag [] c;
      node_linearizer := linearizer (mysticeti_backend d); node_out := out ++ [] |}, [], [], c. done. }
  destruct (handle_commit _ _ _ _) as [[l subs]|err] eqn:Eh; cbn [result_bind].
  2:{ injection Ex as -> ->. left. reflexivity. }
  assert (Hs : subs ≠ []) by (intros ->; by apply handle_commit_length in Eh).
  change (try_map _ (map sort_by_reference subs)) with (batches_of subs) in Ex.
  destruct (batches_of subs) as [bs|err] eqn:Eb.
  2:{ injection Ex as -> ->. right. eexists _, subs. split; [reflexivity|]. split_and!; [done..|]. by apply ready_retry. }
  assert (Hbs : bs ≠ []) by (intros ->; apply try_map_length in Eb; rewrite length_map in Eb; by destruct subs).
  replace (list_empty bs) with false in Ex by (by destruct bs). cbn [engine mysticeti_backend authority_id] in Ex.
  destruct (finalize_all bs (engine d)) as [e' [r|err]] eqn:Ef.
  - injection Ex as -> ->. eexists _, subs, bs, c. split; [reflexivity|]. rewrite Ef. cbn.
    unfold ack_committed_batches. cbn [set_committed pending_committed_subdags].
    destruct subs as [|sub subs]; [done|]. cbn [map list_empty]. done.
  - injection Ex as -> ->. right. eexists _, subs. split; [reflexivity|]. split_and!; [done..|]. by apply ready_retry.
Qed.
End Agreement.

(** ** Blocks in transport *)

Section Transport.
Context `{BlockCrypto} {B3 : Blake3} {BC : Bcs} {SC : StateCodecs} {HC : HistoryCodecs}.
Context (block_codec : Codec Block) (verify_signature_raw : bytes → bytes → bytes → result bool).
Context (b : MysticetiBackend).
Local Abbreviation ids := (authority_ids b).
Local Abbreviation C := (core_committee (core b)).
Local Abbreviation q := (committer_quorum_threshold (committer (core b))).
Local Abbreviation md := (mode (crypto (core b))).
Local Abbreviation validate := (validate_network_vertex block_codec verify_signature_raw b).

(** Every authority has a name, and the committee a quorum. *)
Hypothesis named : length ids = length (committee_authorities C).
Hypothesis quorum : (0 < q)%N.

Lemma name_known a : known C a → ids !! N.to_nat a = Some (authority_name ids a).
Proof.
  intros Hk. unfold authority_name. unfold known, get_stake in Hk.
  apply fmap_is_Some, lookup_lt_is_Some in Hk. rewrite <- named in Hk.
  destruct (lookup_lt_is_Some_2 ids (N.to_nat a) Hk) as [id ->]. done.
Qed.

(** The vertex of a block by known authorities. *)
Definition vertex_of (block : Block) (txs : list SignedTransaction) : DagVertex :=
  {| v_id := mysticeti_reference_to_vertex_id (reference block); v_round := round block;
     v_author := authority_name ids (author block); v_chain_id := DAG_CHAIN_ID;
     v_parents := map (parent_of ids) (includes block); v_transactions := txs;
     v_timestamp := timestamp_ms block; v_signature := block_signature block;
     v_native_block := enc block_codec block |}.

Lemma decode_encoded msg txs :
  Forall (λ tx, storable tx_codec (forget_tx tx)) txs →
  try_map (decode_transaction msg) (map signed_tx_to_mysticeti_transaction txs) = Ok (map forget_tx txs).
Proof.
  intros Hst. induction Hst as [|tx txs Ht _ IH]; [done|]. cbn [map try_map]. rewrite IH.
  unfold decode_transaction, signed_tx_to_mysticeti_transaction. by rewrite dec_enc.
Qed.

Lemma to_vertex block txs :
  well_formed C q block → block_transactions block = map signed_tx_to_mysticeti_transaction txs →
  Forall (λ tx, storable tx_codec (forget_tx tx)) txs →
  block_to_vertex block_codec ids block = Ok (vertex_of block (map forget_tx txs)).
Proof.
  intros [Ha Hi _] Ht Hst. unfold block_to_vertex. rewrite (name_known _ Ha). cbn [require result_bind].
  rewrite (try_map_all _ (parent_of ids)).
  2:{ intros r Hr. destruct (Hi r Hr) as [Hk _]. by rewrite (name_known _ Hk). }
  cbn [result_bind]. by rewrite Ht, decode_encoded.
Qed.

Lemma payloads_ok native txs :
  check_payloads verify_signature_raw native txs = Ok tt → length native = length txs →
  native = map signed_tx_to_mysticeti_transaction txs
  ∧ Forall (λ tx, is_ok (verified_transaction_hash verify_signature_raw tx).2 = true) txs.
Proof.
  revert txs. induction native as [|n native IH]; intros [|t txs] E Hl; try done. cbn [check_payloads] in E.
  apply result_bind_ok in E as (? & E1 & E). apply ensure_ok, bool_decide_eq_true in E1 as ->.
  apply result_bind_ok in E as (h & Eh & E). destruct (IH txs E) as [-> Hf]; [by injection Hl|].
  split; [done|]. constructor; [by rewrite Eh|done].
Qed.
Lemma payloads_checked txs :
  Forall (λ tx, is_ok (verified_transaction_hash verify_signature_raw tx).2 = true) txs →
  check_payloads verify_signature_raw (map signed_tx_to_mysticeti_transaction txs) txs = Ok tt.
Proof.
  intros Hf. induction Hf as [|tx txs Ht _ IH]; [done|]. cbn [map check_payloads].
  rewrite bool_decide_true by done. cbn [ensure result_bind].
  destruct (verified_transaction_hash _ tx) as [? [h|err]]; [exact IH|done].
Qed.

(** The native block of an accepted vertex. *)
Lemma native_inv v block :
  native_block block_codec b v = Ok block →
  dec block_codec (v_native_block v) = Some block ∧ block_verify block C q md = Ok tt.
Proof.
  unfold native_block. intros E. apply result_bind_ok in E as (u & _ & E). apply result_bind_ok in E as (x & Ex & E).
  apply require_ok in Ex.
  destruct (block_verify x C q md) as [[]|err] eqn:Ev; [|done]. injection E as <-. by split.
Qed.

(** The fields of [v] are those of [block]. *)
Definition carries (v : DagVertex) (block : Block) : Prop :=
  v_chain_id v = DAG_CHAIN_ID ∧ v_id v = mysticeti_reference_to_vertex_id (reference block) ∧ v_round v = round block
  ∧ v_author v = authority_name ids (author block) ∧ v_parents v = map (parent_of ids) (includes block)
  ∧ v_timestamp v = timestamp_ms block ∧ v_signature v = block_signature block.

Lemma vertex_sent block txs :
  block_verify block C q md = Ok tt → storable block_codec block → enc block_codec block ≠ [] →
  block_transactions block = map signed_tx_to_mysticeti_transaction txs →
  Forall (λ tx, storable tx_codec (forget_tx tx)) txs →
  Forall (λ tx, is_ok (verified_transaction_hash verify_signature_raw (forget_tx tx)).2 = true) txs →
  let v := vertex_of block (map forget_tx txs) in
  block_to_vertex block_codec ids block = Ok v ∧ validate v = Ok tt ∧ native_block block_codec b v = Ok block.
Proof.
  intros Hv Hst Hne Ht Hs Hok v. pose proof Hv as (Hr & Hwf & _)%(block_verify_ok _ _ _ _ quorum).
  split; [by apply to_vertex|]. assert (Hn : native_block block_codec b v = Ok block).
  { unfold native_block. cbn [v vertex_of v_native_block]. replace (list_empty (enc block_codec block)) with false
      by (by destruct (enc block_codec block)). cbn [ensure negb result_bind]. rewrite dec_enc by done.
    cbn [require result_bind]. by rewrite Hv. }
  split; [|done]. unfold validate_network_vertex. rewrite Hn. cbn [v vertex_of v_chain_id v_round v_author v_id
    v_signature v_timestamp v_parents v_transactions result_bind].
  pose proof (name_known _ (wf_author _ _ _ Hwf)) as Hname. apply list_elem_of_lookup_2 in Hname.
  rewrite !bool_decide_true by done. rewrite !N.eqb_refl, Z.eqb_refl, Ht, !length_map, Nat.eqb_refl.
  replace (round block =? 0)%N with false by (symmetry; apply N.eqb_neq; lia). cbn [ensure negb result_bind].
  rewrite <- (payloads_checked (map forget_tx txs)) by (by apply Forall_map).
  by rewrite map_map.
Qed.

Lemma vertex_received v :
  validate v = Ok tt →
  ∃ block, native_block block_codec b v = Ok block ∧ block_verify block C q md = Ok tt ∧ carries v block
    ∧ block_transactions block = map signed_tx_to_mysticeti_transaction (v_transactions v)
    ∧ Forall (λ tx, is_ok (verified_transaction_hash verify_signature_raw tx).2 = true) (v_transactions v).
Proof.
  intros E. unfold validate_network_vertex in E. inv_ok E.
  repeat match goal with Hx : ensure _ _ = Ok _ |- _ => apply ensure_ok in Hx end.
  repeat match goal with Hx : bool_decide _ = true |- _ => apply bool_decide_eq_true in Hx end.
  match goal with Hx : native_block _ _ _ = Ok ?x |- _ => exists x; apply native_inv in Hx as [_ Hv] end.
  match goal with Hx : (_ =? _)%N = true |- _ => apply N.eqb_eq in Hx end.
  match goal with Hx : (_ =? _)%Z = true |- _ => apply Z.eqb_eq in Hx end.
  match goal with Hx : (_ =? _)%nat = true |- _ => apply Nat.eqb_eq in Hx end.
  match goal with Hx : check_payloads _ _ _ = Ok tt |- _ => apply payloads_ok in Hx as [Ht Hf]; [|done] end.
  split; [done|]. split; [done|]. split; [|by split]. unfold carries. by split_and!.
Qed.

(** C15: vertices carry exactly the verified blocks.  A verified block whose
    transactions are encodings of signed transactions becomes a vertex, and every
    node with the same names and committee accepts that vertex and finds the block
    in it.  Conversely the native block of an accepted vertex decodes, verifies
    and determines every field of the vertex; the transactions are signed; and the
    node makes the same vertex of that block again, up to the caches of the
    transactions and to the encoding of the block. *)
Theorem vertex_transport :
  (∀ block txs, block_verify block C q md = Ok tt → storable block_codec block → enc block_codec block ≠ [] →
     block_transactions block = map signed_tx_to_mysticeti_transaction txs →
     Forall (λ tx, storable tx_codec (forget_tx tx)) txs →
     Forall (λ tx, is_ok (verified_transaction_hash verify_signature_raw (forget_tx tx)).2 = true) txs →
     ∃ v, block_to_vertex block_codec ids block = Ok v ∧ validate v = Ok tt
       ∧ v_transactions v = map forget_tx txs ∧ native_block block_codec b v = Ok block)
  ∧ (∀ v, validate v = Ok tt →
       ∃ block, native_block block_codec b v = Ok block ∧ block_verify block C q md = Ok tt ∧ carries v block
         ∧ Forall (λ tx, is_ok (verified_transaction_hash verify_signature_raw tx).2 = true) (v_transactions v)
         ∧ (Forall (λ tx, storable tx_codec (forget_tx tx)) (v_transactions v) →
            ∃ v', block_to_vertex block_codec ids block = Ok v' ∧ carries v' block
              ∧ v_transactions v' = map forget_tx (v_transactions v))).
Proof.
  split.
  - intros block txs Hv Hst Hne Ht Hs Hok. exists (vertex_of block (map forget_tx txs)).
    destruct (vertex_sent block txs Hv Hst Hne Ht Hs Hok) as (H1 & H2 & H3). done.
  - intros v (block & Hn & Hv & Hc & Ht & Hf)%vertex_received. exists block. split_and!; [done..|].
    intros Hs. pose proof Hv as (_ & Hwf & _)%(block_verify_ok _ _ _ _ quorum).
    exists (vertex_of block (map forget_tx (v_transactions v))). split; [by apply to_vertex|]. by split.
Qed.
End Transport.

(** ** The ancestry of a checkpoint *)

Section Ancestry.
Context {SC : StateCodecs} {HC : HistoryCodecs} (block_codec : Codec Block).
Context (json_len : DagVertex → option N) (b : MysticetiBackend) (V : gmap BlockReference Block).
Local Abbreviation ids := (authority_ids b).
Local Abbreviation R := (core_reader (core b)).
Local Abbreviation to_vertex := (block_to_vertex block_codec ids).
Local Abbreviation loop := (closure_loop block_codec json_len).

(** The store of a validator: closed under includes, without two blocks of one
    digest, and all blocks after genesis carry transactions that decode. *)
Context {Laws : ReaderLaws R V}.
Hypothesis view_closed : ∀ r x i, V !! r = Some x → i ∈ includes x → is_Some (V !! i).
Hypothesis digests_unique : ∀ r r', is_Some (V !! r) → is_Some (V !! r') → ref_digest r = ref_digest r' → r = r'.
Hypothesis convertible : ∀ r x, V !! r = Some x → (0 < round x)%N → ∃ v, to_vertex x = Ok v.
Hypothesis json_total : ∀ v, is_Some (json_len v).

(** The vertices of the store. *)
Definition stored_vertex (v : DagVertex) : Prop :=
  ∃ x, V !! reference x = Some x ∧ (0 < round x)%N ∧ to_vertex x = Ok v.

Lemma vertex_fields x v :
  to_vertex x = Ok v →
  v_id v = ref_digest (reference x) ∧ v_round v = round x ∧ ids !! N.to_nat (author x) = Some (v_author v)
  ∧ try_map (λ r, let? a := require (ids !! N.to_nat (ref_authority r)) "Unknown Mysticeti parent author" in
                  Ok (a, ref_round r, mysticeti_reference_to_vertex_id r)) (includes x) = Ok (v_parents v).
Proof.
  unfold block_to_vertex. intros E. apply result_bind_ok in E as (a & Ea & E). apply require_ok in Ea.
  apply result_bind_ok in E as (ps & Ep & E). apply result_bind_ok in E as (txs & _ & E). by injection E as <-.
Qed.

Lemma rounds_elem lo hi r : r ∈ rounds lo hi ↔ (lo ≤ r ≤ hi)%N.
Proof.
  unfold rounds. rewrite list_elem_of_fmap. split.
  - intros (i & -> & Hi). apply elem_of_seq in Hi. lia.
  - intros Hr. exists (N.to_nat (r - lo)). split; [lia|]. apply elem_of_seq. lia.
Qed.

Lemma all_vertices :
  ∃ vs, vertices_of_rounds block_codec (λ l, l) b (rounds 1 (reader_highest_round R)) = Ok vs
    ∧ ∀ v, v ∈ vs ↔ stored_vertex v.
Proof.
  set (f := λ r, let? l := get_blocks_by_round R r in try_map to_vertex l).
  assert (Hround : ∀ r, (0 < r)%N → ∃ vs, f r = Ok vs
    ∧ ∀ v, v ∈ vs ↔ ∃ x, V !! reference x = Some x ∧ round x = r ∧ to_vertex x = Ok v).
  { intros r Hr. unfold f. destruct (law_round (V := V) r) as (l & -> & _ & Hl). cbn [result_bind].
    destruct (try_map_total to_vertex l) as (vs & Evs & Hvs).
    { intros x Hx. apply Hl in Hx as [Hv Hx]. apply (convertible _ _ Hv). lia. }
    exists vs. split; [done|]. intros v. rewrite Hvs. split; intros (x & Hx & E).
    - apply Hl in Hx as [H1 H2]. by exists x.
    - destruct E as [E1 E2]. exists x. split; [apply Hl; by split|done]. }
  destruct (try_map_total f (rounds 1 (reader_highest_round R))) as (vss & Evss & Hvss).
  { intros r Hr. apply rounds_elem in Hr. destruct (Hround r) as (vs & Evs & _); [lia|]. by exists vs. }
  exists (concat vss). unfold vertices_of_rounds. change (try_map _ _) with (try_map f (rounds 1 (reader_highest_round R))).
  rewrite Evss. split; [done|]. intros v. rewrite list_elem_of_In, in_concat. split.
  - intros (vs & Hvs & Hv). apply list_elem_of_In in Hvs. apply list_elem_of_In in Hv. apply Hvss in Hvs as (r & Hr & Er).
    apply rounds_elem in Hr. destruct (Hround r) as (vs' & Er' & Hs); [lia|]. rewrite Er in Er'. injection Er' as <-.
    apply Hs in Hv as (x & Hx & <- & Ex). exists x. split_and!; [done|lia|done].
  - intros (x & Hx & Hr & Ex). destruct (Hround (round x) Hr) as (vs & Evs & Hs). exists vs.
    split; apply list_elem_of_In; [|apply Hs; by exists x]. apply Hvss. exists (round x). split; [|done]. apply rounds_elem.
    pose proof (law_highest (V := V) _ _ Hx). lia.
Qed.

(** A stored parent is found by its round and id. *)
Lemma parent_found i :
  is_Some (V !! i) → (0 < ref_round i)%N →
  ∃ x v, find_parent b (ref_round i) (mysticeti_reference_to_vertex_id i) = Ok (Some x) ∧ reference x = i
    ∧ to_vertex x = Ok v ∧ stored_vertex v.
Proof.
  intros [x Hx] Hr. pose proof (law_keys (V := V) _ _ Hx) as Hk. unfold find_parent.
  destruct (law_round (V := V) (ref_round i)) as (l & -> & _ & Hl). cbn [result_bind].
  assert (Hin : x ∈ l) by (apply Hl; rewrite Hk; split; [done|]; unfold round; by rewrite Hk).
  destruct (find _ l) as [y|] eqn:Ef.
  2:{ apply list_elem_of_In in Hin. pose proof (List.find_none _ _ Ef x Hin) as Hn. cbn beta in Hn.
      by rewrite bool_decide_true in Hn by (by rewrite Hk). }
  apply find_some in Ef as [Hy Hd]. apply list_elem_of_In, Hl in Hy as [Hy Hyr]. apply bool_decide_eq_true in Hd.
  assert (reference y = i) as Hi by (apply digests_unique; [by eexists|by eexists|done]).
  destruct (convertible _ _ Hy) as [v Ev]; [lia|]. exists y, v. split_and!; [done..|]. exists y. split_and!; [done|lia|done].
Qed.

Lemma parents_visited closure v :
  stored_vertex v →
  ∃ ps, parents_to_visit block_codec b closure (v_parents v) = Ok ps ∧ Forall stored_vertex ps
    ∧ length ps ≤ length (v_parents v).
Proof.
  intros (x & Hx & _ & Ev). apply vertex_fields in Ev as (_ & _ & _ & Ep).
  assert (Hc : ∀ i, i ∈ includes x → is_Some (V !! i)) by (intros i; by apply view_closed with (reference x)).
  revert Ep. generalize (v_parents v). revert Hc. generalize (includes x). clear v x Hx.
  intros incs. induction incs as [|i incs IH]; intros Hc ps0 Ep; cbn [try_map] in Ep.
  { injection Ep as <-. exists []. by repeat constructor. }
  apply result_bind_ok in Ep as (pr & E1 & Ep). apply result_bind_ok in Ep as (ps1 & E2 & Ep). injection Ep as <-.
  apply result_bind_ok in E1 as (a & Ea & E1). injection E1 as <-. apply require_ok in Ea.
  destruct (IH (λ j Hj, Hc j (proj2 (elem_of_cons _ _ _) (or_intror Hj))) ps1 E2) as (ps & Eps & Hf & Hl).
  cbn [parents_to_visit length]. destruct (_ || _) eqn:Eb; [exists ps; split_and!; [done|done|lia]|].
  apply orb_false_iff in Eb as [Hr _]. apply N.eqb_neq in Hr.
  destruct (parent_found i) as (y & w & Ef & Hy & Ew & Hw); [apply Hc; by left|lia|]. rewrite Ef. cbn [result_bind require].
  rewrite Ew. cbn [result_bind]. pose proof Ew as (_ & _ & Hname & _)%vertex_fields. unfold author in Hname.
  rewrite Hy, Ea in Hname. injection Hname as ->. rewrite bool_decide_true by done. cbn [ensure result_bind].
  rewrite Eps. exists (w :: ps). split; [done|]. split; [by constructor|]. cbn [length]. lia.
Qed.

(** *** The loop *)

(** The parents of the vertices that were not visited yet. *)
Definition weight (vs : list DagVertex) (closure : gmap bytes DagVertex) : nat :=
  sum_list_with (λ v, if bool_decide (is_Some (closure !! v_id v)) then 0 else length (v_parents v)) vs.

Lemma weight_mono vs closure v : weight vs (<[v_id v := v]> closure) ≤ weight vs closure.
Proof.
  unfold weight. induction vs as [|w vs IH]; [done|]. cbn [sum_list_with]. apply Nat.add_le_mono; [|done].
  case_bool_decide as H1; case_bool_decide as H2; try lia. destruct H1. apply lookup_insert_is_Some'. by right.
Qed.
Lemma weight_insert vs closure v :
  v ∈ vs → closure !! v_id v = None →
  weight vs (<[v_id v := v]> closure) + length (v_parents v) ≤ weight vs closure.
Proof.
  intros Hin Hn. unfold weight. induction vs as [|w vs IH]; [by apply elem_of_nil in Hin|]. cbn [sum_list_with].
  pose proof (weight_mono vs closure v) as Hm. unfold weight in Hm. apply elem_of_cons in Hin as [->|Hin].
  - rewrite (bool_decide_true (is_Some (<[_:=_]> _ !! _))) by (by rewrite lookup_insert_eq).
    rewrite (bool_decide_false (is_Some (closure !! _))) by (rewrite Hn; by intros []). lia.
  - specialize (IH Hin). case_bool_decide as H1; case_bool_decide as H2; try lia.
    destruct H1. apply lookup_insert_is_Some'. by right.
Qed.

(** The vertices collected so far. *)
Record collected (limit : nat) (closure : gmap bytes DagVertex) : Prop := {
  col_keys : ∀ id v, closure !! id = Some v → v_id v = id ∧ stored_vertex v;
  col_size : size closure ≤ limit
}.

Lemma loop_total vs roots limit fuel queue closure bytes :
  (∀ v, stored_vertex v → v ∈ vs) → Forall stored_vertex queue → collected limit closure →
  length queue + weight vs closure < fuel →
  ∃ closure', loop fuel b roots limit queue closure bytes = Ok closure' ∧ collected limit closure' ∧ closure ⊆ closure'
    ∧ ∀ q1 q2, queue = q1 ++ q2 → Forall (λ v, v_id v ∈ roots) q1 → size closure + length q1 ≤ limit →
        Forall (λ v, is_Some (closure' !! v_id v)) q1.
Proof.
  intros Hvs. revert queue closure bytes. induction fuel as [|fuel IH]; intros queue closure bytes Hq Hc Hf; [lia|].
  cbn [closure_loop]. destruct queue as [|v queue].
  { exists closure. split_and!; [done..|]. intros q1 q2 E _ _. symmetry in E. by apply app_eq_nil in E as [-> _]. }
  apply Forall_cons in Hq as [Hv Hq]. cbn [length] in Hf. case_bool_decide as Hin.
  { destruct (IH queue closure bytes Hq Hc) as (closure' & El & Hc' & Hsub & Hr); [lia|]. exists closure'.
    split_and!; [done..|]. intros [|v' q1] q2 E Hroots Hlim; [constructor|]. injection E as <- E.
    apply Forall_cons in Hroots as [_ Hroots]. cbn [length] in Hlim. constructor; [|by apply (Hr q1 q2); [| |lia]].
    destruct Hin as [w Hw]. exists w. by apply (lookup_weaken _ _ _ _ Hw). }
  assert (Hstop : ∃ closure', Ok closure = Ok closure' ∧ collected limit closure' ∧ closure ⊆ closure') by (by exists closure).
  apply eq_None_not_Some in Hin. destruct (limit <=? size closure) eqn:Elim.
  { apply Nat.leb_le in Elim. destruct Hstop as (closure' & E & H1 & H2). exists closure'. split_and!; [done..|].
    intros [|v' q1] q2 _ _ Hlim; [constructor|]. cbn [length] in Hlim. lia. }
  apply Nat.leb_gt in Elim. destruct (json_total v) as [n ->]. cbn [require result_bind].
  destruct (_ && _) eqn:Ebudget.
  { destruct Hstop as (closure' & E & H1 & H2). exists closure'. split_and!; [done..|].
    intros [|v' q1] q2 E' Hroots _; [constructor|]. injection E' as <- _. apply Forall_cons in Hroots as [Hroot _].
    apply andb_true_iff in Ebudget as [Hb _]. by apply bool_decide_eq_true in Hb. }
  destruct (parents_visited closure v Hv) as (ps & -> & Hps & Hlen). cbn [result_bind].
  pose proof (weight_insert vs closure v (Hvs v Hv) Hin) as Hw.
  destruct (IH (queue ++ ps) (<[v_id v := v]> closure) (N.min (bytes + n) (u64_limit - 1)))
    as (closure' & El & Hc' & Hsub & Hr).
  - by apply Forall_app.
  - destruct Hc as [Hk Hs]. split; [|rewrite map_size_insert_None by done; lia].
    intros id w Hid. apply lookup_insert_Some in Hid as [[<- <-]|[_ Hid]]; [done|by apply Hk].
  - rewrite length_app. lia.
  - exists closure'. split; [done|]. split; [done|]. split; [by etransitivity; [apply insert_subseteq|]|].
    intros [|v' q1] q2 E Hroots Hlim; [constructor|]. injection E as <- ->. cbn [length] in Hlim.
    apply Forall_cons in Hroots as [_ Hroots]. constructor.
    + exists v. apply (lookup_weaken _ _ _ _ (lookup_insert_eq _ _ _) Hsub).
    + apply (Hr q1 (q2 ++ ps)); [by rewrite app_assoc|done|]. rewrite map_size_insert_None by done. lia.
Qed.

(** The map of all vertices by id. *)
Lemma recent_spec (vs : list DagVertex) (m : gmap bytes DagVertex) id :
  (∀ v, fold_left (λ m v, <[v_id v := v]> m) vs m !! id = Some v → (v ∈ vs ∧ v_id v = id) ∨ m !! id = Some v)
  ∧ ((∃ v, v ∈ vs ∧ v_id v = id) ∨ is_Some (m !! id) → is_Some (fold_left (λ m v, <[v_id v := v]> m) vs m !! id)).
Proof.
  revert m. induction vs as [|w vs IH]; intros m; cbn [fold_left].
  { split; [by right|]. by intros [(v & Hv%elem_of_nil & _)|Hm]. }
  destruct (IH (<[v_id w := w]> m)) as [I1 I2]. split.
  - intros v Hv. destruct (I1 v Hv) as [[Hin Hid]|Hm]; [left; split; [by right|done]|].
    apply lookup_insert_Some in Hm as [[Hid ->]|[_ Hm]]; [left; split; [by left|done]|by right].
  - intros Hv. apply I2. rewrite lookup_insert_is_Some'. destruct Hv as [(v & [->|Hv]%elem_of_cons & Hid)|Hm].
    + right. by left.
    + left. by exists v.
    + right. by right.
Qed.

Lemma vertex_leb_total x y : vertex_leb x y = false → vertex_leb y x = true.
Proof.
  unfold vertex_leb. rewrite (N.eqb_sym (v_round y)), (bool_decide_ext (v_author y = v_author x) (v_author x = v_author y))
    by (split; by intros ->). destruct (v_round x =? v_round y)%N; cbn [negb]; [|rewrite N.leb_gt, N.leb_le; lia].
  assert (Hb : ∀ a c, bytes_leb a c = false → bytes_leb c a = true).
  { intros a c E. destruct (total bytes_le a c) as [Hle|Hle]; unfold bytes_le in Hle; congruence. }
  destruct (bool_decide _); cbn [negb]; apply Hb.
Qed.

Definition recent (vs : list DagVertex) : gmap bytes DagVertex := fold_left (λ m v, <[v_id v := v]> m) vs ∅.

Lemma roots_found vs roots msg :
  (∀ v, v ∈ vs ↔ stored_vertex v) → Forall (λ id, ∃ v, stored_vertex v ∧ v_id v = id) roots →
  ∃ queue, try_map (λ id, require (recent vs !! id) msg) roots = Ok queue ∧ length queue = length roots
    ∧ Forall (λ v, stored_vertex v ∧ v_id v ∈ roots) queue ∧ ∀ id, id ∈ roots → ∃ v, v ∈ queue ∧ v_id v = id.
Proof.
  intros Hvs Hroots. set (f := λ id, require (recent vs !! id) msg).
  assert (Hget : ∀ id, id ∈ roots → ∃ v, f id = Ok v ∧ stored_vertex v ∧ v_id v = id).
  { intros id Hid. rewrite Forall_forall in Hroots. destruct (Hroots id Hid) as (v & Hv & E).
    destruct (recent_spec vs ∅ id) as [H1 H2]. destruct H2 as [w Hw]; [left; exists v; by rewrite Hvs|].
    exists w. unfold f, recent. rewrite Hw. split; [done|].
    destruct (H1 w Hw) as [[Hin Hi]|Hm]; [by rewrite Hvs in Hin|by rewrite lookup_empty in Hm]. }
  destruct (try_map_total f roots) as (queue & Eq & Hq); [intros id Hid; destruct (Hget id Hid) as (v & E & _); by exists v|].
  exists queue. split_and!; [done|by apply (try_map_length _ _ _ Eq)| |].
  - apply Forall_forall. intros v Hv. apply Hq in Hv as (id & Hid & E). destruct (Hget id Hid) as (w & Ew & Hw & Hi).
    rewrite E in Ew. injection Ew as <-. by rewrite Hi.
  - intros id Hid. destruct (Hget id Hid) as (v & E & _ & Hi). exists v. split; [|done]. apply Hq. by exists id.
Qed.

Lemma collected_answer limit closure :
  collected limit closure →
  let out := sort_by vertex_leb (map snd (map_to_list closure)) in
  length out ≤ limit ∧ NoDup (map v_id out) ∧ Forall stored_vertex out ∧ Sorted (λ x y, vertex_leb x y = true) out
  ∧ ∀ id, is_Some (closure !! id) → id ∈ map v_id out.
Proof.
  intros [Hk Hsz] out. assert (Hperm : out ≡ₚ map snd (map_to_list closure)) by apply sort_by_perm.
  assert (Hids : map v_id (map snd (map_to_list closure)) = map fst (map_to_list closure)).
  { rewrite map_map. apply map_ext_in. intros [id v] Hin%list_elem_of_In%elem_of_map_to_list. by apply Hk in Hin as [? _]. }
  split_and!.
  - by rewrite Hperm, length_map, length_map_to_list.
  - rewrite Hperm, Hids. apply NoDup_fst_map_to_list.
  - rewrite Hperm, Forall_map. apply Forall_forall. intros [id v] Hin%elem_of_map_to_list. by apply Hk in Hin as [_ ?].
  - apply sort_by_sorted. exact vertex_leb_total.
  - intros id [w Hw]. rewrite Hperm, Hids. apply list_elem_of_fmap. exists (id, w). split; [done|].
    by apply elem_of_map_to_list.
Qed.

Lemma fuel_enough roots vs (queue : list DagVertex) :
  length queue = length roots → length queue + weight vs ∅ < closure_fuel roots vs.
Proof.
  intros ->. unfold closure_fuel, weight.
  enough (sum_list_with (λ v, if bool_decide (is_Some ((∅ : gmap bytes DagVertex) !! v_id v)) then 0
    else length (v_parents v)) vs ≤ sum_list_with (λ v, length (v_parents v)) vs) as Hw by lia.
  induction vs as [|v vs IH]; [done|]. cbn [sum_list_with]. case_bool_decide; lia.
Qed.

(** C16: a request for the vertices of a checkpoint is answered.  If the vertices
    are in the store, the search ends within its fuel and without an error; the
    answer consists of distinct stored vertices, at most [limit] of them, earlier
    rounds first; and it has every vertex of the checkpoint if there are not more
    than [limit]. *)
Theorem checkpoint_sync_answers roots limit :
  roots ≠ [] → limit ≠ 0 → Forall (λ id, ∃ v, stored_vertex v ∧ v_id v = id) roots →
  ∃ out, checkpoint_vertices_for_sync block_codec json_len roots limit b = Ok out
    ∧ length out ≤ limit ∧ NoDup (map v_id out) ∧ Forall stored_vertex out
    ∧ Sorted (λ x y, vertex_leb x y = true) out
    ∧ (length roots ≤ limit → ∀ id, id ∈ roots → id ∈ map v_id out).
Proof.
  intros Hne Hl Hroots. unfold checkpoint_vertices_for_sync. replace (list_empty roots) with false by (by destruct roots).
  replace (limit =? 0) with false by (symmetry; by apply Nat.eqb_neq). cbn [negb ensure result_bind].
  destruct all_vertices as (vs & -> & Hvs). cbn [result_bind].
  destruct (roots_found vs roots "Checkpoint DAG vertex is missing from retained Mysticeti block store" Hvs Hroots)
    as (queue & Eq & Hlen & Hst & Hfound).
  unfold recent in Eq. rewrite Eq. cbn [result_bind].
  destruct (loop_total vs (list_to_set roots) limit (closure_fuel roots vs) queue ∅ 0) as (closure & -> & Hc & _ & Hr).
  - intros v. by rewrite Hvs.
  - by eapply Forall_impl; [exact Hst|intros v []].
  - split; [intros id v H; by rewrite lookup_empty in H|by rewrite map_size_empty; lia].
  - by apply fuel_enough.
  - destruct (collected_answer _ _ Hc) as (H1 & H2 & H3 & H4 & H5). eexists. split; [reflexivity|]. split_and!; [done..|].
    intros Hlim id Hid. destruct (Hfound id Hid) as (v & Hv & <-). apply H5.
    refine (proj1 (Forall_forall _ _) (Hr queue [] _ _ _) v Hv); [by rewrite app_nil_r| |rewrite map_size_empty; lia].
    eapply Forall_impl; [exact Hst|]. intros w [_ Hw]. by apply elem_of_list_to_set.
Qed.
End Ancestry.

(** ** A run of the whole node

    The four validators of [DagSystem.Runs], three of them honest, get the two
    payments of [CheckpointRuns] and commit them. *)

Module Runs.
Import HistoryTheorems.Runs ToyHistory ToyHash RealHex RunBcs ToyCodecs MemStore SmtTheorems.Runs ExecutionRuns.Runs ExecutorTheorems.Runs CheckpointRuns.Replicas DagSystem.Runs.

Definition stamped (tx : Transaction) : SignedTransaction :=
  {| transaction := tx; signature := [1%Z]; cached_transaction_hash := None; cached_verified_signature := None |}.
Definition first_payment : SignedTransaction := stamped (pay (ref_of coin_id 500)).
Definition second_payment : SignedTransaction := stamped pay_later.
Definition accept (_ _ _ : bytes) : result bool := Ok true.

(** A codec for these two. *)
#[export] Instance payment_codecs : HistoryCodecs := {|
  checkpoint_codec := @checkpoint_codec _ toy_history;
  txs_codec := @txs_codec _ toy_history;
  tx_codec := through (λ t, nonce (transaction t)) (λ n, if (n =? 2)%Z then second_payment else first_payment);
  hashes_codec := @hashes_codec _ toy_history;
  watermark_codec := @watermark_codec _ toy_history;
  location_codec := @location_codec _ toy_history;
  chain_codec := @chain_codec _ toy_history;
  legacy_dec := @legacy_dec _ toy_history;
  json_checkpoint_dec := @json_checkpoint_dec _ toy_history;
  json_chain := @json_chain _ toy_history;
  hashes_storable := @hashes_storable _ toy_history;
  watermark_storable := @watermark_storable _ toy_history;
  chain_storable := @chain_storable _ toy_history;
  json_storable := @json_storable _ toy_history
|}.

Definition submit_all : list action :=
  concat (map (λ a, [Submit a (map signed_tx_to_mysticeti_transaction [first_payment; second_payment]); Drain a]) [0; 1; 2]%N).
Notation paid_exec :=
  (run demo_len elements demo_committee demo_protocol Enabled demo_engine [0; 1; 2]%N (submit_all ++ demo_run)).
Definition paid_state : System := from_ok paid_exec.
Definition paid_out (a : Authority) : list CommittedSubDag :=
  match nodes paid_state !! a with Some n => node_out n | None => [] end.
Definition paid_batches (a : Authority) : list MysticetiCommittedBatch :=
  match batches_of accept (paid_out a) with Ok bs => bs | Err _ => [] end.

Lemma paid_batches_ok : batches_of accept (paid_out 0%N) = Ok (paid_batches 0%N) ∧ batches_of accept (paid_out 1%N) = Ok (paid_batches 1%N)
  ∧ map (λ b, length (batch_transactions b)) (paid_batches 0%N) = [2].
Proof. split_and!; vm_compute; reflexivity. Qed.

Lemma paid_reachable : reachable demo_len elements demo_committee demo_protocol demo_byz Enabled paid_state.
Proof.
  apply (run_reachable _ _ _ _ _ _ demo_engine [0; 1; 2]%N (submit_all ++ demo_run)).
  - intros a. rewrite <- known_authority_iff. unfold known_authority, demo_byz.
    change (committee_len demo_committee) with 4%N.
    rewrite N.ltb_lt, not_elem_of_singleton, !elem_of_cons, elem_of_nil. lia.
  - apply from_ok_spec. vm_compute. reflexivity.
Qed.

(** The engines of the validators 0 and 1. *)
Local Abbreviation settle := (finalize_batches id id id no_env idle false true true 8 false (λ _, Ok tt) (λ _, Ok tt)
  (Ok tt) (mret [])).
Local Abbreviation settled0 := (settle (paid_batches 0%N) node).
Local Abbreviation settled1 := (settle (paid_batches 1%N) replica).

Lemma paid_outcome :
  match settled0.2, settled1.2 with
  | Ok (Some c0), Ok (Some c1) => sequence c0 = 1%Z ∧ length (transactions c0) = 2 ∧ state_root c0 = state_root c1
  | _, _ => False
  end.
Proof. vm_compute. auto. Qed.

Lemma settle_ok bs (e : BlockchainEngine MemStore.t) : is_ok (settle bs e).2 = true → ∃ r, settle bs e = ((settle bs e).1, Ok r).
Proof. destruct (settle bs e) as [e' [r|err]]; [by exists r|done]. Qed.
Lemma settled0_ok : ∃ r, settled0 = (settled0.1, Ok r).
Proof. apply settle_ok. vm_compute. reflexivity. Qed.
Lemma settled1_ok : ∃ r, settled1 = (settled1.1, Ok r).
Proof. apply settle_ok. vm_compute. reflexivity. Qed.
Lemma paid_node a :
  bool_decide (is_Some (nodes paid_state !! a)) = true → ∃ n, nodes paid_state !! a = Some n ∧ node_out n = paid_out a.
Proof. unfold paid_out. destruct (nodes paid_state !! a) as [n|]; [by exists n|done]. Qed.
Lemma paid_zero : ∃ n, nodes paid_state !! 0%N = Some n ∧ node_out n = paid_out 0%N.
Proof. apply paid_node. vm_compute. reflexivity. Qed.
Lemma paid_one : ∃ n, nodes paid_state !! 1%N = Some n ∧ node_out n = paid_out 1%N.
Proof. apply paid_node. vm_compute. reflexivity. Qed.
Lemma paid_length : length (paid_out 0%N) = length (paid_out 1%N).
Proof. vm_compute. reflexivity. Qed.
Lemma replicas_start : same_ledger node replica.
Proof. by split. Qed.

Lemma validators_agree_witness : same_ledger settled0.1 settled1.1.
Proof.
  destruct paid_zero as (n0 & H0 & O0), paid_one as (n1 & H1 & O1), settled0_ok as [r0 E0], settled1_ok as [r1 E1],
    paid_batches_ok as (B0 & B1 & _).
  pose proof (validators_agree demo_len elements demo_committee demo_parameters demo_protocol demo_byz Enabled accept
    id id id no_env idle false true true 8 false (λ _, Ok tt) (λ _, Ok tt) (Ok tt) (mret []) paid_state 0%N n0 1%N n1
    (paid_out 0%N) (paid_out 1%N)) as T.
  rewrite O0, O1 in T.
  destruct (T _ _ _ _ _ _ demo_setup paid_reachable H0 H1 (reflexivity _) (reflexivity _) B0 B1 replicas_start
    (evolves_once _ _ _ _ _ _ _ _ _ _ _ _ _ _ _ _ _ _ E0) (evolves_once _ _ _ _ _ _ _ _ _ _ _ _ _ _ _ _ _ _ E1)) as [_ Hl].
  apply Hl. exact paid_length.
Defined.
(** *** The node of the third validator, which has not committed yet *)

Definition names : list bytes := [str "a"; str "b"; str "c"; str "d"].
Definition backend_of (n : Node) : MysticetiBackend :=
  {| core := node_core n; protocol := demo_protocol; authority_ids := names; linearizer := node_linearizer n;
     submitted_tx_hashes := ∅; pending_committed_subdags := []; last_cleanup := 0 |}.
Definition dag_node (n : Node) : DagEngine (DB := MemStore.t) :=
  {| engine := node; mysticeti_backend := backend_of n; authority_id := str "c" |}.
Local Abbreviation ready := (finalize_ready_commits accept settle).

Lemma paid_two : ∃ n, nodes paid_state !! 2%N = Some n ∧ is_ok (ready (dag_node n)).2 = true.
Proof.
  assert (H : match nodes paid_state !! 2%N with Some n => is_ok (ready (dag_node n)).2 | None => false end = true)
    by (vm_compute; reflexivity).
  destruct (nodes paid_state !! 2%N) as [n|]; [by exists n|done].
Qed.

Lemma ready_commits_complete_witness :
  ∃ n n' subs bs, nodes paid_state !! 2%N = Some n ∧ node_commit n = Ok n' ∧ node_out n' = node_out n ++ subs
    ∧ batches_of accept subs = Ok bs ∧ engine (ready (dag_node n)).1 = (settle bs node).1.
Proof.
  destruct paid_two as (n & Hn & Hok).
  pose proof (ready_commits_complete accept id id id no_env idle false true true 8 false (λ _, Ok tt) (λ _, Ok tt)
    (Ok tt) (mret []) (dag_node n) (node_out n) eq_refl) as H. cbv zeta in H.
  destruct (ready (dag_node n)).2 as [r|err]; [|discriminate Hok].
  destruct H as (n' & subs & bs & c & H1 & H2 & H3 & H4 & _).
  exists n, n', subs, bs. destruct n as [c0 l0 o0]. exact (conj Hn (conj H1 (conj H2 (conj H3 H4)))).
Defined.

(** *** Its vertices *)

Definition block_codec : Codec Block :=
  through (λ b, (reference b, includes b, block_transactions b, timestamp_ns b, block_signature b))
    (λ p, {| reference := p.1.1.1.1; includes := p.1.1.1.2; block_transactions := p.1.1.2; timestamp_ns := p.1.2;
             block_signature := p.2 |}).
Lemma block_storable x : storable block_codec x.
Proof. by destruct x. Qed.

Definition paid_block : Block := default (block_genesis 0) (last (produced paid_state)).
Lemma paid_block_ok :
  block_verify paid_block demo_committee 3 Enabled = Ok tt
  ∧ block_transactions paid_block = map signed_tx_to_mysticeti_transaction [first_payment; second_payment].
Proof. split; vm_compute; reflexivity. Qed.
Lemma paid_core n : nodes paid_state !! 2%N = Some n →
  core_committee (node_core n) = demo_committee ∧ committer_quorum_threshold (committer (node_core n)) = 3%N
  ∧ mode (crypto (node_core n)) = Enabled.
Proof.
  intros Hn. destruct (setup_system _ _ _ _ _ _ _ _ demo_setup paid_reachable) as [_ Hok _]. destruct (Hok _ _ Hn) as [_ HC Hc _ _ _ _ _].
  split; [done|]. rewrite Hc. split; [vm_compute; reflexivity|].
  assert (H : match nodes paid_state !! 2%N with Some n => match mode (crypto (node_core n)) with Enabled => true | _ => false end
    | None => false end = true) by (vm_compute; reflexivity).
  rewrite Hn in H. by destruct (mode _).
Qed.

Lemma vertex_transport_witness :
  ∃ n v, nodes paid_state !! 2%N = Some n ∧ block_to_vertex block_codec names paid_block = Ok v
    ∧ validate_network_vertex block_codec accept (backend_of n) v = Ok tt.
Proof.
  destruct paid_two as (n & Hn & _). pose proof (paid_core n Hn) as (HC & Hq & Hm).
  pose proof paid_block_ok as [Hv Ht].
  destruct (vertex_transport block_codec accept (backend_of n)) as [Hsend _].
  - cbn [backend_of core authority_ids]. rewrite HC. reflexivity.
  - cbn [backend_of core]. rewrite Hq. reflexivity.
  - cbn [backend_of core authority_ids] in Hsend. rewrite HC, Hq, Hm in Hsend.
    destruct (Hsend paid_block [first_payment; second_payment] Hv (block_storable _)) as (v & H1 & H2 & _).
    + intros E. vm_compute in E. discriminate E.
    + exact Ht.
    + repeat constructor.
    + repeat constructor.
    + exists n, v. exact (conj Hn (conj H1 H2)).
Defined.

Definition json_size (_ : DagVertex) : option N := Some 100%N.

(** What the store of that validator satisfies, checked block by block. *)
Definition view_checked (V : gmap BlockReference Block) : bool :=
  forallb (λ x, forallb (λ y, negb (bool_decide (ref_digest x.1 = ref_digest y.1)) || bool_decide (x.1 = y.1)) (map_to_list V)
    && ((round x.2 =? 0)%N || is_ok (block_to_vertex block_codec names x.2))) (map_to_list V).
Lemma view_checked_ok V :
  view_checked V = true →
  (∀ r r', is_Some (V !! r) → is_Some (V !! r') → ref_digest r = ref_digest r' → r = r')
  ∧ (∀ r x, V !! r = Some x → (0 < round x)%N → ∃ v, block_to_vertex block_codec names x = Ok v).
Proof.
  unfold view_checked. rewrite forallb_forall. intros H.
  assert (Hin : ∀ r x, V !! r = Some x → In (r, x) (map_to_list V)) by (intros r x Hx; by apply list_elem_of_In, elem_of_map_to_list).
  split.
  - intros r r' [x Hx] [x' Hx'] Hd. specialize (H _ (Hin _ _ Hx)). apply andb_true_iff in H as [H _].
    rewrite forallb_forall in H. specialize (H _ (Hin _ _ Hx')). cbn [fst] in H. rewrite bool_decide_true in H by done.
    by apply bool_decide_eq_true in H.
  - intros r x Hx Hr. specialize (H _ (Hin _ _ Hx)). apply andb_true_iff in H as [_ H]. cbn [snd] in H.
    replace (round x =? 0)%N with false in H by (symmetry; apply N.eqb_neq; lia). cbn [orb] in H.
    destruct (block_to_vertex _ _ x) as [v|]; [by exists v|done].
Qed.
Lemma paid_view : ∃ n v, nodes paid_state !! 2%N = Some n ∧ view_checked (core_view (node_core n)) = true
  ∧ core_view (node_core n) !! reference paid_block = Some paid_block ∧ block_to_vertex block_codec names paid_block = Ok v.
Proof.
  assert (H : match nodes paid_state !! 2%N with
    | Some n => view_checked (core_view (node_core n))
        && bool_decide (core_view (node_core n) !! reference paid_block = Some paid_block)
    | None => false end = true) by (vm_compute; reflexivity).
  assert (Hv : is_ok (block_to_vertex block_codec names paid_block) = true) by (vm_compute; reflexivity).
  destruct (nodes paid_state !! 2%N) as [n|]; [|discriminate H]. apply andb_true_iff in H as [H1 H2].
  apply bool_decide_eq_true in H2. destruct (block_to_vertex block_codec names paid_block) as [v|]; [|discriminate Hv].
  exists n, v. exact (conj eq_refl (conj H1 (conj H2 eq_refl))).
Qed.

Lemma checkpoint_sync_answers_witness :
  ∃ n out, nodes paid_state !! 2%N = Some n
    ∧ checkpoint_vertices_for_sync block_codec json_size [ref_digest (reference paid_block)] 5 (backend_of n) = Ok out
    ∧ ref_digest (reference paid_block) ∈ map v_id out.
Proof.
  destruct paid_view as (n & v & Hn & Hview & Hp & Ev).
  destruct (setup_system _ _ _ _ _ _ _ _ demo_setup paid_reachable) as [_ Hok _]. destruct (Hok _ _ Hn) as [Hc _ _ _ _ _ _ _].
  destruct (view_checked_ok _ Hview) as [Hd Hconv]. destruct (core_view_ok _ _ Hc) as [Hl _ _].
  destruct (checkpoint_sync_answers block_codec json_size (backend_of n) (core_view (node_core n)) (Laws := Hl)
    (co_closed _ _ Hc) Hd Hconv (λ v, ex_intro _ 100%N eq_refl) [ref_digest (reference paid_block)] 5) as (out & H1 & _ & _ & _ & _ & H6).
  - discriminate.
  - discriminate.
  - apply Forall_singleton. exists v. split; [|apply (vertex_fields block_codec (backend_of n) _ _ Ev)].
    exists paid_block. split; [exact Hp|]. split; [vm_compute; reflexivity|exact Ev].
  - exists n, out. split; [exact Hn|]. split; [exact H1|]. apply H6; [apply le_n_S, Nat.le_0_l|by left].
Defined.
End Runs.
